(* ===== verification/_CoqProject ===== *)
-Q . S2P
Prelude.v
Bytes.v
Text.v
Utf16.v
F64.v
Types.v
Reader.v
Requests.v
Hostile.v
StreamPayloads.v
Frames.v
Host.v
Errors.v
Thrown.v
Wire.v
Outbox.v
Policy.v
Container.v
Meters.v
Warm.v
WarmLedger.v
Registry.v
Prefix.v
Link.v
Session.v
Answers.v
Connection.v
Engine.v
Timers.v
Guard.v
Isolate.v
RunState.v
Console.v
AsyncContext.v
Streams.v
Bridge.v
Globals.v
Modules.v
RunLoop.v
Warmup.v
Turns.v
Grace.v
Instance.v
Taint.v
Framed.v
InstanceRuns.v
EntryPoints.v
Owner.v
Dispatch.v
Startup.v
Webcodec.v
Rehydrate.v
Blob.v
WebTypes.v
Snapshot.v
