(* ===== verification/Prelude.v ===== *)
(** * iso4: a verification library for the native runtime

    iso4 runs untrusted JavaScript in V8 isolates.  A host process (the
    TypeScript client, [packages/iso4-sandbox]) talks over a Unix socket to a
    native child process, whose code is under [crates/]: [types] (plain data),
    [core] (the engine: prefixes, the warm registry, policies, and the V8 side)
    and [server] (frames, payload codecs, the per-connection session).

    This library models the parts of [crates/] that decide what the runtime
    does, and proves what they promise one another.  V8 itself, the operating
    system and the clock are not modelled: what an operation reads from them is
    an argument of its definition.

    ** Files and what they model

    - [Prelude], [Bytes], [Text], [Utf16], [F64]: results and I/O errors, machine
      integers, big-endian bytes, UTF-8 (validity, character boundaries, lossless
      conversion), the UTF-16 units of V8's strings, and IEEE doubles as
      [spec_float] at binary64, so the floating-point code of the policies
      evaluates in the kernel.
    - [Types]: [crates/types/src/lib.rs]; limits, the prefix shape, completions,
      the resolution of the heap lines.
    - [Reader]: the [PayloadReader] of [crates/server/src/ipc.rs] as a parser
      monad over a cursor whose slices panic out of range as the source's do, with a
      class for what it may allocate, and the theory of parsers ([Parses]:
      acceptance, value and consumption at once).
    - [Requests], [StreamPayloads], [Hostile]: the request, stream and control
      parsers of [ipc.rs] next to the host client's encoders ([ipc.ts]), and
      their behaviour on arbitrary bytes.
    - [Frames]: message types, reading and writing of frames over any sequence of
      socket reads, the handshake payloads.  [Host]: the other end of the socket, the
      [FrameReader] of [packages/iso4-sandbox/src/ipc.ts], with the reference it is
      compared with: all bytes decoded in one piece.
    - [Errors]: [crates/core/src/errors.rs]; the run error, its code, message and
      payload, the clamps on error text.  [Thrown]: [v8/exceptions.rs] and the error
      half of [bridge.rs]; how a thrown value becomes a run error, and a handler's
      error an object of the isolate and back, over a heap of objects whose getters,
      proxies and setters run guest code.
    - [Wire]: [crates/server/src/wire.rs]; every encoder and the bridge-response
      parser, next to the host client's decoders (module [Ts]).
    - [Outbox]: the connection writer of [ipc.rs] as a step relation: senders that
      write inline, the bounded queue, the writer thread, handles, failures.  Any
      number of threads may be at the socket in a step; that only one is, is proved.
    - [Policy], [Container]: [crates/core/src/policy.rs] and [container.rs];
      victim choice, watermarks, strikes, admission, slots, join routing; the
      memory meter and its cache.  [Meters]: [rss.rs], [cpuclock.rs] and the
      descriptors of [container.rs]; the descriptor that concurrent samplers share,
      the parsing of a sample, the clocks.
    - [Warm], [WarmLedger], [Registry]: [crates/core/src/warm.rs]; the registry's
      operations on the state its lock guards, the ledger invariant, and the
      guarantees over every sequence of calls.  [Owner]: the handle of an instance
      and the thread behind it, from the first job to the end.
    - [Prefix]: [crates/core/src/prefix.rs]; the stored prefix and the rebind
      checks.
    - [Link]: [crates/core/src/link.rs], the conclusion of a run in
      [crates/core/src/v8/instance.rs], and the connection's [ConnLink].
    - [Session]: [crates/server/src/session.rs]; handshake, demultiplexer, routing
      table, teardown, over an interface to the engine.  [Answers]: what the outbox got
      of it, final frame by final frame.  [Connection]: the session, its
      outbox and the host's reader joined by the socket.
    - [Engine]: [crates/core/src/engine.rs]; the prefix store and the registry
      behind the session's interface, and their joint invariant.  [Dispatch]: [run] and
      [prefix_run] from the call to the completion, with [finish_run]; every send and
      critical section is a step.
    - [Timers]: [crates/core/src/v8/timers.rs]; the timer table, a heap with lazy
      deletion, and the abstract agenda it refines.
    - [Guard]: [crates/core/src/v8/guard.rs], with the reason cell and the CPU
      budget of [isolate.rs] and the run handle of [engine.rs]; the guard of an
      instance and the watchdog as a transition system.
    - [Isolate]: [isolate.rs]; what an isolate charges to the budget and why it is
      stopped.  [Warmup]: the cold start of an instance, [create_instance_core].
    - [RunState]: [runtable.rs] and [console.rs]; the run table, the utilization
      window, the capture of console lines.  [Console]: the rendering of a line over
      the heap of [Thrown].
    - [AsyncContext]: [node/async_hooks.rs] and the rider of [runtable.rs]; the slot
      V8 carries with continuations, as a big-step semantics of guest code.
    - [Streams]: [streams.rs]; module [Inb] inbound bodies, module [Outb] outbound
      bodies.
    - [Bridge]: [bridge.rs], with the stub list of [start_turn] and the reserved
      names of [globals.rs]; the call log, the stub callback with what a guest
      nests in it, the handle table, resolution of call targets.
    - [Globals]: [globals.rs], [url.rs] and the installers of [bridge.rs] and
      [timers.rs]; the global object, with the setters and frozen properties a guest
      may have left on it, and the URL callbacks.
    - [Modules]: [modules.rs] and the value globals of [globals.rs]; import
      resolution, host modules, evaluation of a prefix.
    - [RunLoop]: [runloop.rs], with [timer_turn] of [timers.rs],
      [cancel_all_out_streams] of [streams.rs], [extract_module_exports] of
      [modules.rs] and [invoke_requested_call] of [bridge.rs]; the state of a run,
      every kind of turn, the post-result phase, and the loop of a run with a
      channel of its own.  [Turns] and [Grace] hold its theorems.
      [EntryPoints]: the one-off run and the call on an instance, set up, driven by
      that loop and torn down.
    - [Instance]: [instance.rs]; the turn loop of a warm instance over an interface
      to the runs, with the timeout of its wait.  [Taint]: what an interrupted turn
      tells whom, over an environment that writes down what [finish_run] is handed.
      [InstanceRuns] implements the interface with [RunLoop], the timer tables of all
      runs and the touched runs ([TIMERS_TOUCHED]) kept between turns; [Framed]: a
      run's identity is fixed over its turns.
    - [Webcodec]: [webcodec.rs], next to the host's reader ([web-codec.ts]); the
      payloads of [Headers], [Request] and [Response], the brand key and the scan
      for it.  [Rehydrate]: [rehydrate], the walk over a deserialized graph that
      puts instances in place of stamped descriptors.  [WebTypes]: [webtypes.rs];
      what makes an object an instance, what builds and reads one, and the clock
      guest code sees.
    - [Snapshot]: [snapshot.rs] and the installers of [console.rs], [globals.rs],
      [webtypes.rs], [node/async_hooks.rs] and [timers.rs] it calls; the table of
      native callbacks, the furnished context, creation and boot.
    - [Blob]: [blob.rs]; the calls around V8's serializer, its delegates, and the
      slot in which a refusal waits for its caller.
    - [Startup]: [crates/server/src/main.rs], [oom.rs] and [v8/oom_label.rs]; the
      command line, the start of the process, the accept loop, the last line of a
      process that is out of memory.

    ** How the parts meet

    Interfaces are classes: [Allocator] (what the reader may reserve),
    [HashOrder] (some order of a hash map's entries), [VictimPicker] (a choice
    among the idle; the policy's picker is an instance), [HostLink] (a frontend
    as the engine sees it; the connection is an instance), [EngineOps] with
    [EngineOk] (the engine as a session sees it; the engine model is an
    instance), [CallOrder] (some order of a hash map's calls in flight), [V8Wire]
    with [V8WireOk] (V8's value serializer: what was written is read back),
    [V8Snapshot] with [V8SnapshotOk] (V8's snapshots: a callback keeps its place in the
    table it was written under),
    [AdaUrl] (the URL parser, a third-party crate), and [RunTurns] with
    [RunTurnsOk] and [RunAnswersOk] (a run's turns as the instance loop sees them;
    the turns of [RunLoop] are an instance).  A client's theorems are proved against the class.
    [Connection] runs [Session] beside the steps of [Outbox] - a frame the session's link
    accepts is one the outbox takes - and feeds what the writer put on the socket to the
    reader of [Host]; a run's final frame is told by what the host's router looks at.
    [EntryPoints] drives the loop of [RunLoop] between its own set-up and teardown;
    [Owner] runs [Instance.serve_instance] behind the job that created the isolate;
    [Console] renders over the heap of [Thrown].  V8 is the record [RunLoop.V8] where
    guest code may change everything of a run's world that its natives can reach, and
    nothing else ([guest]), and [Thrown.Js] where it may change the heap and raise.

    ** What the theorems show

    - Codec agreement: the request, stream and control parsers accept exactly
      what the host client writes, with the values written; what the runtime
      writes, the host decodes to the same completion, report, statistics or
      call; frames survive any segmentation of the socket; truncated and
      oversized frames are refused.
    - Hostile input: on arbitrary bytes the request parsers stay within the
      payload, reserve no more entries than it has bytes, and nest no deeper than
      the limit.
    - The outbox: at most one thread is at the socket and bytes of different frames
      never interleave, a graceful end has
      delivered everything, the queue is bounded.
    - The host's reader: its reads get the frames of the bytes laid end to end, however
      they were cut up and whenever the reads were asked for.
    - The connection as a whole: after an orderly end the host has read one final frame
      for every run that was refused or concluded, and never anything but a prefix of
      what the runtime sent.
    - Thrown values: whatever a guest throws, the error that leaves is valid text
      within the caps; a handler's error comes back as it was; rendering a console
      line leaves no exception.
    - Policy: each decision function against its declarative meaning; over traces
      where it has memory (the watermark latch, the strikes, the usage cache).
    - The registry: under every sequence of calls the counters equal what is
      pooled and held, attached instances stay, retired ones never serve again,
      a pressure pass drops exactly the decided number of idle instances, and
      the statistics do not depend on hash order.
    - The owner thread answers every job it takes (but for [job_lost_in_sweep]),
      whether or not the isolate can be created.
    - The session: run frames reach only their run, the final frames the outbox got
      are one for one the run requests no longer running, a completion is never lost to its own
      size, the handshake admits exactly the right peers.
    - The engine: with prepares, disposals, runs and both halves of the release
      hook interleaved at will, the books balance against the started runs, and
      no idle instance outlives its prefix; a run is released before it is answered,
      and its job reaches the channel before its messages.
    - Isolates: the timer table is an agenda in deadline order; every step that
      terminates an instance is an abort or a watchdog check meant for the turn it
      executes, and leaves its own reason, and every armed
      turn over its cap is killed; console capture, inbound and outbound bodies
      are faithful within their limits; the allocator's counter is the bytes of the
      live stores, and what is reported is the first cause; a cold start gives an
      instance exactly if its prefix evaluated and nothing stopped it; shared
      descriptors of the meters neither leak nor blind a meter.
    - Async context: the store a guest reads is the one of the innermost [run] in
      progress when its function was called or its continuation made (a timer's
      callback has none, [timer_callback_sees_no_store]), and a native belongs to the
      run whose code calls it.
    - The global object: arming an instance again runs none of the guest's code, and
      installs exactly the names and flags of the definitions.
    - The bridge: limits hold against nested and repeated calls, a call over one makes
      it the run's error and terminates the guest, an answer settles
      its own call once, the two reports of a run share out its calls, the handles
      of host modules reach their handlers.
    - The entry points: guest code runs only with the guard armed, and nothing armed
      outlives the run.
    - The turn loop: what counts as a run's time, that guest code runs under its
      run's guard, that a decided result stays, that the scan and the evaluation
      of a prefix end.  The exceptions found are theorems as well
      ([sync_return_unguarded], [timer_chain_outlives_wall],
      [late_answer_fails_decided_run]).
    - The instance loop: its wait times out at the nearest deadline, or once for the
      settling of an idle heap; it answers each job once (but for
      [job_lost_in_sweep]), and a taint answers everybody else, with its cause.
    - Host objects: what leaves the sandbox the host reads back as the same object,
      what enters it is well typed, and rehydration replaces exactly the stamped
      descriptors that are reached, each by one instance.  An instance reads back as
      it was built, and what an object is taken for is what a native shell last
      stamped on it ([shell_call_restamps]: also when called without [new]).
    - Blobs: what a caller is told of a refusal is the first refusal of its own call.
    - The snapshot: an isolate boots with what was installed at build time, and the
      table lists exactly the callbacks installed.

    ** Bounds, parameters and fuel

    Integers are unbounded [Z]; a width appears where the source wraps,
    saturates, casts or compares, and as a hypothesis ([is_u32] and the like)
    where a field is read from the wire.  Counters that only grow by one
    (instance ids, run tokens) are not wrapped.  Instants and durations are
    nanoseconds in [Z].  [f64::powf] has no specified precision: it is a
    parameter, and the statements that need it only ask that scores are not NaN.

    Fuel appears where the source has a bound of its own - the host-module parser
    ([MAX_HOST_MODULE_DEPTH]), the shedding loop (the verdict), the drive of the
    outbound streams ([OUT_DRIVE_MAX_ROUNDS], see [driving_ends]), the settling of
    a prefix ([PREFIX_SETTLE_MAX_CHECKPOINTS], see [prefix_evaluation_ends]) - in
    [scan], whose loop takes two rounds ([SCAN_ROUNDS], see [scan_rounds_enough]),
    in [rehydrate], which takes one round per object (see [rehydrate_ends]), in the
    guest code of [AsyncContext], which may run forever and is killed when fuel is used
    up (its theorem holds for every amount), and in the loops that may go on forever by
    design: [deadline_hit], [run_loop],
    [sweep_expired_deadlines] and [serve_loop].  Those return [None] or [Waiting]
    or [Sweeping], never a made-up result, when fuel or events are used up, and
    their theorems are about every prefix of the loop.

    A guard's kill is modelled as an interrupt of the turn at a reading of the
    reason cell.  In a turn's guest code the timer calls attributed to other runs are
    given by V8 ([foreign]) and take effect on those runs' tables when the turn's part
    with guest code ends.

    ** What is not modelled

    V8 itself and what the runtime only hands to it: the JavaScript of the shims
    ([webtypes.js] and the other scripts; what a script does to the global object is
    an argument), compiling and linking, the flags and hooks set on an isolate, the
    creation of stream objects, what a fresh backing store contains, how a snapshot is
    laid out.  The build script ([build.rs]) calls [snapshot::create] and the C++
    compiler.
    The macOS variants of the meters and the descriptor limit of the process are
    system calls without logic of their own.  Logging and tracing write what they
    are given.  [testval.rs], [testsupport.rs] and the benchmarks are compiled for
    tests only.  The TypeScript client appears with its frame reader, the encoders
    and decoders the runtime has to agree with, and the field a final frame is routed
    by; the rest of it is another program. *)

From stdpp Require Export prelude strings gmap pretty.
From Stdlib Require Export Strings.Byte.
From Stdlib Require String.

#[global] Open Scope Z_scope.

(** ** Results

    [result E A] is Rust's [Result<A, E>].  The monad is the [?] operator. *)

Inductive result (E A : Type) : Type :=
  | Ok (a : A)
  | Err (e : E).
Arguments Ok {E A} a.
Arguments Err {E A} e.

#[export] Instance result_ret {E} : MRet (result E) := fun A a => Ok a.
#[export] Instance result_bind {E} : MBind (result E) := fun A B f r =>
  match r with Ok a => f a | Err e => Err e end.
#[export] Instance result_fmap {E} : FMap (result E) := fun A B f r =>
  match r with Ok a => Ok (f a) | Err e => Err e end.

Definition map_err {E F A} (f : E -> F) (r : result E A) : result F A :=
  match r with Ok a => Ok a | Err e => Err (f e) end.

Definition is_ok {E A} (r : result E A) : bool :=
  match r with Ok _ => true | Err _ => false end.

#[export] Instance result_eq_dec {E A} `{EqDecision E, EqDecision A} :
  EqDecision (result E A).
Proof. solve_decision. Defined.

Lemma bind_ok {E A B} (r : result E A) (f : A -> result E B) b :
  r ≫= f = Ok b <-> exists a, r = Ok a /\ f a = Ok b.
Proof. destruct r; cbn; naive_solver. Qed.

Lemma bind_err {E A B} (r : result E A) (f : A -> result E B) e :
  r ≫= f = Err e <-> r = Err e \/ exists a, r = Ok a /\ f a = Err e.
Proof. destruct r; cbn; naive_solver. Qed.

Lemma fmap_ok {E A B} (f : A -> B) (r : result E A) b :
  f <$> r = Ok b <-> exists a, r = Ok a /\ f a = b.
Proof. destruct r; cbn; naive_solver. Qed.

(** ** [std::io::Error] *)

Inductive ErrorKind : Type :=
  | UnexpectedEof
  | InvalidData
  | InvalidInput
  | OutOfMemory
  | BrokenPipe
  | TimedOut
  | WriteZero
  | Interrupted
  | WouldBlock
  | Other.

#[export] Instance ErrorKind_eq_dec : EqDecision ErrorKind.
Proof. solve_decision. Defined.

Record io_error := mk_io_error { kind : ErrorKind; detail : string }.

#[export] Instance io_error_eq_dec : EqDecision io_error.
Proof. solve_decision. Defined.

Abbreviation io := (result io_error).

Definition fail {A} (k : ErrorKind) (msg : string) : io A := Err (mk_io_error k msg).

(** ** Machine integers

    Integers are [Z]; a width only shows where the source wraps, saturates or
    compares against a bound. *)

Definition u8_max  : Z := 255.
Definition u32_max : Z := 4294967295.
Definition u64_max : Z := 18446744073709551615.

Definition is_u8  (z : Z) : Prop := 0 <= z <= u8_max.
Definition is_u32 (z : Z) : Prop := 0 <= z <= u32_max.
Definition is_u64 (z : Z) : Prop := 0 <= z <= u64_max.

#[export] Instance is_u8_dec z : Decision (is_u8 z).
Proof. unfold is_u8. apply _. Defined.
#[export] Instance is_u32_dec z : Decision (is_u32 z).
Proof. unfold is_u32. apply _. Defined.
#[export] Instance is_u64_dec z : Decision (is_u64 z).
Proof. unfold is_u64. apply _. Defined.

Definition sat_add (max a b : Z) : Z := Z.min max (a + b).
Definition sat_sub (a b : Z) : Z := Z.max 0 (a - b).
Definition sat_mul (max a b : Z) : Z := Z.min max (a * b).
Definition wrap_add (max a b : Z) : Z := (a + b) mod (max + 1).
Definition checked_add (max a b : Z) : option Z :=
  if a + b <=? max then Some (a + b) else None.
Definition abs_diff (a b : Z) : Z := Z.abs (a - b).

(** [u32::try_from] on a count. *)
Definition try_u32 (n : Z) : option Z := if n <=? u32_max then Some n else None.

(** Length of a list or vector as the [usize] the source computes with. *)
Abbreviation zlen l := (Z.of_nat (length l)).

(** The library's integer solver: unfolds the width definitions first. *)
Ltac zsolve :=
  unfold is_u8, is_u32, is_u64, sat_add, sat_sub, sat_mul, abs_diff,
    u8_max, u32_max, u64_max in *; lia.

Create HintDb iso4.
#[export] Hint Extern 1 (is_u8 _) => zsolve : iso4.
#[export] Hint Extern 1 (is_u32 _) => zsolve : iso4.
#[export] Hint Extern 1 (is_u64 _) => zsolve : iso4.

(** ** Generic list lemmas *)

Lemma drop_app_len {A} (l k : list A) : drop (length l) (l ++ k) = k.
Proof. by rewrite drop_app_length. Qed.

Lemma drop_drop_app {A} (n m : nat) (l bs rest : list A) :
  drop n l = bs ++ rest -> m = (n + length bs)%nat -> drop m l = rest.
Proof. intros H ->. by rewrite <- drop_drop, H, drop_app_len. Qed.

Lemma take_app_len {A} (l k : list A) : take (length l) (l ++ k) = l.
Proof. by rewrite take_app_length. Qed.

Lemma drop_split {A} (n m : nat) (l : list A) :
  drop n l = take m (drop n l) ++ drop (n + m) l.
Proof. by rewrite <- drop_drop, take_drop. Qed.

Lemma map_id_eq {A} (l : list A) : map id l = l.
Proof. apply List.map_id. Qed.

(** Sum of a measure over a list. *)
Fixpoint sum_by {A} (f : A -> Z) (l : list A) : Z :=
  match l with [] => 0 | x :: l => f x + sum_by f l end.

Lemma sum_by_app {A} (f : A -> Z) l k : sum_by f (l ++ k) = sum_by f l + sum_by f k.
Proof. induction l; cbn; lia. Qed.

Lemma sum_by_nonneg {A} (f : A -> Z) l : (forall x, 0 <= f x) -> 0 <= sum_by f l.
Proof. intros Hf. induction l as [|x l IH]; cbn; [lia | pose proof (Hf x); lia]. Qed.

Lemma sum_by_perm {A} (f : A -> Z) l k : l ≡ₚ k -> sum_by f l = sum_by f k.
Proof. induction 1; cbn; lia. Qed.

Lemma sum_by_ext {A} (f g : A -> Z) l :
  (forall x, x ∈ l -> f x = g x) -> sum_by f l = sum_by g l.
Proof.
  induction l as [|x l IH]; intros H; cbn; [done|].
  rewrite (H x), IH; [done | | left]. intros y Hy. apply H. by right.
Qed.

#[export] Hint Rewrite @sum_by_app @length_app @length_take @length_drop : iso4.

(** ** Tactics *)

(** Split every [bind]/[fmap] equation over [result] in the context. *)
Ltac simplify_res :=
  repeat match goal with
  | H : (_ ≫= _) = Ok _ |- _ => apply bind_ok in H; destruct H as (? & ? & ?)
  | H : (_ <$> _) = Ok _ |- _ => apply fmap_ok in H; destruct H as (? & ? & ?)
  | H : Ok _ = Ok _ |- _ => injection H as H
  | H : Err _ = Ok _ |- _ => discriminate H
  | H : Ok _ = Err _ |- _ => discriminate H
  | H : fail _ _ = Ok _ |- _ => discriminate H
  end; simplify_eq.

(** Case split on the discriminee of the first [match]/[if] of a hypothesis. *)
Ltac split_match H :=
  match type of H with
  | context [match ?x with _ => _ end] => destruct x eqn:?
  end.
