(* ===== verification/Bytes.v ===== *)
(** * Bytes, big-endian integers and UTF-8 text

    A [Vec<u8>] is a [list byte]; a Rust [String]/[&str] is a Rocq [string]
    (a byte string) that satisfies [utf8_ok].  The conversions of the
    standard library the codec uses are modelled here: [to_be_bytes],
    [from_be_bytes], [String::from_utf8], [str::is_char_boundary] and the
    [Display] / [{:#04x}] formatting of integers. *)

From S2P Require Import Prelude.
From Stdlib Require Import Ascii.
From Stdlib Require String.

(** ** One byte *)

Definition b2z (b : byte) : Z := Z.of_N (Byte.to_N b).
Definition z2b (z : Z) : byte :=
  match Byte.of_N (Z.to_N (z mod 256)) with Some b => b | None => x00 end.

Lemma b2z_range b : 0 <= b2z b <= 255.
Proof. unfold b2z. pose proof (Byte.to_N_bounded b). lia. Qed.

Lemma b2z_z2b z : b2z (z2b z) = z mod 256.
Proof.
  unfold b2z, z2b.
  assert (Hr : 0 <= z mod 256 < 256) by (apply Z.mod_pos_bound; lia).
  destruct (Byte.of_N (Z.to_N (z mod 256))) as [b|] eqn:Hb.
  - apply Byte.to_of_N in Hb. rewrite Hb. lia.
  - apply Byte.of_N_None_iff in Hb. lia.
Qed.

Lemma b2z_inj b c : b2z b = b2z c -> b = c.
Proof.
  unfold b2z. intros H. apply N2Z.inj in H.
  pose proof (Byte.of_to_N b) as Hb. pose proof (Byte.of_to_N c) as Hc.
  rewrite H in Hb. congruence.
Qed.

Lemma z2b_b2z b : z2b (b2z b) = b.
Proof.
  apply b2z_inj. rewrite b2z_z2b. apply Z.mod_small.
  pose proof (b2z_range b). lia.
Qed.

Lemma b2z_z2b_small z : 0 <= z <= 255 -> b2z (z2b z) = z.
Proof. intros H. rewrite b2z_z2b. apply Z.mod_small. lia. Qed.

#[export] Instance byte_eq_dec : EqDecision byte := Byte.byte_eq_dec.

(** ** Big-endian integers of [n] bytes *)

Fixpoint be_bytes (n : nat) (z : Z) : list byte :=
  match n with
  | O => []
  | S n => be_bytes n (z / 256) ++ [z2b z]
  end.

Definition be_val (bs : list byte) : Z :=
  fold_left (fun acc b => acc * 256 + b2z b) bs 0.

Lemma be_val_snoc bs b : be_val (bs ++ [b]) = be_val bs * 256 + b2z b.
Proof. unfold be_val. by rewrite fold_left_app. Qed.

Lemma length_be_bytes n z : length (be_bytes n z) = n.
Proof. revert z. induction n as [|n IH]; intros z; cbn; [done|]. rewrite length_app, IH. cbn. lia. Qed.

Lemma be_val_bytes n z : be_val (be_bytes n z) = z mod 256 ^ Z.of_nat n.
Proof.
  revert z. induction n as [|n IH]; intros z.
  - cbn. by rewrite Z.mod_1_r.
  - cbn [be_bytes]. rewrite be_val_snoc, IH, b2z_z2b.
    rewrite Nat2Z.inj_succ, Z.pow_succ_r by lia.
    rewrite Z.rem_mul_r by lia. lia.
Qed.

Lemma be_val_range bs : 0 <= be_val bs < 256 ^ zlen bs.
Proof.
  induction bs as [|b bs IH] using rev_ind; [cbn; lia|].
  rewrite be_val_snoc, length_app, Nat2Z.inj_add. cbn [length].
  rewrite Z.pow_add_r by lia. change (256 ^ Z.of_nat 1) with 256.
  pose proof (b2z_range b). nia.
Qed.

Lemma be_bytes_val bs : be_bytes (length bs) (be_val bs) = bs.
Proof.
  induction bs as [|b bs IH] using rev_ind; [done|].
  rewrite length_app. replace (length bs + length [b])%nat with (S (length bs)) by (cbn; lia).
  cbn [be_bytes]. rewrite be_val_snoc. pose proof (b2z_range b). f_equal.
  - rewrite Z.div_add_l, (Z.div_small (b2z b)), Z.add_0_r by lia. exact IH.
  - f_equal. apply b2z_inj. rewrite b2z_z2b, Z.add_comm, Z.mod_add by lia.
    apply Z.mod_small. lia.
Qed.

Lemma be_val_bytes_small n z : 0 <= z < 256 ^ Z.of_nat n -> be_val (be_bytes n z) = z.
Proof. intros H. rewrite be_val_bytes. by apply Z.mod_small. Qed.

Definition u16_be (z : Z) : list byte := be_bytes 2 z.
Definition u32_be (z : Z) : list byte := be_bytes 4 z.
Definition u64_be (z : Z) : list byte := be_bytes 8 z.

Lemma length_u32_be z : length (u32_be z) = 4%nat.
Proof. apply length_be_bytes. Qed.
Lemma length_u64_be z : length (u64_be z) = 8%nat.
Proof. apply length_be_bytes. Qed.

Lemma be_val_u32 z : is_u32 z -> be_val (u32_be z) = z.
Proof. intros H. apply be_val_bytes_small. change (256 ^ Z.of_nat 4) with 4294967296. zsolve. Qed.
Lemma be_val_u64 z : is_u64 z -> be_val (u64_be z) = z.
Proof.
  intros H. apply be_val_bytes_small.
  change (256 ^ Z.of_nat 8) with 18446744073709551616. zsolve.
Qed.
Lemma u32_be_val bs : length bs = 4%nat -> u32_be (be_val bs) = bs.
Proof. intros H. unfold u32_be. rewrite <- H. apply be_bytes_val. Qed.
Lemma be_val_is_u32 bs : length bs = 4%nat -> is_u32 (be_val bs).
Proof.
  intros H. pose proof (be_val_range bs) as Hr. rewrite H in Hr.
  change (256 ^ Z.of_nat 4) with 4294967296 in Hr. zsolve.
Qed.

#[export] Hint Rewrite length_u32_be length_u64_be length_be_bytes : iso4.

#[global] Arguments be_bytes : simpl never.
#[global] Arguments u16_be : simpl never.
#[global] Arguments u32_be : simpl never.
#[global] Arguments u64_be : simpl never.

(** ** Text *)

Definition as_bytes (s : string) : list byte := String.list_byte_of_string s.
Definition of_bytes (bs : list byte) : string := String.string_of_list_byte bs.

Lemma of_as_bytes s : of_bytes (as_bytes s) = s.
Proof. apply String.string_of_list_byte_of_string. Qed.
Lemma as_of_bytes bs : as_bytes (of_bytes bs) = bs.
Proof. apply String.list_byte_of_string_of_list_byte. Qed.

Lemma as_bytes_inj s t : as_bytes s = as_bytes t -> s = t.
Proof. intros H. rewrite <- (of_as_bytes s), <- (of_as_bytes t). by rewrite H. Qed.

Lemma as_bytes_app s t : as_bytes (s +:+ t) = as_bytes s ++ as_bytes t.
Proof.
  unfold as_bytes, String.list_byte_of_string.
  induction s as [|c s IH]; [done|].
  change (String c s +:+ t) with (String c (s +:+ t)). cbn. f_equal. apply IH.
Qed.

(** UTF-8 well-formedness, the check of [String::from_utf8]: the Unicode
    table of well-formed byte sequences (no overlong forms, no surrogates,
    nothing above U+10FFFF). *)
Definition in_range (lo hi : Z) (b : byte) : bool := (lo <=? b2z b) && (b2z b <=? hi).
Definition cont (b : byte) : bool := in_range 128 191 b.

Fixpoint utf8_ok (bs : list byte) : bool :=
  match bs with
  | [] => true
  | b0 :: r0 =>
    if in_range 0 127 b0 then utf8_ok r0
    else match r0 with
    | [] => false
    | b1 :: r1 =>
      if in_range 194 223 b0 then cont b1 && utf8_ok r1
      else match r1 with
      | [] => false
      | b2 :: r2 =>
        if in_range 224 224 b0 then in_range 160 191 b1 && cont b2 && utf8_ok r2
        else if in_range 225 236 b0 || in_range 238 239 b0 then cont b1 && cont b2 && utf8_ok r2
        else if in_range 237 237 b0 then in_range 128 159 b1 && cont b2 && utf8_ok r2
        else match r2 with
        | [] => false
        | b3 :: r3 =>
          if in_range 240 240 b0 then in_range 144 191 b1 && cont b2 && cont b3 && utf8_ok r3
          else if in_range 241 243 b0 then cont b1 && cont b2 && cont b3 && utf8_ok r3
          else if in_range 244 244 b0 then in_range 128 143 b1 && cont b2 && cont b3 && utf8_ok r3
          else false
        end
      end
    end
  end.

(** A Rust string value. *)
Definition str_ok (s : string) : Prop := utf8_ok (as_bytes s) = true.

#[export] Instance str_ok_dec s : Decision (str_ok s).
Proof. unfold str_ok. apply _. Defined.

(** [String::from_utf8] *)
Definition from_utf8 (bs : list byte) : option string :=
  if utf8_ok bs then Some (of_bytes bs) else None.

Lemma from_utf8_as_bytes s : str_ok s -> from_utf8 (as_bytes s) = Some s.
Proof. unfold str_ok, from_utf8. intros ->. by rewrite of_as_bytes. Qed.

Lemma from_utf8_some bs s : from_utf8 bs = Some s -> bs = as_bytes s /\ str_ok s.
Proof.
  unfold from_utf8, str_ok. destruct (utf8_ok bs) eqn:H; [|done].
  intros [= <-]. by rewrite as_of_bytes.
Qed.

(** ** Formatting *)

(** [Display] of an unsigned integer. *)
Definition show (z : Z) : string := pretty z.

Definition hex_digit (z : Z) : string :=
  String (ascii_of_nat (Z.to_nat (if z <? 10 then 48 + z else 87 + z))) EmptyString.

(** [{:#04x}] of a byte. *)
Definition show_hex (z : Z) : string := "0x" +:+ hex_digit (z / 16) +:+ hex_digit (z mod 16).
