(* ===== verification/Text.v ===== *)
(** * Cutting and formatting UTF-8 text

    [str::is_char_boundary] and the loop that backs a cut up to one, with the
    facts the error-text clamps rely on: text cut at a boundary is text, a cut
    gives up at most three bytes, and formatted integers are ASCII. *)

From S2P Require Import Prelude Bytes.
(** ** Cutting and joining UTF-8 *)

(** The first character of well-formed text: a lead byte and its continuation
    bytes, with whatever may follow. *)
Lemma utf8_head b0 r0 :
  utf8_ok (b0 :: r0) = true ->
  exists c r, r0 = c ++ r /\ (length c <= 3)%nat /\ Forall (fun b => cont b = true) c /\
    forall r', utf8_ok (b0 :: c ++ r') = utf8_ok r'.
Proof.
  assert (Hsub : forall lo hi b, 128 <= lo -> hi <= 191 -> in_range lo hi b = true -> cont b = true)
    by (unfold cont, in_range; intros; lia).
  intros H. cbn [utf8_ok] in H.
  destruct (in_range 0 127 b0) eqn:E0.
  { exists [], r0. split; [done|]. split; [cbn; lia|]. split; [done|]. intros r'. cbn. by rewrite E0. }
  destruct r0 as [|b1 r1]; [done|].
  destruct (in_range 194 223 b0) eqn:E1.
  { apply andb_prop in H as [H1 _]. exists [b1], r1. split; [done|]. split; [cbn; lia|]. split; [by constructor|].
    intros r'. cbn. by rewrite E0, E1, H1. }
  destruct r1 as [|b2 r2]; [done|].
  destruct (in_range 224 224 b0) eqn:E2.
  { apply andb_prop in H as [[H1 H2]%andb_prop _]. exists [b1; b2], r2. split; [done|]. split; [cbn; lia|].
    split; [repeat constructor; [by apply (Hsub 160 191)|done]|]. intros r'. cbn. by rewrite E0, E1, E2, H1, H2. }
  destruct (in_range 225 236 b0 || in_range 238 239 b0) eqn:E3.
  { apply andb_prop in H as [[H1 H2]%andb_prop _]. exists [b1; b2], r2. split; [done|]. split; [cbn; lia|].
    split; [by repeat constructor|]. intros r'. cbn. by rewrite E0, E1, E2, E3, H1, H2. }
  destruct (in_range 237 237 b0) eqn:E4.
  { apply andb_prop in H as [[H1 H2]%andb_prop _]. exists [b1; b2], r2. split; [done|]. split; [cbn; lia|].
    split; [repeat constructor; [by apply (Hsub 128 159)|done]|]. intros r'. cbn. by rewrite E0, E1, E2, E3, E4, H1, H2. }
  destruct r2 as [|b3 r3]; [done|].
  destruct (in_range 240 240 b0) eqn:E5.
  { apply andb_prop in H as [[[H1 H2]%andb_prop H3]%andb_prop _]. exists [b1; b2; b3], r3. split; [done|]. split; [cbn; lia|].
    split; [repeat constructor; [by apply (Hsub 144 191)|done|done]|]. intros r'. cbn. by rewrite E0, E1, E2, E3, E4, E5, H1, H2, H3. }
  destruct (in_range 241 243 b0) eqn:E6.
  { apply andb_prop in H as [[[H1 H2]%andb_prop H3]%andb_prop _]. exists [b1; b2; b3], r3. split; [done|]. split; [cbn; lia|].
    split; [by repeat constructor|]. intros r'. cbn. by rewrite E0, E1, E2, E3, E4, E5, E6, H1, H2, H3. }
  destruct (in_range 244 244 b0) eqn:E7; [|done].
  apply andb_prop in H as [[[H1 H2]%andb_prop H3]%andb_prop _]. exists [b1; b2; b3], r3. split; [done|]. split; [cbn; lia|].
  split; [repeat constructor; [by apply (Hsub 128 143)|done|done]|]. intros r'. cbn. by rewrite E0, E1, E2, E3, E4, E5, E6, E7, H1, H2, H3.
Qed.

Lemma utf8_app a b : utf8_ok a = true -> utf8_ok (a ++ b) = utf8_ok b.
Proof.
  remember (length a) as n eqn:Hn. revert a Hn.
  induction n as [n IH] using (well_founded_induction lt_wf). intros [|b0 r0] -> Ha; [done|].
  destruct (utf8_head b0 r0 Ha) as (c & r & -> & _ & _ & Hc). rewrite Hc in Ha.
  cbn [app]. rewrite <- app_assoc, Hc. apply (IH (length r)); [cbn; rewrite length_app; lia|done|done].
Qed.

(** A character does not start with a continuation byte. *)
Lemma utf8_lead_not_cont b r : utf8_ok (b :: r) = true -> cont b = false.
Proof.
  intros H. destruct (cont b) eqn:Hc; [|done]. exfalso. revert H.
  assert (Hno : forall lo hi, (hi < 128 \/ 191 < lo) -> in_range lo hi b = false)
    by (unfold cont, in_range in *; intros; lia).
  cbn [utf8_ok]. rewrite !Hno by lia. cbn [orb].
  destruct r as [|? [|? []]]; done.
Qed.

(** [str::is_char_boundary] *)
Definition is_char_boundary (bs : list byte) (i : nat) : bool :=
  Nat.eqb i 0 || match bs !! i with Some b => negb (cont b) | None => Nat.eqb i (length bs) end.

Lemma is_char_boundary_drop a r i :
  is_char_boundary (a ++ r) (length a + i) = true -> is_char_boundary r i = true.
Proof.
  unfold is_char_boundary. destruct (Nat.eqb_spec i 0); [done|]. cbn [orb].
  destruct (Nat.eqb_spec (length a + i) 0); [lia|]. cbn [orb].
  rewrite lookup_app_r by lia. replace (length a + i - length a)%nat with i by lia.
  destruct (r !! i); [done|]. rewrite length_app.
  destruct (Nat.eqb_spec (length a + i) (length a + length r)); [|done]. intros _. by apply Nat.eqb_eq; lia.
Qed.

(** Text cut at a character boundary is text. *)
Lemma utf8_take bs i :
  utf8_ok bs = true -> is_char_boundary bs i = true -> utf8_ok (take i bs) = true.
Proof.
  remember (length bs) as n eqn:Hn. revert bs i Hn.
  induction n as [n IH] using (well_founded_induction lt_wf). intros [|b0 r0] i -> Hb Hi; [by destruct i|].
  destruct i as [|i]; [done|].
  destruct (utf8_head b0 r0 Hb) as (c & r & -> & _ & Hc & Hr). rewrite Hr in Hb.
  assert (Hge : (length c <= i)%nat).
  { destruct (decide (c = [])) as [->|Hne]; [cbn; lia|].
    change (b0 :: c ++ r) with ((b0 :: c) ++ r) in Hi. unfold is_char_boundary in Hi. cbn [Nat.eqb orb app] in Hi.
    destruct (Nat.lt_ge_cases i (length c)) as [Hlt|]; [|done]. exfalso.
    change ((b0 :: c ++ r) !! S i) with ((c ++ r) !! i) in Hi. rewrite lookup_app_l in Hi by done.
    destruct (lookup_lt_is_Some_2 c i Hlt) as [b Hl]. rewrite Hl in Hi.
    rewrite Forall_lookup in Hc. by rewrite (Hc _ _ Hl) in Hi. }
  cbn [take]. rewrite take_app_ge, Hr by done. apply (IH (length r)); [cbn; rewrite length_app; lia|done|done|].
  apply (is_char_boundary_drop (b0 :: c)). cbn [length app]. by replace (S (length c) + (i - length c))%nat with (S i) by lia.
Qed.

(** The loop [while end > 0 && !text.is_char_boundary(end) { end -= 1 }]. *)
Fixpoint floor_char_boundary (bs : list byte) (end_ : nat) : nat :=
  match end_ with
  | O => O
  | S e => if is_char_boundary bs end_ then end_ else floor_char_boundary bs e
  end.

Lemma floor_char_boundary_spec bs n :
  is_char_boundary bs (floor_char_boundary bs n) = true /\ (floor_char_boundary bs n <= n)%nat.
Proof.
  induction n as [|n [IH1 IH2]]; [by split|]. cbn [floor_char_boundary].
  destruct (is_char_boundary bs (S n)) eqn:E; [by split|]. split; [done|lia].
Qed.

Lemma is_char_boundary_app a r i :
  is_char_boundary r i = true -> utf8_ok r = true -> is_char_boundary (a ++ r) (length a + i) = true.
Proof.
  intros Hb Hr. unfold is_char_boundary in *. destruct (Nat.eqb_spec (length a + i) 0) as [|Hne]; [done|]. cbn [orb].
  rewrite lookup_app_r by lia. replace (length a + i - length a)%nat with i by lia.
  destruct (Nat.eqb_spec i 0) as [Hi|]; [subst i|].
  - destruct r as [|b r]; cbn [lookup list_lookup].
    + rewrite app_nil_r. by apply Nat.eqb_eq; lia.
    + by rewrite (utf8_lead_not_cont b r).
  - cbn [orb] in Hb. destruct (r !! i); [done|]. rewrite length_app.
    apply Nat.eqb_eq in Hb. by apply Nat.eqb_eq; lia.
Qed.

Lemma utf8_boundary_near bs n :
  utf8_ok bs = true -> (n <= length bs)%nat ->
  exists m, (m <= n <= m + 3)%nat /\ is_char_boundary bs m = true.
Proof.
  remember (length bs) as l eqn:Hl. revert bs n Hl.
  induction l as [l IH] using (well_founded_induction lt_wf). intros [|b0 r0] n -> Hb Hn.
  { exists 0%nat. cbn in Hn. split; [lia|done]. }
  destruct (utf8_head b0 r0 Hb) as (c & r & -> & Hlc & _ & Hr). rewrite Hr in Hb.
  destruct (Nat.le_gt_cases (S (length c)) n) as [Hge|Hlt]; [|exists 0%nat; split; [lia|done]].
  cbn [length] in Hn. rewrite length_app in Hn.
  destruct (IH (length r) ltac:(cbn; rewrite length_app; lia) r (n - S (length c))%nat eq_refl Hb)
    as (m & Hm & Hbm); [lia|].
  exists (length (b0 :: c) + m)%nat. cbn [length]. split; [lia|].
  by apply (is_char_boundary_app (b0 :: c)).
Qed.

(** At most three bytes are given up: no character is longer than four. *)
Lemma floor_char_boundary_close bs n :
  utf8_ok bs = true -> (n <= length bs)%nat -> (n <= floor_char_boundary bs n + 3)%nat.
Proof.
  intros Hb Hn. destruct (utf8_boundary_near bs n Hb Hn) as (m & [Hmn Hm] & Hbm).
  assert (Hge : forall k, (m <= k)%nat -> (m <= floor_char_boundary bs k)%nat); [|specialize (Hge n Hmn); lia].
  induction k as [|k IHk]; intros Hk; [lia|]. cbn [floor_char_boundary].
  destruct (is_char_boundary bs (S k)) eqn:E; [done|]. apply IHk.
  destruct (decide (m = S k)) as [->|]; [congruence|lia].
Qed.

(** ASCII text *)
Definition ascii_text (s : string) : bool := forallb (in_range 0 127) (as_bytes s).

Lemma ascii_text_ok s : ascii_text s = true -> str_ok s.
Proof.
  unfold ascii_text, str_ok. induction (as_bytes s) as [|b bs IH]; cbn; [done|].
  intros [Hb Hbs]%andb_prop. rewrite Hb. by apply IH.
Qed.

Lemma ascii_text_app s t : ascii_text (s +:+ t) = ascii_text s && ascii_text t.
Proof. unfold ascii_text. by rewrite as_bytes_app, forallb_app. Qed.

Lemma pretty_go_ascii x s : ascii_text s = true -> ascii_text (pretty_N_go x s) = true.
Proof.
  revert s. induction (N.lt_wf_0 x) as [x _ IH]. intros s Hs.
  destruct (decide (x = 0)%N) as [->|Hx]; [by rewrite pretty_N_go_0|].
  rewrite pretty_N_go_step by lia. apply IH; [apply N.div_lt; lia|].
  change (String ?c ?s) with (String c EmptyString +:+ s). rewrite ascii_text_app, Hs, andb_true_r.
  unfold pretty_N_char. destruct (x `mod` 10)%N as [|p]; [done|]. do 4 (destruct p as [p|p|]; try done).
Qed.

Lemma pretty_N_ascii (n : N) : ascii_text (pretty n) = true.
Proof.
  unfold pretty, pretty_N. destruct (decide (n = 0)%N); [done|]. by apply pretty_go_ascii.
Qed.

Lemma show_ascii z : ascii_text (show z) = true.
Proof.
  unfold show. destruct z as [|p|p]; [done|apply (pretty_N_ascii (Npos p))|].
  change (ascii_text ("-" +:+ pretty (Npos p)) = true).
  by rewrite ascii_text_app, pretty_N_ascii.
Qed.
