(* ===== verification/Utf16.v ===== *)
(** * UTF-16 text

    A V8 string is a list of UTF-16 units.  [String::from_utf16_lossy] (which is
    also what [to_rust_string_lossy] gives), [v8::String::new], and the cut of a
    unit buffer that never splits a surrogate pair. *)

From S2P Require Import Prelude Bytes Text.

(** ** Characters *)

(** UTF-8 of a scalar value. *)
Definition encode_char (c : Z) : list byte :=
  if c <? 128 then [z2b c]
  else if c <? 2048 then [z2b (192 + c / 64); z2b (128 + c mod 64)]
  else if c <? 65536 then [z2b (224 + c / 4096); z2b (128 + c / 64 mod 64); z2b (128 + c mod 64)]
  else [z2b (240 + c / 262144); z2b (128 + c / 4096 mod 64); z2b (128 + c / 64 mod 64); z2b (128 + c mod 64)].

Definition lead (u : Z) : bool := (55296 <=? u) && (u <? 56320).
Definition trail (u : Z) : bool := (56320 <=? u) && (u <? 57344).
Definition pair_char (u1 u2 : Z) : Z := 65536 + (u1 - 55296) * 1024 + (u2 - 56320).

Definition REPLACEMENT : list byte := [xef; xbf; xbd].

Fixpoint utf16_bytes (us : list Z) : list byte :=
  match us with
  | [] => []
  | u :: us' =>
    if lead u then
      match us' with
      | u2 :: us'' => if trail u2 then encode_char (pair_char u u2) ++ utf16_bytes us'' else REPLACEMENT ++ utf16_bytes us'
      | [] => REPLACEMENT
      end
    else if trail u then REPLACEMENT ++ utf16_bytes us'
    else encode_char u ++ utf16_bytes us'
  end.

(** [String::from_utf16_lossy] *)
Definition utf16_lossy (us : list Z) : string := of_bytes (utf16_bytes us).

(** A cut inside a surrogate pair would decode to U+FFFD: drop the half. *)
Definition trim_lead (us : list Z) : list Z :=
  match last us with Some u => if lead u then removelast us else us | None => us end.

(** [v8::String::new] *)
Definition char_units (c : Z) : list Z := if c <? 65536 then [c] else [55296 + (c - 65536) / 1024; 56320 + (c - 65536) mod 1024].

Fixpoint units_of_bytes (bs : list byte) : list Z :=
  match bs with
  | [] => []
  | b0 :: r0 =>
    if in_range 0 127 b0 then b2z b0 :: units_of_bytes r0
    else match r0 with
    | [] => [65533]
    | b1 :: r1 =>
      if in_range 194 223 b0 then char_units ((b2z b0 - 192) * 64 + (b2z b1 - 128)) ++ units_of_bytes r1
      else match r1 with
      | [] => [65533]
      | b2 :: r2 =>
        if in_range 224 239 b0 then
          char_units ((b2z b0 - 224) * 4096 + (b2z b1 - 128) * 64 + (b2z b2 - 128)) ++ units_of_bytes r2
        else match r2 with
        | [] => [65533]
        | b3 :: r3 =>
          char_units ((b2z b0 - 240) * 262144 + (b2z b1 - 128) * 4096 + (b2z b2 - 128) * 64 + (b2z b3 - 128)) ++ units_of_bytes r3
        end
      end
    end
  end.

Definition v8_string (s : string) : list Z := units_of_bytes (as_bytes s).

(** UTF-16 units. *)
Definition units_ok (us : list Z) : Prop := Forall (fun u => 0 <= u < 65536) us.

(** ** Decoding gives text *)

(** Decide a range test from bounds on the byte. *)
Lemma in_range_yes lo hi b : lo <= b2z b <= hi -> in_range lo hi b = true.
Proof. unfold in_range. lia. Qed.
Lemma in_range_no lo hi b : b2z b < lo \/ hi < b2z b -> in_range lo hi b = false.
Proof. unfold in_range. lia. Qed.

Ltac decide_ranges :=
  unfold cont;
  repeat match goal with |- context [in_range ?lo ?hi ?b] =>
    first [rewrite (in_range_yes lo hi b) by lia | rewrite (in_range_no lo hi b) by lia]; cbn [orb andb] end.

Lemma utf8_1 b r : b2z b < 128 -> utf8_ok (b :: r) = utf8_ok r.
Proof. intros H. cbn [utf8_ok]. pose proof (b2z_range b). by decide_ranges. Qed.

Lemma utf8_2 b0 b1 r : 194 <= b2z b0 <= 223 -> 128 <= b2z b1 <= 191 -> utf8_ok (b0 :: b1 :: r) = utf8_ok r.
Proof. intros H0 H1. cbn [utf8_ok]. by decide_ranges. Qed.

Lemma utf8_3 b0 b1 b2 r :
  224 <= b2z b0 <= 239 -> 128 <= b2z b1 <= 191 -> 128 <= b2z b2 <= 191 -> (b2z b0 = 224 -> 160 <= b2z b1) -> (b2z b0 = 237 -> b2z b1 <= 159) ->
  utf8_ok (b0 :: b1 :: b2 :: r) = utf8_ok r.
Proof.
  intros H0 H1 H2 Ha Hs. cbn [utf8_ok].
  destruct (decide (b2z b0 = 224)); [by decide_ranges|]. destruct (decide (b2z b0 = 237)); [by decide_ranges|].
  destruct (decide (b2z b0 < 237)); by decide_ranges.
Qed.

Lemma utf8_4 b0 b1 b2 b3 r :
  240 <= b2z b0 <= 244 -> 128 <= b2z b1 <= 191 -> 128 <= b2z b2 <= 191 -> 128 <= b2z b3 <= 191 ->
  (b2z b0 = 240 -> 144 <= b2z b1) -> (b2z b0 = 244 -> b2z b1 <= 143) ->
  utf8_ok (b0 :: b1 :: b2 :: b3 :: r) = utf8_ok r.
Proof.
  intros H0 H1 H2 H3 Ha Hs. cbn [utf8_ok].
  destruct (decide (b2z b0 = 240)); [by decide_ranges|]. destruct (decide (b2z b0 = 244)); by decide_ranges.
Qed.

Lemma encode_char_text c r :
  0 <= c < 1114112 -> lead c = false -> trail c = false -> utf8_ok (encode_char c ++ r) = utf8_ok r.
Proof.
  intros Hc Hl Ht. assert (Hs : c < 55296 \/ 57344 <= c) by (unfold lead, trail in *; lia). clear Hl Ht. unfold encode_char.
  pose proof (Z.mod_pos_bound c 64 ltac:(lia)). pose proof (Z.mod_pos_bound (c / 64) 64 ltac:(lia)).
  pose proof (Z.mod_pos_bound (c / 4096) 64 ltac:(lia)).
  destruct (Z.ltb_spec c 128); [apply utf8_1; rewrite b2z_z2b_small; lia|].
  pose proof (Z.div_mod c 64 ltac:(lia)). pose proof (Z.div_mod (c / 64) 64 ltac:(lia)) as D1. rewrite Z.div_div in D1 by lia. change (64 * 64) with 4096 in D1.
  destruct (Z.ltb_spec c 2048); [apply utf8_2; rewrite b2z_z2b_small; lia|].
  destruct (Z.ltb_spec c 65536).
  - apply utf8_3; rewrite !b2z_z2b_small by lia; lia.
  - pose proof (Z.div_mod (c / 4096) 64 ltac:(lia)) as D2. rewrite Z.div_div in D2 by lia. change (4096 * 64) with 262144 in D2.
    assert (c / 4096 < 272 /\ 16 <= c / 4096 /\ c / 64 < 17408) by (split; [|split]; lia). apply utf8_4; rewrite !b2z_z2b_small by lia; lia.
Qed.

Lemma replacement_text r : utf8_ok (REPLACEMENT ++ r) = utf8_ok r.
Proof. reflexivity. Qed.

Lemma pair_char_scalar u1 u2 : lead u1 = true -> trail u2 = true ->
  65536 <= pair_char u1 u2 < 1114112.
Proof. unfold lead, trail, pair_char. lia. Qed.

Lemma big_not_surrogate c : 65536 <= c -> lead c = false /\ trail c = false.
Proof. unfold lead, trail. lia. Qed.

(** Decoded text is text, whatever the units. *)
Lemma utf16_bytes_text us : units_ok us -> utf8_ok (utf16_bytes us) = true.
Proof.
  remember (length us) as n eqn:Hn. revert us Hn. induction n as [n IH] using (well_founded_induction lt_wf).
  intros [|u us] -> Hu; [done|]. apply Forall_cons in Hu as [Hu Hus]. cbn [utf16_bytes].
  destruct (lead u) eqn:El.
  - destruct us as [|u2 us]; [done|]. destruct (trail u2) eqn:Et.
    + pose proof (pair_char_scalar _ _ El Et) as Hp. destruct (big_not_surrogate _ (proj1 Hp)) as [H1 H2].
      rewrite encode_char_text by (done || lia). apply Forall_cons in Hus as [_ Hus]. apply (IH (length us)); [cbn; lia|done|done].
    + rewrite replacement_text. apply (IH (length (u2 :: us))); [cbn; lia|done|done].
  - destruct (trail u) eqn:Et; [rewrite replacement_text|rewrite encode_char_text by (done || lia)]; (apply (IH (length us)); [cbn; lia|done|done]).
Qed.

Lemma utf16_lossy_ok us : units_ok us -> str_ok (utf16_lossy us).
Proof. intros H. unfold str_ok, utf16_lossy. rewrite as_of_bytes. by apply utf16_bytes_text. Qed.

Lemma encode_char_length c : (length (encode_char c) <= 4)%nat /\ (c < 65536 -> (length (encode_char c) <= 3)%nat).
Proof. unfold encode_char. destruct (c <? 128), (c <? 2048), (c <? 65536) eqn:E; cbn; lia. Qed.

Lemma utf16_bytes_length us : units_ok us -> (length (utf16_bytes us) <= 3 * length us)%nat.
Proof.
  remember (length us) as n eqn:Hn. revert us Hn. induction n as [n IH] using (well_founded_induction lt_wf).
  intros [|u us] -> Hu; [done|]. apply Forall_cons in Hu as [Hu Hus].
  pose proof (IH (length us) ltac:(cbn; lia) us eq_refl Hus) as H1. pose proof (proj2 (encode_char_length u) (proj2 Hu)) as H2.
  cbn [utf16_bytes]. destruct (lead u).
  - destruct us as [|u2 us]; [cbn; lia|]. destruct (trail u2).
    + apply Forall_cons in Hus as [_ Hus]. pose proof (IH (length us) ltac:(cbn; lia) us eq_refl Hus).
      pose proof (proj1 (encode_char_length (pair_char u u2))). rewrite length_app. cbn [length] in *. lia.
    + rewrite length_app. cbn [length REPLACEMENT] in *. lia.
  - destruct (trail u); rewrite length_app; cbn [length REPLACEMENT] in *; lia.
Qed.

(** ** A trimmed cut decodes to a prefix *)

Lemma trim_lead_cons u x us : trim_lead (u :: x :: us) = u :: trim_lead (x :: us).
Proof. unfold trim_lead. change (last (u :: x :: us)) with (last (x :: us)). destruct (last (x :: us)) as [l|]; [|done]. by destruct (lead l). Qed.

Lemma trail_not_lead u : trail u = true -> lead u = false.
Proof. unfold lead, trail. lia. Qed.

Lemma trim_lead_prefix us n : exists rest, utf16_bytes us = utf16_bytes (trim_lead (take n us)) ++ rest.
Proof.
  remember (length us) as k eqn:Hk. revert us n Hk. induction k as [k IH] using (well_founded_induction lt_wf).
  intros [|u us] n ->; [exists []; by destruct n|]. destruct n as [|n]; [by eexists|].
  destruct (lead u) eqn:El.
  - destruct us as [|u2 us].
    { exists REPLACEMENT. replace (take (S n) [u]) with [u] by by destruct n. unfold trim_lead. cbn. by rewrite El. }
    destruct n as [|n]; [exists (utf16_bytes (u :: u2 :: us)); unfold trim_lead; cbn [take last]; by rewrite El|].
    cbn [take]. rewrite trim_lead_cons. destruct (trail u2) eqn:Et.
    + assert (Htr : exists t, trim_lead (u2 :: take n us) = u2 :: t /\ t = trim_lead (take n us)).
      { destruct (take n us) as [|x l] eqn:Ex; [exists []; split; [|done]; unfold trim_lead; cbn; by rewrite (trail_not_lead _ Et)|].
        exists (trim_lead (x :: l)). split; [apply trim_lead_cons|done]. }
      destruct Htr as (t & -> & ->). destruct (IH (length us) ltac:(cbn; lia) us n eq_refl) as [rest Hr].
      exists rest. cbn [utf16_bytes]. rewrite El, Et, Hr. by rewrite app_assoc.
    + destruct (IH (length (u2 :: us)) ltac:(cbn; lia) (u2 :: us) (S n) eq_refl) as [rest Hr]. cbn [take] in Hr.
      exists rest. change (utf16_bytes (u :: u2 :: us)) with (if lead u then if trail u2 then encode_char (pair_char u u2) ++ utf16_bytes us
        else REPLACEMENT ++ utf16_bytes (u2 :: us) else if trail u then REPLACEMENT ++ utf16_bytes (u2 :: us) else encode_char u ++ utf16_bytes (u2 :: us)).
      rewrite El, Et, Hr. destruct (trim_lead (u2 :: take n us)) as [|x l] eqn:Ex; [cbn [utf16_bytes]; by rewrite El|].
      assert (x = u2) as ->.
      { destruct (take n us) as [|y l'] eqn:Ey; [unfold trim_lead in Ex; cbn in Ex; destruct (lead u2); by simplify_eq|].
        rewrite trim_lead_cons in Ex. by simplify_eq. }
      set (t := u2 :: l). cbn [utf16_bytes]. rewrite El. unfold t. by rewrite Et, app_assoc.
  - destruct (IH (length us) ltac:(cbn; lia) us n eq_refl) as [rest Hr]. exists rest.
    assert (Ht : trim_lead (take (S n) (u :: us)) = u :: trim_lead (take n us)).
    { cbn [take]. destruct (take n us) as [|x l]; [unfold trim_lead; cbn; by rewrite El|]. apply trim_lead_cons. }
    rewrite Ht. cbn [utf16_bytes]. rewrite El, Hr. destruct (trail u); by rewrite app_assoc.
Qed.

(** ** What goes into V8 comes out *)

Lemma encode_char_units c rest :
  0 <= c < 1114112 -> lead c = false -> trail c = false -> utf16_bytes (char_units c ++ rest) = encode_char c ++ utf16_bytes rest.
Proof.
  intros Hc Hl Ht. unfold char_units. destruct (Z.ltb_spec c 65536); cbn [app utf16_bytes]; [by rewrite Hl, Ht|].
  pose proof (Z.mod_pos_bound (c - 65536) 1024 ltac:(lia)) as M. pose proof (Z.div_mod (c - 65536) 1024 ltac:(lia)) as D.
  assert (A1 : lead (55296 + (c - 65536) / 1024) = true) by (unfold lead; lia).
  assert (A2 : trail (56320 + (c - 65536) mod 1024) = true) by (unfold trail; lia).
  rewrite A1, A2. do 2 f_equal. unfold pair_char. lia.
Qed.

Lemma z2b_is z b : z = b2z b -> z2b z = b.
Proof. intros ->. apply z2b_b2z. Qed.

(** The scalar values of sequences of two, three and four bytes: no surrogates, and
    encoded as those bytes. *)
Definition scalar2 (b0 b1 : byte) : Z := (b2z b0 - 192) * 64 + (b2z b1 - 128).
Definition scalar3 (b0 b1 b2 : byte) : Z := (b2z b0 - 224) * 4096 + (b2z b1 - 128) * 64 + (b2z b2 - 128).
Definition scalar4 (b0 b1 b2 b3 : byte) : Z := (b2z b0 - 240) * 262144 + (b2z b1 - 128) * 4096 + (b2z b2 - 128) * 64 + (b2z b3 - 128).

Ltac quotient := symmetry; match goal with |- ?q = ?a / ?b => apply (Z.div_unique a b q (a - b * q)); unfold scalar2, scalar3, scalar4; lia end.
Ltac remainder_by q := symmetry; apply (Z.mod_unique _ _ q); lia.

Lemma encode_scalar2 b0 b1 : 194 <= b2z b0 <= 223 -> 128 <= b2z b1 <= 191 ->
  128 <= scalar2 b0 b1 < 2048 /\ encode_char (scalar2 b0 b1) = [b0; b1].
Proof.
  intros R0 R1. assert (Hc : 128 <= scalar2 b0 b1 < 2048) by (unfold scalar2; lia). split; [done|].
  assert (Hd : scalar2 b0 b1 / 64 = b2z b0 - 192) by quotient.
  assert (Hm : scalar2 b0 b1 mod 64 = b2z b1 - 128) by (unfold scalar2; remainder_by (b2z b0 - 192)).
  unfold encode_char. destruct (Z.ltb_spec (scalar2 b0 b1) 128); [lia|]. destruct (Z.ltb_spec (scalar2 b0 b1) 2048); [|lia].
  by rewrite (z2b_is _ b0), (z2b_is _ b1) by lia.
Qed.

Lemma encode_scalar3 b0 b1 b2 : 224 <= b2z b0 <= 239 -> 128 <= b2z b1 <= 191 -> 128 <= b2z b2 <= 191 ->
  (b2z b0 = 224 -> 160 <= b2z b1) -> (b2z b0 = 237 -> b2z b1 <= 159) -> let c := scalar3 b0 b1 b2 in
  (lead c = false /\ trail c = false /\ 2048 <= c < 65536) /\ encode_char c = [b0; b1; b2].
Proof.
  intros R0 R1 R2 Ha Hs c.
  assert (Hc : lead c = false /\ trail c = false /\ 2048 <= c < 65536).
  { unfold lead, trail, c, scalar3. destruct (decide (b2z b0 = 224)), (decide (b2z b0 = 237)), (decide (b2z b0 < 237)); lia. }
  split; [done|]. destruct Hc as (_ & _ & Hc). unfold c in *.
  assert (D1 : scalar3 b0 b1 b2 / 4096 = b2z b0 - 224) by quotient.
  assert (D2 : scalar3 b0 b1 b2 / 64 = (b2z b0 - 224) * 64 + (b2z b1 - 128)) by quotient.
  assert (M2 : scalar3 b0 b1 b2 / 64 mod 64 = b2z b1 - 128) by (rewrite D2; remainder_by (b2z b0 - 224)).
  assert (M3 : scalar3 b0 b1 b2 mod 64 = b2z b2 - 128) by (unfold scalar3; remainder_by ((b2z b0 - 224) * 64 + (b2z b1 - 128))).
  unfold encode_char. destruct (Z.ltb_spec (scalar3 b0 b1 b2) 128); [lia|]. destruct (Z.ltb_spec (scalar3 b0 b1 b2) 2048); [lia|].
  destruct (Z.ltb_spec (scalar3 b0 b1 b2) 65536); [|lia]. by rewrite (z2b_is _ b0), (z2b_is _ b1), (z2b_is _ b2) by lia.
Qed.

Lemma encode_scalar4 b0 b1 b2 b3 : 240 <= b2z b0 <= 244 -> 128 <= b2z b1 <= 191 -> 128 <= b2z b2 <= 191 -> 128 <= b2z b3 <= 191 ->
  (b2z b0 = 240 -> 144 <= b2z b1) -> (b2z b0 = 244 -> b2z b1 <= 143) -> let c := scalar4 b0 b1 b2 b3 in
  65536 <= c < 1114112 /\ encode_char c = [b0; b1; b2; b3].
Proof.
  intros R0 R1 R2 R3 Ha Hs c.
  assert (Hc : 65536 <= c < 1114112) by (unfold c, scalar4; destruct (decide (b2z b0 = 240)), (decide (b2z b0 = 244)); lia).
  split; [done|]. unfold c in *.
  assert (D1 : scalar4 b0 b1 b2 b3 / 262144 = b2z b0 - 240) by quotient.
  assert (D2 : scalar4 b0 b1 b2 b3 / 4096 = (b2z b0 - 240) * 64 + (b2z b1 - 128)) by quotient.
  assert (D3 : scalar4 b0 b1 b2 b3 / 64 = (b2z b0 - 240) * 4096 + (b2z b1 - 128) * 64 + (b2z b2 - 128)) by quotient.
  assert (M2 : scalar4 b0 b1 b2 b3 / 4096 mod 64 = b2z b1 - 128) by (rewrite D2; remainder_by (b2z b0 - 240)).
  assert (M3 : scalar4 b0 b1 b2 b3 / 64 mod 64 = b2z b2 - 128) by (rewrite D3; remainder_by ((b2z b0 - 240) * 64 + (b2z b1 - 128))).
  assert (M4 : scalar4 b0 b1 b2 b3 mod 64 = b2z b3 - 128)
    by (unfold scalar4; remainder_by ((b2z b0 - 240) * 4096 + (b2z b1 - 128) * 64 + (b2z b2 - 128))).
  unfold encode_char. destruct (Z.ltb_spec (scalar4 b0 b1 b2 b3) 128); [lia|]. destruct (Z.ltb_spec (scalar4 b0 b1 b2 b3) 2048); [lia|].
  destruct (Z.ltb_spec (scalar4 b0 b1 b2 b3) 65536); [lia|]. by rewrite (z2b_is _ b0), (z2b_is _ b1), (z2b_is _ b2), (z2b_is _ b3) by lia.
Qed.

Lemma utf16_units bs : utf8_ok bs = true -> utf16_bytes (units_of_bytes bs) = bs.
Proof.
  remember (length bs) as n eqn:Hn. revert bs Hn. induction n as [n IH] using (well_founded_induction lt_wf).
  intros [|b0 r0] -> Hb; [done|]. cbn [units_of_bytes]. pose proof (b2z_range b0) as R0. cbn [utf8_ok] in Hb.
  destruct (in_range 0 127 b0) eqn:E0.
  { unfold in_range in E0. cbn [utf16_bytes]. unfold lead, trail.
    rewrite !(proj2 (andb_false_iff _ _)) by (left; apply Z.leb_gt; lia).
    rewrite (IH (length r0)) by (done || cbn; lia). unfold encode_char. destruct (Z.ltb_spec (b2z b0) 128); [|lia]. by rewrite z2b_b2z. }
  destruct r0 as [|b1 r1]; [done|]. pose proof (b2z_range b1) as R1.
  destruct (in_range 194 223 b0) eqn:E1.
  { apply andb_prop in Hb as [H1 Hb]. unfold cont, in_range in *. fold (scalar2 b0 b1).
    destruct (encode_scalar2 b0 b1) as [Hc He]; [lia..|].
    rewrite encode_char_units by (unfold lead, trail; lia). by rewrite (IH (length r1)), He by (done || cbn; lia). }
  destruct r1 as [|b2 r2]; [done|]. pose proof (b2z_range b2) as R2.
  destruct (in_range 224 239 b0) eqn:E2.
  { assert (H3 : (cont b1 = true /\ cont b2 = true /\ utf8_ok r2 = true) /\ (b2z b0 = 224 -> 160 <= b2z b1) /\ (b2z b0 = 237 -> b2z b1 <= 159)).
    { clear IH. unfold cont, in_range in *.
      repeat match type of Hb with context [if ?x then _ else _] => destruct x eqn:? end; try lia.
      all: try (by destruct r2). all: repeat (apply andb_prop in Hb as [Hb ?]); repeat split; done || lia. }
    destruct H3 as ((H1 & H2 & H3) & Ha & Hs). unfold cont, in_range in *. fold (scalar3 b0 b1 b2).
    destruct (encode_scalar3 b0 b1 b2) as [(Hl & Ht & Hc) He]; [lia..|].
    rewrite encode_char_units by (done || lia). by rewrite (IH (length r2)), He by (done || cbn; lia). }
  destruct r2 as [|b3 r3].
  { exfalso. unfold in_range in *. repeat match type of Hb with context [if ?x then _ else _] => destruct x eqn:? end; try discriminate Hb; lia. }
  pose proof (b2z_range b3) as R3.
  assert (H4 : (cont b1 = true /\ cont b2 = true /\ cont b3 = true /\ utf8_ok r3 = true) /\ 240 <= b2z b0 <= 244 /\
    (b2z b0 = 240 -> 144 <= b2z b1) /\ (b2z b0 = 244 -> b2z b1 <= 143)).
  { unfold cont, in_range in *. repeat match type of Hb with context [if ?x then _ else _] => destruct x eqn:? end;
      repeat (apply andb_prop in Hb as [Hb ?]); try discriminate Hb; repeat split; lia || done. }
  destruct H4 as ((H1 & H2 & H3 & H4) & H0 & Ha & Hs). unfold cont, in_range in *. fold (scalar4 b0 b1 b2 b3).
  destruct (encode_scalar4 b0 b1 b2 b3) as [Hc He]; [lia..|].
  destruct (big_not_surrogate _ (proj1 Hc)) as [Hl Ht]. rewrite encode_char_units by (done || lia). by rewrite (IH (length r3)), He by (done || cbn; lia).
Qed.

Lemma v8_string_back s : str_ok s -> utf16_lossy (v8_string s) = s.
Proof. intros H. unfold utf16_lossy, v8_string. by rewrite utf16_units, of_as_bytes. Qed.

Lemma char_units_length c : (length (char_units c) <= 2)%nat.
Proof. unfold char_units. destruct (c <? 65536); cbn; lia. Qed.

(** No more units than bytes. *)
Lemma units_length bs : (length (units_of_bytes bs) <= length bs)%nat.
Proof.
  remember (length bs) as n eqn:Hn. revert bs Hn. induction n as [n IH] using (well_founded_induction lt_wf).
  intros [|b0 [|b1 r1]] ->; [done|cbn; destruct (in_range 0 127 b0); cbn; lia|]. cbn [units_of_bytes].
  assert (H1 : forall r, (length r < length (b0 :: b1 :: r1))%nat -> (length (units_of_bytes r) <= length r)%nat) by (intros r Hr; by eapply IH).
  destruct (in_range 0 127 b0); [pose proof (H1 (b1 :: r1) ltac:(cbn; lia)) as Hr; cbn [length units_of_bytes] in *; lia|].
  destruct (in_range 194 223 b0); [rewrite length_app; pose proof (H1 r1 ltac:(cbn; lia));
    pose proof (char_units_length ((b2z b0 - 192) * 64 + (b2z b1 - 128))); cbn [length]; lia|].
  destruct r1 as [|b2 r2]; [cbn; lia|]. destruct (in_range 224 239 b0).
  { rewrite length_app. pose proof (H1 r2 ltac:(cbn; lia)). match goal with |- context [char_units ?c] => pose proof (char_units_length c) end. cbn [length]. lia. }
  destruct r2 as [|b3 r3]; [cbn; lia|]. rewrite length_app. pose proof (H1 r3 ltac:(cbn; lia)).
  match goal with |- context [char_units ?c] => pose proof (char_units_length c) end. cbn [length]. lia.
Qed.
