(* ===== verification/F64.v ===== *)
(** * Double-precision arithmetic

    [f64] is the Standard Library's [spec_float] at binary64 parameters: every
    operation is an executable function on integers, correctly rounded to
    nearest even, so the floating-point code of the source evaluates in the
    kernel.  [f64::powf] has no specified precision and is a parameter of the
    definitions that use it. *)

From S2P Require Import Prelude Bytes.
From Stdlib Require Export SpecFloat.

Abbreviation f64 := spec_float.

Definition prec : Z := 53.
Definition emax : Z := 1024.

(** [n as f64] / [f64::from(n)] *)
Definition f64_of_Z (n : Z) : f64 := binary_normalize prec emax n 0 false.

Definition f64_zero : f64 := S754_zero false.
Definition f64_mul : f64 -> f64 -> f64 := SFmul prec emax.
Definition f64_sub : f64 -> f64 -> f64 := SFsub prec emax.
Definition f64_add : f64 -> f64 -> f64 := SFadd prec emax.
Definition f64_div : f64 -> f64 -> f64 := SFdiv prec emax.
Definition f64_sqrt : f64 -> f64 := SFsqrt prec emax.
Definition f64_lt (a b : f64) : bool := SFltb a b.
Definition f64_le (a b : f64) : bool := SFleb a b.
Definition f64_eq (a b : f64) : bool := SFeqb a b.

(** The double nearest to the decimal literal [n / d] ([n], [d] exact). *)
Definition f64_ratio (n d : Z) : f64 := f64_div (f64_of_Z n) (f64_of_Z d).

(** [f64::max] / [f64::min]: a NaN operand is ignored. *)
Definition is_nan (x : f64) : bool := match x with S754_nan => true | _ => false end.
Definition is_finite (x : f64) : bool :=
  match x with S754_zero _ | S754_finite _ _ _ => true | _ => false end.
Definition f64_max (a b : f64) : f64 :=
  if is_nan a then b else if is_nan b then a else if f64_lt a b then b else a.
Definition f64_min (a b : f64) : f64 :=
  if is_nan a then b else if is_nan b then a else if f64_lt b a then b else a.

(** [f64::round]: nearest integer, halves away from zero. *)
Definition f64_round (x : f64) : f64 :=
  match x with
  | S754_finite s m e =>
    if 0 <=? e then x
    else
      let q := Z.shiftr (Zpos m + 2 ^ (- e - 1)) (- e) in
      binary_normalize prec emax (if s then - q else q) 0 s
  | _ => x
  end.

(** Truncation toward zero of a finite double. *)
Definition f64_trunc_Z (s : bool) (m : positive) (e : Z) : Z :=
  let q := if 0 <=? e then Z.shiftl (Zpos m) e else Z.shiftr (Zpos m) (- e) in
  if s then - q else q.

(** [f64::trunc] and [f64::fract]. *)
Definition f64_trunc (x : f64) : f64 :=
  match x with
  | S754_finite s m e =>
    if 0 <=? e then x else binary_normalize prec emax (f64_trunc_Z s m e) 0 s
  | _ => x
  end.
Definition f64_fract (x : f64) : f64 := f64_sub x (f64_trunc x).

(** [f64::clamp] *)
Definition f64_clamp (lo hi x : f64) : f64 :=
  let x := if f64_lt x lo then lo else x in
  if f64_lt hi x then hi else x.

(** [x as uN] with [max = uN::MAX]: saturating, NaN to zero. *)
Definition f64_to_uint (max : Z) (x : f64) : Z :=
  match x with
  | S754_nan | S754_zero _ | S754_infinity true => 0
  | S754_infinity false => max
  | S754_finite s m e => Z.max 0 (Z.min max (f64_trunc_Z s m e))
  end.

(** [f64::to_bits]; the sign and payload of a NaN are not specified, the
    canonical quiet NaN stands for all of them. *)
Definition f64_to_bits (x : f64) : Z :=
  let sg (s : bool) := if s then 2 ^ 63 else 0 in
  match x with
  | S754_zero s => sg s
  | S754_infinity s => sg s + 2047 * 2 ^ 52
  | S754_nan => 2047 * 2 ^ 52 + 2 ^ 51
  | S754_finite s m e =>
    sg s + (if Zpos m <? 2 ^ 52 then Zpos m else (e + 1075) * 2 ^ 52 + (Zpos m - 2 ^ 52))
  end.

(** [f64::to_be_bytes] *)
Definition f64_be (x : f64) : list byte := u64_be (f64_to_bits x).

(** [f64::from_bits] / [DataView.getFloat64]. *)
Definition f64_of_bits (b : Z) : f64 :=
  let s := 2 ^ 63 <=? b in
  let e := (b / 2 ^ 52) mod 2048 in
  let m := b mod 2 ^ 52 in
  if e =? 2047 then (if m =? 0 then S754_infinity s else S754_nan)
  else if e =? 0 then
    match m with Zpos p => S754_finite s p (-1074) | _ => S754_zero s end
  else
    match m + 2 ^ 52 with Zpos p => S754_finite s p (e - 1075) | _ => S754_nan end.

(** A value of the type [f64]: a canonical binary64 number. *)
Definition f64_ok (x : f64) : Prop := valid_binary prec emax x = true.

(** ** Bit patterns *)

Lemma digits2_pos_bound p : 2 ^ (Zpos (digits2_pos p) - 1) <= Zpos p < 2 ^ Zpos (digits2_pos p).
Proof.
  assert (Hs : forall q, 2 ^ (Zpos (Pos.succ q) - 1) = 2 * 2 ^ (Zpos q - 1) /\ 2 ^ Zpos (Pos.succ q) = 2 * 2 ^ Zpos q).
  { intros q. rewrite Pos2Z.inj_succ, Z.pow_succ_r by lia. split; [|done].
    replace (Z.succ (Zpos q) - 1) with (Z.succ (Zpos q - 1)) by lia. by rewrite Z.pow_succ_r by lia. }
  induction p as [p IH|p IH|]; cbn [digits2_pos]; [..|cbn; lia];
    destruct (Hs (digits2_pos p)) as [-> ->]; lia.
Qed.

(** The two shapes of a finite double: normal, with a 53-bit mantissa, and
    subnormal, at the least exponent. *)
Lemma f64_finite_shape s m e :
  f64_ok (S754_finite s m e) ->
  (2 ^ 52 <= Zpos m < 2 ^ 53 /\ -1074 <= e <= 971) \/ (Zpos m < 2 ^ 52 /\ e = -1074).
Proof.
  unfold f64_ok, valid_binary, bounded, canonical_mantissa, prec, emax. intros [Hc He]%andb_prop.
  apply Z.leb_le in He. apply Zeq_bool_eq in Hc. unfold fexp, emin in Hc.
  pose proof (digits2_pos_bound m) as [Hl Hu]. set (d := Zpos (digits2_pos m)) in *.
  assert (Hd : d = 53 /\ -1074 <= e \/ d <= 52 /\ e = -1074) by lia.
  destruct Hd as [[-> ?]|[Hd ->]].
  - left. change (53 - 1) with 52 in Hl. lia.
  - right. split; [|done]. assert (2 ^ d <= 2 ^ 52) by (apply Z.pow_le_mono_r; lia). lia.
Qed.

(** Sign, biased exponent and fraction of a bit pattern. *)
Lemma bits_fields (s : bool) ex m :
  0 <= ex < 2048 -> 0 <= m < 2 ^ 52 ->
  let b := (if s then 2 ^ 63 else 0) + (ex * 2 ^ 52 + m) in
  (2 ^ 63 <=? b) = s /\ (b / 2 ^ 52) mod 2048 = ex /\ b mod 2 ^ 52 = m /\ is_u64 b.
Proof.
  intros Hex Hm b.
  assert (Hb : b = ((if s then 2048 else 0) + ex) * 2 ^ 52 + m) by (unfold b; destruct s; lia).
  split; [unfold b; destruct s; lia|].
  split; [|split].
  - rewrite Hb, Z.div_add_l, (Z.div_small m), Z.add_0_r by lia.
    destruct s; [rewrite Z.add_comm; change 2048 with (1 * 2048) at 1; rewrite Z.mod_add by lia|];
      apply Z.mod_small; lia.
  - rewrite Hb, Z.add_comm, Z.mod_add by lia. by apply Z.mod_small.
  - unfold b. destruct s; zsolve.
Qed.

Lemma f64_bits_roundtrip x :
  f64_ok x -> f64_of_bits (f64_to_bits x) = x /\ is_u64 (f64_to_bits x).
Proof.
  destruct x as [s|s| |s m e]; intros Hx.
  - destruct s; (split; [vm_compute; reflexivity|vm_compute; split; discriminate]).
  - destruct s; (split; [vm_compute; reflexivity|vm_compute; split; discriminate]).
  - split; [vm_compute; reflexivity|vm_compute; split; discriminate].
  - destruct (f64_finite_shape s m e Hx) as [[Hm He]|[Hm ->]]; unfold f64_to_bits, f64_of_bits.
    + destruct (Z.ltb_spec (Zpos m) (2 ^ 52)); [lia|].
      destruct (bits_fields s (e + 1075) (Zpos m - 2 ^ 52)) as (-> & -> & -> & Hu); [lia..|].
      split; [|done].
      destruct (Z.eqb_spec (e + 1075) 2047); [lia|]. destruct (Z.eqb_spec (e + 1075) 0); [lia|].
      replace (Zpos m - 2 ^ 52 + 2 ^ 52) with (Zpos m) by lia. f_equal. lia.
    + destruct (Z.ltb_spec (Zpos m) (2 ^ 52)); [|lia].
      destruct (bits_fields s 0 (Zpos m)) as (Hs & He & Hf & Hu); [lia..|].
      rewrite Z.mul_0_l, Z.add_0_l in *. rewrite Hs, He, Hf. split; [done|done].
Qed.

(** ** Integers that are doubles *)

Lemma digits2_pos_unique p d : 0 < d -> 2 ^ (d - 1) <= Zpos p < 2 ^ d -> Zpos (digits2_pos p) = d.
Proof.
  intros Hd [Hl Hu]. pose proof (digits2_pos_bound p) as [Hl' Hu']. set (d' := Zpos (digits2_pos p)) in *.
  destruct (Z.lt_trichotomy d' d) as [H|[H|H]]; [|done|].
  - assert (2 ^ d' <= 2 ^ (d - 1)) by (apply Z.pow_le_mono_r; lia). lia.
  - assert (2 ^ d <= 2 ^ (d' - 1)) by (apply Z.pow_le_mono_r; lia). lia.
Qed.

Lemma shift_iter p k : Zpos (Pos.iter xO p k) = Zpos p * 2 ^ Zpos k.
Proof.
  induction k as [|k IH] using Pos.peano_ind; [cbn; lia|].
  rewrite Pos.iter_succ, Pos2Z.inj_xO, IH, Pos2Z.inj_succ, Z.pow_succ_r by lia. lia.
Qed.

(** A mantissa of 53 digits in range is not rounded. *)
Lemma binary_round_aux_exact m e :
  Zpos (digits2_pos m) = 53 -> -1074 <= e <= 971 -> binary_round_aux prec emax false (Zpos m) e loc_Exact = S754_finite false m e.
Proof.
  intros Hd He. unfold binary_round_aux, shr_fexp, fexp, emin, prec, emax. cbn [Zdigits2 shr_record_of_loc]. rewrite Hd.
  replace (Z.max (53 + e - 53) (3 - 1024 - 53) - e) with 0 by lia. cbn [shr shr_m loc_of_shr_record shr_r shr_s round_nearest_even].
  cbn [Zdigits2 shr_record_of_loc]. rewrite Hd. replace (Z.max (53 + e - 53) (3 - 1024 - 53) - e) with 0 by lia. cbn [shr shr_m].
  destruct (Z.leb_spec e (1024 - 53)); [done|lia].
Qed.

(** An integer below 2^53 is a double exactly. *)
Lemma f64_of_Z_exact max n : 0 <= n < 2 ^ 53 -> n <= max -> f64_to_uint max (f64_of_Z n) = n.
Proof.
  intros Hn Hm. destruct n as [|p|p]; [done| |lia]. unfold f64_of_Z, binary_normalize, binary_round, shl_align.
  pose proof (digits2_pos_bound p) as Hb. set (d := Zpos (digits2_pos p)) in *. rewrite Z.add_0_r, Z.sub_0_r.
  assert (Hd : 1 <= d <= 53).
  { split; [unfold d; lia|]. destruct (Z_lt_le_dec 53 d) as [H|H]; [|exact H]. exfalso. clearbody d. pose proof (Z.pow_le_mono_r 2 53 (d - 1) ltac:(lia) ltac:(lia)). lia. }
  assert (Hf : fexp prec emax d = d - 53) by (unfold fexp, emin, prec, emax; lia). rewrite Hf.
  destruct (d - 53) as [|k|k] eqn:Ek; [|lia|].
  - rewrite (binary_round_aux_exact p 0); [|unfold d in *; lia|lia]. unfold f64_to_uint, f64_trunc_Z. change (0 <=? 0) with true. cbv iota. rewrite Z.shiftl_0_r. lia.
  - set (m := Pos.iter xO p k). assert (Hmv : Zpos m = Zpos p * 2 ^ Zpos k) by apply shift_iter.
    assert (Hk : 53 = d + Zpos k) by lia.
    rewrite (binary_round_aux_exact m (Zneg k)); [|apply digits2_pos_unique; [lia|]; rewrite Hmv|lia].
    + unfold f64_to_uint, f64_trunc_Z. destruct (Z.leb_spec 0 (Zneg k)); [lia|]. change (- Zneg k) with (Zpos k).
      rewrite Z.shiftr_div_pow2, Hmv, Z.div_mul by lia. lia.
    + rewrite Hk. replace (d + Zpos k - 1) with (d - 1 + Zpos k) by lia. rewrite !Z.pow_add_r by lia. nia.
Qed.
