(* ===== verification/Types.v ===== *)
(** * Shared plain types ([crates/types/src/lib.rs])

    Limits, the prefix shape, calls, bridge records and run completions, the
    default limits, and the resolution of the two heap lines. *)

From S2P Require Import Prelude Bytes F64.

(** ** Default limits *)

Definition DEFAULT_MEMORY_MB : Z := 128.
Definition DEFAULT_CPU_TIME_MS : Z := 5000.
Definition DEFAULT_WALL_TIME_MS : Z := 30000.
Definition DEFAULT_MAX_EXPORT_BYTES : Z := 16 * 1024 * 1024.
Definition DEFAULT_MAX_STDOUT_BYTES : Z := 1024 * 1024.
Definition DEFAULT_MAX_STDERR_BYTES : Z := 1024 * 1024.
Definition DEFAULT_MAX_BRIDGE_CALL_BYTES : Z := 16 * 1024 * 1024.
Definition DEFAULT_MAX_BRIDGE_CALLS : Z := 10.
Definition DEFAULT_GRACE_MS : Z := 30000.

Definition STREAM_CHUNK_MAX_BYTES : Z := 64 * 1024.
Definition STREAM_CREDIT_WINDOW_BYTES : Z := 256 * 1024.

Record ResourceLimits := mk_ResourceLimits {
  soft_memory_mb : Z;
  hard_memory_mb : Z;
  cpu_time_ms : Z;
  wall_time_ms : Z;
  max_export_bytes : Z;
  max_stdout_bytes : Z;
  max_stderr_bytes : Z;
  max_bridge_call_bytes : Z;
  max_bridge_calls : Z;
  grace_ms : Z;
}.

(** ** The heap lines *)

(** [((8.0 * f64::from(cap_mb)).sqrt()).round() as u32] *)
Definition heap_band_mb (cap_mb : Z) : Z :=
  if cap_mb =? 0 then 0
  else
    let band := f64_round (f64_sqrt (f64_mul (f64_of_Z 8) (f64_of_Z cap_mb))) in
    f64_to_uint u32_max band.

Inductive BandPolicy := Managed | Strict.

#[export] Instance BandPolicy_eq_dec : EqDecision BandPolicy.
Proof. solve_decision. Defined.

Definition resolve_heap_lines (cap_mb : Z) (hard_override : option Z) (band : BandPolicy)
    : Z * Z :=
  match hard_override, band with
  | None, Strict => (0, cap_mb)
  | None, Managed => (cap_mb, sat_add u32_max cap_mb (heap_band_mb cap_mb))
  | Some hard, band =>
    if hard =? 0 then (0, 0)
    else match band with
    | Strict => (0, hard)
    | Managed => if hard <=? cap_mb then (0, hard) else (cap_mb, hard)
    end
  end.

(** [impl Default for ResourceLimits] *)
Definition ResourceLimits_default : ResourceLimits := {|
  soft_memory_mb := DEFAULT_MEMORY_MB;
  hard_memory_mb := DEFAULT_MEMORY_MB + heap_band_mb DEFAULT_MEMORY_MB;
  cpu_time_ms := DEFAULT_CPU_TIME_MS;
  wall_time_ms := DEFAULT_WALL_TIME_MS;
  max_export_bytes := DEFAULT_MAX_EXPORT_BYTES;
  max_stdout_bytes := DEFAULT_MAX_STDOUT_BYTES;
  max_stderr_bytes := DEFAULT_MAX_STDERR_BYTES;
  max_bridge_call_bytes := DEFAULT_MAX_BRIDGE_CALL_BYTES;
  max_bridge_calls := DEFAULT_MAX_BRIDGE_CALLS;
  grace_ms := DEFAULT_GRACE_MS;
|}.

(** ** The prefix shape *)

Inductive HostGlobalDef :=
  | Bridge (name : string) (enumerable : bool)
  | StringExpr (name expr : string) (enumerable : bool)
  | Data (name : string) (blob : list byte) (enumerable : bool)
  | Shim (name shim handler_name : string) (enumerable : bool).

Definition bridge_stub_name (d : HostGlobalDef) : option string :=
  match d with
  | Bridge name _ => Some name
  | Shim _ _ handler_name _ => Some handler_name
  | StringExpr _ _ _ | Data _ _ _ => None
  end.

Definition enumerable (d : HostGlobalDef) : bool :=
  match d with
  | Bridge _ e | StringExpr _ _ e | Data _ _ e | Shim _ _ _ e => e
  end.

Definition MAX_HOST_MODULE_DEPTH : nat := 64.

Inductive HostModuleNode :=
  | NodeFunction
  | NodeData (blob : list byte)
  | NodeObject (entries : list (string * HostModuleNode)).

(** Induction that reaches the children of an object node. *)
Section NodeInd.
Context (P : HostModuleNode -> Prop).
Hypothesis HFun : P NodeFunction.
Hypothesis HData : forall b, P (NodeData b).
Hypothesis HObj : forall es, Forall (fun e => P e.2) es -> P (NodeObject es).

Fixpoint HostModuleNode_nested_ind (n : HostModuleNode) : P n :=
  match n with
  | NodeFunction => HFun
  | NodeData b => HData b
  | NodeObject es =>
    HObj es ((fix go (es : list (string * HostModuleNode)) : Forall (fun e => P e.2) es :=
      match es with
      | [] => @List.Forall_nil _ _
      | e :: es => @List.Forall_cons _ _ e es (HostModuleNode_nested_ind e.2) (go es)
      end) es)
  end.
End NodeInd.

Inductive ImportModule :=
  | Source (code : string)
  | Host (exports : list (string * HostModuleNode)).

Record ImportBinding := mk_ImportBinding {
  ib_specifier : string;
  ib_module : ImportModule;
}.

Record ImportRebind := mk_ImportRebind {
  ir_specifier : string;
  ir_path : list string;
}.

Record CallSpec := mk_CallSpec {
  export_path : string;
  args_blob : list byte;
}.

Record RunRequest := mk_RunRequest {
  rr_run_id : Z;
  rr_code : string;
  rr_filename : option string;
  rr_limits : ResourceLimits;
  rr_globals : list HostGlobalDef;
  rr_imports : list ImportBinding;
  rr_call : option CallSpec;
}.

Record PrefixRunRequest := mk_PrefixRunRequest {
  pr_run_id : Z;
  pr_prefix_id : string;
  pr_limits : ResourceLimits;
  pr_globals : list HostGlobalDef;
  pr_import_rebinds : list ImportRebind;
  pr_call : CallSpec;
}.

Inductive TerminateMode := Soft | Hard.

Definition TerminateMode_as_u8 (m : TerminateMode) : Z :=
  match m with Soft => 0 | Hard => 1 end.

(** ** Errors and completions *)

Inductive ResetCause :=
  | ResetCpu | ResetMemory | ResetWall | ResetAbort | ResetInternal | ResetUnsupported.

#[export] Instance ResetCause_eq_dec : EqDecision ResetCause.
Proof. solve_decision. Defined.

Record ResetInfo := mk_ResetInfo { cause_class : ResetCause; culprit_run_id : Z }.

Inductive RunErrorPayload := mk_RunErrorPayload {
  ep_code : string;
  ep_name : string;
  ep_message : string;
  ep_stack : option string;
  ep_fields : option (list byte);
  ep_reset : option ResetInfo;
  ep_prefix_stage : bool;
  ep_cause : option RunErrorPayload;
}.

Inductive BridgeCallOutcome := OutcomeOk | Blocked | OutcomeError | Unanswered.

Definition BridgeCallOutcome_as_u8 (o : BridgeCallOutcome) : Z :=
  match o with OutcomeOk => 0 | Blocked => 1 | OutcomeError => 2 | Unanswered => 3 end.

Record BridgeCallRecord := mk_BridgeCallRecord {
  bc_name : string;
  bc_start_ms : f64;
  bc_duration_ms : f64;
  bc_arg_bytes : Z;
  bc_response_bytes : Z;
  bc_call_id : Z;
  bc_outcome : BridgeCallOutcome;
}.

Record RunSuccessPayload := mk_RunSuccessPayload {
  s_exports : list byte;
  s_skipped_exports : list string;
  s_stdout : list string;
  s_stderr : list string;
  s_duration_ms : f64;
  s_wall_time_ms : f64;
  s_cpu_time_ms : f64;
  s_bridge_calls : list BridgeCallRecord;
  s_heap_used_bytes : option Z;
  s_background_flags : Z;
}.

Record RunFailurePayload := mk_RunFailurePayload {
  f_error : RunErrorPayload;
  f_stdout : list string;
  f_stderr : list string;
  f_duration_ms : f64;
  f_wall_time_ms : f64;
  f_cpu_time_ms : f64;
  f_bridge_calls : list BridgeCallRecord;
  f_heap_used_bytes : option Z;
}.

(** [RunFailurePayload::bare] *)
Definition bare (error : RunErrorPayload) : RunFailurePayload := {|
  f_error := error;
  f_stdout := [];
  f_stderr := [];
  f_duration_ms := f64_zero;
  f_wall_time_ms := f64_zero;
  f_cpu_time_ms := f64_zero;
  f_bridge_calls := [];
  f_heap_used_bytes := None;
|}.

Inductive RunCompletion :=
  | Success (s : RunSuccessPayload)
  | Failure (f : RunFailurePayload).

Inductive BridgeTarget :=
  | TargetGlobal (name : string)
  | TargetImport (specifier : string) (path : list string).

Record BridgeErrorPayload := mk_BridgeErrorPayload {
  be_name : string;
  be_message : string;
  be_fields : option (list byte);
}.
