(* ===== verification/Reader.v ===== *)
(** * The payload cursor ([PayloadReader] in [crates/server/src/ipc.rs])

    The primitive reads, as a state-and-error monad over the cursor, and the
    interface [Parses] through which every payload parser is specified: a
    parser succeeds exactly on the byte strings of its grammar, returns the
    value the grammar assigns to them, and advances the cursor past them. *)

From S2P Require Import Prelude Bytes.

(** ** The cursor *)

Record PayloadReader := mk_reader { data : list byte; offset : nat }.

Definition new (data : list byte) : PayloadReader := mk_reader data 0.

Definition remaining (r : PayloadReader) : nat := length (data r) - offset r.

Definition parser (A : Type) : Type := PayloadReader -> io (A * PayloadReader).

#[export] Instance parser_ret : MRet parser := fun A a r => Ok (a, r).
#[export] Instance parser_bind : MBind parser := fun A B f p r =>
  match p r with Ok (a, r') => f a r' | Err e => Err e end.

Definition perr {A} (k : ErrorKind) (msg : string) : parser A := fun _ => fail k msg.

Definition with_cursor {A} (p : PayloadReader -> io (A * PayloadReader)) : parser A := p.

Definition advance (r : PayloadReader) (n : nat) : PayloadReader :=
  mk_reader (data r) (offset r + n).

(** The unread bytes. *)
Definition rest (r : PayloadReader) : list byte := drop (offset r) (data r).

(** [&data[offset..offset + n]]; out of range it panics, here a fault of its own
    kind, as for the index of [read_u8]. *)
Definition slice (r : PayloadReader) (n : nat) : io (list byte) :=
  if Nat.leb n (length (rest r)) then Ok (take n (rest r)) else fail Other "range end index out of range for slice".

(** Whether the allocator can serve [Vec::try_reserve_exact(n)]. *)
Class Allocator := reserve_ok : Z -> bool.

(** ** Primitive reads *)

Definition read_u8 : parser Z := fun r =>
  if Nat.ltb (remaining r) 1 then fail UnexpectedEof "payload too short reading u8"
  else match data r !! offset r with
  | Some b => Ok (b2z b, advance r 1)
  | None => fail Other "index out of bounds"
  end.

Definition read_u32 : parser Z := fun r =>
  if Nat.ltb (remaining r) 4 then fail UnexpectedEof "payload too short reading u32"
  else match slice r 4 with Ok bs => Ok (be_val bs, advance r 4) | Err e => Err e end.

Definition read_bool : parser bool :=
  b ← read_u8;
  if b =? 0 then mret false
  else if b =? 1 then mret true
  else perr InvalidData ("invalid boolean byte: " +:+ show_hex b).

Definition read_list `{Allocator} (what : string) : parser Z :=
  count ← read_u32;
  with_cursor (fun r =>
    if Z.of_nat (remaining r) <? count then
      fail InvalidData (what +:+ " count " +:+ show count +:+ " exceeds the "
        +:+ show (Z.of_nat (remaining r)) +:+ " bytes remaining in the payload")
    else if reserve_ok count then Ok (count, r)
    else fail OutOfMemory ("cannot reserve room for " +:+ show count +:+ " " +:+ what +:+ " entries")).

(** The loop [for _ in 0..count { items.push(item()?) }]. *)
Fixpoint for_count {A} (count : nat) (item : parser A) : parser (list A) :=
  match count with
  | O => mret []
  | S count => x ← item; xs ← for_count count item; mret (x :: xs)
  end.

Definition read_many `{Allocator} {A} (what : string) (item : parser A) : parser (list A) :=
  count ← read_list what; for_count (Z.to_nat count) item.

Definition read_string : parser string :=
  len ← read_u32;
  with_cursor (fun r =>
    if Z.of_nat (remaining r) <? len then
      fail UnexpectedEof "payload too short reading string body"
    else match slice r (Z.to_nat len) with
    | Ok bytes =>
      match from_utf8 bytes with
      | Some s => Ok (s, advance r (Z.to_nat len))
      | None => fail InvalidData "string payload is not valid UTF-8"
      end
    | Err e => Err e
    end).

Definition read_bytes (len : Z) : parser (list byte) := fun r =>
  if Z.of_nat (remaining r) <? len then
    fail UnexpectedEof "payload too short reading byte slice"
  else match slice r (Z.to_nat len) with Ok out => Ok (out, advance r (Z.to_nat len)) | Err e => Err e end.

Definition read_value_blob : parser (list byte) :=
  len ← read_u32; read_bytes len.

Definition bad_presence {A} (b : Z) : parser A :=
  perr InvalidData ("invalid optional presence byte: " +:+ show_hex b).

Definition read_optional_string : parser (option string) :=
  b ← read_u8;
  if b =? 0 then mret None
  else if b =? 1 then s ← read_string; mret (Some s)
  else bad_presence b.

Definition read_optional_u32 : parser (option Z) :=
  b ← read_u8;
  if b =? 0 then mret None
  else if b =? 1 then n ← read_u32; mret (Some n)
  else bad_presence b.

Definition assert_done : parser unit := fun r =>
  if Nat.eqb (remaining r) 0 then Ok (tt, r)
  else fail InvalidData (show (Z.of_nat (remaining r)) +:+ " trailing bytes in payload").

(** Run a parser on a whole payload and drop the cursor. *)
Definition run_parser {A} (p : parser A) (payload : list byte) : io A :=
  fst <$> p (new payload).

(** ** Grammars *)

Definition grammar (A : Type) : Type := A -> list byte -> Prop.

Class Parses {A} (p : parser A) (G : grammar A) : Prop :=
  parses : forall r v r',
    p r = Ok (v, r') <->
    exists bs suf, G v bs /\ rest r = bs ++ suf /\ r' = advance r (length bs).

(** The bytes [enc w] of a well-formed wire value [w], read as [f w]. *)
Definition via {W A} (enc : W -> list byte) (ok : W -> Prop) (f : W -> A) : grammar A :=
  fun v bs => exists w, ok w /\ v = f w /\ bs = enc w.

(** One grammar after the other, the second depending on the first's value. *)
Definition seqg {A B} (G : grammar A) (H : A -> grammar B) : grammar B :=
  fun w bs => exists v b1 b2, G v b1 /\ H v w b2 /\ bs = b1 ++ b2.

Fixpoint many {A} (G : grammar A) (vs : list A) (bs : list byte) : Prop :=
  match vs with
  | [] => bs = []
  | v :: vs => exists b1 b2, G v b1 /\ many G vs b2 /\ bs = b1 ++ b2
  end.

Lemma rest_advance r bs suf :
  rest r = bs ++ suf -> rest (advance r (length bs)) = suf.
Proof. unfold rest. cbn. intros H. eapply drop_drop_app; eauto. Qed.

Lemma advance_advance r n m : advance (advance r n) m = advance r (n + m).
Proof. unfold advance. cbn. f_equal. lia. Qed.

Lemma remaining_rest r : remaining r = length (rest r).
Proof. unfold remaining, rest. by rewrite length_drop. Qed.

(** The checked reads slice in range. *)
Lemma slice_in_range r n : (n <= remaining r)%nat -> slice r n = Ok (take n (rest r)).
Proof. rewrite remaining_rest. intros Hn. unfold slice. by apply Nat.leb_le in Hn as ->. Qed.

Lemma read_u32_eq r : read_u32 r =
  if Nat.ltb (remaining r) 4 then fail UnexpectedEof "payload too short reading u32" else Ok (be_val (take 4 (rest r)), advance r 4).
Proof. unfold read_u32. destruct (Nat.ltb_spec (remaining r) 4); [done|]. by rewrite slice_in_range. Qed.
Lemma read_bytes_eq len r : read_bytes len r =
  if Z.of_nat (remaining r) <? len then fail UnexpectedEof "payload too short reading byte slice"
  else Ok (take (Z.to_nat len) (rest r), advance r (Z.to_nat len)).
Proof. unfold read_bytes. destruct (Z.ltb_spec (Z.of_nat (remaining r)) len); [done|]. by rewrite slice_in_range by lia. Qed.

Lemma parses_ext {A} (p : parser A) G G' :
  Parses p G -> (forall v bs, G v bs <-> G' v bs) -> Parses p G'.
Proof. intros Hp HG r v r'. rewrite (Hp r v r'). by setoid_rewrite HG. Qed.

Lemma parses_ret {A} (v : A) : Parses (mret v) (fun w bs => w = v /\ bs = []).
Proof.
  intros r w r'. split.
  - intros [= <- <-]. exists [], (rest r). unfold advance. cbn.
    rewrite Nat.add_0_r. by destruct r.
  - intros (bs & suf & [-> ->] & _ & ->). cbn. unfold mret, parser_ret, advance.
    rewrite Nat.add_0_r. by destruct r.
Qed.

Lemma parses_perr {A} k msg : Parses (@perr A k msg) (fun _ _ => False).
Proof. intros r v r'. split; [done|]. by intros (? & ? & ? & _). Qed.

Lemma parses_bind {A B} (p : parser A) (f : A -> parser B) G H :
  Parses p G -> (forall v, Parses (f v) (H v)) -> Parses (p ≫= f) (seqg G H).
Proof.
  intros Hp Hf r w r''. unfold mbind, parser_bind. split.
  - destruct (p r) as [[v r']|] eqn:Hv; [|done].
    apply Hp in Hv as (b1 & s1 & H1 & Hr & ->).
    intros (b2 & s2 & H2 & Hr2 & ->)%Hf.
    rewrite (rest_advance _ _ _ Hr) in Hr2. subst s1.
    exists (b1 ++ b2), s2. rewrite <- app_assoc, advance_advance, length_app.
    split; [exists v, b1, b2|]; auto.
  - intros (bs & suf & (v & b1 & b2 & H1 & H2 & ->) & Hr & ->).
    rewrite <- app_assoc in Hr.
    assert (Hv : p r = Ok (v, advance r (length b1))) by (apply Hp; eauto).
    rewrite Hv. apply Hf. exists b2, suf. split; [done|].
    split; [exact (rest_advance _ _ _ Hr)|]. by rewrite advance_advance, length_app.
Qed.

Lemma parses_if {A} (b : bool) (p q : parser A) G H :
  Parses p G -> Parses q H -> Parses (if b then p else q) (if b then G else H).
Proof. by destruct b. Qed.

Lemma parses_for_count {A} (item : parser A) G n :
  Parses item G -> Parses (for_count n item) (fun vs bs => length vs = n /\ many G vs bs).
Proof.
  intros Hi. induction n as [|n IH]; cbn.
  - eapply parses_ext; [apply parses_ret|]. intros [|v vs] bs; cbn; naive_solver.
  - eapply parses_ext.
    { apply parses_bind; [exact Hi|]. intros v.
      apply parses_bind; [exact IH|]. intros vs. apply parses_ret. }
    intros vs bs. unfold seqg. split.
    + intros (v & b1 & b2 & Hv & (vs' & b3 & b4 & [Hl Hm] & [-> ->] & ->) & ->).
      cbn. rewrite app_nil_r. split; [lia|eauto].
    + destruct vs as [|v vs]; [naive_solver lia|].
      intros [Hl (b1 & b2 & Hv & Hm & ->)]. exists v, b1, b2. split; [done|].
      split; [|done]. exists vs, b2, []. rewrite app_nil_r. repeat split; [cbn in Hl; lia|done].
Qed.

(** ** Grammars of the primitive reads *)

Definition u8_grammar : grammar Z := fun v bs => is_u8 v /\ bs = [z2b v].
Definition u32_grammar : grammar Z := fun v bs => is_u32 v /\ bs = u32_be v.

#[export] Instance parses_u8 : Parses read_u8 u8_grammar.
Proof.
  intros r v r'. unfold read_u8, u8_grammar, fail. rewrite remaining_rest.
  rewrite <- (Nat.add_0_r (offset r)), <- lookup_drop. fold (rest r). split.
  - destruct (rest r) as [|b l] eqn:Hr; cbn; [done|]. intros [= <- <-].
    exists [b], l. rewrite z2b_b2z. pose proof (b2z_range b). split; [|done].
    split; [zsolve|done].
  - intros (bs & suf & [Hv ->] & Hr & ->). rewrite Hr. cbn.
    rewrite b2z_z2b_small by zsolve. done.
Qed.

#[export] Instance parses_u32 : Parses read_u32 u32_grammar.
Proof.
  intros r v r'. rewrite read_u32_eq. unfold u32_grammar, fail. rewrite remaining_rest. split.
  - destruct (Nat.ltb_spec (length (rest r)) 4) as [|Hl]; [done|]. intros [= <- <-].
    assert (Ht : length (take 4 (rest r)) = 4%nat) by (rewrite length_take; lia).
    exists (take 4 (rest r)), (drop 4 (rest r)).
    rewrite Ht, u32_be_val, take_drop by done. auto using be_val_is_u32.
  - intros (bs & suf & [Hv ->] & Hr & ->). rewrite Hr, length_app, length_u32_be.
    destruct (Nat.ltb_spec (4 + length suf) 4); [lia|].
    rewrite <- (length_u32_be v) at 1. by rewrite take_app_len, be_val_u32.
Qed.

Lemma parses_bytes len : 0 <= len ->
  Parses (read_bytes len) (fun v bs => v = bs /\ zlen bs = len).
Proof.
  intros Hl r v r'. rewrite read_bytes_eq. unfold fail. rewrite remaining_rest. split.
  - destruct (Z.ltb_spec (zlen (rest r)) len) as [|Hle]; [done|]. intros [= <- <-].
    assert (Ht : length (take (Z.to_nat len) (rest r)) = Z.to_nat len) by (rewrite length_take; lia).
    exists (take (Z.to_nat len) (rest r)), (drop (Z.to_nat len) (rest r)).
    rewrite Ht, take_drop. repeat split; lia.
  - intros (bs & suf & [-> <-] & Hr & ->). rewrite Hr, length_app, Nat2Z.id.
    destruct (Z.ltb_spec (Z.of_nat (length bs + length suf)) (zlen bs)); [lia|].
    by rewrite take_app_len.
Qed.

(** A length-prefixed byte string and a length-prefixed UTF-8 string. *)
Definition write_blob (b : list byte) : list byte := u32_be (zlen b) ++ b.
Definition blob_ok (b : list byte) : Prop := zlen b <= u32_max.
Definition write_string (s : string) : list byte := write_blob (as_bytes s).
Definition string_ok (s : string) : Prop := str_ok s /\ blob_ok (as_bytes s).

#[export] Instance blob_ok_dec b : Decision (blob_ok b).
Proof. unfold blob_ok. apply _. Defined.
#[export] Instance string_ok_dec s : Decision (string_ok s).
Proof. unfold string_ok. apply _. Defined.

#[export] Instance parses_blob : Parses read_value_blob (via write_blob blob_ok id).
Proof.
  intros r v r'. unfold read_value_blob, mbind, parser_bind. split.
  - destruct (read_u32 r) as [[len r1]|] eqn:H1; [|done].
    apply parses_u32 in H1 as (b1 & s1 & [Hlen ->] & Hr & ->).
    intros (b2 & s2 & [-> Hb] & Hr2 & ->)%parses_bytes; [|zsolve].
    rewrite (rest_advance _ _ _ Hr) in Hr2. subst s1.
    exists (u32_be len ++ b2), s2. rewrite <- app_assoc, advance_advance, length_app.
    split; [|done]. exists b2. unfold write_blob, blob_ok. rewrite Hb. split; [zsolve|done].
  - intros (bs & suf & (b & Hok & -> & ->) & Hr & ->). unfold write_blob, blob_ok in *.
    rewrite <- app_assoc in Hr.
    assert (H1 : read_u32 r = Ok (zlen b, advance r (length (u32_be (zlen b))))).
    { apply parses_u32. exists (u32_be (zlen b)), (b ++ suf). split; [|done]. split; [zsolve|done]. }
    rewrite H1. apply parses_bytes; [lia|].
    exists b, suf. rewrite (rest_advance _ _ _ Hr), advance_advance, length_app. done.
Qed.

(** [read_string] is [read_value_blob] followed by the UTF-8 check. *)
Lemma read_string_blob r :
  (exists e, read_string r = Err e) \/
  exists bs r', read_value_blob r = Ok (bs, r') /\
    read_string r = match from_utf8 bs with
      | Some s => Ok (s, r') | None => fail InvalidData "string payload is not valid UTF-8" end.
Proof.
  unfold read_string, read_value_blob, mbind, parser_bind, with_cursor.
  destruct (read_u32 r) as [[len r1]|e]; [|by left; exists e]. rewrite read_bytes_eq.
  destruct (Z.ltb_spec (Z.of_nat (remaining r1)) len); [left; by eexists|right].
  rewrite slice_in_range by lia. eexists _, _. split; [done|]. by destruct (from_utf8 _).
Qed.

#[export] Instance parses_string : Parses read_string (via write_string string_ok id).
Proof.
  intros r v r'. split.
  - intros H. destruct (read_string_blob r) as [[e He]|(bs & r1 & Hb & Hs)]; [congruence|].
    rewrite Hs in H. destruct (from_utf8 bs) as [s|] eqn:Hu; [|done].
    injection H as -> ->. apply from_utf8_some in Hu as [-> Hok].
    apply parses_blob in Hb as (bs & suf & (b & Hb & Heq & ->) & Hr & ->).
    unfold id in Heq. subst b. exists (write_string v), suf. split; [|done]. exists v. by repeat split.
  - intros (bs & suf & (s & [Hok Hlen] & -> & ->) & Hr & ->).
    assert (Hb : read_value_blob r = Ok (as_bytes s, advance r (length (write_string s)))).
    { apply parses_blob. exists (write_string s), suf. split; [|done]. exists (as_bytes s). done. }
    assert (Hs : read_string r = Ok (s, advance r (length (write_string s)))); [|done].
    revert Hb. unfold read_string, read_value_blob, mbind, parser_bind, with_cursor.
    destruct (read_u32 r) as [[len r1]|]; [|done]. rewrite read_bytes_eq.
    destruct (Z.ltb_spec (Z.of_nat (remaining r1)) len); [done|]. rewrite slice_in_range by lia.
    match goal with |- Ok (?a, ?b) = Ok (?c, ?d) -> _ =>
      intros Heq; assert (a = c /\ b = d) as [-> ->] by (split; congruence) end.
    by rewrite from_utf8_as_bytes.
Qed.

(** ** Combining grammars *)

Lemma parses_via_bind {W1 W2 A B} (p : parser A) (k : A -> parser B)
    (e1 : W1 -> list byte) (ok1 : W1 -> Prop) (f1 : W1 -> A)
    (e2 : W1 -> W2 -> list byte) (ok2 : W1 -> W2 -> Prop) (f2 : W1 -> W2 -> B) :
  Parses p (via e1 ok1 f1) ->
  (forall w1, ok1 w1 -> Parses (k (f1 w1)) (via (e2 w1) (ok2 w1) (f2 w1))) ->
  Parses (p ≫= k)
    (via (fun w => e1 w.1 ++ e2 w.1 w.2) (fun w => ok1 w.1 /\ ok2 w.1 w.2) (fun w => f2 w.1 w.2)).
Proof.
  intros Hp Hk r v r''. unfold mbind, parser_bind. split.
  - destruct (p r) as [[a r']|] eqn:Ha; [|done].
    apply Hp in Ha as (b1 & s1 & (w1 & Hok1 & -> & ->) & Hr & ->).
    intros (b2 & s2 & (w2 & Hok2 & -> & ->) & Hr2 & ->)%Hk; [|done].
    rewrite (rest_advance _ _ _ Hr) in Hr2. subst s1.
    exists (e1 w1 ++ e2 w1 w2), s2. rewrite <- app_assoc, advance_advance, length_app.
    split; [|done]. by exists (w1, w2).
  - intros (bs & suf & ([w1 w2] & [Hok1 Hok2] & -> & ->) & Hr & ->). cbn in *.
    rewrite <- app_assoc in Hr.
    assert (Ha : p r = Ok (f1 w1, advance r (length (e1 w1)))).
    { apply Hp. exists (e1 w1), (e2 w1 w2 ++ suf). split; [|done]. by exists w1. }
    rewrite Ha. apply Hk; [done|]. exists (e2 w1 w2), suf. split; [by exists w2|].
    rewrite (rest_advance _ _ _ Hr), advance_advance, length_app. done.
Qed.

Lemma parses_via_ret {A} (v : A) : Parses (mret v) (via (fun _ : unit => []) (fun _ => True) (fun _ => v)).
Proof.
  eapply parses_ext; [apply parses_ret|]. intros w bs. unfold via. split.
  - intros [-> ->]. by exists tt.
  - by intros (_ & _ & -> & ->).
Qed.

Lemma parses_via_ret_pair {A B C} (x : A * B) (g : A -> B -> C) :
  Parses (let '(a, b) := x in mret (g a b))
    (via (fun _ : unit => []) (fun _ => True) (fun _ => g x.1 x.2)).
Proof. destruct x. apply parses_via_ret. Qed.

(** Change the representation of the wire value. *)
Lemma parses_via_iso {W W' A} (p : parser A) (to : W' -> W) e ok (f : W -> A) e' ok' f' :
  Parses p (via e ok f) ->
  (forall w, exists w', to w' = w) ->
  (forall w', e' w' = e (to w') /\ (ok' w' <-> ok (to w')) /\ f' w' = f (to w')) ->
  Parses p (via e' ok' f').
Proof.
  intros Hp Hs Hto. eapply parses_ext; [exact Hp|]. intros v bs. unfold via. split.
  - intros (w & Hok & -> & ->). destruct (Hs w) as [w' <-].
    destruct (Hto w') as (He & Ho & Hf). exists w'. rewrite He, Hf. by rewrite Ho.
  - intros (w' & Hok & -> & ->). destruct (Hto w') as (He & Ho & Hf).
    exists (to w'). rewrite He, Hf. by rewrite <- Ho.
Qed.

#[export] Instance parses_u32_via : Parses read_u32 (via u32_be is_u32 id).
Proof.
  eapply parses_ext; [apply parses_u32|]. intros v bs. unfold via, u32_grammar, id. naive_solver.
Qed.

Definition write_u8 (v : Z) : list byte := [z2b v].

#[export] Instance parses_u8_via : Parses read_u8 (via write_u8 is_u8 id).
Proof.
  eapply parses_ext; [apply parses_u8|]. intros v bs. unfold via, u8_grammar, write_u8, id. naive_solver.
Qed.

Definition write_bool (b : bool) : list byte := write_u8 (if b then 1 else 0).

(** A tag byte that selects the parser of the tail. *)
Lemma parses_tag {W A} (k : Z -> parser A) (tag : W -> Z) e ok (f : W -> A) :
  (forall w, ok w -> is_u8 (tag w)) ->
  (forall t, is_u8 t -> Parses (k t) (via e (fun w => ok w /\ tag w = t) f)) ->
  Parses (read_u8 ≫= k) (via (fun w => write_u8 (tag w) ++ e w) ok f).
Proof.
  intros Ht Hk. eapply parses_ext.
  { apply (parses_via_bind (W1 := Z) (W2 := W) _ _ write_u8 is_u8 id (fun _ w => e w)
      (fun t w => ok w /\ tag w = t) (fun _ w => f w)); [apply _|exact Hk]. }
  intros v bs. unfold via. split.
  - intros ([t w] & (_ & Hok & <-) & -> & ->). by exists w.
  - intros (w & Hok & -> & ->). exists (tag w, w). cbn. auto.
Qed.

#[export] Instance parses_bool : Parses read_bool (via write_bool (fun _ => True) id).
Proof.
  eapply parses_via_iso with (to := id).
  - apply (parses_tag _ (fun b : bool => if b then 1 else 0) (fun _ => []) (fun _ => True) id).
    + intros [] _; zsolve.
    + intros t _. destruct (Z.eqb_spec t 0) as [->|H0]; [|destruct (Z.eqb_spec t 1) as [->|H1]].
      * eapply parses_ext; [apply parses_ret|]. intros v bs; unfold via, id. split.
        -- intros [-> ->]. by exists false.
        -- by intros ([] & [_ ?] & -> & ->).
      * eapply parses_ext; [apply parses_ret|]. intros v bs; unfold via, id. split.
        -- intros [-> ->]. by exists true.
        -- by intros ([] & [_ ?] & -> & ->).
      * eapply parses_ext; [apply parses_perr|]. intros v bs; unfold via. split; [done|].
        intros ([] & [_ ?] & _); lia.
  - by intros w; exists w.
  - done.
Qed.

Definition write_option {W} (enc : W -> list byte) (o : option W) : list byte :=
  match o with None => write_u8 0 | Some w => write_u8 1 ++ enc w end.
Definition option_ok {W} (ok : W -> Prop) (o : option W) : Prop :=
  match o with None => True | Some w => ok w end.

#[export] Instance option_ok_dec {W} (ok : W -> Prop) `{forall w, Decision (ok w)} o :
  Decision (option_ok ok o).
Proof. destruct o; cbn; apply _. Defined.

(** The presence byte followed by the slot. *)
Lemma parses_option {W A} (p : parser A) enc ok (f : W -> A) :
  Parses p (via enc ok f) ->
  Parses (b ← read_u8;
          if b =? 0 then mret None
          else if b =? 1 then x ← p; mret (Some x)
          else bad_presence b)
    (via (write_option enc) (option_ok ok) (fmap f)).
Proof.
  intros Hp. eapply parses_ext.
  { apply (parses_tag _ (fun o : option W => if o then 1 else 0)
      (fun o => match o with None => [] | Some w => enc w end) (option_ok ok) (fmap f)).
    - intros [] _; zsolve.
    - intros t _. destruct (Z.eqb_spec t 0) as [->|H0]; [|destruct (Z.eqb_spec t 1) as [->|H1]].
      + eapply parses_ext; [apply parses_ret|]. intros v bs; unfold via. split.
        * intros [-> ->]. by exists None.
        * by intros ([] & [_ ?] & -> & ->).
      + eapply parses_ext; [apply parses_bind; [exact Hp|intros; apply parses_ret]|].
        intros v bs; unfold seqg, via. split.
        * intros (a & b1 & b2 & (w & Hok & -> & ->) & [-> ->] & ->).
          exists (Some w). rewrite app_nil_r. done.
        * intros ([w|] & [Hok Ht] & -> & ->); [|done].
          exists (f w), (enc w), []. rewrite app_nil_r. split; [by exists w|done].
      + eapply parses_ext; [apply parses_perr|]. intros v bs; unfold via. split; [done|].
        intros ([] & [_ ?] & _); lia. }
  intros v bs. unfold via. by split; intros ([w|] & ? & -> & ->); [exists (Some w)|exists None| exists (Some w)|exists None].
Qed.

#[export] Instance parses_optional_string :
  Parses read_optional_string (via (write_option write_string) (option_ok string_ok) id).
Proof.
  eapply parses_via_iso with (to := id);
    [apply (parses_option _ _ _ _ parses_string) | by intros w; exists w |].
  intros [w|]; done.
Qed.

#[export] Instance parses_optional_u32 :
  Parses read_optional_u32 (via (write_option u32_be) (option_ok is_u32) id).
Proof.
  eapply parses_via_iso with (to := id);
    [apply (parses_option _ _ _ _ parses_u32_via) | by intros w; exists w |].
  intros [w|]; done.
Qed.

(** ** Lists *)

(** No allocation in the run of a parser is refused. *)
Class AllocatorOk `{Allocator} : Prop := alloc_ok : forall n, reserve_ok n = true.

Definition write_list {W} (enc : W -> list byte) (ws : list W) : list byte :=
  u32_be (zlen ws) ++ concat (map enc ws).
Definition list_ok {W} (ok : W -> Prop) (ws : list W) : Prop :=
  zlen ws <= u32_max /\ Forall ok ws.

#[export] Instance list_ok_dec {W} (ok : W -> Prop) `{forall w, Decision (ok w)} ws :
  Decision (list_ok ok ws).
Proof. unfold list_ok. apply _. Defined.

Lemma many_via {W A} (enc : W -> list byte) ok (f : W -> A) vs bs :
  many (via enc ok f) vs bs <->
  exists ws, Forall ok ws /\ vs = map f ws /\ bs = concat (map enc ws).
Proof.
  revert bs. induction vs as [|v vs IH]; intros bs; cbn.
  - split; [intros ->; by exists []|]. by intros ([|] & _ & ? & ->).
  - split.
    + intros (b1 & b2 & (w & Hok & -> & ->) & (ws & Hws & -> & ->)%IH & ->).
      exists (w :: ws). auto.
    + intros ([|w ws] & Hall & Hv & ->); [done|]. injection Hv as -> ->.
      apply Forall_cons in Hall as [Hok Hall]. exists (enc w), (concat (map enc ws)).
      split; [by exists w|]. split; [|done]. apply IH. by exists ws.
Qed.

(** The count is checked against the bytes that remain, so a list parser is
    complete only when every entry takes at least one byte. *)
Lemma parses_many `{AllocatorOk} {W A} what (item : parser A) enc ok (f : W -> A) :
  Parses item (via enc ok f) ->
  (forall w, ok w -> enc w <> []) ->
  Parses (read_many what item) (via (write_list enc) (list_ok ok) (map f)).
Proof.
  intros Hi Hne r v r'. unfold read_many, read_list, mbind, parser_bind, with_cursor, fail. split.
  - destruct (read_u32 r) as [[c r1]|] eqn:Hc; [|done].
    destruct (Z.ltb (Z.of_nat (remaining r1)) c); [done|]. rewrite alloc_ok.
    apply parses_u32 in Hc as (b1 & s1 & [Hc ->] & Hr & ->).
    intros (b2 & s2 & [Hl (ws & Hok & -> & ->)%many_via] & Hr2 & ->)%(parses_for_count _ _ _ Hi).
    rewrite (rest_advance _ _ _ Hr) in Hr2. subst s1.
    exists (write_list enc ws), s2. unfold write_list, list_ok.
    rewrite length_map in Hl. rewrite <- app_assoc, advance_advance, length_app.
    replace (zlen ws) with c by zsolve. split; [|done].
    exists ws. unfold write_list, list_ok. replace (zlen ws) with c by zsolve. split; [split; [zsolve|done]|done].
  - intros (bs & suf & (ws & [Hlen Hok] & -> & ->) & Hr & ->). unfold write_list in *.
    rewrite <- app_assoc in Hr.
    assert (Hc : read_u32 r = Ok (zlen ws, advance r (length (u32_be (zlen ws))))).
    { apply parses_u32. eexists _, _. split; [|done]. split; [zsolve|done]. }
    rewrite Hc, remaining_rest, (rest_advance _ _ _ Hr).
    assert (Hge : (length ws <= length (concat (map enc ws)))%nat).
    { clear -Hok Hne. induction Hok as [|w ws Hw _ IH]; cbn; [lia|].
      rewrite length_app. specialize (Hne w Hw). destruct (enc w); [done|]. cbn. lia. }
    destruct (Z.ltb_spec (Z.of_nat (length (concat (map enc ws) ++ suf))) (zlen ws)) as [Hlt|_].
    { rewrite length_app in Hlt. lia. }
    rewrite alloc_ok. apply (parses_for_count _ _ _ Hi).
    exists (concat (map enc ws)), suf. rewrite (rest_advance _ _ _ Hr), advance_advance, length_app.
    split; [|done]. rewrite length_map. split; [lia|]. apply many_via. by exists ws.
Qed.

Lemma write_u8_ne v l : write_u8 v ++ l <> [].
Proof. done. Qed.
Lemma u32_be_ne v l : u32_be v ++ l <> [].
Proof. intros H. apply (f_equal length) in H. rewrite length_app, length_u32_be in H. done. Qed.
Lemma write_string_ne s : write_string s <> [].
Proof. apply u32_be_ne. Qed.
Lemma app_ne_l {A} (l k : list A) : l <> [] -> l ++ k <> [].
Proof. by destruct l. Qed.

(** ** Whole payloads *)

(** A parser followed by [assert_done] accepts exactly the encodings. *)
Lemma parses_whole {W A} (p : parser A) enc ok (f : W -> A) payload v :
  Parses p (via enc ok f) ->
  run_parser (x ← p; _ ← assert_done; mret x) payload = Ok v <->
  exists w, ok w /\ v = f w /\ payload = enc w.
Proof.
  intros Hp. unfold run_parser, mbind, parser_bind, assert_done, fail. split.
  - destruct (p (new payload)) as [[a r]|] eqn:Ha; [|done].
    apply Hp in Ha as (bs & suf & (w & Hok & -> & ->) & Hr & ->).
    rewrite remaining_rest, (rest_advance _ _ _ Hr).
    destruct (Nat.eqb_spec (length suf) 0) as [Hs|]; [|done].
    apply nil_length_inv in Hs as ->. cbn. intros [= <-].
    exists w. unfold rest in Hr. cbn in Hr. rewrite drop_0, app_nil_r in Hr. done.
  - intros (w & Hok & -> & ->).
    assert (Ha : p (new (enc w)) = Ok (f w, advance (new (enc w)) (length (enc w)))).
    { apply Hp. exists (enc w), []. split; [by exists w|]. unfold rest. cbn.
      by rewrite drop_0, app_nil_r. }
    rewrite Ha, remaining_rest. unfold rest. cbn. by rewrite drop_all.
Qed.

(** ** Confinement

    [Confined n p q]: on payloads of at most [n] bytes the parsers [p] and [q]
    agree (they may run under different allocators), never replace the payload
    and fail only with the three kinds of a protocol fault: no read is out of
    bounds and no reservation beyond the payload's own length is attempted. *)

Definition protocol_fault (k : ErrorKind) : bool :=
  match k with UnexpectedEof | InvalidData | OutOfMemory => true | _ => false end.

Class Confined (n : Z) {A} (p q : parser A) : Prop :=
  confined : forall r, zlen (data r) <= n ->
    p r = q r /\
    match p r with
    | Ok (_, r') => data r' = data r
    | Err e => protocol_fault (kind e) = true
    end.

Section Confinement.
Context (n : Z).

#[export] Instance confined_ret {A} (v : A) : Confined n (mret v) (mret v).
Proof. done. Qed.

#[export] Instance confined_bind {A B} (p q : parser A) (f g : A -> parser B) :
  Confined n p q -> (forall v, Confined n (f v) (g v)) -> Confined n (p ≫= f) (q ≫= g).
Proof.
  intros Hp Hf r Hr. unfold mbind, parser_bind. destruct (Hp r Hr) as [<- H].
  destruct (p r) as [[v r']|e]; [|done].
  rewrite <- H in Hr. destruct (Hf v r' Hr) as [<- H']. split; [done|].
  destruct (f v r') as [[w r'']|e]; congruence.
Qed.

#[export] Instance confined_if {A} (b : bool) (p q p' q' : parser A) :
  Confined n p q -> Confined n p' q' -> Confined n (if b then p else p') (if b then q else q').
Proof. by destruct b. Qed.

#[export] Instance confined_bad {A} b : Confined n (@bad_presence A b) (bad_presence b).
Proof. done. Qed.

Lemma confined_perr {A} k msg : protocol_fault k = true -> Confined n (@perr A k msg) (perr k msg).
Proof. done. Qed.

#[export] Instance confined_invalid {A} msg : Confined n (@perr A InvalidData msg) (perr InvalidData msg).
Proof. done. Qed.

#[export] Instance confined_u8 : Confined n read_u8 read_u8.
Proof.
  intros r _. split; [done|]. unfold read_u8, remaining, fail.
  destruct (Nat.ltb_spec (length (data r) - offset r) 1); [done|].
  destruct (lookup_lt_is_Some_2 (data r) (offset r)) as [b ->]; [lia|done].
Qed.

#[export] Instance confined_u32 : Confined n read_u32 read_u32.
Proof. intros r _. split; [done|]. rewrite read_u32_eq. unfold fail. by destruct (Nat.ltb _ _). Qed.

#[export] Instance confined_bytes len : Confined n (read_bytes len) (read_bytes len).
Proof. intros r _. split; [done|]. rewrite read_bytes_eq. unfold fail. by destruct (Z.ltb _ _). Qed.

#[export] Instance confined_bool : Confined n read_bool read_bool.
Proof. unfold read_bool. apply _. Qed.

#[export] Instance confined_blob : Confined n read_value_blob read_value_blob.
Proof. unfold read_value_blob. apply _. Qed.

#[export] Instance confined_string : Confined n read_string read_string.
Proof.
  unfold read_string. apply confined_bind; [apply _|]. intros len r _. split; [done|].
  unfold with_cursor. destruct (Z.ltb_spec (Z.of_nat (remaining r)) len); [done|]. rewrite slice_in_range by lia. by destruct (from_utf8 _).
Qed.

#[export] Instance confined_optional_string : Confined n read_optional_string read_optional_string.
Proof. unfold read_optional_string. apply _. Qed.

#[export] Instance confined_optional_u32 : Confined n read_optional_u32 read_optional_u32.
Proof. unfold read_optional_u32. apply _. Qed.

#[export] Instance confined_assert_done : Confined n assert_done assert_done.
Proof. intros r _. split; [done|]. unfold assert_done, fail. by destruct (Nat.eqb _ _). Qed.

Lemma confined_for_count {A} count (p q : parser A) :
  Confined n p q -> Confined n (for_count count p) (for_count count q).
Proof. intros Hp. induction count; cbn; apply _. Qed.

(** Two allocators that agree on requests of at most [n] entries. *)
Context (a1 a2 : Allocator) (Hagree : forall c, c <= n -> @reserve_ok a1 c = @reserve_ok a2 c).

#[export] Instance confined_list what : Confined n (@read_list a1 what) (@read_list a2 what).
Proof using Hagree.
  unfold read_list. apply confined_bind; [apply _|]. intros c r Hr. unfold with_cursor, fail, remaining.
  destruct (Z.ltb_spec (Z.of_nat (length (data r) - offset r)) c); [done|].
  rewrite <- Hagree by lia. split; [done|]. by destruct (@reserve_ok a1 c).
Qed.

#[export] Instance confined_many {A} what (p q : parser A) :
  Confined n p q -> Confined n (@read_many a1 A what p) (@read_many a2 A what q).
Proof using Hagree.
  intros Hp. apply confined_bind; [apply _|]. intros c. by apply confined_for_count.
Qed.

End Confinement.

Lemma confined_run {A} (p q : parser A) payload :
  Confined (zlen payload) p q ->
  run_parser p payload = run_parser q payload /\
  (forall e, run_parser p payload = Err e -> protocol_fault (kind e) = true).
Proof.
  intros Hp. destruct (Hp (new payload)) as [Heq H]; [cbn; lia|].
  unfold run_parser. rewrite <- Heq. split; [done|]. intros e He.
  destruct (p (new payload)) as [[v r']|e']; [done|]. by injection He as ->.
Qed.
