(* ===== verification/Requests.v ===== *)
(** * Host-to-runtime payloads

    The payload parsers of [crates/server/src/ipc.rs] ([Run], [Precompile],
    [PrefixRun], [DisposePrefix], [Terminate], the stream frames) and the
    writers of the host client ([packages/iso4-sandbox/src/ipc.ts]) they must
    agree with.  Each parser is shown to accept exactly the writer's output. *)

From S2P Require Import Prelude Bytes F64 Types Reader.

(** ** The host client's writers ([PayloadWriter] in [ipc.ts]) *)

(** Every field optional: absent means the runtime default, [0] disables. *)
Record WireResourceLimits := mk_WireResourceLimits {
  w_memoryMb : option Z;
  w_cpuTimeMs : option Z;
  w_wallTimeMs : option Z;
  w_maxExportBytes : option Z;
  w_maxStdoutBytes : option Z;
  w_maxStderrBytes : option Z;
  w_maxBridgeCallBytes : option Z;
  w_maxBridgeCalls : option Z;
  w_graceMs : option Z;
  w_hardMemoryMb : option Z;
}.

Definition writeOptionalU32 (n : option Z) : list byte := write_option u32_be n.

Definition writeResourceLimits (l : WireResourceLimits) : list byte :=
  writeOptionalU32 (w_memoryMb l) ++ writeOptionalU32 (w_cpuTimeMs l) ++
  writeOptionalU32 (w_wallTimeMs l) ++ writeOptionalU32 (w_maxExportBytes l) ++
  writeOptionalU32 (w_maxStdoutBytes l) ++ writeOptionalU32 (w_maxStderrBytes l) ++
  writeOptionalU32 (w_maxBridgeCallBytes l) ++ writeOptionalU32 (w_maxBridgeCalls l) ++
  writeOptionalU32 (w_graceMs l) ++ writeOptionalU32 (w_hardMemoryMb l).

(** [GlobalDefPayload]: [enumerable] defaults to [true].  The value of a data
    global is carried already serialized ([serializeValue] is Node's [v8]). *)
Inductive GlobalDefPayload :=
  | PBridge (name : string) (enumerable : option bool)
  | PString (name expr : string) (enumerable : option bool)
  | PData (name : string) (value : list byte) (enumerable : option bool)
  | PShim (name shim handlerName : string) (enumerable : option bool).

Definition GLOBAL_DEF_KIND (d : GlobalDefPayload) : Z :=
  match d with PBridge _ _ => 0 | PString _ _ _ => 1 | PData _ _ _ => 2 | PShim _ _ _ _ => 3 end.

Definition payload_name (d : GlobalDefPayload) : string :=
  match d with PBridge n _ | PString n _ _ | PData n _ _ | PShim n _ _ _ => n end.

Definition payload_enumerable (d : GlobalDefPayload) : bool :=
  match d with PBridge _ e | PString _ _ e | PData _ _ e | PShim _ _ _ e => default true e end.

Definition write_global_tail (d : GlobalDefPayload) : list byte :=
  match d with
  | PBridge _ _ => []
  | PString _ expr _ => write_string expr
  | PData _ value _ => write_blob value
  | PShim _ shim handlerName _ => write_string shim ++ write_string handlerName
  end.

Definition writeGlobalDef (d : GlobalDefPayload) : list byte :=
  write_u8 (GLOBAL_DEF_KIND d) ++ write_string (payload_name d) ++
  write_bool (payload_enumerable d) ++ write_global_tail d.

Definition writeGlobalDefs : list GlobalDefPayload -> list byte := write_list writeGlobalDef.

Fixpoint writeHostModuleNode (n : HostModuleNode) : list byte :=
  match n with
  | NodeFunction => write_u8 0
  | NodeData value => write_u8 1 ++ write_blob value
  | NodeObject entries =>
    write_u8 2 ++ u32_be (zlen entries) ++
    concat (map (fun e => write_string e.1 ++ writeHostModuleNode e.2) entries)
  end.

Definition write_entry (e : string * HostModuleNode) : list byte :=
  write_string e.1 ++ writeHostModuleNode e.2.

Definition writeImport (i : ImportBinding) : list byte :=
  write_string (ib_specifier i) ++
  match ib_module i with
  | Source code => write_u8 0 ++ write_string code
  | Host exports => write_u8 1 ++ write_list write_entry exports
  end.

Definition writeImports : list ImportBinding -> list byte := write_list writeImport.

Definition writeImportRebind (r : ImportRebind) : list byte :=
  write_string (ir_specifier r) ++ write_list write_string (ir_path r).

Definition writeImportRebinds : list ImportRebind -> list byte := write_list writeImportRebind.

Definition writeCall (c : CallSpec) : list byte :=
  write_string (export_path c) ++ write_blob (args_blob c).

Definition writeOptionalCall : option CallSpec -> list byte := write_option writeCall.

Record RunPayloadOptions := mk_RunPayloadOptions {
  o_runId : Z;
  o_code : string;
  o_filename : option string;
  o_limits : WireResourceLimits;
  o_globals : list GlobalDefPayload;
  o_imports : list ImportBinding;
  o_call : option CallSpec;
}.

Definition encodeRunPayload (o : RunPayloadOptions) : list byte :=
  u32_be (o_runId o) ++ write_string (o_code o) ++ write_option write_string (o_filename o) ++
  writeResourceLimits (o_limits o) ++ writeGlobalDefs (o_globals o) ++
  writeImports (o_imports o) ++ writeOptionalCall (o_call o).

Record PrecompilePayloadOptions := mk_PrecompilePayloadOptions {
  oc_requestId : Z;
  oc_code : string;
  oc_filename : option string;
  oc_limits : WireResourceLimits;
  oc_globals : list GlobalDefPayload;
  oc_imports : list ImportBinding;
}.

Definition encodePrecompilePayload (o : PrecompilePayloadOptions) : list byte :=
  u32_be (oc_requestId o) ++ write_string (oc_code o) ++ write_option write_string (oc_filename o) ++
  writeResourceLimits (oc_limits o) ++ writeGlobalDefs (oc_globals o) ++
  writeImports (oc_imports o).

Record PrefixRunPayloadOptions := mk_PrefixRunPayloadOptions {
  op_runId : Z;
  op_prefixId : string;
  op_limits : WireResourceLimits;
  op_globals : list GlobalDefPayload;
  op_importRebinds : list ImportRebind;
  op_call : CallSpec;
}.

Definition encodePrefixRunPayload (o : PrefixRunPayloadOptions) : list byte :=
  u32_be (op_runId o) ++ write_string (op_prefixId o) ++
  writeResourceLimits (op_limits o) ++ writeGlobalDefs (op_globals o) ++
  writeImportRebinds (op_importRebinds o) ++ writeCall (op_call o).

Definition encodeDisposePrefixPayload (prefixId : string) : list byte := write_string prefixId.

Definition encodeTerminatePayload (runId : Z) (hard : bool) : list byte :=
  u32_be runId ++ write_u8 (if hard then 1 else 0).

(** ** The runtime's parsers ([PayloadReader] methods in [ipc.rs]) *)

Definition read_resource_limits (band : BandPolicy) : parser ResourceLimits :=
  cap ← read_optional_u32; let cap_mb := default DEFAULT_MEMORY_MB cap in
  cpu ← read_optional_u32;
  wall ← read_optional_u32;
  export_bytes ← read_optional_u32;
  stdout_bytes ← read_optional_u32;
  stderr_bytes ← read_optional_u32;
  bridge_call_bytes ← read_optional_u32;
  bridge_calls ← read_optional_u32;
  grace ← read_optional_u32;
  hard_override ← read_optional_u32;
  let '(soft, hard) := resolve_heap_lines cap_mb hard_override band in
  mret {|
    soft_memory_mb := soft;
    hard_memory_mb := hard;
    cpu_time_ms := default DEFAULT_CPU_TIME_MS cpu;
    wall_time_ms := default DEFAULT_WALL_TIME_MS wall;
    max_export_bytes := default DEFAULT_MAX_EXPORT_BYTES export_bytes;
    max_stdout_bytes := default DEFAULT_MAX_STDOUT_BYTES stdout_bytes;
    max_stderr_bytes := default DEFAULT_MAX_STDERR_BYTES stderr_bytes;
    max_bridge_call_bytes := default DEFAULT_MAX_BRIDGE_CALL_BYTES bridge_call_bytes;
    max_bridge_calls := default DEFAULT_MAX_BRIDGE_CALLS bridge_calls;
    grace_ms := default DEFAULT_GRACE_MS grace;
  |}.

Definition read_global_def : parser HostGlobalDef :=
  kind ← read_u8;
  name ← read_string;
  enumerable ← read_bool;
  if kind =? 0 then mret (Bridge name enumerable)
  else if kind =? 1 then expr ← read_string; mret (StringExpr name expr enumerable)
  else if kind =? 2 then blob ← read_value_blob; mret (Data name blob enumerable)
  else if kind =? 3 then
    shim ← read_string; handler_name ← read_string; mret (Shim name shim handler_name enumerable)
  else perr InvalidData ("unknown global def kind: " +:+ show_hex kind).

Definition read_global_defs `{Allocator} : parser (list HostGlobalDef) :=
  read_many "global def" read_global_def.

(** [levels] is [MAX_HOST_MODULE_DEPTH + 1 - depth]: it reaches zero exactly
    when [depth > MAX_HOST_MODULE_DEPTH]. *)
Fixpoint read_host_module_levels `{Allocator} (levels : nat) : parser HostModuleNode :=
  match levels with
  | O => perr InvalidData "host-module shape nests deeper than 64 levels"
  | S levels =>
    tag ← read_u8;
    if tag =? 0 then mret NodeFunction
    else if tag =? 1 then blob ← read_value_blob; mret (NodeData blob)
    else if tag =? 2 then
      entries ← read_many "host-module object entry"
        (key ← read_string; node ← read_host_module_levels levels; mret (key, node));
      mret (NodeObject entries)
    else perr InvalidData ("unknown host-module node tag: " +:+ show_hex tag)
  end.

Definition read_host_module_node `{Allocator} (depth : nat) : parser HostModuleNode :=
  read_host_module_levels (MAX_HOST_MODULE_DEPTH + 1 - depth).

Definition read_import_binding `{Allocator} : parser ImportBinding :=
  specifier ← read_string;
  kind ← read_u8;
  if kind =? 0 then code ← read_string; mret (mk_ImportBinding specifier (Source code))
  else if kind =? 1 then
    exports ← read_many "host-module export"
      (name ← read_string; node ← read_host_module_node 1; mret (name, node));
    mret (mk_ImportBinding specifier (Host exports))
  else perr InvalidData ("unknown import binding kind: " +:+ show_hex kind).

Definition read_import_bindings `{Allocator} : parser (list ImportBinding) :=
  read_many "import binding" read_import_binding.

Definition read_import_rebinds `{Allocator} : parser (list ImportRebind) :=
  read_many "import rebind"
    (specifier ← read_string;
     path ← read_many "import rebind path segment" read_string;
     mret (mk_ImportRebind specifier path)).

Definition read_call : parser CallSpec :=
  path ← read_string; blob ← read_value_blob; mret (mk_CallSpec path blob).

Definition read_optional_call : parser (option CallSpec) :=
  b ← read_u8;
  if b =? 0 then mret None
  else if b =? 1 then c ← read_call; mret (Some c)
  else bad_presence b.

(** ** Payload parsers *)

Definition parse_code_fields `{Allocator} (band : BandPolicy) :
    parser (string * option string * ResourceLimits * list HostGlobalDef) :=
  code ← read_string;
  filename ← read_optional_string;
  limits ← read_resource_limits band;
  globals ← read_global_defs;
  mret (code, filename, limits, globals).

Definition parse_run_payload `{Allocator} (payload : list byte) : io RunRequest :=
  run_parser (
    req ← (run_id ← read_u32;
           fields ← parse_code_fields Strict;
           let '(code, filename, limits, globals) := fields in
           imports ← read_import_bindings;
           call ← read_optional_call;
           mret {| rr_run_id := run_id; rr_code := code; rr_filename := filename;
                   rr_limits := limits; rr_globals := globals; rr_imports := imports;
                   rr_call := call |});
    _ ← assert_done;
    mret req) payload.

Record PrecompilePayload := mk_PrecompilePayload {
  pc_request_id : Z;
  pc_code : string;
  pc_filename : option string;
  pc_globals : list HostGlobalDef;
  pc_imports : list ImportBinding;
}.

Definition parse_precompile_payload `{Allocator} (payload : list byte) : io PrecompilePayload :=
  run_parser (
    req ← (request_id ← read_u32;
           fields ← parse_code_fields Managed;
           let '(code, filename, _, globals) := fields in
           imports ← read_import_bindings;
           mret {| pc_request_id := request_id; pc_code := code; pc_filename := filename;
                   pc_globals := globals; pc_imports := imports |});
    _ ← assert_done;
    mret req) payload.

Definition parse_prefix_run_payload `{Allocator} (payload : list byte) : io PrefixRunRequest :=
  run_parser (
    req ← (run_id ← read_u32;
           prefix_id ← read_string;
           limits ← read_resource_limits Managed;
           globals ← read_global_defs;
           import_rebinds ← read_import_rebinds;
           call ← read_call;
           mret {| pr_run_id := run_id; pr_prefix_id := prefix_id; pr_limits := limits;
                   pr_globals := globals; pr_import_rebinds := import_rebinds;
                   pr_call := call |});
    _ ← assert_done;
    mret req) payload.

Definition parse_dispose_prefix_payload (payload : list byte) : io string :=
  run_parser (id ← read_string; _ ← assert_done; mret id) payload.

Definition parse_terminate_payload (payload : list byte) : io (Z * TerminateMode) :=
  run_parser (
    req ← (run_id ← read_u32;
           b ← read_u8;
           mode ← (if b =? 0 then mret Soft
                   else if b =? 1 then mret Hard
                   else perr InvalidData ("unknown Terminate mode " +:+ show b));
           mret (run_id, mode));
    _ ← assert_done;
    mret req) payload.

(** ** What a payload means: the wire value resolved to the request *)

Definition resolve_limits (band : BandPolicy) (w : WireResourceLimits) : ResourceLimits :=
  let cap_mb := default DEFAULT_MEMORY_MB (w_memoryMb w) in
  let lines := resolve_heap_lines cap_mb (w_hardMemoryMb w) band in
  {| soft_memory_mb := lines.1;
     hard_memory_mb := lines.2;
     cpu_time_ms := default DEFAULT_CPU_TIME_MS (w_cpuTimeMs w);
     wall_time_ms := default DEFAULT_WALL_TIME_MS (w_wallTimeMs w);
     max_export_bytes := default DEFAULT_MAX_EXPORT_BYTES (w_maxExportBytes w);
     max_stdout_bytes := default DEFAULT_MAX_STDOUT_BYTES (w_maxStdoutBytes w);
     max_stderr_bytes := default DEFAULT_MAX_STDERR_BYTES (w_maxStderrBytes w);
     max_bridge_call_bytes := default DEFAULT_MAX_BRIDGE_CALL_BYTES (w_maxBridgeCallBytes w);
     max_bridge_calls := default DEFAULT_MAX_BRIDGE_CALLS (w_maxBridgeCalls w);
     grace_ms := default DEFAULT_GRACE_MS (w_graceMs w) |}.

Definition limits_ok (w : WireResourceLimits) : Prop :=
  Forall (option_ok is_u32)
    [w_memoryMb w; w_cpuTimeMs w; w_wallTimeMs w; w_maxExportBytes w; w_maxStdoutBytes w;
     w_maxStderrBytes w; w_maxBridgeCallBytes w; w_maxBridgeCalls w; w_graceMs w;
     w_hardMemoryMb w].

Definition global_def_of (d : GlobalDefPayload) : HostGlobalDef :=
  match d with
  | PBridge n e => Bridge n (default true e)
  | PString n x e => StringExpr n x (default true e)
  | PData n v e => Data n v (default true e)
  | PShim n s h e => Shim n s h (default true e)
  end.

Definition global_tail_ok (d : GlobalDefPayload) : Prop :=
  match d with
  | PBridge _ _ => True
  | PString _ x _ => string_ok x
  | PData _ v _ => blob_ok v
  | PShim _ s h _ => string_ok s /\ string_ok h
  end.

Definition global_def_ok (d : GlobalDefPayload) : Prop :=
  string_ok (payload_name d) /\ global_tail_ok d.

(** Every length fits its prefix and the tree nests at most [levels] deep. *)
Fixpoint node_fits (levels : nat) (n : HostModuleNode) : Prop :=
  match levels with
  | O => False
  | S levels =>
    match n with
    | NodeFunction => True
    | NodeData b => blob_ok b
    | NodeObject es => list_ok (fun e => string_ok e.1 /\ node_fits levels e.2) es
    end
  end.

Definition entry_fits (levels : nat) (e : string * HostModuleNode) : Prop :=
  string_ok e.1 /\ node_fits levels e.2.

Definition import_ok (i : ImportBinding) : Prop :=
  string_ok (ib_specifier i) /\
  match ib_module i with
  | Source code => string_ok code
  | Host exports => list_ok (entry_fits MAX_HOST_MODULE_DEPTH) exports
  end.

Definition rebind_ok (r : ImportRebind) : Prop :=
  string_ok (ir_specifier r) /\ list_ok string_ok (ir_path r).

Definition call_ok (c : CallSpec) : Prop := string_ok (export_path c) /\ blob_ok (args_blob c).

Definition run_options_ok (o : RunPayloadOptions) : Prop :=
  is_u32 (o_runId o) /\ string_ok (o_code o) /\ option_ok string_ok (o_filename o) /\
  limits_ok (o_limits o) /\ list_ok global_def_ok (o_globals o) /\
  list_ok import_ok (o_imports o) /\ option_ok call_ok (o_call o).

Definition run_request_of (o : RunPayloadOptions) : RunRequest := {|
  rr_run_id := o_runId o;
  rr_code := o_code o;
  rr_filename := o_filename o;
  rr_limits := resolve_limits Strict (o_limits o);
  rr_globals := map global_def_of (o_globals o);
  rr_imports := o_imports o;
  rr_call := o_call o;
|}.

Definition precompile_options_ok (o : PrecompilePayloadOptions) : Prop :=
  is_u32 (oc_requestId o) /\ string_ok (oc_code o) /\ option_ok string_ok (oc_filename o) /\
  limits_ok (oc_limits o) /\ list_ok global_def_ok (oc_globals o) /\ list_ok import_ok (oc_imports o).

Definition precompile_of (o : PrecompilePayloadOptions) : PrecompilePayload := {|
  pc_request_id := oc_requestId o;
  pc_code := oc_code o;
  pc_filename := oc_filename o;
  pc_globals := map global_def_of (oc_globals o);
  pc_imports := oc_imports o;
|}.

Definition prefix_run_options_ok (o : PrefixRunPayloadOptions) : Prop :=
  is_u32 (op_runId o) /\ string_ok (op_prefixId o) /\ limits_ok (op_limits o) /\
  list_ok global_def_ok (op_globals o) /\ list_ok rebind_ok (op_importRebinds o) /\
  call_ok (op_call o).

Definition prefix_run_request_of (o : PrefixRunPayloadOptions) : PrefixRunRequest := {|
  pr_run_id := op_runId o;
  pr_prefix_id := op_prefixId o;
  pr_limits := resolve_limits Managed (op_limits o);
  pr_globals := map global_def_of (op_globals o);
  pr_import_rebinds := op_importRebinds o;
  pr_call := op_call o;
|}.

(** ** Grammar of each block *)

(** A chain of reads ending in [mret]: one [parses_via_bind] per read. *)
Ltac parse_chain :=
  repeat (eapply parses_via_bind; [solve [apply _] | intros ? _; cbn beta]);
  apply parses_via_ret.

(** The chain's nested pairs against the fields of the record [w]. *)
Ltac match_fields w := destruct w; cbn; rewrite ?app_nil_r; split; [reflexivity | split; [tauto | reflexivity]].

#[export] Instance parses_resource_limits band :
  Parses (read_resource_limits band)
    (via writeResourceLimits limits_ok (resolve_limits band)).
Proof.
  eapply (parses_via_iso _ (fun w =>
    (w_memoryMb w, (w_cpuTimeMs w, (w_wallTimeMs w, (w_maxExportBytes w, (w_maxStdoutBytes w,
     (w_maxStderrBytes w, (w_maxBridgeCallBytes w, (w_maxBridgeCalls w, (w_graceMs w,
     (w_hardMemoryMb w, tt)))))))))))).
  - unfold read_resource_limits.
    repeat (eapply parses_via_bind; [solve [apply _] | intros ? _; cbn beta zeta]).
    refine (parses_via_ret_pair _ (fun soft hard => mk_ResourceLimits soft hard _ _ _ _ _ _ _ _)).
  - intros (a & b & c & d & e & f & g & h & i & j & []).
    by exists (mk_WireResourceLimits a b c d e f g h i j).
  - intros w. unfold writeResourceLimits, limits_ok, writeOptionalU32.
    rewrite !Forall_cons, Forall_nil. match_fields w.
Qed.

(** The tail of a global definition, once its kind byte is known. *)
Lemma parses_global_tail kind :
  is_u8 kind ->
  Parses
    (name ← read_string;
     enumerable ← read_bool;
     if kind =? 0 then mret (Bridge name enumerable)
     else if kind =? 1 then expr ← read_string; mret (StringExpr name expr enumerable)
     else if kind =? 2 then blob ← read_value_blob; mret (Data name blob enumerable)
     else if kind =? 3 then
       shim ← read_string; handler_name ← read_string; mret (Shim name shim handler_name enumerable)
     else perr InvalidData ("unknown global def kind: " +:+ show_hex kind))
    (via (fun d => write_string (payload_name d) ++ write_bool (payload_enumerable d) ++ write_global_tail d)
         (fun d => global_def_ok d /\ GLOBAL_DEF_KIND d = kind) global_def_of).
Proof.
  intros _. eapply parses_ext.
  { apply (parses_via_bind (W2 := bool * GlobalDefPayload) _ _ write_string string_ok id
      (fun _ w => write_bool w.1 ++ write_global_tail w.2)
      (fun n w => True /\ (payload_name w.2 = n /\ payload_enumerable w.2 = w.1 /\
                  global_tail_ok w.2 /\ GLOBAL_DEF_KIND w.2 = kind))
      (fun _ w => global_def_of w.2)); [apply _|]. intros n _.
    apply (parses_via_bind (W1 := bool) _ _ write_bool (fun _ => True) id
      (fun _ d => write_global_tail d)
      (fun e d => payload_name d = n /\ payload_enumerable d = e /\
                  global_tail_ok d /\ GLOBAL_DEF_KIND d = kind)
      (fun _ d => global_def_of d)); [apply _|]. intros e _. unfold id.
    destruct (Z.eqb_spec kind 0) as [->|Ht0]; [|destruct (Z.eqb_spec kind 1) as [->|Ht1];
      [|destruct (Z.eqb_spec kind 2) as [->|Ht2]; [|destruct (Z.eqb_spec kind 3) as [->|Ht3]]]].
    - eapply parses_ext; [apply parses_ret|]. intros v bs. unfold via. split.
      + intros [-> ->]. by exists (PBridge n (Some e)).
      + by intros ([] & (<- & <- & _ & ?) & -> & ->).
    - eapply parses_ext; [parse_chain|]. intros v bs. unfold via, id. split.
      + intros ([x []] & [Hx _] & -> & ->). exists (PString n x (Some e)).
        cbn. by rewrite app_nil_r.
      + intros (d & Hd & -> & ->). destruct d as [|n' x e'| |]; destruct Hd as (<- & <- & Hx & Hk); try done.
        exists (x, tt). cbn. by rewrite app_nil_r.
    - eapply parses_ext; [parse_chain|]. intros v bs. unfold via, id. split.
      + intros ([x []] & [Hx _] & -> & ->). exists (PData n x (Some e)).
        cbn. by rewrite app_nil_r.
      + intros (d & Hd & -> & ->). destruct d as [| |n' x e'|]; destruct Hd as (<- & <- & Hx & Hk); try done.
        exists (x, tt). cbn. by rewrite app_nil_r.
    - eapply parses_ext; [parse_chain|]. intros v bs. unfold via, id. split.
      + intros ([x [y []]] & (Hx & Hy & _) & -> & ->). exists (PShim n x y (Some e)).
        cbn. by rewrite app_nil_r.
      + intros (d & Hd & -> & ->). destruct d as [| | |n' x y e']; destruct Hd as (<- & <- & Ht & Hk); try done; destruct Ht as [Hx Hy].
        exists (x, (y, tt)). cbn. by rewrite app_nil_r.
    - eapply parses_ext; [apply parses_perr|]. intros v bs. unfold via. split; [done|].
      intros (d & (_ & _ & _ & Hk) & _). destruct d; cbn in Hk; lia. }
  intros v bs. unfold via, global_def_ok. split.
  - intros ((n & e & d) & (Hn & _ & H1 & H2 & Ht & Hk) & -> & ->). cbn in *. subst n e. by exists d.
  - intros (d & ((Hn & Ht) & Hk) & -> & ->).
    exists (payload_name d, (payload_enumerable d, d)). cbn. auto 10.
Qed.

#[export] Instance parses_global_def :
  Parses read_global_def (via writeGlobalDef global_def_ok global_def_of).
Proof.
  apply (parses_tag _ GLOBAL_DEF_KIND); [|exact parses_global_tail].
  intros [] _; cbn; zsolve.
Qed.

#[export] Instance parses_call : Parses read_call (via writeCall call_ok id).
Proof.
  eapply (parses_via_iso _ (fun c => (export_path c, (args_blob c, tt)))); [parse_chain| |].
  - intros (a & b & []). by exists (mk_CallSpec a b).
  - intros c. unfold writeCall, call_ok. match_fields c.
Qed.

#[export] Instance parses_optional_call :
  Parses read_optional_call (via writeOptionalCall (option_ok call_ok) id).
Proof.
  eapply parses_via_iso with (to := id);
    [apply (parses_option _ _ _ _ parses_call) | by intros w; exists w |].
  intros [w|]; done.
Qed.

Section Grammars.
Context `{AllocatorOk}.

#[export] Instance parses_global_defs :
  Parses read_global_defs (via writeGlobalDefs (list_ok global_def_ok) (map global_def_of)).
Proof. apply parses_many; [apply _|]. intros w _. apply write_u8_ne. Qed.

(** The keyed entries of a host-module object or export list. *)
Lemma parses_entry levels :
  Parses (read_host_module_levels levels) (via writeHostModuleNode (node_fits levels) id) ->
  Parses (key ← read_string; node ← read_host_module_levels levels; mret (key, node))
    (via write_entry (entry_fits levels) id).
Proof.
  intros Hn. eapply (parses_via_iso _ (fun e => (e.1, (e.2, tt)))).
  - eapply parses_via_bind; [apply _|intros ? _].
    eapply parses_via_bind; [exact Hn|intros ? _]. apply parses_via_ret.
  - intros (a & b & []). by exists (a, b).
  - intros e. unfold write_entry, entry_fits. match_fields e.
Qed.

Lemma parses_entries what levels :
  Parses (read_host_module_levels levels) (via writeHostModuleNode (node_fits levels) id) ->
  Parses (read_many what (key ← read_string; node ← read_host_module_levels levels; mret (key, node)))
    (via (write_list write_entry) (list_ok (entry_fits levels)) id).
Proof.
  intros Hn. eapply parses_ext.
  - eapply parses_many; [apply parses_entry, Hn|]. intros w _. apply u32_be_ne.
  - intros v bs. unfold via. by setoid_rewrite map_id_eq.
Qed.

#[export] Instance parses_node levels :
  Parses (read_host_module_levels levels) (via writeHostModuleNode (node_fits levels) id).
Proof.
  induction levels as [|levels IH].
  - eapply parses_ext; [apply parses_perr|]. intros v bs. unfold via. split; [done|].
    by intros (n & ? & _).
  - eapply parses_ext.
    { apply (parses_tag _ (fun n => match n with NodeFunction => 0 | NodeData _ => 1 | NodeObject _ => 2 end)
        (fun n => match n with NodeFunction => [] | NodeData b => write_blob b
                  | NodeObject es => write_list write_entry es end) (node_fits (S levels)) id).
      { intros [] _; zsolve. }
      intros t _. destruct (Z.eqb_spec t 0) as [->|Ht0]; [|destruct (Z.eqb_spec t 1) as [->|Ht1];
        [|destruct (Z.eqb_spec t 2) as [->|Ht2]]].
      - eapply parses_ext; [apply parses_ret|]. intros v bs. unfold via, id. split.
        + intros [-> ->]. by exists NodeFunction.
        + by intros ([] & [_ ?] & -> & ->).
      - eapply parses_ext; [parse_chain|]. intros v bs. unfold via, id. split.
        + intros ([b []] & [Hb _] & -> & ->). exists (NodeData b). cbn. by rewrite app_nil_r.
        + intros (d & Hd & -> & ->). destruct d as [|b|]; destruct Hd as [Hb ?]; try done. exists (b, tt). cbn. by rewrite app_nil_r.
      - eapply parses_ext.
        { eapply parses_via_bind; [apply parses_entries, IH|intros ? _]. apply parses_via_ret. }
        intros v bs. unfold via, id. split.
        + intros ([es []] & [Hes _] & -> & ->). exists (NodeObject es). cbn. by rewrite app_nil_r.
        + intros (d & Hd & -> & ->). destruct d as [| |es]; destruct Hd as [Hes ?]; try done. exists (es, tt). cbn. by rewrite app_nil_r.
      - eapply parses_ext; [apply parses_perr|]. intros v bs. unfold via. split; [done|].
        intros (n & [_ ?] & _). destruct n; lia. }
    intros v bs. unfold via. by split; intros ([] & ? & -> & ->); eexists.
Qed.

#[export] Instance parses_import_binding :
  Parses read_import_binding (via writeImport import_ok id).
Proof.
  eapply parses_ext.
  { apply (parses_via_bind (W2 := ImportModule) _ _ write_string string_ok id
      (fun _ m => write_u8 (match m with Source _ => 0 | Host _ => 1 end) ++
                  match m with Source c => write_string c | Host es => write_list write_entry es end)
      (fun _ m => match m with Source c => string_ok c
                  | Host es => list_ok (entry_fits MAX_HOST_MODULE_DEPTH) es end)
      (fun n m => mk_ImportBinding n m)); [apply _|]. intros n _.
    apply (parses_tag _ (fun m => match m with Source _ => 0 | Host _ => 1 end)).
    { intros [] _; zsolve. }
    intros t _. unfold id. destruct (Z.eqb_spec t 0) as [->|Ht0]; [|destruct (Z.eqb_spec t 1) as [->|Ht1]].
    - eapply parses_ext; [parse_chain|]. intros v bs. unfold via, id. split.
      + intros ([c []] & [Hc _] & -> & ->). exists (Source c). cbn. by rewrite app_nil_r.
      + intros (d & Hd & -> & ->). destruct d as [c|]; destruct Hd as [Hc ?]; try done. exists (c, tt). cbn. by rewrite app_nil_r.
    - eapply parses_ext.
      { eapply parses_via_bind; [apply parses_entries, parses_node|intros ? _]. apply parses_via_ret. }
      intros v bs. unfold via, id. split.
      + intros ([es []] & [Hes _] & -> & ->). exists (Host es). cbn. by rewrite app_nil_r.
      + intros (d & Hd & -> & ->). destruct d as [|es]; destruct Hd as [Hes ?]; try done. exists (es, tt). cbn. by rewrite app_nil_r.
    - eapply parses_ext; [apply parses_perr|]. intros v bs. unfold via. split; [done|].
      intros (m & [_ ?] & _). destruct m; lia. }
  intros v bs. unfold via, writeImport, import_ok, id. split.
  - intros ([n m] & [Hn Hm] & -> & ->). exists (mk_ImportBinding n m). by destruct m.
  - intros ([n m] & [Hn Hm] & -> & ->). exists (n, m). by destruct m.
Qed.

#[export] Instance parses_import_bindings :
  Parses read_import_bindings (via writeImports (list_ok import_ok) id).
Proof.
  eapply parses_ext.
  - eapply parses_many; [apply _|]. intros w _. apply u32_be_ne.
  - intros v bs. unfold via. by setoid_rewrite map_id_eq.
Qed.

Lemma parses_path what :
  Parses (read_many what read_string) (via (write_list write_string) (list_ok string_ok) id).
Proof.
  eapply parses_ext.
  - eapply parses_many; [apply _|]. intros w _. apply write_string_ne.
  - intros v bs. unfold via. by setoid_rewrite map_id_eq.
Qed.

#[export] Instance parses_import_rebinds :
  Parses read_import_rebinds (via writeImportRebinds (list_ok rebind_ok) id).
Proof.
  eapply parses_ext.
  - apply parses_many with (enc := writeImportRebind) (ok := rebind_ok) (f := id).
    + eapply (parses_via_iso _ (fun r => (ir_specifier r, (ir_path r, tt)))).
      * eapply parses_via_bind; [apply _|intros ? _].
        eapply parses_via_bind; [apply parses_path|intros ? _]. apply parses_via_ret.
      * intros (a & b & []). by exists (mk_ImportRebind a b).
      * intros r. unfold writeImportRebind, rebind_ok. match_fields r.
    + intros w _. apply u32_be_ne.
  - intros v bs. unfold via. by setoid_rewrite map_id_eq.
Qed.

End Grammars.

(** ** The request payloads *)

Section Payloads.
Context `{AllocatorOk}.

(** C9. The runtime accepts a [Run] payload exactly when it is the host
    encoder's output for some well-formed options, and the request it builds is
    those options with every absent limit replaced by its default and the heap
    lines resolved strictly. *)
Theorem parse_run_payload_iff payload req :
  parse_run_payload payload = Ok req <->
  exists o, run_options_ok o /\ req = run_request_of o /\ payload = encodeRunPayload o.
Proof.
  apply parses_whole. unfold parse_code_fields.
  eapply (parses_via_iso _ (fun o => (o_runId o,
    ((o_code o, (o_filename o, (o_limits o, (o_globals o, tt)))), (o_imports o, (o_call o, tt)))))).
  - eapply parses_via_bind; [apply _|intros ? _].
    eapply parses_via_bind; [parse_chain|intros ? _; cbn beta iota]. parse_chain.
  - intros (a & (b & c & d & e & []) & f & g & []).
    by exists (mk_RunPayloadOptions a b c d e f g).
  - intros o. unfold encodeRunPayload, run_options_ok.
    destruct o; cbn. rewrite ?app_nil_r, <- ?app_assoc.
    split; [reflexivity | split; [tauto | reflexivity]].
Qed.

(** The same for [Precompile]: the limits block is read (under the managed
    band) and dropped. *)
Theorem parse_precompile_payload_iff payload p :
  parse_precompile_payload payload = Ok p <->
  exists o, precompile_options_ok o /\ p = precompile_of o /\ payload = encodePrecompilePayload o.
Proof.
  apply parses_whole. unfold parse_code_fields.
  eapply (parses_via_iso _ (fun o => (oc_requestId o,
    ((oc_code o, (oc_filename o, (oc_limits o, (oc_globals o, tt)))), (oc_imports o, tt))))).
  - eapply parses_via_bind; [apply _|intros ? _].
    eapply parses_via_bind; [parse_chain|intros ? _; cbn beta iota]. parse_chain.
  - intros (a & (b & c & d & e & []) & f & []).
    by exists (mk_PrecompilePayloadOptions a b c d e f).
  - intros o. unfold encodePrecompilePayload, precompile_options_ok.
    destruct o; cbn. rewrite ?app_nil_r, <- ?app_assoc.
    split; [reflexivity | split; [tauto | reflexivity]].
Qed.

(** The same for [PrefixRun], with the heap lines of a managed instance. *)
Theorem parse_prefix_run_payload_iff payload req :
  parse_prefix_run_payload payload = Ok req <->
  exists o, prefix_run_options_ok o /\ req = prefix_run_request_of o /\
            payload = encodePrefixRunPayload o.
Proof.
  apply parses_whole.
  eapply (parses_via_iso _ (fun o => (op_runId o, (op_prefixId o, (op_limits o,
    (op_globals o, (op_importRebinds o, (op_call o, tt)))))))).
  - parse_chain.
  - intros (a & b & c & d & e & f & []). by exists (mk_PrefixRunPayloadOptions a b c d e f).
  - intros o. unfold encodePrefixRunPayload, prefix_run_options_ok. match_fields o.
Qed.

(** The prepared-request payloads are accepted exactly when the host encoder
    wrote them for well-formed options, and mean what those options say:
    [Precompile], whose limits block is read and dropped, and [PrefixRun], with
    the heap lines of a managed instance. *)
Theorem prepared_requests_iff payload :
  (forall p, parse_precompile_payload payload = Ok p <->
    exists o, precompile_options_ok o /\ p = precompile_of o /\ payload = encodePrecompilePayload o) /\
  (forall req, parse_prefix_run_payload payload = Ok req <->
    exists o, prefix_run_options_ok o /\ req = prefix_run_request_of o /\
              payload = encodePrefixRunPayload o).
Proof.
  split; intros; [apply parse_precompile_payload_iff | apply parse_prefix_run_payload_iff].
Qed.

End Payloads.

(** ** Witnesses: a run payload with every block populated *)

Definition sample_run_options : RunPayloadOptions := {|
  o_runId := 7;
  o_code := "export const x = 1";
  o_filename := Some "main.js";
  o_limits := mk_WireResourceLimits (Some 32) None (Some 0) None None None None (Some 3) None None;
  o_globals := [PBridge "log" None; PData "cfg" [x01; x02] (Some false); PShim "s" "(h)=>h" "s.h" None];
  o_imports := [mk_ImportBinding "m" (Source "export default 2");
                mk_ImportBinding "db" (Host [("get", NodeFunction); ("ns", NodeObject [("v", NodeData [xff])])])];
  o_call := Some (mk_CallSpec "default" [x0a]);
|}.

Definition sample_prefix_run_options : PrefixRunPayloadOptions := {|
  op_runId := 9;
  op_prefixId := "p1";
  op_limits := mk_WireResourceLimits None None None None None None None None None (Some 64);
  op_globals := [PString "mode" "1 + 1" None];
  op_importRebinds := [mk_ImportRebind "db" ["ns"; "get"]];
  op_call := mk_CallSpec "handler" [];
|}.

Definition sample_precompile_options : PrecompilePayloadOptions := {|
  oc_requestId := 3;
  oc_code := "export function f() {}";
  oc_filename := None;
  oc_limits := mk_WireResourceLimits None None None None None None None None None None;
  oc_globals := [PBridge "log" (Some true)];
  oc_imports := [];
|}.

(** An allocator that never refuses. *)
Definition generous : Allocator := fun _ => true.
#[export] Instance generous_ok : @AllocatorOk generous := fun _ => eq_refl.

(** Decide a closed well-formedness statement by evaluation. *)
Ltac eval_ok :=
  repeat match goal with
  | |- _ /\ _ => split
  | |- Forall _ [] => apply List.Forall_nil
  | |- Forall _ (_ :: _) => apply List.Forall_cons
  | |- is_u32 _ => vm_compute; split; discriminate
  | |- string_ok _ => split; [vm_compute; reflexivity | vm_compute; discriminate]
  | |- blob_ok _ => vm_compute; discriminate
  | |- _ <= _ => vm_compute; discriminate
  | |- True => exact I
  | |- _ => progress (unfold list_ok, option_ok, call_ok, import_ok, entry_fits, rebind_ok,
      global_def_ok, payload_name, global_tail_ok; cbn -[Z.le string_ok blob_ok is_u32 list_ok u32_max])
  end.

Lemma parse_run_payload_iff_witness :
  @parse_run_payload generous (encodeRunPayload sample_run_options) =
    Ok (run_request_of sample_run_options) /\
  is_ok (@parse_run_payload generous (removelast (encodeRunPayload sample_run_options))) = false.
Proof.
  split; [|vm_compute; reflexivity].
  apply (@parse_run_payload_iff generous generous_ok).
  exists sample_run_options. split; [|split; reflexivity].
  unfold run_options_ok, limits_ok. eval_ok.
Defined.

Lemma prepared_requests_iff_witness :
  @parse_precompile_payload generous (encodePrecompilePayload sample_precompile_options) =
    Ok (precompile_of sample_precompile_options) /\
  @parse_prefix_run_payload generous (encodePrefixRunPayload sample_prefix_run_options) =
    Ok (prefix_run_request_of sample_prefix_run_options).
Proof.
  split.
  - apply (proj1 (@prepared_requests_iff generous generous_ok _)).
    exists sample_precompile_options. split; [|split; reflexivity].
    unfold precompile_options_ok, limits_ok. eval_ok.
  - apply (proj2 (@prepared_requests_iff generous generous_ok _)).
    exists sample_prefix_run_options. split; [|split; reflexivity].
    unfold prefix_run_options_ok, limits_ok. eval_ok.
Defined.
