(* ===== verification/Hostile.v ===== *)
(** * Hostile payloads

    The payload parsers of [Requests] on arbitrary bytes: no reservation larger
    than the payload, no out-of-bounds access, no failure other than a protocol
    fault, and the depth limit of a host-module shape. *)

From S2P Require Import Prelude Bytes F64 Types Reader Requests.

Section Confined.
Context (n : Z) (a1 a2 : Allocator).
Context (Hagree : forall c, c <= n -> @reserve_ok a1 c = @reserve_ok a2 c).

#[local] Hint Extern 2 (Confined _ (perr InvalidData _) _) => apply confined_invalid : typeclass_instances.
#[local] Hint Extern 1 (Confined _ (@read_many _ _ _ _) _) =>
  eapply confined_many; [exact Hagree|] : typeclass_instances.

#[local] Instance confined_limits band :
  Confined n (read_resource_limits band) (read_resource_limits band).
Proof.
  unfold read_resource_limits. repeat (apply confined_bind; [apply _|intros ?; cbn zeta]).
  destruct (resolve_heap_lines _ _ _). apply _.
Qed.

#[local] Instance confined_global_def : Confined n read_global_def read_global_def.
Proof. unfold read_global_def. apply _. Qed.

#[local] Instance confined_node levels :
  Confined n (@read_host_module_levels a1 levels) (@read_host_module_levels a2 levels).
Proof using Hagree. induction levels; cbn; apply _. Qed.

#[local] Instance confined_import : Confined n (@read_import_binding a1) (@read_import_binding a2).
Proof using Hagree. unfold read_import_binding, read_host_module_node. apply _. Qed.

#[local] Instance confined_call : Confined n read_call read_call.
Proof. unfold read_call. apply _. Qed.

#[local] Instance confined_optional_call : Confined n read_optional_call read_optional_call.
Proof. unfold read_optional_call. apply _. Qed.

#[local] Instance confined_code_fields band :
  Confined n (@parse_code_fields a1 band) (@parse_code_fields a2 band).
Proof using Hagree. unfold parse_code_fields, read_global_defs. apply _. Qed.

End Confined.

(** What a payload parser promises on any bytes: it behaves the same under two
    allocators that agree up to the payload's own length, and it fails only
    with a protocol fault. *)
Definition bounded_parser {A} (parse : Allocator -> list byte -> io A) : Prop :=
  forall (a1 a2 : Allocator) payload,
    (forall c, c <= zlen payload -> @reserve_ok a1 c = @reserve_ok a2 c) ->
    parse a1 payload = parse a2 payload /\
    (forall e, parse a1 payload = Err e -> protocol_fault (kind e) = true).

Lemma bounded_run_payload : bounded_parser (@parse_run_payload).
Proof.
  intros a1 a2 payload Ha. apply confined_run, confined_bind; [|intros; apply _].
  apply confined_bind; [apply _|intros ?].
  apply confined_bind; [by apply confined_code_fields|]. intros [[[? ?] ?] ?].
  apply confined_bind; [|intros ?; apply confined_bind; [apply confined_optional_call|intros; apply _]].
  apply confined_many; [done|]. by apply confined_import.
Qed.

Lemma bounded_precompile_payload : bounded_parser (@parse_precompile_payload).
Proof.
  intros a1 a2 payload Ha. apply confined_run, confined_bind; [|intros; apply _].
  apply confined_bind; [apply _|intros ?].
  apply confined_bind; [by apply confined_code_fields|]. intros [[[? ?] ?] ?].
  apply confined_bind; [|intros; apply _].
  apply confined_many; [done|]. by apply confined_import.
Qed.

Lemma bounded_prefix_run_payload : bounded_parser (@parse_prefix_run_payload).
Proof.
  intros a1 a2 payload Ha. apply confined_run, confined_bind; [|intros; apply _].
  do 2 (apply confined_bind; [apply _|intros ?]).
  apply confined_bind; [apply confined_limits|intros ?].
  apply confined_bind; [by apply confined_many; [|apply confined_global_def]|intros ?].
  apply confined_bind; [|intros ?; apply confined_bind; [apply confined_call|intros; apply _]].
  apply confined_many; [done|]. apply confined_bind; [apply _|intros ?].
  apply confined_bind; [by apply confined_many; [|apply _]|intros; apply _].
Qed.

(** C21. No payload makes a request parser reserve more entries than the
    payload has bytes, index out of bounds, or fail otherwise than as a
    protocol fault ([UnexpectedEof], [InvalidData], or a refused reservation). *)
Theorem request_parsers_bounded :
  bounded_parser (@parse_run_payload) /\
  bounded_parser (@parse_precompile_payload) /\
  bounded_parser (@parse_prefix_run_payload).
Proof. auto using bounded_run_payload, bounded_precompile_payload, bounded_prefix_run_payload. Qed.

(** ** The depth limit of a host-module shape *)

Fixpoint node_depth (n : HostModuleNode) : nat :=
  match n with
  | NodeFunction | NodeData _ => 1
  | NodeObject es => S (max_list (map (fun e => node_depth e.2) es))
  end.

Lemma max_list_le l m : (max_list l <= m)%nat <-> Forall (fun x => x <= m)%nat l.
Proof. induction l as [|x l IH]; cbn; [split; [constructor|lia]|]. rewrite Forall_cons, <- IH. lia. Qed.

Lemma node_fits_depth levels n : node_fits levels n -> (node_depth n <= levels)%nat.
Proof.
  revert levels. induction n as [|b|es IH] using HostModuleNode_nested_ind;
    intros [|levels]; cbn; try lia; try done.
  intros [_ Hes]. apply le_n_S, max_list_le, List.Forall_map.
  rewrite !List.Forall_forall in *. intros e He. apply IH; [done|]. by apply Hes.
Qed.

Lemma node_fits_mono levels levels' n :
  node_fits levels n -> (node_depth n <= levels')%nat -> node_fits levels' n.
Proof.
  revert levels levels'. induction n as [|b|es IH] using HostModuleNode_nested_ind;
    intros [|levels] [|levels']; cbn; try lia; try done.
  intros [Hlen Hes] Hd. split; [done|]. apply le_S_n, max_list_le, List.Forall_map in Hd.
  rewrite !List.Forall_forall in *. intros e He. destruct (Hes e He) as [Hs Hf].
  split; [done|]. apply (IH e He levels); [done|]. by apply (Hd e).
Qed.

(** A host-module tree that fits the wire at all is accepted exactly when
    it nests at most [MAX_HOST_MODULE_DEPTH] levels deep. *)
Theorem host_module_depth_limit `{AllocatorOk} n suf (Hfit : node_fits (node_depth n) n) :
  is_ok (read_host_module_node 1 (new (writeHostModuleNode n ++ suf))) = true <->
  (node_depth n <= MAX_HOST_MODULE_DEPTH)%nat.
Proof.
  set (r := new (writeHostModuleNode n ++ suf)).
  assert (Hr : rest r = writeHostModuleNode n ++ suf) by (unfold rest, r, new; cbn; apply drop_0).
  assert (Hread : forall levels, (node_depth n <= levels)%nat ->
    read_host_module_levels levels r = Ok (n, advance r (length (writeHostModuleNode n)))).
  { intros levels Hl. apply parses_node. exists (writeHostModuleNode n), suf.
    split; [|done]. exists n. split; [by apply (node_fits_mono (node_depth n))|done]. }
  unfold read_host_module_node. change (MAX_HOST_MODULE_DEPTH + 1 - 1)%nat with MAX_HOST_MODULE_DEPTH.
  split; [|intros Hd; by rewrite Hread].
  destruct (read_host_module_levels MAX_HOST_MODULE_DEPTH r) as [[m r']|] eqn:Hm; [|done]. intros _.
  apply parses_node in Hm as (bs & suf' & (m' & Hfm & Hmm & ->) & Hr' & ->).
  unfold id in Hmm. subst m'.
  set (L := Nat.max (node_depth n) MAX_HOST_MODULE_DEPTH).
  assert (Hm : read_host_module_levels L r = Ok (m, advance r (length (writeHostModuleNode m)))).
  { apply parses_node. exists (writeHostModuleNode m), suf'. split; [|done].
    exists m. split; [|done]. apply (node_fits_mono MAX_HOST_MODULE_DEPTH); [done|].
    apply node_fits_depth in Hfm. unfold L. lia. }
  rewrite Hread in Hm by (unfold L; lia). injection Hm as <- _. by apply node_fits_depth.
Qed.

(** A chain of [n] objects around a function. *)
Fixpoint nested (n : nat) : HostModuleNode :=
  match n with O => NodeFunction | S n => NodeObject [("k", nested n)] end.

Lemma nested_depth k : node_depth (nested k) = S k.
Proof. induction k as [|k IH]; cbn in *; [done|]. rewrite IH. lia. Qed.

Lemma nested_fits k : node_fits (S k) (nested k).
Proof.
  induction k as [|k IH]; [exact I|]. change (list_ok (entry_fits (S k)) [("k", nested k)]).
  split; [vm_compute; discriminate|]. constructor; [|constructor].
  split; [split; [reflexivity|vm_compute; discriminate]|exact IH].
Qed.

Lemma host_module_depth_limit_witness :
  is_ok (@read_host_module_node generous 1 (new (writeHostModuleNode (nested 63) ++ []))) = true /\
  ~ is_ok (@read_host_module_node generous 1 (new (writeHostModuleNode (nested 64) ++ []))) = true.
Proof.
  split.
  - apply (@host_module_depth_limit generous generous_ok (nested 63) []);
      rewrite ?nested_depth; [apply nested_fits|apply Nat.le_refl].
  - rewrite (@host_module_depth_limit generous generous_ok (nested 64) []);
      rewrite ?nested_depth; [unfold MAX_HOST_MODULE_DEPTH; lia|apply nested_fits].
Defined.
