(* ===== verification/StreamPayloads.v ===== *)
(** * Control and stream payloads

    [Terminate], [DisposePrefix] and the four stream frames
    ([crates/server/src/ipc.rs]), with the host client's writers
    ([packages/iso4-sandbox/src/ipc.ts]) and readers for the frames that travel
    in both directions. *)

From S2P Require Import Prelude Bytes F64 Types Reader Requests.

(** ** The host client's writers *)

Definition encodeStreamChunkPayload (runId streamId : Z) (data : list byte) : list byte :=
  u32_be runId ++ u32_be streamId ++ u32_be (zlen data) ++ data.

Definition encodeStreamEndPayload (runId streamId : Z) (error : option string) : list byte :=
  u32_be runId ++ u32_be streamId ++
  write_u8 (match error with None => 1 | Some _ => 0 end) ++
  match error with None => [] | Some e => write_u8 1 ++ write_string e end.

Definition encodeStreamPullPayload (runId streamId credit : Z) : list byte :=
  u32_be runId ++ u32_be streamId ++ u32_be credit.

Definition encodeStreamCancelPayload (runId streamId : Z) (reason : string) : list byte :=
  u32_be runId ++ u32_be streamId ++ write_string reason.

(** ** The runtime's writers *)

(** [len as u32] of a length. *)
Definition as_u32 (n : Z) : Z := n mod (u32_max + 1).

Definition encode_stream_pull_payload (run_id stream_id credit : Z) : list byte :=
  u32_be run_id ++ u32_be stream_id ++ u32_be credit.

Definition encode_stream_cancel_payload (run_id stream_id : Z) (reason : string) : list byte :=
  u32_be run_id ++ u32_be stream_id ++ u32_be (as_u32 (zlen (as_bytes reason))) ++ as_bytes reason.

Definition encode_stream_end_payload (run_id stream_id : Z) (error : option string) : list byte :=
  u32_be run_id ++ u32_be stream_id ++
  match error with
  | None => [z2b 1]
  | Some message =>
    [z2b 0] ++ [z2b 1] ++ u32_be (as_u32 (zlen (as_bytes message))) ++ as_bytes message
  end.

(** ** The runtime's parsers *)

Record StreamChunkPayload := mk_StreamChunk { sc_stream_id : Z; sc_data : list byte }.

(** [payload[lo..hi]] *)
Definition slice (lo hi : nat) (l : list byte) : list byte := take (hi - lo) (drop lo l).

Definition parse_stream_chunk_payload (payload : list byte) : io StreamChunkPayload :=
  if Nat.ltb (length payload) 12 then fail InvalidData "payload too short for StreamChunk"
  else
    let stream_id := be_val (slice 4 8 payload) in
    let len := be_val (slice 8 12 payload) in
    if STREAM_CHUNK_MAX_BYTES <? len then
      fail InvalidData ("stream chunk of " +:+ show len +:+ " bytes exceeds the "
        +:+ show STREAM_CHUNK_MAX_BYTES +:+ " cap")
    else if negb (zlen payload =? 12 + len) then
      fail InvalidData "StreamChunk payload length mismatch"
    else Ok (mk_StreamChunk stream_id (drop 12 payload)).

Record StreamEndPayload := mk_StreamEnd { se_stream_id : Z; se_ok : bool; se_error : option string }.

Definition parse_stream_end_payload (payload : list byte) : io StreamEndPayload :=
  run_parser (
    p ← (_ ← read_u32;
         stream_id ← read_u32;
         ok ← read_bool;
         error ← (if (ok : bool) then mret None
                  else b ← read_u8;
                       if b =? 0 then mret None
                       else if b =? 1 then s ← read_string; mret (Some s)
                       else bad_presence b);
         mret (mk_StreamEnd stream_id ok error));
    _ ← assert_done;
    mret p) payload.

Record StreamPullPayload := mk_StreamPull { sp_stream_id : Z; sp_credit : Z }.

Definition parse_stream_pull_payload (payload : list byte) : io StreamPullPayload :=
  run_parser (
    p ← (_ ← read_u32;
         stream_id ← read_u32;
         credit ← read_u32;
         mret (mk_StreamPull stream_id credit));
    _ ← assert_done;
    mret p) payload.

Record StreamCancelPayload := mk_StreamCancel { sx_stream_id : Z; sx_reason : string }.

Definition parse_stream_cancel_payload (payload : list byte) : io StreamCancelPayload :=
  run_parser (
    p ← (_ ← read_u32;
         stream_id ← read_u32;
         reason ← read_string;
         mret (mk_StreamCancel stream_id reason));
    _ ← assert_done;
    mret p) payload.

(** ** Acceptance *)

Lemma as_u32_small n : is_u32 n -> as_u32 n = n.
Proof. intros H. apply Z.mod_small. zsolve. Qed.

Lemma split_12 (payload : list byte) :
  (12 <= length payload)%nat ->
  exists a b c d, length a = 4%nat /\ length b = 4%nat /\ length c = 4%nat /\
    payload = a ++ b ++ c ++ d.
Proof.
  intros H. exists (take 4 payload), (take 4 (drop 4 payload)), (take 4 (drop 8 payload)), (drop 12 payload).
  rewrite !length_take, !length_drop. split_and!; try lia.
  change 12%nat with (8 + 4)%nat. rewrite <- (drop_drop payload 4 8), take_drop.
  change 8%nat with (4 + 4)%nat. by rewrite <- (drop_drop payload 4 4), take_drop, take_drop.
Qed.

Lemma slices_12 a b c d :
  length a = 4%nat -> length b = 4%nat -> length c = 4%nat ->
  slice 4 8 (a ++ b ++ c ++ d) = b /\ slice 8 12 (a ++ b ++ c ++ d) = c /\
  drop 12 (a ++ b ++ c ++ d) = d.
Proof.
  intros Ha Hb Hc. unfold slice.
  destruct a as [|? [|? [|? [|? []]]]]; try discriminate.
  destruct b as [|? [|? [|? [|? []]]]]; try discriminate.
  destruct c as [|? [|? [|? [|? []]]]]; try discriminate. done.
Qed.

Lemma parse_stream_chunk_iff payload p :
  parse_stream_chunk_payload payload = Ok p <->
  exists runId, is_u32 runId /\ is_u32 (sc_stream_id p) /\
    zlen (sc_data p) <= STREAM_CHUNK_MAX_BYTES /\
    payload = encodeStreamChunkPayload runId (sc_stream_id p) (sc_data p).
Proof.
  unfold parse_stream_chunk_payload. split.
  - destruct (Nat.ltb_spec (length payload) 12) as [|Hl]; [done|].
    destruct (split_12 payload Hl) as (a & b & c & d & Ha & Hb & Hc & ->).
    destruct (slices_12 a b c d Ha Hb Hc) as (-> & -> & ->).
    destruct (Z.ltb_spec STREAM_CHUNK_MAX_BYTES (be_val c)) as [|Hmax]; [done|].
    rewrite !length_app, Ha, Hb, Hc.
    destruct (Z.eqb_spec (Z.of_nat (4 + (4 + (4 + length d)))) (12 + be_val c)) as [He|]; [|done].
    intros [= <-]. exists (be_val a). cbn. unfold encodeStreamChunkPayload.
    replace (zlen d) with (be_val c) by lia.
    rewrite !u32_be_val by done. split_and!; auto using be_val_is_u32. 
  - intros (runId & Hr & Hs & Hd & ->). unfold encodeStreamChunkPayload. destruct p as [sid d]. cbn [sc_data sc_stream_id] in *.
    assert (Hd32 : is_u32 (zlen d)) by (unfold STREAM_CHUNK_MAX_BYTES in Hd; zsolve).
    destruct (slices_12 (u32_be runId) (u32_be sid) (u32_be (zlen d)) d) as (-> & -> & ->);
      try apply length_u32_be.
    rewrite !be_val_u32, !length_app, !length_u32_be by done.
    destruct (Nat.ltb_spec (4 + (4 + (4 + length d)))%nat 12); [lia|].
    destruct (Z.ltb_spec STREAM_CHUNK_MAX_BYTES (zlen d)); [lia|].
    destruct (Z.eqb_spec (Z.of_nat (4 + (4 + (4 + length d)))) (12 + zlen d)); [done|lia].
Qed.

(** The tail of a [StreamEnd] payload after the two ids. *)
Definition end_tail (e : option (option string)) : list byte :=
  match e with
  | None => write_bool true
  | Some e => write_bool false ++ write_option write_string e
  end.

Lemma parses_end_error (ok : bool) :
  Parses (if ok then mret None
          else b ← read_u8;
               if b =? 0 then mret None
               else if b =? 1 then s ← read_string; mret (Some s)
               else bad_presence b)
    (via (fun e : option (option string) => match e with None => [] | Some e => write_option write_string e end)
         (fun e => option_ok (option_ok string_ok) e /\ (ok = match e with None => true | Some _ => false end))
         (fun e => mjoin e)).
Proof.
  destruct ok.
  - eapply parses_ext; [apply parses_ret|]. intros v bs. unfold via. split.
    + intros [-> ->]. by exists None.
    + by intros ([|] & [_ ?] & -> & ->).
  - eapply parses_ext; [apply (parses_option _ _ _ _ parses_string)|]. intros v bs. unfold via. split.
    + intros (e & Hok & -> & ->). exists (Some e). by destruct e.
    + intros ([e|] & [Hok ?] & -> & ->); [|done]. exists e. by destruct e.
Qed.

(** The verdict after the two ids: [None] for a clean end, [Some] of the
    optional message for a failure. *)
Lemma parses_end_verdict stream_id :
  Parses
    (ok ← read_bool;
     error ← (if (ok : bool) then mret None
              else b ← read_u8;
                   if b =? 0 then mret None
                   else if b =? 1 then s ← read_string; mret (Some s)
                   else bad_presence b);
     mret (mk_StreamEnd stream_id ok error))
    (via end_tail (option_ok (option_ok string_ok))
      (fun e => mk_StreamEnd stream_id (bool_decide (e = None)) (mjoin e))).
Proof.
  eapply parses_ext.
  { eapply parses_via_bind; [apply _|intros ok _; cbn beta].
    eapply parses_via_bind; [apply parses_end_error|intros ? _]. apply parses_via_ret. }
  intros v bs. unfold via, id. split.
  - intros ([ok [e []]] & (_ & [Hok ->] & _) & -> & ->). exists e.
    destruct e as [e|]; cbn; by rewrite ?app_nil_r.
  - intros (e & Hok & -> & ->). exists (bool_decide (e = None), (e, tt)).
    destruct e as [e|]; cbn; by rewrite ?app_nil_r.
Qed.

Lemma parse_stream_end_iff payload p :
  parse_stream_end_payload payload = Ok p <->
  exists runId streamId e, is_u32 runId /\ is_u32 streamId /\ option_ok (option_ok string_ok) e /\
    p = mk_StreamEnd streamId (bool_decide (e = None)) (mjoin e) /\
    payload = u32_be runId ++ u32_be streamId ++ end_tail e.
Proof.
  unfold parse_stream_end_payload. eapply iff_trans; [eapply parses_whole|].
  { do 2 (eapply parses_via_bind; [apply _|intros ? _; cbn beta]). apply parses_end_verdict. }
  unfold id. split.
  - intros ((a & b & e) & (Ha & Hb & He) & -> & ->). by exists a, b, e.
  - intros (a & b & e & Ha & Hb & He & -> & ->). by exists (a, (b, e)).
Qed.

Lemma parse_stream_pull_iff payload p :
  parse_stream_pull_payload payload = Ok p <->
  exists runId, is_u32 runId /\ is_u32 (sp_stream_id p) /\ is_u32 (sp_credit p) /\
    payload = encodeStreamPullPayload runId (sp_stream_id p) (sp_credit p).
Proof.
  unfold parse_stream_pull_payload. eapply iff_trans; [eapply parses_whole; parse_chain|].
  unfold id, encodeStreamPullPayload. split.
  - intros ((a & b & c & []) & (Ha & Hb & Hc & _) & -> & ->). exists a. cbn. by rewrite app_nil_r.
  - intros (a & Ha & Hb & Hc & ->). exists (a, (sp_stream_id p, (sp_credit p, tt))).
    destruct p. cbn. by rewrite app_nil_r.
Qed.

Lemma parse_stream_cancel_iff payload p :
  parse_stream_cancel_payload payload = Ok p <->
  exists runId, is_u32 runId /\ is_u32 (sx_stream_id p) /\ string_ok (sx_reason p) /\
    payload = encodeStreamCancelPayload runId (sx_stream_id p) (sx_reason p).
Proof.
  unfold parse_stream_cancel_payload. eapply iff_trans; [eapply parses_whole; parse_chain|].
  unfold id, encodeStreamCancelPayload. split.
  - intros ((a & b & c & []) & (Ha & Hb & Hc & _) & -> & ->). exists a. cbn. by rewrite app_nil_r.
  - intros (a & Ha & Hb & Hc & ->). exists (a, (sx_stream_id p, (sx_reason p, tt))).
    destruct p. cbn. by rewrite app_nil_r.
Qed.

(** The stream parsers of the runtime accept exactly the host client's
    stream frames (for [StreamEnd], also the failure without a message that no
    client writes): a chunk only within the chunk cap and with nothing after
    its bytes, and every id, credit and text comes back as it was written. *)
Theorem stream_payloads_iff payload :
  (forall p, parse_stream_chunk_payload payload = Ok p <->
    exists runId, is_u32 runId /\ is_u32 (sc_stream_id p) /\
      zlen (sc_data p) <= STREAM_CHUNK_MAX_BYTES /\
      payload = encodeStreamChunkPayload runId (sc_stream_id p) (sc_data p)) /\
  (forall p, parse_stream_end_payload payload = Ok p <->
    exists runId streamId e, is_u32 runId /\ is_u32 streamId /\ option_ok (option_ok string_ok) e /\
      p = mk_StreamEnd streamId (bool_decide (e = None)) (mjoin e) /\
      payload = match e with
        | Some None => u32_be runId ++ u32_be streamId ++ write_u8 0 ++ write_u8 0
        | _ => encodeStreamEndPayload runId streamId (mjoin e) end) /\
  (forall p, parse_stream_pull_payload payload = Ok p <->
    exists runId, is_u32 runId /\ is_u32 (sp_stream_id p) /\ is_u32 (sp_credit p) /\
      payload = encodeStreamPullPayload runId (sp_stream_id p) (sp_credit p)) /\
  (forall p, parse_stream_cancel_payload payload = Ok p <->
    exists runId, is_u32 runId /\ is_u32 (sx_stream_id p) /\ string_ok (sx_reason p) /\
      payload = encodeStreamCancelPayload runId (sx_stream_id p) (sx_reason p)).
Proof.
  split; [apply parse_stream_chunk_iff|]. split; [|split; [apply parse_stream_pull_iff|apply parse_stream_cancel_iff]].
  intros p. rewrite parse_stream_end_iff.
  assert (Henc : forall a b e, u32_be a ++ u32_be b ++ end_tail e =
    match e with Some None => u32_be a ++ u32_be b ++ write_u8 0 ++ write_u8 0
    | _ => encodeStreamEndPayload a b (mjoin e) end) by (intros ? ? [[]|]; reflexivity).
  split; intros (a & b & e & Ha & Hb & He & Hp & Hpay); exists a, b, e;
    rewrite ?Henc in Hpay; rewrite ?Henc; done.
Qed.

(** The runtime writes the same bytes as the host client for the frames that
    travel both ways, as long as the text's length fits its [u32]. *)
Lemma runtime_stream_writers_agree run_id stream_id credit text error :
  blob_ok (as_bytes text) -> option_ok (fun e => blob_ok (as_bytes e)) error ->
  encode_stream_pull_payload run_id stream_id credit = encodeStreamPullPayload run_id stream_id credit /\
  encode_stream_cancel_payload run_id stream_id text = encodeStreamCancelPayload run_id stream_id text /\
  encode_stream_end_payload run_id stream_id error = encodeStreamEndPayload run_id stream_id error.
Proof.
  intros Ht He. split; [done|]. split.
  - unfold encode_stream_cancel_payload. rewrite as_u32_small; [done|]. unfold blob_ok in Ht. zsolve.
  - unfold encode_stream_end_payload. destruct error as [e|]; [|done]. cbn in He.
    rewrite as_u32_small; [done|]. unfold blob_ok in He. zsolve.
Qed.

(** ** Control frames *)

(** [Terminate] and [DisposePrefix] are accepted exactly as the host client
    writes them; any other mode byte is refused. *)
Lemma control_payloads_iff payload :
  (forall run_id mode, parse_terminate_payload payload = Ok (run_id, mode) <->
    is_u32 run_id /\
    payload = encodeTerminatePayload run_id (match mode with Hard => true | Soft => false end)) /\
  (forall id, parse_dispose_prefix_payload payload = Ok id <->
    string_ok id /\ payload = encodeDisposePrefixPayload id).
Proof.
  split.
  - intros run_id mode. unfold parse_terminate_payload. eapply iff_trans; [eapply parses_whole|].
    { eapply parses_via_bind; [apply _|intros ? _; cbn beta].
      eapply (parses_tag _ (fun m => TerminateMode_as_u8 m) (fun _ => []) (fun _ => True)
        (fun m => (_, m))).
      - intros [] _; cbn; zsolve.
      - intros t _. destruct (Z.eqb_spec t 0) as [->|Ht0]; [|destruct (Z.eqb_spec t 1) as [->|Ht1]].
        + eapply parses_ext; [apply parses_ret|]. intros v bs; unfold via. split.
          * intros [-> ->]. by exists Soft.
          * by intros ([] & [_ ?] & -> & ->).
        + eapply parses_ext; [apply parses_ret|]. intros v bs; unfold via. split.
          * intros [-> ->]. by exists Hard.
          * by intros ([] & [_ ?] & -> & ->).
        + intros r v r'. split; [done|].
          intros (? & ? & ([] & [_ Ht] & _) & _); cbn in Ht; lia. }
    unfold id, encodeTerminatePayload. split.
    + intros ([a m] & [Ha _] & [= -> ->] & ->). by destruct m.
    + intros [Ha ->]. exists (run_id, mode). by destruct mode.
  - intros id. unfold parse_dispose_prefix_payload, encodeDisposePrefixPayload.
    rewrite (parses_whole _ _ _ _ _ _ parses_string). unfold Datatypes.id. naive_solver.
Qed.
