(* ===== verification/Frames.v ===== *)
(** * Frames, message types and the handshake payloads

    The outer envelope of [crates/server/src/ipc.rs]: [read_frame_with_limit]
    over a socket that delivers bytes in arbitrary pieces, the frame writer,
    the two message-type tables, and the [Authenticate] / [Hello] payloads with
    the host client's side of them ([packages/iso4-sandbox/src/ipc.ts]). *)

From S2P Require Import Prelude Bytes F64 Types Reader Requests StreamPayloads.

Definition PROTOCOL_VERSION : Z := 1.
Definition DEFAULT_MAX_FRAME_LENGTH : Z := 64 * 1024 * 1024.
Definition AUTH_MAX_FRAME_LENGTH : Z := 4 * 1024.
(** [iso4_core::webcodec::DESCRIPTOR_TOKEN_LEN] *)
Definition DESCRIPTOR_TOKEN_LEN : Z := 16.

(** ** Message types *)

Inductive TsToRustMessageType :=
  | Authenticate | Run | Precompile | PrefixRun | DisposePrefix | BridgeResponse
  | Terminate | Stats | StreamChunk | StreamEnd | StreamPull | StreamCancel | Close.

#[export] Instance TsToRustMessageType_eq_dec : EqDecision TsToRustMessageType.
Proof. solve_decision. Defined.

Definition ts_type_as_u8 (t : TsToRustMessageType) : Z :=
  match t with
  | Authenticate => 1 | Run => 2 | Precompile => 3 | PrefixRun => 4 | DisposePrefix => 5
  | BridgeResponse => 6 | Terminate => 7 | Stats => 8 | StreamChunk => 9 | StreamEnd => 10
  | StreamPull => 11 | StreamCancel => 12 | Close => 13
  end.

Definition parse_ts_to_rust_message_type (byte : Z) : io TsToRustMessageType :=
  match byte with
  | 1 => Ok Authenticate | 2 => Ok Run | 3 => Ok Precompile | 4 => Ok PrefixRun
  | 5 => Ok DisposePrefix | 6 => Ok BridgeResponse | 7 => Ok Terminate | 8 => Ok Stats
  | 9 => Ok StreamChunk | 10 => Ok StreamEnd | 11 => Ok StreamPull | 12 => Ok StreamCancel
  | 13 => Ok Close
  | _ => fail InvalidData ("unknown TS->Rust message type: " +:+ show_hex byte)
  end.

Module Out.
(** Runtime-to-host types, in a module of their own since names recur. *)
Inductive RustToTsMessageType :=
  | BridgeCall | Result | PrecompileResult | Log | Hello | StatsResult | RunComplete
  | StreamPull | StreamCancel | StreamChunk | StreamEnd.

Definition as_u8 (t : RustToTsMessageType) : Z :=
  match t with
  | BridgeCall => 1 | Result => 2 | PrecompileResult => 3 | Log => 4 | Hello => 5
  | StatsResult => 6 | RunComplete => 7 | StreamPull => 8 | StreamCancel => 9
  | StreamChunk => 10 | StreamEnd => 11
  end.

Definition parse_rust_to_ts_message_type (byte : Z) : io RustToTsMessageType :=
  match byte with
  | 1 => Ok BridgeCall | 2 => Ok Result | 3 => Ok PrecompileResult | 4 => Ok Log
  | 5 => Ok Hello | 6 => Ok StatsResult | 7 => Ok RunComplete | 8 => Ok StreamPull
  | 9 => Ok StreamCancel | 10 => Ok StreamChunk | 11 => Ok StreamEnd
  | _ => fail InvalidData ("unknown Rust->TS message type: " +:+ show_hex byte)
  end.
End Out.

Inductive HelloStatus := HelloOk | ProtocolVersionMismatch | V8FormatMismatch.

Definition HelloStatus_as_u8 (s : HelloStatus) : Z :=
  match s with HelloOk => 0 | ProtocolVersionMismatch => 1 | V8FormatMismatch => 2 end.

(** ** The envelope *)

Record Frame := mk_Frame { message_type : Z; payload : list byte }.

(** What the socket will deliver: pieces of data, and errors between them.  The
    end of the script, and an empty piece, are end of file. *)
Inductive read_event :=
  | Piece (bs : list byte)
  | Failure (e : io_error).

Definition script := list read_event.

(** [read_until_eof]: fill a buffer of [want] bytes, stopping at end of file;
    an [Interrupted] read is retried.  A piece larger than the room left is
    delivered in part, the remainder on the next read. *)
Fixpoint read_until_eof (want : nat) (s : script) : io (list byte * script) :=
  match want with
  | O => Ok ([], s)
  | S _ =>
    match s with
    | [] => Ok ([], [])
    | Piece bs :: s =>
      match bs with
      | [] => Ok ([], s)
      | _ =>
        if Nat.ltb want (length bs) then Ok (take want bs, Piece (drop want bs) :: s)
        else '(more, s') ← read_until_eof (want - length bs) s; Ok (bs ++ more, s')
      end
    | Failure e :: s =>
      if decide (kind e = Interrupted) then read_until_eof want s else Err e
    end
  end.

Definition read_frame_with_limit (s : script) (max_frame_length : Z) : io (Frame * script) :=
  '(length_prefix, s) ← read_until_eof 4 s;
  match length length_prefix with
  | O => fail UnexpectedEof "connection closed"
  | 4%nat =>
    let length := be_val length_prefix in
    if length =? 0 then fail InvalidData "frame length cannot be zero"
    else if max_frame_length <? length then
      fail InvalidData ("frame length " +:+ show length +:+ " exceeds max frame length "
        +:+ show max_frame_length)
    else
      '(buffer, s) ← read_until_eof (Z.to_nat length) s;
      if zlen buffer <? length then
        fail InvalidData ("truncated frame: got " +:+ show (zlen buffer) +:+ " of "
          +:+ show length +:+ " bytes")
      else match buffer with
      | type_byte :: payload => Ok (mk_Frame (b2z type_byte) payload, s)
      | [] => fail Other "index out of bounds"
      end
  | got => fail InvalidData ("truncated frame: got " +:+ show (Z.of_nat got)
      +:+ " of 4 length-prefix bytes")
  end.

Definition read_ts_to_rust_frame_with_limit (s : script) (max_frame_length : Z) :
    io (TsToRustMessageType * list byte * script) :=
  '(frame, s) ← read_frame_with_limit s max_frame_length;
  t ← parse_ts_to_rust_message_type (message_type frame);
  Ok (t, payload frame, s).

(** The writer is anything with a [write_all]. *)
Section Writer.
Context {W : Type} (write_all : W -> list byte -> io W).

Definition write_frame_with_limit (writer : W) (message_type : Z) (payload : list byte)
    (max_frame_length : Z) : io W :=
  match try_u32 (zlen payload) with
  | None => fail InvalidInput "payload too large"
  | Some payload_length =>
    match checked_add u32_max payload_length 1 with
    | None => fail InvalidInput "payload too large"
    | Some length =>
      if max_frame_length <? length then
        fail InvalidInput ("frame length " +:+ show length +:+ " exceeds max frame length "
          +:+ show max_frame_length)
      else
        writer ← write_all writer (u32_be length);
        writer ← write_all writer [z2b message_type];
        writer ← write_all writer payload;
        Ok writer
    end
  end.

Definition write_frame (writer : W) (message_type : Z) (payload : list byte) : io W :=
  write_frame_with_limit writer message_type payload DEFAULT_MAX_FRAME_LENGTH.

Definition write_rust_to_ts_frame (writer : W) (t : Out.RustToTsMessageType) (payload : list byte) : io W :=
  write_frame writer (Out.as_u8 t) payload.
End Writer.

(** [impl Write for Vec<u8>] *)
Definition vec_write_all (v bs : list byte) : io (list byte) := Ok (v ++ bs).

(** ** Handshake payloads *)

Record AuthenticatePayload := mk_Authenticate {
  protocol_version : Z;
  probe : list byte;
  descriptor_token : list byte;
}.

Definition parse_authenticate_payload (payload : list byte) : io AuthenticatePayload :=
  if Nat.ltb (length payload) 6 then fail InvalidData "payload too short for Authenticate"
  else
    let protocol_version := be_val (slice 0 2 payload) in
    let probe_len := be_val (slice 2 6 payload) in
    let probe_end := 6 + probe_len in
    if negb (probe_end + 4 <=? zlen payload) then
      fail InvalidData "Authenticate payload truncated (probe)"
    else
      let probe_end := Z.to_nat probe_end in
      let probe := slice 6 probe_end payload in
      let token_len := be_val (slice probe_end (probe_end + 4) payload) in
      if negb (token_len =? DESCRIPTOR_TOKEN_LEN) then
        fail InvalidData ("descriptor token must be exactly " +:+ show DESCRIPTOR_TOKEN_LEN
          +:+ " bytes, got " +:+ show token_len)
      else
        let token_end := (probe_end + 4 + Z.to_nat token_len)%nat in
        if Nat.ltb (length payload) token_end then
          fail InvalidData "Authenticate payload truncated (descriptor token)"
        else if negb (Nat.eqb token_end (length payload)) then
          fail InvalidData "Authenticate payload has trailing bytes"
        else Ok (mk_Authenticate protocol_version probe
                   (slice (probe_end + 4) token_end payload)).

Definition encode_authenticate_payload (auth : AuthenticatePayload) : list byte :=
  u16_be (protocol_version auth) ++ u32_be (as_u32 (zlen (probe auth))) ++ probe auth ++
  u32_be (as_u32 (zlen (descriptor_token auth))) ++ descriptor_token auth.

(** The host client's writer; [None] is a thrown error. *)
Definition encodeAuthenticatePayload (auth : AuthenticatePayload) : option (list byte) :=
  if (protocol_version auth <? 0) || (65535 <? protocol_version auth) then None
  else if negb (zlen (descriptor_token auth) =? DESCRIPTOR_TOKEN_LEN) then None
  else Some (u16_be (protocol_version auth) ++ u32_be (zlen (probe auth)) ++ probe auth ++
             u32_be (zlen (descriptor_token auth)) ++ descriptor_token auth).

Definition encode_hello_payload (status : HelloStatus) (probe : list byte) (message : string) : list byte :=
  [z2b (HelloStatus_as_u8 status)] ++ u32_be (as_u32 (zlen probe)) ++ probe ++
  u32_be (as_u32 (zlen (as_bytes message))) ++ as_bytes message.

Record HelloPayload := mk_Hello { h_status : Z; h_probe : list byte; h_message : list byte }.

(** The host client's reader; [None] is a thrown error.  The message is kept as
    the bytes the client decodes to text. *)
Definition decodeHelloPayload (payload : list byte) : option HelloPayload :=
  if Nat.ltb (length payload) 5 then None
  else
    let probeLength := Z.to_nat (be_val (slice 1 5 payload)) in
    if Nat.ltb (length payload) (5 + probeLength + 4) then None
    else
      let messageLength := Z.to_nat (be_val (slice (5 + probeLength) (5 + probeLength + 4) payload)) in
      let messageStart := (5 + probeLength + 4)%nat in
      if Nat.ltb (length payload) (messageStart + messageLength) then None
      else Some (mk_Hello (be_val (slice 0 1 payload)) (slice 5 (5 + probeLength) payload)
                  (slice messageStart (messageStart + messageLength) payload)).

(** ** Message-type tables *)

(** Both message-type tables are injective, and a byte is accepted exactly
    when it is the number of a type in that direction; every other byte is
    [InvalidData]. *)
Theorem message_type_bytes byte :
  (forall t, parse_ts_to_rust_message_type byte = Ok t <-> byte = ts_type_as_u8 t) /\
  (forall t, Out.parse_rust_to_ts_message_type byte = Ok t <-> byte = Out.as_u8 t) /\
  (forall e, parse_ts_to_rust_message_type byte = Err e \/
             Out.parse_rust_to_ts_message_type byte = Err e -> kind e = InvalidData).
Proof.
  split; [|split].
  - intros t. split; [|by intros ->; destruct t].
    unfold parse_ts_to_rust_message_type, fail. intros H.
    repeat split_match H; simplify_eq; done.
  - intros t. split; [|by intros ->; destruct t].
    unfold Out.parse_rust_to_ts_message_type, fail. intros H.
    repeat split_match H; simplify_eq; done.
  - intros e [H|H]; revert H;
      unfold parse_ts_to_rust_message_type, Out.parse_rust_to_ts_message_type, fail;
      intros H; repeat split_match H; simplify_eq; done.
Qed.

(** ** Reading a socket *)

(** A read event that neither ends the stream nor fails. *)
Definition quiet (ev : read_event) : Prop :=
  match ev with Piece bs => bs <> [] | Failure e => kind e = Interrupted end.

Definition event_bytes (ev : read_event) : list byte :=
  match ev with Piece bs => bs | Failure _ => [] end.

(** All the bytes a script delivers. *)
Definition content (s : script) : list byte := concat (map event_bytes s).

Lemma read_until_eof_quiet want s :
  Forall quiet s ->
  exists s', read_until_eof want s = Ok (take want (content s), s') /\
    Forall quiet s' /\ content s' = drop want (content s).
Proof.
  intros Hs. revert want. induction Hs as [|ev s Hev Hs IH]; intros [|want].
  - by exists [].
  - by exists [].
  - exists (ev :: s). rewrite drop_0. split; [done|]. split; [by constructor|done].
  - destruct ev as [bs|e]; cbn [read_until_eof].
    + destruct bs as [|b bs]; [done|]. set (p := b :: bs). unfold content. cbn [map event_bytes concat].
      destruct (Nat.ltb_spec (S want) (length p)) as [Hlt|Hge].
      * exists (Piece (drop (S want) p) :: s). rewrite take_app_le, drop_app_le by lia.
        split; [done|]. split; [|done]. constructor; [|done].
        intros H%(f_equal length). rewrite length_drop in H. cbn [length] in H. lia.
      * destruct (IH (S want - length p)%nat) as (s' & -> & Hq & Hc). exists s'.
        rewrite take_app_ge, drop_app_ge by lia. done.
    + cbn in Hev. rewrite decide_True by done.
      destruct (IH (S want)) as (s' & -> & Hq & Hc). by exists s'.
Qed.

(** The frame at the head of a flat byte string. *)
Definition decode_frame (bs : list byte) (max_frame_length : Z) : io (Frame * list byte) :=
  match length (take 4 bs) with
  | O => fail UnexpectedEof "connection closed"
  | 4%nat =>
    let len := be_val (take 4 bs) in
    let buffer := take (Z.to_nat len) (drop 4 bs) in
    if len =? 0 then fail InvalidData "frame length cannot be zero"
    else if max_frame_length <? len then
      fail InvalidData ("frame length " +:+ show len +:+ " exceeds max frame length "
        +:+ show max_frame_length)
    else match buffer with
    | type_byte :: payload =>
      if zlen buffer <? len then
        fail InvalidData ("truncated frame: got " +:+ show (zlen buffer) +:+ " of "
          +:+ show len +:+ " bytes")
      else Ok (mk_Frame (b2z type_byte) payload, drop (Z.to_nat len) (drop 4 bs))
    | [] => fail InvalidData ("truncated frame: got " +:+ show (zlen buffer) +:+ " of "
          +:+ show len +:+ " bytes")
    end
  | got => fail InvalidData ("truncated frame: got " +:+ show (Z.of_nat got)
      +:+ " of 4 length-prefix bytes")
  end.

Lemma read_frame_decode s max :
  Forall quiet s ->
  match decode_frame (content s) max with
  | Ok (f, rest) => exists s', read_frame_with_limit s max = Ok (f, s') /\
      Forall quiet s' /\ content s' = rest
  | Err e => read_frame_with_limit s max = Err e
  end.
Proof.
  intros Hs. unfold read_frame_with_limit, decode_frame.
  destruct (read_until_eof_quiet 4 s Hs) as (s1 & -> & Hs1 & Hc1). cbn [mbind result_bind].
  set (pre := take 4 (content s)) in *.
  destruct (length pre) as [|[|[|[|[|?]]]]]; try done.
  destruct (Z.eqb_spec (be_val pre) 0) as [|Hnz]; [done|].
  destruct (Z.ltb_spec max (be_val pre)); [done|].
  destruct (read_until_eof_quiet (Z.to_nat (be_val pre)) s1 Hs1) as (s2 & -> & Hs2 & Hc2).
  cbn [mbind result_bind]. rewrite Hc1 in *.
  set (buf := take (Z.to_nat (be_val pre)) (drop 4 (content s))).
  destruct buf as [|b buf']; cbn zeta.
  - pose proof (be_val_range pre). destruct (Z.ltb_spec (zlen (@nil byte)) (be_val pre)); [done|]. cbn in *. lia.
  - destruct (Z.ltb_spec (zlen (b :: buf')) (be_val pre)); [done|]. by exists s2.
Qed.

(** ** Writing and reading back *)

Definition frame_bytes (f : Frame) : list byte :=
  u32_be (zlen (payload f) + 1) ++ [z2b (message_type f)] ++ payload f.

Definition frame_fits (max : Z) (f : Frame) : Prop :=
  is_u8 (message_type f) /\ zlen (payload f) + 1 <= Z.min max u32_max.

Lemma write_frame_vec v f max :
  (zlen (payload f) + 1 <= Z.min max u32_max /\
   write_frame_with_limit vec_write_all v (message_type f) (payload f) max = Ok (v ++ frame_bytes f)) \/
  (Z.min max u32_max < zlen (payload f) + 1 /\
   exists msg, write_frame_with_limit vec_write_all v (message_type f) (payload f) max = fail InvalidInput msg).
Proof.
  unfold write_frame_with_limit, try_u32, checked_add, frame_bytes, vec_write_all.
  set (n := zlen (payload f)).
  destruct (Z.leb_spec n u32_max) as [Hn|Hn]; [|right; split; [lia|by eexists]].
  destruct (Z.leb_spec (n + 1) u32_max) as [Hn1|Hn1]; [|right; split; [lia|by eexists]].
  destruct (Z.ltb_spec max (n + 1)) as [Hm|Hm]; [right; split; [lia|by eexists]|].
  left. split; [lia|]. cbn [mbind result_bind]. by rewrite <- !app_assoc.
Qed.

Lemma decode_frame_head (pre bs : list byte) :
  length pre = 4%nat -> take 4 (pre ++ bs) = pre /\ drop 4 (pre ++ bs) = bs.
Proof. intros <-. by rewrite take_app_len, drop_app_len. Qed.

Lemma decode_frame_bytes f max rest :
  frame_fits max f -> decode_frame (frame_bytes f ++ rest) max = Ok (f, rest).
Proof.
  intros [Ht Hlen]. unfold frame_bytes, decode_frame. rewrite <- app_assoc.
  destruct (decode_frame_head (u32_be (zlen (payload f) + 1)) (([z2b (message_type f)] ++ payload f) ++ rest))
    as [-> ->]; [apply length_u32_be|].
  rewrite length_u32_be, be_val_u32 by zsolve.
  destruct (Z.eqb_spec (zlen (payload f) + 1) 0); [lia|].
  destruct (Z.ltb_spec max (zlen (payload f) + 1)); [lia|].
  assert (Hn : Z.to_nat (zlen (payload f) + 1) = length ([z2b (message_type f)] ++ payload f))
    by (rewrite length_app; cbn; lia).
  rewrite Hn, take_app_len, drop_app_len. cbn [app].
  destruct (Z.ltb_spec (zlen (z2b (message_type f) :: payload f)) (zlen (payload f) + 1)); [cbn in *; lia|].
  rewrite b2z_z2b_small by zsolve. by destruct f.
Qed.

Lemma decode_frame_truncated f max k :
  frame_fits max f -> (k < length (frame_bytes f))%nat ->
  exists e, decode_frame (take k (frame_bytes f)) max = Err e /\
    kind e = if decide (k = 0%nat) then UnexpectedEof else InvalidData.
Proof.
  intros [Ht Hlen] Hk. unfold frame_bytes in *. set (pre := u32_be (zlen (payload f) + 1)) in *.
  assert (Hpre : length pre = 4%nat) by apply length_u32_be.
  rewrite !length_app, Hpre in Hk. cbn [length] in Hk. unfold decode_frame, fail.
  destruct (Nat.lt_ge_cases k 4) as [Hk4|Hk4].
  - rewrite take_take, Nat.min_r, (take_app_le pre) by lia. rewrite length_take, Hpre, Nat.min_l by lia.
    destruct k as [|[|[|[|]]]]; try lia; eexists; by split.
  - rewrite decide_False by lia. rewrite take_app_ge by lia.
    destruct (decode_frame_head pre (take (k - length pre) ([z2b (message_type f)] ++ payload f)) Hpre) as [-> ->].
    rewrite Hpre. replace (be_val pre) with (zlen (payload f) + 1) by (unfold pre; rewrite be_val_u32; zsolve).
    destruct (Z.eqb_spec (zlen (payload f) + 1) 0); [lia|].
    destruct (Z.ltb_spec max (zlen (payload f) + 1)); [lia|].
    set (buf := take _ (take _ _)).
    assert (Hbuf : zlen buf < zlen (payload f) + 1).
    { unfold buf. rewrite !length_take, length_app. cbn [length]. lia. }
    destruct buf as [|b buf']; [eexists; by split|].
    destruct (Z.ltb_spec (zlen (b :: buf')) (zlen (payload f) + 1)); [eexists; by split|lia].
Qed.

(** Write a list of frames, one after the other. *)
Fixpoint write_frames (v : list byte) (fs : list Frame) (max : Z) : io (list byte) :=
  match fs with
  | [] => Ok v
  | f :: fs =>
    v ← write_frame_with_limit vec_write_all v (message_type f) (payload f) max;
    write_frames v fs max
  end.

(** Read at most [n] frames, up to the first error. *)
Fixpoint read_frames (n : nat) (s : script) (max : Z) : list Frame * option io_error :=
  match n with
  | O => ([], None)
  | S n =>
    match read_frame_with_limit s max with
    | Ok (f, s) => let '(fs, e) := read_frames n s max in (f :: fs, e)
    | Err e => ([], Some e)
    end
  end.

Lemma write_frames_bytes v fs max bytes :
  write_frames v fs max = Ok bytes ->
  bytes = v ++ concat (map frame_bytes fs) /\
  Forall (fun f => zlen (payload f) + 1 <= Z.min max u32_max) fs.
Proof.
  revert v. induction fs as [|f fs IH]; intros v; cbn.
  - intros [= ->]. rewrite app_nil_r. by split.
  - destruct (write_frame_vec v f max) as [[Hle ->]|[_ [msg ->]]]; [|done].
    cbn. intros [-> Hall]%IH. rewrite <- app_assoc. split; [done|by constructor].
Qed.

Lemma read_frames_content fs s max tail :
  Forall quiet s -> Forall (frame_fits max) fs ->
  content s = concat (map frame_bytes fs) ++ tail ->
  exists s', Forall quiet s' /\ content s' = tail /\
    forall n, read_frames (length fs + n) s max =
      (fs ++ (read_frames n s' max).1, (read_frames n s' max).2).
Proof.
  intros Hs Hfs. revert s Hs. induction Hfs as [|f fs Hf Hfs IH]; intros s Hs Hc.
  - exists s. split; [done|]. split; [done|]. intros n. cbn. by destruct (read_frames n s max).
  - cbn [map concat] in Hc. rewrite <- app_assoc in Hc.
    pose proof (read_frame_decode s max Hs) as Hd.
    rewrite Hc, decode_frame_bytes in Hd by done. destruct Hd as (s1 & Hr & Hs1 & Hc1).
    destruct (IH s1 Hs1 Hc1) as (s' & Hq & Ht & Hn). exists s'. split; [done|]. split; [done|].
    intros n. cbn [length Nat.add read_frames]. rewrite Hr, Hn. done.
Qed.

(** C22. Frames written one after the other are read back one by one, in order
    and unchanged, however the socket splits the bytes and however often a read
    is interrupted; after the last frame the reader sees the orderly close. *)
Theorem frames_roundtrip fs s max bytes
    (Htypes : Forall (fun f => is_u8 (message_type f)) fs)
    (Hwrite : write_frames [] fs max = Ok bytes)
    (Hquiet : Forall quiet s) (Hcontent : content s = bytes) :
  read_frames (S (length fs)) s max = (fs, Some (mk_io_error UnexpectedEof "connection closed")).
Proof.
  apply write_frames_bytes in Hwrite as [-> Hfit].
  assert (Hfs : Forall (frame_fits max) fs) by (unfold frame_fits; by apply Forall_and).
  destruct (read_frames_content fs s max [] Hquiet Hfs) as (s' & Hq & Hc & Hn).
  { by rewrite Hcontent, app_nil_r. }
  replace (S (length fs)) with (length fs + 1)%nat by lia. rewrite Hn. cbn [read_frames].
  pose proof (read_frame_decode s' max Hq) as Hd. rewrite Hc in Hd. cbn in Hd. rewrite Hd.
  by rewrite app_nil_r.
Qed.

Definition sample_frames : list Frame := [mk_Frame 2 [x01; x02; x03]; mk_Frame 13 []].
Definition sample_script : script :=
  [Piece [x00]; Failure (mk_io_error Interrupted "signal"); Piece [x00; x00; x04; x02; x01];
   Piece [x02; x03; x00; x00; x00; x01]; Piece [x0d]].

Lemma frames_roundtrip_witness :
  read_frames 3 sample_script 64 =
    (sample_frames, Some (mk_io_error UnexpectedEof "connection closed")).
Proof.
  apply (frames_roundtrip sample_frames sample_script 64 (content sample_script)).
  - repeat constructor; vm_compute; discriminate.
  - vm_compute. reflexivity.
  - repeat constructor; vm_compute; discriminate.
  - reflexivity.
Defined.

(** A connection that ends inside a frame is an error of its own: end of
    file before the first byte is an orderly close ([UnexpectedEof]), after any
    proper part of a frame it is [InvalidData], and no frame is delivered. *)
Theorem truncated_frame_rejected f max s k
    (Hfits : frame_fits max f) (Hk : (k < length (frame_bytes f))%nat)
    (Hquiet : Forall quiet s) (Hcontent : content s = take k (frame_bytes f)) :
  exists e, read_frame_with_limit s max = Err e /\
    kind e = if decide (k = 0%nat) then UnexpectedEof else InvalidData.
Proof.
  destruct (decode_frame_truncated f max k Hfits Hk) as (e & He & Hkind). exists e.
  pose proof (read_frame_decode s max Hquiet) as Hd. by rewrite Hcontent, He in Hd.
Qed.

Lemma read_until_eof_0 s : read_until_eof 0 s = Ok ([], s).
Proof. by destruct s. Qed.

(** A prefix of the script that holds enough bytes is all that is read. *)
Lemma read_until_eof_prefix want s1 s2 :
  Forall quiet s1 -> (want <= length (content s1))%nat ->
  exists s', read_until_eof want (s1 ++ s2) = Ok (take want (content s1), s').
Proof.
  intros Hs. revert want. induction Hs as [|ev s1 Hev Hs IH]; intros [|want] Hw;
    try (by rewrite read_until_eof_0; eexists); [unfold content in Hw; cbn in Hw; lia|].
  destruct ev as [bs|e]; cbn [read_until_eof app].
  - destruct bs as [|b bs]; [done|]. set (p := b :: bs) in *. unfold content in *.
    cbn [map event_bytes concat] in *. rewrite length_app in Hw.
    destruct (Nat.ltb_spec (S want) (length p)) as [Hlt|Hge].
    + rewrite take_app_le by lia. by eexists.
    + destruct (IH (S want - length p)%nat) as (s' & ->); [lia|].
      rewrite take_app_ge by lia. by eexists.
  - cbn in Hev. rewrite decide_True by done. by apply IH.
Qed.

(** A frame over the connection's cap is refused by its length prefix
    alone: whatever the socket would do after the four bytes (deliver, stall,
    fail), the result is [InvalidData] and nothing of the body is read. *)
Theorem oversized_frame_refused s1 s2 max len
    (Hlen : is_u32 len) (Hmax : max < len \/ len = 0)
    (Hquiet : Forall quiet s1) (Hcontent : content s1 = u32_be len) :
  exists e, read_frame_with_limit (s1 ++ s2) max = Err e /\ kind e = InvalidData.
Proof.
  destruct (read_until_eof_prefix 4 s1 s2 Hquiet) as (s' & Hr).
  { by rewrite Hcontent, length_u32_be. }
  unfold read_frame_with_limit, fail. rewrite Hr, Hcontent. cbn [mbind result_bind].
  change (take 4 (u32_be len)) with (u32_be len). rewrite length_u32_be, be_val_u32 by done.
  destruct (Z.eqb_spec len 0); [eexists; by split|].
  destruct (Z.ltb_spec max len); [eexists; by split|lia].
Qed.

(** Malformed frames are told apart from an orderly close by what was read: a
    frame cut short is [InvalidData] and an end of file before its first byte is
    [UnexpectedEof]; an empty frame or one over the cap is refused on its length
    prefix alone, whatever the socket would have done next. *)
Theorem bad_frames_rejected max s :
  (forall f k, frame_fits max f -> (k < length (frame_bytes f))%nat -> Forall quiet s ->
     content s = take k (frame_bytes f) ->
     exists e, read_frame_with_limit s max = Err e /\
       kind e = if decide (k = 0%nat) then UnexpectedEof else InvalidData) /\
  (forall len later, is_u32 len -> max < len \/ len = 0 -> Forall quiet s -> content s = u32_be len ->
     exists e, read_frame_with_limit (s ++ later) max = Err e /\ kind e = InvalidData).
Proof.
  split; [intros f k ? ? ? ?; by eapply truncated_frame_rejected|].
  intros len later ? ? ? ?. by eapply oversized_frame_refused.
Qed.

Lemma bad_frames_rejected_witness :
  (exists e, read_frame_with_limit [Piece [x00; x00]; Piece [x00; x03; x02; x01]] 64 = Err e /\
    kind e = InvalidData) /\
  (exists e, read_frame_with_limit ([Piece [xff; xff]; Piece [xff; xff]] ++
      [Failure (mk_io_error TimedOut "stalled")]) AUTH_MAX_FRAME_LENGTH = Err e /\
    kind e = InvalidData).
Proof.
  split.
  - apply (proj1 (bad_frames_rejected _ _) (mk_Frame 2 [x01; x02]) 6%nat).
    + split; vm_compute; [split|]; discriminate.
    + vm_compute. lia.
    + repeat constructor; discriminate.
    + reflexivity.
  - apply (proj2 (bad_frames_rejected _ _) 4294967295).
    + vm_compute; split; discriminate.
    + left. reflexivity.
    + repeat constructor; discriminate.
    + reflexivity.
Defined.

(** ** The handshake *)

Lemma slice_split lo hi (l : list byte) :
  (lo <= hi)%nat -> drop lo l = slice lo hi l ++ drop hi l.
Proof.
  intros H. unfold slice. replace (drop hi l) with (drop (lo + (hi - lo)) l) by (f_equal; lia).
  apply drop_split.
Qed.

Lemma slice_app lo hi (a b c : list byte) :
  length a = lo -> (lo + length b = hi)%nat -> slice lo hi (a ++ b ++ c) = b.
Proof.
  intros <- <-. unfold slice. rewrite drop_app_len.
  replace (length a + length b - length a)%nat with (length b) by lia. apply take_app_len.
Qed.

Lemma slice_app_end lo hi (a b : list byte) :
  length a = lo -> (lo + length b = hi)%nat -> slice lo hi (a ++ b) = b.
Proof. intros Ha Hb. rewrite <- (app_nil_r b) at 1. by apply slice_app. Qed.

Lemma length_slice lo hi (l : list byte) :
  (lo <= hi <= length l)%nat -> length (slice lo hi l) = (hi - lo)%nat.
Proof. intros H. unfold slice. rewrite length_take, length_drop. lia. Qed.

Lemma u16_be_val bs : length bs = 2%nat -> u16_be (be_val bs) = bs /\ 0 <= be_val bs <= 65535.
Proof.
  intros H. unfold u16_be. rewrite <- H at 1. rewrite be_bytes_val. split; [done|].
  pose proof (be_val_range bs) as Hr. rewrite H in Hr. change (256 ^ Z.of_nat 2) with 65536 in Hr. lia.
Qed.

Lemma be_val_u16 z : 0 <= z <= 65535 -> be_val (u16_be z) = z.
Proof. intros H. apply be_val_bytes_small. change (256 ^ Z.of_nat 2) with 65536. lia. Qed.

Lemma length_u16_be z : length (u16_be z) = 2%nat.
Proof. apply length_be_bytes. Qed.

Lemma encode_authenticate_some a bs :
  encodeAuthenticatePayload a = Some bs <->
  0 <= protocol_version a <= 65535 /\ zlen (descriptor_token a) = DESCRIPTOR_TOKEN_LEN /\
  bs = u16_be (protocol_version a) ++ u32_be (zlen (probe a)) ++ probe a ++
       u32_be (zlen (descriptor_token a)) ++ descriptor_token a.
Proof.
  unfold encodeAuthenticatePayload.
  destruct (Z.ltb_spec (protocol_version a) 0); cbn [orb]; [split; [done|lia]|].
  destruct (Z.ltb_spec 65535 (protocol_version a)); cbn [orb]; [split; [done|lia]|].
  destruct (Z.eqb_spec (zlen (descriptor_token a)) DESCRIPTOR_TOKEN_LEN); cbn [negb]; [|split; [done|naive_solver]].
  split; [intros [= <-]; done|]. by intros (_ & _ & ->).
Qed.

Lemma parse_authenticate_complete a bs :
  blob_ok (probe a) -> encodeAuthenticatePayload a = Some bs -> parse_authenticate_payload bs = Ok a.
Proof.
  intros Hp (Hv & Ht & ->)%encode_authenticate_some. unfold blob_ok, DESCRIPTOR_TOKEN_LEN in *.
  destruct a as [v p t]. cbn [protocol_version probe descriptor_token] in *.
  unfold parse_authenticate_payload. set (bs := u16_be v ++ _).
  assert (Hl : length bs = (2 + (4 + (length p + (4 + length t))))%nat)
    by (unfold bs; rewrite !length_app, !length_u32_be, length_u16_be; done).
  assert (H02 : slice 0 2 bs = u16_be v) by (apply (slice_app _ _ []); [done|apply length_u16_be]).
  assert (H26 : slice 2 6 bs = u32_be (zlen p))
    by (apply slice_app; [apply length_u16_be|by rewrite length_u32_be]).
  set (pe := (6 + length p)%nat).
  assert (Hpe : Z.to_nat (6 + zlen p) = pe) by lia.
  assert (H6 : slice 6 pe bs = p).
  { unfold bs. rewrite app_assoc. apply slice_app; [|done].
    by rewrite length_app, length_u16_be, length_u32_be. }
  assert (Htl : slice pe (pe + 4) bs = u32_be (zlen t)).
  { unfold bs. rewrite 2!app_assoc. apply slice_app; [|by rewrite length_u32_be].
    rewrite !length_app, length_u16_be, length_u32_be. unfold pe. lia. }
  assert (Htk : slice (pe + 4) (pe + 4 + length t) bs = t).
  { unfold bs. rewrite 3!app_assoc. apply slice_app_end; [|done].
    rewrite !length_app, length_u16_be, !length_u32_be. unfold pe. lia. }
  rewrite Hl, H02, H26. rewrite !be_val_u32 by zsolve. rewrite be_val_u16 by done.
  rewrite Hpe, H6, Htl. rewrite be_val_u32 by zsolve.
  replace (Z.to_nat (zlen t)) with (length t) by lia. rewrite Htk, Ht.
  destruct (Nat.ltb_spec (2 + (4 + (length p + (4 + length t)))) 6); [lia|].
  destruct (Z.leb_spec (6 + zlen p + 4) (Z.of_nat (2 + (4 + (length p + (4 + length t)))))); [|lia].
  cbn [negb]. rewrite Z.eqb_refl. cbn [negb].
  destruct (Nat.ltb_spec (2 + (4 + (length p + (4 + length t)))) (pe + 4 + length t)); [unfold pe in *; lia|].
  destruct (Nat.eqb_spec (pe + 4 + length t) (2 + (4 + (length p + (4 + length t)))));
    [done|unfold pe in *; lia].
Qed.

Lemma parse_authenticate_sound bs a :
  parse_authenticate_payload bs = Ok a -> blob_ok (probe a) /\ encodeAuthenticatePayload a = Some bs.
Proof.
  unfold parse_authenticate_payload.
  destruct (Nat.ltb_spec (length bs) 6) as [|Hl]; [done|].
  set (n := be_val (slice 2 6 bs)).
  destruct (Z.leb_spec (6 + n + 4) (zlen bs)) as [Hn|]; [|done]. cbn [negb].
  assert (Hn0 : is_u32 n) by (apply be_val_is_u32, length_slice; lia).
  set (pe := Z.to_nat (6 + n)). set (m := be_val (slice pe (pe + 4) bs)).
  assert (Hpe : (6 <= pe /\ pe + 4 <= length bs)%nat) by (unfold pe; zsolve).
  destruct (Z.eqb_spec m DESCRIPTOR_TOKEN_LEN) as [Hm|]; [|done]. cbn [negb].
  destruct (Nat.ltb_spec (length bs) (pe + 4 + Z.to_nat m)); [done|].
  destruct (Nat.eqb_spec (pe + 4 + Z.to_nat m) (length bs)) as [Hend|]; [|done]. cbn [negb].
  intros [= <-]. unfold DESCRIPTOR_TOKEN_LEN in Hm.
  set (te := (pe + 4 + Z.to_nat m)%nat) in *.
  assert (Hlp : zlen (slice 6 pe bs) = n) by (rewrite length_slice by lia; unfold pe; zsolve).
  assert (Hlt : zlen (slice (pe + 4) te bs) = m) by (rewrite length_slice; unfold te; lia).
  assert (H2 : length (slice 0 2 bs) = 2%nat) by (rewrite length_slice; lia).
  destruct (u16_be_val _ H2) as [Hv Hvr]. split; [unfold blob_ok; cbn; zsolve|].
  apply encode_authenticate_some. cbn [protocol_version probe descriptor_token].
  split; [done|]. split; [unfold DESCRIPTOR_TOKEN_LEN; lia|].
  rewrite Hlp, Hlt, Hv. unfold n, m. rewrite !u32_be_val by (rewrite length_slice; lia).
  assert (Hsplit : bs = slice 0 2 bs ++ slice 2 6 bs ++ slice 6 pe bs ++ slice pe (pe + 4) bs ++ slice (pe + 4) te bs ++ drop te bs).
  { rewrite <- slice_split by (unfold te; lia). rewrite <- slice_split by lia.
    rewrite <- (slice_split 6 pe) by lia. rewrite <- (slice_split 2 6) by lia.
    rewrite <- (slice_split 0 2) by lia. by rewrite drop_0. }
  rewrite Hend, drop_all, app_nil_r in Hsplit. by rewrite Hend.
Qed.

(** The handshake agrees on both ends: the runtime accepts exactly the
    [Authenticate] payloads the host writes (a token of the wrong length, a
    short or a trailing byte are refused), and the host reads back every
    [Hello] the runtime writes. *)
Theorem handshake_agrees bs a status pr msg :
  (parse_authenticate_payload bs = Ok a <->
   blob_ok (probe a) /\ encodeAuthenticatePayload a = Some bs) /\
  (blob_ok pr /\ blob_ok (as_bytes msg) ->
   decodeHelloPayload (encode_hello_payload status pr msg) =
     Some (mk_Hello (HelloStatus_as_u8 status) pr (as_bytes msg))).
Proof.
  split.
  - split; [apply parse_authenticate_sound|]. intros [Hp He]. by apply parse_authenticate_complete.
  - intros [Hp Hm]. unfold encode_hello_payload. rewrite !as_u32_small by (unfold blob_ok in *; zsolve).
    set (m := as_bytes msg) in *. set (s := z2b (HelloStatus_as_u8 status)).
    set (bs' := [s] ++ u32_be (zlen pr) ++ pr ++ u32_be (zlen m) ++ m).
    assert (Hl : length bs' = (1 + (4 + (length pr + (4 + length m))))%nat)
      by (unfold bs'; rewrite !length_app, !length_u32_be; done).
    assert (H15 : slice 1 5 bs' = u32_be (zlen pr)) by (apply slice_app; [done|by rewrite length_u32_be]).
    assert (Hs : slice 0 1 bs' = [s]) by done.
    assert (Hpr : slice 5 (5 + length pr) bs' = pr).
    { unfold bs'. rewrite app_assoc. apply slice_app; [|done]. by rewrite length_app, length_u32_be. }
    assert (Hml : slice (5 + length pr) (5 + length pr + 4) bs' = u32_be (zlen m)).
    { unfold bs'. rewrite 2!app_assoc. apply slice_app; [|by rewrite length_u32_be].
      rewrite !length_app, length_u32_be. cbn [length]. lia. }
    assert (Hmm : slice (5 + length pr + 4) (5 + length pr + 4 + length m) bs' = m).
    { unfold bs'. rewrite 3!app_assoc. apply slice_app_end; [|done].
      rewrite !length_app, !length_u32_be. cbn [length]. lia. }
    unfold decodeHelloPayload. rewrite H15, be_val_u32 by (unfold blob_ok in *; zsolve).
    rewrite Nat2Z.id, Hml, be_val_u32 by (unfold blob_ok in *; zsolve).
    rewrite Nat2Z.id, Hs, Hpr, Hmm, Hl.
    destruct (Nat.ltb_spec (1 + (4 + (length pr + (4 + length m)))) 5); [lia|].
    destruct (Nat.ltb_spec (1 + (4 + (length pr + (4 + length m)))) (5 + length pr + 4)); [lia|].
    destruct (Nat.ltb_spec (1 + (4 + (length pr + (4 + length m)))) (5 + length pr + 4 + length m)); [lia|].
    by destruct status.
Qed.

Lemma handshake_agrees_witness :
  let a := mk_Authenticate 1 [xff; x0f] (repeat x2a 16) in
  is_ok (parse_authenticate_payload (default [] (encodeAuthenticatePayload a))) = true /\
  decodeHelloPayload (encode_hello_payload ProtocolVersionMismatch [xff] "no") =
    Some (mk_Hello 1 [xff] (as_bytes "no")).
Proof.
  cbn zeta. split; [vm_compute; reflexivity|].
  apply (handshake_agrees [] (mk_Authenticate 0 [] [])). split; vm_compute; discriminate.
Defined.
