(* ===== verification/Host.v ===== *)
(** * The host's frame reader ([FrameReader] of [packages/iso4-sandbox/src/ipc.ts])

    The other end of the socket: chunks as the socket delivered them, kept apart, and
    frames taken out of them for reads that may have been asked for before or after
    their bytes arrived.  A read is named by its number; a promise that settles is an
    entry of [settled].  The reference is [frames_of]: all bytes in one piece, decoded
    from the front. *)

From S2P Require Import Prelude Bytes Frames.

(** ** The chunks *)

(** [peekLength]: the loop over the chunks, and the shortcut for a long first one. *)
Fixpoint peek_loop (value : Z) (seen : nat) (chunks : list (list byte)) : Z :=
  match chunks with
  | [] => value
  | chunk :: chunks =>
    let n := Nat.min (length chunk) (4 - seen) in
    let value := foldl (fun v b => v * 256 + b2z b) value (take n chunk) in
    if (seen + n =? 4)%nat then value else peek_loop value (seen + n) chunks
  end.

Definition peekLength (chunks : list (list byte)) : Z :=
  match chunks with
  | first :: _ => if (4 <=? length first)%nat then be_val (take 4 first) else peek_loop 0 0 chunks
  | [] => 0
  end.

(** [take]: the loop that copies a frame out of several chunks, and its shortcuts for
    a frame inside one. *)
Fixpoint take_span (needed : nat) (chunks : list (list byte)) : list byte * list (list byte) :=
  match needed, chunks with
  | O, _ => ([], chunks)
  | _, [] => ([], [])
  | _, chunk :: chunks =>
    if (length chunk <=? needed)%nat then
      let '(out, rest) := take_span (needed - length chunk) chunks in (chunk ++ out, rest)
    else (take needed chunk, drop needed chunk :: chunks)
  end.

Definition take_bytes (n : nat) (chunks : list (list byte)) : list byte * list (list byte) :=
  match chunks with
  | [] => ([], [])
  | first :: rest =>
    if (length first =? n)%nat then (first, rest)
    else if (n <? length first)%nat then (take n first, drop n first :: rest)
    else take_span n chunks
  end.

(** ** One frame *)

Definition zero_length : string := "frame length cannot be zero".
Definition too_long (length max : Z) : string :=
  "frame length " +:+ show length +:+ " exceeds max frame length " +:+ show max.

Definition decodeFrame (bytes : list byte) : result string Frame :=
  if zlen bytes <? 4 then Err "frame is missing 4-byte length prefix"
  else
    let length := be_val (take 4 bytes) in
    if length =? 0 then Err zero_length
    else if DEFAULT_MAX_FRAME_LENGTH <? length then Err (too_long length DEFAULT_MAX_FRAME_LENGTH)
    else if zlen bytes <? 4 + length then Err "frame body is truncated"
    else if 4 + length <? zlen bytes then Err "buffer contains trailing bytes after frame"
    else match drop 4 bytes with
    | [] => Err "frame is missing message type"
    | type_byte :: payload => Ok (mk_Frame (b2z type_byte) payload)
    end.

(** ** The reader *)

Record FrameReader := mk_FrameReader {
  chunks : list (list byte);
  buffered : Z;
  pendingReads : list nat;
  closedError : option string;
  settled : list (nat * result string Frame);
}.

Definition reader_new : FrameReader := mk_FrameReader [] 0 [] None [].

Definition with_bytes r cs n := mk_FrameReader cs n (pendingReads r) (closedError r) (settled r).
Definition with_pending r p := mk_FrameReader (chunks r) (buffered r) p (closedError r) (settled r).
Definition with_closed r e := mk_FrameReader (chunks r) (buffered r) (pendingReads r) (Some e) (settled r).
Definition settle r i x := mk_FrameReader (chunks r) (buffered r) (pendingReads r) (closedError r) (settled r ++ [(i, x)]).

(** What [tryReadFrame] finds, before it closes the reader over a bad length. *)
Inductive Tried := NoFrame | BadLength (e : string) | Took (frame : result string Frame) (r : FrameReader).

Definition tryReadFrame (r : FrameReader) : Tried :=
  if buffered r <? 4 then NoFrame
  else
    let length := peekLength (chunks r) in
    if length =? 0 then BadLength zero_length
    else if DEFAULT_MAX_FRAME_LENGTH <? length then BadLength (too_long length DEFAULT_MAX_FRAME_LENGTH)
    else if buffered r <? 4 + length then NoFrame
    else
      let '(bytes, rest) := take_bytes (Z.to_nat (4 + length)) (chunks r) in
      Took (decodeFrame bytes) (with_bytes r rest (buffered r - (4 + length))).

(** [flushPendingReads] up to a throw, which it gives with whether it was a bad
    length. *)
Fixpoint flush_reads (pending : list nat) (r : FrameReader) : FrameReader * option (bool * string) :=
  match pending with
  | [] => (r, None)
  | i :: pending =>
    match tryReadFrame r with
    | NoFrame => (r, None)
    | BadLength e => (r, Some (true, e))
    | Took (Err e) r => (r, Some (false, e))
    | Took (Ok f) r => flush_reads pending (settle (with_pending r pending) i (Ok f))
    end
  end.

Definition reject_all (r : FrameReader) (e : string) : FrameReader :=
  mk_FrameReader (chunks r) (buffered r) [] (closedError r) (settled r ++ map (fun i => (i, Err e)) (pendingReads r)).

(** A throw of the drain is swallowed; its own bad length finds the reader closed. *)
Definition close (r : FrameReader) (e : string) : FrameReader :=
  match closedError r with
  | Some _ => r
  | None => reject_all (flush_reads (pendingReads r) (with_closed r e)).1 e
  end.

Definition push (r : FrameReader) (chunk : list byte) : FrameReader :=
  match closedError r with
  | Some _ => r
  | None =>
    let r := match chunk with [] => r | _ => with_bytes r (chunks r ++ [chunk]) (buffered r + zlen chunk) end in
    match flush_reads (pendingReads r) r with
    | (r, None) => r
    | (r, Some (_, e)) => close r e
    end
  end.

Definition readFrame (r : FrameReader) (i : nat) : FrameReader :=
  match tryReadFrame r with
  | Took frame r => settle r i frame
  | BadLength e => settle (close r e) i (Err e)
  | NoFrame =>
    match closedError r with
    | Some e => settle r i (Err e)
    | None => with_pending r (pendingReads r ++ [i])
    end
  end.

(** What happens to a reader; its reads are numbered as they are asked for. *)
Inductive ReaderOp := OpPush (chunk : list byte) | OpRead | OpClose (e : string).

Fixpoint reader_run (r : FrameReader) (next : nat) (ops : list ReaderOp) : FrameReader * nat :=
  match ops with
  | [] => (r, next)
  | OpPush chunk :: ops => reader_run (push r chunk) next ops
  | OpRead :: ops => reader_run (readFrame r next) (S next) ops
  | OpClose e :: ops => reader_run (close r e) next ops
  end.

(** ** The reference *)

Fixpoint decode_frames (fuel : nat) (bs : list byte) : list Frame * option string :=
  match fuel with
  | O => ([], None)
  | S fuel =>
    if zlen bs <? 4 then ([], None)
    else
      let length := be_val (take 4 bs) in
      if length =? 0 then ([], Some zero_length)
      else if DEFAULT_MAX_FRAME_LENGTH <? length then ([], Some (too_long length DEFAULT_MAX_FRAME_LENGTH))
      else if zlen bs <? 4 + length then ([], None)
      else match drop 4 bs with
      | [] => ([], None)
      | type_byte :: rest =>
        let n := Z.to_nat (length - 1) in
        let '(fs, bad) := decode_frames fuel (drop n rest) in (mk_Frame (b2z type_byte) (take n rest) :: fs, bad)
      end
  end.

(** The frames at the front of the bytes, and the bad length behind them, if any. *)
Definition frames_of (bs : list byte) : list Frame * option string := decode_frames (S (length bs)) bs.
Arguments frames_of : simpl never.

(** The bytes that arrived before the reader was closed from outside. *)
Fixpoint arrived (ops : list ReaderOp) : list byte :=
  match ops with
  | [] => []
  | OpPush chunk :: ops => chunk ++ arrived ops
  | OpRead :: ops => arrived ops
  | OpClose _ :: _ => []
  end.

(** ** The reference, step by step *)

Lemma decode_fuel n m bs : (length bs < n)%nat -> (length bs < m)%nat -> decode_frames n bs = decode_frames m bs.
Proof.
  revert m bs. induction n as [|n IH]; intros [|m] bs Hn Hm; try lia. cbn [decode_frames].
  destruct (zlen bs <? 4); [done|]. set (l := be_val (take 4 bs)). destruct (l =? 0); [done|]. destruct (_ <? l); [done|].
  destruct (zlen bs <? 4 + l); [done|]. destruct (drop 4 bs) as [|t rest] eqn:Hd; [done|].
  assert (Hl : (length rest < length bs)%nat) by (apply (f_equal length) in Hd; rewrite length_drop in Hd; cbn in Hd; lia).
  rewrite (IH m); [done|rewrite length_drop; lia..].
Qed.

(** The first frame of bytes that hold one. *)
Definition first_frame (bs : list byte) : option Frame :=
  match drop 4 bs with
  | [] => None
  | type_byte :: rest => Some (mk_Frame (b2z type_byte) (take (Z.to_nat (be_val (take 4 bs) - 1)) rest))
  end.

Lemma frames_of_step bs :
  frames_of bs =
    if zlen bs <? 4 then ([], None)
    else
      let length := be_val (take 4 bs) in
      if length =? 0 then ([], Some zero_length)
      else if DEFAULT_MAX_FRAME_LENGTH <? length then ([], Some (too_long length DEFAULT_MAX_FRAME_LENGTH))
      else if zlen bs <? 4 + length then ([], None)
      else match first_frame bs with
      | None => ([], None)
      | Some f => let '(fs, bad) := frames_of (drop (Z.to_nat (4 + length)) bs) in (f :: fs, bad)
      end.
Proof.
  unfold frames_of at 1. cbn [decode_frames]. destruct (Z.ltb_spec (zlen bs) 4) as [|H4]; [done|]. cbv zeta.
  set (l := be_val (take 4 bs)). pose proof (be_val_range (take 4 bs)) as Hl0. fold l in Hl0.
  destruct (Z.eqb_spec l 0) as [|Hl]; [done|]. destruct (_ <? l); [done|].
  destruct (zlen bs <? 4 + l); [done|]. unfold first_frame. fold l. destruct (drop 4 bs) as [|t rest] eqn:Hd; [done|].
  assert (Hr : drop (Z.to_nat (4 + l)) bs = drop (Z.to_nat (l - 1)) rest).
  { replace (Z.to_nat (4 + l)) with (4 + S (Z.to_nat (l - 1)))%nat by lia. by rewrite <- drop_drop, Hd. }
  rewrite Hr. unfold frames_of. rewrite (decode_fuel (length bs) (S (length (drop (Z.to_nat (l - 1)) rest)))); [done| |lia].
  apply (f_equal length) in Hd. rewrite length_drop in *. cbn in Hd. lia.
Qed.

(** What arrives behind a bad length changes nothing; what arrives behind whole
    frames comes after them. *)
Lemma frames_of_more bs more :
  (frames_of bs).1 `prefix_of` (frames_of (bs ++ more)).1 /\
  (is_Some (frames_of bs).2 -> frames_of (bs ++ more) = frames_of bs).
Proof.
  remember (length bs) as n eqn:Hn. revert bs Hn. induction n as [n IH] using lt_wf_ind. intros bs ->.
  rewrite (frames_of_step bs). destruct (Z.ltb_spec (zlen bs) 4) as [|H4]; [split; [apply prefix_nil|by intros []]|]. cbv zeta.
  assert (Ht : take 4 (bs ++ more) = take 4 bs) by (rewrite take_app_le by lia; done).
  assert (Hz : zlen (bs ++ more) = zlen bs + zlen more) by (rewrite length_app; lia).
  rewrite (frames_of_step (bs ++ more)), Ht. cbv zeta. set (l := be_val (take 4 bs)).
  destruct (Z.ltb_spec (zlen (bs ++ more)) 4); [lia|]. destruct (Z.eqb_spec l 0) as [|Hl]; [by split|].
  destruct (_ <? l); [by split|]. destruct (Z.ltb_spec (zlen bs) (4 + l)) as [|Hlen]; [split; [apply prefix_nil|by intros []]|].
  destruct (Z.ltb_spec (zlen (bs ++ more)) (4 + l)); [lia|].
  pose proof (be_val_range (take 4 bs)) as Hl0. fold l in Hl0.
  assert (Hf : first_frame (bs ++ more) = first_frame bs).
  { unfold first_frame. rewrite Ht. fold l. rewrite drop_app_le by lia. destruct (drop 4 bs) as [|t rest] eqn:Hd.
    - apply (f_equal length) in Hd. rewrite length_drop in Hd. cbn in Hd. lia.
    - cbn. rewrite take_app_le; [done|]. apply (f_equal length) in Hd. rewrite length_drop in Hd. cbn in Hd. lia. }
  rewrite Hf. destruct (first_frame bs) as [f|]; [|by split]. rewrite drop_app_le by lia.
  destruct (IH (length (drop (Z.to_nat (4 + l)) bs)) ltac:(rewrite length_drop; lia) _ eq_refl) as [IH1 IH2].
  destruct (frames_of (drop (Z.to_nat (4 + l)) bs)) as [fs bad]. destruct (frames_of (drop _ bs ++ more)) as [fs' bad']. cbn in *.
  split; [by apply prefix_cons|]. intros Hb. by injection (IH2 Hb) as -> ->.
Qed.

(** ** The chunks hold their bytes *)

Definition horner (v : Z) (bs : list byte) : Z := foldl (fun v b => v * 256 + b2z b) v bs.

Lemma be_val_horner bs : be_val bs = horner 0 bs.
Proof. unfold be_val, horner. generalize 0. induction bs as [|b bs IH]; intros v; [done|apply IH]. Qed.

Lemma peek_loop_spec cs v seen :
  (seen < 4)%nat -> (4 - seen <= length (concat cs))%nat -> peek_loop v seen cs = horner v (take (4 - seen) (concat cs)).
Proof.
  revert v seen. induction cs as [|c cs IH]; intros v seen Hs Hl; cbn [concat length] in Hl; [lia|].
  cbn [peek_loop concat]. fold (horner v (take (Nat.min (length c) (4 - seen)) c)).
  destruct (Nat.eqb_spec (seen + Nat.min (length c) (4 - seen)) 4) as [He|He].
  - rewrite take_app_le by lia. f_equal. f_equal. lia.
  - rewrite length_app in Hl. rewrite IH by lia. rewrite take_app_ge, (take_ge c) by lia.
    unfold horner. rewrite foldl_app. do 2 f_equal. lia.
Qed.

Lemma peekLength_spec cs : (4 <= length (concat cs))%nat -> peekLength cs = be_val (take 4 (concat cs)).
Proof.
  destruct cs as [|c cs]; cbn [concat length]; [lia|]. intros Hl. unfold peekLength.
  destruct (Nat.leb_spec 4 (length c)); [by rewrite take_app_le by lia|].
  rewrite peek_loop_spec, be_val_horner by (cbn [concat]; lia). done.
Qed.

Lemma take_span_spec n cs : (n <= length (concat cs))%nat ->
  (take_span n cs).1 = take n (concat cs) /\ concat (take_span n cs).2 = drop n (concat cs).
Proof.
  revert n. induction cs as [|c cs IH]; intros n Hl; cbn [concat length] in Hl.
  - assert (n = 0)%nat as -> by lia. done.
  - destruct n as [|n]; [done|]. cbn [take_span concat]. rewrite length_app in Hl.
    destruct (Nat.leb_spec (length c) (S n)) as [Hle|Hlt].
    + destruct (IH (S n - length c)%nat ltac:(lia)) as [H1 H2]. destruct (take_span _ cs) as [out rest]. cbn in *.
      rewrite take_app_ge, drop_app_ge by lia. split; [by rewrite H1|done].
    + cbn [fst snd concat]. by rewrite take_app_le, drop_app_le by lia.
Qed.

Lemma take_bytes_spec n cs : (n <= length (concat cs))%nat ->
  (take_bytes n cs).1 = take n (concat cs) /\ concat (take_bytes n cs).2 = drop n (concat cs).
Proof.
  intros Hl. unfold take_bytes. destruct cs as [|c cs].
  - cbn in Hl. assert (n = 0)%nat as -> by lia. done.
  - destruct (Nat.eqb_spec (length c) n) as [<-|Hne]; [cbn; by rewrite take_app_len, drop_app_len|].
    destruct (Nat.ltb_spec n (length c)); [|by apply take_span_spec].
    cbn [fst snd concat]. by rewrite take_app_le, drop_app_le by lia.
Qed.

(** ** What the reader holds *)

Definition content (r : FrameReader) : list byte := concat (chunks r).
Definition counted (r : FrameReader) : Prop := buffered r = zlen (content r).

(** Bytes that are these frames, whatever follows. *)
Definition decodes_to (raw : list byte) (fs : list Frame) : Prop :=
  forall x, frames_of (raw ++ x) = (fs ++ (frames_of x).1, (frames_of x).2).

Lemma decodes_nil : decodes_to [] [].
Proof. intros x. cbn [app]. by destruct (frames_of x). Qed.

Lemma decodes_app raw1 fs1 raw2 fs2 : decodes_to raw1 fs1 -> decodes_to raw2 fs2 -> decodes_to (raw1 ++ raw2) (fs1 ++ fs2).
Proof. intros H1 H2 x. rewrite <- app_assoc, H1, H2. cbn. by rewrite app_assoc. Qed.

(** A frame with its length is one whatever follows. *)
Lemma decodes_frame bs :
  let l := be_val (take 4 bs) in
  4 <= zlen bs -> l <> 0 -> l <= DEFAULT_MAX_FRAME_LENGTH -> zlen bs = 4 + l ->
  exists f, decodeFrame bs = Ok f /\ decodes_to bs [f].
Proof.
  intros l H4 Hl Hmax Hz. pose proof (be_val_range (take 4 bs)) as Hl0. fold l in Hl0.
  unfold decodeFrame. fold l. destruct (Z.ltb_spec (zlen bs) 4); [lia|]. destruct (Z.eqb_spec l 0); [lia|].
  destruct (Z.ltb_spec DEFAULT_MAX_FRAME_LENGTH l); [lia|]. destruct (Z.ltb_spec (zlen bs) (4 + l)); [lia|].
  destruct (Z.ltb_spec (4 + l) (zlen bs)); [lia|]. destruct (drop 4 bs) as [|t rest] eqn:Hd.
  { apply (f_equal length) in Hd. rewrite length_drop in Hd. cbn in Hd. lia. }
  assert (Hr : length rest = Z.to_nat (l - 1)) by (apply (f_equal length) in Hd; rewrite length_drop in Hd; cbn in Hd; lia).
  eexists. split; [done|]. intros x. rewrite frames_of_step. cbv zeta. rewrite take_app_le by lia. fold l.
  assert (Hzx : zlen (bs ++ x) = zlen bs + zlen x) by (rewrite length_app; lia).
  destruct (Z.ltb_spec (zlen (bs ++ x)) 4); [lia|]. destruct (Z.eqb_spec l 0); [lia|].
  destruct (Z.ltb_spec DEFAULT_MAX_FRAME_LENGTH l); [lia|]. destruct (Z.ltb_spec (zlen (bs ++ x)) (4 + l)); [lia|].
  unfold first_frame. rewrite take_app_le by lia. fold l. rewrite drop_app_le by lia. rewrite Hd. cbn [app].
  rewrite <- Hr, take_app_len. replace (Z.to_nat (4 + l)) with (length bs) by lia. rewrite drop_app_len.
  by destruct (frames_of x).
Qed.

Lemma try_spec r : counted r ->
  match tryReadFrame r with
  | NoFrame => frames_of (content r) = ([], None)
  | BadLength e => frames_of (content r) = ([], Some e)
  | Took x r' => exists f raw, x = Ok f /\ counted r' /\ content r = raw ++ content r' /\ decodes_to raw [f] /\
      pendingReads r' = pendingReads r /\ closedError r' = closedError r /\ settled r' = settled r
  end.
Proof.
  intros Hc. unfold counted in Hc. unfold tryReadFrame. rewrite Hc, frames_of_step.
  destruct (Z.ltb_spec (zlen (content r)) 4) as [|H4]; [done|]. rewrite peekLength_spec by (fold (content r); lia). fold (content r).
  cbv zeta. set (l := be_val (take 4 (content r))). pose proof (be_val_range (take 4 (content r))) as Hl0. fold l in Hl0.
  destruct (Z.eqb_spec l 0) as [|Hl]; [done|]. destruct (Z.ltb_spec DEFAULT_MAX_FRAME_LENGTH l) as [|Hmax]; [done|].
  destruct (Z.ltb_spec (zlen (content r)) (4 + l)) as [|Hlen]; [done|].
  destruct (take_bytes_spec (Z.to_nat (4 + l)) (chunks r)) as [Ht Hd]; [fold (content r); lia|]. fold (content r) in Ht, Hd.
  destruct (take_bytes _ (chunks r)) as [bytes rest]. cbn [fst snd] in Ht, Hd. subst bytes.
  set (raw := take (Z.to_nat (4 + l)) (content r)).
  assert (Hraw : zlen raw = 4 + l) by (unfold raw; rewrite length_take; lia).
  assert (Hl4 : be_val (take 4 raw) = l) by (unfold raw; rewrite take_take, Nat.min_l by lia; done).
  destruct (decodes_frame raw) as (f & Hf & Hdec); [lia|by rewrite Hl4|by rewrite Hl4|by rewrite Hl4|].
  exists f, raw. split; [done|]. unfold counted, content in *. cbn. rewrite Hd. split; [rewrite length_drop; lia|].
  split; [unfold raw; by rewrite take_drop|done].
Qed.

(** ** The drain *)

Lemma flush_spec pending r : counted r -> pendingReads r = pending ->
  let '(r', t) := flush_reads pending r in
  exists raw given, content r = raw ++ content r' /\ decodes_to raw given /\ counted r' /\ (length given <= length pending)%nat /\
    settled r' = settled r ++ zip (take (length given) pending) (map Ok given) /\ pendingReads r' = drop (length given) pending /\
    closedError r' = closedError r /\
    match t with
    | None => pendingReads r' = [] \/ frames_of (content r') = ([], None)
    | Some (_, e) => frames_of (content r') = ([], Some e)
    end.
Proof.
  revert r. induction pending as [|i pending IH]; intros r Hc Hp; cbn [flush_reads].
  - exists [], []. rewrite app_nil_r. split_and!; try done; [apply decodes_nil|by left].
  - pose proof (try_spec r Hc) as Ht. destruct (tryReadFrame r) as [|e|x r1].
    + exists [], []. rewrite app_nil_r. split_and!; try done; [apply decodes_nil|cbn; lia|by right].
    + exists [], []. rewrite app_nil_r. split_and!; try done; [apply decodes_nil|cbn; lia].
    + destruct Ht as (f & raw & -> & Hc1 & Hr1 & Hd1 & Hp1 & He1 & Hs1).
      specialize (IH (settle (with_pending r1 pending) i (Ok f)) Hc1 eq_refl).
      destruct (flush_reads pending _) as [r' t]. destruct IH as (raw' & given & HA & HB & HC & HD & HE & HF & HG & HH).
      exists (raw ++ raw'), (f :: given). cbn in HA, HE, HG. unfold content in HA at 1. cbn in HA. fold (content r1) in HA.
      split_and!; try done.
      * by rewrite Hr1, HA, app_assoc.
      * by apply (decodes_app raw [f]).
      * cbn. lia.
      * rewrite HE, Hs1. cbn. by rewrite <- app_assoc.
      * by rewrite HG.
Qed.

(** ** The invariant *)

Definition numbered {A} (l : list A) : list (nat * A) := zip (seq 0 (length l)) l.

Lemma numbered_app {A} (a b : list A) : numbered (a ++ b) = numbered a ++ zip (seq (length a) (length b)) b.
Proof. unfold numbered. rewrite length_app, seq_app, zip_with_app; [done|]. by rewrite length_seq. Qed.

Lemma zip_const {A} (l : list nat) (x : A) : zip l (replicate (length l) x) = map (fun i => (i, x)) l.
Proof. induction l as [|i l IH]; cbn; [done|by rewrite IH]. Qed.

(** Reads settled with the frames in order, the rest waiting. *)
Record in_step (r : FrameReader) (bytes : list byte) (n : nat) (given : list Frame) : Prop := {
  is_counted : counted r;
  is_bytes : exists raw, bytes = raw ++ content r /\ decodes_to raw given;
  is_settled : settled r = numbered (map Ok given);
  is_pending : exists m, pendingReads r = seq (length given) m /\ (length given + m = n)%nat;
}.

(** A closed reader: nothing waits, and reads that failed had no frame left. *)
Record shut_ok (shut : bool) (r : FrameReader) (bytes : list byte) (n : nat) (raw : list byte) (given : list Frame)
    (errs : list string) (ignored : list byte) : Prop := {
  so_counted : counted r;
  so_none : pendingReads r = [];
  so_bytes : bytes = raw ++ content r ++ ignored /\ decodes_to raw given;
  so_settled : settled r = numbered (map Ok given ++ map Err errs);
  so_count : (length given + length errs = n)%nat;
  so_errs : errs <> [] -> (frames_of (content r)).1 = [];
  so_ignored : shut = false \/ ignored <> [] -> is_Some (frames_of (content r)).2;
}.

Definition reader_ok (shut : bool) (r : FrameReader) (bytes : list byte) (n : nat) : Prop :=
  match closedError r with
  | None => shut = false /\ exists given, in_step r bytes n given /\ (pendingReads r <> [] -> frames_of (content r) = ([], None))
  | Some _ => exists raw given errs ignored, shut_ok shut r bytes n raw given errs ignored
  end.

Lemma flush_in_step r bytes n given : in_step r bytes n given ->
  let '(r', t) := flush_reads (pendingReads r) r in
  exists given', in_step r' bytes n given' /\ closedError r' = closedError r /\
    (frames_of (content r)).2 = (frames_of (content r')).2 /\ ((frames_of (content r)).1 = [] -> (frames_of (content r')).1 = []) /\
    match t with
    | None => pendingReads r' = [] \/ frames_of (content r') = ([], None)
    | Some (_, e) => frames_of (content r') = ([], Some e)
    end.
Proof.
  intros [Hc (raw & Hb & Hd) Hs (m & Hp & Hn)]. pose proof (flush_spec (pendingReads r) r Hc eq_refl) as Hf.
  destruct (flush_reads _ r) as [r' t]. destruct Hf as (raw' & more & HA & HB & HC & HD & HE & HF & HG & HH).
  exists (given ++ more). rewrite Hp, length_seq in HD. pose proof (HB (content r')) as HBr. rewrite <- HA in HBr. split.
  - split; [done|..].
    + exists (raw ++ raw'). split; [by rewrite Hb, HA, app_assoc|by apply decodes_app].
    + rewrite HE, Hs, map_app, numbered_app, !length_map. do 2 f_equal. rewrite Hp, take_seq, Nat.min_l by lia. done.
    + exists (m - length more)%nat. rewrite HF, Hp, drop_seq, length_app. split; [done|lia].
  - rewrite HBr. cbn. split; [done|]. split; [done|]. split; [|done]. intros Hnil. by apply app_nil in Hnil as [_ ->].
Qed.

Lemma close_in_step b r bytes n given e : in_step r bytes n given -> closedError r = None ->
  (b = false -> is_Some (frames_of (content r)).2) ->
  reader_ok b (close r e) bytes n /\ is_Some (closedError (close r e)) /\
  ((frames_of (content r)).1 = [] -> (frames_of (content (close r e))).1 = []).
Proof.
  intros Hr Hc Hb. unfold close. rewrite Hc.
  assert (Hr' : in_step (with_closed r e) bytes n given) by (destruct Hr; by split).
  pose proof (flush_in_step _ _ _ _ Hr') as Hf. change (pendingReads (with_closed r e)) with (pendingReads r) in Hf.
  destruct (flush_reads _ (with_closed r e)) as [r1 t]. destruct Hf as (given' & H1 & He & H2 & H3 & Ht). cbn [fst].
  destruct H1 as [I1 (raw & I2 & I3) I4 (m & I5 & I6)]. split; [|split; [by cbn; rewrite He|exact H3]].
  unfold reader_ok. cbn. rewrite He. cbn. exists raw, given', (replicate m e), []. split; cbn; try done.
  - by rewrite app_nil_r.
  - rewrite numbered_app, I4, I5, !length_map, length_replicate. f_equal. change (@map string (result string Frame)) with (@fmap list _ string (result string Frame)). rewrite fmap_replicate, <- zip_const. by rewrite length_seq.
  - by rewrite length_replicate.
  - intros Hm. change ((frames_of (content r1)).1 = []). destruct t as [[b' e']|]; [by rewrite Ht|].
    destruct Ht as [Hp|Ht]; [|by rewrite Ht]. rewrite Hp in I5. destruct m; done.
  - intros [->|?]; [|done]. change (is_Some (frames_of (content r1)).2). rewrite <- H2. by apply Hb.
Qed.

Lemma reader_push_ok shut r bytes n chunk : reader_ok shut r bytes n ->
  reader_ok shut (push r chunk) (if shut then bytes else bytes ++ chunk) n.
Proof.
  unfold reader_ok at 1, push. destruct (closedError r) as [e|] eqn:He.
  - intros (raw & given & errs & ignored & [A B [C D] E F G H]). unfold reader_ok. rewrite He.
    destruct shut; [by exists raw, given, errs, ignored|]. exists raw, given, errs, (ignored ++ chunk).
    split; try done; [split; [by rewrite C, <- !app_assoc|done]|]. intros _. apply H. by left.
  - intros (-> & given & [A (raw & B1 & B2) C (m & D1 & D2)] & _).
    set (r1 := match chunk with [] => r | _ => _ end).
    assert (Hr1 : in_step r1 (bytes ++ chunk) n given /\ closedError r1 = None /\ pendingReads r1 = pendingReads r).
    { unfold r1. destruct chunk as [|b chunk]; [rewrite app_nil_r; split; [|done]; split; eauto|]. split; [|done].
      assert (Hcont : content (with_bytes r (chunks r ++ [b :: chunk]) (buffered r + zlen (b :: chunk))) = content r ++ b :: chunk).
      { unfold content. cbn [chunks with_bytes]. rewrite concat_app. cbn [concat]. by rewrite app_nil_r. }
      split; [|exists raw; by rewrite Hcont, app_assoc, <- B1|done|by exists m].
      unfold counted in *. rewrite Hcont, length_app. cbn -[length]. lia. }
    clearbody r1. destruct Hr1 as (Hr1 & Hc1 & Hp1). pose proof (flush_in_step _ _ _ _ Hr1) as Hf.
    destruct (flush_reads _ r1) as [r2 [[b e]|]]; destruct Hf as (given' & H2 & Hc2 & _ & _ & Ht); rewrite Hc1 in Hc2.
    + apply (close_in_step false r2 _ n given' e H2 Hc2). by rewrite Ht.
    + unfold reader_ok. rewrite Hc2. split; [done|]. exists given'. split; [done|]. by destruct Ht as [->|Ht].
Qed.

(** A read that finds no frame in a closed reader. *)
Lemma settle_err shut r bytes n e : reader_ok shut r bytes n -> is_Some (closedError r) -> (frames_of (content r)).1 = [] ->
  reader_ok shut (settle r n (Err e)) bytes (S n).
Proof.
  unfold reader_ok. intros Hr [x Hx] Hnil. cbn. rewrite Hx in *. destruct Hr as (raw & given & errs & ignored & [A B C E F G H]).
  exists raw, given, (errs ++ [e]), ignored. split; try done.
  - cbn. rewrite E, map_app, app_assoc, (numbered_app (map Ok given ++ map Err errs)). f_equal. by rewrite length_app, !length_map, F.
  - rewrite length_app. cbn. lia.
Qed.

Lemma read_ok shut r bytes n : reader_ok shut r bytes n -> reader_ok shut (readFrame r n) bytes (S n).
Proof.
  intros Hr. unfold readFrame. assert (Hc : counted r).
  { unfold reader_ok in Hr. destruct (closedError r); [destruct Hr as (? & ? & ? & ? & [])|destruct Hr as (_ & ? & [] & _)]; done. }
  pose proof (try_spec r Hc) as Ht. destruct (tryReadFrame r) as [|e|x r1].
  - destruct (closedError r) as [e|] eqn:He; [apply settle_err; rewrite ?Ht; by eauto|].
    unfold reader_ok in *. cbn. rewrite He in *. destruct Hr as (-> & given & [A B C (m & D1 & D2)] & _). split; [done|]. exists given.
    split; [|by intros _]. split; try done. exists (S m). rewrite seq_S. cbn. rewrite D1, D2. split; [done|lia].
  - destruct (closedError r) as [e'|] eqn:He.
    + unfold close. rewrite He. apply settle_err; [done|by rewrite He|by rewrite Ht].
    + unfold reader_ok in Hr. rewrite He in Hr. destruct Hr as (-> & given & Hin & _).
      destruct (close_in_step false r bytes n given e Hin He) as (H1 & H2 & H3); [by rewrite Ht|].
      apply settle_err; [done|done|]. apply H3. by rewrite Ht.
  - destruct Ht as (f & raw1 & -> & Hc1 & Hcont & Hd1 & Hp1 & He1 & Hs1). pose proof (Hd1 (content r1)) as Hfr. rewrite <- Hcont in Hfr.
    unfold reader_ok in *. cbn. rewrite He1. destruct (closedError r) as [e|].
    + destruct Hr as (raw & given & errs & ignored & [A B [C D] E F G H]). destruct errs as [|e0 errs]; [|rewrite Hfr in G; by specialize (G ltac:(done))].
      exists (raw ++ raw1), (given ++ [f]), [], ignored. split; try done.
      * by cbn; rewrite Hp1.
      * split; [by rewrite C, Hcont, <- !app_assoc|by apply decodes_app].
      * cbn. rewrite Hs1, E. cbn in F. rewrite !app_nil_r, map_app, numbered_app, length_map. cbn. do 2 f_equal. f_equal. lia.
      * rewrite length_app. cbn in *. lia.
      * intros Hi. specialize (H Hi). by rewrite Hfr in H.
    + destruct Hr as (-> & given & [A (raw & B1 & B2) C (m & D1 & D2)] & Hw). split; [done|].
      assert (Hm : m = 0%nat). { destruct m as [|m]; [done|]. rewrite D1 in Hw. specialize (Hw ltac:(done)). by rewrite Hfr in Hw. }
      subst m. exists (given ++ [f]). cbn. rewrite Hp1, D1. split; [|done]. split; [done|..].
      * exists (raw ++ raw1). split; [by rewrite B1, Hcont, app_assoc|by apply decodes_app].
      * cbn. rewrite Hs1, C, map_app, numbered_app, length_map. cbn. do 2 f_equal. f_equal. lia.
      * exists 0%nat. cbn. rewrite Hp1, D1, length_app. cbn. split; [done|lia].
Qed.

Lemma close_ok shut r bytes n e : reader_ok shut r bytes n -> reader_ok true (close r e) bytes n.
Proof.
  intros Hr. unfold reader_ok in Hr. destruct (closedError r) as [e'|] eqn:He.
  - unfold close. rewrite He. unfold reader_ok. rewrite He. destruct Hr as (raw & given & errs & ignored & [A B C D E F G]).
    exists raw, given, errs, ignored. split; try done. intros [|Hi]; [done|]. apply G. by right.
  - destruct Hr as (_ & given & Hin & _). by apply (close_in_step true r bytes n given e Hin He).
Qed.

Lemma reader_run_shut ops r bytes n : reader_ok true r bytes n ->
  reader_ok true (reader_run r n ops).1 bytes (reader_run r n ops).2.
Proof.
  revert r n. induction ops as [|op ops IH]; intros r n Hr; [done|]. destruct op; cbn [reader_run]; apply IH.
  - by apply (reader_push_ok true).
  - by apply read_ok.
  - by eapply close_ok.
Qed.

Lemma reader_run_ok ops r bytes n : reader_ok false r bytes n ->
  exists shut, reader_ok shut (reader_run r n ops).1 (bytes ++ arrived ops) (reader_run r n ops).2.
Proof.
  revert r bytes n. induction ops as [|op ops IH]; intros r bytes n Hr; [exists false; by rewrite app_nil_r|].
  destruct op as [chunk| |e]; cbn [reader_run arrived].
  - rewrite app_assoc. apply IH. by apply (reader_push_ok false).
  - apply IH. by apply read_ok.
  - exists true. rewrite app_nil_r. apply reader_run_shut. by eapply close_ok.
Qed.

Lemma reader_new_ok : reader_ok false reader_new [] 0.
Proof.
  split; [done|]. exists []. split; [|done]. split; try done; [exists []; split; [done|apply decodes_nil]|by exists 0%nat].
Qed.

Lemma numbered_lookup {A} (l : list A) i x : (i, x) ∈ numbered l -> l !! i = Some x.
Proof.
  unfold numbered. intros Hin. apply list_elem_of_lookup in Hin as [k Hk].
  apply lookup_zip_Some in Hk as [H1 H2]. apply lookup_seq in H1 as [-> _]. done.
Qed.

Lemma numbered_fst {A} (l : list A) : (numbered l).*1 = seq 0 (length l).
Proof. apply fst_zip. by rewrite length_seq. Qed.

(** The frames the reads have given. *)
Definition frames_read (r : FrameReader) : list Frame := omap (fun x => match x.2 with Ok f => Some f | Err _ => None end) (settled r).

Lemma frames_read_numbered r given errs : settled r = numbered (map Ok given ++ map Err errs) -> frames_read r = given.
Proof.
  unfold frames_read, numbered. intros ->. generalize 0%nat. induction given as [|f given IH]; intros k; cbn; [|by rewrite IH].
  revert k. induction errs as [|e errs IH]; intros k; cbn; [done|apply IH].
Qed.

Lemma reads_prefix ops : frames_read (reader_run reader_new 0 ops).1 `prefix_of` (frames_of (arrived ops)).1.
Proof.
  destruct (reader_run_ok ops reader_new [] 0%nat reader_new_ok) as [shut Hr]. cbn [app] in Hr.
  destruct (reader_run reader_new 0 ops) as [r n]. cbn [fst snd] in *. unfold reader_ok in Hr. destruct (closedError r).
  - destruct Hr as (raw & given & errs & ignored & [A B [C D] E F G H]). rewrite (frames_read_numbered r given errs E), C, D. cbn. by eexists.
  - destruct Hr as (_ & given & [A (raw & B & D) C _] & _). rewrite (frames_read_numbered r given []), B, D by (by rewrite C, app_nil_r). cbn. by eexists.
Qed.

Definition is_close (op : ReaderOp) : bool := match op with OpClose _ => true | _ => false end.

Lemma reader_run_open ops r bytes n : forallb (fun op => negb (is_close op)) ops = true -> reader_ok false r bytes n ->
  reader_ok false (reader_run r n ops).1 (bytes ++ arrived ops) (reader_run r n ops).2.
Proof.
  revert r bytes n. induction ops as [|op ops IH]; intros r bytes n Hops Hr; [by rewrite app_nil_r|].
  destruct op as [chunk| |e]; cbn [reader_run arrived]; [| |done].
  - rewrite app_assoc. apply IH; [done|]. by apply (reader_push_ok false).
  - apply IH; [done|]. by apply read_ok.
Qed.

(** On a reader nobody closed, fed with whole frames, [n] reads have given the first
    [n] of them. *)
Lemma reads_take ops : forallb (fun op => negb (is_close op)) ops = true -> (frames_of (arrived ops)).2 = None ->
  frames_read (reader_run reader_new 0 ops).1 = take (reader_run reader_new 0 ops).2 (frames_of (arrived ops)).1.
Proof.
  intros Hops Hbad. pose proof (reader_run_open ops reader_new [] 0%nat Hops reader_new_ok) as Hr. cbn [app] in Hr.
  destruct (reader_run reader_new 0 ops) as [r n]. cbn [fst snd] in *. unfold reader_ok in Hr. destruct (closedError r).
  - exfalso. destruct Hr as (raw & given & errs & ignored & [A B [C D] E F G H]). specialize (H (or_introl eq_refl)).
    rewrite C, D, (proj2 (frames_of_more _ _) H) in Hbad. cbn in Hbad. rewrite Hbad in H. by destruct H.
  - destruct Hr as (_ & given & [A (raw & B & D) C (m & D1 & D2)] & Hw).
    rewrite (frames_read_numbered r given []), B, D by (by rewrite C, app_nil_r). cbn. destruct m as [|m].
    + rewrite Nat.add_0_r in D2. subst n. by rewrite take_app_len.
    + rewrite Hw by (by rewrite D1). cbn. rewrite app_nil_r, take_ge by lia. done.
Qed.

(** Frames as they are written. *)
Lemma decodes_frame_bytes f : frame_fits DEFAULT_MAX_FRAME_LENGTH f -> decodes_to (frame_bytes f) [f].
Proof.
  intros [Ht Hlen]. assert (Hv : be_val (take 4 (frame_bytes f)) = zlen (payload f) + 1).
  { unfold frame_bytes. rewrite <- (length_u32_be (zlen (payload f) + 1)), take_app_len. apply be_val_u32. zsolve. }
  assert (Hz : zlen (frame_bytes f) = 4 + (zlen (payload f) + 1)).
  { unfold frame_bytes. rewrite !length_app, length_u32_be. cbn [length]. lia. }
  destruct (decodes_frame (frame_bytes f)) as (f' & Hf & Hd); rewrite ?Hv; [lia..|]. enough (f' = f) as -> by done.
  specialize (Hd []). rewrite app_nil_r in Hd. rewrite frames_of_step, Hv in Hd. cbv zeta in Hd.
  destruct (Z.ltb_spec (zlen (frame_bytes f)) 4); [lia|]. destruct (Z.eqb_spec (zlen (payload f) + 1) 0); [lia|].
  destruct (Z.ltb_spec DEFAULT_MAX_FRAME_LENGTH (zlen (payload f) + 1)); [lia|].
  destruct (Z.ltb_spec (zlen (frame_bytes f)) (4 + (zlen (payload f) + 1))); [lia|].
  unfold first_frame in Hd. rewrite Hv in Hd. replace (drop 4 (frame_bytes f)) with (z2b (message_type f) :: payload f) in Hd
    by (unfold frame_bytes; by rewrite <- (length_u32_be (zlen (payload f) + 1)), drop_app_len).
  rewrite b2z_z2b_small, take_ge in Hd by zsolve. destruct (frames_of (drop _ _)) as [fs bad]. injection Hd as <- _. by destruct f.
Qed.

Lemma decodes_frames fs : Forall (frame_fits DEFAULT_MAX_FRAME_LENGTH) fs -> decodes_to (concat (map frame_bytes fs)) fs.
Proof.
  induction 1 as [|f fs Hf _ IH]; [apply decodes_nil|]. cbn [map concat]. apply (decodes_app _ [f]); [by apply decodes_frame_bytes|done].
Qed.

(** C8. The reader hands out what arrived.  However the socket cuts the bytes into
    chunks, and whether its reads are asked for before or after their bytes are
    there, the reads settle once each and in order, the [i]-th with the [i]-th frame
    of all bytes laid end to end; it fails only if those bytes hold no such frame and
    never will - the reader was closed, or a bad length stands there - and waits only
    on an open reader that does not hold its frame.  A bad length that a read came to
    closes the reader. *)
Theorem reads_get_their_frames ops :
  let '(r, n) := reader_run reader_new 0 ops in
  let '(frames, bad) := frames_of (arrived ops) in
  (settled r).*1 ++ pendingReads r = seq 0 n /\
  (forall i x, (i, x) ∈ settled r -> match frames !! i with Some f => x = Ok f | None => exists e, x = Err e /\ is_Some (closedError r) end) /\
  (forall i, i ∈ pendingReads r -> frames !! i = None /\ closedError r = None) /\
  (is_Some bad -> (length frames < n)%nat -> is_Some (closedError r)).
Proof.
  destruct (reader_run_ok ops reader_new [] 0%nat reader_new_ok) as [shut Hr]. cbn [app] in Hr.
  destruct (reader_run reader_new 0 ops) as [r n]. cbn [fst snd] in Hr. unfold reader_ok in Hr.
  destruct (closedError r) as [e|] eqn:He.
  - destruct Hr as (raw & given & errs & ignored & [A B [C D] E F G H]). rewrite C, D.
    assert (Hfs : (frames_of (content r)).1 = (frames_of (content r ++ ignored)).1 \/ errs = []).
    { destruct errs as [|e0 errs]; [by right|left]. destruct ignored as [|b ignored]; [by rewrite app_nil_r|].
      by rewrite (proj2 (frames_of_more _ _)) by (apply H; by right). }
    rewrite E, B, app_nil_r, numbered_fst, length_app, !length_map, F. split; [done|]. split; [|split; [set_solver|by eauto]].
    intros i x Hin. apply numbered_lookup in Hin. apply lookup_app_Some in Hin as [Hin|[Hge Hin]].
    + rewrite list_lookup_fmap in Hin. destruct (given !! i) as [f|] eqn:Hf; [|done]. injection Hin as <-. by rewrite (lookup_app_l_Some _ _ _ _ Hf).
    + rewrite length_map in Hge, Hin. rewrite list_lookup_fmap in Hin. destruct (errs !! _) as [e0|] eqn:Herr; [|done]. injection Hin as <-.
      destruct Hfs as [Hfs|Herrs]; [rewrite <- Hfs|by subst errs]. rewrite G by (by intros ->). rewrite app_nil_r, lookup_ge_None_2 by done. by eauto.
  - destruct Hr as (_ & given & [A (raw & B & D) C (m & D1 & D2)] & Hw). rewrite B, D.
    split; [by rewrite C, numbered_fst, length_map, D1, <- D2, <- seq_app|]. split; [|split].
    + intros i x Hin. rewrite C in Hin. apply numbered_lookup in Hin. rewrite list_lookup_fmap in Hin. destruct (given !! i) as [f|] eqn:Hf; [|done].
      injection Hin as <-. by rewrite (lookup_app_l_Some _ _ _ _ Hf).
    + intros i Hin. split; [|done]. rewrite Hw by (by intros Hp; rewrite Hp in Hin; apply not_elem_of_nil in Hin).
      cbn. rewrite app_nil_r. apply lookup_ge_None_2. rewrite D1 in Hin. apply elem_of_seq in Hin. lia.
    + intros Hb Hn. exfalso. rewrite length_app in Hn. destruct m as [|m]; [lia|]. rewrite Hw in Hb by (by rewrite D1). by destruct Hb.
Qed.
