(* ===== verification/Errors.v ===== *)
(** * Run errors ([crates/core/src/errors.rs])

    The run error, its code, name and message, the payload a completion
    carries, and the clamps on error text ([clamp_error_text], and
    [capped_text_lossy] of [crates/core/src/v8/exceptions.rs]). *)

From S2P Require Import Prelude Bytes Text F64 Types.

Definition MAX_ERROR_TEXT_BYTES : Z := 64 * 1024.
Definition ERROR_TEXT_BYTES : Z := MAX_ERROR_TEXT_BYTES - 128.
Definition WARMUP_WALL_MS : Z := 1000.
Definition WARMUP_CPU_MS : Z := 1000.

(** Length in bytes of a string. *)
Abbreviation blen s := (zlen (as_bytes s)).

Definition clamp_marker (total : Z) : string :=
  "… [truncated by iso4: " +:+ show total +:+ " bytes total]".

Definition clamp_error_text (text : string) : string :=
  if blen text <=? MAX_ERROR_TEXT_BYTES then text
  else
    let end_ := floor_char_boundary (as_bytes text) (Z.to_nat MAX_ERROR_TEXT_BYTES) in
    of_bytes (take end_ (as_bytes text)) +:+ clamp_marker (blen text).

Definition MAX_UNITS : Z := 64 * 1024.

(** [capped_text_lossy] once the units are out of V8: [out] is the decoded
    text, [len] the length of the whole string in UTF-16 units. *)
Definition capped_text_lossy (out : string) (len : Z) (max_bytes : Z) : string :=
  if (len <=? MAX_UNITS) && (blen out <=? max_bytes) then out
  else
    let cut := if blen out <=? max_bytes then blen out else
      Z.of_nat (floor_char_boundary (as_bytes out) (Z.to_nat max_bytes)) in
    of_bytes (take (Z.to_nat cut) (as_bytes out)) +:+
      "… [truncated by iso4: " +:+ show len +:+ " UTF-16 units total]".

Record RuntimeErrorData := mk_RuntimeErrorData {
  rt_name : string;
  rt_message : string;
  rt_stack : option string;
  rt_fields : option (list byte);
}.

Inductive RunError :=
  | InvalidPayload (msg : string)
  | RuntimeError (inner : RuntimeErrorData)
  | ModuleNotFound (msg : string)
  | Import (msg : string)
  | ExportNotSerializable (msg : string)
  | TypeNotSerializable (msg : string)
  | CpuTimeout
  | WallTimeout
  | MemoryLimit
  | HostBridge (err : BridgeErrorPayload)
  | UndeclaredBinding (msg : string)
  | ReservedName (msg : string)
  | FrozenBinding (msg : string)
  | PrefixDidNotSettle (msg : string)
  | PrefixBridgeCall (msg : string)
  | WarmupLimit
  | Capacity (msg : string)
  | CallTargetNotFound (msg : string)
  | FunctionArgumentNotSupported
  | BridgeCallPayloadTooLarge
  | ExportTooLarge
  | BridgeCallLimitExceeded
  | Aborted
  | InstanceReset (cause : ResetCause) (culprit_run_id : Z)
  | Internal (msg : string).

(** [webcodec::CodecError] and the run error it maps to. *)
Inductive CodecError := Unsupported (m : string) | Malformed (m : string).

Definition codec_error_to_run_error (error : CodecError) : RunError :=
  match error with
  | Unsupported m => TypeNotSerializable m
  | Malformed m => Internal m
  end.

Definition code (e : RunError) : string :=
  match e with
  | InvalidPayload _ => "ERR_INTERNAL"
  | RuntimeError _ => "ERR_USER_CODE"
  | ModuleNotFound _ => "ERR_MODULE_NOT_FOUND"
  | Import _ => "ERR_IMPORT"
  | ExportNotSerializable _ => "ERR_EXPORT_NOT_SERIALIZABLE"
  | TypeNotSerializable _ => "ERR_TYPE_NOT_SERIALIZABLE"
  | CpuTimeout => "ERR_CPU_TIMEOUT"
  | WallTimeout => "ERR_WALL_TIMEOUT"
  | MemoryLimit => "ERR_MEMORY_LIMIT"
  | HostBridge _ => "ERR_HOST_BRIDGE"
  | UndeclaredBinding _ => "ERR_UNDECLARED_BINDING"
  | ReservedName _ => "ERR_RESERVED_NAME"
  | FrozenBinding _ => "ERR_FROZEN_BINDING"
  | PrefixDidNotSettle _ => "ERR_PREFIX_DID_NOT_SETTLE"
  | PrefixBridgeCall _ => "ERR_PREFIX_BRIDGE_CALL"
  | CallTargetNotFound _ => "ERR_CALL_TARGET_NOT_FOUND"
  | FunctionArgumentNotSupported => "ERR_FUNCTION_ARGUMENT_NOT_SUPPORTED"
  | BridgeCallPayloadTooLarge => "ERR_BRIDGE_PAYLOAD_TOO_LARGE"
  | ExportTooLarge => "ERR_EXPORT_TOO_LARGE"
  | BridgeCallLimitExceeded => "ERR_BRIDGE_CALL_LIMIT_EXCEEDED"
  | Aborted => "ERR_ABORTED"
  | InstanceReset _ _ => "ERR_INSTANCE_RESET"
  | WarmupLimit => "ERR_WARMUP_LIMIT"
  | Capacity _ => "ERR_CAPACITY_MEMORY"
  | Internal _ => "ERR_INTERNAL"
  end.

Definition name (e : RunError) : string :=
  match e with
  | RuntimeError inner => rt_name inner
  | HostBridge err => be_name err
  | TypeNotSerializable _ => "TypeError"
  | Aborted => "AbortError"
  | _ => "Error"
  end.

Definition message (e : RunError) : string :=
  match e with
  | InvalidPayload msg | ModuleNotFound msg | Import msg | ExportNotSerializable msg
  | TypeNotSerializable msg | UndeclaredBinding msg | ReservedName msg | FrozenBinding msg
  | PrefixDidNotSettle msg | PrefixBridgeCall msg | CallTargetNotFound msg | Capacity msg
  | Internal msg => msg
  | RuntimeError inner => rt_message inner
  | HostBridge err => be_message err
  | CpuTimeout => "CPU time limit exceeded"
  | WallTimeout => "Wall time limit exceeded"
  | MemoryLimit => "Memory limit exceeded"
  | FunctionArgumentNotSupported => "function arguments are not supported across the bridge boundary"
  | BridgeCallPayloadTooLarge => "bridge call payload exceeds configured maxBridgeCallBytes limit"
  | ExportTooLarge => "serialised export payload exceeds configured maxExportBytes limit"
  | BridgeCallLimitExceeded => "run exceeded the configured maxBridgeCalls limit"
  | Aborted => "run was aborted"
  | InstanceReset cause _ =>
    "the shared instance was reset by a co-resident run (" +:+
    match cause with
    | ResetCpu => "CPU limit"
    | ResetMemory => "memory limit"
    | ResetWall => "wall deadline"
    | ResetAbort => "mid-execution abort"
    | ResetInternal => "internal failure"
    | ResetUnsupported => "unsupported operation"
    end +:+ "): this run was in flight on it and could not continue"
  | WarmupLimit =>
    "prefix evaluation exceeded its fixed warm-up budget (" +:+ show WARMUP_WALL_MS
    +:+ "ms wall / " +:+ show WARMUP_CPU_MS
    +:+ "ms CPU); move expensive setup into the handler (lazy init on first call)"
  end.

Definition to_payload (e : RunError) : RunErrorPayload :=
  let '(stack, fields) :=
    match e with
    | RuntimeError inner => (rt_stack inner, rt_fields inner)
    | HostBridge err => (None, be_fields err)
    | _ => (None, None)
    end in
  let reset :=
    match e with
    | InstanceReset cause culprit_run_id => Some (mk_ResetInfo cause culprit_run_id)
    | _ => None
    end in
  {| ep_code := code e; ep_name := name e; ep_message := message e;
     ep_stack := stack; ep_fields := fields; ep_reset := reset;
     ep_prefix_stage := false; ep_cause := None |}.

(** [v8::isolate::TerminationReason], the reason a guard stores before it
    terminates execution. *)
Inductive TerminationReason :=
  | ReasonWall | ReasonCpu | ReasonMemory | ReasonAbort | ReasonImport (m : string).

(** The argument is the content of the [ReasonCell]. *)
Definition reason_error (reason : option TerminationReason) : RunError :=
  match reason with
  | Some ReasonWall => WallTimeout
  | Some ReasonCpu => CpuTimeout
  | Some ReasonMemory => MemoryLimit
  | Some (ReasonImport m) => Import m
  | Some ReasonAbort | None => Aborted
  end.

Definition termination_or (reason : option TerminationReason) (fallback : RunError) : RunError :=
  match reason with
  | Some ReasonWall => WallTimeout
  | Some ReasonCpu => CpuTimeout
  | Some ReasonMemory => MemoryLimit
  | Some ReasonAbort => Aborted
  | Some (ReasonImport m) => Import m
  | None => fallback
  end.

Record FailureOutput := mk_FailureOutput {
  fo_error : RunError;
  fo_stdout : list string;
  fo_stderr : list string;
  fo_duration_ms : f64;
  fo_wall_time_ms : f64;
  fo_cpu_time_ms : f64;
  fo_bridge_calls : list BridgeCallRecord;
}.

(** [failure], given the log buffers and the elapsed time. *)
Definition failure (error : RunError) (stdout stderr : list string) (duration_ms : f64) : FailureOutput := {|
  fo_error := error;
  fo_stdout := stdout;
  fo_stderr := stderr;
  fo_duration_ms := duration_ms;
  fo_wall_time_ms := duration_ms;
  fo_cpu_time_ms := f64_zero;
  fo_bridge_calls := [];
|}.

(** ** The clamp on error text *)

Lemma as_bytes_of_bytes_app bs s : as_bytes (of_bytes bs +:+ s) = bs ++ as_bytes s.
Proof. by rewrite as_bytes_app, as_of_bytes. Qed.

Lemma str_ok_app s t : str_ok s -> str_ok t -> str_ok (s +:+ t).
Proof. unfold str_ok. intros Hs Ht. by rewrite as_bytes_app, utf8_app. Qed.

(** Text cut at the last boundary before [n] and followed by a marker. *)
Lemma cut_ok s n marker :
  str_ok s -> str_ok marker ->
  str_ok (of_bytes (take (floor_char_boundary (as_bytes s) n) (as_bytes s)) +:+ marker).
Proof.
  intros Hs Hm. apply str_ok_app; [|done]. unfold str_ok. rewrite as_of_bytes.
  apply utf8_take; [done|]. apply floor_char_boundary_spec.
Qed.

Lemma blen_app s t : blen (s +:+ t) = blen s + blen t.
Proof. rewrite as_bytes_app, length_app. lia. Qed.

Lemma length_as_bytes_cons c s : length (as_bytes (String c s)) = S (length (as_bytes s)).
Proof. done. Qed.

(** A decimal number of [n] digits at most. *)
Lemma pretty_go_length x s k :
  (x < 10 ^ N.of_nat k)%N -> (length (as_bytes (pretty_N_go x s)) <= k + length (as_bytes s))%nat.
Proof.
  revert x s. induction k as [|k IH]; intros x s Hx.
  - cbn in Hx. replace x with 0%N by lia. by rewrite pretty_N_go_0.
  - destruct (decide (x = 0)%N) as [->|Hne]; [rewrite pretty_N_go_0; lia|].
    rewrite pretty_N_go_step by lia.
    etransitivity; [apply IH|rewrite length_as_bytes_cons; lia].
    apply N.Div0.div_lt_upper_bound. rewrite Nat2N.inj_succ, N.pow_succ_r' in Hx. lia.
Qed.

Lemma show_length n k : 0 <= n < 10 ^ Z.of_nat (S k) -> blen (show n) <= Z.of_nat (S k).
Proof.
  intros [Hn Hlt]. unfold show. destruct n as [|p|p]; [cbn; lia| |lia].
  change (pretty (Zpos p)) with (pretty (Npos p)). unfold pretty, pretty_N.
  destruct (decide _); [cbn; lia|].
  pose proof (pretty_go_length (Npos p) "" (S k)) as H. cbn [as_bytes] in H.
  assert (Hp : (Npos p < 10 ^ N.of_nat (S k))%N).
  { apply N2Z.inj_lt. rewrite N2Z.inj_pow, nat_N_Z. exact Hlt. }
  specialize (H Hp). change (length (as_bytes "")) with 0%nat in H. lia.
Qed.

(** The clamped text is text and fits the limit plus its marker. *)
Lemma clamp_text_ok text :
  str_ok text -> blen text < 10 ^ 20 ->
  str_ok (clamp_error_text text) /\ blen (clamp_error_text text) <= MAX_ERROR_TEXT_BYTES + 64.
Proof.
  intros Htext Hsize. unfold clamp_error_text. set (max := Z.to_nat MAX_ERROR_TEXT_BYTES).
  assert (Hmax : Z.of_nat max = MAX_ERROR_TEXT_BYTES) by (apply Z2Nat.id; discriminate).
  assert (Hshow : blen (show (blen text)) <= 20) by (apply (show_length _ 19); split; [lia|exact Hsize]).
  assert (Hmark : str_ok (clamp_marker (blen text))).
  { apply str_ok_app; [reflexivity|]. apply str_ok_app; [apply ascii_text_ok, show_ascii|reflexivity]. }
  destruct (Z.leb_spec (blen text) MAX_ERROR_TEXT_BYTES) as [Hle|Hgt]; [split; [done|lia]|].
  split; [by apply cut_ok|]. rewrite as_bytes_of_bytes_app, length_app, length_take, Nat2Z.inj_add.
  destruct (floor_char_boundary_spec (as_bytes text) max) as [_ Hk].
  unfold clamp_marker. rewrite !blen_app.
  change (blen "… [truncated by iso4: ") with 24. change (blen " bytes total]") with 13. lia.
Qed.

(** Error text stays text and stays bounded: text within
    [MAX_ERROR_TEXT_BYTES] is unchanged; longer text is cut on a character
    boundary, loses at most three bytes more than it must, is marked with its
    true length, and fits the limit plus 64 bytes (for any length below
    [10^20], which covers [usize]). *)
Theorem clamp_error_text_spec text
    (Htext : str_ok text) (Hsize : blen text < 10 ^ 20) :
  str_ok (clamp_error_text text) /\
  (blen text <= MAX_ERROR_TEXT_BYTES -> clamp_error_text text = text) /\
  (MAX_ERROR_TEXT_BYTES < blen text ->
   blen (clamp_error_text text) <= MAX_ERROR_TEXT_BYTES + 64 /\
   exists kept, clamp_error_text text = of_bytes (take kept (as_bytes text)) +:+ clamp_marker (blen text) /\
     MAX_ERROR_TEXT_BYTES - 3 <= Z.of_nat kept <= MAX_ERROR_TEXT_BYTES).
Proof.
  destruct (clamp_text_ok text Htext Hsize) as [Hok Hlen]. split; [done|].
  unfold clamp_error_text in *. set (max := Z.to_nat MAX_ERROR_TEXT_BYTES) in *.
  assert (Hmax : Z.of_nat max = MAX_ERROR_TEXT_BYTES) by (apply Z2Nat.id; discriminate).
  destruct (Z.leb_spec (blen text) MAX_ERROR_TEXT_BYTES) as [Hle|Hgt].
  - split; [done|]. intros; exfalso; lia.
  - split; [lia|]. intros _. split; [done|].
    destruct (floor_char_boundary_spec (as_bytes text) max) as [_ Hk].
    pose proof (floor_char_boundary_close (as_bytes text) max Htext) as Hc.
    exists (floor_char_boundary (as_bytes text) max). split; [done|]. lia.
Qed.

(** One ASCII byte and 21846 three-byte characters: the limit falls inside a
    character. *)
Definition long_text : string := of_bytes (x61 :: concat (repeat [xe2; x82; xac] 21846)).

Lemma clamp_error_text_spec_witness :
  str_ok (clamp_error_text long_text) /\
  blen (clamp_error_text long_text) <= MAX_ERROR_TEXT_BYTES + 64.
Proof.
  assert (Htext : str_ok long_text) by (vm_compute; reflexivity).
  assert (Hsize : blen long_text < 10 ^ 20) by (vm_compute; reflexivity).
  destruct (clamp_error_text_spec long_text Htext Hsize) as (H1 & _ & H2).
  split; [exact H1|]. apply H2. vm_compute. reflexivity.
Defined.

(** The clamp at the source leaves room for the clamp on the wire: guest text
    capped by [capped_text_lossy] is never cut a second time. *)
Lemma capped_text_not_clamped out len :
  0 <= len < 10 ^ 10 -> clamp_error_text (capped_text_lossy out len ERROR_TEXT_BYTES) =
    capped_text_lossy out len ERROR_TEXT_BYTES.
Proof.
  intros Hlen. unfold clamp_error_text.
  assert (Hb : blen (capped_text_lossy out len ERROR_TEXT_BYTES) <= MAX_ERROR_TEXT_BYTES);
    [|by destruct (Z.leb_spec (blen (capped_text_lossy out len ERROR_TEXT_BYTES)) MAX_ERROR_TEXT_BYTES); [|lia]].
  unfold capped_text_lossy.
  destruct ((len <=? MAX_UNITS) && (blen out <=? ERROR_TEXT_BYTES)) eqn:E.
  { apply andb_prop in E as [_ E]. unfold ERROR_TEXT_BYTES in E. lia. }
  rewrite as_bytes_of_bytes_app, length_app, length_take, Nat2Z.inj_add, !blen_app.
  change (blen "… [truncated by iso4: ") with 24. change (blen " UTF-16 units total]") with 20.
  pose proof (show_length len 9 Hlen) as Hs. unfold ERROR_TEXT_BYTES, MAX_ERROR_TEXT_BYTES in *.
  destruct (Z.leb_spec (blen out) (64 * 1024 - 128)); [lia|].
  destruct (floor_char_boundary_spec (as_bytes out) (Z.to_nat (64 * 1024 - 128))) as [_ Hf]. lia.
Qed.

(** ** What crosses to the host *)

(** The two variants that share a code. *)
Definition internal_kind (e : RunError) : bool :=
  match e with InvalidPayload _ | Internal _ => true | _ => false end.

(** The variant of an error, forgetting what it carries. *)
Definition shape (e : RunError) : RunError :=
  match e with
  | InvalidPayload _ => InvalidPayload "" | RuntimeError _ => RuntimeError (mk_RuntimeErrorData "" "" None None)
  | ModuleNotFound _ => ModuleNotFound "" | Import _ => Import ""
  | ExportNotSerializable _ => ExportNotSerializable "" | TypeNotSerializable _ => TypeNotSerializable ""
  | HostBridge _ => HostBridge (mk_BridgeErrorPayload "" "" None) | UndeclaredBinding _ => UndeclaredBinding ""
  | ReservedName _ => ReservedName "" | FrozenBinding _ => FrozenBinding ""
  | PrefixDidNotSettle _ => PrefixDidNotSettle "" | PrefixBridgeCall _ => PrefixBridgeCall ""
  | Capacity _ => Capacity "" | CallTargetNotFound _ => CallTargetNotFound ""
  | InstanceReset _ _ => InstanceReset ResetCpu 0 | Internal _ => Internal ""
  | e => e
  end.

(** What a failed run tells the host: the code alone names the variant
    (the two internal ones apart); the reset extras are present exactly on an
    instance reset and carry its cause and culprit; a stack crosses only for an
    error the guest threw, never for a host handler's; and own fields cross
    only for those two. *)
Theorem to_payload_discloses e e' :
  (code e = code e' -> shape e = shape e' \/ (internal_kind e = true /\ internal_kind e' = true)) /\
  (forall cause culprit, ep_reset (to_payload e) = Some (mk_ResetInfo cause culprit) <->
     e = InstanceReset cause culprit) /\
  (forall s, ep_stack (to_payload e) = Some s <->
     exists d, e = RuntimeError d /\ rt_stack d = Some s) /\
  (forall b, ep_fields (to_payload e) = Some b <->
     (exists d, e = RuntimeError d /\ rt_fields d = Some b) \/
     (exists d, e = HostBridge d /\ be_fields d = Some b)).
Proof.
  split; [destruct e, e'; cbn; intros H; try discriminate H; auto|].
  split; [|split].
  - intros c k. destruct e; cbn; split; intros; simplify_eq; auto.
  - intros s. destruct e; cbn; split; intros; naive_solver.
  - intros b. destruct e; cbn; split; intros; naive_solver.
Qed.

Lemma to_payload_discloses_witness :
  shape (Capacity "a") = shape (Capacity "b").
Proof.
  destruct (to_payload_discloses (Capacity "a") (Capacity "b")) as [H _].
  destruct (H eq_refl) as [Hs|[Hf _]]; [exact Hs|discriminate Hf].
Defined.
