(* ===== verification/Thrown.v ===== *)
(** * Thrown values ([crates/core/src/v8/exceptions.rs], and the error half of [bridge.rs])

    How a thrown JavaScript value becomes a run error, and how an error of a host
    handler becomes a JavaScript error and back.  Objects live in a heap with
    identity; whatever may run guest code - a getter, a proxy's trap, a [toString],
    a setter on a prototype - is a field of the record [Js], free to change the
    heap.  [Console] renders log lines over the same objects. *)

From S2P Require Import Prelude Bytes Text F64 Types Utf16 Errors.

(** ** Values and objects *)

(** [Sym]: a symbol; [Ref]: an object, by identity. *)
Inductive Val := Undefined | Null | Bool (b : bool) | Num (k : Z) | BigInt (k : Z) | Str (us : list Z) | Sym (k : Z) | Ref (id : Z).

(** A string-keyed property as [get_own_property_names] lists it; an index may be
    listed as a number, which is no [v8::Name]. *)
Record Key := mk_Key { is_name : bool; key_units : list Z }.
Inductive Slot := Data (v : Val) | Accessor.
Record Property := mk_Property { p_enum : bool; p_slot : Slot }.

(** [ErrorObject]: [is_native_error]; [BufferObject]: an [ArrayBuffer] or a view. *)
Inductive ObjKind := ErrorObject | ArrayObject | BufferObject | OtherObject.

(** [o_exotic]: a proxy; [o_tag]: the private symbol of a host bridge error;
    [o_native]: no guest code has a reference to the object. *)
Record Obj := mk_Obj {
  o_kind : ObjKind;
  o_class : string;
  o_exotic : bool;
  o_props : list (Key * Property);
  o_tag : bool;
  o_native : bool;
}.

(** What the [TryCatch] in scope holds. *)
Inductive Caught := Exception | Termination.

(** [reason_set]: the isolate's reason cell holds a reason. *)
Record Heap := mk_Heap { objs : gmap Z Obj; next_id : Z; reason_set : bool; caught : option Caught }.
Definition with_objs (h : Heap) (m : gmap Z Obj) : Heap := mk_Heap m (next_id h) (reason_set h) (caught h).
Definition with_caught (h : Heap) (c : option Caught) : Heap := mk_Heap (objs h) (next_id h) (reason_set h) c.

#[export] Instance Val_eq_dec : EqDecision Val.
Proof. solve_decision. Defined.
#[export] Instance Key_eq_dec : EqDecision Key.
Proof. solve_decision. Defined.

(** ** V8 and the guest

    [None] where an operation throws.  [get_trap]: reading what is not an own data
    property of an ordinary object; [inherited_set]: a write taken by a setter or
    a read-only property of a prototype. *)
Record Js := mk_Js {
  get_trap : Val -> list Z -> Heap -> Heap * option Val;
  own_trap : Z -> list Z -> Heap -> Heap * bool;
  keys_trap : Z -> Heap -> Heap * option (list Key);
  inherited_set : Z -> list Z -> Val -> Heap -> option Heap;
  string_trap : Val -> Heap -> Heap * option (list Z);
  detail_string : Val -> Heap -> Heap * option (list Z);
  json_stringify : Val -> Heap -> Heap * option (list Z);
  (** [blob::serialize_value], [blob::deserialize_value] *)
  serialize : Val -> Heap -> Heap * option (list byte);
  deserialize : list byte -> Heap -> Heap * option Val;
}.

(** Computations on the heap; [?←] is the [?] operator on an [Option]. *)
Definition G (A : Type) : Type := Heap -> Heap * A.
#[export] Instance G_ret : MRet G := fun A a h => (h, a).
#[export] Instance G_bind : MBind G := fun A B f m h => let '(h, a) := m h in f a h.
Definition obind {A B} (m : G (option A)) (f : A -> G (option B)) : G (option B) :=
  a ← m; match a with Some a => f a | None => mret None end.
Notation "x ?← m ; k" := (obind m (fun x => k)) (at level 20, m at level 100, k at level 200, only parsing).

Lemma heap_bind {A B} (m : G A) (f : A -> G B) h h' a : m h = (h', a) -> (m ≫= f) h = f a h'.
Proof. unfold mbind, G_bind. by intros ->. Qed.

Definition get_heap : G Heap := fun h => (h, h).
Definition set_heap (f : Heap -> Heap) : G unit := fun h => (f h, tt).

(** ** Properties *)

Definition own (props : list (Key * Property)) (name : list Z) : option Property :=
  (fun x => x.2.2) <$> list_find (fun p => key_units p.1 = name) props.

Fixpoint put_own (name : Key) (p : Property) (props : list (Key * Property)) : list (Key * Property) :=
  match props with
  | [] => [(name, p)]
  | q :: props => if decide (key_units q.1 = key_units name) then (q.1, p) :: props else q :: put_own name p props
  end.

Definition new_object (o : Obj) : G Z :=
  h ← get_heap;
  set_heap (fun h => mk_Heap (<[next_id h := o]> (objs h)) (next_id h + 1) (reason_set h) (caught h));;
  mret (next_id h).

Definition plain_object : Obj := mk_Obj OtherObject "Object" false [] false true.

(** [create_data_property] on an object the runtime made. *)
Definition create_data_property (id : Z) (key : Key) (v : Val) : G unit :=
  set_heap (fun h => with_objs h (alter (fun o =>
    mk_Obj (o_kind o) (o_class o) (o_exotic o) (put_own key (mk_Property true (Data v)) (o_props o)) (o_tag o) (o_native o)) id (objs h))).

(** [obj.set_private(tag, true)], the last step before guest code gets the object. *)
Definition set_private_tag (id : Z) : G unit :=
  set_heap (fun h => with_objs h (alter (fun o => mk_Obj (o_kind o) (o_class o) (o_exotic o) (o_props o) true false) id (objs h))).

Section Thrown.
Context (js : Js).

(** [value.to_object(scope)?.get(scope, name)?] *)
Definition get (v : Val) (name : list Z) : G (option Val) :=
  match v with
  | Undefined | Null => mret None
  | Ref id =>
    h ← get_heap;
    match objs h !! id with
    | Some o =>
      if o_exotic o then get_trap js v name
      else match own (o_props o) name with Some (mk_Property _ (Data x)) => mret (Some x) | _ => get_trap js v name end
    | None => get_trap js v name
    end
  | _ => get_trap js v name
  end.

Definition to_string (v : Val) : G (option (list Z)) :=
  match v with Str us => mret (Some us) | _ => string_trap js v end.

Definition own_names (id : Z) : G (option (list Key)) :=
  h ← get_heap;
  match objs h !! id with
  | Some o => if o_exotic o then keys_trap js id else mret (Some (map fst (filter (fun p => p_enum p.2 = true) (o_props o))))
  | None => keys_trap js id
  end.

Definition has_own_property (v : Val) (name : list Z) : G bool :=
  match v with
  | Ref id =>
    h ← get_heap;
    match objs h !! id with
    | Some o => if o_exotic o then own_trap js id name else mret (bool_decide (is_Some (own (o_props o) name)))
    | None => mret false
    end
  | _ => mret false
  end.

(** ** Capped text *)

Definition capped_units (us : list Z) (max_bytes : Z) : string :=
  let len := zlen us in
  Errors.capped_text_lossy (if len <=? MAX_UNITS then utf16_lossy us else utf16_lossy (trim_lead (take (Z.to_nat MAX_UNITS) us))) len max_bytes.

Definition text_of (v : Val) : G (option string) := us ?← to_string v; mret (Some (capped_units us ERROR_TEXT_BYTES)).

(** ** A thrown value as a run error *)

Definition error_message_from_value (v : Val) : G (option string) :=
  msg ?← get v (v8_string "message");
  match msg with Undefined | Null => mret None | _ => text_of msg end.

Definition stack_from_value (v : Val) : G (option string) :=
  stack ?← get v (v8_string "stack");
  match stack with Undefined | Null => mret None | _ => text_of stack end.

Definition error_name_from_value (v : Val) : G (option string) :=
  name ?← get v (v8_string "name");
  match name with Str _ => text_of name | _ => mret None end.

Definition exception_message (exception : option Val) : G string :=
  match exception with Some e => s ← text_of e; mret (default "(no exception message)"%string s) | None => mret "(no exception message)"%string end.
Definition exception_stack (exception : option Val) : G (option string) :=
  match exception with Some e => stack_from_value e | None => mret None end.
Definition exception_name (exception : option Val) : G string :=
  match exception with Some e => n ← error_name_from_value e; mret (default "Error"%string n) | None => mret "Error"%string end.

Definition RESERVED_ERROR_KEYS : list string := ["name"; "message"; "stack"; "__proto__"]%string.

Fixpoint copy_keys (source target : Z) (skip : list string) (names : list Key) : G unit :=
  match names with
  | [] => mret tt
  | key :: names =>
    (if decide (utf16_lossy (key_units key) ∈ skip) then mret tt
     else if is_name key then
       v ← get (Ref source) (key_units key);
       match v with Some v => create_data_property target key v | None => mret tt end
     else mret tt);;
    copy_keys source target skip names
  end.

Definition copy_own_properties_except (source target : Z) (skip : list string) : G unit :=
  names ← own_names source;
  match names with Some names => copy_keys source target skip names | None => mret tt end.

(** The second pass, property by property: whether any was kept, [None] when the
    run ended meanwhile. *)
Fixpoint keep_serializable (fields kept : Z) (any : bool) (names : list Key) : G (option bool) :=
  match names with
  | [] => mret (Some any)
  | key :: names =>
    h ← get_heap;
    if reason_set h then mret None
    else if is_name key then
      prop ← get (Ref fields) (key_units key);
      match prop with
      | Some prop =>
        bytes ← serialize js prop;
        match bytes with
        | Some _ => create_data_property kept key prop;; keep_serializable fields kept true names
        | None => keep_serializable fields kept any names
        end
      | None => keep_serializable fields kept any names
      end
    else keep_serializable fields kept any names
  end.

Definition error_fields_from_value (v : Val) : G (option (list byte)) :=
  match v with
  | Ref obj =>
    fields ← new_object plain_object;
    copy_own_properties_except obj fields RESERVED_ERROR_KEYS;;
    names ?← own_names fields;
    match names with
    | [] => mret None
    | _ =>
      whole ← serialize js (Ref fields);
      match whole with
      | Some bytes => mret (Some bytes)
      | None =>
        kept ← new_object plain_object;
        any ?← keep_serializable fields kept false names;
        if (any : bool) then serialize js (Ref kept) else mret None
      end
    end
  | _ => mret None
  end.

Definition exception_fields (exception : option Val) : G (option (list byte)) :=
  match exception with Some e => error_fields_from_value e | None => mret None end.

Definition runtime_error_data (v : Val) : G RuntimeErrorData :=
  name ← error_name_from_value v;
  message ← error_message_from_value v;
  message ← match message with Some m => mret (Some m) | None => text_of v end;
  stack ← stack_from_value v;
  fields ← error_fields_from_value v;
  mret (mk_RuntimeErrorData (default "Error"%string name) (default "JavaScript error"%string message) stack fields).

Definition runtime_error_from_value (v : Val) : G RunError := d ← runtime_error_data v; mret (RuntimeError d).

(** What [eval_script] and the others make of the pending exception. *)
Definition exception_error (exception : option Val) : G RunError :=
  name ← exception_name exception;
  message ← exception_message exception;
  stack ← exception_stack exception;
  fields ← exception_fields exception;
  mret (RuntimeError (mk_RuntimeErrorData name message stack fields)).

Definition frame_marker : string := String (Ascii.ascii_of_nat 10) "    at ".
Definition contains (s pattern : string) : bool := match String.index 0 pattern s with Some _ => true | None => false end.

(** [location]: of the pending message: the script's name, if it has one as text,
    the line, and the start column. *)
Definition syntax_error (exception : option Val) (location : option (option (list Z) * option Z * Z)) : G RunError :=
  match exception with
  | None => mret (Internal "compile failed without an exception")
  | Some e =>
    data ← runtime_error_data e;
    let framed := match rt_stack data with Some s => contains s frame_marker | None => false end in
    let at_ := '(file, line, column) ← location; line ← line;
      Some ((match file with Some us => utf16_lossy us | None => "<anonymous>" end) +:+ ":" +:+ show line +:+ ":" +:+ show (column + 1)) in
    mret (RuntimeError (match framed, at_ with
      | false, Some at_ =>
        mk_RuntimeErrorData (rt_name data) (rt_message data) (Some (rt_name data +:+ ": " +:+ rt_message data +:+ frame_marker +:+ at_)) (rt_fields data)
      | _, _ => data
      end))
  end.

(** ** Errors of host handlers *)

Definition INTRINSIC_ERROR_NAMES : list string := ["Error"; "TypeError"; "RangeError"; "SyntaxError"; "ReferenceError"]%string.

(** [v8::Exception::error] and the others: [message] and [stack] are own and not
    enumerable, the stack computed when read. *)
Definition exception_of (class message : string) : Obj :=
  mk_Obj ErrorObject class false
    [(mk_Key true (v8_string "stack"), mk_Property false Accessor);
     (mk_Key true (v8_string "message"), mk_Property false (Data (Str (v8_string message))))] false true.

Definition intrinsic_class (name : string) : string := if decide (name ∈ INTRINSIC_ERROR_NAMES) then name else "Error".

(** [obj.set] on such an error. *)
Definition set_property (id : Z) (name : string) (v : Val) : G unit :=
  h ← get_heap;
  match objs h !! id ≫= (fun o => own (o_props o) (v8_string name)) with
  | Some _ => create_data_property id (mk_Key true (v8_string name)) v
  | None => match inherited_set js id (v8_string name) v h with
            | Some h' => set_heap (fun _ => h')
            | None => create_data_property id (mk_Key true (v8_string name)) v
            end
  end.

Definition host_bridge_error_to_v8 (err : BridgeErrorPayload) : G Val :=
  obj ← new_object (exception_of (intrinsic_class (be_name err)) (be_message err));
  (if decide (be_name err ∈ INTRINSIC_ERROR_NAMES) then mret tt else set_property obj "name" (Str (v8_string (be_name err))));;
  match be_fields err with
  | Some bytes =>
    fields ← deserialize js bytes;
    match fields with Some (Ref fields) => copy_own_properties_except fields obj RESERVED_ERROR_KEYS | _ => mret tt end
  | None => mret tt
  end;;
  set_private_tag obj;;
  mret (Ref obj).

Definition has_tag (v : Val) (h : Heap) : bool :=
  match v with Ref id => match objs h !! id with Some o => negb (o_exotic o) && o_tag o | None => false end | _ => false end.

Definition host_bridge_error_from_rejection (v : Val) : G (option RunError) :=
  h ← get_heap;
  if has_tag v h then
    name ← error_name_from_value v;
    message ← error_message_from_value v;
    fields ← error_fields_from_value v;
    mret (Some (HostBridge (mk_BridgeErrorPayload (default "Error"%string name) (default "host handler failed"%string message) fields)))
  else mret None.

Definition PREFIX_BRIDGE_CALL_MARKER : string := "__iso4_prefix_bridge_call".

Definition prefix_bridge_call_from_value (v : Val) : G (option RunError) :=
  marked ← has_own_property v (v8_string PREFIX_BRIDGE_CALL_MARKER);
  if (marked : bool) then
    message ← error_message_from_value v;
    mret (Some (PrefixBridgeCall (default "bridge call during prepare()"%string message)))
  else mret None.

(** [reject_with_bridge_error]: the value of the returned, rejected promise;
    [None]: no promise could be made, and an exception is thrown instead. *)
Definition reject_with_bridge_error (can_resolve : bool) (message : string) : G (option Val) :=
  error ← host_bridge_error_to_v8 (mk_BridgeErrorPayload "Error" ("[iso4] " +:+ message) None);
  if can_resolve then mret (Some error) else set_heap (fun h => with_caught h (Some Exception));; mret None.
End Thrown.

(** ** Reasoning about computations

    [triple I Q m]: [m] keeps the invariant [I] and its result satisfies [Q]. *)

Definition triple (I : Heap -> Prop) {A} (Q : A -> Prop) (m : G A) : Prop := forall h, I h -> I (m h).1 /\ Q (m h).2.
Definition opt {A} (Q : A -> Prop) (a : option A) : Prop := match a with Some a => Q a | None => True end.

Section Triples.
Context (I : Heap -> Prop).

Lemma triple_ret {A} (Q : A -> Prop) a : Q a -> triple I Q (mret a).
Proof. intros HQ h Hh. by split. Qed.

Lemma triple_bind {A B} (Q : A -> Prop) (R : B -> Prop) (m : G A) (f : A -> G B) :
  triple I Q m -> (forall a, Q a -> triple I R (f a)) -> triple I R (m ≫= f).
Proof. intros Hm Hf h Hh. destruct (Hm h Hh) as [H1 H2]. unfold mbind, G_bind. destruct (m h) as [h' a]. by apply Hf. Qed.

Lemma triple_obind {A B} (Q : A -> Prop) (R : B -> Prop) (m : G (option A)) (f : A -> G (option B)) :
  triple I (opt Q) m -> (forall a, Q a -> triple I (opt R) (f a)) -> triple I (opt R) (obind m f).
Proof. intros Hm Hf. unfold obind. eapply triple_bind; [exact Hm|]. intros [a|] Ha; [by apply Hf|by apply triple_ret]. Qed.

Lemma triple_mono {A} (Q R : A -> Prop) (m : G A) : (forall a, Q a -> R a) -> triple I Q m -> triple I R m.
Proof. intros HQ Hm h Hh. destruct (Hm h Hh). auto. Qed.

Lemma triple_get : triple I I get_heap.
Proof. by intros h Hh. Qed.

Lemma triple_set (f : Heap -> Heap) : (forall h, I h -> I (f h)) -> triple I (fun _ => True) (set_heap f).
Proof. intros Hf h Hh. split; [by apply Hf|done]. Qed.
End Triples.

Ltac triple_step :=
  match goal with
  | |- triple _ _ (mret _) => apply triple_ret
  | |- triple _ _ (obind _ _) => eapply triple_obind; [|intros]
  | |- triple _ _ (_ ≫= _) => eapply triple_bind; [|intros]
  | |- triple ?I _ get_heap => apply (triple_get I)
  end.

(** ** The text of a thrown value is bounded

    [js_string]: what V8 can hold in a string. *)

Definition js_string (us : list Z) : Prop := units_ok us /\ zlen us < 10 ^ 10.
Definition val_ok (v : Val) : Prop := match v with Str us => js_string us | _ => True end.
Definition slot_ok (p : Key * Property) : Prop := match p_slot p.2 with Data v => val_ok v | Accessor => True end.
Definition strings_ok (h : Heap) : Prop := forall id o, objs h !! id = Some o -> Forall slot_ok (o_props o).

(** Every string guest code and V8 hand over is a string V8 can hold. *)
Record JsStrings (js : Js) : Prop := {
  js_get v n : val_ok v -> triple strings_ok (opt val_ok) (get_trap js v n);
  js_keys id : triple strings_ok (opt (fun _ => True)) (keys_trap js id);
  js_text v : val_ok v -> triple strings_ok (opt js_string) (string_trap js v);
  js_ser v : val_ok v -> triple strings_ok (opt (fun _ => True)) (serialize js v);
}.

(** Text the wire's clamp leaves alone. *)
Definition fits (t : string) : Prop := str_ok t /\ clamp_error_text t = t.

Lemma take_units_ok n us : units_ok us -> units_ok (trim_lead (take n us)).
Proof.
  intros H. assert (Ht : units_ok (take n us)) by by apply Forall_take. unfold trim_lead. destruct (last (take n us)) as [u|]; [|done].
  destruct (lead u); [|done]. revert Ht. induction (take n us) as [|x l IH]; [done|]. intros [Hx Hl]%Forall_cons.
  destruct l; [constructor|]. constructor; [done|]. by apply IH.
Qed.

Lemma capped_fits us : js_string us -> fits (capped_units us ERROR_TEXT_BYTES).
Proof.
  intros [Hu Hl]. split; [|apply capped_text_not_clamped; lia]. unfold capped_units.
  assert (Ho : str_ok (if zlen us <=? MAX_UNITS then utf16_lossy us else utf16_lossy (trim_lead (take (Z.to_nat MAX_UNITS) us)))).
  { destruct (zlen us <=? MAX_UNITS); apply utf16_lossy_ok; [done|by apply take_units_ok]. }
  revert Ho. generalize (if zlen us <=? MAX_UNITS then utf16_lossy us else utf16_lossy (trim_lead (take (Z.to_nat MAX_UNITS) us))).
  intros out Ho. unfold Errors.capped_text_lossy. destruct ((zlen us <=? MAX_UNITS) && (blen out <=? ERROR_TEXT_BYTES)); [done|].
  assert (Hm : str_ok ("… [truncated by iso4: " +:+ show (zlen us) +:+ " UTF-16 units total]")).
  { apply str_ok_app; [reflexivity|]. apply str_ok_app; [apply ascii_text_ok, show_ascii|reflexivity]. }
  destruct (blen out <=? ERROR_TEXT_BYTES); [|rewrite Nat2Z.id; by apply cut_ok].
  rewrite Nat2Z.id. apply str_ok_app; [|done]. unfold str_ok. rewrite as_of_bytes, take_ge by lia. exact Ho.
Qed.

Section Bounded.
Context (js : Js) (Hjs : JsStrings js).

Lemma get_ok v n : val_ok v -> triple strings_ok (opt val_ok) (get js v n).
Proof.
  intros Hv. destruct v; cbn [get]; try (by apply triple_ret); try (by apply js_get).
  triple_step; [apply triple_get|]. destruct (objs a !! id) as [o|] eqn:Ho; [|by apply js_get].
  destruct (o_exotic o); [by apply js_get|]. destruct (own (o_props o) n) as [[e [x|]]|] eqn:Ep; try by apply js_get.
  apply triple_ret. unfold own in Ep. apply fmap_Some in Ep as ([i p] & Hf & Hp). apply list_find_Some in Hf as (Hl & _).
  pose proof (H id o Ho) as Hs. rewrite Forall_lookup in Hs. specialize (Hs _ _ Hl). unfold slot_ok in Hs. cbn in *. by rewrite <- Hp in Hs.
Qed.

Lemma text_of_ok v : val_ok v -> triple strings_ok (opt fits) (text_of js v).
Proof.
  intros Hv. unfold text_of. eapply (triple_obind _ js_string).
  - destruct v; cbn [to_string]; try (by apply triple_ret); by apply js_text.
  - intros us Hu. apply triple_ret. by apply capped_fits.
Qed.

Lemma own_names_ok id : triple strings_ok (opt (fun _ => True)) (own_names js id).
Proof.
  unfold own_names. triple_step; [apply triple_get|]. destruct (objs a !! id) as [o|]; [|by apply js_keys].
  destruct (o_exotic o); [by apply js_keys|by apply triple_ret].
Qed.

Lemma put_own_slots key p props : slot_ok (key, p) -> Forall slot_ok props -> Forall slot_ok (put_own key p props).
Proof.
  intros Hp. induction props as [|q props IH]; cbn; [by repeat constructor|]. intros [Hq Hr]%Forall_cons.
  destruct (decide _); constructor; auto.
Qed.

Lemma create_ok id key v : val_ok v -> triple strings_ok (fun _ => True) (create_data_property id key v).
Proof.
  intros Hv. apply triple_set. intros h Hh i o. unfold with_objs. cbn [objs]. destruct (decide (i = id)) as [->|Hne].
  - rewrite lookup_alter_eq. intros Ho.
    destruct (objs h !! id) as [o0|] eqn:E; [|done]. injection Ho as <-. apply put_own_slots; [done|by eapply Hh].
  - rewrite lookup_alter_ne by done. apply Hh.
Qed.

Lemma new_object_ok o : Forall slot_ok (o_props o) -> triple strings_ok (fun _ => True) (new_object o).
Proof.
  intros Ho. unfold new_object. triple_step; [apply triple_get|]. triple_step; [|by apply triple_ret].
  apply triple_set. intros h Hh i o'. cbn [objs]. destruct (decide (i = next_id h)) as [->|Hne].
  - rewrite lookup_insert_eq. by intros [= <-].
  - rewrite lookup_insert_ne by done. apply Hh.
Qed.

Lemma copy_keys_ok source target skip names : triple strings_ok (fun _ => True) (copy_keys js source target skip names).
Proof.
  induction names as [|key names IH]; cbn [copy_keys]; [by apply triple_ret|]. eapply (triple_bind _ (fun _ => True)); [|by intros].
  destruct (decide _); [by apply triple_ret|]. destruct (is_name key); [|by apply triple_ret].
  triple_step; [by apply (get_ok (Ref source))|]. destruct a; [by apply create_ok|by apply triple_ret].
Qed.

Lemma copy_ok source target skip : triple strings_ok (fun _ => True) (copy_own_properties_except js source target skip).
Proof.
  unfold copy_own_properties_except. triple_step; [apply own_names_ok|]. destruct a; [apply copy_keys_ok|by apply triple_ret].
Qed.

Lemma keep_ok fields kept any names : triple strings_ok (opt (fun _ => True)) (keep_serializable js fields kept any names).
Proof.
  revert any. induction names as [|key names IH]; intros any; cbn [keep_serializable]; [by apply triple_ret|].
  triple_step; [apply triple_get|]. destruct (reason_set a); [by apply triple_ret|]. destruct (is_name key); [|apply IH].
  triple_step; [by apply (get_ok (Ref fields))|]. destruct a0 as [prop|]; [|apply IH].
  triple_step; [by apply js_ser|]. destruct a0; [|apply IH]. eapply (triple_bind _ (fun _ => True)); [by apply create_ok|intros; apply IH].
Qed.

Lemma error_fields_ok v : triple strings_ok (opt (fun _ => True)) (error_fields_from_value js v).
Proof.
  destruct v; cbn [error_fields_from_value]; try by apply triple_ret.
  eapply (triple_bind _ (fun _ => True)); [by apply new_object_ok; constructor|intros fields _].
  eapply (triple_bind _ (fun _ => True)); [apply copy_ok|intros _ _].
  triple_step; [apply own_names_ok|]. destruct a as [|k ks]; [by apply triple_ret|].
  triple_step; [by apply js_ser|]. destruct a; [by apply triple_ret|].
  eapply (triple_bind _ (fun _ => True)); [by apply new_object_ok; constructor|intros kept _].
  triple_step; [apply keep_ok|]. destruct a; [by apply js_ser|by apply triple_ret].
Qed.

Lemma name_ok v : val_ok v -> triple strings_ok (opt fits) (error_name_from_value js v).
Proof.
  intros Hv. unfold error_name_from_value. triple_step; [by apply get_ok|]. destruct a; try (by apply triple_ret). by apply text_of_ok.
Qed.

Lemma text_slot_ok v n :
  val_ok v -> triple strings_ok (opt fits) (x ?← get js v n; match x with Undefined | Null => mret None | _ => text_of js x end).
Proof. intros Hv. triple_step; [by apply get_ok|]. destruct a; first [by apply triple_ret | by apply text_of_ok]. Qed.

Lemma fits_literals : Forall fits ["Error"; "JavaScript error"]%string.
Proof. repeat constructor; vm_compute; reflexivity. Qed.

(** C33. What a guest throws reaches the host as bounded text: whatever the value - its
    properties may be accessors, it may be a proxy, its [toString] may throw or be
    gigantic - it becomes a user-code error whose name, message and stack are valid
    text within the limit of the wire, so that they are cut once, at the source. *)
Theorem thrown_text_bounded v h e :
  val_ok v -> strings_ok h -> snd (runtime_error_from_value js v h) = e ->
  exists d, e = RuntimeError d /\ fits (rt_name d) /\ fits (rt_message d) /\ opt fits (rt_stack d).
Proof.
  intros Hv Hh <-. pose proof fits_literals as Hl. inversion Hl as [|? ? HE Hl']; subst. inversion Hl' as [|? ? HJ _]; subst.
  assert (Ht : triple strings_ok (fun d => fits (rt_name d) /\ fits (rt_message d) /\ opt fits (rt_stack d)) (runtime_error_data js v)).
  { unfold runtime_error_data. eapply triple_bind; [by apply name_ok|intros name Hname].
    eapply triple_bind; [by apply (text_slot_ok v (v8_string "message"))|intros m Hm].
    eapply (triple_bind _ (opt fits)); [destruct m; [by apply triple_ret|by apply text_of_ok]|intros m' Hm'].
    eapply triple_bind; [by apply (text_slot_ok v (v8_string "stack"))|intros st Hst].
    eapply triple_bind; [apply error_fields_ok|intros f _]. apply triple_ret. cbn. split; [by destruct name|]. split; [by destruct m'|done]. }
  destruct (Ht h Hh) as [_ Hd]. unfold runtime_error_from_value, mbind, G_bind. destruct (runtime_error_data js v h) as [h' d]. by exists d.
Qed.
End Bounded.

(** ** What travels in an error's fields *)

(** Guest code has no reference to the runtime's own objects, and identities are
    not reused. *)
Definition untouched (i : Z) (o : Obj) (h : Heap) : Prop := objs h !! i = Some o /\ o_native o = true /\ i < next_id h.
Definition keeps {A} (m : G A) : Prop := forall i o, triple (untouched i o) (fun _ => True) m.

Record JsFrame (js : Js) : Prop := {
  fr_get v n : keeps (get_trap js v n);
  fr_keys id : keeps (keys_trap js id);
  fr_ser v : keeps (serialize js v);
}.

(** A field that may travel. *)
Definition travels (key : Key) : bool := is_name key && bool_decide (utf16_lossy (key_units key) ∉ RESERVED_ERROR_KEYS).
Definition fields_only (o : Obj) : Prop :=
  o_native o = true /\ o_exotic o = false /\ Forall (fun p => travels p.1 = true /\ exists v, p.2 = mk_Property true (Data v)) (o_props o).

Section Fields.
Context (js : Js) (Hjs : JsFrame js).

(** The runtime's object [i] holds only fields that may travel. *)
Definition clean (i : Z) (h : Heap) : Prop := exists o, fields_only o /\ untouched i o h.

Lemma clean_keeps {A} i (m : G A) : keeps m -> triple (clean i) (fun _ => True) m.
Proof. intros Hm h (o & Ho & Hu). destruct (Hm i o h Hu) as [H _]. split; [by exists o|done]. Qed.

Lemma keeps_ret {A} (a : A) : keeps (mret a).
Proof. intros i o. by apply triple_ret. Qed.
Lemma keeps_bind {A B} (m : G A) (f : A -> G B) : keeps m -> (forall a, keeps (f a)) -> keeps (m ≫= f).
Proof. intros Hm Hf i o. eapply triple_bind; [apply Hm|intros a _; apply Hf]. Qed.
Lemma keeps_heap : keeps get_heap.
Proof. by intros i o h Hh. Qed.

Lemma get_keeps v n : keeps (get js v n).
Proof.
  destruct v; cbn [get]; try apply keeps_ret; try by apply fr_get.
  apply keeps_bind; [apply keeps_heap|intros h]. destruct (objs h !! id) as [o|]; [|by apply fr_get].
  destruct (o_exotic o); [by apply fr_get|]. destruct (own _ _) as [[e [x|]]|]; first [apply keeps_ret | by apply fr_get].
Qed.

Lemma own_names_keeps id : keeps (own_names js id).
Proof.
  apply keeps_bind; [apply keeps_heap|intros h]. destruct (objs h !! id) as [o|]; [|by apply fr_keys].
  destruct (o_exotic o); [by apply fr_keys|apply keeps_ret].
Qed.

Lemma put_own_fields key v props :
  travels key = true -> Forall (fun p => travels p.1 = true /\ exists v, p.2 = mk_Property true (Data v)) props ->
  Forall (fun p => travels p.1 = true /\ exists v, p.2 = mk_Property true (Data v)) (put_own key (mk_Property true (Data v)) props).
Proof.
  intros Hk. induction props as [|q props IH]; cbn; [repeat constructor; [done|by exists v]|]. intros [[Hq1 Hq] Hr]%Forall_cons.
  destruct (decide _); constructor; auto. split; [done|by exists v].
Qed.

Lemma create_clean i key v : travels key = true -> triple (clean i) (fun _ => True) (create_data_property i key v).
Proof.
  intros Hk. apply triple_set. intros h (o & (Hn & He & Hp) & Ho & _ & Hi). unfold clean, with_objs, untouched. cbn [objs next_id].
  rewrite lookup_alter_eq, Ho. eexists. split; [|split; [reflexivity|by split]]. split; [done|]. split; [done|]. by apply put_own_fields.
Qed.

Lemma new_object_clean i : triple (clean i) (fun j => i < j) (new_object plain_object).
Proof.
  intros h (o & Ho & Hl & Hn & Hi). unfold new_object, get_heap, set_heap, mbind, G_bind, mret, G_ret. split; [|exact Hi].
  exists o. split; [done|]. split; [|split; [done|cbn [fst next_id]; lia]]. cbn [fst objs]. by rewrite lookup_insert_ne by lia.
Qed.

Lemma new_object_is_clean h : let '(h', i) := new_object plain_object h in clean i h'.
Proof.
  unfold new_object, get_heap, set_heap, mbind, G_bind, mret, G_ret. exists plain_object. split; [repeat split; constructor|].
  split; [apply lookup_insert_eq|]. split; [done|cbn [next_id]; lia].
Qed.

Lemma travels_true key : is_name key = true -> utf16_lossy (key_units key) ∉ RESERVED_ERROR_KEYS -> travels key = true.
Proof. intros H1 H2. unfold travels. rewrite H1. by apply bool_decide_eq_true. Qed.

Lemma copy_keys_clean source target names : triple (clean target) (fun _ => True) (copy_keys js source target RESERVED_ERROR_KEYS names).
Proof.
  induction names as [|key names IH]; cbn [copy_keys]; [by apply triple_ret|]. eapply (triple_bind _ (fun _ => True)); [|by intros].
  destruct (decide _) as [|Hr]; [by apply triple_ret|]. destruct (is_name key) eqn:En; [|by apply triple_ret].
  eapply triple_bind; [apply clean_keeps, get_keeps|intros [x|] _; [|by apply triple_ret]]. apply create_clean. by apply travels_true.
Qed.

Lemma copy_clean source target : triple (clean target) (fun _ => True) (copy_own_properties_except js source target RESERVED_ERROR_KEYS).
Proof.
  eapply triple_bind; [apply clean_keeps, own_names_keeps|intros [names|] _; [apply copy_keys_clean|by apply triple_ret]].
Qed.

(** The names of a clean object may travel. *)
Lemma clean_names i h : clean i h -> exists names, own_names js i h = (h, Some names) /\ Forall (fun k => travels k = true) names.
Proof.
  intros (o & (_ & He & Hp) & Ho & _). unfold own_names, get_heap, mbind, G_bind, mret, G_ret. rewrite Ho, He. eexists. split; [reflexivity|].
  apply Forall_map. apply Forall_forall. intros p [_ Hin]%list_elem_of_filter. rewrite Forall_forall in Hp. by apply Hp.
Qed.

Lemma keep_clean fields kept any names :
  Forall (fun k => travels k = true) names -> triple (clean kept) (fun _ => True) (keep_serializable js fields kept any names).
Proof.
  intros Hn. revert any. induction Hn as [|key names Hk Hn IH]; intros any; cbn [keep_serializable]; [by apply triple_ret|].
  eapply triple_bind; [apply clean_keeps, keeps_heap|intros h0 _]. destruct (reason_set h0); [by apply triple_ret|].
  destruct (is_name key); [|apply IH]. eapply triple_bind; [apply clean_keeps, get_keeps|intros [prop|] _; [|apply IH]].
  eapply triple_bind; [apply clean_keeps; by apply fr_ser|intros [b|] _; [|apply IH]].
  eapply triple_bind; [by apply create_clean|intros _ _; apply IH].
Qed.

Lemma run_triple {A} I (Q : A -> Prop) (m : G A) h : triple I Q m -> I h -> exists h' a, m h = (h', a) /\ I h' /\ Q a.
Proof. intros Hm Hh. destruct (Hm h Hh) as [H1 H2]. destruct (m h) as [h' a] eqn:E. by exists h', a. Qed.

(** Nothing a guest does lets its error forge what identifies one: whatever the
    thrown value, the blob of fields that travels is V8's serialization of an object
    of the runtime's own - no proxy, no accessors, out of the guest's reach - whose
    keys are names other than [name], [message], [stack] and [__proto__]. *)
Theorem reserved_keys_never_travel v h h' bytes :
  error_fields_from_value js v h = (h', Some bytes) ->
  exists i o hs, fields_only o /\ objs hs !! i = Some o /\ serialize js (Ref i) hs = (h', Some bytes).
Proof.
  destruct v; cbn [error_fields_from_value]; try discriminate. unfold mbind at 1, G_bind at 1.
  pose proof (new_object_is_clean h) as Hc. destruct (new_object plain_object h) as [h1 i].
  destruct (run_triple _ _ _ h1 (copy_clean id i) Hc) as (h2 & [] & E2 & C2 & _). unfold mbind at 1, G_bind at 1. rewrite E2.
  destruct (clean_names i h2 C2) as (names & E3 & Hn). unfold obind at 1. unfold mbind at 1, G_bind at 1. rewrite E3.
  destruct names as [|k ks]; [discriminate|]. unfold mbind at 1, G_bind at 1. destruct (serialize js (Ref i) h2) as [h3 [b|]] eqn:E4.
  { intros [= <- <-]. destruct C2 as (o & Ho & Hl & _). by exists i, o, h2. }
  unfold mbind at 1, G_bind at 1.
  pose proof (new_object_is_clean h3) as Hk. destruct (new_object plain_object h3) as [h4 j].
  destruct (run_triple _ _ _ h4 (keep_clean i j false (k :: ks) Hn) Hk) as (h5 & any & E5 & C5 & _). unfold obind, mbind, G_bind. rewrite E5.
  destruct any as [[]|]; [|discriminate|discriminate]. intros Hs. destruct C5 as (o & Ho & Hl & _). by exists j, o, h5.
Qed.
End Fields.

(** ** Copying plain objects *)

Definition with_props (o : Obj) (ps : list (Key * Property)) : Obj := mk_Obj (o_kind o) (o_class o) (o_exotic o) ps (o_tag o) (o_native o).
Definition keys_of (ps : list (Key * Property)) : list (list Z) := map (fun p => key_units p.1) ps.

(** What travels of an object's properties. *)
Definition carried (ps : list (Key * Property)) : list (Key * Property) := filter (fun p => p_enum p.2 = true /\ travels p.1 = true) ps.
Definition plain_props (ps : list (Key * Property)) : Prop :=
  NoDup (keys_of ps) /\ Forall (fun p => exists v, p.2 = mk_Property true (Data v)) (carried ps).

Lemma own_cons p props k : own (p :: props) k = if decide (key_units p.1 = k) then Some p.2 else own props k.
Proof. unfold own. cbn. destruct (decide _); [done|]. by destruct (list_find _ props) as [[]|]. Qed.

Lemma own_none props k : own props k = None <-> k ∉ keys_of props.
Proof.
  induction props as [|p props IH]; [split; [intros _; apply not_elem_of_nil|done]|]. rewrite own_cons. cbn. rewrite not_elem_of_cons, <- IH.
  destruct (decide _) as [<-|Hne]; [split; [done|intros [Hk _]; done]|]. split; [intros H; split; [congruence|done]|by intros [_ ?]].
Qed.

Lemma own_in props p : NoDup (keys_of props) -> p ∈ props -> own props (key_units p.1) = Some p.2.
Proof.
  induction props as [|q props IH]; [by intros _ ?%elem_of_nil|]. intros [Hq Hn]%NoDup_cons. rewrite own_cons.
  intros [->|Hp]%elem_of_cons; [by destruct (decide _)|]. destruct (decide _) as [E|]; [|by apply IH].
  exfalso. apply Hq. rewrite E. unfold keys_of. by apply (list_elem_of_fmap_2 (fun p => key_units p.1)).
Qed.

Lemma put_own_fresh key p props : key_units key ∉ keys_of props -> put_own key p props = props ++ [(key, p)].
Proof.
  induction props as [|q props IH]; [done|]. cbn. rewrite not_elem_of_cons. intros [Hne Hr]. destruct (decide _); [congruence|]. by rewrite IH.
Qed.

Lemma carried_in p ps : p ∈ carried ps -> p ∈ ps /\ p_enum p.2 = true /\ travels p.1 = true.
Proof. unfold carried. rewrite list_elem_of_filter. tauto. Qed.

Lemma carried_again ps : Forall (fun p => travels p.1 = true /\ exists v, p.2 = mk_Property true (Data v)) ps -> carried ps = ps.
Proof.
  induction 1 as [|p ps [Ht (v & Hv)] _ IH]; [done|]. unfold carried in *. rewrite filter_cons, IH. rewrite decide_True; [done|]. by rewrite Hv.
Qed.

Lemma travels_false key : travels key = false -> utf16_lossy (key_units key) ∈ RESERVED_ERROR_KEYS \/ is_name key = false.
Proof. unfold travels. destruct (is_name key); [|by right]. cbn. rewrite bool_decide_eq_false. intros H. left. by apply dec_stable. Qed.

Lemma travels_inv key : travels key = true -> is_name key = true /\ utf16_lossy (key_units key) ∉ RESERVED_ERROR_KEYS.
Proof. unfold travels. intros [? H%bool_decide_eq_true]%andb_prop. done. Qed.

Section Plain.
Context (js : Js).

Lemma copy_keys_plain source target so qs :
  o_exotic so = false -> source <> target -> NoDup (keys_of qs) ->
  Forall (fun q => own (o_props so) (key_units q.1) = Some q.2 /\ p_enum q.2 = true /\ (travels q.1 = true -> exists v, q.2 = mk_Property true (Data v))) qs ->
  forall h to, objs h !! source = Some so -> objs h !! target = Some to ->
  (forall q, q ∈ carried qs -> key_units q.1 ∉ keys_of (o_props to)) ->
  copy_keys js source target RESERVED_ERROR_KEYS (map fst qs) h =
    (with_objs h (<[target := with_props to (o_props to ++ carried qs)]> (objs h)), tt).
Proof.
  intros He Hst. induction qs as [|q qs IH]; intros Hnd Hf h to Hs Ht Hfr.
  { cbn. unfold mret, G_ret. rewrite app_nil_r. f_equal. destruct h as [m n r c]. unfold with_objs. cbn in *. f_equal.
    destruct to; unfold with_props; cbn. by rewrite insert_id. }
  apply NoDup_cons in Hnd as [Hq Hnd]. apply Forall_cons in Hf as [(Ho & Hen & Hd) Hf]. cbn [map copy_keys]. unfold mbind at 1, G_bind at 1.
  destruct (travels q.1) eqn:Etr.
  - destruct (travels_inv _ Etr) as [En Er]. destruct (Hd eq_refl) as [v Hv]. rewrite decide_False, En by done.
    assert (Hget : get js (Ref source) (key_units q.1) h = (h, Some v)).
    { cbn [get]. unfold get_heap, mbind, G_bind. by rewrite Hs, He, Ho, Hv. }
    unfold mbind at 1, G_bind at 1. rewrite Hget. unfold create_data_property, set_heap. unfold carried in *.
    rewrite filter_cons, decide_True in * by done.
    assert (Hnew : key_units q.1 ∉ keys_of (o_props to)) by (apply Hfr; left).
    set (to' := with_props to (o_props to ++ [q])).
    assert (Ha : alter (fun o => mk_Obj (o_kind o) (o_class o) (o_exotic o) (put_own q.1 (mk_Property true (Data v)) (o_props o)) (o_tag o) (o_native o)) target (objs h)
      = <[target := to']> (objs h)).
    { apply map_eq. intros j. destruct (decide (j = target)) as [->|Hne]; [|by rewrite lookup_alter_ne, lookup_insert_ne].
      rewrite lookup_alter_eq, lookup_insert_eq, Ht. cbn. rewrite put_own_fresh by done. unfold to', with_props. by rewrite <- Hv, <- surjective_pairing. }
    rewrite Ha, (IH Hnd Hf (with_objs h (<[target := to']> (objs h))) to').
    + unfold with_objs. cbn. rewrite insert_insert_eq. unfold to', with_props. cbn. by rewrite <- app_assoc.
    + cbn. by rewrite lookup_insert_ne.
    + cbn. by rewrite lookup_insert_eq.
    + intros p Hp. unfold to', with_props. cbn. unfold keys_of. rewrite map_app. intros [Hin|Hin]%elem_of_app.
      * revert Hin. apply Hfr. by right.
      * cbn in Hin. apply list_elem_of_singleton in Hin. apply Hq. rewrite <- Hin. apply list_elem_of_filter in Hp as [_ Hp].
        unfold keys_of. by apply (list_elem_of_fmap_2 (fun p => key_units p.1)).
  - assert (Hc : carried (q :: qs) = carried qs) by (unfold carried; rewrite filter_cons, decide_False; [done|intros [_ ?]; congruence]).
    rewrite Hc in *. destruct (travels_false _ Etr) as [Hr|Hn].
    + rewrite decide_True by done. cbn [mret]. unfold G_ret. by apply IH.
    + destruct (decide _); [cbn [mret]; unfold G_ret; by apply IH|]. rewrite Hn. cbn [mret]. unfold G_ret. by apply IH.
Qed.

Lemma keys_filter_nodup (P : Key * Property -> Prop) `{forall p, Decision (P p)} ps : NoDup (keys_of ps) -> NoDup (keys_of (filter P ps)).
Proof. intros Hn. apply (sublist_NoDup _ (keys_of ps)); [exact Hn|]. apply (fmap_sublist (fun p => key_units p.1)), sublist_filter. Qed.

Lemma copy_plain source target so to h :
  o_exotic so = false -> source <> target -> plain_props (o_props so) -> objs h !! source = Some so -> objs h !! target = Some to ->
  (forall q, q ∈ carried (o_props so) -> key_units q.1 ∉ keys_of (o_props to)) ->
  copy_own_properties_except js source target RESERVED_ERROR_KEYS h =
    (with_objs h (<[target := with_props to (o_props to ++ carried (o_props so))]> (objs h)), tt).
Proof.
  intros He Hst [Hnd Hd] Hs Ht Hfr. unfold copy_own_properties_except, own_names, get_heap, mbind, G_bind. rewrite Hs, He. unfold mret, G_ret.
  assert (Hc : carried (filter (fun p => p_enum p.2 = true) (o_props so)) = carried (o_props so)).
  { unfold carried. clear. induction (o_props so) as [|p ps IH]; [done|]. rewrite !filter_cons.
    destruct (decide (p_enum p.2 = true)); [rewrite filter_cons; repeat destruct (decide _); naive_solver congruence|].
    destruct (decide _); naive_solver. }
  rewrite (copy_keys_plain source target so (filter (fun p => p_enum p.2 = true) (o_props so)) He Hst (keys_filter_nodup _ _ Hnd)) with (to := to);
    [by rewrite Hc| |done|done|by rewrite Hc].
  apply Forall_forall. intros p [Hp Hin]%list_elem_of_filter. split; [by apply own_in|]. split; [done|]. intros Htr.
  rewrite Forall_forall in Hd. apply Hd. unfold carried. by apply list_elem_of_filter.
Qed.
End Plain.

(** ** A host handler's error, there and back *)

Lemma capped_short s : str_ok s -> blen s <= ERROR_TEXT_BYTES -> capped_units (v8_string s) ERROR_TEXT_BYTES = s.
Proof.
  intros Hs Hl. unfold capped_units, Errors.capped_text_lossy. pose proof (units_length (as_bytes s)) as Hu. fold (v8_string s) in Hu.
  assert (Hle : zlen (v8_string s) <=? MAX_UNITS = true) by (unfold MAX_UNITS, ERROR_TEXT_BYTES, MAX_ERROR_TEXT_BYTES in *; lia).
  rewrite Hle, (v8_string_back s Hs). cbn [andb]. by rewrite (proj2 (Z.leb_le _ _) Hl).
Qed.

(** An unmodified realm, and a serializer that reads an object's properties:
    [ser_obj] gives the blob of an object with those properties. *)
Record Realm (js : Js) (ser_obj : list (Key * Property) -> option (list byte)) : Prop := {
  class_name id o h : objs h !! id = Some o -> o_exotic o = false -> o_kind o = ErrorObject ->
    own (o_props o) (v8_string "name") = None -> get_trap js (Ref id) (v8_string "name") h = (h, Some (Str (v8_string (o_class o))));
  no_setter id v h : inherited_set js id (v8_string "name") v h = None;
  serializer i o h : objs h !! i = Some o -> fields_only o -> serialize js (Ref i) h = (h, ser_obj (o_props o));
}.

(** The blob of a payload's fields: a plain object of fields that may travel. *)
Definition blob_of (js : Js) (ser_obj : list (Key * Property) -> option (list byte)) (bytes : list byte) : Prop :=
  exists ps, ps <> [] /\ NoDup (keys_of ps) /\ ser_obj ps = Some bytes /\
    Forall (fun p => travels p.1 = true /\ exists v, p.2 = mk_Property true (Data v)) ps /\
    forall h, exists h' id o, deserialize js bytes h = (h', Some (Ref id)) /\ objs h' !! id = Some o /\ o_exotic o = false /\
      o_native o = false /\ o_props o = ps /\ forall i oo, untouched i oo h -> untouched i oo h'.

Section HostErrors.
Context (js : Js) (ser_obj : list (Key * Property) -> option (list byte)) (Hr : Realm js ser_obj).

(** Fields of an error whose own enumerable properties are plain. *)
Lemma plain_fields e eo h :
  objs h !! e = Some eo -> o_exotic eo = false -> e <> next_id h -> plain_props (o_props eo) ->
  carried (o_props eo) = [] \/ is_Some (ser_obj (carried (o_props eo))) ->
  snd (error_fields_from_value js (Ref e) h) = match carried (o_props eo) with [] => None | ps => ser_obj ps end.
Proof.
  intros He Hx Hne Hp Hs. cbn [error_fields_from_value]. set (h1 := mk_Heap (<[next_id h := plain_object]> (objs h)) (next_id h + 1) (reason_set h) (caught h)).
  assert (E1 : new_object plain_object h = (h1, next_id h)) by reflexivity.
  unfold mbind at 1, G_bind at 1. rewrite E1.
  assert (H1 : objs h1 !! e = Some eo) by (unfold h1; cbn; by rewrite lookup_insert_ne).
  assert (H2 : objs h1 !! next_id h = Some plain_object) by (unfold h1; cbn; by rewrite lookup_insert_eq).
  unfold mbind at 1, G_bind at 1.
  rewrite (copy_plain js e (next_id h) eo plain_object h1 Hx Hne Hp H1 H2) by (intros; apply not_elem_of_nil). cbn [o_props plain_object app].
  set (h2 := with_objs h1 _). set (ps := carried (o_props eo)).
  assert (H3 : objs h2 !! next_id h = Some (with_props plain_object ps)) by apply lookup_insert_eq.
  assert (Hps : Forall (fun p => travels p.1 = true /\ exists v, p.2 = mk_Property true (Data v)) ps).
  { destruct Hp as [_ Hd]. rewrite Forall_forall in *. intros p Hin. split; [by apply carried_in in Hin as (_ & _ & ?)|by apply Hd]. }
  assert (Hn : own_names js (next_id h) h2 = (h2, Some (map fst ps))).
  { unfold own_names, get_heap, mbind, G_bind, mret, G_ret. rewrite H3. cbn [o_exotic with_props plain_object o_props]. do 2 f_equal.
    clear -Hps. induction Hps as [|p ps [_ (v & Hv)] _ IH]; [done|]. rewrite filter_cons, decide_True by by rewrite Hv. cbn. by rewrite IH. }
  unfold obind at 1. unfold mbind at 1, G_bind at 1. rewrite Hn. destruct ps as [|p ps'] eqn:Eps; [done|]. cbn [map].
  assert (Hser : serialize js (Ref (next_id h)) h2 = (h2, ser_obj (p :: ps'))).
  { rewrite (serializer js ser_obj Hr _ _ _ H3); [done|]. by repeat split. }
  unfold mbind at 1, G_bind at 1. rewrite Hser. fold ps in Hs. rewrite Eps in Hs. destruct Hs as [|[b Hb]]; [done|]. by rewrite Hb.
Qed.

(** The object [host_bridge_error_to_v8] makes, before the payload's fields. *)
Definition named_error (err : BridgeErrorPayload) : Obj :=
  let o := exception_of (intrinsic_class (be_name err)) (be_message err) in
  if decide (be_name err ∈ INTRINSIC_ERROR_NAMES) then o
  else with_props o (o_props o ++ [(mk_Key true (v8_string "name"), mk_Property true (Data (Str (v8_string (be_name err)))))]).

Definition finished_error (err : BridgeErrorPayload) (ps : list (Key * Property)) : Obj :=
  mk_Obj ErrorObject (intrinsic_class (be_name err)) false (o_props (named_error err) ++ ps) true false.

Lemma named_keys err k : k ∈ keys_of (o_props (named_error err)) -> utf16_lossy k ∈ RESERVED_ERROR_KEYS.
Proof.
  unfold named_error. assert (Hs : utf16_lossy (v8_string "stack") ∈ RESERVED_ERROR_KEYS) by (vm_compute; set_solver).
  assert (Hm : utf16_lossy (v8_string "message") ∈ RESERVED_ERROR_KEYS) by (vm_compute; set_solver).
  assert (Hn : utf16_lossy (v8_string "name") ∈ RESERVED_ERROR_KEYS) by (vm_compute; set_solver).
  destruct (decide _); unfold keys_of; cbn -[v8_string utf16_lossy]; rewrite ?elem_of_cons; intros; destruct_or?; subst; try done; by apply elem_of_nil in H.
Qed.

Lemma named_carried err : carried (o_props (named_error err)) = [].
Proof.
  assert (Hno : forall p, p ∈ o_props (named_error err) -> travels p.1 = false).
  { intros p Hp. apply not_true_is_false. intros [_ Hres]%travels_inv. apply Hres, (named_keys err).
    by apply (list_elem_of_fmap_2 (fun p => key_units p.1)). }
  unfold carried. induction (o_props (named_error err)) as [|p ps IH]; [done|]. rewrite filter_cons, decide_False.
  - apply IH. intros q Hq. apply Hno. by right.
  - intros [_ Ht]. rewrite Hno in Ht by by left. done.
Qed.

Lemma named_nodup err : NoDup (keys_of (o_props (named_error err))).
Proof.
  unfold named_error, keys_of. destruct (decide _); cbn -[v8_string]; refine (bool_decide_unpack _ _); vm_compute; exact I.
Qed.

Lemma named_step err h :
  exists h2, (obj ← new_object (exception_of (intrinsic_class (be_name err)) (be_message err));
    (if decide (be_name err ∈ INTRINSIC_ERROR_NAMES) then mret tt else set_property js obj "name" (Str (v8_string (be_name err))));; mret obj) h
    = (h2, next_id h) /\ untouched (next_id h) (named_error err) h2.
Proof.
  set (o := exception_of (intrinsic_class (be_name err)) (be_message err)).
  set (h1 := mk_Heap (<[next_id h := o]> (objs h)) (next_id h + 1) (reason_set h) (caught h)).
  assert (H1 : objs h1 !! next_id h = Some o) by apply lookup_insert_eq.
  unfold mbind at 1, G_bind at 1. change (new_object o h) with (h1, next_id h). cbv beta iota.
  unfold named_error. fold o. destruct (decide (be_name err ∈ INTRINSIC_ERROR_NAMES)).
  { exists h1. split; [reflexivity|]. split; [done|]. split; [done|cbn; lia]. }
  assert (Hown : objs h1 !! next_id h ≫= (fun o => own (o_props o) (v8_string "name")) = None) by (rewrite H1; vm_compute; reflexivity).
  set (h2 := (create_data_property (next_id h) (mk_Key true (v8_string "name")) (Str (v8_string (be_name err))) h1).1).
  assert (Hset : set_property js (next_id h) "name" (Str (v8_string (be_name err))) h1 = (h2, tt)).
  { unfold set_property. rewrite (heap_bind _ _ _ _ _ (eq_refl : get_heap h1 = (h1, h1))). by rewrite Hown, (no_setter js ser_obj Hr). }
  rewrite (heap_bind _ _ _ _ _ Hset). exists h2. split; [reflexivity|].
  split; [|split; [done|cbn; lia]]. unfold h2, create_data_property, set_heap, with_objs. cbn [fst objs]. rewrite lookup_alter_eq, H1. cbn -[v8_string put_own].
  by rewrite put_own_fresh by (vm_compute; set_solver).
Qed.

Lemma error_made err h ps :
  (be_fields err = None /\ ps = []) \/
  (exists bytes, be_fields err = Some bytes /\ NoDup (keys_of ps) /\
    Forall (fun p => travels p.1 = true /\ exists v, p.2 = mk_Property true (Data v)) ps /\
    forall h, exists h' id o, deserialize js bytes h = (h', Some (Ref id)) /\ objs h' !! id = Some o /\ o_exotic o = false /\
      o_native o = false /\ o_props o = ps /\ forall i oo, untouched i oo h -> untouched i oo h') ->
  exists h', host_bridge_error_to_v8 js err h = (h', Ref (next_id h)) /\ objs h' !! next_id h = Some (finished_error err ps) /\ next_id h < next_id h'.
Proof.
  intros Hf. destruct (named_step err h) as (h2 & E2 & U2). unfold host_bridge_error_to_v8.
  assert (Hcut : forall (k : Z -> G Val), (obj ← new_object (exception_of (intrinsic_class (be_name err)) (be_message err));
    (if decide (be_name err ∈ INTRINSIC_ERROR_NAMES) then mret tt else set_property js obj "name" (Str (v8_string (be_name err))));; k obj) h = k (next_id h) h2).
  { intros k. revert E2. unfold mbind, G_bind. destruct (new_object _ h) as [ha i]. cbv beta iota. destruct (decide _).
    - unfold mret, G_ret. by intros [= -> ->].
    - destruct (set_property _ _ _ _ _) as [hb []]. unfold mret, G_ret. by intros [= -> ->]. }
  rewrite (Hcut (fun obj => _)). cbv beta.
  assert (Hend : forall h3, objs h3 !! next_id h = Some (with_props (named_error err) (o_props (named_error err) ++ ps)) -> next_id h < next_id h3 ->
    exists h', (set_private_tag (next_id h);; mret (Ref (next_id h)) : G Val) h3 = (h', Ref (next_id h)) /\
      objs h' !! next_id h = Some (finished_error err ps) /\ next_id h < next_id h').
  { intros h3 H3 Hn. eexists. split; [reflexivity|]. split; [|exact Hn]. cbn. rewrite lookup_alter_eq, H3. cbn. unfold finished_error, named_error.
    by destruct (decide _). }
  destruct U2 as (Ho & Hnat & Hlt). destruct Hf as [[Hf ->] | (bytes & Hf & Hnd & Hall & Hd)]; rewrite Hf.
  - apply (Hend h2); [|done]. rewrite app_nil_r. rewrite Ho. f_equal. by destruct (named_error err).
  - destruct (Hd h2) as (h3 & id & o & E3 & Hid & Hx & Hna & <- & Hkeep). destruct (Hkeep _ _ (conj Ho (conj Hnat Hlt))) as (Ho3 & _ & Hlt3).
    set (h4 := with_objs h3 (<[next_id h := with_props (named_error err) (o_props (named_error err) ++ o_props o)]> (objs h3))).
    assert (E4 : (fields ← deserialize js bytes;
      match fields with Some (Ref f) => copy_own_properties_except js f (next_id h) RESERVED_ERROR_KEYS | _ => mret tt end) h2 = (h4, tt)).
    { rewrite (heap_bind _ _ _ _ _ E3). rewrite (copy_plain js id (next_id h) o (named_error err) h3 Hx); [by rewrite carried_again by done|..|done|done|].
      + intros ->. rewrite Ho3 in Hid. injection Hid as <-. congruence.
      + split; [done|]. rewrite carried_again by done. eapply Forall_impl; [exact Hall|]. by intros p [_ ?].
      + intros q Hq Hin. apply carried_in in Hq as (_ & _ & Ht). apply travels_inv in Ht as [_ Ht]. by apply Ht, (named_keys err). }
    rewrite (heap_bind _ _ _ _ _ E4). apply Hend; [apply lookup_insert_eq|done].
Qed.

(** Fields the host sent: the properties they become travel, and are written as the same bytes. *)
Lemma fields_travel fields : opt (blob_of js ser_obj) fields ->
  exists ps, ((fields = None /\ ps = []) \/ (exists bytes, fields = Some bytes /\ NoDup (keys_of ps) /\
    Forall (fun p => travels p.1 = true /\ exists v, p.2 = mk_Property true (Data v)) ps /\
    forall h, exists h' id o, deserialize js bytes h = (h', Some (Ref id)) /\ objs h' !! id = Some o /\ o_exotic o = false /\
      o_native o = false /\ o_props o = ps /\ forall i oo, untouched i oo h -> untouched i oo h')) /\
    NoDup (keys_of ps) /\ Forall (fun p => travels p.1 = true /\ exists v, p.2 = mk_Property true (Data v)) ps /\
    fields = match ps with [] => None | _ => ser_obj ps end /\ (ps = [] \/ is_Some (ser_obj ps)).
Proof.
  destruct fields as [bytes|]; intros Hf.
  - destruct Hf as (ps & Hne & Hnd & Hs & Hall & Hd). exists ps. split; [right; by exists bytes|]. split; [done|]. split; [done|].
    split; [destruct ps; [done|by rewrite Hs]|right; by eexists].
  - exists []. repeat split; try constructor; auto; constructor.
Qed.

(** What travels is no key of the materialised error itself. *)
Lemma finished_keys err ps : NoDup (keys_of ps) -> Forall (fun p => travels p.1 = true /\ exists v, p.2 = mk_Property true (Data v)) ps ->
  NoDup (keys_of (o_props (finished_error err ps))).
Proof.
  intros Hnd Hall. cbn. unfold keys_of. rewrite map_app. apply NoDup_app. split; [apply named_nodup|]. split; [|done]. intros k Hk Hin.
  apply named_keys in Hk. apply list_elem_of_fmap in Hin as (p & -> & Hp). rewrite Forall_forall in Hall. destruct (Hall p Hp) as [Ht _].
  by apply travels_inv in Ht as [_ ?].
Qed.

(** An error with an intrinsic's name has no name of its own. *)
Lemma intrinsic_unnamed err ps : be_name err ∈ INTRINSIC_ERROR_NAMES ->
  Forall (fun p => travels p.1 = true /\ exists v, p.2 = mk_Property true (Data v)) ps ->
  own (o_props (finished_error err ps)) (v8_string "name") = None.
Proof.
  intros Hi Hall. apply own_none. intros Hin. cbn in Hin. unfold keys_of in Hin. rewrite map_app in Hin. apply elem_of_app in Hin as [Hin|Hin].
  - unfold named_error in Hin. rewrite decide_True in Hin by done. revert Hin. vm_compute. set_solver.
  - apply list_elem_of_fmap in Hin as (p & Hp & Hin). rewrite Forall_forall in Hall. destruct (Hall p Hin) as [Ht _].
    apply travels_inv in Ht as [_ Ht]. apply Ht. rewrite <- Hp. vm_compute. set_solver.
Qed.

(** An array-index key of an error's fields is not copied onto the error. *)
Lemma index_key_not_copied source target skip units names h :
  copy_keys js source target skip (mk_Key false units :: names) h = copy_keys js source target skip names h.
Proof. cbn [copy_keys is_name key_units]. unfold mbind, G_bind. by case_decide. Qed.

(** C34. An error of a host handler that guest code does not catch reaches the host as
    it was thrown: in a realm whose guest has changed no prototype, the JavaScript error
    made of a payload is recognised by its tag when it rejects the run, and read back as
    that payload - name, message and the same blob of fields - if its name and message
    are at most 65408 bytes long and its fields, if it has any, are the blob of a plain
    object keyed by names that are not reserved (array indices are not carried). *)
Theorem host_error_roundtrip err h :
  str_ok (be_name err) -> str_ok (be_message err) -> blen (be_name err) <= ERROR_TEXT_BYTES -> blen (be_message err) <= ERROR_TEXT_BYTES ->
  opt (blob_of js ser_obj) (be_fields err) ->
  let '(h', e) := host_bridge_error_to_v8 js err h in snd (host_bridge_error_from_rejection js e h') = Some (HostBridge err).
Proof.
  intros Hn Hm Ln Lm Hf.
  destruct (fields_travel _ Hf) as (ps & Hcase & Hnd & Hall & Hb & Hsome). destruct (error_made err h ps Hcase) as (h' & -> & Ho & Hlt).
  assert (Hcar : carried (o_props (finished_error err ps)) = ps).
  { cbn. unfold carried. rewrite filter_app. change (filter _ (o_props (named_error err))) with (carried (o_props (named_error err))).
    rewrite named_carried. by apply carried_again. }
  pose proof (finished_keys err ps Hnd Hall) as Hkeys.
  unfold host_bridge_error_from_rejection, get_heap. unfold mbind at 1, G_bind at 1. cbn [has_tag]. rewrite Ho. cbn [o_exotic o_tag finished_error negb andb].
  assert (Hown : forall s p, (mk_Key true (v8_string s), p) ∈ o_props (named_error err) -> own (o_props (finished_error err ps)) (v8_string s) = Some p).
  { intros s p Hp. apply (own_in _ (mk_Key true (v8_string s), p) Hkeys). cbn. apply elem_of_app. by left. }
  assert (Hget : forall s v e, (mk_Key true (v8_string s), mk_Property e (Data v)) ∈ o_props (named_error err) ->
    get js (Ref (next_id h)) (v8_string s) h' = (h', Some v)).
  { intros s v e Hp. cbn [get]. unfold get_heap, mbind, G_bind. by rewrite Ho, (Hown _ _ Hp). }
  assert (Hname : error_name_from_value js (Ref (next_id h)) h' = (h', Some (be_name err))).
  { unfold error_name_from_value, obind. unfold mbind at 1, G_bind at 1.
    assert (Hg : get js (Ref (next_id h)) (v8_string "name") h' = (h', Some (Str (v8_string (be_name err))))).
    { destruct (decide (be_name err ∈ INTRINSIC_ERROR_NAMES)) as [Hi|Hi].
      - pose proof (intrinsic_unnamed err ps Hi Hall) as Hnone.
        cbn [get]. unfold get_heap, mbind, G_bind. rewrite Ho, Hnone. cbn [o_exotic finished_error].
        rewrite (class_name js ser_obj Hr _ _ _ Ho eq_refl eq_refl Hnone). cbn [o_class finished_error]. unfold intrinsic_class. by rewrite decide_True.
      - apply (Hget "name"%string _ true). unfold named_error. rewrite decide_False by done. cbn [o_props with_props exception_of]. set_solver. }
    rewrite Hg. unfold text_of, obind, to_string, mbind, G_bind, mret, G_ret. by rewrite capped_short. }
  assert (Hmsg : error_message_from_value js (Ref (next_id h)) h' = (h', Some (be_message err))).
  { unfold error_message_from_value, obind. unfold mbind at 1, G_bind at 1.
    rewrite (Hget "message"%string (Str (v8_string (be_message err))) false).
    - unfold text_of, obind, to_string, mbind, G_bind, mret, G_ret. by rewrite capped_short.
    - unfold named_error. destruct (decide _); cbn [o_props with_props exception_of]; set_solver. }
  unfold mbind at 1, G_bind at 1. rewrite Hname. unfold mbind at 1, G_bind at 1. rewrite Hmsg. unfold mbind, G_bind, mret, G_ret.
  pose proof (plain_fields (next_id h) _ h' Ho eq_refl ltac:(lia)) as Hpf. rewrite Hcar in Hpf.
  destruct (error_fields_from_value js (Ref (next_id h)) h') as [h'' f]. cbn [snd] in *.
  assert (Hfe : f = be_fields err).
  { rewrite Hb, Hpf; [by destruct ps|split; [done|]|done]. rewrite Hcar. eapply Forall_impl; [exact Hall|]. by intros p [_ ?]. }
  rewrite Hfe. by destruct err.
Qed.
End HostErrors.

(** ** Witnesses: an unmodified realm with one host error in it *)

Definition small_key : Key := mk_Key true (v8_string "code").
Definition small_fields : list (Key * Property) := [(small_key, mk_Property true (Data (Num 42)))].
Definition small_ser (ps : list (Key * Property)) : option (list byte) :=
  match ps with [(_, mk_Property true (Data (Num 42)))] => Some [xff; x0f; x2a] | _ => None end.

(** Reads of inherited names, an object for each blob, and no other guest code. *)
Definition small_js : Js := {|
  get_trap v n h := match v with
    | Ref id => (h, match objs h !! id with
                    | Some o => if decide (n = v8_string "name") then Some (Str (v8_string (o_class o))) else Some Undefined
                    | None => None end)
    | _ => (h, Some Undefined)
    end;
  own_trap _ _ h := (h, false);
  keys_trap _ h := (h, Some []);
  inherited_set _ _ _ _ := None;
  string_trap _ h := (h, Some []);
  detail_string _ h := (h, None);
  json_stringify _ h := (h, None);
  serialize v h := (h, match v with Ref id => objs h !! id ≫= fun o => small_ser (o_props o) | _ => None end);
  deserialize _ h :=
    (mk_Heap (<[next_id h := mk_Obj OtherObject "Object" false small_fields false false]> (objs h)) (next_id h + 1) (reason_set h) (caught h),
     Some (Ref (next_id h)));
|}.

Lemma small_realm : Realm small_js small_ser.
Proof.
  split.
  - intros id o h Ho _ _ _. cbn [get_trap small_js]. by rewrite Ho, decide_True.
  - done.
  - intros i o h Ho _. cbn [serialize small_js]. by rewrite Ho.
Qed.

Definition small_error : BridgeErrorPayload := mk_BridgeErrorPayload "HttpError" "not found" (Some [xff; x0f; x2a]).
Definition empty_heap : Heap := mk_Heap ∅ 0 false None.

Lemma small_blob : blob_of small_js small_ser [xff; x0f; x2a].
Proof.
  exists small_fields. split; [done|]. split; [apply NoDup_singleton|]. split; [done|].
  split; [apply Forall_singleton; split; [vm_compute; reflexivity|by exists (Num 42)]|].
  intros h. eexists _, _, _. split; [reflexivity|]. split; [apply lookup_insert_eq|]. repeat (split; [done|]).
  intros i oo (Hi & Hn & Hl). split; [|split; [done|cbn; lia]]. cbn. by rewrite lookup_insert_ne by lia.
Qed.

Lemma host_error_roundtrip_witness :
  let '(h', e) := host_bridge_error_to_v8 small_js small_error empty_heap in
  snd (host_bridge_error_from_rejection small_js e h') = Some (HostBridge small_error).
Proof.
  apply (host_error_roundtrip small_js small_ser small_realm small_error empty_heap).
  - vm_compute. reflexivity.
  - vm_compute. reflexivity.
  - vm_compute. discriminate.
  - vm_compute. discriminate.
  - exact small_blob.
Defined.

Lemma small_frame : JsFrame small_js.
Proof.
  split; intros; intros i o h Hh; [|by split|by split]. cbn. destruct v; by split.
Qed.

(** A thrown object with the fields [code] and [stack]: only [code] travels. *)
Definition small_thrown : Heap :=
  mk_Heap {[ 7 := mk_Obj OtherObject "Object" false
    [(small_key, mk_Property true (Data (Num 42))); (mk_Key true (v8_string "stack"), mk_Property true (Data (Num 1)))] false false ]} 8 false None.

Lemma reserved_keys_never_travel_witness :
  snd (error_fields_from_value small_js (Ref 7) small_thrown) = Some [xff; x0f; x2a] /\
  exists i o hs, fields_only o /\ objs hs !! i = Some o /\ serialize small_js (Ref i) hs = ((error_fields_from_value small_js (Ref 7) small_thrown).1, Some [xff; x0f; x2a]).
Proof.
  assert (Hs : snd (error_fields_from_value small_js (Ref 7) small_thrown) = Some [xff; x0f; x2a]) by (vm_compute; reflexivity).
  split; [exact Hs|]. apply (reserved_keys_never_travel small_js small_frame (Ref 7) small_thrown). rewrite <- Hs. apply surjective_pairing.
Defined.

(** Nothing inherited; a thrown string and an error with a message. *)
Definition quiet_js : Js :=
  mk_Js (fun _ _ h => (h, Some Undefined)) (fun _ _ h => (h, false)) (fun _ h => (h, None)) (fun _ _ _ _ => None)
    (fun _ h => (h, None)) (fun _ h => (h, None)) (fun _ h => (h, None)) (fun _ h => (h, None)) (fun _ h => (h, None)).

Lemma quiet_strings : JsStrings quiet_js.
Proof. split; intros; intros h Hh; by split. Qed.

Definition thrown_heap : Heap := mk_Heap {[ 3 := exception_of "TypeError" "no such thing" ]} 4 false None.

Lemma thrown_strings : strings_ok thrown_heap.
Proof.
  intros id o Ho. unfold thrown_heap in Ho. cbn [objs] in Ho. apply lookup_singleton_Some in Ho as [_ <-]. apply Forall_cons. split; [exact I|]. apply Forall_singleton.
  split; [|vm_compute; reflexivity]. apply Forall_forall. intros u Hu. unfold key_units in *.
  assert (Hall : forallb (fun u => (0 <=? u) && (u <? 65536)) (v8_string "no such thing") = true) by (vm_compute; reflexivity).
  rewrite List.forallb_forall in Hall. specialize (Hall u (proj1 (list_elem_of_In _ _) Hu)). lia.
Qed.

Lemma thrown_text_bounded_witness :
  snd (runtime_error_from_value quiet_js (Ref 3) thrown_heap) = RuntimeError (mk_RuntimeErrorData "Error" "no such thing" None None) /\
  exists d, snd (runtime_error_from_value quiet_js (Ref 3) thrown_heap) = RuntimeError d /\ fits (rt_name d) /\ fits (rt_message d) /\ opt fits (rt_stack d).
Proof.
  split; [vm_compute; reflexivity|].
  exact (thrown_text_bounded quiet_js quiet_strings (Ref 3) thrown_heap _ I thrown_strings eq_refl).
Defined.
