(* ===== verification/Wire.v ===== *)
(** * Runtime-to-host payloads ([crates/server/src/wire.rs])

    The payload encoders of the runtime and the decoders of the host client
    ([packages/iso4-sandbox/src/ipc.ts]) that must agree with them, and the
    runtime's decoder of [BridgeResponse].  Value blobs are carried as bytes on
    both sides: turning one into a value is V8's serializer. *)

From S2P Require Import Prelude Bytes Text F64 Types Reader Requests StreamPayloads Errors.

(** ** Primitive encoders *)

Definition encode_u32 (n : Z) : list byte := u32_be n.
Definition encode_u64 (n : Z) : list byte := u64_be n.
Definition encode_f64 (x : f64) : list byte := f64_be x.
Definition encode_string (s : string) : list byte :=
  encode_u32 (as_u32 (zlen (as_bytes s))) ++ as_bytes s.
Definition encode_bool (b : bool) : list byte := [z2b (if b then 1 else 0)].
Definition encode_string_list (items : list string) : list byte :=
  encode_u32 (as_u32 (zlen items)) ++ concat (map encode_string items).
Definition encode_value_blob (blob : list byte) : list byte :=
  encode_u32 (as_u32 (zlen blob)) ++ blob.
Definition encode_optional_value_blob (blob : option (list byte)) : list byte :=
  match blob with Some b => [z2b 1] ++ encode_value_blob b | None => [z2b 0] end.
Definition encode_optional_u64 (value : option Z) : list byte :=
  match value with Some v => [z2b 1] ++ encode_u64 v | None => [z2b 0] end.

Definition reset_cause_byte (cause : ResetCause) : Z :=
  match cause with
  | ResetCpu => 0 | ResetMemory => 1 | ResetAbort => 2
  | ResetInternal => 3 | ResetWall => 4 | ResetUnsupported => 5
  end.

(** ** Payload encoders *)

Definition encode_bridge_call_record (r : BridgeCallRecord) : list byte :=
  encode_string (bc_name r) ++ encode_f64 (bc_start_ms r) ++ encode_f64 (bc_duration_ms r) ++
  encode_u32 (bc_arg_bytes r) ++ encode_u32 (bc_response_bytes r) ++ encode_u32 (bc_call_id r) ++
  [z2b (BridgeCallOutcome_as_u8 (bc_outcome r))].

Definition encode_bridge_call_records (records : list BridgeCallRecord) : list byte :=
  encode_u32 (as_u32 (zlen records)) ++ concat (map encode_bridge_call_record records).

Definition MAX_ERROR_FIELDS_BYTES : Z := 1024 * 1024.

(** [error.fields.filter(|f| f.len() <= MAX_ERROR_FIELDS_BYTES)] *)
Definition kept_fields (fields : option (list byte)) : option (list byte) :=
  match fields with
  | Some f => if zlen f <=? MAX_ERROR_FIELDS_BYTES then Some f else None
  | None => None
  end.

Definition encode_stack (stack : option string) : list byte :=
  match stack with
  | Some s => [z2b 1] ++ encode_string (clamp_error_text s)
  | None => [z2b 0]
  end.

Definition encode_run_error_payload (error : RunErrorPayload) : list byte :=
  encode_string (ep_code error) ++ encode_string (ep_name error) ++
  encode_string (clamp_error_text (ep_message error)) ++
  encode_stack (ep_stack error) ++
  encode_optional_value_blob (kept_fields (ep_fields error)) ++
  match ep_reset error with
  | Some info => [z2b 1] ++ [z2b (reset_cause_byte (cause_class info))] ++ encode_u32 (culprit_run_id info)
  | None => [z2b 0]
  end ++
  encode_bool (ep_prefix_stage error) ++
  match ep_cause error with
  | Some cause =>
    [z2b 1] ++ encode_string (ep_code cause) ++ encode_string (ep_name cause) ++
    encode_string (clamp_error_text (ep_message cause)) ++ encode_stack (ep_stack cause)
  | None => [z2b 0]
  end.

(** [slot_allowance] is the runtime's current allowance
    ([iso4_core::warm::slot_allowance]), read when the payload is written. *)
Definition encode_run_completion_payload (slot_allowance : Z) (run_id : Z) (completion : RunCompletion)
    : list byte :=
  encode_u32 run_id ++ encode_u32 slot_allowance ++
  match completion with
  | Success s =>
    encode_bool true ++ [z2b 1] ++ encode_value_blob (s_exports s) ++
    encode_string_list (s_skipped_exports s) ++ encode_string_list (s_stdout s) ++
    encode_string_list (s_stderr s) ++ encode_f64 (s_duration_ms s) ++
    encode_f64 (s_wall_time_ms s) ++ encode_f64 (s_cpu_time_ms s) ++
    encode_bridge_call_records (s_bridge_calls s) ++ encode_optional_u64 (s_heap_used_bytes s) ++
    [z2b (s_background_flags s)] ++ [z2b 0]
  | Failure f =>
    encode_bool false ++ [z2b 0] ++ [z2b 1] ++ encode_run_error_payload (f_error f) ++
    encode_string_list (f_stdout f) ++ encode_string_list (f_stderr f) ++
    encode_f64 (f_duration_ms f) ++ encode_f64 (f_wall_time_ms f) ++ encode_f64 (f_cpu_time_ms f) ++
    encode_bridge_call_records (f_bridge_calls f) ++ encode_optional_u64 (f_heap_used_bytes f)
  end.

(** [v8::GraceStatus] and [v8::GraceReport] *)
Inductive GraceStatus := Settled | Truncated | Failed.

Record GraceReport := mk_GraceReport {
  g_status : GraceStatus;
  g_duration_ms : f64;
  g_wall_time_ms : f64;
  g_cpu_time_ms : f64;
  g_stdout : list string;
  g_stderr : list string;
  g_bridge_calls : list BridgeCallRecord;
  g_error : option (string * string);
  g_early_result_sent : bool;
}.

Definition encode_run_complete_payload (run_id : Z) (report : GraceReport) : list byte :=
  encode_u32 run_id ++
  [z2b (match g_status report with Settled => 0 | Truncated => 1 | Failed => 2 end)] ++
  encode_f64 (g_duration_ms report) ++ encode_f64 (g_wall_time_ms report) ++
  encode_f64 (g_cpu_time_ms report) ++ encode_string_list (g_stdout report) ++
  encode_string_list (g_stderr report) ++ encode_bridge_call_records (g_bridge_calls report) ++
  match g_error report with
  | Some (name, message) => [z2b 1] ++ encode_string name ++ encode_string message
  | None => [z2b 0]
  end.

(** The result of a [Precompile]: a prefix id or an error, never both absent. *)
Definition encode_precompile_result_payload (request_id : Z)
    (prefix_id : option string) (error : option RunErrorPayload) : option (list byte) :=
  match prefix_id, error with
  | Some id, _ =>
    Some (encode_u32 request_id ++ encode_bool true ++ [z2b 1] ++ encode_string id ++ [z2b 0])
  | None, Some err =>
    Some (encode_u32 request_id ++ encode_bool false ++ [z2b 0] ++ [z2b 1] ++ encode_run_error_payload err)
  | None, None => None
  end.

(** [warm::RegistryStats] *)
Record RegistryStats := mk_RegistryStats {
  oneoff_running : Z;
  warm_busy : Z;
  warm_runs : Z;
  warm_idle : Z;
  idle_heap_bytes : Z;
  per_prefix : list (string * Z * Z);
  warm_budget_bytes : Z;
  rss_bytes : Z;
  usage_bytes : Z;
  hard_line_bytes : Z;
  under_pressure : bool;
}.

(** Counts saturate at [u32::MAX]. *)
Definition encode_count (n : Z) : list byte := encode_u32 (default u32_max (try_u32 n)).

Definition encode_stats_payload (stats : RegistryStats) : list byte :=
  encode_count (oneoff_running stats) ++ encode_count (warm_busy stats) ++
  encode_count (warm_runs stats) ++ encode_count (warm_idle stats) ++
  encode_u64 (idle_heap_bytes stats) ++ encode_u64 (warm_budget_bytes stats) ++
  encode_u64 (rss_bytes stats) ++ encode_u64 (usage_bytes stats) ++
  encode_u64 (hard_line_bytes stats) ++ [z2b (if under_pressure stats then 1 else 0)] ++
  encode_count (zlen (per_prefix stats)) ++
  concat (map (fun '(prefix_id, idle, busy) =>
    encode_string prefix_id ++ encode_count idle ++ encode_count busy) (per_prefix stats)).

Definition encode_bridge_call_header (run_id call_id : Z) (target : BridgeTarget) (args_blob_len : Z)
    : list byte :=
  encode_u32 run_id ++ encode_u32 call_id ++
  match target with
  | TargetGlobal name => [z2b 0; z2b 0] ++ encode_string name
  | TargetImport specifier path =>
    [z2b 1; z2b 1] ++ encode_string specifier ++ encode_string_list path
  end ++ encode_u32 args_blob_len.

(** ** The runtime's decoder of [BridgeResponse] *)

Module WireRead.
(** The cursor functions of [wire.rs]; the cursor is [(data, offset)]. *)
Definition eof {A} : parser A := perr UnexpectedEof "unexpected end of payload data".

Definition read_u8 : parser Z := fun r =>
  match data r !! offset r with
  | Some b => Ok (b2z b, advance r 1)
  | None => eof r
  end.

Definition read_u32 : parser Z := fun r =>
  if Nat.ltb (length (data r)) (offset r + 4) then eof r
  else Ok (be_val (take 4 (rest r)), advance r 4).

Definition read_raw_bytes (len : Z) : parser (list byte) := fun r =>
  if Z.of_nat (offset r) + len <=? zlen (data r) then
    Ok (take (Z.to_nat len) (rest r), advance r (Z.to_nat len))
  else eof r.

Definition read_string : parser string :=
  len ← read_u32;
  bytes ← read_raw_bytes len;
  match from_utf8 bytes with
  | Some s => mret s
  | None => perr InvalidData "payload string is not valid UTF-8"
  end.

Definition read_value_blob : parser (list byte) := len ← read_u32; read_raw_bytes len.
End WireRead.

(** The answer to a bridge call: a value ([None] is [undefined]) or the host
    handler's error. *)
Definition bridge_answer : Type := option (list byte) + BridgeErrorPayload.

Definition parse_bridge_response_payload (payload : list byte) : io (Z * Z * bridge_answer) :=
  run_parser (
    run_id ← WireRead.read_u32;
    call_id ← WireRead.read_u32;
    ok_byte ← WireRead.read_u8;
    if ok_byte =? 1 then
      present ← WireRead.read_u8;
      value ← (if present =? 1 then b ← WireRead.read_value_blob; mret (Some b) else mret None);
      mret (run_id, call_id, inl value)
    else if ok_byte =? 0 then
      _ ← WireRead.read_string;
      name ← WireRead.read_string;
      message ← WireRead.read_string;
      stack_present ← WireRead.read_u8;
      _ ← (if stack_present =? 1 then s ← WireRead.read_string; mret (Some s) else mret None);
      fields_present ← WireRead.read_u8;
      fields ← (if fields_present =? 1 then b ← WireRead.read_value_blob; mret (Some b) else mret None);
      mret (run_id, call_id, inr (mk_BridgeErrorPayload name message fields))
    else perr InvalidData ("invalid BridgeResponse ok byte: " +:+ show_hex ok_byte)) payload.

(** The host client's writer: [ok] with a value, or an error description. *)
Record TsBridgeError := mk_TsBridgeError {
  te_name : string;
  te_message : string;
  te_encodedFields : option (list byte);
}.

Definition write_present_bytes (b : option (list byte)) : list byte :=
  match b with
  | Some (x :: bs) => write_u8 1 ++ write_blob (x :: bs)
  | _ => write_u8 0
  end.

Definition encodeBridgeResponsePayload (runId callId : Z) (ok : bool)
    (encodedValue : option (list byte)) (error : option TsBridgeError) : list byte :=
  u32_be runId ++ u32_be callId ++
  if ok then write_u8 1 ++ write_present_bytes encodedValue
  else
    write_u8 0 ++ write_string "ERR_HOST_BRIDGE" ++
    write_string (match error with Some e => te_name e | None => "Error" end) ++
    write_string (match error with Some e => te_message e | None => "host handler failed" end) ++
    write_u8 0 ++
    write_present_bytes (match error with Some e => te_encodedFields e | None => None end).

(** ** The host client's reader ([PayloadReader] in [ipc.ts]) *)

Module Ts.
(** A thrown [PayloadDecodeError]. *)
Definition decode_error {A} (msg : string) : parser A := perr Other msg.

Definition readU8 : parser Z := fun r =>
  if Nat.ltb (remaining r) 1 then decode_error "unexpected end of payload reading u8" r
  else Ok (be_val (take 1 (rest r)), advance r 1).

Definition readU32 : parser Z := fun r =>
  if Nat.ltb (remaining r) 4 then decode_error "unexpected end of payload reading u32" r
  else Ok (be_val (take 4 (rest r)), advance r 4).

Definition readF64 : parser f64 := fun r =>
  if Nat.ltb (remaining r) 8 then decode_error "unexpected end of payload reading f64" r
  else Ok (f64_of_bits (be_val (take 8 (rest r))), advance r 8).

Definition MAX_SAFE_INTEGER : Z := 2 ^ 53 - 1.

Definition readU64 : parser Z := fun r =>
  if Nat.ltb (remaining r) 8 then decode_error "unexpected end of payload reading u64" r
  else
    let n := be_val (take 8 (rest r)) in
    if MAX_SAFE_INTEGER <? n then
      decode_error ("u64 exceeds the JS safe-integer range: " +:+ show n) r
    else Ok (n, advance r 8).

Definition readOptionalU64 : parser (option Z) :=
  present ← readU8;
  if present =? 0 then mret None else n ← readU64; mret (Some n).

Definition readBool : parser bool :=
  b ← readU8;
  if (b =? 0) || (b =? 1) then mret (b =? 1)
  else decode_error ("invalid bool byte: " +:+ show_hex b).

Definition readRawBytes (len : Z) : parser (list byte) := fun r =>
  if Z.of_nat (remaining r) <? len then
    decode_error ("unexpected end of payload: need " +:+ show len +:+ " bytes, have "
      +:+ show (Z.of_nat (remaining r))) r
  else Ok (take (Z.to_nat len) (rest r), advance r (Z.to_nat len)).

Definition assertDone : parser unit := fun r =>
  if Nat.eqb (remaining r) 0 then Ok (tt, r)
  else decode_error (show (Z.of_nat (remaining r)) +:+ " trailing bytes after expected end of payload") r.

Definition readBlob : parser (list byte) := len ← readU32; readRawBytes len.

(** [readImportKey]: the bytes of a specifier and a path, validated but not
    decoded.  [skipBytes] is [readRawBytes] without the copy. *)
Definition skip : parser unit := len ← readU32; _ ← readRawBytes len; mret tt.

Definition readImportKey : parser (list byte) := fun r =>
  '(_, r') ← (_ ← skip; count ← readU32; for_count (Z.to_nat count) skip) r;
  Ok (take (offset r' - offset r) (rest r), r').

(** [encodeImportKey] *)
Definition encodeImportKey (specifier : string) (path : list string) : list byte :=
  write_string specifier ++ u32_be (zlen path) ++ concat (map write_string path).

Section Text.
(** [Buffer.toString('utf8')]: the text of well-formed bytes, and some
    replacement text for the others. *)
Context (toString : list byte -> string).

Definition readString : parser string := b ← readBlob; mret (toString b).

Definition readStringList : parser (list string) :=
  count ← readU32; for_count (Z.to_nat count) readString.

Definition readOptionalBlob : parser (option (list byte)) :=
  b ← readU8; if b =? 1 then v ← readBlob; mret (Some v) else mret None.

Inductive BridgeCallFailureReason := RBlocked | RError | RDropped | RUnanswered.

(** [ok] is [e_reason = None]. *)
Record BridgeCallEntry := mk_BridgeCallEntry {
  e_name : string;
  e_startMs : f64;
  e_durationMs : f64;
  e_argBytes : Z;
  e_responseBytes : Z;
  e_reason : option BridgeCallFailureReason;
}.

(** [droppedCallIds]: the calls the client never dispatched. *)
Definition readBridgeCallRecord (dropped : Z -> bool) : parser BridgeCallEntry :=
  name ← readString;
  startMs ← readF64;
  durationMs ← readF64;
  argBytes ← readU32;
  responseBytes ← readU32;
  callId ← readU32;
  outcome ← readU8;
  let entry := mk_BridgeCallEntry name startMs durationMs argBytes responseBytes in
  if outcome =? 0 then mret (entry None)
  else if outcome =? 1 then mret (entry (Some RBlocked))
  else if outcome =? 2 then mret (entry (Some RError))
  else if outcome =? 3 then mret (entry (Some (if dropped callId then RDropped else RUnanswered)))
  else decode_error ("unknown bridge call outcome byte: " +:+ show outcome).

Definition readBridgeCallRecords (dropped : Z -> bool) : parser (list BridgeCallEntry) :=
  count ← readU32; for_count (Z.to_nat count) (readBridgeCallRecord dropped).

Definition readOptionalStack : parser (option string) :=
  b ← readU8; if b =? 1 then s ← readString; mret (Some s) else mret None.

Definition causes : list ResetCause :=
  [ResetCpu; ResetMemory; ResetAbort; ResetInternal; ResetWall; ResetUnsupported].

Definition readResetInfo : parser (option ResetInfo) :=
  present ← readU8;
  if present =? 0 then mret None
  else if negb (present =? 1) then
    decode_error ("invalid reset-info presence byte: " +:+ show present)
  else
    causeByte ← readU8;
    match causes !! Z.to_nat causeByte with
    | Some resetCause => culprit ← readU32; mret (Some (mk_ResetInfo resetCause culprit))
    | None => decode_error ("invalid instance-reset cause byte: " +:+ show causeByte)
    end.

Definition readPrefixStage : parser bool :=
  byte ← readU8;
  if byte =? 0 then mret false
  else if byte =? 1 then mret true
  else decode_error ("invalid prefix-stage byte: " +:+ show byte).

Record ErrorCause := mk_ErrorCause {
  ec_code : string; ec_name : string; ec_message : string; ec_stack : option string
}.

Definition readErrorCause : parser (option ErrorCause) :=
  present ← readU8;
  if present =? 0 then mret None
  else if negb (present =? 1) then
    decode_error ("invalid error-cause presence byte: " +:+ show present)
  else
    code ← readString;
    name ← readString;
    message ← readString;
    stack ← readOptionalStack;
    mret (Some (mk_ErrorCause code name message stack)).

(** A bridge call's target, and its argument blob as bytes. *)
Inductive TsBridgeTarget := TsGlobal (exportName : string) | TsImport (key : list byte).

Definition decodeBridgeCallPayload (buf : list byte) : io (Z * Z * TsBridgeTarget * list byte) :=
  run_parser (
    runId ← readU32;
    callId ← readU32;
    targetKindRaw ← readU8;
    if negb (targetKindRaw =? 0) && negb (targetKindRaw =? 1) then
      decode_error ("invalid bridge targetKind: " +:+ show targetKindRaw)
    else
      b ← readU8;
      if negb (Bool.eqb (b =? 1) (targetKindRaw =? 1)) then
        decode_error "BridgeCall specifier must be present exactly for an import target"
      else
        target ← (if targetKindRaw =? 0 then n ← readString; mret (TsGlobal n)
                  else k ← readImportKey; mret (TsImport k));
        args ← readBlob;
        mret (runId, callId, target, args)) buf.

Record DecodedError := mk_DecodedError {
  d_code : string;
  d_name : string;
  d_message : string;
  d_stack : option string;
  d_fields : option (list byte);
  d_reset : option ResetInfo;
  d_prefixStage : bool;
  d_cause : option ErrorCause;
}.

(** The error block shared by the two decoders. *)
Definition readError : parser DecodedError :=
  code ← readString;
  name ← readString;
  message ← readString;
  stack ← readOptionalStack;
  fields ← readOptionalBlob;
  reset ← readResetInfo;
  stage ← readPrefixStage;
  cause ← readErrorCause;
  mret (mk_DecodedError code name message stack fields reset stage cause).

(** Telemetry common to both outcomes. *)
Record Telemetry := mk_Telemetry {
  t_stdout : list string;
  t_stderr : list string;
  t_durationMs : f64;
  t_wallTimeMs : f64;
  t_cpuTimeMs : f64;
  t_bridgeCalls : list BridgeCallEntry;
}.

Definition readTelemetry (dropped : Z -> bool) : parser Telemetry :=
  stdout ← readStringList;
  stderr ← readStringList;
  durationMs ← readF64;
  wallTimeMs ← readF64;
  cpuTimeMs ← readF64;
  bridgeCalls ← readBridgeCallRecords dropped;
  mret (mk_Telemetry stdout stderr durationMs wallTimeMs cpuTimeMs bridgeCalls).

Inductive RunResult :=
  | Completed (value : list byte) (skippedExports : list string) (t : Telemetry) (heap : option Z)
  | FailedRun (error : DecodedError) (t : Telemetry) (heap : option Z).

Record DecodedRunCompletion := mk_DecodedRunCompletion {
  d_runId : Z;
  d_slotAllowance : Z;
  d_result : RunResult;
  d_backgroundFlags : Z;
}.

Definition decodeRunCompletionPayload (dropped : Z -> bool) (buf : list byte) : io DecodedRunCompletion :=
  run_parser (
    d ← (runId ← readU32;
         slotAllowance ← readU32;
         ok ← readBool;
         if (ok : bool) then
           successPresent ← readU8;
           if negb (successPresent =? 1) then
             decode_error "expected success present byte = 1 when ok = true"
           else
             value ← readBlob;
             skippedExports ← readStringList;
             t ← readTelemetry dropped;
             heapUsedBytes ← readOptionalU64;
             backgroundFlags ← readU8;
             _ ← readU8;
             mret (mk_DecodedRunCompletion runId slotAllowance
                     (Completed value skippedExports t heapUsedBytes) backgroundFlags)
         else
           _ ← readU8;
           failurePresent ← readU8;
           if negb (failurePresent =? 1) then
             decode_error "expected failure present byte = 1 when ok = false"
           else
             error ← readError;
             t ← readTelemetry dropped;
             heapUsedBytes ← readOptionalU64;
             mret (mk_DecodedRunCompletion runId slotAllowance (FailedRun error t heapUsedBytes) 0));
    _ ← assertDone;
    mret d) buf.

Definition peekRunCompletionBackgroundFlags (payload : list byte) : Z :=
  if Nat.ltb (length payload) 11 then 0
  else if bool_decide (payload !! 8%nat = Some x01) then
    match payload !! (length payload - 2)%nat with Some b => b2z b | None => 0 end
  else 0.

Record DecodedRunComplete := mk_DecodedRunComplete {
  rc_runId : Z; rc_status : GraceStatus;
  rc_durationMs : f64; rc_wallTimeMs : f64; rc_cpuTimeMs : f64;
  rc_stdout : list string; rc_stderr : list string;
  rc_bridgeCalls : list BridgeCallEntry;
  rc_error : option (string * string);
}.

Definition decodeRunCompletePayload (dropped : Z -> bool) (buf : list byte) : io DecodedRunComplete :=
  run_parser (
    d ← (runId ← readU32;
         statusByte ← readU8;
         match [Settled; Truncated; Failed] !! Z.to_nat statusByte with
         | None => decode_error ("unknown RunComplete status byte: " +:+ show statusByte)
         | Some status =>
           durationMs ← readF64;
           wallTimeMs ← readF64;
           cpuTimeMs ← readF64;
           stdout ← readStringList;
           stderr ← readStringList;
           bridgeCalls ← readBridgeCallRecords dropped;
           errorPresent ← readU8;
           error ← (if errorPresent =? 1 then
                      n ← readString; m ← readString; mret (Some (n, m))
                    else mret None);
           mret (mk_DecodedRunComplete runId status durationMs wallTimeMs cpuTimeMs
                   stdout stderr bridgeCalls error)
         end);
    _ ← assertDone;
    mret d) buf.

Definition decodePrecompileResultPayload (buf : list byte) : io (Z * (string + DecodedError)) :=
  run_parser (
    d ← (requestId ← readU32;
         ok ← readBool;
         if (ok : bool) then
           prefixIdPresent ← readU8;
           if negb (prefixIdPresent =? 1) then
             decode_error "expected prefixId present byte = 1 when ok = true"
           else prefixId ← readString; _ ← readU8; mret (requestId, inl prefixId)
         else
           _ ← readU8;
           errorPresent ← readU8;
           if negb (errorPresent =? 1) then
             decode_error "expected error present byte = 1 when ok = false"
           else error ← readError; mret (requestId, inr error));
    _ ← assertDone;
    mret d) buf.

Record RuntimeStatsPayload := mk_RuntimeStats {
  oneoffRunning : Z; warmBusy : Z; warmRuns : Z; warmIdle : Z;
  idleHeapBytes : Z; warmBudgetBytes : Z; rssBytes : Z; usageBytes : Z; hardLineBytes : Z;
  underPressure : bool;
  prefixes : list (string * Z * Z);
}.

Definition readPrefixCounts : parser (string * Z * Z) :=
  prefixId ← readString; idle ← readU32; busy ← readU32; mret (prefixId, idle, busy).

Definition decodeStatsPayload (buf : list byte) : io RuntimeStatsPayload :=
  run_parser (
    d ← (oneoffRunning ← readU32; warmBusy ← readU32; warmRuns ← readU32; warmIdle ← readU32;
         idleHeapBytes ← readU64; warmBudgetBytes ← readU64; rssBytes ← readU64;
         usageBytes ← readU64; hardLineBytes ← readU64;
         underPressure ← readBool;
         prefixCount ← readU32;
         prefixes ← for_count (Z.to_nat prefixCount) readPrefixCounts;
         mret (mk_RuntimeStats oneoffRunning warmBusy warmRuns warmIdle idleHeapBytes
                 warmBudgetBytes rssBytes usageBytes hardLineBytes underPressure prefixes));
    _ ← assertDone;
    mret d) buf.
End Text.
End Ts.

(** ** Reading back what was written *)

(** [Reads p bs v]: on any input that starts with [bs], [p] consumes exactly
    [bs] and returns [v]. *)
Definition Reads {A} (p : parser A) (bs : list byte) (v : A) : Prop :=
  forall r suf, rest r = bs ++ suf -> p r = Ok (v, advance r (length bs)).

Lemma reads_ret {A} (v : A) : Reads (mret v) [] v.
Proof. intros [d o] suf _. unfold advance. cbn. by rewrite Nat.add_0_r. Qed.

Lemma reads_bind {A B} (p : parser A) (k : A -> parser B) b1 b2 v w :
  Reads p b1 v -> Reads (k v) b2 w -> Reads (p ≫= k) (b1 ++ b2) w.
Proof.
  intros Hp Hk r suf Hr. rewrite <- app_assoc in Hr. unfold mbind, parser_bind.
  rewrite (Hp r _ Hr), (Hk _ suf (rest_advance _ _ _ Hr)), advance_advance, length_app. done.
Qed.

(** The last read of a chain. *)
Lemma reads_last {A B} (p : parser A) (k : A -> parser B) bs v w :
  Reads p bs v -> Reads (k v) [] w -> Reads (p ≫= k) bs w.
Proof. intros Hp Hk. rewrite <- (app_nil_r bs). by apply (reads_bind _ _ _ _ v). Qed.

Lemma reads_run {A} (p : parser A) bs v :
  Reads p bs v -> run_parser p bs = Ok v.
Proof.
  intros Hp. unfold run_parser. rewrite (Hp (new bs) []); [done|].
  unfold rest. cbn. by rewrite drop_0, app_nil_r.
Qed.

Lemma reads_run_done {A} (p : parser A) (done : parser unit) bs v :
  (forall r, remaining r = 0%nat -> done r = Ok (tt, r)) ->
  Reads p bs v -> run_parser (x ← p; _ ← done; mret x) bs = Ok v.
Proof.
  intros Hd Hp. unfold run_parser, mbind, parser_bind.
  assert (Hr : rest (new bs) = bs ++ []) by (unfold rest; cbn; by rewrite drop_0, app_nil_r).
  rewrite (Hp (new bs) [] Hr), Hd; [by destruct (advance (new bs) (length bs))|].
  by rewrite remaining_rest, (rest_advance _ _ _ Hr).
Qed.

Lemma reads_for_count {A W} (item : parser A) (enc : W -> list byte) (f : W -> A) ws :
  Forall (fun w => Reads item (enc w) (f w)) ws ->
  Reads (for_count (length ws) item) (concat (map enc ws)) (map f ws).
Proof.
  induction 1 as [|w ws Hw Hws IH]; [apply reads_ret|]. cbn [length for_count map concat].
  eapply reads_bind; [exact Hw|]. eapply reads_last; [exact IH|]. apply reads_ret.
Qed.

(** A fixed-width read. *)
Lemma reads_fixed {A} n (p : parser A) (f : list byte -> A) bs v :
  (forall r, (n <= remaining r)%nat -> p r = Ok (f (take n (rest r)), advance r n)) ->
  length bs = n -> f bs = v -> Reads p bs v.
Proof.
  intros Hp Hn Hv r suf Hr. rewrite Hp, Hr, <- Hn, take_app_len, Hv; [done|].
  rewrite remaining_rest, Hr, length_app. lia.
Qed.

(** *** Well-formed values: what fits the wire *)

Definition list_fits {A} (ok : A -> Prop) (l : list A) : Prop := zlen l <= u32_max /\ Forall ok l.
Definition size_ok (s : string) : Prop := str_ok s /\ blen s < 10 ^ 20.

Definition record_ok (r : BridgeCallRecord) : Prop :=
  string_ok (bc_name r) /\ f64_ok (bc_start_ms r) /\ f64_ok (bc_duration_ms r) /\
  is_u32 (bc_arg_bytes r) /\ is_u32 (bc_response_bytes r) /\ is_u32 (bc_call_id r).

Definition heap_ok (h : option Z) : Prop := option_ok (fun v => 0 <= v <= Ts.MAX_SAFE_INTEGER) h.

Definition telemetry_ok (stdout stderr : list string) (d w c : f64) (calls : list BridgeCallRecord) : Prop :=
  list_fits string_ok stdout /\ list_fits string_ok stderr /\ f64_ok d /\ f64_ok w /\ f64_ok c /\
  list_fits record_ok calls.

Definition error_ok (e : RunErrorPayload) : Prop :=
  string_ok (ep_code e) /\ string_ok (ep_name e) /\ size_ok (ep_message e) /\
  option_ok size_ok (ep_stack e) /\
  option_ok (fun i => is_u32 (culprit_run_id i)) (ep_reset e) /\
  match ep_cause e with
  | None => True
  | Some c => string_ok (ep_code c) /\ string_ok (ep_name c) /\ size_ok (ep_message c) /\
      option_ok size_ok (ep_stack c)
  end.

Definition completion_ok (c : RunCompletion) : Prop :=
  match c with
  | Success s =>
    blob_ok (s_exports s) /\ list_fits string_ok (s_skipped_exports s) /\
    telemetry_ok (s_stdout s) (s_stderr s) (s_duration_ms s) (s_wall_time_ms s) (s_cpu_time_ms s)
      (s_bridge_calls s) /\
    heap_ok (s_heap_used_bytes s) /\ is_u8 (s_background_flags s)
  | Failure f =>
    error_ok (f_error f) /\
    telemetry_ok (f_stdout f) (f_stderr f) (f_duration_ms f) (f_wall_time_ms f) (f_cpu_time_ms f)
      (f_bridge_calls f) /\
    heap_ok (f_heap_used_bytes f)
  end.

(** *** What the host makes of it *)

Definition entry_of (dropped : Z -> bool) (r : BridgeCallRecord) : Ts.BridgeCallEntry :=
  Ts.mk_BridgeCallEntry (bc_name r) (bc_start_ms r) (bc_duration_ms r) (bc_arg_bytes r)
    (bc_response_bytes r)
    (match bc_outcome r with
     | OutcomeOk => None
     | Blocked => Some Ts.RBlocked
     | OutcomeError => Some Ts.RError
     | Unanswered => Some (if dropped (bc_call_id r) then Ts.RDropped else Ts.RUnanswered)
     end).

Definition telemetry_of dropped stdout stderr d w c calls : Ts.Telemetry :=
  Ts.mk_Telemetry stdout stderr d w c (map (entry_of dropped) calls).

(** Texts clamped, oversized own fields dropped, the cause reduced to its code,
    name, message and stack. *)
Definition error_of (e : RunErrorPayload) : Ts.DecodedError :=
  Ts.mk_DecodedError (ep_code e) (ep_name e) (clamp_error_text (ep_message e))
    (clamp_error_text <$> ep_stack e) (kept_fields (ep_fields e)) (ep_reset e) (ep_prefix_stage e)
    ((fun c => Ts.mk_ErrorCause (ep_code c) (ep_name c) (clamp_error_text (ep_message c))
        (clamp_error_text <$> ep_stack c)) <$> ep_cause e).

Definition result_of (dropped : Z -> bool) (c : RunCompletion) : Ts.RunResult :=
  match c with
  | Success s =>
    Ts.Completed (s_exports s) (s_skipped_exports s)
      (telemetry_of dropped (s_stdout s) (s_stderr s) (s_duration_ms s) (s_wall_time_ms s)
         (s_cpu_time_ms s) (s_bridge_calls s)) (s_heap_used_bytes s)
  | Failure f =>
    Ts.FailedRun (error_of (f_error f))
      (telemetry_of dropped (f_stdout f) (f_stderr f) (f_duration_ms f) (f_wall_time_ms f)
         (f_cpu_time_ms f) (f_bridge_calls f)) (f_heap_used_bytes f)
  end.

Definition background_flags (c : RunCompletion) : Z :=
  match c with Success s => s_background_flags s | Failure _ => 0 end.

(** *** Reads of the primitives *)

Create HintDb reads.

Lemma be_val_1 z : is_u8 z -> be_val [z2b z] = z.
Proof. intros H. change (be_val [z2b z]) with (0 * 256 + b2z (z2b z)). rewrite b2z_z2b_small by zsolve. lia. Qed.

Lemma reads_u8 z : is_u8 z -> Reads Ts.readU8 [z2b z] z.
Proof.
  intros H. apply (reads_fixed 1 _ be_val); [|done|by apply be_val_1].
  intros r Hr. unfold Ts.readU8. by destruct (Nat.ltb_spec (remaining r) 1); [lia|].
Qed.

Lemma reads_u32 z : is_u32 z -> Reads Ts.readU32 (encode_u32 z) z.
Proof.
  intros H. apply (reads_fixed 4 _ be_val); [|apply length_u32_be|by apply be_val_u32].
  intros r Hr. unfold Ts.readU32. by destruct (Nat.ltb_spec (remaining r) 4); [lia|].
Qed.

Lemma reads_f64 x : f64_ok x -> Reads Ts.readF64 (encode_f64 x) x.
Proof.
  intros H. destruct (f64_bits_roundtrip x H) as [Hx Hu].
  apply (reads_fixed 8 _ (fun bs => f64_of_bits (be_val bs))); [|apply length_u64_be|].
  - intros r Hr. unfold Ts.readF64. by destruct (Nat.ltb_spec (remaining r) 8); [lia|].
  - unfold encode_f64, f64_be. by rewrite be_val_u64.
Qed.

Lemma reads_u64 v : 0 <= v <= Ts.MAX_SAFE_INTEGER -> Reads Ts.readU64 (encode_u64 v) v.
Proof.
  intros H r suf Hr. unfold Ts.readU64.
  assert (Hl : length (encode_u64 v) = 8%nat) by apply length_u64_be.
  destruct (Nat.ltb_spec (remaining r) 8) as [Hlt|_].
  { rewrite remaining_rest, Hr, length_app, Hl in Hlt. lia. }
  rewrite Hr, <- Hl, take_app_len. unfold encode_u64.
  rewrite be_val_u64 by (unfold Ts.MAX_SAFE_INTEGER in H; zsolve).
  by destruct (Z.ltb_spec Ts.MAX_SAFE_INTEGER v); [lia|].
Qed.

Lemma reads_raw n bs : zlen bs = n -> Reads (Ts.readRawBytes n) bs bs.
Proof.
  intros <- r suf Hr. unfold Ts.readRawBytes. rewrite Nat2Z.id, Hr, take_app_len.
  destruct (Z.ltb_spec (Z.of_nat (remaining r)) (zlen bs)) as [Hlt|]; [|done].
  rewrite remaining_rest, Hr, length_app in Hlt. lia.
Qed.

Lemma reads_blob b : blob_ok b -> Reads Ts.readBlob (encode_value_blob b) b.
Proof.
  unfold blob_ok. intros H. unfold Ts.readBlob, encode_value_blob.
  eapply reads_bind; [apply reads_u32; rewrite as_u32_small; zsolve|].
  apply reads_raw. symmetry. apply as_u32_small. zsolve.
Qed.

Lemma reads_bool b : Reads Ts.readBool (encode_bool b) b.
Proof.
  eapply reads_last; [apply reads_u8; destruct b; zsolve|]. destruct b; apply reads_ret.
Qed.

Lemma reads_optional_u64 h : heap_ok h -> Reads Ts.readOptionalU64 (encode_optional_u64 h) h.
Proof.
  unfold heap_ok. destruct h as [v|]; cbn [option_ok]; intros H.
  - eapply reads_bind; [apply reads_u8; zsolve|]. cbn.
    eapply reads_last; [by apply reads_u64|apply reads_ret].
  - eapply reads_last; [apply reads_u8; zsolve|apply reads_ret].
Qed.

#[export] Hint Resolve reads_u8 reads_u32 reads_f64 reads_u64 reads_blob reads_bool
  reads_optional_u64 : reads.
#[export] Hint Extern 2 (is_u8 _) => zsolve : reads.
#[export] Hint Extern 2 (is_u32 _) => zsolve : reads.

(** One read of a chain, and the end of a chain. *)
Ltac read_next := eapply reads_bind; [solve [eauto with reads] | cbn -[app]].
Ltac read_end := eapply reads_last; [solve [eauto with reads] | cbn -[app]; apply reads_ret].

Section Client.
Context (toString : list byte -> string).
Context (toString_ok : forall s, str_ok s -> toString (as_bytes s) = s).

Lemma reads_string s : string_ok s -> Reads (Ts.readString toString) (encode_string s) s.
Proof using toString_ok.
  intros [Hs Hb]. unfold Ts.readString. eapply reads_last; [by apply reads_blob|].
  rewrite toString_ok by done. apply reads_ret.
Qed.

Lemma reads_counted {A W} (item : parser A) (enc : W -> list byte) (f : W -> A) ok ws :
  (forall w, ok w -> Reads item (enc w) (f w)) -> list_fits ok ws ->
  Reads (count ← Ts.readU32; for_count (Z.to_nat count) item)
    (encode_u32 (as_u32 (zlen ws)) ++ concat (map enc ws)) (map f ws).
Proof.
  intros Hi [Hl Hok]. eapply reads_bind; [apply reads_u32; rewrite as_u32_small; zsolve|].
  rewrite as_u32_small by zsolve. rewrite Nat2Z.id. apply reads_for_count.
  eapply Forall_impl; [exact Hok|]. exact Hi.
Qed.

Lemma reads_string_list l :
  list_fits string_ok l -> Reads (Ts.readStringList toString) (encode_string_list l) l.
Proof using toString_ok.
  intros H. rewrite <- (map_id_eq l) at 2.
  exact (reads_counted (Ts.readString toString) encode_string id string_ok l reads_string H).
Qed.

Lemma reads_record dropped r :
  record_ok r ->
  Reads (Ts.readBridgeCallRecord toString dropped) (encode_bridge_call_record r) (entry_of dropped r).
Proof using toString_ok.
  intros (Hn & Hs & Hd & Ha & Hr & Hc). unfold Ts.readBridgeCallRecord, encode_bridge_call_record.
  eapply reads_bind; [by apply reads_string|cbn -[app]]. do 5 read_next.
  destruct r as [n s d a re c []]; cbn; read_end.
Qed.

Lemma reads_records dropped l :
  list_fits record_ok l ->
  Reads (Ts.readBridgeCallRecords toString dropped) (encode_bridge_call_records l) (map (entry_of dropped) l).
Proof using toString_ok. by apply reads_counted, reads_record. Qed.

#[local] Hint Resolve reads_string reads_string_list reads_records : reads.

Lemma clamped_ok s : size_ok s -> string_ok (clamp_error_text s).
Proof.
  intros [Hs Hb]. destruct (clamp_text_ok s Hs Hb) as [Hc Hl]. split; [done|].
  unfold blob_ok. unfold MAX_ERROR_TEXT_BYTES in Hl. zsolve.
Qed.
#[local] Hint Resolve clamped_ok : reads.

Lemma reads_stack o :
  option_ok size_ok o ->
  Reads (Ts.readOptionalStack toString) (encode_stack o) (clamp_error_text <$> o).
Proof using toString_ok.
  destruct o as [s|]; cbn [option_ok]; intros H; [|read_end]. unfold Ts.readOptionalStack. read_next. read_end.
Qed.

Lemma reads_fields o :
  Reads Ts.readOptionalBlob (encode_optional_value_blob (kept_fields o)) (kept_fields o).
Proof.
  destruct o as [b|]; cbn [kept_fields]; [|read_end].
  destruct (Z.leb_spec (zlen b) MAX_ERROR_FIELDS_BYTES) as [Hle|]; [|read_end].
  assert (blob_ok b) by (unfold blob_ok; unfold MAX_ERROR_FIELDS_BYTES in Hle; zsolve).
  unfold Ts.readOptionalBlob. read_next. read_end.
Qed.

Lemma reads_reset o :
  option_ok (fun i => is_u32 (culprit_run_id i)) o ->
  Reads Ts.readResetInfo
    (match o with
     | Some info => [z2b 1] ++ [z2b (reset_cause_byte (cause_class info))] ++ encode_u32 (culprit_run_id info)
     | None => [z2b 0] end) o.
Proof.
  destruct o as [[c k]|]; cbn [option_ok culprit_run_id]; intros H; [|read_end].
  unfold Ts.readResetInfo. cbn [cause_class]. read_next.
  eapply reads_bind; [apply reads_u8; destruct c; cbn; zsolve|]. destruct c; cbn -[app]; read_end.
Qed.

Lemma reads_stage b : Reads Ts.readPrefixStage (encode_bool b) b.
Proof.
  unfold Ts.readPrefixStage, encode_bool.
  eapply reads_last; [apply reads_u8; destruct b; zsolve|]. destruct b; apply reads_ret.
Qed.

#[local] Hint Resolve reads_stack reads_fields reads_reset reads_stage : reads.

Definition cause_ok (c : RunErrorPayload) : Prop :=
  string_ok (ep_code c) /\ string_ok (ep_name c) /\ size_ok (ep_message c) /\ option_ok size_ok (ep_stack c).

Lemma reads_cause o :
  match o with None => True | Some c => cause_ok c end ->
  Reads (Ts.readErrorCause toString)
    (match o with
     | Some cause =>
       [z2b 1] ++ encode_string (ep_code cause) ++ encode_string (ep_name cause) ++
       encode_string (clamp_error_text (ep_message cause)) ++ encode_stack (ep_stack cause)
     | None => [z2b 0] end)
    ((fun c => Ts.mk_ErrorCause (ep_code c) (ep_name c) (clamp_error_text (ep_message c))
        (clamp_error_text <$> ep_stack c)) <$> o).
Proof using toString_ok.
  unfold Ts.readErrorCause. destruct o as [c|]; [|intros _; read_end].
  intros (Hc & Hn & Hm & Hs). do 4 read_next. read_end.
Qed.

Lemma reads_error e :
  error_ok e -> Reads (Ts.readError toString) (encode_run_error_payload e) (error_of e).
Proof using toString_ok.
  intros (Hc & Hn & Hm & Hs & Hr & Hx). unfold Ts.readError, encode_run_error_payload, error_of.
  do 7 read_next. eapply reads_last; [by apply reads_cause|apply reads_ret].
Qed.

Lemma reads_telemetry dropped stdout stderr d w c calls :
  telemetry_ok stdout stderr d w c calls ->
  Reads (Ts.readTelemetry toString dropped)
    (encode_string_list stdout ++ encode_string_list stderr ++ encode_f64 d ++ encode_f64 w ++
     encode_f64 c ++ encode_bridge_call_records calls)
    (telemetry_of dropped stdout stderr d w c calls).
Proof using toString_ok.
  intros (Ho & He & Hd & Hw & Hc & Hb). unfold Ts.readTelemetry. do 5 read_next. read_end.
Qed.
(** The telemetry block in front of the rest of a payload. *)
Lemma reads_telemetry_then {B} dropped stdout stderr d w c calls (k : Ts.Telemetry -> parser B) bs v :
  telemetry_ok stdout stderr d w c calls ->
  Reads (k (telemetry_of dropped stdout stderr d w c calls)) bs v ->
  Reads (Ts.readTelemetry toString dropped ≫= k)
    (encode_string_list stdout ++ encode_string_list stderr ++ encode_f64 d ++ encode_f64 w ++
     encode_f64 c ++ encode_bridge_call_records calls ++ bs) v.
Proof using toString_ok.
  intros Ht Hk.
  match goal with |- Reads _ ?l _ =>
    replace l with ((encode_string_list stdout ++ encode_string_list stderr ++ encode_f64 d ++
      encode_f64 w ++ encode_f64 c ++ encode_bridge_call_records calls) ++ bs)
      by (by rewrite <- !app_assoc) end.
  eapply reads_bind; [by apply reads_telemetry|exact Hk].
Qed.

#[local] Hint Resolve reads_error : reads.

Lemma assert_done_ok r : remaining r = 0%nat -> Ts.assertDone r = Ok (tt, r).
Proof. unfold Ts.assertDone. by intros ->. Qed.

(** C23. Every completion the runtime writes is read back by the host: the
    same run id, allowance, outcome, exports, logs, times, bridge records and
    flags, with error texts clamped and oversized error fields dropped. *)
Theorem run_completion_roundtrip dropped slot run_id c
    (Hid : is_u32 run_id) (Hslot : is_u32 slot) (Hc : completion_ok c) :
  Ts.decodeRunCompletionPayload toString dropped (encode_run_completion_payload slot run_id c) =
    Ok (Ts.mk_DecodedRunCompletion run_id slot (result_of dropped c) (background_flags c)).
Proof using toString_ok.
  apply (reads_run_done _ _ _ _ assert_done_ok). unfold encode_run_completion_payload.
  do 2 read_next. destruct c as [s|f].
  - destruct Hc as (Hx & Hsk & Ht & Hh & Hf). do 4 read_next.
    apply reads_telemetry_then; [done|]. do 2 read_next. read_end.
  - destruct Hc as (He & Ht & Hh). do 4 read_next.
    apply reads_telemetry_then; [done|]. read_end.
Qed.

Lemma reads_grace dropped run_id g :
  is_u32 run_id ->
  telemetry_ok (g_stdout g) (g_stderr g) (g_duration_ms g) (g_wall_time_ms g) (g_cpu_time_ms g)
    (g_bridge_calls g) ->
  option_ok (fun e => string_ok e.1 /\ string_ok e.2) (g_error g) ->
  Ts.decodeRunCompletePayload toString dropped (encode_run_complete_payload run_id g) =
    Ok (Ts.mk_DecodedRunComplete run_id (g_status g) (g_duration_ms g) (g_wall_time_ms g)
          (g_cpu_time_ms g) (g_stdout g) (g_stderr g) (map (entry_of dropped) (g_bridge_calls g))
          (g_error g)).
Proof using toString_ok.
  intros Hid (Ho & He & Hd & Hw & Hc & Hb) Hx.
  apply (reads_run_done _ _ _ _ assert_done_ok). unfold encode_run_complete_payload.
  read_next. eapply reads_bind; [apply reads_u8; destruct (g_status g); zsolve|].
  replace ([Settled; Truncated; Failed] !! _) with (Some (g_status g)) by (by destruct (g_status g)).
  do 6 read_next. destruct (g_error g) as [[n m]|]; cbn [option_ok fst snd] in Hx.
  - destruct Hx. read_next. eapply reads_last; [|apply reads_ret]. read_next. read_end.
  - eapply reads_last; [solve [eauto with reads]|]. cbn -[app]. eapply reads_last; apply reads_ret.
Qed.

Lemma reads_precompile_ok request_id id :
  is_u32 request_id -> string_ok id ->
  option_map (Ts.decodePrecompileResultPayload toString)
    (encode_precompile_result_payload request_id (Some id) None) = Some (Ok (request_id, inl id)).
Proof using toString_ok.
  intros Hr Hi. cbn [encode_precompile_result_payload option_map]. f_equal.
  apply (reads_run_done _ _ _ _ assert_done_ok). do 4 read_next. read_end.
Qed.

Lemma reads_precompile_error request_id err :
  is_u32 request_id -> error_ok err ->
  option_map (Ts.decodePrecompileResultPayload toString)
    (encode_precompile_result_payload request_id None (Some err)) =
    Some (Ok (request_id, inr (error_of err))).
Proof using toString_ok.
  intros Hr Hi. cbn [encode_precompile_result_payload option_map]. f_equal.
  apply (reads_run_done _ _ _ _ assert_done_ok). do 4 read_next. read_end.
Qed.

(** A count as the host sees it: saturated at [u32::MAX]. *)
Definition sat_u32 (n : Z) : Z := Z.min n u32_max.

Lemma reads_count n : 0 <= n -> Reads Ts.readU32 (encode_count n) (sat_u32 n).
Proof.
  intros Hn. unfold encode_count, try_u32, sat_u32.
  destruct (Z.leb_spec n u32_max); cbn [default].
  - rewrite Z.min_l by lia. apply reads_u32. zsolve.
  - rewrite Z.min_r by lia. apply reads_u32. zsolve.
Qed.

Definition stats_ok (s : RegistryStats) : Prop :=
  Forall (fun n => 0 <= n) [oneoff_running s; warm_busy s; warm_runs s; warm_idle s] /\
  Forall (fun n => 0 <= n <= Ts.MAX_SAFE_INTEGER)
    [idle_heap_bytes s; warm_budget_bytes s; rss_bytes s; usage_bytes s; hard_line_bytes s] /\
  list_fits (fun '(p, i, b) => string_ok p /\ 0 <= i /\ 0 <= b) (per_prefix s).

#[local] Hint Resolve reads_count : reads.

(** A stats snapshot round-trips, with every count saturated at
    [u32::MAX] instead of wrapping. *)
Theorem stats_roundtrip s (Hs : stats_ok s) :
  Ts.decodeStatsPayload toString (encode_stats_payload s) =
    Ok (Ts.mk_RuntimeStats (sat_u32 (oneoff_running s)) (sat_u32 (warm_busy s)) (sat_u32 (warm_runs s))
          (sat_u32 (warm_idle s)) (idle_heap_bytes s) (warm_budget_bytes s) (rss_bytes s)
          (usage_bytes s) (hard_line_bytes s) (under_pressure s)
          (map (fun '(p, i, b) => (p, sat_u32 i, sat_u32 b)) (per_prefix s))).
Proof using toString_ok.
  destruct Hs as (Hc & Hb & Hl & Hp). rewrite !Forall_cons in Hc. rewrite !Forall_cons in Hb.
  destruct Hc as (Hc1 & Hc2 & Hc3 & Hc4 & _). destruct Hb as (Hb1 & Hb2 & Hb3 & Hb4 & Hb5 & _).
  apply (reads_run_done _ _ _ _ assert_done_ok). unfold encode_stats_payload.
  do 9 read_next.
  eapply reads_bind; [apply (reads_bool (under_pressure s))|cbn -[app]].
  eapply reads_bind; [apply reads_count; lia|cbn -[app]].
  eapply reads_last; [|apply reads_ret].
  replace (Z.to_nat (sat_u32 (zlen (per_prefix s)))) with (length (per_prefix s))
    by (unfold sat_u32; rewrite Z.min_l; lia).
  apply reads_for_count. eapply Forall_impl; [exact Hp|]. intros [[p i] b] (Hps & Hi & Hbz).
  unfold Ts.readPrefixCounts. do 2 read_next. read_end.
Qed.

(** ** Bridge calls *)

Lemma write_blob_encode b : blob_ok b -> write_blob b = encode_value_blob b.
Proof. intros H. unfold encode_value_blob. rewrite as_u32_small; [done|]. unfold blob_ok in H. zsolve. Qed.

Lemma reads_skip s : blob_ok (as_bytes s) -> Reads Ts.skip (encode_string s) tt.
Proof.
  unfold blob_ok. intros H. unfold Ts.skip, encode_string.
  eapply reads_bind; [apply reads_u32; rewrite as_u32_small; zsolve|].
  eapply reads_last; [|apply reads_ret]. apply reads_raw. symmetry. apply as_u32_small. zsolve.
Qed.

Lemma reads_skips l :
  list_fits string_ok l ->
  Reads (count ← Ts.readU32; for_count (Z.to_nat count) Ts.skip) (encode_string_list l) (map (fun _ => tt) l).
Proof.
  intros H. refine (reads_counted _ encode_string (fun _ => tt) string_ok l _ H).
  intros w [_ Hw]. by apply reads_skip.
Qed.

Lemma import_key_encode spec path :
  string_ok spec -> list_fits string_ok path ->
  Ts.encodeImportKey spec path = encode_string spec ++ encode_string_list path.
Proof.
  intros [_ Hs] [Hl Hp]. unfold Ts.encodeImportKey, write_string, encode_string_list.
  rewrite write_blob_encode, as_u32_small by (try done; zsolve). do 2 f_equal. f_equal.
  apply map_ext_in. intros s Hin. rewrite List.Forall_forall in Hp. destruct (Hp s Hin).
  by apply write_blob_encode.
Qed.

Lemma reads_import_key spec path :
  string_ok spec -> list_fits string_ok path ->
  Reads Ts.readImportKey (encode_string spec ++ encode_string_list path) (Ts.encodeImportKey spec path).
Proof.
  intros Hs Hp r suf Hr. rewrite import_key_encode by done.
  assert (Hread : Reads (_ ← Ts.skip; count ← Ts.readU32; for_count (Z.to_nat count) Ts.skip)
    (encode_string spec ++ encode_string_list path) (map (fun _ => tt) path)).
  { eapply reads_bind; [apply reads_skip, Hs|]. by apply reads_skips. }
  unfold Ts.readImportKey. rewrite (Hread r suf Hr). cbn [mbind result_bind]. f_equal. f_equal.
  unfold advance. cbn [offset]. replace (offset r + _ - offset r)%nat
    with (length (encode_string spec ++ encode_string_list path)) by lia.
  by rewrite Hr, take_app_len.
Qed.

#[local] Hint Resolve reads_import_key : reads.

Definition target_ok (t : BridgeTarget) : Prop :=
  match t with
  | TargetGlobal n => string_ok n
  | TargetImport s p => string_ok s /\ list_fits string_ok p
  end.

(** A bridge call reaches the handler it names: the host decodes the
    frame to the same run, call and arguments, and for an import target to the
    very key under which the handler for that specifier and path is filed. *)
Theorem bridge_call_roundtrip run_id call_id target args
    (Hr : is_u32 run_id) (Hc : is_u32 call_id) (Ht : target_ok target) (Ha : blob_ok args) :
  Ts.decodeBridgeCallPayload toString
    (encode_bridge_call_header run_id call_id target (zlen args) ++ args) =
  Ok (run_id, call_id,
      match target with
      | TargetGlobal n => Ts.TsGlobal n
      | TargetImport s p => Ts.TsImport (Ts.encodeImportKey s p)
      end, args).
Proof using toString_ok.
  apply reads_run. unfold encode_bridge_call_header. rewrite <- !app_assoc. do 2 read_next.
  assert (Hargs : encode_u32 (zlen args) ++ args = encode_value_blob args).
  { unfold encode_value_blob. rewrite as_u32_small; [done|]. unfold blob_ok in Ha. zsolve. }
  destruct target as [n|s p]; cbn [target_ok] in Ht.
  - rewrite <- app_assoc, Hargs. change ([z2b 0; z2b 0] ++ ?l) with ([z2b 0] ++ [z2b 0] ++ l).
    do 2 read_next. eapply reads_bind; [read_end|cbn -[app]]. read_end.
  - destruct Ht as [Hs Hp]. rewrite <- !app_assoc, Hargs.
    change ([z2b 1; z2b 1] ++ ?l) with ([z2b 1] ++ [z2b 1] ++ l). do 2 read_next.
    rewrite app_assoc. eapply reads_bind; [read_end|cbn -[app]]. read_end.
Qed.

(** The remaining replies mean to the host what the runtime wrote: the grace
    report of [RunComplete], both outcomes of [PrecompileResult], and the stats
    snapshot, whose counts saturate at [u32::MAX] instead of wrapping. *)
Theorem replies_roundtrip :
  (forall dropped run_id g, is_u32 run_id ->
     telemetry_ok (g_stdout g) (g_stderr g) (g_duration_ms g) (g_wall_time_ms g)
       (g_cpu_time_ms g) (g_bridge_calls g) ->
     option_ok (fun e => string_ok e.1 /\ string_ok e.2) (g_error g) ->
     Ts.decodeRunCompletePayload toString dropped (encode_run_complete_payload run_id g) =
       Ok (Ts.mk_DecodedRunComplete run_id (g_status g) (g_duration_ms g) (g_wall_time_ms g)
             (g_cpu_time_ms g) (g_stdout g) (g_stderr g) (map (entry_of dropped) (g_bridge_calls g))
             (g_error g))) /\
  (forall run_id prefix_id err, is_u32 run_id -> string_ok prefix_id -> error_ok err ->
     option_map (Ts.decodePrecompileResultPayload toString)
       (encode_precompile_result_payload run_id (Some prefix_id) None) = Some (Ok (run_id, inl prefix_id)) /\
     option_map (Ts.decodePrecompileResultPayload toString)
       (encode_precompile_result_payload run_id None (Some err)) = Some (Ok (run_id, inr (error_of err)))) /\
  (forall s, stats_ok s ->
     Ts.decodeStatsPayload toString (encode_stats_payload s) =
       Ok (Ts.mk_RuntimeStats (sat_u32 (oneoff_running s)) (sat_u32 (warm_busy s)) (sat_u32 (warm_runs s))
             (sat_u32 (warm_idle s)) (idle_heap_bytes s) (warm_budget_bytes s) (rss_bytes s)
             (usage_bytes s) (hard_line_bytes s) (under_pressure s)
             (map (fun '(p, i, b) => (p, sat_u32 i, sat_u32 b)) (per_prefix s)))).
Proof using toString_ok.
  split; [|split].
  - intros. by apply reads_grace.
  - intros. split; [by apply reads_precompile_ok|by apply reads_precompile_error].
  - intros. by apply stats_roundtrip.
Qed.
End Client.

(** ** Bridge responses *)

Lemma reads_wire_u8 z : is_u8 z -> Reads WireRead.read_u8 (write_u8 z) z.
Proof.
  intros H r suf Hr. unfold WireRead.read_u8.
  assert (Hd : data r !! offset r = Some (z2b z)).
  { rewrite <- (Nat.add_0_r (offset r)), <- lookup_drop. unfold rest in Hr. by rewrite Hr. }
  rewrite Hd, b2z_z2b_small by zsolve. done.
Qed.

Lemma reads_wire_u32 z : is_u32 z -> Reads WireRead.read_u32 (u32_be z) z.
Proof.
  intros H. apply (reads_fixed 4 _ be_val); [|apply length_u32_be|by apply be_val_u32].
  intros r Hr. unfold WireRead.read_u32. unfold remaining in Hr.
  by destruct (Nat.ltb_spec (length (data r)) (offset r + 4)); [lia|].
Qed.

Lemma reads_wire_blob b : blob_ok b -> Reads WireRead.read_value_blob (write_blob b) b.
Proof.
  unfold blob_ok, write_blob. intros H r suf Hr. rewrite <- app_assoc in Hr.
  unfold WireRead.read_value_blob, mbind, parser_bind.
  rewrite (reads_wire_u32 (zlen b) ltac:(zsolve) r _ Hr). unfold WireRead.read_raw_bytes.
  rewrite Nat2Z.id, (rest_advance _ _ _ Hr), take_app_len, advance_advance, length_app.
  pose proof (remaining_rest r) as Hrem. rewrite Hr, !length_app, length_u32_be in Hrem. unfold remaining in Hrem.
  rewrite length_u32_be. cbn [advance data offset].
  by destruct (Z.leb_spec (Z.of_nat (offset r + 4) + zlen b) (zlen (data r))); [|lia].
Qed.

Lemma read_string_eq r :
  WireRead.read_string r = (b ← WireRead.read_value_blob;
    match from_utf8 b with Some s => mret s
    | None => perr InvalidData "payload string is not valid UTF-8" end) r.
Proof.
  unfold WireRead.read_string, WireRead.read_value_blob, mbind, parser_bind.
  by destruct (WireRead.read_u32 r) as [[? ?]|].
Qed.

Lemma reads_wire_string s : string_ok s -> Reads WireRead.read_string (write_string s) s.
Proof.
  intros [Hs Hb] r suf Hr. rewrite read_string_eq.
  refine (reads_last _ _ _ (as_bytes s) s _ _ r suf Hr); [by apply reads_wire_blob|].
  rewrite from_utf8_as_bytes by done. apply reads_ret.
Qed.

#[export] Hint Resolve reads_wire_u8 reads_wire_u32 reads_wire_blob reads_wire_string : reads.

(** An empty buffer counts as absent. *)
Definition nonempty (b : option (list byte)) : option (list byte) :=
  match b with Some (x :: bs) => Some (x :: bs) | _ => None end.

Lemma reads_wire_present b :
  option_ok blob_ok b ->
  Reads (present ← WireRead.read_u8;
         if present =? 1 then v ← WireRead.read_value_blob; mret (Some v) else mret None)
    (write_present_bytes b) (nonempty b).
Proof.
  destruct b as [[|x bs]|]; cbn [option_ok]; intros H; [read_end| |read_end].
  cbn [write_present_bytes nonempty]. read_next. read_end.
Qed.

(** The same block in front of a continuation. *)
Lemma reads_wire_present_then {B} b (k : option (list byte) -> parser B) v :
  option_ok blob_ok b -> Reads (k (nonempty b)) [] v ->
  Reads (present ← WireRead.read_u8;
         x ← (if present =? 1 then v ← WireRead.read_value_blob; mret (Some v) else mret None); k x)
    (write_present_bytes b) v.
Proof.
  intros Hb Hk r suf Hr. pose proof (reads_last _ k _ _ _ (reads_wire_present b Hb) Hk r suf Hr) as H.
  rewrite <- H. unfold mbind, parser_bind. by destruct (WireRead.read_u8 r) as [[p r']|].
Qed.

Definition ts_error_ok (e : TsBridgeError) : Prop :=
  string_ok (te_name e) /\ string_ok (te_message e) /\ option_ok blob_ok (te_encodedFields e).

(** The runtime reads every answer the host writes: the run and call it
    answers, a value (an empty one is [undefined]) or the handler's error with
    its name, message and fields; the code and the host's stack do not cross. *)
Lemma bridge_response_roundtrip runId callId ok value error
    (Hr : is_u32 runId) (Hc : is_u32 callId)
    (Hv : option_ok blob_ok value) (He : option_ok ts_error_ok error) :
  parse_bridge_response_payload (encodeBridgeResponsePayload runId callId ok value error) =
  Ok (runId, callId,
      if ok then inl (nonempty value)
      else inr (match error with
        | Some e => mk_BridgeErrorPayload (te_name e) (te_message e) (nonempty (te_encodedFields e))
        | None => mk_BridgeErrorPayload "Error" "host handler failed" None
        end)).
Proof.
  apply reads_run. unfold encodeBridgeResponsePayload. do 2 read_next. destruct ok.
  - read_next. apply reads_wire_present_then; [done|apply reads_ret].
  - assert (Hs : string_ok "ERR_HOST_BRIDGE" /\ string_ok "Error" /\ string_ok "host handler failed")
      by (split_and!; (split; [vm_compute; reflexivity | vm_compute; discriminate])).
    destruct Hs as (Hs1 & Hs2 & Hs3). read_next. read_next.
    destruct error as [e|]; cbn [option_ok] in He.
    + destruct He as (Hn & Hm & Hf). do 2 read_next. read_next.
      eapply (reads_bind _ _ []); [apply reads_ret|cbn -[app write_present_bytes]].
      apply reads_wire_present_then; [done|apply reads_ret].
    + do 2 read_next. read_next.
      eapply (reads_bind _ _ []); [apply reads_ret|cbn -[app write_present_bytes]].
      apply (reads_wire_present_then None); [done|apply reads_ret].
Qed.

(** ** Peeking at a completion *)

Lemma lookup_second_last {A} (l : list A) x y : (l ++ [x] ++ [y]) !! (length (l ++ [x] ++ [y]) - 2)%nat = Some x.
Proof.
  rewrite !length_app. cbn [length]. rewrite lookup_app_r by lia.
  by replace (length l + (1 + 1) - 2 - length l)%nat with 0%nat by lia.
Qed.

(** The host's peek at a completion, which reads one byte near the end
    without decoding, yields exactly the flags the runtime wrote: zero for every
    failure, whatever its text. *)
Theorem peek_background_flags slot run_id c
    (Hc : is_u8 (background_flags c)) :
  Ts.peekRunCompletionBackgroundFlags (encode_run_completion_payload slot run_id c) = background_flags c.
Proof.
  unfold Ts.peekRunCompletionBackgroundFlags, encode_run_completion_payload.
  set (tail := match c with Success _ => _ | Failure _ => _ end).
  assert (Hlook : (encode_u32 run_id ++ encode_u32 slot ++ tail) !! 8%nat = tail !! 0%nat).
  { rewrite lookup_app_r by (unfold encode_u32; rewrite length_u32_be; lia).
    rewrite lookup_app_r by (unfold encode_u32; rewrite !length_u32_be; lia).
    unfold encode_u32. by rewrite !length_u32_be. }
  rewrite Hlook. destruct c as [s|f]; subst tail.
  - change (encode_bool true) with [x01]. cbn [app lookup list_lookup].
    rewrite bool_decide_true by done.
    set (body := encode_value_blob (s_exports s) ++ _).
    assert (Hb : exists l, body = l ++ [z2b (s_background_flags s)] ++ [z2b 0] /\ (4 <= length l)%nat).
    { unfold body. rewrite !app_assoc. eexists. split; [done|].
      rewrite !length_app. unfold encode_value_blob, encode_u32. rewrite length_app, length_u32_be. lia. }
    destruct Hb as (l & -> & Hl).
    assert (Hlen : length (encode_u32 run_id ++ encode_u32 slot ++ x01 :: z2b 1 :: l ++ [z2b (s_background_flags s)] ++ [z2b 0]) = (12 + length l)%nat).
    { rewrite !length_app. unfold encode_u32. rewrite !length_u32_be. cbn [length]. rewrite !length_app. cbn. lia. }
    replace (Nat.ltb _ 11) with false by (rewrite Hlen; symmetry; apply Nat.ltb_ge; lia).
    change (x01 :: z2b 1 :: l ++ [z2b (s_background_flags s)] ++ [z2b 0])
      with ((x01 :: z2b 1 :: l) ++ [z2b (s_background_flags s)] ++ [z2b 0]).
    rewrite 2!app_assoc, lookup_second_last. apply b2z_z2b_small. exact Hc.
  - change (encode_bool false) with [x00]. cbn [app lookup list_lookup].
    rewrite bool_decide_false by done. by destruct (Nat.ltb _ _).
Qed.

(** ** Witnesses *)

Definition sample_record : BridgeCallRecord :=
  mk_BridgeCallRecord "db.get" (f64_ratio 1 2) (f64_of_Z 3) 10 20 4 Unanswered.

Definition sample_error : RunErrorPayload :=
  mk_RunErrorPayload "ERR_INSTANCE_RESET" "Error" "reset" (Some "at x") (Some [x01])
    (Some (mk_ResetInfo ResetWall 9)) true
    (Some (mk_RunErrorPayload "ERR_IMPORT" "Error" "no such module" None None None false None)).

Definition sample_failure : RunCompletion :=
  Failure (mk_RunFailurePayload sample_error ["out"] [] (f64_ratio 5 2) f64_zero (f64_of_Z 1)
    [sample_record] (Some 1048576)).

Definition sample_success : RunCompletion :=
  Success (mk_RunSuccessPayload [xff; x0f] ["fn"] ["a"; "b"] ["warn"] (f64_ratio 1 3) (f64_of_Z 7)
    f64_zero [sample_record] None 3).

Definition sample_grace : GraceReport :=
  mk_GraceReport Failed (f64_of_Z 2) f64_zero f64_zero ["late"] [] [sample_record] (Some ("Error", "boom")) true.

(** Discharge a closed well-formedness goal of this file by evaluation. *)
Ltac eval_wire :=
  repeat match goal with
  | |- _ /\ _ => split
  | |- Forall _ [] => apply List.Forall_nil
  | |- Forall _ (_ :: _) => apply List.Forall_cons
  | |- is_u32 _ => vm_compute; split; discriminate
  | |- is_u8 _ => vm_compute; split; discriminate
  | |- str_ok _ => vm_compute; reflexivity
  | |- f64_ok _ => vm_compute; reflexivity
  | |- string_ok _ => split; [vm_compute; reflexivity | vm_compute; discriminate]
  | |- blob_ok _ => vm_compute; discriminate
  | |- _ <= _ => vm_compute; discriminate
  | |- _ < _ => vm_compute; reflexivity
  | |- True => exact I
  | |- _ => progress (unfold list_fits, option_ok, record_ok, heap_ok, telemetry_ok, error_ok, size_ok,
      completion_ok, ts_error_ok, target_ok, stats_ok;
      cbn -[Z.le Z.lt Z.pow is_u32 is_u8 str_ok string_ok blob_ok f64_ok])
  end.

Lemma run_completion_roundtrip_witness :
  Ts.decodeRunCompletionPayload of_bytes (fun id => id =? 4) (encode_run_completion_payload 12 5 sample_failure) =
    Ok (Ts.mk_DecodedRunCompletion 5 12 (result_of (fun id => id =? 4) sample_failure) 0) /\
  Ts.decodeRunCompletionPayload of_bytes (fun _ => false) (encode_run_completion_payload 12 5 sample_success) =
    Ok (Ts.mk_DecodedRunCompletion 5 12 (result_of (fun _ => false) sample_success) 3).
Proof.
  split.
  - apply (run_completion_roundtrip of_bytes (fun s _ => of_as_bytes s)); eval_wire.
  - apply (run_completion_roundtrip of_bytes (fun s _ => of_as_bytes s)); eval_wire.
Defined.

Definition sample_stats : RegistryStats :=
  mk_RegistryStats 1 2 3 18446744073709551616 4 [("p1", 1, 0)] 5 6 7 8 true.

Lemma replies_roundtrip_witness :
  is_ok (Ts.decodeRunCompletePayload of_bytes (fun _ => false) (encode_run_complete_payload 5 sample_grace)) = true /\
  option_map (Ts.decodePrecompileResultPayload of_bytes)
    (encode_precompile_result_payload 5 (Some "p1") None) = Some (Ok (5, inl "p1")) /\
  match Ts.decodeStatsPayload of_bytes (encode_stats_payload sample_stats) with
  | Ok s => Ts.warmIdle s = u32_max
  | Err _ => False
  end.
Proof.
  destruct (replies_roundtrip of_bytes (fun s _ => of_as_bytes s)) as (Hg & Hp & Hs). split; [|split].
  - rewrite (Hg (fun _ => false) 5 sample_grace); [reflexivity|eval_wire..].
  - apply (Hp 5 "p1" sample_error); eval_wire.
  - rewrite (Hs sample_stats); [reflexivity|]. unfold stats_ok, sample_stats. eval_wire.
Defined.

Lemma bridge_call_roundtrip_witness :
  Ts.decodeBridgeCallPayload of_bytes
    (encode_bridge_call_header 1 2 (TargetImport "db" ["ns"; "get"]) 2 ++ [x01; x02]) =
  Ok (1, 2, Ts.TsImport (Ts.encodeImportKey "db" ["ns"; "get"]), [x01; x02]).
Proof.
  apply (bridge_call_roundtrip of_bytes (fun s _ => of_as_bytes s) 1 2 (TargetImport "db" ["ns"; "get"]) [x01; x02]);
    eval_wire.
Defined.

Lemma peek_background_flags_witness :
  Ts.peekRunCompletionBackgroundFlags (encode_run_completion_payload 12 5 sample_success) = 3.
Proof. apply (peek_background_flags 12 5 sample_success). eval_wire. Defined.
