(* ===== verification/Outbox.v ===== *)
(** * The outbound frame sink ([Outbox] in [crates/server/src/ipc.rs])

    One connection's outbound path: an inline fast path over a bounded queue
    with a writer thread behind it.  Every critical section under the outbox's
    lock is a function on its state; the interleaving of producers, the writer
    thread and single socket writes is the step relation [step]. *)

From S2P Require Import Prelude Bytes F64 Types Reader Requests StreamPayloads Frames.

Definition OUTBOX_CAP_BYTES : Z := 16 * 1024 * 1024.

Inductive OutFrame :=
  | QFrame (message_type : Out.RustToTsMessageType) (head tail : list byte)
  | Remainder (bytes : list byte).

(** [OutFrame::len] *)
Definition frame_len (f : OutFrame) : Z :=
  match f with
  | QFrame _ head tail => zlen head + zlen tail
  | Remainder bytes => zlen bytes
  end.

Record OutboxState := mk_OutboxState {
  queue : list OutFrame;
  bytes : Z;
  dead : option string;
  producers : Z;
  writing : bool;
}.

(** The state [Outbox::spawn] starts from. *)
Definition spawn : OutboxState := mk_OutboxState [] 0 None 1 false.

(** [OutboxShared::kill]: the first reason wins.  Shutting the socket down and
    waking the waiters are not state of the outbox. *)
Definition kill (st : OutboxState) (reason : string) : OutboxState :=
  match dead st with
  | Some _ => st
  | None => mk_OutboxState (queue st) (bytes st) (Some reason) (producers st) (writing st)
  end.

(** [Clone] and [Drop] of a handle. *)
Definition clone_handle (st : OutboxState) : OutboxState :=
  mk_OutboxState (queue st) (bytes st) (dead st) (producers st + 1) (writing st).
Definition drop_handle (st : OutboxState) : OutboxState :=
  mk_OutboxState (queue st) (bytes st) (dead st) (producers st - 1) (writing st).

(** ** Resumable vectored writes *)

Record FrameProgress := mk_progress { parts : list (list byte); written : nat }.

Definition progress_new (envelope head tail : list byte) : FrameProgress :=
  mk_progress [envelope; head; tail] 0.

Definition total (p : FrameProgress) : nat := sum_list_with length (parts p).

(** The slices left after skipping [offset] bytes: the loop shared by
    [write_some] and [remainder]. *)
Fixpoint slices_from (parts : list (list byte)) (offset : nat) : list (list byte) :=
  match parts with
  | [] => []
  | part :: parts =>
    if Nat.leb (length part) offset then slices_from parts (offset - length part)
    else drop offset part :: slices_from parts 0
  end.

(** [FrameProgress::remainder] *)
Definition remainder (p : FrameProgress) : list byte := concat (slices_from (parts p) (written p)).

(** What one [write_vectored] call does. *)
Inductive write_event :=
  | Wrote (n : nat)
  | WFailed (e : io_error).

(** One turn of the loop of [write_some] after the deadline check: the bytes
    the socket takes, the new progress and, when the loop ends, its result. *)
Definition write_attempt (p : FrameProgress) (ev : write_event)
    : list byte * FrameProgress * option (io bool) :=
  let bufs := slices_from (parts p) (written p) in
  match ev with
  | Wrote O => ([], p, Some (fail WriteZero "write zero"))
  | Wrote n =>
    let p' := mk_progress (parts p) (written p + n) in
    (take n (concat bufs), p', if Nat.ltb (written p') (total p') then None else Some (Ok true))
  | WFailed e =>
    match kind e with
    | Interrupted => ([], p, None)
    | WouldBlock | TimedOut => ([], p, Some (Ok false))
    | _ => ([], p, Some (Err e))
    end
  end.

(** [write_some] on the list of what its [write_vectored] calls do; [late]
    says, for each call but the first, whether the deadline has passed.  [None]
    when the list ends before the loop does. *)
Fixpoint write_loop (attempted : bool) (p : FrameProgress) (evs : list (bool * write_event))
    : list byte * FrameProgress * option (io bool) :=
  if Nat.ltb (written p) (total p) then
    match evs with
    | [] => ([], p, None)
    | (late, ev) :: evs =>
      if attempted && late then ([], p, Some (Ok false))
      else
        let '(out, p', res) := write_attempt p ev in
        match res with
        | Some r => (out, p', Some r)
        | None => let '(out', p'', res') := write_loop true p' evs in (out ++ out', p'', res')
        end
    end
  else ([], p, Some (Ok true)).

Definition write_some (p : FrameProgress) (evs : list (bool * write_event))
    : list byte * FrameProgress * option (io bool) :=
  write_loop false p evs.

(** ** Sending *)

(** The length field: [payload.len() + 1] as a [u32]. *)
Definition envelope_len (head tail : list byte) : option Z :=
  match try_u32 (zlen head + zlen tail) with
  | Some total => checked_add u32_max total 1
  | None => None
  end.

Definition envelope (len : Z) (t : Out.RustToTsMessageType) : list byte := u32_be len ++ [z2b (Out.as_u8 t)].

(** The synchronous ceiling check at the top of [send_frame]. *)
Definition send_check (head tail : list byte) : io Z :=
  match envelope_len head tail with
  | None => fail InvalidInput "payload too large"
  | Some payload_len =>
    if DEFAULT_MAX_FRAME_LENGTH <? payload_len then
      fail InvalidInput ("frame length " +:+ show payload_len +:+ " exceeds max frame length "
        +:+ show DEFAULT_MAX_FRAME_LENGTH)
    else Ok payload_len
  end.

(** One pass of the loop of [send_frame], under the lock. *)
Inductive send_outcome :=
  | Refused (e : io_error)
  | StartInline (st : OutboxState) (p : FrameProgress)
  | Enqueued (st : OutboxState)
  | Wait.

Definition send_enter (st : OutboxState) (payload_len : Z) (t : Out.RustToTsMessageType)
    (head tail : list byte) : send_outcome :=
  let len := zlen head + zlen tail in
  match dead st with
  | Some reason => Refused (mk_io_error BrokenPipe reason)
  | None =>
    if bool_decide (queue st = []) && negb (writing st) then
      StartInline (mk_OutboxState (queue st) (bytes st) (dead st) (producers st) true)
        (progress_new (envelope payload_len t) head tail)
    else if bool_decide (queue st = []) || (bytes st + len <=? OUTBOX_CAP_BYTES) then
      Enqueued (mk_OutboxState (queue st ++ [QFrame t head tail]) (bytes st + len) (dead st)
                  (producers st) (writing st))
    else Wait
  end.

Definition stall_reason : string :=
  "outbound queue stalled for 5s — the host stopped draining the connection".

(** After a wait that timed out: give up, or take another pass. *)
Definition send_timed_out (st : OutboxState) (head tail : list byte) : option (OutboxState * io_error) :=
  let len := zlen head + zlen tail in
  if bool_decide (dead st = None) && negb (bool_decide (queue st = [])) &&
     (OUTBOX_CAP_BYTES <? bytes st + len)
  then Some (kill st stall_reason, mk_io_error TimedOut stall_reason)
  else None.

(** The end of an inline write, under the lock again. *)
Definition inline_finish (st : OutboxState) (p : FrameProgress) (outcome : io bool)
    : OutboxState * io unit :=
  let st := mk_OutboxState (queue st) (bytes st) (dead st) (producers st) false in
  match outcome with
  | Ok true => (st, Ok tt)
  | Ok false =>
    let rem := remainder p in
    (mk_OutboxState (Remainder rem :: queue st) (bytes st + zlen rem) (dead st) (producers st) false, Ok tt)
  | Err e =>
    let reason := "socket write failed: " +:+ detail e in
    (kill st reason, Err (mk_io_error BrokenPipe reason))
  end.

(** ** The writer thread *)

Inductive writer_outcome :=
  | WriterReturn
  | WriterWait
  | WriterTook (f : OutFrame) (st : OutboxState).

(** One pass of the inner loop of [writer_loop]. *)
Definition writer_take (st : OutboxState) : writer_outcome :=
  match dead st with
  | Some _ => WriterReturn
  | None =>
    if writing st then WriterWait
    else match queue st with
    | frame :: queue =>
      WriterTook frame (mk_OutboxState queue (bytes st - frame_len frame) (dead st) (producers st) true)
    | [] => if producers st =? 0 then WriterReturn else WriterWait
    end
  end.

(** The pieces the writer sends for a queued unit. *)
Definition frame_progress (f : OutFrame) : FrameProgress :=
  match f with
  | QFrame t head tail => progress_new (envelope (as_u32 (zlen head + zlen tail + 1)) t) head tail
  | Remainder bytes => progress_new [] bytes []
  end.

(** After the write: release the token; a failure kills the outbox. *)
Definition writer_finish (st : OutboxState) (result : result string unit) : OutboxState :=
  let st := mk_OutboxState (queue st) (bytes st) (dead st) (producers st) false in
  match result with Ok _ => st | Err reason => kill st reason end.

(** ** The connection as a whole *)

Inductive party := Inline | Writer.

(** The outbox, the threads that are between taking the socket and giving it back and
    how far each is, the bytes the socket has taken, and (for the specification only)
    the frames accepted so far, in the order in which they entered.  Nothing but
    [writing] keeps a second thread off the socket. *)
Record system := mk_system {
  outbox : OutboxState;
  holders : list (party * FrameProgress);
  socket : list byte;
  accepted : list (list byte);
}.

Definition start : system := mk_system spawn [] [] [].

(** A frame on the wire. *)
Definition wire_bytes (t : Out.RustToTsMessageType) (head tail : list byte) : list byte :=
  envelope (zlen head + zlen tail + 1) t ++ head ++ tail.

Definition unit_bytes (f : OutFrame) : list byte :=
  match f with QFrame t head tail => wire_bytes t head tail | Remainder bytes => bytes end.

(** What the write of a held frame does when its loop ends. *)
Definition release (who : party) (st : OutboxState) (p : FrameProgress) (r : io bool) : OutboxState :=
  match who, r with
  | Inline, r => (inline_finish st p r).1
  | Writer, Ok _ => writer_finish st (Ok tt)
  | Writer, Err e => writer_finish st (Err ("socket write failed: " +:+ detail e))
  end.

(** The writer is one thread: it takes a frame only when it is done with the last. *)
Definition writer_free (l : list (party * FrameProgress)) : bool :=
  forallb (fun h => match h.1 with Writer => false | Inline => true end) l.

Inductive step : system -> system -> Prop :=
  (* a producer enters [send_frame] and takes the fast path *)
  | StepInline st l sock acc t head tail payload_len st' p :
      send_check head tail = Ok payload_len ->
      send_enter st payload_len t head tail = StartInline st' p ->
      step (mk_system st l sock acc)
           (mk_system st' ((Inline, p) :: l) sock (acc ++ [wire_bytes t head tail]))
  (* a producer enqueues *)
  | StepEnqueue st l sock acc t head tail payload_len st' :
      send_check head tail = Ok payload_len ->
      send_enter st payload_len t head tail = Enqueued st' ->
      step (mk_system st l sock acc) (mk_system st' l sock (acc ++ [wire_bytes t head tail]))
  (* a producer gives up waiting *)
  | StepStall st l sock acc head tail st' e :
      send_timed_out st head tail = Some (st', e) ->
      step (mk_system st l sock acc) (mk_system st' l sock acc)
  (* the writer thread takes the front of the queue *)
  | StepTake st l sock acc f st' :
      writer_free l = true -> writer_take st = WriterTook f st' ->
      step (mk_system st l sock acc) (mk_system st' ((Writer, frame_progress f) :: l) sock acc)
  (* a thread at the socket writes, and goes on *)
  | StepWrite st l1 l2 who p sock acc ev out p' :
      write_attempt p ev = (out, p', None) ->
      step (mk_system st (l1 ++ (who, p) :: l2) sock acc) (mk_system st (l1 ++ (who, p') :: l2) (sock ++ out) acc)
  (* an inline write ends *)
  | StepInlineEnd st l1 l2 p sock acc ev out p' r :
      write_attempt p ev = (out, p', Some r) ->
      step (mk_system st (l1 ++ (Inline, p) :: l2) sock acc)
           (mk_system (release Inline st p' r) (l1 ++ l2) (sock ++ out) acc)
  (* an inline write runs past its deadline *)
  | StepInlineLate st l1 l2 p sock acc :
      step (mk_system st (l1 ++ (Inline, p) :: l2) sock acc)
           (mk_system (release Inline st p (Ok false)) (l1 ++ l2) sock acc)
  (* the writer's write ends; a jammed attempt is retried *)
  | StepWriterEnd st l1 l2 p sock acc ev out p' r :
      write_attempt p ev = (out, p', Some r) -> r <> Ok false ->
      step (mk_system st (l1 ++ (Writer, p) :: l2) sock acc)
           (mk_system (release Writer st p' r) (l1 ++ l2) (sock ++ out) acc)
  | StepWriterRetry st l1 l2 p sock acc ev out p' :
      write_attempt p ev = (out, p', Some (Ok false)) ->
      step (mk_system st (l1 ++ (Writer, p) :: l2) sock acc) (mk_system st (l1 ++ (Writer, p') :: l2) (sock ++ out) acc)
  (* the writer gives up on a jammed socket *)
  | StepWriterStall st l1 l2 p sock acc reason :
      step (mk_system st (l1 ++ (Writer, p) :: l2) sock acc)
           (mk_system (writer_finish st (Err reason)) (l1 ++ l2) sock acc)
  (* handles *)
  | StepClone st l sock acc :
      step (mk_system st l sock acc) (mk_system (clone_handle st) l sock acc)
  | StepDrop st l sock acc :
      step (mk_system st l sock acc) (mk_system (drop_handle st) l sock acc).

Inductive reachable : system -> Prop :=
  | reach_start : reachable start
  | reach_step s s' : reachable s -> step s s' -> reachable s'.

(** ** Lemmas on partial writes *)

Lemma slices_from_drop ps off : concat (slices_from ps off) = drop off (concat ps).
Proof.
  revert off. induction ps as [|p ps IH]; intros off; cbn [slices_from concat]; [by rewrite drop_nil|].
  destruct (Nat.leb_spec (length p) off) as [Hle|Hlt].
  - by rewrite IH, drop_app_ge.
  - cbn [concat]. by rewrite IH, drop_0, drop_app_le by lia.
Qed.

Lemma remainder_drop p : remainder p = drop (written p) (concat (parts p)).
Proof. apply slices_from_drop. Qed.

(** An attempt moves bytes from the remainder to the socket and loses none. *)
Lemma write_attempt_moves p ev out p' r :
  write_attempt p ev = (out, p', r) -> remainder p = out ++ remainder p'.
Proof.
  unfold write_attempt. destruct ev as [[|n]|e].
  - by intros [= <- <- _].
  - cbn zeta. intros [= <- <- _]. change (concat (slices_from _ _)) with (remainder p).
    rewrite !remainder_drop. cbn [parts written]. by rewrite <- drop_drop, take_drop.
  - destruct (kind e); by intros [= <- <- _].
Qed.

Lemma total_concat p : total p = length (concat (parts p)).
Proof.
  unfold total. induction (parts p) as [|q qs IH]; [done|]. cbn. by rewrite length_app, IH.
Qed.

(** The attempt that ends a write ends it completely. *)
Lemma write_attempt_done p ev out p' :
  write_attempt p ev = (out, p', Some (Ok true)) -> remainder p' = [].
Proof.
  unfold write_attempt. destruct ev as [[|n]|e]; [done| |by destruct (kind e)].
  cbn zeta. cbn [written].
  destruct (Nat.ltb_spec (written p + S n) (total (mk_progress (parts p) (written p + S n)))) as [|Hge]; [done|].
  intros [= _ <-].
  rewrite total_concat in Hge. rewrite remainder_drop. cbn [parts written] in *. apply drop_ge. lia.
Qed.

Lemma remainder_left p : (written p < total p)%nat -> remainder p <> [].
Proof.
  rewrite total_concat, remainder_drop. intros H Hn%(f_equal length). rewrite length_drop in Hn. cbn in Hn. lia.
Qed.

Lemma write_attempt_jammed p ev out p' :
  write_attempt p ev = (out, p', Some (Ok false)) -> p' = p.
Proof.
  unfold write_attempt. destruct ev as [[|n]|e]; [done| |destruct (kind e); by intros [= _ <-]].
  cbn zeta. by destruct (Nat.ltb _ _).
Qed.

Lemma write_loop_splits att p evs out p' r :
  write_loop att p evs = (out, p', r) ->
  remainder p = out ++ remainder p' /\
  (r = Some (Ok true) -> remainder p' = []) /\
  (r = Some (Ok false) -> remainder p' <> []).
Proof.
  revert att p out p' r.
  induction evs as [|[late ev] evs IH]; intros att p out p' r; cbn [write_loop];
    destruct (Nat.ltb_spec (written p) (total p)) as [Hlt|Hge];
    try (intros [= <- <- <-]; split; [done|]; split; [|by intros [=]]; intros _;
      rewrite remainder_drop; apply drop_ge; rewrite <- total_concat; lia).
  - intros [= <- <- <-]. split; [done|]. by split.
  - destruct (att && late); [intros [= <- <- <-]; split; [done|]; split; [by intros [=]|by intros _; apply remainder_left]|].
    destruct (write_attempt p ev) as [[o q] [res|]] eqn:Ha; pose proof (write_attempt_moves _ _ _ _ _ Ha) as Hm.
    + intros [= <- <- <-]. split; [done|]. split.
      * intros [= ->]. by eapply write_attempt_done.
      * intros [= ->]. apply write_attempt_jammed in Ha as ->. by apply remainder_left.
    + destruct (write_loop true q evs) as [[o' q'] r'] eqn:Hl. intros [= <- <- <-].
      destruct (IH _ _ _ _ _ Hl) as (Hr & Ht & Hf). rewrite Hm, Hr, app_assoc. done.
Qed.

(** A bounded write pass loses and invents nothing: what it handed to the
    socket followed by what it reports as remainder is what it was given; it
    reports completion only when nothing is left, and a jam only when something
    is. *)
Theorem write_some_splits p evs out p' r
    (Hrun : write_some p evs = (out, p', r)) :
  remainder p = out ++ remainder p' /\
  (r = Some (Ok true) -> remainder p' = []) /\
  (r = Some (Ok false) -> remainder p' <> []).
Proof. by apply (write_loop_splits false p evs). Qed.

Lemma write_some_splits_witness :
  let p := progress_new [x00; x01] [x02; x03] [x04] in
  remainder p = [x00; x01; x02] ++ [x03; x04].
Proof.
  cbn zeta.
  destruct (write_some_splits (progress_new [x00; x01] [x02; x03] [x04])
    [(true, Wrote 1); (false, WFailed (mk_io_error Interrupted "")); (false, Wrote 2);
     (false, WFailed (mk_io_error WouldBlock ""))] [x00; x01; x02]
    (mk_progress [[x00; x01]; [x02; x03]; [x04]] 3) (Some (Ok false)) eq_refl) as [H _].
  exact H.
Defined.

(** ** The invariant of a connection *)

(** A queued frame within the frame ceiling. *)
Definition queued_ok (f : OutFrame) : Prop :=
  match f with
  | QFrame _ head tail => zlen head + zlen tail + 1 <= DEFAULT_MAX_FRAME_LENGTH
  | Remainder _ => True
  end.

Definition pending (l : list (party * FrameProgress)) : list byte := concat (map (fun h => remainder h.2) l).

Record inv (s : system) : Prop := mk_inv {
  inv_token : if writing (outbox s) then exists h, holders s = [h] else holders s = [];
  inv_bytes : bytes (outbox s) = sum_by frame_len (queue (outbox s));
  inv_queue : Forall queued_ok (queue (outbox s));
  inv_stream : exists later,
    socket s ++ pending (holders s) ++ later = concat (accepted s) /\
    (dead (outbox s) = None -> later = concat (map unit_bytes (queue (outbox s))));
}.

Lemma send_check_fits head tail n :
  send_check head tail = Ok n ->
  n = zlen head + zlen tail + 1 /\ zlen head + zlen tail + 1 <= DEFAULT_MAX_FRAME_LENGTH.
Proof.
  unfold send_check, envelope_len, try_u32, checked_add, fail.
  destruct (Z.leb_spec (zlen head + zlen tail) u32_max); [|done].
  destruct (Z.leb_spec (zlen head + zlen tail + 1) u32_max); [|done].
  destruct (Z.ltb_spec DEFAULT_MAX_FRAME_LENGTH (zlen head + zlen tail + 1)); [done|].
  intros [= <-]. done.
Qed.

Lemma remainder_new e h t : remainder (progress_new e h t) = e ++ h ++ t.
Proof. rewrite remainder_drop. unfold progress_new. cbn [parts written concat]. by rewrite drop_0, app_nil_r. Qed.

Lemma frame_progress_bytes f : queued_ok f -> remainder (frame_progress f) = unit_bytes f.
Proof.
  destruct f as [t h tl|b]; cbn [queued_ok frame_progress unit_bytes]; intros H; rewrite remainder_new.
  - unfold DEFAULT_MAX_FRAME_LENGTH in H. rewrite as_u32_small by zsolve. done.
  - by rewrite app_nil_r.
Qed.

Lemma kill_fields st reason :
  queue (kill st reason) = queue st /\ bytes (kill st reason) = bytes st /\
  writing (kill st reason) = writing st /\ dead (kill st reason) <> None.
Proof. unfold kill. destruct (dead st) eqn:E; by rewrite ?E. Qed.

Lemma inv_start : inv start.
Proof. constructor; cbn; [done|done|constructor|]. by exists []. Qed.

Ltac simpl_sys :=
  cbn [outbox holders socket accepted queue bytes dead producers writing].

(** A dead outbox with the token free: what the socket took stays a prefix. *)
Lemma inv_killed st reason sock acc later :
  bytes st = sum_by frame_len (queue st) -> Forall queued_ok (queue st) -> writing st = false ->
  sock ++ later = concat acc -> inv (mk_system (kill st reason) [] sock acc).
Proof.
  intros Hby Hq Hw Hst. destruct (kill_fields st reason) as (Hq' & Hb' & Hw' & Hd').
  constructor; simpl_sys; rewrite ?Hq', ?Hb', ?Hw', ?Hw; try done.
  exists later. split; [done|]. intros Hn. by destruct Hd'.
Qed.

(** The release of the token, whatever the outcome. *)
Lemma inv_release who st p sock acc r later :
  bytes st = sum_by frame_len (queue st) -> Forall queued_ok (queue st) ->
  sock ++ remainder p ++ later = concat acc ->
  (dead st = None -> later = concat (map unit_bytes (queue st))) ->
  (r = Ok true -> remainder p = []) -> (who = Writer -> r <> Ok false) ->
  inv (mk_system (release who st p r) [] sock acc).
Proof.
  intros Hby Hq Hst Hlive Hdone Hw. unfold release.
  destruct who, r as [[]|e]; cbn [inline_finish fst writer_finish];
    try (by destruct (Hw eq_refl));
    try (rewrite Hdone in Hst by done; constructor; simpl_sys; [done|done|done|by exists later]).
  - constructor; simpl_sys; [done|cbn [sum_by frame_len]; lia|by constructor|]. exists (remainder p ++ later).
    split; [done|]. intros Hd. by rewrite Hlive.
  - by apply (inv_killed _ _ _ _ (remainder p ++ later)).
  - by apply (inv_killed _ _ _ _ (remainder p ++ later)).
Qed.

Lemma inv_kill st h sock acc reason :
  inv (mk_system st h sock acc) -> inv (mk_system (kill st reason) h sock acc).
Proof.
  intros [Htok Hby Hq (later & Hst & Hlive)]. cbn in *.
  destruct (kill_fields st reason) as (Hq' & Hb' & Hw' & Hd').
  constructor; cbn [outbox holders socket accepted]; rewrite ?Hq', ?Hb', ?Hw'; try done.
  exists later. split; [done|]. intros Hn. by destruct Hd'.
Qed.

(** With the token free nobody is at the socket; with it taken, one thread is. *)
Lemma at_socket (taken : bool) (l1 l2 : list (party * FrameProgress)) x :
  (if taken then exists h, l1 ++ x :: l2 = [h] else l1 ++ x :: l2 = []) -> taken = true /\ l1 = [] /\ l2 = [].
Proof.
  destruct taken; [intros [h Hh]|intros Hh; by destruct l1]. destruct l1 as [|y l1]; [by injection Hh as _ ->|].
  injection Hh as _ Hh. by destruct l1.
Qed.

Lemma inv_inline st l sock acc t hd tl n st' p :
  send_check hd tl = Ok n -> send_enter st n t hd tl = StartInline st' p -> inv (mk_system st l sock acc) ->
  inv (mk_system st' ((Inline, p) :: l) sock (acc ++ [wire_bytes t hd tl])).
Proof.
  intros Hchk Hent [Htok Hby Hq (later & Hst & Hlive)]. cbn [outbox holders socket accepted] in *.
  apply send_check_fits in Hchk as [-> Hfit]. unfold send_enter in Hent. destruct (dead st) eqn:Hd; [done|].
  destruct (bool_decide_reflect (queue st = [])) as [Hempty|]; cbn [andb orb] in Hent; [|by destruct (_ <=? _)].
  destruct (writing st); cbn [negb] in Hent; [done|]. injection Hent as <- <-. rewrite Hempty in *. subst l.
  constructor; simpl_sys; [by eexists|done|done|]. rewrite Hlive in Hst by done. cbn in Hst. rewrite app_nil_r in Hst.
  exists []. split; [|done]. unfold pending. cbn [map concat snd]. rewrite remainder_new, concat_app. cbn. by rewrite <- Hst, !app_nil_r.
Qed.

Lemma inv_enqueue st l sock acc t hd tl n st' :
  send_check hd tl = Ok n -> send_enter st n t hd tl = Enqueued st' -> inv (mk_system st l sock acc) ->
  inv (mk_system st' l sock (acc ++ [wire_bytes t hd tl])).
Proof.
  intros Hchk Hent [Htok Hby Hq (later & Hst & Hlive)]. cbn [outbox holders socket accepted] in *.
  apply send_check_fits in Hchk as [-> Hfit]. unfold send_enter in Hent. destruct (dead st) eqn:Hd; [done|].
  destruct (bool_decide (queue st = []) && negb (writing st)); [done|].
  destruct (bool_decide (queue st = []) || _); [|done]. injection Hent as <-. constructor; simpl_sys; [done| | |].
  - rewrite sum_by_app. cbn. lia.
  - apply Forall_app. split; [done|]. by constructor.
  - exists (later ++ wire_bytes t hd tl). split; [rewrite concat_app; cbn; by rewrite <- Hst, app_nil_r, <- !app_assoc|].
    intros _. rewrite (Hlive eq_refl), map_app, concat_app. cbn. by rewrite app_nil_r.
Qed.

Lemma inv_take st l sock acc f st' :
  writer_take st = WriterTook f st' -> inv (mk_system st l sock acc) -> inv (mk_system st' ((Writer, frame_progress f) :: l) sock acc).
Proof.
  intros Htake [Htok Hby Hq (later & Hst & Hlive)]. cbn [outbox holders socket accepted] in *.
  unfold writer_take in Htake. destruct (dead st) eqn:Hd; [done|].
  destruct (writing st); [done|]. subst l. destruct (queue st) as [|g q] eqn:Hqu; [by destruct (_ =? _)|].
  injection Htake as -> <-. apply Forall_cons in Hq as [Hf Hq]. constructor; simpl_sys; [by eexists| |done|].
  - cbn in Hby. lia.
  - exists (concat (map unit_bytes q)). unfold pending. cbn [map concat snd]. rewrite frame_progress_bytes, app_nil_r by done.
    split; [|done]. by rewrite <- Hst, (Hlive eq_refl).
Qed.

(** A write after which its thread is still at the socket. *)
Lemma inv_write st l1 l2 who p sock acc ev out p' r :
  write_attempt p ev = (out, p', r) -> inv (mk_system st (l1 ++ (who, p) :: l2) sock acc) ->
  inv (mk_system st (l1 ++ (who, p') :: l2) (sock ++ out) acc).
Proof.
  intros Hw%write_attempt_moves [Htok Hby Hq (later & Hst & Hlive)]. cbn [outbox holders socket accepted] in *.
  destruct (at_socket _ _ _ _ Htok) as (Hwr & -> & ->). constructor; simpl_sys; [rewrite Hwr; by eexists|done|done|].
  exists later. split; [|done]. unfold pending in *. cbn [app map concat snd] in *. rewrite app_nil_r in *.
  rewrite <- Hst, Hw. by rewrite <- !app_assoc.
Qed.

(** A thread that leaves the socket after what it wrote last. *)
Lemma inv_leave who st l1 l2 p sock acc p' r out :
  remainder p = out ++ remainder p' -> (r = Ok true -> remainder p' = []) -> (who = Writer -> r <> Ok false) ->
  inv (mk_system st (l1 ++ (who, p) :: l2) sock acc) ->
  inv (mk_system (release who st p' r) (l1 ++ l2) (sock ++ out) acc).
Proof.
  intros Hm Hdone Hretry [Htok Hby Hq (later & Hst & Hlive)]. cbn [outbox holders socket accepted] in *.
  destruct (at_socket _ _ _ _ Htok) as (Hwr & -> & ->). unfold pending in Hst. cbn [app map concat snd] in *.
  apply (inv_release who _ _ _ _ _ later); try done. by rewrite <- Hst, Hm, app_nil_r, <- !app_assoc.
Qed.

(** The writer gives up with bytes left. *)
Lemma inv_stalled st l1 l2 p sock acc reason :
  inv (mk_system st (l1 ++ (Writer, p) :: l2) sock acc) -> inv (mk_system (writer_finish st (Err reason)) (l1 ++ l2) sock acc).
Proof.
  intros [Htok Hby Hq (later & Hst & Hlive)]. cbn [outbox holders socket accepted] in *.
  destruct (at_socket _ _ _ _ Htok) as (Hwr & -> & ->). by apply (inv_killed _ _ _ _ (pending [(Writer, p)] ++ later)).
Qed.

Lemma inv_step s s' : inv s -> step s s' -> inv s'.
Proof.
  intros Hinv Hstep.
  destruct Hstep as [st l sock acc t hd tl n st' p Hchk Hent|st l sock acc t hd tl n st' Hchk Hent
    |st l sock acc hd tl st' e Hto|st l sock acc f st' _ Htake|st l1 l2 who p sock acc ev out p' Hw
    |st l1 l2 p sock acc ev out p' r Hw|st l1 l2 p sock acc|st l1 l2 p sock acc ev out p' r Hw Hr
    |st l1 l2 p sock acc ev out p' Hw|st l1 l2 p sock acc reason|st l sock acc|st l sock acc].
  - by eapply inv_inline.
  - by eapply inv_enqueue.
  - unfold send_timed_out in Hto. destruct (_ && _); [|done]. injection Hto as <- _. by apply inv_kill.
  - by eapply inv_take.
  - by eapply inv_write.
  - eapply inv_leave; [by eapply write_attempt_moves| |done|done]. intros ->. by eapply write_attempt_done.
  - rewrite <- (app_nil_r sock). by eapply inv_leave.
  - eapply inv_leave; [by eapply write_attempt_moves| |done|done]. intros ->. by eapply write_attempt_done.
  - by eapply inv_write.
  - by eapply inv_stalled.
  - destruct Hinv as [Htok Hby Hq (later & Hst & Hlive)]. constructor; simpl_sys; try done. by exists later.
  - destruct Hinv as [Htok Hby Hq (later & Hst & Hlive)]. constructor; simpl_sys; try done. by exists later.
Qed.

Lemma reachable_inv s : reachable s -> inv s.
Proof. induction 1; [apply inv_start|by eapply inv_step]. Qed.

(** What the socket has taken is what was accepted, in order, as far as it goes. *)
Lemma socket_prefix s : reachable s -> socket s `prefix_of` concat (accepted s).
Proof. intros Hs. destruct (reachable_inv s Hs) as [_ _ _ (later & Hst & _)]. rewrite <- Hst. by eexists. Qed.

(** C7. Frames never interleave mid-frame: in every reachable state - any number of
    producers and the writer thread, each free to go to the socket whenever its
    critical section lets it - at most one thread is at the socket, exactly when the
    token is taken; the bytes the socket has taken are a prefix of the accepted frames
    laid end to end, in the order in which they were accepted; and on a live outbox the
    rest of them is what that thread still has to write and then the queue. *)
Theorem frames_never_interleave s (Hs : reachable s) :
  socket s `prefix_of` concat (accepted s) /\
  (length (holders s) <= 1)%nat /\ (writing (outbox s) = true <-> holders s <> []) /\
  (dead (outbox s) = None ->
   concat (accepted s) = socket s ++ pending (holders s) ++ concat (map unit_bytes (queue (outbox s)))).
Proof.
  destruct (reachable_inv s Hs) as [Htok _ _ (later & Hst & Hlive)]. split; [by apply socket_prefix|]. split_and!.
  - destruct (writing _); [by destruct Htok as [h ->]|by rewrite Htok; cbn; lia].
  - destruct (writing _); [destruct Htok as [h ->]|rewrite Htok]; naive_solver.
  - intros Hd. by rewrite <- Hst, Hlive.
Qed.

(** A graceful end loses nothing: when the writer thread returns on a live
    outbox (every handle dropped, the queue drained), every frame ever accepted
    is on the socket in full. *)
Theorem graceful_end_delivers_all s (Hs : reachable s)
    (Hlive : dead (outbox s) = None) (Hret : writer_take (outbox s) = WriterReturn) :
  socket s = concat (accepted s).
Proof.
  destruct (reachable_inv s Hs) as [Htok _ _ (later & Hst & Hl)]. unfold writer_take in Hret.
  rewrite Hlive in Hret. destruct (writing (outbox s)) eqn:Hw; [done|].
  destruct (queue (outbox s)) as [|f q] eqn:Hq; [|done].
  rewrite <- Hst, Htok, (Hl Hlive). cbn. by rewrite app_nil_r.
Qed.

(** A short run: an inline write jams, a second frame queues behind it, the
    writer drains both, and the last handle drops. *)
Definition demo_system : system :=
  mk_system (mk_OutboxState [] 0 None 0 false) []
    (wire_bytes Out.Result [x01] [x02] ++ wire_bytes Out.Hello [] [])
    [wire_bytes Out.Result [x01] [x02]; wire_bytes Out.Hello [] []].

Tactic Notation "next_step" ident(H') hyp(H) uconstr(c) :=
  eassert (H' : reachable _) by (eapply reach_step; [exact H | eapply c; (reflexivity || discriminate)]).

Lemma demo_reachable : reachable demo_system.
Proof.
  assert (H1 : reachable (mk_system (mk_OutboxState [] 0 None 1 true)
    [(Inline, progress_new (envelope 3 Out.Result) [x01] [x02])] [] [wire_bytes Out.Result [x01] [x02]])).
  { eapply reach_step; [apply reach_start|].
    exact (StepInline spawn [] [] [] Out.Result [x01] [x02] 3 _ _ eq_refl eq_refl). }
  next_step H2 H1 (StepWrite _ [] [] _ _ _ _ (Wrote 6)).
  next_step H3 H2 (StepEnqueue _ _ _ _ Out.Hello [] [] 1).
  next_step H4 H3 (StepInlineEnd _ [] [] _ _ _ (WFailed (mk_io_error WouldBlock ""))).
  next_step H5 H4 StepTake.
  next_step H6 H5 (StepWriterEnd _ [] [] _ _ _ (Wrote 1)).
  next_step H7 H6 StepTake.
  next_step H8 H7 (StepWriterEnd _ [] [] _ _ _ (Wrote 5)).
  exact (reach_step _ _ H8 (StepDrop _ _ _ _)).
Qed.

Lemma frames_never_interleave_witness :
  socket demo_system `prefix_of` concat (accepted demo_system).
Proof. apply (frames_never_interleave demo_system demo_reachable). Defined.

Lemma graceful_end_delivers_all_witness :
  socket demo_system = concat (accepted demo_system).
Proof. apply (graceful_end_delivers_all demo_system demo_reachable); reflexivity. Defined.

(** ** The queue is bounded *)

(** What the queue can hold while it is fed: the budget, or one frame. *)
Definition fed_bound : Z := Z.max OUTBOX_CAP_BYTES DEFAULT_MAX_FRAME_LENGTH.
(** A whole frame on the wire: the length field and a frame at the ceiling. *)
Definition wire_bound : Z := DEFAULT_MAX_FRAME_LENGTH + 4.

Definition bounded (s : system) : Prop :=
  match holders s with
  | (Inline, p) :: _ => bytes (outbox s) <= fed_bound /\ zlen (remainder p) <= wire_bound
  | _ => bytes (outbox s) <= fed_bound + wire_bound
  end.

Lemma frame_len_nonneg f : 0 <= frame_len f.
Proof. destruct f; cbn; lia. Qed.

Lemma bounded_enqueue st n t hd tl st' :
  bytes st = sum_by frame_len (queue st) -> zlen hd + zlen tl + 1 <= DEFAULT_MAX_FRAME_LENGTH ->
  send_enter st n t hd tl = Enqueued st' -> bytes st' <= fed_bound.
Proof.
  intros Hby Hfit. unfold send_enter. destruct (dead st); [done|].
  destruct (bool_decide (queue st = []) && negb (writing st)); [done|].
  destruct (bool_decide_reflect (queue st = [])) as [He|]; cbn [orb].
  - intros [= <-]. cbn [bytes]. rewrite Hby, He. cbn [sum_by]. unfold fed_bound. lia.
  - destruct (Z.leb_spec (bytes st + (zlen hd + zlen tl)) OUTBOX_CAP_BYTES); [|done].
    intros [= <-]. cbn [bytes]. unfold fed_bound. lia.
Qed.

Lemma bounded_release who st p r :
  bytes st <= fed_bound /\ zlen (remainder p) <= wire_bound \/
  who = Writer /\ bytes st <= fed_bound + wire_bound ->
  bytes (release who st p r) <= fed_bound + wire_bound.
Proof.
  intros H. assert (0 <= wire_bound) by (unfold wire_bound, DEFAULT_MAX_FRAME_LENGTH; lia).
  unfold release, inline_finish, writer_finish, kill.
  destruct who, r as [[]|e]; cbn [fst bytes dead]; try destruct (dead st); cbn [bytes];
    destruct H as [[]|[? ?]]; try done; lia.
Qed.

Lemma bounded_step s s' : inv s -> bounded s -> step s s' -> bounded s'.
Proof.
  intros Hinv Hb Hstep. pose proof (inv_bytes _ Hinv) as Hby. pose proof (inv_token _ Hinv) as Htok.
  assert (Hw0 : 0 <= wire_bound) by (unfold wire_bound, DEFAULT_MAX_FRAME_LENGTH; lia).
  destruct Hstep as [st l sock acc t hd tl n st' p Hchk Hent|st l sock acc t hd tl n st' Hchk Hent
    |st l sock acc hd tl st' e Hto|st l sock acc f st' _ Htake|st l1 l2 who p sock acc ev out p' Hw
    |st l1 l2 p sock acc ev out p' r Hw|st l1 l2 p sock acc|st l1 l2 p sock acc ev out p' r Hw Hr
    |st l1 l2 p sock acc ev out p' Hw|st l1 l2 p sock acc reason|st l sock acc|st l sock acc];
    unfold bounded in *; cbn [outbox holders] in *;
    try (destruct (at_socket _ _ _ _ Htok) as (_ & -> & ->); cbn [app] in *);
    try (apply write_attempt_moves, (f_equal length) in Hw; rewrite length_app in Hw).
  - apply send_check_fits in Hchk as [-> Hfit]. unfold send_enter in Hent. destruct (dead st); [done|].
    destruct (bool_decide_reflect (queue st = [])) as [He|]; cbn [andb orb] in Hent; [|by destruct (_ <=? _)].
    destruct (writing st); cbn [negb] in Hent; [done|]. injection Hent as <- <-. cbn [bytes].
    rewrite Hby, He. cbn [sum_by]. rewrite remainder_new. unfold envelope.
    rewrite !length_app, length_u32_be. cbn [length]. unfold fed_bound, wire_bound, OUTBOX_CAP_BYTES. lia.
  - apply send_check_fits in Hchk as [-> Hfit]. pose proof (bounded_enqueue _ _ _ _ _ _ Hby Hfit Hent).
    destruct l as [|[[] p] l]; [lia|by split; [|apply Hb]|lia].
  - unfold send_timed_out in Hto. destruct (_ && _); [|done]. injection Hto as <- _.
    destruct (kill_fields st stall_reason) as (_ & -> & _). done.
  - unfold writer_take in Htake. destruct (dead st); [done|]. destruct (writing st); [done|]. subst l.
    destruct (queue st) as [|g q]; [by destruct (_ =? _)|]. injection Htake as -> <-. cbn [bytes].
    pose proof (frame_len_nonneg f). lia.
  - destruct who; [|done]. split; [apply Hb|lia].
  - apply bounded_release. left. split; [apply Hb|lia].
  - apply bounded_release. by left.
  - apply bounded_release. by right.
  - done.
  - cbn [writer_finish]. match goal with |- bytes (kill ?st' ?r) <= _ =>
      destruct (kill_fields st' r) as (_ & -> & _) end. done.
  - done.
  - done.
Qed.

(** A peer that stops draining cannot grow the queue without bound: the
    queued bytes never exceed one budget (or one frame, if that is larger) plus
    the remainder of one frame whose inline write jammed. *)
Theorem queue_bounded s (Hs : reachable s) :
  0 <= bytes (outbox s) <= Z.max OUTBOX_CAP_BYTES DEFAULT_MAX_FRAME_LENGTH + (DEFAULT_MAX_FRAME_LENGTH + 4).
Proof.
  assert (Hb : bounded s).
  { induction Hs as [|s s' Hs IH Hstep]; [done|]. by eapply bounded_step; [apply reachable_inv| |]. }
  split.
  - rewrite (inv_bytes _ (reachable_inv _ Hs)). apply sum_by_nonneg, frame_len_nonneg.
  - unfold bounded, fed_bound, wire_bound in Hb. destruct (holders s) as [|[[] p] l]; [done| |done].
    destruct Hb as [Hb _]. unfold DEFAULT_MAX_FRAME_LENGTH in *. lia.
Qed.

Lemma queue_bounded_witness : 0 <= bytes (outbox demo_system).
Proof. apply (queue_bounded demo_system demo_reachable). Defined.
