(* ===== verification/Policy.v ===== *)
(** * Eviction, pressure and admission policy ([crates/core/src/policy.rs])

    The pure decision functions the warm registry calls.  Instants are
    nanoseconds; [f64::powf] has no specified precision and is a parameter. *)

From S2P Require Import Prelude Bytes F64 Types.

(** ** [Iterator::max_by] and [Iterator::min_by]

    Several maxima: the last one wins; several minima: the first. *)

Definition max_by {A} (cmp : A -> A -> comparison) (l : list A) : option A :=
  match l with
  | [] => None
  | x :: l => Some (fold_left (fun x y => match cmp x y with Gt => x | _ => y end) l x)
  end.

Definition min_by {A} (cmp : A -> A -> comparison) (l : list A) : option A :=
  match l with
  | [] => None
  | x :: l => Some (fold_left (fun x y => match cmp x y with Gt => y | _ => x end) l x)
  end.

(** [Iterator::enumerate] *)
Definition enumerate {A} (l : list A) : list (nat * A) := imap pair l.

(** [Ordering::then_with] *)
Definition then_with (c d : comparison) : comparison := match c with Eq => d | _ => c end.

(** ** Victims *)

Record VictimFact := mk_VictimFact { heap_used_bytes : Z; last_used : Z }.

Definition AGE_EXPONENT : f64 := f64_ratio 12 10.

(** [Duration::as_secs_f64] of a duration in nanoseconds. *)
Definition as_secs_f64 (nanos : Z) : f64 :=
  f64_add (f64_of_Z (nanos / 1000000000))
          (f64_div (f64_of_Z (nanos mod 1000000000)) (f64_of_Z 1000000000)).

(** [Instant::saturating_duration_since] *)
Definition saturating_duration_since (now earlier : Z) : Z := sat_sub now earlier.

Section Powf.
Context (powf : f64 -> f64 -> f64).

Definition score (fact : VictimFact) (now : Z) : f64 :=
  let idle_secs := as_secs_f64 (saturating_duration_since now (last_used fact)) in
  f64_mul (f64_of_Z (heap_used_bytes fact)) (powf idle_secs AGE_EXPONENT).

(** [partial_cmp(..).unwrap_or(Equal)] *)
Definition f64_cmp (a b : f64) : comparison := default Eq (SFcompare a b).

Definition victim_cmp (now : Z) (a b : nat * VictimFact) : comparison :=
  then_with (f64_cmp (score a.2 now) (score b.2 now)) (last_used b.2 ?= last_used a.2).

Definition pick_victim (idle : list VictimFact) (now : Z) : option nat :=
  fst <$> max_by (victim_cmp now) (enumerate idle).

(** ** Slots *)

Record SlotFacts := mk_SlotFacts { sf_arrivals_per_sec : f64; wall_ms : f64; sf_cpu_ms : f64 }.

Definition SLOT_COEFFICIENT : f64 := f64_of_Z 5.
Definition SLOT_WALL_EXPONENT : f64 := f64_ratio 7 10.
Definition SLOT_CPU_EXPONENT : f64 := f64_ratio 12 10.

(** [Iterator::sum::<f64>] *)
Definition f64_sum (l : list f64) : f64 := fold_left f64_add l (S754_zero true).

(** [u64::clamp] *)
Definition clamp (x lo hi : Z) : Z := if x <? lo then lo else if hi <? x then hi else x.

Definition target_slots (prefixes : list SlotFacts) (cores : Z) : Z :=
  let cores_f := f64_of_Z (Z.max cores 1) in
  let weight p := f64_max (sf_arrivals_per_sec p) f64_zero in
  let total_weight := f64_sum (map weight prefixes) in
  let shape :=
    if f64_lt f64_zero total_weight then
      Some (f64_div (f64_sum (map (fun p => f64_mul (wall_ms p) (weight p)) prefixes)) total_weight,
            f64_div (f64_sum (map (fun p => f64_mul (sf_cpu_ms p) (weight p)) prefixes)) total_weight)
    else match prefixes with
    | [] => None
    | _ =>
      let n := f64_of_Z (zlen prefixes) in
      Some (f64_div (f64_sum (map wall_ms prefixes)) n, f64_div (f64_sum (map sf_cpu_ms prefixes)) n)
    end in
  match shape with
  | None => Z.max cores 1
  | Some (wall_ms, cpu_ms) =>
    if negb (f64_lt f64_zero wall_ms) || negb (f64_lt f64_zero cpu_ms) then Z.max cores 1
    else
      let slots :=
        f64_div (f64_mul (f64_mul SLOT_COEFFICIENT cores_f) (powf wall_ms SLOT_WALL_EXPONENT))
                (powf cpu_ms SLOT_CPU_EXPONENT) in
      if negb (is_finite slots) then Z.max cores 1
      else clamp (f64_to_uint u64_max (f64_round slots)) (Z.max cores 1) u32_max
  end.
End Powf.

(** ** The watermark *)

Record PassOutcome := mk_PassOutcome { usage_at_pass : Z }.

Record PressureFacts := mk_PressureFacts {
  pf_usage_bytes : Z;
  pf_budget_bytes : Z;
  was_shedding : bool;
  last_pass : option PassOutcome;
  idle_count : Z;
}.

Record PressureVerdict := mk_PressureVerdict { shedding : bool; evict : Z }.

Definition shed_target (idle_count : Z) : Z := Z.max (idle_count / 10) 1.

Definition watermark_action (facts : PressureFacts) : PressureVerdict :=
  if pf_budget_bytes facts =? 0 then mk_PressureVerdict false 0
  else
    let release := pf_budget_bytes facts / 5 * 4 in
    let shedding := (pf_budget_bytes facts <=? pf_usage_bytes facts)
      || (was_shedding facts && (release <? pf_usage_bytes facts)) in
    if negb shedding || (idle_count facts =? 0) then mk_PressureVerdict shedding 0
    else
      let flat := match last_pass facts with
        | Some last => abs_diff (pf_usage_bytes facts) (usage_at_pass last) <=? usage_at_pass last / 20
        | None => false
        end in
      if flat then mk_PressureVerdict shedding 0
      else mk_PressureVerdict shedding (shed_target (idle_count facts)).

(** ** The soft line *)

Definition SOFT_LINE_STRIKES : Z := 2.

Definition soft_strike (prev : Z) (over_soft : bool) : Z * bool :=
  if negb over_soft then (0, false)
  else
    let strikes := sat_add u8_max prev 1 in
    (strikes, SOFT_LINE_STRIKES <=? strikes).

(** ** Admission, spawning and joining *)

Record AdmitFacts := mk_AdmitFacts {
  af_usage_bytes : Z;
  run_cap_bytes : Z;
  af_hard_line_bytes : Z;
  af_budget_bytes : Z;
}.

Definition admit_isolate (facts : AdmitFacts) : bool :=
  if run_cap_bytes facts =? 0 then
    (af_budget_bytes facts =? 0) || (af_usage_bytes facts <? af_budget_bytes facts)
  else
    (af_hard_line_bytes facts =? 0)
    || (sat_add u64_max (af_usage_bytes facts) (run_cap_bytes facts) <=? af_hard_line_bytes facts).

Definition UTILIZATION_TARGET_PERMILLE : Z := 800.

Record SpawnFacts := mk_SpawnFacts {
  sp_arrivals_per_sec : f64;
  cpu_ms_per_run : option f64;
  live_instances : Z;
  sp_cores : Z;
}.

Definition should_spawn (f : SpawnFacts) : bool :=
  if sp_cores f <=? live_instances f then false
  else match cpu_ms_per_run f with
  | None => true
  | Some cpu_ms =>
    let demand_threads := f64_div (f64_mul (sp_arrivals_per_sec f) cpu_ms) (f64_of_Z 1000) in
    let absorbed := f64_div (f64_mul (f64_of_Z (live_instances f)) (f64_of_Z UTILIZATION_TARGET_PERMILLE))
                      (f64_of_Z 1000) in
    f64_lt absorbed demand_threads
  end.

Record JoinFact := mk_JoinFact { in_flight : Z; util_permille : Z }.

Definition pick_join_target (instances : list JoinFact) : option nat :=
  fst <$> max_by (fun a b => in_flight a.2 ?= in_flight b.2)
    (filter (fun x => util_permille x.2 < UTILIZATION_TARGET_PERMILLE) (enumerate instances)).

(** Tuples compare lexicographically. *)
Definition join_fallback (instances : list JoinFact) : option nat :=
  fst <$> min_by (fun a b => then_with (util_permille a.2 ?= util_permille b.2) (in_flight a.2 ?= in_flight b.2))
    (enumerate instances).

(** ** Orders by key *)

Fixpoint lexcmp (a b : list Z) : comparison :=
  match a, b with
  | [], [] => Eq
  | [], _ :: _ => Lt
  | _ :: _, [] => Gt
  | x :: a, y :: b => then_with (x ?= y) (lexcmp a b)
  end.

Lemma lexcmp_total a b : lexcmp a b = Gt -> lexcmp b a <> Gt.
Proof.
  revert b. induction a as [|x a IH]; intros [|y b]; cbn; try done.
  destruct (Z.compare_spec x y), (Z.compare_spec y x); cbn; try done; try lia; apply IH.
Qed.

Lemma lexcmp_antisym a b : lexcmp a b = CompOpp (lexcmp b a).
Proof.
  revert b. induction a as [|x a IH]; intros [|y b]; cbn; try done.
  rewrite (Z.compare_antisym y x), IH. by destruct (y ?= x).
Qed.

Lemma lexcmp_trans a b c : lexcmp a b <> Gt -> lexcmp b c <> Gt -> lexcmp a c <> Gt.
Proof.
  revert b c. induction a as [|x a IH]; intros [|y b] [|z c]; cbn; try done.
  destruct (Z.compare_spec x y), (Z.compare_spec y z), (Z.compare_spec x z); cbn; try done; try lia; apply IH.
Qed.

Lemma lexcmp_refl a : lexcmp a a <> Gt.
Proof. induction a as [|x a IH]; cbn; [done|]. rewrite Z.compare_refl. exact IH. Qed.

Section Extremum.
Context {A : Type} (key : A -> list Z) (cmp : A -> A -> comparison).

Lemma fold_max_lex l x :
  (forall a b, a ∈ x :: l -> b ∈ x :: l -> cmp a b = lexcmp (key a) (key b)) ->
  let m := fold_left (fun x y => match cmp x y with Gt => x | _ => y end) l x in
  m ∈ x :: l /\ forall y, y ∈ x :: l -> lexcmp (key y) (key m) <> Gt.
Proof.
  revert x. induction l as [|y l IH]; intros x Hc; cbn [fold_left].
  - split; [left|]. intros y Hy%list_elem_of_singleton. subst. apply lexcmp_refl.
  - set (w := match cmp x y with Gt => x | _ => y end).
    assert (Hw : (w = x \/ w = y) /\ lexcmp (key x) (key w) <> Gt /\ lexcmp (key y) (key w) <> Gt).
    { unfold w. rewrite (Hc x y) by (rewrite ?elem_of_cons; auto).
      destruct (lexcmp (key x) (key y)) eqn:E; (split; [auto|split]);
        rewrite ?E; try done; try apply lexcmp_refl. by apply lexcmp_total. }
    clearbody w. destruct Hw as (Hin & Hx & Hy).
    assert (Hsub : forall a, a ∈ w :: l -> a ∈ x :: y :: l)
      by (intros a; rewrite !elem_of_cons; destruct Hin as [->| ->]; tauto).
    destruct (IH w) as [Hm Hmax]; [intros; apply Hc; auto|].
    split; [auto|]. intros z Hz.
    apply elem_of_cons in Hz as [->|Hz]; [|apply elem_of_cons in Hz as [->|Hz]].
    + eapply lexcmp_trans; [exact Hx|]. apply Hmax. left.
    + eapply lexcmp_trans; [exact Hy|]. apply Hmax. left.
    + apply Hmax. by right.
Qed.

Lemma max_by_lex l m :
  (forall a b, a ∈ l -> b ∈ l -> cmp a b = lexcmp (key a) (key b)) ->
  max_by cmp l = Some m -> m ∈ l /\ forall y, y ∈ l -> lexcmp (key y) (key m) <> Gt.
Proof. destruct l as [|x l]; [done|]. intros Hc [= <-]. by apply fold_max_lex. Qed.

Lemma fold_min_lex l x :
  (forall a b, a ∈ x :: l -> b ∈ x :: l -> cmp a b = lexcmp (key a) (key b)) ->
  let m := fold_left (fun x y => match cmp x y with Gt => y | _ => x end) l x in
  m ∈ x :: l /\ forall y, y ∈ x :: l -> lexcmp (key m) (key y) <> Gt.
Proof.
  revert x. induction l as [|y l IH]; intros x Hc; cbn [fold_left].
  - split; [left|]. intros y Hy%list_elem_of_singleton. subst. apply lexcmp_refl.
  - set (w := match cmp x y with Gt => y | _ => x end).
    assert (Hw : (w = x \/ w = y) /\ lexcmp (key w) (key x) <> Gt /\ lexcmp (key w) (key y) <> Gt).
    { unfold w. rewrite (Hc x y) by (rewrite ?elem_of_cons; auto).
      destruct (lexcmp (key x) (key y)) eqn:E; (split; [auto|split]);
        rewrite ?E; try done; try apply lexcmp_refl. by apply lexcmp_total. }
    clearbody w. destruct Hw as (Hin & Hx & Hy).
    assert (Hsub : forall a, a ∈ w :: l -> a ∈ x :: y :: l)
      by (intros a; rewrite !elem_of_cons; destruct Hin as [->| ->]; tauto).
    destruct (IH w) as [Hm Hmax]; [intros; apply Hc; auto|].
    split; [auto|]. intros z Hz.
    apply elem_of_cons in Hz as [->|Hz]; [|apply elem_of_cons in Hz as [->|Hz]].
    + eapply lexcmp_trans; [|exact Hx]. apply Hmax. left.
    + eapply lexcmp_trans; [|exact Hy]. apply Hmax. left.
    + apply Hmax. by right.
Qed.

Lemma min_by_lex l m :
  (forall a b, a ∈ l -> b ∈ l -> cmp a b = lexcmp (key a) (key b)) ->
  min_by cmp l = Some m -> m ∈ l /\ forall y, y ∈ l -> lexcmp (key m) (key y) <> Gt.
Proof. destruct l as [|x l]; [done|]. intros Hc [= <-]. by apply fold_min_lex. Qed.

Lemma max_by_none l : max_by cmp l = None <-> l = [].
Proof. by destruct l. Qed.
Lemma min_by_none l : min_by cmp l = None <-> l = [].
Proof. by destruct l. Qed.
End Extremum.

Lemma elem_of_enumerate {A} (l : list A) i x : (i, x) ∈ enumerate l <-> l !! i = Some x.
Proof.
  unfold enumerate. rewrite elem_of_lookup_imap. split.
  - intros (j & y & [= -> ->] & H). done.
  - intros H. by exists i, x.
Qed.

Lemma enumerate_nil {A} (l : list A) : enumerate l = [] <-> l = [].
Proof. by destruct l. Qed.

(** The order of non-NaN doubles as an order of integers. *)
Definition f64_key (x : f64) : list Z :=
  match x with
  | S754_nan => [0; 0; 0]
  | S754_zero _ => [0; 0; 0]
  | S754_infinity s => [if s then -2 else 2; 0; 0]
  | S754_finite s m e => if s then [-1; - e; - Zpos m] else [1; e; Zpos m]
  end.

Lemma f64_cmp_key a b :
  is_nan a = false -> is_nan b = false -> f64_cmp a b = lexcmp (f64_key a) (f64_key b).
Proof.
  unfold f64_cmp. intros Ha Hb.
  destruct a as [[]|[]| |[] m1 e1], b as [[]|[]| |[] m2 e2]; try done; cbn -[Z.opp Z.compare].
  - rewrite (Z.compare_opp e1 e2), (Z.compare_antisym e1 e2).
    destruct (e1 ?= e2); cbn [CompOpp default then_with]; try done.
    change (CompOpp (m1 ?= m2)%positive = then_with (- Zpos m1 ?= - Zpos m2) Eq).
    rewrite Z.compare_opp. cbn [Z.compare]. rewrite (Pos.compare_antisym m1 m2).
    by destruct (m1 ?= m2)%positive.
  - destruct (e1 ?= e2); cbn; try done. unfold Pos.compare. by destruct (Pos.compare_cont Eq m1 m2).
Qed.

(** ** Victims *)

Lemma lexcmp_app a b c d :
  length a = length c -> lexcmp (a ++ b) (c ++ d) = then_with (lexcmp a c) (lexcmp b d).
Proof.
  revert c. induction a as [|x a IH]; intros [|y c] H; cbn in *; try done.
  rewrite IH by lia. by destruct (x ?= y).
Qed.

Lemma f64_key_length x : length (f64_key x) = 3%nat.
Proof. by destruct x as [?|?| |[]]. Qed.

Lemma f64_lt_key a b :
  is_nan a = false -> is_nan b = false -> f64_lt a b = true -> lexcmp (f64_key a) (f64_key b) = Lt.
Proof.
  intros Ha Hb H. rewrite <- f64_cmp_key by done. unfold f64_lt, SFltb in H. unfold f64_cmp.
  destruct (SFcompare a b) as [[]|]; done.
Qed.

Definition victim_key (powf : f64 -> f64 -> f64) (now : Z) (x : nat * VictimFact) : list Z :=
  f64_key (score powf x.2 now) ++ [- last_used x.2].

Lemma victim_cmp_key powf now a b :
  is_nan (score powf a.2 now) = false -> is_nan (score powf b.2 now) = false ->
  victim_cmp powf now a b = lexcmp (victim_key powf now a) (victim_key powf now b).
Proof.
  intros Ha Hb. unfold victim_cmp, victim_key.
  rewrite lexcmp_app by (by rewrite !f64_key_length). rewrite f64_cmp_key by done.
  cbn [lexcmp]. rewrite Z.compare_opp. by destruct (lexcmp _ _), (last_used b.2 ?= last_used a.2).
Qed.

(** The victim picker returns a candidate whenever there is one; no
    candidate scores higher than its choice, and among equal scores none has
    been idle longer. *)
Theorem pick_victim_spec powf idle now
    (Hnan : Forall (fun f => is_nan (score powf f now) = false) idle) :
  match pick_victim powf idle now with
  | None => idle = []
  | Some i => exists f, idle !! i = Some f /\
      forall j g, idle !! j = Some g ->
        f64_lt (score powf f now) (score powf g now) = false /\
        (f64_cmp (score powf g now) (score powf f now) = Eq -> last_used f <= last_used g)
  end.
Proof.
  assert (Hok : forall i f, (i, f) ∈ enumerate idle -> is_nan (score powf f now) = false).
  { intros i f Hi%elem_of_enumerate. by eapply (Forall_lookup_1 _ _ _ _ Hnan). }
  unfold pick_victim. destruct (max_by _ _) as [[i f]|] eqn:Hm; cbn [fmap option_fmap option_map].
  - apply (max_by_lex (victim_key powf now)) in Hm as [Hin Hmax].
    2:{ intros [] [] Ha Hb. apply victim_cmp_key; eauto. }
    exists f. split; [by apply elem_of_enumerate|]. intros j g Hj%elem_of_enumerate.
    specialize (Hmax _ Hj). unfold victim_key in Hmax.
    rewrite lexcmp_app in Hmax by (by rewrite !f64_key_length). cbn [snd] in Hmax.
    assert (Hnf := Hok _ _ Hin). assert (Hng := Hok _ _ Hj). split.
    + destruct (f64_lt _ _) eqn:E; [|done]. apply f64_lt_key in E; [|done..].
      rewrite lexcmp_antisym, E in Hmax. by destruct Hmax.
    + intros E. rewrite f64_cmp_key in E by done. rewrite E in Hmax. cbn in Hmax.
      destruct (Z.compare_spec (- last_used g) (- last_used f)); cbn in Hmax; lia || done.
  - rewrite max_by_none, enumerate_nil in Hm. done.
Qed.

(** Any exponentiation will do for a concrete run; here the identity. *)
Definition linear (x _ : f64) : f64 := x.

Definition sample_idle : list VictimFact :=
  [mk_VictimFact 100 5000000000; mk_VictimFact 50 1000000000; mk_VictimFact 0 0].

Lemma pick_victim_spec_witness :
  pick_victim linear sample_idle 9000000000 = Some 1%nat /\
  exists f, sample_idle !! 1%nat = Some f /\ forall j g, sample_idle !! j = Some g ->
    f64_lt (score linear f 9000000000) (score linear g 9000000000) = false.
Proof.
  assert (Hpick : pick_victim linear sample_idle 9000000000 = Some 1%nat) by (vm_compute; reflexivity).
  split; [exact Hpick|].
  assert (Hnan : Forall (fun f => is_nan (score linear f 9000000000) = false) sample_idle)
    by (repeat apply List.Forall_cons; [vm_compute; reflexivity..|apply List.Forall_nil]).
  pose proof (pick_victim_spec linear sample_idle 9000000000 Hnan) as H. rewrite Hpick in H.
  destruct H as (f & Hf & Hall). exists f. split; [exact Hf|]. intros j g Hj. apply (Hall j g Hj).
Defined.

(** ** The watermark *)

(** The two outcomes of the futility check. *)
Ltac flat_cases f := destruct (last_pass f) as [?l|]; [destruct (abs_diff _ _ <=? _)|].

(** The latch after one sample, whatever the pool looks like. *)
Definition latch (budget : Z) (was : bool) (usage : Z) : bool :=
  shedding (watermark_action (mk_PressureFacts usage budget was None 0)).

Lemma watermark_shedding f :
  shedding (watermark_action f) = latch (pf_budget_bytes f) (was_shedding f) (pf_usage_bytes f).
Proof.
  unfold latch, watermark_action. cbn [pf_budget_bytes pf_usage_bytes was_shedding last_pass idle_count].
  destruct (pf_budget_bytes f =? 0); [done|].
  set (b := (pf_budget_bytes f <=? pf_usage_bytes f) || _). rewrite Z.eqb_refl, orb_true_r.
  destruct (negb b || _); [done|]. by flat_cases f.
Qed.

Lemma latch_spec budget was usage :
  latch budget was usage = true <->
  budget <> 0 /\ (budget <= usage \/ was = true /\ budget / 5 * 4 < usage).
Proof.
  unfold latch, watermark_action. cbn [pf_budget_bytes pf_usage_bytes was_shedding last_pass idle_count].
  destruct (Z.eqb_spec budget 0); cbn [shedding]; [naive_solver|].
  rewrite Z.eqb_refl, orb_true_r. cbn [shedding].
  rewrite orb_true_iff, andb_true_iff, Z.leb_le, Z.ltb_lt. tauto.
Qed.

(** The watermark: the latch sets at the budget, releases at four fifths
    of it, and does not move on any run of samples strictly between the two
    (no flapping); an eviction order is given only while it holds, never for
    more instances than are idle, and never when the last pass left usage flat
    (the latch holds all the same). *)
Theorem watermark_spec f samples
    (Hidle : 0 <= idle_count f)
    (Hband : Forall (fun u => pf_budget_bytes f / 5 * 4 < u < pf_budget_bytes f) samples) :
  let v := watermark_action f in
  (shedding v = true <-> pf_budget_bytes f <> 0 /\
     (pf_budget_bytes f <= pf_usage_bytes f \/
      was_shedding f = true /\ pf_budget_bytes f / 5 * 4 < pf_usage_bytes f)) /\
  (pf_budget_bytes f <> 0 ->
     fold_left (latch (pf_budget_bytes f)) samples (shedding v) = shedding v) /\
  (0 <= evict v <= idle_count f) /\
  (0 < evict v -> shedding v = true) /\
  (forall last, last_pass f = Some last ->
     abs_diff (pf_usage_bytes f) (usage_at_pass last) <= usage_at_pass last / 20 -> evict v = 0).
Proof.
  cbn zeta. rewrite watermark_shedding. split; [apply latch_spec|]. split; [|split; [|split]].
  - intros Hb. generalize (latch (pf_budget_bytes f) (was_shedding f) (pf_usage_bytes f)) as s0.
    induction Hband as [|u us Hu _ IH]; intros s0; cbn [fold_left]; [done|].
    assert (Hs : latch (pf_budget_bytes f) s0 u = s0); [|by rewrite Hs].
    apply eq_true_iff_eq. rewrite latch_spec. destruct s0; naive_solver lia.
  - unfold watermark_action, shed_target. destruct (_ =? 0); cbn [evict]; [lia|].
    destruct (Z.eqb_spec (idle_count f) 0); [rewrite orb_true_r; cbn; lia|].
    destruct (negb _ || false); cbn [evict]; [lia|].
    enough (0 <= Z.max (idle_count f / 10) 1 <= idle_count f) by (flat_cases f; cbn [evict]; lia).
    assert (idle_count f / 10 <= idle_count f) by (apply Z.div_le_upper_bound; lia).
    pose proof (Z.div_pos (idle_count f) 10). lia.
  - rewrite <- watermark_shedding. unfold watermark_action. destruct (_ =? 0); [cbn; lia|].
    set (b := (pf_budget_bytes f <=? pf_usage_bytes f) || _). destruct b; cbn [negb orb]; [|cbn; lia].
    destruct (_ =? 0); [cbn; lia|]. flat_cases f; cbn [evict shedding]; (lia || done).
  - intros last Hl Hflat. unfold watermark_action. destruct (_ =? 0); [done|].
    destruct (negb _ || _); [done|]. rewrite Hl. apply Z.leb_le in Hflat. by rewrite Hflat.
Qed.

Lemma watermark_spec_witness :
  let f := mk_PressureFacts 1000 1000 false None 25 in
  fold_left (latch 1000) [900; 850; 999] (shedding (watermark_action f)) = true /\
  evict (watermark_action f) = 2.
Proof.
  cbn zeta.
  assert (Hband : Forall (fun u => 1000 / 5 * 4 < u < 1000) [900; 850; 999])
    by (repeat apply List.Forall_cons; [split; reflexivity..|apply List.Forall_nil]).
  destruct (watermark_spec (mk_PressureFacts 1000 1000 false None 25) [900; 850; 999]
    ltac:(discriminate) Hband) as (_ & Htrace & _).
  split; [exact (Htrace ltac:(discriminate))|reflexivity].
Defined.

(** ** The soft line *)

(** The strike count after a history of finishes, and the verdict at the last. *)
Definition strikes_after (history : list bool) : Z :=
  fold_left (fun s over => (soft_strike s over).1) history 0.

Lemma strikes_snoc h b : strikes_after (h ++ [b]) = (soft_strike (strikes_after h) b).1.
Proof. unfold strikes_after. by rewrite fold_left_app. Qed.

Lemma strikes_range h : 0 <= strikes_after h <= u8_max.
Proof.
  induction h as [|b h IH] using rev_ind; [cbn; zsolve|]. rewrite strikes_snoc.
  unfold soft_strike. destruct b; cbn [negb fst]; zsolve.
Qed.

Lemma strikes_zero h : strikes_after h = 0 <-> last h <> Some true.
Proof.
  destruct h as [|b h _] using rev_ind; [by split|]. rewrite last_snoc, strikes_snoc.
  pose proof (strikes_range h). unfold soft_strike. destruct b; cbn [negb fst].
  - split; [zsolve|by intros []].
  - by split.
Qed.

(** An instance is retired by the soft line exactly when its last two
    finishes were both over it: one crossing is a spike, and a finish under the
    line clears the count, whatever came before. *)
Theorem soft_strike_two_in_a_row history over :
  (soft_strike (strikes_after history) over).2 = true <-> over = true /\ last history = Some true.
Proof.
  pose proof (strikes_range history) as Hr. pose proof (strikes_zero history) as Hz.
  unfold soft_strike. destruct over; cbn [negb snd]; [|naive_solver].
  unfold SOFT_LINE_STRIKES. rewrite Z.leb_le. split.
  - intros H. split; [done|]. destruct (decide (last history = Some true)) as [|Hn]; [done|].
    apply Hz in Hn. rewrite Hn in H. cbn in H. zsolve.
  - intros [_ Hl]. assert (strikes_after history <> 0) by (rewrite Hz; naive_solver). zsolve.
Qed.

(** ** Admission *)

(** A capped run gets a new isolate exactly when measured usage plus its
    own cap stays at or below the hard line (or no line is readable), saturation
    included; an uncapped one exactly while usage is below the budget (or there
    is none). *)
Theorem admit_isolate_spec f
    (Hu : is_u64 (af_usage_bytes f)) (Hc : is_u64 (run_cap_bytes f)) (Hl : is_u64 (af_hard_line_bytes f))
    (Hsmall : af_hard_line_bytes f < u64_max) :
  admit_isolate f = true <->
  if decide (run_cap_bytes f = 0)
  then af_budget_bytes f = 0 \/ af_usage_bytes f < af_budget_bytes f
  else af_hard_line_bytes f = 0 \/ af_usage_bytes f + run_cap_bytes f <= af_hard_line_bytes f.
Proof.
  unfold admit_isolate. destruct (Z.eqb_spec (run_cap_bytes f) 0) as [H|H].
  - rewrite decide_True by done. rewrite orb_true_iff, Z.eqb_eq, Z.ltb_lt. done.
  - rewrite decide_False by done. rewrite orb_true_iff, Z.eqb_eq, Z.leb_le. zsolve.
Qed.

Lemma admit_isolate_spec_witness :
  admit_isolate (mk_AdmitFacts 700 200 900 0) = true /\ ~ admit_isolate (mk_AdmitFacts 701 200 900 0) = true.
Proof.
  split.
  - apply admit_isolate_spec; [cbn; zsolve..|]. rewrite decide_False by discriminate. right. cbn. lia.
  - rewrite admit_isolate_spec by (cbn; zsolve). rewrite decide_False by discriminate. cbn. lia.
Defined.

(** ** Slots *)

(** Whatever the samples say (zero, infinite or NaN rates included) and
    however [powf] rounds, the slot count is at least the core count, at least
    one, and fits the [u32] of the wire. *)
Lemma target_slots_range powf prefixes cores (Hc : cores <= u32_max) :
  Z.max cores 1 <= target_slots powf prefixes cores <= u32_max.
Proof.
  assert (Hm : Z.max cores 1 <= Z.max cores 1 <= u32_max) by zsolve.
  unfold target_slots. cbn zeta. destruct (if f64_lt _ _ then _ else _) as [[w c]|]; [|exact Hm].
  destruct (_ || _); [exact Hm|]. destruct (negb _); [exact Hm|].
  unfold clamp. destruct (Z.ltb_spec (f64_to_uint u64_max (f64_round
    (f64_div (f64_mul (f64_mul SLOT_COEFFICIENT (f64_of_Z (Z.max cores 1))) (powf w SLOT_WALL_EXPONENT))
      (powf c SLOT_CPU_EXPONENT)))) (Z.max cores 1)); [exact Hm|].
  destruct (Z.ltb_spec u32_max (f64_to_uint u64_max (f64_round
    (f64_div (f64_mul (f64_mul SLOT_COEFFICIENT (f64_of_Z (Z.max cores 1))) (powf w SLOT_WALL_EXPONENT))
      (powf c SLOT_CPU_EXPONENT))))); lia.
Qed.

(** ** Joining *)

(** A join packs: it picks an unsaturated instance with the most runs in
    flight, and reports none only when every instance is saturated; the fallback
    picks a least-utilized one, and fails only when there is no instance. *)
Theorem join_routing l :
  match pick_join_target l with
  | Some i => exists f, l !! i = Some f /\ util_permille f < UTILIZATION_TARGET_PERMILLE /\
      forall j g, l !! j = Some g -> util_permille g < UTILIZATION_TARGET_PERMILLE -> in_flight g <= in_flight f
  | None => forall j g, l !! j = Some g -> UTILIZATION_TARGET_PERMILLE <= util_permille g
  end /\
  match join_fallback l with
  | Some i => exists f, l !! i = Some f /\ forall j g, l !! j = Some g -> util_permille f <= util_permille g
  | None => l = []
  end.
Proof.
  split.
  - unfold pick_join_target. destruct (max_by _ _) as [[i f]|] eqn:Hm; cbn [fmap option_fmap option_map fst].
    + apply (max_by_lex (fun x => [in_flight x.2])) in Hm as [Hin Hmax].
      2:{ intros [] [] _ _. cbn. by destruct (_ ?= _). }
      apply list_elem_of_filter in Hin as [Hu Hin]. exists f. split; [by apply elem_of_enumerate|].
      split; [done|]. intros j g Hj Hg. assert (Hgm : lexcmp [in_flight g] [in_flight f] <> Gt).
      { apply (Hmax (j, g)). apply list_elem_of_filter. split; [done|]. by apply elem_of_enumerate. }
      cbn in Hgm. destruct (Z.compare_spec (in_flight g) (in_flight f)); cbn in Hgm; lia || done.
    + rewrite max_by_none in Hm. intros j g Hj. apply Z.nlt_ge. intros Hlt.
      assert (Hin : (j, g) ∈ filter (fun x => util_permille x.2 < UTILIZATION_TARGET_PERMILLE) (enumerate l)).
      { apply list_elem_of_filter. split; [done|]. by apply elem_of_enumerate. }
      rewrite Hm in Hin. by apply elem_of_nil in Hin.
  - unfold join_fallback. destruct (min_by _ _) as [[i f]|] eqn:Hm; cbn [fmap option_fmap option_map fst].
    + apply (min_by_lex (fun x => [util_permille x.2; in_flight x.2])) in Hm as [Hin Hmin].
      2:{ intros [] [] _ _. cbn. by destruct (_ ?= _), (_ ?= _). }
      exists f. split; [by apply elem_of_enumerate|]. intros j g Hj%elem_of_enumerate.
      specialize (Hmin _ Hj). cbn in Hmin.
      destruct (Z.compare_spec (util_permille f) (util_permille g)); cbn in Hmin; lia || done.
    + by rewrite min_by_none, enumerate_nil in Hm.
Qed.
