(* ===== verification/Container.v ===== *)
(** * The container meter ([crates/core/src/container.rs])

    The admission line drawn from the container's memory limit, the limit and
    usage readers on the contents of the cgroup files, and the usage cache.
    File access is outside the model: a reader takes the contents ([None] when
    the file cannot be read).  Texts are ASCII, as the kernel writes them. *)

From S2P Require Import Prelude Bytes.

Definition DEFAULT_HOST_RESERVE_BYTES : Z := 128 * 1024 * 1024.

Definition line_from (limit_bytes reserve_bytes : Z) : Z := sat_sub limit_bytes reserve_bytes / 10 * 9.

Definition admission_line_bytes (limit : option Z) (host_reserve : Z) : Z :=
  match limit with Some limit => line_from limit host_reserve | None => 0 end.

(** ** Reading numbers *)

Definition is_space (b : byte) : bool := in_range 9 13 b || (b2z b =? 32).
Definition is_ascii_space (b : byte) : bool :=
  (b2z b =? 32) || in_range 9 10 b || in_range 12 13 b.
Definition is_digit (b : byte) : bool := in_range 48 57 b.

Fixpoint trim_start (bs : list byte) : list byte :=
  match bs with b :: r => if is_space b then trim_start r else bs | [] => [] end.
Definition trim (bs : list byte) : list byte := reverse (trim_start (reverse (trim_start bs))).

(** [str::parse::<u64>]: an optional sign, digits, no overflow. *)
Fixpoint digits_val (bs : list byte) (acc : Z) : option Z :=
  match bs with
  | [] => Some acc
  | b :: r =>
    if is_digit b then
      let acc := acc * 10 + (b2z b - 48) in
      if acc <=? u64_max then digits_val r acc else None
    else None
  end.

Definition parse_u64 (bs : list byte) : option Z :=
  let body := match bs with b :: r => if b2z b =? 43 then r else bs | [] => [] end in
  match body with [] => None | _ => digits_val body 0 end.

(** [str::lines], [str::split_ascii_whitespace] *)
Fixpoint split_by (sep : byte -> bool) (cur : list byte) (bs : list byte) : list (list byte) :=
  match bs with
  | [] => [reverse cur]
  | b :: r => if sep b then reverse cur :: split_by sep [] r else split_by sep (b :: cur) r
  end.
Definition lines (bs : list byte) : list (list byte) := split_by (fun b => b2z b =? 10) [] bs.
Definition words (bs : list byte) : list (list byte) :=
  filter (fun w => w <> []) (split_by is_ascii_space [] bs).

Fixpoint starts_with (bs key : list byte) : bool :=
  match key, bs with
  | [], _ => true
  | k :: key, b :: bs => bool_decide (k = b) && starts_with bs key
  | _ :: _, [] => false
  end.

(** [text.lines().find(|l| l.starts_with(key))?.split_ascii_whitespace().nth(1)?.parse().ok()] *)
Definition field_of (text key : list byte) : option Z :=
  l ← List.find (fun l => starts_with l key) (lines text);
  w ← words l !! 1%nat;
  parse_u64 w.

(** ** The limit *)

Definition no_limit : Z := Z.shiftl 1 50.

(** [read_limit] on Linux: the v2 file, the v1 file, [/proc/meminfo]. *)
Definition read_limit (v2 v1 meminfo : option (list byte)) : option (Z * string) :=
  let bounded text :=
    match text with
    | Some s => match parse_u64 (trim s) with Some n => if n <? no_limit then Some n else None | None => None end
    | None => None
    end in
  match bounded v2 with
  | Some n => Some (n, "cgroup v2")
  | None =>
    match bounded v1 with
    | Some n => Some (n, "cgroup v1")
    | None => text ← meminfo; kb ← field_of text (as_bytes "MemTotal:"); Some (kb * 1024, "host total")
    end
  end.

(** ** Usage *)

Definition read_number (text : option (list byte)) : option Z := s ← text; parse_u64 (trim s).

(** [read_usage]: a meter is its current-usage file (when it opens) and its
    stat file. *)
Definition read_usage (v2 v1 : option (option (list byte) * option (list byte))) : option Z :=
  let working_set meter key :=
    current ← read_number meter.1;
    Some (sat_sub current (default 0 (text ← meter.2; field_of text (as_bytes key)))) in
  match v2 with
  | Some meter => working_set meter "inactive_file "
  | None =>
    match v1 with
    | Some meter => working_set meter "total_inactive_file "
    | None => None
    end
  end.

Definition USAGE_TTL_MS : Z := 100.

(** The two atomics of [usage_bytes]: [cached_at] is [u64::MAX] before the
    first reading, [cached] holds the reading plus one, [0] for none. *)
Record UsageCache := mk_UsageCache { cached_at_ms : Z; cached : Z }.
Definition usage_cache_init : UsageCache := mk_UsageCache u64_max 0.

(** [usage_bytes] at [now_ms], where a fresh reading would give [fresh]. *)
Definition usage_bytes (c : UsageCache) (now_ms : Z) (fresh : option Z) : option Z * UsageCache :=
  if negb (cached_at_ms c =? u64_max) && (sat_sub now_ms (cached_at_ms c) <? USAGE_TTL_MS) then
    (if cached c =? 0 then None else Some (cached c - 1), c)
  else
    (fresh, mk_UsageCache now_ms (match fresh with Some v => v + 1 | None => 0 end)).

(** ** What the meter promises *)

(** The cache holds a reading, and which one. *)
Definition cache_holds (c : UsageCache) (at_ms : Z) (reading : option Z) : Prop :=
  cached_at_ms c = at_ms /\ cached c = match reading with Some v => v + 1 | None => 0 end.

(** Serve a sequence of requests, each with the time and the reading that time
    would give. *)
Fixpoint serve (c : UsageCache) (reqs : list (Z * option Z)) : list (option Z) :=
  match reqs with
  | [] => []
  | (now, fresh) :: reqs => let '(r, c) := usage_bytes c now fresh in r :: serve c reqs
  end.

Definition reading_ok (req : Z * option Z) : Prop :=
  0 <= req.1 < u64_max /\ match req.2 with Some v => 0 <= v | None => True end.

Lemma serve_recent reqs c i r prev :
  (cached_at_ms c = u64_max \/ exists p, p ∈ prev /\ cache_holds c p.1 p.2) ->
  Forall reading_ok prev -> Forall reading_ok reqs ->
  serve c reqs !! i = Some r ->
  exists q now fresh, reqs !! i = Some (now, fresh) /\ q ∈ prev ++ take (S i) reqs /\
    r = q.2 /\ sat_sub now q.1 < USAGE_TTL_MS.
Proof.
  revert c i prev. induction reqs as [|[now fresh] reqs IH]; intros c i prev Hc Hprev Hreqs; [done|].
  apply Forall_cons in Hreqs as [Hq Hreqs]. cbn [serve].
  destruct (usage_bytes c now fresh) as [r0 c'] eqn:Hu.
  assert (Hnow : exists q, q ∈ prev ++ [(now, fresh)] /\ r0 = q.2 /\ sat_sub now q.1 < USAGE_TTL_MS /\ cache_holds c' q.1 q.2).
  { unfold usage_bytes in Hu. destruct Hq as [Hnow Hfresh]. cbn [fst snd] in *.
    destruct (negb _ && _) eqn:E; injection Hu as <- <-.
    - apply andb_prop in E as [E1 E2]. destruct Hc as [Hc|(p & Hp & Hat & Hv)]; [by rewrite Hc in E1|].
      exists p. split; [apply elem_of_app; by left|].
      rewrite Hat in E2. apply Z.ltb_lt in E2. split; [|split; [done|by split]].
      rewrite Forall_forall in Hprev. destruct (Hprev p Hp) as [_ Hpv]. rewrite Hv.
      destruct (p.2) as [v|]; [|done]. destruct (Z.eqb_spec (v + 1) 0); [lia|]. f_equal. lia.
    - exists (now, fresh). split; [apply elem_of_app; right; left|]. split; [done|].
      split; [unfold USAGE_TTL_MS; cbn; zsolve|by split]. }
  destruct Hnow as (q & Hqin & -> & Hage & Hq'). destruct i as [|i]; cbn [lookup list_lookup].
  - intros [= <-]. exists q, now, fresh. split; [done|]. split; [|done]. by rewrite take_S_r with (x := (now, fresh)).
  - intros Hi. destruct (IH c' i (prev ++ [(now, fresh)])) as (q2 & n2 & f2 & Hl & Hin & Hr & Ha); try done.
    + right. by exists q.
    + apply Forall_app. split; [done|]. by constructor.
    + exists q2, n2, f2. split; [done|]. split; [|done]. by rewrite <- app_assoc in Hin.
Qed.

(** A usage request is answered with a real reading, at most [USAGE_TTL_MS]
    old, taken by this or an earlier request (an unreadable meter included). *)
Theorem usage_is_recent reqs i r
    (Hreqs : Forall reading_ok reqs) (Hr : serve usage_cache_init reqs !! i = Some r) :
  exists j now t fresh, reqs !! i = Some (now, t) /\ reqs !! j = Some fresh /\ (j <= i)%nat /\
    r = fresh.2 /\ sat_sub now fresh.1 < USAGE_TTL_MS.
Proof.
  destruct (serve_recent reqs usage_cache_init i r []) as (q & now & t & Hi & Hin & Hrq & Ha); try done.
  { by left. }
  cbn [app] in Hin. apply elem_of_take in Hin as (j & Hj & Hlt).
  exists j, now, t, q. split; [done|]. split; [done|]. split; [lia|done].
Qed.

Lemma usage_is_recent_witness :
  exists j now t fresh, [(0, Some 5); (50, Some 9); (150, None)] !! 1%nat = Some (now, t) /\
    [(0, Some 5); (50, Some 9); (150, None)] !! j = Some fresh /\ (j <= 1)%nat /\
    Some 5 = fresh.2 /\ sat_sub now fresh.1 < USAGE_TTL_MS.
Proof.
  apply (usage_is_recent [(0, Some 5); (50, Some 9); (150, None)] 1 (Some 5)).
  - repeat apply List.Forall_cons; try apply List.Forall_nil; split; cbn; zsolve || exact I.
  - reflexivity.
Defined.

(** The line stays below the limit by the reserve and a tenth. *)
Lemma line_from_bound limit reserve :
  0 <= limit -> 0 <= reserve -> 0 <= line_from limit reserve /\ line_from limit reserve * 10 <= sat_sub limit reserve * 9.
Proof.
  intros Hl Hr. unfold line_from. assert (0 <= sat_sub limit reserve) by zsolve.
  pose proof (Z.mul_div_le (sat_sub limit reserve) 10). pose proof (Z.div_pos (sat_sub limit reserve) 10). lia.
Qed.
