(* ===== verification/Meters.v ===== *)
(** * The process's own meters ([crates/core/src/rss.rs], [cpuclock.rs], the descriptors of [container.rs])

    A meter is read through a descriptor that is opened once and shared by every
    thread that samples it, without a lock: [Fd] is the protocol of [statm_fd] and
    [cached_fd] as a transition system of samplers.  What a read gives is an
    argument; the readers parse it. *)

From S2P Require Import Prelude Bytes Text Container.

(** ** The shared descriptor *)

Module Fd.
(** Where a sampler is: it has seen no descriptor, opened one, lost the race with
    one open, or returned. *)
Inductive Pc :=
  | Seen
  | Opened (fd : Z)
  | Beaten (fd winner : Z)
  | Returned (r : option Z).

(** [cell]: the atomic; [opened]: the descriptors this cell's samplers have open. *)
Record Fds := mk_Fds { cell : Z; opened : gset Z; samplers : gmap nat Pc }.
Definition fds_new : Fds := mk_Fds (-1) ∅ ∅.

Definition at_pc (s : Fds) (t : nat) (pc : Pc) : Fds := mk_Fds (cell s) (opened s) (<[t := pc]> (samplers s)).

(** The atomic actions of sampler [t]; [Open] with what the kernel answers. *)
Inductive fd_op := Load (t : nat) | Open (t : nat) (fd : Z) | CompareExchange (t : nat) | Close (t : nat).

(** A sampler begins when it is not inside a call.  The kernel never answers with
    a descriptor that is open. *)
Definition fd_step (s : Fds) (o : fd_op) : option Fds :=
  match o with
  | Load t =>
    match samplers s !! t with
    | None | Some (Returned _) => Some (at_pc s t (if 0 <=? cell s then Returned (Some (cell s)) else Seen))
    | _ => None
    end
  | Open t fd =>
    match samplers s !! t with
    | Some Seen =>
      if fd <? 0 then Some (at_pc s t (Returned None))
      else if decide (fd ∈ opened s) then None
      else Some (mk_Fds (cell s) ({[fd]} ∪ opened s) (<[t := Opened fd]> (samplers s)))
    | _ => None
    end
  | CompareExchange t =>
    match samplers s !! t with
    | Some (Opened fd) =>
      if cell s =? -1 then Some (mk_Fds fd (opened s) (<[t := Returned (Some fd)]> (samplers s)))
      else Some (at_pc s t (Beaten fd (cell s)))
    | _ => None
    end
  | Close t =>
    match samplers s !! t with
    | Some (Beaten fd winner) => Some (mk_Fds (cell s) (opened s ∖ {[fd]}) (<[t := Returned (Some winner)]> (samplers s)))
    | _ => None
    end
  end.

Fixpoint fd_run (s : Fds) (os : list fd_op) : option Fds :=
  match os with [] => Some s | o :: os => s' ← fd_step s o; fd_run s' os end.
End Fd.

(** ** Reading *)

(** [pread] into a buffer of [cap] bytes; [content] is what the file reads as. *)
Definition pread (cap : nat) (content : option (list byte)) : option (list byte) :=
  text ← content;
  let got := take (cap - 1) text in
  if bool_decide (got = []) then None else Some got.

(** [container::read_number], [container::read_stat_field] *)
Definition read_number_fd (content : option (list byte)) : option Z :=
  text ← pread 32 content; s ← from_utf8 text; parse_u64 (trim (as_bytes s)).
Definition read_stat_field (content : option (list byte)) (key : string) : option Z :=
  text ← pread 4096 content; s ← from_utf8 text; field_of (as_bytes s) (as_bytes key).

(** [rss::read] on Linux; [sysconf]: the page size it reports. *)
Definition rss_read (statm_fd : option Z) (sysconf : Z) (content : option (list byte)) : option Z :=
  _ ← statm_fd;
  if sysconf <=? 0 then None
  else
    text ← pread 128 content;
    s ← from_utf8 text;
    w ← words (as_bytes s) !! 1%nat;
    resident_pages ← parse_u64 w;
    Some (resident_pages * sysconf mod 2 ^ 64).

(** ** CPU clocks *)

(** [clock_gettime]: seconds and nanoseconds, or a failure. *)
Definition self_ns (ts : option (Z * Z)) : Z :=
  match ts with Some (sec, nsec) => (sec * 1000000000 + nsec) mod 2 ^ 64 | None => 0 end.

(** The handle of a thread's clock: its own, or the calling thread's. *)
Inductive ClockId := CLOCK_THREAD_CPUTIME_ID | ThreadCpuClock (id : Z).
Definition current_clock (getcpuclockid : option Z) : ClockId :=
  match getcpuclockid with Some id => ThreadCpuClock id | None => CLOCK_THREAD_CPUTIME_ID end.
Definition read_ns (clock_gettime : ClockId -> option (Z * Z)) (h : ClockId) : Z := self_ns (clock_gettime h).

(** ** The descriptor is shared and nothing leaks *)

Import Fd.

(** The descriptor a sampler holds on its own. *)
Definition holds (pc : Pc) : option Z := match pc with Opened fd | Beaten fd _ => Some fd | _ => None end.

Record fds_ok (s : Fds) : Prop := {
  fo_cell : cell s = -1 \/ 0 <= cell s /\ cell s ∈ opened s;
  fo_opened fd : fd ∈ opened s -> 0 <= fd /\ fd = cell s \/ exists t pc, samplers s !! t = Some pc /\ holds pc = Some fd;
  fo_held t pc fd : samplers s !! t = Some pc -> holds pc = Some fd -> 0 <= fd /\ fd ∈ opened s /\ fd <> cell s;
  fo_own t t' pc pc' fd : samplers s !! t = Some pc -> samplers s !! t' = Some pc' -> holds pc = Some fd -> holds pc' = Some fd -> t = t';
  fo_beaten t fd w : samplers s !! t = Some (Beaten fd w) -> w = cell s /\ 0 <= w;
  fo_returned t fd : samplers s !! t = Some (Returned (Some fd)) -> fd = cell s /\ 0 <= fd;
}.

Lemma fds_new_ok : fds_ok fds_new.
Proof. split; cbn; [by left|set_solver|..]; intros *; by rewrite lookup_empty. Qed.

(** A sampler that moves and keeps what it holds changes nothing for the others. *)
Lemma fds_ok_move s t pc : fds_ok s -> samplers s !! t ≫= holds = holds pc ->
  (forall fd w, pc = Beaten fd w -> w = cell s /\ 0 <= w) -> (forall fd, pc = Returned (Some fd) -> fd = cell s /\ 0 <= fd) ->
  fds_ok (at_pc s t pc).
Proof.
  intros [H1 H2 H3 H4 H5 H6] Hh Hbeaten Hret.
  assert (Hold : forall t0 pc0 fd, <[t := pc]> (samplers s) !! t0 = Some pc0 -> holds pc0 = Some fd ->
    exists pc1, samplers s !! t0 = Some pc1 /\ holds pc1 = Some fd).
  { intros t0 pc0 fd [[<- <-]|[Hne Ht0]]%lookup_insert_Some Hf; [|by exists pc0]. rewrite Hf in Hh.
    destruct (samplers s !! t) as [pc1|]; [by exists pc1|done]. }
  split; cbn; [done|..].
  - intros fd Hfd. destruct (H2 fd Hfd) as [?|(t0 & pc0 & Ht0 & Hf)]; [by left|]. right.
    destruct (decide (t = t0)) as [<-|Hne]; [exists t, pc|exists t0, pc0]; rewrite ?lookup_insert_eq, ?lookup_insert_ne by done; [|done].
    rewrite Ht0 in Hh. cbn in Hh. by rewrite <- Hh.
  - intros t0 pc0 fd Ht0 Hf. destruct (Hold _ _ _ Ht0 Hf) as (pc1 & ? & ?). by eapply H3.
  - intros t0 t1 pc0 pc1 fd Ht0 Ht1 Hf Hf'. destruct (Hold _ _ _ Ht0 Hf) as (? & ? & ?). destruct (Hold _ _ _ Ht1 Hf') as (? & ? & ?). by eapply H4.
  - intros t0 fd w [[<- ->]|[Hne Ht0]]%lookup_insert_Some; [by eapply Hbeaten|by eapply H5].
  - intros t0 fd [[<- ->]|[Hne Ht0]]%lookup_insert_Some; [by apply Hret|by eapply H6].
Qed.

Lemma fds_ok_open s t fd : fds_ok s -> samplers s !! t = Some Seen -> 0 <= fd -> fd ∉ opened s ->
  fds_ok (mk_Fds (cell s) ({[fd]} ∪ opened s) (<[t := Opened fd]> (samplers s))).
Proof.
  intros [H1 H2 H3 H4 H5 H6] Ht Hfd Hnew. split; cbn.
  - set_solver.
  - intros x [->%elem_of_singleton|Hx]%elem_of_union.
    + right. exists t, (Opened fd). by rewrite lookup_insert_eq.
    + destruct (H2 x Hx) as [[? ->]|(t0 & pc0 & Ht0 & Hh)]; [by left|]. right. exists t0, pc0. rewrite lookup_insert_ne; [done|]. intros <-. by simplify_eq.
  - intros t0 pc0 x [[<- <-]|[Hne Ht0]]%lookup_insert_Some Hh.
    + injection Hh as <-. split_and!; [done|set_solver|]. intros ->. destruct H1 as [H1|[_ H1]]; [lia|done].
    + destruct (H3 _ _ _ Ht0 Hh) as (? & ? & ?). set_solver.
  - intros t0 t1 pc0 pc1 x [[<- <-]|[Hne Ht0]]%lookup_insert_Some [[<- <-]|[Hne' Ht1]]%lookup_insert_Some Hh Hh'; [done| | |by eapply H4].
    + injection Hh as <-. destruct (H3 _ _ _ Ht1 Hh') as (_ & ? & _). done.
    + injection Hh' as <-. destruct (H3 _ _ _ Ht0 Hh) as (_ & ? & _). done.
  - intros t0 x w [[<- ?]|[Hne Ht0]]%lookup_insert_Some; [done|by eapply H5].
  - intros t0 x [[<- ?]|[Hne Ht0]]%lookup_insert_Some; [done|by eapply H6].
Qed.

Lemma fds_ok_win s t fd : fds_ok s -> samplers s !! t = Some (Opened fd) -> cell s = -1 ->
  fds_ok (mk_Fds fd (opened s) (<[t := Returned (Some fd)]> (samplers s))).
Proof.
  intros [H1 H2 H3 H4 H5 H6] Ht Hc. destruct (H3 t _ fd Ht eq_refl) as (Hpos & Hin & _). split; cbn.
  - by right.
  - intros x Hx. destruct (H2 x Hx) as [[? ->]|(t0 & pc0 & Ht0 & Hh)].
    + lia.
    + destruct (decide (t = t0)) as [<-|Hne]; [left; rewrite Ht in Ht0; by simplify_eq/=|]. right. exists t0, pc0. by rewrite lookup_insert_ne.
  - intros t0 pc0 x [[<- <-]|[Hne Ht0]]%lookup_insert_Some Hh; [done|]. destruct (H3 _ _ _ Ht0 Hh) as (? & ? & ?). split_and!; [done..|].
    intros ->. by eapply Hne, (H4 t t0).
  - intros t0 t1 pc0 pc1 x [[<- <-]|[Hne Ht0]]%lookup_insert_Some [[<- <-]|[Hne' Ht1]]%lookup_insert_Some Hh Hh'; [done..|by eapply H4].
  - intros t0 x w [[<- ?]|[Hne Ht0]]%lookup_insert_Some; [done|]. destruct (H5 _ _ _ Ht0). lia.
  - intros t0 x [[<- ?]|[Hne Ht0]]%lookup_insert_Some; [by simplify_eq|]. destruct (H6 _ _ Ht0). lia.
Qed.

Lemma fds_ok_close s t fd w : fds_ok s -> samplers s !! t = Some (Beaten fd w) ->
  fds_ok (mk_Fds (cell s) (opened s ∖ {[fd]}) (<[t := Returned (Some w)]> (samplers s))).
Proof.
  intros [H1 H2 H3 H4 H5 H6] Ht. destruct (H3 t _ fd Ht eq_refl) as (Hpos & Hin & Hne0). split; cbn.
  - destruct H1 as [|[? ?]]; [by left|right]. set_solver.
  - intros x [Hx Hn]%elem_of_difference. rewrite elem_of_singleton in Hn. destruct (H2 x Hx) as [[? ->]|(t0 & pc0 & Ht0 & Hh)]; [by left|].
    right. exists t0, pc0. rewrite lookup_insert_ne; [done|]. intros <-. rewrite Ht in Ht0. by simplify_eq/=.
  - intros t0 pc0 x [[<- <-]|[Hne Ht0]]%lookup_insert_Some Hh; [done|]. destruct (H3 _ _ _ Ht0 Hh) as (? & ? & ?). split_and!; [done| |done].
    apply elem_of_difference. split; [done|]. rewrite elem_of_singleton. intros ->. by eapply Hne, (H4 t t0).
  - intros t0 t1 pc0 pc1 x [[<- <-]|[Hne Ht0]]%lookup_insert_Some [[<- <-]|[Hne' Ht1]]%lookup_insert_Some Hh Hh'; [done..|by eapply H4].
  - intros t0 x w' [[<- ?]|[Hne Ht0]]%lookup_insert_Some; [done|by eapply H5].
  - intros t0 x [[<- ?]|[Hne Ht0]]%lookup_insert_Some; [|by eapply H6]. simplify_eq. by eapply H5.
Qed.

Lemma fd_step_ok s o s' : fds_ok s -> fd_step s o = Some s' -> fds_ok s'.
Proof.
  intros Hok. pose proof (fo_cell _ Hok) as Hc. destruct o as [t|t fd|t|t]; cbn; destruct (samplers s !! t) as [pc|] eqn:Et.
  - destruct pc as [| | |r]; try done. intros [= <-]. destruct (Z.leb_spec 0 (cell s)); apply fds_ok_move; rewrite ?Et; try done. intros fd [= <-]. done.
  - intros [= <-]. destruct (Z.leb_spec 0 (cell s)); apply fds_ok_move; rewrite ?Et; try done. intros fd [= <-]. done.
  - destruct pc; try done. destruct (Z.ltb_spec fd 0); [|case_decide; [done|]]; intros [= <-]; [apply fds_ok_move; by rewrite ?Et|by apply fds_ok_open].
  - done.
  - destruct pc as [|fd| |]; try done. destruct (Z.eqb_spec (cell s) (-1)) as [H|H]; intros [= <-]; [by apply fds_ok_win|].
    apply fds_ok_move; rewrite ?Et; try done. intros ? ? [= <- <-]. by destruct Hc as [|[? _]].
  - done.
  - destruct pc as [| |fd w|]; try done. intros [= <-]. by apply fds_ok_close.
  - done.
Qed.

Lemma fd_run_ok os s s' : fds_ok s -> fd_run s os = Some s' -> fds_ok s'.
Proof.
  revert s. induction os as [|o os IH]; intros s Hs; cbn; [by intros [= <-]|].
  destruct (fd_step s o) as [s1|] eqn:E; cbn; [|done]. eapply IH, fd_step_ok; done.
Qed.

(** Samplers share one descriptor, and none leaks.  However the loads, opens,
    exchanges and closes of any number of threads interleave, and whichever opens
    fail: every sampler that returned a descriptor returned the one in the cell,
    which is open; a descriptor that is open is that one or held by the one sampler
    about to close or publish it, so that at most one is open when no sampler is in
    the middle; and a sampler that runs alone from here, and whose open succeeds if
    it needs one, returns a descriptor, whatever failed before. *)
Theorem statm_fd_shared os s : fd_run fds_new os = Some s ->
  (forall t fd, samplers s !! t = Some (Returned (Some fd)) -> fd = cell s /\ 0 <= fd /\ fd ∈ opened s) /\
  (forall fd, fd ∈ opened s <-> 0 <= fd /\ fd = cell s \/ exists t, samplers s !! t ≫= holds = Some fd) /\
  (forall t t' fd, samplers s !! t ≫= holds = Some fd -> fd <> cell s /\ (samplers s !! t' ≫= holds = Some fd -> t' = t)) /\
  ((forall t, samplers s !! t ≫= holds = None) -> (size (opened s) <= 1)%nat) /\
  (forall t fd, samplers s !! t ∈ [None; Some (Returned None)] -> 0 <= fd -> fd ∉ opened s ->
     exists mine s', fd_run s (Load t :: mine) = Some s' /\ samplers s' !! t = Some (Returned (Some (cell s'))) /\ 0 <= cell s').
Proof.
  intros Hr. pose proof (fd_run_ok os _ s fds_new_ok Hr) as [H1 H2 H3 H4 H5 H6]. clear Hr.
  assert (Hcell : forall fd, 0 <= fd -> fd = cell s -> fd ∈ opened s) by (intros fd ? ->; destruct H1 as [|[_ ?]]; [lia|done]).
  split_and!.
  - intros t fd Ht. destruct (H6 t fd Ht). split_and!; auto.
  - intros fd. split.
    + intros Hfd. destruct (H2 fd Hfd) as [?|(t & pc & Ht & Hh)]; [by left|]. right. exists t. by rewrite Ht.
    + intros [[? ?]|(t & Ht)]; [auto|]. apply bind_Some in Ht as (pc & Ht & Hh). by eapply H3.
  - intros t t' fd (pc & Ht & Hh)%bind_Some. split; [by eapply H3|]. intros (pc' & Ht' & Hh')%bind_Some. by eapply H4.
  - intros Hnone. transitivity (size ({[cell s]} : gset Z)); [|by rewrite size_singleton]. apply subseteq_size. intros fd Hfd.
    destruct (H2 fd Hfd) as [[_ ->]|(t & pc & Ht & Hh)]; [set_solver|]. specialize (Hnone t). rewrite Ht in Hnone. cbn in Hnone. congruence.
  - intros t fd Ht Hfd Hnew. assert (Hl : fd_step s (Load t) = Some (at_pc s t (if 0 <=? cell s then Returned (Some (cell s)) else Seen))).
    { cbn. rewrite !elem_of_cons, elem_of_nil in Ht. by destruct Ht as [->|[->|[]]]. }
    cbn [fd_run]. rewrite Hl. cbn [mbind option_bind]. destruct (Z.leb_spec 0 (cell s)) as [Hpos|Hneg].
    + exists [], (at_pc s t (Returned (Some (cell s)))). cbn. by rewrite lookup_insert_eq.
    + destruct H1 as [H1|[? _]]; [|lia]. exists [Open t fd; CompareExchange t]. cbn. rewrite lookup_insert_eq.
      destruct (Z.ltb_spec fd 0); [lia|]. rewrite decide_False by done. cbn. rewrite lookup_insert_eq, H1. cbn.
      eexists. split; [done|]. cbn. by rewrite lookup_insert_eq.
Qed.

(** Three samplers race after a failed open: one publishes, the others use its
    descriptor and close their own. *)
Lemma statm_fd_shared_witness :
  exists s, fd_run fds_new [Load 1; Open 1 (-1); Load 1; Load 2; Open 2 7; Open 1 8; CompareExchange 2; Load 3; CompareExchange 1; Close 1] = Some s /\
    cell s = 7 /\ (samplers s !! 1%nat, samplers s !! 3%nat) = (Some (Returned (Some 7)), Some (Returned (Some 7))) /\ 7 ∈ opened s /\ 8 ∉ opened s.
Proof.
  destruct (fd_run fds_new [Load 1; Open 1 (-1); Load 1; Load 2; Open 2 7; Open 1 8; CompareExchange 2; Load 3; CompareExchange 1; Close 1]) as [s|] eqn:E;
    [|by vm_compute in E].
  destruct (statm_fd_shared _ s E) as (H1 & H2 & _). exists s. split; [done|].
  assert (Hs : cell s = 7 /\ (samplers s !! 1%nat, samplers s !! 3%nat) = (Some (Returned (Some 7)), Some (Returned (Some 7))) /\ 8 ∉ opened s).
  { vm_compute in E. injection E as <-. split_and!; [reflexivity..|]. cbn. apply (bool_decide_unpack _). vm_compute. exact I. }
  destruct Hs as (Hc & Hp & H8). split_and!; [done..| |done]. apply H2. left. by rewrite Hc.
Defined.

(** ** Numbers as the kernel and the host write them *)

Definition all_digits (bs : list byte) : bool := forallb is_digit bs.

Lemma digit_char x : (x < 10)%N ->
  exists b, as_bytes (String (pretty_N_char x) EmptyString) = [b] /\ is_digit b = true /\ b2z b - 48 = Z.of_N x.
Proof.
  intros Hx. destruct x as [|p]; [by eexists|].
  do 4 (destruct p as [p|p|]; try (exfalso; lia); try (by eexists)).
Qed.

Lemma digits_go x s : Z.of_N x <= u64_max -> digits_val (as_bytes (pretty_N_go x s)) 0 = digits_val (as_bytes s) (Z.of_N x).
Proof.
  revert s. induction (N.lt_wf_0 x) as [x _ IH]. intros s Hs.
  destruct (decide (x = 0)%N) as [->|Hx]; [by rewrite pretty_N_go_0|]. rewrite pretty_N_go_step by lia.
  assert (Hd := N.div_mod x 10 ltac:(lia)). assert (Hm := N.mod_lt x 10 ltac:(lia)).
  rewrite IH; [|apply N.div_lt; lia|assert (x `div` 10 <= x)%N by (apply N.Div0.div_le_upper_bound; lia); lia].
  destruct (digit_char (x `mod` 10)) as (b & Hb & Hdig & Hv); [done|].
  change (String ?c s) with (String c EmptyString +:+ s). rewrite as_bytes_app, Hb. cbn [app digits_val]. rewrite Hdig, Hv.
  replace (Z.of_N (x `div` 10) * 10 + Z.of_N (x `mod` 10)) with (Z.of_N x) by lia. by destruct (Z.leb_spec (Z.of_N x) u64_max); [|lia].
Qed.

Lemma go_digits x s : all_digits (as_bytes s) = true -> all_digits (as_bytes (pretty_N_go x s)) = true.
Proof.
  revert s. induction (N.lt_wf_0 x) as [x _ IH]. intros s Hs.
  destruct (decide (x = 0)%N) as [->|Hx]; [by rewrite pretty_N_go_0|]. rewrite pretty_N_go_step by lia. apply IH; [apply N.div_lt; lia|].
  destruct (digit_char (x `mod` 10)) as (b & Hb & Hdig & _); [apply N.mod_lt; lia|].
  change (String ?c s) with (String c EmptyString +:+ s). rewrite as_bytes_app, Hb. cbn. by rewrite Hdig.
Qed.

Lemma go_nonempty x c s : as_bytes (pretty_N_go x (String c s)) <> [].
Proof.
  revert c s. induction (N.lt_wf_0 x) as [x _ IH]. intros c s.
  destruct (decide (x = 0)%N) as [->|Hx]; [by rewrite pretty_N_go_0|]. rewrite pretty_N_go_step by lia. apply IH, N.div_lt; lia.
Qed.

Lemma show_go n : 0 < n -> show n = pretty_N_go (Z.to_N n) EmptyString.
Proof. intros Hn. destruct n as [|p|p]; try lia. reflexivity. Qed.

Lemma show_digits n : 0 <= n -> all_digits (as_bytes (show n)) = true /\ as_bytes (show n) <> [].
Proof.
  intros Hn. destruct (decide (n = 0)) as [->|Hne]; [done|]. rewrite show_go by lia. split; [by apply go_digits|].
  rewrite pretty_N_go_step by lia. apply go_nonempty.
Qed.

(** [parse::<u64>] reads back what is printed, and what it reads is a [u64]. *)
Lemma parse_u64_show n : is_u64 n -> parse_u64 (as_bytes (show n)) = Some n.
Proof.
  intros [H0 H1]. destruct (decide (n = 0)) as [->|Hne]; [done|].
  destruct (show_digits n H0) as [Hd He]. unfold parse_u64. destruct (as_bytes (show n)) as [|b r] eqn:E; [done|].
  cbn in Hd. apply andb_prop in Hd as [Hb _]. unfold is_digit, in_range in Hb.
  destruct (Z.eqb_spec (b2z b) 43) as [Hp|_]; [rewrite Hp in Hb; done|]. rewrite <- E, show_go by lia.
  rewrite digits_go by lia. cbn. f_equal. lia.
Qed.

Lemma split_by_word sep cur w b r : Forall (fun c => sep c = false) w -> sep b = true ->
  split_by sep cur (w ++ b :: r) = (reverse cur ++ w) :: split_by sep [] r.
Proof.
  intros Hw Hb. revert cur. induction Hw as [|c w Hc Hw IH]; intros cur; cbn.
  - by rewrite Hb, app_nil_r.
  - rewrite Hc, IH, reverse_cons. by rewrite <- app_assoc.
Qed.

Lemma words_number n b r : 0 <= n -> is_ascii_space b = true -> words (as_bytes (show n) ++ b :: r) = as_bytes (show n) :: words r.
Proof.
  intros Hn Hb. destruct (show_digits n Hn) as [Hd He]. unfold words. rewrite (split_by_word _ [] _ b r); [|..|done].
  - rewrite reverse_nil, app_nil_l. by rewrite filter_cons_True.
  - apply Forall_forall. intros c Hc. unfold all_digits in Hd. rewrite forallb_forall in Hd. specialize (Hd c ltac:(by apply list_elem_of_In)).
    unfold is_digit, in_range in Hd. unfold is_ascii_space, in_range. lia.
Qed.

(** The reading is the resident size: for a line as the kernel writes it, the
    second number times the page size, and nothing where the descriptor, the page
    size or the read is missing; a reading of zero never stands for none. *)
Theorem rss_reads_resident size resident rest page_size fd :
  let line := show size +:+ " " +:+ show resident +:+ " " +:+ rest in
  0 <= size -> 0 <= resident -> 0 < page_size -> is_u64 (resident * page_size) -> ascii_text rest = true -> zlen (as_bytes line) <= 127 ->
  rss_read (Some fd) page_size (Some (as_bytes line)) = Some (resident * page_size) /\
  rss_read None page_size (Some (as_bytes line)) = None /\ rss_read (Some fd) 0 (Some (as_bytes line)) = None /\
  rss_read (Some fd) (-1) (Some (as_bytes line)) = None /\ rss_read (Some fd) page_size None = None /\ rss_read (Some fd) page_size (Some []) = None.
Proof.
  intros line Hs Hr Hp Hmul Ha Hlen. split_and!; try done; unfold rss_read, pread; cbn [mbind option_bind]; (destruct (Z.leb_spec page_size 0); [lia|]); [|done..].
  change (128 - 1)%nat with 127%nat.
  assert (Hne : as_bytes line <> []).
  { destruct (show_digits size Hs) as [_ He]. unfold line. rewrite as_bytes_app. by destruct (as_bytes (show size)). }
  rewrite take_ge by lia. rewrite bool_decide_eq_false_2 by done. cbn [mbind option_bind].
  rewrite from_utf8_as_bytes by (apply ascii_text_ok; unfold line; by rewrite !ascii_text_app, !show_ascii, Ha). cbn [mbind option_bind].
  unfold line. rewrite !as_bytes_app. change (as_bytes " ") with [x20]. cbn [app]. rewrite !words_number by done. cbn [lookup list_lookup mbind option_bind].
  assert (is_u64 resident) as Hu by (unfold is_u64 in *; nia). rewrite parse_u64_show by done. cbn [mbind option_bind]. f_equal.
  apply Z.mod_small. unfold is_u64, u64_max in Hmul. lia.
Qed.

(** Two readings of a clock give the CPU time between them to the nanosecond,
    and a failed reading counts no time. *)
Theorem clock_readings_subtract sec nsec sec' nsec' :
  0 <= sec <= sec' -> sec' < 2 ^ 33 -> 0 <= nsec < 1000000000 -> 0 <= nsec' < 1000000000 -> sec * 1000000000 + nsec <= sec' * 1000000000 + nsec' ->
  sat_sub (self_ns (Some (sec', nsec'))) (self_ns (Some (sec, nsec))) = (sec' - sec) * 1000000000 + (nsec' - nsec) /\
  sat_sub (self_ns None) (self_ns (Some (sec, nsec))) = 0.
Proof.
  intros H1 H2 H3 H4 H5. unfold self_ns. rewrite !Z.mod_small by lia. unfold sat_sub. lia.
Qed.
