(* ===== verification/Warm.v ===== *)
(** * The warm registry ([crates/core/src/warm.rs])

    Instances, demand statistics and the ledger of live isolates, with every
    operation of the registry as a function on the state its lock guards.  What
    an operation reads outside the lock (the usage sample, the clock, the thread
    load of an instance, the result of spawning a thread) is an argument; the
    iteration order of the prefix map and the victim picker are interfaces. *)

From stdpp Require Import sorting.
From S2P Require Import Prelude Bytes F64 Types Policy Wire.

(** ** Demand statistics *)

Record Ewma := mk_Ewma { ew_value : f64; ew_seeded : bool }.
Definition Ewma_default : Ewma := mk_Ewma f64_zero false.

Definition Ewma_update (e : Ewma) (sample : f64) : Ewma :=
  mk_Ewma (if ew_seeded e
           then f64_add (f64_mul (ew_value e) (f64_ratio 8 10)) (f64_mul sample (f64_ratio 2 10))
           else sample) true.

Definition Ewma_get (e : Ewma) : option f64 := if ew_seeded e then Some (ew_value e) else None.

Record DecayingMin := mk_DecayingMin { dm_value : f64; dm_seeded : bool }.
Definition DecayingMin_default : DecayingMin := mk_DecayingMin f64_zero false.

Definition DECAY_PER_SAMPLE : f64 := f64_ratio 1005 1000.

Definition DecayingMin_update (d : DecayingMin) (sample : f64) : DecayingMin :=
  if negb (dm_seeded d) || f64_le sample (dm_value d) then mk_DecayingMin sample true
  else mk_DecayingMin (f64_min (f64_mul (dm_value d) DECAY_PER_SAMPLE) sample) (dm_seeded d).

Definition DecayingMin_get (d : DecayingMin) : option f64 := if dm_seeded d then Some (dm_value d) else None.

Record PrefixDemand := mk_PrefixDemand {
  last_arrival : option Z;
  interval_ms : Ewma;
  pd_cpu_ms : Ewma;
  wall_min : DecayingMin;
  cpu_min : DecayingMin;
  last_sample : option Z;
  heap_bytes : Ewma;
}.

Definition PrefixDemand_default : PrefixDemand :=
  mk_PrefixDemand None Ewma_default Ewma_default DecayingMin_default DecayingMin_default None Ewma_default.

Definition note_arrival (d : PrefixDemand) (now : Z) : PrefixDemand :=
  mk_PrefixDemand (Some now)
    (match last_arrival d with
     | Some last => Ewma_update (interval_ms d) (f64_mul (as_secs_f64 (now - last)) (f64_of_Z 1000))
     | None => interval_ms d
     end)
    (pd_cpu_ms d) (wall_min d) (cpu_min d) (last_sample d) (heap_bytes d).

Definition arrivals_per_sec (d : PrefixDemand) : f64 :=
  match Ewma_get (interval_ms d) with
  | Some ms => if f64_lt f64_zero ms then f64_div (f64_of_Z 1000) ms else f64_zero
  | None => f64_zero
  end.

Definition note_completion (d : PrefixDemand) (wall cpu : f64) (now : Z) : PrefixDemand :=
  mk_PrefixDemand (last_arrival d) (interval_ms d) (pd_cpu_ms d)
    (if f64_lt f64_zero wall then DecayingMin_update (wall_min d) wall else wall_min d)
    (if f64_lt f64_zero cpu then DecayingMin_update (cpu_min d) cpu else cpu_min d)
    (Some now) (heap_bytes d).

Definition update_cpu (d : PrefixDemand) (cpu : f64) : PrefixDemand :=
  mk_PrefixDemand (last_arrival d) (interval_ms d) (Ewma_update (pd_cpu_ms d) cpu)
    (wall_min d) (cpu_min d) (last_sample d) (heap_bytes d).

Definition update_heap (d : PrefixDemand) (heap : f64) : PrefixDemand :=
  mk_PrefixDemand (last_arrival d) (interval_ms d) (pd_cpu_ms d)
    (wall_min d) (cpu_min d) (last_sample d) (Ewma_update (heap_bytes d) heap).

(** 30 seconds. *)
Definition DEMAND_STALE_AFTER : Z := 30 * 1000000000.
Definition RECOMPUTE_EVERY : Z := 32.

Definition slot_facts (d : PrefixDemand) (now : Z) : option SlotFacts :=
  last ← last_sample d;
  if DEMAND_STALE_AFTER <? saturating_duration_since now last then None
  else
    wall ← DecayingMin_get (wall_min d);
    cpu ← DecayingMin_get (cpu_min d);
    Some (mk_SlotFacts (arrivals_per_sec d) wall cpu).

(** ** The registry's state *)

Record HeapCaps := mk_HeapCaps { soft_bytes : Z; hard_bytes : Z }.

#[export] Instance HeapCaps_eq_dec : EqDecision HeapCaps.
Proof. solve_decision. Defined.

(** What the registry keeps of an owner thread's handle; [h_settled] is the
    settled heap its load publishes. *)
Record InstanceHandle := mk_InstanceHandle {
  h_last_used : Z;
  h_heap_used_bytes : Z;
  h_settled : Z;
}.

Record Instance := mk_Instance {
  i_id : Z;
  i_handle : InstanceHandle;
  i_in_flight : Z;
  i_caps : HeapCaps;
  i_soft_strikes : Z;
  i_dead : bool;
}.

Record PrefixEntry := mk_PrefixEntry { instances : list Instance; demand : PrefixDemand }.
Definition PrefixEntry_default : PrefixEntry := mk_PrefixEntry [] PrefixDemand_default.

(** The locked state, and [SLOT_ALLOWANCE], which only [note_slot_sample]
    writes. *)
Record RegistryInner := mk_RegistryInner {
  prefixes : gmap string PrefixEntry;
  total : Z;
  r_oneoff_running : Z;
  idle_total : Z;
  next_instance_id : Z;
  r_shedding : bool;
  r_last_pass : option PassOutcome;
  oneoff_demand : PrefixDemand;
  releases_since_recompute : Z;
  slot_allowance : Z;
}.

Definition registry_new (seed : Z) : RegistryInner :=
  mk_RegistryInner ∅ 0 0 0 1 false None PrefixDemand_default 0 seed.

(** Field updates. *)
Definition set_prefixes (r : RegistryInner) p := mk_RegistryInner p (total r) (r_oneoff_running r)
  (idle_total r) (next_instance_id r) (r_shedding r) (r_last_pass r) (oneoff_demand r)
  (releases_since_recompute r) (slot_allowance r).
Definition set_counts (r : RegistryInner) tot one idle := mk_RegistryInner (prefixes r) tot one idle
  (next_instance_id r) (r_shedding r) (r_last_pass r) (oneoff_demand r)
  (releases_since_recompute r) (slot_allowance r).
Definition set_latch (r : RegistryInner) shed pass := mk_RegistryInner (prefixes r) (total r)
  (r_oneoff_running r) (idle_total r) (next_instance_id r) shed pass (oneoff_demand r)
  (releases_since_recompute r) (slot_allowance r).
Definition set_next (r : RegistryInner) id := mk_RegistryInner (prefixes r) (total r)
  (r_oneoff_running r) (idle_total r) id (r_shedding r) (r_last_pass r) (oneoff_demand r)
  (releases_since_recompute r) (slot_allowance r).
Definition set_slots (r : RegistryInner) d n a := mk_RegistryInner (prefixes r) (total r)
  (r_oneoff_running r) (idle_total r) (next_instance_id r) (r_shedding r) (r_last_pass r) d n a.

Definition put_entry (r : RegistryInner) (id : string) (e : PrefixEntry) : RegistryInner :=
  set_prefixes r (<[id := e]> (prefixes r)).

(** ** Interfaces *)

(** The order in which a [HashMap] is iterated: some order of its entries. *)
Class HashOrder := iter : gmap string PrefixEntry -> list (string * PrefixEntry).
Class HashOrderOk `{HashOrder} : Prop := iter_perm : forall m, iter m ≡ₚ map_to_list m.

(** What the registry needs of the victim picker: a choice in range, and one
    whenever there is a candidate. *)
Class VictimPicker := pick : list VictimFact -> Z -> option nat.
Class VictimPickerOk `{VictimPicker} : Prop := {
  pick_in_range : forall facts now i, pick facts now = Some i -> (i < length facts)%nat;
  pick_total : forall facts now, pick facts now = None -> facts = [];
}.

(** The picker of the policy module is one, whatever [powf] is. *)
#[export] Instance policy_picker (powf : f64 -> f64 -> f64) : VictimPicker := pick_victim powf.

Lemma fold_pick_in {A} (f : A -> A -> A) l x :
  (forall a b, f a b = a \/ f a b = b) -> fold_left f l x ∈ x :: l.
Proof.
  intros Hf. revert x. induction l as [|y l IH]; intros x; cbn; [left|].
  specialize (IH (f x y)). apply elem_of_cons in IH as [->|H]; [|by do 2 right].
  destruct (Hf x y) as [->| ->]; [left|right; left].
Qed.

#[export] Instance policy_picker_ok powf : @VictimPickerOk (policy_picker powf).
Proof.
  split; unfold pick, policy_picker, pick_victim.
  - intros facts now i. destruct (max_by _ _) as [[j f]|] eqn:Hm; [|done]. intros [= ->].
    unfold max_by in Hm. destruct (enumerate facts) as [|x l] eqn:He; [done|]. injection Hm as Hm.
    assert (Hin : (i, f) ∈ x :: l).
    { rewrite <- Hm. apply fold_pick_in. intros a b. destruct (victim_cmp _ _ _ _); auto. }
    rewrite <- He in Hin. apply elem_of_enumerate in Hin. by eapply lookup_lt_Some.
  - intros facts now. destruct (max_by _ _) as [[j f]|] eqn:Hm; [done|]. intros _.
    by rewrite max_by_none, enumerate_nil in Hm.
Qed.

(** ** Eviction *)

Definition is_idle (i : Instance) : bool := (i_in_flight i =? 0) && negb (i_dead i).

Section Operations.
Context `{HashOrder} `{VictimPicker}.
Context (powf : f64 -> f64 -> f64) (cores : Z).
Context (warm_budget_bytes hard_line_bytes host_reserve : Z).

(** The idle instances across all prefixes, with their locations. *)
Definition candidates (r : RegistryInner) : list (string * Instance) :=
  concat (map (fun '(p, e) => map (fun i => (p, i)) (filter (fun i => is_idle i = true) (instances e)))
    (iter (prefixes r))).

Definition fact_of (c : string * Instance) : VictimFact :=
  mk_VictimFact (h_heap_used_bytes (i_handle c.2)) (h_last_used (i_handle c.2)).

(** [evict_scored]: [None] when nothing is idle. *)
Definition evict_scored (r : RegistryInner) (now : Z) : option RegistryInner :=
  i ← pick (map fact_of (candidates r)) now;
  '(prefix_id, inst) ← candidates r !! i;
  entry ← prefixes r !! prefix_id;
  let entry := mk_PrefixEntry (filter (fun j => i_id j <> i_id inst) (instances entry)) (demand entry) in
  Some (set_counts (put_entry r prefix_id entry)
          (sat_sub (total r) 1) (r_oneoff_running r) (sat_sub (idle_total r) 1)).

(** The loop [while dropped < evict && evict_scored(..) { dropped += 1 }]. *)
Fixpoint shed (n : nat) (r : RegistryInner) (now : Z) : RegistryInner * Z :=
  match n with
  | O => (r, 0)
  | S n =>
    match evict_scored r now with
    | None => (r, 0)
    | Some r => let '(r, dropped) := shed n r now in (r, dropped + 1)
    end
  end.

Definition pressure_pass (r : RegistryInner) (usage_sample : option Z) (now : Z) : RegistryInner * bool :=
  match usage_sample with
  | None => (set_latch r false None, true)
  | Some usage_bytes =>
    let verdict := watermark_action (mk_PressureFacts usage_bytes warm_budget_bytes
      (r_shedding r) (r_last_pass r) (idle_total r)) in
    let r := set_latch r (shedding verdict) (if shedding verdict then r_last_pass r else None) in
    let r :=
      if 0 <? evict verdict then
        let '(r, dropped) := shed (Z.to_nat (evict verdict)) r now in
        if 0 <? dropped then set_latch r (r_shedding r) (Some (mk_PassOutcome usage_bytes)) else r
      else r in
    (r, negb (shedding verdict))
  end.

(** ** Slot samples *)

Definition note_slot_sample (r : RegistryInner) (prefix_id : option string) (wall cpu : f64) (now : Z)
    : RegistryInner :=
  let r := match prefix_id with
    | Some id =>
      match prefixes r !! id with
      | Some entry => put_entry r id (mk_PrefixEntry (instances entry) (note_completion (demand entry) wall cpu now))
      | None => r
      end
    | None => set_slots r (note_completion (oneoff_demand r) wall cpu now)
                (releases_since_recompute r) (slot_allowance r)
    end in
  let n := releases_since_recompute r + 1 in
  if n <? RECOMPUTE_EVERY then set_slots r (oneoff_demand r) n (slot_allowance r)
  else
    let facts := omap (fun d => slot_facts d now)
      (map (fun pe => demand pe.2) (iter (prefixes r)) ++ [oneoff_demand r]) in
    set_slots r (oneoff_demand r) 0 (default u32_max (try_u32 (target_slots powf facts cores))).

(** ** Admission *)

Definition MB : Z := 1024 * 1024.

Definition admit_run (usage : option Z) (run_cap_bytes : Z) : result string unit :=
  match usage with
  | None => Ok tt
  | Some usage_bytes =>
    if admit_isolate (mk_AdmitFacts usage_bytes run_cap_bytes hard_line_bytes warm_budget_bytes) then Ok tt
    else Err (
      if run_cap_bytes =? 0 then
        "no capacity for a new isolate: this run is uncapped (memoryMb: 0), so the memory budget is its refusal line — measured container memory ("
        +:+ show (usage_bytes / MB) +:+ " MB) is at or above the budget (" +:+ show (warm_budget_bytes / MB)
        +:+ " MB, set by memoryBudgetMb)"
      else
        let limit_bytes := hard_line_bytes / 9 * 10 + host_reserve in
        let headroom_mb := sat_sub hard_line_bytes usage_bytes / MB in
        let fit := if 0 <? headroom_mb
          then "the largest heap ceiling admissible right now is " +:+ show headroom_mb +:+ " MB"
          else "no heap ceiling fits under the line until memory frees" in
        "no capacity for a new isolate: measured container memory (" +:+ show (usage_bytes / MB)
        +:+ " MB) plus this run's heap ceiling (" +:+ show (run_cap_bytes / MB) +:+ " MB) totals "
        +:+ show (sat_add u64_max usage_bytes run_cap_bytes / MB) +:+ " MB, crossing the admission line of "
        +:+ show (hard_line_bytes / MB) +:+ " MB — 90% of (container limit " +:+ show (limit_bytes / MB)
        +:+ " MB minus host reserve " +:+ show (host_reserve / MB) +:+ " MB); " +:+ fit)
  end.

(** ** Acquiring *)

Inductive Acquired :=
  | Attached (id : Z)
  | Cold (handle : InstanceHandle)
  | Refused (message : string)
  | SpawnFailed (e : io_error).

(** Change the run count of the instance at a position. *)
Definition set_in_flight_at (l : list Instance) (pos : nat) (f : Z -> Z) : list Instance :=
  alter (fun i => mk_Instance (i_id i) (i_handle i) (f (i_in_flight i)) (i_caps i) (i_soft_strikes i) (i_dead i)) pos l.

Definition fresh_instance (id : Z) (handle : InstanceHandle) (caps : HeapCaps) : Instance :=
  mk_Instance id handle 1 caps 0 false.

(** The warmest idle instance whose caps match. *)
Definition idle_position (l : list Instance) (caps : HeapCaps) : option nat :=
  fst <$> max_by (fun a b => h_last_used (i_handle a.2) ?= h_last_used (i_handle b.2))
    (filter (fun x => i_dead x.2 = false /\ i_in_flight x.2 = 0 /\ i_caps x.2 = caps) (enumerate l)).

Definition joinable_positions (l : list Instance) (caps : HeapCaps) : list nat :=
  map fst (filter (fun x => i_dead x.2 = false /\ i_caps x.2 = caps) (enumerate l)).

Definition live_count (l : list Instance) : Z := zlen (filter (fun i => i_dead i = false) l).

(** [util] reads an instance's current thread load, [spawn] is what spawning
    its thread would give; [None] is an index out of bounds, a panic. *)
Definition acquire (r : RegistryInner) (prefix_id : string) (caps : HeapCaps)
    (usage : option Z) (now now_shed : Z) (util : Z -> Z) (spawn : io InstanceHandle)
    : option (Acquired * RegistryInner) :=
  let run_cap_bytes := hard_bytes caps in
  let '(r, admit_warm) := pressure_pass r usage now_shed in
  let id := next_instance_id r in
  let entry := default PrefixEntry_default (prefixes r !! prefix_id) in
  let d := note_arrival (demand entry) now in
  let d := if negb (ew_seeded (heap_bytes d)) && (0 <? run_cap_bytes)
    then update_heap d (f64_of_Z run_cap_bytes) else d in
  let l := instances entry in
  let commit l' := put_entry r prefix_id (mk_PrefixEntry l' d) in
  let push handle :=
    let r := commit (l ++ [fresh_instance id handle caps]) in
    set_next (set_counts r (total r + 1) (r_oneoff_running r) (idle_total r)) (next_instance_id r + 1) in
  match idle_position l caps with
  | Some pos =>
    inst ← l !! pos;
    let r := commit (set_in_flight_at l pos (fun _ => 1)) in
    Some (Attached (i_id inst), set_counts r (total r) (r_oneoff_running r) (sat_sub (idle_total r) 1))
  | None =>
    let joinable := joinable_positions l caps in
    let live := live_count l in
    if bool_decide (joinable = []) then
      match admit_run usage run_cap_bytes with
      | Err refusal => Some (Refused refusal, commit l)
      | Ok _ =>
        match spawn with
        | Err e => Some (SpawnFailed e, commit l)
        | Ok handle =>
          if negb admit_warm then
            let r := commit l in
            Some (Cold handle, set_counts r (total r + 1) (r_oneoff_running r + 1) (idle_total r))
          else Some (Attached id, push handle)
        end
      end
    else
      let spawn_cap := match Ewma_get (heap_bytes d) with
        | Some h => f64_to_uint u64_max h | None => run_cap_bytes end in
      let can_spawn := admit_warm && (live <? cores) && is_ok (admit_run usage spawn_cap) in
      facts ← mapM (fun pos => (fun i => mk_JoinFact (i_in_flight i) (util (i_id i))) <$> l !! pos) joinable;
      let target := pick_join_target facts in
      let wants_spawn := should_spawn (mk_SpawnFacts (arrivals_per_sec d) (Ewma_get (pd_cpu_ms d)) live cores) in
      let join :=
        if (wants_spawn || bool_decide (target = None)) && can_spawn then None
        else match target with Some t => Some t | None => join_fallback facts end in
      match join with
      | Some fact_idx =>
        pos ← joinable !! fact_idx;
        inst ← l !! pos;
        Some (Attached (i_id inst), commit (set_in_flight_at l pos (fun n => n + 1)))
      | None =>
        match spawn with
        | Err e => Some (SpawnFailed e, commit l)
        | Ok handle => Some (Attached id, push handle)
        end
      end
  end.

(** ** One-off runs *)

Definition reserve_oneoff (r : RegistryInner) (run_cap_bytes : Z) (usage : option Z) (now : Z)
    : result string unit * RegistryInner :=
  let r := (pressure_pass r usage now).1 in
  match admit_run usage run_cap_bytes with
  | Err refusal => (Err refusal, r)
  | Ok _ => (Ok tt, set_counts r (total r + 1) (r_oneoff_running r + 1) (idle_total r))
  end.

Definition release_oneoff (r : RegistryInner) (tainted : bool) (wall cpu : f64)
    (usage : option Z) (now now_shed : Z) : RegistryInner :=
  let r := set_counts r (sat_sub (total r) 1) (sat_sub (r_oneoff_running r) 1) (idle_total r) in
  let r := if tainted then r else note_slot_sample r None wall cpu now in
  (pressure_pass r usage now_shed).1.

(** ** Releasing *)

(** The instance after one run left it. *)
Definition released (inst : Instance) (outcome_tainted : bool) (heap : Z) (prefix_alive : bool) : Instance :=
  let in_flight := sat_sub (i_in_flight inst) 1 in
  let '(strikes, retire) :=
    if negb outcome_tainted && (0 <? soft_bytes (i_caps inst))
    then soft_strike (i_soft_strikes inst) (soft_bytes (i_caps inst) <? heap)
    else (i_soft_strikes inst, false) in
  mk_Instance (i_id inst) (i_handle inst) in_flight (i_caps inst) strikes
    (i_dead inst || retire || outcome_tainted || negb prefix_alive).

(** [iter().position(|i| i.id == id)] *)
Definition position (l : list Instance) (id : Z) : option (nat * Instance) :=
  list_find (fun i => i_id i = id) l.

(** The part of [release] on the instance itself: the new instance list, and the
    counters. *)
Definition release_instance (r : RegistryInner) (l : list Instance) (instance_id : Z)
    (outcome_tainted : bool) (heap : Z) (prefix_alive : bool) (now : Z) : list Instance * RegistryInner :=
  match position l instance_id with
  | None => (l, r)
  | Some (pos, inst) =>
    let inst := released inst outcome_tainted heap prefix_alive in
    if i_dead inst then
      if i_in_flight inst =? 0 then
        (delete pos l, set_counts r (sat_sub (total r) 1) (r_oneoff_running r) (idle_total r))
      else (<[pos := inst]> l, r)
    else if i_in_flight inst =? 0 then
      let inst := mk_Instance (i_id inst) (mk_InstanceHandle now heap 0) (i_in_flight inst)
        (i_caps inst) (i_soft_strikes inst) (i_dead inst) in
      (<[pos := inst]> l, set_counts r (total r) (r_oneoff_running r) (idle_total r + 1))
    else (<[pos := inst]> l, r)
  end.

(** The part of [release] on the prefix's entry. *)
Definition release_entry (r : RegistryInner) (prefix_id : string) (instance_id : Z) (outcome_tainted : bool)
    (heap : Z) (cpu : f64) (prefix_alive : bool) (now : Z) : RegistryInner :=
  match prefixes r !! prefix_id with
  | None => r
  | Some entry =>
    let d := if outcome_tainted then demand entry
      else
        let d := update_cpu (demand entry) cpu in
        if 0 <? heap then update_heap d (f64_of_Z heap) else d in
    let '(l, r) := release_instance r (instances entry) instance_id outcome_tainted heap prefix_alive now in
    if negb prefix_alive && bool_decide (l = []) then set_prefixes r (delete prefix_id (prefixes r))
    else put_entry r prefix_id (mk_PrefixEntry l d)
  end.

Definition release (r : RegistryInner) (prefix_id : string) (instance_id : Z) (outcome_tainted : bool)
    (heap : Z) (wall cpu : f64) (prefix_alive : bool)
    (usage : option Z) (now_sample now_release now_shed : Z) : RegistryInner :=
  let r := if outcome_tainted then r else note_slot_sample r (Some prefix_id) wall cpu now_sample in
  let r := release_entry r prefix_id instance_id outcome_tainted heap cpu prefix_alive now_release in
  (pressure_pass r usage now_shed).1.

(** ** Disposal and statistics *)

Definition mark_dead (i : Instance) : Instance :=
  mk_Instance (i_id i) (i_handle i) (i_in_flight i) (i_caps i) (i_soft_strikes i) true.

Definition dispose_prefix (r : RegistryInner) (prefix_id : string) : RegistryInner :=
  match prefixes r !! prefix_id with
  | None => r
  | Some entry =>
    let kept := map mark_dead (filter (fun i => i_in_flight i <> 0) (instances entry)) in
    let dropped := zlen (filter (fun i => i_in_flight i = 0) (instances entry)) in
    let r := set_counts r (sat_sub (total r) dropped) (r_oneoff_running r) (sat_sub (idle_total r) dropped) in
    if bool_decide (kept = []) then set_prefixes r (delete prefix_id (prefixes r))
    else put_entry r prefix_id (mk_PrefixEntry kept (demand entry))
  end.

Definition idle_heap (h : InstanceHandle) : Z := if h_settled h =? 0 then h_heap_used_bytes h else h_settled h.

Definition count_where (f : Instance -> bool) (l : list Instance) : Z := sum_by (fun i => if f i then 1 else 0) l.
Definition is_busy (i : Instance) : bool := 0 <? i_in_flight i.

(** The rows sorted by prefix id, bytewise. *)
Definition sort_rows (rows : list (string * Z * Z)) : list (string * Z * Z) :=
  merge_sort (fun a b => String.le a.1.1 b.1.1) rows.

Definition stats (r : RegistryInner) (rss usage : Z) : RegistryStats :=
  let rows := filter (fun pe => instances pe.2 <> []) (iter (prefixes r)) in
  mk_RegistryStats
    (r_oneoff_running r)
    (sum_by (fun pe => count_where is_busy (instances pe.2)) rows)
    (sum_by (fun pe => sum_by i_in_flight (instances pe.2)) rows)
    (sum_by (fun pe => count_where is_idle (instances pe.2)) rows)
    (sum_by (fun pe => sum_by (fun i => if is_idle i then idle_heap (i_handle i) else 0) (instances pe.2)) rows)
    (sort_rows (map (fun pe => (pe.1, count_where is_idle (instances pe.2), count_where is_busy (instances pe.2))) rows))
    warm_budget_bytes rss usage hard_line_bytes (r_shedding r).
End Operations.
