(* ===== verification/WarmLedger.v ===== *)
(** * The ledger of the warm registry

    A run holds its instance between [acquire] and [release], a one-off holds
    its place between [reserve_oneoff] (or a cold [acquire]) and
    [release_oneoff].  The ghost state below records who holds what; the ledger
    invariant ties the registry's counters and its pool to it, for every
    interleaving of the operations. *)

From stdpp Require Import gmultiset sorting.
From S2P Require Import Prelude Bytes F64 Types Policy Wire Warm.

(** ** The pool, entry by entry *)

(** The instances of a prefix; none when it has no entry. *)
Definition ents (m : gmap string PrefixEntry) (p : string) : list Instance :=
  instances (default PrefixEntry_default (m !! p)).

(** A measure summed over every pooled instance. *)
Definition pool (f : Instance -> Z) (m : gmap string PrefixEntry) : Z :=
  sum_by (fun pe => sum_by f (instances pe.2)) (map_to_list m).

Lemma pool_empty f : pool f ∅ = 0.
Proof. unfold pool. by rewrite map_to_list_empty. Qed.

Lemma pool_insert_fresh f m p e : m !! p = None -> pool f (<[p := e]> m) = pool f m + sum_by f (instances e).
Proof. intros Hm. unfold pool. rewrite (sum_by_perm _ _ _ (map_to_list_insert m p e Hm)). cbn. lia. Qed.

Lemma pool_delete f m p : pool f (delete p m) = pool f m - sum_by f (ents m p).
Proof.
  unfold ents. destruct (m !! p) as [e|] eqn:Hm; cbn.
  - rewrite <- (insert_delete_id m p e Hm) at 2. rewrite pool_insert_fresh; [lia|]. apply lookup_delete_eq.
  - rewrite delete_id by done. lia.
Qed.

Lemma pool_insert f m p e : pool f (<[p := e]> m) = pool f m - sum_by f (ents m p) + sum_by f (instances e).
Proof.
  rewrite <- insert_delete_eq, pool_insert_fresh by apply lookup_delete_eq. by rewrite pool_delete.
Qed.

Lemma ents_insert m p e : ents (<[p := e]> m) p = instances e.
Proof. unfold ents. by rewrite lookup_insert_eq. Qed.
Lemma ents_insert_ne m p e q : q <> p -> ents (<[p := e]> m) q = ents m q.
Proof. intros. unfold ents. by rewrite lookup_insert_ne. Qed.
Lemma ents_delete m p : ents (delete p m) p = [].
Proof. unfold ents. by rewrite lookup_delete_eq. Qed.
Lemma ents_delete_ne m p q : q <> p -> ents (delete p m) q = ents m q.
Proof. intros. unfold ents. by rewrite lookup_delete_ne. Qed.

(** The pool changes at prefix [p] only, to the list [l]. *)
Definition replaces (m : gmap string PrefixEntry) (p : string) (l : list Instance) (m' : gmap string PrefixEntry) : Prop :=
  ents m' p = l /\ (forall q, q <> p -> ents m' q = ents m q) /\
  (forall f, pool f m' = pool f m - sum_by f (ents m p) + sum_by f l).

Lemma replaces_insert m p e : replaces m p (instances e) (<[p := e]> m).
Proof. split_and!; intros; [apply ents_insert | by apply ents_insert_ne | apply pool_insert]. Qed.

Lemma replaces_delete m p : replaces m p [] (delete p m).
Proof.
  split_and!; intros; [apply ents_delete | by apply ents_delete_ne |].
  rewrite pool_delete. cbn. lia.
Qed.

Lemma replaces_refl m p : replaces m p (ents m p) m.
Proof. split_and!; intros; [done | done | lia]. Qed.

Lemma replaces_trans m p l m' l' m'' : replaces m p l m' -> replaces m' p l' m'' -> replaces m p l' m''.
Proof.
  intros (E1 & N1 & P1) (E2 & N2 & P2). split_and!; [done| |].
  - intros q Hq. by rewrite N2, N1.
  - intros f. rewrite P2, P1, E1. lia.
Qed.

(** ** The ghost state and the invariant *)

(** Who holds what: the attached runs with their multiplicity, and the number
    of one-off and cold runs. *)
Record Held := mk_Held { attached : gmultiset (string * Z); oneoffs : Z }.

Definition runs (h : Held) (p : string) (id : Z) : Z := Z.of_nat (multiplicity (p, id) (attached h)).

(** What holds of every instance of prefix [p]: its run count is the number of
    runs attached to it, a dead one is still in use, its id was given out. *)
Definition instance_ok (h : Held) (p : string) (next : Z) (i : Instance) : Prop :=
  i_in_flight i = runs h p (i_id i) /\ (i_dead i = true -> 0 < i_in_flight i) /\ i_id i < next.

Definition entry_ok (h : Held) (p : string) (next : Z) (l : list Instance) : Prop :=
  NoDup (map i_id l) /\ (forall i, i ∈ l -> instance_ok h p next i) /\
  (forall id, 0 < runs h p id -> id ∈ map i_id l).

Definition idle_one (i : Instance) : Z := if is_idle i then 1 else 0.

Record ledger_ok (h : Held) (r : RegistryInner) : Prop := {
  lo_oneoffs : r_oneoff_running r = oneoffs h;
  lo_nonneg : 0 <= oneoffs h;
  lo_total : total r = pool (fun _ => 1) (prefixes r) + r_oneoff_running r;
  lo_idle : idle_total r = pool idle_one (prefixes r);
  lo_entries : forall p, entry_ok h p (next_instance_id r) (ents (prefixes r) p);
}.

Lemma idle_one_nonneg i : 0 <= idle_one i <= 1.
Proof. unfold idle_one. destruct (is_idle i); lia. Qed.

Lemma sum_by_le {A} (f g : A -> Z) l : (forall x, f x <= g x) -> sum_by f l <= sum_by g l.
Proof. intros H. induction l as [|x l IH]; cbn; [lia|]. pose proof (H x). lia. Qed.

Lemma sum_by_elem {A} (f : A -> Z) l x : (forall y, 0 <= f y) -> x ∈ l -> f x <= sum_by f l.
Proof.
  intros Hf. induction 1 as [x l|x y l _ IH]; cbn.
  - pose proof (sum_by_nonneg f l Hf). lia.
  - pose proof (Hf y). lia.
Qed.

(** A part is at most the whole. *)
Lemma pool_part f m p : (forall i, 0 <= f i) -> 0 <= sum_by f (ents m p) <= pool f m.
Proof.
  intros Hf. split; [by apply sum_by_nonneg|]. pose proof (pool_delete f m p) as Hd.
  enough (0 <= pool f (delete p m)) by lia.
  unfold pool. apply sum_by_nonneg. intros pe. by apply sum_by_nonneg.
Qed.

Lemma sum_one {A} (l : list A) : sum_by (fun _ => 1) l = zlen l.
Proof. induction l; cbn; lia. Qed.

Lemma total_ge h r p : ledger_ok h r -> zlen (ents (prefixes r) p) <= total r.
Proof.
  intros [A B C D E]. pose proof (pool_part (fun _ => 1) (prefixes r) p ltac:(lia)) as Hp.
  rewrite sum_one in Hp. lia.
Qed.

Lemma idle_ge h r p : ledger_ok h r -> sum_by idle_one (ents (prefixes r) p) <= idle_total r.
Proof.
  intros [A B C D E]. pose proof (pool_part idle_one (prefixes r) p ltac:(intros i; pose proof (idle_one_nonneg i); lia)).
  lia.
Qed.

(** The change of one prefix preserves the invariant when its new list is right
    and the counters follow. *)
Lemma ledger_replace h h' r r' p l :
  ledger_ok h r -> replaces (prefixes r) p l (prefixes r') ->
  entry_ok h' p (next_instance_id r') l ->
  (forall q id, q <> p -> runs h' q id = runs h q id) ->
  next_instance_id r <= next_instance_id r' ->
  r_oneoff_running r' = oneoffs h' -> 0 <= oneoffs h' ->
  total r' = total r + zlen l - zlen (ents (prefixes r) p) + (oneoffs h' - oneoffs h) ->
  idle_total r' = idle_total r + sum_by idle_one l - sum_by idle_one (ents (prefixes r) p) ->
  ledger_ok h' r'.
Proof.
  intros Hr (He & Hne & Hp) Hl Hq Hn Ho Ho' Ht Hi.
  split; [done|done| | |].
  - pose proof (lo_total _ _ Hr) as H1. pose proof (lo_oneoffs _ _ Hr). rewrite Hp, !sum_one. lia.
  - pose proof (lo_idle _ _ Hr) as H1. rewrite Hp. lia.
  - intros q. destruct (decide (q = p)) as [->|Hqp]; [by rewrite He|]. rewrite (Hne q Hqp).
    destruct (lo_entries _ _ Hr q) as (Hnd & Hall & Hatt). split_and!; [done| |].
    + intros i Hi'. destruct (Hall i Hi') as (A & B & C). split_and!; [by rewrite Hq|done|lia].
    + intros id. rewrite (Hq _ id Hqp). apply Hatt.
Qed.

(** How the pool may change over time: an id is never given out twice, and an
    instance that is dead stays dead. *)
Definition evolves (r r' : RegistryInner) : Prop :=
  next_instance_id r <= next_instance_id r' /\
  forall p i', i' ∈ ents (prefixes r') p ->
    (exists i, i ∈ ents (prefixes r) p /\ i_id i = i_id i' /\ (i_dead i = true -> i_dead i' = true)) \/
    next_instance_id r <= i_id i'.

#[export] Instance evolves_preorder : PreOrder evolves.
Proof.
  split.
  - intros r. split; [lia|]. intros p i Hi. left. by exists i.
  - intros r s t [N1 E1] [N2 E2]. split; [lia|]. intros p i'' [(i' & Hi' & Hid & Hd)|Hn]%E2; [|right; lia].
    apply E1 in Hi' as [(i & Hi & Hid' & Hd')|Hn]; [left; exists i|right; lia].
    split_and!; [done | congruence | auto].
Qed.

Lemma evolves_same r r' :
  (forall p, ents (prefixes r') p = ents (prefixes r) p) -> next_instance_id r' = next_instance_id r -> evolves r r'.
Proof. intros He Hn. split; [lia|]. intros p i Hi. rewrite He in Hi. left. by exists i. Qed.

Lemma evolves_replace r r' p l :
  replaces (prefixes r) p l (prefixes r') -> next_instance_id r <= next_instance_id r' ->
  (forall i', i' ∈ l ->
    (exists i, i ∈ ents (prefixes r) p /\ i_id i = i_id i' /\ (i_dead i = true -> i_dead i' = true)) \/
    next_instance_id r <= i_id i') -> evolves r r'.
Proof.
  intros (He & Hne & _) Hn Hl. split; [done|]. intros q i' Hi'.
  destruct (decide (q = p)) as [->|Hq]; [rewrite He in Hi'; auto|]. rewrite Hne in Hi' by done. left. by exists i'.
Qed.

Lemma evolves_set (l : list Instance) pos i j : l !! pos = Some i -> i_id j = i_id i -> (i_dead i = true -> i_dead j = true) ->
  forall i', i' ∈ <[pos := j]> l -> exists k, k ∈ l /\ i_id k = i_id i' /\ (i_dead k = true -> i_dead i' = true).
Proof.
  intros Hi Hid Hd i' Hi'. apply list_elem_of_lookup in Hi' as [n Hn].
  apply list_lookup_insert_Some in Hn as [(-> & <- & _)|[_ Hn]].
  - exists i. split_and!; [by eapply list_elem_of_lookup_2 | done | done].
  - exists i'. split_and!; [by eapply list_elem_of_lookup_2 | done | done].
Qed.

(** No instance becomes idle. *)
Definition no_new_idle (r r' : RegistryInner) : Prop :=
  forall p i, i ∈ ents (prefixes r') p -> is_idle i = true -> i ∈ ents (prefixes r) p.

(** What every operation but a release does to the pool. *)
Definition serves (r r' : RegistryInner) : Prop := evolves r r' /\ no_new_idle r r'.

#[export] Instance serves_preorder : PreOrder serves.
Proof.
  split.
  - intros r. split; [reflexivity|]. by intros p i Hi _.
  - intros r s t [E1 N1] [E2 N2]. split; [by etrans|]. intros p i Hi Hidle. apply N1; auto.
Qed.

Lemma serves_same r r' :
  (forall p, ents (prefixes r') p = ents (prefixes r) p) -> next_instance_id r' = next_instance_id r -> serves r r'.
Proof. intros He Hn. split; [by apply evolves_same|]. intros p i Hi _. by rewrite He in Hi. Qed.

Lemma no_new_idle_replace r r' p l :
  replaces (prefixes r) p l (prefixes r') ->
  (forall i, i ∈ l -> is_idle i = true -> i ∈ ents (prefixes r) p) -> no_new_idle r r'.
Proof.
  intros (He & Hne & _) Hl q i Hi Hidle. destruct (decide (q = p)) as [->|Hq]; [rewrite He in Hi; auto|].
  by rewrite Hne in Hi.
Qed.

(** ** Eviction and the pressure pass *)

Lemma ledger_same h r r' :
  ledger_ok h r -> prefixes r' = prefixes r -> total r' = total r ->
  r_oneoff_running r' = r_oneoff_running r -> idle_total r' = idle_total r ->
  next_instance_id r' = next_instance_id r -> ledger_ok h r'.
Proof. intros [A B C D E] H1 H2 H3 H4 H5. split; rewrite ?H1, ?H2, ?H3, ?H4, ?H5; auto. Qed.

Lemma is_idle_true i : is_idle i = true <-> i_in_flight i = 0 /\ i_dead i = false.
Proof. unfold is_idle. destruct (i_dead i); rewrite ?andb_true_iff, ?andb_false_iff, ?Z.eqb_eq; cbn; naive_solver. Qed.

(** What a pass may do to the pool: idle instances go, the rest stays as it is,
    and no other part of the ledger moves. *)
Record only_idle_dropped (r r' : RegistryInner) : Prop := {
  od_sub : forall p, ents (prefixes r') p `sublist_of` ents (prefixes r) p;
  od_busy : forall p i, i ∈ ents (prefixes r) p -> is_idle i = false -> i ∈ ents (prefixes r') p;
  od_next : next_instance_id r' = next_instance_id r;
  od_oneoff : r_oneoff_running r' = r_oneoff_running r;
  od_count : total r - total r' = idle_total r - idle_total r';
}.

Lemma only_idle_dropped_refl r r' :
  prefixes r' = prefixes r -> next_instance_id r' = next_instance_id r ->
  r_oneoff_running r' = r_oneoff_running r -> total r' = total r -> idle_total r' = idle_total r ->
  only_idle_dropped r r'.
Proof. intros H1 H2 H3 H4 H5. split; rewrite ?H1; auto; try done; lia. Qed.

Lemma only_idle_dropped_trans r s t :
  only_idle_dropped r s -> only_idle_dropped s t -> only_idle_dropped r t.
Proof.
  intros [A B C D F] [A' B' C' D' F']. split; [|auto|congruence|congruence|lia].
  intros p. transitivity (ents (prefixes s) p); [apply A' | apply A].
Qed.

(** Filtering one idle instance out of a list. *)
Lemma filter_id_perm l (i : Instance) :
  NoDup (map i_id l) -> i ∈ l -> l ≡ₚ i :: filter (fun j => i_id j <> i_id i) l.
Proof.
  induction l as [|j l IH]; intros Hnd Hi; [by apply not_elem_of_nil in Hi|].
  cbn in Hnd. apply NoDup_cons in Hnd as [Hj Hnd]. apply elem_of_cons in Hi as [->|Hi].
  - rewrite filter_cons_False by auto. f_equiv. symmetry.
    clear IH Hnd. induction l as [|k l IHl]; [done|]. cbn in Hj. apply not_elem_of_cons in Hj as [Hk Hj].
    rewrite filter_cons_True by auto. by rewrite IHl.
  - rewrite filter_cons_True.
    + rewrite (IH Hnd Hi) at 1. constructor.
    + intros Heq. apply Hj. rewrite Heq. by apply list_elem_of_fmap_2.
Qed.

(** Dropping instances no run is attached to keeps an entry right. *)
Lemma entry_ok_sub h p next l k :
  entry_ok h p next l -> k `sublist_of` l ->
  (forall i, i ∈ l -> 0 < runs h p (i_id i) -> i ∈ k) -> entry_ok h p next k.
Proof.
  intros (Hnd & Hall & Hatt) Hs Hk. split_and!.
  - eapply sublist_NoDup; [exact Hnd|]. apply fmap_sublist, Hs.
  - intros i Hi. apply Hall. by eapply elem_of_sublist.
  - intros id Hid. pose proof (Hatt id Hid) as Hin.
    apply list_elem_of_fmap in Hin as (i & -> & Hi). apply list_elem_of_fmap_2. by apply Hk.
Qed.

(** ** Attaching and detaching a run *)

Definition attach (p : string) (id : Z) (h : Held) : Held :=
  mk_Held (attached h ⊎ {[+ (p, id) +]}) (oneoffs h).
Definition detach (p : string) (id : Z) (h : Held) : Held :=
  mk_Held (attached h ∖ {[+ (p, id) +]}) (oneoffs h).

Lemma runs_attach h p id : runs (attach p id h) p id = runs h p id + 1.
Proof. unfold runs; cbn. rewrite multiplicity_disj_union, multiplicity_singleton_eq. lia. Qed.
Lemma runs_attach_ne h p id q id' : (q, id') <> (p, id) -> runs (attach p id h) q id' = runs h q id'.
Proof. intros. unfold runs; cbn. rewrite multiplicity_disj_union, multiplicity_singleton_ne by done. lia. Qed.
Lemma runs_detach h p id : runs (detach p id h) p id = sat_sub (runs h p id) 1.
Proof. unfold runs, sat_sub; cbn. rewrite multiplicity_difference, multiplicity_singleton_eq. lia. Qed.
Lemma runs_detach_ne h p id q id' : (q, id') <> (p, id) -> runs (detach p id h) q id' = runs h q id'.
Proof. intros. unfold runs; cbn. rewrite multiplicity_difference, multiplicity_singleton_ne by done. lia. Qed.

Lemma sum_by_set {A} (f : A -> Z) l n x y :
  l !! n = Some x -> sum_by f (<[n := y]> l) = sum_by f l - f x + f y.
Proof.
  revert n. induction l as [|z l IH]; intros [|n] Hl; [done|done| |].
  - injection Hl as ->. cbn. lia.
  - change (<[S n := y]> (z :: l)) with (z :: <[n := y]> l). cbn [sum_by]. rewrite (IH n Hl). lia.
Qed.

Lemma sum_by_delete {A} (f : A -> Z) l n x : l !! n = Some x -> sum_by f (delete n l) = sum_by f l - f x.
Proof. intros Hl. rewrite (sum_by_perm f _ _ (delete_Permutation l n x Hl)). cbn. lia. Qed.

Lemma map_insert_at {A B} (f : A -> B) l n x : map f (<[n := x]> l) = <[n := f x]> (map f l).
Proof. exact (list_fmap_insert f l n x). Qed.
Lemma map_lookup {A B} (f : A -> B) l n : map f l !! n = f <$> l !! n.
Proof. exact (list_lookup_fmap f l n). Qed.

(** One instance of an entry changes, its id stays. *)
Lemma entry_ok_set h h' p next l pos i i' :
  entry_ok h p next l -> l !! pos = Some i -> i_id i' = i_id i -> instance_ok h' p next i' ->
  (forall id, id <> i_id i -> runs h' p id = runs h p id) -> entry_ok h' p next (<[pos := i']> l).
Proof.
  intros (Hnd & Hall & Hatt) Hl Hid Hi Hne.
  assert (Hids : map i_id (<[pos := i']> l) = map i_id l).
  { rewrite map_insert_at, Hid. apply list_insert_id. by rewrite map_lookup, Hl. }
  split_and!.
  - by rewrite Hids.
  - intros j Hj. apply list_elem_of_lookup in Hj as [k Hk].
    apply list_lookup_insert_Some in Hk as [(-> & -> & _)|[Hk Hj]]; [done|].
    assert (Hji : i_id j <> i_id i).
    { intros Heq. apply Hk. eapply (NoDup_lookup _ _ _ (i_id i) Hnd).
      - by rewrite map_lookup, Hl.
      - by rewrite map_lookup, Hj, <- Heq. }
    apply list_elem_of_lookup_2 in Hj. destruct (Hall j Hj) as (A & B & C).
    split_and!; [by rewrite Hne | done | done].
  - intros id Hr. rewrite Hids. destruct (decide (id = i_id i)) as [->|Hd].
    + apply list_elem_of_fmap_2. by eapply list_elem_of_lookup_2.
    + rewrite Hne in Hr by done. by apply Hatt.
Qed.

Lemma entry_ok_delete h h' p next l pos i :
  entry_ok h p next l -> l !! pos = Some i -> runs h' p (i_id i) = 0 ->
  (forall id, id <> i_id i -> runs h' p id = runs h p id) -> entry_ok h' p next (delete pos l).
Proof.
  intros (Hnd & Hall & Hatt) Hl H0 Hne.
  pose proof (delete_Permutation l pos i Hl) as Hp.
  assert (Hnd' : NoDup (i_id i :: map i_id (delete pos l))).
  { rewrite Hp in Hnd. exact Hnd. }
  apply NoDup_cons in Hnd' as [Hni Hnd']. split_and!; [done| |].
  - intros j Hj. assert (Hji : i_id j <> i_id i).
    { intros Heq. apply Hni. rewrite <- Heq. by apply list_elem_of_fmap_2. }
    destruct (Hall j) as (A & B & C); [rewrite Hp; by right|]. split_and!; [by rewrite Hne | done | done].
  - intros id Hr. destruct (decide (id = i_id i)) as [->|Hd]; [lia|]. rewrite Hne in Hr by done.
    pose proof (Hatt id Hr) as Hin. rewrite Hp in Hin. cbn in Hin. apply elem_of_cons in Hin as [?|Hin]; done.
Qed.

Lemma entry_ok_push h p next l handle caps :
  entry_ok h p next l -> entry_ok (attach p next h) p (next + 1) (l ++ [fresh_instance next handle caps]).
Proof.
  intros (Hnd & Hall & Hatt).
  assert (Hfresh : next ∉ map i_id l).
  { intros Hin. apply list_elem_of_fmap in Hin as (i & -> & Hi). destruct (Hall i Hi) as (_ & _ & ?). lia. }
  assert (Hzero : runs h p next = 0).
  { destruct (decide (0 < runs h p next)) as [Hr|]; [|unfold runs in *; lia]. by apply Hatt in Hr. }
  split_and!.
  - rewrite map_app. apply NoDup_app. split_and!; [done| |apply NoDup_singleton].
    intros id Hid Hs. apply list_elem_of_singleton in Hs as ->. done.
  - intros i [Hi|Hi]%elem_of_app.
    + destruct (Hall i Hi) as (A & B & C). split_and!; [|done|lia].
      rewrite runs_attach_ne; [done|]. intros [= Heq]. lia.
    + apply list_elem_of_singleton in Hi as ->. split_and!; cbn; [rewrite runs_attach; lia | done | lia].
  - intros id Hr. rewrite map_app, elem_of_app. destruct (decide (id = next)) as [->|Hd].
    + right. cbn. by left.
    + left. apply Hatt. rewrite runs_attach_ne in Hr; [done|]. by intros [= ->].
Qed.

Section Ledger.
Context `{HO : HashOrder} `{HOk : !HashOrderOk} `{VP : VictimPicker} `{VPOk : !VictimPickerOk}.
Context (powf : f64 -> f64 -> f64) (cores warm_budget_bytes hard_line_bytes host_reserve : Z).

Lemma elem_of_candidates r p i :
  (p, i) ∈ candidates r <-> i ∈ ents (prefixes r) p /\ is_idle i = true.
Proof using HOk.
  unfold candidates. rewrite list_elem_of_In, in_concat. unfold ents. split.
  - intros (l & Hl & Hi). apply in_map_iff in Hl as ([q e] & <- & Hq). apply in_map_iff in Hi as (j & [= -> ->] & Hj).
    apply list_elem_of_In, list_elem_of_filter in Hj as [Hj Hin].
    apply list_elem_of_In in Hq. rewrite iter_perm in Hq. apply elem_of_map_to_list in Hq.
    rewrite Hq. done.
  - intros [Hin Hi]. destruct (prefixes r !! p) as [e|] eqn:He; cbn in Hin; [|by apply not_elem_of_nil in Hin].
    exists (map (fun i => (p, i)) (filter (fun i => is_idle i = true) (instances e))). split.
    + apply in_map_iff. exists (p, e). split; [done|]. apply list_elem_of_In. rewrite iter_perm.
      by apply elem_of_map_to_list.
    + apply in_map_iff. exists i. split; [done|]. apply list_elem_of_In, list_elem_of_filter. done.
Qed.

(** One eviction, when it happens: an idle instance leaves. *)
Lemma evict_scored_some r r' now : evict_scored r now = Some r' ->
  exists p i, i ∈ ents (prefixes r) p /\ is_idle i = true /\
    replaces (prefixes r) p (filter (fun j => i_id j <> i_id i) (ents (prefixes r) p)) (prefixes r') /\
    total r' = sat_sub (total r) 1 /\ idle_total r' = sat_sub (idle_total r) 1 /\
    r_oneoff_running r' = r_oneoff_running r /\ next_instance_id r' = next_instance_id r /\
    r_shedding r' = r_shedding r.
Proof using HOk.
  unfold evict_scored. intros Hev.
  destruct (pick _ _) as [k|]; cbn in Hev; [|done].
  destruct (candidates r !! k) as [[p i]|] eqn:Hk; cbn in Hev; [|done].
  destruct (prefixes r !! p) as [e|] eqn:He; cbn in Hev; [|done]. injection Hev as <-.
  apply list_elem_of_lookup_2, elem_of_candidates in Hk as [Hin Hi].
  exists p, i. split_and!; try done. cbn.
  assert (instances e = ents (prefixes r) p) as -> by (unfold ents; by rewrite He).
  apply (replaces_insert (prefixes r) p (mk_PrefixEntry _ _)).
Qed.

(** Nothing is evicted only when nothing is idle; the lookups of the source
    never fail. *)
Lemma evict_scored_none r now : evict_scored r now = None -> candidates r = [].
Proof using HOk VPOk.
  unfold evict_scored. intros Hev. destruct (pick _ _) as [k|] eqn:Hp; cbn in Hev.
  - apply pick_in_range in Hp. rewrite length_map in Hp.
    destruct (lookup_lt_is_Some_2 _ _ Hp) as [[p i] Hk]. rewrite Hk in Hev. cbn in Hev.
    apply list_elem_of_lookup_2, elem_of_candidates in Hk as [Hin _]. unfold ents in Hin.
    destruct (prefixes r !! p); [done|]. cbn in Hin. by apply not_elem_of_nil in Hin.
  - apply pick_total in Hp. by apply map_eq_nil in Hp.
Qed.

Lemma evict_scored_ok h r r' now :
  ledger_ok h r -> evict_scored r now = Some r' -> ledger_ok h r' /\ only_idle_dropped r r'.
Proof using HOk.
  intros Hr Hev. apply evict_scored_some in Hev as (p & i & Hin & Hi & Hrep & Ht & Hidle & Ho & Hn & _).
  pose proof (lo_entries _ _ Hr p) as Hent. pose proof Hent as (Hnd & Hall & _).
  pose proof (filter_id_perm _ i Hnd Hin) as Hperm.
  assert (Hone : idle_one i = 1) by (unfold idle_one; by rewrite Hi).
  pose proof (sum_by_perm idle_one _ _ Hperm) as Hsum. cbn in Hsum. rewrite Hone in Hsum.
  pose proof (Permutation_length Hperm) as Hlen. cbn in Hlen.
  pose proof (pool_part idle_one (prefixes r) p ltac:(intros j; pose proof (idle_one_nonneg j); lia)) as Hp1.
  pose proof (sum_by_elem idle_one _ i ltac:(intros j; pose proof (idle_one_nonneg j); lia) Hin) as Hp2.
  pose proof (pool_part (fun _ => 1) (prefixes r) p ltac:(lia)) as Hp3.
  pose proof (sum_by_elem (fun _ => 1) _ i ltac:(lia) Hin) as Hp4.
  pose proof (lo_total _ _ Hr). pose proof (lo_idle _ _ Hr). pose proof (lo_oneoffs _ _ Hr). pose proof (lo_nonneg _ _ Hr).
  apply is_idle_true in Hi as [Hf Hd].
  assert (Hbusy : forall j, j ∈ ents (prefixes r) p -> i_id j = i_id i -> j = i).
  { intros j Hj Hid. rewrite Hperm in Hj. apply elem_of_cons in Hj as [->|Hj]; [done|].
    apply list_elem_of_filter in Hj as [Hj _]. done. }
  split.
  - eapply (ledger_replace h h r r'); [exact Hr | exact Hrep | | done | lia | congruence | done | zsolve | zsolve].
    rewrite Hn. eapply entry_ok_sub; [exact Hent | apply sublist_filter|].
    intros j Hj Hr'. apply list_elem_of_filter. split; [|done]. intros Hid.
    rewrite (Hbusy j Hj Hid) in Hr'. destruct (Hall i Hin) as (Hf' & _). lia.
  - destruct Hrep as (He & Hne & _). split; [| |done|done|zsolve].
    + intros q. destruct (decide (q = p)) as [->|Hq]; [rewrite He; apply sublist_filter | by rewrite Hne].
    + intros q j Hj Hjd. destruct (decide (q = p)) as [->|Hq]; [|by rewrite Hne].
      rewrite He. apply list_elem_of_filter. split; [|done]. intros Hid.
      rewrite (Hbusy j Hj Hid) in Hjd. unfold is_idle in Hjd. rewrite Hf, Hd in Hjd. done.
Qed.

Lemma shed_ok h n r r' now k :
  ledger_ok h r -> shed n r now = (r', k) -> ledger_ok h r' /\ only_idle_dropped r r' /\ r_shedding r' = r_shedding r.
Proof using HOk.
  revert r r' k. induction n as [|n IH]; intros r r' k Hr; cbn.
  - intros [= <- <-]. split_and!; [done | by apply only_idle_dropped_refl | done].
  - destruct (evict_scored r now) as [s|] eqn:Hev.
    + destruct (shed n s now) as [t j] eqn:Hs. intros [= <- <-].
      destruct (evict_scored_ok h r s now Hr Hev) as [Hs1 Hs2].
      destruct (IH s t j Hs1 Hs) as (Ht1 & Ht2 & Ht3). split_and!; [done | by eapply only_idle_dropped_trans |].
      apply evict_scored_some in Hev as (? & ? & ? & ? & ? & ? & ? & ? & ? & <-). done.
    + intros [= <- <-]. split_and!; [done | by apply only_idle_dropped_refl | done].
Qed.

Lemma pressure_pass_ok h r usage now :
  ledger_ok h r ->
  let '(r', admit_warm) := pressure_pass warm_budget_bytes r usage now in
  ledger_ok h r' /\ only_idle_dropped r r' /\ admit_warm = negb (r_shedding r').
Proof using HOk.
  intros Hr. unfold pressure_pass. destruct usage as [u|].
  - destruct (watermark_action _) as [sh ev] eqn:Hv. cbn.
    set (r1 := set_latch r sh _).
    assert (H1 : ledger_ok h r1) by (by apply (ledger_same h r)).
    assert (H2 : only_idle_dropped r r1) by (by apply only_idle_dropped_refl).
    destruct (0 <? ev); [|done].
    destruct (shed _ r1 now) as [s k] eqn:Hs.
    destruct (shed_ok h _ _ _ _ _ H1 Hs) as (Hs1 & Hs2 & Hs3).
    pose proof (only_idle_dropped_trans _ _ _ H2 Hs2) as H3.
    destruct (0 <? k); [|by rewrite Hs3].
    split_and!; [by apply (ledger_same h s) | | cbn; by rewrite Hs3].
    eapply only_idle_dropped_trans; [exact H3|]. by apply only_idle_dropped_refl.
  - split_and!; [by apply (ledger_same h r) | by apply only_idle_dropped_refl | done].
Qed.

(** ** Acquiring *)

(** What the run holds after an acquisition. *)
Definition hold (p : string) (a : Acquired) (h : Held) : Held :=
  match a with
  | Attached id => attach p id h
  | Cold _ => mk_Held (attached h) (oneoffs h + 1)
  | Refused _ | SpawnFailed _ => h
  end.

Lemma max_by_in {A} (cmp : A -> A -> comparison) l m : max_by cmp l = Some m -> m ∈ l.
Proof.
  unfold max_by. destruct l as [|x l]; [done|]. intros [= <-]. apply fold_pick_in.
  intros a b. destruct (cmp a b); auto.
Qed.

Lemma min_by_in {A} (cmp : A -> A -> comparison) l m : min_by cmp l = Some m -> m ∈ l.
Proof.
  unfold min_by. destruct l as [|x l]; [done|]. intros [= <-]. apply fold_pick_in.
  intros a b. destruct (cmp a b); auto.
Qed.

Lemma idle_position_some l caps pos : idle_position l caps = Some pos ->
  exists i, l !! pos = Some i /\ i_dead i = false /\ i_in_flight i = 0 /\ i_caps i = caps.
Proof.
  unfold idle_position. destruct (max_by _ _) as [[k i]|] eqn:Hm; [|done]. cbn. intros [= <-].
  apply max_by_in, list_elem_of_filter in Hm as [(? & ? & ?) Hin%elem_of_enumerate]. eauto.
Qed.

Lemma idle_position_none l caps pos i :
  idle_position l caps = None -> l !! pos = Some i -> i_dead i = false -> i_caps i = caps -> i_in_flight i <> 0.
Proof.
  unfold idle_position. intros Hn Hi Hd Hc Hf. destruct (max_by _ _) eqn:Hm; [done|].
  rewrite max_by_none in Hm.
  assert (Hin : (pos, i) ∈ filter (fun x => i_dead x.2 = false /\ i_in_flight x.2 = 0 /\ i_caps x.2 = caps) (enumerate l)).
  { apply list_elem_of_filter. split; [done|]. by apply elem_of_enumerate. }
  rewrite Hm in Hin. by apply not_elem_of_nil in Hin.
Qed.

Lemma joinable_in l caps pos : pos ∈ joinable_positions l caps ->
  exists i, l !! pos = Some i /\ i_dead i = false /\ i_caps i = caps.
Proof.
  unfold joinable_positions. intros ([k i] & -> & Hin)%list_elem_of_fmap.
  apply list_elem_of_filter in Hin as [(? & ?) Hin%elem_of_enumerate]. eauto.
Qed.

Lemma joinable_lookup l caps t : (t < length (joinable_positions l caps))%nat ->
  exists pos i, joinable_positions l caps !! t = Some pos /\ l !! pos = Some i /\ i_dead i = false /\ i_caps i = caps.
Proof.
  intros Ht. destruct (lookup_lt_is_Some_2 _ _ Ht) as [pos Hpos].
  pose proof (list_elem_of_lookup_2 _ _ _ Hpos) as (i & Hi)%joinable_in. by exists pos, i.
Qed.

Lemma joinable_nil l caps i : joinable_positions l caps = [] -> i ∈ l -> i_dead i = false -> i_caps i <> caps.
Proof.
  intros Hj [pos Hi]%list_elem_of_lookup Hd Hc. unfold joinable_positions in Hj. apply map_eq_nil in Hj.
  assert (Hin : (pos, i) ∈ filter (fun x => i_dead x.2 = false /\ i_caps x.2 = caps) (enumerate l)).
  { apply list_elem_of_filter. split; [done|]. by apply elem_of_enumerate. }
  rewrite Hj in Hin. by apply not_elem_of_nil in Hin.
Qed.

(** The routing picks a fact that exists, and one whenever there is any. *)
Lemma join_choice facts : facts <> [] ->
  exists t, (match pick_join_target facts with Some t => Some t | None => join_fallback facts end) = Some t
    /\ (t < length facts)%nat.
Proof.
  intros Hne. unfold pick_join_target. destruct (max_by _ _) as [[t f]|] eqn:Hm; cbn.
  - exists t. split; [done|]. apply max_by_in, list_elem_of_filter in Hm as [_ Hin%elem_of_enumerate].
    by eapply lookup_lt_Some.
  - unfold join_fallback. destruct (min_by _ _) as [[t f]|] eqn:Hm'; cbn.
    + exists t. split; [done|]. apply min_by_in, elem_of_enumerate in Hm'. by eapply lookup_lt_Some.
    + by rewrite min_by_none, enumerate_nil in Hm'.
Qed.

Lemma mapM_total {A B} (f : A -> option B) l :
  (forall x, x ∈ l -> is_Some (f x)) -> exists k, mapM f l = Some k /\ length k = length l.
Proof.
  intros Hf. destruct (mapM f l) as [k|] eqn:Hm.
  - exists k. split; [done|]. by apply length_mapM in Hm.
  - apply mapM_None_1, Exists_exists in Hm as (x & Hin & Hx). destruct (Hf x Hin). congruence.
Qed.

Lemma alter_insert {A} (f : A -> A) (l : list A) n x : l !! n = Some x -> alter f n l = <[n := f x]> l.
Proof. intros Hl. rewrite list_insert_alter. apply list_alter_ext; [|done]. intros y Hy. congruence. Qed.

(** The run count of an instance goes up by the run that is attached. *)
Lemma attach_ok h r p d pos i f idle' :
  ledger_ok h r -> ents (prefixes r) p !! pos = Some i -> i_dead i = false -> f (i_in_flight i) = i_in_flight i + 1 ->
  idle' = idle_total r - idle_one i ->
  let l' := set_in_flight_at (ents (prefixes r) p) pos f in
  ledger_ok (attach p (i_id i) h)
    (set_counts (put_entry r p (mk_PrefixEntry l' d)) (total r) (r_oneoff_running r) idle') /\
  serves r (put_entry r p (mk_PrefixEntry l' d)) /\
  exists j, j ∈ l' /\ i_id j = i_id i /\ i_dead j = false /\ i_caps j = i_caps i.
Proof.
  intros Hr Hi Hd Hf -> l'. set (j := mk_Instance (i_id i) (i_handle i) (f (i_in_flight i)) (i_caps i) (i_soft_strikes i) (i_dead i)).
  assert (Hl' : l' = <[pos := j]> (ents (prefixes r) p)) by exact (alter_insert _ _ _ _ Hi).
  pose proof (lo_entries _ _ Hr p) as Hent. pose proof Hent as (_ & Hall & _).
  destruct (Hall i) as (Hfl & _ & Hid); [by eapply list_elem_of_lookup_2|].
  assert (Hj : idle_one j = 0).
  { unfold idle_one, is_idle. cbn. rewrite Hf, Hfl. rewrite (proj2 (Z.eqb_neq _ _)); [done|]. unfold runs. lia. }
  split; [|split; [split|]].
  - eapply (ledger_replace h); [done | apply replaces_insert | | | cbn; lia | cbn; apply Hr | apply Hr | |]; cbn.
    + rewrite Hl'. eapply entry_ok_set; [done | done | done | |].
      * split_and!; cbn; [rewrite runs_attach; lia | congruence | lia].
      * intros id Hne. apply runs_attach_ne. by intros [= ?].
    + intros q id Hq. apply runs_attach_ne. by intros [= ?].
    + rewrite Hl', length_insert. lia.
    + rewrite Hl', (sum_by_set _ _ _ _ _ Hi). lia.
  - eapply evolves_replace; [apply replaces_insert | done |]. intros i' Hi'. left. cbn in Hi'. rewrite Hl' in Hi'.
    eapply (evolves_set _ pos i j Hi); [done | done | done].
  - eapply no_new_idle_replace; [apply replaces_insert|]. intros i' Hi' Hidle. cbn in Hi'. rewrite Hl' in Hi'.
    apply list_elem_of_lookup in Hi' as [n Hn]. apply list_lookup_insert_Some in Hn as [(_ & <- & _)|[_ Hn]].
    + unfold idle_one in Hj. by rewrite Hidle in Hj.
    + by eapply list_elem_of_lookup_2.
  - exists j. split_and!; try done. rewrite Hl'. apply list_elem_of_lookup. exists pos.
    apply list_lookup_insert_eq. by eapply lookup_lt_Some.
Qed.

(** A fresh instance joins the pool with its first run. *)
Lemma push_ok h r p d handle caps :
  ledger_ok h r ->
  let id := next_instance_id r in
  ledger_ok (attach p id h)
    (set_next (set_counts (put_entry r p (mk_PrefixEntry (ents (prefixes r) p ++ [fresh_instance id handle caps]) d))
      (total r + 1) (r_oneoff_running r) (idle_total r)) (id + 1)).
Proof.
  intros Hr id. eapply (ledger_replace h); [done | apply replaces_insert | | | cbn; lia | cbn; apply Hr | apply Hr | |]; cbn.
  - apply entry_ok_push, Hr.
  - intros q id' Hq. apply runs_attach_ne. by intros [= ?].
  - rewrite length_app. cbn. lia.
  - rewrite sum_by_app. cbn. lia.
Qed.

(** Only the demand of a prefix changes, and [one] one-off runs are counted. *)
Lemma commit_ok h r p d one :
  ledger_ok h r -> 0 <= one ->
  ledger_ok (mk_Held (attached h) (oneoffs h + one))
    (set_counts (put_entry r p (mk_PrefixEntry (ents (prefixes r) p) d))
      (total r + one) (r_oneoff_running r + one) (idle_total r)).
Proof.
  intros Hr Hone. pose proof (lo_oneoffs _ _ Hr). pose proof (lo_nonneg _ _ Hr).
  eapply (ledger_replace h); [done | apply replaces_insert | | done | cbn; lia | cbn; lia | cbn; lia | cbn; lia | cbn; lia].
  cbn. apply Hr.
Qed.

Lemma commit_ok_same h r p d :
  ledger_ok h r -> ledger_ok h (put_entry r p (mk_PrefixEntry (ents (prefixes r) p) d)).
Proof.
  intros Hr. destruct h as [att one]. pose proof (commit_ok _ r p d 0 Hr ltac:(lia)) as Hc.
  cbn in Hc. rewrite Z.add_0_r in Hc. apply (ledger_same _ _ _ Hc); cbn; lia || done.
Qed.

(** No live instance of the prefix takes a run with these caps. *)
Definition none_joinable (r : RegistryInner) (p : string) (caps : HeapCaps) : Prop :=
  forall i, i ∈ ents (prefixes r) p -> i_dead i = false -> i_caps i <> caps.

(** What an acquisition's outcome means; [r] is the registry after the pressure
    pass, [r'] the one it returns. *)
Definition acquired_means (r : RegistryInner) (p : string) (caps : HeapCaps) (usage : option Z)
    (spawn : io InstanceHandle) (a : Acquired) (r' : RegistryInner) : Prop :=
  match a with
  | Attached id =>
    (exists i, i ∈ ents (prefixes r') p /\ i_id i = id /\ i_dead i = false /\ i_caps i = caps) /\
    (next_instance_id r' = next_instance_id r \/ r_shedding r = false)
  | Cold handle =>
    r_shedding r = true /\ spawn = Ok handle /\ none_joinable r p caps /\
    admit_run warm_budget_bytes hard_line_bytes host_reserve usage (hard_bytes caps) = Ok tt
  | Refused message =>
    none_joinable r p caps /\
    admit_run warm_budget_bytes hard_line_bytes host_reserve usage (hard_bytes caps) = Err message
  | SpawnFailed e => spawn = Err e
  end.

Lemma serves_commit r p d : serves r (put_entry r p (mk_PrefixEntry (ents (prefixes r) p) d)).
Proof.
  apply serves_same; [|done]. intros q. cbn. destruct (decide (q = p)) as [->|Hq].
  - by rewrite ents_insert.
  - by rewrite ents_insert_ne.
Qed.

Lemma serves_dropped r r' : only_idle_dropped r r' -> serves r r'.
Proof.
  intros [Hs _ Hn _ _]. split.
  - split; [lia|]. intros p i Hi. left. exists i. split_and!; try done. by eapply elem_of_sublist.
  - intros p i Hi _. by eapply elem_of_sublist.
Qed.

Lemma push_means h r p d handle caps usage spawn :
  ledger_ok h r -> r_shedding r = false ->
  let id := next_instance_id r in
  let r' := set_next (set_counts (put_entry r p
      (mk_PrefixEntry (ents (prefixes r) p ++ [fresh_instance id handle caps]) d))
      (total r + 1) (r_oneoff_running r) (idle_total r)) (id + 1) in
  ledger_ok (hold p (Attached id) h) r' /\ serves r r' /\ acquired_means r p caps usage spawn (Attached id) r'.
Proof.
  intros Hr Hs id r'. split; [by apply push_ok|]. split; [|split; [|by right]].
  { split.
    - eapply evolves_replace; [apply replaces_insert | cbn; lia |]. intros i' [Hi'|Hi']%elem_of_app; [left; by exists i'|].
      apply list_elem_of_singleton in Hi' as ->. right. cbn. lia.
    - eapply no_new_idle_replace; [apply replaces_insert|]. intros i' [Hi'|Hi']%elem_of_app Hidle; [done|].
      apply list_elem_of_singleton in Hi' as ->. done. }
  exists (fresh_instance id handle caps). split; [|done].
  cbn. rewrite ents_insert. cbn. apply elem_of_app. right. by left.
Qed.

Lemma shed_off aw (s : bool) : aw = negb s -> aw = true -> s = false.
Proof. by destruct s; intros ->. Qed.

Lemma acquire_ok h r p caps usage now now_shed util spawn :
  ledger_ok h r ->
  exists a r',
    acquire cores warm_budget_bytes hard_line_bytes host_reserve r p caps usage now now_shed util spawn = Some (a, r') /\
    ledger_ok (hold p a h) r' /\ serves r r' /\
    acquired_means (pressure_pass warm_budget_bytes r usage now_shed).1 p caps usage spawn a r'.
Proof using HOk.
  intros Hr. pose proof (pressure_pass_ok h r usage now_shed Hr) as Hpp. unfold acquire.
  destruct (pressure_pass _ r usage now_shed) as [r1 aw]. destruct Hpp as (H1 & Hod & Haw). cbn [fst].
  apply serves_dropped in Hod.
  match goal with |- exists a r', ?x = Some (a, r') /\ _ => enough (Hs : exists a r', x = Some (a, r') /\ ledger_ok (hold p a h) r' /\ serves r1 r' /\ acquired_means r1 p caps usage spawn a r') end.
  { destruct Hs as (a & r' & Ha & Hok & Hev & Hm). exists a, r'. split; [exact Ha|]. split; [done|]. split; [by etrans | done]. }
  change (instances (default PrefixEntry_default (prefixes r1 !! p))) with (ents (prefixes r1) p).
  match goal with |- context [if ?c then update_heap ?x ?y else ?x] => set (d := if c then update_heap x y else x) end.
  destruct (idle_position _ caps) as [pos|] eqn:Hidle.
  { apply idle_position_some in Hidle as (i & Hi & Hd & Hf & Hc). rewrite Hi. cbn.
    assert (Hone : idle_one i = 1) by (unfold idle_one, is_idle; by rewrite Hf, Hd).
    destruct (attach_ok h r1 p d pos i (fun _ => 1) (sat_sub (idle_total r1) 1) H1 Hi Hd) as (Hok & Hev & j & Hj).
    - cbn. lia.
    - pose proof (pool_part idle_one (prefixes r1) p ltac:(intros k; pose proof (idle_one_nonneg k); lia)).
      pose proof (sum_by_elem idle_one _ i ltac:(intros k; pose proof (idle_one_nonneg k); lia) (list_elem_of_lookup_2 _ _ _ Hi)).
      pose proof (lo_idle _ _ H1). zsolve.
    - eexists _, _. split; [done|]. split; [exact Hok|]. split; [exact Hev|]. split; [|by left].
      exists j. cbn. rewrite ents_insert. cbn. by rewrite Hc in Hj. }
  assert (Hpush : forall handle, aw = true -> _) by exact (fun handle Ht => push_means h r1 p d handle caps usage spawn H1 (shed_off aw _ Haw Ht)).
  case_bool_decide as Hj.
  { pose proof (fun i => joinable_nil _ caps i Hj) as Hnone.
    destruct (admit_run _ _ _ usage (hard_bytes caps)) as [[]|m] eqn:Hadm.
    - destruct spawn as [handle|e] eqn:Hsp.
      + destruct aw; cbn [negb].
        * eexists _, _. split; [done|]. by apply Hpush.
        * eexists _, _. split; [done|]. split; [exact (commit_ok h r1 p d 1 H1 ltac:(lia))|].
          split; [apply serves_commit|]. split_and!; [by destruct (r_shedding r1) | done | exact Hnone | done].
      + eexists _, _. split; [done|]. split; [by apply commit_ok_same|]. split; [apply serves_commit | done].
    - eexists _, _. split; [done|]. split; [by apply commit_ok_same|].
      split; [apply serves_commit | by split]. }
  destruct (mapM_total (fun pos => (fun i => mk_JoinFact (i_in_flight i) (util (i_id i))) <$> ents (prefixes r1) p !! pos)
    (joinable_positions (ents (prefixes r1) p) caps)) as (facts & Hfacts & Hlen).
  { intros pos (i & -> & _)%joinable_in. by eexists. }
  cbn. rewrite Hfacts. cbn.
  destruct (join_choice facts) as (t & Ht & Hlt).
  { intros ->. cbn in Hlen. by destruct (joinable_positions _ _). }
  destruct (joinable_lookup (ents (prefixes r1) p) caps t ltac:(lia)) as (pos & i & Hpos & Hi & Hd & Hc).
  match goal with |- context [if ?c then None else _] => destruct c eqn:Hsp end.
  - destruct spawn as [handle|e] eqn:Hspawn.
    + eexists _, _. split; [done|]. apply (Hpush handle).
      destruct aw; [done|]. by rewrite andb_false_r in Hsp.
    + eexists _, _. split; [done|]. split; [by apply commit_ok_same|]. split; [apply serves_commit | done].
  - rewrite Ht. cbn. rewrite Hpos. cbn. rewrite Hi. cbn. eexists _, _. split; [done|].
    pose proof (idle_position_none _ _ _ _ Hidle Hi Hd Hc) as Hbusy.
    destruct (attach_ok h r1 p d pos i (fun n => n + 1) (idle_total r1) H1 Hi Hd eq_refl) as (Hok & Hev & j & Hj').
    + unfold idle_one, is_idle. apply Z.eqb_neq in Hbusy. rewrite Hbusy. cbn. lia.
    + split; [apply (ledger_same _ _ _ Hok); done|]. split; [exact Hev|]. split; [|by left].
      exists j. cbn. rewrite ents_insert. cbn. by rewrite Hc in Hj'.
Qed.

(** ** Releasing *)

Lemma note_slot_sample_ok h r o w c now :
  ledger_ok h r ->
  let r' := note_slot_sample powf cores r o w c now in
  ledger_ok h r' /\ (forall q, ents (prefixes r') q = ents (prefixes r) q) /\ next_instance_id r' = next_instance_id r.
Proof.
  intros Hr. unfold note_slot_sample.
  set (r1 := match o with Some id => _ | None => _ end).
  assert (H1 : ledger_ok h r1 /\ (forall q, ents (prefixes r1) q = ents (prefixes r) q) /\
    next_instance_id r1 = next_instance_id r).
  { unfold r1. destruct o as [p|]; [|split_and!; [by apply (ledger_same h r)|done|done]].
    destruct (prefixes r !! p) as [e|] eqn:He; [|done].
    assert (instances e = ents (prefixes r) p) as -> by (unfold ents; by rewrite He).
    split_and!; [by apply commit_ok_same | | done]. intros q. cbn.
    destruct (decide (q = p)) as [->|Hq]; [by rewrite ents_insert | by rewrite ents_insert_ne]. }
  clearbody r1. destruct H1 as (H1 & H2 & H3).
  destruct (_ <? RECOMPUTE_EVERY); (split_and!; [by apply (ledger_same h r1) | done | done]).
Qed.

Lemma position_some h p next l id :
  entry_ok h p next l -> 0 < runs h p id ->
  exists pos i, position l id = Some (pos, i) /\ l !! pos = Some i /\ i_id i = id.
Proof.
  intros (_ & _ & Hatt) Hr. pose proof (Hatt id Hr) as (i & -> & Hi)%list_elem_of_fmap.
  destruct (list_find_elem_of (fun j => i_id j = i_id i) l i Hi eq_refl) as [[pos j] Hf].
  exists pos, j. split; [done|]. apply list_find_Some in Hf as (? & ? & _). done.
Qed.

Lemma released_facts i tainted heap alive :
  let j := released i tainted heap alive in
  i_id j = i_id i /\ i_in_flight j = sat_sub (i_in_flight i) 1 /\
  (i_dead j = false -> i_dead i = false /\ tainted = false /\ alive = true).
Proof.
  cbn. unfold released. destruct (if negb tainted && _ then _ else _) as [s d]. cbn.
  split_and!; try done. by destruct (i_dead i), d, tainted, alive.
Qed.

(** What [release_instance] does to the entry and the counters. *)
Lemma release_instance_ok h r p id tainted heap alive now :
  ledger_ok h r -> 0 < runs h p id ->
  let '(l, r') := release_instance r (ents (prefixes r) p) id tainted heap alive now in
  prefixes r' = prefixes r /\ next_instance_id r' = next_instance_id r /\
  r_oneoff_running r' = r_oneoff_running r /\
  entry_ok (detach p id h) p (next_instance_id r) l /\
  total r' = total r + zlen l - zlen (ents (prefixes r) p) /\
  idle_total r' = idle_total r + sum_by idle_one l - sum_by idle_one (ents (prefixes r) p) /\
  (forall i', i' ∈ l -> exists i, i ∈ ents (prefixes r) p /\ i_id i = i_id i' /\ (i_dead i = true -> i_dead i' = true)).
Proof.
  intros Hr Hheld. pose proof (lo_entries _ _ Hr p) as Hent.
  destruct (position_some _ _ _ _ _ Hent Hheld) as (pos & i & Hpos & Hi & Hid).
  pose proof Hent as (_ & Hall & _).
  destruct (Hall i (list_elem_of_lookup_2 _ _ _ Hi)) as (Hf & _ & Hlt). rewrite Hid in Hf.
  unfold release_instance. rewrite Hpos. set (j := released i tainted heap alive).
  destruct (released_facts i tainted heap alive) as (Hjid & Hjf & Hjd). fold j in Hjid, Hjf, Hjd.
  assert (Hne : forall k, k <> i_id i -> runs (detach p id h) p k = runs h p k).
  { intros k Hk. apply runs_detach_ne. intros [= ->]. by apply Hk. }
  assert (Hbusy : idle_one i = 0).
  { unfold idle_one, is_idle. by rewrite (proj2 (Z.eqb_neq _ _)) by lia. }
  assert (Hset : forall j', i_id j' = i_id i -> i_in_flight j' = i_in_flight j ->
    (i_dead j' = true -> 0 < i_in_flight j) -> entry_ok (detach p id h) p (next_instance_id r) (<[pos := j']> (ents (prefixes r) p))).
  { intros j' E1 E2 E3. eapply entry_ok_set; [done|done|done| |done].
    split_and!; [rewrite E2, Hjf, Hf, E1, Hid; by rewrite runs_detach | rewrite E2; auto | by rewrite E1]. }
  destruct (i_dead j) eqn:Hdead; destruct (Z.eqb_spec (i_in_flight j) 0) as [H0|H0]; cbn;
    split_and!; try done; rewrite ?length_insert, ?length_delete, ?(sum_by_set _ _ _ _ _ Hi), ?(sum_by_delete _ _ _ _ Hi);
    try lia; try (by eexists);
    try (apply Hset; cbn; auto; unfold sat_sub in Hjf; lia);
    try (intros i' Hi'; eapply (evolves_set _ pos i _ Hi); [| |exact Hi']; cbn;
      [done | intros ?; first [done | destruct (Hjd eq_refl) as [? _]; congruence]]).
  - eapply entry_ok_delete; [done|done| |done]. rewrite Hid, runs_detach. zsolve.
  - pose proof (lookup_lt_Some _ _ _ Hi). pose proof (total_ge h r p Hr). zsolve.
  - intros i' Hi'. exists i'. split_and!; [by eapply elem_of_sublist, sublist_delete | done | done].
  - rewrite Hbusy. unfold idle_one, is_idle. rewrite Hdead, andb_false_r. lia.
  - rewrite Hbusy. unfold idle_one, is_idle. cbn. rewrite H0. cbn. lia.
  - rewrite Hbusy. unfold idle_one, is_idle. rewrite (proj2 (Z.eqb_neq _ _) H0). cbn. lia.
Qed.

(** A tainted run, or a run of a disposed prefix, leaves its instance dead or
    gone. *)
Lemma release_instance_dead h r p id tainted heap alive now i' :
  ledger_ok h r -> 0 < runs h p id -> tainted = true \/ alive = false ->
  i' ∈ (release_instance r (ents (prefixes r) p) id tainted heap alive now).1 -> i_id i' = id -> i_dead i' = true.
Proof.
  intros Hr Hheld Hwhy. pose proof (lo_entries _ _ Hr p) as Hent.
  destruct (position_some _ _ _ _ _ Hent Hheld) as (pos & i & Hpos & Hi & Hid).
  destruct Hent as (Hnd & _). unfold release_instance. rewrite Hpos.
  destruct (released_facts i tainted heap alive) as (Hjid & _ & Hjd). set (j := released i tainted heap alive) in *.
  assert (Hdead : i_dead j = true).
  { destruct (i_dead j); [done|]. destruct (Hjd eq_refl) as (_ & -> & ->). naive_solver. }
  rewrite Hdead. destruct (i_in_flight j =? 0); cbn; intros Hin Hid'.
  - rewrite (delete_Permutation _ _ _ Hi) in Hnd. cbn in Hnd. apply NoDup_cons in Hnd as [Hni _].
    destruct Hni. rewrite Hid, <- Hid'. by apply list_elem_of_fmap_2.
  - apply list_elem_of_lookup in Hin as [k Hk].
    apply list_lookup_insert_Some in Hk as [(_ & <- & _)|[Hne Hk]]; [done|]. destruct Hne.
    eapply (NoDup_lookup _ _ _ id Hnd); rewrite map_lookup; [by rewrite Hi, <- Hid | by rewrite Hk, <- Hid'].
Qed.

(** Nothing goes idle but the released instance, and only while its prefix is
    alive. *)
Lemma release_instance_idle h r p id tainted heap alive now i' :
  ledger_ok h r -> 0 < runs h p id ->
  i' ∈ (release_instance r (ents (prefixes r) p) id tainted heap alive now).1 -> is_idle i' = true ->
  i' ∈ ents (prefixes r) p \/ alive = true.
Proof.
  intros Hr Hheld. destruct (position_some _ _ _ _ _ (lo_entries _ _ Hr p) Hheld) as (pos & i & Hpos & Hi & Hid).
  unfold release_instance. rewrite Hpos.
  destruct (released_facts i tainted heap alive) as (_ & _ & Hjd). set (j := released i tainted heap alive) in *.
  destruct (i_dead j) eqn:Hdead; [destruct (i_in_flight j =? 0)|destruct (i_in_flight j =? 0)]; cbn; intros Hin Hidle.
  - left. by eapply elem_of_sublist, sublist_delete.
  - apply list_elem_of_lookup in Hin as [k Hk].
    apply list_lookup_insert_Some in Hk as [(_ & <- & _)|[_ Hk]]; [|left; by eapply list_elem_of_lookup_2].
    unfold is_idle in Hidle. by rewrite Hdead, andb_false_r in Hidle.
  - right. by destruct (Hjd eq_refl) as (_ & _ & ?).
  - right. by destruct (Hjd eq_refl) as (_ & _ & ?).
Qed.

(** What a release, or a part of it, guarantees. *)
Record release_means (h : Held) (r : RegistryInner) (p : string) (id : Z) (tainted alive : bool) (r' : RegistryInner) : Prop := {
  rm_ledger : ledger_ok (detach p id h) r';
  rm_evolves : evolves r r';
  rm_dead : tainted = true \/ alive = false -> forall i, i ∈ ents (prefixes r') p -> i_id i = id -> i_dead i = true;
  rm_idle : forall q i, i ∈ ents (prefixes r') q -> is_idle i = true ->
    i ∈ ents (prefixes r) q \/ (q = p /\ alive = true);
}.

Lemma release_entry_ok h r p id tainted heap cpu alive now :
  ledger_ok h r -> 0 < runs h p id ->
  release_means h r p id tainted alive (release_entry r p id tainted heap cpu alive now).
Proof.
  intros Hr Hheld. unfold release_entry. pose proof (lo_entries _ _ Hr p) as Hent.
  destruct (position_some _ _ _ _ _ Hent Hheld) as (pos & i & Hpos & Hi & Hid).
  destruct (prefixes r !! p) as [e|] eqn:He; [|unfold ents in Hi; by rewrite He in Hi].
  assert (instances e = ents (prefixes r) p) as -> by (unfold ents; by rewrite He).
  pose proof (release_instance_ok h r p id tainted heap alive now Hr Hheld) as Hri.
  pose proof (fun i => release_instance_dead h r p id tainted heap alive now i Hr Hheld) as Hdead.
  pose proof (fun i => release_instance_idle h r p id tainted heap alive now i Hr Hheld) as Hnew.
  destruct (release_instance r _ id tainted heap alive now) as [l s].
  destruct Hri as (Hp & Hn & Ho & Hl & Ht & Hidle & Hev).
  match goal with |- release_means _ _ _ _ _ _ ?x => set (r2 := x) end.
  assert (Hrep : replaces (prefixes r) p l (prefixes r2) /\ total r2 = total s /\ idle_total r2 = idle_total s /\
    next_instance_id r2 = next_instance_id r /\ r_oneoff_running r2 = r_oneoff_running r).
  { unfold r2. destruct (negb alive && bool_decide (l = [])) eqn:Hb; cbn; rewrite Hp; split_and!; try done.
    - apply andb_true_iff in Hb as [_ ->%bool_decide_eq_true]. apply replaces_delete.
    - apply (replaces_insert _ p (mk_PrefixEntry l _)). }
  clearbody r2. destruct Hrep as (Hrep & Ht2 & Hi2 & Hn2 & Ho2). split.
  - eapply (ledger_replace h); [done | done | by rewrite Hn2 | | lia | rewrite Ho2; apply Hr | apply Hr | cbn; lia | lia].
    intros q id' Hq. apply runs_detach_ne. by intros [= ?].
  - eapply evolves_replace; [done | lia |]. auto.
  - destruct Hrep as (-> & _). auto.
  - destruct Hrep as (E & N & _). intros q i' Hi' Hid'. destruct (decide (q = p)) as [->|Hq].
    + rewrite E in Hi'. destruct (Hnew i' Hi' Hid'); auto.
    + rewrite N in Hi' by done. by left.
Qed.

Lemma release_ok h r p id tainted heap wall cpu alive usage t1 t2 t3 :
  ledger_ok h r -> 0 < runs h p id ->
  release_means h r p id tainted alive
    (release powf cores warm_budget_bytes r p id tainted heap wall cpu alive usage t1 t2 t3).
Proof using HOk.
  intros Hr Hheld. unfold release. set (r1 := if tainted then r else _).
  assert (H1 : ledger_ok h r1 /\ (forall q, ents (prefixes r1) q = ents (prefixes r) q) /\
    next_instance_id r1 = next_instance_id r).
  { unfold r1. destruct tainted; [done|]. by apply note_slot_sample_ok. }
  clearbody r1. destruct H1 as (H1 & Hsame & Hnext).
  destruct (release_entry_ok h r1 p id tainted heap cpu alive t2 H1 Hheld) as [H2 E2 D2 I2].
  set (r2 := release_entry r1 _ _ _ _ _ _ _) in *. clearbody r2.
  pose proof (pressure_pass_ok _ r2 usage t3 H2) as Hpp.
  destruct (pressure_pass _ r2 usage t3) as [r3 aw]. destruct Hpp as (H3 & Hod & _). cbn.
  pose proof (serves_dropped _ _ Hod) as [E3 N3]. split; [done| | |].
  - etrans; [by apply evolves_same|]. by etrans.
  - intros Hwhy i Hi. apply (D2 Hwhy). eapply elem_of_sublist; [exact Hi|]. apply Hod.
  - intros q i Hi Hidle. rewrite <- Hsame. apply I2; [|done]. by apply N3.
Qed.

(** ** One-off runs *)

Lemma reserve_oneoff_ok h r cap usage now :
  ledger_ok h r ->
  let '(res, r') := reserve_oneoff warm_budget_bytes hard_line_bytes host_reserve r cap usage now in
  ledger_ok (mk_Held (attached h) (oneoffs h + if is_ok res then 1 else 0)) r' /\ serves r r'.
Proof using HOk.
  intros Hr. unfold reserve_oneoff. pose proof (pressure_pass_ok _ r usage now Hr) as Hpp.
  destruct (pressure_pass _ r usage now) as [r1 aw]. destruct Hpp as (H1 & Hod & _). apply serves_dropped in Hod.
  cbn. destruct (admit_run _ _ _ usage cap) as [[]|m]; cbn.
  - split; [|exact Hod]. destruct H1 as [A B C D E]. split; cbn; try lia; done.
  - split; [|exact Hod]. rewrite Z.add_0_r. by destruct h.
Qed.

Lemma release_oneoff_ok h r tainted wall cpu usage t1 t2 :
  ledger_ok h r -> 0 < oneoffs h ->
  let r' := release_oneoff powf cores warm_budget_bytes r tainted wall cpu usage t1 t2 in
  ledger_ok (mk_Held (attached h) (oneoffs h - 1)) r' /\ serves r r'.
Proof using HOk.
  intros Hr Hone. unfold release_oneoff. set (h' := mk_Held _ _). set (r1 := set_counts r _ _ _).
  assert (H1 : ledger_ok h' r1).
  { pose proof (pool_part (fun _ => 1) (prefixes r) EmptyString ltac:(lia)).
    destruct Hr as [A B C D E]. split; cbn; try zsolve; done. }
  set (r2 := if tainted then r1 else _).
  assert (H2 : ledger_ok h' r2 /\ serves r r2).
  { unfold r2. destruct tainted; [split; [done|]; by apply serves_same|].
    destruct (note_slot_sample_ok h' r1 None wall cpu t1 H1) as (A & B & C). split; [done|]. by apply serves_same. }
  destruct H2 as [H2 E2]. pose proof (pressure_pass_ok _ r2 usage t2 H2) as Hpp.
  destruct (pressure_pass _ r2 usage t2) as [r3 aw]. destruct Hpp as (H3 & Hod & _).
  split; [done|]. apply serves_dropped in Hod. cbn. by etrans.
Qed.

(** ** Disposal *)

Lemma dispose_counts l :
  (forall i, i ∈ l -> i_in_flight i = 0 -> i_dead i = false) ->
  let kept := map mark_dead (filter (fun i => i_in_flight i <> 0) l) in
  let dropped := zlen (filter (fun i => i_in_flight i = 0) l) in
  zlen l = zlen kept + dropped /\ sum_by idle_one l = dropped /\ sum_by idle_one kept = 0.
Proof.
  induction l as [|i l IH]; intros Hl; [done|]. cbn zeta in *.
  destruct IH as (A & B & C); [intros j Hj; apply Hl; by right|].
  specialize (Hl i ltac:(left)).
  destruct (decide (i_in_flight i = 0)) as [H0|H0].
  - rewrite (filter_cons_False (fun i => i_in_flight i <> 0)), (filter_cons_True (fun i => i_in_flight i = 0)) by naive_solver.
    cbn. unfold idle_one at 1. unfold is_idle. rewrite H0, Hl by done. cbn in *. split_and!; lia.
  - rewrite (filter_cons_True (fun i => i_in_flight i <> 0)), (filter_cons_False (fun i => i_in_flight i = 0)) by done. cbn.
    unfold idle_one at 1 3. unfold is_idle. rewrite andb_false_r, (proj2 (Z.eqb_neq _ _) H0). cbn in *. split_and!; lia.
Qed.

Lemma dispose_prefix_ok h r p :
  ledger_ok h r ->
  let r' := dispose_prefix r p in
  ledger_ok h r' /\ serves r r' /\
  (forall i, i ∈ ents (prefixes r') p -> i_dead i = true /\ 0 < runs h p (i_id i)) /\
  ((forall id, runs h p id = 0) -> prefixes r' !! p = None).
Proof.
  intros Hr. unfold dispose_prefix. destruct (prefixes r !! p) as [e|] eqn:He.
  2:{ split_and!; [done | reflexivity| |done]. intros i Hi. unfold ents in Hi. rewrite He in Hi. by apply not_elem_of_nil in Hi. }
  set (l := instances e). set (kept := map mark_dead _). set (dropped := zlen _).
  assert (Hl : ents (prefixes r) p = l) by (unfold ents; by rewrite He).
  pose proof (lo_entries _ _ Hr p) as Hent. rewrite Hl in Hent. pose proof Hent as (Hnd & Hall & Hatt).
  assert (Hcount : zlen l = zlen kept + dropped /\ sum_by idle_one l = dropped /\ sum_by idle_one kept = 0).
  { apply dispose_counts. intros i Hi. destruct (Hall i Hi) as (_ & B & _). destruct (i_dead i); [|done]. intros H0. lia. }
  destruct Hcount as (C1 & C2 & C3).
  pose proof (total_ge h r p Hr) as Hge. pose proof (idle_ge h r p Hr) as Hge'. rewrite Hl in Hge, Hge'.
  match goal with |- context [set_prefixes ?a ?b] => set (r2 := if bool_decide (kept = []) then set_prefixes a b else put_entry a p (mk_PrefixEntry kept (demand e))) end.
  assert (Hrep : replaces (prefixes r) p kept (prefixes r2) /\ total r2 = total r - dropped /\
    idle_total r2 = idle_total r - dropped /\ next_instance_id r2 = next_instance_id r /\
    r_oneoff_running r2 = r_oneoff_running r /\ (kept = [] -> prefixes r2 !! p = None)).
  { unfold r2. case_bool_decide as Hk; cbn; (split_and!; [| zsolve | zsolve | done | done |]).
    - rewrite Hk. apply replaces_delete.
    - intros _. apply lookup_delete_eq.
    - apply (replaces_insert _ p (mk_PrefixEntry kept _)).
    - done. }
  clearbody r2. destruct Hrep as (Hrep & Ht & Hi & Hn & Ho & Hnil). cbn.
  assert (Hkept : forall i', i' ∈ kept -> exists i, i ∈ l /\ i' = mark_dead i /\ 0 < runs h p (i_id i)).
  { intros i' (i & -> & Hf)%list_elem_of_fmap. apply list_elem_of_filter in Hf as [Hf Hin].
    exists i. split_and!; [done|done|]. destruct (Hall i Hin) as (A & _). unfold runs in *. lia. }
  split; [|split; [|split]].
  - eapply (ledger_replace h h r r2 p kept); rewrite ?Hl; try done; try lia; [|rewrite Ho; apply Hr|apply Hr].
    rewrite Hn. split_and!.
    + unfold kept. rewrite map_map. change (fun x => i_id (mark_dead x)) with i_id.
      eapply sublist_NoDup; [exact Hnd|]. apply fmap_sublist, sublist_filter.
    + intros i' (i & Hin & -> & Hpos)%Hkept. destruct (Hall i Hin) as (A & _ & C). split_and!; cbn; [done | lia | done].
    + intros id Hid. pose proof (Hatt id Hid) as (i & -> & Hin)%list_elem_of_fmap. unfold kept. rewrite map_map.
      apply (list_elem_of_fmap_2 (fun x => i_id (mark_dead x)) _ i). apply list_elem_of_filter. split; [|done].
      destruct (Hall i Hin) as (A & _). lia.
  - split.
    + eapply evolves_replace; [exact Hrep | lia |]. rewrite Hl.
      intros i' (i & Hin & -> & Hpos)%Hkept. left. by exists i.
    + eapply no_new_idle_replace; [exact Hrep|]. intros i' (i & _ & -> & _)%Hkept Hidle.
      unfold is_idle in Hidle. cbn in Hidle. by rewrite andb_false_r in Hidle.
  - destruct Hrep as (-> & _). intros i' (i & Hin & -> & Hpos)%Hkept. by split.
  - intros Hz. apply Hnil. destruct kept as [|i' k]; [done|]. destruct (Hkept i') as (i & _ & _ & Hpos); [left|].
    rewrite Hz in Hpos. lia.
Qed.
End Ledger.
