(* ===== verification/Registry.v ===== *)
(** * The warm registry's guarantees

    The operations of [Warm] in any order, with the ghost record of who holds
    what: counters that never drift, instances that stay while a run is
    attached, retired instances that never serve again. *)

From stdpp Require Import gmultiset sorting.
From S2P Require Import Prelude Bytes F64 Types Policy Wire Warm WarmLedger.

(** ** Counting the attached runs *)

Definition keys (l : list (string * PrefixEntry)) : list (string * Z) :=
  l ≫= fun pe => map (fun i => (pe.1, i_id i)) (instances pe.2).

Lemma keys_nodup l :
  NoDup l.*1 -> (forall p e, (p, e) ∈ l -> NoDup (map i_id (instances e))) -> NoDup (keys l).
Proof.
  induction l as [|[p e] l IH]; intros Hnd He; cbn; [constructor|].
  cbn in Hnd. apply NoDup_cons in Hnd as [Hp Hnd]. apply NoDup_app. split_and!.
  - rewrite <- (map_map i_id (fun id => (p, id))). apply NoDup_fmap_2; [intros a b [= ->]; done|].
    apply (He p e). left.
  - intros [q id] Hq Hin. apply list_elem_of_fmap in Hq as (i & [= -> ->] & Hi).
    apply list_elem_of_bind in Hin as ([q e'] & Hin & Hl). apply list_elem_of_fmap in Hin as (j & [= -> _] & _).
    apply Hp. by apply (list_elem_of_fmap_2 fst l (q, e')).
  - apply IH; [done|]. intros q e' Hin. apply (He q e'). by right.
Qed.

Lemma sum_indicator (x : string * Z) k : NoDup k -> x ∈ k ->
  sum_by (fun y => if decide (y = x) then 1 else 0) k = 1.
Proof.
  induction k as [|y k IH]; intros Hnd Hx; [by apply not_elem_of_nil in Hx|].
  apply NoDup_cons in Hnd as [Hy Hnd]. cbn. destruct (decide (y = x)) as [->|Hne].
  - rewrite (sum_by_ext _ (fun _ => 0)); [clear; induction k; cbn in *; lia|].
    intros z Hz. destruct (decide (z = x)) as [->|]; done.
  - apply elem_of_cons in Hx as [->|Hx]; [done|]. rewrite IH; done.
Qed.

Lemma size_by_keys (X : gmultiset (string * Z)) k :
  NoDup k -> (forall x, x ∈ X -> x ∈ k) -> sum_by (fun x => Z.of_nat (multiplicity x X)) k = Z.of_nat (size X).
Proof.
  intros Hnd. induction X as [|x X IH] using gmultiset_ind; intros Hin.
  - rewrite gmultiset_size_empty. clear. induction k; cbn; [done|]. rewrite IHk, multiplicity_empty. lia.
  - rewrite gmultiset_size_disj_union, gmultiset_size_singleton.
    rewrite (sum_by_ext _ (fun y => (if decide (y = x) then 1 else 0) + Z.of_nat (multiplicity y X))).
    + enough (Hs : forall f g (l : list (string * Z)), sum_by (fun y => f y + g y) l = sum_by f l + sum_by g l).
      { rewrite Hs, IH, sum_indicator; [lia | done | apply Hin; multiset_solver | intros y Hy; apply Hin; multiset_solver]. }
      intros f g l. induction l; cbn; lia.
    + intros y _. cbn beta. rewrite multiplicity_disj_union. destruct (decide (y = x)) as [->|Hne];
      [rewrite multiplicity_singleton_eq | rewrite multiplicity_singleton_ne by done]; lia.
Qed.

Lemma pool_runs h r : ledger_ok h r -> pool i_in_flight (prefixes r) = Z.of_nat (size (attached h)).
Proof.
  intros Hr. rewrite <- (size_by_keys (attached h) (keys (map_to_list (prefixes r)))).
  - unfold pool, keys.
    assert (Hl : forall p e, (p, e) ∈ map_to_list (prefixes r) -> forall i, i ∈ instances e -> i_in_flight i = runs h p (i_id i)).
    { intros p e Hpe i Hi. apply elem_of_map_to_list in Hpe. destruct (lo_entries _ _ Hr p) as (_ & Hall & _).
      apply Hall. unfold ents. by rewrite Hpe. }
    revert Hl. induction (map_to_list (prefixes r)) as [|[p e] l IH]; intros Hl; cbn; [done|].
    rewrite sum_by_app, IH by (intros q e' Hin; apply (Hl q e'); by right). f_equal.
    specialize (Hl p e ltac:(left)). induction (instances e) as [|i k IHk]; cbn; [done|].
    rewrite IHk by (intros j Hj; apply Hl; by right). by rewrite (Hl i ltac:(left)).
  - apply keys_nodup; [apply NoDup_fst_map_to_list|]. intros p e Hpe. apply elem_of_map_to_list in Hpe.
    destruct (lo_entries _ _ Hr p) as (Hnd & _). unfold ents in Hnd. by rewrite Hpe in Hnd.
  - intros [p id] Hx. destruct (lo_entries _ _ Hr p) as (_ & _ & Hatt).
    assert (Hrun : 0 < runs h p id) by (apply elem_of_multiplicity in Hx; unfold runs; by apply (Nat2Z.inj_lt 0)).
    apply Hatt, list_elem_of_fmap in Hrun as (i & -> & Hi). unfold keys. apply list_elem_of_bind.
    unfold ents in Hi. destruct (prefixes r !! p) as [e|] eqn:He; [|by apply not_elem_of_nil in Hi].
    exists (p, e). split; [|by apply elem_of_map_to_list]. by apply (list_elem_of_fmap_2 (fun i => (p, i_id i))).
Qed.

(** ** Traces *)

(** One call of the registry, with everything it reads outside the lock. *)
Inductive Event :=
  | EvAcquire (p : string) (caps : HeapCaps) (usage : option Z) (now now_shed : Z)
      (util : Z -> Z) (spawn : io InstanceHandle)
  | EvRelease (p : string) (id : Z) (tainted : bool) (heap : Z) (wall cpu : f64) (alive : bool)
      (usage : option Z) (t1 t2 t3 : Z)
  | EvReserve (cap : Z) (usage : option Z) (now : Z)
  | EvReleaseOneoff (tainted : bool) (wall cpu : f64) (usage : option Z) (t1 t2 : Z)
  | EvDispose (p : string).

Section Traces.
Context `{HO : HashOrder} `{HOk : !HashOrderOk} `{VP : VictimPicker} `{VPOk : !VictimPickerOk}.
Context (powf : f64 -> f64 -> f64) (cores budget line reserve : Z).

(** A caller releases only what it holds; [None] is a release of something that
    is not held, or a panic. *)
Definition apply_event (st : Held * RegistryInner) (ev : Event) : option (Held * RegistryInner) :=
  let '(h, r) := st in
  match ev with
  | EvAcquire p caps usage now now_shed util spawn =>
    '(a, r') ← acquire cores budget line reserve r p caps usage now now_shed util spawn;
    Some (hold p a h, r')
  | EvRelease p id tainted heap wall cpu alive usage t1 t2 t3 =>
    if 0 <? runs h p id then
      Some (detach p id h, release powf cores budget r p id tainted heap wall cpu alive usage t1 t2 t3)
    else None
  | EvReserve cap usage now =>
    let '(res, r') := reserve_oneoff budget line reserve r cap usage now in
    Some (mk_Held (attached h) (oneoffs h + if is_ok res then 1 else 0), r')
  | EvReleaseOneoff tainted wall cpu usage t1 t2 =>
    if 0 <? oneoffs h then
      Some (mk_Held (attached h) (oneoffs h - 1), release_oneoff powf cores budget r tainted wall cpu usage t1 t2)
    else None
  | EvDispose p => Some (h, dispose_prefix r p)
  end.

Definition exec (st : Held * RegistryInner) (evs : list Event) : option (Held * RegistryInner) :=
  foldl (fun s ev => s ≫= fun s => apply_event s ev) (Some st) evs.

(** Where every registry starts: nothing pooled, nothing held. *)
Definition start (seed : Z) : Held * RegistryInner := (mk_Held ∅ 0, registry_new seed).

Lemma start_ok seed : ledger_ok (start seed).1 (start seed).2.
Proof.
  split; cbn; [done | lia | by rewrite pool_empty | by rewrite pool_empty |].
  intros p. split_and!; cbn; [constructor | intros i Hi; by apply not_elem_of_nil in Hi |].
  intros id. unfold runs. cbn. rewrite multiplicity_empty. lia.
Qed.

Lemma exec_none evs : foldl (fun s ev => s ≫= fun s => apply_event s ev) None evs = None.
Proof. by induction evs. Qed.

Lemma exec_cons st ev evs : exec st (ev :: evs) = (apply_event st ev) ≫= fun s => exec s evs.
Proof. unfold exec. cbn. destruct (apply_event st ev); cbn; [done|]. apply exec_none. Qed.

Lemma exec_app st e1 e2 : exec st (e1 ++ e2) = exec st e1 ≫= fun s => exec s e2.
Proof.
  revert st. induction e1 as [|ev e1 IH]; intros st; [done|].
  rewrite <- app_comm_cons, !exec_cons. by destruct (apply_event st ev); cbn.
Qed.

Lemma apply_event_ok h r ev h' r' :
  ledger_ok h r -> apply_event (h, r) ev = Some (h', r') -> ledger_ok h' r' /\ evolves r r'.
Proof using HOk.
  intros Hr. destruct ev; cbn.
  - destruct (acquire_ok cores budget line reserve h r p caps usage now now_shed util spawn Hr) as (a & r1 & -> & Hok & [Hev _] & _).
    cbn. by intros [= <- <-].
  - destruct (Z.ltb_spec 0 (runs h p id)); [|done]. intros [= <- <-].
    edestruct (release_ok powf cores budget h r p id) as [A B _ _]; done.
  - pose proof (reserve_oneoff_ok budget line reserve h r cap usage now Hr) as Ho.
    destruct (reserve_oneoff _ _ _ _ _ _ _) as [res r1]. destruct Ho as [? [? _]]. by intros [= <- <-].
  - destruct (Z.ltb_spec 0 (oneoffs h)); [|done]. intros [= <- <-].
    edestruct (release_oneoff_ok powf cores budget h r) as [A [B _]]; done.
  - intros [= <- <-]. destruct (dispose_prefix_ok h r p Hr) as (A & [B _] & _). done.
Qed.

Lemma exec_ok evs h r h' r' :
  ledger_ok h r -> exec (h, r) evs = Some (h', r') -> ledger_ok h' r' /\ evolves r r'.
Proof using HOk.
  revert h r. induction evs as [|ev evs IH]; intros h r Hr He.
  - injection He as <- <-. done.
  - rewrite exec_cons in He. destruct (apply_event (h, r) ev) as [[h1 r1]|] eqn:Ha; [|done]. cbn in He.
    destruct (apply_event_ok _ _ _ _ _ Hr Ha) as [H1 E1]. destruct (IH _ _ H1 He) as [H2 E2].
    split; [done|]. by etrans.
Qed.

Lemma reachable_ok seed evs h r : exec (start seed) evs = Some (h, r) -> ledger_ok h r.
Proof using HOk. intros He. eapply exec_ok; [apply (start_ok seed) | exact He]. Qed.

(** ** Statistics as sums over the pool *)

Lemma rows_sum f m :
  sum_by (fun pe => sum_by f (instances pe.2)) (filter (fun pe => instances pe.2 <> []) (iter m)) = pool f m.
Proof using HOk.
  unfold pool. rewrite <- (sum_by_perm _ _ _ (iter_perm m)).
  induction (iter m) as [|[p e] l IH]; [done|].
  destruct (decide (instances e = [])) as [Hn|Hn].
  - rewrite filter_cons_False by naive_solver. cbn. rewrite Hn, IH. done.
  - rewrite filter_cons_True by done. cbn. by rewrite IH.
Qed.

(** ** The ledger *)

(** C5. Whatever the registry's callers did, in whatever order, its books
    balance: [total] is the pooled instances plus the one-off runs, the
    maintained [idle_total] is the idle count [stats] recomputes (the source's
    debug assertion), and the runs [stats] reports are exactly the attached
    ones.  An instance's [in_flight] is the number of runs attached to it, a
    dead instance is still in use, and the instance of an attached run is always
    still in the pool. *)
Theorem ledger_invariant seed evs h r rss usage
    (Hex : exec (start seed) evs = Some (h, r)) :
  let s := stats budget line r rss usage in
  total r = pool (fun _ => 1) (prefixes r) + oneoffs h /\
  oneoff_running s = oneoffs h /\
  warm_idle s = idle_total r /\
  warm_runs s = Z.of_nat (size (attached h)) /\
  (forall p i, i ∈ ents (prefixes r) p ->
    i_in_flight i = runs h p (i_id i) /\ (i_dead i = true -> 0 < i_in_flight i)) /\
  (forall p id, 0 < runs h p id -> exists i, i ∈ ents (prefixes r) p /\ i_id i = id).
Proof using HOk.
  pose proof (reachable_ok _ _ _ _ Hex) as Hr. pose proof Hr as [A B C D E]. cbn.
  split_and!.
  - lia.
  - done.
  - rewrite D. apply (rows_sum idle_one).
  - rewrite (rows_sum i_in_flight). by apply pool_runs.
  - intros p i Hi. destruct (E p) as (_ & Hall & _). destruct (Hall i Hi) as (? & ? & _). done.
  - intros p id Hid. destruct (E p) as (_ & _ & Hatt). apply Hatt, list_elem_of_fmap in Hid as (i & -> & Hi). eauto.
Qed.

(** ** Acquisition *)

(** [acquire] always answers (no index it uses is out of bounds), and its
    answer means what it says: an attached run gets a live pooled instance with
    exactly the caps it asked for, a new instance is pooled only while the
    registry is not shedding, a cold run happens only while shedding, and a
    refusal only when no live instance with those caps exists and the admission
    check refused; joins are never refused. *)
Theorem acquire_outcome seed evs h r p caps usage now now_shed util spawn
    (Hex : exec (start seed) evs = Some (h, r)) :
  exists a r',
    acquire cores budget line reserve r p caps usage now now_shed util spawn = Some (a, r') /\
    acquired_means budget line reserve (pressure_pass budget r usage now_shed).1 p caps usage spawn a r'.
Proof using HOk.
  pose proof (reachable_ok _ _ _ _ Hex) as Hr.
  destruct (acquire_ok cores budget line reserve h r p caps usage now now_shed util spawn Hr)
    as (a & r' & Ha & _ & _ & Hm). eauto.
Qed.

(** An id that no live instance of the prefix has, and that is not given out
    again. *)
Definition retired (r : RegistryInner) (p : string) (id : Z) : Prop :=
  id < next_instance_id r /\ forall i, i ∈ ents (prefixes r) p -> i_id i = id -> i_dead i = true.

Lemma retired_evolves r r' p id : retired r p id -> evolves r r' -> retired r' p id.
Proof.
  intros [Hn Hd] [Hn' He]. split; [lia|]. intros i' Hi' Hid.
  destruct (He p i' Hi') as [(i & Hi & Hii & Hdd)|Hge]; [|lia].
  apply Hdd, Hd; [done|]. congruence.
Qed.

Lemma release_retires h r p id tainted heap wall cpu alive usage t1 t2 t3 :
  ledger_ok h r -> 0 < runs h p id -> tainted = true \/ alive = false ->
  retired (release powf cores budget r p id tainted heap wall cpu alive usage t1 t2 t3) p id.
Proof using HOk.
  intros Hr Hheld Hwhy.
  destruct (release_ok powf cores budget h r p id tainted heap wall cpu alive usage t1 t2 t3 Hr Hheld) as [_ [Hn _] Hd _].
  split; [|by apply Hd]. destruct (lo_entries _ _ Hr p) as (_ & Hall & Hatt).
  apply Hatt, list_elem_of_fmap in Hheld as (i & -> & Hi). destruct (Hall i Hi) as (_ & _ & ?). lia.
Qed.

(** C16. An instance whose run was terminated (a tainted outcome), or whose
    prefix was disposed of, never serves again: whatever happens after that
    release, no later [acquire] of the prefix attaches a run to it. *)
Theorem tainted_never_reused seed evs1 evs2 h1 r1 h2 r2 p id tainted heap wall cpu alive u1 t1 t2 t3
    caps u2 now now_shed util spawn id' r'
    (Hex1 : exec (start seed) evs1 = Some (h1, r1))
    (Hheld : 0 < runs h1 p id) (Hwhy : tainted = true \/ alive = false)
    (Hex2 : exec (h1, r1) (EvRelease p id tainted heap wall cpu alive u1 t1 t2 t3 :: evs2) = Some (h2, r2))
    (Hacq : acquire cores budget line reserve r2 p caps u2 now now_shed util spawn = Some (Attached id', r')) :
  id' <> id.
Proof using HOk.
  pose proof (reachable_ok _ _ _ _ Hex1) as H1. rewrite exec_cons in Hex2. cbn in Hex2.
  rewrite (proj2 (Z.ltb_lt _ _) Hheld) in Hex2. cbn in Hex2.
  pose proof (release_retires h1 r1 p id tainted heap wall cpu alive u1 t1 t2 t3 H1 Hheld Hwhy) as Hret.
  destruct (release_ok powf cores budget h1 r1 p id tainted heap wall cpu alive u1 t1 t2 t3 H1 Hheld) as [Hok _ _ _].
  destruct (exec_ok _ _ _ _ _ Hok Hex2) as [H2 E2].
  destruct (acquire_ok cores budget line reserve h2 r2 p caps u2 now now_shed util spawn H2) as (a & r3 & Ha & _ & [E3 _] & Hm).
  rewrite Hacq in Ha. injection Ha as <- <-. destruct Hm as [(i & Hi & Hii & Hd & _) _].
  intros ->. pose proof (retired_evolves _ _ _ _ (retired_evolves _ _ _ _ Hret E2) E3) as [_ Hdead].
  specialize (Hdead i Hi Hii). congruence.
Qed.

(** ** Disposal *)

(** Disposing a prefix leaves of it only instances that a run is still
    attached to, all of them dead; with no run attached the entry is gone, and
    in every case the books still balance and other prefixes are untouched. *)
Theorem dispose_drains seed evs h r p
    (Hex : exec (start seed) evs = Some (h, r)) :
  let r' := dispose_prefix r p in
  (forall i, i ∈ ents (prefixes r') p -> i_dead i = true /\ 0 < runs h p (i_id i)) /\
  ((forall id, runs h p id = 0) -> prefixes r' !! p = None) /\
  total r' = pool (fun _ => 1) (prefixes r') + oneoffs h /\
  idle_total r' = pool idle_one (prefixes r') /\
  (forall q, q <> p -> prefixes r' !! q = prefixes r !! q).
Proof using HOk.
  pose proof (reachable_ok _ _ _ _ Hex) as Hr.
  destruct (dispose_prefix_ok h r p Hr) as ([A B C D E] & _ & Hd & Hn). cbn.
  split_and!; [done | done | lia | done |].
  intros q Hq. unfold dispose_prefix. destruct (prefixes r !! p); [|done].
  case_bool_decide; cbn; [by rewrite lookup_delete_ne | by rewrite lookup_insert_ne].
Qed.

(** ** The pressure pass *)

Lemma candidates_count r : zlen (candidates r) = pool idle_one (prefixes r).
Proof using HOk.
  unfold candidates, pool. rewrite <- (sum_by_perm _ _ _ (iter_perm (prefixes r))).
  induction (iter (prefixes r)) as [|[p e] l IH]; cbn; [done|].
  rewrite length_app, length_map, Nat2Z.inj_add, IH. f_equal.
  induction (instances e) as [|i k IHk]; [done|]. cbn [sum_by]. rewrite <- IHk. unfold idle_one at 1.
  destruct (is_idle i) eqn:Hi.
  - rewrite filter_cons_True by done. cbn [length]. lia.
  - by rewrite filter_cons_False by (by rewrite Hi).
Qed.

Lemma shed_exact h n r r' now k :
  ledger_ok h r -> shed n r now = (r', k) ->
  k = Z.min (Z.of_nat n) (idle_total r) /\ idle_total r' = idle_total r - k /\ total r' = total r - k.
Proof using HOk VPOk.
  revert r r' k. induction n as [|n IH]; intros r r' k Hr; cbn.
  - intros [= <- <-]. pose proof (lo_idle _ _ Hr). rewrite <- candidates_count in *. lia.
  - destruct (evict_scored r now) as [s|] eqn:Hev.
    + destruct (shed n s now) as [t j] eqn:Hs. intros [= <- <-].
      destruct (evict_scored_ok h r s now Hr Hev) as [Hs1 Hod].
      destruct (IH s t j Hs1 Hs) as (-> & Ht2 & Ht3).
      apply evict_scored_some in Hev as (p & i & Hi & Hidle & _ & Htot & Hid & _).
      pose proof (idle_ge h r p Hr). pose proof (total_ge h r p Hr).
      pose proof (sum_by_elem idle_one _ i ltac:(intros q; pose proof (idle_one_nonneg q); lia) Hi) as H1.
      pose proof (sum_by_elem (fun _ => 1) _ i ltac:(lia) Hi) as H2. rewrite sum_one in H2.
      unfold idle_one in H1 at 1. rewrite Hidle in H1. zsolve.
    + intros [= <- <-]. apply evict_scored_none in Hev. pose proof (lo_idle _ _ Hr).
      rewrite <- candidates_count, Hev in *. cbn in *. lia.
Qed.

(** A pressure pass does exactly what the watermark policy decides: it
    drops as many instances as the verdict asks for and the pool has idle, every
    one of them idle; an instance with a run attached, or already dead, stays
    as it is; the latch becomes the verdict's, and pooling is admitted exactly
    when the pass did not shed. *)
Theorem pressure_pass_exact seed evs h r u now
    (Hex : exec (start seed) evs = Some (h, r)) :
  let verdict := watermark_action (mk_PressureFacts u budget (r_shedding r) (r_last_pass r) (idle_total r)) in
  let '(r', admit_warm) := pressure_pass budget r (Some u) now in
  let dropped := Z.min (Z.max 0 (evict verdict)) (idle_total r) in
  total r' = total r - dropped /\ idle_total r' = idle_total r - dropped /\
  (forall p i, i ∈ ents (prefixes r) p -> is_idle i = false -> i ∈ ents (prefixes r') p) /\
  (forall p, ents (prefixes r') p `sublist_of` ents (prefixes r) p) /\
  r_shedding r' = shedding verdict /\ admit_warm = negb (shedding verdict).
Proof using HOk VPOk.
  pose proof (reachable_ok _ _ _ _ Hex) as Hr. cbn zeta.
  pose proof (pressure_pass_ok budget h r (Some u) now Hr) as Hpp. unfold pressure_pass in *.
  destruct (watermark_action _) as [sh ev]. cbn [shedding evict] in *.
  set (r1 := set_latch r sh _) in *.
  assert (H1 : ledger_ok h r1) by (by apply (ledger_same h r)).
  assert (Hnn : 0 <= idle_total r) by (rewrite (lo_idle _ _ Hr), <- candidates_count; lia).
  destruct (Z.ltb_spec 0 ev).
  - destruct (shed _ r1 now) as [s k] eqn:Hs.
    destruct (shed_exact h _ _ _ _ _ H1 Hs) as (Hk & Hi & Ht). cbn in Hk, Hi, Ht.
    destruct (shed_ok h _ _ _ _ _ H1 Hs) as (_ & _ & Hsh).
    destruct Hpp as (_ & [S B _ _ _] & _). destruct (0 <? k); cbn in *; (split_and!; [lia | lia | done | done | done | done]).
  - destruct Hpp as (_ & [S B _ _ _] & _). split_and!; cbn; try done; lia.
Qed.
End Traces.

(** ** Statistics do not depend on the hash order *)

Lemma rows_unique (l : list (string * PrefixEntry)) m (f : string * PrefixEntry -> string * Z * Z) :
  l ≡ₚ map_to_list m -> (forall pe, (f pe).1.1 = pe.1) -> forall x y,
  x ∈ map f (filter (fun pe => instances pe.2 <> []) l) -> y ∈ map f (filter (fun pe => instances pe.2 <> []) l) ->
  x.1.1 = y.1.1 -> x = y.
Proof.
  intros Hl Hf x y (px & -> & Hx)%list_elem_of_fmap (py & -> & Hy)%list_elem_of_fmap. rewrite !Hf. intros Heq.
  apply list_elem_of_filter in Hx as [_ Hx]. apply list_elem_of_filter in Hy as [_ Hy].
  rewrite Hl in Hx, Hy. destruct px as [p e], py as [q e']. cbn in Heq. subst q.
  apply elem_of_map_to_list in Hx. apply elem_of_map_to_list in Hy. congruence.
Qed.

Lemma sort_rows_perm l k :
  l ≡ₚ k -> (forall x y, x ∈ l -> y ∈ l -> x.1.1 = y.1.1 -> x = y) -> sort_rows l = sort_rows k.
Proof.
  intros Hp Hu. set (R := fun a b : string * Z * Z => String.le a.1.1 b.1.1).
  assert (Ht : Transitive R) by (intros a b c; unfold R; apply transitivity).
  assert (Htot : Total R) by (intros a b; apply (base.total String.le)).
  apply (StronglySorted_unique_strong R).
  - intros x y Hx Hy H1 H2. unfold sort_rows in Hx, Hy. rewrite merge_sort_Permutation in Hx, Hy.
    rewrite <- Hp in Hy. apply Hu; [done|done|]. by apply (anti_symm String.le).
  - by apply StronglySorted_merge_sort.
  - by apply StronglySorted_merge_sort.
  - unfold sort_rows. by rewrite !merge_sort_Permutation.
Qed.

(** The [Stats] snapshot does not depend on the order in which the hash
    map happens to be iterated: any two orders of its entries give the same
    record. *)
Theorem stats_order_irrelevant (HO1 HO2 : HashOrder) (budget line : Z) r rss usage
    (H1 : @HashOrderOk HO1) (H2 : @HashOrderOk HO2) :
  let snapshot (order : HashOrder) := stats budget line r rss usage in
  snapshot HO1 = snapshot HO2.
Proof.
  cbn zeta. unfold stats.
  assert (Hp : @iter HO1 (prefixes r) ≡ₚ @iter HO2 (prefixes r)) by (by rewrite (H1 (prefixes r)), (H2 (prefixes r))).
  assert (Hf : filter (fun pe => instances pe.2 <> []) (@iter HO1 (prefixes r)) ≡ₚ
    filter (fun pe => instances pe.2 <> []) (@iter HO2 (prefixes r))) by (by rewrite Hp).
  f_equal; [apply sum_by_perm, Hf .. |].
  apply sort_rows_perm; [by apply Permutation_map|].
  eapply rows_unique; [apply H1 | done].
Qed.

(** ** Witnesses *)

Module Demo.
#[export] Instance order : HashOrder := map_to_list.
#[export] Instance order_ok : HashOrderOk.
Proof. by intros m. Qed.
Definition reversed : HashOrder := fun m => rev (map_to_list m).
Lemma reversed_ok : @HashOrderOk reversed.
Proof. intros m. unfold iter, reversed. symmetry. apply Permutation_rev. Qed.

Definition pow : f64 -> f64 -> f64 := fun x _ => x.

Definition caps : HeapCaps := mk_HeapCaps 1000 2000.
Definition handle : InstanceHandle := mk_InstanceHandle 5 0 0.
Definition take (p : string) (now : Z) : Event :=
  EvAcquire p caps (Some 100) now now (fun _ => 0) (Ok handle).
Definition give (p : string) (id : Z) (tainted : bool) (now : Z) : Event :=
  EvRelease p id tainted 300 (f64_of_Z 10) (f64_of_Z 5) true (Some 100) now now now.

(** Two runs share an instance of one prefix, a second prefix goes idle, a
    one-off runs. *)
Definition trace : list Event :=
  [take "a" 10; take "a" 20; take "b" 30; EvReserve 500 (Some 100) 40; give "b" 2 false 50].

(** One core, a budget of 1000 bytes and an admission line of 100000. *)
Definition run (evs : list Event) :=
  @exec order (policy_picker pow) pow 1 1000 100000 0 (start 4) evs.
Definition state (evs : list Event) : Held * RegistryInner := default (start 4) (run evs).
End Demo.

Lemma ledger_invariant_witness :
  Demo.run Demo.trace = Some (Demo.state Demo.trace) /\
  let '(h, r) := Demo.state Demo.trace in
  total r = 3 /\ oneoffs h = 1 /\ idle_total r = 1 /\
  warm_runs (@stats Demo.order 1000 100000 r 0 0) = 2.
Proof.
  assert (Hex : Demo.run Demo.trace = Some (Demo.state Demo.trace)) by (vm_compute; reflexivity).
  split; [exact Hex|]. destruct (Demo.state Demo.trace) as [h r] eqn:Hst.
  pose proof (@ledger_invariant Demo.order Demo.order_ok (policy_picker Demo.pow) Demo.pow 1 1000 100000 0
    4 Demo.trace h r 0 0 Hex) as (_ & _ & _ & Hruns & _). rewrite Hruns.
  assert (Hs : Demo.state Demo.trace = (h, r)) by done. vm_compute in Hs. injection Hs as <- <-.
  vm_compute. auto.
Defined.

Lemma acquire_outcome_witness :
  let r := (Demo.state Demo.trace).2 in
  exists r', @acquire Demo.order (policy_picker Demo.pow) 1 1000 100000 0 r "a" Demo.caps (Some 100) 60 60 (fun _ => 0)
      (Ok Demo.handle) = Some (Attached 1, r') /\
    exists i, i ∈ ents (prefixes r') "a" /\ i_id i = 1 /\ i_dead i = false /\ i_caps i = Demo.caps.
Proof.
  intros r.
  destruct (@acquire_outcome Demo.order Demo.order_ok (policy_picker Demo.pow) Demo.pow 1 1000 100000 0
    4 Demo.trace (Demo.state Demo.trace).1 r "a" Demo.caps (Some 100) 60 60 (fun _ => 0) (Ok Demo.handle)
    ltac:(vm_compute; reflexivity)) as (a & r' & Ha & Hm).
  exists r'. assert (a = Attached 1) as -> by (vm_compute in Ha; by injection Ha).
  split; [exact Ha|]. destruct Hm as [Hi _]. exact Hi.
Defined.

Lemma tainted_never_reused_witness :
  let st := Demo.state Demo.trace in
  let st' := default st (@exec Demo.order (policy_picker Demo.pow) Demo.pow 1 1000 100000 0 st [Demo.give "a" 1 true 60]) in
  0 < runs st.1 "a" 1 /\
  exists id r', @acquire Demo.order (policy_picker Demo.pow) 1 1000 100000 0 st'.2 "a" Demo.caps (Some 100) 70 70 (fun _ => 0)
      (Ok Demo.handle) = Some (Attached id, r') /\ id <> 1.
Proof.
  intros st st'. split; [vm_compute; reflexivity|].
  destruct (@acquire Demo.order (policy_picker Demo.pow) 1 1000 100000 0 st'.2 "a" Demo.caps (Some 100) 70 70 (fun _ => 0)
      (Ok Demo.handle)) as [[a r']|] eqn:Ha; [|vm_compute in Ha; discriminate].
  assert (exists id, a = Attached id) as [id ->] by (vm_compute in Ha; injection Ha as <- _; eauto).
  exists id, r'. split; [reflexivity|].
  refine (@tainted_never_reused Demo.order Demo.order_ok (policy_picker Demo.pow) Demo.pow 1 1000 100000 0
    4 Demo.trace [] st.1 st.2 st'.1 st'.2 "a" 1 true 300 (f64_of_Z 10) (f64_of_Z 5) true (Some 100) 60 60 60
    Demo.caps (Some 100) 70 70 (fun _ => 0) (Ok Demo.handle) id r' _ _ (or_introl eq_refl) _ Ha);
  vm_compute; reflexivity.
Defined.

Lemma dispose_drains_witness :
  let r := (Demo.state Demo.trace).2 in
  prefixes (dispose_prefix r "b") !! "b"%string = None /\
  (forall i, i ∈ ents (prefixes (dispose_prefix r "a")) "a" -> i_dead i = true) /\
  total (dispose_prefix r "a") = 3.
Proof.
  intros r.
  destruct (@dispose_drains Demo.order Demo.order_ok (policy_picker Demo.pow) Demo.pow 1 1000 100000 0
    4 Demo.trace (Demo.state Demo.trace).1 r "a" ltac:(vm_compute; reflexivity)) as (Hd & _).
  split; [vm_compute; reflexivity|]. split; [|vm_compute; reflexivity].
  intros i Hi. apply Hd, Hi.
Defined.

Lemma pressure_pass_exact_witness :
  let r := (Demo.state Demo.trace).2 in
  let '(r', admit_warm) := @pressure_pass Demo.order (policy_picker Demo.pow) 1000 r (Some 5000) 60 in
  idle_total r = 1 /\ total r' = total r - 1 /\ idle_total r' = 0 /\ admit_warm = false.
Proof.
  intros r.
  pose proof (@pressure_pass_exact Demo.order Demo.order_ok (policy_picker Demo.pow) (policy_picker_ok Demo.pow)
    Demo.pow 1 1000 100000 0 4 Demo.trace (Demo.state Demo.trace).1 r 5000 60 ltac:(vm_compute; reflexivity)) as Hp.
  cbn zeta in Hp. destruct (@pressure_pass _ _ _ r (Some 5000) 60) as [r' aw]. destruct Hp as (Ht & Hi & _ & _ & _ & Ha).
  rewrite Ht, Hi, Ha. vm_compute. auto.
Defined.

Lemma stats_order_irrelevant_witness :
  let r := (Demo.state Demo.trace).2 in
  @stats Demo.order 1000 100000 r 7 9 = @stats Demo.reversed 1000 100000 r 7 9 /\
  per_prefix (@stats Demo.reversed 1000 100000 r 7 9) = [("a"%string, 0, 1); ("b"%string, 1, 0)].
Proof.
  intros r. split.
  - exact (stats_order_irrelevant Demo.order Demo.reversed 1000 100000 r 7 9 Demo.order_ok Demo.reversed_ok).
  - vm_compute. reflexivity.
Defined.
