(* ===== verification/Prefix.v ===== *)
(** * Prepared prefixes and rebind checks ([crates/core/src/prefix.rs])

    What the engine stores of a prepared prefix, and the two checks a prefix
    run's rebinds pass against the shape declared when it was prepared. *)

From S2P Require Import Prelude Bytes F64 Types Errors.

(** ** The stored prefix *)

Record PrefixData := mk_PrefixData {
  pd_id : Z;
  pd_code : string;
  pd_filename : option string;
  pd_globals : list HostGlobalDef;
  pd_declared_globals : list string;
  pd_declared_imports : list ImportBinding;
}.

Inductive StoredPrefix :=
  | Ready (data : PrefixData)
  | Broken (cause : RunErrorPayload).

(** ** Globals *)

(** The name of a definition, and whether it is a bridge stub. *)
Definition def_name (d : HostGlobalDef) : string * bool :=
  match d with
  | Bridge name _ => (name, true)
  | StringExpr name _ _ | Data name _ _ | Shim name _ _ _ => (name, false)
  end.

(** A data or string global of that name: declared, and frozen. *)
Definition is_frozen_global (declared : list HostGlobalDef) (name : string) : bool :=
  existsb (fun d => match d with
    | StringExpr n _ _ | Data n _ _ => String.eqb n name
    | Bridge _ _ | Shim _ _ _ _ => false
    end) declared.

Fixpoint validate_global_rebinds (globals : list HostGlobalDef) (declared_stubs : list string)
    (declared : list HostGlobalDef) : result RunError unit :=
  match globals with
  | [] => Ok tt
  | def :: globals =>
    let '(name, is_stub) := def_name def in
    if is_stub && existsb (String.eqb name) declared_stubs then
      validate_global_rebinds globals declared_stubs declared
    else if is_frozen_global declared name then
      Err (FrozenBinding ("global '" +:+ name
        +:+ "' is a value global, frozen with the prefix — only function globals can be rebound"))
    else
      Err (UndeclaredBinding ("global '" +:+ name +:+ "' was not declared at precompile time"))
  end.

(** ** Imports *)

(** [find(|(k, _)| k == segment)] *)
Definition entry_of (entries : list (string * HostModuleNode)) (segment : string) : option HostModuleNode :=
  snd ∘ snd <$> list_find (fun e => e.1 = segment) entries.

(** The loop of [find_host_node]: [len] is the length of the whole path, [i] the
    index of the next segment. *)
Fixpoint find_from (entries : list (string * HostModuleNode)) (node : option HostModuleNode)
    (len i : nat) (path : list string) : result nat HostModuleNode :=
  match path with
  | [] => match node with Some n => Ok n | None => Err len end
  | segment :: path =>
    match entry_of entries segment with
    | None => Err (i + 1)%nat
    | Some found =>
      match found with
      | NodeObject children => find_from children (Some found) len (i + 1) path
      | _ => if (i + 1 <? len)%nat then Err len else find_from entries (Some found) len (i + 1) path
      end
    end
  end.

Definition find_host_node (entries : list (string * HostModuleNode)) (path : list string)
    : result nat HostModuleNode :=
  find_from entries None (length path) 0 path.

(** [[String]::join(".")] *)
Fixpoint join_dots (l : list string) : string :=
  match l with
  | [] => ""
  | [s] => s
  | s :: l => s +:+ "." +:+ join_dots l
  end.

Definition undeclared_import (specifier : string) (path : list string) : RunError :=
  UndeclaredBinding ("import '" +:+ specifier +:+ "'." +:+ join_dots path +:+ " was not declared at precompile time").

(** One rebind against the declared imports. *)
Definition validate_import_rebind (declared : list ImportBinding) (rb : ImportRebind) : result RunError unit :=
  match list_find (fun b => ib_specifier b = ir_specifier rb) declared with
  | None => Err (UndeclaredBinding ("import '" +:+ ir_specifier rb +:+ "' was not declared at precompile time"))
  | Some (_, binding) =>
    match ib_module binding with
    | Source _ =>
      Err (FrozenBinding ("import '" +:+ ir_specifier rb
        +:+ "' is a source module — source imports are frozen with the prefix and cannot be rebound at prefix.call() time"))
    | Host exports =>
      match find_host_node exports (ir_path rb) with
      | Ok NodeFunction => Ok tt
      | Ok (NodeData _) =>
        Err (FrozenBinding ("import '" +:+ ir_specifier rb +:+ "'." +:+ join_dots (ir_path rb)
          +:+ " is a data leaf, not a function — data leaves cannot be rebound"))
      | Ok (NodeObject _) => Err (undeclared_import (ir_specifier rb) (ir_path rb))
      | Err depth => Err (undeclared_import (ir_specifier rb) (take depth (ir_path rb)))
      end
    end
  end.

Fixpoint validate_import_rebinds (rebinds : list ImportRebind) (declared : list ImportBinding)
    : result RunError unit :=
  match rebinds with
  | [] => Ok tt
  | rb :: rebinds =>
    validate_import_rebind declared rb ≫= fun _ => validate_import_rebinds rebinds declared
  end.

(** ** What the checks mean *)

(** [node_at entries path n]: the path leads, key by key through objects, to the
    node [n]; each key is looked up at its first occurrence. *)
Inductive node_at : list (string * HostModuleNode) -> list string -> HostModuleNode -> Prop :=
  | node_here entries segment n : entry_of entries segment = Some n -> node_at entries [segment] n
  | node_below entries segment children s path n :
      entry_of entries segment = Some (NodeObject children) ->
      node_at children (s :: path) n -> node_at entries (segment :: s :: path) n.

Lemma find_from_ok entries node len i path n :
  path <> [] -> len = (i + length path)%nat ->
  find_from entries node len i path = Ok n <-> node_at entries path n.
Proof.
  revert entries node i. induction path as [|segment path IH]; intros entries node i Hne Hlen; [done|].
  cbn [find_from]. cbn in Hlen. destruct (entry_of entries segment) as [found|] eqn:He.
  2:{ split; [done|]. inversion 1; congruence. }
  destruct path as [|s path].
  - assert (Hok : forall c, find_from c (Some found) len (i + 1) [] = Ok n <-> node_at entries [segment] n).
    { intros c. cbn. split; [intros [= <-]; by constructor | inversion 1; congruence]. }
    destruct found; [| |apply Hok]; (destruct (Nat.ltb_spec (i + 1) len); [cbn in Hlen; lia | apply Hok]).
  - destruct found as [|b|children].
    1, 2: destruct (Nat.ltb_spec (i + 1) len); [|cbn in Hlen; lia]; split; [done|]; inversion 1; congruence.
    rewrite IH by (done || cbn in *; lia). split; [by intros; econstructor|]. inversion 1; congruence.
Qed.

Lemma find_host_node_ok entries path n : find_host_node entries path = Ok n <-> node_at entries path n.
Proof.
  destruct path as [|s path]; [split; [done | inversion 1]|]. by apply find_from_ok.
Qed.

(** What a run may rebind: a declared bridge stub, and a function leaf of a
    declared host module (the first declaration of its specifier). *)
Definition global_rebindable (stubs : list string) (d : HostGlobalDef) : Prop :=
  exists name e, d = Bridge name e /\ name ∈ stubs.

Definition import_rebindable (declared : list ImportBinding) (rb : ImportRebind) : Prop :=
  exists i b exports, list_find (fun b => ib_specifier b = ir_specifier rb) declared = Some (i, b) /\
    ib_module b = Host exports /\ node_at exports (ir_path rb) NodeFunction.

Lemma existsb_eqb_elem name l : existsb (String.eqb name) l = true <-> name ∈ l.
Proof.
  rewrite existsb_exists. split.
  - intros (x & Hx & Heq%String.eqb_eq). subst. by apply list_elem_of_In.
  - intros Hin. exists name. split; [by apply list_elem_of_In | apply String.eqb_refl].
Qed.

Lemma validate_import_rebind_ok declared rb :
  validate_import_rebind declared rb = Ok tt <-> import_rebindable declared rb.
Proof.
  unfold validate_import_rebind, import_rebindable.
  destruct (list_find _ declared) as [[i b]|] eqn:Hf; [|split; [done|]; by intros (? & ? & ? & ? & _)].
  destruct (ib_module b) as [|exports] eqn:Hm; [split; [done|]; intros (? & ? & ? & [= <- <-] & ? & _); congruence|].
  destruct (find_host_node exports (ir_path rb)) as [n|d] eqn:Hn.
  - pose proof Hn as Hat%find_host_node_ok. destruct n as [|d|c].
    1: by split; [intros _; exists i, b, exports|].
    all: split; [done|]; intros (? & ? & ? & [= <- <-] & ? & Hat'%find_host_node_ok); congruence.
  - split; [done|]. intros (? & ? & ? & [= <- <-] & ? & Hat'%find_host_node_ok). congruence.
Qed.

(** A prefix run's rebinds are accepted exactly when every global it
    carries is a declared bridge stub and every import rebind names a function
    leaf of a declared host module; otherwise the answer is one of the two
    binding errors, and it is [FrozenBinding] for a global exactly when its name
    is a declared data or string global. *)
Theorem rebinds_checked globals stubs declared rebinds imports :
  (validate_global_rebinds globals stubs declared = Ok tt <-> Forall (global_rebindable stubs) globals) /\
  (validate_import_rebinds rebinds imports = Ok tt <-> Forall (import_rebindable imports) rebinds) /\
  (forall e, validate_global_rebinds globals stubs declared = Err e ->
    exists d, d ∈ globals /\ ~ global_rebindable stubs d /\
      exists msg, e = if is_frozen_global declared (def_name d).1 then FrozenBinding msg else UndeclaredBinding msg) /\
  (forall e, validate_import_rebinds rebinds imports = Err e ->
    exists msg, e = FrozenBinding msg \/ e = UndeclaredBinding msg).
Proof.
  split_and!.
  - induction globals as [|d globals IH]; cbn; [done|]. rewrite Forall_cons, <- IH.
    destruct (def_name d) as [name is_stub] eqn:Hd. destruct (is_stub && _) eqn:Hs.
    + apply andb_true_iff in Hs as [-> Hs%existsb_eqb_elem]. destruct d; cbn in Hd; simplify_eq.
      unfold global_rebindable. naive_solver.
    + split; [by destruct (is_frozen_global _ _)|]. intros [(n & e & -> & Hin%existsb_eqb_elem) _].
      cbn in Hd. simplify_eq. by rewrite Hin in Hs.
  - induction rebinds as [|rb rebinds IH]; cbn; [done|]. rewrite Forall_cons, <- IH, <- validate_import_rebind_ok.
    destruct (validate_import_rebind imports rb) as [[]|e]; cbn; naive_solver.
  - induction globals as [|d globals IH]; cbn; [done|]. intros e.
    destruct (def_name d) as [name is_stub] eqn:Hd. destruct (is_stub && _) eqn:Hs.
    + intros (d' & Hin & Hd')%IH. exists d'. split; [by right | done].
    + intros He. exists d. split; [left|]. rewrite Hd. split.
      * intros (n & e' & -> & Hin%existsb_eqb_elem). cbn in Hd. simplify_eq. by rewrite Hin in Hs.
      * cbn. destruct (is_frozen_global _ _); simplify_eq; eauto.
  - induction rebinds as [|rb rebinds IH]; cbn; [done|]. intros e.
    destruct (validate_import_rebind imports rb) as [[]|e'] eqn:Hv; cbn; [auto|]. intros [= <-].
    unfold validate_import_rebind in Hv. repeat (case_match; simplify_eq; eauto). all: unfold undeclared_import; eauto.
Qed.

(** The depth an unresolved path is reported with: the first missing key, except
    below a leaf, where it is the whole path. *)
Example find_host_node_depths :
  let tree := [("db"%string, NodeObject [("get"%string, NodeFunction)])] in
  find_host_node tree ["db"; "put"]%string = Err 2%nat /\
  find_host_node tree ["no"; "put"]%string = Err 1%nat /\
  find_host_node tree ["db"; "get"; "x"; "y"]%string = Err 4%nat.
Proof. vm_compute. auto. Qed.
