(* ===== verification/Link.v ===== *)
(** * The link between engine and frontend ([crates/core/src/link.rs])

    The messages of both directions, the [HostLink] interface, the conclusion of
    a run ([completion_message], [send_completion] and [finish_run] of
    [crates/core/src/v8/instance.rs]) and the frames the connection's link
    writes ([ConnLink] of [crates/server/src/session.rs]). *)

From S2P Require Import Prelude Bytes Text F64 Types Frames StreamPayloads Errors Wire Outbox.

(** ** Messages *)

Inductive Outbound :=
  | OBridgeCall (call_id : Z) (target : BridgeTarget) (args : list byte)
  | OStreamPull (stream_id credit : Z)
  | OStreamCancel (stream_id : Z) (reason : string)
  | OStreamChunk (stream_id : Z) (data : list byte)
  | OStreamEnd (stream_id : Z) (error : option string)
  | OResult (completion : RunCompletion)
  | ORunComplete (report : GraceReport).

Inductive Inbound :=
  | IBridgeResponse (call_id : Z) (result : bridge_answer)
  | IStreamChunk (stream_id : Z) (data : list byte)
  | IStreamEnd (stream_id : Z) (error : option string)
  | IStreamPull (stream_id credit : Z)
  | IStreamCancel (stream_id : Z) (reason : string)
  | ITerminate (mode : TerminateMode)
  | IConnectionLost (detail : option string).

Inductive LinkError := TooLarge (detail : string) | Closed (detail : string).

(** ** The interface

    A frontend as the engine sees it, over the frontend's own state. *)
Class HostLink (S : Type) := {
  link_send : S -> Z -> Outbound -> S * result LinkError unit;
  link_finished : S -> Z -> S;
}.

(** A link that accepts or refuses by a given list of verdicts, and keeps what
    it accepted. *)
Record Tape := mk_Tape { tape_sent : list Outbound; verdicts : list bool }.

Definition tape_send (t : Tape) (msg : Outbound) : Tape * result LinkError unit :=
  match verdicts t with
  | false :: v => (mk_Tape (tape_sent t) v, Err (Closed ""%string))
  | v => (mk_Tape (tape_sent t ++ [msg]) (tail v), Ok tt)
  end.

#[export] Instance tape_link : HostLink Tape := {
  link_send := fun t _ msg => tape_send t msg;
  link_finished := fun t _ => t;
}.

(** ** Concluding a run *)

Record Output := mk_Output {
  o_exports : list byte;
  o_skipped_exports : list string;
  o_stdout : list string;
  o_stderr : list string;
  o_duration_ms : f64;
  o_wall_time_ms : f64;
  o_cpu_time_ms : f64;
  o_background : option GraceReport;
  o_bridge_calls : list BridgeCallRecord;
}.

(** How a call on an instance ended ([runloop::CallOutcome]). *)
Record CallOutcome := mk_CallOutcome {
  co_result : result FailureOutput Output;
  co_tainted : bool;
  co_heap_used_bytes : Z;
  co_prefix_failed : bool;
}.

Definition with_prefix_stage (stage : bool) (e : RunErrorPayload) : RunErrorPayload :=
  mk_RunErrorPayload (ep_code e) (ep_name e) (ep_message e) (ep_stack e) (ep_fields e) (ep_reset e)
    stage (ep_cause e).

Definition success_message (output : Output) (heap_used_bytes : option Z) : Outbound :=
  OResult (Types.Success (mk_RunSuccessPayload (o_exports output) (o_skipped_exports output) (o_stdout output)
    (o_stderr output) (o_duration_ms output) (o_wall_time_ms output) (o_cpu_time_ms output)
    (o_bridge_calls output) heap_used_bytes 0)).

Definition completion_message (r : result FailureOutput Output) (heap_used_bytes : option Z)
    (prefix_stage : bool) : Outbound :=
  match r with
  | Ok output =>
    match o_background output with
    | Some bg => if g_early_result_sent bg then ORunComplete bg else success_message output heap_used_bytes
    | None => success_message output heap_used_bytes
    end
  | Err failure =>
    OResult (Types.Failure (mk_RunFailurePayload (with_prefix_stage prefix_stage (to_payload (fo_error failure)))
      (fo_stdout failure) (fo_stderr failure) (fo_duration_ms failure) (fo_wall_time_ms failure)
      (fo_cpu_time_ms failure) (fo_bridge_calls failure) heap_used_bytes))
  end.

(** The small answer sent when a [Result] is too large. *)
Definition substitute_result (detail : string) : Outbound :=
  OResult (Types.Failure (bare (to_payload (Internal ("the run's result was too large to send to the host ("
    +:+ detail +:+ "). A thrown error's message, stack and properties are reported verbatim, so a very large one cannot be delivered."))))).

(** The small report sent when a [RunComplete] is too large. *)
Definition substitute_report (status : GraceStatus) : Outbound :=
  ORunComplete (mk_GraceReport status f64_zero f64_zero f64_zero [] [] []
    (Some ("Error", "the grace report was too large to send; its telemetry was dropped")) true).

Section Completion.
Context {S : Type} `{HostLink S}.

(** The result only goes to the log, so it is dropped here too. *)
Definition send_completion (s : S) (run_id : Z) (msg : Outbound) : S :=
  let report_status := match msg with ORunComplete report => Some (g_status report) | _ => None end in
  let '(s, outcome) := link_send s run_id msg in
  match outcome with
  | Err (TooLarge detail) =>
    match report_status with
    | None => (link_send s run_id (substitute_result detail)).1
    | Some status => (link_send s run_id (substitute_report status)).1
    end
  | _ => s
  end.

Definition finish_run (has_link : bool) (s : S) (run_id : Z) (msg : option Outbound) (release : S -> S) : S :=
  let s := if has_link then link_finished s run_id else s in
  let s := release s in
  match msg with
  | Some msg => if has_link then send_completion s run_id msg else s
  | None => s
  end.
End Completion.

(** ** The connection's frames *)

(** Message type, head and tail of the frame a message becomes; [slots] is the
    runtime's current slot allowance. *)
Definition frame_of (slots run_id : Z) (msg : Outbound) : Out.RustToTsMessageType * list byte * list byte :=
  match msg with
  | OBridgeCall call_id target args =>
    (Out.BridgeCall, encode_bridge_call_header run_id call_id target (as_u32 (zlen args)), args)
  | OStreamPull stream_id credit => (Out.StreamPull, encode_stream_pull_payload run_id stream_id credit, [])
  | OStreamCancel stream_id reason => (Out.StreamCancel, encode_stream_cancel_payload run_id stream_id reason, [])
  | OStreamChunk stream_id data =>
    (Out.StreamChunk, u32_be run_id ++ u32_be stream_id ++ u32_be (as_u32 (zlen data)), data)
  | OStreamEnd stream_id error => (Out.StreamEnd, encode_stream_end_payload run_id stream_id error, [])
  | OResult completion => (Out.Result, encode_run_completion_payload slots run_id completion, [])
  | ORunComplete report => (Out.RunComplete, encode_run_complete_payload run_id report, [])
  end.

(** [ConnLink::send]'s reading of the outbox's answer. *)
Definition link_error (e : io_error) : LinkError :=
  if bool_decide (kind e = InvalidInput) then TooLarge (detail e) else Closed (detail e).

(** What the link sees of the outbox: the frames it accepted, in order, and
    whether it is dead.  Queueing, blocking and writing are the outbox's own
    ([Outbox]). *)
Record Sink := mk_Sink { accepted : list (Out.RustToTsMessageType * list byte); sink_dead : option string }.

Definition send_frame (o : Sink) (t : Out.RustToTsMessageType) (head tail : list byte) : Sink * io unit :=
  match send_check head tail with
  | Err e => (o, Err e)
  | Ok _ =>
    match sink_dead o with
    | Some reason => (o, Err (mk_io_error BrokenPipe reason))
    | None => (mk_Sink (accepted o ++ [(t, head ++ tail)]) None, Ok tt)
    end
  end.

Definition conn_send (slots : Z) (o : Sink) (run_id : Z) (msg : Outbound) : Sink * result LinkError unit :=
  let '(t, head, tail) := frame_of slots run_id msg in
  let '(o, r) := send_frame o t head tail in
  (o, map_err link_error r).

#[export] Instance conn_link (slots : Z) : HostLink Sink := {
  link_send := conn_send slots;
  link_finished := fun o _ => o;
}.

(** ** A completion always reaches a live connection *)

Lemma send_check_err head tail e :
  send_check head tail = Err e -> kind e = InvalidInput /\ blen (detail e) <= 80.
Proof.
  unfold send_check, envelope_len, try_u32, checked_add. intros H.
  destruct (Z.leb_spec (zlen head + zlen tail) u32_max); [|injection H as <-; split; [done|]; vm_compute; discriminate].
  destruct (Z.leb_spec (zlen head + zlen tail + 1) u32_max); [|injection H as <-; split; [done|]; vm_compute; discriminate].
  destruct (DEFAULT_MAX_FRAME_LENGTH <? _); [|discriminate].
  apply (f_equal (fun r => match r with Err e => e | Ok _ => e end)) in H. cbv beta iota in H. rewrite <- H.
  split; [done|]. cbn [fail detail].
  rewrite !blen_app. change (blen "frame length ") with 13. change (blen " exceeds max frame length ") with 26.
  assert (Hmax : blen (show DEFAULT_MAX_FRAME_LENGTH) = 8) by (vm_compute; reflexivity). rewrite Hmax.
  pose proof (show_length (zlen head + zlen tail + 1) 9 ltac:(change (10 ^ Z.of_nat 10) with 10000000000; unfold u32_max in *; lia)). lia.
Qed.

Lemma send_check_ok head tail :
  zlen head + zlen tail + 1 <= DEFAULT_MAX_FRAME_LENGTH ->
  send_check head tail = Ok (zlen head + zlen tail + 1).
Proof.
  intros H. unfold send_check, envelope_len, try_u32, checked_add. unfold DEFAULT_MAX_FRAME_LENGTH in *.
  destruct (Z.leb_spec (zlen head + zlen tail) u32_max); [|zsolve].
  destruct (Z.leb_spec (zlen head + zlen tail + 1) u32_max); [|zsolve].
  destruct (Z.ltb_spec (64 * 1024 * 1024) (zlen head + zlen tail + 1)); [lia|done].
Qed.

Lemma send_check_head head n : send_check head [] = Ok n -> zlen head + 1 <= DEFAULT_MAX_FRAME_LENGTH.
Proof. intros [_ H]%send_check_fits. change (zlen (@nil byte)) with 0 in H. lia. Qed.

Lemma length_encode_string s : zlen (encode_string s) = 4 + blen s.
Proof. unfold encode_string, encode_u32. rewrite length_app, length_u32_be. lia. Qed.

(** Evaluate the lengths of closed byte lists. *)
Ltac compute_lengths :=
  repeat match goal with
  | |- context [length ?x] =>
    let v := eval vm_compute in (length x) in
    lazymatch v with context [length] => fail | _ => change (length x) with v end
  end.

(** The substitutes are small by construction. *)
Lemma substitute_result_small slots run_id d :
  blen d <= 80 ->
  let '(t, head, tail) := frame_of slots run_id (substitute_result d) in
  send_check head tail = Ok (zlen head + zlen tail + 1).
Proof.
  intros Hd. cbn [frame_of substitute_result]. apply send_check_ok.
  set (m := "the run's result was too large to send to the host (" +:+ _).
  assert (Hm : blen m <= 300).
  { unfold m. rewrite !blen_app. match goal with |- ?a + (_ + ?b) <= _ =>
      let x := eval vm_compute in a in let y := eval vm_compute in b in change a with x; change b with y end. lia. }
  assert (Hc : clamp_error_text m = m).
  { unfold clamp_error_text. destruct (Z.leb_spec (blen m) MAX_ERROR_TEXT_BYTES) as [|Hgt]; [done|].
    change MAX_ERROR_TEXT_BYTES with 65536 in Hgt. lia. }
  clearbody m.
  unfold encode_run_completion_payload, encode_run_error_payload, bare, to_payload.
  cbn [f_error f_stdout f_stderr f_duration_ms f_wall_time_ms f_cpu_time_ms f_bridge_calls f_heap_used_bytes
    ep_code ep_name ep_message ep_stack ep_fields ep_reset ep_prefix_stage ep_cause message code name].
  rewrite Hc. rewrite !length_app. unfold encode_u32. rewrite !length_u32_be.
  pose proof (length_encode_string m) as Hn. set (n := length (encode_string m)) in *. clearbody n.
  compute_lengths. unfold DEFAULT_MAX_FRAME_LENGTH. lia.
Qed.

Lemma substitute_report_small slots run_id status :
  let '(t, head, tail) := frame_of slots run_id (substitute_report status) in
  send_check head tail = Ok (zlen head + zlen tail + 1).
Proof.
  cbn [frame_of substitute_report]. apply send_check_ok. unfold encode_run_complete_payload.
  cbn [g_status g_duration_ms g_wall_time_ms g_cpu_time_ms g_stdout g_stderr g_bridge_calls g_error].
  rewrite !length_app. unfold encode_u32 at 1. rewrite length_u32_be. cbn [length].
  compute_lengths. unfold DEFAULT_MAX_FRAME_LENGTH. lia.
Qed.

(** The kind of frame that concludes a run. *)
Definition final_type (msg : Outbound) : option Out.RustToTsMessageType :=
  match msg with OResult _ => Some Out.Result | ORunComplete _ => Some Out.RunComplete | _ => None end.

(** A run's completion costs at most its telemetry, never its answer: on a
    live connection [send_completion] hands the outbox exactly one frame, of the
    type the completion has, within the frame ceiling; it is the completion's
    own encoding whenever that fits the ceiling, and otherwise the small
    substitute (an [ERR_INTERNAL] failure, or a report with the same status). *)
Theorem completion_always_delivered slots o run_id msg t
    (Hlive : sink_dead o = None) (Hmsg : final_type msg = Some t) :
  exists payload,
    accepted (send_completion (S := Sink) (H := conn_link slots) o run_id msg) = accepted o ++ [(t, payload)] /\
    zlen payload + 1 <= DEFAULT_MAX_FRAME_LENGTH /\
    let own := match msg with
      | OResult c => encode_run_completion_payload slots run_id c
      | ORunComplete r => encode_run_complete_payload run_id r
      | _ => [] end in
    if zlen own + 1 <=? DEFAULT_MAX_FRAME_LENGTH then payload = own
    else match msg with
      | ORunComplete r => payload = encode_run_complete_payload run_id
          (mk_GraceReport (g_status r) f64_zero f64_zero f64_zero [] [] []
            (Some ("Error", "the grace report was too large to send; its telemetry was dropped")) true)
      | _ => exists text, payload = encode_run_completion_payload slots run_id (Types.Failure (bare (to_payload (Internal text))))
      end.
Proof.
  assert (Hown : forall t' head msg', frame_of slots run_id msg' = (t', head, []) ->
    send_check head [] = Ok (zlen head + zlen (@nil byte) + 1) ->
    conn_send slots o run_id msg' = (mk_Sink (accepted o ++ [(t', head)]) None, Ok tt)).
  { intros t' head msg' Hf Hc. unfold conn_send, send_frame. by rewrite Hf, Hc, Hlive, app_nil_r. }
  assert (Hbig : forall t' head msg' e, frame_of slots run_id msg' = (t', head, []) ->
    send_check head [] = Err e -> conn_send slots o run_id msg' = (o, Err (TooLarge (detail e)))).
  { intros t' head msg' e Hf Hc. unfold conn_send, send_frame. rewrite Hf, Hc. cbn.
    unfold link_error. by rewrite (proj1 (send_check_err _ _ _ Hc)). }
  destruct msg as [| | | | |c|r]; try discriminate; cbn in Hmsg; injection Hmsg as <-; unfold send_completion; cbn [link_send conn_link].
  - set (own := encode_run_completion_payload slots run_id c).
    destruct (send_check own []) as [n|e] eqn:Hc.
    + pose proof (send_check_head _ _ Hc) as Hfit.
      rewrite (Hown Out.Result own) by (done || apply send_check_ok; change (zlen (@nil byte)) with 0; lia).
      exists own. split; [done|]. split; [done|]. by rewrite (proj2 (Z.leb_le _ _) Hfit).
    + rewrite (Hbig Out.Result own _ e) by done.
      pose proof (substitute_result_small slots run_id (detail e) (proj2 (send_check_err _ _ _ Hc))) as Hs.
      cbn [frame_of substitute_result] in Hs. pose proof (send_check_head _ _ Hs) as Hfit.
      rewrite (Hown Out.Result _ (substitute_result (detail e)) eq_refl Hs). eexists. split; [done|]. split; [exact Hfit|].
      destruct (Z.leb_spec (zlen own + 1) DEFAULT_MAX_FRAME_LENGTH) as [Hle|]; [|by eexists].
      rewrite send_check_ok in Hc by (change (zlen (@nil byte)) with 0; lia). discriminate.
  - set (own := encode_run_complete_payload run_id r).
    destruct (send_check own []) as [n|e] eqn:Hc.
    + pose proof (send_check_head _ _ Hc) as Hfit.
      rewrite (Hown Out.RunComplete own) by (done || apply send_check_ok; change (zlen (@nil byte)) with 0; lia).
      exists own. split; [done|]. split; [done|]. by rewrite (proj2 (Z.leb_le _ _) Hfit).
    + rewrite (Hbig Out.RunComplete own _ e) by done.
      pose proof (substitute_report_small slots run_id (g_status r)) as Hs.
      cbn [frame_of substitute_report] in Hs. pose proof (send_check_head _ _ Hs) as Hfit.
      rewrite (Hown Out.RunComplete _ (substitute_report (g_status r)) eq_refl Hs). eexists. split; [done|]. split; [exact Hfit|].
      destruct (Z.leb_spec (zlen own + 1) DEFAULT_MAX_FRAME_LENGTH) as [Hle|]; [|done].
      rewrite send_check_ok in Hc by (change (zlen (@nil byte)) with 0; lia). discriminate.
Qed.

Lemma completion_always_delivered_witness :
  let o := mk_Sink [] None in
  exists payload,
    accepted (send_completion (S := Sink) (H := conn_link 4) o 7 (OResult sample_failure)) = [(Out.Result, payload)] /\
    payload = encode_run_completion_payload 4 7 sample_failure.
Proof.
  intros o. destruct (completion_always_delivered 4 o 7 (OResult sample_failure) Out.Result eq_refl eq_refl)
    as (payload & Ha & _ & Hp).
  exists payload. split; [exact Ha|]. exact Hp.
Defined.
