(* ===== verification/Session.v ===== *)
(** * A connection's session ([crates/server/src/session.rs])

    The handshake, the demultiplexer and its routing table.  The engine is an
    interface: a state with the five operations the session calls; what runs
    concurrently with the demux (a run that concludes, an outbox that dies) is
    an event of its own. *)

From S2P Require Import Prelude Bytes Text F64 Types Reader Requests Frames StreamPayloads Errors Wire Outbox Link.

(** ** The handshake *)

Definition V8_BLOB_HEADER_TAG : Z := 255.
Definition NATIVE_FORMAT_VERSION : Z := 16.
Definition RELABELLED_FORMAT_VERSION : Z := 15.

(** [blob::relabel_write_version] *)
Definition relabel_write_version (bytes : list byte) : list byte :=
  match bytes with
  | tag :: version :: rest =>
    if (zlen bytes <? 4294967296) && (b2z tag =? V8_BLOB_HEADER_TAG) && (b2z version =? NATIVE_FORMAT_VERSION)
    then tag :: z2b RELABELLED_FORMAT_VERSION :: rest else bytes
  | _ => bytes
  end.

(** [blob::probe_format_version] *)
Definition probe_format_version (probe : list byte) : option Z :=
  match probe with
  | tag :: version :: _ => if b2z tag =? V8_BLOB_HEADER_TAG then Some (b2z version) else None
  | _ => None
  end.

(** What the first frame decides: a silent close, a rejection the peer is told
    about, or an authenticated peer. *)
Inductive handshake_outcome :=
  | CloseSilently
  | RejectWith (status : HelloStatus) (message : string)
  | Authenticated (auth : AuthenticatePayload).

(** [first] is the outcome of reading the first frame under
    [AUTH_MAX_FRAME_LENGTH]; [read_version] is the newest format this V8 reads. *)
Definition handshake (read_version : Z) (first : io (TsToRustMessageType * list byte)) : handshake_outcome :=
  match first with
  | Err _ => CloseSilently
  | Ok (Authenticate, payload) =>
    match parse_authenticate_payload payload with
    | Err _ => CloseSilently
    | Ok auth =>
      if negb (protocol_version auth =? PROTOCOL_VERSION) then
        RejectWith ProtocolVersionMismatch
          ("iso4 protocol version mismatch: host speaks v" +:+ show (protocol_version auth)
           +:+ ", this iso4-v8 binary speaks v" +:+ show PROTOCOL_VERSION
           +:+ ". Update @iso4/sandbox and @iso4/v8-* together — they are released in lockstep.")
      else
        let host_version := probe_format_version (probe auth) in
        if match host_version with Some v => v <=? read_version | None => false end
        then Authenticated auth
        else RejectWith V8FormatMismatch
          ("V8 serialization format mismatch between Node (writes format "
           +:+ match host_version with Some v => show v | None => "an unrecognised format" end
           +:+ ") and the iso4-v8 binary (reads up to format " +:+ show read_version
           +:+ "). Update @iso4/sandbox and @iso4/v8-* together — they are released in lockstep.")
    end
  | Ok _ => CloseSilently
  end.

(** [HandshakeReader::read], in milliseconds: the deadline covers every read of the
    handshake, each with what is left of it as the socket's timeout.  [read]: how long
    the socket takes under a timeout, and what it gives. *)
Definition HANDSHAKE_DEADLINE : Z := 2000.

Definition handshake_read {A} (deadline now : Z) (read : Z -> Z * io A) : Z * io A :=
  let left := sat_sub deadline now in
  if left =? 0 then (now, fail TimedOut "handshake deadline passed")
  else let '(took, r) := read left in (now + took, r).

(** A peer's reads one after the other, until one fails. *)
Fixpoint handshake_reads {A} (deadline now : Z) (reads : list (Z -> Z * io A)) : Z * io (list A) :=
  match reads with
  | [] => (now, Ok [])
  | read :: reads =>
    match handshake_read deadline now read with
    | (now, Err e) => (now, Err e)
    | (now, Ok a) => let '(now, r) := handshake_reads deadline now reads in (now, more ← r; Ok (a :: more))
    end
  end.

(** ** Routing *)

Definition debug_name (t : TsToRustMessageType) : string :=
  match t with
  | Authenticate => "Authenticate" | Run => "Run" | Precompile => "Precompile" | PrefixRun => "PrefixRun"
  | DisposePrefix => "DisposePrefix" | BridgeResponse => "BridgeResponse" | Terminate => "Terminate"
  | Stats => "Stats" | StreamChunk => "StreamChunk" | StreamEnd => "StreamEnd" | StreamPull => "StreamPull"
  | StreamCancel => "StreamCancel" | Close => "Close"
  end.

(** A run-tagged frame as the engine's message. *)
Definition inbound_of (t : TsToRustMessageType) (payload : list byte) : result string Inbound :=
  match t with
  | BridgeResponse =>
    map_err (fun e => "response decode: " +:+ detail e)
      ((fun x => IBridgeResponse x.1.2 x.2) <$> parse_bridge_response_payload payload)
  | StreamChunk =>
    map_err (fun e => "stream chunk decode: " +:+ detail e)
      ((fun chunk => IStreamChunk (sc_stream_id chunk)
          (drop (length payload - length (sc_data chunk)) payload)) <$> parse_stream_chunk_payload payload)
  | StreamEnd =>
    map_err (fun e => "stream end decode: " +:+ detail e)
      ((fun end_ => IStreamEnd (se_stream_id end_)
          (if se_ok end_ then None else Some (default "the host body source failed" (se_error end_))))
        <$> parse_stream_end_payload payload)
  | StreamPull =>
    map_err (fun e => "stream pull decode: " +:+ detail e)
      ((fun pull => IStreamPull (sp_stream_id pull) (sp_credit pull)) <$> parse_stream_pull_payload payload)
  | StreamCancel =>
    map_err (fun e => "stream cancel decode: " +:+ detail e)
      ((fun cancel => IStreamCancel (sx_stream_id cancel) (sx_reason cancel)) <$> parse_stream_cancel_payload payload)
  | other => Err (debug_name other +:+ " is not a run message")
  end.

Definition peek_run_id (payload : list byte) : option Z :=
  if Nat.ltb (length payload) 4 then None else Some (be_val (take 4 payload)).

Definition frame_cap_for (limits : ResourceLimits) : Z :=
  let soft := soft_memory_mb limits in
  let hard := hard_memory_mb limits in
  if (soft =? 0) && (hard =? 0) then DEFAULT_MAX_FRAME_LENGTH
  else if soft =? 0 then sat_mul u32_max hard (1024 * 1024)
  else sat_mul u32_max soft (1024 * 1024).

(** ** The engine as the session uses it

    [Eng] is the engine's state, [H] a run's handle.  A start gives the handle
    it registered, if it did, and the refusal, if it is one. *)
Class EngineOps (Eng H : Type) := {
  eng_prepare : Eng -> string -> option string -> list HostGlobalDef -> list ImportBinding -> Eng * string;
  eng_dispose : Eng -> string -> Eng;
  eng_stats : Eng -> RegistryStats;
  eng_run : Eng -> RunRequest -> Eng * option H * option RunErrorPayload;
  eng_prefix_run : Eng -> PrefixRunRequest -> Eng * option H * option RunErrorPayload;
  eng_slots : Eng -> Z;
}.

(** A run that was not refused was registered. *)
Class EngineOk (Eng H : Type) `{EngineOps Eng H} : Prop := {
  run_registers : forall e req e' h, eng_run e req = (e', h, None) -> is_Some h;
  prefix_run_registers : forall e req e' h, eng_prefix_run e req = (e', h, None) -> is_Some h;
}.

Record RunRoute (H : Type) := mk_RunRoute { handle : H; frame_cap : Z }.
Arguments mk_RunRoute {H} _ _.
Arguments handle {H} _.
Arguments frame_cap {H} _.

(** The connection: its routing table, what its outbox accepted, the messages
    delivered to runs in order, and the shared engine. *)
Record Conn (Eng H : Type) := mk_Conn {
  runs : gmap Z (RunRoute H);
  outbox : Sink;
  delivered : list (H * Inbound);
  engine : Eng;
}.
Arguments mk_Conn {Eng H} _ _ _ _.
Arguments runs {Eng H} _.
Arguments outbox {Eng H} _.
Arguments delivered {Eng H} _.
Arguments engine {Eng H} _.

Section Session.
Context {Eng H : Type} `{EngineOps Eng H} `{Allocator}.
Local Abbreviation conn := (Conn Eng H).

Definition set_runs (c : conn) r : conn := mk_Conn r (outbox c) (delivered c) (engine c).
Definition set_outbox (c : conn) o : conn := mk_Conn (runs c) o (delivered c) (engine c).
Definition set_engine (c : conn) e : conn := mk_Conn (runs c) (outbox c) (delivered c) e.
Definition deliver (c : conn) (h : H) (m : Inbound) : conn :=
  mk_Conn (runs c) (outbox c) (delivered c ++ [(h, m)]) (engine c).

#[local] Instance connection_link : HostLink conn := {
  link_send := fun c run_id msg =>
    let '(o, r) := conn_send (eng_slots (engine c)) (outbox c) run_id msg in (set_outbox c o, r);
  link_finished := fun c run_id => set_runs c (delete run_id (runs c));
}.

(** [Err] closes the connection. *)
Definition route_run_frame (c : conn) (t : TsToRustMessageType) (payload : list byte) : result string conn :=
  match peek_run_id payload with
  | None => Err ("truncated " +:+ debug_name t +:+ " frame (no run id)")
  | Some run_id =>
    match runs c !! run_id with
    | None => Ok c
    | Some route =>
      let frame_len := zlen payload + 1 in
      let cap := frame_cap route in
      let msg :=
        if cap <? frame_len then
          IConnectionLost (Some ("frame length " +:+ show frame_len +:+ " exceeds max frame length " +:+ show cap))
        else match inbound_of t payload with
          | Ok msg => msg
          | Err detail => IConnectionLost (Some detail)
          end in
      Ok (deliver c (handle route) msg)
    end
  end.

Definition route_terminate (c : conn) (payload : list byte) : result string conn :=
  match parse_terminate_payload payload with
  | Err e => Err ("malformed Terminate payload: " +:+ detail e)
  | Ok (run_id, mode) =>
    match runs c !! run_id with
    | None => Ok c
    | Some route => Ok (deliver c (handle route) (ITerminate mode))
    end
  end.

Definition refuse (c : conn) (run_id : Z) (error : RunErrorPayload) : conn :=
  send_completion c run_id (OResult (Types.Failure (bare error))).

Definition duplicate_error (run_id : Z) : RunErrorPayload :=
  to_payload (Internal ("run id " +:+ show run_id
    +:+ " is already in flight on this connection; every concurrent run needs a distinct id")).

Definition start_run (c : conn) (run_id cap : Z) (start : Eng -> Eng * option H * option RunErrorPayload) : conn :=
  if bool_decide (is_Some (runs c !! run_id)) then refuse c run_id (duplicate_error run_id)
  else
    let '(e, registered, refusal) := start (engine c) in
    let c := set_engine c e in
    let c := match registered with
      | Some h => set_runs c (<[run_id := mk_RunRoute h cap]> (runs c))
      | None => c
      end in
    match refusal with
    | Some error => refuse (set_runs c (delete run_id (runs c))) run_id error
    | None => c
    end.

(** Every run in flight fails; [FailRunsOnDrop]. *)
Definition fail_runs (c : conn) : conn :=
  mk_Conn ∅ (outbox c)
    (delivered c ++ map (fun kv => (handle kv.2, IConnectionLost None)) (map_to_list (runs c))) (engine c).

(** One frame of the demux loop; [false] ends it. *)
Definition handle_frame (c : conn) (t : TsToRustMessageType) (payload : list byte) : conn * bool :=
  match t with
  | Close => (c, false)
  | Authenticate => (c, false)
  | Run =>
    match parse_run_payload payload with
    | Err _ => (c, false)
    | Ok req => (start_run c (rr_run_id req) (frame_cap_for (rr_limits req)) (fun e => eng_run e req), true)
    end
  | Precompile =>
    match parse_precompile_payload payload with
    | Err _ => (c, false)
    | Ok p =>
      let '(e, prefix_id) := eng_prepare (engine c) (pc_code p) (pc_filename p) (pc_globals p) (pc_imports p) in
      let c := set_engine c e in
      match encode_precompile_result_payload (pc_request_id p) (Some prefix_id) None with
      | Some result => (set_outbox c (send_frame (outbox c) Out.PrecompileResult result []).1, true)
      | None => (c, true)
      end
    end
  | PrefixRun =>
    match parse_prefix_run_payload payload with
    | Err _ => (c, false)
    | Ok req => (start_run c (pr_run_id req) (frame_cap_for (pr_limits req)) (fun e => eng_prefix_run e req), true)
    end
  | DisposePrefix =>
    match parse_dispose_prefix_payload payload with
    | Err _ => (c, false)
    | Ok prefix_id => (set_engine c (eng_dispose (engine c) prefix_id), true)
    end
  | Stats =>
    let '(o, r) := send_frame (outbox c) Out.StatsResult (encode_stats_payload (eng_stats (engine c))) [] in
    (set_outbox c o, is_ok r)
  | BridgeResponse | StreamChunk | StreamEnd | StreamPull | StreamCancel =>
    match route_run_frame c t payload with
    | Err _ => (c, false)
    | Ok c => (c, true)
    end
  | Terminate =>
    match route_terminate c payload with
    | Err _ => (c, false)
    | Ok c => (c, true)
    end
  end.

(** One turn of the demux: a frame, or a failed read; leaving the loop runs the
    teardown. *)
Definition demux_step (c : conn) (read : io (TsToRustMessageType * list byte)) : conn * bool :=
  match read with
  | Err _ => (fail_runs c, false)
  | Ok (t, payload) =>
    let '(c, go_on) := handle_frame c t payload in
    (if go_on then c else fail_runs c, go_on)
  end.

(** ** Frames the host writes reach their run *)

(** The run-tagged frames of the host client for a run, and the message each one
    is for the run. *)
Inductive host_frame (runId : Z) : TsToRustMessageType -> list byte -> Inbound -> Prop :=
  | hf_response callId ok value error :
      is_u32 callId -> option_ok blob_ok value -> option_ok ts_error_ok error ->
      host_frame runId BridgeResponse (encodeBridgeResponsePayload runId callId ok value error)
        (IBridgeResponse callId (if ok then inl (nonempty value) else inr (match error with
          | Some e => mk_BridgeErrorPayload (te_name e) (te_message e) (nonempty (te_encodedFields e))
          | None => mk_BridgeErrorPayload "Error" "host handler failed" None
          end)))
  | hf_chunk streamId data :
      is_u32 streamId -> zlen data <= STREAM_CHUNK_MAX_BYTES ->
      host_frame runId StreamChunk (encodeStreamChunkPayload runId streamId data) (IStreamChunk streamId data)
  | hf_end streamId error :
      is_u32 streamId -> option_ok string_ok error ->
      host_frame runId StreamEnd (encodeStreamEndPayload runId streamId error) (IStreamEnd streamId error)
  | hf_pull streamId credit :
      is_u32 streamId -> is_u32 credit ->
      host_frame runId StreamPull (encodeStreamPullPayload runId streamId credit) (IStreamPull streamId credit)
  | hf_cancel streamId reason :
      is_u32 streamId -> string_ok reason ->
      host_frame runId StreamCancel (encodeStreamCancelPayload runId streamId reason) (IStreamCancel streamId reason).

Lemma peek_run_id_u32 runId rest : is_u32 runId -> peek_run_id (u32_be runId ++ rest) = Some runId.
Proof.
  intros Hr. unfold peek_run_id. rewrite length_app, length_u32_be.
  destruct (Nat.ltb_spec (4 + length rest) 4); [lia|].
  rewrite <- (length_u32_be runId) at 1. by rewrite take_app_len, be_val_u32.
Qed.

(** Every such frame leads with its run and decodes to its message. *)
Lemma host_frame_decodes runId t payload msg :
  is_u32 runId -> host_frame runId t payload msg ->
  peek_run_id payload = Some runId /\ inbound_of t payload = Ok msg /\
  t ∈ [BridgeResponse; StreamChunk; StreamEnd; StreamPull; StreamCancel].
Proof.
  intros Hr Hf. destruct Hf as [callId ok value error Hc Hv He|streamId data Hs Hd|streamId error Hs He
    |streamId credit Hs Hcr|streamId reason Hs Hre].
  - split; [by apply peek_run_id_u32|]. split; [|set_solver]. cbn [inbound_of].
    by rewrite (bridge_response_roundtrip runId callId ok value error).
  - split; [by apply peek_run_id_u32|]. split; [|set_solver]. cbn [inbound_of].
    rewrite (proj2 (parse_stream_chunk_iff _ (mk_StreamChunk streamId data))) by eauto. cbn.
    unfold encodeStreamChunkPayload. rewrite !app_assoc, length_app, Nat.add_sub. by rewrite drop_app_len.
  - split; [by apply peek_run_id_u32|]. split; [|set_solver]. cbn [inbound_of].
    rewrite (proj2 (parse_stream_end_iff _ (mk_StreamEnd streamId (bool_decide (error = None)) error))).
    + by destruct error.
    + exists runId, streamId, (match error with None => None | Some e => Some (Some e) end). by destruct error.
  - split; [by apply peek_run_id_u32|]. split; [|set_solver]. cbn [inbound_of].
    by rewrite (proj2 (parse_stream_pull_iff _ (mk_StreamPull streamId credit))) by eauto.
  - split; [by apply peek_run_id_u32|]. split; [|set_solver]. cbn [inbound_of].
    by rewrite (proj2 (parse_stream_cancel_iff _ (mk_StreamCancel streamId reason))) by eauto.
Qed.

Lemma tagged_step c t payload :
  t ∈ [BridgeResponse; StreamChunk; StreamEnd; StreamPull; StreamCancel] ->
  demux_step c (Ok (t, payload)) =
    match route_run_frame c t payload with Ok c' => (c', true) | Err _ => (fail_runs c, false) end.
Proof.
  intros Ht. unfold demux_step, handle_frame.
  repeat (apply elem_of_cons in Ht as [->|Ht]; [by destruct (route_run_frame _ _ _)|]).
  by apply not_elem_of_nil in Ht.
Qed.

(** C14. Run-tagged frames reach their run and nothing else: a frame the host
    client wrote for a run in flight is delivered to exactly that run as the
    message it encodes, or fails that run alone when it is over the run's frame
    cap; for a run that is gone it is dropped.  Whatever its bytes, a run-tagged
    frame that keeps the connection open delivers at most one message, to the
    run its first four bytes name, and changes nothing else; only one too short
    to name a run closes the connection. *)
Theorem run_frames_isolated (c : conn) t payload
    (Ht : t ∈ [BridgeResponse; StreamChunk; StreamEnd; StreamPull; StreamCancel]) :
  (forall runId msg, is_u32 runId -> host_frame runId t payload msg ->
    demux_step c (Ok (t, payload)) =
      match runs c !! runId with
      | None => (c, true)
      | Some route =>
        (deliver c (handle route) (if frame_cap route <? zlen payload + 1
           then IConnectionLost (Some ("frame length " +:+ show (zlen payload + 1)
                  +:+ " exceeds max frame length " +:+ show (frame_cap route)))
           else msg), true)
      end) /\
  ((demux_step c (Ok (t, payload))).2 = false <-> (length payload < 4)%nat) /\
  (forall c', demux_step c (Ok (t, payload)) = (c', true) ->
    c' = c \/ exists route msg, runs c !! be_val (take 4 payload) = Some route /\ c' = deliver c (handle route) msg).
Proof.
  rewrite (tagged_step c t payload Ht). split; [|split].
  - intros runId msg Hr Hf. destruct (host_frame_decodes _ _ _ _ Hr Hf) as (Hp & Hi & _).
    unfold route_run_frame. rewrite Hp, Hi. by destruct (runs c !! runId).
  - unfold route_run_frame, peek_run_id. destruct (Nat.ltb_spec (length payload) 4); [done|].
    split; [|lia]. by destruct (runs c !! _).
  - intros c'. unfold route_run_frame, peek_run_id. destruct (length payload <? 4)%nat; [done|].
    destruct (runs c !! be_val (take 4 payload)) as [route|]; intros [= <-]; [right; by eauto | by left].
Qed.

(** ** Every run request is answered once *)

(** Sending touches the outbox only. *)
Lemma send_completion_frame (c : conn) run_id msg :
  exists o, send_completion c run_id msg = set_outbox c o.
Proof.
  assert (Hs : forall c m, exists o r, link_send c run_id m = (set_outbox c o, r)).
  { intros c' m. cbn. destruct (conn_send _ _ _ _) as [o r]. by exists o, r. }
  unfold send_completion. destruct (Hs c msg) as (o & r & ->). destruct r as [|[d|d]]; [by eexists| |by eexists].
  destruct (match msg with ORunComplete report => _ | _ => _ end);
    (edestruct (Hs (set_outbox c o)) as (o' & r' & ->); by exists o').
Qed.

(** The run a frame asks to start, and how the engine starts it. *)
Definition run_request (t : TsToRustMessageType) (payload : list byte)
    : option (Z * (Eng -> Eng * option H * option RunErrorPayload)) :=
  match t with
  | Run => match parse_run_payload payload with Ok req => Some (rr_run_id req, fun e => eng_run e req) | Err _ => None end
  | PrefixRun =>
    match parse_prefix_run_payload payload with Ok req => Some (pr_run_id req, fun e => eng_prefix_run e req) | Err _ => None end
  | _ => None
  end.

(** What happened to the run requests of a connection: all of them in order, the
    ones answered, and the started runs that have not concluded. *)
Record Ledger := mk_Ledger { requested : list Z; answered : list Z; live : gmap Z H }.

Definition note_request (c : conn) (g : Ledger) (t : TsToRustMessageType) (payload : list byte) : Ledger :=
  match run_request t payload with
  | None => g
  | Some (id, start) =>
    let refused := mk_Ledger (requested g ++ [id]) (answered g ++ [id]) (live g) in
    if bool_decide (is_Some (runs c !! id)) then refused
    else match start (engine c) with
      | (_, _, Some _) => refused
      | (_, Some h, None) => mk_Ledger (requested g ++ [id]) (answered g) (<[id := h]> (live g))
      | (_, None, None) => g
      end
  end.

(** What can happen to a connection: the demux reads, a started run concludes on
    its own thread, a run sends a message, the outbox dies. *)
Inductive SessionEvent :=
  | SRead (read : io (TsToRustMessageType * list byte))
  | SConclude (run_id : Z) (msg : Outbound) (release : Eng -> Eng)
  | SMessage (run_id : Z) (msg : Outbound)
  | SOutboxDies (reason : string).

Record session := mk_session { s_conn : conn; s_open : bool; s_ledger : Ledger }.

Definition session_step (s : session) (ev : SessionEvent) : option session :=
  let '(mk_session c is_open g) := s in
  match ev with
  | SRead read =>
    if is_open then
      let '(c', go_on) := demux_step c read in
      Some (mk_session c' go_on (match read with Ok (t, payload) => note_request c g t payload | Err _ => g end))
    else None
  | SConclude run_id msg release =>
    if bool_decide (is_Some (live g !! run_id)) then
      Some (mk_session (finish_run true c run_id (Some msg) (fun c => set_engine c (release (engine c)))) is_open
        (mk_Ledger (requested g) (answered g ++ [run_id]) (delete run_id (live g))))
    else None
  | SMessage run_id msg => Some (mk_session (link_send c run_id msg).1 is_open g)
  | SOutboxDies reason => Some (mk_session (set_outbox c (mk_Sink (accepted (outbox c)) (Some reason))) is_open g)
  end.

Definition session_run (s : session) (evs : list SessionEvent) : option session :=
  foldl (fun s ev => s ≫= fun s => session_step s ev) (Some s) evs.

(** A connection after its handshake. *)
Definition session_start (e : Eng) (o : Sink) : session :=
  mk_session (mk_Conn ∅ o [] e) true (mk_Ledger [] [] ∅).

Record session_ok (s : session) : Prop := {
  so_requests : requested (s_ledger s) ≡ₚ answered (s_ledger s) ++ (map_to_list (live (s_ledger s))).*1;
  so_open : s_open s = true -> handle <$> runs (s_conn s) = live (s_ledger s);
  so_closed : s_open s = false -> runs (s_conn s) = ∅ /\
    forall id h, live (s_ledger s) !! id = Some h -> (h, IConnectionLost None) ∈ delivered (s_conn s);
}.

Context `{!EngineOk Eng H}.

Lemma request_registers t payload id start e e' h :
  run_request t payload = Some (id, start) -> start e = (e', h, None) -> is_Some h.
Proof using EngineOk0.
  destruct t; cbn; try discriminate.
  - destruct (parse_run_payload payload); [|done]. intros [= <- <-]. apply run_registers.
  - destruct (parse_prefix_run_payload payload); [|done]. intros [= <- <-]. apply prefix_run_registers.
Qed.

Lemma perm_live_insert (l a : list Z) (m : gmap Z H) id h :
  l ≡ₚ a ++ (map_to_list m).*1 -> m !! id = None -> l ++ [id] ≡ₚ a ++ (map_to_list (<[id := h]> m)).*1.
Proof.
  intros Hl Hm. rewrite map_to_list_insert, fmap_cons by done. rewrite Hl. cbn.
  rewrite <- (Permutation_middle a _ id). rewrite (Permutation_app_comm _ [id]). done.
Qed.

Lemma perm_live_delete (l a : list Z) (m : gmap Z H) id h :
  l ≡ₚ a ++ (map_to_list m).*1 -> m !! id = Some h -> l ≡ₚ (a ++ [id]) ++ (map_to_list (delete id m)).*1.
Proof.
  intros Hl Hm. rewrite Hl, <- (insert_delete_id m id h Hm) at 1.
  rewrite map_to_list_insert, fmap_cons by apply lookup_delete_eq. cbn. by rewrite <- app_assoc.
Qed.

(** Starting a run keeps the ledger of its connection. *)
Lemma start_run_ledger c g cap id start t payload :
  run_request t payload = Some (id, start) ->
  handle <$> runs c = live g -> requested g ≡ₚ answered g ++ (map_to_list (live g)).*1 ->
  let g' := note_request c g t payload in
  handle <$> runs (start_run c id cap start) = live g' /\
  requested g' ≡ₚ answered g' ++ (map_to_list (live g')).*1.
Proof using EngineOk0.
  intros Hreq Hl Hp. unfold note_request, start_run. rewrite Hreq.
  assert (Hrefused : requested g ++ [id] ≡ₚ (answered g ++ [id]) ++ (map_to_list (live g)).*1).
  { rewrite Hp, <- !app_assoc. by rewrite (Permutation_app_comm _ [id]). }
  case_bool_decide as Hin.
  - unfold refuse. edestruct send_completion_frame as [o ->]. done.
  - assert (Hnone : runs c !! id = None) by (by apply eq_None_not_Some).
    destruct (start (engine c)) as [[e h] [err|]] eqn:Hs.
    + unfold refuse. edestruct send_completion_frame as [o ->]. rewrite <- Hl in Hrefused |- *.
      destruct h; (split; [|exact Hrefused]); cbn; [by rewrite delete_insert_id | by rewrite delete_id].
    + destruct (request_registers _ _ _ _ _ _ _ Hreq Hs) as [h' ->]. cbn. rewrite fmap_insert, Hl. split; [done|].
      apply perm_live_insert; [done|]. rewrite <- Hl, lookup_fmap. by rewrite Hnone.
Qed.

Lemma handle_frame_ledger c g t payload :
  handle <$> runs c = live g -> requested g ≡ₚ answered g ++ (map_to_list (live g)).*1 ->
  let c' := (handle_frame c t payload).1 in
  let g' := note_request c g t payload in
  handle <$> runs c' = live g' /\ requested g' ≡ₚ answered g' ++ (map_to_list (live g')).*1.
Proof using EngineOk0.
  intros Hl Hp. destruct (run_request t payload) as [[id start]|] eqn:Hreq.
  - pose proof (fun cap => start_run_ledger c g cap id start t payload Hreq Hl Hp) as Hs.
    destruct t; try discriminate; cbn in Hreq; cbn [handle_frame].
    + destruct (parse_run_payload payload); [|done]. injection Hreq as <- <-. apply Hs.
    + destruct (parse_prefix_run_payload payload); [|done]. injection Hreq as <- <-. apply Hs.
  - assert (Hg : note_request c g t payload = g) by (unfold note_request; by rewrite Hreq).
    cbn zeta. rewrite Hg. split; [|done]. rewrite <- Hl. f_equal.
    destruct t; cbn in Hreq |- *; try done;
      repeat (case_match; try done); unfold route_run_frame, route_terminate in *; repeat (case_match; simplify_eq; try done).
Qed.

Lemma fail_runs_tells (c : conn) id h :
  (handle <$> runs c) !! id = Some h -> (h, IConnectionLost None) ∈ delivered (fail_runs c).
Proof.
  rewrite lookup_fmap. destruct (runs c !! id) as [route|] eqn:Hr; [|done]. intros [= <-].
  cbn. apply elem_of_app. right. apply elem_of_map_to_list in Hr.
  by apply (list_elem_of_fmap_2 (fun kv => (handle kv.2, IConnectionLost None)) _ (id, route)).
Qed.

Lemma session_step_ok s ev s' : session_ok s -> session_step s ev = Some s' -> session_ok s'.
Proof using EngineOk0.
  destruct s as [c is_open g]. intros [Hp Ho Hc] Hs. cbn in Hp, Ho, Hc. destruct ev as [read|id msg release|id msg|reason]; cbn in Hs.
  - destruct is_open; [|done]. specialize (Ho eq_refl).
    destruct read as [[t payload]|e]; cbn in Hs.
    + destruct (handle_frame_ledger c g t payload Ho Hp) as [Hl Hp'].
      destruct (handle_frame c t payload) as [c' go_on]. injection Hs as <-.
      split; [exact Hp' | intros Hgo; cbn in Hgo; subst go_on; exact Hl | intros Hgo; cbn in Hgo; subst go_on; split; [done|]].
      intros id h Hlive. cbn in Hlive. apply (fail_runs_tells c' id). cbn in Hl. by rewrite Hl.
    + injection Hs as <-. split; [exact Hp | done | intros _; split; [done|]].
      intros id h Hlive. cbn in Hlive. apply (fail_runs_tells c id). by rewrite Ho.
  - case_bool_decide as Hlive; [|done]. destruct Hlive as [h Hlive]. injection Hs as <-.
    unfold finish_run. edestruct send_completion_frame as [o ->]. split; cbn.
    + by eapply perm_live_delete.
    + intros Hopen. by rewrite fmap_delete, Ho.
    + intros Hopen. destruct (Hc Hopen) as [-> Hd]. split; [apply delete_empty|].
      intros id' h' Hl. apply lookup_delete_Some in Hl as [_ Hl]. by apply (Hd id').
  - injection Hs as <-. destruct (conn_send _ _ _ _) as [o r]. by split.
  - injection Hs as <-. by split.
Qed.

Lemma session_run_ok evs s s' : session_ok s -> session_run s evs = Some s' -> session_ok s'.
Proof using EngineOk0.
  unfold session_run. revert s. induction evs as [|ev evs IH]; intros s Hs Hr; cbn in Hr; [by injection Hr as <-|].
  destruct (session_step s ev) as [s1|] eqn:Hst.
  - apply (IH s1); [|done]. by eapply session_step_ok.
  - exfalso. clear -Hr. induction evs as [|e evs IH]; cbn in Hr; [done|auto].
Qed.

End Session.

(** ** The handshake's verdict *)

(** A peer is authenticated exactly when its first frame is the host
    client's [Authenticate] payload for this protocol version with a probe
    whose format this V8 reads; a well-formed payload with another version, or
    with a foreign or newer format, is told why, and anything else is closed
    without a reply. *)
Theorem handshake_verdict read_version first :
  (forall auth, handshake read_version first = Authenticated auth <->
    exists payload v, first = Ok (Authenticate, payload) /\ parse_authenticate_payload payload = Ok auth /\
      protocol_version auth = PROTOCOL_VERSION /\ probe_format_version (probe auth) = Some v /\ v <= read_version) /\
  (handshake read_version first = CloseSilently <->
    forall payload auth, first = Ok (Authenticate, payload) -> parse_authenticate_payload payload <> Ok auth) /\
  (forall status message, handshake read_version first = RejectWith status message ->
    (status = ProtocolVersionMismatch \/ status = V8FormatMismatch) /\ message <> "").
Proof.
  unfold handshake. destruct first as [[t payload]|e]; [|naive_solver].
  destruct (decide (t = Authenticate)) as [->|Hne].
  2:{ destruct t; try done; naive_solver. }
  destruct (parse_authenticate_payload payload) as [auth|e] eqn:Hp.
  2:{ split; [|split; [|done]].
      - intros auth'. split; [done|]. intros (? & ? & [= <-] & Ha & _). congruence.
      - split; [|done]. intros _ p' a' [= <-]. congruence. }
  assert (Hno : ~ forall payload' auth', Ok (Authenticate, payload) = @Ok io_error _ (Authenticate, payload') ->
    parse_authenticate_payload payload' <> Ok auth') by (intros Hno; by apply (Hno payload auth)).
  destruct (Z.eqb_spec (protocol_version auth) PROTOCOL_VERSION) as [Hv|Hv]; cbn [negb].
  2:{ split; [|split; [by split|]].
      - intros auth'. split; [done|]. intros (? & ? & [= <-] & Ha & Hpv & _). congruence.
      - intros status message [= <- <-]. split; [by left | discriminate]. }
  destruct (probe_format_version (probe auth)) as [v|] eqn:Hf; [destruct (Z.leb_spec v read_version) as [Hle|Hlt]|].
  - split; [|split; [by split|done]]. intros auth'. split; [intros [= <-]; by exists payload, v|].
    intros (? & ? & [= <-] & Ha & _). congruence.
  - split; [|split; [by split|]].
    + intros auth'. split; [done|]. intros (? & v' & [= <-] & Ha & _ & Hv' & ?).
      rewrite Hp in Ha. injection Ha as <-. rewrite Hf in Hv'. injection Hv' as <-. lia.
    + intros status message [= <- <-]. split; [by right | discriminate].
  - split; [|split; [by split|]].
    + intros auth'. split; [done|]. intros (? & v' & [= <-] & Ha & _ & Hv' & ?). congruence.
    + intros status message [= <- <-]. split; [by right | discriminate].
Qed.

(** ** Witnesses *)

Module SessionDemo.
(** An engine that numbers its runs and refuses the ones without code. *)
Definition ops : EngineOps Z Z := {|
  eng_prepare := fun e _ _ _ _ => (e + 1, show e);
  eng_dispose := fun e _ => e;
  eng_stats := fun _ => mk_RegistryStats 0 0 0 0 0 [] 0 0 0 0 false;
  eng_run := fun e req =>
    if String.eqb (rr_code req) "" then (e, None, Some (to_payload (Internal "no code")))
    else (e + 1, Some e, None);
  eng_prefix_run := fun e _ => (e + 1, Some e, None);
  eng_slots := fun _ => 4;
|}.

Lemma ops_ok : @EngineOk Z Z ops.
Proof.
  split; intros e req e' h; cbn.
  - destruct (String.eqb _ _); [done|]. intros [= <- <-]. by eexists.
  - intros [= <- <-]. by eexists.
Qed.

Definition run_frame : list byte := encodeRunPayload sample_run_options.
Definition id : Z := o_runId sample_run_options.
Definition read (t : TsToRustMessageType) (payload : list byte) : SessionEvent (Eng := Z) := SRead (Ok (t, payload)).

(** A run starts, a second one with the same id is refused, a credit frame
    reaches the first, and the peer goes away. *)
Definition events : list (SessionEvent (Eng := Z)) :=
  [read Run run_frame; read Run run_frame; read StreamPull (encodeStreamPullPayload id 1 500);
   SRead (fail UnexpectedEof "closed")].
Definition run (evs : list SessionEvent) : option (session (Eng := Z) (H := Z)) :=
  @session_run Z Z ops generous (session_start 10 (mk_Sink [] None)) evs.
End SessionDemo.

Lemma run_frames_isolated_witness :
  let c : Conn Z Z := mk_Conn {[ 7 := mk_RunRoute 10 1000 ]} (mk_Sink [] None) [] 0 in
  @demux_step Z Z SessionDemo.ops generous c (Ok (StreamPull, encodeStreamPullPayload 7 1 500)) =
    (deliver c 10 (IStreamPull 1 500), true).
Proof.
  intros c.
  destruct (@run_frames_isolated Z Z SessionDemo.ops generous c StreamPull (encodeStreamPullPayload 7 1 500) ltac:(set_solver))
    as [Hf _].
  exact (Hf 7 (IStreamPull 1 500) ltac:(zsolve) (hf_pull 7 1 500 ltac:(zsolve) ltac:(zsolve))).
Defined.

(** However slowly a peer dribbles its bytes, the handshake is over by the deadline. *)
Lemma handshake_bounded {A} (reads : list (Z -> Z * io A)) start now :
  start <= now <= start + HANDSHAKE_DEADLINE ->
  Forall (fun read => forall timeout, 0 < timeout -> 0 <= fst (read timeout) <= timeout) reads ->
  fst (handshake_reads (start + HANDSHAKE_DEADLINE) now reads) <= start + HANDSHAKE_DEADLINE.
Proof.
  intros Hnow Hreads. revert now Hnow. induction Hreads as [|read reads Hread Hreads IH]; intros now Hnow; cbn [handshake_reads fst]; [lia|].
  unfold handshake_read. destruct (Z.eqb_spec (sat_sub (start + HANDSHAKE_DEADLINE) now) 0) as [H0|H0]; [cbn; lia|].
  assert (Hleft : sat_sub (start + HANDSHAKE_DEADLINE) now = start + HANDSHAKE_DEADLINE - now) by (unfold sat_sub in *; lia).
  specialize (Hread (sat_sub (start + HANDSHAKE_DEADLINE) now)). destruct (read _) as [took [a|e]]; cbn [fst] in *; [|lia].
  specialize (IH (now + took) ltac:(lia)). destruct (handshake_reads _ (now + took) reads) as [now' r]. exact IH.
Qed.
