(* ===== verification/Answers.v ===== *)
(** * Every run request is answered, on the wire

    What a session ([Session]) sends: the final frames its outbox accepted, told by what
    the host's router looks at, against the run requests it read. *)

From S2P Require Import Prelude Bytes Text F64 Types Reader Requests Frames StreamPayloads Errors Wire Outbox Link Session.

(** ** What the host makes of a frame *)

(** [peekRunCompletionRunId] of [packages/iso4-sandbox/src/ipc.ts]. *)
Definition peekRunCompletionRunId (buf : list byte) : option Z :=
  match buf with
  | b0 :: b1 :: b2 :: b3 :: _ =>
    Some (Z.lor (Z.lor (Z.lor (Z.shiftl (b2z b0) 24) (Z.shiftl (b2z b1) 16)) (Z.shiftl (b2z b2) 8)) (b2z b3) mod 2 ^ 32)
  | _ => None
  end.

(** The run a [Result] or [RunComplete] frame is routed to ([routeFrame] of
    [client.ts]). *)
Definition final_run (f : Frame) : option Z :=
  match Out.parse_rust_to_ts_message_type (message_type f) with
  | Ok Out.Result | Ok Out.RunComplete => peekRunCompletionRunId (payload f)
  | _ => None
  end.

Abbreviation typed := (Out.RustToTsMessageType * list byte)%type.
(** A frame the session's link accepted, as the outbox lays it on the wire and as the
    host reads it. *)
Definition on_wire (f : Out.RustToTsMessageType * list byte) : list byte := wire_bytes f.1 f.2 [].
Definition as_frame (f : Out.RustToTsMessageType * list byte) : Frame := mk_Frame (Out.as_u8 f.1) f.2.

(** ** The requests and the early results of a connection *)

Section Trace.
Context {Eng H : Type} `{EngineOps Eng H} `{Allocator}.
Local Abbreviation session := (session (Eng := Eng) (H := H)).

Definition sink (s : session) : Sink := outbox (s_conn s).
Definition new_frames (s s' : session) : list (Out.RustToTsMessageType * list byte) :=
  drop (length (accepted (sink s))) (accepted (sink s')).

Definition early_finals (ev : SessionEvent (Eng := Eng)) (fs : list (Out.RustToTsMessageType * list byte)) : list Z :=
  match ev with SMessage _ _ => omap (fun f => final_run (as_frame f)) fs | _ => [] end.

(** The run requests read, in order. *)
Definition requests (evs : list (SessionEvent (Eng := Eng))) : list Z :=
  omap (fun ev => match ev with SRead (Ok (t, payload)) => fst <$> run_request (Eng := Eng) (H := H) t payload | _ => None end) evs.

(** The final frames runs sent themselves along a run of the session. *)
Fixpoint early_results (s : session) (evs : list SessionEvent) : list Z :=
  match evs with
  | [] => []
  | ev :: evs =>
    match session_step s ev with
    | Some s' => early_finals ev (new_frames s s') ++ early_results s' evs
    | None => []
    end
  end.

(** The runs the final frames on the outbox name. *)
Definition finals (s : session) : list Z := omap (fun f => final_run (as_frame f)) (accepted (sink s)).
End Trace.

(** ** Run ids on the wire *)

Lemma lor_shift a b k : 0 <= k -> 0 <= b < 2 ^ k -> Z.lor (Z.shiftl a k) b = a * 2 ^ k + b.
Proof.
  intros Hk Hb. rewrite <- Z.shiftl_mul_pow2 by lia. symmetry. apply Z.add_nocarry_lor. apply Z.bits_inj'. intros n Hn.
  rewrite Z.land_spec, Z.bits_0. destruct (Z.lt_ge_cases n k) as [Hlt|Hge].
  - by rewrite Z.shiftl_spec_low.
  - rewrite <- (Z.mod_small b (2 ^ k)) by done. rewrite Z.mod_pow2_bits_high by lia. apply andb_false_r.
Qed.

Lemma peek_leading id rest : is_u32 id -> peekRunCompletionRunId (u32_be id ++ rest) = Some id.
Proof.
  intros Hid. pose proof (be_val_u32 id Hid) as Hv. pose proof (length_u32_be id) as Hl.
  destruct (u32_be id) as [|b0 [|b1 [|b2 [|b3 [|]]]]]; try discriminate. cbn [app peekRunCompletionRunId]. f_equal.
  pose proof (b2z_range b0). pose proof (b2z_range b1). pose proof (b2z_range b2). pose proof (b2z_range b3).
  unfold be_val in Hv. cbn in Hv.
  replace (Z.shiftl (b2z b1) 16) with (Z.shiftl (Z.shiftl (b2z b1) 8) 8) by (by rewrite Z.shiftl_shiftl).
  replace (Z.shiftl (b2z b0) 24) with (Z.shiftl (Z.shiftl (Z.shiftl (b2z b0) 8) 8) 8) by (by rewrite !Z.shiftl_shiftl).
  rewrite <- !Z.shiftl_lor, !lor_shift by lia. rewrite Z.mod_small by zsolve. lia.
Qed.

(** What a parser that succeeds gives. *)
Definition yields {A} (p : parser A) (P : A -> Prop) : Prop := forall r x r', p r = Ok (x, r') -> P x.

Lemma yields_ret {A} (a : A) (P : A -> Prop) : P a -> yields (mret a) P.
Proof. by intros Ha r x r' [= <- _]. Qed.

Lemma yields_bind {A B} (p : parser A) (f : A -> parser B) (P : A -> Prop) (Q : B -> Prop) :
  yields p P -> (forall a, P a -> yields (f a) Q) -> yields (a ← p; f a) Q.
Proof.
  intros Hp Hf r x r' Hr. cbn in Hr. unfold mbind, parser_bind in Hr. destruct (p r) as [[a r1]|e] eqn:He; [|done].
  by eapply (Hf a); [eapply Hp|].
Qed.

Lemma yields_any {A} (p : parser A) : yields p (fun _ => True).
Proof. by intros r x r' _. Qed.

Lemma yields_u32 : yields read_u32 is_u32.
Proof.
  intros r x r'. rewrite read_u32_eq. destruct (Nat.ltb_spec (remaining r) 4); [done|]. intros [= <- _].
  apply be_val_is_u32. unfold rest, remaining in *. rewrite length_take, length_drop. lia.
Qed.

Lemma run_request_u32 `{EngineOps Eng H} `{Allocator} t payload id start :
  run_request (Eng := Eng) (H := H) t payload = Some (id, start) -> is_u32 id.
Proof.
  assert (Hrun : forall req, parse_run_payload payload = Ok req -> is_u32 (rr_run_id req)).
  { intros req. unfold parse_run_payload, run_parser. match goal with |- fst <$> ?p ?r = _ -> _ => set (parse := p); set (rd := r) end.
    assert (Hy : yields parse (fun req => is_u32 (rr_run_id req))).
    { unfold parse. apply (yields_bind _ _ (fun req => is_u32 (rr_run_id req))); [|intros a Ha; eapply yields_bind; [apply yields_any|intros _ _; by apply yields_ret]].
      eapply yields_bind; [apply yields_u32|]. intros id' Hid. eapply yields_bind; [apply yields_any|]. intros [[[code filename] limits] globals] _.
      do 2 (eapply yields_bind; [apply yields_any|]; intros ? _). by apply yields_ret. }
    destruct (parse rd) as [[x r']|] eqn:Hp; [|done]. intros [= <-]. by eapply Hy. }
  assert (Hprefix : forall req, parse_prefix_run_payload payload = Ok req -> is_u32 (pr_run_id req)).
  { intros req. unfold parse_prefix_run_payload, run_parser. match goal with |- fst <$> ?p ?r = _ -> _ => set (parse := p); set (rd := r) end.
    assert (Hy : yields parse (fun req => is_u32 (pr_run_id req))).
    { unfold parse. apply (yields_bind _ _ (fun req => is_u32 (pr_run_id req))); [|intros a Ha; eapply yields_bind; [apply yields_any|intros _ _; by apply yields_ret]].
      eapply yields_bind; [apply yields_u32|]. intros id' Hid. do 5 (eapply yields_bind; [apply yields_any|]; intros ? _). by apply yields_ret. }
    destruct (parse rd) as [[x r']|] eqn:Hp; [|done]. intros [= <-]. by eapply Hy. }
  destruct t; cbn; try discriminate.
  - destruct (parse_run_payload payload) as [req|]; [|done]. intros [= <- _]. by apply Hrun.
  - destruct (parse_prefix_run_payload payload) as [req|]; [|done]. intros [= <- _]. by apply Hprefix.
Qed.

(** ** What a session sends *)

(** A frame the outbox takes. *)
Definition fits (f : typed) : Prop := zlen f.2 + 1 <= DEFAULT_MAX_FRAME_LENGTH.

(** The sink took these frames, and is as dead as before. *)
Definition grew (o o' : Sink) (fs : list typed) : Prop :=
  accepted o' = accepted o ++ fs /\ Forall fits fs /\ sink_dead o' = sink_dead o.

Lemma grew_nil o : grew o o [].
Proof. split; [by rewrite app_nil_r|]. split; [constructor|done]. Qed.

Lemma grew_app o1 o2 o3 fs gs : grew o1 o2 fs -> grew o2 o3 gs -> grew o1 o3 (fs ++ gs).
Proof. intros (A & B & C) (D & E & F). split; [by rewrite D, A, app_assoc|]. split; [by apply Forall_app|congruence]. Qed.

Lemma send_frame_grew o t head tail : exists fs, grew o (send_frame o t head tail).1 fs /\ Forall (fun f => f.1 = t) fs.
Proof.
  unfold send_frame. destruct (send_check head tail) as [n|e] eqn:Hc; [|exists []; by split; [apply grew_nil|]].
  destruct (sink_dead o) eqn:Hd; [exists []; by split; [apply grew_nil|]|]. exists [(t, head ++ tail)]. split; [|by repeat constructor].
  split; [done|]. split; [|done]. repeat constructor. unfold fits. cbn. apply send_check_fits in Hc as [_ ?]. rewrite length_app. lia.
Qed.

Lemma conn_send_grew slots o id msg : exists fs, grew o (conn_send slots o id msg).1 fs /\
  Forall (fun f => f.1 = (frame_of slots id msg).1.1) fs.
Proof.
  unfold conn_send. destruct (frame_of slots id msg) as [[t head] tail]. destruct (send_frame_grew o t head tail) as (fs & Hg & Ht).
  exists fs. destruct (send_frame o t head tail) as [o' r]. by split.
Qed.

Lemma send_completion_grew slots o id msg : exists fs, grew o (send_completion (S := Sink) (H := conn_link slots) o id msg) fs.
Proof.
  unfold send_completion. cbn [link_send conn_link]. destruct (conn_send_grew slots o id msg) as (fs & Hg & _).
  destruct (conn_send slots o id msg) as [o1 [u|[d|d]]]; cbn [fst] in Hg; [by exists fs| |by exists fs].
  destruct msg as [| | | | |c|r]; cbn [fst];
    match goal with |- context [conn_send _ o1 id ?m] => destruct (conn_send_grew slots o1 id m) as (gs & Hg' & _) end;
    exists (fs ++ gs); by eapply grew_app.
Qed.

Lemma completion_leads slots id c : exists rest, encode_run_completion_payload slots id c = u32_be id ++ rest.
Proof. unfold encode_run_completion_payload, encode_u32. eexists. reflexivity. Qed.

Lemma complete_leads id g : exists rest, encode_run_complete_payload id g = u32_be id ++ rest.
Proof. unfold encode_run_complete_payload, encode_u32. eexists. reflexivity. Qed.

(** The frame a completion becomes names its run, on a live outbox. *)
Lemma completion_names_run slots o id msg : sink_dead o = None -> is_Some (final_type msg) -> is_u32 id ->
  exists fs, grew o (send_completion (S := Sink) (H := conn_link slots) o id msg) fs /\ omap (fun f => final_run (as_frame f)) fs = [id].
Proof.
  intros Hl [t Ht] Hid. destruct (send_completion_grew slots o id msg) as (fs & Hg). exists fs. split; [done|].
  destruct (completion_always_delivered slots o id msg t Hl Ht) as (payload & Ha & _ & Hp). destruct Hg as (Hg & _). rewrite Ha in Hg.
  apply app_inv_head in Hg as <-. cbv zeta in Hp.
  assert (Hlead : exists rest, payload = u32_be id ++ rest).
  { destruct msg as [| | | | |c|r]; [discriminate Ht..| |]; (match type of Hp with if ?b then _ else _ => destruct b end).
    - rewrite Hp. apply completion_leads.
    - destruct Hp as [text ->]. apply completion_leads.
    - rewrite Hp. apply complete_leads.
    - rewrite Hp. apply complete_leads. }
  clear Hp Ha. destruct Hlead as [rest ->].
  assert (Hf : final_run (as_frame (t, u32_be id ++ rest)) = Some id).
  { unfold final_run, as_frame. cbn [message_type Frames.payload fst snd].
    destruct msg as [| | | | |c|r]; [discriminate Ht..| |]; injection Ht as <-; by apply peek_leading. }
  cbn [omap list_omap]. by rewrite Hf.
Qed.

Section Sends.
Context {Eng H : Type} `{EngineOps Eng H} `{!EngineOk Eng H} `{Allocator}.
Local Abbreviation conn := (Conn Eng H).

Lemma send_completion_sink (c : conn) id msg :
  send_completion (H := connection_link) c id msg =
  set_outbox c (send_completion (S := Sink) (H := conn_link (eng_slots (engine c))) (outbox c) id msg).
Proof.
  unfold send_completion. cbn [link_send connection_link conn_link].
  destruct (conn_send (eng_slots (engine c)) (outbox c) id msg) as [o [u|[d|d]]]; [done| |done].
  destruct msg; cbn [set_outbox engine outbox]; by destruct (conn_send _ o id _).
Qed.

Lemma refuse_grew (c : conn) id error : exists fs, grew (outbox c) (outbox (refuse c id error)) fs /\
  (sink_dead (outbox c) = None -> is_u32 id -> omap (fun f => final_run (as_frame f)) fs = [id]).
Proof.
  unfold refuse. rewrite send_completion_sink. cbn [set_outbox outbox].
  destruct (send_completion_grew (eng_slots (engine c)) (outbox c) id (OResult (Types.Failure (bare error)))) as (fs & Hg). exists fs. split; [done|].
  intros Hl Hid. destruct (completion_names_run (eng_slots (engine c)) (outbox c) id (OResult (Types.Failure (bare error))) Hl) as (gs & Hg' & Hgs); [by eexists|done|].
  destruct Hg as [Hg _], Hg' as [Hg' _]. rewrite Hg in Hg'. by apply app_inv_head in Hg' as ->.
Qed.

(** The final frames of an answer are its run's. *)
Definition answers (o o' : Sink) (g g' : Ledger (H := H)) : Prop :=
  exists fs ids, grew o o' fs /\ answered g' = answered g ++ ids /\
    (sink_dead o = None -> omap (fun f => final_run (as_frame f)) fs = ids).

Lemma answers_nothing o g : answers o o g g.
Proof. exists [], []. split; [apply grew_nil|]. by rewrite app_nil_r. Qed.

Lemma start_run_answers (c : conn) g cap id start t payload : run_request t payload = Some (id, start) ->
  answers (outbox c) (outbox (start_run c id cap start)) g (note_request c g t payload).
Proof.
  intros Hr. pose proof (run_request_u32 _ _ _ _ Hr) as Hid. unfold start_run, note_request. rewrite Hr. case_bool_decide as Hin.
  - destruct (refuse_grew c id (duplicate_error id)) as (fs & Hg & Hf). exists fs, [id]. split; [done|]. split; [done|]. intros Hl. by apply Hf.
  - destruct (start (engine c)) as [[e h] [error|]].
    + set (c' := set_runs _ _). assert (Ho : outbox c' = outbox c) by (unfold c'; by destruct h).
      destruct (refuse_grew c' id error) as (fs & Hg & Hf). rewrite Ho in Hg, Hf. exists fs, [id].
      split; [done|]. split; [by destruct h|]. intros Hl. by apply Hf.
    + exists [], []. split; [destruct h; apply grew_nil|]. split; [destruct h; by rewrite app_nil_r|done].
Qed.

(** A frame that is no completion. *)
Lemma plain_send_answers (o : Sink) g t head tail : t <> Out.Result -> t <> Out.RunComplete ->
  answers o (send_frame o t head tail).1 g g.
Proof.
  intros Ht1 Ht2. destruct (send_frame_grew o t head tail) as (fs & Hg & Ht). exists fs, []. split; [done|]. split; [by rewrite app_nil_r|].
  intros _. clear Hg. induction Ht as [|f fs Hf _ IH]; [done|]. cbn.
  assert (Hn : final_run (as_frame f) = None) by (unfold final_run, as_frame; cbn; rewrite Hf; by destruct t).
  by rewrite Hn.
Qed.

Lemma handle_frame_answers (c : conn) g t payload :
  answers (outbox c) (outbox (handle_frame c t payload).1) g (note_request c g t payload).
Proof.
  destruct (run_request t payload) as [[id start]|] eqn:Hreq.
  - pose proof (fun cap => start_run_answers c g cap id start t payload Hreq) as Hs.
    destruct t; try discriminate; cbn in Hreq; cbn [handle_frame].
    + destruct (parse_run_payload payload); [|done]. injection Hreq as <- <-. apply Hs.
    + destruct (parse_prefix_run_payload payload); [|done]. injection Hreq as <- <-. apply Hs.
  - assert (Hg : note_request c g t payload = g) by (unfold note_request; by rewrite Hreq). rewrite Hg.
    destruct t; cbn [handle_frame]; try apply answers_nothing.
    + cbn in Hreq. destruct (parse_run_payload payload); [done|apply answers_nothing].
    + destruct (parse_precompile_payload payload) as [p|]; [|apply answers_nothing].
      destruct (eng_prepare _ _ _ _ _) as [e prefix_id]. destruct (encode_precompile_result_payload _ _ _) as [result|]; [|apply answers_nothing].
      by apply plain_send_answers.
    + cbn in Hreq. destruct (parse_prefix_run_payload payload); [done|apply answers_nothing].
    + destruct (parse_dispose_prefix_payload payload); apply answers_nothing.
    + unfold route_run_frame. repeat (case_match; simplify_eq; try apply answers_nothing).
    + unfold route_terminate. repeat (case_match; simplify_eq; try apply answers_nothing).
    + pose proof (plain_send_answers (outbox c) g Out.StatsResult (encode_stats_payload (eng_stats (engine c))) [] ltac:(done) ltac:(done)) as Hp.
      by destruct (send_frame _ _ _ _).
    + unfold route_run_frame. repeat (case_match; simplify_eq; try apply answers_nothing).
    + unfold route_run_frame. repeat (case_match; simplify_eq; try apply answers_nothing).
    + unfold route_run_frame. repeat (case_match; simplify_eq; try apply answers_nothing).
    + unfold route_run_frame. repeat (case_match; simplify_eq; try apply answers_nothing).
Qed.

Lemma note_request_u32 (c : conn) g t payload : Forall is_u32 (requested g) -> Forall is_u32 (requested (note_request c g t payload)).
Proof.
  intros Hg. unfold note_request. destruct (run_request t payload) as [[id start]|] eqn:Hr; [|done].
  assert (Hid : Forall is_u32 (requested g ++ [id])).
  { apply Forall_app. split; [done|]. apply Forall_singleton. by eapply run_request_u32. }
  case_bool_decide; [done|]. by destruct (start (engine c)) as [[e [h|]] [error|]].
Qed.

Definition concludes (ev : SessionEvent (Eng := Eng)) : Prop := match ev with SConclude _ msg _ => is_Some (final_type msg) | _ => True end.

Lemma session_step_sends s ev s' : session_ok (H := H) s -> Forall is_u32 (requested (s_ledger s)) -> session_step s ev = Some s' -> concludes ev ->
  exists fs ids, accepted (sink s') = accepted (sink s) ++ fs /\ Forall fits fs /\
    sink_dead (sink s') = match ev with SOutboxDies reason => Some reason | _ => sink_dead (sink s) end /\
    answered (s_ledger s') = answered (s_ledger s) ++ ids /\
    (sink_dead (sink s) = None -> omap (fun f => final_run (as_frame f)) fs = ids ++ early_finals ev fs) /\
    Forall is_u32 (requested (s_ledger s')).
Proof.
  destruct s as [c is_open g]. intros Hok Hu Hs Hc. cbn in Hu. destruct ev as [read|id msg release|id msg|reason]; cbn in Hs.
  - destruct is_open; [|done]. destruct read as [[t payload]|e]; cbn in Hs.
    + destruct (handle_frame_answers c g t payload) as (fs & ids & (Ha & Hf & Hd) & Hans & Hfin).
      destruct (handle_frame c t payload) as [c' go_on]. injection Hs as <-. exists fs, ids. cbn in *.
      assert (Ho : outbox (if go_on then c' else fail_runs c') = outbox c') by (by destruct go_on). unfold sink. cbn. rewrite Ho, app_nil_r.
      split_and!; try done. by apply note_request_u32.
    + injection Hs as <-. exists [], []. unfold sink. cbn. rewrite !app_nil_r. split_and!; try done; constructor.
  - case_bool_decide as Hlive; [|done]. destruct Hlive as [h Hlive]. injection Hs as <-. unfold finish_run, sink. rewrite send_completion_sink. cbn.
    assert (Hid : is_u32 id).
    { destruct Hok as [Hp _ _]. cbn in Hp. rewrite Forall_forall in Hu. apply Hu. rewrite Hp. apply elem_of_app. right.
      apply list_elem_of_fmap. exists (id, h). split; [done|]. by apply elem_of_map_to_list. }
    set (slots := eng_slots _). destruct (send_completion_grew slots (outbox c) id msg) as (fs & (Ha & Hf & Hd)). exists fs, [id].
    split_and!; try done. intros Hl. destruct (completion_names_run slots (outbox c) id msg Hl Hc Hid) as (gs & (Ha' & _) & Hgs).
    rewrite Ha in Ha'. apply app_inv_head in Ha' as ->. by rewrite app_nil_r.
  - injection Hs as <-. unfold sink. cbn. destruct (conn_send_grew (eng_slots (engine c)) (outbox c) id msg) as (fs & (Ha & Hf & Hd) & _).
    destruct (conn_send _ _ _ _) as [o r]. exists fs, []. cbn in *. rewrite app_nil_r. by split_and!.
  - injection Hs as <-. exists [], []. unfold sink. cbn. rewrite !app_nil_r. split_and!; try done; constructor.
Qed.
End Sends.


(** ** Every run request is answered once *)

Section Answered.
Context {Eng H : Type} `{EngineOps Eng H} `{!EngineOk Eng H} `{Allocator}.
Local Abbreviation session := (session (Eng := Eng) (H := H)).

Lemma note_request_requested (c : Conn Eng H) g t payload :
  requested (note_request c g t payload) = requested g ++ match run_request t payload with Some (id, _) => [id] | None => [] end.
Proof using EngineOk0.
  unfold note_request. destruct (run_request t payload) as [[id start]|] eqn:Hr; [|by rewrite app_nil_r].
  case_bool_decide; [done|]. destruct (start (engine c)) as [[e h] [error|]] eqn:Hs; [by destruct h|].
  destruct (request_registers t payload id start _ _ _ Hr Hs) as [h' ->]. done.
Qed.

Lemma session_step_requested s ev s' : session_step s ev = Some s' ->
  requested (s_ledger s') = requested (s_ledger s) ++ requests (Eng := Eng) (H := H) [ev].
Proof using EngineOk0.
  destruct s as [c is_open g]. unfold requests. cbn [omap list_omap].
  destruct ev as [[[t payload]|e]|id msg release|id msg|reason]; cbn [session_step demux_step]; try (intros [= <-]; cbn; by rewrite app_nil_r).
  - destruct is_open; [|done]. destruct (handle_frame c t payload) as [c' go_on]. intros [= <-]. cbn [s_ledger].
    rewrite note_request_requested. by destruct (run_request t payload) as [[id start]|].
  - destruct is_open; [|done]. intros [= <-]. cbn. by rewrite app_nil_r.
  - case_bool_decide; [|done]. intros [= <-]. cbn. by rewrite app_nil_r.
Qed.

(** What is true after every event: [early] are the final frames runs sent themselves. *)
Record answered_ok (s : session) (early : list Z) : Prop := {
  an_session : session_ok s;
  an_u32 : Forall is_u32 (requested (s_ledger s));
  an_finals : sink_dead (sink s) = None -> finals s ≡ₚ answered (s_ledger s) ++ early;
}.

Lemma answered_step s ev s' early : answered_ok s early -> session_step s ev = Some s' -> concludes ev ->
  answered_ok s' (early ++ early_finals ev (new_frames s s')).
Proof using EngineOk0.
  intros [A B C] Hst Hc. destruct (session_step_sends s ev s' A B Hst Hc) as (fs & ids & Ha & Hf & Hd & Hans & Hfin & Hu).
  assert (Hnew : new_frames s s' = fs) by (unfold new_frames; by rewrite Ha, drop_app_len). rewrite Hnew.
  split; [by eapply session_step_ok|done|]. intros Hl.
  assert (Hl0 : sink_dead (sink s) = None) by (rewrite Hd in Hl; by destruct ev).
  unfold finals in *. rewrite Ha, omap_app, (C Hl0), (Hfin Hl0), Hans, <- !app_assoc. apply Permutation_app_head.
  rewrite !app_assoc. apply Permutation_app_tail. apply Permutation_app_comm.
Qed.

Lemma answered_run evs s s' early : answered_ok s early -> session_run s evs = Some s' -> Forall concludes evs ->
  answered_ok s' (early ++ early_results s evs) /\ requested (s_ledger s') = requested (s_ledger s) ++ requests (Eng := Eng) (H := H) evs.
Proof using EngineOk0.
  unfold session_run. revert s early. induction evs as [|ev evs IH]; intros s early Hs Hr Hc; cbn [early_results].
  { injection Hr as <-. unfold requests. cbn. rewrite !app_nil_r. done. }
  apply Forall_cons in Hc as [Hev Hc]. cbn [foldl] in Hr. change (Some s ≫= _) with (session_step s ev) in Hr.
  destruct (session_step s ev) as [s1|] eqn:Hst.
  - destruct (IH s1 _ (answered_step _ _ _ _ Hs Hst Hev) Hr Hc) as [Ho Hq]. rewrite app_assoc. split; [done|].
    rewrite Hq, (session_step_requested _ _ _ Hst), <- app_assoc. unfold requests. by rewrite <- omap_app.
  - exfalso. clear -Hr. induction evs as [|e evs IH]; cbn in Hr; [done|auto].
Qed.

(** C2. Every run request of a connection is answered exactly once on its outbox or is
    still running.  In every state reached from the handshake - the demux reads, runs
    conclude with a completion and send messages on threads of their own - on a live
    outbox the final frames it accepted, told apart by the run id they lead with, are
    one for one those of the [Run] and [PrefixRun] frames read that are not among the
    runs still going, besides the early results runs sent themselves.  While the
    connection is open its routing table is exactly the runs still going with the
    handles they were started with (a duplicate id never replaces a live route); once
    it has closed, whatever closed it, no route is left and every run still in flight
    has been told. *)
Theorem every_request_answered e evs s
    (Hrun : session_run (session_start e (mk_Sink [] None)) evs = Some s) (Hconcludes : Forall concludes evs) :
  let running := live (s_ledger s) in
  (sink_dead (sink s) = None ->
    finals s ++ (map_to_list running).*1 ≡ₚ
      requests (Eng := Eng) (H := H) evs ++ early_results (session_start (H := H) e (mk_Sink [] None)) evs) /\
  (s_open s = true -> handle <$> runs (s_conn s) = running) /\
  (s_open s = false -> runs (s_conn s) = ∅ /\
    forall id h, running !! id = Some h -> (h, IConnectionLost None) ∈ delivered (s_conn s)).
Proof using EngineOk0.
  destruct (answered_run evs (session_start e (mk_Sink [] None)) s []) as [[[A B C] _ F] Hq]; [|done|done|].
  { split; [|constructor|done]. split; cbn; [by rewrite map_to_list_empty|by intros _; rewrite fmap_empty|done]. }
  cbn [app] in F. cbn [session_start s_ledger requested app] in Hq. split; [|done]. intros Hl.
  rewrite (F Hl), <- Hq, A, <- !app_assoc. apply Permutation_app_head, Permutation_app_comm.
Qed.
End Answered.

(** ** Witness *)

#[local] Existing Instance SessionDemo.ops.
#[local] Existing Instance SessionDemo.ops_ok.
#[local] Existing Instance generous.

(** A run starts, a second one with the same id is refused, a credit frame reaches the
    first, and the peer goes away. *)
Lemma every_request_answered_witness :
  exists s, SessionDemo.run SessionDemo.events = Some s /\ s_open s = false /\
    finals s ++ [SessionDemo.id] ≡ₚ [SessionDemo.id; SessionDemo.id] /\
    (10, IConnectionLost None) ∈ delivered (s_conn s).
Proof.
  destruct (SessionDemo.run SessionDemo.events) as [s|] eqn:Hrun; [|vm_compute in Hrun; discriminate].
  destruct (every_request_answered 10 SessionDemo.events s Hrun) as (Hp & _ & Hc); [by repeat constructor|].
  assert (Hs : s_open s = false /\ sink_dead (sink s) = None /\ map_to_list (live (s_ledger s)) = [(SessionDemo.id, 10)] /\
    live (s_ledger s) !! SessionDemo.id = Some 10).
  { vm_compute in Hrun. injection Hrun as <-. vm_compute. auto. }
  destruct Hs as (Ho & Hd & Hm & Hl). specialize (Hp Hd). rewrite Hm in Hp.
  exists s. split; [reflexivity|]. split; [exact Ho|]. split; [|exact (proj2 (Hc Ho) _ _ Hl)].
  etrans; [exact Hp|]. vm_compute. reflexivity.
Defined.
