(* ===== verification/Connection.v ===== *)
(** * A connection from end to end

    The session ([Session]), its outbox with the writer thread ([Outbox]) and the host's
    frame reader ([Host]), joined by the socket: the frames the session's links accept
    are the frames the outbox takes, in the same order, and the bytes the writer puts on
    the socket are what the host's reader is fed, cut in any way.  The engine stays the
    interface of [Session]. *)

From S2P Require Import Prelude Bytes Text F64 Types Reader Requests Frames Host StreamPayloads Errors Wire Outbox Link Session Answers.

(** ** The joint system *)

(** The outbox takes these frames, with anything else it does in between. *)
Inductive enters : Outbox.system -> list (Out.RustToTsMessageType * list byte) -> Outbox.system -> Prop :=
  | enters_nil b : enters b [] b
  | enters_other b b1 fs b' :
      Outbox.step b b1 -> Outbox.accepted b1 = Outbox.accepted b -> enters b1 fs b' -> enters b fs b'
  | enters_frame b b1 f fs b' :
      Outbox.step b b1 -> Outbox.accepted b1 = Outbox.accepted b ++ [on_wire f] -> enters b1 fs b' -> enters b (f :: fs) b'.

Section Connection.
Context {Eng H : Type} `{EngineOps Eng H} `{!EngineOk Eng H} `{Allocator}.
Local Abbreviation session := (session (Eng := Eng) (H := H)).

(** [co_early]: the final frames runs sent themselves, before they concluded - the
    [Result] of a run that goes on in the background. *)
Record Connection := mk_Connection {
  co_session : session;
  co_outbox : Outbox.system;
  co_early : list Z;
}.

(** The session learns of a dead outbox only when it is dead, and a run concludes with
    a completion. *)
Definition event_ok (ev : SessionEvent (Eng := Eng)) (b : Outbox.system) : Prop :=
  match ev with
  | SOutboxDies _ => dead (Outbox.outbox b) <> None
  | SConclude _ msg _ => is_Some (final_type msg)
  | _ => True
  end.

Inductive connection_step : Connection -> Connection -> Prop :=
  | CSession s ev s' b b' early :
      session_step s ev = Some s' -> event_ok ev b -> enters b (new_frames s s') b' ->
      connection_step (mk_Connection s b early) (mk_Connection s' b' (early ++ early_finals ev (new_frames s s')))
  | COutbox s b b' early :
      Outbox.step b b' -> Outbox.accepted b' = Outbox.accepted b ->
      connection_step (mk_Connection s b early) (mk_Connection s b' early).

Definition connection_start (e : Eng) : Connection := mk_Connection (session_start e (mk_Sink [] None)) Outbox.start [].

Inductive connected (e : Eng) : Connection -> Prop :=
  | connected_start : connected e (connection_start e)
  | connected_step c c' : connected e c -> connection_step c c' -> connected e c'.
End Connection.


(** ** The invariant of a connection *)

Lemma dead_stays b b' : Outbox.step b b' -> dead (Outbox.outbox b) <> None -> dead (Outbox.outbox b') <> None.
Proof.
  assert (Hk : forall st r, dead st <> None -> dead (kill st r) <> None) by (intros st r; unfold kill; destruct (dead st) eqn:Ed; [by rewrite Ed|done]).
  intros Hs. destruct Hs as [st l sock acc t head tail n st' p Hc He|st l sock acc t head tail n st' Hc He|st l sock acc head tail st' e He|st l sock acc f st' _ He
    |st l1 l2 who p sock acc ev out p' He|st l1 l2 p sock acc ev out p' r He|st l1 l2 p sock acc|st l1 l2 p sock acc ev out p' r He Hr|st l1 l2 p sock acc ev out p' He|st l1 l2 p sock acc reason
    |st l sock acc|st l sock acc]; cbn; intros Hd; try done.
  - unfold send_enter in He. by destruct (dead st).
  - unfold send_enter in He. by destruct (dead st).
  - unfold send_timed_out in He. destruct (_ && _); [|done]. injection He as <- _. by apply Hk.
  - unfold writer_take in He. by destruct (dead st).
  - unfold inline_finish. destruct r as [[]|e]; cbn; [done|done|]. by apply Hk.
  - unfold writer_finish. destruct r; cbn; [done|]. by apply Hk.
  - by apply Hk.
Qed.

Lemma enters_spec b fs b' : enters b fs b' -> Outbox.reachable b ->
  Outbox.reachable b' /\ Outbox.accepted b' = Outbox.accepted b ++ map on_wire fs /\
  (dead (Outbox.outbox b) <> None -> dead (Outbox.outbox b') <> None).
Proof.
  induction 1 as [b|b b1 fs b' Hs Ha Hen IH|b b1 f fs b' Hs Ha Hen IH]; intros Hr; [by rewrite app_nil_r| |];
    destruct (IH (reach_step _ _ Hr Hs)) as (H1 & H2 & H3); (split; [done|]).
  - split; [by rewrite H2, Ha|]. intros Hd. by apply H3, (dead_stays b).
  - split; [by rewrite H2, Ha, <- app_assoc|]. intros Hd. by apply H3, (dead_stays b).
Qed.

Section Joint.
Context {Eng H : Type} `{EngineOps Eng H} `{!EngineOk Eng H} `{Allocator}.

Record connection_ok (c : Connection (Eng := Eng) (H := H)) : Prop := {
  ck_reach : Outbox.reachable (co_outbox c);
  ck_frames : Outbox.accepted (co_outbox c) = map on_wire (accepted (sink (co_session c)));
  ck_fits : Forall fits (accepted (sink (co_session c)));
  ck_dead : sink_dead (sink (co_session c)) <> None -> dead (Outbox.outbox (co_outbox c)) <> None;
  ck_session : session_ok (co_session c);
  ck_u32 : Forall is_u32 (requested (s_ledger (co_session c)));
  ck_finals : sink_dead (sink (co_session c)) = None ->
    omap (fun f => final_run (as_frame f)) (accepted (sink (co_session c))) ≡ₚ answered (s_ledger (co_session c)) ++ co_early c;
}.

Lemma connection_step_ok c c' : connection_ok c -> connection_step c c' -> connection_ok c'.
Proof using EngineOk0.
  intros [A B C D E F G] Hs. destruct Hs as [s ev s' b b' early Hst Hev Hen|s b b' early Hst Hacc]; cbn in *.
  - assert (Hc : concludes ev) by (by destruct ev).
    destruct (session_step_sends s ev s' E F Hst Hc) as (fs & ids & Ha & Hf & Hd & Hans & Hfin & Hu).
    assert (Hnew : new_frames s s' = fs) by (unfold new_frames; by rewrite Ha, drop_app_len). rewrite Hnew in *.
    destruct (enters_spec b fs b' Hen A) as (Hr & Hacc & Hdead). split; cbn.
    + done.
    + by rewrite Hacc, B, Ha, map_app.
    + rewrite Ha. by apply Forall_app.
    + rewrite Hd. intros Hs'. apply Hdead. destruct ev; [by apply D..|done].
    + by eapply session_step_ok.
    + done.
    + intros Hl. assert (Hl0 : sink_dead (sink s) = None) by (rewrite Hd in Hl; by destruct ev).
      rewrite Ha, omap_app, (G Hl0), (Hfin Hl0), Hans, <- !app_assoc. apply Permutation_app_head.
      rewrite !app_assoc. apply Permutation_app_tail. apply Permutation_app_comm.
  - split; cbn; try done; [by eapply reach_step|by rewrite Hacc|]. intros Hd. by apply (dead_stays b), D.
Qed.

Lemma connection_start_ok e : connection_ok (connection_start e).
Proof.
  split; cbn; try done. apply reach_start.
Qed.

Lemma connected_ok e c : connected e c -> connection_ok c.
Proof using EngineOk0. induction 1 as [|c c' _ IH Hs]; [apply connection_start_ok|by eapply connection_step_ok]. Qed.

Lemma on_wire_frame f : on_wire f = frame_bytes (as_frame f).
Proof.
  unfold on_wire, wire_bytes, frame_bytes, as_frame, envelope. cbn [message_type Frames.payload]. change (zlen (@nil byte)) with 0.
  by rewrite Z.add_0_r, app_nil_r, <- app_assoc.
Qed.

Lemma fits_frame f : fits f -> frame_fits DEFAULT_MAX_FRAME_LENGTH (as_frame f).
Proof.
  unfold fits, frame_fits, as_frame, DEFAULT_MAX_FRAME_LENGTH. cbn [message_type Frames.payload]. intros Hf. split; [destruct (f.1); cbn; zsolve|unfold u32_max in *; lia].
Qed.

Lemma finals_as_frames l : omap final_run (map as_frame l) = omap (fun f => final_run (as_frame f)) l.
Proof. induction l as [|f l IH]; [done|]. cbn. by rewrite IH. Qed.

(** C3. Every answer reaches the host, across the session, the outbox, the socket and
    the host's reader together.  At any time, whatever is interleaved and however the
    socket cuts the bytes, what the host's reads have given is a prefix of the frames
    the runtime accepted, behind its [Hello].  When the connection has ended in order -
    the writer is done, nothing failed - and the host has read to the end, it has them
    all: for every run request that was refused or concluded exactly one final frame
    that names it, besides the early results runs sent themselves, and every request
    is one of those or still running. *)
Theorem answers_reach_the_host e c hello ops
    (Hreach : connected e c) (Hhello : zlen hello + 1 <= DEFAULT_MAX_FRAME_LENGTH)
    (Hbytes : arrived ops `prefix_of` frame_bytes (as_frame (Out.Hello, hello)) ++ socket (co_outbox c)) :
  let '(r, n) := reader_run reader_new 0 ops in
  let g := s_ledger (co_session c) in
  let sent := map as_frame ((Out.Hello, hello) :: accepted (sink (co_session c))) in
  frames_read r `prefix_of` sent /\
  (dead (Outbox.outbox (co_outbox c)) = None -> writer_take (Outbox.outbox (co_outbox c)) = WriterReturn ->
   arrived ops = frame_bytes (as_frame (Out.Hello, hello)) ++ socket (co_outbox c) ->
   forallb (fun op => negb (is_close op)) ops = true -> (length sent <= n)%nat ->
   frames_read r = sent /\ omap final_run (frames_read r) ≡ₚ answered g ++ co_early c /\
   requested g ≡ₚ answered g ++ (map_to_list (live g)).*1).
Proof using EngineOk0.
  destruct (connected_ok e c Hreach) as [A B C D E F G].
  set (typed := (Out.Hello, hello) :: accepted (sink (co_session c))).
  assert (Hdec : decodes_to (concat (map on_wire typed)) (map as_frame typed)).
  { rewrite (map_ext on_wire (fun f => frame_bytes (as_frame f))) by apply on_wire_frame. rewrite <- (map_map as_frame frame_bytes).
    apply decodes_frames. apply Forall_map. constructor; [by apply fits_frame|]. eapply Forall_impl; [exact C|]. by intros f; apply fits_frame. }
  assert (Hall : concat (map on_wire typed) = frame_bytes (as_frame (Out.Hello, hello)) ++ concat (Outbox.accepted (co_outbox c))).
  { unfold typed. cbn [map concat]. by rewrite on_wire_frame, B. }
  pose proof (Hdec []) as Hfr. rewrite app_nil_r, Hall in Hfr. cbn in Hfr. rewrite app_nil_r in Hfr.
  destruct (reader_run reader_new 0 ops) as [r n] eqn:Hrun. pose proof (reads_prefix ops) as Hp. rewrite Hrun in Hp. cbn [fst] in Hp. split.
  - destruct Hbytes as [more1 Hm1]. destruct (socket_prefix _ A) as [more2 Hm2].
    etrans; [exact Hp|]. destruct (frames_of_more (arrived ops) (more1 ++ more2)) as [Hpre _].
    rewrite app_assoc, <- Hm1, <- app_assoc, <- Hm2, Hfr in Hpre. exact Hpre.
  - intros Hlive Hret Harr Hops Hn. rewrite (graceful_end_delivers_all _ A Hlive Hret) in Harr.
    pose proof (reads_take ops Hops) as Ht. rewrite Hrun, Harr, Hfr in Ht. cbn [fst snd] in Ht.
    rewrite (Ht eq_refl). change (map as_frame typed) with (as_frame (Out.Hello, hello) :: map as_frame (accepted (sink (co_session c)))) in *.
    rewrite take_ge by done. split; [done|]. split; [|apply E].
    assert (Hl : sink_dead (sink (co_session c)) = None).
    { destruct (sink_dead (sink (co_session c))) eqn:Hd; [|done]. by destruct D. }
    rewrite <- (G Hl), <- finals_as_frames. cbn [omap list_omap]. unfold final_run at 1. cbn. done.
Qed.
End Joint.

(** ** Witness *)

Module ConnectionDemo.
#[local] Existing Instance SessionDemo.ops.
#[local] Existing Instance SessionDemo.ops_ok.
#[local] Existing Instance generous.

(** A run starts and concludes; its result is written in one go, and the last handle
    of the outbox drops. *)
Definition step (s : session (Eng := Z) (H := Z)) ev : session (Eng := Z) (H := Z) := default s (session_step s ev).
Definition s0 : session (Eng := Z) (H := Z) := session_start 10 (mk_Sink [] None).
Definition s1 : session (Eng := Z) (H := Z) := step s0 (SessionDemo.read Run SessionDemo.run_frame).
Definition s2 : session (Eng := Z) (H := Z) := step s1 (SConclude SessionDemo.id (OResult sample_failure) (fun e => e)).
Definition frame : typed := default (Out.Log, []) (head (accepted (sink s2))).
Definition b1 : Outbox.system := mk_system (mk_OutboxState [] 0 None 1 true)
  [(Inline, progress_new (envelope (zlen frame.2 + 1) frame.1) frame.2 [])] [] [on_wire frame].
Definition b3 : Outbox.system := mk_system (mk_OutboxState [] 0 None 0 false) [] (on_wire frame) [on_wire frame].
Definition final : Connection (Eng := Z) (H := Z) := mk_Connection s2 b3 [].

(** The host asks before the bytes are there, and gets them in two pieces. *)
Definition hello : list byte := [x00].
Definition bytes : list byte := frame_bytes (as_frame (Out.Hello, hello)) ++ on_wire frame.
Definition ops : list ReaderOp := [OpRead; OpPush (take 7 bytes); OpPush (drop 7 bytes); OpRead].

Lemma final_connected : connected 10 final.
Proof.
  assert (H1 : connected 10 (mk_Connection s1 Outbox.start [])).
  { eapply connected_step; [apply connected_start|]. apply (CSession _ (SessionDemo.read Run SessionDemo.run_frame) s1 _ Outbox.start []);
      [vm_compute; reflexivity|exact I|apply enters_nil]. }
  assert (H2 : connected 10 (mk_Connection s2 b1 [])).
  { eapply connected_step; [exact H1|].
    apply (CSession s1 (SConclude SessionDemo.id (OResult sample_failure) (fun e => e)) s2 _ b1 []); [vm_compute; reflexivity|by eexists|].
    assert (Hf : new_frames s1 s2 = [frame]) by (vm_compute; reflexivity). rewrite Hf. apply (enters_frame _ b1); [|reflexivity|apply enters_nil].
    refine (StepInline spawn [] [] [] frame.1 frame.2 [] (zlen frame.2 + 1) _ _ _ _); vm_compute; reflexivity. }
  assert (H3 : connected 10 (mk_Connection s2 (mk_system (mk_OutboxState [] 0 None 1 false) [] (on_wire frame) [on_wire frame]) [])).
  { eapply connected_step; [exact H2|]. apply COutbox; [|reflexivity].
    refine (StepInlineEnd _ [] [] _ [] _ (Wrote (length (on_wire frame))) (on_wire frame) _ (Ok true) _); vm_compute; reflexivity. }
  eapply connected_step; [exact H3|]. apply COutbox; [|reflexivity]. exact (StepDrop _ _ _ _).
Qed.
End ConnectionDemo.

Lemma answers_reach_the_host_witness :
  frames_read (reader_run reader_new 0 ConnectionDemo.ops).1 = [as_frame (Out.Hello, ConnectionDemo.hello); as_frame ConnectionDemo.frame] /\
  omap final_run (frames_read (reader_run reader_new 0 ConnectionDemo.ops).1) ≡ₚ [SessionDemo.id].
Proof.
  pose proof (@answers_reach_the_host Z Z SessionDemo.ops SessionDemo.ops_ok generous 10 ConnectionDemo.final ConnectionDemo.hello ConnectionDemo.ops
    ConnectionDemo.final_connected) as Hw.
  assert (Hn : (reader_run reader_new 0 ConnectionDemo.ops).2 = 2%nat) by (vm_compute; reflexivity).
  destruct (reader_run reader_new 0 ConnectionDemo.ops) as [r n]. cbn [fst snd] in *. subst n.
  assert (Harr : arrived ConnectionDemo.ops = frame_bytes (as_frame (Out.Hello, ConnectionDemo.hello)) ++ socket (co_outbox ConnectionDemo.final))
    by (vm_compute; reflexivity).
  destruct Hw as [_ Hw]; [vm_compute; discriminate|rewrite Harr; reflexivity|].
  assert (Hsent : map as_frame ((Out.Hello, ConnectionDemo.hello) :: accepted (sink (co_session ConnectionDemo.final))) =
    [as_frame (Out.Hello, ConnectionDemo.hello); as_frame ConnectionDemo.frame]) by (vm_compute; reflexivity).
  rewrite Hsent in Hw. destruct Hw as (H1 & H2 & _); [reflexivity|reflexivity|exact Harr|reflexivity|cbn; lia|].
  split; [exact H1|]. rewrite H2. vm_compute. reflexivity.
Defined.
