(* ===== verification/Engine.v ===== *)
(** * The engine ([crates/core/src/engine.rs])

    The prefix store and the warm registry behind the five operations a frontend
    calls.  Each critical section of the source is one function here; a prefix
    run is a lookup and an acquisition with anything in between, and its release
    hook marks the prefix and then releases.  What an operation reads from the
    outside (clock, usage, thread loads, the outcome of spawning a thread) is an
    [Env]. *)

From stdpp Require Import gmultiset.
From S2P Require Import Prelude Bytes Text F64 Types Errors Wire Link Session Policy Warm WarmLedger Prefix.

(** ** Refusals *)

Inductive Refusal :=
  | RCapacity (refusal : string)
  | RPrefixDisposed (prefix_id : string)
  | RPrefixBroken (prefix_id : string) (cause : RunErrorPayload)
  | RBinding (error : RunError)
  | RInternal (detail : string).

Definition plain_refusal (code message : string) (cause : option RunErrorPayload) : RunErrorPayload :=
  mk_RunErrorPayload code "Error" message None None None false cause.

Definition refusal_payload (r : Refusal) : RunErrorPayload :=
  match r with
  | RCapacity refusal => to_payload (Capacity refusal)
  | RInternal detail => to_payload (Internal detail)
  | RBinding error => to_payload error
  | RPrefixDisposed prefix_id =>
    plain_refusal "ERR_PREFIX_DISPOSED" ("prefix '" +:+ prefix_id +:+ "' has been disposed or never existed") None
  | RPrefixBroken prefix_id cause =>
    plain_refusal "ERR_PREFIX_BROKEN" ("prefix '" +:+ prefix_id +:+ "' is broken: its cold start failed with "
      +:+ ep_code cause +:+ ": " +:+ ep_message cause) (Some cause)
  end.

(** ** State *)

Record Env := mk_Env {
  en_usage : option Z;
  en_now : Z;
  en_now_shed : Z;
  en_util : Z -> Z;
  en_instance : io InstanceHandle;
  en_thread : io unit;
}.

(** [next_token] is the counter behind [alloc_run_token]. *)
Record Engine := mk_Engine {
  store : gmap string StoredPrefix;
  next_prefix_id : Z;
  warm : RegistryInner;
  next_token : Z;
}.

Definition engine_new (slots : Z) : Engine := mk_Engine ∅ 0 (registry_new slots) 1.

Definition set_store (e : Engine) s := mk_Engine s (next_prefix_id e) (warm e) (next_token e).
Definition set_warm (e : Engine) w := mk_Engine (store e) (next_prefix_id e) w (next_token e).

(** [alloc_run_token] *)
Definition alloc_token (e : Engine) : Engine * Z :=
  (mk_Engine (store e) (next_prefix_id e) (warm e) (next_token e + 1), next_token e).

(** What a run took from the registry. *)
Inductive Taken := Pooled (prefix_id : string) (instance_id : Z) | TakenCold (prefix_id : string) | Oneoff.

Definition outcome_times (o : CallOutcome) : f64 * f64 :=
  match co_result o with
  | Ok output => (o_wall_time_ms output, o_cpu_time_ms output)
  | Err failure => (fo_wall_time_ms failure, fo_cpu_time_ms failure)
  end.

(** ** Operations *)

Definition prepare (e : Engine) (code : string) (filename : option string)
    (globals : list HostGlobalDef) (imports : list ImportBinding) : Engine * string :=
  let id := next_prefix_id e in
  let prefix_id := show id in
  let declared_globals := omap bridge_stub_name globals in
  (mk_Engine (<[prefix_id := Ready (mk_PrefixData id code filename globals declared_globals imports)]> (store e))
     (wrap_add u64_max id 1) (warm e) (next_token e), prefix_id).

Definition engine_dispose (e : Engine) (prefix_id : string) : Engine :=
  mk_Engine (delete prefix_id (store e)) (next_prefix_id e) (dispose_prefix (warm e) prefix_id) (next_token e).

Definition mb_bytes (mb : Z) : Z := mb * 1024 * 1024.

Section Engine.
Context `{HO : HashOrder} `{VP : VictimPicker}.
Context (powf : f64 -> f64 -> f64) (cores budget line reserve : Z).

(** A one-off run: the reservation, and the worker thread. *)
Definition run_oneoff (e : Engine) (env : Env) (req : RunRequest) : Engine * option Z * option Refusal :=
  let run_cap_bytes := mb_bytes (hard_memory_mb (rr_limits req)) in
  match reserve_oneoff budget line reserve (warm e) run_cap_bytes (en_usage env) (en_now_shed env) with
  | (Err refusal, w) => (set_warm e w, None, Some (RCapacity refusal))
  | (Ok _, w) =>
    let '(e, token) := alloc_token (set_warm e w) in
    match en_thread env with
    | Ok _ => (e, Some token, None)
    | Err err =>
      (set_warm e (release_oneoff powf cores budget (warm e) true f64_zero f64_zero
         (en_usage env) (en_now env) (en_now_shed env)),
       Some token, Some (RInternal ("failed to spawn run worker: " +:+ detail err)))
    end
  end.

Definition finish_oneoff (e : Engine) (env : Env) (failed : bool) (wall cpu : f64) : Engine :=
  set_warm e (release_oneoff powf cores budget (warm e) failed wall cpu (en_usage env) (en_now env) (en_now_shed env)).

(** The first half of a prefix run: the stored prefix and the rebind checks. *)
Definition prefix_lookup (e : Engine) (req : PrefixRunRequest) : result Refusal PrefixData :=
  match store e !! pr_prefix_id req with
  | None => Err (RPrefixDisposed (pr_prefix_id req))
  | Some (Broken cause) => Err (RPrefixBroken (pr_prefix_id req) cause)
  | Some (Ready data) =>
    match validate_global_rebinds (pr_globals req) (pd_declared_globals data) (pd_globals data) with
    | Err error => Err (RBinding error)
    | Ok _ =>
      match validate_import_rebinds (pr_import_rebinds req) (pd_declared_imports data) with
      | Err error => Err (RBinding error)
      | Ok _ => Ok data
      end
    end
  end.

Definition caps_of (limits : ResourceLimits) : HeapCaps :=
  mk_HeapCaps (mb_bytes (soft_memory_mb limits)) (mb_bytes (hard_memory_mb limits)).

(** The second half: a token and an instance; [None] is a panic. *)
Definition prefix_acquire (e : Engine) (env : Env) (req : PrefixRunRequest)
    : option (Engine * result Refusal (Z * Taken)) :=
  let '(e, token) := alloc_token e in
  '(a, w) ← acquire cores budget line reserve (warm e) (pr_prefix_id req) (caps_of (pr_limits req))
    (en_usage env) (en_now env) (en_now_shed env) (en_util env) (en_instance env);
  Some (set_warm e w,
    match a with
    | Attached id => Ok (token, Pooled (pr_prefix_id req) id)
    | Cold _ => Ok (token, TakenCold (pr_prefix_id req))
    | Refused refusal => Err (RCapacity refusal)
    | SpawnFailed err => Err (RInternal ("failed to spawn instance thread: " +:+ detail err))
    end).

(** The cause a broken prefix keeps: clamped, without the fields blob. *)
Definition broken_cause (error : RunError) : RunErrorPayload :=
  let raw := to_payload error in
  mk_RunErrorPayload (ep_code raw) (ep_name raw) (clamp_error_text (ep_message raw))
    (clamp_error_text <$> ep_stack raw) None (ep_reset raw) (ep_prefix_stage raw) (ep_cause raw).

(** The release hook's first critical section: a deterministic cold-start
    failure marks a ready prefix broken and drops its instances. *)
Definition mark_broken (e : Engine) (prefix_id : string) (outcome : CallOutcome) : Engine :=
  if co_prefix_failed outcome then
    match co_result outcome with
    | Err failure =>
      match store e !! prefix_id with
      | Some (Ready _) =>
        mk_Engine (<[prefix_id := Broken (broken_cause (fo_error failure))]> (store e)) (next_prefix_id e)
          (dispose_prefix (warm e) prefix_id) (next_token e)
      | _ => e
      end
    | Ok _ => e
    end
  else e.

Definition is_ready (e : Engine) (prefix_id : string) : bool :=
  match store e !! prefix_id with Some (Ready _) => true | _ => false end.

(** Its second one: what was taken goes back. *)
Definition give_back (e : Engine) (env : Env) (taken : Taken) (outcome : CallOutcome) : Engine :=
  let '(wall, cpu) := outcome_times outcome in
  match taken with
  | Pooled prefix_id id =>
    set_warm e (release powf cores budget (warm e) prefix_id id (co_tainted outcome) (co_heap_used_bytes outcome)
      wall cpu (is_ready e prefix_id) (en_usage env) (en_now env) (en_now env) (en_now_shed env))
  | TakenCold _ =>
    set_warm e (release_oneoff powf cores budget (warm e) (co_tainted outcome) wall cpu
      (en_usage env) (en_now env) (en_now_shed env))
  | Oneoff => e
  end.

(** ** The engine behind a session

    The [n]-th start reads the environment [env n]. *)
Context (env : Z -> Env).

Definition start_prefix_run (e : Engine) (req : PrefixRunRequest) : Engine * option Z * option RunErrorPayload :=
  match prefix_lookup e req with
  | Err refusal => (e, None, Some (refusal_payload refusal))
  | Ok _ =>
    match prefix_acquire e (env (next_token e)) req with
    | Some (e, Ok (token, _)) => (e, Some token, None)
    | Some (e, Err refusal) => (e, None, Some (refusal_payload refusal))
    | None => (e, None, Some (to_payload (Internal "index out of bounds")))
    end
  end.

Definition start_oneoff (e : Engine) (req : RunRequest) : Engine * option Z * option RunErrorPayload :=
  let '(e, token, refusal) := run_oneoff e (env (next_token e)) req in (e, token, refusal_payload <$> refusal).

#[export] Instance engine_ops (rss usage : Z) : EngineOps Engine Z := {
  eng_prepare := prepare;
  eng_dispose := engine_dispose;
  eng_stats := fun e => stats budget line (warm e) rss usage;
  eng_run := start_oneoff;
  eng_prefix_run := start_prefix_run;
  eng_slots := fun e => slot_allowance (warm e);
}.

(** The engine keeps the session's contract: what it does not refuse, it has
    registered. *)
#[export] Instance engine_ok rss usage : @EngineOk Engine Z (engine_ops rss usage).
Proof.
  split; intros e req e' h; cbn.
  - unfold start_oneoff, run_oneoff. destruct (reserve_oneoff _ _ _ _ _ _ _) as [[[]|m] w]; cbn; [|done].
    destruct (en_thread _); cbn; [|done]. intros [= _ <-]. by eexists.
  - unfold start_prefix_run. destruct (prefix_lookup e req); [|done].
    destruct (prefix_acquire _ _ _) as [[e1 [[token t]|r]]|]; [|done|done]. intros [= _ <-]. by eexists.
Qed.
End Engine.

(** ** What the started runs hold *)

Definition pooled (t : Taken) : option (string * Z) := match t with Pooled p id => Some (p, id) | _ => None end.
Definition unpooled (t : Taken) : Z := match t with Pooled _ _ => 0 | _ => 1 end.

Definition held_of (m : gmap Z Taken) : Held :=
  mk_Held (list_to_set_disj (omap pooled (map_to_list m).*2)) (sum_by unpooled (map_to_list m).*2).

(** One more, one less. *)
Definition held_take (t : Taken) (h : Held) : Held :=
  match t with Pooled p id => attach p id h | _ => mk_Held (attached h) (oneoffs h + 1) end.
Definition held_give (t : Taken) (h : Held) : Held :=
  match t with Pooled p id => detach p id h | _ => mk_Held (attached h) (oneoffs h - 1) end.

Lemma held_insert m n t : m !! n = None -> held_of (<[n := t]> m) = held_take t (held_of m).
Proof.
  intros Hm. unfold held_of. pose proof (map_to_list_insert m n t Hm) as Hp.
  apply (fmap_Permutation snd) in Hp. cbn in Hp.
  rewrite (sum_by_perm unpooled _ _ Hp), (list_to_set_disj_perm _ _ (omap_Permutation pooled _ _ Hp)).
  destruct t; cbn [omap list_omap pooled sum_by unpooled held_take]; unfold attach; cbn [attached oneoffs]; f_equal; try lia.
  rewrite list_to_set_disj_cons. apply gmultiset_disj_union_comm.
Qed.

Lemma held_give_take t h : held_give t (held_take t h) = h.
Proof. destruct h, t; cbn; unfold detach, attach; cbn; f_equal; [multiset_solver | lia | lia]. Qed.

Lemma held_delete m n t : m !! n = Some t -> held_of (delete n m) = held_give t (held_of m).
Proof.
  intros Hm. rewrite <- (insert_delete_id m n t Hm) at 2. rewrite held_insert by apply lookup_delete_eq.
  by rewrite held_give_take.
Qed.

Lemma held_pooled m n p id : m !! n = Some (Pooled p id) -> 0 < runs (held_of m) p id.
Proof.
  intros Hm. rewrite <- (insert_delete_id m n _ Hm), held_insert by apply lookup_delete_eq. cbn.
  rewrite runs_attach. unfold runs. lia.
Qed.

Lemma held_unpooled m n t : m !! n = Some t -> unpooled t = 1 -> 0 < oneoffs (held_of m).
Proof.
  intros Hm Ht. rewrite <- (insert_delete_id m n _ Hm), held_insert by apply lookup_delete_eq.
  assert (Hnn : 0 <= oneoffs (held_of (delete n m))) by (apply sum_by_nonneg; intros []; cbn; lia).
  destruct t; cbn in *; lia.
Qed.

Arguments held_of : simpl never.

(** ** Traces of the engine *)

(** The engine with the prefix runs that passed the lookup and have not acquired
    yet, and what each started run took, by token. *)
Record Sys := mk_Sys { eng : Engine; pending : list PrefixRunRequest; started : gmap Z Taken }.

Inductive EngineEvent :=
  | EvPrepare (code : string) (filename : option string) (globals : list HostGlobalDef) (imports : list ImportBinding)
  | EvDispose (prefix_id : string)
  | EvRun (env : Env) (req : RunRequest)
  | EvFinishRun (env : Env) (token : Z) (failed : bool) (wall cpu : f64)
  | EvLookup (req : PrefixRunRequest)
  | EvAcquire (env : Env) (index : nat)
  | EvMark (token : Z) (outcome : CallOutcome)
  | EvGiveBack (env : Env) (token : Z) (outcome : CallOutcome).

Definition taken_prefix (t : Taken) : option string :=
  match t with Pooled p _ | TakenCold p => Some p | Oneoff => None end.

Section EngineTraces.
Context `{HO : HashOrder} `{HOk : !HashOrderOk} `{VP : VictimPicker} `{VPOk : !VictimPickerOk}.
Context (powf : f64 -> f64 -> f64) (cores budget line reserve : Z).

(** [None]: the event cannot happen (no such pending or started run), or a
    panic. *)
Definition engine_step (s : Sys) (ev : EngineEvent) : option Sys :=
  let '(mk_Sys e pend m) := s in
  match ev with
  | EvPrepare code filename globals imports => Some (mk_Sys (prepare e code filename globals imports).1 pend m)
  | EvDispose p => Some (mk_Sys (engine_dispose e p) pend m)
  | EvRun env req =>
    match run_oneoff powf cores budget line reserve e env req with
    | (e, Some token, None) => Some (mk_Sys e pend (<[token := Oneoff]> m))
    | (e, _, _) => Some (mk_Sys e pend m)
    end
  | EvFinishRun env token failed wall cpu =>
    match m !! token with
    | Some Oneoff => Some (mk_Sys (finish_oneoff powf cores budget e env failed wall cpu) pend (delete token m))
    | _ => None
    end
  | EvLookup req =>
    match prefix_lookup e req with
    | Ok _ => Some (mk_Sys e (pend ++ [req]) m)
    | Err _ => Some s
    end
  | EvAcquire env k =>
    req ← pend !! k;
    '(e, r) ← prefix_acquire cores budget line reserve e env req;
    match r with
    | Ok (token, taken) => Some (mk_Sys e (delete k pend) (<[token := taken]> m))
    | Err _ => Some (mk_Sys e (delete k pend) m)
    end
  | EvMark token outcome =>
    t ← m !! token;
    p ← taken_prefix t;
    Some (mk_Sys (mark_broken e p outcome) pend m)
  | EvGiveBack env token outcome =>
    t ← m !! token;
    _ ← taken_prefix t;
    Some (mk_Sys (give_back powf cores budget e env t outcome) pend (delete token m))
  end.

Definition engine_run (s : Sys) (evs : list EngineEvent) : option Sys :=
  foldl (fun s ev => s ≫= fun s => engine_step s ev) (Some s) evs.

Definition engine_start (slots : Z) : Sys := mk_Sys (engine_new slots) [] ∅.

(** No idle instance outlives its prefix. *)
Definition idle_only_ready (e : Engine) : Prop :=
  forall p i, i ∈ ents (prefixes (warm e)) p -> is_idle i = true -> is_ready e p = true.

Record sys_ok (s : Sys) : Prop := {
  sk_ledger : ledger_ok (held_of (started s)) (warm (eng s));
  sk_tokens : forall t, is_Some (started s !! t) -> t < next_token (eng s);
  sk_idle : idle_only_ready (eng s);
}.

Lemma idle_serves e e' :
  idle_only_ready e -> serves (warm e) (warm e') -> (forall p, is_ready e p = true -> is_ready e' p = true) ->
  idle_only_ready e'.
Proof. intros Hi [_ Hn] Hr p i Hin Hidle. apply Hr, (Hi p i); [by apply Hn | done]. Qed.

(** Dropping every instance of one prefix, and whatever else keeps the rest
    ready. *)
Lemma idle_dispose h e p st :
  ledger_ok h (warm e) -> idle_only_ready e ->
  (forall q, q <> p -> is_ready e q = true -> match st !! q with Some (Ready _) => true | _ => false end = true) ->
  let e' := mk_Engine st (next_prefix_id e) (dispose_prefix (warm e) p) (next_token e) in
  ledger_ok h (warm e') /\ idle_only_ready e'.
Proof.
  intros Hl Hi Hst. destruct (dispose_prefix_ok h (warm e) p Hl) as (Hl' & [_ Hn] & Hd & _). split; [done|].
  intros q i Hin Hidle. cbn in Hin. unfold is_ready. cbn. destruct (decide (q = p)) as [->|Hq].
  - apply Hd in Hin as [Hdead _]. unfold is_idle in Hidle. by rewrite Hdead, andb_false_r in Hidle.
  - apply Hst; [done|]. apply (Hi q i); [by apply Hn | done].
Qed.

Lemma run_oneoff_ok s env req s' :
  sys_ok s -> engine_step s (EvRun env req) = Some s' -> sys_ok s'.
Proof using HOk.
  destruct s as [e pend m]. intros [Hl Ht Hi] Hs. cbn in Hl, Ht, Hi, Hs. unfold run_oneoff in Hs.
  pose proof (reserve_oneoff_ok budget line reserve _ (warm e) (mb_bytes (hard_memory_mb (rr_limits req)))
    (en_usage env) (en_now_shed env) Hl) as Hres.
  destruct (reserve_oneoff _ _ _ _ _ _ _) as [[[]|msg] w]; destruct Hres as [Hl' Hsv]; cbn in Hl', Hs.
  - assert (Hnone : m !! next_token e = None).
    { destruct (m !! next_token e) eqn:Hm; [|done]. pose proof (Ht (next_token e) ltac:(by eexists)). lia. }
    destruct (en_thread env); injection Hs as <-.
    + split; cbn.
      * by rewrite held_insert.
      * intros t [?|[_ ?]]%lookup_insert_is_Some; [lia|]. pose proof (Ht t ltac:(done)). lia.
      * by eapply (idle_serves e).
    + pose proof (release_oneoff_ok powf cores budget _ w true f64_zero f64_zero (en_usage env) (en_now env) (en_now_shed env)
        Hl' ltac:(pose proof (lo_nonneg _ _ Hl); cbn [oneoffs is_ok]; lia)) as [Hl2 Hsv2]. cbn [oneoffs attached is_ok] in Hl2. split; cbn -[held_of].
      * replace (oneoffs (held_of m) + 1 - 1) with (oneoffs (held_of m)) in Hl2 by lia. by destruct (held_of m).
      * intros t Hm. pose proof (Ht t Hm). lia.
      * eapply (idle_serves e); [done | by etrans | done].
  - injection Hs as <-. split; cbn; [|done|by eapply (idle_serves e)].
    rewrite Z.add_0_r in Hl'. by destruct (held_of m).
Qed.

Lemma acquire_step_ok s env k s' :
  sys_ok s -> engine_step s (EvAcquire env k) = Some s' -> sys_ok s'.
Proof using HOk.
  destruct s as [e pend m]. intros [Hl Ht Hi] Hs. cbn in Hl, Ht, Hi, Hs.
  destruct (pend !! k) as [req|]; cbn in Hs; [|done]. unfold prefix_acquire in Hs. cbn in Hs.
  destruct (acquire_ok cores budget line reserve _ (warm e) (pr_prefix_id req) (caps_of (pr_limits req))
    (en_usage env) (en_now env) (en_now_shed env) (en_util env) (en_instance env) Hl) as (a & w & Ha & Hl' & Hsv & _).
  rewrite Ha in Hs. cbn in Hs.
  assert (Hnone : m !! next_token e = None).
  { destruct (m !! next_token e) eqn:Hm; [|done]. pose proof (Ht (next_token e) ltac:(by eexists)). lia. }
  assert (Hold : forall t, is_Some (m !! t) -> t < next_token e + 1) by (intros t Hm; pose proof (Ht t Hm); lia).
  assert (Hnew : forall t tk, is_Some (<[next_token e := tk]> m !! t) -> t < next_token e + 1).
  { intros t tk [?|[_ ?]]%lookup_insert_is_Some; [lia|auto]. }
  destruct a; injection Hs as <-; (split; cbn; [| eauto | by eapply (idle_serves e)]);
    rewrite ?held_insert by done; exact Hl'.
Qed.

Lemma give_back_ok s env token outcome s' :
  sys_ok s -> engine_step s (EvGiveBack env token outcome) = Some s' -> sys_ok s'.
Proof using HOk.
  destruct s as [e pend m]. intros [Hl Ht Hi] Hs. cbn in Hl, Ht, Hi, Hs.
  destruct (m !! token) as [t|] eqn:Hm; cbn in Hs; [|done].
  assert (Htok : forall k, is_Some (delete token m !! k) -> k < next_token e).
  { intros k [? [_ Hk]%lookup_delete_Some]. apply Ht. by eexists. }
  unfold give_back in Hs. destruct (outcome_times outcome) as [wall cpu].
  destruct t as [p id|p|]; cbn in Hs; [| |done]; injection Hs as <-.
  - destruct (release_ok powf cores budget _ (warm e) p id (co_tainted outcome) (co_heap_used_bytes outcome) wall cpu
      (is_ready e p) (en_usage env) (en_now env) (en_now env) (en_now_shed env) Hl (held_pooled m token p id Hm)) as [A B C D].
    split; cbn; [by rewrite (held_delete m token _ Hm) | done |].
    intros q i Hin Hidle. destruct (D q i Hin Hidle) as [Hin'|[-> Halive]]; [by apply (Hi q i) | done].
  - destruct (release_oneoff_ok powf cores budget _ (warm e) (co_tainted outcome) wall cpu (en_usage env) (en_now env)
      (en_now_shed env) Hl (held_unpooled m token _ Hm eq_refl)) as [A B].
    split; cbn; [by rewrite (held_delete m token _ Hm) | done | by eapply (idle_serves e)].
Qed.

Lemma engine_step_ok s ev s' : sys_ok s -> engine_step s ev = Some s' -> sys_ok s'.
Proof using HOk.
  destruct ev as [code filename globals imports|p|env req|env token failed wall cpu|req|env k|token outcome|env token outcome];
    [| | by apply run_oneoff_ok | | | by apply acquire_step_ok | | by apply give_back_ok];
    destruct s as [e pend m]; intros [Hl Ht Hi] Hs; cbn in Hl, Ht, Hi, Hs.
  - injection Hs as <-. split; cbn; [done|done|]. eapply (idle_serves e); [done|reflexivity|].
    intros q. unfold is_ready. cbn. destruct (decide (q = show (next_prefix_id e))) as [->|Hq].
    + by rewrite lookup_insert_eq.
    + by rewrite lookup_insert_ne.
  - injection Hs as <-. destruct (idle_dispose _ e p (delete p (store e)) Hl Hi) as [Hl' Hi'].
    { intros q Hq. unfold is_ready. by rewrite lookup_delete_ne. }
    by split.
  - destruct (m !! token) as [[]|] eqn:Hm; try done. injection Hs as <-.
    destruct (release_oneoff_ok powf cores budget _ (warm e) failed wall cpu (en_usage env) (en_now env)
      (en_now_shed env) Hl (held_unpooled m token _ Hm eq_refl)) as [A B].
    split; cbn; [by rewrite (held_delete m token _ Hm) | | by eapply (idle_serves e)].
    intros k [? [_ Hk]%lookup_delete_Some]. apply Ht. by eexists.
  - destruct (prefix_lookup e req); injection Hs as <-; by split.
  - destruct (m !! token) as [t|]; cbn in Hs; [|done]. destruct (taken_prefix t) as [p|]; cbn in Hs; [|done].
    injection Hs as <-. unfold mark_broken.
    destruct (co_prefix_failed outcome); [|by split]. destruct (co_result outcome) as [?|f]; [by split|].
    destruct (store e !! p) as [[data|c]|] eqn:Hst; [|by split|by split].
    destruct (idle_dispose _ e p (<[p := Broken (broken_cause (fo_error f))]> (store e)) Hl Hi) as [Hl' Hi'].
    { intros q Hq. unfold is_ready. by rewrite lookup_insert_ne. }
    by split.
Qed.

Lemma engine_run_ok evs s s' : sys_ok s -> engine_run s evs = Some s' -> sys_ok s'.
Proof using HOk.
  unfold engine_run. revert s. induction evs as [|ev evs IH]; intros s Hs Hr; cbn in Hr; [by injection Hr as <-|].
  destruct (engine_step s ev) as [s1|] eqn:Hst.
  - apply (IH s1); [|done]. by eapply engine_step_ok.
  - exfalso. clear -Hr. induction evs as [|e evs IH]; cbn in Hr; [done|auto].
Qed.

Lemma engine_start_ok slots : sys_ok (engine_start slots).
Proof.
  assert (Hzero : forall p id, runs (held_of ∅) p id = 0).
  { intros p id. unfold runs, held_of. cbn. rewrite map_to_list_empty. cbn. by rewrite multiplicity_empty. }
  assert (Hone : oneoffs (held_of ∅) = 0) by (unfold held_of; by rewrite map_to_list_empty).
  split; cbn.
  - split; cbn; [by rewrite Hone | lia | by rewrite pool_empty | by rewrite pool_empty |].
    intros p. split_and!; cbn; [constructor | intros i Hi; by apply not_elem_of_nil in Hi |].
    intros id. rewrite Hzero. lia.
  - intros t [? Hl]. by rewrite lookup_empty in Hl.
  - intros p i Hi. by apply not_elem_of_nil in Hi.
Qed.

(** The instance of a started run is pooled and counts it. *)
Lemma sys_attached s token p id : sys_ok s -> started s !! token = Some (Pooled p id) ->
  exists i, i ∈ ents (prefixes (warm (eng s))) p /\ i_id i = id /\ 0 < i_in_flight i.
Proof.
  intros [[A B C D E] _ _] Hst%held_pooled. destruct (E p) as (_ & Hall & Hatt).
  pose proof (Hatt id Hst) as (i & -> & Hin)%list_elem_of_fmap. exists i. split_and!; [done|done|].
  destruct (Hall i Hin) as (Hf & _). lia.
Qed.

(** C1. The engine keeps its promises under every interleaving of prepares,
    disposals, one-off runs, prefix runs (a disposal may fall between the lookup
    and the acquisition) and the two halves of the release hook: the registry's
    books always balance against the runs that are started and not released, the
    instance a started run took is still pooled and counts it, and an idle
    instance exists only for a prefix that is ready, so an instance of a disposed
    or broken prefix is never left in the pool for reuse. *)
Theorem engine_invariant slots evs s
    (Hrun : engine_run (engine_start slots) evs = Some s) :
  total (warm (eng s)) = pool (fun _ => 1) (prefixes (warm (eng s))) + sum_by unpooled (map_to_list (started s)).*2 /\
  r_oneoff_running (warm (eng s)) = sum_by unpooled (map_to_list (started s)).*2 /\
  idle_total (warm (eng s)) = pool idle_one (prefixes (warm (eng s))) /\
  (forall token p id, started s !! token = Some (Pooled p id) ->
    exists i, i ∈ ents (prefixes (warm (eng s))) p /\ i_id i = id /\ 0 < i_in_flight i) /\
  (forall p i, i ∈ ents (prefixes (warm (eng s))) p -> is_idle i = true ->
    exists data, store (eng s) !! p = Some (Ready data)).
Proof using HOk.
  pose proof (engine_run_ok _ _ _ (engine_start_ok slots) Hrun) as Hs. pose proof Hs as [[A B C D E] Ht Hi].
  change (oneoffs (held_of (started s))) with (sum_by unpooled (map_to_list (started s)).*2) in *.
  split_and!; [lia | done | done | |].
  - intros token p id Hst. by apply (sys_attached s token).
  - intros p i Hin Hidle. pose proof (Hi p i Hin Hidle) as Hr. unfold is_ready in Hr.
    destruct (store (eng s) !! p) as [[data|]|]; [by eexists|done|done].
Qed.
End EngineTraces.

(** ** Witness *)

Module EngineDemo.
#[export] Instance order : HashOrder := map_to_list.
#[export] Instance order_ok : HashOrderOk.
Proof. by intros m. Qed.
Definition pow : f64 -> f64 -> f64 := fun x _ => x.

Definition env : Env := mk_Env (Some 100) 10 10 (fun _ => 0) (Ok (mk_InstanceHandle 5 0 0)) (Ok tt).
Definition req : PrefixRunRequest :=
  mk_PrefixRunRequest 1 "0" ResourceLimits_default [] [] (mk_CallSpec "default" []).
Definition clean : CallOutcome :=
  mk_CallOutcome (Ok (mk_Output [] [] [] [] f64_zero (f64_of_Z 3) (f64_of_Z 2) None [])) false 500 false.

(** Two runs of a prefix; one passes the lookup, then the prefix is disposed of,
    then it acquires; both release. *)
Definition events : list EngineEvent :=
  [EvPrepare "code" None [] []; EvLookup req; EvLookup req; EvAcquire env 0; EvDispose "0"; EvAcquire env 0;
   EvGiveBack env 1 clean].
Definition run (evs : list EngineEvent) : option Sys :=
  @engine_run order (policy_picker pow) pow 2 100000 (2 ^ 40) 0 (engine_start 4) evs.
End EngineDemo.

Lemma engine_invariant_witness :
  exists s, EngineDemo.run EngineDemo.events = Some s /\
    total (warm (eng s)) = 1 /\ store (eng s) !! "0"%string = None /\
    (forall i, i ∈ ents (prefixes (warm (eng s))) "0" -> is_idle i = false).
Proof.
  destruct (EngineDemo.run EngineDemo.events) as [s|] eqn:Hrun; [|vm_compute in Hrun; discriminate].
  destruct (@engine_invariant EngineDemo.order EngineDemo.order_ok (policy_picker EngineDemo.pow) EngineDemo.pow
    2 100000 (2 ^ 40) 0 4 EngineDemo.events s Hrun) as (_ & _ & _ & _ & Hidle).
  assert (Hs : total (warm (eng s)) = 1 /\ store (eng s) !! "0"%string = None).
  { vm_compute in Hrun. injection Hrun as <-. vm_compute. auto. }
  exists s. split; [reflexivity|]. destruct Hs as [Ht Hst]. split; [exact Ht|]. split; [exact Hst|].
  intros i Hi. destruct (is_idle i) eqn:Hid; [|reflexivity].
  destruct (Hidle "0"%string i Hi Hid) as [data Hd]. rewrite Hst in Hd. discriminate Hd.
Defined.
