(* ===== verification/Timers.v ===== *)
(** * Guest timers ([crates/core/src/v8/timers.rs])

    The timer table of a run: the id map, the fire-order heap with its lazy
    deletion, [setTimeout] and [clearTimeout] up to the calls into V8.  A
    callback and its arguments are opaque values; an [Instant] is a number of
    nanoseconds; the binary heap of the standard library is the sorted list of
    its content, [peek] its head and [pop] its tail. *)

From stdpp Require Import sorting.
From S2P Require Import Prelude Bytes F64.

Definition MAX_PENDING_TIMERS : Z := 10000.
Definition MAX_TIMER_DELAY_MS : f64 := f64_of_Z 3153600000000.

(** Nanoseconds in a millisecond, for [Duration::from_millis]. *)
Definition from_millis (ms : Z) : Z := ms * 1000000.

(** ** The heap's order: deadline, then registration, then id *)

Definition Key : Type := Z * Z * Z.

Definition key_lt (a b : Key) : Prop :=
  a.1.1 < b.1.1 \/
  (a.1.1 = b.1.1 /\ (a.1.2 < b.1.2 \/ (a.1.2 = b.1.2 /\ a.2 < b.2))).

#[export] Instance key_lt_dec a b : Decision (key_lt a b).
Proof. unfold key_lt. apply _. Defined.

(** [BinaryHeap<Reverse<_>>::push] *)
Fixpoint heap_push (k : Key) (h : list Key) : list Key :=
  match h with
  | [] => [k]
  | x :: h' => if decide (key_lt k x) then k :: h else x :: heap_push k h'
  end.

Section Timers.
Context {F V : Type}.

(** ** The table *)

Record TimerEntry := mk_TimerEntry {
  callback : F;
  args : list V;
  deadline : Z;
  virtual_ms : f64;
}.

Record TimerTable := mk_TimerTable {
  last_id : Z;
  next_seq : Z;
  entries : gmap Z TimerEntry;
  order : list Key;
}.

Definition TimerTable_default : TimerTable := mk_TimerTable 0 0 ∅ [].

(** Whether a heap key belongs to a pending entry. *)
Definition is_live (es : gmap Z TimerEntry) (k : Key) : bool :=
  match es !! k.2 with Some e => bool_decide (deadline e = k.1.1) | None => false end.

(** The loop of [peek_deadline], on the heap. *)
Fixpoint peek_loop (es : gmap Z TimerEntry) (h : list Key) : list Key * option Z :=
  match h with
  | [] => ([], None)
  | k :: h' => if is_live es k then (h, Some k.1.1) else peek_loop es h'
  end.

Definition peek_deadline (t : TimerTable) : TimerTable * option Z :=
  let '(h, d) := peek_loop (entries t) (order t) in
  (mk_TimerTable (last_id t) (next_seq t) (entries t) h, d).

(** The loop of [pop_earliest]; the key whose entry it removes. *)
Fixpoint pop_loop (es : gmap Z TimerEntry) (h : list Key) : list Key * option Z :=
  match h with
  | [] => ([], None)
  | k :: h' => if is_live es k then (h', Some k.2) else pop_loop es h'
  end.

Definition pop_earliest (t : TimerTable) : TimerTable * option TimerEntry :=
  let '(h, found) := pop_loop (entries t) (order t) in
  match found with
  | None => (mk_TimerTable (last_id t) (next_seq t) (entries t) h, None)
  | Some id => (mk_TimerTable (last_id t) (next_seq t) (delete id (entries t)) h, entries t !! id)
  end.

(** ** [setTimeout] *)

(** The delay argument, as [number_value] read it. *)
Definition delay_ms (arg : option f64) : f64 :=
  let delay := match arg with Some d => if is_finite d then d else f64_zero | None => f64_zero end in
  f64_clamp f64_zero MAX_TIMER_DELAY_MS (f64_trunc delay).

(** The clocks as the call reads them. *)
Record Clocks := mk_Clocks { wall_now_ms : f64; frozen_now_ms : option f64; instant_now : Z }.

Definition scheduled_ms (c : Clocks) (delay : f64) : f64 :=
  f64_add (default (wall_now_ms c) (frozen_now_ms c)) delay.

Definition fire_at (c : Clocks) (delay : f64) : Z :=
  let lead := f64_max (f64_sub (scheduled_ms c delay) (wall_now_ms c)) f64_zero in
  instant_now c + from_millis (f64_to_uint u64_max lead).

(** What a registration does to the table: the cap, the id, both structures. *)
Definition register_timer (t : TimerTable) (f : F) (extra : list V) (at_ : Z) (virt : f64) :
    TimerTable * option Z :=
  if MAX_PENDING_TIMERS <=? Z.of_nat (size (entries t)) then (t, None)
  else
    let id := Z.max 1 (wrap_add u32_max (last_id t) 1) in
    let seq := next_seq t in
    (mk_TimerTable id (seq + 1) (<[id := mk_TimerEntry f extra at_ virt]> (entries t))
       (heap_push (at_, seq, id) (order t)), Some id).

Inductive TimerError := OutsideRun | NotCallable | TooManyTimers.

(** [set_timeout_callback]: the attributed run's token and table ([None]
    outside run code), the arguments and the list of runs whose timers changed
    in this turn; the id goes back to the guest as a number. *)
Definition set_timeout_callback (token : Z) (state : option TimerTable) (touched : list Z)
    (f : option F) (delay : option f64) (extra : list V) (c : Clocks) :
    option TimerTable * list Z * result TimerError f64 :=
  match state with
  | None => (state, touched, Err OutsideRun)
  | Some t =>
    match f with
    | None => (state, touched, Err NotCallable)
    | Some f =>
      let delay := delay_ms delay in
      match register_timer t f extra (fire_at c delay) (scheduled_ms c delay) with
      | (t, None) => (Some t, touched, Err TooManyTimers)
      | (t, Some id) => (Some t, touched ++ [token], Ok (f64_of_Z id))
      end
    end
  end.

(** ** [clearTimeout] *)

(** The id argument: a whole number a [u32] can hold, from 1. *)
Definition timer_id_of (arg : option f64) : option Z :=
  match arg with
  | Some n =>
    if is_finite n && f64_le (f64_of_Z 1) n && f64_le n (f64_of_Z u32_max) && f64_eq (f64_fract n) f64_zero
    then Some (f64_to_uint u32_max n) else None
  | None => None
  end.

Definition remove_timer (t : TimerTable) (id : Z) : TimerTable * bool :=
  (mk_TimerTable (last_id t) (next_seq t) (delete id (entries t)) (order t),
   bool_decide (is_Some (entries t !! id))).

Definition clear_timeout_callback (token : Z) (state : option TimerTable) (touched : list Z)
    (arg : option f64) : option TimerTable * list Z :=
  match state with
  | None => (state, touched)
  | Some t =>
    match timer_id_of arg with
    | None => (state, touched)
    | Some id =>
      let '(t, removed) := remove_timer t id in
      (Some t, if removed then touched ++ [token] else touched)
    end
  end.

(** ** The table's operations as one machine *)

Inductive timer_op :=
  | OpSet (f : F) (extra : list V) (at_ : Z) (virt : f64)
  | OpClear (id : Z)
  | OpPeek
  | OpFire.

Inductive timer_event :=
  | EvSet (id : option Z)
  | EvCleared (removed : bool)
  | EvNext (d : option Z)
  | EvFired (e : option TimerEntry).

Definition timer_exec (t : TimerTable) (o : timer_op) : TimerTable * timer_event :=
  match o with
  | OpSet f extra at_ virt => let '(t, id) := register_timer t f extra at_ virt in (t, EvSet id)
  | OpClear id => let '(t, r) := remove_timer t id in (t, EvCleared r)
  | OpPeek => let '(t, d) := peek_deadline t in (t, EvNext d)
  | OpFire => let '(t, e) := pop_earliest t in (t, EvFired e)
  end.

Fixpoint timer_run (t : TimerTable) (os : list timer_op) : TimerTable * list timer_event :=
  match os with
  | [] => (t, [])
  | o :: os => let '(t, ev) := timer_exec t o in let '(t, evs) := timer_run t os in (t, ev :: evs)
  end.

(** ** The specification

    A run's agenda is the map of its pending timers and the number of timers it
    ever armed; ids count up from 1 in the order of registration.  The next
    timer is the one with the least deadline, the oldest among equals. *)

Definition first_due (m : gmap Z TimerEntry) (id : Z) (e : TimerEntry) : Prop :=
  m !! id = Some e /\
  forall id' e', m !! id' = Some e' ->
    deadline e < deadline e' \/ (deadline e = deadline e' /\ id <= id').

Inductive agenda_step : Z * gmap Z TimerEntry -> timer_op -> timer_event -> Z * gmap Z TimerEntry -> Prop :=
  | ag_set n m f extra at_ virt :
      Z.of_nat (size m) < MAX_PENDING_TIMERS -> m !! (n + 1) = None ->
      agenda_step (n, m) (OpSet f extra at_ virt) (EvSet (Some (n + 1)))
        (n + 1, <[n + 1 := mk_TimerEntry f extra at_ virt]> m)
  | ag_refuse n m f extra at_ virt :
      Z.of_nat (size m) = MAX_PENDING_TIMERS ->
      agenda_step (n, m) (OpSet f extra at_ virt) (EvSet None) (n, m)
  | ag_clear n m id :
      agenda_step (n, m) (OpClear id) (EvCleared (bool_decide (is_Some (m !! id)))) (n, delete id m)
  | ag_next n m id e :
      first_due m id e -> agenda_step (n, m) OpPeek (EvNext (Some (deadline e))) (n, m)
  | ag_next_none n : agenda_step (n, ∅) OpPeek (EvNext None) (n, ∅)
  | ag_fire n m id e :
      first_due m id e -> agenda_step (n, m) OpFire (EvFired (Some e)) (n, delete id m)
  | ag_fire_none n : agenda_step (n, ∅) OpFire (EvFired None) (n, ∅).

Inductive agenda_run : Z * gmap Z TimerEntry -> list timer_op -> list timer_event -> Z * gmap Z TimerEntry -> Prop :=
  | agr_nil a : agenda_run a [] [] a
  | agr_cons a o ev b os evs c :
      agenda_step a o ev b -> agenda_run b os evs c -> agenda_run a (o :: os) (ev :: evs) c.

(** ** The table's invariant *)

Record table_ok (t : TimerTable) : Prop := {
  ok_ids : next_seq t = last_id t;
  ok_nonneg : 0 <= last_id t;
  ok_size : Z.of_nat (size (entries t)) <= MAX_PENDING_TIMERS;
  ok_sorted : StronglySorted key_lt (order t);
  ok_keys : forall k, k ∈ order t -> k.2 = k.1.2 + 1 /\ 1 <= k.2 <= last_id t;
  ok_entries : forall id e, entries t !! id = Some e ->
    1 <= id <= last_id t /\ (deadline e, id - 1, id) ∈ order t;
  ok_match : forall k e, k ∈ order t -> entries t !! k.2 = Some e -> deadline e = k.1.1;
}.

End Timers.

(** ** The heap *)

Lemma elem_of_heap_push k x h : k ∈ heap_push x h <-> k = x \/ k ∈ h.
Proof.
  induction h as [|y h IH]; cbn; [set_solver|].
  case_decide; rewrite !elem_of_cons; [tauto|]. rewrite IH. tauto.
Qed.

Lemma heap_push_sorted x h :
  StronglySorted key_lt h -> x ∉ h -> StronglySorted key_lt (heap_push x h).
Proof.
  induction 1 as [|y h Hh IH Hy]; cbn; intros Hx; [repeat constructor|].
  assert (Htr : forall a b c, key_lt a b -> key_lt b c -> key_lt a c) by (unfold key_lt; lia).
  assert (Htot : forall a b, a <> b -> ~ key_lt a b -> key_lt b a).
  { intros [[a1 a2] a3] [[b1 b2] b3]. unfold key_lt; cbn. intros Hn Hl.
    destruct (decide (a1 = b1 /\ a2 = b2 /\ a3 = b3)) as [(-> & -> & ->)|]; [done|lia]. }
  case_decide as Hd.
  - constructor; [by constructor|]. constructor; [done|].
    eapply Forall_impl; [exact Hy|]. intros z Hz. by eapply Htr.
  - constructor; [apply IH; set_solver|]. apply Forall_forall. intros z.
    rewrite elem_of_heap_push. intros [->|Hz]; [apply Htot; set_solver|].
    rewrite Forall_forall in Hy. by apply Hy.
Qed.

Lemma heap_push_length x h : length (heap_push x h) = S (length h).
Proof. induction h as [|y h IH]; cbn; [done|]. case_decide; cbn; by rewrite ?IH. Qed.

Section Proofs.
Context {F V : Type}.
Implicit Types (t : @TimerTable F V) (es : gmap Z (@TimerEntry F V)).

(** Both loops drop dead keys from the front only. *)
Lemma pop_peek_loops es h :
  (peek_loop es h = ([], None) /\ pop_loop es h = ([], None) /\ Forall (fun k => is_live es k = false) h) \/
  exists dead k h', h = dead ++ k :: h' /\ Forall (fun k => is_live es k = false) dead /\
    is_live es k = true /\ peek_loop es h = (k :: h', Some k.1.1) /\ pop_loop es h = (h', Some k.2).
Proof.
  induction h as [|k h IH]; cbn; [left; by repeat constructor|].
  destruct (is_live es k) eqn:Hk.
  - right. exists [], k, h. by repeat constructor.
  - destruct IH as [(-> & -> & Hd)|(dead & k' & h' & -> & Hd & Hk' & -> & ->)].
    + left. by repeat constructor.
    + right. exists (k :: dead), k', h'. split_and!; try done. by constructor.
Qed.

Lemma is_live_spec es k : is_live es k = true <-> exists e, es !! k.2 = Some e /\ deadline e = k.1.1.
Proof.
  unfold is_live. destruct (es !! k.2) as [e|]; [rewrite bool_decide_eq_true|]; naive_solver.
Qed.

(** In a well-formed table the first live key of the heap is the first timer
    due, and a heap of dead keys has no timer. *)
Lemma table_first_due t dead k h :
  table_ok t -> order t = dead ++ k :: h -> Forall (fun k => is_live (entries t) k = false) dead ->
  is_live (entries t) k = true ->
  exists e, entries t !! k.2 = Some e /\ deadline e = k.1.1 /\ first_due (entries t) k.2 e.
Proof.
  intros Hok Ho Hd [e [He Hk]]%is_live_spec. exists e. split_and!; [done..|]. split; [done|].
  intros id' e' He'. destruct (ok_entries _ Hok _ _ He') as [_ Hin].
  pose proof (ok_sorted _ Hok) as Hs. rewrite Ho in Hin, Hs.
  destruct (ok_keys _ Hok k) as [Hk2 _]; [rewrite Ho; set_solver|].
  apply elem_of_app in Hin as [Hin|[Heq|Hin]%elem_of_cons].
  - rewrite Forall_forall in Hd. specialize (Hd _ Hin).
    assert (is_live (entries t) (deadline e', id' - 1, id') = true) by (apply is_live_spec; by exists e'). congruence.
  - destruct k as [[k1 k2] k3]. cbn in *. simplify_eq. lia.
  - apply StronglySorted_app_1_r in Hs. apply StronglySorted_inv in Hs as [_ Hf].
    rewrite Forall_forall in Hf. specialize (Hf _ Hin). unfold key_lt in Hf. cbn in Hf. lia.
Qed.

Lemma table_all_dead t :
  table_ok t -> Forall (fun k => is_live (entries t) k = false) (order t) -> entries t = ∅.
Proof.
  intros Hok Hd. apply map_empty. intros id. destruct (entries t !! id) as [e|] eqn:He; [|done].
  destruct (ok_entries _ Hok _ _ He) as [_ Hin]. rewrite Forall_forall in Hd. specialize (Hd _ Hin).
  assert (is_live (entries t) (deadline e, id - 1, id) = true) by (apply is_live_spec; by exists e). congruence.
Qed.

(** Losing entries, and dead keys from the front, keeps the table well-formed. *)
Lemma table_ok_shrink t es dead h :
  table_ok t -> es ⊆ entries t -> order t = dead ++ h ->
  (forall id e, es !! id = Some e -> (deadline e, id - 1, id) ∉ dead) ->
  table_ok (mk_TimerTable (last_id t) (next_seq t) es h).
Proof.
  intros Hok Hes Ho Hd. pose proof (ok_size _ Hok) as Hs.
  assert (Hin : forall k, k ∈ h -> k ∈ order t) by (rewrite Ho; set_solver).
  assert (Hl : forall id e, es !! id = Some e -> entries t !! id = Some e) by (by intros; eapply lookup_weaken).
  split; cbn; try apply Hok.
  - pose proof (map_subseteq_size _ _ Hes). lia.
  - pose proof (ok_sorted _ Hok) as Hss. rewrite Ho in Hss. by apply StronglySorted_app_1_r in Hss.
  - intros k Hk. by apply (ok_keys _ Hok), Hin.
  - intros id e He. destruct (ok_entries _ Hok _ _ (Hl _ _ He)) as [Hid Hk]. split; [done|].
    rewrite Ho in Hk. apply elem_of_app in Hk as [Hk|Hk]; [|done]. by destruct (Hd _ _ He).
  - intros k e Hk He. apply (ok_match _ Hok); [by apply Hin|by apply Hl].
Qed.

Lemma dead_key_free t dead :
  Forall (fun k => is_live (entries t) k = false) dead ->
  forall id e, entries t !! id = Some e -> (deadline e, id - 1, id) ∉ dead.
Proof.
  intros Hd id e He Hin. rewrite Forall_forall in Hd. specialize (Hd _ Hin).
  assert (is_live (entries t) (deadline e, id - 1, id) = true) by (apply is_live_spec; by exists e). congruence.
Qed.

Lemma table_ok_default : table_ok (@TimerTable_default F V).
Proof.
  split; cbn; [done|done|done|constructor| | |].
  - by intros k ?%elem_of_nil.
  - intros id e He. by rewrite lookup_empty in He.
  - by intros k e ?%elem_of_nil.
Qed.

Lemma table_ok_register t f extra at_ virt :
  table_ok t -> last_id t < u32_max -> Z.of_nat (size (entries t)) < MAX_PENDING_TIMERS ->
  entries t !! (last_id t + 1) = None /\
  register_timer t f extra at_ virt =
    (mk_TimerTable (last_id t + 1) (last_id t + 1) (<[last_id t + 1 := mk_TimerEntry f extra at_ virt]> (entries t))
       (heap_push (at_, last_id t, last_id t + 1) (order t)), Some (last_id t + 1)) /\
  table_ok (register_timer t f extra at_ virt).1.
Proof.
  intros Hok Hid Hsz. pose proof (ok_nonneg _ Hok). pose proof (ok_ids _ Hok) as Hseq.
  assert (Hw : Z.max 1 (wrap_add u32_max (last_id t) 1) = last_id t + 1).
  { unfold wrap_add. rewrite Z.mod_small; unfold u32_max in *; lia. }
  assert (Hfree : entries t !! (last_id t + 1) = None).
  { destruct (entries t !! (last_id t + 1)) as [e|] eqn:He; [|done].
    destruct (ok_entries _ Hok _ _ He). lia. }
  assert (Hkey : forall k, k ∈ order t -> k.2 <> last_id t + 1).
  { intros k Hk. destruct (ok_keys _ Hok _ Hk). lia. }
  assert (Heq : register_timer t f extra at_ virt = (mk_TimerTable (last_id t + 1) (last_id t + 1)
    (<[last_id t + 1 := mk_TimerEntry f extra at_ virt]> (entries t))
    (heap_push (at_, last_id t, last_id t + 1) (order t)), Some (last_id t + 1))).
  { unfold register_timer. destruct (Z.leb_spec MAX_PENDING_TIMERS (Z.of_nat (size (entries t)))); [lia|].
    by rewrite Hw, Hseq. }
  split; [done|]. split; [done|]. rewrite Heq. cbn. split; cbn; [done|lia| | | |..].
  - rewrite map_size_insert_None by done. lia.
  - apply heap_push_sorted; [apply Hok|]. intros Hin. by apply (Hkey _ Hin).
  - intros k [->|Hk]%elem_of_heap_push; cbn; [lia|]. destruct (ok_keys _ Hok _ Hk). lia.
  - intros id e [(<- & <-)|[Hne He]]%lookup_insert_Some.
    + cbn. split; [lia|]. apply elem_of_heap_push. left. f_equal. f_equal. lia.
    + destruct (ok_entries _ Hok _ _ He) as [? Hk]. split; [lia|]. apply elem_of_heap_push. by right.
  - intros k e [->|Hk]%elem_of_heap_push; cbn.
    + rewrite lookup_insert_eq. by intros [= <-].
    + rewrite lookup_insert_ne by (apply not_eq_sym; by apply Hkey). by apply (ok_match _ Hok).
Qed.

Lemma timer_exec_refines t o :
  table_ok t -> last_id t < u32_max ->
  agenda_step (last_id t, entries t) o (timer_exec t o).2
    (last_id (timer_exec t o).1, entries (timer_exec t o).1) /\
  table_ok (timer_exec t o).1 /\ last_id (timer_exec t o).1 <= last_id t + 1.
Proof.
  intros Hok Hid. destruct o as [f extra at_ virt|id| |]; cbn -[register_timer].
  - destruct (decide (Z.of_nat (size (entries t)) < MAX_PENDING_TIMERS)) as [Hs|Hs].
    + destruct (table_ok_register t f extra at_ virt) as (Hf & Heq & Ht); [done..|].
      rewrite Heq in *. cbn in *. split; [by apply ag_set|split; [done|lia]].
    + pose proof (ok_size _ Hok). unfold register_timer. destruct (Z.leb_spec MAX_PENDING_TIMERS (Z.of_nat (size (entries t)))); [|lia].
      cbn. split; [apply ag_refuse; lia|split; [done|lia]].
  - split; [apply ag_clear|]. split; [|lia].
    apply (table_ok_shrink t _ []); [done|apply delete_subseteq|done|set_solver].
  - unfold peek_deadline. destruct (pop_peek_loops (entries t) (order t))
      as [(-> & _ & Hd)|(dead & k & h & Ho & Hd & Hk & -> & _)]; cbn.
    + pose proof (table_all_dead _ Hok Hd) as He. rewrite He. split; [apply ag_next_none|]. split; [|lia].
      apply (table_ok_shrink t _ (order t)); [done|apply map_empty_subseteq|by rewrite app_nil_r|set_solver].
    + destruct (table_first_due t dead k h) as (e & He & <- & Hf); [done..|].
      split; [by eapply ag_next|]. split; [|lia].
      apply (table_ok_shrink t _ dead); [done|done|done|by apply dead_key_free].
  - unfold pop_earliest. destruct (pop_peek_loops (entries t) (order t))
      as [(_ & -> & Hd)|(dead & k & h & Ho & Hd & Hk & _ & ->)]; cbn.
    + pose proof (table_all_dead _ Hok Hd) as He. rewrite He. split; [apply ag_fire_none|]. split; [|lia].
      apply (table_ok_shrink t _ (order t)); [done|apply map_empty_subseteq|by rewrite app_nil_r|set_solver].
    + destruct (table_first_due t dead k h) as (e & He & Hdl & Hf); [done..|]. rewrite He.
      split; [by eapply ag_fire|]. split; [|lia].
      apply (table_ok_shrink t _ (dead ++ [k])); [done|apply delete_subseteq|by rewrite Ho, <- app_assoc|].
      intros id' e' [Hne He']%lookup_delete_Some Hin. apply elem_of_app in Hin as [Hin|Hin].
      * by apply (dead_key_free t dead Hd id' e').
      * apply list_elem_of_singleton in Hin. subst k. cbn in *. congruence.
Qed.

Lemma timer_run_refines t os :
  table_ok t -> last_id t + zlen os <= u32_max ->
  agenda_run (last_id t, entries t) os (timer_run t os).2
    (last_id (timer_run t os).1, entries (timer_run t os).1) /\ table_ok (timer_run t os).1.
Proof.
  revert t. induction os as [|o os IH]; cbn [timer_run length]; intros t Hok Hn; [split; [constructor|done]|].
  destruct (timer_exec_refines t o) as (Hs & Hok' & Hid); [done|lia|].
  destruct (timer_exec t o) as [t1 ev]; cbn in Hs, Hok', Hid.
  destruct (IH t1) as [Hr Ht]; [done|lia|]. destruct (timer_run t1 os) as [t2 evs]; cbn in *.
  split; [by econstructor|done].
Qed.

End Proofs.

(** The callbacks of a run with a table are the machine's operations; a call
    outside run code, without a function or with an id no timer can have leaves
    every table alone, and the run is noted as touched exactly when its timers
    changed. *)
Lemma callbacks_are_ops {F V} token (t : @TimerTable F V) touched f delay extra c arg :
  set_timeout_callback token (Some t) touched (Some f) delay extra c =
    (let '(t', ev) := timer_exec t (OpSet f extra (fire_at c (delay_ms delay)) (scheduled_ms c (delay_ms delay))) in
     match ev with
     | EvSet (Some id) => (Some t', touched ++ [token], Ok (f64_of_Z id))
     | _ => (Some t', touched, Err TooManyTimers)
     end) /\
  clear_timeout_callback token (Some t) touched arg =
    match timer_id_of arg with
    | Some id =>
      let '(t', ev) := timer_exec t (OpClear id) in
      (Some t', match ev with EvCleared true => touched ++ [token] | _ => touched end)
    | None => (Some t, touched)
    end.
Proof.
  split.
  - cbn -[register_timer]. destruct (register_timer _ _ _ _ _) as [t' [id|]]; reflexivity.
  - cbn. destruct (timer_id_of arg); [|reflexivity]. cbn. by case_bool_decide.
Qed.

(** A timer is never due before the call that armed it. *)
Lemma fire_at_not_early c delay : instant_now c <= fire_at c delay.
Proof.
  unfold fire_at, from_millis. assert (0 <= f64_to_uint u64_max (f64_max (f64_sub (scheduled_ms c delay) (wall_now_ms c)) f64_zero)); [|lia].
  unfold f64_to_uint, u64_max. repeat case_match; lia.
Qed.

(** Not a number, negative and oversized delays; fractions; ids. *)
Example delay_and_id_examples :
  delay_ms (Some S754_nan) = f64_zero /\ delay_ms (Some (S754_infinity false)) = f64_zero /\ delay_ms None = f64_zero /\
  delay_ms (Some (f64_of_Z (-5))) = f64_zero /\ delay_ms (Some (f64_ratio 19 10)) = f64_of_Z 1 /\
  delay_ms (Some (f64_of_Z (10 ^ 30))) = MAX_TIMER_DELAY_MS /\
  timer_id_of (Some (f64_of_Z 7)) = Some 7 /\ timer_id_of (Some (f64_ratio 3 2)) = None /\
  timer_id_of (Some f64_zero) = None /\ timer_id_of (Some (f64_of_Z (2 ^ 32))) = None.
Proof. vm_compute. repeat split. Qed.

(** C18. The timer table is an agenda: under any sequence of registrations,
    clears, deadline reads and fires (fewer than 2^32 of them, so that ids do
    not wrap) it answers as the map of pending timers would.  Ids count up from
    1; a fire takes the pending timer with the least deadline, the oldest among
    equals, once; a cleared timer is gone; [peek_deadline] is the deadline of
    the next fire, and there is none only when nothing is pending; a timer is
    refused exactly when 10000 are pending. *)
Theorem timers_refine_agenda {F V} (ops : list (@timer_op F V)) t evs :
  zlen ops <= u32_max -> timer_run TimerTable_default ops = (t, evs) ->
  agenda_run (0, ∅) ops evs (last_id t, entries t) /\ Z.of_nat (size (entries t)) <= MAX_PENDING_TIMERS.
Proof.
  intros Hn Hr. destruct (timer_run_refines (@TimerTable_default F V) ops) as [Ha Hok];
    [apply table_ok_default|done|]. rewrite Hr in Ha, Hok. split; [done|by apply Hok].
Qed.

Definition timers_demo : list (@timer_op nat nat) :=
  [OpSet 1%nat [] 50 f64_zero; OpSet 2%nat [] 20 f64_zero; OpSet 3%nat [] 20 f64_zero; OpPeek; OpClear 2; OpClear 2;
   OpPeek; OpFire; OpPeek; OpFire; OpFire; OpPeek].

Lemma timers_refine_agenda_witness :
  agenda_run (0, ∅) timers_demo
    [EvSet (Some 1); EvSet (Some 2); EvSet (Some 3); EvNext (Some 20); EvCleared true; EvCleared false;
     EvNext (Some 20); EvFired (Some (mk_TimerEntry 3%nat [] 20 f64_zero)); EvNext (Some 50);
     EvFired (Some (mk_TimerEntry 1%nat [] 50 f64_zero)); EvFired None; EvNext None]
    (3, ∅).
Proof.
  apply (timers_refine_agenda timers_demo (mk_TimerTable 3 3 ∅ []) _); [vm_compute; discriminate|vm_compute; reflexivity].
Defined.

(** A guest that arms a timer and clears it at once, [n] times in a turn. *)
Fixpoint arm_and_clear {F V} (f : F) (at_ : Z) (id : Z) (n : nat) : list (@timer_op F V) :=
  match n with
  | O => []
  | S n => OpSet f [] at_ f64_zero :: OpClear (id + 1) :: arm_and_clear f at_ (id + 1) n
  end.

Lemma arm_and_clear_run {F V} (f : F) at_ n (t : @TimerTable F V) :
  table_ok t -> entries t = ∅ -> last_id t + Z.of_nat n <= u32_max ->
  let r := timer_run t (arm_and_clear f at_ (last_id t) n) in
  entries r.1 = ∅ /\ length (order r.1) = (length (order t) + n)%nat /\ EvSet None ∉ r.2.
Proof.
  revert t. induction n as [|n IH]; intros t Hok He Hn; cbv zeta.
  { cbn. split_and!; [done|lia|set_solver]. }
  destruct (table_ok_register t f [] at_ f64_zero) as (_ & Heq & Ht); [done|lia|by rewrite He, map_size_empty|].
  rewrite He, insert_empty in Heq. rewrite Heq in Ht. cbn [fst] in Ht.
  cbn [arm_and_clear timer_run timer_exec]. rewrite Heq. cbn [remove_timer entries last_id next_seq order].
  rewrite delete_singleton_eq.
  specialize (IH (mk_TimerTable (last_id t + 1) (last_id t + 1) ∅ (heap_push (at_, last_id t, last_id t + 1) (order t)))).
  cbv zeta in IH. cbn [last_id entries order] in IH. destruct IH as (IHe & IHl & IHn); [|done|lia|].
  { apply (table_ok_shrink _ ∅ [] _ Ht); [apply map_empty_subseteq|done|set_solver]. }
  destruct (timer_run _ _) as [t' evs]. cbn in *. split_and!; [done| |].
  - rewrite IHl, heap_push_length. lia.
  - intros [?|[?|?]%elem_of_cons]%elem_of_cons; done.
Qed.

(** The cap counts pending timers, not heap keys: a guest that arms a timer
    and clears it at once never has more than one pending and is never refused,
    and the heap, which no limit of the run covers, keeps a key for each. *)
Theorem cleared_keys_accumulate {F V} (f : F) (at_ : Z) (n : nat) :
  Z.of_nat n <= u32_max ->
  let r := timer_run (@TimerTable_default F V) (arm_and_clear f at_ 0 n) in
  entries r.1 = ∅ /\ length (order r.1) = n /\ EvSet None ∉ r.2.
Proof. intros Hn. by apply (arm_and_clear_run f at_ n TimerTable_default); [apply table_ok_default|..]. Qed.

Lemma cleared_keys_accumulate_witness :
  length (order (timer_run (@TimerTable_default nat nat) (arm_and_clear 0%nat 1 0 20001)).1) = 20001%nat.
Proof. apply (cleared_keys_accumulate 0%nat 1 20001). vm_compute. discriminate. Defined.
