(* ===== verification/Guard.v ===== *)
(** * The limit guard ([crates/core/src/v8/guard.rs])

    The armed target of every instance, the watchdog's heap and the reason cell,
    with the threads that touch them interleaved: owner threads arm and clear
    turns, frontends abort, the watchdog pops and checks.  Each lock-protected
    region is one step.  An instance is its identity; [terminate_execution] is a
    count of requests; the clock and the CPU readings come with the step that
    takes them.  The CPU budget and the reason cell are those of
    [crates/core/src/v8/isolate.rs], [deliver] is [RunHandle::deliver] of
    [crates/core/src/engine.rs]. *)

From S2P Require Import Prelude Bytes F64 Types Errors Link Timers.

(** ** The reason cell *)

Record ReasonCell := mk_ReasonCell { reason : option TerminationReason; bare_terminate : bool }.

Definition reason_new : ReasonCell := mk_ReasonCell None false.
(** First write wins. *)
Definition reason_set (c : ReasonCell) (r : TerminationReason) : ReasonCell :=
  mk_ReasonCell (Some (default r (reason c))) (bare_terminate c).
Definition reason_reset (c : ReasonCell) : ReasonCell := mk_ReasonCell None false.

(** ** The CPU budget

    The argument is the reading of the executing thread's clock. *)

Record CpuBudget := mk_CpuBudget { accumulated_ns : Z; epoch : option Z }.

Definition budget_new : CpuBudget := mk_CpuBudget 0 None.
Definition budget_enter (b : CpuBudget) (self_ns : Z) : CpuBudget := mk_CpuBudget (accumulated_ns b) (Some self_ns).
Definition budget_leave (b : CpuBudget) (now_ns : Z) : CpuBudget :=
  match epoch b with
  | Some start_ns => mk_CpuBudget (accumulated_ns b + sat_sub now_ns start_ns) None
  | None => b
  end.
Definition elapsed_ns (b : CpuBudget) (read_ns : Z) : Z :=
  accumulated_ns b + match epoch b with Some start_ns => sat_sub read_ns start_ns | None => 0 end.
Definition elapsed_ms (b : CpuBudget) (read_ns : Z) : Z := elapsed_ns b read_ns / 1000000.

(** ** The armed target *)

(** [budget] is the identity of the shared budget; readings are taken by
    identity. *)
Record GuardTarget := mk_GuardTarget { budget : Z; cpu_cap_ms : Z; wall_deadline : option Z }.

Record GuardShared := mk_GuardShared {
  target : option GuardTarget;
  executing : Z;
  generation : Z;
  terminations : Z;
  cell : ReasonCell;
}.

Definition guard_new : GuardShared := mk_GuardShared None 0 0 0 reason_new.

Definition terminate_for (s : GuardShared) (r : TerminationReason) : GuardShared :=
  mk_GuardShared (target s) (executing s) (generation s) (terminations s + 1) (reason_set (cell s) r).

(** The reading a cap needs: none when CPU is uncapped. *)
Definition cpu_reading (t : GuardTarget) (read : Z -> Z) : option Z :=
  if 0 <? cpu_cap_ms t then Some (read (budget t)) else None.

Definition next_check_for (t : GuardTarget) (now : Z) (cpu_elapsed_ms : option Z) : option Z :=
  let floor := now + from_millis 1 in
  let cpu := (fun elapsed => Z.max (now + from_millis (sat_sub (cpu_cap_ms t) elapsed)) floor) <$> cpu_elapsed_ms in
  let wall := (fun d => Z.max d floor) <$> wall_deadline t in
  match cpu, wall with
  | Some c, Some w => Some (Z.min c w)
  | Some c, None => Some c
  | None, w => w
  end.

(** The locked part of [set_for]. *)
Definition guard_arm (s : GuardShared) (t : GuardTarget) (token : Z) : GuardShared :=
  mk_GuardShared (Some t) token (generation s + 1) (terminations s) (cell s).

Definition guard_clear (s : GuardShared) : GuardShared :=
  mk_GuardShared None 0 (generation s + 1) (terminations s) (cell s).

Definition abort_executing (s : GuardShared) (token : Z) : GuardShared * bool :=
  if executing s =? token then (terminate_for s ReasonAbort, true) else (s, false).

(** [check_deadline], from the generation of the entry: the reason it fired
    for, and the next check. *)
Definition check_deadline (s : GuardShared) (entry_generation now : Z) (read : Z -> Z) :
    GuardShared * option TerminationReason * option Z :=
  if negb (generation s =? entry_generation) then (s, None, None)
  else
    match target s with
    | None => (s, None, None)
    | Some t =>
      let cpu_ms := cpu_reading t read in
      if match cpu_ms with Some ms => cpu_cap_ms t <=? ms | None => false end
      then (terminate_for s ReasonCpu, Some ReasonCpu, Some (now + from_millis 10))
      else if match wall_deadline t with Some d => d <=? now | None => false end
      then (terminate_for s ReasonWall, Some ReasonWall, Some (now + from_millis 10))
      else (s, None, next_check_for t now cpu_ms)
    end.

(** ** The watchdog and the threads around it *)

Record WatchEntry := mk_WatchEntry { next_check : Z; entry_generation : Z; instance : Z }.

(** What happened, for the statements: arming and clearing, and the kills. *)
Inductive guard_event :=
  | Armed (i token : Z) (t : GuardTarget)
  | Cleared (i : Z)
  | Fired (i : Z) (r : TerminationReason) (now : Z) (read : Z -> Z)
  | AbortedTurn (i token : Z).

(** [in_flight]: entries a thread has yet to push; [popped]: the entry the
    watchdog is checking; [history]: newest first. *)
Record Watch := mk_Watch {
  guards : gmap Z GuardShared;
  heap : list WatchEntry;
  in_flight : list WatchEntry;
  popped : option WatchEntry;
  history : list guard_event;
}.

Definition watch_new : Watch := mk_Watch ∅ [] [] None [].

Inductive watch_op :=
  | NewGuard (i : Z)
  | SetFor (i : Z) (t : GuardTarget) (token now : Z) (read : Z -> Z)
  | Clear (i : Z)
  | ResetReason (i : Z)
  | HardAbort (i token : Z)
  | Push (k : nat)
  | Pop (k : nat) (now : Z)
  | CheckPopped (now : Z) (read : Z -> Z).

Definition with_guard (w : Watch) (i : Z) (s : GuardShared) : Watch :=
  mk_Watch (<[i := s]> (guards w)) (heap w) (in_flight w) (popped w) (history w).
Definition note (w : Watch) (ev : guard_event) : Watch :=
  mk_Watch (guards w) (heap w) (in_flight w) (popped w) (ev :: history w).

Definition pending_entry (i g : Z) (nc : option Z) : list WatchEntry :=
  match nc with Some at_ => [mk_WatchEntry at_ g i] | None => [] end.

(** An operation, where it can happen: the watchdog pops only while it holds
    no entry, a top of the heap, once its time has come. *)
Definition watch_exec (w : Watch) (o : watch_op) : option Watch :=
  match o with
  | NewGuard i => match guards w !! i with None => Some (with_guard w i guard_new) | Some _ => None end
  | SetFor i t token now read =>
    s ← guards w !! i;
    let nc := next_check_for t now (cpu_reading t read) in
    let s := guard_arm s t token in
    Some (mk_Watch (<[i := s]> (guards w)) (heap w) (pending_entry i (generation s) nc ++ in_flight w) (popped w)
            (Armed i token t :: history w))
  | Clear i => s ← guards w !! i; Some (note (with_guard w i (guard_clear s)) (Cleared i))
  | ResetReason i =>
    s ← guards w !! i;
    Some (with_guard w i (mk_GuardShared (target s) (executing s) (generation s) (terminations s) (reason_reset (cell s))))
  | HardAbort i token =>
    s ← guards w !! i;
    let '(s, killed) := abort_executing s token in
    Some (if killed then note (with_guard w i s) (AbortedTurn i token) else with_guard w i s)
  | Push k =>
    e ← in_flight w !! k;
    Some (mk_Watch (guards w) (e :: heap w) (delete k (in_flight w)) (popped w) (history w))
  | Pop k now =>
    e ← heap w !! k;
    if bool_decide (popped w = None /\ next_check e <= now /\ Forall (fun e' => next_check e <= next_check e') (heap w))
    then Some (mk_Watch (guards w) (delete k (heap w)) (in_flight w) (Some e) (history w)) else None
  | CheckPopped now read =>
    e ← popped w;
    s ← guards w !! instance e;
    let '(s, fired, nc) := check_deadline s (entry_generation e) now read in
    Some (mk_Watch (<[instance e := s]> (guards w)) (heap w)
            (pending_entry (instance e) (entry_generation e) nc ++ in_flight w) None
            (match fired with Some r => [Fired (instance e) r now read] | None => [] end ++ history w))
  end.

Inductive watch_steps : Watch -> list watch_op -> Watch -> Prop :=
  | ws_nil w : watch_steps w [] w
  | ws_cons w o w' os w'' : watch_exec w o = Some w' -> watch_steps w' os w'' -> watch_steps w (o :: os) w''.

(** ** [RunHandle::deliver] *)

(** [rh_ctl]: the instance's guard, once it exists.  The result is the event
    sent to the run's channel, if any. *)
Record RunHandle := mk_RunHandle { rh_token : Z; rh_run_id : Z; rh_ctl : option Z }.

Definition deliver (w : Watch) (h : RunHandle) (msg : Inbound) : Watch * option (Z * Inbound) :=
  let routed := Some (rh_token h, msg) in
  match msg, rh_ctl h with
  | ITerminate Hard, Some i =>
    match guards w !! i with
    | Some s =>
      if (abort_executing s (rh_token h)).2
      then (default w (watch_exec w (HardAbort i (rh_token h))), None)
      else (w, routed)
    | None => (w, routed)
    end
  | _, _ => (w, routed)
  end.

(** ** What the statements speak about *)

(** The turn of instance [i] a history leaves armed: its token and target. *)
Fixpoint last_armed (i : Z) (h : list guard_event) : option (Z * GuardTarget) :=
  match h with
  | [] => None
  | Armed j token t :: h => if decide (j = i) then Some (token, t) else last_armed i h
  | Cleared j :: h => if decide (j = i) then None else last_armed i h
  | _ :: h => last_armed i h
  end.

Definition cpu_exceeded (t : GuardTarget) (read : Z -> Z) : Prop :=
  0 < cpu_cap_ms t /\ cpu_cap_ms t <= read (budget t).
Definition wall_passed (t : GuardTarget) (now : Z) : Prop :=
  exists d, wall_deadline t = Some d /\ d <= now.

(** Why a kill may happen after the events [past]. *)
Definition justified (past : list guard_event) (ev : guard_event) : Prop :=
  match ev with
  | Fired i r now read => exists token t, last_armed i past = Some (token, t) /\
      ((r = ReasonCpu /\ cpu_exceeded t read) \/ (r = ReasonWall /\ wall_passed t now))
  | AbortedTurn i token => token <> 0 -> exists t, last_armed i past = Some (token, t)
  | _ => True
  end.

Fixpoint all_justified (h : list guard_event) : Prop :=
  match h with [] => True | ev :: past => justified past ev /\ all_justified past end.

Definition capped (t : GuardTarget) : bool := (0 <? cpu_cap_ms t) || bool_decide (is_Some (wall_deadline t)).

Definition watched (s : GuardShared) : nat :=
  match target s with Some t => if capped t then 1%nat else 0%nat | None => 0%nat end.

(** Every entry, wherever it is; those of instance [i] under generation [g]. *)
Definition all_entries (w : Watch) : list WatchEntry := option_list (popped w) ++ in_flight w ++ heap w.
Definition current (i g : Z) (e : WatchEntry) : Prop := instance e = i /\ entry_generation e = g.
#[export] Instance current_dec i g e : Decision (current i g e).
Proof. unfold current. apply _. Defined.
Definition current_entries (w : Watch) (i g : Z) : nat := length (filter (current i g) (all_entries w)).

(** ** The invariant *)

Definition armed_turn (w : Watch) (i : Z) : option (Z * GuardTarget) :=
  s ← guards w !! i; t ← target s; Some (executing s, t).

Record watch_ok (w : Watch) : Prop := {
  wo_armed : forall i, last_armed i (history w) = armed_turn w i;
  wo_idle : forall i s, guards w !! i = Some s -> target s = None -> executing s = 0;
  wo_history : all_justified (history w);
  wo_known : forall e, e ∈ all_entries w -> is_Some (guards w !! instance e);
  wo_past : forall e s, e ∈ all_entries w -> guards w !! instance e = Some s -> entry_generation e <= generation s;
  wo_count : forall i s, guards w !! i = Some s -> current_entries w i (generation s) = watched s;
}.

Lemma next_check_some t now read :
  is_Some (next_check_for t now (cpu_reading t read)) <-> capped t = true.
Proof.
  unfold next_check_for, cpu_reading, capped. destruct (0 <? cpu_cap_ms t), (wall_deadline t) as [d|]; cbn;
    (split; [by intros [? ?]|by eauto]).
Qed.

Lemma next_check_floor t now o nc : next_check_for t now o = Some nc -> now + from_millis 1 <= nc.
Proof. unfold next_check_for. destruct o, (wall_deadline t); cbn; intros [= <-]; lia. Qed.

(** A check either finds the entry stale, and drops it, or finds the instance
    as it was armed: then it keeps an entry, and fires exactly when a cap is
    exceeded. *)
Lemma check_deadline_spec s g now read :
  (exists t, generation s = g /\ target s = Some t /\
    ((cpu_exceeded t read /\
      check_deadline s g now read = (terminate_for s ReasonCpu, Some ReasonCpu, Some (now + from_millis 10))) \/
     (~ cpu_exceeded t read /\ wall_passed t now /\
      check_deadline s g now read = (terminate_for s ReasonWall, Some ReasonWall, Some (now + from_millis 10))) \/
     (~ cpu_exceeded t read /\ ~ wall_passed t now /\
      check_deadline s g now read = (s, None, next_check_for t now (cpu_reading t read))))) \/
  ((generation s <> g \/ target s = None) /\ check_deadline s g now read = (s, None, None)).
Proof.
  unfold check_deadline. destruct (Z.eqb_spec (generation s) g) as [Hg|Hg]; cbn; [|right; auto].
  destruct (target s) as [t|] eqn:Ht; [|right; auto]. left. exists t. split; [done|]. split; [done|].
  unfold cpu_exceeded, wall_passed, cpu_reading.
  assert (Hw : forall b : bool, (match wall_deadline t with Some d => d <=? now | None => false end) = b ->
    if b then exists d, wall_deadline t = Some d /\ d <= now else ~ exists d, wall_deadline t = Some d /\ d <= now).
  { destruct (wall_deadline t) as [d|]; [destruct (Z.leb_spec d now)|]; intros [] [=]; naive_solver lia. }
  specialize (Hw _ eq_refl). destruct (Z.ltb_spec 0 (cpu_cap_ms t)); [destruct (Z.leb_spec (cpu_cap_ms t) (read (budget t)))|].
  - left. split; [lia|done].
  - right. revert Hw. match goal with |- context [if ?b then (terminate_for s ReasonWall, _, _) else _] => destruct b end;
      intros Hw; [left|right]; (split; [lia|done]).
  - right. revert Hw. match goal with |- context [if ?b then (terminate_for s ReasonWall, _, _) else _] => destruct b end;
      intros Hw; [left|right]; (split; [lia|done]).
Qed.

(** Two states of an instance the invariant cannot tell apart. *)
Definition same_face (o o' : option GuardShared) : Prop :=
  match o, o' with
  | Some s, Some s' => generation s' = generation s /\ target s' = target s /\ executing s' = executing s
  | None, None => True
  | _, _ => False
  end.

Lemma same_face_insert (gs : gmap Z GuardShared) i s s' j :
  gs !! i = Some s -> generation s' = generation s -> target s' = target s -> executing s' = executing s ->
  same_face (gs !! j) (<[i := s']> gs !! j).
Proof.
  intros Hi Hg Ht He. destruct (decide (i = j)) as [->|].
  - by rewrite lookup_insert_eq, Hi.
  - rewrite lookup_insert_ne by done. unfold same_face. by destruct (gs !! j).
Qed.

Lemma same_face_refl o : same_face o o.
Proof. by destruct o; cbn. Qed.

(** The invariant only depends on the faces, the entries and the history. *)
Lemma watch_ok_frame w w' :
  watch_ok w -> (forall j, same_face (guards w !! j) (guards w' !! j)) ->
  (forall e, e ∈ all_entries w' -> exists e0, e0 ∈ all_entries w /\ instance e = instance e0 /\
     entry_generation e = entry_generation e0) ->
  (forall j s, guards w !! j = Some s -> current_entries w' j (generation s) = current_entries w j (generation s)) ->
  (forall j, last_armed j (history w') = last_armed j (history w)) -> all_justified (history w') ->
  watch_ok w'.
Proof.
  intros Hok Hf He Hc Hl Hh.
  assert (Hback : forall j s', guards w' !! j = Some s' -> exists s, guards w !! j = Some s /\
    generation s' = generation s /\ target s' = target s /\ executing s' = executing s).
  { intros j s' Hj. specialize (Hf j). rewrite Hj in Hf. destruct (guards w !! j) as [s|]; cbn in Hf; [eauto|done]. }
  split; [|..|done| | |].
  - intros j. rewrite Hl, (wo_armed _ Hok). specialize (Hf j). unfold armed_turn.
    destruct (guards w !! j) as [s|], (guards w' !! j) as [s'|]; cbn in *; [|done..].
    destruct Hf as (_ & -> & ->). done.
  - intros j s' (s & Hs & _ & -> & ->)%Hback. by apply (wo_idle _ Hok j).
  - intros e (e0 & Hin & -> & _)%He. destruct (wo_known _ Hok _ Hin) as [s Hs]. specialize (Hf (instance e0)).
    rewrite Hs in Hf. destruct (guards w' !! instance e0); [eauto|done].
  - intros e s' (e0 & Hin & Hi & Hg)%He (s & Hs & -> & _)%Hback. rewrite Hg. rewrite Hi in Hs. by apply (wo_past _ Hok).
  - intros j s' (s & Hs & -> & Ht & _)%Hback. rewrite (Hc _ _ Hs), (wo_count _ Hok _ _ Hs). unfold watched. by rewrite Ht.
Qed.

Lemma current_entries_perm w w' i g :
  all_entries w' ≡ₚ all_entries w -> current_entries w' i g = current_entries w i g.
Proof. intros Hp. unfold current_entries. by rewrite Hp. Qed.

Lemma current_entries_app l k i g :
  length (filter (current i g) (l ++ k)) = (length (filter (current i g) l) + length (filter (current i g) k))%nat.
Proof. by rewrite filter_app, length_app. Qed.

Lemma filter_pending i g j g' nc :
  length (filter (current j g') (pending_entry i g nc)) =
    (if decide (i = j /\ g = g') then length (pending_entry i g nc) else 0%nat).
Proof.
  destruct nc as [at_|]; cbn; [|by case_decide]. unfold current. cbn. repeat case_decide; cbn; try done; tauto.
Qed.

Lemma current_none l i g : (forall e, e ∈ l -> ~ current i g e) -> length (filter (current i g) l) = 0%nat.
Proof.
  intros Hn. destruct (filter (current i g) l) as [|x k] eqn:Hf; [done|].
  assert (Hx : x ∈ filter (current i g) l) by (rewrite Hf; left).
  apply list_elem_of_filter in Hx as [Hx Hl]. by destruct (Hn x Hl).
Qed.

(** No entry is current for a generation that has not been reached. *)
Lemma current_entries_future w i s g :
  watch_ok w -> guards w !! i = Some s -> generation s < g -> current_entries w i g = 0%nat.
Proof.
  intros Hok Hs Hg. apply current_none.
  intros e Hin [Hi He]. pose proof (wo_past _ Hok e s Hin). rewrite Hi in *. naive_solver lia.
Qed.

(** Arming and clearing: the generation moves on, and the new one has the
    entries the target needs. *)
Lemma watch_ok_bump w w' i s s' nc ev :
  watch_ok w -> guards w !! i = Some s -> guards w' = <[i := s']> (guards w) ->
  generation s' = generation s + 1 -> all_entries w' ≡ₚ pending_entry i (generation s') nc ++ all_entries w ->
  length (pending_entry i (generation s') nc) = watched s' -> (target s' = None -> executing s' = 0) ->
  history w' = ev :: history w ->
  (forall j, last_armed j (ev :: history w) =
     if decide (i = j) then t ← target s'; Some (executing s', t) else last_armed j (history w)) ->
  justified (history w) ev -> watch_ok w'.
Proof.
  intros Hok Hi Hgs Hg Hp Hlen Hidle Hh Hl Hj. split; rewrite ?Hgs, ?Hh.
  - intros j. rewrite Hl, (wo_armed _ Hok). unfold armed_turn. rewrite Hgs. case_decide as Hd.
    + subst j. by rewrite lookup_insert_eq.
    + by rewrite lookup_insert_ne.
  - intros j sj [(-> & <-)|[Hn Hs]]%lookup_insert_Some; [done|by apply (wo_idle _ Hok j)].
  - split; [done|apply Hok].
  - intros e He. rewrite Hp in He. apply lookup_insert_is_Some. apply elem_of_app in He as [He|He].
    + left. destruct nc; cbn in He; [|by apply elem_of_nil in He]. apply list_elem_of_singleton in He. by subst e.
    + destruct (decide (i = instance e)); [by left|right]. split; [done|]. by apply (wo_known _ Hok).
  - intros e sj He Hs. rewrite Hp in He. apply elem_of_app in He as [He|He].
    + destruct nc; cbn in He; [|by apply elem_of_nil in He]. apply list_elem_of_singleton in He. subst e. cbn in *.
      rewrite lookup_insert_eq in Hs. simplify_eq. lia.
    + apply lookup_insert_Some in Hs as [(Hie & <-)|[Hn Hs]]; [|by apply (wo_past _ Hok)].
      pose proof (wo_past _ Hok e s He). rewrite <- Hie in *. naive_solver lia.
  - intros j sj Hs. unfold current_entries. rewrite Hp, current_entries_app, filter_pending.
    apply lookup_insert_Some in Hs as [(<- & <-)|[Hn Hs]].
    + rewrite decide_True by done. pose proof (current_entries_future w i s (generation s') Hok Hi) as Hz.
      unfold current_entries in Hz. rewrite Hz by lia. lia.
    + rewrite decide_False by tauto. apply (wo_count _ Hok _ _ Hs).
Qed.

Lemma watch_ok_new : watch_ok watch_new.
Proof.
  split; cbn; try done; by intros e ?%elem_of_nil.
Qed.

Lemma watch_ok_new_guard w i :
  watch_ok w -> guards w !! i = None -> watch_ok (with_guard w i guard_new).
Proof.
  intros Hok Hi. assert (Hn : forall e, e ∈ all_entries w -> instance e <> i).
  { intros e He Hie. destruct (wo_known _ Hok _ He). congruence. }
  split; unfold with_guard; cbn.
  - intros j. rewrite (wo_armed _ Hok). unfold armed_turn. cbn. destruct (decide (i = j)) as [->|].
    + by rewrite lookup_insert_eq, Hi.
    + by rewrite lookup_insert_ne.
  - intros j s [(-> & <-)|[? Hs]]%lookup_insert_Some; [done|by apply (wo_idle _ Hok j)].
  - apply Hok.
  - intros e He. apply lookup_insert_is_Some. right. split; [by apply not_eq_sym, Hn|by apply (wo_known _ Hok)].
  - intros e s He. rewrite lookup_insert_ne by (by apply not_eq_sym, Hn). by apply (wo_past _ Hok).
  - intros j s [(<- & <-)|[? Hs]]%lookup_insert_Some; [|by apply (wo_count _ Hok)].
    apply current_none. intros e He [Hc _]. by apply (Hn e He).
Qed.

Lemma watch_ok_set_for w i t token now read s :
  watch_ok w -> guards w !! i = Some s ->
  watch_ok (mk_Watch (<[i := guard_arm s t token]> (guards w)) (heap w)
    (pending_entry i (generation s + 1) (next_check_for t now (cpu_reading t read)) ++ in_flight w) (popped w)
    (Armed i token t :: history w)).
Proof.
  intros Hok Hs. eapply (watch_ok_bump w _ i s (guard_arm s t token)); try done.
  - unfold all_entries. cbn -[pending_entry]. rewrite !app_assoc.
    by rewrite (Permutation_app_comm (option_list _) (pending_entry _ _ _)).
  - unfold watched. cbn. pose proof (next_check_some t now read) as Hn.
    destruct (next_check_for _ _ _), (capped t); cbn; try done; exfalso.
    + discriminate (proj1 Hn (ex_intro _ _ eq_refl)).
    + by destruct (proj2 Hn eq_refl).
Qed.

Lemma watch_ok_clear w i s :
  watch_ok w -> guards w !! i = Some s -> watch_ok (note (with_guard w i (guard_clear s)) (Cleared i)).
Proof.
  intros Hok Hs. by eapply (watch_ok_bump w _ i s (guard_clear s) None).
Qed.

Lemma watch_ok_abort w i token s :
  watch_ok w -> guards w !! i = Some s -> executing s = token ->
  watch_ok (note (with_guard w i (terminate_for s ReasonAbort)) (AbortedTurn i token)).
Proof.
  intros Hok Hs He. eapply (watch_ok_frame w); cbn; try done; [by intros j; cbn [guards with_guard note]; apply (same_face_insert _ _ s)|by eauto|].
  split; [|apply Hok]. cbn. intros Hne. rewrite (wo_armed _ Hok). unfold armed_turn. rewrite Hs. cbn.
  destruct (target s) as [t|] eqn:Ht; [cbn; rewrite He; eauto|]. pose proof (wo_idle _ Hok _ _ Hs Ht). lia.
Qed.

(** The popped entry is checked: its guard may have fired, and it is queued again as
    long as its turn is the current one. *)
Lemma watch_ok_recheck w e s s' nc evs :
  watch_ok w -> popped w = Some e -> guards w !! instance e = Some s ->
  generation s' = generation s -> target s' = target s -> executing s' = executing s ->
  (generation s = entry_generation e -> target s <> None -> is_Some nc) ->
  (generation s <> entry_generation e \/ target s = None -> nc = None) ->
  (forall j, last_armed j (evs ++ history w) = last_armed j (history w)) -> all_justified (evs ++ history w) ->
  watch_ok (mk_Watch (<[instance e := s']> (guards w)) (heap w)
    (pending_entry (instance e) (entry_generation e) nc ++ in_flight w) None (evs ++ history w)).
Proof.
  intros Hok Hp Hs Hg Ht He Hsome Hnone Hl Hj.
  assert (Hall : all_entries w = e :: in_flight w ++ heap w) by (unfold all_entries; by rewrite Hp).
  set (w' := mk_Watch _ _ _ _ _).
  assert (Hall' : all_entries w' = pending_entry (instance e) (entry_generation e) nc ++ in_flight w ++ heap w).
  { unfold all_entries, w'. cbn -[pending_entry]. by rewrite <- app_assoc. }
  apply (watch_ok_frame w); [done|by intros j; cbn [guards with_guard note]; apply (same_face_insert _ _ s)| | |done|done].
  - intros e'. rewrite Hall, Hall'. intros [Hin|Hin]%elem_of_app.
    + exists e. destruct nc; [|by apply elem_of_nil in Hin]. apply list_elem_of_singleton in Hin. subst e'.
      split; [left|done].
    + exists e'. split; [by right|done].
  - intros j sj Hsj. unfold current_entries. rewrite Hall, Hall', current_entries_app, filter_pending, filter_cons.
    unfold current at 2.
    destruct (decide (generation s = entry_generation e)) as [Hge|Hge]; [destruct (target s) as [t|] eqn:Hts|].
    + destruct Hsome as [at_ ->]; [done|done|]. cbn. by repeat case_decide.
    + rewrite Hnone by auto. cbn. case_decide as Hd; [|by case_decide].
      exfalso. destruct Hd as [Hej Hd]. subst j. rewrite Hs in Hsj. simplify_eq.
      pose proof (wo_count _ Hok _ _ Hs) as Hc. unfold watched in Hc. rewrite Hts in Hc. unfold current_entries in Hc.
      rewrite Hall, filter_cons, decide_True in Hc by done. done.
    + rewrite Hnone by auto. cbn. case_decide as Hd; [|by case_decide].
      exfalso. destruct Hd as [Hej Hd]. subst j. rewrite Hs in Hsj. by simplify_eq.
Qed.

Lemma watch_ok_check w e s now read :
  watch_ok w -> popped w = Some e -> guards w !! instance e = Some s ->
  let '(s', fired, nc) := check_deadline s (entry_generation e) now read in
  watch_ok (mk_Watch (<[instance e := s']> (guards w)) (heap w)
    (pending_entry (instance e) (entry_generation e) nc ++ in_flight w) None
    (match fired with Some r => [Fired (instance e) r now read] | None => [] end ++ history w)).
Proof.
  intros Hok Hp Hs.
  pose proof (fun s' nc evs => watch_ok_recheck w e s s' nc evs Hok Hp Hs) as Hframe.
  pose proof (wo_history _ Hok) as Hh.
  destruct (check_deadline_spec s (entry_generation e) now read)
    as [(t & Hg & Ht & [[Hx ->]|[(Hx & Hw & ->)|(Hx & Hw & ->)]])|[Hst ->]].
  - apply Hframe; cbn; try done; [intros [?|?]; congruence|]. split; [|done]. exists (executing s), t.
    rewrite (wo_armed _ Hok). unfold armed_turn. rewrite Hs. cbn. rewrite Ht. cbn. auto.
  - apply Hframe; cbn; try done; [intros [?|?]; congruence|]. split; [|done]. exists (executing s), t.
    rewrite (wo_armed _ Hok). unfold armed_turn. rewrite Hs. cbn. rewrite Ht. cbn. auto.
  - apply (Hframe _ _ []); cbn; try done; [|intros [?|?]; congruence]. intros _ _. apply next_check_some.
    destruct (capped t) eqn:Hcap; [done|]. exfalso. pose proof (wo_count _ Hok _ _ Hs) as Hc.
    unfold watched in Hc. rewrite Ht, Hcap in Hc. unfold current_entries, all_entries in Hc. rewrite Hp in Hc.
    cbn -[filter] in Hc. rewrite filter_cons, decide_True in Hc by done. done.
  - apply (Hframe _ _ []); cbn; try done. intros ? ?; destruct Hst; congruence.
Qed.

Lemma watch_exec_ok w o w' : watch_ok w -> watch_exec w o = Some w' -> watch_ok w'.
Proof.
  intros Hok. destruct o as [i|i t token now read|i|i|i token|k|k now|now read]; cbn.
  - destruct (guards w !! i) eqn:Hi; [done|]. intros [= <-]. by apply watch_ok_new_guard.
  - destruct (guards w !! i) as [s|] eqn:Hs; [|done]. intros [= <-]. by apply watch_ok_set_for.
  - destruct (guards w !! i) as [s|] eqn:Hs; [|done]. intros [= <-]. by apply watch_ok_clear.
  - destruct (guards w !! i) as [s|] eqn:Hs; [|done]. intros [= <-].
    apply (watch_ok_frame w); [done|by intros j; cbn [guards with_guard note]; apply (same_face_insert _ _ s)|by intros e He; exists e|done|done|apply Hok].
  - destruct (guards w !! i) as [s|] eqn:Hs; [|done]. cbn. unfold abort_executing.
    destruct (Z.eqb_spec (executing s) token); intros [= <-]; [by apply watch_ok_abort|].
    apply (watch_ok_frame w); [done|by intros j; cbn [guards with_guard note]; apply (same_face_insert _ _ s)|by intros e He; exists e|done|done|apply Hok].
  - destruct (in_flight w !! k) as [e|] eqn:He; [|done]. intros [= <-]. apply delete_Permutation in He.
    assert (Hp : all_entries w ≡ₚ option_list (popped w) ++ delete k (in_flight w) ++ e :: heap w).
    { unfold all_entries. rewrite He at 1. f_equiv. apply Permutation_middle. }
    apply (watch_ok_frame w); [done|by intros; apply same_face_refl| | |done|apply Hok].
    + intros e' Hin. exists e'. rewrite Hp. done.
    + intros. by apply current_entries_perm.
  - destruct (heap w !! k) as [e|] eqn:He; [|done]. cbn. case_bool_decide as Hd; [|done]. intros [= <-].
    destruct Hd as [Hn _]. apply delete_Permutation in He.
    assert (Hp : all_entries w ≡ₚ e :: in_flight w ++ delete k (heap w)).
    { unfold all_entries. rewrite Hn. cbn. rewrite He at 1. by rewrite <- Permutation_middle. }
    apply (watch_ok_frame w); [done|by intros; apply same_face_refl| | |done|apply Hok].
    + intros e' Hin. exists e'. rewrite Hp. done.
    + intros. by apply current_entries_perm.
  - destruct (popped w) as [e|] eqn:He; [|done]. cbn. destruct (guards w !! instance e) as [s|] eqn:Hs; [|done]. cbn.
    pose proof (watch_ok_check w e s now read Hok He Hs) as Hc.
    destruct (check_deadline _ _ _ _) as [[s' fired] nc]. intros [= <-]. done.
Qed.

Lemma watch_steps_ok w os w' : watch_ok w -> watch_steps w os w' -> watch_ok w'.
Proof. intros Hok Hs. induction Hs; eauto using watch_exec_ok. Qed.

(** ** A pass of the watchdog *)

Definition due_count (now : Z) (h : list WatchEntry) : nat := length (filter (fun e => next_check e <= now) h).

Lemma watch_steps_app w os w' os' w'' :
  watch_steps w os w' -> watch_steps w' os' w'' -> watch_steps w (os ++ os') w''.
Proof. induction 1; cbn; [done|]. intros. econstructor; eauto. Qed.

(** A heap with an entry has a least one. *)
Lemma heap_min (h : list WatchEntry) :
  h <> [] -> exists k e, h !! k = Some e /\ Forall (fun e' => next_check e <= next_check e') h.
Proof.
  induction h as [|x h IH]; [done|]. intros _. destruct h as [|y h'].
  - exists 0%nat, x. split; [done|]. by repeat constructor.
  - destruct IH as (k & e & Hk & Hf); [done|]. destruct (decide (next_check x <= next_check e)).
    + exists 0%nat, x. split; [done|]. constructor; [lia|]. eapply Forall_impl; [exact Hf|]. cbn. lia.
    + exists (S k), e. split; [done|]. constructor; [lia|done].
Qed.

(** Every instance keeps what it has armed, and its kills. *)
Definition keeps (gs gs' : gmap Z GuardShared) : Prop :=
  forall i s, gs !! i = Some s -> exists s', gs' !! i = Some s' /\ generation s' = generation s /\
    target s' = target s /\ terminations s <= terminations s'.

Lemma keeps_refl gs : keeps gs gs.
Proof. intros i s Hs. exists s. by repeat split. Qed.

Lemma keeps_trans a b c : keeps a b -> keeps b c -> keeps a c.
Proof.
  intros Hab Hbc i s Hs. destruct (Hab _ _ Hs) as (s1 & H1 & Hg1 & Ht1 & Hn1).
  destruct (Hbc _ _ H1) as (s2 & H2 & Hg2 & Ht2 & Hn2). exists s2. repeat split; [done|congruence..|lia].
Qed.

Definition exceeded (t : GuardTarget) (now : Z) (read : Z -> Z) : Prop := cpu_exceeded t read \/ wall_passed t now.

(** What a check leaves: the instance armed as before, no due entry, and a kill
    with its reason where a cap is exceeded. *)
Lemma check_outcome s g now read :
  let '(s', _, nc) := check_deadline s g now read in
  generation s' = generation s /\ target s' = target s /\ terminations s <= terminations s' /\
  (forall at_, nc = Some at_ -> now < at_) /\
  (forall t, generation s = g -> target s = Some t -> exceeded t now read ->
     terminations s < terminations s' /\ is_Some (reason (cell s'))).
Proof.
  destruct (check_deadline_spec s g now read)
    as [(t & Hg & Ht & [[Hx ->]|[(Hx & Hw & ->)|(Hx & Hw & ->)]])|[Hst ->]]; cbn;
    (split; [done|split; [done|split; [lia|split]]]).
  1, 3: intros at_ [= <-]; unfold from_millis; lia.
  1, 2: intros t' _ _ _; split; [lia|by eexists].
  - intros at_ Hat%next_check_floor. unfold from_millis in *. lia.
  - intros t' _ Ht' Hex. rewrite Ht in Ht'. simplify_eq. by destruct Hex.
  - done.
  - intros t' ? ? _. destruct Hst; congruence.
Qed.

(** The watchdog's part of the schedule. *)
Definition watchdog_op (now : Z) (read : Z -> Z) (o : watch_op) : Prop :=
  match o with Push _ => True | Pop _ n => n = now | CheckPopped n r => n = now /\ r = read | _ => False end.

(** One round: pop a due top, check it, push it again. *)
Lemma watchdog_round w now read k e :
  watch_ok w -> popped w = None -> in_flight w = [] -> heap w !! k = Some e -> next_check e <= now ->
  Forall (fun e' => next_check e <= next_check e') (heap w) ->
  exists os w' s s', Forall (watchdog_op now read) os /\ watch_steps w os w' /\
    popped w' = None /\ in_flight w' = [] /\
    (forall e', e' ∈ delete k (heap w) -> e' ∈ heap w') /\
    S (due_count now (heap w')) = due_count now (heap w) /\
    guards w !! instance e = Some s /\ guards w' = <[instance e := s']> (guards w) /\
    s' = (check_deadline s (entry_generation e) now read).1.1.
Proof.
  intros Hok Hp Hf Hk Hd Hmin. destruct (wo_known _ Hok e) as [s Hs].
  { unfold all_entries. rewrite !elem_of_app. right. right. by eapply list_elem_of_lookup_2. }
  pose proof (check_outcome s (entry_generation e) now read) as Hc.
  destruct (check_deadline s (entry_generation e) now read) as [[s' fired] nc] eqn:Hcd.
  destruct Hc as (_ & _ & _ & Hnc & _).
  set (hist := match fired with Some r => [Fired (instance e) r now read] | None => [] end ++ history w).
  set (w' := mk_Watch (<[instance e := s']> (guards w)) (pending_entry (instance e) (entry_generation e) nc ++ delete k (heap w)) [] None hist).
  exists (Pop k now :: CheckPopped now read :: (if nc then [Push 0] else [])), w', s, s'.
  split; [constructor; [done|constructor; [done|by destruct nc; repeat constructor]]|].
  split.
  - econstructor; [cbn; rewrite Hk; cbn; rewrite bool_decide_eq_true_2 by done; reflexivity|].
    econstructor; [cbn; rewrite Hs; cbn; rewrite Hcd; reflexivity|]. rewrite Hf. unfold w'. cbn.
    destruct nc; cbn; [|constructor]. econstructor; [reflexivity|constructor].
  - unfold w'; cbn. repeat split; try done.
    + intros e' He'. apply elem_of_app. by right.
    + unfold due_count. apply delete_Permutation in Hk. rewrite Hk at 2. rewrite filter_cons, decide_True by done.
      rewrite filter_app. destruct nc as [at_|]; cbn; [|done]. specialize (Hnc _ eq_refl).
      by rewrite decide_False by lia.
    + by rewrite Hcd.
Qed.

Lemma watchdog_pass n w now read :
  due_count now (heap w) = n -> watch_ok w -> popped w = None -> in_flight w = [] ->
  exists os w', Forall (watchdog_op now read) os /\ watch_steps w os w' /\ popped w' = None /\ in_flight w' = [] /\
    Forall (fun e => now < next_check e) (heap w') /\ keeps (guards w) (guards w') /\
    (forall e s t, e ∈ heap w -> next_check e <= now -> guards w !! instance e = Some s ->
       generation s = entry_generation e -> target s = Some t -> exceeded t now read ->
       exists s', guards w' !! instance e = Some s' /\ terminations s < terminations s').
Proof.
  revert w. induction n as [|n IH]; intros w Hn Hok Hp Hf.
  - assert (Hall : Forall (fun e => now < next_check e) (heap w)).
    { apply Forall_forall. intros e He. destruct (decide (next_check e <= now)); [|lia].
      assert (Hin : e ∈ filter (fun e => next_check e <= now) (heap w)) by (by apply list_elem_of_filter).
      unfold due_count in Hn. destruct (filter _ _); [by apply elem_of_nil in Hin|done]. }
    exists [], w. split_and!; try done; [constructor|apply keeps_refl|].
    intros e s t He Hd. rewrite Forall_forall in Hall. specialize (Hall _ He). lia.
  - destruct (heap_min (heap w)) as (k & e & Hk & Hmin); [by intros Hh; rewrite Hh in Hn|].
    assert (Hd : next_check e <= now).
    { destruct (decide (next_check e <= now)); [done|]. exfalso. unfold due_count in Hn.
      destruct (filter _ (heap w)) as [|x l] eqn:Hfl; [done|].
      assert (Hx : x ∈ filter (fun e => next_check e <= now) (heap w)) by (rewrite Hfl; left).
      apply list_elem_of_filter in Hx as [Hx1 Hx2]. rewrite Forall_forall in Hmin. specialize (Hmin _ Hx2). lia. }
    destruct (watchdog_round w now read k e) as (os & w1 & s1 & s1' & Hos & Hst & Hp1 & Hf1 & Hin1 & Hc1 & Hs1 & Hg1 & Hs1'); [done..|].
    pose proof (check_outcome s1 (entry_generation e) now read) as Hco.
    destruct (check_deadline _ _ _ _) as [[sx fired] nc]. cbn in Hs1'. subst sx.
    destruct Hco as (Hgen & Htgt & Hterm & _ & Hkill).
    assert (Hkeep : keeps (guards w) (guards w1)).
    { rewrite Hg1. intros i s Hs. destruct (decide (instance e = i)) as [<-|Hne].
      - rewrite lookup_insert_eq. rewrite Hs1 in Hs. simplify_eq. exists s1'. by repeat split.
      - rewrite lookup_insert_ne by done. exists s. by repeat split. }
    destruct (IH w1) as (os' & w2 & Hos' & Hst' & Hp2 & Hf2 & Hd2 & Hkeep2 & Hfire2);
      [lia|by eapply watch_steps_ok|done|done|].
    exists (os ++ os'), w2. split_and!; try done.
    + by apply Forall_app.
    + by eapply watch_steps_app.
    + by eapply keeps_trans.
    + intros e' s t He' Hd' Hs Hg Ht Hex. destruct (Hkeep _ _ Hs) as (s2 & Hs2 & Hg2 & Ht2 & Hn2).
      rewrite (delete_Permutation _ _ _ Hk) in He'. apply elem_of_cons in He' as [->|He'].
      * rewrite Hs in Hs1. simplify_eq. rewrite Hg1, lookup_insert_eq in Hs2. simplify_eq.
        destruct (Hkill t) as [Hlt _]; [done..|].
        destruct (Hkeep2 (instance e) s2) as (s3 & Hs3 & _ & _ & Hn3); [by rewrite Hg1, lookup_insert_eq|].
        exists s3. split; [done|lia].
      * destruct (Hfire2 e' s2 t) as (s3 & Hs3 & Hlt); [by apply Hin1|done|done|congruence|congruence|done|].
        exists s3. split; [done|lia].
Qed.

Lemma all_justified_at newer ev past : all_justified (newer ++ ev :: past) -> justified past ev.
Proof. induction newer as [|x newer IH]; cbn; [by intros []|intros []; auto]. Qed.

(** ** The budget *)

(** With a thread clock that runs no faster than the wall clock, neither does
    the budget. *)
Lemma elapsed_rate b (clock : Z -> Z) now tau :
  (forall x y, x <= y -> 0 <= clock y - clock x <= y - x) -> now <= tau ->
  0 <= elapsed_ns b (clock tau) - elapsed_ns b (clock now) <= tau - now.
Proof.
  intros Hc Ht. specialize (Hc _ _ Ht). unfold elapsed_ns, sat_sub. destruct (epoch b); lia.
Qed.

(** What is parked is not charged: a closed budget reads the same at every
    clock, and an epoch adds what the clock advanced in it. *)
Lemma budget_epoch b enter_ns leave_ns read :
  epoch b = None -> enter_ns <= leave_ns ->
  elapsed_ns (budget_leave (budget_enter b enter_ns) leave_ns) read = elapsed_ns b read + (leave_ns - enter_ns).
Proof. intros Hb Hle. unfold elapsed_ns, budget_leave, budget_enter, sat_sub. cbn. rewrite Hb. lia. Qed.

(** ** Claims *)

Definition demo_target : GuardTarget := mk_GuardTarget 1 10 (Some 50000000).
Definition demo_read (ms : Z) : Z -> Z := fun _ => ms.
(** Two instances: a capped turn that exceeds its CPU cap, and a turn that is
    aborted, cleared and aborted again. *)
Definition demo_ops : list watch_op :=
  [NewGuard 1; NewGuard 2; SetFor 1 demo_target 7 0 (demo_read 0); SetFor 2 (mk_GuardTarget 2 0 None) 9 0 (demo_read 0); Push 0;
   HardAbort 2 9; Clear 2; HardAbort 2 9; Pop 0 10000000; CheckPopped 10000000 (demo_read 4); Push 0;
   Pop 0 16000000; CheckPopped 16000000 (demo_read 11); Push 0].

Fixpoint watch_exec_all (w : Watch) (os : list watch_op) : option Watch :=
  match os with [] => Some w | o :: os => w' ← watch_exec w o; watch_exec_all w' os end.

Lemma watch_exec_all_steps os w w' : watch_exec_all w os = Some w' -> watch_steps w os w'.
Proof.
  revert w. induction os as [|o os IH]; cbn; intros w; [intros [= ->]; constructor|].
  destruct (watch_exec w o) eqn:Ho; [|done]. cbn. intros. econstructor; eauto.
Qed.

Definition demo_watch : Watch := default watch_new (watch_exec_all watch_new demo_ops).

Lemma demo_steps : watch_steps watch_new demo_ops demo_watch.
Proof. apply watch_exec_all_steps. vm_compute. reflexivity. Qed.

(** The kills of a history are each justified by the events before it. *)
Lemma history_justified os w newer ev past :
  watch_steps watch_new os w -> history w = newer ++ ev :: past -> justified past ev.
Proof.
  intros Hs Hh. pose proof (wo_history _ (watch_steps_ok _ _ _ watch_ok_new Hs)) as Hj.
  rewrite Hh in Hj. by eapply all_justified_at.
Qed.

Lemma armed_turn_last w i s t : watch_ok w -> guards w !! i = Some s -> target s = Some t -> last_armed i (history w) = Some (executing s, t).
Proof. intros Hok Hs Ht. rewrite (wo_armed _ Hok). unfold armed_turn. rewrite Hs. cbn. by rewrite Ht. Qed.

(** Whether a step is the reset of the reason of instance [i]. *)
Definition reset_at (o : watch_op) (i : Z) : bool := match o with ResetReason j => j =? i | _ => false end.

(** C17. Every kill hits the turn it is meant for and leaves its own reason, however
    owner threads, frontends and the watchdog interleave.  In any reachable state a
    step either leaves an instance's terminations and its reason cell as they are (a
    reset clears the reason), or it terminates the instance once, and the reason of
    this kill goes to the cell unless one is there already.  Then either the step is a
    hard abort naming the token of the turn the instance executes - such an abort
    always kills; the last thing the owner did was to arm that turn - or it is the
    watchdog checking an entry of the present generation: the last thing the owner
    did was to arm a turn, whose CPU cap is used up, or else whose wall deadline has
    passed.  So nothing fires between a clear and the next arm, and no entry of an
    earlier turn fires in a later one. *)
Theorem kills_are_justified os w o w' i s s' :
  watch_steps watch_new os w -> watch_exec w o = Some w' -> guards w !! i = Some s -> guards w' !! i = Some s' ->
  (terminations s' = terminations s /\ reason (cell s') = (if reset_at o i then None else reason (cell s)) /\
    o <> HardAbort i (executing s)) \/
  (exists r, terminations s' = terminations s + 1 /\ reason (cell s') = Some (default r (reason (cell s))) /\
    ((o = HardAbort i (executing s) /\ r = ReasonAbort /\
      (executing s <> 0 -> exists t, last_armed i (history w) = Some (executing s, t))) \/
     (exists now read e t, o = CheckPopped now read /\ popped w = Some e /\ instance e = i /\ entry_generation e = generation s /\
       last_armed i (history w) = Some (executing s, t) /\
       ((r = ReasonCpu /\ cpu_exceeded t read) \/ (r = ReasonWall /\ ~ cpu_exceeded t read /\ wall_passed t now))))).
Proof.
  intros Hst Hex Hi Hi'. pose proof (watch_steps_ok _ _ _ watch_ok_new Hst) as Hok.
  assert (Hsame : guards w' = guards w -> reset_at o i = false -> (forall j tok, o <> HardAbort j tok) ->
    terminations s' = terminations s /\ reason (cell s') = (if reset_at o i then None else reason (cell s)) /\ o <> HardAbort i (executing s)).
  { intros Hg Hr Ha. rewrite Hg, Hi in Hi'. injection Hi' as ->. rewrite Hr. by split_and!. }
  assert (Hput : forall j x x', guards w !! j = Some x -> guards w' = <[j := x']> (guards w) -> terminations x' = terminations x ->
    (j = i -> o <> HardAbort i (executing s)) -> (j <> i -> o <> HardAbort i (executing s)) ->
    reason (cell x') = (if reset_at o j then None else reason (cell x)) -> (j <> i -> reset_at o i = false) ->
    terminations s' = terminations s /\ reason (cell s') = (if reset_at o i then None else reason (cell s)) /\ o <> HardAbort i (executing s)).
  { intros j x x' Hj Hg Ht Ha Ha' Hr Hr'. rewrite Hg in Hi'. destruct (decide (j = i)) as [->|Hne].
    - rewrite lookup_insert_eq in Hi'. injection Hi' as <-. rewrite Hi in Hj. injection Hj as ->. split_and!; [done|exact Hr|by apply Ha].
    - rewrite lookup_insert_ne, Hi in Hi' by done. injection Hi' as ->. rewrite Hr' by done. by split_and!; [..|apply Ha']. }
  destruct o as [j|j t token now read|j|j|j token|k|k now|now read]; cbn in Hex.
  - left. destruct (guards w !! j) eqn:Hj; [done|]. injection Hex as <-. cbn in Hi'. rewrite lookup_insert_ne, Hi in Hi' by (intros ->; congruence).
    injection Hi' as ->. by split_and!.
  - left. destruct (guards w !! j) as [x|] eqn:Hj; [|done]. injection Hex as <-. by apply (Hput j x (guard_arm x t token)).
  - left. destruct (guards w !! j) as [x|] eqn:Hj; [|done]. injection Hex as <-. by apply (Hput j x (guard_clear x)).
  - left. destruct (guards w !! j) as [x|] eqn:Hj; [|done]. injection Hex as <-. cbn [guards with_guard] in *.
    eapply (Hput j x); [done|done|done|done|done| |intros Hne; cbn; by apply Z.eqb_neq]. cbn. by rewrite Z.eqb_refl.
  - destruct (guards w !! j) as [x|] eqn:Hj; [|done]. cbn in Hex. unfold abort_executing in Hex.
    destruct (Z.eqb_spec (executing x) token) as [Hx|Hx]; injection Hex as <-; cbn [guards with_guard note] in *.
    + destruct (decide (j = i)) as [->|Hne].
      * right. rewrite lookup_insert_eq in Hi'. injection Hi' as <-. rewrite Hi in Hj. injection Hj as <-. exists ReasonAbort.
        split; [done|]. split; [done|]. left. split; [by rewrite Hx|]. split; [done|]. intros H0.
        destruct (target s) as [t|] eqn:Ht; [exists t; by apply armed_turn_last|]. by pose proof (wo_idle _ Hok _ _ Hi Ht).
      * left. rewrite lookup_insert_ne, Hi in Hi' by done. injection Hi' as ->. split_and!; [done|done|]. intros [= ? ?]. by apply Hne.
    + left. apply (Hput j x x); try done; [|by intros Hne [= Hji]]. intros -> [= Heq]. rewrite Hi in Hj. injection Hj as ->. by apply Hx.
  - left. destruct (in_flight w !! k) as [e|]; [|done]. injection Hex as <-. by apply Hsame.
  - left. destruct (heap w !! k) as [e|]; [|done]. cbn in Hex. case_bool_decide; [|done]. injection Hex as <-. by apply Hsame.
  - destruct (popped w) as [e|] eqn:He; [|done]. cbn in Hex. destruct (guards w !! instance e) as [x|] eqn:Hx; [|done]. cbn in Hex.
    destruct (check_deadline_spec x (entry_generation e) now read) as [(t & Hg & Ht & Hcases)|[_ Hc]].
    + destruct (decide (instance e = i)) as [Hei|Hne].
      * rewrite Hei, Hi in Hx. injection Hx as <-. pose proof (armed_turn_last w i s t Hok Hi Ht) as Hl.
        destruct Hcases as [[Hcpu Hc]|[(Hcpu & Hw & Hc)|(Hcpu & Hw & Hc)]]; rewrite Hc in Hex; injection Hex as <-; cbn [guards] in Hi';
          rewrite Hei, lookup_insert_eq in Hi'; injection Hi' as <-.
        -- right. exists ReasonCpu. split; [done|]. split; [done|]. right. exists now, read, e, t. split_and!; try done. by left.
        -- right. exists ReasonWall. split; [done|]. split; [done|]. right. exists now, read, e, t. split_and!; try done. by right.
        -- left. by split_and!.
      * left. assert (Hi2 : <[instance e := (check_deadline x (entry_generation e) now read).1.1]> (guards w) !! i = Some s').
        { destruct (check_deadline _ _ _ _) as [[s1 f] nc]. by injection Hex as <-. }
        rewrite lookup_insert_ne, Hi in Hi2 by done. injection Hi2 as ->. by split_and!.
    + left. rewrite Hc in Hex. injection Hex as <-. by apply (Hput (instance e) x x).
Qed.

(** The watchdog's last check: the turn of instance 1 is killed for its CPU time. *)
Lemma kills_are_justified_witness :
  exists w w' s s', watch_steps watch_new (take 12 demo_ops) w /\ watch_exec w (CheckPopped 16000000 (demo_read 11)) = Some w' /\
    guards w !! 1 = Some s /\ guards w' !! 1 = Some s' /\ terminations s' = 1 /\ reason (cell s') = Some ReasonCpu /\
    last_armed 1 (history w) = Some (7, demo_target).
Proof.
  set (w := default watch_new (watch_exec_all watch_new (take 12 demo_ops))).
  assert (Hs : watch_steps watch_new (take 12 demo_ops) w) by (apply watch_exec_all_steps; vm_compute; reflexivity).
  exists w. eexists. exists (mk_GuardShared (Some demo_target) 7 1 0 reason_new), (mk_GuardShared (Some demo_target) 7 1 1 (mk_ReasonCell (Some ReasonCpu) false)).
  split; [exact Hs|]. split; [vm_compute; reflexivity|]. split; [vm_compute; reflexivity|]. split; [vm_compute; reflexivity|].
  destruct (kills_are_justified (take 12 demo_ops) w (CheckPopped 16000000 (demo_read 11)) _ 1 (mk_GuardShared (Some demo_target) 7 1 0 reason_new)
    (mk_GuardShared (Some demo_target) 7 1 1 (mk_ReasonCell (Some ReasonCpu) false)) Hs ltac:(vm_compute; reflexivity) ltac:(vm_compute; reflexivity) ltac:(vm_compute; reflexivity))
    as [(Ht & _)|(r & Ht & Hr & [(Ho & _)|(now & read & e & t & Ho & _ & _ & _ & Hl & _)])]; [discriminate Ht|discriminate Ho|].
  split; [reflexivity|]. split; [reflexivity|]. vm_compute. reflexivity.
Defined.

(** An armed turn with a cap is watched by exactly one entry of its own
    generation, wherever it is (on its way to the heap, in the heap, in the
    watchdog's hands), and an idle or uncapped instance by none: no cap goes
    unenforced, and stale entries are recognised as such. *)
Theorem armed_turns_watched os w i s :
  watch_steps watch_new os w -> guards w !! i = Some s ->
  current_entries w i (generation s) = watched s /\
  (forall e, e ∈ all_entries w -> instance e = i -> entry_generation e <= generation s).
Proof.
  intros Hs Hi. pose proof (watch_steps_ok _ _ _ watch_ok_new Hs) as Hok. split; [by apply (wo_count _ Hok)|].
  intros e He Hie. apply (wo_past _ Hok); [done|]. by rewrite Hie.
Qed.

Lemma armed_turns_watched_witness :
  exists s, guards demo_watch !! 1 = Some s /\ current_entries demo_watch 1 (generation s) = 1%nat.
Proof.
  exists (mk_GuardShared (Some demo_target) 7 1 1 (mk_ReasonCell (Some ReasonCpu) false)).
  split; [vm_compute; reflexivity|].
  apply (armed_turns_watched demo_ops demo_watch 1); [apply demo_steps|vm_compute; reflexivity].
Defined.

(** C25. The watchdog enforces what is due: from any reachable state in which it
    is about to look at its heap, its own steps at that moment lead to a heap
    with nothing due, and every instance with a due entry of its armed turn and
    an exceeded cap has been terminated; nothing is disarmed on the way. *)
Theorem watchdog_enforces os w now read :
  watch_steps watch_new os w -> popped w = None -> in_flight w = [] ->
  exists os' w', Forall (watchdog_op now read) os' /\ watch_steps w os' w' /\
    Forall (fun e => now < next_check e) (heap w') /\ keeps (guards w) (guards w') /\
    (forall e s t, e ∈ heap w -> next_check e <= now -> guards w !! instance e = Some s ->
       generation s = entry_generation e -> target s = Some t -> exceeded t now read ->
       exists s', guards w' !! instance e = Some s' /\ terminations s < terminations s').
Proof.
  intros Hs Hp Hf.
  destruct (watchdog_pass _ w now read eq_refl (watch_steps_ok _ _ _ watch_ok_new Hs) Hp Hf)
    as (os' & w' & Ho & Hst & _ & _ & Hd & Hk & Hx). by exists os', w'.
Qed.

Lemma watchdog_enforces_witness :
  exists os' w', Forall (watchdog_op 60000000 (demo_read 12)) os' /\ watch_steps demo_watch os' w' /\
    Forall (fun e => 60000000 < next_check e) (heap w').
Proof.
  destruct (watchdog_enforces demo_ops demo_watch 60000000 (demo_read 12)) as (os' & w' & H1 & H2 & H3 & _);
    [apply demo_steps|vm_compute; reflexivity|vm_compute; reflexivity|]. exists os', w'. auto.
Defined.

(** The next check is late by less than a millisecond plus the floor: it
    exists exactly for a target with a cap; it is at least a millisecond away;
    it is not after the wall deadline (or the floor), and the CPU cap, as the
    watchdog reads it in whole milliseconds, is not reached a millisecond before
    it, if the thread clock runs no faster than the wall clock. *)
Theorem next_check_lateness t b (clock : Z -> Z) now :
  (forall x y, x <= y -> 0 <= clock y - clock x <= y - x) ->
  match next_check_for t now (cpu_reading t (fun _ => elapsed_ms b (clock now))) with
  | None => cpu_cap_ms t <= 0 /\ wall_deadline t = None
  | Some nc =>
    now + from_millis 1 <= nc /\
    (forall d, wall_deadline t = Some d -> nc <= Z.max d (now + from_millis 1)) /\
    (forall tau, now <= tau -> 0 < cpu_cap_ms t -> cpu_cap_ms t <= elapsed_ms b (clock tau) -> nc <= tau + from_millis 1)
  end.
Proof.
  intros Hc. destruct (next_check_for _ _ _) as [nc|] eqn:Hn.
  - split; [by eapply next_check_floor|]. unfold next_check_for, cpu_reading, elapsed_ms, sat_sub, from_millis in *. split.
    + intros d Hd. rewrite Hd in Hn. destruct (0 <? cpu_cap_ms t); cbn in Hn; simplify_eq; lia.
    + intros tau Ht Hcap Hex. pose proof (elapsed_rate b clock now tau Hc Ht) as Hr.
      destruct (Z.ltb_spec 0 (cpu_cap_ms t)); [|lia]. cbn in Hn.
      assert (Hcpu : nc <= Z.max (now + Z.max 0 (cpu_cap_ms t - elapsed_ns b (clock now) / 1000000) * 1000000) (now + 1 * 1000000))
        by (destruct (wall_deadline t); cbn in Hn; simplify_eq; lia).
      pose proof (Z.div_mod (elapsed_ns b (clock now)) 1000000) as Hd1. pose proof (Z.mod_pos_bound (elapsed_ns b (clock now)) 1000000).
      pose proof (Z.div_mod (elapsed_ns b (clock tau)) 1000000) as Hd2. pose proof (Z.mod_pos_bound (elapsed_ns b (clock tau)) 1000000).
      lia.
  - assert (Hcap : capped t = false).
    { destruct (capped t) eqn:Hcap; [|done]. apply (next_check_some t now (fun _ => elapsed_ms b (clock now))) in Hcap.
      rewrite Hn in Hcap. by destruct Hcap. }
    unfold capped in Hcap. apply orb_false_elim in Hcap as [H1%Z.ltb_ge H2%bool_decide_eq_false]. split; [done|].
    destruct (wall_deadline t); [|done]. by destruct H2.
Qed.

(** A turn that has used 5.9 of its 10 ms: the cap is reached after 4.1 ms,
    the next check is after 5. *)
Lemma next_check_lateness_witness :
  next_check_for (mk_GuardTarget 1 10 None) 0 (cpu_reading (mk_GuardTarget 1 10 None) (fun _ => elapsed_ms (mk_CpuBudget 5900000 (Some 0)) 0))
    = Some 5000000 /\ elapsed_ms (mk_CpuBudget 5900000 (Some 0)) 4100000 = 10 /\ 5000000 <= 4100000 + from_millis 1.
Proof.
  split; [vm_compute; reflexivity|]. split; [vm_compute; reflexivity|].
  apply (next_check_lateness (mk_GuardTarget 1 10 None) (mk_CpuBudget 5900000 (Some 0)) (fun x => x) 0);
    [intros; lia|lia|cbn; lia|vm_compute; discriminate].
Defined.

(** A message for a run is either sent to its channel as it is, under its
    token, or it is a hard Terminate that landed: then the run's own turn is
    armed on its instance, and that instance has been terminated with a reason
    set. A hard Terminate is sent to the channel only when the run's turn is not
    executing. *)
Theorem deliver_lands_or_routes os w h msg :
  watch_steps watch_new os w -> rh_token h <> 0 ->
  match deliver w h msg with
  | (w', Some sent) => w' = w /\ sent = (rh_token h, msg) /\
      (msg = ITerminate Hard -> forall i s, rh_ctl h = Some i -> guards w !! i = Some s -> executing s <> rh_token h)
  | (w', None) => msg = ITerminate Hard /\ exists i s t, rh_ctl h = Some i /\ guards w !! i = Some s /\
      last_armed i (history w) = Some (rh_token h, t) /\
      w' = note (with_guard w i (terminate_for s ReasonAbort)) (AbortedTurn i (rh_token h))
  end.
Proof.
  intros Hs Htok. pose proof (watch_steps_ok _ _ _ watch_ok_new Hs) as Hok. unfold deliver.
  destruct msg as [| | | | |[]|]; try (split; [done|split; [done|done]]).
  destruct (rh_ctl h) as [i|] eqn:Hi; [|by split; [|split]].
  destruct (guards w !! i) as [s|] eqn:Hg; [|split; [done|split; [done|naive_solver]]].
  unfold abort_executing at 1. destruct (Z.eqb_spec (executing s) (rh_token h)) as [He|He]; cbn.
  - split; [done|]. rewrite Hg. cbn. unfold abort_executing. destruct (Z.eqb_spec (executing s) (rh_token h)); [|done]. cbn.
    destruct (target s) as [t|] eqn:Ht; [|pose proof (wo_idle _ Hok _ _ Hg Ht); congruence].
    exists i, s, t. split; [done|split; [done|split; [|done]]].
    rewrite (wo_armed _ Hok). unfold armed_turn. rewrite Hg. cbn. rewrite Ht. cbn. by rewrite He.
  - split; [done|split; [done|]]. intros _ i' s' [= <-] Hg'. congruence.
Qed.

Lemma deliver_lands_or_routes_witness :
  (deliver demo_watch (mk_RunHandle 7 3 (Some 1)) (ITerminate Hard)).2 = None /\
  match deliver demo_watch (mk_RunHandle 9 4 (Some 2)) (ITerminate Hard) with
  | (w', Some sent) => sent = (9, ITerminate Hard)
  | (_, None) => False
  end.
Proof.
  split; [vm_compute; reflexivity|].
  pose proof (deliver_lands_or_routes demo_ops demo_watch (mk_RunHandle 9 4 (Some 2)) (ITerminate Hard) demo_steps ltac:(done)) as H.
  destruct (deliver _ _ _) as [w' [sent|]] eqn:Hd; [by destruct H as (_ & H & _)|].
  vm_compute in Hd. discriminate.
Defined.
