(* ===== verification/Isolate.v ===== *)
(** * What an isolate charges and why it is stopped ([crates/core/src/v8/isolate.rs])

    The allocator that counts the bytes behind typed arrays against the memory
    budget, the callback V8 calls near its heap limit, the refusal of dynamic
    [import()], and the creation of a capped isolate.  All of them report to the
    reason cell of [Guard.v] and request termination there.  A backing store is the
    address the process's allocator gives for it; what a fresh one contains is not
    part of the model. *)

From S2P Require Import Prelude Bytes Text Utf16 F64 Types Errors Link Timers Guard.

(** ** The budget allocator *)

Definition usize_wrap (n : Z) : Z := n mod 2 ^ 64.

(** [handle]: whether the isolate's handle has been stored yet. *)
Record BudgetAllocState := mk_BudgetAllocState { used : Z; alloc_budget : Z; handle : bool }.

Definition with_used (a : BudgetAllocState) (n : Z) : BudgetAllocState := mk_BudgetAllocState n (alloc_budget a) (handle a).

(** The new counter, and whether the guest is to be stopped. *)
Definition check_and_maybe_terminate (a : BudgetAllocState) (g : GuardShared) (n : Z) : BudgetAllocState * GuardShared :=
  let prev := used a in
  let a := with_used a (usize_wrap (prev + n)) in
  (a, if (alloc_budget a <? Z.min (prev + n) u64_max) && handle a then terminate_for g ReasonMemory else g).

(** [budget_alloc_alloc] and [budget_alloc_alloc_uninit]: [p] is where the
    process's allocator puts the bytes; null is [None]. *)
Definition budget_alloc_alloc (a : BudgetAllocState) (g : GuardShared) (n p : Z) : BudgetAllocState * GuardShared * option Z :=
  if n =? 0 then (a, g, None) else (check_and_maybe_terminate a g n, Some p).

Definition budget_alloc_free (a : BudgetAllocState) (data : option Z) (n : Z) : BudgetAllocState :=
  match data with
  | None => a
  | Some _ => if n =? 0 then a else with_used a (usize_wrap (used a - n))
  end.

(** ** Near the heap limit *)

(** The reason and the termination, and the limit V8 goes on with. *)
Definition near_heap_limit_cb (g : GuardShared) (current_heap_limit : Z) : GuardShared * Z :=
  (terminate_for g ReasonMemory, current_heap_limit + 32 * 1024 * 1024).

(** ** Dynamic import *)

Definition IMPORT_HEAD : nat := 256.

Definition import_message (specifier : list Z) : string :=
  let cut := (IMPORT_HEAD <? length specifier)%nat in
  let head := take IMPORT_HEAD specifier in
  let head := if cut then trim_lead head else head in
  "dynamic import() is not supported: '" +:+ utf16_lossy head +:+ (if cut then "…" else "") +:+ "'".

(** [landed]: whether the script run after the termination was interrupted; if not
    the guest gets a promise that never settles.  [slot]: whether the isolate has
    the reason's slot. *)
Definition dynamic_import_callback (slot landed : bool) (g : GuardShared) (specifier : list Z) : GuardShared * option unit :=
  let cell := if slot then reason_set (cell g) (ReasonImport (import_message specifier)) else cell g in
  (mk_GuardShared (target g) (executing g) (generation g) (terminations g + 1) cell, if landed then None else Some tt).

(** ** A capped isolate *)

Record Isolate := mk_Isolate {
  alloc_state : option BudgetAllocState;
  near_heap : bool;
  shared : GuardShared;
  heap_limit : Z;
}.

Definition with_shared (i : Isolate) (g : GuardShared) : Isolate := mk_Isolate (alloc_state i) (near_heap i) g (heap_limit i).

Definition capped_bytes (hard_memory_mb : Z) : Z := hard_memory_mb * 1024 * 1024.

(** What V8 allocates while it makes the isolate is counted, with no handle to stop
    it by. *)
Fixpoint boot_allocations (a : BudgetAllocState) (g : GuardShared) (boot : list (Z * Z)) : BudgetAllocState :=
  match boot with
  | [] => a
  | (p, n) :: boot => boot_allocations (budget_alloc_alloc a g n p).1.1 g boot
  end.

(** [default_limit]: the heap limit of an uncapped isolate. *)
Definition new_capped_isolate (hard_memory_mb default_limit : Z) (boot : list (Z * Z)) : Isolate :=
  let alloc :=
    if 0 <? hard_memory_mb then
      let a := boot_allocations (mk_BudgetAllocState 0 (capped_bytes hard_memory_mb) false) guard_new boot in
      Some (mk_BudgetAllocState (used a) (alloc_budget a) true)
    else None in
  mk_Isolate alloc (0 <? hard_memory_mb) guard_new (if 0 <? hard_memory_mb then capped_bytes hard_memory_mb else default_limit).

(** What happens to an isolate over its life: V8 allocates and frees backing
    stores and calls back, the guest imports, a guard or an abort fires, and a call
    begins with a fresh reason. *)
Inductive isolate_op :=
  | OpAlloc (n p : Z)
  | OpFree (data : option Z) (n : Z)
  | OpNearHeap
  | OpImport (landed : bool) (specifier : list Z)
  | OpFired (r : TerminationReason)
  | OpReset.

Definition isolate_exec (i : Isolate) (o : isolate_op) : Isolate :=
  match o with
  | OpAlloc n p =>
    match alloc_state i with
    | Some a => let '(a, g, _) := budget_alloc_alloc a (shared i) n p in mk_Isolate (Some a) (near_heap i) g (heap_limit i)
    | None => i
    end
  | OpFree data n => mk_Isolate ((fun a => budget_alloc_free a data n) <$> alloc_state i) (near_heap i) (shared i) (heap_limit i)
  | OpNearHeap =>
    if near_heap i then let '(g, limit) := near_heap_limit_cb (shared i) (heap_limit i) in mk_Isolate (alloc_state i) (near_heap i) g limit
    else i
  | OpImport landed specifier => with_shared i (dynamic_import_callback true landed (shared i) specifier).1
  | OpFired r => with_shared i (terminate_for (shared i) r)
  | OpReset =>
    let g := shared i in
    with_shared i (mk_GuardShared (target g) (executing g) (generation g) (terminations g) (reason_reset (cell g)))
  end.

Definition isolate_run (i : Isolate) (os : list isolate_op) : Isolate := fold_left isolate_exec os i.

(** ** The idle settle *)

Definition idle_settle_after (idle_settle_secs : Z) : option Z :=
  if idle_settle_secs =? 0 then None else Some (from_millis (idle_settle_secs * 1000)).

(** ** What is live, and what stops the guest

    The abstract account of an isolate: the live backing stores, the causes to stop
    the guest since the last reset, oldest first, and how many there were in all. *)

Record Account := mk_Account { live : gmap Z Z; causes : list TerminationReason; requested : Z }.

Definition total (m : gmap Z Z) : Z := map_fold (fun _ n acc => n + acc) 0 m.

Definition caused (c : Account) (rs : list TerminationReason) : Account :=
  mk_Account (live c) (causes c ++ rs) (requested c + zlen rs).

Definition account (cap : option Z) (c : Account) (o : isolate_op) : Account :=
  match o with
  | OpAlloc n p =>
    match cap with
    | Some cap =>
      if n =? 0 then c
      else
        let m := <[p := n]> (live c) in
        caused (mk_Account m (causes c) (requested c)) (if cap <? total m then [ReasonMemory] else [])
    | None => c
    end
  | OpFree data n =>
    match data, cap with
    | Some p, Some _ => if n =? 0 then c else mk_Account (delete p (live c)) (causes c) (requested c)
    | _, _ => c
    end
  | OpNearHeap => match cap with Some _ => caused c [ReasonMemory] | None => c end
  | OpImport _ specifier => caused c [ReasonImport (import_message specifier)]
  | OpFired r => caused c [r]
  | OpReset => mk_Account (live c) [] (requested c)
  end.

(** V8 frees a store it has, with its size, and its stores fit the address space. *)
Definition sound_op (c : Account) (o : isolate_op) : Prop :=
  match o with
  | OpAlloc n p => 0 <= n /\ (n <> 0 -> live c !! p = None /\ total (live c) + n <= u64_max)
  | OpFree (Some p) n => n <> 0 -> live c !! p = Some n
  | _ => True
  end.

Fixpoint sound_ops (cap : option Z) (c : Account) (os : list isolate_op) : Prop :=
  match os with
  | [] => True
  | o :: os => sound_op c o /\ sound_ops cap (account cap c o) os
  end.

Definition all_accounted (cap : option Z) (c : Account) (os : list isolate_op) : Account := fold_left (account cap) os c.

Definition cap_of (hard_memory_mb : Z) : option Z := if 0 <? hard_memory_mb then Some (capped_bytes hard_memory_mb) else None.
Definition boot_account (boot : list (Z * Z)) : Account :=
  mk_Account (fold_left (fun m x => if x.2 =? 0 then m else <[x.1 := x.2]> m) boot ∅) [] 0.

(** The stores V8 makes before there is a guest: distinct, and fitting. *)
Fixpoint sound_boot (m : gmap Z Z) (boot : list (Z * Z)) : Prop :=
  match boot with
  | [] => True
  | (p, n) :: boot => 0 <= n /\ (n <> 0 -> m !! p = None /\ total m + n <= u64_max) /\
      sound_boot (if n =? 0 then m else <[p := n]> m) boot
  end.

(** *** The invariant *)

Lemma total_insert m p n : m !! p = None -> total (<[p := n]> m) = total m + n.
Proof. intros H. unfold total. rewrite map_fold_insert_L; [lia| |done]. intros. lia. Qed.

Lemma total_delete m p n : m !! p = Some n -> total (delete p m) = total m - n.
Proof.
  intros H. rewrite <- (insert_delete_id m p n H) at 2. rewrite total_insert by apply lookup_delete_eq. lia.
Qed.

Definition stores_positive (m : gmap Z Z) : Prop := map_Forall (fun _ n => 0 < n) m.

Lemma total_nonneg m : stores_positive m -> 0 <= total m.
Proof.
  induction m as [|p n m Hp IH] using map_ind; intros H; [done|].
  rewrite total_insert by done. apply map_Forall_insert in H as [? ?]; [|done]. specialize (IH H0). lia.
Qed.

Lemma total_bound_delete m p n : stores_positive m -> m !! p = Some n -> 0 < n /\ n <= total m.
Proof.
  intros Hm Hp. pose proof (Hm _ _ Hp) as Hn. cbn in Hn. split; [done|].
  pose proof (total_nonneg (delete p m) (map_Forall_delete _ _ _ Hm)). rewrite (total_delete m p n Hp) in H. lia.
Qed.

Record accounted (cap : option Z) (i : Isolate) (c : Account) : Prop := {
  acc_cap : cap = alloc_budget <$> alloc_state i;
  acc_near : near_heap i = bool_decide (is_Some cap);
  acc_handle : forall a, alloc_state i = Some a -> handle a = true;
  acc_used : forall a, alloc_state i = Some a -> used a = total (live c);
  acc_pos : stores_positive (live c);
  acc_fits : total (live c) <= u64_max;
  acc_reason : reason (cell (shared i)) = hd_error (causes c);
  acc_kills : terminations (shared i) = requested c;
}.

Lemma hd_error_app {A} (l l' : list A) : hd_error (l ++ l') = match hd_error l with Some a => Some a | None => hd_error l' end.
Proof. by destruct l. Qed.

Lemma hd_error_is_Some {A} (l : list A) : l <> [] -> is_Some (hd_error l).
Proof. by destruct l. Qed.

(** One cause reported through [terminate_for]. *)
Lemma accounted_kill cap i c r limit :
  accounted cap i c -> accounted cap (mk_Isolate (alloc_state i) (near_heap i) (terminate_for (shared i) r) limit) (caused c [r]).
Proof.
  intros []. split; try done; cbn.
  - rewrite acc_reason0, hd_error_app. by destruct (causes c).
  - rewrite acc_kills0. unfold zlen. cbn. lia.
Qed.

Lemma accounted_step cap i c o : accounted cap i c -> sound_op c o -> accounted cap (isolate_exec i o) (account cap c o).
Proof.
  intros H Hs. pose proof H as [Hcap Hnear Hh Hu Hpos Hfit Hr Hk]. destruct o as [n p|data n| |landed us|r|].
  - destruct Hs as [Hn Hs]. cbn. destruct (alloc_state i) as [a|] eqn:Ea; cbn in Hcap; subst cap; [|exact H].
    unfold budget_alloc_alloc. destruct (n =? 0) eqn:En; cbn.
    { split; cbn; try done; intros a' [= <-]; auto. }
    apply Z.eqb_neq in En. destruct (Hs En) as [Hp Ht]. rewrite total_insert by done. rewrite (Hu a eq_refl), (Hh a eq_refl).
    pose proof (total_nonneg _ Hpos). rewrite (Z.min_l (total (live c) + n)) by done. rewrite Bool.andb_true_r.
    assert (Hw : usize_wrap (total (live c) + n) = total (live c) + n) by (unfold usize_wrap; apply Z.mod_small; unfold u64_max in *; lia).
    set (i' := mk_Isolate (Some (with_used a (total (live c) + n))) (near_heap i) (shared i) (heap_limit i)).
    assert (Hi : accounted (Some (alloc_budget a)) i' (mk_Account (<[p := n]> (live c)) (causes c) (requested c))).
    { split; cbn; try done.
      - intros a' [= <-]. cbn. by apply Hh.
      - intros a' [= <-]. cbn. by rewrite total_insert.
      - apply map_Forall_insert_2; [lia|done].
      - by rewrite total_insert. }
    rewrite Hw. destruct (alloc_budget a <? total (live c) + n).
    + exact (accounted_kill _ _ _ ReasonMemory (heap_limit i) Hi).
    + unfold caused. cbn. rewrite app_nil_r, Z.add_0_r. exact Hi.
  - cbn. destruct (alloc_state i) as [a|] eqn:Ea; cbn in Hcap; subst cap.
    2: { destruct data; split; cbn; done. }
    destruct data as [p|]; [|split; cbn; try done; intros a' [= <-]; auto]. cbn.
    destruct (n =? 0) eqn:En; [split; cbn; try done; intros a' [= <-]; auto|].
    apply Z.eqb_neq in En. specialize (Hs En). destruct (total_bound_delete _ _ _ Hpos Hs) as [Hn0 Hn].
    split; cbn; try done; [intros a' [= <-]; cbn..| |].
    + by apply Hh.
    + rewrite (Hu a eq_refl), (total_delete _ _ _ Hs). unfold usize_wrap. apply Z.mod_small. unfold u64_max in *. lia.
    + by apply map_Forall_delete.
    + rewrite (total_delete _ _ _ Hs). lia.
  - pose proof (accounted_kill cap i c ReasonMemory (heap_limit i + 32 * 1024 * 1024) H) as K.
    destruct cap as [cap|]; cbn in Hnear |- *; rewrite Hnear; [|exact H]. by rewrite Hnear in K.
  - exact (accounted_kill cap i c (ReasonImport (import_message us)) (heap_limit i) H).
  - exact (accounted_kill cap i c r (heap_limit i) H).
  - by split.
Qed.

Lemma accounted_run cap os i c :
  accounted cap i c -> sound_ops cap c os -> accounted cap (isolate_run i os) (all_accounted cap c os).
Proof.
  revert i c. induction os as [|o os IH]; intros i c H Hs; [done|]. destruct Hs as [Ho Hs]. cbn.
  apply IH; [by apply accounted_step|done].
Qed.

Lemma boot_accounted b g m boot u : alloc_budget u = b -> handle u = false -> used u = total m -> stores_positive m -> total m <= u64_max ->
  sound_boot m boot ->
  let a := boot_allocations u g boot in
  let m' := fold_left (fun m x => if x.2 =? 0 then m else <[x.1 := x.2]> m) boot m in
  alloc_budget a = b /\ used a = total m' /\ stores_positive m' /\ total m' <= u64_max.
Proof.
  revert m u. induction boot as [|[p n] boot IH]; intros m u Hb Hh Hu Hp Hf Hs; cbn; [done|].
  destruct Hs as (Hn & Hs & Hr). unfold budget_alloc_alloc. cbn. destruct (n =? 0) eqn:En; [by apply IH|].
  apply Z.eqb_neq in En. destruct (Hs En) as [Hm Ht]. cbn. pose proof (total_nonneg _ Hp).
  apply IH; cbn; try done.
  - rewrite Hu, total_insert by done. unfold usize_wrap. apply Z.mod_small. unfold u64_max in *. lia.
  - apply map_Forall_insert_2; [lia|done].
  - by rewrite total_insert.
Qed.

Lemma new_isolate_accounted hard_mb default_limit boot :
  sound_boot ∅ boot -> accounted (cap_of hard_mb) (new_capped_isolate hard_mb default_limit boot) (if 0 <? hard_mb then boot_account boot else mk_Account ∅ [] 0).
Proof.
  intros Hs. unfold new_capped_isolate, cap_of, boot_account.
  destruct (0 <? hard_mb) eqn:Eb; [|by split].
  edestruct (boot_accounted (capped_bytes hard_mb) guard_new ∅ boot (mk_BudgetAllocState 0 (capped_bytes hard_mb) false)) as (Ha & Hu & Hp & Hf); try done.
  split; cbn; try done; try (intros a' [= <-]; done). by f_equal.
Qed.

(** *** The text of a refused import *)

Lemma trim_lead_sub us : exists rest, us = trim_lead us ++ rest.
Proof.
  unfold trim_lead. destruct (last us) as [u|] eqn:El; [|exists []; by rewrite app_nil_r].
  destruct (lead u); [|exists []; by rewrite app_nil_r]. apply last_Some in El as [l ->]. exists [u]. by rewrite removelast_last.
Qed.

(** The whole message is text of at most 810 bytes, whatever the specifier; one of
    256 units or less is named in full, a longer one by the text it begins with. *)
Lemma import_message_spec us : units_ok us ->
  str_ok (import_message us) /\ (length (as_bytes (import_message us)) <= 810)%nat /\
  exists shown rest, utf16_lossy us = (shown +:+ rest)%string /\
    import_message us = ("dynamic import() is not supported: '" +:+ shown +:+ (if (256 <? length us)%nat then "…" else "") +:+ "'")%string /\
    ((length us <= 256)%nat -> rest = ""%string).
Proof.
  intros Hu. unfold import_message. set (cut := (IMPORT_HEAD <? length us)%nat).
  set (head := if cut then trim_lead (take IMPORT_HEAD us) else take IMPORT_HEAD us).
  assert (Hh : units_ok head /\ (length head <= 256)%nat).
  { assert (Hk : units_ok (take IMPORT_HEAD us)) by by apply Forall_take.
    assert (Hl : (length (take IMPORT_HEAD us) <= 256)%nat) by (rewrite length_take; unfold IMPORT_HEAD; lia).
    unfold head. destruct cut; [|done]. destruct (trim_lead_sub (take IMPORT_HEAD us)) as [r Hr].
    rewrite Hr in Hk, Hl. apply Forall_app in Hk as [Hk _]. rewrite length_app in Hl. split; [done|lia]. }
  destruct Hh as [Hhu Hhl].
  assert (Hlen : (length (as_bytes (utf16_lossy head)) <= 768)%nat).
  { unfold utf16_lossy. rewrite as_of_bytes. pose proof (utf16_bytes_length head Hhu). lia. }
  assert (Hp : exists rest, utf16_lossy us = (utf16_lossy head +:+ rest)%string /\ ((length us <= 256)%nat -> rest = ""%string)).
  { unfold head, cut. destruct (Nat.ltb_spec IMPORT_HEAD (length us)) as [Hc|Hc]; unfold IMPORT_HEAD in *.
    - destruct (trim_lead_prefix us 256) as [rest Hr]. exists (of_bytes rest). split; [|lia].
      unfold utf16_lossy. rewrite <- (of_as_bytes (_ +:+ _)%string). by rewrite as_bytes_app, !as_of_bytes, Hr.
    - exists ""%string. rewrite take_ge by lia. rewrite <- (of_as_bytes (_ +:+ _)%string). by rewrite as_bytes_app, app_nil_r, of_as_bytes. }
  destruct Hp as (rest & Hrest & Hshort).
  split_and!.
  - repeat (apply str_ok_app; [first [reflexivity|by apply utf16_lossy_ok|by destruct cut]|]). reflexivity.
  - rewrite !as_bytes_app, !length_app. fold head. revert Hlen. generalize (length (as_bytes (utf16_lossy head))). intros k Hlen.
    destruct cut; cbn; lia.
  - by exists (utf16_lossy head), rest.
Qed.

(** ** The account is kept *)

Lemma causes_grow cap c o : o <> OpReset -> exists rs, causes (account cap c o) = causes c ++ rs.
Proof.
  intros Ho. destruct o as [n p|[p|] n| |landed us|r|]; cbn; try done; destruct cap as [cap|]; cbn;
    repeat case_match; cbn; first [by eexists|exists []; by rewrite app_nil_r].
Qed.

Lemma causes_stay cap c os : OpReset ∉ os -> causes c <> [] -> causes (all_accounted cap c os) <> [].
Proof.
  revert c. induction os as [|o os IH]; intros c Ho Hc; [done|]. cbn. apply not_elem_of_cons in Ho as [Ho Hos].
  apply IH; [done|]. destruct (causes_grow cap c o ltac:(congruence)) as [rs ->]. by destruct (causes c).
Qed.

Definition start_account (hard_mb : Z) (boot : list (Z * Z)) : Account :=
  if 0 <? hard_mb then boot_account boot else mk_Account ∅ [] 0.

(** C31. What an isolate charges and why it is stopped, over its whole life and every
    call on it: the allocator's counter is exactly the bytes of the live backing
    stores, across calls; the reason is the first cause since the last reset - a
    store that takes the live bytes over the cap, the heap near its limit, a dynamic
    import with its bounded text, a guard or an abort - and every cause has asked for
    termination.  In particular after a store over the cap the guest has a reason to
    end until the next call. *)
Theorem isolate_memory_accounted hard_mb default_limit boot os :
  sound_boot ∅ boot -> sound_ops (cap_of hard_mb) (start_account hard_mb boot) os ->
  let i := isolate_run (new_capped_isolate hard_mb default_limit boot) os in
  let c := all_accounted (cap_of hard_mb) (start_account hard_mb boot) os in
  (0 < hard_mb -> exists a, alloc_state i = Some a /\ used a = total (live c) /\ alloc_budget a = capped_bytes hard_mb) /\
  reason (cell (shared i)) = hd_error (causes c) /\
  terminations (shared i) = requested c /\
  (forall os1 n p os2 cap, os = os1 ++ OpAlloc n p :: os2 -> OpReset ∉ os2 -> n <> 0 -> cap_of hard_mb = Some cap ->
    cap < total (live (all_accounted (cap_of hard_mb) (start_account hard_mb boot) os1)) + n ->
    is_Some (reason (cell (shared i)))) /\
  (forall us, units_ok us -> str_ok (import_message us) /\ (length (as_bytes (import_message us)) <= 810)%nat).
Proof.
  intros Hb Hs i c. pose proof (accounted_run _ os _ _ (new_isolate_accounted hard_mb default_limit boot Hb) Hs) as H.
  fold i in H. fold (start_account hard_mb boot) in H. fold c in H. destruct H as [Hcap Hnear Hh Hu Hpos Hf Hr Hk].
  split_and!; [|done|done| |].
  - intros Hm. unfold cap_of in Hcap. destruct (Z.ltb_spec 0 hard_mb); [|lia].
    destruct (alloc_state i) as [a|]; [|done]. injection Hcap as Hcap. exists a. auto.
  - intros os1 n p os2 cap -> Hno Hn Hc Hover. rewrite Hr. unfold c, all_accounted. rewrite fold_left_app. cbn [fold_left].
    fold (all_accounted (cap_of hard_mb) (start_account hard_mb boot) os1). set (c1 := all_accounted _ _ os1) in *.
    assert (Hne : causes (all_accounted (cap_of hard_mb) (account (cap_of hard_mb) c1 (OpAlloc n p)) os2) <> []).
    { apply causes_stay; [done|]. rewrite Hc. cbn.
      assert (Hsound : sound_op c1 (OpAlloc n p)).
      { clear -Hs. unfold c1. revert Hs. generalize (start_account hard_mb boot). induction os1 as [|o os1 IH]; intros c [Ho H]; [done|by apply IH]. }
      destruct (proj2 Hsound Hn) as [Hp _]. apply Z.eqb_neq in Hn as ->. rewrite total_insert by done. destruct (Z.ltb_spec cap (total (live c1) + n)); [|lia]. cbn. by destruct (causes c1). }
    by apply hd_error_is_Some.
  - intros us Hus. destruct (import_message_spec us Hus) as (? & ? & _). done.
Qed.

(** ** A small isolate: one megabyte, a store that fits, one that does not, the
    first freed and a fresh call that imports. *)

Definition small_ops : list isolate_op :=
  [OpAlloc 1000 7; OpAlloc 0 0; OpAlloc 1048576 8; OpFired ReasonWall; OpFree (Some 8) 1048576; OpReset; OpImport true (v8_string "node:fs"); OpNearHeap].

Lemma isolate_memory_accounted_witness :
  let i := isolate_run (new_capped_isolate 1 0 [(5, 16)]) small_ops in
  (exists a, alloc_state i = Some a /\ used a = 1016) /\
  reason (cell (shared i)) = Some (ReasonImport "dynamic import() is not supported: 'node:fs'") /\
  terminations (shared i) = 4 /\
  is_Some (reason (cell (shared (isolate_run (new_capped_isolate 1 0 [(5, 16)]) (take 4 small_ops))))).
Proof.
  intros i.
  assert (Hb : sound_boot ∅ [(5, 16)]).
  { apply conj; [lia|]. apply conj; [|exact I]. intros _. apply conj; [reflexivity|]. vm_compute. discriminate. }
  assert (Hs : sound_ops (cap_of 1) (start_account 1 [(5, 16)]) small_ops).
  { unfold small_ops. cbn [sound_ops]. repeat (apply conj; [cbn [sound_op]|]); try exact I; try (apply conj; [lia|]);
      intros Hn; try (by destruct Hn); try (apply conj); vm_compute; first [reflexivity|discriminate]. }
  destruct (isolate_memory_accounted 1 0 [(5, 16)] small_ops Hb Hs) as (Hu & Hr & Hk & _ & _).
  split_and!.
  - destruct (Hu ltac:(lia)) as (a & Ha & Hua & _). exists a. split; [exact Ha|]. rewrite Hua. vm_compute. reflexivity.
  - unfold i. rewrite Hr. vm_compute. reflexivity.
  - unfold i. rewrite Hk. vm_compute. reflexivity.
  - vm_compute. eexists. reflexivity.
Defined.
