(* ===== verification/RunState.v ===== *)
(** * Per-run state ([crates/core/src/v8/runtable.rs], [console.rs])

    The load meter of an instance, the attribution of a native callback to a
    run, and the capped console buffers the attributed run owns.  Rendering a
    console line is V8's; the line comes as text. *)

From S2P Require Import Prelude Bytes Text.

(** ** The load meter

    The clock is the reading of [load_now_ms]. *)

Record InstanceLoad := mk_InstanceLoad {
  util_permille : Z;
  closed_at_ms : Z;
  turn_open_since_ms : Z;
  load_settled_heap_bytes : Z;
}.

Definition LOAD_WINDOW_MS : Z := 100.
Definition LOAD_STALE_MS : Z := 500.
Definition UTILIZATION_SATURATED_PERMILLE : Z := 1000.

Definition load_new : InstanceLoad := mk_InstanceLoad 0 0 u64_max 0.

Definition publish_settled_heap (l : InstanceLoad) (bytes : Z) : InstanceLoad :=
  mk_InstanceLoad (util_permille l) (closed_at_ms l) (turn_open_since_ms l) bytes.
Definition clear_settled_heap (l : InstanceLoad) : InstanceLoad := publish_settled_heap l 0.
Definition close_window (l : InstanceLoad) (permille now_ms : Z) : InstanceLoad :=
  mk_InstanceLoad permille now_ms (turn_open_since_ms l) (load_settled_heap_bytes l).
Definition open_turn (l : InstanceLoad) (at_ms : Z) : InstanceLoad :=
  mk_InstanceLoad (util_permille l) (closed_at_ms l) at_ms (load_settled_heap_bytes l).
Definition close_turn (l : InstanceLoad) : InstanceLoad :=
  mk_InstanceLoad (util_permille l) (closed_at_ms l) u64_max (load_settled_heap_bytes l).

Definition util_permille_at (l : InstanceLoad) (now_ms : Z) : Z :=
  if LOAD_WINDOW_MS <=? sat_sub now_ms (turn_open_since_ms l) then UTILIZATION_SATURATED_PERMILLE
  else if LOAD_STALE_MS <? sat_sub now_ms (closed_at_ms l) then 0
  else util_permille l.

(** ** Console buffers *)

Record LogBuffers := mk_LogBuffers {
  lb_stdout : list string;
  lb_stderr : list string;
  stdout_bytes : Z;
  stderr_bytes : Z;
  max_stdout_bytes : Z;
  max_stderr_bytes : Z;
}.

Definition LogBuffers_default : LogBuffers := mk_LogBuffers [] [] 0 0 0 0.
Definition logs_with_caps (out err : Z) : LogBuffers := mk_LogBuffers [] [] 0 0 out err.

Definition append_capped_line (b : LogBuffers) (stdout : bool) (line : string) : LogBuffers :=
  let len := Z.of_nat (String.length line) in
  if stdout then
    let limit := max_stdout_bytes b in
    if (limit =? 0) || (stdout_bytes b + len <=? limit) then
      mk_LogBuffers (lb_stdout b ++ [line]) (lb_stderr b) (stdout_bytes b + len) (stderr_bytes b)
        (max_stdout_bytes b) (max_stderr_bytes b)
    else b
  else
    let limit := max_stderr_bytes b in
    if (limit =? 0) || (stderr_bytes b + len <=? limit) then
      mk_LogBuffers (lb_stdout b) (lb_stderr b ++ [line]) (stdout_bytes b) (stderr_bytes b + len)
        (max_stdout_bytes b) (max_stderr_bytes b)
    else b.

(** ** The run table *)

Record RunTable (R : Type) := mk_RunTable { runs : gmap Z R; setup_logs : LogBuffers }.
Arguments mk_RunTable {R} _ _.
Arguments runs {R} _.
Arguments setup_logs {R} _.

Definition run_table_new {R} : RunTable R := mk_RunTable ∅ LogBuffers_default.

(** The token of the turn, the token of the rider the continuation carries, if
    it carries one: the attributed token and that run's entry. *)
Definition attributed_token_and_state {R} (current : Z) (rider : option Z) (t : RunTable R) : Z * option R :=
  match rider with
  | Some token =>
    if decide (token = current) then (current, runs t !! current)
    else match runs t !! token with
         | Some entry => (token, Some entry)
         | None => (current, runs t !! current)
         end
  | None => (current, runs t !! current)
  end.

(** [append_console_line], on a table whose entries are their console buffers:
    the run that gets the line, if any, is the observer's address too. *)
Definition append_console_line (current : Z) (rider : option Z) (t : RunTable LogBuffers) (stdout : bool)
    (line : option string) : RunTable LogBuffers * option Z :=
  match line with
  | None => (t, None)
  | Some line =>
    match attributed_token_and_state current rider t with
    | (_, None) => (mk_RunTable (runs t) (append_capped_line (setup_logs t) stdout line), None)
    | (token, Some entry) =>
      (mk_RunTable (<[token := append_capped_line entry stdout line]> (runs t)) (setup_logs t), Some token)
    end
  end.

(** ** Console lines *)

Definition bytes_of (ls : list string) : Z := sum_by (fun l => Z.of_nat (String.length l)) ls.

Record logs_ok (b : LogBuffers) : Prop := {
  lo_out : stdout_bytes b = bytes_of (lb_stdout b);
  lo_err : stderr_bytes b = bytes_of (lb_stderr b);
  lo_out_cap : max_stdout_bytes b <> 0 -> stdout_bytes b <= max_stdout_bytes b;
  lo_err_cap : max_stderr_bytes b <> 0 -> stderr_bytes b <= max_stderr_bytes b;
}.

(** What is kept of a sequence of lines under a cap: each line that still fits. *)
Fixpoint kept (limit used : Z) (ls : list string) : list string :=
  match ls with
  | [] => []
  | l :: ls =>
    if (limit =? 0) || (used + Z.of_nat (String.length l) <=? limit)
    then l :: kept limit (used + Z.of_nat (String.length l)) ls
    else kept limit used ls
  end.

Fixpoint append_lines (b : LogBuffers) (ls : list (bool * string)) : LogBuffers :=
  match ls with [] => b | (s, l) :: ls => append_lines (append_capped_line b s l) ls end.

Lemma append_line_ok b s l : logs_ok b -> logs_ok (append_capped_line b s l).
Proof.
  intros [H1 H2 H3 H4]. unfold append_capped_line.
  destruct s; case_match eqn:Hc; (split; cbn; [..]; try done; unfold bytes_of in *; rewrite ?sum_by_app; cbn; lia).
Qed.

Lemma append_lines_spec b ls :
  lb_stdout (append_lines b ls) =
    lb_stdout b ++ kept (max_stdout_bytes b) (stdout_bytes b) (snd <$> filter (fun x => x.1 = true) ls) /\
  lb_stderr (append_lines b ls) =
    lb_stderr b ++ kept (max_stderr_bytes b) (stderr_bytes b) (snd <$> filter (fun x => x.1 = false) ls).
Proof.
  revert b. induction ls as [|[s l] ls IH]; intros b; cbn [append_lines]; [cbn; by rewrite !app_nil_r|].
  destruct (IH (append_capped_line b s l)) as [-> ->]. rewrite !filter_cons. cbn [fst].
  unfold append_capped_line. destruct s; repeat (case_decide; [|done]) || (case_decide; [done|]); cbn -[Z.leb];
    case_match eqn:Hc; cbn; rewrite <- ?app_assoc; done.
Qed.

Lemma append_lines_ok b ls : logs_ok b -> logs_ok (append_lines b ls).
Proof. revert b. induction ls as [|[s l] ls IH]; cbn; intros b Hb; [done|]. by apply IH, append_line_ok. Qed.

Lemma append_line_caps b s l :
  max_stdout_bytes (append_capped_line b s l) = max_stdout_bytes b /\
  max_stderr_bytes (append_capped_line b s l) = max_stderr_bytes b.
Proof. unfold append_capped_line. destruct s; by case_match. Qed.

Lemma append_lines_caps b ls :
  max_stdout_bytes (append_lines b ls) = max_stdout_bytes b /\ max_stderr_bytes (append_lines b ls) = max_stderr_bytes b.
Proof.
  revert b. induction ls as [|[s l] ls IH]; cbn; intros b; [done|].
  destruct (IH (append_capped_line b s l)) as [-> ->]. apply append_line_caps.
Qed.

(** Console capture: whatever a run prints, each of its two buffers holds,
    in order and whole, exactly the lines that still fitted when they were
    printed; a cap of zero keeps everything, any other is never exceeded; a full
    stdout costs stderr nothing, and the byte counts are those of the lines. *)
Theorem console_capture out_cap err_cap ls :
  is_u32 out_cap -> is_u32 err_cap ->
  let b := append_lines (logs_with_caps out_cap err_cap) ls in
  lb_stdout b = kept out_cap 0 (snd <$> filter (fun x => x.1 = true) ls) /\
  lb_stderr b = kept err_cap 0 (snd <$> filter (fun x => x.1 = false) ls) /\
  stdout_bytes b = bytes_of (lb_stdout b) /\ stderr_bytes b = bytes_of (lb_stderr b) /\
  (out_cap <> 0 -> bytes_of (lb_stdout b) <= out_cap) /\ (err_cap <> 0 -> bytes_of (lb_stderr b) <= err_cap).
Proof.
  intros Hou Heu b. destruct (append_lines_spec (logs_with_caps out_cap err_cap) ls) as [Ho He].
  destruct (append_lines_caps (logs_with_caps out_cap err_cap) ls) as [Hco Hce].
  assert (Hb : logs_ok b) by (apply append_lines_ok; split; cbn; try done; zsolve).
  fold b in Ho, He, Hco, Hce. cbn in Ho, He, Hco, Hce. destruct Hb as [H1 H2 H3 H4].
  rewrite Hco, H1 in H3. rewrite Hce, H2 in H4. by split_and!.
Qed.

Lemma console_capture_witness :
  lb_stdout (append_lines (logs_with_caps 5 0) [(true, "abc"); (false, "warning"); (true, "toolong"); (true, "de"); (true, "f")]%string)
    = ["abc"; "de"]%string.
Proof.
  destruct (console_capture 5 0 [(true, "abc"); (false, "warning"); (true, "toolong"); (true, "de"); (true, "f")]%string)
    as [H _]; [unfold is_u32, u32_max; lia|unfold is_u32, u32_max; lia|]. rewrite H. vm_compute. reflexivity.
Defined.

(** ** Attribution *)

(** A console line belongs to the run whose continuation printed it if that
    run is live, else to the run whose turn executes; when neither has an entry
    it is set-up output. Exactly that one buffer changes: no other run's, and a
    line whose rendering was killed changes nothing. *)
Theorem console_line_attribution current rider (t : RunTable LogBuffers) stdout line :
  let '(t', addr) := append_console_line current rider t stdout line in
  let owner := match rider with
    | Some r => if decide (is_Some (runs t !! r)) then r else current
    | None => current
    end in
  match line with
  | None => t' = t /\ addr = None
  | Some l =>
    match runs t !! owner with
    | Some b => addr = Some owner /\ setup_logs t' = setup_logs t /\
        runs t' !! owner = Some (append_capped_line b stdout l) /\
        (forall other, other <> owner -> runs t' !! other = runs t !! other)
    | None => addr = None /\ runs t' = runs t /\ setup_logs t' = append_capped_line (setup_logs t) stdout l
    end
  end.
Proof.
  unfold append_console_line, attributed_token_and_state. destruct line as [l|]; [|done].
  assert (Hput : forall (o : Z) b, runs t !! o = Some b ->
    Some o = Some o /\ setup_logs t = setup_logs t /\
    (<[o := append_capped_line b stdout l]> (runs t)) !! o = Some (append_capped_line b stdout l) /\
    (forall other, other <> o -> <[o := append_capped_line b stdout l]> (runs t) !! other = runs t !! other)).
  { intros o b _. split_and!; [done|done|by rewrite lookup_insert_eq|]. intros other Ho. by rewrite lookup_insert_ne. }
  destruct rider as [r|].
  - destruct (decide (r = current)) as [->|Hr].
    + replace (if decide (is_Some (runs t !! current)) then current else current) with current by (by case_decide).
      destruct (runs t !! current) as [b|] eqn:Hc; [by apply Hput|done].
    + destruct (runs t !! r) as [b|] eqn:Hrr.
      * rewrite decide_True by eauto. rewrite Hrr. by apply Hput.
      * rewrite decide_False by (by intros []). destruct (runs t !! current) as [b|] eqn:Hc; [by apply Hput|done].
  - destruct (runs t !! current) as [b|] eqn:Hc; [by apply Hput|done].
Qed.

(** ** Load *)

Inductive load_op :=
  | LOpen (at_ms : Z)
  | LClose
  | LWindow (permille now_ms : Z)
  | LSettled (bytes : Z).

Definition load_exec (l : InstanceLoad) (o : load_op) : InstanceLoad :=
  match o with
  | LOpen at_ms => open_turn l at_ms
  | LClose => close_turn l
  | LWindow p now => close_window l p now
  | LSettled b => publish_settled_heap l b
  end.

(** The open turn and the last window of a history, newest first. *)
Fixpoint open_since (h : list load_op) : option Z :=
  match h with [] => None | LOpen at_ms :: _ => Some at_ms | LClose :: _ => None | _ :: h => open_since h end.
Fixpoint last_window (h : list load_op) : Z * Z :=
  match h with [] => (0, 0) | LWindow p now :: _ => (p, now) | _ :: h => last_window h end.

Fixpoint load_after (h : list load_op) : InstanceLoad :=
  match h with [] => load_new | o :: h => load_exec (load_after h) o end.

(** The utilization the registry reads: a turn that has held the thread for
    a whole window is full load, whatever the last window measured; otherwise it
    is the last closed window, and none once that is stale.  The "no turn" value
    of the atomic never reads as an open turn. *)
Theorem utilization_reading h now :
  is_u64 now -> Forall (fun o => match o with LOpen at_ms => is_u64 at_ms | _ => True end) h ->
  util_permille_at (load_after h) now =
    match open_since h with
    | Some at_ms => if decide (at_ms + LOAD_WINDOW_MS <= now) then UTILIZATION_SATURATED_PERMILLE
                    else if decide ((last_window h).2 + LOAD_STALE_MS < now) then 0 else (last_window h).1
    | None => if decide ((last_window h).2 + LOAD_STALE_MS < now) then 0 else (last_window h).1
    end.
Proof.
  intros Hnow Hh.
  assert (H : turn_open_since_ms (load_after h) = default u64_max (open_since h) /\
    util_permille (load_after h) = (last_window h).1 /\ closed_at_ms (load_after h) = (last_window h).2).
  { clear Hh. induction h as [|[] h (H1 & H2 & H3)]; cbn; auto. }
  destruct H as (H1 & H2 & H3). unfold util_permille_at. rewrite H1, H2, H3.
  unfold LOAD_WINDOW_MS, LOAD_STALE_MS, sat_sub, is_u64, u64_max in *.
  destruct (open_since h) as [o|]; cbn; repeat case_decide;
    repeat match goal with |- context [?a <=? ?b] => destruct (Z.leb_spec a b) | |- context [?a <? ?b] => destruct (Z.ltb_spec a b) end;
    try done; lia.
Qed.

Lemma utilization_reading_witness :
  util_permille_at (load_after [LOpen 900; LClose; LWindow 250 850; LOpen 700]) 950 = 250 /\
  util_permille_at (load_after [LOpen 900; LClose; LWindow 250 850; LOpen 700]) 1000 = 1000.
Proof.
  assert (Hf : Forall (fun o => match o with LOpen at_ms => is_u64 at_ms | _ => True end)
    [LOpen 900; LClose; LWindow 250 850; LOpen 700]).
  { do 4 (apply Forall_cons; split; [unfold is_u64, u64_max; first [done|lia]|]). by apply Forall_nil. }
  split; (rewrite utilization_reading; [reflexivity|unfold is_u64, u64_max; lia|done]).
Defined.
