(* ===== verification/Console.v ===== *)
(** * The rendering of console lines ([crates/core/src/v8/console.rs])

    What [console.log] and its siblings make of their arguments, over the heap of
    [Thrown], and the callbacks, which hand the line to the attributed run's
    buffers ([RunState]). *)

From S2P Require Import Prelude Bytes Text Utf16 Errors Thrown RunState.

Definition is_object (v : Val) : bool := match v with Ref _ => true | _ => false end.
Definition usize_max : Z := u64_max.
Definition shown (us : list Z) : string := capped_units us usize_max.

(** [tc.reset()] and [tc.has_terminated()] *)
Definition reset : G unit := set_heap (fun h => with_caught h None).
Definition has_terminated : G bool :=
  h ← get_heap; mret (match caught h with Some Termination => true | _ => false end).

#[export] Instance ObjKind_eq_dec : EqDecision ObjKind.
Proof. solve_decision. Defined.

Definition kind_of (v : Val) (h : Heap) : option ObjKind :=
  match v with Ref id => (fun o => if o_exotic o then OtherObject else o_kind o) <$> objs h !! id | _ => None end.

Section Console.
Context (js : Js).

Definition display_string (v : Val) : G string :=
  dead ← has_terminated;
  if (dead : bool) then mret "[unprintable]"%string
  else match v with
    | Sym _ => rendered ← detail_string js v; reset;; mret (match rendered with Some us => shown us | None => "[unprintable]" end)
    | _ => rendered ← to_string js v; reset;; mret (match rendered with Some us => shown us | None => "[unprintable]" end)
    end.

Definition is_json_renderable (v : Val) (h : Heap) : bool :=
  match v with
  | Num _ | Bool _ => true
  | Ref _ => match kind_of v h with Some BufferObject => false | _ => true end
  | _ => false
  end.

Definition render_json_arg (v : Val) : G (option string) :=
  dead ← has_terminated;
  if (dead : bool) then mret None
  else us ?← json_stringify js v; let text := shown us in mret (if String.eqb text "undefined" then None else Some text).

Definition render_error_arg (v : Val) : G string :=
  stack ← get js v (v8_string "stack");
  match stack with
  | Some (Str us) => mret (shown us)
  | _ => reset;; display_string v
  end.

Definition render_console_arg (v : Val) : G string :=
  match v with
  | Undefined => mret "undefined"%string
  | Null => mret "null"%string
  | Str us => mret (shown us)
  | _ =>
    h ← get_heap;
    if decide (kind_of v h = Some ErrorObject) then render_error_arg v
    else if is_json_renderable v h then
      text ← render_json_arg v;
      match text with
      | Some text =>
        if String.eqb text "{}" then
          named ← display_string v;
          mret (if String.eqb named "[object Object]" then text else named)
        else mret text
      | None => reset;; display_string v
      end
    else display_string v
  end.

(** The parts of a line, in order; [None]: a kill was caught after an argument. *)
Fixpoint render_parts (args : list Val) : G (option (list string)) :=
  match args with
  | [] => mret (Some [])
  | v :: args =>
    part ← render_console_arg v;
    dead ← has_terminated;
    if (dead : bool) then mret None
    else reset;; parts ?← render_parts args; mret (Some (part :: parts))
  end.

(** A [TryCatch] of its own: what it caught does not leave it, but a kill. *)
Definition render_console_line (args : list Val) : G (option string) :=
  h ← get_heap;
  reset;;
  parts ← render_parts args;
  h' ← get_heap;
  set_heap (fun h' => with_caught h' (match caught h' with Some Termination => Some Termination | _ => caught h end));;
  mret (String.concat " " <$> parts).

(** [console_stdout_callback] and [console_stderr_callback]; [table] is [None]
    where the isolate has no run table. *)
Definition console_callback (stdout : bool) (current : Z) (rider : option Z) (table : option (RunTable LogBuffers)) (args : list Val) :
    G (option (RunTable LogBuffers * option Z)) :=
  match table with
  | None => mret None
  | Some t => line ← render_console_line args; mret (Some (append_console_line current rider t stdout line))
  end.
Definition console_stdout_callback := console_callback true.
Definition console_stderr_callback := console_callback false.

(** ** A logged value never throws *)

(** Rendering the arguments one by one, each with an empty [TryCatch]. *)
Fixpoint rendered (args : list Val) (h h' : Heap) (parts : list string) : Prop :=
  match args with
  | [] => parts = [] /\ h' = h
  | v :: args => exists p ps h1, parts = p :: ps /\ render_console_arg v h = (h1, p) /\ caught h1 <> Some Termination /\
      rendered args (with_caught h1 None) h' ps
  end.

Lemma with_caught_same h : caught h = None -> with_caught h None = h.
Proof. destruct h. cbn. by intros ->. Qed.

Lemma rendered_caught args h h' ps : caught h = None -> rendered args h h' ps -> caught h' = None.
Proof. revert h ps. induction args as [|v args IH]; intros h ps Hc; [by intros [_ ->]|]. intros (p & ps' & h1 & _ & _ & _ & Hr). by eapply IH; [|exact Hr]. Qed.

Lemma render_parts_spec args h :
  match render_parts args h with
  | (h', Some parts) => rendered args h h' parts
  | (h', None) => caught h' = Some Termination
  end.
Proof.
  revert h. induction args as [|v args IH]; intros h; [by split|]. cbn [render_parts].
  destruct (render_console_arg v h) as [h1 p] eqn:Ep. rewrite (heap_bind _ _ _ _ _ Ep).
  rewrite (heap_bind _ _ _ _ _ (eq_refl : has_terminated h1 = (h1, match caught h1 with Some Termination => true | _ => false end))).
  destruct (caught h1) as [[]|] eqn:Ec; cbv iota; [|exact Ec|];
    rewrite (heap_bind _ _ _ _ _ (eq_refl : reset h1 = (with_caught h1 None, tt)));
    specialize (IH (with_caught h1 None)); unfold obind; destruct (render_parts args (with_caught h1 None)) as [h2 [ps|]] eqn:Er;
    rewrite (heap_bind _ _ _ _ _ Er); try exact IH; exists p, ps, h1; (split; [done|]); (split; [done|]); (split; [congruence|done]).
Qed.

(** C35. [console.*] never throws and never leaks: a call with any arguments renders each
    as one part, in order, whatever the ones before it threw, joins them with spaces,
    and leaves the caller's exception state as it was; only a kill that lands while an
    argument is rendered drops the line, and then the kill stays pending. *)
Theorem console_never_throws args h :
  match render_console_line args h with
  | (h', Some line) => caught h' = caught h /\ exists parts h1, rendered args (with_caught h None) h1 parts /\ line = String.concat " " parts
  | (h', None) => caught h' = Some Termination
  end.
Proof.
  unfold render_console_line. rewrite (heap_bind _ _ _ _ _ (eq_refl : get_heap h = (h, h))).
  rewrite (heap_bind _ _ _ _ _ (eq_refl : reset h = (with_caught h None, tt))).
  pose proof (render_parts_spec args (with_caught h None)) as Hp. destruct (render_parts args (with_caught h None)) as [h1 parts] eqn:Er.
  rewrite (heap_bind _ _ _ _ _ Er). rewrite (heap_bind _ _ _ _ _ (eq_refl : get_heap h1 = (h1, h1))).
  unfold mbind, G_bind, set_heap, mret, G_ret. destruct parts as [parts|]; cbn.
  - rewrite (rendered_caught _ _ _ _ (eq_refl : caught (with_caught h None) = None) Hp). split; [done|]. by exists parts, h1.
  - by rewrite Hp.
Qed.

(** What plain values look like. *)
Lemma render_plain h us :
  render_console_arg Undefined h = (h, "undefined"%string) /\ render_console_arg Null h = (h, "null"%string) /\
  (zlen us <= MAX_UNITS -> blen (utf16_lossy us) <= usize_max -> render_console_arg (Str us) h = (h, utf16_lossy us)).
Proof.
  split; [done|]. split; [done|]. intros Hl Hb. cbn. unfold mret, G_ret, shown, capped_units, Errors.capped_text_lossy.
  rewrite (proj2 (Z.leb_le _ _) Hl). cbn [andb]. by rewrite (proj2 (Z.leb_le _ _) Hb).
Qed.
End Console.
