(* ===== verification/AsyncContext.v ===== *)
(** * Async context ([crates/core/src/v8/node/async_hooks.rs] and the rider of [runtable.rs])

    V8's continuation-preserved embedder data holds a rider: the token of the run
    that created the continuation beside the guest's frame.  [AsyncLocalStorage] is
    a chain of frames over it, and native callbacks attribute themselves by its
    token.  Guest code is given by what it does to the context: it reads stores,
    calls natives, awaits, calls async functions, runs callbacks under a store, keeps
    closures and calls them later, and arms timers.  The abstract specification knows
    no slot: a store is handed down from a [run] to what it calls and to the
    continuations made in it, and to nothing else - a closure sees the stores of its
    caller, a timer's callback sees none. *)

From S2P Require Import Prelude F64 Timers RunState.

(** ** The rider *)

(** [{ p, k, v }]: the parent frame, the instance, the store. *)
Inductive ContextFrame := FUndefined | FFrame (p : ContextFrame) (k v : Z).

(** The slot: undefined, or a rider with its token as V8 keeps it. *)
Definition Cped : Type := option (f64 * ContextFrame).

Definition make_rider (token : Z) (inner : ContextFrame) : Cped := Some (f64_of_Z token, inner).
Definition rider_parts (value : Cped) : option (Z * ContextFrame) :=
  match value with Some (token, inner) => Some (f64_to_uint u64_max token, inner) | None => None end.

(** ** The thread and the guest *)

(** What guest code does, in order.  [PCall]: an async function is called, whose
    throw is its promise's; [PKeep]: a function is made and kept; [PInvoke]: a kept
    function is called; [PTimer]: [setTimeout], [PClear]: [clearTimeout]. *)
Inductive prog :=
  | PEnd
  | PGet (k : Z) (rest : prog)
  | PNative (rest : prog)
  | PAwait (rest : prog)
  | PThrow
  | PRun (k v : Z) (is_async : bool) (body rest : prog)
  | PCall (body rest : prog)
  | PKeep (body rest : prog)
  | PInvoke (i : nat) (rest : prog)
  | PTimer (body rest : prog)
  | PClear (i : nat) (rest : prog).

(** What is seen: a store, or the run a native callback attributes to. *)
Inductive seen := SawStore (k : Z) (v : option Z) | SawRun (token : Z) (has_entry : bool).

(** [runs]: the table, with [timers] its entries' pending timers under their runs'
    tokens; [queue]: the microtasks, each with the slot its continuation was created
    under; [kept]: the functions guest code holds. *)
Record Ctx := mk_Ctx {
  cped : Cped;
  CURRENT_RUN_TOKEN : Z;
  runs : gmap Z unit;
  timers : list (Z * prog);
  queue : list (Cped * prog);
  kept : list prog;
  observed : list seen;
}.

Definition with_cped (s : Ctx) (c : Cped) : Ctx := mk_Ctx c (CURRENT_RUN_TOKEN s) (runs s) (timers s) (queue s) (kept s) (observed s).
Definition with_timers (s : Ctx) (l : list (Z * prog)) : Ctx := mk_Ctx (cped s) (CURRENT_RUN_TOKEN s) (runs s) l (queue s) (kept s) (observed s).
Definition observe (s : Ctx) (x : seen) : Ctx := mk_Ctx (cped s) (CURRENT_RUN_TOKEN s) (runs s) (timers s) (queue s) (kept s) (x :: observed s).

Definition install_cped_rider (s : Ctx) (token : Z) : Ctx := with_cped s (make_rider token FUndefined).

Definition async_context_get_callback (s : Ctx) : ContextFrame :=
  match rider_parts (cped s) with Some (_, inner) => inner | None => FUndefined end.

Definition async_context_set_callback (s : Ctx) (frame : ContextFrame) : Ctx :=
  let token := match rider_parts (cped s) with Some (token, _) => token | None => CURRENT_RUN_TOKEN s end in
  with_cped s (make_rider token frame).

(** [getStore] *)
Fixpoint find_store (k : Z) (frame : ContextFrame) : option Z :=
  match frame with FUndefined => None | FFrame p k' v => if k' =? k then Some v else find_store k p end.
Definition getStore (k : Z) (s : Ctx) : option Z := find_store k (async_context_get_callback s).

(** The attribution of a native callback. *)
Definition attributed (s : Ctx) : Z * bool :=
  let '(token, entry) := attributed_token_and_state (CURRENT_RUN_TOKEN s) (fst <$> rider_parts (cped s)) (mk_RunTable (runs s) LogBuffers_default) in
  (token, bool_decide (is_Some entry)).

(** [set_timeout_callback] and [clear_timeout_callback], as far as runs go: the timer
    is the attributed run's; [None]: the native throws. *)
Definition pending_of (token : Z) (l : list (Z * prog)) : Z := zlen (filter (fun x => x.1 = token) l).
Definition arm_timeout (s : Ctx) (callback : prog) : option Ctx :=
  let '(token, live) := attributed s in
  if negb live || (MAX_PENDING_TIMERS <=? pending_of token (timers s)) then None else Some (with_timers s (timers s ++ [(token, callback)])).
Definition disarm_timeout (s : Ctx) (i : nat) : Ctx :=
  let '(token, live) := attributed s in
  match timers s !! i with
  | Some (owner, _) => if live && (owner =? token) then with_timers s (delete i (timers s)) else s
  | None => s
  end.

(** Run guest code up to its first await; the result: whether it threw.  An async
    callback turns a throw into a rejection; [run]'s [finally] restores the parent
    in any case.  Guest code need not end: after [fuel] steps it is killed. *)
Fixpoint exec_guest (fuel : nat) (p : prog) (s : Ctx) : Ctx * bool :=
  match fuel with
  | O => (s, true)
  | S fuel =>
    match p with
    | PEnd => (s, false)
    | PThrow => (s, true)
    | PGet k rest => exec_guest fuel rest (observe s (SawStore k (getStore k s)))
    | PNative rest => let '(t, live) := attributed s in exec_guest fuel rest (observe s (SawRun t live))
    | PAwait rest =>
      (mk_Ctx (cped s) (CURRENT_RUN_TOKEN s) (runs s) (timers s) (queue s ++ [(cped s, rest)]) (kept s) (observed s), false)
    | PRun k v is_async body rest =>
      let parent := async_context_get_callback s in
      let '(s, threw) := exec_guest fuel body (async_context_set_callback s (FFrame parent k v)) in
      let s := async_context_set_callback s parent in
      if threw && negb is_async then (s, true) else exec_guest fuel rest s
    | PCall body rest => exec_guest fuel rest (exec_guest fuel body s).1
    | PKeep body rest =>
      exec_guest fuel rest (mk_Ctx (cped s) (CURRENT_RUN_TOKEN s) (runs s) (timers s) (queue s) (kept s ++ [body]) (observed s))
    | PInvoke i rest =>
      match kept s !! i with
      | None => (s, true)
      | Some body => let '(s, threw) := exec_guest fuel body s in if threw then (s, true) else exec_guest fuel rest s
      end
    | PTimer body rest => match arm_timeout s body with None => (s, true) | Some s => exec_guest fuel rest s end
    | PClear i rest => exec_guest fuel rest (disarm_timeout s i)
    end
  end.

(** ** The life of an instance, as V8 and the loop drive it *)

Inductive ctx_op :=
  | RunBegins (token : Z)
  | RunEnds (token : Z)
  | TurnEnter (token : Z)
  | TurnExit
  | Code (p : prog)
  | Microtask (i : nat) (clears : bool)
  | TimerFires (i : nat).

(** A microtask runs under the slot of its continuation, and V8 may clear the slot
    after it; guest code that the loop starts itself runs under what is there; a
    timer's callback is called under a rider [timer_turn] installs for its run. *)
Definition ctx_exec (fuel : nat) (s : Ctx) (o : ctx_op) : Ctx :=
  match o with
  | RunBegins t => mk_Ctx (cped s) (CURRENT_RUN_TOKEN s) (<[t := tt]> (runs s)) (timers s) (queue s) (kept s) (observed s)
  | RunEnds t =>
    mk_Ctx (cped s) (CURRENT_RUN_TOKEN s) (delete t (runs s)) (filter (fun x => x.1 <> t) (timers s)) (queue s) (kept s) (observed s)
  | TurnEnter t => install_cped_rider (mk_Ctx (cped s) t (runs s) (timers s) (queue s) (kept s) (observed s)) t
  | TurnExit => mk_Ctx (cped s) 0 (runs s) (timers s) (queue s) (kept s) (observed s)
  | Code p => (exec_guest fuel p s).1
  | Microtask i clears =>
    match queue s !! i with
    | Some (c, p) =>
      let s := (exec_guest fuel p (mk_Ctx c (CURRENT_RUN_TOKEN s) (runs s) (timers s) (delete i (queue s)) (kept s) (observed s))).1 in
      if clears then with_cped s None else s
    | None => s
    end
  | TimerFires i =>
    match timers s !! i with
    | Some (t, p) =>
      (exec_guest fuel p (install_cped_rider
        (mk_Ctx (cped s) t (runs s) (delete i (timers s)) (queue s) (kept s) (observed s)) t)).1
    | None => s
    end
  end.

Definition ctx_run (fuel : nat) (s : Ctx) (os : list ctx_op) : Ctx := fold_left (ctx_exec fuel) os s.

(** Boot: the slot is undefined and no run executes. *)
Definition ctx_new : Ctx := mk_Ctx None 0 ∅ [] [] [] [].

(** ** The specification

    A task is its program with the run it belongs to - none yet, in code older than
    any run - and the stores of the [run] calls in progress when it was made. *)

Record Task := mk_Task { t_run : option Z; t_env : list (Z * Z); t_prog : prog }.

(** [l_run] and [l_env]: those of the code that executes, or executed last. *)
Record Lex := mk_Lex {
  l_run : option Z;
  l_env : list (Z * Z);
  l_current : Z;
  l_runs : gmap Z unit;
  l_timers : list (Z * prog);
  l_queue : list Task;
  l_kept : list prog;
  l_seen : list seen;
}.

Fixpoint store_in (k : Z) (env : list (Z * Z)) : option Z :=
  match env with [] => None | (k', v) :: env => if k' =? k then Some v else store_in k env end.

(** A native in a task of a run that is still live belongs to that run, else to
    the run whose turn it is. *)
Definition belongs (s : Lex) : Z * bool :=
  let token := match l_run s with Some t => if decide (is_Some (l_runs s !! t)) then t else l_current s | None => l_current s end in
  (token, bool_decide (is_Some (l_runs s !! token))).

Definition in_run (s : Lex) (run : option Z) (env : list (Z * Z)) : Lex :=
  mk_Lex run env (l_current s) (l_runs s) (l_timers s) (l_queue s) (l_kept s) (l_seen s).
Definition lex_timers (s : Lex) (l : list (Z * prog)) : Lex := mk_Lex (l_run s) (l_env s) (l_current s) (l_runs s) l (l_queue s) (l_kept s) (l_seen s).
Definition see (s : Lex) (x : seen) : Lex := mk_Lex (l_run s) (l_env s) (l_current s) (l_runs s) (l_timers s) (l_queue s) (l_kept s) (x :: l_seen s).

(** Stores are handed down: [run] extends those it hands to its callback, and what
    follows it has again those that [run] was called with. *)
Fixpoint lex (fuel : nat) (p : prog) (s : Lex) : Lex * bool :=
  match fuel with
  | O => (s, true)
  | S fuel =>
    match p with
    | PEnd => (s, false)
    | PThrow => (s, true)
    | PGet k rest => lex fuel rest (see s (SawStore k (store_in k (l_env s))))
    | PNative rest => let '(t, live) := belongs s in lex fuel rest (see s (SawRun t live))
    | PAwait rest =>
      (mk_Lex (l_run s) (l_env s) (l_current s) (l_runs s) (l_timers s) (l_queue s ++ [mk_Task (l_run s) (l_env s) rest]) (l_kept s) (l_seen s), false)
    | PRun k v is_async body rest =>
      let env := l_env s in
      let '(s, threw) := lex fuel body (in_run s (Some (default (l_current s) (l_run s))) ((k, v) :: env)) in
      let s := in_run s (l_run s) env in
      if threw && negb is_async then (s, true) else lex fuel rest s
    | PCall body rest => lex fuel rest (lex fuel body s).1
    | PKeep body rest =>
      lex fuel rest (mk_Lex (l_run s) (l_env s) (l_current s) (l_runs s) (l_timers s) (l_queue s) (l_kept s ++ [body]) (l_seen s))
    | PInvoke i rest =>
      match l_kept s !! i with
      | None => (s, true)
      | Some body => let '(s, threw) := lex fuel body s in if threw then (s, true) else lex fuel rest s
      end
    | PTimer body rest =>
      let '(t, live) := belongs s in
      if live && (pending_of t (l_timers s) <? MAX_PENDING_TIMERS) then lex fuel rest (lex_timers s (l_timers s ++ [(t, body)])) else (s, true)
    | PClear i rest =>
      let '(t, live) := belongs s in
      lex fuel rest (match l_timers s !! i with
        | Some (owner, _) => if live && (owner =? t) then lex_timers s (delete i (l_timers s)) else s
        | None => s
        end)
    end
  end.

Definition lex_exec (fuel : nat) (s : Lex) (o : ctx_op) : Lex :=
  match o with
  | RunBegins t => mk_Lex (l_run s) (l_env s) (l_current s) (<[t := tt]> (l_runs s)) (l_timers s) (l_queue s) (l_kept s) (l_seen s)
  | RunEnds t =>
    mk_Lex (l_run s) (l_env s) (l_current s) (delete t (l_runs s)) (filter (fun x => x.1 <> t) (l_timers s)) (l_queue s) (l_kept s) (l_seen s)
  | TurnEnter t => mk_Lex (Some t) [] t (l_runs s) (l_timers s) (l_queue s) (l_kept s) (l_seen s)
  | TurnExit => mk_Lex (l_run s) (l_env s) 0 (l_runs s) (l_timers s) (l_queue s) (l_kept s) (l_seen s)
  | Code p => (lex fuel p s).1
  | Microtask i clears =>
    match l_queue s !! i with
    | Some t =>
      let s := (lex fuel (t_prog t) (mk_Lex (t_run t) (t_env t) (l_current s) (l_runs s) (l_timers s) (delete i (l_queue s)) (l_kept s) (l_seen s))).1 in
      if clears then in_run s None [] else s
    | None => s
    end
  | TimerFires i =>
    match l_timers s !! i with
    | Some (t, p) => (lex fuel p (mk_Lex (Some t) [] t (l_runs s) (delete i (l_timers s)) (l_queue s) (l_kept s) (l_seen s))).1
    | None => s
    end
  end.

Definition lex_run (fuel : nat) (s : Lex) (os : list ctx_op) : Lex := fold_left (lex_exec fuel) os s.
Definition lex_new : Lex := mk_Lex None [] 0 ∅ [] [] [] [].

(** ** The slot implements it *)

Fixpoint env_frame (env : list (Z * Z)) : ContextFrame := match env with [] => FUndefined | (k, v) :: env => FFrame (env_frame env) k v end.

Lemma find_store_frame k env : find_store k (env_frame env) = store_in k env.
Proof. induction env as [|[k' v] env IH]; cbn; [done|]. by rewrite IH. Qed.

(** A token a double holds exactly. *)
Definition token_ok (t : Z) : Prop := 0 <= t < 2 ^ 53.

Definition rep (c : Cped) (run : option Z) (env : list (Z * Z)) : Prop :=
  match run with None => c = None /\ env = [] | Some t => c = make_rider t (env_frame env) /\ token_ok t end.

Lemma rider_back t f : token_ok t -> rider_parts (make_rider t f) = Some (t, f).
Proof. intros Ht. unfold make_rider, rider_parts. rewrite f64_of_Z_exact; [done|exact Ht|]. unfold token_ok, u64_max in *. lia. Qed.

Definition task_rep (x : Cped * prog) (t : Task) : Prop := rep x.1 (t_run t) (t_env t) /\ x.2 = t_prog t.

(** The slot and the queue carry what the specification hands down. *)
Record tracks (s : Ctx) (l : Lex) : Prop := {
  tr_here : rep (cped s) (l_run l) (l_env l);
  tr_current : CURRENT_RUN_TOKEN s = l_current l;
  tr_token : token_ok (l_current l);
  tr_runs : runs s = l_runs l;
  tr_timers : timers s = l_timers l;
  tr_armed : Forall (fun x => token_ok x.1) (l_timers l);
  tr_queue : Forall2 task_rep (queue s) (l_queue l);
  tr_kept : kept s = l_kept l;
  tr_seen : observed s = l_seen l;
}.

Lemma get_tracks s l : tracks s l -> async_context_get_callback s = env_frame (l_env l).
Proof. intros [Hr _ _ _ _ _ _ _ _]. unfold async_context_get_callback. destruct (l_run l) as [t|]; destruct Hr as [-> H]; [by rewrite rider_back|by rewrite H]. Qed.

(** Setting the slot to the frame of some stores keeps the run it belongs to. *)
Lemma set_tracks s l env : tracks s l ->
  tracks (async_context_set_callback s (env_frame env)) (in_run l (Some (default (l_current l) (l_run l))) env).
Proof.
  intros [H1 H2 H3 H4 H5 H6 H7 H8 H9]. unfold async_context_set_callback.
  assert (Ht : exists t, t = default (l_current l) (l_run l) /\ token_ok t /\
    match rider_parts (cped s) with Some (token, _) => token | None => CURRENT_RUN_TOKEN s end = t).
  { eexists. split; [reflexivity|]. destruct (l_run l) as [t|]; destruct H1 as [-> H]; [by rewrite rider_back|by rewrite <- H2 in *]. }
  destruct Ht as (t & <- & Ht & ->). by split.
Qed.

(** Restoring them in code that belongs to a run leaves it that run's. *)
Lemma restore_tracks s l k v env env' : tracks s l -> l_env l = (k, v) :: env ->
  tracks (async_context_set_callback s (env_frame env')) (in_run l (l_run l) env').
Proof.
  intros Htr He. pose proof (set_tracks s l env' Htr) as H. pose proof (tr_here _ _ Htr) as Hr. revert Hr H. rewrite He.
  destruct (l_run l) as [t|]; [done|]. by intros [_ ?].
Qed.

Lemma attributed_tracks s l : tracks s l -> attributed s = belongs l /\ token_ok (belongs l).1.
Proof.
  intros [Hr Hc Ht Hruns _ _ _ _ _]. unfold attributed, belongs, attributed_token_and_state. rewrite Hc, Hruns.
  destruct (l_run l) as [t|]; destruct Hr as [-> H]; cbn; [|done].
  rewrite f64_of_Z_exact; [|exact H|unfold token_ok, u64_max in *; lia]. destruct (decide (t = l_current l)) as [->|Hne].
  - by destruct (decide _).
  - destruct (l_runs l !! t) as [u|] eqn:Et; destruct (decide _) as [Hd|Hd]; [by rewrite Et|by destruct Hd|by destruct Hd|done].
Qed.

Lemma observe_tracks s l x : tracks s l -> tracks (observe s x) (see l x).
Proof. intros [H1 H2 H3 H4 H5 H6 H7 H8 H9]. split; try done. cbn. by rewrite H9. Qed.

Lemma timers_tracks s l ts : tracks s l -> Forall (fun x => token_ok x.1) ts -> tracks (with_timers s ts) (lex_timers l ts).
Proof. intros [H1 H2 H3 H4 H5 H6 H7 H8 H9] Hts. by split. Qed.

Lemma arm_timeout_tracks s l body : tracks s l ->
  match arm_timeout s body, belongs l with
  | Some s', (t, live) => live && (pending_of t (l_timers l) <? MAX_PENDING_TIMERS) = true /\ tracks s' (lex_timers l (l_timers l ++ [(t, body)]))
  | None, (t, live) => live && (pending_of t (l_timers l) <? MAX_PENDING_TIMERS) = false
  end.
Proof.
  intros Htr. destruct (attributed_tracks s l Htr) as [Ha Hok]. unfold arm_timeout. rewrite Ha.
  destruct (belongs l) as [t live]. rewrite (tr_timers _ _ Htr). rewrite Z.leb_antisym. cbn in Hok.
  destruct live; cbn; [|done]. destruct (_ <? _); cbn; [|done]. split; [done|].
  apply timers_tracks; [done|]. apply Forall_app. split; [apply Htr|by constructor].
Qed.

Lemma disarm_timeout_tracks s l i : tracks s l ->
  tracks (disarm_timeout s i) (let '(t, live) := belongs l in
    match l_timers l !! i with
    | Some (owner, _) => if live && (owner =? t) then lex_timers l (delete i (l_timers l)) else l
    | None => l
    end).
Proof.
  intros Htr. destruct (attributed_tracks s l Htr) as [Ha _]. unfold disarm_timeout. rewrite Ha, (tr_timers _ _ Htr).
  destruct (belongs l) as [t live]. destruct (l_timers l !! i) as [[owner p]|]; [|done]. destruct (_ && _); [|done].
  apply timers_tracks; [done|]. apply Forall_delete, Htr.
Qed.

Definition lexed (out : Ctx * bool) (spec : Lex * bool) : Prop := out.2 = spec.2 /\ tracks out.1 spec.1.

(** Code leaves the stores it was handed. *)
Lemma lex_env_kept fuel p l : l_env (lex fuel p l).1 = l_env l.
Proof.
  revert p l. induction fuel as [|fuel IH]; intros p l; [done|].
  destruct p as [|k rest|rest|rest| |k v is_async body rest|body rest|body rest|i rest|body rest|i rest]; cbn [lex]; try done; rewrite ?IH; try done.
  - destruct (belongs l). by rewrite IH.
  - destruct (lex fuel body _) as [l1 threw]. destruct (threw && _); [done|]. by rewrite IH.
  - destruct (l_kept l !! i) as [body|]; [|done]. pose proof (IH body l) as Hb. destruct (lex fuel body l) as [l1 []]; [done|]. by rewrite IH.
  - destruct (belongs l) as [t live]. destruct (_ && _); [by rewrite IH|done].
  - destruct (belongs l) as [t live]. rewrite IH. destruct (l_timers l !! i) as [[owner q]|]; [|done]. by destruct (_ && _).
Qed.

Lemma exec_lexed fuel p s l : tracks s l -> lexed (exec_guest fuel p s) (lex fuel p l).
Proof.
  revert p s l. induction fuel as [|fuel IH]; intros p s l Htr; [done|].
  destruct p as [|k rest|rest|rest| |k v is_async body rest|body rest|body rest|i rest|body rest|i rest]; cbn [exec_guest lex]; try done.
  - unfold getStore. rewrite (get_tracks s l Htr), find_store_frame. by apply IH, observe_tracks.
  - rewrite (proj1 (attributed_tracks s l Htr)). destruct (belongs l) as [t live]. by apply IH, observe_tracks.
  - split; [done|]. destruct Htr as [H1 H2 H3 H4 H5 H6 H7 H8 H9]. split; try done. cbn. apply Forall2_app; [done|]. by repeat constructor.
  - rewrite (get_tracks s l Htr). pose proof (set_tracks s l ((k, v) :: l_env l) Htr) as Hset. cbn [env_frame] in Hset.
    specialize (IH body _ _ Hset) as Hb. pose proof (lex_env_kept fuel body (in_run l (Some (default (l_current l) (l_run l))) ((k, v) :: l_env l))) as He.
    destruct (exec_guest fuel body _) as [s1 threw], (lex fuel body _) as [l1 threw1]. destruct Hb as [Hth Hb]. cbn in Hth, Hb, He. subst threw1.
    pose proof (restore_tracks s1 l1 k v (l_env l) (l_env l) Hb He) as Hback. destruct (threw && negb is_async); [by split|by apply IH].
  - specialize (IH body s l Htr) as Hb. destruct Hb as [_ Hb]. by apply IH.
  - apply IH. destruct Htr as [H1 H2 H3 H4 H5 H6 H7 H8 H9]. split; try done. cbn. by rewrite H8.
  - rewrite (tr_kept _ _ Htr). destruct (l_kept l !! i) as [body|]; [|by split]. specialize (IH body s l Htr) as Hb.
    destruct (exec_guest fuel body s) as [s1 threw], (lex fuel body l) as [l1 threw1]. destruct Hb as [Hth Hb]. cbn in Hth, Hb. subst threw1.
    destruct threw; [by split|by apply IH].
  - pose proof (arm_timeout_tracks s l body Htr) as Ht. destruct (belongs l) as [t live].
    destruct (arm_timeout s body) as [s1|]; [destruct Ht as [-> Ht]; by apply IH|rewrite Ht; by split].
  - pose proof (disarm_timeout_tracks s l i Htr) as Ht. destruct (belongs l) as [t live]. by apply IH.
Qed.

Definition turn_token_ok (o : ctx_op) : Prop := match o with TurnEnter t => token_ok t | _ => True end.

Lemma tracks_step fuel s l o : turn_token_ok o -> tracks s l -> tracks (ctx_exec fuel s o) (lex_exec fuel l o).
Proof.
  intros Ht Htr. pose proof Htr as [H1 H2 H3 H4 H5 H6 H7 H8 H9]. destruct o as [t|t|t| |p|i clears|i]; cbn [ctx_exec lex_exec].
  - split; cbn; try done. by rewrite H4.
  - split; cbn; try done; [by rewrite H4|by rewrite H5|]. apply list.Forall_forall. intros x [_ Hx]%list_elem_of_filter. by eapply (proj1 (list.Forall_forall _ _) H6).
  - by split.
  - split; cbn; try done.
  - by apply exec_lexed.
  - destruct (queue s !! i) as [[c p]|] eqn:Eq.
    + destruct (Forall2_lookup_l _ _ _ _ _ H7 Eq) as (t & Et & Hr & Hp). rewrite Et. cbn in Hr, Hp. subst p.
      assert (K : tracks (exec_guest fuel (t_prog t) (mk_Ctx c (CURRENT_RUN_TOKEN s) (runs s) (timers s) (delete i (queue s)) (kept s) (observed s))).1
        (lex fuel (t_prog t) (mk_Lex (t_run t) (t_env t) (l_current l) (l_runs l) (l_timers l) (delete i (l_queue l)) (l_kept l) (l_seen l))).1).
      { apply exec_lexed. split; try done. by apply Forall2_delete. }
      destruct clears; [|exact K]. destruct K as [_ K2 K3 K4 K5 K6 K7 K8 K9]. by split.
    + apply (Forall2_length) in H7 as Hl. apply lookup_ge_None in Eq. rewrite (lookup_ge_None_2 (l_queue l)) by lia. done.
  - rewrite H5. destruct (l_timers l !! i) as [[t p]|] eqn:Eq; [|done]. rewrite Forall_lookup in H6. pose proof (H6 _ _ Eq) as Hok. cbn in Hok.
    apply exec_lexed. split; try done. cbn. apply Forall_delete. by apply Forall_lookup.
Qed.


(** Two runs whose branches interleave: each continuation keeps its store and its
    run, in the other's turn too; a run that is over gives its natives to the turn's
    owner.  The first keeps a closure that the second calls, and the second arms a
    timer inside its [run]. *)
Definition branch (v : Z) (inner : prog -> prog) : prog :=
  PRun 1 v true (inner (PAwait (PGet 1 (PNative (PAwait (PGet 1 (PNative PEnd))))))) (PGet 1 PEnd).
Definition two_runs : list ctx_op :=
  [RunBegins 7; RunBegins 8; TurnEnter 7; Code (branch 70 (PKeep (PGet 1 PEnd))); TurnExit;
   TurnEnter 8; Code (branch 80 (fun rest => PInvoke 0 (PTimer (PGet 1 (PNative PEnd)) rest))); Microtask 0 true; Microtask 0 true; TurnExit;
   RunEnds 7; TurnEnter 8; Microtask 0 true; Microtask 0 true; TurnExit; TimerFires 0].


(** A timer armed inside [run] does not see its store: [timer_turn] installs a rider
    with no frame for it. *)
Lemma timer_callback_sees_no_store :
  rev (observed (ctx_run 10 ctx_new [RunBegins 7; TurnEnter 7; Code (PRun 1 70 true (PGet 1 (PTimer (PGet 1 PEnd) PEnd)) PEnd); TimerFires 0])) =
    [SawStore 1 (Some 70); SawStore 1 None].
Proof. reflexivity. Qed.
