(* ===== verification/Streams.v ===== *)
(** * Streamed bodies ([crates/core/src/v8/streams.rs])

    Both directions of a run's streamed bodies.  Host to sandbox: the table of
    hydrated streams, the frames the host delivers, the sandbox's reads and
    cancels.  Sandbox to host: the table of outbound streams, the credit the
    host grants, and the drive step that sends under it.  Promises and guest
    objects are identities; what the guest's stream yields, and whether a promise
    has settled, comes with the step that looks at it. *)

From S2P Require Import Prelude Bytes Text F64 Types StreamPayloads Errors Link Timers.

(** ** Host to sandbox *)

Module Inb.

(** [pending]: the resolver of the read that waits. *)
Record StreamState := mk_StreamState {
  buffered : list (list byte);
  buffered_bytes : Z;
  ended : option (result string unit);
  cancelled : bool;
  pending : option Z;
}.

Definition StreamState_new : StreamState := mk_StreamState [] 0 None false None.

Record StreamTableState := mk_StreamTableState {
  streams : gmap Z StreamState;
  run_id : Z;
  has_link : bool;
}.

(** How a read's promise settles. *)
Inductive ReadResult :=
  | Chunk (data : list byte)
  | Eof
  | Rejected (message : string).

(** What a step does beside the table: reads settled, by resolver, messages to
    the host (best effort: the link's answer is ignored), the run's error. *)
Record Effects := mk_Effects {
  settled : list (Z * ReadResult);
  sent : list Outbound;
  outcome : result RunError unit;
}.
Definition quiet : Effects := mk_Effects [] [] (Ok tt).
Definition settle (resolver : Z) (r : ReadResult) : Effects := mk_Effects [(resolver, r)] [] (Ok tt).

Definition set_stream (st : StreamTableState) (id : Z) (s : StreamState) : StreamTableState :=
  mk_StreamTableState (<[id := s]> (streams st)) (run_id st) (has_link st).

(** [register_hydrated_stream], with the executing run's table. *)
Definition register_hydrated_stream (slot : option StreamTableState) (stream_id : Z) : option StreamTableState * bool :=
  match slot with
  | Some st => (Some (set_stream st stream_id StreamState_new), true)
  | None => (None, false)
  end.

Definition send_stream_credit (st : StreamTableState) (stream_id credit : Z) : list Outbound :=
  if has_link st then (if credit =? 0 then [] else [OStreamPull stream_id credit]) else [].

Definition send_stream_cancel (st : StreamTableState) (stream_id : Z) (reason : string) : list Outbound :=
  if has_link st then [OStreamCancel stream_id reason] else [].

(** [bytes_to_uint8array]: whether V8 materialises the chunk. *)
Definition chunk_result (materialised : bool) (data : list byte) : ReadResult :=
  if materialised then Chunk data else Rejected "[iso4] stream chunk could not be materialised".

Definition deliver_stream_frame (materialised : bool) (slot : option StreamTableState) (msg : Inbound) :
    option StreamTableState * Effects :=
  match slot with
  | None => (slot, quiet)
  | Some st =>
    match msg with
    | IStreamChunk stream_id data =>
      match streams st !! stream_id with
      | None => (slot, quiet)
      | Some stream =>
        if cancelled stream then (slot, quiet)
        else
          match pending stream with
          | Some resolver =>
            (Some (set_stream st stream_id
               (mk_StreamState (buffered stream) (buffered_bytes stream) (ended stream) (cancelled stream) None)),
             mk_Effects [(resolver, chunk_result materialised data)]
               (send_stream_credit st stream_id (as_u32 (zlen data))) (Ok tt))
          | None =>
            let cap := STREAM_CREDIT_WINDOW_BYTES + STREAM_CHUNK_MAX_BYTES in
            if cap <? buffered_bytes stream + zlen data then
              (slot, mk_Effects [] [] (Err (Internal "stream credit window violated by the host")))
            else
              (Some (set_stream st stream_id
                 (mk_StreamState (buffered stream ++ [data]) (buffered_bytes stream + zlen data) (ended stream)
                    (cancelled stream) None)), quiet)
          end
      end
    | IStreamEnd stream_id error =>
      match streams st !! stream_id with
      | None => (slot, quiet)
      | Some stream =>
        let over := match error with None => Ok tt | Some message => Err message end in
        let wakes := match buffered stream with [] => true | _ => false end in
        (Some (set_stream st stream_id
           (mk_StreamState (buffered stream) (buffered_bytes stream) (Some over) (cancelled stream)
              (if wakes then None else pending stream))),
         match pending stream with
         | Some resolver =>
           if wakes then
             settle resolver (match over with
               | Ok _ => Eof
               | Err message => Rejected ("[iso4] body stream failed: " +:+ message)
               end)
           else quiet
         | None => quiet
         end)
      end
    | _ => (slot, quiet)
    end
  end.

(** [stream_read_callback]: [attributed] is the table of the attributed run,
    [None] outside run code; the inner option is whether the table is armed. *)
Definition stream_read_callback (materialised : bool) (attributed : option (option StreamTableState))
    (resolver stream_id : Z) : option (option StreamTableState) * Effects :=
  match attributed with
  | None | Some None =>
    (attributed, settle resolver (Rejected "[iso4] streamed bodies are only readable during a run"))
  | Some (Some st) =>
    match streams st !! stream_id with
    | None => (attributed, settle resolver (Rejected "[iso4] unknown body stream"))
    | Some stream =>
      match buffered stream with
      | chunk :: rest =>
        (Some (Some (set_stream st stream_id
           (mk_StreamState rest (buffered_bytes stream - zlen chunk) (ended stream) (cancelled stream) (pending stream)))),
         mk_Effects [(resolver, chunk_result materialised chunk)]
           (send_stream_credit st stream_id (as_u32 (zlen chunk))) (Ok tt))
      | [] =>
        if cancelled stream then (attributed, settle resolver Eof)
        else
          match ended stream with
          | Some (Ok _) => (attributed, settle resolver Eof)
          | Some (Err message) => (attributed, settle resolver (Rejected ("[iso4] body stream failed: " +:+ message)))
          | None =>
            match pending stream with
            | Some _ => (attributed, settle resolver (Rejected "[iso4] a read is already pending on this stream"))
            | None =>
              (Some (Some (set_stream st stream_id
                 (mk_StreamState [] (buffered_bytes stream) None (cancelled stream) (Some resolver)))), quiet)
            end
          end
      end
    end
  end.

Definition stream_cancel_callback (attributed : option (option StreamTableState)) (stream_id : Z) (reason : string) :
    option (option StreamTableState) * Effects :=
  match attributed with
  | Some (Some st) =>
    match streams st !! stream_id with
    | None => (attributed, quiet)
    | Some stream =>
      let notify_host := negb (cancelled stream) && match ended stream with None => true | Some _ => false end in
      let stream' :=
        if notify_host then mk_StreamState [] 0 (ended stream) true None
        else mk_StreamState (buffered stream) (buffered_bytes stream) (ended stream) (cancelled stream) None in
      (Some (Some (set_stream st stream_id stream')),
       mk_Effects (match pending stream with Some resolver => [(resolver, Eof)] | None => [] end)
         (if notify_host then send_stream_cancel st stream_id reason else []) (Ok tt))
    end
  | _ => (attributed, quiet)
  end.

(** [close_run_streams]; [order] is the iteration order of the map. *)
Definition close_run_streams (order : gmap Z StreamState -> list (Z * StreamState)) (slot : option StreamTableState) :
    option StreamTableState * list Outbound :=
  match slot with
  | None => (None, [])
  | Some st =>
    (None, concat ((fun '(id, stream) =>
       match ended stream with
       | None => if cancelled stream then [] else send_stream_cancel st id "run ended"
       | Some _ => []
       end) <$> order (streams st)))
  end.

(** *** The table as a machine *)

(** The operations of a run on its armed table; V8 materialises every chunk. *)
Inductive in_op :=
  | InRegister (id : Z)
  | InHost (msg : Inbound)
  | InRead (resolver id : Z)
  | InCancel (id : Z) (reason : string).

Definition in_exec (st : StreamTableState) (o : in_op) : StreamTableState * Effects :=
  let back (slot : option StreamTableState) := default st slot in
  match o with
  | InRegister id => (back (register_hydrated_stream (Some st) id).1, quiet)
  | InHost msg => let '(slot, ef) := deliver_stream_frame true (Some st) msg in (back slot, ef)
  | InRead resolver id =>
    let '(slot, ef) := stream_read_callback true (Some (Some st)) resolver id in (back (default None slot), ef)
  | InCancel id reason => let '(slot, ef) := stream_cancel_callback (Some (Some st)) id reason in (back (default None slot), ef)
  end.

Definition armed (run_id : Z) : StreamTableState := mk_StreamTableState ∅ run_id true.

(** Histories are newest first. *)
Inductive in_steps (run_id : Z) : list (in_op * Effects) -> StreamTableState -> Prop :=
  | in_nil : in_steps run_id [] (armed run_id)
  | in_step h st o st' ef :
      in_steps run_id h st -> in_exec st o = (st', ef) -> in_steps run_id ((o, ef) :: h) st'.

(** *** What a history says of a stream since its registration *)

(** The chunks the host sent and the table did not refuse. *)
Fixpoint chunks (id : Z) (h : list (in_op * Effects)) : list (list byte) :=
  match h with
  | [] => []
  | (InRegister i, _) :: h => if decide (i = id) then [] else chunks id h
  | (InHost (IStreamChunk i data), ef) :: h =>
    if decide (i = id /\ is_ok (outcome ef) = true) then chunks id h ++ [data] else chunks id h
  | _ :: h => chunks id h
  end.

Definition chunk_of (x : Z * ReadResult) : list (list byte) := match x.2 with Chunk data => [data] | _ => [] end.

(** The stream an operation is about. *)
Definition op_stream (o : in_op) : option Z :=
  match o with
  | InRegister i | InRead _ i | InCancel i _ | InHost (IStreamChunk i _) | InHost (IStreamEnd i _) => Some i
  | InHost _ => None
  end.

(** The chunks the sandbox's reads got. *)
Fixpoint delivered (id : Z) (h : list (in_op * Effects)) : list (list byte) :=
  match h with
  | [] => []
  | (InRegister i, _) :: h => if decide (i = id) then [] else delivered id h
  | (o, ef) :: h =>
    if decide (op_stream o = Some id) then delivered id h ++ concat (chunk_of <$> settled ef) else delivered id h
  end.

Definition credit_of (id : Z) (m : Outbound) : Z :=
  match m with OStreamPull i credit => if decide (i = id) then credit else 0 | _ => 0 end.

(** The credit the host got back. *)
Fixpoint credited (id : Z) (h : list (in_op * Effects)) : Z :=
  match h with
  | [] => 0
  | (InRegister i, _) :: h => if decide (i = id) then 0 else credited id h
  | (_, ef) :: h => credited id h + sum_by (credit_of id) (sent ef)
  end.

Definition bytes (l : list (list byte)) : Z := sum_by (fun c => zlen c) l.
#[local] Arguments bytes : simpl never.

Lemma bytes_app l k : bytes (l ++ k) = bytes l + bytes k.
Proof. apply sum_by_app. Qed.

(** *** The invariant of a stream *)

Record stream_ok (id : Z) (h : list (in_op * Effects)) (s : StreamState) : Prop := {
  so_bytes : buffered_bytes s = bytes (buffered s);
  so_cap : buffered_bytes s <= STREAM_CREDIT_WINDOW_BYTES + STREAM_CHUNK_MAX_BYTES;
  so_pending : is_Some (pending s) -> buffered s = [] /\ ended s = None /\ cancelled s = false;
  so_cancelled : cancelled s = true -> buffered s = [];
  so_prefix : delivered id h `prefix_of` chunks id h;
  so_data : cancelled s = false -> delivered id h ++ buffered s = chunks id h;
  so_credit : credited id h = bytes (delivered id h);
}.

(** The chunks of a history are as long as a frame can carry. *)
Definition frames_u32 (h : list (in_op * Effects)) : Prop :=
  Forall (fun x => match x.1 with InHost (IStreamChunk _ data) => zlen data <= u32_max | _ => True end) h.

Lemma credit_sent id i c : sum_by (credit_of id) (if c =? 0 then [] else [OStreamPull i c]) = if decide (i = id) then c else 0.
Proof. destruct (Z.eqb_spec c 0) as [->|]; cbn; case_decide; lia. Qed.

Lemma stream_ok_new id h ef : stream_ok id ((InRegister id, ef) :: h) StreamState_new.
Proof.
  split; cbn; rewrite ?decide_True by done; cbn; try done.
Qed.

(** Whatever happens elsewhere leaves a stream's books alone. *)
Lemma stream_ok_other id h s o ef :
  stream_ok id h s -> op_stream o <> Some id -> Forall (fun m => credit_of id m = 0) (sent ef) ->
  stream_ok id ((o, ef) :: h) s.
Proof.
  intros [H1 H2 H3 H4 H5 H6 H7] Ho Hs.
  assert (Hc : chunks id ((o, ef) :: h) = chunks id h).
  { destruct o as [i|[]| |]; cbn in *; try done; by rewrite decide_False by naive_solver. }
  assert (Hd : delivered id ((o, ef) :: h) = delivered id h).
  { destruct o as [i|m| |]; cbn in *; by rewrite decide_False by naive_solver. }
  assert (Hcr : credited id ((o, ef) :: h) = credited id h).
  { assert (sum_by (credit_of id) (sent ef) = 0) by (clear -Hs; induction Hs; cbn; lia).
    destruct o as [i|m| |]; cbn in *; rewrite ?decide_False by naive_solver; lia. }
  split; rewrite ?Hc, ?Hd, ?Hcr; done.
Qed.

(** The steps on the stream itself. *)
Lemma stream_ok_chunk id h s data st st' ef :
  stream_ok id h s -> streams st !! id = Some s -> has_link st = true -> zlen data <= u32_max ->
  in_exec st (InHost (IStreamChunk id data)) = (st', ef) ->
  exists s', st' = set_stream st id s' /\ stream_ok id ((InHost (IStreamChunk id data), ef) :: h) s' /\
    Forall (fun m => forall j, j <> id -> credit_of j m = 0) (sent ef).
Proof.
  intros [H1 H2 H3 H4 H5 H6 H7] Hs Hl Hd. cbn. rewrite Hs.
  assert (Hu : as_u32 (zlen data) = zlen data) by (unfold as_u32; apply Z.mod_small; lia).
  destruct (cancelled s) eqn:Hc; [|destruct (pending s) as [r|] eqn:Hp; [|destruct (Z.ltb_spec (STREAM_CREDIT_WINDOW_BYTES + STREAM_CHUNK_MAX_BYTES) (buffered_bytes s + zlen data))]];
    intros [= <- <-]; cbn.
  - exists s. split; [destruct st; unfold set_stream; cbn in *; by rewrite insert_id|]. split; [|done].
    split; cbn; rewrite ?decide_True by done; rewrite ?Hc, ?app_nil_r; try done; [|lia].
    etrans; [exact H5|]. by apply prefix_app_r.
  - destruct H3 as (Hb & He & _); [done|]. rewrite Hb, app_nil_r in H6. cbn in H1. rewrite Hb in H1. cbn in H1.
    eexists. split; [done|]. split.
    + split; cbn; rewrite ?decide_True by done; rewrite ?Hb; cbn; try done; [by rewrite H6|by rewrite H6, !app_nil_r|].
      unfold send_stream_credit. rewrite Hl, credit_sent, decide_True, bytes_app by done. unfold bytes at 2. cbn. rewrite Hu, H7. lia.
    + unfold send_stream_credit. rewrite Hl. destruct (_ =? 0); constructor; [|constructor].
      intros j Hj. cbn. by rewrite decide_False.
  - exists s. split; [destruct st; unfold set_stream; cbn in *; by rewrite insert_id|]. split; [|done].
    assert (Hno : ~ (id = id /\ false = true)) by (by intros []).
    split; cbn; rewrite ?(decide_False _ _ Hno), ?decide_True, ?Hc, ?Hp, ?app_nil_r by done; try done; try lia; auto.
  - eexists. split; [done|]. split; [|done].
    split; cbn; rewrite ?decide_True by done; rewrite ?app_nil_r; cbn; try done; [rewrite bytes_app; unfold bytes at 2; cbn; lia| | |lia].
    + rewrite <- H6, <- app_assoc by done. by apply prefix_app_r.
    + intros _. by rewrite app_assoc, H6.
Qed.

Lemma stream_ok_end id h s e st st' ef :
  stream_ok id h s -> streams st !! id = Some s ->
  in_exec st (InHost (IStreamEnd id e)) = (st', ef) ->
  exists s', st' = set_stream st id s' /\ stream_ok id ((InHost (IStreamEnd id e), ef) :: h) s' /\
    Forall (fun m => forall j, j <> id -> credit_of j m = 0) (sent ef).
Proof.
  intros [H1 H2 H3 H4 H5 H6 H7] Hs. cbn. rewrite Hs. intros [= <- <-]. eexists. split; [done|].
  assert (Hset : forall (r : option (Z * ReadResult)), True) by done. clear Hset.
  assert (Hp : buffered s <> [] -> pending s = None).
  { intros Hb. destruct (pending s) as [r|] eqn:Hr; [|done]. by destruct H3. }
  set (ef := match pending s with Some _ => _ | None => _ end).
  assert (Hef : concat (chunk_of <$> settled ef) = [] /\ sent ef = []).
  { unfold ef. destruct (pending s), (buffered s); [|done..]. cbn. by destruct e. }
  destruct Hef as [He1 He2]. split; [|by rewrite He2].
  split; cbn; rewrite ?decide_True by done; rewrite ?He1, ?He2, ?app_nil_r; cbn; try done; try lia; try auto.
  intros [r Hr]. destruct (buffered s) eqn:Hb; [done|]. rewrite Hp in Hr by done. done.
Qed.

Lemma stream_ok_read id h s r st st' ef :
  stream_ok id h s -> streams st !! id = Some s -> has_link st = true -> frames_u32 h ->
  in_exec st (InRead r id) = (st', ef) ->
  exists s', st' = set_stream st id s' /\ stream_ok id ((InRead r id, ef) :: h) s' /\
    Forall (fun m => forall j, j <> id -> credit_of j m = 0) (sent ef).
Proof.
  intros [H1 H2 H3 H4 H5 H6 H7] Hs Hl Hf. cbn. rewrite Hs.
  assert (Hsame : set_stream st id s = st) by (destruct st; unfold set_stream; cbn in *; by rewrite insert_id).
  destruct (buffered s) as [|c rest] eqn:Hb.
  - assert (Hquiet : forall ef', concat (chunk_of <$> settled ef') = [] -> sent ef' = [] ->
      stream_ok id ((InRead r id, ef') :: h) s).
    { intros ef' He1 He2. split; cbn; rewrite ?decide_True by done; rewrite ?He1, ?He2, ?app_nil_r, ?Hb; cbn; try done; try lia; auto. }
    destruct (cancelled s) eqn:Hc; [intros [= <- <-]; exists s; rewrite Hsame; split; [done|split; [by apply Hquiet|done]]|].
    destruct (ended s) as [[[]|m]|] eqn:He; [intros [= <- <-]; exists s; rewrite Hsame; split; [done|split; [by apply Hquiet|done]]..|].
    destruct (pending s) as [r'|] eqn:Hp; [intros [= <- <-]; exists s; rewrite Hsame; split; [done|split; [by apply Hquiet|done]]|].
    intros [= <- <-]. eexists. split; [done|]. split; [|done].
    split; cbn; rewrite ?decide_True by done; rewrite ?app_nil_r; cbn; try done; try lia. intros _. by rewrite <- H6, app_nil_r.
  - assert (Hnc : cancelled s = false) by (destruct (cancelled s); [by discriminate (H4 eq_refl)|done]).
    specialize (H6 Hnc). intros [= <- <-]. eexists. split; [done|].
    assert (Hu : as_u32 (zlen c) = zlen c).
    { unfold as_u32. apply Z.mod_small. assert (Hin : c ∈ chunks id h) by (rewrite <- H6; set_solver).
      clear -Hf Hin. split; [lia|]. induction h as [|[o ef] h IH]; [by apply elem_of_nil in Hin|].
      apply Forall_cons in Hf as [Hx Hf]. cbn in Hx.
      destruct o as [i|[]| |]; cbn in *; try (by apply IH).
      - case_decide; [by apply elem_of_nil in Hin|by apply IH].
      - case_decide; [|by apply IH]. apply elem_of_app in Hin as [Hin|Hin]; [by apply IH|].
        apply list_elem_of_singleton in Hin. subst. lia. }
    split.
    + split; cbn; rewrite ?decide_True by done; rewrite ?app_nil_r; cbn; try done.
      * rewrite H1. unfold bytes. cbn. lia.
      * pose proof (Zle_0_nat (length c)). lia.
      * intros Hp. by destruct (H3 Hp).
      * intros Hx. congruence.
      * exists rest. by rewrite <- app_assoc.
      * intros _. by rewrite <- H6, <- app_assoc.
      * unfold send_stream_credit. rewrite Hl, credit_sent, decide_True, bytes_app by done. unfold bytes at 2. cbn. lia.
    + unfold send_stream_credit. rewrite Hl. destruct (_ =? 0); constructor; [|constructor].
      intros j Hj. cbn. by rewrite decide_False.
Qed.

Lemma stream_ok_cancel id h s reason st st' ef :
  stream_ok id h s -> streams st !! id = Some s ->
  in_exec st (InCancel id reason) = (st', ef) ->
  exists s', st' = set_stream st id s' /\ stream_ok id ((InCancel id reason, ef) :: h) s' /\
    Forall (fun m => forall j, j <> id -> credit_of j m = 0) (sent ef).
Proof.
  intros [H1 H2 H3 H4 H5 H6 H7] Hs. cbn. rewrite Hs. intros [= <- <-]. eexists. split; [done|].
  set (notify := negb (cancelled s) && _).
  assert (He1 : concat (chunk_of <$> match pending s with Some resolver => [(resolver, Eof)] | None => [] end) = [])
    by (by destruct (pending s)).
  assert (He2 : forall j, sum_by (credit_of j) (if notify then send_stream_cancel st id reason else []) = 0).
  { intros j. destruct notify; [|done]. unfold send_stream_cancel. by destruct (has_link st). }
  split.
  - destruct notify eqn:Hn; split; cbn; rewrite ?decide_True by done; rewrite ?He1, ?He2, ?app_nil_r; cbn; try done; try lia; auto;
      by intros [].
  - destruct notify; [|done]. unfold send_stream_cancel. destruct (has_link st); repeat constructor.
Qed.

(** An operation on a stream the table does not know changes nothing and sends
    nothing. *)
Lemma in_exec_unknown st o st' ef :
  in_exec st o = (st', ef) ->
  (match o with InRegister _ => False | _ => True end) ->
  (forall id, op_stream o = Some id -> streams st !! id = None) -> st' = st /\ sent ef = [].
Proof.
  destruct o as [i|m|r i|i reason]; intros He Hr Hn; [done|..]; revert He; cbn.
  - destruct m as [| i d|i e| | | |]; cbn in *; try (by intros [= <- <-]); rewrite (Hn i) by done; by intros [= <- <-].
  - cbn in Hn. rewrite (Hn i) by done. by intros [= <- <-].
  - cbn in Hn. rewrite (Hn i) by done. by intros [= <- <-].
Qed.

Lemma in_steps_ok run_id h st :
  in_steps run_id h st -> frames_u32 h ->
  has_link st = true /\ (forall id s, streams st !! id = Some s -> stream_ok id h s).
Proof.
  induction 1 as [|h st o st' ef Hst IH He]; intros Hf.
  { split; [done|]. intros id s Hs. cbn in Hs. by rewrite lookup_empty in Hs. }
  apply Forall_cons in Hf as [Ho Hf]. destruct (IH Hf) as [Hl Hok]. clear IH.
  assert (Hkeep : forall id s1, (exists s', st' = set_stream st id s' /\ stream_ok id ((o, ef) :: h) s' /\
      Forall (fun m => forall j, j <> id -> credit_of j m = 0) (sent ef)) ->
      op_stream o = Some id -> streams st !! id = Some s1 ->
    has_link st' = true /\ forall j s, streams st' !! j = Some s -> stream_ok j ((o, ef) :: h) s).
  { intros id s1 (s' & -> & Hs' & Hc) Hop _. split; [done|]. intros j s.
    cbn. intros [(<- & <-)|[Hn Hj]]%lookup_insert_Some; [done|].
    apply stream_ok_other; [by apply Hok|rewrite Hop; by intros [= ?]|].
    eapply Forall_impl; [exact Hc|]. cbn. intros m Hm. by apply Hm. }
  destruct (match o with InRegister _ => true | _ => false end) eqn:Hr.
  { destruct o as [i| | |]; try discriminate. cbn in He. injection He as <- <-. split; [done|].
    intros j s. cbn. intros [(<- & <-)|[Hn Hj]]%lookup_insert_Some; [by apply stream_ok_new|].
    apply stream_ok_other; [by apply Hok|by intros [= ?]|done]. }
  destruct (op_stream o) as [id|] eqn:Hop; [destruct (streams st !! id) as [s1|] eqn:Hs1|].
  - apply (Hkeep id s1); [|done|done]. destruct o as [i|m|r i|i reason]; cbn in Hop.
    + discriminate.
    + destruct m as [| i d|i e| | | |]; try discriminate; injection Hop as ->.
      * by eapply stream_ok_chunk; eauto.
      * by eapply stream_ok_end; eauto.
    + injection Hop as ->. by eapply stream_ok_read; eauto.
    + injection Hop as ->. by eapply stream_ok_cancel; eauto.
  - destruct (in_exec_unknown st o st' ef) as [-> Hs]; [done|by destruct o|rewrite Hop; by intros ? [= <-]|].
    split; [done|]. intros j s Hj. apply stream_ok_other; [by apply Hok|rewrite Hop; intros [= ->]; congruence|by rewrite Hs].
  - destruct (in_exec_unknown st o st' ef) as [-> Hs]; [done|by destruct o|by rewrite Hop|].
    split; [done|]. intros j s Hj. apply stream_ok_other; [by apply Hok|by rewrite Hop|by rewrite Hs].
Qed.

(** C26. A streamed body arrives as it was sent: after any history of host frames
    and of the sandbox's reads and cancels, what the reads of a stream got is, in
    order and chunk for chunk, a prefix of what the host sent, and until it is
    cancelled the rest is in the buffer; the credit that went back to the host is
    exactly the bytes read; a host that keeps its unacknowledged bytes within the
    credit window is never refused, and no host fills the buffer beyond the
    window and one chunk; a read is answered at once or becomes the one that
    waits, and sees the end of the stream only after everything before it. *)
Theorem body_arrives_in_order rid h st id s :
  in_steps rid h st -> frames_u32 h -> streams st !! id = Some s ->
  delivered id h `prefix_of` chunks id h /\
  (cancelled s = false -> delivered id h ++ buffered s = chunks id h) /\
  credited id h = bytes (delivered id h) /\
  bytes (buffered s) <= STREAM_CREDIT_WINDOW_BYTES + STREAM_CHUNK_MAX_BYTES /\
  (forall data, bytes (chunks id h) - credited id h + zlen data <= STREAM_CREDIT_WINDOW_BYTES ->
     outcome (in_exec st (InHost (IStreamChunk id data))).2 = Ok tt) /\
  (forall r, let '(st', ef) := in_exec st (InRead r id) in
     (exists x, settled ef = [(r, x)]) \/ (settled ef = [] /\ pending <$> streams st' !! id = Some (Some r))) /\
  (forall o r, op_stream o = Some id -> (r, Eof) ∈ settled (in_exec st o).2 -> cancelled s = false ->
     match o with InCancel _ _ => True | _ => delivered id h = chunks id h end).
Proof.
  intros Hst Hf Hs. destruct (in_steps_ok rid h st Hst Hf) as [Hl Hok]. destruct (Hok id s Hs) as [H1 H2 H3 H4 H5 H6 H7].
  split_and!; [done|done|done|lia| | |].
  - intros data Hw. cbn. rewrite Hs. destruct (cancelled s) eqn:Hc; [done|]. destruct (pending s) as [r|]; [done|].
    specialize (H6 eq_refl). rewrite <- H6, bytes_app in Hw.
    destruct (Z.ltb_spec (STREAM_CREDIT_WINDOW_BYTES + STREAM_CHUNK_MAX_BYTES) (buffered_bytes s + zlen data)); [|done].
    unfold STREAM_CHUNK_MAX_BYTES in *. lia.
  - intros r. cbn. rewrite Hs. destruct (buffered s) as [|c rest]; [|left; by eexists].
    destruct (cancelled s); [left; by eexists|]. destruct (ended s) as [[[]|]|]; [left; by eexists..|].
    destruct (pending s) eqn:Hp; [left; by eexists|]. right. cbn. by rewrite lookup_insert_eq.
  - intros o r Hop Hin Hc. specialize (H6 Hc). assert (Hb : buffered s = [] -> delivered id h = chunks id h) by (intros Hb; by rewrite <- H6, Hb, app_nil_r).
    destruct o as [i|[| i d|i e| | | |]|r' i|i reason]; cbn in Hop; try discriminate; try injection Hop as ->; cbn in Hin;
      try (by apply elem_of_nil in Hin); rewrite ?Hs in Hin; rewrite ?Hc in Hin.
    + destruct (pending s) as [p|]; [|destruct (_ <? _); by apply elem_of_nil in Hin].
      apply list_elem_of_singleton in Hin. discriminate.
    + destruct (pending s) as [p|] eqn:Hp; [|by apply elem_of_nil in Hin]. apply Hb. by apply H3.
    + destruct (buffered s) as [|c rest]; [by apply Hb|]. apply list_elem_of_singleton in Hin. discriminate.
    + done.
Qed.

(** A body of two chunks, one waited for, one buffered, then the end. *)
Definition demo_body : list in_op :=
  [InRegister 3; InRead 1 3; InHost (IStreamChunk 3 ["a"%byte]); InHost (IStreamChunk 3 ["b"%byte; "c"%byte]);
   InHost (IStreamEnd 3 None); InRead 2 3; InRead 4 3].

Fixpoint in_run (h : list (in_op * Effects)) (st : StreamTableState) (os : list in_op) : list (in_op * Effects) * StreamTableState :=
  match os with [] => (h, st) | o :: os => let '(st', ef) := in_exec st o in in_run ((o, ef) :: h) st' os end.

Lemma in_run_steps rid os h st : in_steps rid h st -> in_steps rid (in_run h st os).1 (in_run h st os).2.
Proof.
  revert h st. induction os as [|o os IH]; cbn; intros h st Hs; [done|].
  destruct (in_exec st o) as [st' ef] eqn:He. apply IH. by econstructor.
Qed.

Lemma body_arrives_in_order_witness :
  let '(h, st) := in_run [] (armed 7) demo_body in
  delivered 3 h = [["a"%byte]; ["b"%byte; "c"%byte]] /\ credited 3 h = 3 /\
  (exists s, streams st !! 3 = Some s /\ delivered 3 h `prefix_of` chunks 3 h).
Proof.
  split; [vm_compute; reflexivity|]. split; [vm_compute; reflexivity|].
  exists (mk_StreamState [] 0 (Some (Ok tt)) false None). split; [vm_compute; reflexivity|].
  apply (body_arrives_in_order 7 _ (in_run [] (armed 7) demo_body).2 3 (mk_StreamState [] 0 (Some (Ok tt)) false None)).
  - apply (in_run_steps 7 demo_body [] (armed 7)). constructor.
  - repeat (constructor; [first [exact I|vm_compute; discriminate]|]). constructor.
  - vm_compute. reflexivity.
Defined.

End Inb.

(** ** Sandbox to host *)

Module Outb.

Definition OUT_STREAM_IDLE_MS : Z := 10000.
Definition out_stream_idle_ms : Z := OUT_STREAM_IDLE_MS.

Record OutStream := mk_OutStream {
  body : Z;
  credit : Z;
  pending : option Z;
  backlog : list byte;
  backlog_sent : Z;
  over : bool;
}.

Record OutTableState := mk_OutTableState {
  streams : gmap Z OutStream;
  next_id : Z;
  run_id : Z;
  has_link : bool;
  last_activity : Z;
}.

Definition set_stream (st : OutTableState) (id : Z) (o : OutStream) : OutTableState :=
  mk_OutTableState (<[id := o]> (streams st)) (next_id st) (run_id st) (has_link st) (last_activity st).
Definition set_streams (st : OutTableState) (m : gmap Z OutStream) : OutTableState :=
  mk_OutTableState m (next_id st) (run_id st) (has_link st) (last_activity st).
Definition touch (st : OutTableState) (now : Z) : OutTableState :=
  mk_OutTableState (streams st) (next_id st) (run_id st) (has_link st) now.

(** [register_out_stream]: the result mode, the token of the turn, the table of
    the executing run. *)
Definition register_out_stream (result_mode : bool) (token : Z) (slot : option OutTableState) (guest_body : Z) :
    option OutTableState * option Z :=
  if negb result_mode then (slot, None)
  else if token =? 0 then (slot, None)
  else
    match slot with
    | None => (None, None)
    | Some st =>
      let id := next_id st in
      (Some (mk_OutTableState (<[id := mk_OutStream guest_body STREAM_CREDIT_WINDOW_BYTES None [] 0 false]> (streams st))
         (id + 1) (run_id st) (has_link st) (last_activity st)), Some id)
    end.

Definition any_open (st : OutTableState) : bool :=
  existsb (fun '(_, o) => negb (over o)) (map_to_list (streams st)).

Definition out_streams_open (slot : option OutTableState) : bool :=
  match slot with Some st => any_open st | None => false end.

Definition out_idle_deadline (slot : option OutTableState) : option Z :=
  match slot with
  | Some st => if any_open st then Some (last_activity st + from_millis out_stream_idle_ms) else None
  | None => None
  end.

Definition note_out_credit (slot : option OutTableState) (stream_id amount now : Z) : option OutTableState :=
  match slot with
  | None => None
  | Some st =>
    let st := touch st now in
    match streams st !! stream_id with
    | Some o =>
      if over o then Some st
      else Some (set_stream st stream_id
        (mk_OutStream (body o) (sat_add u32_max (credit o) amount) (pending o) (backlog o) (backlog_sent o) (over o)))
    | None => Some st
    end
  end.

Definition note_out_activity (slot : option OutTableState) (now : Z) : option OutTableState :=
  match slot with Some st => Some (touch st now) | None => None end.

(** What [close_out_streams] and [cancel_out_stream] leave of a stream. *)
Definition ended_stream (o : OutStream) : OutStream :=
  mk_OutStream (body o) (credit o) None [] (backlog_sent o) true.
Definition finished_stream (o : OutStream) : OutStream :=
  mk_OutStream (body o) (credit o) (pending o) (backlog o) (backlog_sent o) true.

(** What [chunk_from_pull] distinguishes in a pulled value; a string comes as
    its bytes, [None] when V8 cannot read it. *)
Inductive PulledValue := NullOrUndefined | Uint8Array (bytes : list byte) | Text (bytes : option (list byte)) | OtherValue.

Definition chunk_from_pull (v : PulledValue) : result string (option (list byte)) :=
  match v with
  | NullOrUndefined => Ok None
  | Uint8Array bytes => Ok (Some bytes)
  | Text (Some bytes) => Ok (Some bytes)
  | Text None => Err "body stream chunk could not be read"%string
  | OtherValue => Err "a stream body must yield Uint8Array or string chunks"%string
  end.

(** A pull's promise as the step finds it, and the outcome of starting one. *)
Inductive PromiseState := PPending | PFulfilled (v : PulledValue) | PRejected (message : option string).
Inductive PullStart := Started (promise : Z) (terminating : bool) | NotStarted (message : string) (terminating : bool).

Inductive Step := Idle | AwaitPending (promise : Z) | StartPull (guest_body : Z).

Section Drive.
Context {S : Type} `{HostLink S}.

Definition send_end (st : OutTableState) (s : S) (id : Z) (error : option string) : S :=
  if has_link st then (link_send s (run_id st) (OStreamEnd id error)).1 else s.

(** [close_out_streams]; [order] is the iteration order of the map. *)
Fixpoint close_each (st : OutTableState) (s : S) (message : string) (l : list (Z * OutStream)) : OutTableState * S :=
  match l with
  | [] => (st, s)
  | (id, o) :: l =>
    if over o then close_each st s message l
    else close_each (set_stream st id (ended_stream o)) (send_end st s id (Some message)) message l
  end.

Definition close_out_streams (order : gmap Z OutStream -> list (Z * OutStream)) (slot : option OutTableState) (s : S)
    (message : string) : option OutTableState * S :=
  match slot with
  | None => (None, s)
  | Some st => let '(st, s) := close_each st s message (order (streams st)) in (Some st, s)
  end.

(** [cancel_out_stream] up to the guest's cleanup: the body whose cancel method
    is called, if any. *)
Definition cancel_out_stream (slot : option OutTableState) (s : S) (id : Z) (reason : string) (notify_host : bool) :
    option OutTableState * S * option Z :=
  match slot with
  | None => (None, s, None)
  | Some st =>
    match streams st !! id with
    | None => (slot, s, None)
    | Some o =>
      if over o then (slot, s, None)
      else (Some (set_stream st id (ended_stream o)),
            if notify_host then send_end st s id (Some reason) else s, Some (body o))
    end
  end.

(** [cancel_all_out_streams]: [killed id]: the cleanup of [id] was terminated. *)
Fixpoint cancel_each (slot : option OutTableState) (s : S) (reason : string) (killed : Z -> bool) (ids : list Z) :
    option OutTableState * S :=
  match ids with
  | [] => (slot, s)
  | id :: ids =>
    let '(slot, s, _) := cancel_out_stream slot s id reason true in
    if killed id then (slot, s) else cancel_each slot s reason killed ids
  end.

Definition cancel_all_out_streams (order : gmap Z OutStream -> list (Z * OutStream)) (slot : option OutTableState) (s : S)
    (reason : string) (killed : Z -> bool) : option OutTableState * S :=
  match slot with
  | None => (None, s)
  | Some st => cancel_each slot s reason killed (fst <$> filter (fun x => over x.2 = false) (order (streams st)))
  end.

(** The send loop of [classify]: the new stream, whether it made progress, and
    whether the link failed. *)
Fixpoint flush (fuel : nat) (st : OutTableState) (s : S) (id : Z) (o : OutStream) (progressed : bool) :
    S * OutStream * bool * bool :=
  match fuel with
  | O => (s, o, progressed, false)
  | Datatypes.S fuel =>
    if (0 <? credit o) && (backlog_sent o <? zlen (backlog o)) then
      let remaining := zlen (backlog o) - backlog_sent o in
      let n := Z.min (Z.min remaining (credit o)) STREAM_CHUNK_MAX_BYTES in
      if negb (has_link st) then (s, finished_stream o, progressed, true)
      else
        let data := take (Z.to_nat n) (drop (Z.to_nat (backlog_sent o)) (backlog o)) in
        match link_send s (run_id st) (OStreamChunk id data) with
        | (s, Err _) => (s, finished_stream o, progressed, true)
        | (s, Ok _) =>
          flush fuel st s id
            (mk_OutStream (body o) (credit o - n) (pending o) (backlog o) (backlog_sent o + n) (over o)) true
        end
    else (s, o, progressed, false)
  end.

Definition classify (slot : option OutTableState) (s : S) (id : Z) (progressed : bool) :
    option OutTableState * S * Step * bool :=
  match slot with
  | None => (slot, s, Idle, progressed)
  | Some st =>
    match streams st !! id with
    | None => (slot, s, Idle, progressed)
    | Some o =>
      if over o then (slot, s, Idle, progressed)
      else
        let '(s, o, progressed, failed) := flush (length (backlog o)) st s id o progressed in
        if failed then (Some (set_stream st id o), s, Idle, progressed)
        else
          let o := if (zlen (backlog o) <=? backlog_sent o) && negb (bool_decide (backlog o = []))
                   then mk_OutStream (body o) (credit o) (pending o) [] 0 (over o) else o in
          (Some (set_stream st id o), s,
           (if negb (bool_decide (backlog o = [])) || (credit o =? 0) then Idle
            else match pending o with Some p => AwaitPending p | None => StartPull (body o) end), progressed)
    end
  end.

Definition settle_pull (slot : option OutTableState) (s : S) (id : Z) (pulled : result string (option (list byte))) :
    option OutTableState * S :=
  match slot with
  | None => (None, s)
  | Some st =>
    match streams st !! id with
    | None => (slot, s)
    | Some o =>
      match pulled with
      | Ok (Some bytes) =>
        (Some (set_stream st id (mk_OutStream (body o) (credit o) None bytes 0 (over o))), s)
      | Ok None =>
        (Some (set_stream st id (mk_OutStream (body o) (credit o) None (backlog o) (backlog_sent o) true)),
         send_end st s id None)
      | Err message =>
        (Some (set_stream st id (mk_OutStream (body o) (credit o) None (backlog o) (backlog_sent o) true)),
         send_end st s id (Some message))
      end
    end
  end.

Definition set_pending (slot : option OutTableState) (id promise : Z) : option OutTableState :=
  match slot with
  | None => None
  | Some st =>
    match streams st !! id with
    | None => slot
    | Some o => Some (set_stream st id (mk_OutStream (body o) (credit o) (Some promise) (backlog o) (backlog_sent o) (over o)))
    end
  end.

(** [drive_out_stream]: what the guest's promises and pulls do is given;
    [None] when the loop has not ended within [fuel] rounds. *)
Fixpoint drive_out_stream (fuel : nat) (state_of : Z -> PromiseState) (pull : Z -> PullStart)
    (slot : option OutTableState) (s : S) (id : Z) (progressed : bool) : option (option OutTableState * S * bool) :=
  match fuel with
  | O => None
  | Datatypes.S fuel =>
    let '(slot, s, step, progressed) := classify slot s id progressed in
    match step with
    | Idle => Some (slot, s, progressed)
    | AwaitPending p =>
      match state_of p with
      | PPending => Some (slot, s, progressed)
      | PFulfilled v =>
        let '(slot, s) := settle_pull slot s id (chunk_from_pull v) in
        drive_out_stream fuel state_of pull slot s id true
      | PRejected message =>
        let '(slot, s) := settle_pull slot s id (Err (default "body stream failed"%string message)) in
        drive_out_stream fuel state_of pull slot s id true
      end
    | StartPull b =>
      match pull b with
      | Started promise terminating =>
        if terminating then Some (slot, s, progressed) else Some (set_pending slot id promise, s, true)
      | NotStarted message terminating =>
        if terminating then Some (slot, s, progressed)
        else let '(slot, s) := settle_pull slot s id (Err message) in Some (slot, s, true)
      end
    end
  end.

(** Enough rounds for [drive_out_stream]: a settled pull is not awaited again. *)
Definition DRIVE_ROUNDS : nat := 2.

(** What the guest does in round [r] of [drive_out_streams] while stream [id] is
    driven: promises, pulls, and whether execution is terminating after it. *)
Record Guest := mk_Guest {
  g_state_of : nat -> Z -> Z -> PromiseState;
  g_pull : nat -> Z -> Z -> PullStart;
  g_killed : nat -> Z -> bool;
  g_checkpoint_killed : nat -> bool;
}.

Definition OUT_DRIVE_MAX_ROUNDS : nat := 32.

(** One pass over the streams: whether any progressed, and whether execution is
    terminating. *)
Fixpoint drive_pass (g : Guest) (r : nat) (slot : option OutTableState) (s : S) (progressed : bool) (ids : list Z) :
    option OutTableState * S * bool * bool :=
  match ids with
  | [] => (slot, s, progressed, false)
  | id :: ids =>
    match drive_out_stream DRIVE_ROUNDS (g_state_of g r id) (g_pull g r id) slot s id false with
    | Some (slot, s, p) =>
      if g_killed g r id then (slot, s, progressed || p, true) else drive_pass g r slot s (progressed || p) ids
    | None => (slot, s, progressed, true)
    end
  end.

Fixpoint drive_rounds (g : Guest) (r rounds : nat) (slot : option OutTableState) (s : S) (ids : list Z) :
    option OutTableState * S :=
  match rounds with
  | O => (slot, s)
  | Datatypes.S rounds =>
    let '(slot, s, progressed, killed) := drive_pass g r slot s false ids in
    if killed then (slot, s)
    else if negb progressed then (slot, s)
    else if g_checkpoint_killed g r then (slot, s)
    else drive_rounds g (r + 1)%nat rounds slot s ids
  end.

Definition drive_out_streams (order : gmap Z OutStream -> list (Z * OutStream)) (g : Guest) (slot : option OutTableState) (s : S) :
    option OutTableState * S :=
  match slot with
  | None => (None, s)
  | Some st =>
    let ids := fst <$> order (streams st) in
    if bool_decide (ids = []) then (slot, s) else drive_rounds g 0 OUT_DRIVE_MAX_ROUNDS slot s ids
  end.

End Drive.

(** *** The outbound ledger *)

Definition msg_stream (m : Outbound) : option Z :=
  match m with OStreamChunk i _ | OStreamEnd i _ => Some i | _ => None end.

(** The bytes a message list carries for a stream. *)
Fixpoint data_of (id : Z) (ms : list Outbound) : list byte :=
  match ms with
  | [] => []
  | OStreamChunk i d :: ms => if decide (i = id) then d ++ data_of id ms else data_of id ms
  | _ :: ms => data_of id ms
  end.

Definition no_end (id : Z) (ms : list Outbound) : Prop := forall e, OStreamEnd id e ∉ ms.

(** Nothing of a stream follows its end. *)
Definition ended_last (id : Z) (ms : list Outbound) : Prop :=
  forall l1 e l2, ms = l1 ++ OStreamEnd id e :: l2 -> Forall (fun m => msg_stream m <> Some id) l2.

Definition chunk_sizes (id : Z) (ms : list Outbound) : Prop :=
  forall d, OStreamChunk id d ∈ ms -> 1 <= zlen d <= STREAM_CHUNK_MAX_BYTES.

(** The ledger of a run's outbound table.  [y id]: the bytes the guest's stream
    yielded; [g id]: the credit the host granted. *)
Definition add_to {A} (f : Z -> A) (id : Z) (h : A -> A) : Z -> A := fun i => if decide (i = id) then h (f i) else f i.

Definition armed (rid now : Z) : OutTableState := mk_OutTableState ∅ 1 rid true now.

Definition pulled_bytes (pulled : result string (option (list byte))) : list byte :=
  match pulled with Ok (Some b) => b | _ => [] end.

Definition pending_of (st : OutTableState) (id : Z) : option Z := streams st !! id ≫= pending.

(** What the guest yielded through the promise a drive took: the promise pending
    before it, if another one or none is pending after it. *)
Definition taken (state_of : Z -> PromiseState) (before after : option Z) : list byte :=
  match before with
  | Some pr =>
    if decide (after = Some pr) then []
    else match state_of pr with PFulfilled v => pulled_bytes (chunk_from_pull v) | _ => [] end
  | None => []
  end.

(** A pull's promise is held under a handle of its own. *)
Definition fresh_pulls (pull : Z -> PullStart) (pr : option Z) : Prop :=
  forall b promise k, pull b = Started promise k -> Some promise <> pr.

(** The life of one run's outbound table: streams registered by the serializer,
    the host's frames (credit, activity, cancel), a drive of one stream, and the
    run's end, in any order.  A drive is the code's own: what the guest yielded is
    read off the promise it took. *)
Inductive out_steps (rid : Z) (y0 : Z -> list byte) (g0 : Z -> Z) (st0 : OutTableState) (t0 : Tape) :
    (Z -> list byte) -> (Z -> Z) -> OutTableState -> Tape -> Prop :=
  | os_refl : out_steps rid y0 g0 st0 t0 y0 g0 st0 t0
  | os_register y g st t token b st' id :
      out_steps rid y0 g0 st0 t0 y g st t ->
      register_out_stream true token (Some st) b = (Some st', Some id) -> out_steps rid y0 g0 st0 t0 y g st' t
  | os_grant y g st t id amount now st' :
      out_steps rid y0 g0 st0 t0 y g st t -> 0 <= amount ->
      note_out_credit (Some st) id amount now = Some st' ->
      out_steps rid y0 g0 st0 t0 y (if decide (is_Some (streams st !! id)) then add_to g id (Z.add amount) else g) st' t
  | os_activity y g st t now st' :
      out_steps rid y0 g0 st0 t0 y g st t -> note_out_activity (Some st) now = Some st' ->
      out_steps rid y0 g0 st0 t0 y g st' t
  | os_cancel y g st t id reason notify st' t' b :
      out_steps rid y0 g0 st0 t0 y g st t -> cancel_out_stream (Some st) t id reason notify = (Some st', t', b) ->
      out_steps rid y0 g0 st0 t0 y g st' t'
  | os_close y g st t order message st' t' :
      out_steps rid y0 g0 st0 t0 y g st t -> (forall m, order m ≡ₚ map_to_list m) ->
      close_out_streams order (Some st) t message = (Some st', t') ->
      out_steps rid y0 g0 st0 t0 y g st' t'
  | os_drive y g st t state_of pull id p st' t' p' :
      out_steps rid y0 g0 st0 t0 y g st t -> fresh_pulls pull (pending_of st id) ->
      drive_out_stream DRIVE_ROUNDS state_of pull (Some st) t id p = Some (Some st', t', p') ->
      out_steps rid y0 g0 st0 t0
        (add_to y id (fun b => b ++ taken state_of (pending_of st id) (pending_of st' id))) g st' t'.

Record out_ok (y : list byte) (g : Z) (ms : list Outbound) (id : Z) (o : OutStream) : Prop := {
  oo_credit : 0 <= credit o /\ zlen (data_of id ms) + credit o <= STREAM_CREDIT_WINDOW_BYTES + g;
  oo_grant : 0 <= g;
  oo_range : over o = false -> 0 <= backlog_sent o <= zlen (backlog o);
  oo_data : over o = false -> data_of id ms ++ drop (Z.to_nat (backlog_sent o)) (backlog o) = y;
  oo_prefix : data_of id ms `prefix_of` y;
  oo_open : over o = false -> no_end id ms;
  oo_last : ended_last id ms;
  oo_clean : OStreamEnd id None ∈ ms -> data_of id ms = y;
  oo_sizes : chunk_sizes id ms;
}.

Record out_inv (y : Z -> list byte) (g : Z -> Z) (st : OutTableState) (t : Tape) : Prop := {
  oi_streams : forall id o, streams st !! id = Some o -> out_ok (y id) (g id) (tape_sent t) id o;
  oi_fresh : forall id, streams st !! id = None ->
    y id = [] /\ g id = 0 /\ Forall (fun m => msg_stream m <> Some id) (tape_sent t);
  oi_ids : forall id, is_Some (streams st !! id) -> id < next_id st;
}.

Lemma data_of_app id a b : data_of id (a ++ b) = data_of id a ++ data_of id b.
Proof. induction a as [|[] a IH]; cbn; try done. case_decide; [by rewrite IH, app_assoc|done]. Qed.

Lemma data_of_other id ms : Forall (fun m => msg_stream m <> Some id) ms -> data_of id ms = [].
Proof. induction 1 as [|[] ms Hm _ IH]; cbn in *; try done. by rewrite decide_False by naive_solver. Qed.

Lemma ended_last_app id ms m :
  ended_last id ms -> (msg_stream m = Some id -> no_end id ms) -> ended_last id (ms ++ [m]).
Proof.
  intros Hl Hm l1 e l2 Heq. destruct l2 as [|x l2' _] using rev_ind; [by constructor|].
  rewrite app_comm_cons, app_assoc in Heq. apply app_inj_tail in Heq as [-> <-].
  apply Forall_app. split; [by eapply Hl|]. constructor; [|constructor]. intros Hx. apply (Hm Hx e). set_solver.
Qed.

Lemma ended_last_others id ms ms' :
  ended_last id ms -> Forall (fun m => msg_stream m <> Some id) ms' -> ended_last id (ms ++ ms').
Proof.
  revert ms. induction ms' as [|m ms' IH]; intros ms Hl Hf; [by rewrite app_nil_r|].
  apply Forall_cons in Hf as [Hm Hf]. rewrite cons_middle, app_assoc. apply IH; [|done].
  by apply ended_last_app.
Qed.

(** Messages of other streams change nothing. *)
Lemma out_ok_others y g ms ms' id o :
  out_ok y g ms id o -> Forall (fun m => msg_stream m <> Some id) ms' -> out_ok y g (ms ++ ms') id o.
Proof.
  intros [H1 H2 H3 H4 H5 H6 H7 H8 H9] Hf.
  assert (Hd : data_of id (ms ++ ms') = data_of id ms) by (by rewrite data_of_app, (data_of_other id ms'), app_nil_r).
  assert (Hin : forall m, msg_stream m = Some id -> m ∈ ms ++ ms' -> m ∈ ms).
  { intros m Hm [?|Hi]%elem_of_app; [done|]. rewrite Forall_forall in Hf. by destruct (Hf m Hi). }
  split; rewrite ?Hd; try done.
  - intros Ho e He%Hin; [|done]. by apply (H6 Ho e).
  - by apply ended_last_others.
  - intros He%Hin; [|done]. by apply H8.
  - intros d He%Hin; [|done]. by apply H9.
Qed.

(** A stream that is over only keeps its books. *)
Lemma out_ok_over y g ms id o o' :
  out_ok y g ms id o -> over o' = true -> credit o' = credit o -> out_ok y g ms id o'.
Proof. intros [H1 H2 H3 H4 H5 H6 H7 H8 H9] Ho Hc. split; rewrite ?Hc, ?Ho; done. Qed.

Lemma out_ok_end y g ms id o o' e :
  out_ok y g ms id o -> over o = false -> over o' = true -> credit o' = credit o ->
  (e = None -> data_of id ms = y) -> out_ok y g (ms ++ [OStreamEnd id e]) id o'.
Proof.
  intros [H1 H2 H3 H4 H5 H6 H7 H8 H9] Ho Ho' Hc He.
  assert (Hd : data_of id (ms ++ [OStreamEnd id e]) = data_of id ms) by (by rewrite data_of_app, app_nil_r).
  split; rewrite ?Hd, ?Hc, ?Ho'; try done.
  - apply ended_last_app; [done|]. intros _. by apply H6.
  - intros [Hin|[Heq|Hin]%elem_of_cons]%elem_of_app; [by apply H8|injection Heq as <-; by apply He|by apply elem_of_nil in Hin].
  - intros d [Hin|[Heq|Hin]%elem_of_cons]%elem_of_app; [by apply H9|discriminate|by apply elem_of_nil in Hin].
Qed.

(** One chunk of the backlog goes out. *)
Lemma out_ok_chunk y g ms id o n :
  out_ok y g ms id o -> over o = false -> 1 <= n <= STREAM_CHUNK_MAX_BYTES ->
  n <= credit o -> n <= zlen (backlog o) - backlog_sent o ->
  out_ok y g (ms ++ [OStreamChunk id (take (Z.to_nat n) (drop (Z.to_nat (backlog_sent o)) (backlog o)))]) id
    (mk_OutStream (body o) (credit o - n) (pending o) (backlog o) (backlog_sent o + n) (over o)).
Proof.
  intros [H1 H2 H3 H4 H5 H6 H7 H8 H9] Ho Hn Hc Hr. specialize (H3 Ho). specialize (H4 Ho). specialize (H6 Ho).
  set (d := take _ _). assert (Hl : zlen d = n) by (unfold d; rewrite length_take, length_drop; lia).
  assert (Hd : data_of id (ms ++ [OStreamChunk id d]) = data_of id ms ++ d).
  { rewrite data_of_app. cbn. by rewrite decide_True, app_nil_r. }
  assert (Hsplit : d ++ drop (Z.to_nat (backlog_sent o + n)) (backlog o) = drop (Z.to_nat (backlog_sent o)) (backlog o)).
  { unfold d. rewrite Z2Nat.inj_add by lia. by rewrite <- drop_drop, take_drop. }
  split; cbn; rewrite ?Hd, ?Ho; try done.
  - rewrite length_app. lia.
  - lia.
  - intros _. by rewrite <- app_assoc, Hsplit.
  - rewrite <- H4, <- Hsplit, app_assoc. by apply prefix_app_r.
  - intros _ e [Hin|[Heq|Hin]%elem_of_cons]%elem_of_app; [by apply (H6 e)|discriminate|by apply elem_of_nil in Hin].
  - by apply ended_last_app.
  - intros [Hin|[Heq|Hin]%elem_of_cons]%elem_of_app; [by destruct (H6 _ Hin)|discriminate|by apply elem_of_nil in Hin].
  - intros d' [Hin|[Heq|Hin]%elem_of_cons]%elem_of_app; [by apply H9|injection Heq as ->; lia|by apply elem_of_nil in Hin].
Qed.

Lemma tape_send_spec t msg :
  (exists t', tape_send t msg = (t', Ok tt) /\ tape_sent t' = tape_sent t ++ [msg]) \/
  (exists t' e, tape_send t msg = (t', Err e) /\ tape_sent t' = tape_sent t).
Proof.
  unfold tape_send. destruct (verdicts t) as [|[] v]; [left|left|right]; by repeat eexists.
Qed.

Definition about (id : Z) (ms : list Outbound) : Prop := Forall (fun m => msg_stream m = Some id) ms.

(** The send loop: only chunks of its stream, in order; it ends by a dead link,
    by spent credit or with the backlog sent. *)
Lemma flush_ok fuel st t id o p y g :
  out_ok y g (tape_sent t) id o -> over o = false ->
  let '(t', o', p', failed) := flush fuel st t id o p in
  exists ms, tape_sent t' = tape_sent t ++ ms /\ about id ms /\ out_ok y g (tape_sent t') id o' /\
    over o' = failed /\ backlog o' = backlog o /\ body o' = body o /\ pending o' = pending o /\
    (zlen (backlog o) - backlog_sent o <= Z.of_nat fuel -> failed = false -> credit o' = 0 \/ backlog_sent o' = zlen (backlog o)).
Proof.
  revert t o p. induction fuel as [|fuel IH]; intros t o p Hok Ho; cbn [flush].
  { exists []. rewrite app_nil_r. split_and!; try done; [by constructor|]. intros Hf _. right. pose proof (oo_range _ _ _ _ _ Hok Ho). lia. }
  pose proof (oo_credit _ _ _ _ _ Hok) as [Hc0 _]. pose proof (oo_range _ _ _ _ _ Hok Ho) as Hr.
  destruct ((0 <? credit o) && (backlog_sent o <? zlen (backlog o))) eqn:Hgo.
  - apply andb_prop in Hgo as [Hg1%Z.ltb_lt Hg2%Z.ltb_lt].
    set (n := Z.min (Z.min (zlen (backlog o) - backlog_sent o) (credit o)) STREAM_CHUNK_MAX_BYTES).
    assert (Hn : 1 <= n <= STREAM_CHUNK_MAX_BYTES /\ n <= credit o /\ n <= zlen (backlog o) - backlog_sent o)
      by (unfold n, STREAM_CHUNK_MAX_BYTES; lia).
    destruct Hn as (Hn1 & Hn2 & Hn3). destruct (has_link st); cbn [negb].
    2: { exists []. rewrite app_nil_r. split_and!; try done; [by constructor|by eapply out_ok_over]. }
    pose proof (out_ok_chunk _ _ _ _ _ n Hok Ho Hn1 Hn2 Hn3) as Hok'.
    set (msg := OStreamChunk id _) in *. cbn [link_send tape_link]. destruct (tape_send_spec t msg) as [[t1 [-> Ht]]|[t1 [e [-> Ht]]]].
    + rewrite <- Ht in Hok'. specialize (IH t1 _ true Hok' Ho). cbn [over backlog body pending backlog_sent] in IH.
      destruct (flush fuel st t1 id _ true) as [[[t' o'] p'] failed].
      destruct IH as (ms & Hms & Hab & IH). exists (msg :: ms). rewrite Hms, Ht, <- app_assoc. split; [done|].
      split; [by constructor|]. rewrite Hms, Ht, <- app_assoc in IH. destruct IH as (H1 & H2 & H3 & H4 & H5 & H6).
      split_and!; try done. intros Hf. apply H6. lia.
    + exists []. rewrite Ht, app_nil_r. split_and!; try done; [by constructor|by eapply out_ok_over].
  - exists []. rewrite app_nil_r. split_and!; try done; [by constructor|]. intros _ _.
    apply andb_false_iff in Hgo as [?%Z.ltb_ge|?%Z.ltb_ge]; lia.
Qed.

(** A step on one stream, seen from the table. *)
Lemma out_inv_step y g st t y' g' st' t' id o o' ms :
  out_inv y g st t -> streams st !! id = Some o -> streams st' = <[id := o']> (streams st) -> next_id st' = next_id st ->
  tape_sent t' = tape_sent t ++ ms -> about id ms -> out_ok (y' id) (g' id) (tape_sent t') id o' ->
  (forall j, j <> id -> y' j = y j /\ g' j = g j) -> out_inv y' g' st' t'.
Proof.
  intros Hinv Hs Hst Hnext Ht Hab Hok Hyg.
  assert (Hother : forall j, j <> id -> Forall (fun m => msg_stream m <> Some j) ms).
  { intros j Hj. eapply Forall_impl; [exact Hab|]. cbn. intros m ->. congruence. }
  split; rewrite ?Hst, ?Hnext.
  - intros j oj [(<- & <-)|[Hn Hj]]%lookup_insert_Some; [done|].
    destruct (Hyg j) as [-> ->]; [done|]. rewrite Ht. apply out_ok_others; [by apply (oi_streams _ _ _ _ Hinv)|by apply Hother].
  - intros j [Hj Hn]%lookup_insert_None. destruct (Hyg j) as [-> ->]; [done|].
    destruct (oi_fresh _ _ _ _ Hinv j Hj) as (? & ? & ?). split_and!; try done. rewrite Ht. apply Forall_app. split; [done|by apply Hother].
  - intros j Hj. apply (oi_ids _ _ _ _ Hinv). destruct (decide (j = id)) as [->|Hn]; [by eexists|].
    by rewrite lookup_insert_ne in Hj.
Qed.

Lemma send_end_sent st t id e :
  exists ms, tape_sent (send_end st t id e) = tape_sent t ++ ms /\ (ms = [] \/ ms = [OStreamEnd id e]).
Proof.
  unfold send_end. destruct (has_link st); [|exists []; by rewrite app_nil_r; auto].
  cbn. destruct (tape_send_spec t (OStreamEnd id e)) as [[t1 [-> Ht]]|[t1 [e' [-> Ht]]]]; cbn.
  - exists [OStreamEnd id e]. auto.
  - exists []. rewrite app_nil_r. auto.
Qed.

(** Ending an open stream, with or without the message. *)
Lemma out_inv_end y g st t st' t' id o o' e ms :
  out_inv y g st t -> streams st !! id = Some o -> over o = false -> over o' = true -> credit o' = credit o ->
  streams st' = <[id := o']> (streams st) -> next_id st' = next_id st ->
  tape_sent t' = tape_sent t ++ ms -> (ms = [] \/ ms = [OStreamEnd id e]) -> (e = None -> backlog o = []) -> out_inv y g st' t'.
Proof.
  intros Hinv Hs Ho Ho' Hc Hst Hn Ht Hms He. pose proof (oi_streams _ _ _ _ Hinv _ _ Hs) as Hok.
  eapply (out_inv_step y g st t y g st' t' id o o' ms); try done; [by destruct Hms as [-> | ->]; repeat constructor|].
  rewrite Ht. destruct Hms as [->| ->]; [rewrite app_nil_r; by eapply out_ok_over|].
  eapply out_ok_end; try done. intros Hen. pose proof (oo_data _ _ _ _ _ Hok Ho) as Hd. rewrite (He Hen), drop_nil, app_nil_r in Hd. done.
Qed.

(** A stream with nothing left to send: what [classify] finds before it lets a
    pull settle or start. *)
Definition may_settle (st : OutTableState) (id : Z) : Prop :=
  exists o, streams st !! id = Some o /\ over o = false /\ backlog o = [].

Lemma classify_inv y g st t id p st' t' step p' :
  out_inv y g st t -> classify (Some st) t id p = (Some st', t', step, p') ->
  out_inv y g st' t' /\
  (forall b, step = StartPull b \/ (exists pr, step = AwaitPending pr) -> may_settle st' id) /\
  (step = Idle -> forall o', streams st' !! id = Some o' -> over o' = true \/ credit o' = 0) /\
  (forall b, step = StartPull b -> exists o', streams st' !! id = Some o' /\ pending o' = None /\ body o' = b) /\
  (forall pr, step = AwaitPending pr -> exists o', streams st' !! id = Some o' /\ pending o' = Some pr).
Proof.
  intros Hinv. cbn. destruct (streams st !! id) as [o|] eqn:Hs.
  2: { intros [= <- <- <- <-]. split_and!; [done|naive_solver|congruence|naive_solver|naive_solver]. }
  destruct (over o) eqn:Ho.
  { intros [= <- <- <- <-]. split_and!; [done|naive_solver| |naive_solver|naive_solver]. intros _ o'. rewrite Hs. intros [= <-]. by left. }
  pose proof (oi_streams _ _ _ _ Hinv _ _ Hs) as Hok.
  pose proof (flush_ok (length (backlog o)) st t id o p _ _ Hok Ho) as Hf.
  destruct (flush _ st t id o p) as [[[t1 o1] p1] failed].
  destruct Hf as (ms & Ht & Hab & Hok1 & Hov & Hb & _ & _ & Hend).
  destruct failed.
  { intros [= <- <- <- <-]. split_and!; [|naive_solver| |naive_solver|naive_solver].
    - by eapply (out_inv_step y g st t y g _ t1 id o o1 ms).
    - intros _ o'. cbn. rewrite lookup_insert_eq. intros [= <-]. by left. }
  pose proof (oo_range _ _ _ _ _ Hok Ho) as Hr. pose proof (oo_range _ _ _ _ _ Hok1 Hov) as Hr1.
  assert (Hcz : credit o1 = 0 \/ backlog_sent o1 = zlen (backlog o1)) by (rewrite Hb; apply Hend; [lia|done]).
  set (o2 := if (zlen (backlog o1) <=? backlog_sent o1) && negb (bool_decide (backlog o1 = []))
             then mk_OutStream (body o1) (credit o1) (pending o1) [] 0 (over o1) else o1).
  assert (Ho2 : over o2 = false /\ credit o2 = credit o1 /\ pending o2 = pending o1 /\ body o2 = body o1 /\
    out_ok (y id) (g id) (tape_sent t1) id o2 /\ (backlog o2 = [] \/ credit o2 = 0)).
  { unfold o2. destruct (Z.leb_spec (zlen (backlog o1)) (backlog_sent o1)) as [Hle|Hgt]; cbn.
    - case_bool_decide as Hnil; cbn; [by split_and!; auto|]. split_and!; try done; try (by left).
      destruct Hok1 as [K1 K2 K3 K4 K5 K6 K7 K8 K9]. split; cbn; try done; try lia. intros _.
      rewrite <- K4 by done. f_equal. rewrite (drop_ge (backlog o1)); [done|lia].
    - split_and!; try done. right. destruct Hcz; [done|lia]. }
  destruct Ho2 as (Hov2 & Hc2 & Hp2 & Hb2 & Hok2 & Hbl).
  destruct (negb (bool_decide (backlog o2 = [])) || (credit o2 =? 0)) eqn:Hidle.
  { intros [= <- <- <- <-]. split_and!; [by eapply (out_inv_step y g st t y g _ t1 id o o2 ms)|naive_solver| |naive_solver|naive_solver].
    intros _ o'. cbn. rewrite lookup_insert_eq. intros [= <-]. right. destruct Hbl as [Hbl|]; [|done].
    rewrite bool_decide_eq_true_2 in Hidle by done. cbn in Hidle. by apply Z.eqb_eq in Hidle. }
  apply orb_false_elim in Hidle as [Hnil%negb_false_iff%bool_decide_eq_true Hcn%Z.eqb_neq].
  intros [= <- <- <- <-]. split_and!.
  - by eapply (out_inv_step y g st t y g _ t1 id o o2 ms).
  - intros b _. exists o2. cbn. by rewrite lookup_insert_eq.
  - intros Hx. by destruct (pending o2).
  - intros b Hx. exists o2. cbn. rewrite lookup_insert_eq. split; [done|]. destruct (pending o2); [done|]. split; [done|congruence].
  - intros pr Hx. exists o2. cbn. rewrite lookup_insert_eq. split; [done|]. destruct (pending o2); congruence.
Qed.

Lemma register_inv y g st t token b st' id :
  out_inv y g st t -> register_out_stream true token (Some st) b = (Some st', Some id) -> out_inv y g st' t.
Proof.
  intros Hinv. cbn. destruct (token =? 0); [done|]. intros [= <- <-].
  assert (Hnone : streams st !! next_id st = None).
  { destruct (streams st !! next_id st) eqn:Hs; [|done]. pose proof (oi_ids _ _ _ _ Hinv (next_id st)) as Hlt.
    rewrite Hs in Hlt. specialize (Hlt ltac:(eauto)). lia. }
  destruct (oi_fresh _ _ _ _ Hinv _ Hnone) as (Hy & Hg & Hm). split; cbn.
  - intros j oj [(<- & <-)|[Hn Hj]]%lookup_insert_Some; [|by apply (oi_streams _ _ _ _ Hinv)].
    pose proof (data_of_other _ _ Hm) as Hd. rewrite Forall_forall in Hm.
    split; cbn; rewrite ?Hd, ?Hy, ?Hg; try done; try lia.
    + intros _ e Hin. by apply (Hm _ Hin).
    + intros l1 e l2 Heq. exfalso. apply (Hm (OStreamEnd (next_id st) e)); [rewrite Heq; set_solver|done].
    + intros d Hin. exfalso. by apply (Hm _ Hin).
  - intros j [Hj Hn]%lookup_insert_None. by apply (oi_fresh _ _ _ _ Hinv).
  - intros j Hj. destruct (decide (j = next_id st)) as [->|Hn]; [lia|]. rewrite lookup_insert_ne in Hj by done.
    pose proof (oi_ids _ _ _ _ Hinv j Hj). lia.
Qed.

Lemma grant_inv y g st t id amount now st' :
  out_inv y g st t -> 0 <= amount -> note_out_credit (Some st) id amount now = Some st' ->
  out_inv y (if decide (is_Some (streams st !! id)) then add_to g id (Z.add amount) else g) st' t.
Proof.
  intros Hinv Ha. cbn. destruct (streams st !! id) as [o|] eqn:Hs.
  2: { intros [= <-]. rewrite decide_False by (by intros []). destruct Hinv as [K1 K2 K3]. by split. }
  rewrite decide_True by eauto. pose proof (oi_streams _ _ _ _ Hinv _ _ Hs) as Hok.
  assert (Hg : forall j, j <> id -> y j = y j /\ add_to g id (Z.add amount) j = g j) by (intros j Hj; unfold add_to; by rewrite decide_False).
  assert (Hgi : add_to g id (Z.add amount) id = amount + g id) by (unfold add_to; by rewrite decide_True).
  destruct (over o) eqn:Ho; intros [= <-].
  - eapply (out_inv_step y g st t y _ _ t id o o []); try done; [cbn; by rewrite insert_id|by rewrite app_nil_r|constructor|].
    rewrite Hgi. destruct Hok as [K1 K2 K3 K4 K5 K6 K7 K8 K9]. split; try done; lia.
  - eapply (out_inv_step y g st t y _ _ t id o _ []); [done|done|reflexivity|done|by rewrite app_nil_r|constructor| |done].
    rewrite Hgi. destruct Hok as [K1 K2 K3 K4 K5 K6 K7 K8 K9]. specialize (K3 Ho). specialize (K4 Ho). specialize (K6 Ho).
    unfold sat_add, u32_max. split; cbn; try done; lia.
Qed.

Lemma out_inv_ext y y' g st t : (forall j, y j = y' j) -> out_inv y g st t -> out_inv y' g st t.
Proof.
  intros Hy [I1 I2 I3]. split; [intros j oj Hj; rewrite <- Hy; by apply I1|intros j Hj; rewrite <- Hy; by apply I2|done].
Qed.

(** A stream that ends, and is said to. *)
Lemma end_inv y g st t id o o' error :
  out_inv y g st t -> streams st !! id = Some o -> over o = false ->
  over o' = true -> credit o' = credit o -> (error = None -> backlog o = []) ->
  out_inv y g (set_stream st id o') (send_end st t id error).
Proof.
  intros Hinv Hs Ho Ho' Hc Hnone. destruct (send_end_sent st t id error) as (ms & Ht & Hms).
  by eapply (out_inv_end y g st t _ _ id o o' error ms).
Qed.

Lemma cancel_inv y g st t id reason notify st' t' b :
  out_inv y g st t -> cancel_out_stream (Some st) t id reason notify = (Some st', t', b) -> out_inv y g st' t'.
Proof.
  intros Hinv Hc. cbn in Hc. destruct (streams st !! id) as [o|] eqn:Hs; [|by injection Hc as <- <- <-].
  destruct (over o) eqn:Ho; [by injection Hc as <- <- <-|]. injection Hc as <- <- <-. destruct notify; [by eapply end_inv|].
  eapply (out_inv_end y g st t _ _ id o (ended_stream o) (Some reason) []); try done; [by rewrite app_nil_r|by left].
Qed.

Lemma settle_inv y g st t id pulled st' t' :
  out_inv y g st t -> may_settle st id -> settle_pull (Some st) t id pulled = (Some st', t') ->
  out_inv (add_to y id (fun b => b ++ pulled_bytes pulled)) g st' t'.
Proof.
  intros Hinv (o & Hs & Ho & Hb) Hp. cbn in Hp. rewrite Hs in Hp.
  assert (Hyo : forall j, j <> id -> add_to y id (fun b => b ++ pulled_bytes pulled) j = y j /\ g j = g j)
    by (intros j Hj; unfold add_to; by rewrite decide_False).
  assert (Hyi : add_to y id (fun b => b ++ pulled_bytes pulled) id = y id ++ pulled_bytes pulled) by (unfold add_to; by rewrite decide_True).
  assert (Hsame : pulled_bytes pulled = [] -> forall j, y j = add_to y id (fun b => b ++ pulled_bytes pulled) j).
  { intros Hnil j. destruct (decide (j = id)) as [->|Hj]; [by rewrite Hyi, Hnil, app_nil_r|by destruct (Hyo j Hj)]. }
  destruct pulled as [[bytes|]|message]; cbn [pulled_bytes] in *; injection Hp as <- <-.
  - eapply (out_inv_step y g st t _ g _ t id o _ []); try done; [by rewrite app_nil_r|constructor|]. rewrite Hyi.
    pose proof (oi_streams _ _ _ _ Hinv _ _ Hs) as Hok. pose proof (oo_data _ _ _ _ _ Hok Ho) as Hd. rewrite Hb, drop_nil, app_nil_r in Hd.
    destruct Hok as [K1 K2 K3 K4 K5 K6 K7 K8 K9]. split; cbn; try done.
    + lia.
    + intros _. by rewrite Hd.
    + etrans; [exact K5|]. by apply prefix_app_r.
    + intros Hin. by destruct (K6 Ho _ Hin).
  - eapply out_inv_ext; [by apply Hsame|]. by eapply end_inv.
  - eapply out_inv_ext; [by apply Hsame|]. by eapply end_inv.
Qed.

Lemma pending_inv y g st t id promise st' :
  out_inv y g st t -> set_pending (Some st) id promise = Some st' -> out_inv y g st' t.
Proof.
  intros Hinv. cbn. destruct (streams st !! id) as [o|] eqn:Hs; [|by intros [= <-]]. intros [= <-].
  eapply (out_inv_step y g st t y g _ t id o _ []); try done; [by rewrite app_nil_r|constructor|].
  pose proof (oi_streams _ _ _ _ Hinv _ _ Hs) as [K1 K2 K3 K4 K5 K6 K7 K8 K9]. by split.
Qed.

(** *** The drive step *)

Lemma flush_pending {S} `{HostLink S} fuel st (s : S) id o p :
  pending (flush fuel st s id o p).1.1.2 = pending o /\ body (flush fuel st s id o p).1.1.2 = body o.
Proof.
  revert s o p. induction fuel as [|fuel IH]; intros s o p; cbn; [done|].
  destruct (_ && _); [|done]. destruct (negb (has_link st)); [done|].
  destruct (link_send s _ _) as [s' [[]|e]]; [|done].
  match goal with |- context [flush fuel st s' id ?oo true] => destruct (IH s' oo true) as [-> ->] end. done.
Qed.

(** The table stays armed, and a promise awaited is the one that was pending. *)
Lemma classify_table {S} `{HostLink S} st (s : S) id p :
  exists st' s' step p', classify (Some st) s id p = (Some st', s', step, p') /\
    (p = true -> p' = true) /\
    (forall pr, step = AwaitPending pr -> pending <$> streams st !! id = Some (Some pr)).
Proof.
  assert (Hp : forall fuel s o, (flush fuel st s id o true).1.2 = true).
  { induction fuel as [|fuel IH]; intros s0 o; cbn; [done|]. destruct (_ && _); [|done].
    destruct (negb (has_link st)); [done|]. destruct (link_send s0 _ _) as [s1 [[]|e]]; [apply IH|done]. }
  cbn. destruct (streams st !! id) as [o|] eqn:Hs; [|by repeat eexists].
  destruct (over o); [by repeat eexists|].
  destruct (flush_pending (length (backlog o)) st s id o p) as [Hpend _].
  assert (Hpp : p = true -> (flush (length (backlog o)) st s id o p).1.2 = true) by (intros ->; apply Hp).
  destruct (flush _ st s id o p) as [[[s1 o1] p1] failed]. cbn in Hpend, Hpp. destruct failed; [by repeat eexists|].
  do 4 eexists. split; [reflexivity|]. split; [done|]. intros pr. case_match; [done|].
  destruct ((zlen (backlog o1) <=? backlog_sent o1) && _); cbn; rewrite Hpend; by destruct (pending o); intros [= ->].
Qed.

Lemma classify_pending {S} `{HostLink S} st (s : S) id p st' s' step p' :
  classify (Some st) s id p = (Some st', s', step, p') -> pending_of st' id = pending_of st id.
Proof.
  unfold pending_of. cbn. destruct (streams st !! id) as [o|] eqn:Hs; [|by intros [= <- <- <- <-]; rewrite Hs].
  destruct (over o); [by intros [= <- <- <- <-]; rewrite Hs|].
  destruct (flush_pending (length (backlog o)) st s id o p) as [Hp _].
  destruct (flush _ st s id o p) as [[[s1 o1] p1] []]; cbn in Hp; intros [= <- <- <- <-]; cbn; rewrite lookup_insert_eq; cbn; [done|].
  by destruct (_ && _).
Qed.

Lemma settle_pull_table {S} `{HostLink S} st (s : S) id pulled :
  exists st' s', settle_pull (Some st) s id pulled = (Some st', s') /\ pending_of st' id = None.
Proof.
  unfold pending_of. cbn. destruct (streams st !! id) as [o|] eqn:Hs; [|do 2 eexists; by rewrite ?Hs].
  destruct pulled as [[bytes|]|m]; do 2 eexists; (split; [reflexivity|]); cbn; by rewrite lookup_insert_eq.
Qed.

(** Why a drive step that reports no progress has nothing to do. *)
Definition stuck (state_of : Z -> PromiseState) (pull : Z -> PullStart) (st : OutTableState) (id : Z) : Prop :=
  match streams st !! id with
  | None => True
  | Some o =>
    over o = true \/ credit o = 0 \/ (exists pr, pending o = Some pr /\ state_of pr = PPending) \/
    (pending o = None /\ match pull (body o) with Started _ k | NotStarted _ k => k = true end)
  end.

Section Driving.
Context (g : Z -> Z).
Implicit Types (st : OutTableState) (t : Tape) (y : Z -> list byte).

(** What a round that settles nothing does to the awaited promise. *)
Definition keeps_pending (pull : Z -> PullStart) (before after : option Z) : Prop :=
  (forall pr, before = Some pr -> after = Some pr) /\
  (forall pr, before <> Some pr -> fresh_pulls pull (Some pr) -> after <> Some pr).

Lemma keeps_pending_same pull b a : a = b -> keeps_pending pull b a.
Proof. intros ->. split; auto. Qed.

Lemma settle_error_inv y st t id message st' t' :
  out_inv y g st t -> may_settle st id -> settle_pull (Some st) t id (Err message) = (Some st', t') -> out_inv y g st' t'.
Proof.
  intros Hinv Hm Hp. pose proof (settle_inv _ _ _ _ _ _ _ _ Hinv Hm Hp) as Hi. eapply out_inv_ext; [|exact Hi].
  intros j. unfold add_to. cbn. case_decide; [by rewrite app_nil_r|done].
Qed.

(** The second round of a drive step, and the first when nothing settles. *)
Lemma drive_last state_of pull y st t id p :
  out_inv y g st t ->
  (forall pr st1 t1 p1, classify (Some st) t id p = (Some st1, t1, AwaitPending pr, p1) -> state_of pr = PPending) ->
  exists st' t' p', drive_out_stream 1 state_of pull (Some st) t id p = Some (Some st', t', p') /\
    out_inv y g st' t' /\ keeps_pending pull (pending_of st id) (pending_of st' id) /\
    (p' = false -> p = false /\ stuck state_of pull st' id).
Proof.
  intros Hinv Hpend. destruct (classify_table st t id p) as (st1 & t1 & step & p1 & Hc & Hp1 & Haw).
  destruct (classify_inv _ _ _ _ _ _ _ _ _ _ Hinv Hc) as (Hinv1 & Hmay & Hidle & Hstart & Hawait).
  pose proof (classify_pending _ _ _ _ _ _ _ _ Hc) as Hsame. rewrite <- Hsame.
  assert (Hpp : p1 = false -> p = false) by (intros ->; by destruct p; [rewrite Hp1 in *|]).
  cbn [drive_out_stream]. rewrite Hc. destruct step as [|pr|b].
  - exists st1, t1, p1. split_and!; [done|done|by apply keeps_pending_same|]. intros Hf. split; [auto|].
    unfold stuck. destruct (streams st1 !! id) as [o1|] eqn:Ho1; [|done]. destruct (Hidle eq_refl o1 eq_refl); auto.
  - rewrite (Hpend pr st1 t1 p1) by done. exists st1, t1, p1. split_and!; [done|done|by apply keeps_pending_same|].
    intros Hf. split; [auto|]. unfold stuck. destruct (Hawait pr eq_refl) as (o1 & -> & Ho1).
    right; right; left. exists pr. split; [done|]. by eapply Hpend.
  - destruct (Hstart b eq_refl) as (o1 & Ho1 & Hp & Hb).
    assert (Hnone : pending_of st1 id = None) by (unfold pending_of; by rewrite Ho1).
    assert (Hstuck : match pull b with Started _ k | NotStarted _ k => k = true end -> stuck state_of pull st1 id)
      by (intros Hk; unfold stuck; rewrite Ho1, Hb; auto).
    destruct (pull b) as [promise k|message k] eqn:Hpull; destruct k.
    + exists st1, t1, p1. split_and!; [done|done|by apply keeps_pending_same|auto].
    + assert (Hset : exists st2, set_pending (Some st1) id promise = Some st2 /\ pending_of st2 id = Some promise).
      { cbn. rewrite Ho1. eexists. split; [done|]. unfold pending_of. cbn. by rewrite lookup_insert_eq. }
      destruct Hset as (st2 & Hset & Hp2). rewrite Hset. exists st2, t1, true. split_and!; [done|by eapply pending_inv| |done].
      rewrite Hnone, Hp2. split; [done|]. intros pr _ Hfr. by eapply Hfr.
    + exists st1, t1, p1. split_and!; [done|done|by apply keeps_pending_same|auto].
    + destruct (settle_pull_table st1 t1 id (Err message)) as (st2 & t2 & Hse & Hn2). rewrite Hse.
      exists st2, t2, true. split_and!; [done| |by rewrite Hnone, Hn2; by apply keeps_pending_same|done].
      eapply settle_error_inv; [exact Hinv1| |exact Hse]. apply (Hmay b). by left.
Qed.

Lemma taken_kept state_of pull before after : keeps_pending pull before after -> taken state_of before after = [].
Proof. intros [Hk _]. unfold taken. destruct before as [pr|]; [|done]. by rewrite decide_True by auto. Qed.

(** A drive step always ends, in two rounds, and takes what a promise yielded to
    the end of what is sent or kept; without progress there is nothing to do. *)
Lemma drive_ok state_of pull y st t id p :
  out_inv y g st t ->
  exists b st' t' p', drive_out_stream DRIVE_ROUNDS state_of pull (Some st) t id p = Some (Some st', t', p') /\
    out_inv (add_to y id (fun l => l ++ b)) g st' t' /\
    (fresh_pulls pull (pending_of st id) -> b = taken state_of (pending_of st id) (pending_of st' id)) /\
    (p' = false -> stuck state_of pull st' id).
Proof.
  intros Hinv. destruct (classify_table st t id p) as (st1 & t1 & step & p1 & Hc & Hp1 & Haw).
  destruct (classify_inv _ _ _ _ _ _ _ _ _ _ Hinv Hc) as (Hinv1 & Hmay & _ & _ & Hawait).
  pose proof (classify_pending _ _ _ _ _ _ _ _ Hc) as Hsame.
  assert (Hdec : (forall pr, step = AwaitPending pr -> state_of pr = PPending) \/
    exists pr v, step = AwaitPending pr /\ state_of pr <> PPending /\
      pulled_bytes v = match state_of pr with PFulfilled v => pulled_bytes (chunk_from_pull v) | _ => [] end /\
      forall fuel, drive_out_stream (Datatypes.S fuel) state_of pull (Some st) t id p =
        (let '(slot, s) := settle_pull (Some st1) t1 id v in drive_out_stream fuel state_of pull slot s id true)).
  { destruct step as [|pr|b]; [by left| |by left]. destruct (state_of pr) as [|v|m] eqn:Hst; [left; by intros ? [= <-]| |]; right.
    - exists pr, (chunk_from_pull v). split_and!; [done|by rewrite Hst|by rewrite Hst|]. intros fuel. cbn [drive_out_stream]. by rewrite Hc, Hst.
    - exists pr, (Err (default "body stream failed"%string m)). split_and!; [done|by rewrite Hst|by rewrite Hst|].
      intros fuel. cbn [drive_out_stream]. by rewrite Hc, Hst. }
  destruct Hdec as [Hn|(pr & v & Hstep & Hn & Hv & Hdrive)].
  - assert (Hskip : drive_out_stream DRIVE_ROUNDS state_of pull (Some st) t id p = drive_out_stream 1 state_of pull (Some st) t id p).
    { cbn [drive_out_stream DRIVE_ROUNDS]. rewrite Hc. destruct step as [|pr|b]; try done. by rewrite Hn. }
    rewrite Hskip. destruct (drive_last state_of pull y st t id p Hinv) as (st' & t' & p' & Hd & Hi & Hk & Hp').
    { intros pr st2 t2 p2 Hc'. rewrite Hc in Hc'. simplify_eq. by apply Hn. }
    exists [], st', t', p'. split_and!; [done| |intros _; by erewrite taken_kept|intros Hf; by apply Hp'].
    eapply out_inv_ext; [|exact Hi]. intros j. unfold add_to. case_decide; [by rewrite app_nil_r|done].
  - unfold DRIVE_ROUNDS. rewrite Hdrive. destruct (settle_pull_table st1 t1 id v) as (st2 & t2 & Hse & Hno). rewrite Hse.
    assert (Hi2 : out_inv (add_to y id (fun b => b ++ pulled_bytes v)) g st2 t2).
    { eapply settle_inv; [exact Hinv1| |exact Hse]. apply (Hmay 0). right. eauto. }
    destruct (drive_last state_of pull _ st2 t2 id true Hi2) as (st' & t' & p' & Hd & Hi & [_ Hk] & Hp').
    { intros pr' st3 t3 p3 Hc3. destruct (classify_table st2 t2 id true) as (st4 & t4 & step4 & p4 & Hc4 & _ & Haw4).
      rewrite Hc3 in Hc4. simplify_eq. specialize (Haw4 pr' eq_refl). unfold pending_of in Hno.
      destruct (streams st2 !! id); cbn in *; congruence. }
    exists (pulled_bytes v), st', t', p'. split_and!; [done|done| |intros Hf; by destruct (Hp' Hf)].
    assert (Hpr : pending_of st id = Some pr).
    { rewrite <- Hsame. unfold pending_of. destruct (Hawait pr Hstep) as (o1 & -> & Ho1). done. }
    rewrite Hpr. intros Hfr. unfold taken. rewrite Hv, decide_False; [done|]. apply Hk; [by rewrite Hno|done].
Qed.

Lemma drive_pass_inv gs r y st t progressed ids :
  out_inv y g st t ->
  exists y' st' t' p k, drive_pass gs r (Some st) t progressed ids = (Some st', t', p, k) /\ out_inv y' g st' t'.
Proof.
  revert y st t progressed. induction ids as [|id ids IH]; intros y st t progressed Hs; cbn [drive_pass].
  { eauto 10. }
  destruct (drive_ok (g_state_of gs r id) (g_pull gs r id) y st t id false Hs) as (b & st' & t' & p' & -> & Hs' & _).
  destruct (g_killed gs r id); [eauto 10|]. by eapply IH.
Qed.

Lemma drive_rounds_inv gs r rounds y st t ids :
  out_inv y g st t -> exists y' st' t', drive_rounds gs r rounds (Some st) t ids = (Some st', t') /\ out_inv y' g st' t'.
Proof.
  revert r y st t. induction rounds as [|rounds IH]; intros r y st t Hs; cbn [drive_rounds]; [eauto 10|].
  destruct (drive_pass_inv gs r y st t false ids Hs) as (y' & st' & t' & p & k & -> & Hs').
  destruct k; [eauto 10|]. destruct (negb p); [eauto 10|].
  destruct (g_checkpoint_killed gs r); [eauto 10|]. by apply (IH _ y').
Qed.

(** What ending streams does to an entry: nothing, or it is over. *)
Definition only_ends (m m' : gmap Z OutStream) : Prop :=
  forall id, match m !! id, m' !! id with
    | Some o, Some o' => o' = o \/ over o' = true
    | None, None => True
    | _, _ => False
    end.

Lemma only_ends_refl m : only_ends m m.
Proof. intros id. destruct (m !! id); auto. Qed.

Lemma only_ends_trans a b c : only_ends a b -> only_ends b c -> only_ends a c.
Proof.
  intros Hab Hbc id. specialize (Hab id). specialize (Hbc id).
  destruct (a !! id), (b !! id), (c !! id); try done. destruct Hbc as [->|]; [done|by right].
Qed.

Lemma only_ends_insert m id o o' : m !! id = Some o -> over o' = true -> only_ends m (<[id := o']> m).
Proof.
  intros Hm Ho j. destruct (decide (id = j)) as [->|].
  - rewrite lookup_insert_eq, Hm. by right.
  - rewrite lookup_insert_ne by done. destruct (m !! j); auto.
Qed.

(** The run's end closes every stream, whatever the order of the table. *)
Lemma close_each_inv message l y st t :
  out_inv y g st t -> NoDup (l.*1) -> (forall id o, (id, o) ∈ l -> streams st !! id = Some o) ->
  exists st' t', close_each st t message l = (st', t') /\ out_inv y g st' t' /\ only_ends (streams st) (streams st') /\
    (forall id, id ∈ l.*1 -> exists o', streams st' !! id = Some o' /\ over o' = true).
Proof.
  revert st t. induction l as [|[id o] l IH]; intros st t Hs Hnd Hin; cbn [close_each].
  { exists st, t. split_and!; [done|done|apply only_ends_refl|]. cbn. by intros id ?%elem_of_nil. }
  cbn in Hnd. apply NoDup_cons in Hnd as [Hni Hnd]. pose proof (Hin id o ltac:(left)) as Ho.
  destruct (over o) eqn:Hov.
  - destruct (IH st t Hs Hnd) as (st' & t' & -> & Hs' & Hk & Hall); [intros; apply Hin; by right|].
    exists st', t'. split_and!; [done|done|done|]. intros j [->|Hj]%elem_of_cons; [|by apply Hall].
    specialize (Hk id). cbn. rewrite Ho in Hk. destruct (streams st' !! id) as [o'|]; [|done]. exists o'. split; [done|].
    by destruct Hk as [->|].
  - destruct (IH (set_stream st id (ended_stream o)) (send_end st t id (Some message))) as (st' & t' & -> & Hs' & Hk & Hall).
    + by eapply end_inv.
    + done.
    + intros j oj Hj. cbn. rewrite lookup_insert_ne; [by apply Hin; right|]. intros ->. apply Hni. by apply (list_elem_of_fmap_2 fst _ _ Hj).
    + exists st', t'. split_and!; [done|done| |].
      * eapply only_ends_trans; [by apply (only_ends_insert _ id o (ended_stream o))|exact Hk].
      * intros j [->|Hj]%elem_of_cons; [|by apply Hall]. specialize (Hk id). cbn in *. rewrite lookup_insert_eq in Hk.
        destruct (streams st' !! id) as [o'|]; [|done]. exists o'. split; [done|]. by destruct Hk as [->|].
Qed.

Lemma any_open_false st : (forall id o, streams st !! id = Some o -> over o = true) -> any_open st = false.
Proof.
  intros Ho. unfold any_open. apply not_true_iff_false. rewrite existsb_exists. intros ([id o] & Hin & Hn).
  apply list_elem_of_In, elem_of_map_to_list in Hin. by rewrite (Ho _ _ Hin) in Hn.
Qed.

Lemma close_out_streams_inv order y st t message :
  (forall m, order m ≡ₚ map_to_list m) -> out_inv y g st t ->
  exists st' t', close_out_streams order (Some st) t message = (Some st', t') /\ out_inv y g st' t' /\
    out_streams_open (Some st') = false.
Proof.
  intros Hord Hs. destruct (close_each_inv message (order (streams st)) y st t Hs) as (st' & t' & He & Hs' & Hk & Hall).
  - rewrite Hord. apply NoDup_fst_map_to_list.
  - intros id o Hin. rewrite Hord in Hin. by apply elem_of_map_to_list.
  - exists st', t'. cbn. rewrite He. split_and!; [done|done|]. apply any_open_false. intros id o' Ho'.
    specialize (Hk id). rewrite Ho' in Hk. destruct (streams st !! id) as [o|] eqn:Ho; [|done].
    destruct (Hall id) as (o2 & Ho2 & Hov); [|congruence].
    apply list_elem_of_fmap. exists (id, o). split; [done|]. rewrite Hord. by apply elem_of_map_to_list.
Qed.

End Driving.

Lemma out_steps_inv rid y0 g0 st0 t0 y g st t :
  out_inv y0 g0 st0 t0 -> out_steps rid y0 g0 st0 t0 y g st t -> out_inv y g st t.
Proof.
  intros H0. induction 1 as [|y g st t token b st' id _ IH Hr|y g st t id amount now st' _ IH Ha Hn|y g st t now st' _ IH Hn
    |y g st t id reason notify st' t' b _ IH Hc|y g st t order message st' t' _ IH Hord Hc
    |y g st t state_of pull id p st' t' p' _ IH Hfr Hd].
  - done.
  - by eapply register_inv.
  - by eapply grant_inv.
  - cbn in Hn. injection Hn as <-. destruct IH as [K1 K2 K3]. by split.
  - by eapply cancel_inv.
  - destruct (close_out_streams_inv g order y st t message Hord IH) as (st2 & t2 & Hc2 & Hi & _). congruence.
  - destruct (drive_ok g state_of pull y st t id p IH) as (b & st2 & t2 & p2 & Hd2 & Hi & Hb & _).
    rewrite Hd in Hd2. simplify_eq. by rewrite <- (Hb Hfr).
Qed.

(** *** Claims *)

Lemma armed_inv rid now v : out_inv (fun _ => []) (fun _ => 0) (armed rid now) (mk_Tape [] v).
Proof.
  split; cbn.
  - intros id o Hs. by rewrite lookup_empty in Hs.
  - intros id _. by repeat constructor.
  - intros id [o Hs]. by rewrite lookup_empty in Hs.
Qed.

(** C27. An outbound body reaches the host as the guest yielded it: in every
    state of the run's table, however streams are registered and driven, whatever
    the guest's promises yield, the host grants or cancels and the link refuses,
    the bytes sent for a stream are a prefix of what its guest stream yielded (what
    was read off each promise the drives took), and while it is open the rest is
    the unsent backlog; they never exceed the initial window and the credit
    granted; every chunk is non-empty and within the chunk limit; a stream ends at
    most once and nothing follows its end; an open stream has not ended, and a
    clean end means that everything yielded was sent.  And a drive of the stream
    from there ends, in two rounds of its loop; when it reports no progress there
    is nothing to do: the stream is over, out of credit, waiting for a pull, or its
    guest is being terminated. *)
Theorem outbound_body_faithful rid now v y g st t id o :
  out_steps rid (fun _ => []) (fun _ => 0) (armed rid now) (mk_Tape [] v) y g st t -> streams st !! id = Some o ->
  data_of id (tape_sent t) `prefix_of` y id /\
  zlen (data_of id (tape_sent t)) + credit o <= STREAM_CREDIT_WINDOW_BYTES + g id /\ 0 <= credit o /\
  (over o = false -> data_of id (tape_sent t) ++ drop (Z.to_nat (backlog_sent o)) (backlog o) = y id /\ no_end id (tape_sent t)) /\
  chunk_sizes id (tape_sent t) /\ ended_last id (tape_sent t) /\
  (OStreamEnd id None ∈ tape_sent t -> data_of id (tape_sent t) = y id) /\
  (forall state_of pull p, exists st' t' p',
     drive_out_stream DRIVE_ROUNDS state_of pull (Some st) t id p = Some (Some st', t', p') /\
     (p' = false -> stuck state_of pull st' id)).
Proof.
  intros Hs Ho. pose proof (out_steps_inv _ _ _ _ _ _ _ _ _ (armed_inv rid now v) Hs) as Hinv.
  destruct (oi_streams _ _ _ _ Hinv _ _ Ho) as [[H1 H1'] H2 H3 H4 H5 H6 H7 H8 H9]. split_and!; auto.
  intros state_of pull p. destruct (drive_ok g state_of pull y st t id p Hinv) as (b & st' & t' & p' & Hd & _ & _ & Hp). eauto.
Qed.

Definition demo_chunk (n : nat) : list byte := repeat "x"%byte n.

(** One stream: the first drive starts a pull, the host grants five more bytes,
    and the second drive takes what the pull yielded and pulls again. *)
Definition demo_out : OutTableState * Tape :=
  (mk_OutTableState {[ 1 := mk_OutStream 5 STREAM_CREDIT_WINDOW_BYTES (Some 12) [] 0 false ]} 2 7 true 3,
   mk_Tape [OStreamChunk 1 (demo_chunk 5)] []).

Definition demo_registered : OutTableState :=
  mk_OutTableState {[ 1 := mk_OutStream 5 STREAM_CREDIT_WINDOW_BYTES None [] 0 false ]} 2 7 true 0.
Definition demo_pulling : OutTableState :=
  mk_OutTableState {[ 1 := mk_OutStream 5 STREAM_CREDIT_WINDOW_BYTES (Some 11) [] 0 false ]} 2 7 true 0.
Definition demo_granted : OutTableState :=
  mk_OutTableState {[ 1 := mk_OutStream 5 (STREAM_CREDIT_WINDOW_BYTES + 5) (Some 11) [] 0 false ]} 2 7 true 3.

(** Promise 11 has yielded five bytes, the pull after it is promise 12. *)
Definition demo_promises (pr : Z) : PromiseState :=
  if pr =? 11 then PFulfilled (Uint8Array (demo_chunk 5)) else PPending.

Lemma demo_out_steps :
  exists y g, out_steps 7 (fun _ => []) (fun _ => 0) (armed 7 0) (mk_Tape [] []) y g demo_out.1 demo_out.2 /\
    y 1 = demo_chunk 5 /\ g 1 = 5.
Proof.
  eexists _, _. split.
  - eapply (os_drive _ _ _ _ _ _ _ demo_granted (mk_Tape [] []) demo_promises (fun _ => Started 12 false) 1 false _ _ true);
      [|by intros b pr k [= <- <-]|vm_compute; reflexivity].
    eapply (os_grant _ _ _ _ _ _ _ demo_pulling (mk_Tape [] []) 1 5 3); [|lia|vm_compute; reflexivity].
    eapply (os_drive _ _ _ _ _ _ _ demo_registered (mk_Tape [] []) demo_promises (fun _ => Started 11 false) 1 false _ _ true);
      [|by intros b pr k [= <- <-]|vm_compute; reflexivity].
    eapply (os_register _ _ _ _ _ _ _ (armed 7 0) (mk_Tape [] []) 1 5 demo_registered 1); [constructor|vm_compute; reflexivity].
  - split; vm_compute; reflexivity.
Qed.

Lemma outbound_body_faithful_witness :
  data_of 1 (tape_sent demo_out.2) `prefix_of` demo_chunk 5 /\
  demo_chunk 5 ++ [] = demo_chunk 5 /\ zlen (demo_chunk 5) + STREAM_CREDIT_WINDOW_BYTES <= STREAM_CREDIT_WINDOW_BYTES + 5.
Proof.
  destruct demo_out_steps as (y & g & Hs & Hy & Hg).
  destruct (outbound_body_faithful 7 0 [] y g _ _ 1
    (mk_OutStream 5 STREAM_CREDIT_WINDOW_BYTES (Some 12) [] 0 false) Hs ltac:(reflexivity)) as (Hp & Hc & _ & Hb & _).
  rewrite Hy in Hp, Hb. rewrite Hg in Hc.
  split; [exact Hp|]. split; [apply (Hb ltac:(reflexivity))|]. exact Hc.
Defined.

(** Driving all the outbound streams, and closing the table at the run's end,
    always ends, and the latter leaves no stream open. *)
Theorem driving_ends rid now v y g st t order guest message :
  (forall m, order m ≡ₚ map_to_list m) ->
  out_steps rid (fun _ => []) (fun _ => 0) (armed rid now) (mk_Tape [] v) y g st t ->
  (exists y' st' t', drive_out_streams order guest (Some st) t = (Some st', t') /\ out_inv y' g st' t') /\
  (exists st' t', close_out_streams order (Some st) t message = (Some st', t') /\
     out_steps rid (fun _ => []) (fun _ => 0) (armed rid now) (mk_Tape [] v) y g st' t' /\
     out_streams_open (Some st') = false).
Proof.
  intros Hord Hs. pose proof (out_steps_inv _ _ _ _ _ _ _ _ _ (armed_inv rid now v) Hs) as Hinv. split.
  - unfold drive_out_streams. case_bool_decide; [eauto 10|]. by eapply drive_rounds_inv.
  - destruct (close_out_streams_inv g order y st t message Hord Hinv) as (st' & t' & Hc & _ & Ho).
    exists st', t'. split_and!; [done|by eapply os_close|done].
Qed.

Lemma driving_ends_witness :
  exists st' t', close_out_streams map_to_list (Some (armed 7 0)) (mk_Tape [] []) "run ended" = (Some st', t') /\
    out_streams_open (Some st') = false.
Proof.
  destruct (driving_ends 7 0 [] (fun _ => []) (fun _ => 0) (armed 7 0) (mk_Tape [] []) map_to_list
    (mk_Guest (fun _ _ _ => PPending) (fun _ _ _ => Started 1 false) (fun _ _ => false) (fun _ => false)) "run ended")
    as (_ & st' & t' & Hc & _ & Ho); [done|constructor|]. exists st', t'. auto.
Defined.

End Outb.
