(* ===== verification/Bridge.v ===== *)
(** * The bridge ([crates/core/src/v8/bridge.rs])

    Handle ids of host-module functions, the log of bridge calls, the generic
    callback behind every host global with its limits, and the resolution of a
    requested call's export path.  Guest code that V8 runs on the way (a getter
    met by the serializer, a [valueOf] of a handle) may call the bridge again:
    an invocation carries the invocations nested in it. *)

From Stdlib Require Import Ascii.
From S2P Require Import Prelude Bytes Text F64 Types StreamPayloads Errors Wire Link Guard.

Definition BRIDGE_DISPATCH_GLOBAL : string := "__iso4_call".

(** ** Handles of host-module functions *)

Record ImportHandleEntry := mk_ImportHandleEntry {
  ih_specifier : string;
  ih_path : list string;
  ih_record_name : string;
}.

Definition handle_entry (specifier : string) (path : list string) : ImportHandleEntry :=
  mk_ImportHandleEntry specifier path (specifier +:+ "." +:+ String.concat "." path).

(** [walk] of the source on one node; [path] is the path to the node. *)
Fixpoint walk (specifier : string) (path : list string) (node : HostModuleNode) : list ImportHandleEntry :=
  match node with
  | NodeFunction => [handle_entry specifier path]
  | NodeObject children =>
    (fix go (es : list (string * HostModuleNode)) := match es with
      | [] => []
      | e :: es => walk specifier (path ++ [e.1]) e.2 ++ go es
      end) children
  | NodeData _ => []
  end.

Definition collect_import_handles (imports : list ImportBinding) : list ImportHandleEntry :=
  concat (map (fun b => match ib_module b with
    | Host exports => walk (ib_specifier b) [] (NodeObject exports)
    | Source _ => []
    end) imports).

Fixpoint count_leaves (node : HostModuleNode) : Z :=
  match node with
  | NodeFunction => 1
  | NodeObject children =>
    (fix go (es : list (string * HostModuleNode)) := match es with
      | [] => 0
      | e :: es => count_leaves e.2 + go es
      end) children
  | NodeData _ => 0
  end.

Definition count_function_leaves (entries : list (string * HostModuleNode)) : Z := count_leaves (NodeObject entries).

Fixpoint host_module_base_id (imports : list ImportBinding) (specifier : string) : Z :=
  match imports with
  | [] => 0
  | b :: imports =>
    if decide (ib_specifier b = specifier) then 0
    else match ib_module b with Host exports => count_function_leaves exports | Source _ => 0 end +
      host_module_base_id imports specifier
  end.

(** [str::strip_prefix] and [str::strip_suffix] *)
Definition strip_prefix (p s : string) : option string :=
  if String.prefix p s then Some (String.substring (String.length p) (String.length s - String.length p) s) else None.
Definition strip_suffix (p s : string) : option string :=
  let n := (String.length s - String.length p)%nat in
  if (String.length p <=? String.length s)%nat && String.eqb (String.substring n (String.length p) s) p
  then Some (String.substring 0 n s) else None.

Definition public_record_name (stub_name : string) : string :=
  default stub_name (strip_prefix "__iso4_" stub_name ≫= strip_suffix "_h").

(** ** The call log *)

Definition round_micro (ms : f64) : f64 := f64_div (f64_round (f64_mul ms (f64_of_Z 1000))) (f64_of_Z 1000).

Record BridgeCallLog := mk_BridgeCallLog {
  records : list BridgeCallRecord;
  in_flight : gmap Z nat;
}.

Definition BridgeCallLog_default : BridgeCallLog := mk_BridgeCallLog [] ∅.

Definition record_blocked (l : BridgeCallLog) (name : string) (start_ms : f64) (arg_bytes : Z) : BridgeCallLog :=
  mk_BridgeCallLog (records l ++ [mk_BridgeCallRecord name start_ms f64_zero arg_bytes 0 u32_max Blocked]) (in_flight l).

Definition record_sent (l : BridgeCallLog) (call_id : Z) (name : string) (start_ms : f64) (arg_bytes : Z) : BridgeCallLog :=
  mk_BridgeCallLog (records l ++ [mk_BridgeCallRecord name start_ms f64_zero arg_bytes 0 call_id Unanswered])
    (<[call_id := length (records l)]> (in_flight l)).

(** [round_micro((now_ms - r.start_ms).max(0.0))] *)
Definition duration_until (now_ms : f64) (r : BridgeCallRecord) : f64 :=
  round_micro (f64_max (f64_sub now_ms (bc_start_ms r)) f64_zero).

Definition settled_record (now_ms : f64) (ok : bool) (response_bytes : Z) (r : BridgeCallRecord) : BridgeCallRecord :=
  mk_BridgeCallRecord (bc_name r) (bc_start_ms r) (duration_until now_ms r) (bc_arg_bytes r) response_bytes (bc_call_id r)
    (if ok then OutcomeOk else OutcomeError).

(** [settle]; the source indexes [records] and would panic out of range. *)
Definition settle (l : BridgeCallLog) (call_id : Z) (now_ms : f64) (ok : bool) (response_bytes : Z) : option BridgeCallLog :=
  match in_flight l !! call_id with
  | None => Some l
  | Some idx =>
    r ← records l !! idx;
    Some (mk_BridgeCallLog (<[idx := settled_record now_ms ok response_bytes r]> (records l)) (delete call_id (in_flight l)))
  end.

Definition stamp (now_ms : f64) (rs : list BridgeCallRecord) (idx : nat) : option (list BridgeCallRecord) :=
  r ← rs !! idx;
  Some (<[idx := mk_BridgeCallRecord (bc_name r) (bc_start_ms r) (duration_until now_ms r) (bc_arg_bytes r)
    (bc_response_bytes r) (bc_call_id r) (bc_outcome r)]> rs).

(** The loop over [in_flight.values()], in the order the map yields them. *)
Fixpoint stamp_all (now_ms : f64) (rs : list BridgeCallRecord) (idxs : list nat) : option (list BridgeCallRecord) :=
  match idxs with
  | [] => Some rs
  | idx :: idxs => rs ← stamp now_ms rs idx; stamp_all now_ms rs idxs
  end.

(** Some order of the entries of [in_flight]. *)
Class CallOrder := call_order : gmap Z nat -> list (Z * nat).
Class CallOrderOk `{CallOrder} : Prop := call_order_perm : forall m, call_order m ≡ₚ map_to_list m.

Definition snapshot `{CallOrder} (l : BridgeCallLog) (now_ms : f64) : option (list BridgeCallRecord) :=
  stamp_all now_ms (records l) (map snd (call_order (in_flight l))).

Definition finalize `{CallOrder} (l : BridgeCallLog) (now_ms : f64) : option (BridgeCallLog * list BridgeCallRecord) :=
  rs ← stamp_all now_ms (records l) (map snd (call_order (in_flight l)));
  Some (mk_BridgeCallLog [] ∅, rs).

(** ** Errors of bridge calls *)

(** The [Debug] text of a run error, which derived code produces. *)
Class DebugError := debug_error : RunError -> string.

Definition owned_bridge_error `{DebugError} (err : RunError) : RunError :=
  match err with
  | HostBridge m => HostBridge m
  | FunctionArgumentNotSupported => FunctionArgumentNotSupported
  | BridgeCallPayloadTooLarge => BridgeCallPayloadTooLarge
  | BridgeCallLimitExceeded => BridgeCallLimitExceeded
  | Internal m => Internal m
  | ExportNotSerializable m => ExportNotSerializable m
  | TypeNotSerializable m => TypeNotSerializable m
  | other => Internal ("unexpected bridge error: " +:+ debug_error other)
  end.

(** [Display] of a link error. *)
Definition link_error_text (e : LinkError) : string := match e with TooLarge d | Closed d => d end.

(** ** The callback *)

(** [GlobalCallbackData]: what a run binds to a stub's name; the state its
    shared fields point to is [BridgeState]. *)
Record GlobalCallbackData := mk_GlobalCallbackData {
  cb_run_id : Z;
  cb_stub_name : string;
  cb_record_name : string;
  cb_import_handles : option (list ImportHandleEntry);
  cb_max_bridge_call_bytes : Z;
  cb_max_bridge_calls : Z;
}.

(** What one run's stubs share, with its termination reason and its link:
    [resolvers] maps call ids to promise resolvers; [terminating] is V8's flag. *)
Record BridgeState (S : Type) := mk_BridgeState {
  bridge_call_count : Z;
  call_id : Z;
  bridge_error : option RunError;
  why : ReasonCell;
  terminating : bool;
  resolvers : gmap Z Z;
  log : BridgeCallLog;
  link : S;
}.
Arguments mk_BridgeState {S}. Arguments bridge_call_count {S}. Arguments call_id {S}. Arguments bridge_error {S}.
Arguments why {S}. Arguments terminating {S}. Arguments resolvers {S}. Arguments log {S}. Arguments link {S}.

(** What one invocation of a stub meets in V8: its slot, the clock, which
    arguments are functions, the number the first one converts to, the
    serialization of the argument array ([staged]: it could be built) and the
    resolver made for the promise. *)
Record CallSite := mk_CallSite {
  cs_slot : string;
  cs_start_ms : f64;
  cs_functions : list bool;
  cs_handle : option f64;
  cs_staged : bool;
  cs_blob : result (option CodecError * string) (list byte);
  cs_resolver : option Z;
}.

(** Guest code that runs while an invocation reads its arguments: further
    invocations, and a guard that fires meanwhile. *)
Inductive GuestStep :=
  | Invoke (site : CallSite) (during_handle during_blob : list GuestStep)
  | GuardFires (reason : TerminationReason).

Inductive CallValue :=
  | NoValue
  | Thrown (message : string)
  | RejectedPromise (message : string)
  | Promise (resolver : Z).

Section Callback.
Context {S : Type} `{HostLink S}.

Definition with_log (b : BridgeState S) (l : BridgeCallLog) : BridgeState S :=
  mk_BridgeState (bridge_call_count b) (call_id b) (bridge_error b) (why b) (terminating b) (resolvers b) l (link b).
Definition with_count (b : BridgeState S) (n : Z) : BridgeState S :=
  mk_BridgeState n (call_id b) (bridge_error b) (why b) (terminating b) (resolvers b) (log b) (link b).
Definition with_call_id (b : BridgeState S) (n : Z) : BridgeState S :=
  mk_BridgeState (bridge_call_count b) n (bridge_error b) (why b) (terminating b) (resolvers b) (log b) (link b).
Definition with_link (b : BridgeState S) (s : S) : BridgeState S :=
  mk_BridgeState (bridge_call_count b) (call_id b) (bridge_error b) (why b) (terminating b) (resolvers b) (log b) s.
Definition with_resolvers (b : BridgeState S) (m : gmap Z Z) : BridgeState S :=
  mk_BridgeState (bridge_call_count b) (call_id b) (bridge_error b) (why b) (terminating b) m (log b) (link b).

(** The first error wins ([OnceLock]); execution terminates. *)
Definition fatal_bridge_error (b : BridgeState S) (error : RunError) : BridgeState S :=
  mk_BridgeState (bridge_call_count b) (call_id b) (Some (default error (bridge_error b)))
    (mk_ReasonCell (reason (why b)) true) true (resolvers b) (log b) (link b).

Definition guard_fires (b : BridgeState S) (r : TerminationReason) : BridgeState S :=
  mk_BridgeState (bridge_call_count b) (call_id b) (bridge_error b) (reason_set (why b) r) true (resolvers b) (log b) (link b).

Definition blocked (b : BridgeState S) (d : GlobalCallbackData) (site : CallSite) (arg_bytes : Z) : BridgeState S :=
  with_log b (record_blocked (log b) (cb_record_name d) (cs_start_ms site) arg_bytes).

(** The target a call goes to and the name it is recorded under; [None]: the
    dispatcher was called with no handle of its table. *)
Definition call_target (d : GlobalCallbackData) (site : CallSite) : option (BridgeTarget * string) :=
  match cb_import_handles d with
  | None => Some (TargetGlobal (cb_stub_name d), cb_record_name d)
  | Some table =>
    n ← cs_handle site;
    if negb (bool_decide (cs_functions site = [])) && f64_eq (f64_fract n) f64_zero && f64_le f64_zero n &&
       (f64_to_uint u64_max n <? zlen table)
    then e ← table !! Z.to_nat (f64_to_uint u64_max n); Some (TargetImport (ih_specifier e) (ih_path e), ih_record_name e)
    else None
  end.

(** The tail of the callback, from the call id on. *)
Definition send_call (b : BridgeState S) (d : GlobalCallbackData) (site : CallSite) (target : BridgeTarget) (record_name : string)
    (args_blob : list byte) : BridgeState S * CallValue :=
  let id := call_id b in
  let b := with_call_id b (wrap_add u32_max id 1) in
  let payload_len := zlen args_blob in
  if u32_max <? payload_len then (fatal_bridge_error (blocked b d site u32_max) BridgeCallPayloadTooLarge, NoValue)
  else if (0 <? cb_max_bridge_call_bytes d) && (cb_max_bridge_call_bytes d <? payload_len)
  then (fatal_bridge_error (blocked b d site payload_len) BridgeCallPayloadTooLarge, NoValue)
  else if bool_decide (is_Some (bridge_error b)) || bool_decide (is_Some (reason (why b))) then (blocked b d site 0, NoValue)
  else
    let '(s, sent) := link_send (link b) (cb_run_id d) (OBridgeCall id target args_blob) in
    let b := with_link b s in
    match sent with
    | Err e => (fatal_bridge_error (blocked b d site payload_len) (Internal ("bridge write failed: " +:+ link_error_text e)), NoValue)
    | Ok _ =>
      let b := with_log b (record_sent (log b) id record_name (cs_start_ms site) payload_len) in
      match cs_resolver site with
      | None => (fatal_bridge_error b (Internal "failed to create PromiseResolver"), NoValue)
      | Some r => (with_resolvers b (<[id := r]> (resolvers b)), Promise r)
      end
    end.

(** [bridge_global_callback]; [stubs]: what the calling run binds, [None] when
    no live run is attributed. *)
Fixpoint bridge_global_callback (stubs : option (gmap string GlobalCallbackData)) (g : GuestStep) (b : BridgeState S) :
    BridgeState S * CallValue :=
  let guest := fix go (gs : list GuestStep) (b : BridgeState S) := match gs with
    | [] => b
    | g :: gs => go gs (bridge_global_callback stubs g b).1
    end in
  match g with
  | GuardFires r => (guard_fires b r, NoValue)
  | Invoke site during_handle during_blob =>
    match stubs ≫= lookup (cs_slot site) with
    | None => (b, Thrown ("[iso4] bridge: '" +:+ cs_slot site +:+
        "' is not bound in this call — the reference was captured from an earlier run on this warm instance"))
    | Some d =>
      let prev := bridge_call_count b in
      let b := with_count b (wrap_add u32_max prev 1) in
      if (0 <? cb_max_bridge_calls d) && (cb_max_bridge_calls d <=? prev)
      then (fatal_bridge_error (blocked b d site 0) BridgeCallLimitExceeded, NoValue)
      else if existsb id (cs_functions site)
      then (fatal_bridge_error (blocked b d site 0) FunctionArgumentNotSupported, NoValue)
      else
        let b := match cb_import_handles d with Some _ => guest during_handle b | None => b end in
        match call_target d site with
        | None =>
          (blocked b d site 0, match cs_resolver site with
            | Some _ => RejectedPromise "[iso4] no host import handle for direct dispatcher call"
            | None => Thrown "no host import handle for direct dispatcher call"
            end)
        | Some (target, record_name) =>
          if negb (cs_staged site)
          then (fatal_bridge_error (blocked b d site 0) (Internal "failed to stage bridge call arguments"), NoValue)
          else
            let b := guest during_blob b in
            match cs_blob site with
            | Err (codec, message) =>
              (fatal_bridge_error (blocked b d site 0) match codec with
                | Some e => codec_error_to_run_error e
                | None => ExportNotSerializable ("bridge call argument could not be serialized: " +:+ message)
                end, NoValue)
            | Ok args_blob => send_call b d site target record_name args_blob
            end
        end
    end
  end.

(** [guest] of the callback, as a function of its own. *)
Definition guest_steps (stubs : option (gmap string GlobalCallbackData)) : list GuestStep -> BridgeState S -> BridgeState S :=
  fix go gs b := match gs with
  | [] => b
  | g :: gs => go gs (bridge_global_callback stubs g b).1
  end.

(** The arm of [frame_turn] that takes a bridge response: the log and the
    resolver to settle, if there is one. *)
Definition bridge_response (b : BridgeState S) (id : Z) (now_ms : f64) (answer : bridge_answer) : option (BridgeState S * option Z) :=
  let response_value_bytes := match answer with inl (Some blob) => as_u32 (zlen blob) | _ => 0 end in
  l ← settle (log b) id now_ms (match answer with inl _ => true | inr _ => false end) response_value_bytes;
  Some (with_resolvers (with_log b l) (delete id (resolvers b)), resolvers b !! id).
End Callback.

(** ** The stubs of a run ([start_turn], [install_bridge_globals]) *)

Record BridgeStubSpec := mk_BridgeStubSpec {
  sp_stub_name : string;
  sp_record_name : string;
  sp_import_handles : option (list ImportHandleEntry);
  sp_enumerable : bool;
}.

Definition stub_of (g : HostGlobalDef) : list BridgeStubSpec :=
  match bridge_stub_name g with
  | Some stub => [mk_BridgeStubSpec stub (match g with Shim name _ _ _ => name | _ => public_record_name stub end) None (enumerable g)]
  | None => []
  end.

Definition bridge_stubs (globals : list HostGlobalDef) (imports : list ImportBinding) : list BridgeStubSpec :=
  let import_handles := collect_import_handles imports in
  concat (map stub_of globals) ++
  if bool_decide (import_handles = []) then []
  else [mk_BridgeStubSpec BRIDGE_DISPATCH_GLOBAL BRIDGE_DISPATCH_GLOBAL (Some import_handles) true].

Definition RESERVED_GLOBAL_NAMES : list string :=
  ["console"; "waitUntil"; "setTimeout"; "clearTimeout"; "Headers"; "Request"; "Response"; "TextEncoder"; "TextDecoder";
   "URL"; "URLSearchParams"; "NaN"; "undefined"; "Infinity"; "__proto__"].

Definition check_not_reserved (name : string) : result RunError unit :=
  if bool_decide (name ∈ RESERVED_GLOBAL_NAMES)
  then Err (ReservedName ("global '" +:+ name +:+ "' is reserved by the runtime and cannot be provided by the host"))
  else Ok tt.

Definition binding_of (run_id max_bridge_call_bytes max_bridge_calls : Z) (spec : BridgeStubSpec) : GlobalCallbackData :=
  mk_GlobalCallbackData run_id (sp_stub_name spec) (sp_record_name spec) (sp_import_handles spec)
    max_bridge_call_bytes max_bridge_calls.

(** The part of the installation that is the runtime's own: the run's bindings.
    [defined]: whether V8 built and defined the stub's function. *)
Fixpoint install_bridge_globals (run_id max_bridge_call_bytes max_bridge_calls : Z) (defined : string -> result RunError unit)
    (stubs : list BridgeStubSpec) (bound : gmap string GlobalCallbackData) :
    gmap string GlobalCallbackData * result RunError unit :=
  match stubs with
  | [] => (bound, Ok tt)
  | spec :: stubs =>
    match check_not_reserved (sp_stub_name spec) with
    | Err e => (bound, Err e)
    | Ok _ =>
      let bound := <[sp_stub_name spec := binding_of run_id max_bridge_call_bytes max_bridge_calls spec]> bound in
      match defined (sp_stub_name spec) with
      | Err e => (bound, Err e)
      | Ok _ => install_bridge_globals run_id max_bridge_call_bytes max_bridge_calls defined stubs bound
      end
    end
  end.

(** What [install_prefix_bridge_placeholders] installs: the name, the name
    shown, whether it is the dispatcher, whether it is enumerable. *)
Definition placeholder_of (g : HostGlobalDef) : result RunError (list (string * string * bool * bool)) :=
  match g with
  | Bridge name e => check_not_reserved name;; Ok [(name, name, false, e)]
  | Shim name _ handler_name _ => Ok [(handler_name, name, false, true)]
  | StringExpr _ _ _ | Data _ _ _ => Ok []
  end.

Fixpoint placeholder_targets (globals : list HostGlobalDef) : result RunError (list (string * string * bool * bool)) :=
  match globals with
  | [] => Ok []
  | g :: globals => t ← placeholder_of g; ts ← placeholder_targets globals; Ok (t ++ ts)
  end.

Definition is_host (b : ImportBinding) : bool := match ib_module b with Host _ => true | Source _ => false end.

Definition prefix_placeholders (globals : list HostGlobalDef) (imports : list ImportBinding) :
    result RunError (list (string * string * bool * bool)) :=
  ts ← placeholder_targets globals;
  Ok (ts ++ if existsb is_host imports then [(BRIDGE_DISPATCH_GLOBAL, BRIDGE_DISPATCH_GLOBAL, true, true)] else []).

(** ** Requested calls *)

Definition MAX_CALL_PATH_SEGMENTS : nat := 16.

(** [str::split('.')] *)
Fixpoint split_dots (s : string) : list string :=
  match s with
  | EmptyString => [EmptyString]
  | String c s =>
    match split_dots s with
    | [] => []
    | x :: xs => if decide (c = "."%char) then EmptyString :: x :: xs else String c x :: xs
    end
  end.

(** What V8 answers while a path is resolved: a value as an object, the value of
    the property at a step (reading it may run a getter and may throw), what a
    value is.  Values are named by numbers. *)
Record Objects := mk_Objects {
  to_object : Z -> option Z;
  property : nat -> Z -> string -> option Z;
  can_intern : string -> bool;
  is_callable : Z -> bool;
  is_nullish : Z -> bool;
}.

Definition quoted (s : string) : string := String "034"%char (s +:+ String "034"%char EmptyString).
Definition call_path (export_path : string) : string := "call export path " +:+ quoted export_path.

Fixpoint resolve_from (o : Objects) (export_path : string) (done : list string) (segments : list string)
    (receiver current : Z) : result RunError (Z * Z) :=
  match segments with
  | [] => Ok (receiver, current)
  | segment :: segments =>
    match to_object o current with
    | None => Err (CallTargetNotFound (call_path export_path +:+ " does not resolve: " +:+ quoted (String.concat "." done) +:+ " is not an object"))
    | Some object =>
      if negb (can_intern o segment) then Err (Internal "failed to intern call path segment")
      else match property o (length done) object segment with
        | None => Err (CallTargetNotFound (call_path export_path +:+ " does not resolve: reading " +:+ quoted segment +:+ " threw"))
        | Some value => resolve_from o export_path (done ++ [segment]) segments object value
        end
    end
  end.

(** The function and its receiver. *)
Definition resolve_call_target (o : Objects) (namespace : Z) (export_path : string) : result RunError (Z * Z) :=
  let segments := split_dots export_path in
  if bool_decide (export_path = EmptyString) || existsb (fun s => bool_decide (s = EmptyString)) segments
  then Err (CallTargetNotFound (call_path export_path +:+ " is not a dot-separated path of non-empty segments"))
  else if (MAX_CALL_PATH_SEGMENTS <? length segments)%nat
  then Err (CallTargetNotFound (call_path export_path +:+ " exceeds " +:+ pretty MAX_CALL_PATH_SEGMENTS +:+ " segments"))
  else
    '(receiver, current) ← resolve_from o export_path [] segments namespace namespace;
    if is_callable o current then Ok (current, receiver)
    else if is_nullish o current
    then Err (CallTargetNotFound (call_path export_path +:+ " does not resolve against the module's exports"))
    else Err (CallTargetNotFound (call_path export_path +:+ " resolved to a value that is not callable")).

(** ** A run's bridge as a machine

    Guest code calls stubs, the host answers, other runs of the connection draw
    ids from the shared counter. *)

Inductive bridge_op :=
  | Guest (g : GuestStep)
  | Response (id : Z) (now_ms : f64) (answer : bridge_answer)
  | OtherRuns (calls : Z).

Section Machine.
Context {S : Type} `{HostLink S}.

Definition bridge_exec (stubs : option (gmap string GlobalCallbackData)) (b : BridgeState S) (o : bridge_op) : option (BridgeState S) :=
  match o with
  | Guest g => Some (bridge_global_callback stubs g b).1
  | Response id now_ms answer => fst <$> bridge_response b id now_ms answer
  | OtherRuns calls => Some (with_call_id b (wrap_add u32_max (call_id b) calls))
  end.

Fixpoint bridge_run (stubs : option (gmap string GlobalCallbackData)) (b : BridgeState S) (os : list bridge_op) : option (BridgeState S) :=
  match os with
  | [] => Some b
  | o :: os => b ← bridge_exec stubs b o; bridge_run stubs b os
  end.

Definition bridge_new (first_id : Z) (s : S) : BridgeState S :=
  mk_BridgeState 0 first_id None reason_new false ∅ BridgeCallLog_default s.
End Machine.

(** The ids a step may draw at most. *)
Fixpoint invocations (g : GuestStep) : Z :=
  let all := fix go (gs : list GuestStep) := match gs with [] => 0 | g :: gs => invocations g + go gs end in
  match g with
  | GuardFires _ => 0
  | Invoke _ during_handle during_blob => 1 + all during_handle + all during_blob
  end.

Definition all_invocations : list GuestStep -> Z :=
  fix go (gs : list GuestStep) := match gs with [] => 0 | g :: gs => invocations g + go gs end.

Definition op_ids (o : bridge_op) : Z :=
  match o with Guest g => invocations g | Response _ _ _ => 0 | OtherRuns calls => calls end.

Section GuestInd.
Context (P : GuestStep -> Prop).
Hypothesis HInvoke : forall site h bl, Forall P h -> Forall P bl -> P (Invoke site h bl).
Hypothesis HFires : forall r, P (GuardFires r).

Fixpoint GuestStep_nested_ind (g : GuestStep) : P g :=
  let all := fix go (gs : list GuestStep) : Forall P gs :=
    match gs with [] => @List.Forall_nil _ _ | g :: gs => @List.Forall_cons _ _ g gs (GuestStep_nested_ind g) (go gs) end in
  match g with
  | GuardFires r => HFires r
  | Invoke site h bl => HInvoke site h bl (all h) (all bl)
  end.
End GuestInd.

Lemma invocations_nonneg g : 0 <= invocations g.
Proof.
  induction g as [site h bl Hh Hb|r] using GuestStep_nested_ind; cbn; [|lia].
  assert (Ha : forall l, Forall (fun g => 0 <= invocations g) l -> 0 <= all_invocations l).
  { induction 1; cbn; [lia|]. unfold all_invocations in *. lia. }
  pose proof (Ha _ Hh). pose proof (Ha _ Hb). unfold all_invocations in *. lia.
Qed.

(** The calls among the frames sent, and the records that are not of blocked
    attempts: ids and argument sizes. *)
Definition frame_view (ms : list Outbound) : list (Z * Z) :=
  omap (fun m => match m with OBridgeCall id _ args => Some (id, zlen args) | _ => None end) ms.

Definition record_view (rs : list BridgeCallRecord) : list (Z * Z) :=
  omap (fun r => match bc_outcome r with Blocked => None | _ => Some (bc_call_id r, bc_arg_bytes r) end) rs.

(** What a stretch of guest code does to the bridge of its run.  [k]: the
    attempts begun before it that end in it (positive) or begun in it that end
    after it (negative); [n], [m]: the attempts and the ids it may add. *)
Record grows (mc mb n m k : Z) (b b' : BridgeState Tape) : Prop := {
  g_count : bridge_call_count b <= bridge_call_count b' <= bridge_call_count b + n;
  g_ids : call_id b <= call_id b' <= call_id b + m;
  g_records : exists rs, records (log b') = records (log b) ++ rs /\ zlen rs = bridge_call_count b' - bridge_call_count b + k;
  g_frames : exists ms, tape_sent (link b') = tape_sent (link b) ++ ms /\
    (0 < mc -> zlen ms <= Z.min (bridge_call_count b') mc - Z.min (bridge_call_count b) mc + k) /\
    Forall (fun f => exists id t args, f = OBridgeCall id t args /\ (0 < mb -> zlen args <= mb)) ms;
  g_error : forall e, bridge_error b = Some e -> bridge_error b' = Some e /\ tape_sent (link b') = tape_sent (link b);
}.

Lemma grows_trans mc mb n1 n2 m1 m2 k1 k2 b1 b2 b3 :
  grows mc mb n1 m1 k1 b1 b2 -> grows mc mb n2 m2 k2 b2 b3 -> grows mc mb (n1 + n2) (m1 + m2) (k1 + k2) b1 b3.
Proof.
  intros [A1 A2 (r1 & A3 & A3') (f1 & A4 & A4' & A4'') A5] [B1 B2 (r2 & B3 & B3') (f2 & B4 & B4' & B4'') B5]. split; [lia|lia| | |].
  - exists (r1 ++ r2). rewrite B3, A3, <- app_assoc, length_app. split; [done|lia].
  - exists (f1 ++ f2). rewrite B4, A4, <- app_assoc, length_app. split; [done|]. split; [intros; lia|by apply Forall_app].
  - intros e [Hb Ht]%A5. apply B5 in Hb as [Hb Ht']. by rewrite Ht', Ht.
Qed.

(** A step that adds [rs] to the log and sends nothing. *)
Lemma grows_quiet mc mb n m k b b' rs :
  bridge_call_count b <= bridge_call_count b' <= bridge_call_count b + n ->
  call_id b <= call_id b' <= call_id b + m ->
  records (log b') = records (log b) ++ rs -> zlen rs = bridge_call_count b' - bridge_call_count b + k ->
  (0 < mc -> 0 <= Z.min (bridge_call_count b') mc - Z.min (bridge_call_count b) mc + k) ->
  tape_sent (link b') = tape_sent (link b) ->
  (forall e, bridge_error b = Some e -> bridge_error b' = Some e) ->
  grows mc mb n m k b b'.
Proof.
  intros Hc Hi Hr Hk Hf Ht He. split; [done|done|by exists rs| |auto].
  exists []. by rewrite Ht, app_nil_r.
Qed.

Ltac quiet :=
  eapply grows_quiet; cbn;
    [lia|lia|first [reflexivity | symmetry; apply app_nil_r]|cbn; lia|lia|first [reflexivity | assumption]|first [done | naive_solver]].

Lemma grows_fatal mc mb n m k b b' error : grows mc mb n m k b b' -> grows mc mb n m k b (fatal_bridge_error b' error).
Proof.
  intros [H1 H2 H3 H4 H5]. split; [done|done|done|done|]. cbn. intros e [-> Ht]%H5. done.
Qed.

Lemma grows_blocked mc mb b d site x : grows mc mb 0 0 1 b (blocked b d site x).
Proof. quiet. Qed.

Lemma grows_begin mc mb b :
  0 <= bridge_call_count b -> bridge_call_count b + 1 <= u32_max -> (0 < mc -> bridge_call_count b < mc) ->
  grows mc mb 1 0 (-1) b (with_count b (wrap_add u32_max (bridge_call_count b) 1)).
Proof.
  intros H0 H1 Hm. unfold wrap_add. rewrite Z.mod_small by (unfold u32_max in *; lia).
  quiet.
Qed.

Lemma grows_refl mc mb b : grows mc mb 0 0 0 b b.
Proof. quiet. Qed.

Lemma grows_fires mc mb b r : grows mc mb 0 0 0 b (guard_fires b r).
Proof. quiet. Qed.

Lemma tape_send_cases (t : Tape) r msg :
  let '(t', x) := link_send t r msg in
  (exists e, x = Err e /\ tape_sent t' = tape_sent t) \/ (x = Ok tt /\ tape_sent t' = tape_sent t ++ [msg]).
Proof. cbn. unfold tape_send. destruct (verdicts t) as [|[] v]; cbn; eauto. Qed.

Lemma grows_send mc b d site target name args :
  0 <= call_id b -> call_id b + 1 <= u32_max ->
  grows mc (cb_max_bridge_call_bytes d) 0 1 1 b (send_call b d site target name args).1.
Proof.
  intros H0 H1. unfold send_call, wrap_add. rewrite Z.mod_small by (unfold u32_max in *; lia).
  set (b0 := with_call_id b (call_id b + 1)).
  assert (Hb : forall x, grows mc (cb_max_bridge_call_bytes d) 0 1 1 b (blocked b0 d site x)).
  { intros x. quiet. }
  destruct (u32_max <? zlen args); [by apply grows_fatal|].
  destruct ((0 <? cb_max_bridge_call_bytes d) && (cb_max_bridge_call_bytes d <? zlen args)) eqn:Hmax; [by apply grows_fatal|].
  destruct (bool_decide (is_Some (bridge_error b0)) || _) eqn:Herr; [apply Hb|].
  apply orb_false_elim in Herr as [Herr%bool_decide_eq_false _].
  pose proof (tape_send_cases (link b0) (cb_run_id d) (OBridgeCall (call_id b) target args)) as Ht.
  destruct (link_send (link b0) _ _) as [t x]. destruct Ht as [(e & -> & Ht)|[-> Ht]].
  - apply grows_fatal. quiet.
  - assert (Hs : forall m, grows mc (cb_max_bridge_call_bytes d) 0 1 1 b
      (with_resolvers (with_log (with_link b0 t) (record_sent (log b0) (call_id b) name (cs_start_ms site) (zlen args))) m)).
    { intros m. split; cbn; [lia|lia|eexists; split; [done|cbn; lia]| |].
      - exists [OBridgeCall (call_id b) target args]. split; [done|]. split; [cbn; lia|].
        constructor; [|done]. do 3 eexists. split; [done|]. apply andb_false_iff in Hmax as [?%Z.ltb_ge|?%Z.ltb_ge]; lia.
      - intros e He. destruct Herr. cbn. by rewrite He. }
    destruct (cs_resolver site) as [r|]; [apply Hs|]. apply grows_fatal, (Hs (resolvers b)).
Qed.

Lemma grows_weaken mc mb n n' m m' k b b' : n <= n' -> m <= m' -> grows mc mb n m k b b' -> grows mc mb n' m' k b b'.
Proof. intros Hn Hm [H1 H2 H3 H4 H5]. split; [lia|lia|done..]. Qed.

(** The log and the resolvers of a run: the calls in flight are the unanswered
    records, under ids already drawn, and a resolver waits only for them. *)
Record log_ok (b : BridgeState Tape) : Prop := {
  lk_ids_nonneg : 0 <= call_id b;
  lk_flight : forall i idx, in_flight (log b) !! i = Some idx ->
    exists r, records (log b) !! idx = Some r /\ bc_call_id r = i /\ bc_outcome r = Unanswered;
  lk_unanswered : forall idx r, records (log b) !! idx = Some r -> bc_outcome r = Unanswered ->
    in_flight (log b) !! bc_call_id r = Some idx;
  lk_drawn : forall idx r, records (log b) !! idx = Some r -> bc_outcome r <> Blocked -> bc_call_id r < call_id b;
  lk_views : frame_view (tape_sent (link b)) = record_view (records (log b));
  lk_resolvers : forall i r, resolvers b !! i = Some r -> is_Some (in_flight (log b) !! i);
}.

Lemma log_ok_new first_id v : 0 <= first_id -> log_ok (bridge_new first_id (mk_Tape [] v)).
Proof.
  intros H. split; cbn; [done|..].
  - intros i idx Hi. by rewrite lookup_empty in Hi.
  - intros idx r Hr. by rewrite lookup_nil in Hr.
  - intros idx r Hr. by rewrite lookup_nil in Hr.
  - done.
  - intros i r Hr. by rewrite lookup_empty in Hr.
Qed.

Lemma log_ok_blocked b d site x : log_ok b -> log_ok (blocked b d site x).
Proof.
  intros [H0 H1 H2 H3 H4 H5]. split; cbn; [done| | | | |done].
  - intros i idx (r & Hr & Hi)%H1. exists r. by rewrite lookup_app_l by (by eapply lookup_lt_Some).
  - intros idx r [Hr|[_ [_ <-]%list_lookup_singleton_Some]]%lookup_app_Some Ho; [by apply H2|done].
  - intros idx r [Hr|[_ [_ <-]%list_lookup_singleton_Some]]%lookup_app_Some Ho; [by eapply H3|done].
  - rewrite H4. unfold record_view. by rewrite omap_app, app_nil_r.
Qed.

Lemma log_ok_fatal b e : log_ok b -> log_ok (fatal_bridge_error b e).
Proof. by intros []. Qed.

Lemma log_ok_call_id b n : call_id b <= n -> log_ok b -> log_ok (with_call_id b n).
Proof. intros Hn [H0 H1 H2 H3 H4 H5]. split; cbn; try done; [lia|]. intros idx r Hr Ho. apply H3 in Hr; [lia|done]. Qed.

Lemma log_ok_sent b t name start n m :
  log_ok b -> (forall i r, m !! i = Some r -> i = call_id b \/ resolvers b !! i = Some r) ->
  frame_view (tape_sent t) = frame_view (tape_sent (link b)) ++ [(call_id b, n)] ->
  log_ok (with_resolvers (with_log (with_link (with_call_id b (call_id b + 1)) t) (record_sent (log b) (call_id b) name start n)) m).
Proof.
  intros [H0 H1 H2 H3 H4 H5] Hm Ht.
  assert (Hfresh : in_flight (log b) !! call_id b = None).
  { destruct (in_flight (log b) !! call_id b) as [idx|] eqn:Hi; [|done].
    apply H1 in Hi as (r & Hr & Hc & Ho). apply H3 in Hr; [lia|by rewrite Ho]. }
  split; cbn; [lia|..].
  - intros i idx [[<- <-]|[Hne Hi]]%lookup_insert_Some.
    + eexists. rewrite lookup_app_r, Nat.sub_diag by lia. by repeat split.
    + apply H1 in Hi as (r & Hr & Hi). exists r. by rewrite lookup_app_l by (by eapply lookup_lt_Some).
  - intros idx r [Hr|[Hge [Hz <-]%list_lookup_singleton_Some]]%lookup_app_Some Ho.
    + rewrite lookup_insert_ne; [by apply H2|]. apply H3 in Hr; [lia|by rewrite Ho].
    + cbn. rewrite lookup_insert_eq. f_equal. lia.
  - intros idx r [Hr|[_ [_ <-]%list_lookup_singleton_Some]]%lookup_app_Some Ho; [|cbn; lia].
    apply H3 in Hr; [lia|done].
  - rewrite Ht, H4. unfold record_view. by rewrite omap_app.
  - intros i r [->|Hr]%Hm; [by rewrite lookup_insert_eq|]. destruct (decide (i = call_id b)) as [->|Hne]; [by rewrite lookup_insert_eq|].
    rewrite lookup_insert_ne by done. by eapply H5.
Qed.

Lemma log_ok_send b d site target name args :
  call_id b + 1 <= u32_max -> log_ok b -> log_ok (send_call b d site target name args).1.
Proof.
  intros H1 Hok. pose proof (lk_ids_nonneg _ Hok) as H0.
  unfold send_call, wrap_add. rewrite Z.mod_small by (unfold u32_max in *; lia).
  assert (Hb : log_ok (with_call_id b (call_id b + 1))) by (apply log_ok_call_id; [lia|done]).
  repeat (case_match; [by repeat first [apply log_ok_fatal | apply log_ok_blocked]|]).
  pose proof (tape_send_cases (link b) (cb_run_id d) (OBridgeCall (call_id b) target args)) as Ht.
  cbn [link with_call_id]. destruct (link_send (link b) _ _) as [t x]. destruct Ht as [(e & -> & Ht)|[-> Ht]].
  - apply log_ok_fatal, log_ok_blocked. destruct Hb as [B0 B1 B2 B3 B4 B5]. split; cbn; try done. by rewrite Ht.
  - assert (Hf : frame_view (tape_sent t) = frame_view (tape_sent (link b)) ++ [(call_id b, zlen args)]).
    { rewrite Ht. unfold frame_view. by rewrite omap_app. }
    destruct (cs_resolver site) as [r|].
    + apply (log_ok_sent b t name (cs_start_ms site) (zlen args) (<[call_id b := r]> (resolvers b))); [done| |done]. intros i r' [[-> _]|[_ Hr]]%lookup_insert_Some; auto.
    + apply log_ok_fatal, (log_ok_sent b t name (cs_start_ms site) (zlen args) (resolvers b)); [done|auto|done].
Qed.

Lemma invoke_eq {S} `{HostLink S} stubs site h bl (b : BridgeState S) :
  bridge_global_callback stubs (Invoke site h bl) b =
    match stubs ≫= lookup (cs_slot site) with
    | None => (b, Thrown ("[iso4] bridge: '" +:+ cs_slot site +:+
        "' is not bound in this call — the reference was captured from an earlier run on this warm instance"))
    | Some d =>
      let prev := bridge_call_count b in
      let b := with_count b (wrap_add u32_max prev 1) in
      if (0 <? cb_max_bridge_calls d) && (cb_max_bridge_calls d <=? prev)
      then (fatal_bridge_error (blocked b d site 0) BridgeCallLimitExceeded, NoValue)
      else if existsb id (cs_functions site)
      then (fatal_bridge_error (blocked b d site 0) FunctionArgumentNotSupported, NoValue)
      else
        let b := match cb_import_handles d with Some _ => guest_steps stubs h b | None => b end in
        match call_target d site with
        | None =>
          (blocked b d site 0, match cs_resolver site with
            | Some _ => RejectedPromise "[iso4] no host import handle for direct dispatcher call"
            | None => Thrown "no host import handle for direct dispatcher call"
            end)
        | Some (target, record_name) =>
          if negb (cs_staged site)
          then (fatal_bridge_error (blocked b d site 0) (Internal "failed to stage bridge call arguments"), NoValue)
          else
            let b := guest_steps stubs bl b in
            match cs_blob site with
            | Err (codec, message) =>
              (fatal_bridge_error (blocked b d site 0) match codec with
                | Some e => codec_error_to_run_error e
                | None => ExportNotSerializable ("bridge call argument could not be serialized: " +:+ message)
                end, NoValue)
            | Ok args_blob => send_call b d site target record_name args_blob
            end
        end
    end.
Proof. reflexivity. Qed.

(** An attempt that is begun and ends in a record of a blocked call. *)
Lemma grows_end mc mb n m N b b1 d site x :
  n <= N -> m <= N -> grows mc mb n m (-1) b b1 -> grows mc mb N N 0 b (blocked b1 d site x).
Proof.
  intros Hn Hm Hg. apply (grows_weaken _ _ (n + 0) N (m + 0) N); [lia|lia|].
  exact (grows_trans _ _ _ _ _ _ _ _ _ _ _ Hg (grows_blocked mc mb b1 d site x)).
Qed.

Lemma all_invocations_nonneg gs : 0 <= all_invocations gs.
Proof. induction gs as [|g gs IH]; cbn; [done|]. pose proof (invocations_nonneg g). unfold all_invocations in *. lia. Qed.

Section Limits.
Context (mc mb : Z) (stubs : gmap string GlobalCallbackData).
Hypothesis Hlimits : forall name d, stubs !! name = Some d -> cb_max_bridge_calls d = mc /\ cb_max_bridge_call_bytes d = mb.

(** The counters have room for [n] more. *)
Definition fits (b : BridgeState Tape) (n : Z) : Prop :=
  0 <= bridge_call_count b /\ bridge_call_count b + n <= u32_max /\ 0 <= call_id b /\ call_id b + n <= u32_max.

Definition good (n : Z) (f : BridgeState Tape -> BridgeState Tape) : Prop :=
  forall b, fits b n -> grows mc mb n n 0 b (f b) /\ (log_ok b -> log_ok (f b)).

Lemma good_guest gs :
  Forall (fun g => good (invocations g) (fun b => (bridge_global_callback (Some stubs) g b).1)) gs ->
  good (all_invocations gs) (guest_steps (Some stubs) gs).
Proof.
  induction 1 as [|g gs Hg _ IH]; intros b Hf; cbn; [split; [apply grows_refl|done]|].
  change (grows mc mb (invocations g + all_invocations gs) (invocations g + all_invocations gs) (0 + 0) b
    (guest_steps (Some stubs) gs (bridge_global_callback (Some stubs) g b).1) /\
    (log_ok b -> log_ok (guest_steps (Some stubs) gs (bridge_global_callback (Some stubs) g b).1))).
  change (fits b (invocations g + all_invocations gs)) in Hf.
  pose proof (all_invocations_nonneg gs).
  unfold fits in *. destruct (Hg b) as [Hg1 Hl1]; [unfold fits; lia|]. destruct Hg1 as [C1 C2 C3 C4 C5] eqn:Hgr.
  destruct (IH (bridge_global_callback (Some stubs) g b).1) as [Hg2 Hl2]; [unfold fits; lia|].
  split; [|auto]. eapply grows_trans; [|exact Hg2]. by split.
Qed.

Lemma good_callback g : good (invocations g) (fun b => (bridge_global_callback (Some stubs) g b).1).
Proof using Hlimits.
  induction g as [site h bl Hh Hbl|r] using GuestStep_nested_ind; intros b Hf.
  2: { split; [apply grows_fires|by intros []]. }
  apply good_guest in Hh, Hbl. rewrite invoke_eq.
  change (invocations (Invoke site h bl)) with (1 + all_invocations h + all_invocations bl) in *.
  pose proof (all_invocations_nonneg h). pose proof (all_invocations_nonneg bl).
  destruct (Some stubs ≫= lookup (cs_slot site)) as [d|] eqn:Hd; cbn -[send_call wrap_add].
  2: { split; [|done]. eapply grows_weaken; [| |apply grows_refl]; lia. }
  destruct (Hlimits _ _ Hd) as [Hmc Hmb].
  destruct Hf as (F1 & F2 & F3 & F4).
  set (b0 := with_count b (wrap_add u32_max (bridge_call_count b) 1)).
  assert (Hc0 : bridge_call_count b0 = bridge_call_count b + 1).
  { cbn. unfold wrap_add. rewrite Z.mod_small; unfold u32_max in *; lia. }
  assert (Hl0 : log_ok b -> log_ok b0) by (by intros []).
  destruct ((0 <? cb_max_bridge_calls d) && (cb_max_bridge_calls d <=? bridge_call_count b)) eqn:Hlim.
  { split; [|intros; by apply log_ok_fatal, log_ok_blocked, Hl0]. apply grows_fatal.
    apply andb_prop in Hlim as [_ Hle%Z.leb_le]. subst b0. cbn in Hc0. quiet. }
  assert (Hb0 : grows mc mb 1 0 (-1) b b0).
  { apply grows_begin; [lia|lia|]. intros ?. apply andb_false_iff in Hlim as [?%Z.ltb_ge|?%Z.leb_gt]; lia. }
  destruct (existsb id (cs_functions site)).
  { split; [|intros; by apply log_ok_fatal, log_ok_blocked, Hl0]. apply grows_fatal. by eapply grows_end; [| |exact Hb0]; lia. }
  set (b1 := match cb_import_handles d with Some _ => guest_steps (Some stubs) h b0 | None => b0 end).
  assert (Hb1 : grows mc mb (1 + all_invocations h) (0 + all_invocations h) (-1) b b1 /\ (log_ok b -> log_ok b1)).
  { unfold b1. destruct (cb_import_handles d); [|split; [eapply grows_weaken; [| |exact Hb0]; lia|done]].
    destruct (Hh b0) as [Hg Hl]; [unfold fits; rewrite Hc0; cbn; lia|]. split; [|auto].
    exact (grows_trans _ _ _ _ _ _ _ 0 _ _ _ Hb0 Hg). }
  clearbody b1. destruct Hb1 as [Hb1 Hl1].
  destruct (call_target d site) as [[target name]|]; cbn -[send_call].
  2: { split; [|intros; by apply log_ok_blocked, Hl1]. by eapply grows_end; [| |exact Hb1]; lia. }
  destruct (negb (cs_staged site)); cbn -[send_call].
  { split; [|intros; by apply log_ok_fatal, log_ok_blocked, Hl1]. apply grows_fatal. by eapply grows_end; [| |exact Hb1]; lia. }
  destruct (g_count _ _ _ _ _ _ _ Hb1) as [B1 B1']. destruct (g_ids _ _ _ _ _ _ _ Hb1) as [B2 B2'].
  destruct (Hbl b1) as [Hg2 Hl2]; [unfold fits; lia|].
  set (b2 := guest_steps (Some stubs) bl b1) in *. clearbody b2.
  assert (Hb2 : grows mc mb (1 + all_invocations h + all_invocations bl) (0 + all_invocations h + all_invocations bl) (-1) b b2).
  { exact (grows_trans _ _ _ _ _ _ _ 0 _ _ _ Hb1 Hg2). }
  destruct (cs_blob site) as [args|[codec message]]; cbn -[send_call].
  2: { split; [|intros; by apply log_ok_fatal, log_ok_blocked, Hl2, Hl1]. apply grows_fatal. by eapply grows_end; [| |exact Hb2]; lia. }
  destruct (g_ids _ _ _ _ _ _ _ Hb2) as [B3 B3'].
  split; [|intros Hok; apply log_ok_send; [lia|auto]].
  eapply (grows_weaken _ _ (1 + all_invocations h + all_invocations bl + 0) _ (0 + all_invocations h + all_invocations bl + 1)); [lia|lia|].
  refine (grows_trans _ _ _ 0 _ 1 _ 1 _ _ _ Hb2 _). rewrite <- Hmb. apply grows_send; lia.
Qed.

(** *** Responses *)

(** What tells one record from another, whatever becomes of the call. *)
Definition identity_of (r : BridgeCallRecord) : string * f64 * Z * Z := (bc_name r, bc_start_ms r, bc_arg_bytes r, bc_call_id r).

Lemma identities_settled now ok n rs idx r :
  rs !! idx = Some r -> map identity_of (<[idx := settled_record now ok n r]> rs) = map identity_of rs.
Proof. revert idx. induction rs as [|r' rs IH]; intros [|idx] Hr; cbn in *; simplify_eq; [done|]. by rewrite IH. Qed.

Lemma settle_ok b id now ok n :
  log_ok b ->
  match in_flight (log b) !! id with
  | None => settle (log b) id now ok n = Some (log b)
  | Some idx => exists r, records (log b) !! idx = Some r /\ bc_call_id r = id /\ bc_outcome r = Unanswered /\
      settle (log b) id now ok n =
        Some (mk_BridgeCallLog (<[idx := settled_record now ok n r]> (records (log b))) (delete id (in_flight (log b))))
  end.
Proof.
  intros Hok. unfold settle. destruct (in_flight (log b) !! id) as [idx|] eqn:Hi; [|done].
  destruct (lk_flight _ Hok _ _ Hi) as (r & Hr & Hc & Ho). exists r. by rewrite Hr.
Qed.

Lemma record_view_settled now ok n rs idx r :
  rs !! idx = Some r -> bc_outcome r = Unanswered -> record_view (<[idx := settled_record now ok n r]> rs) = record_view rs.
Proof.
  intros Hr Ho. revert idx Hr. induction rs as [|r' rs IH]; intros [|idx] Hr; cbn in *; try done.
  - injection Hr as ->. rewrite Ho. by destruct ok.
  - change (omap _ (<[idx := settled_record now ok n r]> rs)) with (record_view (<[idx := settled_record now ok n r]> rs)).
    by rewrite (IH _ Hr).
Qed.

Lemma log_ok_response b id now answer :
  log_ok b -> exists b' r, bridge_response b id now answer = Some (b', r) /\ log_ok b' /\
    map identity_of (records (log b')) = map identity_of (records (log b)) /\ bridge_call_count b' = bridge_call_count b /\
    link b' = link b /\ bridge_error b' = bridge_error b /\ call_id b' = call_id b.
Proof.
  intros Hok. unfold bridge_response.
  set (ok := match answer with inl _ => true | inr _ => false end). set (n := match answer with inl (Some blob) => as_u32 (zlen blob) | _ => 0 end).
  pose proof (settle_ok b id now ok n Hok) as Hs. destruct (in_flight (log b) !! id) as [idx|] eqn:Hi.
  - destruct Hs as (r & Hr & Hc & Ho & ->). cbn. do 2 eexists. split; [reflexivity|]. cbn. rewrite identities_settled by done.
    split; [|done]. destruct Hok as [H0 H1 H2 H3 H4 H5].
    assert (Hlt : (idx < length (records (log b)))%nat) by (by eapply lookup_lt_Some).
    split; cbn; [done|..].
    + intros i j [Hne Hj]%lookup_delete_Some. destruct (H1 _ _ Hj) as (r' & Hr' & Hc' & Ho'). exists r'. split; [|done].
      rewrite list_lookup_insert_ne; [done|]. intros ->. rewrite Hr in Hr'. congruence.
    + intros j r' Hr' Ho'. destruct (decide (idx = j)) as [<-|Hne].
      { rewrite list_lookup_insert_eq in Hr' by done. injection Hr' as <-. by destruct ok. }
      rewrite list_lookup_insert_ne in Hr' by done. pose proof (H2 _ _ Hr' Ho') as Hf.
      rewrite lookup_delete_ne; [done|]. intros ->. rewrite <- Hc, Hi in Hf || (rewrite Hi in Hf). congruence.
    + intros j r' Hr' Ho'. destruct (decide (idx = j)) as [<-|Hne].
      { rewrite list_lookup_insert_eq in Hr' by done. injection Hr' as <-. cbn. eapply H3; [exact Hr|by rewrite Ho]. }
      rewrite list_lookup_insert_ne in Hr' by done. by eapply H3.
    + by rewrite (record_view_settled _ _ _ _ _ _ Hr Ho).
    + intros i r' [Hne Hr']%lookup_delete_Some. rewrite lookup_delete_ne by done. by eapply H5.
  - rewrite Hs. cbn. do 2 eexists. split; [reflexivity|]. cbn. split; [|done].
    destruct Hok as [H0 H1 H2 H3 H4 H5]. split; cbn; try done. intros i r [_ Hr]%lookup_delete_Some. by eapply H5.
Qed.

(** *** Whole histories *)

Definition op_ok (o : bridge_op) : Prop := match o with OtherRuns calls => 0 <= calls | _ => True end.

Record run_ok (b : BridgeState Tape) : Prop := {
  ro_log : log_ok b;
  ro_count : bridge_call_count b = zlen (records (log b));
  ro_limit : 0 < mc -> zlen (tape_sent (link b)) <= Z.min (bridge_call_count b) mc;
  ro_sized : Forall (fun f => exists id t args, f = OBridgeCall id t args /\ (0 < mb -> zlen args <= mb)) (tape_sent (link b));
}.

(** The first fatal error stays and nothing is sent after it; records are only
    appended, and what identifies them stays. *)
Definition carries_on (b b' : BridgeState Tape) : Prop :=
  (forall e, bridge_error b = Some e -> bridge_error b' = Some e /\ tape_sent (link b') = tape_sent (link b)) /\
  map identity_of (records (log b)) `prefix_of` map identity_of (records (log b')).

Lemma carries_on_trans b1 b2 b3 : carries_on b1 b2 -> carries_on b2 b3 -> carries_on b1 b3.
Proof.
  intros [E1 P1] [E2 P2]. split; [|by etrans]. intros e [H1 H2]%E1. apply E2 in H1 as [H3 H4]. by rewrite H4.
Qed.

Lemma op_ids_nonneg o : op_ok o -> 0 <= op_ids o.
Proof. destruct o; cbn; [intros _; apply invocations_nonneg|lia|done]. Qed.

Lemma sum_ids_nonneg os : Forall op_ok os -> 0 <= sum_by op_ids os.
Proof. induction 1 as [|o os Ho _ IH]; cbn; [done|]. pose proof (op_ids_nonneg o Ho). lia. Qed.

Lemma bridge_exec_ok b o :
  run_ok b -> op_ok o -> fits b (op_ids o) ->
  exists b', bridge_exec (Some stubs) b o = Some b' /\ run_ok b' /\ carries_on b b' /\
    bridge_call_count b' <= bridge_call_count b + op_ids o /\ call_id b' <= call_id b + op_ids o.
Proof using Hlimits.
  intros [Hl Hc Hm Hs] Ho Hf. destruct o as [g|id now answer|calls]; cbn.
  - destruct (good_callback g b Hf) as [[G1 G2 (rs & G3 & G3') (ms & G4 & G4' & G4'') G5] Hl'].
    eexists. split; [reflexivity|]. cbn in Hl', G1, G2, G3, G3', G4, G4', G5. split; [|split; [split; [exact G5|]|split; apply G1 || apply G2]].
    2: { rewrite G3, map_app. by eexists. }
    split; [by apply Hl'|rewrite G3, length_app; lia| |].
    + intros H0. rewrite G4, length_app. specialize (Hm H0). specialize (G4' H0). lia.
    + rewrite G4. by apply Forall_app.
  - destruct (log_ok_response b id now answer Hl) as (b' & r & -> & Hl' & Hn & Hc' & Hk & He & Hi). cbn.
    eexists. split; [reflexivity|]. apply (f_equal length) in Hn as Hlen. rewrite !length_map in Hlen.
    split; [split; [done|by rewrite Hc', Hlen|by rewrite Hk, Hc'|by rewrite Hk]|].
    split; [|lia]. split; [intros e; by rewrite He, Hk|by rewrite Hn].
  - unfold fits in Hf. cbn in *. eexists. split; [reflexivity|].
    assert (Hw : wrap_add u32_max (call_id b) calls = call_id b + calls).
    { unfold wrap_add. rewrite Z.mod_small; unfold u32_max in *; lia. }
    rewrite Hw. split; [split; try done; apply log_ok_call_id; [lia|done]|]. split; [by split|cbn; lia].
Qed.

Lemma bridge_run_grow os b :
  run_ok b -> Forall op_ok os -> fits b (sum_by op_ids os) ->
  exists b', bridge_run (Some stubs) b os = Some b' /\ run_ok b' /\
    bridge_call_count b' <= bridge_call_count b + sum_by op_ids os /\ call_id b' <= call_id b + sum_by op_ids os /\ carries_on b b'.
Proof using Hlimits.
  intros Hb Hos. revert b Hb. induction Hos as [|o os Ho Hos IH]; intros b Hb Hf; cbn in *;
    [eexists; split; [done|]; split; [done|]; split; [lia|]; split; [lia|by split]|].
  pose proof (op_ids_nonneg o Ho) as Hn. pose proof (sum_ids_nonneg os Hos) as Hns.
  unfold fits in *. destruct (bridge_exec_ok b o Hb Ho) as (b1 & He & Hb1 & Ha & Hc & Hi); [unfold fits; lia|].
  rewrite He. cbn. destruct (IH b1 Hb1) as (b' & Hr & Hb' & Hc' & Hi' & Ha').
  { unfold fits. pose proof (ro_count _ Hb1). pose proof (lk_ids_nonneg _ (ro_log _ Hb1)). lia. }
  exists b'. split; [done|]. split; [done|]. split; [lia|]. split; [lia|]. by eapply carries_on_trans.
Qed.

Lemma run_ok_new first_id v : 0 <= first_id -> run_ok (bridge_new first_id (mk_Tape [] v)).
Proof. intros H. split; cbn; [by apply log_ok_new|done|lia|done]. Qed.
End Limits.

(** *** Reports *)

Definition with_duration (now_ms : f64) (r : BridgeCallRecord) : BridgeCallRecord :=
  mk_BridgeCallRecord (bc_name r) (bc_start_ms r) (duration_until now_ms r) (bc_arg_bytes r) (bc_response_bytes r)
    (bc_call_id r) (bc_outcome r).

(** The report of a log: its records, a call without an answer as long as it has
    lasted. *)
Definition reported (now_ms : f64) (r : BridgeCallRecord) : BridgeCallRecord :=
  match bc_outcome r with Unanswered => with_duration now_ms r | _ => r end.

Lemma stamp_all_spec now idxs rs :
  NoDup idxs -> Forall (fun i => (i < length rs)%nat) idxs ->
  exists rs', stamp_all now rs idxs = Some rs' /\
    forall i, rs' !! i = (fun r => if decide (i ∈ idxs) then with_duration now r else r) <$> rs !! i.
Proof.
  intros Hnd. revert rs. induction Hnd as [|j idxs Hj Hnd IH]; intros rs Hlt; cbn.
  - exists rs. split; [done|]. intros i. by destruct (rs !! i).
  - apply Forall_cons in Hlt as [Hlt Hlts]. destruct (lookup_lt_is_Some_2 _ _ Hlt) as [r Hr].
    unfold stamp. rewrite Hr. cbn.
    destruct (IH (<[j:=with_duration now r]> rs)) as (rs' & Hs & Hi); [by rewrite length_insert|].
    exists rs'. split; [exact Hs|]. intros i. rewrite Hi. destruct (decide (i = j)) as [->|Hne].
    + rewrite list_lookup_insert_eq by done. rewrite Hr. cbn.
      rewrite decide_False by done. by rewrite decide_True by left.
    + rewrite list_lookup_insert_ne by done. destruct (rs !! i); [|done]. cbn. f_equal.
      by apply decide_ext; rewrite elem_of_cons; naive_solver.
Qed.

Lemma report_of_log `{CallOrderOk} b now :
  log_ok b ->
  stamp_all now (records (log b)) (map snd (call_order (in_flight (log b)))) = Some (map (reported now) (records (log b))).
Proof.
  intros Hok. set (idxs := map snd (call_order (in_flight (log b)))).
  assert (Hin : forall i, i ∈ idxs <-> exists r, records (log b) !! i = Some r /\ bc_outcome r = Unanswered).
  { intros i. unfold idxs. rewrite list_elem_of_fmap. setoid_rewrite (call_order_perm (in_flight (log b))). split.
    - intros ([k j] & -> & (r & Hr & _ & Ho)%elem_of_map_to_list%(lk_flight _ Hok)). by exists r.
    - intros (r & Hr & Ho). exists (bc_call_id r, i). split; [done|]. by apply elem_of_map_to_list, (lk_unanswered _ Hok). }
  destruct (stamp_all_spec now idxs (records (log b))) as (rs' & Hs & Hi).
  - unfold idxs. rewrite (call_order_perm (in_flight (log b))). apply NoDup_fmap_2_strong; [|apply NoDup_map_to_list].
    intros [k1 j1] [k2 j2] (r1 & Hr1 & <- & _)%elem_of_map_to_list%(lk_flight _ Hok) (r2 & Hr2 & <- & _)%elem_of_map_to_list%(lk_flight _ Hok) Hj.
    cbn in Hj. subst j2. by simplify_eq.
  - apply Forall_forall. intros i (r & Hr & _)%Hin. by eapply lookup_lt_Some.
  - rewrite Hs. f_equal. apply list_eq. intros i. rewrite Hi, list_lookup_fmap.
    destruct (records (log b) !! i) as [r|] eqn:Hr; [|done]. cbn. f_equal. unfold reported.
    destruct (decide (i ∈ idxs)) as [(r' & Hr' & Ho)%Hin|Hn].
    + rewrite Hr in Hr'. injection Hr' as <-. by rewrite Ho.
    + destruct (bc_outcome r) eqn:Ho; try done. destruct Hn. apply Hin. by exists r.
Qed.

(** ** What the bridge promises *)

Section Promises.
Context (mc mb first_id : Z) (v : list bool) (stubs : gmap string GlobalCallbackData).
Hypothesis Hlimits : forall name d, stubs !! name = Some d -> cb_max_bridge_calls d = mc /\ cb_max_bridge_call_bytes d = mb.
Hypothesis Hfirst : 0 <= first_id.

(** Histories whose ids do not use up the counter's width. *)
Definition history_ok (os : list bridge_op) : Prop := Forall op_ok os /\ first_id + sum_by op_ids os <= u32_max.

Lemma history os : history_ok os ->
  exists b, bridge_run (Some stubs) (bridge_new first_id (mk_Tape [] v)) os = Some b /\ run_ok mc mb b.
Proof using Hlimits Hfirst.
  intros [Hos Hsum]. destruct (bridge_run_grow mc mb stubs Hlimits os (bridge_new first_id (mk_Tape [] v))) as (b & Hr & Hb & _);
    [by apply run_ok_new|done|unfold fits; cbn; lia|]. by exists b.
Qed.

Lemma bridge_run_app {S} `{HostLink S} st (b : BridgeState S) os1 os2 :
  bridge_run st b (os1 ++ os2) = (b1 ← bridge_run st b os1; bridge_run st b1 os2).
Proof. revert b. induction os1 as [|o os1 IH]; intros b; cbn; [done|]. destruct (bridge_exec st b o); cbn; auto. Qed.

Lemma history_split os1 os2 : history_ok (os1 ++ os2) ->
  exists b1 b, bridge_run (Some stubs) (bridge_new first_id (mk_Tape [] v)) os1 = Some b1 /\
    bridge_run (Some stubs) b1 os2 = Some b /\ run_ok mc mb b1 /\ run_ok mc mb b /\ carries_on b1 b.
Proof using Hlimits Hfirst.
  intros [[Ho1 Ho2]%Forall_app Hsum]. rewrite sum_by_app in Hsum.
  pose proof (sum_ids_nonneg _ Ho1). pose proof (sum_ids_nonneg _ Ho2).
  destruct (bridge_run_grow mc mb stubs Hlimits os1 (bridge_new first_id (mk_Tape [] v))) as (b1 & Hr1 & Hb1 & Hc1 & Hi1 & _);
    [by apply run_ok_new|done|unfold fits; cbn; lia|].
  destruct (bridge_run_grow mc mb stubs Hlimits os2 b1) as (b & Hr & Hb & _ & _ & Hc); [done|done| |by exists b1, b].
  unfold fits. cbn in Hc1, Hi1. pose proof (ro_count _ _ _ Hb1). pose proof (lk_ids_nonneg _ (ro_log _ _ _ Hb1)). lia.
Qed.
End Promises.

(** All of a run's stubs carry the run's limits. *)
Definition limits_are (mc mb : Z) (stubs : gmap string GlobalCallbackData) : Prop :=
  forall name d, stubs !! name = Some d -> cb_max_bridge_calls d = mc /\ cb_max_bridge_call_bytes d = mb.

Lemma install_limits run_id mb mc defined specs bound :
  limits_are mc mb bound -> limits_are mc mb (install_bridge_globals run_id mb mc defined specs bound).1.
Proof.
  revert bound. induction specs as [|spec specs IH]; intros bound Hb; cbn; [done|].
  destruct (check_not_reserved _); [|done]. cbn.
  assert (limits_are mc mb (<[sp_stub_name spec:=binding_of run_id mb mc spec]> bound)).
  { intros name d [[_ <-]|[_ Hd]]%lookup_insert_Some; [done|by eapply Hb]. }
  destruct (defined _); [by apply IH|done].
Qed.

(** What a call over a limit leaves: the limit is the run's error unless an
    earlier fatal error is, execution is terminated for good, nothing was sent,
    and the attempt is on record as blocked. *)
Definition ended_by (limit : RunError) (name : string) (b b' : BridgeState Tape) : Prop :=
  bridge_error b' = Some (default limit (bridge_error b)) /\ terminating b' = true /\ bare_terminate (why b') = true /\
  link b' = link b /\
  exists r, records (log b') = records (log b) ++ [r] /\ bc_outcome r = Blocked /\ bc_name r = name.

(** The state in which the arguments of a call within the count are sized: the
    attempt is counted, and the guest code met on the way has run. *)
Definition arguments_read (stubs : gmap string GlobalCallbackData) (d : GlobalCallbackData) (during_handle during_blob : list GuestStep)
    (b : BridgeState Tape) : BridgeState Tape :=
  let b := with_count b (bridge_call_count b + 1) in
  guest_steps (Some stubs) during_blob
    (match cb_import_handles d with Some _ => guest_steps (Some stubs) during_handle b | None => b end).

Lemma over_count stubs site h bl (b : BridgeState Tape) d :
  stubs !! cs_slot site = Some d -> 0 < cb_max_bridge_calls d <= bridge_call_count b ->
  ended_by BridgeCallLimitExceeded (cb_record_name d) b (bridge_global_callback (Some stubs) (Invoke site h bl) b).1.
Proof.
  intros Hd Hlim. rewrite invoke_eq. cbn. rewrite Hd.
  rewrite (proj2 (Z.ltb_lt _ _) (proj1 Hlim)), (proj2 (Z.leb_le _ _) (proj2 Hlim)). cbn.
  split_and!; try done. eexists. by split_and!.
Qed.

Lemma over_bytes stubs site h bl (b : BridgeState Tape) d target name args :
  stubs !! cs_slot site = Some d -> ~ 0 < cb_max_bridge_calls d <= bridge_call_count b -> 0 <= bridge_call_count b < u32_max ->
  existsb id (cs_functions site) = false -> call_target d site = Some (target, name) -> cs_staged site = true ->
  cs_blob site = Ok args -> 0 < cb_max_bridge_call_bytes d < zlen args ->
  ended_by BridgeCallPayloadTooLarge (cb_record_name d) (arguments_read stubs d h bl b)
    (bridge_global_callback (Some stubs) (Invoke site h bl) b).1.
Proof.
  intros Hd Hcount Hc Hf Ht Hst Hb Hlim. rewrite invoke_eq. cbn -[send_call]. rewrite Hd.
  assert (Hno : (0 <? cb_max_bridge_calls d) && (cb_max_bridge_calls d <=? bridge_call_count b) = false).
  { apply andb_false_iff. destruct (Z.ltb_spec 0 (cb_max_bridge_calls d)); [right; apply Z.leb_gt; lia|by left]. }
  rewrite Hno, Hf, Ht, Hst, Hb. unfold arguments_read, wrap_add. rewrite Z.mod_small by (unfold u32_max in *; lia). cbn -[send_call].
  set (b2 := guest_steps _ bl _). clearbody b2. unfold send_call. destruct (u32_max <? zlen args).
  - split_and!; try done. eexists. by split_and!.
  - rewrite (proj2 (Z.ltb_lt _ _) (proj1 Hlim)), (proj2 (Z.ltb_lt _ _) (proj2 Hlim)). cbn.
    split_and!; try done. eexists. by split_and!.
Qed.

(** C11. No guest code gets past the limits of its bridge, whatever it nests,
    catches or retries: of the stubs a run installs, at most [maxBridgeCalls]
    calls reach the host, none larger than [maxBridgeCallBytes]; the first fatal
    error stays, and nothing is sent after it; every attempt leaves one record,
    and the records of calls that were sent name the frames sent, in order.  After
    any history, an attempt past the call limit leaves that limit as the run's
    fatal error (unless an earlier one stands), terminates the guest's execution
    and is recorded as blocked, and so does an attempt within the count whose
    arguments are larger than the byte limit, from the state in which its arguments
    have been read. *)
Theorem bridge_limits_hold run_id mc mb first_id v defined specs os1 os2 :
  let stubs := (install_bridge_globals run_id mb mc defined specs ∅).1 in
  0 <= first_id -> history_ok first_id (os1 ++ os2) ->
  exists b1 b, bridge_run (Some stubs) (bridge_new first_id (mk_Tape [] v)) os1 = Some b1 /\
    bridge_run (Some stubs) b1 os2 = Some b /\
    (0 < mc -> zlen (tape_sent (link b)) <= mc) /\
    (0 < mb -> forall id t args, OBridgeCall id t args ∈ tape_sent (link b) -> zlen args <= mb) /\
    (forall e, bridge_error b1 = Some e -> bridge_error b = Some e /\ tape_sent (link b) = tape_sent (link b1)) /\
    bridge_call_count b = zlen (records (log b)) /\
    frame_view (tape_sent (link b)) = record_view (records (log b)) /\
    (forall site h bl d, stubs !! cs_slot site = Some d -> 0 < mc <= zlen (records (log b)) ->
       ended_by BridgeCallLimitExceeded (cb_record_name d) b (bridge_global_callback (Some stubs) (Invoke site h bl) b).1) /\
    (forall site h bl d target name args, stubs !! cs_slot site = Some d ->
       ~ 0 < mc <= zlen (records (log b)) -> zlen (records (log b)) < u32_max ->
       existsb id (cs_functions site) = false -> call_target d site = Some (target, name) -> cs_staged site = true ->
       cs_blob site = Ok args -> 0 < mb < zlen args ->
       ended_by BridgeCallPayloadTooLarge (cb_record_name d) (arguments_read stubs d h bl b)
         (bridge_global_callback (Some stubs) (Invoke site h bl) b).1).
Proof.
  intros stubs Hf Hh. assert (Hl : limits_are mc mb stubs) by (by apply install_limits).
  destruct (history_split mc mb first_id v stubs Hl Hf os1 os2 Hh) as (b1 & b & H1 & H2 & _ & [Hlog Hc Hm Hs] & [He _]).
  exists b1, b. split; [done|]. split; [done|]. split; [intros; specialize (Hm ltac:(done)); lia|]. split.
  { intros Hmb id t args Hin. rewrite Forall_forall in Hs. destruct (Hs _ Hin) as (? & ? & ? & [= <- <- <-] & Ha). auto. }
  split; [done|]. split; [done|]. split; [by apply lk_views|]. rewrite <- Hc. split.
  - intros site h bl d Hd Hlim. destruct (Hl _ _ Hd) as [Hmc _]. apply over_count; [done|by rewrite Hmc].
  - intros site h bl d target name args Hd Hn Hu Hfn Ht Hst Hb Hlim. destruct (Hl _ _ Hd) as [Hmc Hmb].
    eapply over_bytes; try done; rewrite ?Hmc, ?Hmb; [done|lia|done].
Qed.

(** An answer from the host settles the record and the promise of the call it
    names, and nothing else: after any history, an id in flight belongs to one
    unanswered record; its answer changes that record alone, to answered or
    failed, hands out the resolver that waited for it, and takes the id out of
    flight; an answer for any other id (unknown, stale, repeated) changes nothing
    and resolves nothing. *)
Theorem answers_settle_once mc mb first_id v stubs os b id now answer :
  limits_are mc mb stubs -> 0 <= first_id -> history_ok first_id os ->
  bridge_run (Some stubs) (bridge_new first_id (mk_Tape [] v)) os = Some b ->
  exists b' r, bridge_response b id now answer = Some (b', r) /\ r = resolvers b !! id /\
    match in_flight (log b) !! id with
    | None => log b' = log b /\ r = None
    | Some idx => exists rec rec', records (log b) !! idx = Some rec /\ bc_call_id rec = id /\
        records (log b') = <[idx := rec']> (records (log b)) /\ identity_of rec' = identity_of rec /\
        bc_outcome rec' = (match answer with inl _ => OutcomeOk | inr _ => OutcomeError end) /\
        in_flight (log b') = delete id (in_flight (log b)) /\
        (exists b'', bridge_response b' id now answer = Some (b'', None) /\ log b'' = log b')
    end.
Proof.
  intros Hl Hf Hh Hr. destruct (history mc mb first_id v stubs Hl Hf os Hh) as (b0 & Hr0 & Hb).
  rewrite Hr in Hr0. injection Hr0 as <-. pose proof (ro_log _ _ _ Hb) as Hok. unfold bridge_response.
  pose proof (settle_ok b id now (match answer with inl _ => true | inr _ => false end)
    (match answer with inl (Some blob) => as_u32 (zlen blob) | _ => 0 end) Hok) as Hs.
  destruct (in_flight (log b) !! id) as [idx|] eqn:Hi.
  - destruct Hs as (r & Hrec & Hc & _ & ->). cbn. do 2 eexists. split; [reflexivity|]. split; [done|]. do 2 eexists.
    split; [exact Hrec|]. split; [done|]. split; [reflexivity|]. split; [done|]. split; [by destruct answer|]. split; [done|].
    unfold settle. cbn. rewrite !lookup_delete_eq. cbn. eexists. split; [reflexivity|done].
  - rewrite Hs. cbn. do 2 eexists. split; [reflexivity|]. split; [done|]. split; [done|].
    destruct (resolvers b !! id) as [r|] eqn:Hres; [|done]. apply (lk_resolvers _ Hok) in Hres as [? Hres]. congruence.
Qed.

(** The reports of a run's two phases share out its bridge calls: the early
    result's snapshot and the final one each hold every attempt so far in order,
    a call without an answer as long as it has lasted, independently of the order
    in which the map of calls in flight is walked; and what the final one has
    beyond the length of the early one is exactly what came after it. *)
Theorem reports_share_out `{CallOrderOk} mc mb first_id v stubs os1 os2 early late :
  limits_are mc mb stubs -> 0 <= first_id -> history_ok first_id (os1 ++ os2) ->
  exists b1 b r1 r2, bridge_run (Some stubs) (bridge_new first_id (mk_Tape [] v)) os1 = Some b1 /\
    bridge_run (Some stubs) b1 os2 = Some b /\
    snapshot b1.(log) early = Some r1 /\ snapshot (log b) late = Some r2 /\
    finalize (log b) late = Some (BridgeCallLog_default, r2) /\
    r1 = map (reported early) (records (log b1)) /\ r2 = map (reported late) (records (log b)) /\
    map identity_of r2 = map identity_of r1 ++ map identity_of (drop (length r1) r2).
Proof.
  intros Hl Hf Hh. destruct (history_split mc mb first_id v stubs Hl Hf os1 os2 Hh) as (b1 & b & H1 & H2 & Hb1 & Hb & [_ Hp]).
  pose proof (report_of_log b1 early (ro_log _ _ _ Hb1)) as R1. pose proof (report_of_log b late (ro_log _ _ _ Hb)) as R2.
  do 4 eexists. split; [done|]. split; [done|]. unfold snapshot, finalize. rewrite R1, R2.
  split; [reflexivity|]. split; [reflexivity|]. split; [reflexivity|]. split; [done|]. split; [done|].
  assert (Hid : forall now rs, map identity_of (map (reported now) rs) = map identity_of rs).
  { intros now rs. rewrite map_map. apply map_ext. intros r. unfold reported. by destruct (bc_outcome r). }
  rewrite <- skipn_map, !Hid, length_map. destruct Hp as [k Hk]. rewrite Hk, <- (length_map identity_of), drop_app_len. done.
Qed.

(** ** Witnesses: a run that binds [fetch], may call it twice, and calls it from a
    getter of its own argument *)

Definition demo_specs : list BridgeStubSpec := bridge_stubs [Bridge "fetch" true] [].
Definition demo_stubs : gmap string GlobalCallbackData := (install_bridge_globals 7 100 2 (fun _ => Ok tt) demo_specs ∅).1.
Definition demo_site (r : Z) (args : list byte) : CallSite :=
  mk_CallSite "fetch" f64_zero [false] None true (Ok args) (Some r).
Definition demo_calls : list bridge_op :=
  [Guest (Invoke (demo_site 1 [x01]) [] [Invoke (demo_site 2 [x02; x03]) [] []])].
Definition demo_state : BridgeState Tape :=
  default (bridge_new 5 (mk_Tape [] [])) (bridge_run (Some demo_stubs) (bridge_new 5 (mk_Tape [] [])) demo_calls).

Lemma demo_limits : limits_are 2 100 demo_stubs.
Proof. apply install_limits. intros name d Hd. by rewrite lookup_empty in Hd. Qed.

Lemma demo_history os : Forall op_ok os -> sum_by op_ids os <= 10 -> history_ok 5 os.
Proof. intros H1 H2. split; [done|]. unfold u32_max. lia. Qed.

(** The third call is over the count, and a first call of 101 bytes over the size. *)
Lemma bridge_limits_hold_witness :
  (exists b1 b, bridge_run (Some demo_stubs) (bridge_new 5 (mk_Tape [] [])) demo_calls = Some b1 /\
    bridge_run (Some demo_stubs) b1 [] = Some b /\
    zlen (tape_sent (link b)) <= 2 /\ zlen (tape_sent (link demo_state)) = 2 /\
    bridge_error (bridge_global_callback (Some demo_stubs) (Invoke (demo_site 3 []) [] []) demo_state).1 = Some BridgeCallLimitExceeded) /\
  bridge_error (bridge_global_callback (Some demo_stubs) (Invoke (demo_site 3 (repeat x01 101)) [] []) (bridge_new 5 (mk_Tape [] []))).1 =
    Some BridgeCallPayloadTooLarge.
Proof.
  split.
  - destruct (bridge_limits_hold 7 2 100 5 [] (fun _ => Ok tt) demo_specs demo_calls [])
      as (b1 & b & H1 & H2 & H3 & _ & _ & _ & _ & Hcount & _); [lia|apply demo_history; [by repeat constructor|vm_compute; discriminate]|].
    exists b1, b. split; [exact H1|]. split; [exact H2|]. split; [apply H3; lia|]. split; [vm_compute; reflexivity|].
    assert (b = demo_state) as -> by (cbn in H2; injection H2 as <-; revert H1; vm_compute; congruence).
    destruct (Hcount (demo_site 3 []) [] [] (mk_GlobalCallbackData 7 "fetch" "fetch" None 100 2)) as [He _];
      [vm_compute; reflexivity|vm_compute; split; [reflexivity|discriminate]|exact He].
  - destruct (bridge_limits_hold 7 2 100 5 [] (fun _ => Ok tt) demo_specs [] [])
      as (b1 & b & H1 & H2 & _ & _ & _ & _ & _ & _ & Hbytes); [lia|apply demo_history; [constructor|vm_compute; discriminate]|].
    cbn in H1, H2. injection H1 as <-. injection H2 as <-.
    destruct (Hbytes (demo_site 3 (repeat x01 101)) [] [] (mk_GlobalCallbackData 7 "fetch" "fetch" None 100 2) (TargetGlobal "fetch") "fetch" (repeat x01 101))
      as [He _]; [vm_compute; reflexivity|vm_compute; intros [_ H]; by destruct H|vm_compute; reflexivity|done|done|done|done|vm_compute; done|exact He].
Defined.

Lemma answers_settle_once_witness :
  exists b' r, bridge_response demo_state 6 f64_zero (inl None) = Some (b', r) /\ r = resolvers demo_state !! 6 /\
    resolvers demo_state !! 6 = Some 1.
Proof.
  destruct (answers_settle_once 2 100 5 [] demo_stubs demo_calls demo_state 6 f64_zero (inl None) demo_limits) as (b' & r & H1 & H2 & _);
    [lia|apply demo_history; [by repeat constructor|vm_compute; discriminate]|vm_compute; reflexivity|].
  exists b', r. split; [exact H1|]. split; [exact H2|vm_compute; reflexivity].
Defined.

#[local] Instance demo_order : CallOrder := map_to_list.
#[local] Instance demo_order_ok : CallOrderOk.
Proof. intros m. reflexivity. Qed.

Lemma reports_share_out_witness :
  exists b1 b r1 r2, bridge_run (Some demo_stubs) (bridge_new 5 (mk_Tape [] [])) demo_calls = Some b1 /\
    bridge_run (Some demo_stubs) b1 [Response 6 f64_zero (inl None)] = Some b /\
    snapshot (log b1) f64_zero = Some r1 /\ snapshot (log b) f64_zero = Some r2 /\
    map identity_of r2 = map identity_of r1 ++ map identity_of (drop (length r1) r2).
Proof.
  destruct (reports_share_out 2 100 5 [] demo_stubs demo_calls [Response 6 f64_zero (inl None)] f64_zero f64_zero demo_limits)
    as (b1 & b & r1 & r2 & H1 & H2 & H3 & H4 & _ & _ & _ & H5);
    [lia|apply demo_history; [by repeat constructor|vm_compute; discriminate]|].
  exists b1, b, r1, r2. auto 6.
Defined.
