(* ===== verification/Globals.v ===== *)
(** * The sandbox's global object ([crates/core/src/v8/globals.rs], the installation
    of [bridge.rs] and [timers.rs], [crates/core/src/url.rs])

    The global object is a map of properties, with the setters guest code may have
    planted in it.  Stubs and placeholders are defined on it again at every call on a
    used instance; host values are set on it before any guest code runs.  Functions
    and values are named by numbers; a script is an argument that may do anything to
    the object. *)

From S2P Require Import Prelude Bytes Text Types Errors RunState Bridge.

(** ** The object *)

Inductive GProp :=
  | DataProp (value : Z) (writable enumerable configurable : bool)
  | AccessorProp (setter : option Z) (enumerable configurable : bool).

Definition configurable (p : GProp) : bool := match p with DataProp _ _ _ c => c | AccessorProp _ _ c => c end.

(** [ran]: the setters and scripts that ran, in order. *)
Inductive guest := Setter (f : Z) | Script (filename : string).
Record Glob := mk_Glob { props : gmap string GProp; extensible : bool; ran : list guest }.
Definition with_props (s : Glob) (m : gmap string GProp) : Glob := mk_Glob m (extensible s) (ran s).
Definition ran_guest (s : Glob) (g : guest) : Glob := mk_Glob (props s) (extensible s) (ran s ++ [g]).

Section Globals.
(** [run_setter]: what a setter does, and whether it threw; [inherited]: the setter
    found on the prototype chain; [script]: compiling and running a source. *)
Context (run_setter : Z -> Glob -> Glob * bool) (inherited : string -> option Z) (script : string -> string -> Glob -> Glob * result RunError Z).

(** [Object::set]: the ordinary [[Set]]; [None]: an exception. *)
Definition object_set (s : Glob) (name : string) (value : Z) : Glob * option bool :=
  let call f := let '(s, threw) := run_setter f (ran_guest s (Setter f)) in (s, if (threw : bool) then None else Some true) in
  match props s !! name with
  | Some (DataProp _ true e c) => (with_props s (<[name := DataProp value true e c]> (props s)), Some true)
  | Some (DataProp _ false _ _) => (s, Some true)
  | Some (AccessorProp (Some f) _ _) => call f
  | Some (AccessorProp None _ _) => (s, Some true)
  | None =>
    match inherited name with
    | Some f => call f
    | None => (if extensible s then with_props s (<[name := DataProp value true true true]> (props s)) else s, Some true)
    end
  end.

(** [Object::define_own_property] with attributes that leave the property writable
    and configurable. *)
Definition define_own_property (s : Glob) (name : string) (value : Z) (enumerable : bool) : Glob * bool :=
  let defined := with_props s (<[name := DataProp value true enumerable true]> (props s)) in
  match props s !! name with
  | Some p => if configurable p then (defined, true) else (s, false)
  | None => if extensible s then (defined, true) else (s, false)
  end.

(** ** Installing *)

Definition INTERNAL_GLOBAL_PREFIX : string := "__iso4_".
Definition is_internal (name : string) : bool := String.prefix INTERNAL_GLOBAL_PREFIX name.

Definition define_global (s : Glob) (name : string) (value : Z) (enumerable : bool) : Glob * result RunError unit :=
  let dont_enum := is_internal name || negb enumerable in
  let '(s, ok) := define_own_property s name value (negb dont_enum) in
  (s, if (ok : bool) then Ok tt else Err (Internal ("failed to define global '" +:+ name +:+ "' (made non-configurable by sandbox code?)"))).

Definition set_global (s : Glob) (name : string) (value : Z) : Glob * result RunError unit :=
  let '(s, r) := object_set s name value in
  (s, match r with Some _ => Ok tt | None => Err (Internal ("failed to install global '" +:+ name +:+ "'")) end).

Definition install_public_global (s : Glob) (name : string) (value : Z) (enumerable : bool) : Glob * result RunError unit :=
  if enumerable then set_global s name value else define_global s name value false.

Definition eval_script (s : Glob) (source filename : string) : Glob * result RunError Z := script source filename (ran_guest s (Script filename)).

Definition eval_global_expression (s : Glob) (expr name : string) : Glob * result RunError Z :=
  eval_script s ("(" +:+ expr +:+ ")") ("<iso4:global:" +:+ name +:+ ">").

Definition SHIM_FACTORY_SRC : string :=
  "(shim, handlerName) => (async (...args) => await shim(await globalThis[handlerName](...args)))".

(** [as_function]: whether a value is a function. *)
Context (as_function : Z -> bool).

Definition build_shim_factory (s : Glob) : Glob * result RunError Z :=
  let '(s, r) := eval_script s SHIM_FACTORY_SRC "<iso4:shim-factory>" in
  (s, v ← r; if as_function v then Ok v else Err (Internal "shim factory did not evaluate to a function")).

(** [wrap]: the factory's call on a shim and a handler's name; [data]: the value of
    a blob. *)
Context (wrap : Z -> Z -> string -> option Z) (data : list byte -> result (option CodecError) Z).

Definition install_value_global (s : Glob) (shim_factory : option Z) (def : HostGlobalDef) : Glob * option Z * result RunError unit :=
  match def with
  | Bridge _ _ => (s, shim_factory, Ok tt)
  | StringExpr name expr enumerable =>
    match check_not_reserved name with
    | Err e => (s, shim_factory, Err e)
    | Ok _ =>
      match eval_global_expression s expr name with
      | (s, Err e) => (s, shim_factory, Err e)
      | (s, Ok value) => let '(s, r) := install_public_global s name value enumerable in (s, shim_factory, r)
      end
    end
  | Data name blob enumerable =>
    match check_not_reserved name with
    | Err e => (s, shim_factory, Err e)
    | Ok _ =>
      match data blob with
      | Err codec =>
        (s, shim_factory, Err (match codec with
          | Some e => codec_error_to_run_error e
          | None => Internal ("failed to materialise data global '" +:+ name +:+ "'")
          end))
      | Ok value => let '(s, r) := install_public_global s name value enumerable in (s, shim_factory, r)
      end
    end
  | Shim name shim handler_name enumerable =>
    match check_not_reserved name with
    | Err e => (s, shim_factory, Err e)
    | Ok _ =>
      match match shim_factory with Some f => (s, Ok f) | None => build_shim_factory s end with
      | (s, Err e) => (s, shim_factory, Err e)
      | (s, Ok factory) =>
        match eval_global_expression s shim name with
        | (s, Err e) => (s, Some factory, Err e)
        | (s, Ok shim_fn) =>
          match wrap factory shim_fn handler_name with
          | None => (s, Some factory, Err (Internal ("failed to build shim wrapper for '" +:+ name +:+ "'")))
          | Some wrapper => let '(s, r) := install_public_global s name wrapper enumerable in (s, Some factory, r)
          end
        end
      end
    end
  end.

Fixpoint install_from (s : Glob) (shim_factory : option Z) (globals : list HostGlobalDef) : Glob * result RunError unit :=
  match globals with
  | [] => (s, Ok tt)
  | def :: globals =>
    match install_value_global s shim_factory def with
    | (s, _, Err e) => (s, Err e)
    | (s, shim_factory, Ok _) => install_from s shim_factory globals
    end
  end.
Definition install_value_globals (s : Glob) (globals : list HostGlobalDef) : Glob * result RunError unit := install_from s None globals.

(** ** What is defined again at every call *)

(** The loop of the three installers: make the function of an item, define it. *)
Fixpoint define_each {A} (make : A -> result RunError (string * Z * bool)) (s : Glob) (items : list A) : Glob * result RunError unit :=
  match items with
  | [] => (s, Ok tt)
  | item :: items =>
    match make item with
    | Err e => (s, Err e)
    | Ok (name, value, enumerable) =>
      match define_global s name value enumerable with
      | (s, Err e) => (s, Err e)
      | (s, Ok _) => define_each make s items
      end
    end
  end.

Definition built {A} (v : option A) (message : string) : result RunError A := match v with Some v => Ok v | None => Err (Internal message) end.

(** [install_bridge_globals], next to the run's bindings of [Bridge.v]; [function]:
    the native V8 builds for a stub. *)
Definition make_stub (function : string -> option Z) (spec : BridgeStubSpec) : result RunError (string * Z * bool) :=
  let name := sp_stub_name spec in
  check_not_reserved name;;
  f ← built (function name) ("failed to build bridge stub for '" +:+ name +:+ "'");
  Ok (name, f, sp_enumerable spec).
Definition define_stubs (function : string -> option Z) : Glob -> list BridgeStubSpec -> Glob * result RunError unit := define_each (make_stub function).

Definition PREFIX_BRIDGE_PLACEHOLDER_FACTORY_SRC : string :=
"(name, kind) => (...args) => {
  const what = kind === 0 ? `bridge global '${name}'` : 'a host import function'
  const e = new Error(`${what} cannot be called while a prefix evaluates: no host session exists at that stage. Do the call in run() code instead.`)
  e.__iso4_prefix_bridge_call = true
  throw e
}".

(** [placeholder]: the factory's call on a name and a kind. *)
Definition make_placeholder (placeholder : string -> bool -> option Z) (target : string * string * bool * bool) : result RunError (string * Z * bool) :=
  let '(install_name, display_name, dispatcher, enumerable) := target in
  p ← built (placeholder display_name dispatcher) ("failed to build bridge placeholder for '" +:+ display_name +:+ "'");
  Ok (install_name, p, enumerable).

Definition install_prefix_bridge_placeholders (placeholder : string -> bool -> option Z) (s : Glob) (globals : list HostGlobalDef) (imports : list ImportBinding) :
    Glob * result RunError unit :=
  match prefix_placeholders globals imports with
  | Err e => (s, Err e)
  | Ok [] => (s, Ok tt)
  | Ok targets =>
    match eval_script s PREFIX_BRIDGE_PLACEHOLDER_FACTORY_SRC "<iso4:prefix-bridge-placeholder>" with
    | (s, Err e) => (s, Err e)
    | (s, Ok factory) =>
      if as_function factory then define_each (make_placeholder placeholder) s targets
      else (s, Err (Internal "placeholder factory did not evaluate to a function"))
    end
  end.

(** [install_timers]; the natives, if V8 builds them. *)
Definition make_timer (native : string -> option Z) (name : string) : result RunError (string * Z * bool) :=
  f ← built (native name) ("failed to create " +:+ name); Ok (name, f, false).
Definition install_timers (native : string -> option Z) (s : Glob) : Glob * result RunError unit :=
  define_each (make_timer native) s ["setTimeout"; "clearTimeout"]%string.
End Globals.

(** ** [waitUntil] *)

(** The run's set is armed in run code only.  [as_promise]: the argument if it is a
    promise; [resolved]: a promise resolved with it, if V8 makes one. *)
Definition setup_only : string :=
  "[iso4] waitUntil is only available to run code — setup evaluated at prepare() time must finish its work within the warm-up budget".

Definition wait_until_callback (current : Z) (rider : option Z) (t : RunTable (option (list Z))) (as_promise resolved : option Z) :
    RunTable (option (list Z)) * result string unit :=
  match attributed_token_and_state current rider t with
  | (_, None) | (_, Some None) => (t, Err setup_only)
  | (token, Some (Some registered)) =>
    match match as_promise with Some p => Some p | None => resolved end with
    | None => (t, Err "[iso4] waitUntil could not register the value"%string)
    | Some promise => (mk_RunTable (<[token := Some (registered ++ [promise])]> (runs t)) (setup_logs t), Ok tt)
    end
  end.

(** ** URLs *)

(** The parser: what the callbacks use of it. *)
Class AdaUrl (U : Type) := {
  parse : string -> option string -> option U;
  set_href : string -> U -> option U;
  set_protocol : string -> U -> U;
  set_username : string -> U -> U;
  set_password : string -> U -> U;
  set_host : string -> U -> U;
  set_hostname : string -> U -> U;
  set_port : option string -> U -> U;
  set_pathname : string -> U -> U;
  set_search : option string -> U -> U;
  set_hash : option string -> U -> U;
  href : U -> string; protocol : U -> string; username : U -> string; password : U -> string; host : U -> string; hostname : U -> string;
  port : U -> string; pathname : U -> string; search : U -> string; hash : U -> string; origin : U -> string;
}.

Section Url.
Context {U : Type} `{AdaUrl U}.

Definition components (url : U) : list string :=
  [href url; protocol url; username url; password url; host url; hostname url; port url; pathname url; search url; hash url; origin url].

(** An argument as text: [None] if its conversion throws.  [base]: the second
    argument, [None] if it is undefined or null. *)
Definition url_parse_callback (input : option string) (base : option (option string)) : option (list string) :=
  input ← input;
  base ← match base with None => Some None | Some None => None | Some (Some b) => Some (Some b) end;
  url ← parse input base;
  Some (components url).

Definition non_empty (value : string) : option string := if String.eqb value EmptyString then None else Some value.

Definition url_set (which : Z) (value : string) (url : U) : option U :=
  if which =? 0 then set_href value url
  else if which =? 1 then Some (set_protocol value url)
  else if which =? 2 then Some (set_username value url)
  else if which =? 3 then Some (set_password value url)
  else if which =? 4 then Some (set_host value url)
  else if which =? 5 then Some (set_hostname value url)
  else if which =? 6 then Some (set_port (non_empty value) url)
  else if which =? 7 then Some (set_pathname value url)
  else if which =? 8 then Some (set_search (non_empty value) url)
  else if which =? 9 then Some (set_hash (non_empty value) url)
  else None.

Definition url_set_callback (href_arg : option string) (which : option Z) (value : option string) : option (list string) :=
  href_arg ← href_arg;
  which ← which;
  value ← value;
  url ← parse href_arg None;
  url ← url_set which value url;
  Some (components url).
End Url.

(** ** Defining never hands control to the guest *)

(** Whether a property can be defined, whatever it is now. *)
Definition definable (s : Glob) (name : string) : Prop :=
  match props s !! name with Some p => configurable p = true | None => extensible s = true end.

Definition shown (name : string) (enumerable : bool) : bool := enumerable && negb (is_internal name).

Lemma define_global_spec s name value e :
  let '(s', r) := define_global s name value e in
  ran s' = ran s /\ extensible s' = extensible s /\
  match r with
  | Ok _ => definable s name /\ props s' = <[name := DataProp value true (shown name e) true]> (props s)
  | Err _ => ~ definable s name /\ props s' = props s
  end.
Proof.
  unfold define_global, define_own_property, definable, shown. rewrite negb_orb, negb_involutive, andb_comm.
  destruct (props s !! name) as [p|]; [destruct (configurable p)|destruct (extensible s) eqn:Ex]; cbn; by rewrite ?Ex.
Qed.

Lemma definable_insert s name n p : configurable p = true ->
  definable (with_props s (<[n := p]> (props s))) name <-> name = n \/ definable s name.
Proof.
  intros Hp. unfold definable. cbn. destruct (decide (name = n)) as [->|Hne]; [rewrite lookup_insert_eq; intuition|].
  rewrite lookup_insert_ne by done. intuition.
Qed.

(** What a list of items leaves: the last one of each name. *)
Definition item_for {A} (make : A -> result RunError (string * Z * bool)) (items : list A) (name : string) : option (Z * bool) :=
  last (omap (fun a => match make a with Ok (n, v, e) => if decide (n = name) then Some (v, e) else None | Err _ => None end) items).
Definition can_make {A} (make : A -> result RunError (string * Z * bool)) (s : Glob) (a : A) : Prop :=
  match make a with Ok (name, _, _) => definable s name | Err _ => False end.

Lemma item_for_cons {A} (make : A -> result RunError (string * Z * bool)) a items n v e name : make a = Ok (n, v, e) ->
  item_for make (a :: items) name = match item_for make items name with Some x => Some x | None => if decide (n = name) then Some (v, e) else None end.
Proof.
  intros Ha. unfold item_for. cbn [omap list_omap]. rewrite Ha. case_decide; [by rewrite last_cons|]. by destruct (last _).
Qed.

Lemma define_each_spec {A} (make : A -> result RunError (string * Z * bool)) items s :
  let '(s', r) := define_each make s items in
  ran s' = ran s /\ extensible s' = extensible s /\ (is_ok r = true <-> Forall (can_make make s) items) /\
  (forall name, props s' !! name = props s !! name \/
     exists a v e, a ∈ items /\ make a = Ok (name, v, e) /\ props s' !! name = Some (DataProp v true (shown name e) true)) /\
  (is_ok r = true -> forall name, props s' !! name =
     match item_for make items name with Some (v, e) => Some (DataProp v true (shown name e) true) | None => props s !! name end).
Proof.
  revert s. induction items as [|a items IH]; intros s; cbn [define_each].
  - split_and!; [done..|by split; [constructor|]|by left|done].
  - destruct (make a) as [[[n v] e]|err] eqn:Ea.
    2: { split_and!; [done..|split; [done|]|by left|done]. intros [Hc _]%Forall_cons. unfold can_make in Hc. by rewrite Ea in Hc. }
    pose proof (define_global_spec s n v e) as Hd. destruct (define_global s n v e) as [s1 [[]|err]].
    2: { destruct Hd as (? & ? & Hn & Hp). split_and!; [done..|split; [done|]|intros name; left; by rewrite Hp|done].
      intros [Hc _]%Forall_cons. unfold can_make in Hc. by rewrite Ea in Hc. }
    destruct Hd as (Hr & Hx & Hn & Hp). specialize (IH s1). destruct (define_each make s1 items) as [s2 r]. destruct IH as (Hr2 & Hx2 & Hok & Hch & Hall).
    assert (Hd1 : forall name, definable s1 name <-> definable s name).
    { intros name. unfold definable in *. rewrite Hp, Hx. destruct (decide (name = n)) as [->|Hne]; [by rewrite lookup_insert_eq|by rewrite lookup_insert_ne]. }
    split_and!; [congruence..| | |].
    + rewrite Hok, Forall_cons. assert (Hc : forall b, can_make make s1 b <-> can_make make s b) by (intros b; unfold can_make; destruct (make b) as [[[? ?] ?]|]; [apply Hd1|done]).
      split; [intros H; split; [by unfold can_make; rewrite Ea|]|intros [_ H]]; (eapply Forall_impl; [exact H|]); intros b; apply Hc.
    + intros name. destruct (Hch name) as [->|(b & v' & e' & Hb & Hm & Hl)]; [|right; exists b, v', e'; by split; [right|]].
      rewrite Hp. destruct (decide (name = n)) as [->|Hne]; [|left; by rewrite lookup_insert_ne].
      right. exists a, v, e. rewrite lookup_insert_eq. by split; [left|].
    + intros Hokr name. rewrite (Hall Hokr name), (item_for_cons make a items n v e name Ea), Hp.
      destruct (item_for make items name) as [[v' e']|]; [done|]. case_decide as Hne; [subst; by rewrite lookup_insert_eq|by rewrite lookup_insert_ne].
Qed.

(** When all is defined, every item's name holds what an item of that name makes. *)
Lemma define_each_all {A} (make : A -> result RunError (string * Z * bool)) items s :
  let '(s', r) := define_each make s items in
  is_ok r = true -> forall a, a ∈ items -> exists name a' v e, (exists v0 e0, make a = Ok (name, v0, e0)) /\
    a' ∈ items /\ make a' = Ok (name, v, e) /\ props s' !! name = Some (DataProp v true (shown name e) true).
Proof.
  pose proof (define_each_spec make items s) as Hd. destruct (define_each make s items) as [s' r].
  destruct Hd as (_ & _ & Hok & _ & Hall). intros Hr a Ha. specialize (Hall Hr). apply Hok in Hr. rewrite Forall_forall in Hr.
  specialize (Hr a Ha). unfold can_make in Hr. destruct (make a) as [[[name v0] e0]|] eqn:Ea; [|done].
  set (pick := fun a => match make a with Ok (n, v, e) => if decide (n = name) then Some (v, e) else None | Err _ => None end).
  assert (Hin : (v0, e0) ∈ omap pick items) by (apply list_elem_of_omap; exists a; unfold pick; by rewrite Ea, decide_True).
  specialize (Hall name). unfold item_for in Hall. fold pick in Hall.
  destruct (last (omap pick items)) as [[v e]|] eqn:El; [|apply last_None in El; rewrite El in Hin; by apply elem_of_nil in Hin].
  apply last_Some in El as [l El]. assert (Hv : (v, e) ∈ omap pick items) by (rewrite El; set_solver).
  apply list_elem_of_omap in Hv as (a' & Ha' & Hv). unfold pick in Hv. destruct (make a') as [[[n v'] e']|] eqn:Em; [|done].
  case_decide as Hn; [|done]. injection Hv as -> ->. subst n. exists name, a', v, e. split; [by eexists _, _|]. by split_and!.
Qed.

(** The names a for-in over the global object shows of a list of targets. *)
Definition shown_stub (spec : BridgeStubSpec) : option string :=
  if shown (sp_stub_name spec) (sp_enumerable spec) then Some (sp_stub_name spec) else None.
Definition shown_placeholder (t : string * string * bool * bool) : option string :=
  let '(name, _, _, enumerable) := t in if shown name enumerable then Some name else None.

(** A shim's handler has an internal name. *)
Definition handlers_internal (globals : list HostGlobalDef) : Prop :=
  Forall (fun g => match g with Shim _ _ handler_name _ => is_internal handler_name = true | _ => True end) globals.

Lemma shown_internal name e : is_internal name = true -> shown name e = false.
Proof. unfold shown. intros ->. by rewrite andb_false_r. Qed.

Lemma surfaces_agree globals imports ts : prefix_placeholders globals imports = Ok ts -> handlers_internal globals ->
  omap shown_placeholder ts = omap shown_stub (bridge_stubs globals imports).
Proof.
  intros Hts Hh. unfold prefix_placeholders in Hts. destruct (placeholder_targets globals) as [ts0|] eqn:E0; [|done]. injection Hts as <-.
  unfold bridge_stubs. rewrite !omap_app. f_equal.
  - revert ts0 E0. induction Hh as [|g globals Hg Hh IH]; cbn; [by intros ? [= <-]|]. intros ts0. destruct (placeholder_of g) as [t|] eqn:Eg; [|done].
    cbn. destruct (placeholder_targets globals) as [ts|]; [|done]. intros [= <-]. rewrite !omap_app, (IH _ eq_refl). f_equal.
    destruct g as [name e|name expr e|name blob e|name shim handler e]; cbn in Eg.
    + destruct (check_not_reserved name); [|done]. by injection Eg as <-.
    + by injection Eg as <-.
    + by injection Eg as <-.
    + injection Eg as <-. cbn in Hg |- *. unfold shown_stub. cbn. by rewrite Hg, shown_internal.
  - destruct (existsb is_host imports); case_bool_decide; reflexivity.
Qed.

(** The placeholders a prefix gets, read off its definitions: the name it is
    installed under, the name it shows, whether it stands for the dispatcher, and
    whether enumeration shows it. *)
Inductive placeholder_for (globals : list HostGlobalDef) (imports : list ImportBinding) : string -> string -> bool -> bool -> Prop :=
  | pf_bridge name e : Types.Bridge name e ∈ globals -> placeholder_for globals imports name name false e
  | pf_shim name shim handler e : Shim name shim handler e ∈ globals -> placeholder_for globals imports handler name false true
  | pf_dispatcher b exports : b ∈ imports -> ib_module b = Host exports ->
      placeholder_for globals imports BRIDGE_DISPATCH_GLOBAL BRIDGE_DISPATCH_GLOBAL true true.

Definition no_bridge_reserved (globals : list HostGlobalDef) : Prop :=
  forall name e, Types.Bridge name e ∈ globals -> name ∉ RESERVED_GLOBAL_NAMES.

Lemma placeholder_of_spec g :
  match placeholder_of g with
  | Ok ts => no_bridge_reserved [g] /\
      forall name display d e, (name, display, d, e) ∈ ts <-> placeholder_for [g] [] name display d e
  | Err _ => ~ no_bridge_reserved [g]
  end.
Proof.
  assert (Hno : forall h, (forall name e, h <> Types.Bridge name e) -> no_bridge_reserved [h])
    by (intros h Hh name e Hin; apply list_elem_of_singleton in Hin; by destruct (Hh name e)).
  assert (Hinv : forall n x d e, placeholder_for [g] [] n x d e ->
    g = Types.Bridge n e /\ x = n /\ d = false \/ (exists shim e', g = Shim x shim n e') /\ d = false /\ e = true).
  { intros n x d e [name e' Hin%list_elem_of_singleton|name shim handler e' Hin%list_elem_of_singleton|b ex Hb%elem_of_nil]; [left|right|done]; subst; eauto 6. }
  destruct g as [name e|name expr e|name blob e|name shim handler e]; cbn.
  - unfold check_not_reserved. case_bool_decide as Hr; cbn.
    + intros Hn. apply (Hn name e); [by left|done].
    + split; [by intros n e' [= -> ->]%list_elem_of_singleton|]. intros n x d e'. rewrite list_elem_of_singleton. split.
      * intros [= -> -> -> ->]. apply pf_bridge. by left.
      * by intros [([= -> ->] & -> & ->)|((? & ? & ?) & _)]%Hinv.
  - split; [by apply Hno|]. intros n x d e'. split; [by intros ?%elem_of_nil|by intros [(? & _)|((? & ? & ?) & _)]%Hinv].
  - split; [by apply Hno|]. intros n x d e'. split; [by intros ?%elem_of_nil|by intros [(? & _)|((? & ? & ?) & _)]%Hinv].
  - split; [by apply Hno|]. intros n x d e'. rewrite list_elem_of_singleton. split.
    + intros [= -> -> -> ->]. eapply pf_shim. by left.
    + by intros [(? & _)|((? & ? & [= -> -> -> ->]) & -> & ->)]%Hinv.
Qed.

Lemma placeholder_for_cons g globals imports n x d e :
  placeholder_for (g :: globals) imports n x d e <-> placeholder_for [g] [] n x d e \/ placeholder_for globals imports n x d e.
Proof.
  split.
  - intros [name e' [<-|Hin]%elem_of_cons|name shim handler e' [<-|Hin]%elem_of_cons|b ex Hb Hx].
    + left. apply pf_bridge. by left.
    + right. by apply pf_bridge.
    + left. eapply pf_shim. by left.
    + right. by eapply pf_shim.
    + right. by eapply pf_dispatcher.
  - intros [[name e' Hin%list_elem_of_singleton|name shim handler e' Hin%list_elem_of_singleton|b ex Hb%elem_of_nil]
      |[name e' Hin|name shim handler e' Hin|b ex Hb Hx]]; [|
      |done| | |by eapply pf_dispatcher].
    + subst. apply pf_bridge. by left.
    + subst. eapply pf_shim. by left.
    + apply pf_bridge. by right.
    + eapply pf_shim. by right.
Qed.

Lemma placeholder_targets_spec globals :
  match placeholder_targets globals with
  | Ok ts => no_bridge_reserved globals /\ forall n x d e, (n, x, d, e) ∈ ts <-> placeholder_for globals [] n x d e
  | Err _ => ~ no_bridge_reserved globals
  end.
Proof.
  induction globals as [|g globals IH]; cbn.
  - split; [by intros n e ?%elem_of_nil|]. intros n x d e. split; [by intros ?%elem_of_nil|].
    by intros [? ? ?%elem_of_nil|? ? ? ? ?%elem_of_nil|? ? ?%elem_of_nil].
  - pose proof (placeholder_of_spec g) as Hg. destruct (placeholder_of g) as [t|err]; cbn.
    2: { intros Hn. apply Hg. intros n e <-%list_elem_of_singleton. apply (Hn n e). by left. }
    destruct Hg as [Hg Ht]. destruct (placeholder_targets globals) as [ts|err]; cbn.
    2: { intros Hn. apply IH. intros n e Hin. apply (Hn n e). by right. }
    destruct IH as [Hr Hts]. split.
    + intros n e [<-|Hin]%elem_of_cons; [apply (Hg n e); by left|by apply (Hr n e)].
    + intros n x d e. by rewrite elem_of_app, placeholder_for_cons, Ht, Hts.
Qed.

Lemma prefix_placeholders_spec globals imports :
  match prefix_placeholders globals imports with
  | Ok ts => no_bridge_reserved globals /\ forall n x d e, (n, x, d, e) ∈ ts <-> placeholder_for globals imports n x d e
  | Err _ => ~ no_bridge_reserved globals
  end.
Proof.
  unfold prefix_placeholders. pose proof (placeholder_targets_spec globals) as Hs.
  destruct (placeholder_targets globals) as [ts|err]; cbn; [|done]. destruct Hs as [Hr Hts]. split; [done|].
  assert (Hd : existsb is_host imports = true <-> exists b exports, b ∈ imports /\ ib_module b = Host exports).
  { rewrite existsb_exists. unfold is_host. split.
    - intros (b & Hb & Hh). destruct (ib_module b) as [src|exports] eqn:Eb; [done|]. exists b, exports. split; [by apply list_elem_of_In|done].
    - intros (b & exports & Hb & Hh). exists b. rewrite Hh. split; [by apply list_elem_of_In|done]. }
  intros n x d e. rewrite elem_of_app, Hts. split.
  - intros [[? ? ?|? ? ? ? ?|? ? ?%elem_of_nil]|Hin]; [by apply pf_bridge|by eapply pf_shim|done|].
    destruct (existsb is_host imports); [|by apply elem_of_nil in Hin]. apply list_elem_of_singleton in Hin as [= -> -> -> ->].
    destruct (proj1 Hd eq_refl) as (b & ex & Hb & Hx). by eapply pf_dispatcher.
  - intros [? ? ?|? ? ? ? ?|b ex Hb Hx]; [left; by apply pf_bridge|left; by eapply pf_shim|right].
    rewrite (proj2 Hd) by eauto. by left.
Qed.

Section Rearming.
Context (script : string -> string -> Glob -> Glob * result RunError Z) (as_function : Z -> bool) (factory : Z).
(** The runtime's own source is a function expression. *)
Context (Hfactory : forall s, script PREFIX_BRIDGE_PLACEHOLDER_FACTORY_SRC "<iso4:prefix-bridge-placeholder>" s = (s, Ok factory)) (Hfun : as_function factory = true).

Lemma make_stub_ok function spec n v e :
  make_stub function spec = Ok (n, v, e) <->
  n = sp_stub_name spec /\ function n = Some v /\ e = sp_enumerable spec /\ n ∉ RESERVED_GLOBAL_NAMES.
Proof.
  unfold make_stub, built, check_not_reserved. case_bool_decide as Hres; cbn.
  - split; [done|]. by intros (-> & _ & _ & ?).
  - destruct (function (sp_stub_name spec)) as [f|] eqn:Ef; cbn.
    + split; [by intros [= <- <- <-]|]. intros (-> & Hf & -> & _). congruence.
    + split; [done|]. intros (-> & Hf & _). congruence.
Qed.

Lemma make_placeholder_ok placeholder t n v e :
  make_placeholder placeholder t = Ok (n, v, e) <-> exists display d, t = (n, display, d, e) /\ placeholder display d = Some v.
Proof.
  destruct t as [[[n' x] d] e']. cbn. unfold built. destruct (placeholder x d) as [p|] eqn:Ep; cbn.
  - split; [intros [= <- <- <-]; by exists x, d|]. intros (x' & d' & [= -> -> -> ->] & Hp). congruence.
  - split; [done|]. intros (x' & d' & [= -> -> -> ->] & Hp). congruence.
Qed.

Lemma stubs_defined s function stubs :
  let '(s', r) := define_stubs function s stubs in
  ran s' = ran s /\
  (is_ok r = true <-> Forall (fun spec => sp_stub_name spec ∉ RESERVED_GLOBAL_NAMES /\ is_Some (function (sp_stub_name spec)) /\ definable s (sp_stub_name spec)) stubs) /\
  (forall name, props s' !! name = props s !! name \/
     exists spec f, spec ∈ stubs /\ sp_stub_name spec = name /\ function name = Some f /\
       props s' !! name = Some (DataProp f true (shown name (sp_enumerable spec)) true)) /\
  (is_ok r = true -> forall spec, spec ∈ stubs -> exists f spec', function (sp_stub_name spec) = Some f /\
     spec' ∈ stubs /\ sp_stub_name spec' = sp_stub_name spec /\
     props s' !! sp_stub_name spec = Some (DataProp f true (shown (sp_stub_name spec) (sp_enumerable spec')) true)).
Proof.
  pose proof (define_each_spec (make_stub function) stubs s) as Hd. pose proof (define_each_all (make_stub function) stubs s) as Ha.
  unfold define_stubs. destruct (define_each (make_stub function) s stubs) as [s' r]. destruct Hd as (Hr & _ & Hok & Hch & _). split_and!; [done| | |].
  - rewrite Hok. apply Forall_proper; [|done]. intros spec. unfold can_make. destruct (make_stub function spec) as [[[n v] e]|err] eqn:Em.
    + apply make_stub_ok in Em as (-> & Hf & _ & Hn). split; [intros; split_and!; eauto|by intros (_ & _ & ?)].
    + split; [done|]. intros (Hn & [f Hf] & _). assert (Hx : make_stub function spec = Ok (sp_stub_name spec, f, sp_enumerable spec)) by (by apply make_stub_ok).
      congruence.
  - intros name. destruct (Hch name) as [?|(spec & v & e & Hin & (-> & Hf & -> & _)%make_stub_ok & Hl)]; [by left|]. right. by exists spec, v.
  - intros Hokr spec Hin. destruct (Ha Hokr spec Hin) as (n & spec' & v & e & (v0 & e0 & (-> & _)%make_stub_ok) & Hin' & (Hn & Hf & -> & _)%make_stub_ok & Hl).
    exists v, spec'. by split_and!.
Qed.

Lemma placeholders_defined s placeholder globals imports :
  let '(s', r) := install_prefix_bridge_placeholders script as_function placeholder s globals imports in
  (ran s' = ran s \/ ran s' = ran s ++ [Script "<iso4:prefix-bridge-placeholder>"]) /\
  (is_ok r = true <-> no_bridge_reserved globals /\
     forall name display d e, placeholder_for globals imports name display d e -> is_Some (placeholder display d) /\ definable s name) /\
  (forall name, props s' !! name = props s !! name \/
     exists display d e p, placeholder_for globals imports name display d e /\ placeholder display d = Some p /\
       props s' !! name = Some (DataProp p true (shown name e) true)) /\
  (is_ok r = true -> forall name display d e, placeholder_for globals imports name display d e ->
     exists display' d' e' p, placeholder_for globals imports name display' d' e' /\ placeholder display' d' = Some p /\
       props s' !! name = Some (DataProp p true (shown name e') true)).
Proof using Hfactory Hfun.
  unfold install_prefix_bridge_placeholders. pose proof (prefix_placeholders_spec globals imports) as Hp.
  destruct (prefix_placeholders globals imports) as [ts|err].
  2: { split_and!; [by left|split; [done|by intros [? _]]|by left|done]. }
  destruct Hp as [Hres Hts]. destruct ts as [|t ts].
  { split_and!; [by left| |by left|]; [split; [intros _; split; [done|]|done]|intros _];
      intros name display d e Hf; apply Hts in Hf; by apply elem_of_nil in Hf. }
  unfold eval_script. rewrite Hfactory, Hfun. set (s1 := ran_guest s _).
  pose proof (define_each_spec (make_placeholder placeholder) (t :: ts) s1) as Hd. pose proof (define_each_all (make_placeholder placeholder) (t :: ts) s1) as Ha.
  destruct (define_each _ s1 (t :: ts)) as [s' r]. destruct Hd as (Hr & _ & Hok & Hch & _). split_and!; [by right| | |].
  - rewrite Hok, Forall_forall. split.
    + intros Hc. split; [done|]. intros name display d e Hf%Hts. specialize (Hc _ Hf). unfold can_make in Hc. cbn in Hc.
      destruct (placeholder display d); cbn in Hc; [|done]. by split.
    + intros [_ Hc] [[[name display] d] e] Hf%Hts. destruct (Hc _ _ _ _ Hf) as [[p Hp] Hdef]. unfold can_make. cbn. by rewrite Hp.
  - intros name. destruct (Hch name) as [?|(a & v & e & Hin & (x & d & -> & Hp)%make_placeholder_ok & Hl)]; [by left|right].
    exists x, d, e, v. by rewrite <- Hts.
  - intros Hokr name display d e Hf%Hts. destruct (Ha Hokr _ Hf) as (n & a' & v & e' & (v0 & e0 & Hm) & Hin' & (x' & d' & -> & Hp)%make_placeholder_ok & Hl).
    apply make_placeholder_ok in Hm as (? & ? & [= <- <- <- <-] & _). exists x', d', e', v. by rewrite <- Hts.
Qed.

(** C38. Arming a used instance runs none of the guest's code.  Whatever guest code
    left on the global object - setters under the names of the stubs, frozen
    properties, an object closed to new ones - installing the placeholders and then
    the stubs of the next run runs nothing but the runtime's own factory script.
    Installing the stubs succeeds exactly if every name is free or configurable, none
    is reserved, and V8 makes the functions; what it changes are the stubs' names, and
    after it every one of them is a plain writable property holding the function made
    for it, enumerable exactly if its definition says so and its name is not internal.
    The same holds of the placeholders a prefix gets (its bridge globals under their
    own names and flags, the handlers of its shims, and the dispatcher if it imports a
    host module), each holding the closure made for the name it shows; and if the
    handlers of the shims have internal names, the names that enumerating the object
    shows of the placeholders are those it shows of the stubs. *)
Theorem rearming_runs_no_guest_code s function placeholder globals imports :
  (let '(s', r) := define_stubs function s (bridge_stubs globals imports) in
   ran s' = ran s /\
   (is_ok r = true <-> Forall (fun spec => sp_stub_name spec ∉ RESERVED_GLOBAL_NAMES /\ is_Some (function (sp_stub_name spec)) /\ definable s (sp_stub_name spec))
      (bridge_stubs globals imports)) /\
   (forall name, props s' !! name = props s !! name \/
      exists spec f, spec ∈ bridge_stubs globals imports /\ sp_stub_name spec = name /\ function name = Some f /\
        props s' !! name = Some (DataProp f true (shown name (sp_enumerable spec)) true)) /\
   (is_ok r = true -> forall spec, spec ∈ bridge_stubs globals imports -> exists f spec', function (sp_stub_name spec) = Some f /\
      spec' ∈ bridge_stubs globals imports /\ sp_stub_name spec' = sp_stub_name spec /\
      props s' !! sp_stub_name spec = Some (DataProp f true (shown (sp_stub_name spec) (sp_enumerable spec')) true))) /\
  (let '(s', r) := install_prefix_bridge_placeholders script as_function placeholder s globals imports in
   (ran s' = ran s \/ ran s' = ran s ++ [Script "<iso4:prefix-bridge-placeholder>"]) /\
   (is_ok r = true <-> no_bridge_reserved globals /\
      forall name display d e, placeholder_for globals imports name display d e -> is_Some (placeholder display d) /\ definable s name) /\
   (forall name, props s' !! name = props s !! name \/
      exists display d e p, placeholder_for globals imports name display d e /\ placeholder display d = Some p /\
        props s' !! name = Some (DataProp p true (shown name e) true)) /\
   (is_ok r = true -> forall name display d e, placeholder_for globals imports name display d e ->
      exists display' d' e' p, placeholder_for globals imports name display' d' e' /\ placeholder display' d' = Some p /\
        props s' !! name = Some (DataProp p true (shown name e') true))) /\
  (forall ts, prefix_placeholders globals imports = Ok ts -> handlers_internal globals ->
     omap shown_placeholder ts = omap shown_stub (bridge_stubs globals imports)).
Proof using Hfactory Hfun.
  split; [apply stubs_defined|]. split; [apply placeholders_defined|]. intros ts. apply surfaces_agree.
Qed.
End Rearming.

(** A used instance: a setter under [fetch], a frozen [x], and a closed object. *)
Definition used_glob : Glob := mk_Glob (<["fetch"%string := AccessorProp (Some 66) true true]> (<["__iso4_db_h"%string := DataProp 5 true true true]> {["x"%string := DataProp 1 false true false]})) false [].
Definition small_script (source filename : string) (s : Glob) : Glob * result RunError Z := (s, Ok 9).
Definition armed (globals : list HostGlobalDef) : Glob * result RunError unit := define_stubs (fun _ => Some 7) used_glob (bridge_stubs globals []).

Definition demo_placeholder (display : string) (dispatcher : bool) : option Z := Some (if dispatcher then 31 else Z.of_nat (String.length display)).

Lemma rearming_runs_no_guest_code_witness :
  (let '(s, r) := armed [Types.Bridge "fetch" true; Shim "db" "(x) => x" "__iso4_db_h" true] in
   r = Ok tt /\ ran s = [] /\ props s !! "fetch"%string = Some (DataProp 7 true true true) /\
   props s !! "__iso4_db_h"%string = Some (DataProp 7 true false true)) /\
  (let '(s, r) := armed [Types.Bridge "x" true] in is_ok r = false /\ ran s = [] /\ props s !! "x"%string = Some (DataProp 1 false true false)) /\
  (let '(s, r) := install_prefix_bridge_placeholders small_script (fun _ => true) demo_placeholder used_glob
     [Types.Bridge "fetch" false; Shim "db" "(x) => x" "__iso4_db_h" true] [] in
   is_ok r = true /\ ran s = [Script "<iso4:prefix-bridge-placeholder>"] /\
   props s !! "fetch"%string = Some (DataProp 5 true false true) /\ props s !! "__iso4_db_h"%string = Some (DataProp 2 true false true) /\
   props s !! "x"%string = Some (DataProp 1 false true false)).
Proof.
  pose proof (fun globals => rearming_runs_no_guest_code small_script (fun _ => true) 9 (fun _ => eq_refl) eq_refl used_glob (fun _ => Some 7)
    demo_placeholder globals []) as H.
  split_and!.
  - destruct (H [Types.Bridge "fetch" true; Shim "db" "(x) => x" "__iso4_db_h" true]) as [Hs _]. unfold armed.
    destruct (define_stubs _ _ _) as [s r] eqn:E. destruct Hs as (Hr & _). split_and!; [|exact Hr| |]; by vm_compute in E; injection E as <- <-.
  - destruct (H [Types.Bridge "x" true]) as [Hs _]. unfold armed. destruct (define_stubs _ _ _) as [s r] eqn:E.
    destruct Hs as (Hr & Hok & _). split_and!; [|exact Hr|by vm_compute in E; injection E as <- _].
    apply not_true_iff_false. intros Hc. apply Hok in Hc. apply Forall_cons in Hc as [(_ & _ & Hd) _]. discriminate Hd.
  - destruct (H [Types.Bridge "fetch" false; Shim "db" "(x) => x" "__iso4_db_h" true]) as [_ [Hp _]].
    destruct (install_prefix_bridge_placeholders _ _ _ _ _ _) as [s r] eqn:E. destruct Hp as ([Hran|Hran] & _ & _ & Hall).
    + exfalso. vm_compute in E. injection E as <- _. discriminate Hran.
    + split_and!; [by vm_compute in E; injection E as _ <-|exact Hran|by vm_compute in E; injection E as <- _..].
Defined.

(** ** The host's values *)

(** On an object no guest code has touched, a host value lands under its name with
    the flag it asks for. *)
Lemma public_global_installed run_setter inherited s name value e :
  props s !! name = None -> extensible s = true -> inherited name = None -> is_internal name = false ->
  let '(s', r) := install_public_global run_setter inherited s name value e in
  r = Ok tt /\ ran s' = ran s /\ props s' = <[name := DataProp value true e true]> (props s).
Proof.
  intros Hn Hx Hi Hp. unfold install_public_global. destruct e.
  - unfold set_global, object_set. by rewrite Hn, Hi, Hx.
  - unfold define_global, define_own_property. rewrite Hn, Hx, Hp. by cbn.
Qed.

(** But an enumerable value under the name of a hidden built-in keeps the built-in's
    flag: [[Set]] changes the value only. *)
Lemma replaced_builtin_stays_hidden run_setter inherited s name value old :
  props s !! name = Some (DataProp old true false true) ->
  let '(s', r) := install_public_global run_setter inherited s name value true in
  r = Ok tt /\ props s' !! name = Some (DataProp value true false true).
Proof. intros Hn. unfold install_public_global, set_global, object_set. rewrite Hn. cbn. by rewrite lookup_insert_eq. Qed.

(** A reserved name is refused before anything is evaluated or installed. *)
Lemma reserved_refused run_setter inherited script as_function wrap data s factory def :
  (match def with Types.Bridge _ _ => False | StringExpr name _ _ | Data name _ _ | Shim name _ _ _ => name ∈ RESERVED_GLOBAL_NAMES end) ->
  exists e, install_value_global run_setter inherited script as_function wrap data s factory def = (s, factory, Err (ReservedName e)).
Proof.
  destruct def as [name e|name expr e|name blob e|name shim handler e]; [done|..]; intros Hr; unfold install_value_global, check_not_reserved;
    rewrite bool_decide_eq_true_2 by done; by eexists.
Qed.

(** ** [waitUntil] registers with the run that calls it *)

(** Background work goes to the run whose continuation registers it, if that is
    live, else to the turn's owner; other runs' sets never change, and outside run
    code nothing is registered. *)
Lemma wait_until_attributed current rider (t : RunTable (option (list Z))) as_promise resolved :
  let owner := match rider with Some token => if bool_decide (is_Some (runs t !! token)) then token else current | None => current end in
  let '(t', r) := wait_until_callback current rider t as_promise resolved in
  (forall other, other <> owner -> runs t' !! other = runs t !! other) /\
  match runs t !! owner ≫= id with
  | Some registered =>
    match match as_promise with Some p => Some p | None => resolved end with
    | Some p => r = Ok tt /\ runs t' !! owner = Some (Some (registered ++ [p]))
    | None => is_ok r = false /\ t' = t
    end
  | None => r = Err setup_only /\ t' = t
  end.
Proof.
  intros owner. assert (Ho : attributed_token_and_state current rider t = (owner, runs t !! owner)).
  { unfold attributed_token_and_state, owner. destruct rider as [token|]; [|done]. case_decide as Hd; [subst; by case_bool_decide|].
    case_bool_decide as Hs; [by destruct Hs as [? ->]|]. apply eq_None_not_Some in Hs. by rewrite Hs. }
  unfold wait_until_callback. rewrite Ho. clearbody owner. destruct (runs t !! owner) as [[registered|]|] eqn:Er; cbn; [|done..].
  destruct as_promise as [p|]; [|destruct resolved as [p|]; [|done]]; cbn; rewrite lookup_insert_eq; (split; [|done]); intros other Hne; by rewrite lookup_insert_ne.
Qed.

(** ** A URL setter is a fresh parse *)

(** Only an invalid [href] fails; every other setter gives the components of the
    URL it leaves, eleven of them, [href] first. *)
Lemma url_set_components {U} `{AdaUrl U} href_arg which value url :
  parse href_arg None = Some url -> 1 <= which <= 9 ->
  exists url', url_set_callback (Some href_arg) (Some which) (Some value) = Some (components url') /\ length (components url') = 11%nat /\
    components url' !! 0%nat = Some (href url').
Proof.
  intros Hp Hw. unfold url_set_callback. cbn [mbind option_bind]. rewrite Hp. cbn [mbind option_bind]. unfold url_set.
  repeat (match goal with |- context [?a =? ?b] => destruct (Z.eqb_spec a b) end; [try lia; by eexists|]). lia.
Qed.
