(* ===== verification/Modules.v ===== *)
(** * Modules ([crates/core/src/v8/modules.rs], with the value globals of [globals.rs])

    Resolution of imports, host modules built from shape data, the names that may
    be exported, the evaluation of a prefix and the extraction of a module's
    exports.  Compiling, linking and evaluating JavaScript is V8's: its answers
    are arguments. *)

From Stdlib Require Import Ascii.
From S2P Require Import Prelude Bytes Text F64 Types Errors Link Guard Bridge.

(** ** Export names *)

(** [str::chars] of a string that is valid UTF-8, as code points. *)
Fixpoint chars_of (bs : list byte) : list Z :=
  match bs with
  | [] => []
  | b0 :: r0 =>
    if b2z b0 <? 128 then b2z b0 :: chars_of r0
    else match r0 with
    | [] => []
    | b1 :: r1 =>
      if b2z b0 <? 224 then ((b2z b0 - 192) * 64 + (b2z b1 - 128)) :: chars_of r1
      else match r1 with
      | [] => []
      | b2 :: r2 =>
        if b2z b0 <? 240 then ((b2z b0 - 224) * 4096 + (b2z b1 - 128) * 64 + (b2z b2 - 128)) :: chars_of r2
        else match r2 with
        | [] => []
        | b3 :: r3 =>
          ((b2z b0 - 240) * 262144 + (b2z b1 - 128) * 4096 + (b2z b2 - 128) * 64 + (b2z b3 - 128)) :: chars_of r3
        end
      end
    end
  end.

Definition RESERVED_EXPORT_WORDS : list string :=
  ["break"; "case"; "catch"; "class"; "const"; "continue"; "debugger"; "delete"; "do"; "else"; "export"; "extends"; "finally";
   "for"; "function"; "if"; "import"; "in"; "instanceof"; "new"; "return"; "super"; "switch"; "this"; "throw"; "try"; "typeof";
   "var"; "void"; "while"; "with"; "yield"; "let"; "static"; "enum"; "await"; "implements"; "package"; "protected"; "interface";
   "private"; "public"; "null"; "true"; "false"; "eval"; "arguments"].

(** The Unicode tables of the [unicode_ident] crate. *)
Class UnicodeIdent := { is_xid_start : Z -> bool; is_xid_continue : Z -> bool }.

Definition between (lo hi c : Z) : bool := (lo <=? c) && (c <=? hi).

Definition id_not_xid (c : Z) : bool :=
  bool_decide (c ∈ [0x37A; 0x309B; 0x309C; 0xFDFA; 0xFDFB; 0xFE70; 0xFE72; 0xFE74; 0xFE76; 0xFE78; 0xFE7A; 0xFE7C; 0xFE7E]) ||
  between 0xFC5E 0xFC63 c.

Definition starts_identifier `{UnicodeIdent} (c : Z) : bool :=
  is_xid_start c || id_not_xid c || bool_decide (c ∈ [0xE33; 0xEB3; 0xFF9E; 0xFF9F]) || (c =? 95) || (c =? 36).
Definition continues_identifier `{UnicodeIdent} (c : Z) : bool :=
  is_xid_continue c || id_not_xid c || (c =? 36) || (c =? 0x200C) || (c =? 0x200D).

Definition is_valid_export_identifier `{UnicodeIdent} (name : string) : bool :=
  if decide (name = "default"%string) then true
  else match chars_of (as_bytes name) with
  | [] => false
  | first :: rest =>
    starts_identifier first && forallb continues_identifier rest && negb (bool_decide (name ∈ RESERVED_EXPORT_WORDS))
  end.

(** ** Host modules *)

Definition IMPORT_META_VALUES_KEY : string := "__iso4".

(** What a host module exports: trampolines bound to a handle, data made from a
    blob ([D]), plain objects. *)
Inductive HostValue (D : Type) :=
  | Trampoline (id : Z)
  | DataValue (d : D)
  | ObjectValue (entries : list (string * HostValue D)).
Arguments Trampoline {D}. Arguments DataValue {D}. Arguments ObjectValue {D}.

Section Build.
Context {D : Type} `{UnicodeIdent}.
(** V8's part: the trampoline factory ([None]: it failed), a data leaf, whether a
    key can be made a V8 string. *)
Context (factory : result RunError unit) (trampoline_made : Z -> bool) (materialise : list byte -> option D) (can_intern_key : string -> bool).

(** [build_host_value] with [next_id] threaded; the factory is called with the id
    already drawn. *)
Fixpoint build_host_value (specifier : string) (node : HostModuleNode) (next_id : Z) : Z * result RunError (HostValue D) :=
  match node with
  | NodeFunction =>
    (next_id + 1, if trampoline_made next_id then Ok (Trampoline next_id)
      else Err (Internal ("failed to build import trampoline in host module '" +:+ specifier +:+ "'")))
  | NodeData bytes =>
    (next_id, match materialise bytes with
      | Some d => Ok (DataValue d)
      | None => Err (Internal ("failed to materialise data leaf in host module '" +:+ specifier +:+ "'"))
      end)
  | NodeObject entries =>
    let '(next_id, r) :=
      (fix go (es : list (string * HostModuleNode)) (next_id : Z) : Z * result RunError (list (string * HostValue D)) :=
        match es with
        | [] => (next_id, Ok [])
        | e :: es =>
          let '(next_id, v) := build_host_value specifier e.2 next_id in
          match v with
          | Err x => (next_id, Err x)
          | Ok v =>
            if can_intern_key e.1 then
              let '(next_id, vs) := go es next_id in
              (next_id, match vs with Ok vs => Ok ((e.1, v) :: vs) | Err x => Err x end)
            else (next_id, Err (Internal ("failed to intern object key in host module '" +:+ specifier +:+ "'")))
          end
        end) entries next_id in
    (next_id, match r with Ok vs => Ok (ObjectValue vs) | Err x => Err x end)
  end.

(** The statement that exports value [i] under [name]. *)
Definition export_line (name : string) (i : nat) : string :=
  if decide (name = "default"%string)
  then "export default import.meta." +:+ IMPORT_META_VALUES_KEY +:+ "[" +:+ pretty i +:+ "];" +:+ String "010"%char EmptyString
  else "export const " +:+ name +:+ " = import.meta." +:+ IMPORT_META_VALUES_KEY +:+ "[" +:+ pretty i +:+ "];" +:+ String "010"%char EmptyString.

(** The loop over the exports: values in order and the source so far.
    [set_index]: whether V8 stored a value. *)
Fixpoint build_exports (set_index : nat -> bool) (specifier : string) (i : nat) (exports : list (string * HostModuleNode)) (next_id : Z) :
    result (option RunError) (list (HostValue D) * string) :=
  match exports with
  | [] => Ok ([], EmptyString)
  | e :: exports =>
    let '(next_id, v) := build_host_value specifier e.2 next_id in
    match v with
    | Err x => Err (Some x)
    | Ok v =>
      if set_index i then
        '(vs, source) ← build_exports set_index specifier (S i) exports next_id;
        Ok (v :: vs, export_line e.1 i +:+ source)
      else Err None
    end
  end.

(** The first name that may not be exported. *)
Fixpoint invalid_export (exports : list (string * HostModuleNode)) : option string :=
  match exports with
  | [] => None
  | e :: exports => if is_valid_export_identifier e.1 then invalid_export exports else Some e.1
  end.

(** ** The resolver *)

Record ResolverContext := mk_ResolverContext {
  bindings : list ImportBinding;
  module_cache : gmap string Z;
  pending_meta : list (Z * list (HostValue D));
  resolve_error : option RunError;
}.

Definition resolver_new (imports : list ImportBinding) : ResolverContext := mk_ResolverContext imports ∅ [] None.

Definition lookup_binding (c : ResolverContext) (specifier : string) : option ImportBinding :=
  snd <$> list_find (fun b => ib_specifier b = specifier) (bindings c).

(** First error wins. *)
Definition record_resolve_error (c : ResolverContext) (err : RunError) : ResolverContext :=
  mk_ResolverContext (bindings c) (module_cache c) (pending_meta c) (Some (default err (resolve_error c))).

Definition cache_put (c : ResolverContext) (specifier : string) (module : Z) : ResolverContext :=
  mk_ResolverContext (bindings c) (<[specifier := module]> (module_cache c)) (pending_meta c) (resolve_error c).

Definition stage_meta_values (c : ResolverContext) (module : Z) (values : list (HostValue D)) : ResolverContext :=
  mk_ResolverContext (bindings c) (module_cache c) (pending_meta c ++ [(module, values)]) (resolve_error c).

(** What V8 makes of a module's source: a module, a syntax error, or nothing
    (a string it could not make). *)
Inductive Compiled := Module_ (m : Z) | NotCompiled (data : RuntimeErrorData) | NoString.

Context (compile : string -> string -> Compiled) (set_index : string -> nat -> bool).

Definition compile_source_module (c : ResolverContext) (specifier source : string) : ResolverContext * option Z :=
  match compile specifier source with
  | Module_ m => (c, Some m)
  | NotCompiled data =>
    (record_resolve_error c (RuntimeError (mk_RuntimeErrorData (rt_name data)
      ("failed to compile source import '" +:+ specifier +:+ "': " +:+ rt_message data) (rt_stack data) (rt_fields data))), None)
  | NoString => (c, None)
  end.

Definition build_host_module (c : ResolverContext) (specifier : string) (exports : list (string * HostModuleNode)) :
    ResolverContext * option Z :=
  match invalid_export exports with
  | Some name =>
    (record_resolve_error c (Import ("host module '" +:+ specifier +:+ "': top-level key '" +:+ name +:+
      "' is not a valid JavaScript identifier and cannot be exported as a named ESM export")), None)
  | None =>
    match factory with
    | Err e => (record_resolve_error c e, None)
    | Ok _ =>
      match build_exports (set_index specifier) specifier 0 exports (host_module_base_id (bindings c) specifier) with
      | Err (Some e) => (record_resolve_error c e, None)
      | Err None => (c, None)
      | Ok (values, source) =>
        match compile_source_module c specifier source with
        | (c, Some m) => (stage_meta_values c m values, Some m)
        | (c, None) => (c, None)
        end
      end
    end
  end.

(** The built-in modules, by specifier and source. *)
Context (ASYNC_HOOKS_MODULE_SRC : string).
Definition ASYNC_HOOKS_SPECIFIER : string := "node:async_hooks".
Definition ISO4_RUNTIME_SPECIFIER : string := "iso4:runtime".
Definition ISO4_RUNTIME_MODULE_SRC : string :=
  "export const waitUntil = globalThis[Symbol.for('iso4.runtime.waitUntil')];" +:+ String "010"%char EmptyString.

(** The name a referrer is cached under, in the order the cache is walked. *)
Definition importer_of (order : gmap string Z -> list (string * Z)) (c : ResolverContext) (referrer : Z) : option string :=
  (fun x => x.2.1) <$> list_find (fun e => e.2 = referrer) (order (module_cache c)).

Definition binding_for (c : ResolverContext) (specifier : string) : option ImportBinding :=
  match lookup_binding c specifier with
  | Some b => Some b
  | None =>
    if decide (specifier = ASYNC_HOOKS_SPECIFIER) then Some (mk_ImportBinding specifier (Source ASYNC_HOOKS_MODULE_SRC))
    else if decide (specifier = ISO4_RUNTIME_SPECIFIER) then Some (mk_ImportBinding specifier (Source ISO4_RUNTIME_MODULE_SRC))
    else None
  end.

Definition module_resolver_callback (order : gmap string Z -> list (string * Z)) (c : ResolverContext) (specifier : string)
    (referrer : Z) : ResolverContext * option Z :=
  match module_cache c !! specifier with
  | Some m => (c, Some m)
  | None =>
    match binding_for c specifier with
    | None =>
      (record_resolve_error c (ModuleNotFound (match importer_of order c referrer with
        | Some importer => "Cannot find module '" +:+ specifier +:+ "' imported from '" +:+ importer +:+ "'"
        | None => "Cannot find module '" +:+ specifier +:+ "'"
        end)), None)
    | Some b =>
      let '(c, m) := match ib_module b with
        | Source source => compile_source_module c specifier source
        | Host exports => build_host_module c specifier exports
        end in
      match m with
      | Some m => (cache_put c specifier m, Some m)
      | None => (c, None)
      end
    end
  end.

(** The array [host_import_meta_callback] attaches to a module's [import.meta]. *)
Definition meta_values (c : ResolverContext) (module : Z) : option (list (HostValue D)) :=
  (fun x => x.2.2) <$> list_find (fun e => e.1 = module) (pending_meta c).
End Build.

(** ** Value globals ([install_value_globals] of [globals.rs])

    [install]: evaluating or materialising a definition and defining the global. *)
Definition install_value_global (install : HostGlobalDef -> result RunError unit) (g : HostGlobalDef) : result RunError unit :=
  match g with
  | Bridge _ _ => Ok tt
  | StringExpr name _ _ | Data name _ _ | Shim name _ _ _ => check_not_reserved name;; install g
  end.

Fixpoint install_value_globals (install : HostGlobalDef -> result RunError unit) (globals : list HostGlobalDef) : result RunError unit :=
  match globals with
  | [] => Ok tt
  | g :: globals => install_value_global install g;; install_value_globals install globals
  end.

(** ** Evaluating a prefix *)

Definition PREFIX_SETTLE_MAX_CHECKPOINTS : nat := 1000.

(** An error value: what [prefix_bridge_call_from_value] finds on it, and the
    run error it is otherwise. *)
Record Thrown := mk_Thrown { bridge_call_marker : option string; as_run_error : RunError }.

Inductive EvalState := EvalPending | EvalFulfilled | EvalRejected (rejection : Thrown).
Inductive Evaluation := EvalThrew (exception : option Thrown) (fallback : RunError) | EvalValue | EvalPromise (inspectable : bool).

Definition prefix_error (t : Thrown) : RunError := match bridge_call_marker t with Some m => PrefixBridgeCall m | None => as_run_error t end.

(** The checkpoints run while the promise is pending; [state k]: its state after
    [k] of them. *)
Fixpoint settle_loop (state : nat -> EvalState) (fuel k : nat) : nat :=
  match fuel with
  | O => k
  | S fuel => match state k with EvalPending => settle_loop state fuel (S k) | _ => k end
  end.

Definition settle_prefix (state : nat -> EvalState) : result RunError unit :=
  match state (settle_loop state PREFIX_SETTLE_MAX_CHECKPOINTS 0) with
  | EvalFulfilled => Ok tt
  | EvalRejected t => Err (prefix_error t)
  | EvalPending => Err (PrefixDidNotSettle
      "prefix top-level await never settled: nothing in the isolate can resolve the awaited promise while a prefix evaluates")
  end.

(** V8's part of the evaluation of one prefix. *)
Record PrefixEnv := mk_PrefixEnv {
  pe_value_global : HostGlobalDef -> result RunError unit;
  pe_placeholders : list (string * string * bool * bool) -> result RunError unit;
  pe_source_interned : bool;
  pe_filename_interned : bool;
  pe_compiled : result RunError Z;
  pe_requests : list (string * Z);
  pe_linked : bool;
  pe_link_message : string;
  pe_evaluation : Evaluation;
  pe_state : nat -> EvalState;
}.

Section Prefix.
Context {D : Type} (resolve : ResolverContext (D := D) -> string -> Z -> ResolverContext (D := D) * option Z).

(** The resolver calls of one [instantiate_module]. *)
Fixpoint resolve_all (c : ResolverContext (D := D)) (requests : list (string * Z)) : ResolverContext (D := D) * bool :=
  match requests with
  | [] => (c, true)
  | (specifier, referrer) :: requests =>
    match resolve c specifier referrer with
    | (c, Some _) => resolve_all c requests
    | (c, None) => (c, false)
    end
  end.

Definition instantiate (c : ResolverContext (D := D)) (requests : list (string * Z)) (linked : bool) (message : string) :
    result RunError unit :=
  let '(c, resolved) := resolve_all c requests in
  if resolved && linked then Ok tt else Err (default (Import message) (resolve_error c)).

Definition evaluate_prefix_module (env : PrefixEnv) (globals : list HostGlobalDef) (imports : list ImportBinding) : result RunError Z :=
  install_value_globals (pe_value_global env) globals;;
  targets ← prefix_placeholders globals imports;
  (if bool_decide (targets = []) then Ok tt else pe_placeholders env targets);;
  (if pe_source_interned env then Ok tt else Err (Internal "failed to intern module source"));;
  (if pe_filename_interned env then Ok tt else Err (Internal "failed to intern filename"));;
  module ← pe_compiled env;
  instantiate (resolver_new imports) (pe_requests env) (pe_linked env) (pe_link_message env);;
  match pe_evaluation env with
  | EvalThrew exception fallback =>
    Err (match exception ≫= bridge_call_marker with Some m => PrefixBridgeCall m | None => fallback end)
  | EvalValue => Ok module
  | EvalPromise inspectable =>
    if inspectable then settle_prefix (pe_state env);; Ok module
    else Err (Internal "failed to inspect module evaluation promise")
  end.
End Prefix.

(** ** Handle ids agree *)

Section Ids.
Context {D : Type} (made : Z -> bool) (materialise : list byte -> option D) (can_intern : string -> bool).

(** Where the trampolines of a value are, with the handles they are bound to. *)
Fixpoint trampolines (path : list string) (v : HostValue D) : list (list string * Z) :=
  match v with
  | Trampoline id => [(path, id)]
  | DataValue _ => []
  | ObjectValue entries =>
    (fix go (es : list (string * HostValue D)) := match es with
      | [] => []
      | e :: es => trampolines (path ++ [e.1]) e.2 ++ go es
      end) entries
  end.

Lemma length_walk spec path node : zlen (walk spec path node) = count_leaves node.
Proof.
  revert path. induction node as [|bytes|es IH] using HostModuleNode_nested_ind; intros path; [done|done|].
  cbn. induction IH as [|e es He Hes IH]; [done|]. rewrite length_app, Nat2Z.inj_add, He. cbn. by rewrite IH.
Qed.

Lemma build_host_value_ids spec node path n n' v :
  build_host_value made materialise can_intern spec node n = (n', Ok v) ->
  n' = n + count_leaves node /\
  trampolines path v = zip (map ih_path (walk spec path node)) (seqZ n (count_leaves node)).
Proof.
  revert path n n' v. induction node as [|bytes|es IH] using HostModuleNode_nested_ind; intros path n n' v; cbn.
  - destruct (made n); intros [= <- <-]. split; [done|]. cbn. by rewrite ?Z.add_0_r.
  - destruct (materialise bytes); intros [= <- <-]. split; [lia|done].
  - set (build := fix go (es : list (string * HostModuleNode)) (n : Z) : Z * result RunError (list (string * HostValue D)) := _).
    intros Hb. destruct (build es n) as [m [vs|]] eqn:Hgo; [|done]. injection Hb as <- <-. cbn.
    revert n m vs Hgo. induction IH as [|[k node] es He Hes IH]; intros n m vs Hgo; cbn in Hgo.
    + injection Hgo as <- <-. split; [lia|done].
    + destruct (build_host_value _ _ _ _ _ _) as [n1 [v|]] eqn:Hv; [|done]. destruct (can_intern k); [|done].
      fold build in Hgo. destruct (build es n1) as [n2 [vs'|]] eqn:Hvs; [|done]. injection Hgo as <- <-.
      destruct (He (path ++ [k]) _ _ _ Hv) as [-> Ht]. destruct (IH _ _ _ Hvs) as [-> Hts]. cbn.
      split; [lia|]. cbn in Ht, Hts. rewrite Ht, Hts, map_app.
      pose proof (length_walk spec (path ++ [k]) node). cbn.
      rewrite seqZ_app by (rewrite <- ?(length_walk spec (path ++ [k]) node); cbn in *; try lia;
        pose proof (length_walk spec path (NodeObject es)); cbn in *; lia).
      rewrite zip_with_app; [done|]. rewrite length_map, length_seqZ. cbn in *. lia.
Qed.

Lemma build_exports_ids set_index spec i exports n vs source :
  build_exports made materialise can_intern set_index spec i exports n = Ok (vs, source) ->
  trampolines [] (ObjectValue (zip (map fst exports) vs)) =
    zip (map ih_path (walk spec [] (NodeObject exports))) (seqZ n (count_function_leaves exports)).
Proof.
  revert i n vs source. induction exports as [|[k node] es IH]; intros i n vs source; cbn -[walk count_leaves]; [by intros [= <- <-]|].
  destruct (build_host_value _ _ _ _ _ _) as [n1 [v|]] eqn:Hv; [|done]. destruct (set_index i); [|done].
  intros ([vs' src] & Hvs & [= <- <-])%bind_ok.
  destruct (build_host_value_ids _ _ [k] _ _ _ Hv) as [-> Ht]. apply IH in Hvs as Hts. cbn in Hts |- *. cbn in Ht. rewrite Ht.
  rewrite map_app. change ((fix go (es : list (string * HostModuleNode)) : Z := match es with [] => 0 | e :: es0 => count_leaves e.2 + go es0 end) es)
    with (count_function_leaves es).
  pose proof (length_walk spec [k] node) as H1. pose proof (length_walk spec [] (NodeObject es)) as H2. cbn in H2.
  change (count_leaves (NodeObject es)) with (count_function_leaves es) in H2.
  rewrite seqZ_app by (unfold count_function_leaves in *; cbn in *; lia).
  rewrite zip_with_app; [|rewrite length_map, length_seqZ; cbn in *; lia]. f_equal. exact Hts.
Qed.
End Ids.

(** The position of a binding's function leaves among all of them. *)
Lemma handles_of_binding imports spec exports i e :
  snd <$> list_find (fun b => ib_specifier b = spec) imports = Some (mk_ImportBinding spec (Host exports)) ->
  walk spec [] (NodeObject exports) !! i = Some e ->
  collect_import_handles imports !! Z.to_nat (host_module_base_id imports spec + Z.of_nat i) = Some e /\
  0 <= host_module_base_id imports spec.
Proof.
  unfold collect_import_handles. induction imports as [|[s m] imports IH]; [done|].
  cbn -[walk count_function_leaves]. destruct (decide (s = spec)) as [->|Hne]; cbn -[walk count_function_leaves].
  - intros [= ->] He. rewrite ?Z.add_0_l, Nat2Z.id. split; [|done]. by apply lookup_app_l_Some.
  - intros Hf He. destruct (list_find _ imports) as [[j b]|] eqn:Hj; [|done]. cbn in Hf.
    destruct (IH Hf He) as [Hl Hb]. destruct m as [code|es]; cbn -[walk count_function_leaves]; [by rewrite Z.add_0_l|].
    pose proof (length_walk s [] (NodeObject es)) as Hn. change (count_leaves (NodeObject es)) with (count_function_leaves es) in Hn.
    split; [|lia]. rewrite lookup_app_r by lia.
    replace (Z.to_nat _ - length _)%nat with (Z.to_nat (host_module_base_id imports spec + Z.of_nat i)) by lia. exact Hl.
Qed.

Lemma length_collect_bound imports i e : collect_import_handles imports !! i = Some e -> (i < length (collect_import_handles imports))%nat.
Proof. apply lookup_lt_Some. Qed.

(** [x], a JavaScript number, is the integer [id]. *)
Definition denotes (x : f64) (id : Z) : Prop :=
  f64_eq (f64_fract x) f64_zero = true /\ f64_le f64_zero x = true /\ f64_to_uint u64_max x = id.

Lemma walk_specifier spec path node e : e ∈ walk spec path node -> e = handle_entry spec (ih_path e).
Proof.
  revert path. induction node as [|bytes|es IH] using HostModuleNode_nested_ind; intros path; cbn.
  - intros ->%list_elem_of_singleton. done.
  - by intros ?%elem_of_nil.
  - induction IH as [|[k n] es He Hes IH]; [by intros ?%elem_of_nil|]. intros [H|H]%elem_of_app; [by eapply He|by apply IH].
Qed.

(** ** What resolution promises *)

Section Resolve.
Context {D : Type} `{UnicodeIdent}.
Context (factory : result RunError unit) (made : Z -> bool) (materialise : list byte -> option D) (can_intern : string -> bool).
Context (compile : string -> string -> Compiled) (set_index : string -> nat -> bool) (hooks_src : string).
Context (order : gmap string Z -> list (string * Z)).

#[local] Abbreviation resolve := (module_resolver_callback factory made materialise can_intern compile set_index hooks_src order).

(** A history of resolver calls. *)
Fixpoint resolve_run (c : ResolverContext (D := D)) (requests : list (string * Z)) : ResolverContext (D := D) :=
  match requests with
  | [] => c
  | (specifier, referrer) :: requests => resolve_run (resolve c specifier referrer).1 requests
  end.

(** A step keeps the bindings, the cache's entries and the first error. *)
Record extends (c c' : ResolverContext (D := D)) : Prop := {
  ex_bindings : bindings c' = bindings c;
  ex_cache : module_cache c ⊆ module_cache c';
  ex_error : forall e, resolve_error c = Some e -> resolve_error c' = Some e;
}.

#[local] Instance extends_preorder : PreOrder extends.
Proof.
  split; [by intros c; split|]. intros c1 c2 c3 [A1 A2 A3] [B1 B2 B3].
  split; [congruence|by etrans|auto].
Qed.

Lemma extends_error c e : extends c (record_resolve_error c e).
Proof. split; [done|done|]. intros x Hx. cbn. by rewrite Hx. Qed.

Lemma compile_source_extends c spec src : extends c (compile_source_module compile c spec src).1.
Proof. unfold compile_source_module. destruct (compile spec src); cbn; [done|apply extends_error|done]. Qed.

Lemma compile_source_cache (c : ResolverContext (D := D)) spec src : module_cache (compile_source_module compile c spec src).1 = module_cache c.
Proof. unfold compile_source_module. by destruct (compile spec src). Qed.

Lemma build_host_extends (c : ResolverContext (D := D)) spec exports :
  let r := (build_host_module factory made materialise can_intern compile set_index c spec exports).1 in
  extends c r /\ module_cache r = module_cache c.
Proof.
  unfold build_host_module. destruct (invalid_export exports); [split; [apply extends_error|done]|].
  destruct factory; [|split; [apply extends_error|done]].
  destruct (build_exports _ _ _ _ _ _ _ _) as [[vs src]|[e|]]; [|split; [apply extends_error|done]|done].
  pose proof (compile_source_extends c spec src) as Hx. pose proof (compile_source_cache c spec src) as Hc.
  destruct (compile_source_module compile c spec src) as [c1 [m|]]; cbn in *; [|done].
  split; [|done]. by destruct Hx.
Qed.

Lemma resolve_extends (c : ResolverContext (D := D)) spec ref :
  extends c (resolve c spec ref).1 /\
  (forall m, (resolve c spec ref).2 = Some m -> module_cache (resolve c spec ref).1 !! spec = Some m).
Proof.
  unfold module_resolver_callback. destruct (module_cache c !! spec) as [m|] eqn:Hm; [split; [done|]; by intros m' [= <-]|].
  destruct (binding_for hooks_src c spec) as [b|]; [|split; [apply extends_error|done]].
  set (r := match ib_module b with Source _ => _ | Host _ => _ end).
  assert (Hr : extends c r.1 /\ module_cache r.1 = module_cache c).
  { unfold r. destruct (ib_module b) as [src|es]; [|apply build_host_extends].
    split; [apply compile_source_extends|apply compile_source_cache]. }
  destruct r as [c1 [m|]]; cbn in *; [|by split; [apply Hr|]]. destruct Hr as [[R1 R2 R3] Hc].
  split; [|by intros m' [= <-]; apply lookup_insert_eq]. split; cbn; [done| |done].
  rewrite Hc. by apply insert_subseteq.
Qed.

Lemma resolve_run_extends (c : ResolverContext (D := D)) requests : extends c (resolve_run c requests).
Proof.
  revert c. induction requests as [|[spec ref] requests IH]; intros c; cbn; [done|].
  etrans; [apply resolve_extends|apply IH].
Qed.

(** An import means the same module everywhere in a run: whatever was resolved
    before, once a specifier has resolved it resolves to that module ever after,
    without building anything again; it resolves only to a declared binding or,
    where none has its name, a built-in module; a specifier with neither records
    [ModuleNotFound], naming the importing module when it is an import itself;
    and the first error of an instantiation stays its error. *)
Theorem resolution_stable imports requests spec ref :
  let c := resolve_run (resolver_new imports) requests in
  let '(c', m) := resolve c spec ref in
  (forall e, resolve_error c = Some e -> resolve_error c' = Some e) /\
  (forall m', m = Some m' -> forall later ref', let d := resolve_run c' later in resolve d spec ref' = (d, Some m')) /\
  (binding_for hooks_src (resolver_new (D := D) imports) spec = None -> module_cache c !! spec = None ->
     m = None /\ (resolve_error c = None -> exists text, resolve_error c' = Some (ModuleNotFound text) /\
       forall importer, importer_of order c ref = Some importer ->
         text = "Cannot find module '" +:+ spec +:+ "' imported from '" +:+ importer +:+ "'")).
Proof.
  intros c. pose proof (resolve_extends c spec ref) as [Hx Hc]. destruct (resolve c spec ref) as [c' m] eqn:Hr. cbn in Hx, Hc.
  split; [apply Hx|]. split.
  - intros m' -> later ref'. cbn zeta. specialize (Hc m' eq_refl).
    pose proof (lookup_weaken _ _ _ _ Hc (ex_cache _ _ (resolve_run_extends c' later))) as Hl.
    unfold module_resolver_callback. by rewrite Hl.
  - intros Hb Hm. unfold module_resolver_callback in Hr. rewrite Hm in Hr.
    assert (Hb' : binding_for hooks_src c spec = None).
    { assert (Hbi : bindings c = imports) by apply (ex_bindings _ _ (resolve_run_extends (resolver_new imports) requests)).
      unfold binding_for, lookup_binding in *. by rewrite Hbi. }
    rewrite Hb' in Hr. injection Hr as <- <-. split; [done|]. intros He. cbn. rewrite He. cbn. eexists. split; [reflexivity|].
    by intros importer ->.
Qed.

(** C20. Calling a host-module function reaches the handler declared for it: in
    the module built for an import, every function leaf of the declared shape has
    a trampoline at its path, and the handle a trampoline passes makes the
    dispatcher, whose table every run rebuilds from the declared imports, send a
    call for exactly this specifier and path. *)
Theorem trampolines_reach_handlers (c : ResolverContext (D := D)) spec ref c' m exports :
  lookup_binding c spec = Some (mk_ImportBinding spec (Host exports)) -> module_cache c !! spec = None ->
  resolve c spec ref = (c', Some m) ->
  exists values, pending_meta c' = pending_meta c ++ [(m, values)] /\
    let ts := trampolines [] (ObjectValue (zip (map fst exports) values)) in
    map fst ts = map ih_path (walk spec [] (NodeObject exports)) /\
    forall path id x d site, (path, id) ∈ ts -> denotes x id -> cs_handle site = Some x -> cs_functions site <> [] ->
      cb_import_handles d = Some (collect_import_handles (bindings c)) ->
      call_target d site = Some (TargetImport spec path, spec +:+ "." +:+ String.concat "." path).
Proof.
  intros Hb Hm. unfold module_resolver_callback, binding_for. rewrite Hm, Hb. cbn [ib_module].
  unfold build_host_module. destruct (invalid_export exports); [done|]. destruct factory; [|done].
  destruct (build_exports _ _ _ _ _ _ _ _) as [[vs src]|[e|]] eqn:Hbuild; [|done|done].
  unfold compile_source_module. destruct (compile spec src) as [m0|data|]; [|done|done].
  intros [= <- <-]. exists vs. split; [done|].
  cbv zeta. rewrite (build_exports_ids _ _ _ _ _ _ _ _ _ _ Hbuild).
  pose proof (length_walk spec [] (NodeObject exports)) as Hlen. change (count_leaves (NodeObject exports)) with (count_function_leaves exports) in Hlen.
  split.
  { apply fst_zip. rewrite length_map, length_seqZ. lia. }
  intros path id x d site Hin (Hf & Hle & Hx) Hh Hargs Hd. unfold call_target. rewrite Hd, Hh. cbn [mbind option_bind].
  rewrite Hf, Hle, Hx. apply list_elem_of_lookup in Hin as [i Hi]. rewrite lookup_zip_with in Hi.
  destruct (map ih_path _ !! i) as [p|] eqn:Hp; [|done]. destruct (seqZ _ _ !! i) as [k|] eqn:Hk; [|done]. cbn in Hi. injection Hi as -> ->.
  rewrite list_lookup_fmap in Hp. destruct (walk spec [] (NodeObject exports) !! i) as [e|] eqn:He; [|done]. injection Hp as <-.
  apply lookup_seqZ in Hk as [-> Hi]. destruct (handles_of_binding _ _ _ _ _ Hb He) as [Hc Hbase].
  pose proof (lookup_lt_Some _ _ _ Hc) as Hlt. rewrite Hc. cbn.
  rewrite bool_decide_false by done. cbn.
  destruct (Z.ltb_spec (host_module_base_id (bindings c) spec + Z.of_nat i) (zlen (collect_import_handles (bindings c)))); [|lia].
  assert (He' : e = handle_entry spec (ih_path e)) by (by eapply walk_specifier, list_elem_of_lookup_2).
  rewrite He'. done.
Qed.
End Resolve.

(** ** The source of a host module *)

(** What the crate's tables say about ASCII. *)
Definition ascii_letter (c : Z) : bool := between 65 90 c || between 97 122 c.
Definition ascii_word (c : Z) : bool := ascii_letter c || between 48 57 c || (c =? 95) || (c =? 36).

Class UnicodeIdentOk `{UnicodeIdent} : Prop := {
  xid_start_ascii : forall c, 0 <= c < 128 -> is_xid_start c = ascii_letter c;
  xid_continue_ascii : forall c, 0 <= c < 128 -> is_xid_continue c = ascii_letter c || between 48 57 c || (c =? 95);
}.

Lemma id_not_xid_ascii c : 0 <= c < 128 -> id_not_xid c = false.
Proof.
  intros Hc. unfold id_not_xid, between. rewrite bool_decide_false by (set_unfold; lia). cbn.
  destruct (Z.leb_spec 0xFC5E c); [lia|done].
Qed.

Lemma identifier_ascii `{UnicodeIdentOk} c :
  0 <= c < 128 ->
  (starts_identifier c = true -> ascii_word c = true /\ between 48 57 c = false) /\
  (continues_identifier c = true -> ascii_word c = true).
Proof.
  intros Hc. unfold starts_identifier, continues_identifier, ascii_word.
  rewrite xid_start_ascii, xid_continue_ascii, id_not_xid_ascii, bool_decide_false by (try done; set_unfold; lia).
  unfold ascii_letter, between. destruct (Z.eqb_spec c 0x200C), (Z.eqb_spec c 0x200D); [lia..|].
  destruct (Z.eqb_spec c 95), (Z.eqb_spec c 36); cbn; rewrite ?orb_true_r, ?orb_false_r; split; try done; intros Hx;
    split_and?; try (subst; done); try rewrite Hx; try done; try (apply orb_prop in Hx as [Hx|Hx]); lia.
Qed.

Lemma build_exports_source {D} made materialise can_intern set_index spec i exports n (vs : list (HostValue D)) source :
  build_exports made materialise can_intern set_index spec i exports n = Ok (vs, source) ->
  source = foldr String.append EmptyString (imap (fun j e => export_line e.1 (i + j)) exports).
Proof.
  revert i n vs source. induction exports as [|[k node] es IH]; intros i n vs source; cbn -[export_line]; [by intros [= <- <-]|].
  destruct (build_host_value _ _ _ _ _ _) as [n1 [v|]]; [|done]. destruct (set_index i); [|done].
  intros ([vs' src] & Hvs & [= <- <-])%bind_ok. rewrite (IH _ _ _ _ Hvs), Nat.add_0_r. do 2 f_equal.
  apply imap_ext. intros j e _. cbn -[export_line]. f_equal. lia.
Qed.

Lemma invalid_export_spec `{UnicodeIdent} exports :
  match invalid_export exports with
  | None => Forall (fun e => is_valid_export_identifier e.1 = true) exports
  | Some name => exists e, e ∈ exports /\ e.1 = name /\ is_valid_export_identifier name = false
  end.
Proof.
  induction exports as [|e es IH]; cbn; [done|]. destruct (is_valid_export_identifier e.1) eqn:He; [|exists e; split; [left|done]].
  destruct (invalid_export es); [|by constructor]. destruct IH as (e' & Hin & Hx). exists e'. split; [by right|done].
Qed.

(** Shape data cannot become code: a host module is compiled only when every
    export name may be one, and then its source is one fixed statement for each
    export, in order, in which only the name and its index vary; a name other
    than [default] is not empty and not a reserved word, and its ASCII characters
    are letters, digits, underscores and dollars, the first not a digit, so it
    cannot end the statement it stands in.  A module with any other name fails
    with [Import] and leaves nothing compiled. *)
Theorem host_module_source_safe {D} `{UnicodeIdentOk} factory made materialise can_intern compile set_index (c : ResolverContext (D := D)) spec exports :
  let r := build_host_module factory made materialise can_intern compile set_index c spec exports in
  match invalid_export exports with
  | Some name => r.2 = None /\ pending_meta r.1 = pending_meta c /\ (resolve_error c = None -> exists text, resolve_error r.1 = Some (Import text))
  | None =>
    (forall vs source, build_exports made materialise can_intern (set_index spec) spec 0 exports (host_module_base_id (bindings c) spec) = Ok (vs, source) ->
       source = foldr String.append EmptyString (imap (fun j e => export_line e.1 j) exports)) /\
    (forall e, e ∈ exports -> e.1 <> "default"%string ->
       e.1 ∉ RESERVED_EXPORT_WORDS /\ exists first rest, chars_of (as_bytes e.1) = first :: rest /\
         (0 <= first < 128 -> between 48 57 first = false) /\
         forall ch, ch ∈ first :: rest -> 0 <= ch < 128 -> ascii_word ch = true)
  end.
Proof.
  cbv zeta. pose proof (invalid_export_spec exports) as Hv. unfold build_host_module. destruct (invalid_export exports) as [name|].
  - split; [done|]. split; [done|]. intros He. cbn. rewrite He. cbn. by eexists.
  - split; [intros vs source Hb; exact (build_exports_source _ _ _ _ _ _ _ _ _ _ Hb)|].
    intros e Hin Hne. rewrite Forall_forall in Hv. specialize (Hv e Hin). unfold is_valid_export_identifier in Hv.
    rewrite decide_False in Hv by done. destruct (chars_of (as_bytes e.1)) as [|first rest] eqn:Hc; [done|].
    apply andb_prop in Hv as [[Hs Hr]%andb_prop Hn%negb_true_iff%bool_decide_eq_false]. split; [done|].
    exists first, rest. split; [done|]. split; [intros Ha; by apply (proj1 (identifier_ascii first Ha))|].
    intros ch [->|Hch]%elem_of_cons Ha; [by apply (proj1 (identifier_ascii first Ha))|].
    apply (proj2 (identifier_ascii ch Ha)). rewrite forallb_forall in Hr. apply Hr. by apply list_elem_of_In.
Qed.

(** ** The evaluation of a prefix ends *)

Lemma settle_loop_spec state fuel k :
  let n := settle_loop state fuel k in
  (k <= n <= k + fuel)%nat /\ (forall j, (k <= j < n)%nat -> state j = EvalPending) /\
  (state n = EvalPending -> n = (k + fuel)%nat).
Proof.
  cbn. revert k. induction fuel as [|fuel IH]; intros k; cbn; [split; [lia|]; split; [lia|]; lia|].
  destruct (state k) eqn:Hk; [|split; [lia|]; split; [lia|]; by rewrite Hk..].
  destruct (IH (S k)) as (H1 & H2 & H3). split; [lia|]. split; [|intros ?%H3; lia].
  intros j Hj. destruct (decide (j = k)) as [->|]; [done|]. apply H2. lia.
Qed.

(** Evaluating a prefix ends after at most 1000 checkpoints: it stops at the
    first one after which its promise is settled, with the module if it is
    fulfilled, and it fails with [PrefixDidNotSettle] exactly when the promise is
    still pending after all of them, if nothing else failed before. *)
Theorem prefix_evaluation_ends {D} (resolve : ResolverContext (D := D) -> string -> Z -> _) env globals imports module :
  (evaluate_prefix_module resolve env globals imports = Ok module ->
     pe_compiled env = Ok module /\
     (pe_evaluation env = EvalValue \/
      exists k, (k <= PREFIX_SETTLE_MAX_CHECKPOINTS)%nat /\ pe_state env k = EvalFulfilled /\ forall j, (j < k)%nat -> pe_state env j = EvalPending)) /\
  (pe_evaluation env = EvalPromise true ->
     (exists k, (k <= PREFIX_SETTLE_MAX_CHECKPOINTS)%nat /\ (forall j, (j < k)%nat -> pe_state env j = EvalPending) /\
        match pe_state env k with
        | EvalFulfilled => settle_prefix (pe_state env) = Ok tt
        | EvalRejected t => settle_prefix (pe_state env) = Err (prefix_error t)
        | EvalPending => k = PREFIX_SETTLE_MAX_CHECKPOINTS /\ exists text, settle_prefix (pe_state env) = Err (PrefixDidNotSettle text)
        end)).
Proof.
  assert (Hset : exists k, (k <= PREFIX_SETTLE_MAX_CHECKPOINTS)%nat /\ (forall j, (j < k)%nat -> pe_state env j = EvalPending) /\
    match pe_state env k with
    | EvalFulfilled => settle_prefix (pe_state env) = Ok tt
    | EvalRejected t => settle_prefix (pe_state env) = Err (prefix_error t)
    | EvalPending => k = PREFIX_SETTLE_MAX_CHECKPOINTS /\ exists text, settle_prefix (pe_state env) = Err (PrefixDidNotSettle text)
    end).
  { unfold settle_prefix. destruct (settle_loop_spec (pe_state env) PREFIX_SETTLE_MAX_CHECKPOINTS 0) as (H1 & H2 & H3).
    exists (settle_loop (pe_state env) PREFIX_SETTLE_MAX_CHECKPOINTS 0). split; [lia|]. split; [intros j Hj; apply H2; lia|].
    destruct (pe_state env _) eqn:Hs; [|done|done]. split; [by apply H3|by eexists]. }
  split; [|done]. unfold evaluate_prefix_module.
  intros ([] & _ & (ts & _ & ([] & _ & ([] & _ & ([] & _ & (m & Hm & ([] & _ & He)%bind_ok)%bind_ok)%bind_ok)%bind_ok)%bind_ok)%bind_ok)%bind_ok.
  destruct (pe_evaluation env) as [x f| |[]]; try done.
  - injection He as <-. auto.
  - apply bind_ok in He as ([] & Hs & [= <-]). split; [done|]. right.
    destruct Hset as (k & Hk & Hj & Hst). exists k. split; [done|]. split; [|done].
    destruct (pe_state env k); [destruct Hst as [_ [text Hst]]; by rewrite Hs in Hst|done|by rewrite Hs in Hst].
Qed.

(** ** Witnesses: a module [db] with a function, a datum and a nested function *)

Definition demo_exports : list (string * HostModuleNode) :=
  [("query", NodeFunction); ("version", NodeData []); ("ns", NodeObject [("get", NodeFunction)])].
Definition demo_imports : list ImportBinding :=
  [mk_ImportBinding "first" (Host [("f", NodeFunction)]); mk_ImportBinding "db" (Host demo_exports)].

#[local] Instance ascii_only : UnicodeIdent := {
  is_xid_start := ascii_letter;
  is_xid_continue := fun c => ascii_letter c || between 48 57 c || (c =? 95);
}.
#[local] Instance ascii_only_ok : UnicodeIdentOk.
Proof. by split. Qed.

Definition demo_resolve := module_resolver_callback (D := unit) (Ok tt) (fun _ => true) (fun _ => Some tt) (fun _ => true)
  (fun spec _ => Module_ (Z.of_nat (String.length spec))) (fun _ _ => true) "" map_to_list.

Lemma trampolines_reach_handlers_witness :
  exists values, pending_meta (demo_resolve (resolver_new demo_imports) "db" 9).1 = [(2, values)] /\
    trampolines [] (ObjectValue (zip (map fst demo_exports) values)) = [(["query"%string], 1); (["ns"; "get"]%string, 2)] /\
    call_target (mk_GlobalCallbackData 7 BRIDGE_DISPATCH_GLOBAL BRIDGE_DISPATCH_GLOBAL (Some (collect_import_handles demo_imports)) 0 0)
      (mk_CallSite BRIDGE_DISPATCH_GLOBAL f64_zero [false] (Some (f64_of_Z 2)) true (Ok []) None) =
    Some (TargetImport "db" ["ns"; "get"]%string, "db.ns.get"%string).
Proof.
  destruct (trampolines_reach_handlers (D := unit) (Ok tt) (fun _ => true) (fun _ => Some tt) (fun _ => true)
    (fun spec _ => Module_ (Z.of_nat (String.length spec))) (fun _ _ => true) "" map_to_list (resolver_new demo_imports) "db" 9
    (demo_resolve (resolver_new demo_imports) "db" 9).1 2 demo_exports) as (values & Hp & _ & Ht);
    [reflexivity|reflexivity|vm_compute; reflexivity|].
  exists values. split; [exact Hp|]. vm_compute in Hp. injection Hp as <-. split; [vm_compute; reflexivity|].
  apply (Ht ["ns"; "get"]%string 2 (f64_of_Z 2)); [vm_compute; right; left|split; [|split]; vm_compute; reflexivity|reflexivity|discriminate|reflexivity].
Defined.

Lemma host_module_source_safe_witness :
  "query"%string ∉ RESERVED_EXPORT_WORDS /\
  (build_host_module (D := unit) (Ok tt) (fun _ => true) (fun _ => Some tt) (fun _ => true) (fun _ _ => NoString) (fun _ _ => true)
    (resolver_new []) "m" [("x; evil()"%string, NodeFunction)]).2 = None.
Proof.
  split.
  - destruct (host_module_source_safe (D := unit) (Ok tt) (fun _ => true) (fun _ => Some tt) (fun _ => true) (fun _ _ => NoString)
      (fun _ _ => true) (resolver_new []) "db" demo_exports) as [_ H].
    apply (H ("query"%string, NodeFunction)); [left|discriminate].
  - exact (proj1 (host_module_source_safe (D := unit) (Ok tt) (fun _ => true) (fun _ => Some tt) (fun _ => true) (fun _ _ => NoString)
      (fun _ _ => true) (resolver_new []) "m" [("x; evil()"%string, NodeFunction)])).
Defined.

(** A prefix with two chained top-level awaits. *)
Definition demo_prefix : PrefixEnv :=
  mk_PrefixEnv (fun _ => Ok tt) (fun _ => Ok tt) true true (Ok 4) [] true "" (EvalPromise true)
    (fun k => if (k <? 2)%nat then EvalPending else EvalFulfilled).

Lemma prefix_evaluation_ends_witness :
  evaluate_prefix_module demo_resolve demo_prefix [] [] = Ok 4 /\ pe_compiled demo_prefix = Ok 4.
Proof.
  assert (H : evaluate_prefix_module demo_resolve demo_prefix [] [] = Ok 4) by (vm_compute; reflexivity).
  split; [exact H|]. by apply (proj1 (prefix_evaluation_ends demo_resolve demo_prefix [] [] 4)).
Defined.


(** An import that the module [db] makes is not declared. *)
Lemma resolution_stable_witness :
  exists text, resolve_error (demo_resolve (demo_resolve (resolver_new demo_imports) "db" 9).1 "fs" 2).1 = Some (ModuleNotFound text) /\
    text = "Cannot find module 'fs' imported from 'db'"%string.
Proof.
  destruct (resolution_stable (D := unit) (Ok tt) (fun _ => true) (fun _ => Some tt) (fun _ => true)
    (fun spec _ => Module_ (Z.of_nat (String.length spec))) (fun _ _ => true) "" map_to_list demo_imports [("db"%string, 9)] "fs" 2)
    as (_ & _ & H). destruct H as [_ H]; [reflexivity|reflexivity|]. destruct H as (text & He & Hi); [reflexivity|].
  exists text. split; [exact He|]. apply (Hi "db"%string). vm_compute. reflexivity.
Defined.
