(* ===== verification/RunLoop.v ===== *)
(** * The turn loop of one run ([crates/core/src/v8/runloop.rs])

    A run is a sequence of turns: its start, a message of the host, a timer, a
    deadline.  The definitions are in a state monad over the run's loop state and
    its table entry; V8 is an argument ([V8]) whose guest code may change the
    entry arbitrarily, but not what only the loop owns.  The clocks are sequences
    of readings, and a guard may fire at any reading of the reason cell while a
    turn is armed. *)

From S2P Require Import Prelude Bytes Text F64 Types StreamPayloads Errors Wire Link Timers Guard RunState Bridge Modules.
From S2P Require Streams.
Import Streams.

(** ** Limits ([isolate::Limits]) *)

Record Limits := mk_Limits {
  l_wall_time_ms : Z;
  l_cpu_time_ms : Z;
  l_soft_memory_mb : Z;
  l_hard_memory_mb : Z;
  l_max_export_bytes : Z;
  l_max_stdout_bytes : Z;
  l_max_stderr_bytes : Z;
  l_max_bridge_call_bytes : Z;
  l_max_bridge_calls : Z;
  l_grace_ms : Z;
}.

Definition Limits_from (l : ResourceLimits) : Limits := {|
  l_wall_time_ms := wall_time_ms l;
  l_cpu_time_ms := cpu_time_ms l;
  l_soft_memory_mb := soft_memory_mb l;
  l_hard_memory_mb := hard_memory_mb l;
  l_max_export_bytes := max_export_bytes l;
  l_max_stdout_bytes := Types.max_stdout_bytes l;
  l_max_stderr_bytes := Types.max_stderr_bytes l;
  l_max_bridge_call_bytes := max_bridge_call_bytes l;
  l_max_bridge_calls := max_bridge_calls l;
  l_grace_ms := grace_ms l;
|}.

(** ** The state of a run *)

Record EpilogueSpec := mk_EpilogueSpec { es_run_id : Z; es_report_heap : bool }.

(** The read half of a run's I/O. *)
Inductive RunSource := SourceChannel | SourceInstance.

(** Durations and instants are in nanoseconds. *)
Record GraceState := mk_GraceState {
  gs_output : Output;
  grace_start : Z;
  wall_cap : option Z;
  gs_counted : Z;
  grace_status : option GraceStatus;
  grace_cpu : CpuBudget;
  grace_cpu_cap : Z;
  gs_error : option (string * string);
  early_result_sent : bool;
  run_record_count : nat;
}.

(** Promises, modules and values are named by numbers. *)
Inductive RunPhase :=
  | Starting
  | Settling (root : Z) (module : option Z) (call_pending root_is_call_result : bool)
  | Grace (g : GraceState).

Record RunState := mk_RunState {
  token : Z;
  limits : Limits;
  start : Z;
  epilogue : option EpilogueSpec;
  source : option RunSource;
  has_link : bool;
  cpu_budget : CpuBudget;
  phase : RunPhase;
  counted : Z;
  parked_at : Z;
  turn_entered : option Z;
}.

Definition in_grace (rs : RunState) : bool := match phase rs with Grace _ => true | _ => false end.

Definition with_phase (rs : RunState) (p : RunPhase) : RunState :=
  mk_RunState (token rs) (limits rs) (start rs) (epilogue rs) (source rs) (has_link rs) (cpu_budget rs) p (counted rs)
    (parked_at rs) (turn_entered rs).
Definition with_cpu_budget (rs : RunState) (b : CpuBudget) : RunState :=
  mk_RunState (token rs) (limits rs) (start rs) (epilogue rs) (source rs) (has_link rs) b (phase rs) (counted rs)
    (parked_at rs) (turn_entered rs).
Definition with_clock (rs : RunState) (counted parked_at : Z) (turn_entered : option Z) : RunState :=
  mk_RunState (token rs) (limits rs) (start rs) (epilogue rs) (source rs) (has_link rs) (cpu_budget rs) (phase rs) counted
    parked_at turn_entered.

Definition with_gs_counted (g : GraceState) (n : Z) : GraceState :=
  mk_GraceState (gs_output g) (grace_start g) (wall_cap g) n (grace_status g) (grace_cpu g) (grace_cpu_cap g) (gs_error g)
    (early_result_sent g) (run_record_count g).
Definition with_grace_status (g : GraceState) (st : option GraceStatus) : GraceState :=
  mk_GraceState (gs_output g) (grace_start g) (wall_cap g) (gs_counted g) st (grace_cpu g) (grace_cpu_cap g) (gs_error g)
    (early_result_sent g) (run_record_count g).
Definition with_grace_cpu (g : GraceState) (b : CpuBudget) : GraceState :=
  mk_GraceState (gs_output g) (grace_start g) (wall_cap g) (gs_counted g) (grace_status g) b (grace_cpu_cap g) (gs_error g)
    (early_result_sent g) (run_record_count g).
Definition with_gs_error (g : GraceState) (e : option (string * string)) : GraceState :=
  mk_GraceState (gs_output g) (grace_start g) (wall_cap g) (gs_counted g) (grace_status g) (grace_cpu g) (grace_cpu_cap g) e
    (early_result_sent g) (run_record_count g).

(** ** Counted time *)

(** Add to the counter of the current phase. *)
Definition count (rs : RunState) (d : Z) : RunState :=
  match phase rs with
  | Grace g => with_phase rs (Grace (with_gs_counted g (gs_counted g + d)))
  | _ => with_clock rs (counted rs + d) (parked_at rs) (turn_entered rs)
  end.

(** [enter_turn] and [leave_turn], with the reading of the clock they take. *)
Definition enter_turn (rs : RunState) (woke_at now : Z) : RunState :=
  let rs := count rs (sat_sub woke_at (parked_at rs)) in
  with_clock rs (counted rs) (parked_at rs) (Some now).

Definition leave_turn (rs : RunState) (elapsed_at now : Z) : RunState :=
  let rs := match turn_entered rs with
    | Some t => let rs := count rs (sat_sub elapsed_at t) in with_clock rs (counted rs) (parked_at rs) None
    | None => rs
    end in
  with_clock rs (counted rs) now (turn_entered rs).

Definition live_segment (rs : RunState) (now : Z) : Z :=
  match turn_entered rs with Some t => sat_sub now t | None => sat_sub now (parked_at rs) end.

(** [Duration::as_secs_f64], then milliseconds to three decimal places. *)
Definition dur_ms (d : Z) : f64 :=
  let secs := f64_add (f64_of_Z (d / 1000000000)) (f64_div (f64_of_Z (d mod 1000000000)) (f64_of_Z 1000000000)) in
  f64_div (f64_round (f64_mul secs (f64_of_Z 1000000))) (f64_of_Z 1000).

Definition counted_wall_ms (rs : RunState) (now : Z) : f64 :=
  match phase rs with
  | Grace _ => dur_ms (counted rs)
  | _ => dur_ms (counted rs + live_segment rs now)
  end.

(** [CpuBudget::elapsed_ms_precise] *)
Definition elapsed_ms_precise (b : CpuBudget) (read_ns : Z) : f64 :=
  f64_div (f64_round (f64_div (f64_of_Z (elapsed_ns b read_ns)) (f64_of_Z 1000))) (f64_of_Z 1000).

(** ** Deadlines *)

Definition grace_wall_instant (rs : RunState) : option Z :=
  match phase rs with
  | Grace g =>
    match grace_status g with
    | None => (fun cap => parked_at rs + sat_sub cap (gs_counted g)) <$> wall_cap g
    | Some _ => None
    end
  | _ => None
  end.

Definition grace_wall_due (rs : RunState) (now : Z) : bool :=
  match grace_wall_instant rs with Some d => d <=? now | None => false end.

(** [min] of two optional instants, an absent one ignored. *)
Definition sooner (a b : option Z) : option Z :=
  match a, b with Some a, Some b => Some (Z.min a b) | Some a, None => Some a | None, b => b end.

Definition deadline_instant (rs : RunState) (out : option Outb.OutTableState) : option Z :=
  match phase rs with
  | Grace _ => sooner (grace_wall_instant rs) (Outb.out_idle_deadline out)
  | _ => if 0 <? l_wall_time_ms (limits rs)
         then Some (parked_at rs + sat_sub (from_millis (l_wall_time_ms (limits rs))) (counted rs)) else None
  end.

(** The target a turn is armed with; budgets are identified by their phase. *)
Definition RUN_BUDGET : Z := 0.
Definition GRACE_BUDGET : Z := 1.

Definition turn_target (rs : RunState) (now : Z) : GuardTarget :=
  match phase rs with
  | Grace g => mk_GuardTarget GRACE_BUDGET (grace_cpu_cap g) None
  | _ => mk_GuardTarget RUN_BUDGET (l_cpu_time_ms (limits rs))
      (if 0 <? l_wall_time_ms (limits rs)
       then Some (now + sat_sub (from_millis (l_wall_time_ms (limits rs))) (counted rs)) else None)
  end.

(** ** Text caps *)

Definition truncate_at (n : nat) (s : string) : string := of_bytes (take (floor_char_boundary (as_bytes s) n) (as_bytes s)).

Definition capped_grace_error (name message : string) : string * string :=
  (truncate_at (Nat.min 256 (length (as_bytes name))) name,
   if 2048 <? zlen (as_bytes message) then truncate_at 2048 message +:+ "… [truncated]" else message).

(** ** The table entry and the monad *)

(** A call of [setTimeout] or [clearTimeout], its arguments as the natives read
    them. *)
Inductive TimerCall :=
  | SetTimeout (f : option Z) (delay : option f64) (extra : list Z) (c : Clocks)
  | ClearTimeout (arg : option f64).

(** What guest code, native callbacks and the watchdog share with the loop.
    [armed]: the guard's target with its token; [clock_reads]: how often a clock
    or the reason cell was read; [ran]: for each stretch of guest code, newest
    first, what was armed; [timers_touched]: the runs whose timers guest code
    changed ([TIMERS_TOUCHED]); [foreign]: the timer calls guest code made in this
    run's turn that are attributed to another run - a continuation of that run, say
    -, oldest first. *)
Record World (S : Type) := mk_World {
  bridge : BridgeState S;
  stubs : gmap string GlobalCallbackData;
  logs : LogBuffers;
  waiting : option (list Z);
  in_streams : option Inb.StreamTableState;
  out_streams : option Outb.OutTableState;
  timers : @TimerTable Z Z;
  armed : option (Z * GuardTarget);
  current_token : Z;
  clock_reads : nat;
  ran : list (option (Z * GuardTarget));
  timers_touched : list Z;
  foreign : list (Z * TimerCall);
}.
Arguments mk_World {S}. Arguments bridge {S}. Arguments stubs {S}. Arguments logs {S}. Arguments waiting {S}.
Arguments in_streams {S}. Arguments out_streams {S}. Arguments timers {S}. Arguments armed {S}.
Arguments current_token {S}. Arguments clock_reads {S}. Arguments ran {S}. Arguments timers_touched {S}. Arguments foreign {S}.

Section WorldUpdates.
Context {S : Type}.
Implicit Types w : World S.
Definition with_bridge w (b : BridgeState S) : World S :=
  mk_World b (stubs w) (logs w) (waiting w) (in_streams w) (out_streams w) (timers w) (armed w) (current_token w) (clock_reads w) (ran w) (timers_touched w) (foreign w).
Definition with_stubs w m : World S :=
  mk_World (bridge w) m (logs w) (waiting w) (in_streams w) (out_streams w) (timers w) (armed w) (current_token w) (clock_reads w) (ran w) (timers_touched w) (foreign w).
Definition with_logs w l : World S :=
  mk_World (bridge w) (stubs w) l (waiting w) (in_streams w) (out_streams w) (timers w) (armed w) (current_token w) (clock_reads w) (ran w) (timers_touched w) (foreign w).
Definition with_waiting w l : World S :=
  mk_World (bridge w) (stubs w) (logs w) l (in_streams w) (out_streams w) (timers w) (armed w) (current_token w) (clock_reads w) (ran w) (timers_touched w) (foreign w).
Definition with_in_streams w st : World S :=
  mk_World (bridge w) (stubs w) (logs w) (waiting w) st (out_streams w) (timers w) (armed w) (current_token w) (clock_reads w) (ran w) (timers_touched w) (foreign w).
Definition with_out_streams w st : World S :=
  mk_World (bridge w) (stubs w) (logs w) (waiting w) (in_streams w) st (timers w) (armed w) (current_token w) (clock_reads w) (ran w) (timers_touched w) (foreign w).
Definition with_timers w t : World S :=
  mk_World (bridge w) (stubs w) (logs w) (waiting w) (in_streams w) (out_streams w) t (armed w) (current_token w) (clock_reads w) (ran w) (timers_touched w) (foreign w).
Definition with_armed w a : World S :=
  mk_World (bridge w) (stubs w) (logs w) (waiting w) (in_streams w) (out_streams w) (timers w) a (current_token w) (clock_reads w) (ran w) (timers_touched w) (foreign w).
Definition with_current w t : World S :=
  mk_World (bridge w) (stubs w) (logs w) (waiting w) (in_streams w) (out_streams w) (timers w) (armed w) t (clock_reads w) (ran w) (timers_touched w) (foreign w).
Definition tick w : World S :=
  mk_World (bridge w) (stubs w) (logs w) (waiting w) (in_streams w) (out_streams w) (timers w) (armed w) (current_token w)
    (1 + clock_reads w) (ran w) (timers_touched w) (foreign w).
Definition with_touched w l : World S :=
  mk_World (bridge w) (stubs w) (logs w) (waiting w) (in_streams w) (out_streams w) (timers w) (armed w) (current_token w) (clock_reads w)
    (ran w) l (foreign w).
Definition with_foreign w l : World S :=
  mk_World (bridge w) (stubs w) (logs w) (waiting w) (in_streams w) (out_streams w) (timers w) (armed w) (current_token w) (clock_reads w)
    (ran w) (timers_touched w) l.

(** A stretch of guest code: it may change what its natives reach; what is armed
    and whose turn it is are the loop's, and [result_mode] is whether it may
    register outbound streams. *)
Definition guest_ran (result_mode : bool) w w' : World S :=
  mk_World (bridge w') (stubs w) (logs w') (waiting w') (in_streams w') (if result_mode then out_streams w' else out_streams w)
    (timers w') (armed w) (current_token w) (Nat.max (clock_reads w) (clock_reads w')) (armed w :: ran w)
    (timers_touched w') (foreign w').
End WorldUpdates.

(** *** V8 and guest code *)

Inductive PromiseStatus := StatusPending | StatusFulfilled (value : Z) | StatusRejected (rejection : Z).

Inductive CallResult := CallThrew (exception : option Z) | CallReturned (value : Z) | CallPromise (promise : option Z).

(** One name of a module namespace: whether it could be read, as text, its value,
    what the value is, and whether the steps of staging it succeed. *)
Record ExportEntry := mk_ExportEntry {
  ee_readable : bool;
  ee_name : option string;
  ee_value : option Z;
  ee_function : bool;
  ee_promise : bool;
  ee_is_key : bool;
  ee_staged : bool;
  ee_interned : bool;
  ee_restaged : bool;
}.

(** Operations that can run guest code give the state it leaves. *)
Record V8 (S : Type) := mk_V8 {
  checkpoint : World S -> World S;
  promise_status : World S -> Z -> PromiseStatus;
  (** [runtime_error_from_value], [host_bridge_error_from_rejection] and the error
      name and message of a value *)
  runtime_error_from_value : Z -> World S -> World S * RunError;
  host_bridge_error_from_rejection : Z -> World S -> World S * option RunError;
  error_text : Z -> World S -> World S * (option string * option string);
  (** the pending exception as a run error *)
  exception_error : World S -> World S * RunError;
  (** a blob as a value, rehydrated; the codec's error otherwise *)
  deserialize : list byte -> World S -> World S * result (option CodecError) Z;
  (** a value as a blob; the codec's error and the message otherwise *)
  serialize : Z -> World S -> World S * result (option CodecError * string) (list byte);
  (** the parts of a requested call *)
  namespace_of : World S -> Z -> option Z;
  objects : World S -> Objects;
  resolving_ran : string -> World S -> World S;
  call_arguments : World S -> Z -> result string unit;
  call_function : Z -> Z -> World S -> World S * CallResult;
  (** a timer's callback: [None] when it threw, with the exception *)
  call_timer : TimerEntry (F := Z) (V := Z) -> World S -> World S * option (option Z);
  (** the exports of a module's namespace, and a fresh object of some of them as a blob *)
  export_entries : World S -> Z -> option (list ExportEntry);
  serialize_object : list (string * Z) -> World S -> World S * result (option CodecError * string) (list byte);
  (** the module of a one-off run: compiled, linked, evaluated *)
  compile_module : World S -> World S * result RunError Z;
  instantiate_module : Z -> World S -> World S * result RunError unit;
  evaluate_module : Z -> World S -> World S * option (option Z);
  (** installation of one stub's function and of the value globals *)
  define_stub : World S -> string -> result RunError unit;
  value_globals : list HostGlobalDef -> World S -> World S * result RunError unit;
  (** outbound bodies: pulls of a drive, cleanups of cancelled ones *)
  pulls : World S -> Outb.Guest;
  pulls_ran : World S -> World S;
  cancel_killed : World S -> Z -> bool;
  cleanup_ran : World S -> World S;
  chunk_made : World S -> bool;
  heap_used : World S -> Z;
}.
Arguments checkpoint {S}. Arguments promise_status {S}. Arguments runtime_error_from_value {S}.
Arguments host_bridge_error_from_rejection {S}. Arguments error_text {S}. Arguments exception_error {S}. Arguments deserialize {S}.
Arguments serialize {S}. Arguments namespace_of {S}. Arguments objects {S}. Arguments resolving_ran {S}. Arguments call_arguments {S}.
Arguments call_function {S}. Arguments call_timer {S}. Arguments export_entries {S}. Arguments serialize_object {S}. Arguments compile_module {S}.
Arguments instantiate_module {S}. Arguments evaluate_module {S}. Arguments define_stub {S}. Arguments value_globals {S}.
Arguments pulls {S}. Arguments pulls_ran {S}. Arguments cancel_killed {S}. Arguments cleanup_ran {S}. Arguments chunk_made {S}.
Arguments heap_used {S}.

Record St (S : Type) := mk_St { rs : RunState; w : World S }.
Arguments mk_St {S}. Arguments rs {S}. Arguments w {S}.

Definition M (S A : Type) : Type := St S -> St S * A.
#[export] Instance M_ret S : MRet (M S) := fun A a s => (s, a).
#[export] Instance M_bind S : MBind (M S) := fun A B f m s => let '(s, a) := m s in f a s.

(** What a scan decided about one run. *)
Inductive ScanOutcome := Continue | Finished (r : result FailureOutput Output).

(** The facts of a run its turns need beside its state. *)
Record RunFacts := mk_RunFacts { rf_call : option CallSpec }.

Section Turns.
Context {S : Type} `{HostLink S} `{CallOrder} `{DebugError}.
Context (v : V8 S) (clock thread_clock : nat -> Z) (interrupt : nat -> option TerminationReason).
Context (order : gmap Z Outb.OutStream -> list (Z * Outb.OutStream)).

(** *** Reading and writing *)

Definition get_rs : M S RunState := fun s => (s, rs s).
Definition get_w : M S (World S) := fun s => (s, w s).
Definition set_rs (f : RunState -> RunState) : M S unit := fun s => (mk_St (f (rs s)) (w s), tt).
Definition set_w (f : World S -> World S) : M S unit := fun s => (mk_St (rs s) (f (w s)), tt).

(** [Instant::now] *)
Definition read_clock : M S Z := fun s => (mk_St (rs s) (tick (w s)), clock (clock_reads (w s))).
Definition read_thread_clock : M S Z := fun s => (mk_St (rs s) (tick (w s)), thread_clock (clock_reads (w s))).

(** A guard, or a hard abort, may fire up to the moment of the reading, if a turn
    is armed. *)
Definition interrupted (w : World S) : World S :=
  let fires := match armed w with Some _ => interrupt (clock_reads w) | None => None end in
  tick (match fires with Some r => with_bridge w (guard_fires (bridge w) r) | None => w end).

Definition reason_get : M S (option TerminationReason) :=
  fun s => let w' := interrupted (w s) in (mk_St (rs s) w', reason (why (bridge w'))).
Definition is_execution_terminating : M S bool :=
  fun s => let w' := interrupted (w s) in (mk_St (rs s) w', terminating (bridge w')).

Definition with_cell (b : BridgeState S) (c : ReasonCell) (t : bool) : BridgeState S :=
  mk_BridgeState (bridge_call_count b) (call_id b) (bridge_error b) c t (resolvers b) (log b) (link b).
Definition cancel_terminate_execution : M S unit :=
  set_w (fun w => with_bridge w (with_cell (bridge w) (why (bridge w)) false)).
Definition reset_reason : M S unit :=
  set_w (fun w => with_bridge w (with_cell (bridge w) (reason_reset (why (bridge w))) (terminating (bridge w)))).

(** Run guest code. *)
Definition guest_in {A} (result_mode : bool) (f : World S -> World S * A) : M S A :=
  fun s => let '(w', a) := f (w s) in (mk_St (rs s) (guest_ran result_mode (w s) w'), a).
Definition guest {A} (f : World S -> World S * A) : M S A := guest_in false f.
Definition perform_microtask_checkpoint : M S unit := guest (fun w => (checkpoint v w, tt)).

Definition bridge_error_get : M S (option RunError) := w ← get_w; mret (bridge_error (bridge w)).

Definition send (run_id : Z) (msg : Outbound) : M S (result LinkError unit) :=
  fun s => let '(l, r) := link_send (link (bridge (w s))) run_id msg in
    (mk_St (rs s) (with_bridge (w s) (with_link (bridge (w s)) l)), r).

(** *** Failures *)

Definition elapsed_since (t : Z) : M S f64 := now ← read_clock; mret (dur_ms (sat_sub now t)).

(** [RunState::fail] *)
Definition fail_run (error : RunError) : M S FailureOutput :=
  r ← get_rs; t ← elapsed_since (start r); w ← get_w;
  mret (failure error (lb_stdout (logs w)) (lb_stderr (logs w)) t).

Definition finished_err (error : RunError) : M S ScanOutcome := f ← fail_run error; mret (Finished (Err f)).
(** [finished(Err(rs.fail(termination_or(reason, error))))] *)
Definition finished_or (error : RunError) : M S ScanOutcome := r ← reason_get; finished_err (termination_or r error).

(** *** Turn brackets *)

(** [TurnGuard]: armed on entry, cleared on exit. *)
Definition guard_begin : M S unit :=
  r ← get_rs;
  now ← match phase r with
    | Grace _ => mret 0
    | _ => if 0 <? l_wall_time_ms (limits r) then read_clock else mret 0
    end;
  set_w (fun w => with_armed w (Some (token r, turn_target r now))).
Definition guard_end : M S unit := set_w (fun w => with_armed w None).
Definition with_turn {A} (m : M S A) : M S A := guard_begin;; a ← m; guard_end;; mret a.

(** Enter and leave the budget of the run or of grace. *)
Definition on_budget (grace : bool) (f : CpuBudget -> CpuBudget) : M S unit :=
  set_rs (fun r =>
    if grace then match phase r with Grace g => with_phase r (Grace (with_grace_cpu g (f (grace_cpu g)))) | _ => r end
    else with_cpu_budget r (f (cpu_budget r))).
Definition enter_budget (grace : bool) : M S unit := t ← read_thread_clock; on_budget grace (fun b => budget_enter b t).
Definition leave_budget (grace : bool) : M S unit := t ← read_thread_clock; on_budget grace (fun b => budget_leave b t).
(** [BudgetEpoch] on the active budget. *)
Definition with_epoch {A} (m : M S A) : M S A :=
  r ← get_rs; let g := in_grace r in enter_budget g;; a ← m; leave_budget g;; mret a.

(** What every turn starts with: whose turn it is. *)
Definition turn_prelude : M S unit := r ← get_rs; set_w (fun w => with_current w (token r)).

Definition enter (woke_at : Z) : M S unit := now ← read_clock; set_rs (fun r => enter_turn r woke_at now).
Definition leave : M S unit := e ← read_clock; now ← read_clock; set_rs (fun r => leave_turn r e now).

(** *** Timers and deadlines *)

Definition earliest_timer : M S (option Z) :=
  fun s => let '(t, d) := peek_deadline (timers (w s)) in (mk_St (rs s) (with_timers (w s) t), d).
Definition deadline_instant_m : M S (option Z) := r ← get_rs; w ← get_w; mret (deadline_instant r (out_streams w)).
Definition next_deadline : M S (option Z) := b ← deadline_instant_m; t ← earliest_timer; mret (sooner b t).

(** [RunState::next_timeout] *)
Definition next_timeout : M S (option Z) :=
  now ← read_clock;
  b ← deadline_instant_m;
  t ← earliest_timer;
  let wait at_ := Z.max (sat_sub at_ now) (from_millis 1) in
  mret (sooner (wait <$> b) (wait <$> t)).

Definition streams_open : M S bool := w ← get_w; mret (Outb.out_streams_open (out_streams w)).

(** *** The end of the post-result phase *)

Definition grace_state : M S (option GraceState) := r ← get_rs; mret (match phase r with Grace g => Some g | _ => None end).
Definition set_grace (f : GraceState -> GraceState) : M S unit :=
  set_rs (fun r => match phase r with Grace g => with_phase r (Grace (f g)) | _ => r end).

Definition empty_output : Output := mk_Output [] [] [] [] f64_zero f64_zero f64_zero None [].

(** The records so far; the source would panic where [snapshot] is [None]. *)
Definition record_snapshot (now_ms : f64) : M S (list BridgeCallRecord) :=
  w ← get_w; mret (default [] (snapshot (log (bridge w)) now_ms)).

Definition taken_lines (l : LogBuffers) : LogBuffers :=
  mk_LogBuffers [] [] (stdout_bytes l) (stderr_bytes l) (RunState.max_stdout_bytes l) (RunState.max_stderr_bytes l).

(** [finish_grace]; outside grace the source is unreachable. *)
Definition finish_grace (status : GraceStatus) : M S Output :=
  now ← read_clock;
  r ← get_rs;
  match phase r with
  | Grace g =>
    let grace_live := live_segment r now in
    t ← elapsed_since (start r);
    all ← record_snapshot t;
    w ← get_w;
    set_w (fun w => with_logs w (taken_lines (logs w)));;
    d ← elapsed_since (grace_start g);
    cpu ← read_thread_clock;
    set_grace (fun g => mk_GraceState empty_output (grace_start g) (wall_cap g) (gs_counted g) (grace_status g) (grace_cpu g)
      (grace_cpu_cap g) None (early_result_sent g) (run_record_count g));;
    let o := gs_output g in
    mret (mk_Output (o_exports o) (o_skipped_exports o) (o_stdout o) (o_stderr o) (o_duration_ms o) (o_wall_time_ms o) (o_cpu_time_ms o)
      (Some (mk_GraceReport status d (dur_ms (gs_counted g + grace_live)) (elapsed_ms_precise (grace_cpu g) cpu)
        (lb_stdout (logs w)) (lb_stderr (logs w)) (drop (run_record_count g) all) (gs_error g) (early_result_sent g)))
      (o_bridge_calls o))
  | _ => mret empty_output
  end.

Definition close_streams (message : string) : M S unit :=
  set_w (fun w => let '(st, l) := Outb.close_out_streams order (out_streams w) (link (bridge w)) message in
    with_out_streams (with_bridge w (with_link (bridge w) l)) st).

Definition finish_post_phase : M S Output :=
  close_streams "run ended";;
  g ← grace_state;
  finish_grace (default Truncated (g ≫= grace_status)).

Definition note_grace_error (name message : string) : M S unit :=
  set_grace (fun g => match gs_error g with
    | None => with_gs_error g (Some (capped_grace_error name message)) | Some _ => g end).

Definition finish_killed_grace : M S Output :=
  r ← reason_get;
  match r with Some (ReasonImport message) => note_grace_error "Error" message | _ => mret tt end;;
  finish_post_phase.

Definition finished_ok (m : M S Output) : M S ScanOutcome := o ← m; mret (Finished (Ok o)).

(** *** The post-result phase *)

(** [drive_out_streams]: the pulls' guest code, then what the pass does with what
    they yielded. *)
Definition drive : M S unit :=
  guest (fun w => (pulls_ran v w, tt));;
  set_w (fun w => let '(st, l) := Outb.drive_out_streams order (pulls v w) (out_streams w) (link (bridge w)) in
    with_out_streams (with_bridge w (with_link (bridge w) l)) st).

(** The promises still pending, and the first rejection. *)
Fixpoint settle_waiting (ps : list Z) (still : list Z) (first_error : option (string * string)) :
    M S (list Z * option (string * string)) :=
  match ps with
  | [] => mret (still, first_error)
  | p :: ps =>
    w ← get_w;
    match promise_status v w p with
    | StatusPending => settle_waiting ps (still ++ [p]) first_error
    | StatusFulfilled _ => settle_waiting ps still first_error
    | StatusRejected x =>
      match first_error with
      | Some _ => settle_waiting ps still first_error
      | None =>
        '(name, message) ← guest (error_text v x);
        settle_waiting ps still (Some (capped_grace_error (default "Error"%string name)
          (default "background work failed"%string message)))
      end
    end
  end.

(** The decision about the background work: [None]: it is killed. *)
Definition decide_waiting : M S (option unit) :=
  w ← get_w;
  set_w (fun w => with_waiting w None);;
  '(still, first_error) ← settle_waiting (default [] (waiting w)) [] None;
  set_w (fun w => with_waiting w (Some still));;
  r ← reason_get;
  match r with
  | Some _ => mret None
  | None =>
    set_grace (fun g => match gs_error g with None => with_gs_error g first_error | Some _ => g end);;
    (match still with
     | [] => set_grace (fun g => with_grace_status g (Some (match gs_error g with Some _ => Failed | None => Settled end)))
     | _ =>
       now ← read_clock; r ← get_rs;
       set_grace (fun g =>
         if from_millis (l_grace_ms (limits r)) <=? sat_sub now (grace_start g) then with_grace_status g (Some Truncated) else g)
     end);;
    mret (Some tt)
  end.

Definition grace_undecided (r : RunState) : bool :=
  match phase r with Grace g => match grace_status g with None => true | Some _ => false end | _ => false end.
Definition grace_decided (r : RunState) : bool :=
  match phase r with Grace g => match grace_status g with None => false | Some _ => true end | _ => false end.

Definition grace_scan : M S ScanOutcome :=
  perform_microtask_checkpoint;;
  r1 ← reason_get;
  if bool_decide (is_Some r1) then finished_ok finish_killed_grace
  else
    drive;;
    r2 ← reason_get;
    if bool_decide (is_Some r2) then finished_ok finish_killed_grace
    else
      r ← get_rs;
      alive ← (if grace_undecided r then decide_waiting else mret (Some tt));
      match alive with
      | None => finished_ok finish_killed_grace
      | Some _ =>
        r ← get_rs;
        o ← streams_open;
        if grace_decided r && negb o then finished_ok finish_post_phase
        else
          r ← get_rs;
          t ← (match source r with None => earliest_timer | Some _ => mret (Some 0) end);
          match source r, t with
          | None, None =>
            set_grace (fun g => match grace_status g with None => with_grace_status g (Some Truncated) | Some _ => g end);;
            finished_ok finish_post_phase
          | _, _ => mret Continue
          end
      end.

(** [conclude_grace_wall] *)
Definition conclude_grace_wall : M S (option Output) :=
  set_grace (fun g => with_grace_status g (Some Truncated));;
  o ← streams_open;
  if (o : bool) then mret None else x ← finish_post_phase; mret (Some x).

(** *** The settled value *)

Definition has_waiting (w : World S) : bool := match waiting w with Some (_ :: _) => true | _ => false end.

Definition background_flags (has_grace has_streams : bool) : Z :=
  Z.lor (if has_grace then 1 else 0) (Z.shiftl (if has_streams then 1 else 0) 1).

(** The early result, when the run can send one: whether it was sent. *)
Definition send_early_result (output : Output) (run_cpu_ms : f64) (run_records : list BridgeCallRecord)
    (has_grace has_streams : bool) : M S bool :=
  r ← get_rs; w ← get_w;
  match epilogue r with
  | Some spec =>
    if has_link r then
      sent ← send (es_run_id spec) (OResult (Types.Success (mk_RunSuccessPayload (o_exports output) (o_skipped_exports output)
        (o_stdout output) (o_stderr output) (o_duration_ms output) (o_wall_time_ms output) run_cpu_ms run_records
        (if es_report_heap spec then Some (heap_used v w) else None) (background_flags has_grace has_streams))));
      mret (is_ok sent)
    else mret false
  | None => mret false
  end.

(** The last part of [build_output_and_maybe_grace]: from the run phase's
    telemetry to the first grace scan. *)
Definition start_grace (output : Output) (has_grace has_streams : bool) : M S ScanOutcome :=
  e ← read_clock;
  set_rs (fun r => match turn_entered r with Some t => with_clock r (counted r + sat_sub e t) (parked_at r) None | None => r end);;
  now ← read_clock;
  set_rs (fun r => with_clock r (counted r) (parked_at r) (Some now));;
  r ← get_rs;
  let output := mk_Output (o_exports output) (o_skipped_exports output) (o_stdout output) (o_stderr output) (o_duration_ms output)
    (dur_ms (counted r)) (o_cpu_time_ms output) (o_background output) (o_bridge_calls output) in
  cpu ← read_thread_clock;
  let run_cpu_ms := elapsed_ms_precise (cpu_budget r) cpu in
  now_ms ← elapsed_since (start r);
  run_records ← record_snapshot now_ms;
  set_w (fun w => with_logs w (taken_lines (logs w)));;
  early ← send_early_result output run_cpu_ms run_records has_grace has_streams;
  began ← read_clock;
  set_rs (fun r => with_phase r (Grace (mk_GraceState output began
    (if has_grace then Some (from_millis (l_grace_ms (limits r))) else None) 0 (if has_grace then None else Some Settled) budget_new
    (if 0 <? l_cpu_time_ms (limits r) then l_cpu_time_ms (limits r) else l_grace_ms (limits r)) None early (length run_records))));;
  with_turn (with_epoch grace_scan).

Definition build_output_and_maybe_grace (exports : list byte) (skipped_exports : list string) : M S ScanOutcome :=
  killed ← reason_get;
  if bool_decide (is_Some killed) then finished_or (Internal "terminated during result serialization")
  else
    be ← bridge_error_get;
    match be with
    | Some err => finished_err (owned_bridge_error err)
    | None =>
      r ← get_rs;
      if (0 <? l_max_export_bytes (limits r)) && (l_max_export_bytes (limits r) <? zlen exports) then finished_err ExportTooLarge
      else
        why ← reason_get;
        terminating ← (match why with None => is_execution_terminating | Some _ => mret false end);
        if (terminating : bool) then cancel_terminate_execution;; finished_err Aborted
        else
          w ← get_w;
          d ← elapsed_since (start r);
          let output := mk_Output exports skipped_exports (lb_stdout (logs w)) (lb_stderr (logs w)) d f64_zero f64_zero None [] in
          let has_grace := has_waiting w && (0 <? l_grace_ms (limits r)) in
          has_streams ← streams_open;
          if negb has_grace && negb has_streams then mret (Finished (Ok output))
          else
            leave_budget false;;
            guard_end;;
            why ← reason_get;
            bare ← (match why with None => is_execution_terminating | Some _ => mret false end);
            cancel_terminate_execution;;
            if (bare : bool) then finished_err Aborted
            else
              why ← reason_get;
              match why with
              | Some reason =>
                reset_reason;;
                (match reason with ReasonAbort => finished_err Aborted | _ => mret (Finished (Ok output)) end)
              | None => start_grace output has_grace has_streams
              end
    end.

(** *** Results and exports *)

(** [serialize_call_result]: the failure is already built. *)
Definition serialize_call_result (facts : RunFacts) (value : Z) : M S (result FailureOutput (list byte)) :=
  why ← reason_get;
  match why with
  | Some _ => f ← fail_run (reason_error why); mret (Err f)
  | None =>
    r ← get_rs;
    let result_mode := bool_decide (is_Some (epilogue r)) && has_link r in
    out ← guest_in result_mode (serialize v value);
    match out with
    | Ok blob => mret (Ok blob)
    | Err (codec, message) =>
      let error := match codec with
        | Some e => codec_error_to_run_error e
        | None => ExportNotSerializable ("call " +:+ quoted (match rf_call facts with Some c => export_path c | None => "<call>" end) +:+
            " result could not be serialized: " +:+ message)
        end in
      be ← bridge_error_get;
      why ← reason_get;
      f ← fail_run (termination_or why (match be with Some err => owned_bridge_error err | None => error end));
      mret (Err f)
    end
  end.

Definition check_export_serializable (name : string) (e : ExportEntry) : result RunError unit :=
  if ee_function e then Err (ExportNotSerializable ("export " +:+ quoted name +:+ " is a function"))
  else if ee_promise e then Err (ExportNotSerializable ("export " +:+ quoted name +:+ " is an unresolved Promise"))
  else Ok tt.

(** The loop that stages the exports: staged values with their entries, and the
    names skipped. *)
Fixpoint stage_exports (es : list ExportEntry) (staged : list (string * Z * ExportEntry)) (skipped : list string) :
    result RunError (list (string * Z * ExportEntry) * list string) :=
  match es with
  | [] => Ok (staged, skipped)
  | e :: es =>
    if negb (ee_readable e) then Err (Internal "failed to read export name")
    else match ee_name e with
    | None => Err (Internal "failed to stringify export name")
    | Some name =>
      match ee_value e with
      | None => Err (Internal ("failed to read export " +:+ name))
      | Some value =>
        match check_export_serializable name e with
        | Err _ => stage_exports es staged (skipped ++ [name])
        | Ok _ =>
          if negb (ee_is_key e) then Err (Internal ("export name " +:+ name +:+ " is not a property key"))
          else if negb (ee_staged e) then Err (Internal ("failed to stage export " +:+ name))
          else stage_exports es (staged ++ [(name, value, e)]) skipped
        end
      end
    end
  end.

(** The per-export retry: the exports that serialize on their own. *)
Fixpoint retry_exports (staged : list (string * Z * ExportEntry)) (kept : list (string * Z)) (skipped : list string) :
    M S (result RunError (list (string * Z) * list string)) :=
  match staged with
  | [] => mret (Ok (kept, skipped))
  | (name, value, e) :: staged =>
    out ← guest (serialize v value);
    match out with
    | Ok _ =>
      if negb (ee_interned e) then mret (Err (Internal "failed to intern export name"))
      else if negb (ee_restaged e) then mret (Err (Internal ("failed to stage export " +:+ name)))
      else retry_exports staged (kept ++ [(name, value)]) skipped
    | Err (Some codec, _) => mret (Err (codec_error_to_run_error codec))
    | Err (None, _) => retry_exports staged kept (skipped ++ [name])
    end
  end.

Definition extract_module_exports (module : Z) : M S ScanOutcome :=
  why ← reason_get;
  match why with
  | Some _ => finished_err (reason_error why)
  | None =>
    w ← get_w;
    match namespace_of v w module with
    | None => finished_or (Internal "module namespace is not an object")
    | Some _ =>
      match export_entries v w module with
      | None => finished_or (Internal "failed to read module export names")
      | Some es =>
        match stage_exports es [] [] with
        | Err e => finished_or e
        | Ok (staged, skipped) =>
          out ← guest (serialize_object v (map fst staged));
          match out with
          | Ok blob => build_output_and_maybe_grace blob skipped
          | Err (codec, _) =>
            why ← reason_get;
            be ← bridge_error_get;
            match why, be, codec with
            | Some _, _, _ => finished_err (reason_error why)
            | None, Some err, _ => finished_err (owned_bridge_error err)
            | None, None, Some e => finished_or (codec_error_to_run_error e)
            | None, None, None =>
              retried ← retry_exports staged [] skipped;
              match retried with
              | Err e => finished_or e
              | Ok (kept, skipped) =>
                out ← guest (serialize_object v kept);
                match out with
                | Ok blob => build_output_and_maybe_grace blob skipped
                | Err (_, message) => finished_or (ExportNotSerializable ("exports could not be serialized: " +:+ message))
                end
              end
            end
          end
        end
      end
    end
  end.

(** *** Requested calls *)

(** The error of a call that threw. *)
Definition thrown_error (exception : option Z) : M S RunError :=
  why ← reason_get;
  match why with
  | Some _ => mret (reason_error why)
  | None =>
    t ← is_execution_terminating;
    if (t : bool) then mret Aborted
    else match exception with
      | Some x => guest (runtime_error_from_value v x)
      | None => guest (exception_error v)
      end
  end.

(** [invoke_requested_call]: a failure is a finished outcome here. *)
Definition invoke_requested_call (facts : RunFacts) (module : Z) : M S ScanOutcome :=
  let export_path := match rf_call facts with Some c => export_path c | None => EmptyString end in
  let args_blob := match rf_call facts with Some c => args_blob c | None => [] end in
  w ← get_w;
  match namespace_of v w module with
  | None => finished_or (Internal "module namespace is not an object")
  | Some namespace =>
    resolved ← guest (fun w => (resolving_ran v export_path w, resolve_call_target (objects v w) namespace export_path));
    match resolved with
    | Err e => finished_err e
    | Ok (target, receiver) =>
      args ← guest (deserialize v args_blob);
      match args with
      | Err codec =>
        finished_or (match codec with
          | Some e => codec_error_to_run_error e
          | None => Internal "failed to deserialize call arguments" end)
      | Ok args =>
        w ← get_w;
        match call_arguments v w args with
        | Err message => finished_err (Internal message)
        | Ok _ =>
          result ← guest (call_function v target receiver);
          match result with
          | CallThrew exception =>
            be ← bridge_error_get;
            match be with
            | Some err => finished_or (owned_bridge_error err)
            | None =>
              error ← thrown_error exception;
              be ← bridge_error_get;
              finished_or (match be with Some err => owned_bridge_error err | None => error end)
            end
          | CallPromise None => finished_err (Internal "call result claimed to be a promise but is not")
          | CallPromise (Some promise) =>
            perform_microtask_checkpoint;;
            why ← reason_get;
            match why with
            | Some _ => finished_err (reason_error why)
            | None =>
              be ← bridge_error_get;
              match be with
              | Some err => finished_err (owned_bridge_error err)
              | None => set_rs (fun r => with_phase r (Settling promise None false true));; mret Continue
              end
            end
          | CallReturned value =>
            perform_microtask_checkpoint;;
            be ← bridge_error_get;
            match be with
            | Some err => finished_or (owned_bridge_error err)
            | None =>
              exports ← serialize_call_result facts value;
              match exports with
              | Err f => mret (Finished (Err f))
              | Ok exports => build_output_and_maybe_grace exports []
              end
            end
          end
        end
      end
    end
  end.

(** *** Looking at the root promise *)

Definition pending_error (facts : RunFacts) (root_is_call_result : bool) : RunError :=
  if root_is_call_result then
    ExportNotSerializable ("call " +:+ quoted (match rf_call facts with Some c => export_path c | None => "<call>" end) +:+
      " returned a promise that is still pending after the poll loop: nothing in the isolate can resolve it")
  else ExportNotSerializable "module evaluation promise is still pending after poll loop".

(** [scan]; [fuel] counts the rounds of its loop. *)
Fixpoint scan (fuel : nat) (facts : RunFacts) : M S ScanOutcome :=
  match fuel with
  | O => mret Continue
  | Datatypes.S fuel =>
    r ← get_rs;
    match phase r with
    | Grace _ => grace_scan
    | Starting => mret Continue
    | Settling root module call_pending root_is_call_result =>
      w ← get_w;
      match promise_status v w root with
      | StatusPending =>
        be ← bridge_error_get;
        match be with
        | Some err => finished_or (owned_bridge_error err)
        | None =>
          t ← (match source r with None => earliest_timer | Some _ => mret (Some 0) end);
          match source r, t with
          | None, None => finished_or (pending_error facts root_is_call_result)
          | _, _ => mret Continue
          end
        end
      | StatusRejected rejection =>
        host ← guest (host_bridge_error_from_rejection v rejection);
        match host with
        | Some err => finished_or err
        | None =>
          be ← bridge_error_get;
          match be with
          | Some err => finished_or (owned_bridge_error err)
          | None =>
            err ← guest (runtime_error_from_value v rejection);
            be ← bridge_error_get;
            finished_or (match be with Some e => owned_bridge_error e | None => err end)
          end
        end
      | StatusFulfilled value =>
        if call_pending then
          out ← invoke_requested_call facts (default 0 module);
          match out with Continue => scan fuel facts | done => mret done end
        else if root_is_call_result then
          exports ← serialize_call_result facts value;
          match exports with
          | Err f => mret (Finished (Err f))
          | Ok exports => build_output_and_maybe_grace exports []
          end
        else extract_module_exports (default 0 module)
      end
    end
  end.

(** Enough rounds: after a requested call the root is the call's own promise. *)
Definition SCAN_ROUNDS : nat := 2.

(** [finish_turn] *)
Definition finish_turn (facts : RunFacts) (was_grace : bool) : M S ScanOutcome :=
  why ← reason_get;
  match why with
  | Some _ => if was_grace then finished_ok finish_killed_grace else finished_err (reason_error why)
  | None =>
    be ← bridge_error_get;
    match be with
    | Some err =>
      if was_grace then note_grace_error "Error" (debug_error err);; finished_ok finish_post_phase
      else finished_or (owned_bridge_error err)
    | None => scan SCAN_ROUNDS facts
    end
  end.

(** *** The turns *)

Definition response_error (codec : option CodecError) : RunError :=
  match codec with Some e => codec_error_to_run_error e | None => Internal "failed to deserialize response value" end.

(** The arm of [frame_turn] for a bridge response: [None]: the turn goes on. *)
Definition take_response (call_id : Z) (answer : bridge_answer) : M S (option ScanOutcome) :=
  r ← get_rs;
  now ← elapsed_since (start r);
  w ← get_w;
  let '(b, resolver) := default (bridge w, None) (bridge_response (bridge w) call_id now answer) in
  set_w (fun w => with_bridge w b);;
  match resolver, answer with
  | Some _, inl (Some bytes) =>
    decoded ← guest (deserialize v bytes);
    match decoded with
    | Ok _ => mret None
    | Err codec => x ← finished_or (response_error codec); mret (Some x)
    end
  | _, _ => mret None
  end.

Fixpoint send_all (run_id : Z) (ms : list Outbound) : M S unit :=
  match ms with [] => mret tt | m :: ms => send run_id m;; send_all run_id ms end.

(** The arm for the frames of inbound streams. *)
Definition take_stream_frame (msg : Inbound) : M S (option ScanOutcome) :=
  w ← get_w;
  let '(st, effects) := Inb.deliver_stream_frame (chunk_made v w) (in_streams w) msg in
  set_w (fun w => with_in_streams w st);;
  send_all (match st with Some st => Inb.run_id st | None => 0 end) (Inb.sent effects);;
  match Inb.outcome effects with
  | Ok _ => mret None
  | Err e => x ← finished_err e; mret (Some x)
  end.

(** The arms of [frame_turn]'s match. *)
Definition take_message (was_grace : bool) (msg : Inbound) : M S (option ScanOutcome) :=
  match msg with
  | IBridgeResponse call_id answer => take_response call_id answer
  | ITerminate _ =>
    x ← (if was_grace then finished_ok finish_post_phase else finished_err Aborted); mret (Some x)
  | IStreamChunk _ _ | IStreamEnd _ _ => take_stream_frame msg
  | IStreamPull stream_id credit =>
    now ← read_clock;
    set_w (fun w => with_out_streams w (Outb.note_out_credit (out_streams w) stream_id credit now));;
    mret None
  | IStreamCancel stream_id reason =>
    now ← read_clock;
    set_w (fun w => with_out_streams w (Outb.note_out_activity (out_streams w) now));;
    set_w (fun w => let '(st, l, _) := Outb.cancel_out_stream (out_streams w) (link (bridge w)) stream_id reason false in
      with_out_streams (with_bridge w (with_link (bridge w) l)) st);;
    guest (fun w => (cleanup_ran v w, tt));;
    mret None
  | IConnectionLost _ => mret None
  end.

(** [frame_turn]; a connection loss never gets here. *)
Definition frame_turn (facts : RunFacts) (msg : Inbound) : M S ScanOutcome :=
  r ← get_rs;
  let was_grace := in_grace r in
  with_turn (with_epoch (
    turn_prelude;;
    over ← take_message was_grace msg;
    match over with
    | Some x => mret x
    | None => perform_microtask_checkpoint;; finish_turn facts was_grace
    end)).

(** [timer_turn] of [timers.rs]. *)
Definition timer_turn (facts : RunFacts) : M S ScanOutcome :=
  w ← get_w;
  let '(t, entry) := pop_earliest (timers w) in
  set_w (fun w => with_timers w t);;
  match entry with
  | None => mret Continue
  | Some entry =>
    r ← get_rs;
    let was_grace := in_grace r in
    with_turn (with_epoch (
      turn_prelude;;
      threw ← guest (call_timer v entry);
      let tail_ := perform_microtask_checkpoint;; finish_turn facts was_grace in
      match threw with
      | None => tail_
      | Some exception =>
        why ← reason_get;
        killed ← (match why with Some _ => mret true | None => is_execution_terminating end);
        if (killed : bool) then tail_
        else
          err ← (match exception with
            | Some x => guest (runtime_error_from_value v x)
            | None => mret (Internal "timer callback failed without an exception") end);
          why ← reason_get;
          match why with
          | Some _ => finish_turn facts was_grace
          | None =>
            if was_grace then
              let '(name, message) := match err with RuntimeError d => (rt_name d, rt_message d) | other => ("Error"%string, debug_error other) end in
              note_grace_error name message;; finished_ok finish_post_phase
            else finished_err err
          end
      end))
  end.

Definition cancel_streams (reason : string) : M S unit :=
  set_w (fun w => let '(st, l) := Outb.cancel_all_out_streams order (out_streams w) (link (bridge w)) reason (cancel_killed v w) in
    with_out_streams (with_bridge w (with_link (bridge w) l)) st);;
  guest (fun w => (cleanup_ran v w, tt)).

Definition stream_idle_turn (facts : RunFacts) : M S ScanOutcome :=
  with_turn (with_epoch (turn_prelude;; cancel_streams "stream idle timeout";; perform_microtask_checkpoint;; finish_turn facts true)).

Definition conn_lost_stream_turn : M S unit :=
  with_turn (with_epoch (turn_prelude;; cancel_streams "connection lost";; perform_microtask_checkpoint)).

(** *** Boundaries *)

Definition boundary_deadline : M S (result FailureOutput Output) :=
  r ← get_rs;
  if in_grace r then o ← finish_post_phase; mret (Ok o) else f ← fail_run WallTimeout; mret (Err f).

Definition boundary_close (e : io_error) : M S (result FailureOutput Output) :=
  r ← get_rs;
  let text := "poll loop socket read: " +:+ detail e in
  if in_grace r then note_grace_error "Error" text;; o ← finish_post_phase; mret (Ok o)
  else f ← fail_run (Internal text); mret (Err f).

(** [deadline_hit]: [fuel] counts the rounds of its loop, [None] when they are
    used up; inside, [None] means the run is still in flight. *)
Fixpoint deadline_hit (fuel : nat) (facts : RunFacts) : M S (option (option (result FailureOutput Output))) :=
  match fuel with
  | O => mret None
  | Datatypes.S fuel =>
    now ← read_clock;
    t ← earliest_timer;
    let again (m : M S ScanOutcome) : M S (option (option (result FailureOutput Output))) :=
      out ← m; leave;;
      match out with Finished x => mret (Some (Some x)) | Continue => deadline_hit fuel facts end in
    match (match t with Some t => if t <=? now then Some t else None | None => None end) with
    | Some due => enter due;; again (timer_turn facts)
    | None =>
      r ← get_rs; w ← get_w;
      if in_grace r then
        match (match Outb.out_idle_deadline (out_streams w) with Some d => if d <=? now then Some d else None | None => None end) with
        | Some d => enter d;; again (stream_idle_turn facts)
        | None =>
          match (match grace_wall_instant r with Some b => if b <=? now then Some b else None | None => None end) with
          | Some b =>
            enter b;;
            concluded ← conclude_grace_wall;
            leave;;
            match concluded with Some o => mret (Some (Some (Ok o))) | None => deadline_hit fuel facts end
          | None => mret (Some None)
          end
        end
      else
        match (match deadline_instant r (out_streams w) with Some b => if b <=? now then Some b else None | None => None end) with
        | Some b => enter b;; x ← boundary_deadline; mret (Some (Some x))
        | None => mret (Some None)
        end
    end
  end.

(** *** Events *)

(** [RunEvent]; [Received]: what a wait on the run's channel ends with. *)
Inductive RunEvent := EvJob | EvHost (msg : Inbound) | EvRetire.
Inductive Received := Arrived (event : RunEvent) (at_ : Z) | TimedOutWait | Disconnected.

Inductive LoopEvent := Host (msg : Inbound) | DeadlineHit | SourceClosed (e : io_error).

(** [wait_event], given what the wait ended with. *)
Definition wait_event (r : Received) : M S (LoopEvent * Z) :=
  match r with
  | Arrived event at_ =>
    mret (match event with
      | EvHost (IConnectionLost detail) => SourceClosed (mk_io_error BrokenPipe (default "connection closed"%string detail))
      | EvHost msg => Host msg
      | EvJob | EvRetire => SourceClosed (mk_io_error InvalidData "unexpected instance message on a private run channel")
      end, at_)
  | TimedOutWait => now ← read_clock; mret (DeadlineHit, now)
  | Disconnected => now ← read_clock; mret (SourceClosed (mk_io_error BrokenPipe "demux gone"), now)
  end.

(** [handle_loop_event]: [None]: a deadline's loop ran out of [fuel]. *)
Definition handle_loop_event (fuel : nat) (facts : RunFacts) (event : LoopEvent) : M S (option (option (result FailureOutput Output))) :=
  match event with
  | Host msg => out ← frame_turn facts msg; mret (Some (match out with Finished x => Some x | Continue => None end))
  | DeadlineHit => deadline_hit fuel facts
  | SourceClosed e =>
    r ← get_rs; w ← get_w;
    (if in_grace r && Outb.out_streams_open (out_streams w) then conn_lost_stream_turn else mret tt);;
    x ← boundary_close e; mret (Some (Some x))
  end.

Definition stamp_wall (r : result FailureOutput Output) : M S (result FailureOutput Output) :=
  now ← read_clock;
  st ← get_rs;
  let wall := counted_wall_ms st now in
  mret (match r with
    | Ok o => Ok (mk_Output (o_exports o) (o_skipped_exports o) (o_stdout o) (o_stderr o) (o_duration_ms o) wall (o_cpu_time_ms o)
        (o_background o) (o_bridge_calls o))
    | Err f => Err (mk_FailureOutput (fo_error f) (fo_stdout f) (fo_stderr f) (fo_duration_ms f) wall (fo_cpu_time_ms f) (fo_bridge_calls f))
    end).

(** The loop of [run_call_phase]: [waits]: how each wait ends.  [None]: it is
    still running when the waits or the fuel are used up. *)
Fixpoint run_loop (fuel : nat) (facts : RunFacts) (waits : list Received) : M S (option (result FailureOutput Output)) :=
  match fuel with
  | O => mret None
  | Datatypes.S fuel' =>
    why ← reason_get;
    match why with
    | Some _ =>
      r ← get_rs;
      x ← (if in_grace r then o ← finish_killed_grace; mret (Ok o) else f ← fail_run (reason_error why); mret (Err f));
      x ← stamp_wall x; mret (Some x)
    | None =>
      set_w (fun w => with_touched w []);;
      r ← get_rs;
      match source r with
      | None =>
        t ← earliest_timer;
        match t with
        | Some _ =>
          next_deadline;;
          out ← deadline_hit fuel' facts;
          match out with
          | Some (Some x) => x ← stamp_wall x; mret (Some x)
          | Some None => run_loop fuel' facts waits
          | None => mret None
          end
        | None => o ← finish_post_phase; x ← stamp_wall (Ok o); mret (Some x)
        end
      | Some _ =>
        match waits with
        | [] => mret None
        | wait :: waits =>
          next_timeout;;
          '(event, woke_at) ← wait_event wait;
          let entered := match event with Host _ => true | _ => false end in
          (if entered then enter woke_at else mret tt);;
          out ← handle_loop_event fuel' facts event;
          (if entered then leave else mret tt);;
          match out with
          | Some (Some x) => x ← stamp_wall x; mret (Some x)
          | Some None => run_loop fuel' facts waits
          | None => mret None
          end
        end
      end
    end
  end.

(** *** The start turn *)

Inductive RunEntry := EntryModule | EntryPrefix (module : Z).

(** What [start_turn] arms for the run's bodies and its background work. *)
Definition arm_registries : M S unit :=
  set_w (fun w => with_waiting w (Some []));;
  r ← get_rs;
  let run_id := match epilogue r with Some spec => es_run_id spec | None => 0 end in
  set_w (fun w => with_in_streams w (Some (Inb.mk_StreamTableState ∅ run_id (has_link r))));;
  if bool_decide (is_Some (epilogue r)) && has_link r then
    now ← read_clock;
    set_w (fun w => with_out_streams w (Some (Outb.mk_OutTableState ∅ 1 run_id true now)))
  else mret tt.

(** A one-off run's module: compiled, linked and evaluated. *)
Definition start_module (facts : RunFacts) : M S ScanOutcome :=
  compiled ← guest (compile_module v);
  match compiled with
  | Err e => finished_or e
  | Ok module =>
    linked ← guest (instantiate_module v module);
    match linked with
    | Err e => finished_or e
    | Ok _ =>
      enter_budget false;;
      evaluated ← guest (evaluate_module v module);
      match evaluated with
      | None =>
        be ← bridge_error_get;
        match be with
        | Some err => finished_or (owned_bridge_error err)
        | None =>
          error ← thrown_error None;
          be ← bridge_error_get;
          finished_or (match be with Some err => owned_bridge_error err | None => error end)
        end
      | Some promise =>
        perform_microtask_checkpoint;;
        why ← reason_get;
        match why with
        | Some _ => finished_err (reason_error why)
        | None =>
          match promise with
          | None => finished_err (Internal "module evaluation did not return a Promise")
          | Some promise =>
            set_rs (fun r => with_phase r (Settling promise (Some module) (bool_decide (is_Some (rf_call facts))) false));;
            scan SCAN_ROUNDS facts
          end
        end
      end
    end
  end.

(** [start_turn]; a run with bridge-backed globals has a link. *)
Definition start_turn (entry : RunEntry) (facts : RunFacts) (globals : list HostGlobalDef) (imports : list ImportBinding) : M S ScanOutcome :=
  turn_prelude;;
  r ← get_rs;
  w ← get_w;
  let run_id := match epilogue r with Some spec => es_run_id spec | None => 0 end in
  let '(bound, installed) := install_bridge_globals run_id (l_max_bridge_call_bytes (limits r)) (l_max_bridge_calls (limits r))
    (define_stub v w) (bridge_stubs globals imports) (stubs w) in
  set_w (fun w => with_stubs w bound);;
  match installed with
  | Err e => finished_or e
  | Ok _ =>
    values ← guest (value_globals v globals);
    match values with
    | Err e => finished_or e
    | Ok _ =>
      arm_registries;;
      match entry with
      | EntryModule => start_module facts
      | EntryPrefix module =>
        enter_budget false;;
        out ← invoke_requested_call facts module;
        match out with Continue => scan SCAN_ROUNDS facts | done => mret done end
      end
    end
  end.

(** [begin_call], from the state it builds; the caller armed the guard. *)
Definition begin_call (entry : RunEntry) (facts : RunFacts) (globals : list HostGlobalDef) (imports : list ImportBinding) : M S ScanOutcome :=
  out ← start_turn entry facts globals imports;
  leave_budget false;;
  guard_end;;
  leave;;
  mret out.

(** The state [begin_call] starts from. *)
Definition run_state_new (token : Z) (limits : Limits) (epilogue : option EpilogueSpec) (source : option RunSource) (has_link : bool)
    (start : Z) : RunState :=
  mk_RunState token limits start epilogue source has_link budget_new Starting 0 start (Some start).

Definition run_call_phase (fuel : nat) (entry : RunEntry) (facts : RunFacts) (globals : list HostGlobalDef) (imports : list ImportBinding)
    (waits : list Received) : M S (option (result FailureOutput Output)) :=
  out ← begin_call entry facts globals imports;
  match out with
  | Finished x => x ← stamp_wall x; mret (Some x)
  | Continue => run_loop fuel facts waits
  end.
End Turns.
