(* ===== verification/Warmup.v ===== *)
(** * The cold start of an instance ([create_instance_core] of [crates/core/src/v8/isolate.rs])

    A capped isolate, its context booted, the prefix evaluated, all under the fixed
    warm-up budget; what stopped the guest, if anything did, decides over what the
    evaluation answered. *)

From S2P Require Import Prelude Bytes Text Utf16 F64 Types Errors Link Timers Guard Isolate RunState Bridge Modules RunLoop.

(** ** The verdict *)

(** The reason of a warm-up's end; the fixed budget has one error for time. *)
Definition warmup_error (reason : option TerminationReason) (fallback : RunError) : RunError :=
  match reason with
  | Some ReasonMemory => MemoryLimit
  | Some (ReasonImport m) => Import m
  | Some _ => WarmupLimit
  | None => fallback
  end.

Record PrefixSpec := mk_PrefixSpec { ps_code : string; ps_filename : string; ps_globals : list HostGlobalDef }.

(** What is left of the instance for its calls.  [ic_setup_logs]: what the prefix
    printed, for the first call. *)
Record InstanceCore := mk_InstanceCore {
  ic_module : Z;
  ic_isolate : Isolate;
  ic_terminating : bool;
  ic_setup_logs : LogBuffers;
  warmup_logs_pending : bool;
}.

(** ** What V8 and the guest do meanwhile

    [wu_stores]: stores made with the isolate; then, in the boot of the context and
    in the evaluation, what happens to the isolate - allocations, imports, a guard
    that fires - and how each ends; [wu_lines]: what the prefix prints, [true] to
    standard output.  The watchdog's readings of the warm-up's CPU budget are what
    decides when it fires. *)
Record WarmUp := mk_WarmUp {
  wu_stores : list (Z * Z);
  wu_boot_ops : list isolate_op;
  wu_booted : result string unit;
  wu_eval_ops : list isolate_op;
  wu_env : PrefixEnv;
  wu_lines : list (bool * string);
  wu_start : Z;
  wu_end : Z;
}.

Definition WARMUP_BUDGET : Z := 2.
Definition warmup_target (start : Z) : GuardTarget :=
  mk_GuardTarget WARMUP_BUDGET WARMUP_CPU_MS (Some (start + from_millis WARMUP_WALL_MS)).

Definition is_ok {E A} (r : result E A) : bool := match r with Ok _ => true | Err _ => false end.

(** What happened to the isolate until the guard was cleared. *)
Definition warmup_ops (u : WarmUp) : list isolate_op := wu_boot_ops u ++ (if is_ok (wu_booted u) then wu_eval_ops u else []).
Definition warmup_lines (u : WarmUp) : LogBuffers :=
  append_lines LogBuffers_default (if is_ok (wu_booted u) then wu_lines u else []).

Section Warmup.
Context {D : Type} (resolve : ResolverContext (D := D) -> string -> Z -> ResolverContext (D := D) * option Z).
Context (default_limit : Z).

(** The closure of [create_instance_core]. *)
Definition warmup_setup (prefix : PrefixSpec) (imports : list ImportBinding) (u : WarmUp) : result RunError Z :=
  match wu_booted u with
  | Err e => Err (Internal e)
  | Ok _ => evaluate_prefix_module resolve (wu_env u) (ps_globals prefix) imports
  end.

Definition create_instance_core (prefix : PrefixSpec) (imports : list ImportBinding) (hard_memory_mb : Z) (u : WarmUp) :
    result FailureOutput InstanceCore :=
  let i := new_capped_isolate hard_memory_mb default_limit (wu_stores u) in
  let i := with_shared i (guard_arm (shared i) (warmup_target (wu_start u)) 0) in
  let i := isolate_run i (warmup_ops u) in
  let setup := warmup_setup prefix imports u in
  let i := with_shared i (guard_clear (shared i)) in
  let logs := warmup_lines u in
  let failed error :=
    Err (failure (warmup_error (reason (cell (shared i))) error) (lb_stdout logs) (lb_stderr logs) (dur_ms (sat_sub (wu_end u) (wu_start u)))) in
  match setup with
  | Ok module => if bool_decide (is_Some (reason (cell (shared i)))) then failed WarmupLimit else Ok (mk_InstanceCore module i false logs true)
  | Err error => failed error
  end.

(** ** What the account says of it *)

Definition warmup_account (hard_mb : Z) (u : WarmUp) : Account :=
  all_accounted (cap_of hard_mb) (start_account hard_mb (wu_stores u)) (warmup_ops u).

Lemma accounted_shared cap i c g :
  cell g = cell (shared i) -> terminations g = terminations (shared i) -> accounted cap i c -> accounted cap (with_shared i g) c.
Proof. intros Hc Ht []. by split; cbn; rewrite ?Hc, ?Ht. Qed.

Lemma warmup_accounted hard_mb u g : sound_boot ∅ (wu_stores u) ->
  sound_ops (cap_of hard_mb) (start_account hard_mb (wu_stores u)) (warmup_ops u) ->
  cell g = reason_new -> terminations g = 0 ->
  accounted (cap_of hard_mb) (isolate_run (with_shared (new_capped_isolate hard_mb default_limit (wu_stores u)) g) (warmup_ops u))
    (warmup_account hard_mb u).
Proof. intros Hb Hs Hc Ht. apply accounted_run; [|done]. by apply accounted_shared, new_isolate_accounted. Qed.

(** C32. A cold start gives an instance exactly when the context booted, the prefix
    evaluated and nothing stopped it: no store over the cap, no heap near its limit,
    no dynamic import, no guard, whenever in the warm-up it came and whatever the
    evaluation answered.  The instance then starts its first call with no reason,
    nothing armed, no termination pending and the prefix's lines; otherwise the
    error is the first cause's - memory and imports by name, time as the warm-up's
    limit and never a run's - or else the setup's own, with the prefix's lines. *)
Theorem cold_start_verdict prefix imports hard_mb u :
  sound_boot ∅ (wu_stores u) -> sound_ops (cap_of hard_mb) (start_account hard_mb (wu_stores u)) (warmup_ops u) ->
  let first_cause := hd_error (causes (warmup_account hard_mb u)) in
  (is_ok (create_instance_core prefix imports hard_mb u) = true <-> is_ok (warmup_setup prefix imports u) = true /\ first_cause = None) /\
  match create_instance_core prefix imports hard_mb u with
  | Ok core =>
    warmup_setup prefix imports u = Ok (ic_module core) /\ reason (cell (shared (ic_isolate core))) = None /\
    target (shared (ic_isolate core)) = None /\ ic_terminating core = false /\
    warmup_logs_pending core = true /\ ic_setup_logs core = warmup_lines u
  | Err f =>
    fo_stdout f = lb_stdout (warmup_lines u) /\ fo_stderr f = lb_stderr (warmup_lines u) /\
    match first_cause with
    | Some ReasonMemory => fo_error f = MemoryLimit
    | Some (ReasonImport m) => fo_error f = Import m
    | Some _ => fo_error f = WarmupLimit
    | None => warmup_setup prefix imports u = Err (fo_error f)
    end
  end.
Proof.
  intros Hb Hs first_cause. unfold create_instance_core. set (g := guard_arm _ _ _). set (i := isolate_run _ _).
  pose proof (warmup_accounted hard_mb u g Hb Hs eq_refl eq_refl) as Ha. cbn zeta. fold i in Ha.
  assert (Hr : reason (cell (shared (with_shared i (guard_clear (shared i))))) = first_cause) by apply Ha. rewrite Hr.
  destruct (warmup_setup prefix imports u) as [module|error].
  - destruct first_cause as [r|]; cbn.
    + split; [split; [done|intros [_ ?]; done]|]. split_and!; [done..|]. by destruct r.
    + by split.
  - split; [split; [done|intros [? _]; done]|]. cbn. split_and!; [done..|]. by destruct first_cause as [[]|].
Qed.
End Warmup.

(** ** A cold start that prints a line, and one whose prefix keeps too much *)

Definition small_env : PrefixEnv := mk_PrefixEnv (fun _ => Ok tt) (fun _ => Ok tt) true true (Ok 4) [] true "link" EvalValue (fun _ => EvalFulfilled).
Definition small_prefix : PrefixSpec := mk_PrefixSpec "console.log('up')" "<prefix>" [].
Definition small_warmup (ops : list isolate_op) : WarmUp := mk_WarmUp [(5, 16)] [] (Ok tt) ops small_env [(true, "up"%string)] 0 1000000.

Lemma cold_start_verdict_witness :
  let start := create_instance_core demo_resolve 0 small_prefix [] 1 in
  is_ok (start (small_warmup [OpAlloc 1000 7])) = true /\
  match start (small_warmup [OpAlloc 2000000 7; OpFree (Some 7) 2000000; OpFired ReasonCpu]) with
  | Err f => fo_error f = MemoryLimit /\ fo_stdout f = ["up"%string]
  | Ok _ => False
  end.
Proof.
  intros start.
  assert (Hb : sound_boot ∅ [(5, 16)]).
  { apply conj; [lia|]. apply conj; [|exact I]. intros _. apply conj; [reflexivity|]. vm_compute. discriminate. }
  assert (Hs : forall ops, (ops = [OpAlloc 1000 7] \/ ops = [OpAlloc 2000000 7; OpFree (Some 7) 2000000; OpFired ReasonCpu]) ->
    sound_ops (cap_of 1) (start_account 1 [(5, 16)]) (warmup_ops (small_warmup ops))).
  { intros ops [-> | ->]; cbn [warmup_ops small_warmup wu_boot_ops wu_booted wu_eval_ops is_ok app sound_ops];
      repeat (apply conj; [cbn [sound_op]|]); try exact I; try (apply conj; [lia|]);
      intros Hn; try (by destruct Hn); try (apply conj); vm_compute; first [reflexivity|discriminate]. }
  split.
  - destruct (cold_start_verdict demo_resolve 0 small_prefix [] 1 (small_warmup [OpAlloc 1000 7]) Hb (Hs _ (or_introl eq_refl))) as [Hok _].
    apply Hok. split; vm_compute; reflexivity.
  - destruct (cold_start_verdict demo_resolve 0 small_prefix [] 1
      (small_warmup [OpAlloc 2000000 7; OpFree (Some 7) 2000000; OpFired ReasonCpu]) Hb (Hs _ (or_intror eq_refl))) as [Hok Hv]. unfold start.
    destruct (create_instance_core demo_resolve 0 small_prefix [] 1 (small_warmup _)) as [core|f].
    + destruct Hok as [Hok _]. specialize (Hok eq_refl). destruct Hok as [_ Hok]. vm_compute in Hok. discriminate.
    + destruct Hv as (Ho & _ & He). vm_compute in He, Ho. by split.
Defined.
