(* ===== verification/Turns.v ===== *)
(** * What the turn loop promises

    Counted time and deadlines, guest code under its run's guard, the rounds of
    the scan, and what a chain of due timers does to the wall boundary, over the
    definitions of [RunLoop]. *)

From S2P Require Import Prelude Bytes Text F64 Types StreamPayloads Errors Wire Link Timers Guard RunState Bridge Modules RunLoop.
From S2P Require Streams.
Import Streams.

(** ** Counted time *)

(** One turn as the clock saw it: the instant its wait is counted to, the one it
    was entered at, and the two readings at its end. *)
Record TurnTimes := mk_TurnTimes { woke_at : Z; entered_at : Z; elapsed_at : Z; left_at : Z }.

Definition one_turn (r : RunState) (t : TurnTimes) : RunState :=
  leave_turn (enter_turn r (woke_at t) (entered_at t)) (elapsed_at t) (left_at t).

Definition turns (r : RunState) (ts : list TurnTimes) : RunState := fold_left one_turn ts r.

(** The readings come in the order of the code, starting from [t0]; an event may
    have arrived before the run parked. *)
Fixpoint in_order (t0 : Z) (ts : list TurnTimes) : Prop :=
  match ts with
  | [] => True
  | t :: ts => t0 <= entered_at t /\ woke_at t <= entered_at t /\ entered_at t <= elapsed_at t /\ elapsed_at t <= left_at t /\
      in_order (left_at t) ts
  end.

(** From the moment a wait's event was there, or the run had parked, to the moment
    its turn began, and from the end of a turn to its parking: the engine's lag. *)
Fixpoint lag (parked : Z) (ts : list TurnTimes) : Z :=
  match ts with
  | [] => 0
  | t :: ts => (entered_at t - Z.max (woke_at t) parked) + (left_at t - elapsed_at t) + lag (left_at t) ts
  end.

(** The counter of the current phase, and its budget, in nanoseconds. *)
Definition phase_counted (r : RunState) : Z := match phase r with Grace g => gs_counted g | _ => counted r end.
Definition phase_cap (r : RunState) : option Z :=
  match phase r with
  | Grace g => match grace_status g with None => wall_cap g | Some _ => None end
  | _ => if 0 <? l_wall_time_ms (limits r) then Some (from_millis (l_wall_time_ms (limits r))) else None
  end.

Lemma count_phase r d : phase_counted (count r d) = phase_counted r + d.
Proof. unfold phase_counted, count. destruct r as [? ? ? ? ? ? ? []]; reflexivity. Qed.

Lemma count_keeps r d :
  parked_at (count r d) = parked_at r /\ turn_entered (count r d) = turn_entered r /\ in_grace (count r d) = in_grace r /\
  phase_cap (count r d) = phase_cap r.
Proof. unfold count, in_grace, phase_cap. destruct r as [? ? ? ? ? ? ? []]; cbn; auto. Qed.

Lemma enter_turn_spec r woke now :
  phase_counted (enter_turn r woke now) = phase_counted r + sat_sub woke (parked_at r) /\
  turn_entered (enter_turn r woke now) = Some now /\ in_grace (enter_turn r woke now) = in_grace r /\
  phase_cap (enter_turn r woke now) = phase_cap r.
Proof.
  unfold enter_turn. pose proof (count_phase r (sat_sub woke (parked_at r))) as Hc.
  destruct (count_keeps r (sat_sub woke (parked_at r))) as (_ & _ & Hg & Hk).
  unfold phase_counted, in_grace, phase_cap in *. cbn. split; [by rewrite Hc|]. split; [done|]. split; [exact Hg|exact Hk].
Qed.

Lemma leave_turn_spec r e now t :
  turn_entered r = Some t ->
  phase_counted (leave_turn r e now) = phase_counted r + sat_sub e t /\ parked_at (leave_turn r e now) = now /\
  turn_entered (leave_turn r e now) = None /\ in_grace (leave_turn r e now) = in_grace r /\
  phase_cap (leave_turn r e now) = phase_cap r.
Proof.
  intros Ht. unfold leave_turn. rewrite Ht. pose proof (count_phase r (sat_sub e t)) as Hc.
  destruct (count_keeps r (sat_sub e t)) as (_ & _ & Hg & Hk). unfold phase_counted, in_grace, phase_cap in *. cbn.
  split; [by rewrite Hc|]. split; [done|]. split; [done|]. split; [exact Hg|exact Hk].
Qed.

Lemma one_turn_spec r t :
  phase_counted (one_turn r t) = phase_counted r + sat_sub (woke_at t) (parked_at r) + sat_sub (elapsed_at t) (entered_at t) /\
  parked_at (one_turn r t) = left_at t /\ turn_entered (one_turn r t) = None /\ in_grace (one_turn r t) = in_grace r /\
  phase_cap (one_turn r t) = phase_cap r.
Proof.
  unfold one_turn. destruct (enter_turn_spec r (woke_at t) (entered_at t)) as (H1 & H2 & H3 & Hk).
  destruct (leave_turn_spec _ (elapsed_at t) (left_at t) _ H2) as (H4 & H5 & H6 & H7 & Hk'). rewrite H4, H1, H7, H3, Hk', Hk. auto.
Qed.

Lemma turns_count ts r :
  in_order (parked_at r) ts ->
  phase_counted (turns r ts) + lag (parked_at r) ts = phase_counted r + (parked_at (turns r ts) - parked_at r) /\
  0 <= lag (parked_at r) ts /\ in_grace (turns r ts) = in_grace r /\ phase_cap (turns r ts) = phase_cap r.
Proof.
  revert r. induction ts as [|t ts IH]; intros r Ho; cbn in *; [split; [lia|]; done|].
  destruct Ho as (H0 & H1 & H2 & H3 & Ho). destruct (one_turn_spec r t) as (C1 & C2 & C3 & C4 & C5).
  rewrite <- C2 in Ho. destruct (IH _ Ho) as (I1 & I2 & I3 & I4). rewrite C2 in I1, I2.
  unfold turns, sat_sub in *. split; [lia|]. split; [lia|]. split; [by rewrite I3, C4|by rewrite I4, C5].
Qed.

Lemma deadline_of_cap r cap : phase_cap r = Some cap -> deadline_instant r None = Some (parked_at r + sat_sub cap (phase_counted r)).
Proof.
  unfold phase_cap, deadline_instant, grace_wall_instant, phase_counted. destruct (phase r) as [| |g].
  - destruct (_ <? _); [|discriminate]. intros [= <-]. reflexivity.
  - destruct (_ <? _); [|discriminate]. intros [= <-]. reflexivity.
  - destruct (grace_status g); [discriminate|]. intros ->. reflexivity.
Qed.

Lemma target_of_cap r cap now : phase_cap r = Some cap -> in_grace r = false ->
  wall_deadline (turn_target r now) = Some (now + sat_sub cap (phase_counted r)).
Proof.
  unfold phase_cap, in_grace, turn_target, phase_counted. destruct (phase r); [| |discriminate];
    (destruct (_ <? _); [|discriminate]; intros [= <-]; reflexivity).
Qed.

(** C19. A run is billed for its own turns and for waiting, never for the engine's
    lag: over any sequence of turns the counted time of a phase is the real time
    that passed less what lies between an event's arrival (or, if it was there
    before, the parking of the run) and the start of its turn, and what lies
    between a turn's end and its parking.  The boundary is exact in that clock: a
    parked run's counted time reaches the phase's budget when it wakes at or after
    the deadline instant, and not before, whenever the turn is then entered; and
    the deadline the guard gets for a turn of the run phase is the instant at which
    the counted time and the turn's own time since it was armed reach it. *)
Theorem wall_time_exact r ts cap :
  in_order (parked_at r) ts -> phase_cap r = Some cap ->
  let r' := turns r ts in
  phase_counted r' + lag (parked_at r) ts = phase_counted r + (parked_at r' - parked_at r) /\ 0 <= lag (parked_at r) ts /\
  exists d, deadline_instant r' None = Some d /\
    forall woke now, parked_at r' <= woke ->
      (phase_counted (enter_turn r' woke now) < cap <-> woke < d) /\
      (in_grace r = false -> forall armed_at, exists g, wall_deadline (turn_target (enter_turn r' woke now) armed_at) = Some g /\
         forall t, armed_at <= t -> (phase_counted (enter_turn r' woke now) + (t - armed_at) < cap <-> t < g)).
Proof.
  intros Ho Hcap r'. destruct (turns_count ts r Ho) as (H1 & H2 & H3 & H4). fold r' in H1, H3, H4.
  split; [done|]. split; [done|]. rewrite Hcap in H4. eexists. split; [by apply deadline_of_cap|].
  intros woke now Hw. destruct (enter_turn_spec r' woke now) as (E1 & _ & E3 & E4).
  split; [rewrite E1; unfold sat_sub; lia|].
  intros Hg armed_at. eexists. split; [apply (target_of_cap _ cap); [by rewrite E4|by rewrite E3, H3]|].
  intros t Ht. unfold sat_sub. lia.
Qed.

Definition limits_1 : Limits := mk_Limits 100 50 0 0 0 0 0 0 0 10.
Definition run_1 : RunState := mk_RunState 7 limits_1 0 None None false budget_new Starting 0 0 None.
Definition times_1 : list TurnTimes := [mk_TurnTimes 5 9 20 21; mk_TurnTimes 15 30 31 31].

Lemma wall_time_exact_witness :
  (in_order (parked_at run_1) times_1 /\ phase_cap run_1 = Some 100000000) /\
  phase_counted (turns run_1 times_1) + 14 = phase_counted run_1 + 31.
Proof.
  assert (Ho : in_order (parked_at run_1) times_1) by (cbn; lia).
  split; [split; [exact Ho|reflexivity]|]. exact (proj1 (wall_time_exact run_1 times_1 100000000 Ho eq_refl)).
Defined.

Lemma bind_run {S A B} (m : M S A) (k : A -> M S B) s : (m ≫= k) s = k (snd (m s)) (fst (m s)).
Proof. unfold mbind, M_bind. by destruct (m s). Qed.

(** ** Guest code and the guard *)

(** What a turn of a run is armed with: the run's token and its CPU cap, or grace's,
    and a wall deadline in a run phase that has a wall budget. *)
Definition bounded (tok : Z) (lim : Limits) (armed : option (Z * GuardTarget)) : Prop :=
  exists t, armed = Some (tok, t) /\
    ((budget t = RUN_BUDGET /\ cpu_cap_ms t = l_cpu_time_ms lim /\ (0 < l_wall_time_ms lim -> is_Some (wall_deadline t))) \/
     (budget t = GRACE_BUDGET /\ cpu_cap_ms t = (if 0 <? l_cpu_time_ms lim then l_cpu_time_ms lim else l_grace_ms lim))).

Section Guarded.
Context {S : Type} `{HL : HostLink S} `{CO : CallOrder} `{DE : DebugError}.
Context (v : V8 S) (clock thread_clock : nat -> Z) (interrupt : nat -> option TerminationReason).
Context (order : gmap Z Outb.OutStream -> list (Z * Outb.OutStream)).
Context (tok : Z) (lim : Limits).

(** The run does not end up in the post-result phase inside a requested call: it
    has none, or what it calls never returns synchronously. *)
Definition never_returns : Prop := forall target receiver w value, snd (call_function v target receiver w) <> CallReturned value.

Definition RunOk (r : RunState) : Prop :=
  token r = tok /\ limits r = lim /\
  match phase r with
  | Starting => True
  | Settling _ _ call_pending _ => call_pending = true -> never_returns
  | Grace g => grace_cpu_cap g = (if 0 <? l_cpu_time_ms lim then l_cpu_time_ms lim else l_grace_ms lim)
  end.
Definition Inv (s : St S) : Prop := RunOk (rs s) /\ Forall (bounded tok lim) (ran (w s)).
Definition Live (s : St S) : Prop := bounded tok lim (armed (w s)).
Definition Idle (s : St S) : Prop := armed (w s) = None.

(** Four kinds of action: without guest code; between turns; inside a turn, the
    guard still armed afterwards; inside a turn, up to its end. *)
Definition Native {A} (m : M S A) : Prop := forall s, Inv s -> Inv (fst (m s)) /\ armed (w (fst (m s))) = armed (w s).
Definition Between {A} (m : M S A) : Prop := forall s, Inv s -> Idle s -> Inv (fst (m s)) /\ Idle (fst (m s)).
Definition Inside {A} (m : M S A) : Prop := forall s, Inv s -> Live s -> Inv (fst (m s)) /\ Live (fst (m s)).
Definition ToEnd {A} (m : M S A) : Prop := forall s, Inv s -> Live s -> Inv (fst (m s)).

Lemma Native_Inside {A} (m : M S A) : Native m -> Inside m.
Proof. intros Hm s Hi Hl. destruct (Hm s Hi) as [H1 H2]. split; [done|]. unfold Live. by rewrite H2. Qed.
Lemma Native_Between {A} (m : M S A) : Native m -> Between m.
Proof. intros Hm s Hi Hl. destruct (Hm s Hi) as [H1 H2]. split; [done|]. unfold Idle. by rewrite H2. Qed.
Lemma Inside_ToEnd {A} (m : M S A) : Inside m -> ToEnd m.
Proof. intros Hm s Hi Hl. by apply Hm. Qed.

Lemma Native_ret {A} (a : A) : Native (mret a).
Proof. intros s Hi. by split. Qed.
Lemma Native_bind {A B} (m : M S A) (k : A -> M S B) : Native m -> (forall a, Native (k a)) -> Native (m ≫= k).
Proof.
  intros Hm Hk s Hi. destruct (Hm s Hi) as [H1 H2]. unfold mbind, M_bind. destruct (m s) as [s' a] eqn:E. cbn in *.
  destruct (Hk a s' H1) as [H3 H4]. split; [done|]. by rewrite H4.
Qed.
Lemma Between_bind {A B} (m : M S A) (k : A -> M S B) : Between m -> (forall a, Between (k a)) -> Between (m ≫= k).
Proof.
  intros Hm Hk s Hi Hl. destruct (Hm s Hi Hl) as [H1 H2]. unfold mbind, M_bind. destruct (m s) as [s' a] eqn:E. by apply Hk.
Qed.
Lemma Inside_bind {A B} (m : M S A) (k : A -> M S B) : Inside m -> (forall a, Inside (k a)) -> Inside (m ≫= k).
Proof.
  intros Hm Hk s Hi Hl. destruct (Hm s Hi Hl) as [H1 H2]. unfold mbind, M_bind. destruct (m s) as [s' a] eqn:E. by apply Hk.
Qed.
Lemma ToEnd_bind {A B} (m : M S A) (k : A -> M S B) : Inside m -> (forall a, ToEnd (k a)) -> ToEnd (m ≫= k).
Proof.
  intros Hm Hk s Hi Hl. destruct (Hm s Hi Hl) as [H1 H2]. unfold mbind, M_bind. destruct (m s) as [s' a] eqn:E. by apply Hk.
Qed.

(** Once the guard is cleared the rest of the turn is between turns. *)
Lemma ToEnd_guard_end {B} (k : unit -> M S B) : Between (k tt) -> ToEnd (guard_end ≫= k).
Proof. intros Hk s Hi Hl. unfold mbind, M_bind, guard_end, set_w. by apply Hk. Qed.

(** What the run's state says is known of its reading. *)
Lemma Native_get_rs {B} (k : RunState -> M S B) : (forall r, RunOk r -> Native (k r)) -> Native (get_rs ≫= k).
Proof. intros Hk s Hi. by apply (Hk (rs s)); [apply Hi|]. Qed.
Lemma Inside_get_rs {B} (k : RunState -> M S B) : (forall r, RunOk r -> Inside (k r)) -> Inside (get_rs ≫= k).
Proof. intros Hk s Hi Hl. by apply (Hk (rs s)); [apply Hi| |]. Qed.
Lemma ToEnd_get_rs {B} (k : RunState -> M S B) : (forall r, RunOk r -> ToEnd (k r)) -> ToEnd (get_rs ≫= k).
Proof. intros Hk s Hi Hl. by apply (Hk (rs s)); [apply Hi| |]. Qed.
Lemma Between_get_rs {B} (k : RunState -> M S B) : (forall r, RunOk r -> Between (k r)) -> Between (get_rs ≫= k).
Proof. intros Hk s Hi Hl. by apply (Hk (rs s)); [apply Hi| |]. Qed.

(** *** The primitive actions *)

Lemma Native_get_w : Native (@get_w S).
Proof. intros s Hi. by split. Qed.
Lemma Native_read_clock : Native (@read_clock S clock).
Proof. intros s Hi. split; [exact Hi|reflexivity]. Qed.
Lemma Native_read_thread_clock : Native (@read_thread_clock S thread_clock).
Proof. intros s Hi. split; [exact Hi|reflexivity]. Qed.

Lemma Native_set_rs f : (forall r, RunOk r -> RunOk (f r)) -> Native (@set_rs S f).
Proof. intros Hf s [H1 H2]. split; [|reflexivity]. split; [by apply Hf|exact H2]. Qed.
Lemma Native_set_w (f : World S -> World S) : (forall w, armed (f w) = armed w /\ ran (f w) = ran w) -> Native (set_w f).
Proof. intros Hf s [H1 H2]. destruct (Hf (w s)) as [E1 E2]. split; [|exact E1]. split; [exact H1|]. cbn. by rewrite E2. Qed.

Lemma interrupted_keeps (x : World S) : armed (interrupted interrupt x) = armed x /\ ran (interrupted interrupt x) = ran x.
Proof. unfold interrupted. destruct x as [? ? ? ? ? ? ? arm ? reads ? ? ?]. cbn. destruct arm, (interrupt reads); by split. Qed.
Lemma Native_reason_get : Native (reason_get interrupt).
Proof.
  intros s [H1 H2]. destruct (interrupted_keeps (w s)) as [E1 E2]. split; [|exact E1]. split; [exact H1|]. cbn -[interrupted]. by rewrite E2.
Qed.
Lemma Native_is_execution_terminating : Native (is_execution_terminating interrupt).
Proof.
  intros s [H1 H2]. destruct (interrupted_keeps (w s)) as [E1 E2]. split; [|exact E1]. split; [exact H1|]. cbn -[interrupted]. by rewrite E2.
Qed.
Lemma Native_send run_id msg : Native (send (S := S) run_id msg).
Proof. intros s Hi. unfold send. destruct (link_send _ _ _). split; [exact Hi|reflexivity]. Qed.

Lemma Inside_guest_in {A} mode (f : World S -> World S * A) : Inside (guest_in mode f).
Proof.
  intros s [H1 H2] Hl. unfold guest_in. destruct (f (w s)) as [w' a]. split; [split; [exact H1|]|exact Hl].
  cbn. constructor; [exact Hl|exact H2].
Qed.
Lemma Inside_guest {A} (f : World S -> World S * A) : Inside (guest f).
Proof. apply Inside_guest_in. Qed.

Lemma target_bounded r now : RunOk r -> bounded tok lim (Some (token r, turn_target r now)).
Proof.
  intros (-> & Hl & Hp). eexists. split; [done|]. unfold turn_target. rewrite Hl.
  assert (Hw : 0 < l_wall_time_ms lim ->
    is_Some (if 0 <? l_wall_time_ms lim then Some (now + sat_sub (from_millis (l_wall_time_ms lim)) (counted r)) else None)).
  { intros Hw. apply Z.ltb_lt in Hw as ->. by eexists. }
  destruct (phase r); [left; auto|left; auto|right]. split; [done|exact Hp].
Qed.

(** A turn: armed, run, cleared. *)
Lemma Between_with_turn {A} (m : M S A) : ToEnd m -> Between (with_turn clock m).
Proof.
  intros Hm s Hi Hidle. unfold with_turn, guard_begin.
  assert (Hb : forall now k, Inv (mk_St (rs s) k) -> Inv (mk_St (rs s) (with_armed k (Some (token (rs s), turn_target (rs s) now)))) /\
    Live (mk_St (rs s) (with_armed k (Some (token (rs s), turn_target (rs s) now))))).
  { intros now k Hk. split; [exact Hk|]. apply target_bounded, Hi. }
  unfold mbind, M_bind, get_rs. destruct (phase (rs s)), (0 <? l_wall_time_ms (limits (rs s))); cbn -[turn_target with_armed tick];
    match goal with |- context [m (mk_St _ (with_armed ?k (Some (_, turn_target _ ?now))))] =>
      destruct (Hb now k Hi) as [H1 H2]; specialize (Hm _ H1 H2); destruct (m _) as [s' a]; split; [exact Hm|reflexivity]
    end.
Qed.

(** *** The walk through a definition *)

Create HintDb turns discriminated.
#[local] Hint Constants Opaque : turns.
#[local] Hint Resolve Native_ret Native_get_w Native_read_clock Native_read_thread_clock Native_reason_get
  Native_is_execution_terminating Native_send Inside_guest_in Inside_guest : turns.

Ltac run_ok :=
  let q := fresh "q" in
  intros [? ? ? ? ? ? ? q ? ? ?] (? & ? & ?); cbn in *; destruct q; cbn in *;
  repeat match goal with |- RunOk (match ?x with _ => _ end) => destruct x; cbn end;
  unfold RunOk; cbn; repeat split; congruence || auto.

Ltac walk_step :=
  match goal with
  | |- forall _, _ => intros ?
  | |- _ (let _ := _ in _) => cbv zeta
  | |- Native (get_rs ≫= _) => apply Native_get_rs
  | |- Inside (get_rs ≫= _) => apply Inside_get_rs
  | |- ToEnd (get_rs ≫= _) => apply ToEnd_get_rs
  | |- Between (get_rs ≫= _) => apply Between_get_rs
  | |- ToEnd (guard_end ≫= _) => apply ToEnd_guard_end
  | |- Native (_ ≫= _) => apply Native_bind
  | |- Inside (_ ≫= _) => apply Inside_bind
  | |- ToEnd (_ ≫= _) => apply ToEnd_bind
  | |- Between (_ ≫= _) => apply Between_bind
  | |- Native (set_rs _) => apply Native_set_rs; solve [run_ok]
  | |- Native (set_w _) => apply Native_set_w; intros ?; cbn; repeat case_match; (split; reflexivity)
  | |- Between (with_turn _ _) => apply Between_with_turn
  | |- _ (match ?x with _ => _ end) => destruct x
  | |- _ => solve [eauto 2 with turns nocore]
  | |- _ => progress cbv beta
  | |- Inside _ => apply Native_Inside
  | |- Between _ => apply Native_Between
  | |- ToEnd _ => apply Inside_ToEnd
  end.
Ltac walk := repeat walk_step.

Lemma Native_elapsed_since t : Native (@elapsed_since S clock t).
Proof. unfold elapsed_since. walk. Qed.
#[local] Hint Resolve Native_elapsed_since : turns.
Lemma Native_fail_run e : Native (@fail_run S clock e).
Proof. unfold fail_run. walk. Qed.
#[local] Hint Resolve Native_fail_run : turns.
Lemma Native_finished_err e : Native (@finished_err S clock e).
Proof. unfold finished_err. walk. Qed.
#[local] Hint Resolve Native_finished_err : turns.
Lemma Native_finished_or e : Native (@finished_or S clock interrupt e).
Proof. unfold finished_or. walk. Qed.
#[local] Hint Resolve Native_finished_or : turns.
Lemma Native_bridge_error_get : Native (@bridge_error_get S).
Proof. unfold bridge_error_get. walk. Qed.
#[local] Hint Resolve Native_bridge_error_get : turns.
Lemma Native_cancel_terminate : Native (@cancel_terminate_execution S).
Proof. unfold cancel_terminate_execution. walk. Qed.
Lemma Native_reset_reason : Native (@reset_reason S).
Proof. unfold reset_reason. walk. Qed.
#[local] Hint Resolve Native_cancel_terminate Native_reset_reason : turns.
Lemma Native_on_budget g f : Native (@on_budget S g f).
Proof. unfold on_budget. walk. Qed.
#[local] Hint Resolve Native_on_budget : turns.
Lemma Native_enter_budget g : Native (@enter_budget S thread_clock g).
Proof. unfold enter_budget. walk. Qed.
Lemma Native_leave_budget g : Native (@leave_budget S thread_clock g).
Proof. unfold leave_budget. walk. Qed.
Lemma Native_turn_prelude : Native (@turn_prelude S).
Proof. unfold turn_prelude. walk. Qed.
#[local] Hint Resolve Native_enter_budget Native_leave_budget Native_turn_prelude : turns.
Lemma Native_enter t : Native (@enter S clock t).
Proof. unfold enter. walk. Qed.
Lemma Native_leave : Native (@leave S clock).
Proof.
  unfold leave. walk. apply Native_set_rs. intros [? ? ? ? ? ? ? q ? ? entered] Hr. unfold leave_turn. destruct entered, q; exact Hr.
Qed.
#[local] Hint Resolve Native_enter Native_leave : turns.
Lemma Native_earliest_timer : Native (@earliest_timer S).
Proof. intros s Hi. unfold earliest_timer. destruct (peek_deadline _). split; [exact Hi|reflexivity]. Qed.
#[local] Hint Resolve Native_earliest_timer : turns.
Lemma Native_deadline_instant_m : Native (@deadline_instant_m S).
Proof. unfold deadline_instant_m. walk. Qed.
#[local] Hint Resolve Native_deadline_instant_m : turns.
Lemma Native_next_deadline : Native (@next_deadline S).
Proof. unfold next_deadline. walk. Qed.
Lemma Native_next_timeout : Native (@next_timeout S clock).
Proof. unfold next_timeout. walk. Qed.
Lemma Native_streams_open : Native (@streams_open S).
Proof. unfold streams_open. walk. Qed.
Lemma Native_grace_state : Native (@grace_state S).
Proof. unfold grace_state. walk. Qed.
#[local] Hint Resolve Native_next_deadline Native_next_timeout Native_streams_open Native_grace_state : turns.
Lemma Native_set_grace f : (forall g, grace_cpu_cap (f g) = grace_cpu_cap g) -> Native (@set_grace S f).
Proof.
  intros Hf. apply Native_set_rs. intros r (Ht & Hl & Hp). unfold RunOk.
  destruct (phase r) eqn:E; [by rewrite E|by rewrite E|]. cbn. by rewrite Hf.
Qed.
Lemma Native_record_snapshot t : Native (record_snapshot (S := S) t).
Proof. unfold record_snapshot. walk. Qed.
#[local] Hint Resolve Native_record_snapshot : turns.
Ltac grace_ok := apply Native_set_grace; intros ?; repeat case_match; reflexivity.
Ltac walk' := repeat (first [match goal with |- Native (set_grace _) => grace_ok end | walk_step]).

Lemma Native_finish_grace st : Native (finish_grace (S := S) clock thread_clock st).
Proof. unfold finish_grace. walk'. Qed.
Lemma Native_close_streams m : Native (close_streams (S := S) order m).
Proof. unfold close_streams. walk. Qed.
#[local] Hint Resolve Native_finish_grace Native_close_streams : turns.
Lemma Native_finish_post_phase : Native (finish_post_phase (S := S) clock thread_clock order).
Proof. unfold finish_post_phase. walk. Qed.
Lemma Native_note_grace_error n m : Native (@note_grace_error S n m).
Proof. unfold note_grace_error. walk'. Qed.
#[local] Hint Resolve Native_finish_post_phase Native_note_grace_error : turns.
Lemma Native_finish_killed_grace : Native (finish_killed_grace (S := S) clock thread_clock interrupt order).
Proof. unfold finish_killed_grace. walk. Qed.
#[local] Hint Resolve Native_finish_killed_grace : turns.
Lemma Native_finished_ok (m : M S Output) : Native m -> Native (finished_ok m).
Proof. intros Hm. unfold finished_ok. walk. Qed.
#[local] Hint Resolve Native_finished_ok : turns.

(** *** The post-result phase *)

Lemma Inside_checkpoint : Inside (perform_microtask_checkpoint v).
Proof. unfold perform_microtask_checkpoint. walk. Qed.
Lemma Inside_drive : Inside (drive v order).
Proof. unfold drive. walk. Qed.
#[local] Hint Resolve Inside_checkpoint Inside_drive : turns.
Lemma Inside_settle_waiting ps : forall still e, Inside (settle_waiting v ps still e).
Proof. induction ps as [|p ps IH]; intros still e; cbn [settle_waiting]; walk; apply IH. Qed.
#[local] Hint Resolve Inside_settle_waiting : turns.
Lemma Inside_decide_waiting : Inside (decide_waiting v clock interrupt).
Proof. unfold decide_waiting. walk'; apply Native_Inside; grace_ok. Qed.
#[local] Hint Resolve Inside_decide_waiting : turns.
Lemma Inside_grace_scan : Inside (grace_scan v clock thread_clock interrupt order).
Proof. unfold grace_scan. walk'; apply Native_Inside; grace_ok. Qed.
#[local] Hint Resolve Inside_grace_scan : turns.
Lemma Native_conclude_grace_wall : Native (conclude_grace_wall (S := S) clock thread_clock order).
Proof. unfold conclude_grace_wall. walk'. Qed.
#[local] Hint Resolve Native_conclude_grace_wall : turns.

Lemma ToEnd_then {A B} (m : M S A) (k : A -> M S B) : ToEnd m -> (forall a, Native (k a)) -> ToEnd (m ≫= k).
Proof.
  intros Hm Hk s Hi Hl. specialize (Hm s Hi Hl). unfold mbind, M_bind. destruct (m s) as [s' a]. by apply Hk.
Qed.
Lemma ToEnd_with_epoch {A} (m : M S A) : ToEnd m -> ToEnd (with_epoch thread_clock m).
Proof.
  intros Hm. unfold with_epoch. apply ToEnd_get_rs. intros r _. cbv zeta. apply ToEnd_bind; [walk|]. intros _.
  apply ToEnd_then; [exact Hm|]. walk.
Qed.

(** *** The result *)

Lemma Native_send_early_result o c rs g st : Native (send_early_result (S := S) v o c rs g st).
Proof. unfold send_early_result. walk. Qed.
#[local] Hint Resolve Native_send_early_result ToEnd_with_epoch : turns.

Ltac walk'' := repeat (first [match goal with |- ToEnd (with_epoch _ _) => apply ToEnd_with_epoch end | walk_step]).

Lemma Between_start_grace o g st : Between (start_grace v clock thread_clock interrupt order o g st).
Proof. unfold start_grace. walk''. apply Native_set_rs. intros r0 (? & Hl & ?). split; [done|]. cbn. by rewrite Hl. Qed.
#[local] Hint Resolve Between_start_grace : turns.

Lemma ToEnd_build_output e sk : ToEnd (build_output_and_maybe_grace v clock thread_clock interrupt order e sk).
Proof. unfold build_output_and_maybe_grace. walk. Qed.
Lemma Inside_serialize_call_result facts x : Inside (serialize_call_result v clock interrupt facts x).
Proof. unfold serialize_call_result. walk. Qed.
#[local] Hint Resolve ToEnd_build_output Inside_serialize_call_result : turns.
Lemma Inside_retry_exports staged : forall kept skipped, Inside (retry_exports v staged kept skipped).
Proof. induction staged as [|[[n x] e] staged IH]; intros kept skipped; cbn [retry_exports]; walk; apply IH. Qed.
#[local] Hint Resolve Inside_retry_exports : turns.
Lemma ToEnd_extract_module_exports m : ToEnd (extract_module_exports v clock thread_clock interrupt order m).
Proof. unfold extract_module_exports. walk. Qed.
Lemma Inside_thrown_error x : Inside (thrown_error v interrupt x).
Proof. unfold thrown_error. walk. Qed.
#[local] Hint Resolve ToEnd_extract_module_exports Inside_thrown_error : turns.

(** *** Requested calls and scans *)

(** The native facts of [call_function]'s answer, when it never returns
    synchronously. *)
Lemma Inside_call_function target receiver (k : CallResult -> M S ScanOutcome) :
  never_returns -> (forall c, (forall x, c <> CallReturned x) -> Inside (k c)) -> Inside (guest (call_function v target receiver) ≫= k).
Proof.
  intros Hn Hk s [H1 H2] Hl. unfold mbind, M_bind, guest, guest_in.
  pose proof (Hn target receiver (w s)) as Hn'. destruct (call_function v target receiver (w s)) as [w' c]. cbn in *.
  apply Hk; [exact Hn'| |exact Hl]. split; [exact H1|]. constructor; [exact Hl|exact H2].
Qed.

Lemma Inside_invoke facts m : never_returns -> Inside (invoke_requested_call v clock thread_clock interrupt order facts m).
Proof.
  intros Hn. unfold invoke_requested_call.
  repeat first [match goal with |- Inside (guest (call_function v _ _) ≫= _) => apply Inside_call_function; [exact Hn|intros c Hc; destruct c; [| |]] end|walk_step].
  all: try (match goal with Hc : forall x, _ <> _ |- _ => by destruct (Hc _ eq_refl) end).
Qed.

Lemma ToEnd_scan fuel facts : ToEnd (scan v clock thread_clock interrupt order fuel facts).
Proof.
  induction fuel as [|fuel IH]; cbn [scan]; [walk|]. apply ToEnd_get_rs. intros r (_ & _ & Hp).
  destruct (phase r) as [|root module [] is_result|g]; [walk| |walk|walk].
  specialize (Hp eq_refl). pose proof (Inside_invoke facts (default 0 module) Hp). walk.
Qed.
#[local] Hint Resolve ToEnd_scan : turns.
Lemma ToEnd_finish_turn facts g : ToEnd (finish_turn v clock thread_clock interrupt order facts g).
Proof. unfold finish_turn. walk. Qed.
#[local] Hint Resolve ToEnd_finish_turn : turns.

(** *** The turns *)

Lemma Inside_take_response c a : Inside (take_response v clock interrupt c a).
Proof. unfold take_response. walk. Qed.
Lemma Native_send_all run_id ms : Native (send_all (S := S) run_id ms).
Proof. induction ms as [|m ms IH]; cbn [send_all]; walk. Qed.
#[local] Hint Resolve Inside_take_response Native_send_all : turns.
Lemma Native_take_stream_frame m : Native (take_stream_frame v clock m).
Proof. unfold take_stream_frame. walk. Qed.
#[local] Hint Resolve Native_take_stream_frame : turns.
Lemma Inside_take_message g m : Inside (take_message v clock thread_clock interrupt order g m).
Proof. unfold take_message. walk. Qed.
#[local] Hint Resolve Inside_take_message : turns.
Lemma Between_frame_turn facts m : Between (frame_turn v clock thread_clock interrupt order facts m).
Proof. unfold frame_turn. walk''. Qed.
Lemma Between_timer_turn facts : Between (timer_turn v clock thread_clock interrupt order facts).
Proof. unfold timer_turn. walk''. Qed.
Lemma Inside_cancel_streams m : Inside (cancel_streams v order m).
Proof. unfold cancel_streams. walk. Qed.
#[local] Hint Resolve Between_frame_turn Between_timer_turn Inside_cancel_streams : turns.
Lemma Between_stream_idle_turn facts : Between (stream_idle_turn v clock thread_clock interrupt order facts).
Proof. unfold stream_idle_turn. walk''. Qed.
Lemma Between_conn_lost_stream_turn : Between (conn_lost_stream_turn v clock thread_clock order).
Proof. unfold conn_lost_stream_turn. walk''. Qed.
#[local] Hint Resolve Between_stream_idle_turn Between_conn_lost_stream_turn : turns.
Lemma Native_boundary_deadline : Native (boundary_deadline (S := S) clock thread_clock order).
Proof. unfold boundary_deadline. walk. Qed.
Lemma Native_boundary_close e : Native (boundary_close (S := S) clock thread_clock order e).
Proof. unfold boundary_close. walk. Qed.
#[local] Hint Resolve Native_boundary_deadline Native_boundary_close : turns.
Lemma Between_deadline_hit fuel facts : Between (deadline_hit v clock thread_clock interrupt order fuel facts).
Proof. induction fuel as [|fuel IH]; cbn [deadline_hit]; walk. Qed.
#[local] Hint Resolve Between_deadline_hit : turns.
Lemma Native_wait_event r : Native (wait_event (S := S) clock r).
Proof. unfold wait_event. walk. Qed.
Lemma Between_handle_loop_event fuel facts e : Between (handle_loop_event v clock thread_clock interrupt order fuel facts e).
Proof. unfold handle_loop_event. walk. Qed.
Lemma Native_stamp_wall x : Native (stamp_wall (S := S) clock x).
Proof. unfold stamp_wall. walk. Qed.
#[local] Hint Resolve Native_wait_event Between_handle_loop_event Native_stamp_wall : turns.
Lemma Between_run_loop fuel facts waits : Between (run_loop v clock thread_clock interrupt order fuel facts waits).
Proof. revert waits. induction fuel as [|fuel IH]; intros waits; cbn [run_loop]; walk. Qed.
#[local] Hint Resolve Between_run_loop : turns.

(** *** The start turn *)

Lemma Native_arm_registries : Native (arm_registries (S := S) clock).
Proof. unfold arm_registries. walk. Qed.
#[local] Hint Resolve Native_arm_registries : turns.
Lemma ToEnd_start_module facts : rf_call facts = None \/ never_returns -> ToEnd (start_module v clock thread_clock interrupt order facts).
Proof.
  intros Hc. unfold start_module. walk. apply Native_set_rs. intros r (Ht & Hl & _). split; [done|]. split; [done|].
  cbn. intros Hd. destruct Hc as [E|Hc]; [by rewrite E in Hd|exact Hc].
Qed.
Lemma ToEnd_start_turn entry facts globals imports :
  (entry = EntryModule /\ rf_call facts = None) \/ never_returns ->
  ToEnd (start_turn v clock thread_clock interrupt order entry facts globals imports).
Proof.
  intros Hc. unfold start_turn.
  assert (Hm : rf_call facts = None \/ never_returns) by tauto. pose proof (ToEnd_start_module facts Hm).
  destruct entry as [|m]; [walk|]. destruct Hc as [[? _]|Hc]; [discriminate|]. pose proof (Inside_invoke facts m Hc). walk.
Qed.
Lemma begin_call_guarded entry facts globals imports s :
  (entry = EntryModule /\ rf_call facts = None) \/ never_returns -> Inv s -> Live s ->
  let s' := fst (begin_call v clock thread_clock interrupt order entry facts globals imports s) in Inv s' /\ Idle s'.
Proof.
  intros Hc Hi Hl. unfold begin_call. pose proof (ToEnd_start_turn entry facts globals imports Hc s Hi Hl) as Ht.
  unfold mbind, M_bind. destruct (start_turn _ _ _ _ _ _ _ _ _ s) as [s1 out]. cbn in Ht.
  destruct (Native_leave_budget false s1 Ht) as [H2 _]. destruct (leave_budget thread_clock false s1) as [s2 []].
  unfold guard_end, set_w. assert (H3 : Inv (mk_St (rs s2) (with_armed (w s2) None))) by exact H2.
  exact (Native_leave _ H3).
Qed.

Lemma run_call_phase_guarded fuel entry facts globals imports waits s :
  (entry = EntryModule /\ rf_call facts = None) \/ never_returns -> Inv s -> Live s ->
  let s' := fst (run_call_phase v clock thread_clock interrupt order fuel entry facts globals imports waits s) in Inv s' /\ Idle s'.
Proof.
  intros Hc Hi Hl. unfold run_call_phase. pose proof (begin_call_guarded entry facts globals imports s Hc Hi Hl) as [H1 H2].
  cbv zeta. rewrite bind_run. destruct (begin_call _ _ _ _ _ _ _ _ _ s) as [s1 out]. cbn [fst snd] in *.
  assert (Hb : Between (match out with
    | Continue => run_loop v clock thread_clock interrupt order fuel facts waits
    | Finished x => x ← stamp_wall (S := S) clock x; mret (Some x) end)) by walk.
  apply Hb; [exact H1|exact H2].
Qed.
End Guarded.

(** Guest code is never without its run's guard: through a whole run - the
    start turn, messages, timers, idle and lost streams, the post-result phase and
    its end, under any readings of the clocks, firings of the guard, messages and
    guest behaviour - every stretch of guest code the loop starts has the guard
    armed for this run's token, with its CPU cap and a wall deadline if it has a
    wall budget, or with the post-result phase's CPU cap; between turns nothing is
    armed.  The run has no requested call, or what it calls does not return
    synchronously: see [sync_return_unguarded]. *)
Theorem guest_code_guarded {S : Type} `{HL : HostLink S} `{CO : CallOrder} `{DE : DebugError} (v : V8 S)
    (clock thread_clock : nat -> Z) (interrupt : nat -> option TerminationReason)
    (order : gmap Z Outb.OutStream -> list (Z * Outb.OutStream)) fuel entry facts globals imports waits s :
  (entry = EntryModule /\ rf_call facts = None) \/ never_returns v ->
  phase (rs s) = Starting -> bounded (token (rs s)) (limits (rs s)) (armed (w s)) -> ran (w s) = [] ->
  let s' := fst (run_call_phase v clock thread_clock interrupt order fuel entry facts globals imports waits s) in
  Forall (bounded (token (rs s)) (limits (rs s))) (ran (w s')) /\ armed (w s') = None.
Proof.
  intros Hc Hp Hb Hr s'.
  destruct (run_call_phase_guarded v clock thread_clock interrupt order (token (rs s)) (limits (rs s)) fuel entry facts globals imports waits s Hc)
    as [[_ H1] H2]; [|exact Hb|split; [exact H1|exact H2]].
  split; [|rewrite Hr; constructor]. split; [done|]. split; [done|]. by rewrite Hp.
Qed.

(** *** A small guest *)

#[local] Instance small_order : CallOrder := map_to_list.
#[local] Instance small_debug : DebugError := fun _ => "error"%string.

Definition small_objects : Objects :=
  mk_Objects Some (fun _ _ _ => Some 2) (fun _ => true) (fun _ => true) (fun _ => false).

(** A module whose evaluation and calls do as the arguments say, and which
    exports nothing. *)
Definition small_v8 (status : Z -> PromiseStatus) (call : World Tape -> World Tape * CallResult)
    (timer : World Tape -> World Tape) : V8 Tape :=
  mk_V8 _ (fun w => w) (fun _ => status) (fun _ w => (w, Internal "thrown")) (fun _ w => (w, None)) (fun _ w => (w, (None, None)))
    (fun w => (w, Internal "thrown")) (fun _ w => (w, Ok 1)) (fun _ w => (w, Ok [])) (fun _ _ => Some 1) (fun _ => small_objects)
    (fun _ w => w) (fun _ _ => Ok tt) (fun _ _ => call) (fun _ w => (timer w, None)) (fun _ _ => Some []) (fun _ w => (w, Ok []))
    (fun w => (w, Ok 1)) (fun _ w => (w, Ok tt)) (fun _ w => (w, Some (Some 2))) (fun _ _ => Ok tt) (fun _ w => (w, Ok tt))
    (fun _ => Outb.mk_Guest (fun _ _ _ => Outb.PPending) (fun _ _ _ => Outb.Started 1 false) (fun _ _ => false) (fun _ => false))
    (fun w => w) (fun _ _ => false) (fun w => w) (fun _ => true) (fun _ => 0).

(** A clock that reads a microsecond more each time. *)
Definition small_clock (n : nat) : Z := 1000 * Z.of_nat n.
Definition quiet_guard (n : nat) : option TerminationReason := None.

Definition small_limits : Limits := mk_Limits 100 50 0 0 0 0 0 0 0 10.
Definition small_run : RunState :=
  run_state_new 7 small_limits (Some (mk_EpilogueSpec 1 false)) (Some SourceChannel) true 0.
Definition small_world (t : @TimerTable Z Z) : World Tape :=
  mk_World (bridge_new 5 (mk_Tape [] [])) ∅ (mk_LogBuffers [] [] 0 0 0 0) None None None t
    (Some (7, turn_target small_run 0)) 0 0 [] [] [].
Definition small_st : St Tape := mk_St small_run (small_world TimerTable_default).

Definition small_begin (v : V8 Tape) (entry : RunEntry) (facts : RunFacts) : St Tape * ScanOutcome :=
  begin_call v small_clock small_clock quiet_guard map_to_list entry facts [] [] small_st.

Lemma guest_code_guarded_witness :
  let v := small_v8 (fun p => if p =? 2 then StatusFulfilled 0 else StatusPending) (fun w => (w, CallThrew None)) (fun w => w) in
  let s' := fst (run_call_phase v small_clock small_clock quiet_guard map_to_list 5 EntryModule (mk_RunFacts None) [] [] [] small_st) in
  length (ran (w s')) = 6%nat /\ Forall (bounded 7 small_limits) (ran (w s')) /\ armed (w s') = None.
Proof.
  intros v s'. split; [vm_compute; reflexivity|].
  refine (guest_code_guarded v small_clock small_clock quiet_guard map_to_list 5 EntryModule (mk_RunFacts None) [] [] [] small_st _ _ _ _);
    [left; split; reflexivity|reflexivity| |reflexivity].
  exists (turn_target small_run 0). split; [reflexivity|]. left. split; [reflexivity|]. split; [reflexivity|]. intros _. eexists. reflexivity.
Defined.

(** A requested call that returns synchronously with background work: the
    module's value is serialized and the result sent, the post-result phase's
    first scan runs and ends with the guard cleared; then the start turn scans
    once more, and what that scan runs - a microtask checkpoint and pulls of
    outbound bodies - has no guard armed.  A call that returns a promise has not:
    its guest code is guarded, as [guest_code_guarded] says. *)
Theorem sync_return_unguarded :
  let background w := with_waiting w (Some [9]) in
  let run result := small_begin (small_v8 (fun _ => StatusPending) (fun w => (background w, result)) (fun w => w)) (EntryPrefix 1)
    (mk_RunFacts (Some (mk_CallSpec "f" []))) in
  (snd (run (CallReturned 3)) = Continue /\ in_grace (rs (fst (run (CallReturned 3)))) = true /\
    take 2 (ran (w (fst (run (CallReturned 3))))) = [None; None]) /\
  (snd (run (CallPromise (Some 2))) = Continue /\ in_grace (rs (fst (run (CallPromise (Some 2))))) = false /\
    Forall is_Some (ran (w (fst (run (CallPromise (Some 2))))))).
Proof.
  cbv zeta. split; [split; [|split]; vm_compute; reflexivity|]. split; [|split]; [vm_compute; reflexivity..|].
  vm_compute. repeat (constructor; [eexists; reflexivity|]). constructor.
Qed.

(** ** Due timers and the wall boundary *)

(** A callback that arms one timer due at once, as [setTimeout(f, 0)] does. *)
Definition rearm (w : World Tape) : World Tape :=
  with_timers w (fst (register_timer (timers w) 0 [] (small_clock (clock_reads w)) f64_zero)).

Definition chain_v8 : V8 Tape := small_v8 (fun _ => StatusPending) (fun w => (w, CallThrew None)) rearm.

(** The run is settling with one timer armed, due by the next reading of the
    clock; nothing has killed it. *)
Definition chained (s : St Tape) : Prop :=
  (exists root m is_result, phase (rs s) = Settling root m false is_result) /\
  limits (rs s) = small_limits /\ source (rs s) = Some SourceChannel /\
  bridge_error (bridge (w s)) = None /\ reason (why (bridge (w s))) = None /\
  parked_at (rs s) <= small_clock (clock_reads (w s)) /\
  exists at_ seq id e next last, timers (w s) = mk_TimerTable last next {[ id := e ]} [(at_, seq, id)] /\ deadline e = at_ /\
    at_ <= small_clock (clock_reads (w s)).

Lemma interrupted_quiet {S} (x : World S) : interrupted quiet_guard x = tick x.
Proof. unfold interrupted, quiet_guard. by destruct (armed x). Qed.

Lemma peek_one last next at_ seq id (e : @TimerEntry Z Z) : deadline e = at_ ->
  peek_deadline (mk_TimerTable last next {[id := e]} [(at_, seq, id)]) = (mk_TimerTable last next {[id := e]} [(at_, seq, id)], Some at_).
Proof.
  intros He. unfold peek_deadline. cbn. unfold is_live. cbn. rewrite lookup_singleton_eq, bool_decide_eq_true_2 by done. reflexivity.
Qed.
Lemma pop_one last next at_ seq id (e : @TimerEntry Z Z) : deadline e = at_ ->
  pop_earliest (mk_TimerTable last next {[id := e]} [(at_, seq, id)]) = (mk_TimerTable last next ∅ [], Some e).
Proof.
  intros He. unfold pop_earliest. cbn. unfold is_live. cbn. rewrite lookup_singleton_eq, bool_decide_eq_true_2 by done. cbn.
  by rewrite delete_singleton_eq, lookup_singleton_eq.
Qed.
Lemma register_one last next at_ virt :
  fst (register_timer (mk_TimerTable last next ∅ []) 0 [] at_ virt) =
    let id := Z.max 1 (wrap_add u32_max last 1) in
    mk_TimerTable (F := Z) (V := Z) id (next + 1) {[id := mk_TimerEntry 0 [] at_ virt]} [(at_, next, id)].
Proof. reflexivity. Qed.

Lemma rearm_empty last next (x : World Tape) : timers x = mk_TimerTable last next ∅ [] ->
  let id := Z.max 1 (wrap_add u32_max last 1) in let at_ := small_clock (clock_reads x) in
  rearm x = with_timers x (mk_TimerTable id (next + 1) {[id := mk_TimerEntry 0 [] at_ f64_zero]} [(at_, next, id)]).
Proof. intros Ht. unfold rearm. rewrite Ht. reflexivity. Qed.

Lemma chain_turn root m is_result last next at_ seq id (e : @TimerEntry Z Z) (r : RunState) (x : World Tape) :
  phase r = Settling root m false is_result -> limits r = small_limits -> source r = Some SourceChannel -> bridge_error (bridge x) = None ->
  reason (why (bridge x)) = None -> timers x = mk_TimerTable last next {[id := e]} [(at_, seq, id)] -> deadline e = at_ ->
  exists cb x' id' at', timer_turn chain_v8 small_clock small_clock quiet_guard map_to_list (mk_RunFacts None) (mk_St r x) =
    (mk_St (with_cpu_budget r cb) x', Continue) /\
  bridge_error (bridge x') = None /\ reason (why (bridge x')) = None /\ (clock_reads x <= clock_reads x')%nat /\
  timers x' = mk_TimerTable id' (next + 1) {[id' := mk_TimerEntry 0 [] at' f64_zero]} [(at', next, id')] /\
  at' <= small_clock (clock_reads x').
Proof.
  destruct r as [tk lm st ep src hl cb ph ct pk te], x as [b sb lg wt ins outs tm ar cur reads rn tt fo].
  destruct b as [b1 b2 b3 [why b4] b5 b6 b7 b8]. cbn.
  intros -> -> -> -> -> -> He. unfold timer_turn. rewrite bind_run. cbn [get_w fst snd timers RunLoop.w RunLoop.rs].
  rewrite (pop_one _ _ _ _ _ _ He).
  eexists _, (mk_World _ _ _ _ _ _ _ _ _ _ _ _ _), _, _. split; [|cbn [bridge bridge_error why reason clock_reads timers]; split; [|split; [|split; [|split]]]].
  - lazy -[register_timer Nat.add small_clock Z.add Z.sub Z.max Z.min turn_target sat_sub budget_enter budget_leave Nat.max
      from_millis f64_zero empty singletonM wrap_add].
    reflexivity.
  - reflexivity.
  - reflexivity.
  - lia.
  - exact (register_one _ _ _ _).
  - unfold small_clock. lia.
Qed.

Lemma enter_run {S} clock t (s : St S) :
  enter clock t s = (mk_St (enter_turn (rs s) t (clock (clock_reads (w s)))) (tick (w s)), tt).
Proof. reflexivity. Qed.
Lemma leave_run {S} clock (s : St S) :
  leave clock s = (mk_St (leave_turn (rs s) (clock (clock_reads (w s))) (clock (1 + clock_reads (w s))%nat)) (tick (tick (w s))), tt).
Proof. reflexivity. Qed.

Lemma enter_keeps r t now : in_grace r = false ->
  phase (enter_turn r t now) = phase r /\ limits (enter_turn r t now) = limits r /\ source (enter_turn r t now) = source r /\
  parked_at (enter_turn r t now) = parked_at r.
Proof. destruct r as [? ? ? ? ? ? ? []]; [done|done|discriminate]. Qed.
Lemma leave_keeps r e now : in_grace r = false ->
  phase (leave_turn r e now) = phase r /\ limits (leave_turn r e now) = limits r /\ source (leave_turn r e now) = source r.
Proof. destruct r as [? ? ? ? ? ? ? [] ? ? []]; [done..|discriminate|discriminate]. Qed.

Lemma chain_step fuel s :
  chained s ->
  exists s', deadline_hit chain_v8 small_clock small_clock quiet_guard map_to_list (Datatypes.S fuel) (mk_RunFacts None) s =
    deadline_hit chain_v8 small_clock small_clock quiet_guard map_to_list fuel (mk_RunFacts None) s' /\
  chained s' /\ counted (rs s) + 1000 <= counted (rs s').
Proof.
  destruct s as [r x]. intros ((root & m & is_result & Hp) & Hl & Hsrc & Hb & Hwhy & Hpk & at_ & seq & id & e & next & last & Ht & He & Hat).
  cbn [rs w] in *. cbn [deadline_hit]. rewrite bind_run. cbn [read_clock fst snd rs w]. rewrite bind_run.
  unfold earliest_timer at 1 2. cbn [rs w]. change (timers (tick x)) with (timers x). rewrite !Ht, !(peek_one _ _ _ _ _ _ He). cbn [fst snd].
  rewrite (proj2 (Z.leb_le _ _) Hat), bind_run, enter_run. cbn [fst snd rs w]. rewrite bind_run.
  set (y := tick (with_timers (tick x) _)). set (r1 := enter_turn r at_ _).
  destruct (enter_turn_spec r at_ (small_clock (clock_reads (with_timers (tick x) (mk_TimerTable last next {[id := e]} [(at_, seq, id)])))))
    as (E1 & E2 & E3 & _). fold r1 in E1, E2, E3.
  destruct (enter_keeps r at_ (small_clock (clock_reads (with_timers (tick x) (mk_TimerTable last next {[id := e]} [(at_, seq, id)])))))
    as (P1 & P2 & P3 & P4); [by unfold in_grace; rewrite Hp|]. fold r1 in P1, P2, P3, P4. clearbody r1.
  destruct (chain_turn root m is_result last next at_ seq id e r1 y) as (cb & x' & id' & at' & Htt & H1 & H2 & H3 & H4 & H5);
    [by rewrite P1|by rewrite P2|by rewrite P3|done..|].
  rewrite Htt. cbn [fst snd]. rewrite bind_run, leave_run. cbn [fst snd rs w].
  eexists. split; [reflexivity|]. cbn [rs w].
  set (r2 := with_cpu_budget r1 cb). assert (Hen : turn_entered r2 = Some (small_clock (1 + clock_reads x)%nat)) by exact E2.
  destruct (leave_turn_spec r2 (small_clock (clock_reads x')) (small_clock (1 + clock_reads x')%nat) _ Hen) as (L1 & L2 & _).
  destruct (leave_keeps r2 (small_clock (clock_reads x')) (small_clock (1 + clock_reads x')%nat)) as (Q1 & Q2 & Q3);
    [unfold in_grace; cbn; by rewrite P1, Hp|].
  set (r3 := leave_turn r2 _ _) in *. change (phase r2) with (phase r1) in Q1. change (limits r2) with (limits r1) in Q2.
  change (source r2) with (source r1) in Q3. rewrite P1 in Q1. rewrite P2 in Q2. rewrite P3 in Q3.
  assert (Q4 : counted r3 = phase_counted r3) by (unfold phase_counted; by rewrite Q1, Hp).
  assert (Hc : phase_counted r2 = phase_counted r1) by reflexivity. assert (Hcr : phase_counted r = counted r) by (unfold phase_counted; by rewrite Hp).
  assert (Hy : (clock_reads y = 2 + clock_reads x)%nat) by reflexivity.
  clearbody r3. split.
  - unfold chained. cbn [rs w]. rewrite Q1, Q2, Q3, L2. split; [by exists root, m, is_result|].
    split; [done|]. split; [done|]. split; [exact H1|]. split; [exact H2|]. split; [cbn; unfold small_clock; lia|].
    eexists _, _, _, _, _, _. split; [exact H4|]. split; [reflexivity|]. cbn. unfold small_clock in *. lia.
  - rewrite Q4, L1, Hc, E1, Hcr. unfold small_clock, sat_sub. lia.
Qed.

(** A settling run whose timer was armed by [setTimeout(f, 0)]. *)
Definition chain_start : St Tape :=
  mk_St (with_phase (leave_turn small_run 0 0) (Settling 2 None false false)) (rearm (with_armed (small_world TimerTable_default) None)).

(** A run's wall budget does not end a chain of timers that are due at once: a
    callback that arms its successor keeps [deadline_hit] in its loop - it returns
    after no number of rounds - although each round takes counted time, so the
    run outlives any multiple of its budget.  No turn lasts the millisecond after
    which the watchdog first looks at a target, so the guard does not fire either
    ([Guard.next_check_lateness]). *)
Theorem timer_chain_outlives_wall :
  let run n := deadline_hit chain_v8 small_clock small_clock quiet_guard map_to_list n (mk_RunFacts None) chain_start in
  forall n, snd (run n) = None /\ 1000 * Z.of_nat n <= counted (rs (fst (run n))) /\
    (100000 <= Z.of_nat n -> from_millis (l_wall_time_ms small_limits) <= counted (rs (fst (run n)))).
Proof.
  intros run n.
  assert (Hs : forall s, chained s ->
    let out := deadline_hit chain_v8 small_clock small_clock quiet_guard map_to_list n (mk_RunFacts None) s in
    snd out = None /\ counted (rs s) + 1000 * Z.of_nat n <= counted (rs (fst out))).
  { induction n as [|n IH]; intros s Hs; [cbn; split; [done|lia]|].
    destruct (chain_step n s Hs) as (s' & E & Hs' & Hc). cbv zeta. rewrite E. destruct (IH s' Hs') as [I1 I2]. cbv zeta in I2. split; [exact I1|]. lia. }
  destruct (Hs chain_start) as [H1 H2].
  { split; [by eexists _, _, _|]. split; [done|]. split; [done|]. split; [done|]. split; [done|]. split; [by vm_compute|].
    eexists _, _, _, _, _, _. split; [reflexivity|]. split; [reflexivity|]. reflexivity. }
  change (counted (rs chain_start)) with 0 in H2. split; [exact H1|]. split; [exact H2|].
  intros Hn. change (from_millis (l_wall_time_ms small_limits)) with 100000000. unfold run. cbv zeta in H2. lia.
Qed.
