(* ===== verification/Grace.v ===== *)
(** * The post-result phase

    Once the result of a run is decided, what the phase after it may still do to
    the run's answer; and the rounds of the scan.  Over the definitions of
    [RunLoop]. *)

From S2P Require Import Prelude Bytes Text F64 Types StreamPayloads Errors Wire Link Timers Guard RunState Bridge Modules RunLoop Turns.
From S2P Require Streams.
Import Streams.

Section Owed.
Context {S : Type} `{HL : HostLink S} `{CO : CallOrder} `{DE : DebugError}.
Context (v : V8 S) (clock thread_clock : nat -> Z) (interrupt : nat -> option TerminationReason).
Context (order : gmap Z Outb.OutStream -> list (Z * Outb.OutStream)).
Context (o0 : Output) (early : bool).

(** The run is in the post-result phase, holding the output [o0]; [early]: it was
    sent already. *)
Definition Owed (r : RunState) : Prop :=
  match phase r with Grace g => gs_output g = o0 /\ early_result_sent g = early | _ => False end.

(** [o] is the answer decided: the same but for the telemetry stamped on the way
    out, with a report that says whether the result was sent early. *)
Definition delivers (o : Output) : Prop :=
  o_exports o = o_exports o0 /\ o_skipped_exports o = o_skipped_exports o0 /\ o_stdout o = o_stdout o0 /\
  o_stderr o = o_stderr o0 /\ o_duration_ms o = o_duration_ms o0 /\
  exists report, o_background o = Some report /\ g_early_result_sent report = early.
Definition answered (r : result FailureOutput Output) : Prop := exists o, r = Ok o /\ delivers o.

Definition Keeps {A} (m : M S A) : Prop := forall s, Owed (rs s) -> Owed (rs (fst (m s))).
Definition Concludes (m : M S Output) : Prop := forall s, Owed (rs s) -> delivers (snd (m s)).
(** With a partial outcome: [None]: undecided. *)
Definition Ends {A} (out : A -> option (result FailureOutput Output)) (m : M S A) : Prop :=
  forall s, Owed (rs s) -> match out (snd (m s)) with None => Owed (rs (fst (m s))) | Some r => answered r end.

Definition of_scan (x : ScanOutcome) : option (result FailureOutput Output) :=
  match x with Continue => None | Finished r => Some r end.
Definition of_option (x : option (result FailureOutput Output)) : option (result FailureOutput Output) := x.
Definition of_hit (x : option (option (result FailureOutput Output))) : option (result FailureOutput Output) :=
  match x with Some (Some r) => Some r | _ => None end.

(** *** Sequencing *)

Lemma Keeps_ret {A} (a : A) : Keeps (mret a).
Proof. intros s Hs. exact Hs. Qed.
Lemma Keeps_bind {A B} (m : M S A) (k : A -> M S B) : Keeps m -> (forall a, Keeps (k a)) -> Keeps (m ≫= k).
Proof. intros Hm Hk s Hs. rewrite bind_run. by apply Hk, Hm. Qed.
Lemma Concludes_bind {A} (m : M S A) (k : A -> M S Output) : Keeps m -> (forall a, Concludes (k a)) -> Concludes (m ≫= k).
Proof. intros Hm Hk s Hs. rewrite bind_run. by apply Hk, Hm. Qed.
Lemma Ends_bind {A B} out (m : M S A) (k : A -> M S B) : Keeps m -> (forall a, Ends out (k a)) -> Ends out (m ≫= k).
Proof. intros Hm Hk s Hs. rewrite bind_run. by apply Hk, Hm. Qed.

Lemma Keeps_get_rs {B} (k : RunState -> M S B) : (forall r, Owed r -> Keeps (k r)) -> Keeps (get_rs ≫= k).
Proof. intros Hk s Hs. by apply (Hk (rs s)). Qed.
Lemma Concludes_get_rs (k : RunState -> M S Output) : (forall r, Owed r -> Concludes (k r)) -> Concludes (get_rs ≫= k).
Proof. intros Hk s Hs. by apply (Hk (rs s)). Qed.
Lemma Ends_get_rs {B} out (k : RunState -> M S B) : (forall r, Owed r -> Ends out (k r)) -> Ends out (get_rs ≫= k).
Proof. intros Hk s Hs. by apply (Hk (rs s)). Qed.

(** What ends with an outcome goes on only when there is none. *)
Lemma Ends_then {A B} out out' (m : M S A) (k : A -> M S B) :
  Ends out m -> (forall a, match out a with
    | None => Ends out' (k a)
    | Some r => forall s, match out' (snd (k a s)) with Some r' => answered r -> answered r' | None => False end end) ->
  Ends out' (m ≫= k).
Proof.
  intros Hm Hk s Hs. rewrite bind_run. specialize (Hm s Hs). destruct (m s) as [s' a]. cbn in *. specialize (Hk a).
  destruct (out a) as [r|]; [|by apply Hk]. specialize (Hk s'). destruct (out' _) as [r'|]; [by apply Hk|done].
Qed.
Lemma Ends_after {A} out (m : M S A) (k : M S unit) : Ends out m -> Keeps k -> Ends out (a ← m; k;; mret a).
Proof.
  intros Hm Hk. apply (Ends_then out out); [exact Hm|]. intros a. destruct (out a) as [r|] eqn:E.
  - intros s. rewrite bind_run. cbn. by rewrite E.
  - intros s Hs. rewrite bind_run. cbn. rewrite E. by apply Hk.
Qed.
Lemma Ends_finished_ok m : Concludes m -> Ends of_scan (finished_ok (S := S) m).
Proof.
  intros Hm s Hs. unfold finished_ok. rewrite bind_run. cbn. eexists. split; [done|]. by apply Hm.
Qed.
Lemma Ends_continue : Ends of_scan (mret Continue).
Proof. intros s Hs. exact Hs. Qed.

(** *** The primitive actions *)

Lemma Keeps_same {A} (m : M S A) : (forall s, rs (fst (m s)) = rs s) -> Keeps m.
Proof. intros Hm s Hs. by rewrite Hm. Qed.
Lemma Keeps_set_rs f : (forall r, Owed r -> Owed (f r)) -> Keeps (@set_rs S f).
Proof. intros Hf s Hs. by apply Hf. Qed.
Lemma Keeps_get_w : Keeps (@get_w S).
Proof. by apply Keeps_same. Qed.
Lemma Keeps_get : Keeps (@get_rs S).
Proof. by apply Keeps_same. Qed.
Lemma Keeps_set_w f : Keeps (@set_w S f).
Proof. by apply Keeps_same. Qed.
Lemma Keeps_read_clock : Keeps (@read_clock S clock).
Proof. by apply Keeps_same. Qed.
Lemma Keeps_read_thread_clock : Keeps (@read_thread_clock S thread_clock).
Proof. by apply Keeps_same. Qed.
Lemma Keeps_reason_get : Keeps (@reason_get S interrupt).
Proof. by apply Keeps_same. Qed.
Lemma Keeps_is_execution_terminating : Keeps (@is_execution_terminating S interrupt).
Proof. by apply Keeps_same. Qed.
Lemma Keeps_send run_id msg : Keeps (send (S := S) run_id msg).
Proof. apply Keeps_same. intros s. unfold send. by destruct (link_send _ _ _). Qed.
Lemma Keeps_guest_in {A} mode (f : World S -> World S * A) : Keeps (guest_in mode f).
Proof. apply Keeps_same. intros s. unfold guest_in. by destruct (f (w s)). Qed.
Lemma Keeps_guest {A} (f : World S -> World S * A) : Keeps (guest f).
Proof. apply Keeps_guest_in. Qed.
Lemma Keeps_guard_end : Keeps (@guard_end S).
Proof. by apply Keeps_same. Qed.
Lemma Keeps_earliest_timer : Keeps (@earliest_timer S).
Proof. apply Keeps_same. intros s. unfold earliest_timer. by destruct (peek_deadline _). Qed.
Lemma Keeps_set_grace f :
  (forall g, gs_output (f g) = gs_output g /\ early_result_sent (f g) = early_result_sent g) -> Keeps (@set_grace S f).
Proof.
  intros Hf. apply Keeps_set_rs. unfold Owed. intros r Hr. destruct (phase r) as [| |g] eqn:E; [done..|].
  cbn. destruct (Hf g) as [-> ->]. exact Hr.
Qed.

Create HintDb owed discriminated.
#[local] Hint Constants Opaque : owed.
#[local] Hint Resolve Keeps_ret Keeps_get Keeps_get_w Keeps_set_w Keeps_read_clock Keeps_read_thread_clock Keeps_reason_get
  Keeps_is_execution_terminating Keeps_send Keeps_guest_in Keeps_guest Keeps_guard_end Keeps_earliest_timer
  Ends_continue : owed.

Ltac owed_step :=
  match goal with
  | |- forall _, _ => intros ?
  | |- _ (let _ := _ in _) => cbv zeta
  | |- Keeps (get_rs ≫= _) => apply Keeps_get_rs
  | |- Concludes (get_rs ≫= _) => apply Concludes_get_rs
  | |- Ends _ (get_rs ≫= _) => apply Ends_get_rs
  | |- Keeps (_ ≫= _) => apply Keeps_bind
  | |- Concludes (_ ≫= _) => apply Concludes_bind
  | |- Ends _ (finished_ok _) => apply Ends_finished_ok
  | |- Ends _ (_ ≫= _) => apply Ends_bind
  | |- Keeps (set_grace _) => apply Keeps_set_grace; intros ?; repeat case_match; by split
  | |- Keeps (match ?x with _ => _ end) => destruct x
  | |- Concludes (match ?x with _ => _ end) => destruct x
  | |- Ends _ (match ?x with _ => _ end) => destruct x
  | |- _ => solve [eauto 2 with owed nocore]
  | |- _ => progress cbv beta
  end.
Ltac walk := repeat owed_step.

Lemma Owed_on_budget g f : Keeps (@on_budget S g f).
Proof.
  apply Keeps_set_rs. unfold Owed. intros r Hr. destruct g; [|exact Hr]. destruct (phase r) as [| |gr] eqn:E; [done..|]. exact Hr.
Qed.
#[local] Hint Resolve Owed_on_budget : owed.
Lemma Keeps_elapsed_since t : Keeps (@elapsed_since S clock t).
Proof. unfold elapsed_since. walk. Qed.
Lemma Keeps_enter_budget g : Keeps (@enter_budget S thread_clock g).
Proof. unfold enter_budget. walk. Qed.
Lemma Keeps_leave_budget g : Keeps (@leave_budget S thread_clock g).
Proof. unfold leave_budget. walk. Qed.
Lemma Keeps_turn_prelude : Keeps (@turn_prelude S).
Proof. unfold turn_prelude. walk. Qed.
Lemma Keeps_bridge_error_get : Keeps (@bridge_error_get S).
Proof. unfold bridge_error_get. walk. Qed.
Lemma Keeps_streams_open : Keeps (@streams_open S).
Proof. unfold streams_open. walk. Qed.
Lemma Keeps_grace_state : Keeps (@grace_state S).
Proof. unfold grace_state. walk. Qed.
Lemma Keeps_guard_begin : Keeps (@guard_begin S clock).
Proof. unfold guard_begin. walk. Qed.
#[local] Hint Resolve Keeps_elapsed_since Keeps_enter_budget Keeps_leave_budget Keeps_turn_prelude Keeps_bridge_error_get
  Keeps_streams_open Keeps_grace_state Keeps_guard_begin : owed.
Lemma Keeps_enter t : Keeps (@enter S clock t).
Proof.
  unfold enter. walk. apply Keeps_set_rs. unfold Owed, enter_turn, count. intros r Hr. destruct (phase r) eqn:E; [done..|]. exact Hr.
Qed.
Lemma Keeps_leave : Keeps (@leave S clock).
Proof.
  unfold leave. walk. apply Keeps_set_rs. unfold Owed, leave_turn, count. intros r Hr.
  destruct (turn_entered r); destruct (phase r) eqn:E; cbn; try rewrite E; done.
Qed.
#[local] Hint Resolve Keeps_enter Keeps_leave : owed.

(** *** The end of the phase *)

Lemma Keeps_record_snapshot t : Keeps (record_snapshot (S := S) t).
Proof. unfold record_snapshot. walk. Qed.
#[local] Hint Resolve Keeps_record_snapshot : owed.

Lemma Concludes_finish_grace st : Concludes (finish_grace (S := S) clock thread_clock st).
Proof.
  unfold finish_grace. apply Concludes_bind; [walk|]. intros now. apply Concludes_get_rs. intros r Hr. unfold Owed in Hr.
  destruct (phase r) as [| |g]; [done..|]. destruct Hr as [Ho He]. intros s _.
  repeat (rewrite bind_run; cbv beta zeta). cbn [snd mret M_ret]. rewrite Ho. repeat (split; [reflexivity|]).
  eexists. split; [reflexivity|]. exact He.
Qed.
Lemma Keeps_close_streams m : Keeps (close_streams (S := S) order m).
Proof. unfold close_streams. walk. Qed.
#[local] Hint Resolve Concludes_finish_grace Keeps_close_streams : owed.
Lemma Concludes_finish_post_phase : Concludes (finish_post_phase (S := S) clock thread_clock order).
Proof. unfold finish_post_phase. walk. Qed.
Lemma Keeps_note_grace_error n m : Keeps (@note_grace_error S n m).
Proof. unfold note_grace_error. walk. Qed.
#[local] Hint Resolve Concludes_finish_post_phase Keeps_note_grace_error : owed.
Lemma Concludes_finish_killed_grace : Concludes (finish_killed_grace (S := S) clock thread_clock interrupt order).
Proof. unfold finish_killed_grace. walk. Qed.
#[local] Hint Resolve Concludes_finish_killed_grace : owed.

(** *** Scans of the phase *)

Lemma Keeps_checkpoint : Keeps (perform_microtask_checkpoint v).
Proof. unfold perform_microtask_checkpoint. walk. Qed.
Lemma Keeps_drive : Keeps (drive v order).
Proof. unfold drive. walk. Qed.
#[local] Hint Resolve Keeps_checkpoint Keeps_drive : owed.
Lemma Keeps_settle_waiting ps : forall still e, Keeps (settle_waiting v ps still e).
Proof. induction ps as [|p ps IH]; intros still e; cbn [settle_waiting]; walk; apply IH. Qed.
#[local] Hint Resolve Keeps_settle_waiting : owed.
Lemma Keeps_decide_waiting : Keeps (decide_waiting v clock interrupt).
Proof. unfold decide_waiting. walk. Qed.
#[local] Hint Resolve Keeps_decide_waiting : owed.
Lemma Ends_grace_scan : Ends of_scan (grace_scan v clock thread_clock interrupt order).
Proof. unfold grace_scan. walk. Qed.
#[local] Hint Resolve Ends_grace_scan : owed.
Lemma Ends_scan fuel facts : Ends of_scan (scan v clock thread_clock interrupt order fuel facts).
Proof. destruct fuel; cbn [scan]; [walk|]. apply Ends_get_rs. unfold Owed. intros r Hr. destruct (phase r); [done..|walk]. Qed.
#[local] Hint Resolve Ends_scan : owed.
Lemma Ends_finish_turn facts : Ends of_scan (finish_turn v clock thread_clock interrupt order facts true).
Proof. unfold finish_turn. walk. Qed.
#[local] Hint Resolve Ends_finish_turn : owed.

Lemma Ends_with_turn (m : M S ScanOutcome) : Ends of_scan m -> Ends of_scan (with_turn clock m).
Proof. intros Hm. unfold with_turn. apply Ends_bind; [walk|]. intros _. apply Ends_after; [exact Hm|walk]. Qed.
Lemma Ends_with_epoch (m : M S ScanOutcome) : Ends of_scan m -> Ends of_scan (with_epoch thread_clock m).
Proof.
  intros Hm. unfold with_epoch. apply Ends_get_rs. intros r _. cbv zeta. apply Ends_bind; [walk|]. intros _.
  apply Ends_after; [exact Hm|walk].
Qed.

(** *** Turns *)

Lemma Owed_in_grace r : Owed r -> in_grace r = true.
Proof. unfold Owed, in_grace. by destruct (phase r). Qed.

(** Answers of the host decode; it sends no chunk of a body, which could exceed
    the window it has. *)
Definition decodes : Prop := forall bytes w, is_ok (snd (deserialize v bytes w)) = true.
Definition calm (msg : Inbound) : bool := match msg with IStreamChunk _ _ => false | _ => true end.
Context (Hdecodes : decodes).

Definition on_turn {A} (k : A -> option ScanOutcome) (a : A) : option (result FailureOutput Output) := k a ≫= of_scan.

(** A message's arm: nothing, or the end of the phase. *)
Definition Arm (m : M S (option ScanOutcome)) : Prop :=
  forall s, Owed (rs s) -> match snd (m s) with
    | None => Owed (rs (fst (m s)))
    | Some Continue => False
    | Some (Finished r) => answered r end.

Lemma Arm_keeps {A} (m : M S A) : Keeps m -> Arm (m;; mret None).
Proof. intros Hm s Hs. rewrite bind_run. by apply Hm. Qed.
Lemma Arm_bind {A} (m : M S A) (k : A -> M S (option ScanOutcome)) : Keeps m -> (forall a, Arm (k a)) -> Arm (m ≫= k).
Proof. intros Hm Hk s Hs. rewrite bind_run. by apply Hk, Hm. Qed.
Lemma Arm_none : Arm (mret None).
Proof. intros s Hs. exact Hs. Qed.

Lemma Arm_take_response c a : Arm (take_response v clock interrupt c a).
Proof.
  unfold take_response. apply Arm_bind; [walk|]. intros r. apply Arm_bind; [walk|]. intros now. apply Arm_bind; [walk|]. intros w.
  destruct (default _ _) as [b resolver]. apply Arm_bind; [walk|]. intros _. destruct resolver; [|apply Arm_none].
  destruct a as [[bytes|]|]; [|apply Arm_none..]. intros s Hs. rewrite bind_run. unfold guest, guest_in.
  pose proof (Hdecodes bytes (RunLoop.w s)) as Hd. destruct (deserialize v bytes (RunLoop.w s)) as [w' [x|e]]; [|discriminate Hd].
  exact Hs.
Qed.
Lemma Keeps_send_all run_id ms : Keeps (send_all (S := S) run_id ms).
Proof. induction ms as [|m ms IH]; cbn [send_all]; walk. Qed.
#[local] Hint Resolve Keeps_send_all : owed.
Lemma stream_end_ok ok slot i e : Inb.outcome (Inb.deliver_stream_frame ok slot (IStreamEnd i e)).2 = Ok tt.
Proof. unfold Inb.deliver_stream_frame. repeat case_match; simplify_eq/=; reflexivity. Qed.

Lemma Arm_take_message msg : calm msg = true -> Arm (take_message v clock thread_clock interrupt order true msg).
Proof.
  intros Hc. destruct msg; cbn [take_message]; try discriminate Hc.
  - apply Arm_take_response.
  - unfold take_stream_frame. apply Arm_bind; [walk|]. intros x.
    pose proof (stream_end_ok (chunk_made v x) (in_streams x) stream_id error) as Hok.
    destruct (Inb.deliver_stream_frame _ _ _) as [st effects]. cbn [snd] in Hok. rewrite Hok.
    apply Arm_bind; [walk|]. intros _. apply Arm_bind; [walk|]. intros _. apply Arm_none.
  - apply Arm_bind; [walk|]. intros now. apply Arm_bind; [walk|]. intros _. apply Arm_none.
  - repeat (apply Arm_bind; [walk|]; intros ?). apply Arm_none.
  - intros s Hs. rewrite bind_run. pose proof (Ends_finished_ok _ Concludes_finish_post_phase s Hs) as He.
    unfold finished_ok in *. rewrite bind_run in *. exact He.
  - apply Arm_none.
Qed.

Lemma Ends_frame_turn facts msg s : Owed (rs s) -> calm msg = true ->
  match of_scan (snd (frame_turn v clock thread_clock interrupt order facts msg s)) with
  | None => Owed (rs (fst (frame_turn v clock thread_clock interrupt order facts msg s))) | Some r => answered r end.
Proof.
  intros Hs Hc. revert s Hs. change (Ends of_scan (frame_turn v clock thread_clock interrupt order facts msg)).
  unfold frame_turn. apply Ends_get_rs. intros r Hr. rewrite (Owed_in_grace r Hr). cbv zeta. apply Ends_with_turn, Ends_with_epoch.
  apply Ends_bind; [walk|]. intros _. intros s Hs. rewrite bind_run. pose proof (Arm_take_message msg Hc s Hs) as Ha.
  destruct (take_message _ _ _ _ _ _ _ s) as [s' [x|]]; cbn in Ha |- *.
  - destruct x; [done|exact Ha].
  - revert s' Ha. change (Ends of_scan (perform_microtask_checkpoint v;; finish_turn v clock thread_clock interrupt order facts true)). walk.
Qed.

Lemma Ends_timer_turn facts : Ends of_scan (timer_turn v clock thread_clock interrupt order facts).
Proof.
  unfold timer_turn. apply Ends_bind; [walk|]. intros x. destruct (pop_earliest (timers x)) as [t entry].
  apply Ends_bind; [walk|]. intros _. destruct entry as [entry|]; [|walk]. apply Ends_get_rs. intros r Hr.
  rewrite (Owed_in_grace r Hr). cbv zeta. apply Ends_with_turn, Ends_with_epoch. walk.
Qed.
Lemma Keeps_cancel_streams m : Keeps (cancel_streams v order m).
Proof. unfold cancel_streams. walk. Qed.
#[local] Hint Resolve Keeps_cancel_streams : owed.
Lemma Ends_stream_idle_turn facts : Ends of_scan (stream_idle_turn v clock thread_clock interrupt order facts).
Proof. unfold stream_idle_turn. apply Ends_with_turn, Ends_with_epoch. walk. Qed.
Lemma Keeps_with_turn {A} (m : M S A) : Keeps m -> Keeps (with_turn clock m).
Proof. intros Hm. unfold with_turn. walk. Qed.
Lemma Keeps_with_epoch {A} (m : M S A) : Keeps m -> Keeps (with_epoch thread_clock m).
Proof. intros Hm. unfold with_epoch. walk. Qed.
Lemma Keeps_conn_lost_stream_turn : Keeps (conn_lost_stream_turn v clock thread_clock order).
Proof. unfold conn_lost_stream_turn. apply Keeps_with_turn, Keeps_with_epoch. walk. Qed.
#[local] Hint Resolve Keeps_conn_lost_stream_turn : owed.
Lemma Ends_conclude_grace_wall s : Owed (rs s) ->
  match snd (conclude_grace_wall (S := S) clock thread_clock order s) with
  | None => Owed (rs (fst (conclude_grace_wall (S := S) clock thread_clock order s))) | Some o => delivers o end.
Proof.
  intros Hs. unfold conclude_grace_wall. rewrite !bind_run. cbv beta.
  match goal with |- context [set_grace ?f s] =>
    assert (H1 : Owed (rs (fst (set_grace f s)))) by (apply (Keeps_set_grace f); [by intros|exact Hs]);
    destruct (set_grace f s) as [s1 []] end. cbn [fst snd] in *.
  pose proof (Keeps_streams_open s1 H1) as H2. destruct (streams_open s1) as [s2 []]; cbn in H2 |- *; [exact H2|].
  rewrite bind_run. cbn. by apply Concludes_finish_post_phase.
Qed.

(** *** Events *)

Lemma Ends_again (m : M S ScanOutcome) (go : M S (option (option (result FailureOutput Output)))) :
  Ends of_scan m -> Ends of_hit go ->
  Ends of_hit (out ← m; leave clock;; match out with Finished x => mret (Some (Some x)) | Continue => go end).
Proof.
  intros Hm Hgo. apply (Ends_then of_scan of_hit); [exact Hm|]. intros [|r]; cbn.
  - apply Ends_bind; [walk|]. intros _. exact Hgo.
  - intros s. rewrite bind_run. cbn. done.
Qed.

Lemma Ends_wall (go : M S (option (option (result FailureOutput Output)))) :
  Ends of_hit go ->
  Ends of_hit (concluded ← conclude_grace_wall clock thread_clock order; leave clock;;
    match concluded with Some o => mret (Some (Some (Ok o))) | None => go end).
Proof.
  intros Hgo s Hs. rewrite bind_run. pose proof (Ends_conclude_grace_wall s Hs) as He.
  destruct (conclude_grace_wall _ _ _ s) as [s1 [o|]]; cbn [fst snd] in *; rewrite bind_run.
  - cbn. exists o. done.
  - apply Hgo. by apply Keeps_leave.
Qed.

Lemma Ends_deadline_hit fuel facts : Ends of_hit (deadline_hit v clock thread_clock interrupt order fuel facts).
Proof.
  induction fuel as [|fuel IH]; cbn [deadline_hit]; [intros s Hs; exact Hs|].
  apply Ends_bind; [walk|]. intros now. apply Ends_bind; [walk|]. intros t. cbv zeta.
  destruct (match t with Some t => _ | None => None end) as [due|].
  { apply Ends_bind; [walk|]. intros _. apply Ends_again; [apply Ends_timer_turn|exact IH]. }
  apply Ends_get_rs. intros r Hr. rewrite (Owed_in_grace r Hr). apply Ends_bind; [walk|]. intros x.
  destruct (match Outb.out_idle_deadline _ with Some d => _ | None => None end) as [d|].
  { apply Ends_bind; [walk|]. intros _. apply Ends_again; [apply Ends_stream_idle_turn|exact IH]. }
  destruct (match grace_wall_instant r with Some b => _ | None => None end) as [b|]; [|intros s Hs; exact Hs].
  apply Ends_bind; [walk|]. intros _. apply Ends_wall. exact IH.
Qed.

(** The events of a wait that the phase's promise is about. *)
Definition calm_event (e : LoopEvent) : Prop := match e with Host msg => calm msg = true | _ => True end.
Definition calm_wait (r : Received) : Prop := match r with Arrived (EvHost msg) _ => calm msg = true | _ => True end.

Lemma Ends_boundary_close e : Ends (fun x => Some x) (boundary_close (S := S) clock thread_clock order e).
Proof.
  unfold boundary_close. apply Ends_get_rs. intros r Hr. cbv zeta. rewrite (Owed_in_grace r Hr).
  apply Ends_bind; [walk|]. intros _ s Hs. rewrite bind_run. cbn. eexists. split; [done|]. by apply Concludes_finish_post_phase.
Qed.

Lemma Ends_handle_loop_event fuel facts e : calm_event e ->
  Ends of_hit (handle_loop_event v clock thread_clock interrupt order fuel facts e).
Proof.
  intros Hc. destruct e as [msg| |e]; cbn [handle_loop_event].
  - intros s Hs. rewrite bind_run. pose proof (Ends_frame_turn facts msg s Hs Hc) as He.
    destruct (frame_turn _ _ _ _ _ _ _ s) as [s1 []]; exact He.
  - apply Ends_deadline_hit.
  - apply Ends_bind; [walk|]. intros r. apply Ends_bind; [walk|]. intros x. apply Ends_bind; [destruct (_ && _); walk|]. intros _.
    intros s Hs. rewrite bind_run. cbn. exact (Ends_boundary_close e s Hs).
Qed.

Lemma Keeps_wait_event r : Keeps (wait_event (S := S) clock r).
Proof. unfold wait_event. walk. Qed.
Lemma wait_event_calm r s : calm_wait r -> calm_event (fst (snd (wait_event (S := S) clock r s))).
Proof. destruct r as [[|[]|] ?| |]; done. Qed.
Lemma Keeps_next_deadline : Keeps (@next_deadline S).
Proof. unfold next_deadline, deadline_instant_m. walk. Qed.
Lemma Keeps_next_timeout : Keeps (@next_timeout S clock).
Proof. unfold next_timeout, deadline_instant_m. walk. Qed.
#[local] Hint Resolve Keeps_wait_event Keeps_next_deadline Keeps_next_timeout : owed.

Lemma stamp_wall_answered x s : answered x -> answered (snd (stamp_wall (S := S) clock x s)).
Proof.
  intros (o & -> & Ho). unfold stamp_wall. repeat (rewrite bind_run; cbv beta zeta). cbn [snd mret M_ret]. eexists. split; [done|]. exact Ho.
Qed.

(** Stamping what an event ended with, or going on. *)
Lemma Ends_stamped (m : M S (option (option (result FailureOutput Output)))) (go : M S (option (result FailureOutput Output)))
    (after : M S unit) :
  Ends of_hit m -> Keeps after -> Ends of_option go ->
  Ends of_option (out ← m; after;; match out with
    | Some (Some x) => x ← stamp_wall clock x; mret (Some x) | Some None => go | None => mret None end).
Proof.
  intros Hm Ha Hgo s Hs. rewrite bind_run. specialize (Hm s Hs). destruct (m s) as [s1 [[x|]|]]; cbn in Hm |- *; rewrite bind_run.
  - rewrite bind_run. cbn. by apply stamp_wall_answered.
  - apply Hgo, Ha, Hm.
  - cbn. apply Ha, Hm.
Qed.
Lemma Ends_stamp_ok (m : M S (result FailureOutput Output)) :
  Ends (fun x => Some x) m -> Ends of_option (x ← m; x ← stamp_wall clock x; mret (Some x)).
Proof.
  intros Hm s Hs. rewrite !bind_run. specialize (Hm s Hs). destruct (m s) as [s1 x]. cbn -[stamp_wall] in *.
  by apply stamp_wall_answered.
Qed.
Lemma Ends_ok m : Concludes m -> Ends (fun x => Some x) (o ← m; mret (M := M S) (Ok (E := FailureOutput) o)).
Proof. intros Hm s Hs. rewrite bind_run. cbn. eexists. split; [done|]. by apply Hm. Qed.

Lemma Ends_run_loop fuel facts waits : Forall calm_wait waits ->
  Ends of_option (run_loop v clock thread_clock interrupt order fuel facts waits).
Proof.
  revert waits. induction fuel as [|fuel IH]; intros waits Hw; cbn [run_loop]; [intros s Hs; exact Hs|].
  apply Ends_bind; [walk|]. intros [reason|].
  { apply Ends_get_rs. intros r Hr. rewrite (Owed_in_grace r Hr). apply Ends_stamp_ok, Ends_ok. walk. }
  apply Ends_bind; [walk|]. intros _. apply Ends_get_rs. intros r Hr. destruct (source r).
  - destruct waits as [|wait waits]; [intros s Hs; exact Hs|]. apply Forall_cons in Hw as [Hw1 Hw].
    apply Ends_bind; [walk|]. intros _. intros s Hs. rewrite bind_run.
    pose proof (wait_event_calm wait s Hw1) as Hc. pose proof (Keeps_wait_event wait s Hs) as Hs1.
    destruct (wait_event clock wait s) as [s1 [event woke]]. cbn [fst snd] in *. revert s1 Hs1.
    match goal with |- forall s1, _ -> match of_option (snd (?m s1)) with _ => _ end => change (Ends of_option m) end. cbv zeta.
    apply Ends_bind; [destruct event; walk|]. intros _.
    apply (Ends_stamped (handle_loop_event v clock thread_clock interrupt order fuel facts event)).
    + by apply Ends_handle_loop_event.
    + destruct event; walk.
    + by apply IH.
  - apply Ends_bind; [walk|]. intros [t|].
    + apply Ends_bind; [walk|]. intros _. intros s Hs. pose proof (Ends_stamped
        (deadline_hit v clock thread_clock interrupt order fuel facts) (run_loop v clock thread_clock interrupt order fuel facts waits) (mret tt)
        (Ends_deadline_hit fuel facts) (Keeps_ret tt) (IH waits Hw) s Hs) as He.
      exact He.
    + intros s Hs. rewrite !bind_run. cbn. apply stamp_wall_answered. eexists. split; [done|]. by apply Concludes_finish_post_phase.
Qed.
End Owed.


#[local] Instance small_order : CallOrder := map_to_list.
#[local] Instance small_debug : DebugError := fun _ => "error"%string.

Definition grace_output : Output :=
  mk_Output [x01] [] ["out"%string] [] f64_zero f64_zero f64_zero None [].
Definition grace_run : RunState :=
  with_phase (leave_turn small_run 0 0) (Grace (mk_GraceState grace_output 0 (Some 10000000) 0 None budget_new 50 None true 0)).
Definition grace_st (resolvers : gmap Z Z) : St Tape :=
  let w := small_world TimerTable_default in
  mk_St grace_run (with_armed (with_waiting (with_bridge w
    (mk_BridgeState 1 6 None reason_new false resolvers BridgeCallLog_default (mk_Tape [] []))) (Some [9])) None).
Definition pending_v8 : V8 Tape := small_v8 (fun _ => StatusPending) (fun w => (w, CallThrew None)) (fun w => w).


(** An answer of the host that cannot be decoded fails a run whose result was
    already sent: the turn of the post-result phase ends in a failure, and what
    concludes the run is a second result, a failure, instead of the completion
    report. *)
Theorem late_answer_fails_decided_run :
  let undecodable := mk_V8 Tape (checkpoint pending_v8) (promise_status pending_v8) (RunLoop.runtime_error_from_value pending_v8)
    (host_bridge_error_from_rejection pending_v8) (error_text pending_v8) (exception_error pending_v8)
    (fun _ w => (w, Err (Some (Malformed "truncated")))) (serialize pending_v8) (namespace_of pending_v8) (objects pending_v8)
    (resolving_ran pending_v8) (call_arguments pending_v8) (call_function pending_v8) (call_timer pending_v8)
    (export_entries pending_v8) (serialize_object pending_v8) (compile_module pending_v8) (instantiate_module pending_v8)
    (evaluate_module pending_v8) (define_stub pending_v8) (value_globals pending_v8) (pulls pending_v8) (pulls_ran pending_v8)
    (cancel_killed pending_v8) (cleanup_ran pending_v8) (chunk_made pending_v8) (heap_used pending_v8) in
  let s := grace_st {[ 5 := 4 ]} in
  (exists g, phase (rs s) = Grace g /\ early_result_sent g = true) /\
  exists failure, snd (run_loop undecodable small_clock small_clock quiet_guard map_to_list 5 (mk_RunFacts None)
    [Arrived (EvHost (IBridgeResponse 5 (inl (Some [x00])))) 0] s) = Some (Err failure) /\
    exists payload, completion_message (Err failure) None false = OResult (Types.Failure payload).
Proof.
  cbv zeta. split; [by eexists|]. match goal with |- exists failure, snd ?m = _ /\ _ => destruct (snd m) as [[o|failure]|] eqn:E end.
  - vm_compute in E. discriminate E.
  - exists failure. split; [done|]. by eexists.
  - vm_compute in E. discriminate E.
Qed.

(** ** The rounds of the scan *)

Section Rounds.
Context {S : Type} `{HL : HostLink S} `{CO : CallOrder} `{DE : DebugError}.
Context (v : V8 S) (clock thread_clock : nat -> Z) (interrupt : nat -> option TerminationReason).
Context (order : gmap Z Outb.OutStream -> list (Z * Outb.OutStream)).

(** No requested call is left to make. *)
Definition called (r : RunState) : bool := match phase r with Settling _ _ call_pending _ => negb call_pending | _ => true end.

Definition Lands (m : M S ScanOutcome) : Prop := forall s, snd (m s) = Continue -> called (rs (fst (m s))) = true.

Lemma Lands_bind {A} (m : M S A) (k : A -> M S ScanOutcome) : (forall a, Lands (k a)) -> Lands (m ≫= k).
Proof. intros Hk s. rewrite bind_run. apply Hk. Qed.
Lemma Lands_finished r : Lands (mret (Finished r)).
Proof. intros s. discriminate. Qed.
Lemma Lands_finished_err e : Lands (finished_err clock e).
Proof. unfold finished_err. apply Lands_bind. intros f. apply Lands_finished. Qed.
Lemma Lands_finished_or e : Lands (finished_or clock interrupt e).
Proof. unfold finished_or. apply Lands_bind. intros r. apply Lands_finished_err. Qed.
Lemma Lands_settling p : Lands (set_rs (fun r => with_phase r (Settling p None false true));; mret Continue).
Proof. intros s _. reflexivity. Qed.
#[local] Hint Resolve Lands_finished Lands_finished_err Lands_finished_or Lands_settling : owed.

Lemma Lands_ends o0 early (f : RunState -> RunState) m :
  (forall r, Owed o0 early (f r)) -> Ends o0 early of_scan m -> Lands (set_rs f;; m).
Proof.
  intros Hf Hm s. rewrite bind_run. intros Hc. specialize (Hm (fst (set_rs f s)) (Hf (rs s))).
  unfold of_scan in Hm. rewrite Hc in Hm. unfold Owed in Hm. unfold called. by destruct (phase _).
Qed.
Lemma Lands_start_grace o g st : Lands (start_grace v clock thread_clock interrupt order o g st).
Proof.
  unfold start_grace. do 11 (apply Lands_bind; intros ?; cbv zeta).
  match goal with |- Lands (set_rs (fun r => with_phase r (Grace (mk_GraceState ?o _ _ _ _ _ _ _ ?e _)));; _) => apply (Lands_ends o e) end.
  - intros r. by split.
  - apply Ends_with_turn, Ends_with_epoch, Ends_grace_scan.
Qed.
#[local] Hint Resolve Lands_start_grace : owed.

Ltac lands :=
  repeat match goal with
  | |- forall _, _ => intros ?
  | |- Lands (let _ := _ in _) => cbv zeta
  | |- Lands (match ?x with _ => _ end) => destruct x
  | |- _ => solve [auto 2 with owed nocore]
  | |- Lands (_ ≫= _) => apply Lands_bind
  | |- _ => progress cbv beta
  end.

Lemma Lands_build_output e sk : Lands (build_output_and_maybe_grace v clock thread_clock interrupt order e sk).
Proof. unfold build_output_and_maybe_grace. lands. Qed.
#[local] Hint Resolve Lands_build_output : owed.
Lemma Lands_invoke facts m : Lands (invoke_requested_call v clock thread_clock interrupt order facts m).
Proof. unfold invoke_requested_call. lands. Qed.

Lemma scan_called n facts s : called (rs s) = true ->
  scan v clock thread_clock interrupt order (Datatypes.S n) facts s = scan v clock thread_clock interrupt order 1 facts s.
Proof.
  unfold called. intros Hc. cbn [scan]. unfold mbind, M_bind, get_rs.
  destruct (phase (rs s)) as [|root m [] is_result|g]; [done|discriminate|done|done].
Qed.

(** The loop of [scan] comes to an end: it runs its body twice at most, since
    after a requested call was made none is left to make - the run is over,
    suspended on the call's own promise, or in the post-result phase - and any
    bound above that gives the same. *)
Theorem scan_rounds_enough n facts s :
  scan v clock thread_clock interrupt order (SCAN_ROUNDS + n) facts s =
  scan v clock thread_clock interrupt order SCAN_ROUNDS facts s.
Proof.
  change (SCAN_ROUNDS + n)%nat with (Datatypes.S (Datatypes.S n)). change SCAN_ROUNDS with 2%nat.
  cbn [scan]. unfold mbind, M_bind, get_rs. destruct (phase (rs s)) as [|root m call_pending is_result|g]; [done| |done].
  destruct (get_w s) as [s0 x]. destruct (promise_status v x root); [done| |done]. destruct call_pending; [|done].
  pose proof (Lands_invoke facts (default 0 m) s0) as Hl.
  destruct (invoke_requested_call _ _ _ _ _ _ _ s0) as [s1 [|r]]; [|done]. exact (scan_called n facts s1 (Hl eq_refl)).
Qed.
End Rounds.
