(* ===== verification/Instance.v ===== *)
(** * The turn loop of a warm instance ([crates/core/src/v8/instance.rs])

    One loop serves all runs of an instance: jobs, run-tagged events and the
    registry's [Retire] come over one channel, deadlines from a heap with lazy
    deletion; each is one turn.  What a turn does to its run and to the isolate is
    an interface ([RunTurns]), with the law the loop relies on ([RunTurnsOk]);
    [run_turns], in [InstanceRuns], is the implementation of [runloop.rs].
    An instance's channel is the list of what its waits end with. *)

From S2P Require Import Prelude Bytes Text F64 Types StreamPayloads Errors Wire Link Guard RunState Bridge RunLoop.
From S2P Require Isolate.

(** ** Jobs and live runs *)

(** [runloop::CallJob]; [job_key] tells jobs apart, [job_link]: whether its I/O has
    a link. *)
Record CallJob := mk_CallJob {
  job_key : Z;
  job_token : Z;
  job_limits : Limits;
  job_globals : list HostGlobalDef;
  job_call : CallSpec;
  job_epilogue : option EpilogueSpec;
  job_link : bool;
}.

Definition job_run_id (job : CallJob) : Z := match job_epilogue job with Some e => es_run_id e | None => 0 end.

(** A suspended run; the token of its state is never assigned after its start. *)
Record LiveRun (R : Type) := mk_LiveRun { lr_token : Z; lr_rs : R; lr_job : CallJob }.
Arguments mk_LiveRun {R}. Arguments lr_token {R}. Arguments lr_rs {R}. Arguments lr_job {R}.

(** ** What the loop asks of a run

    [E]: the instance's core with the table of its runs and the thread's cells;
    [R]: the state of a run.  Every operation that runs a turn is given the run's
    token and state.  [touched] is the list of runs whose timers changed. *)
Class RunTurns (E R : Type) := {
  deadline_of : E -> Z -> R -> option Z;
  timer_of : E -> Z -> R -> option Z;
  idle_of : E -> Z -> R -> option Z;
  wall_due_of : R -> Z -> bool;
  in_grace_of : R -> bool;
  has_link_of : R -> bool;
  touched : E -> list Z;
  drain_touched : E -> E;
  read_now : E -> E * Z;
  alloc_run_token : E -> E * Z;
  reason_of : E -> option TerminationReason;
  instance_tainted : E -> bool;
  reset_reason_of : E -> E;
  (** the prelude of a job up to its start turn: the run's table entry, the guard,
      the placeholders of the prefix; the start turn *)
  prepare_run : Z -> CallJob -> E -> E * (R * option FailureOutput);
  start_run : Z -> CallJob -> R -> E -> E * (R * ScanOutcome);
  enter_run : Z -> Z -> R -> E -> E * R;
  leave_run : Z -> R -> E -> E * R;
  timer_run : Z -> CallSpec -> R -> E -> E * (R * ScanOutcome);
  idle_run : Z -> CallSpec -> R -> E -> E * (R * ScanOutcome);
  event_run : Z -> CallSpec -> LoopEvent -> R -> E -> E * (R * option (result FailureOutput Output));
  wall_run : Z -> R -> E -> E * (R * option Output);
  boundary_run : Z -> R -> E -> E * (R * result FailureOutput Output);
  close_run : Z -> io_error -> R -> E -> E * (R * result FailureOutput Output);
  fail_of : Z -> RunError -> R -> E -> E * FailureOutput;
  unstarted_failure : RunError -> E -> E * FailureOutput;
  (** the telemetry of a concluded run (CPU and wall time, call records); then the
      end of its bodies and its table entry, and no terminate left behind *)
  telemetry : Z -> R -> E -> E * (f64 * f64 * list BridgeCallRecord);
  drop_run : Z -> R -> E -> E;
  heap_used_of : E -> Z;
  settle_heap : E -> E;
  (** [finish_run]: the route dropped, the outcome released, the completion sent *)
  finish_run_of : Z -> option Outbound -> E -> E;
  load_now_ms : E -> E * Z;
  (** the process-wide [IDLE_SETTLE_SECS] *)
  idle_settle_secs_of : E -> Z;
}.

(** ** The loop's state *)

(** [OomRun]: the run an out-of-memory record would name. *)
Inductive OomRun := OomNone | OomRunId (run_id : Z).

(** [answered]: the jobs concluded with their outcomes, newest first. *)
Record Loop (E R : Type) := mk_Loop {
  env : E;
  live : list (LiveRun R);
  deadlines : list (Z * Z);
  culprit : Z;
  oom_run : OomRun;
  load : InstanceLoad;
  retired : bool;
  settled : bool;
  window_start : Z;
  busy_nanos : Z;
  answered : list (CallJob * CallOutcome);
}.
Arguments mk_Loop {E R}. Arguments env {E R}. Arguments live {E R}. Arguments deadlines {E R}. Arguments culprit {E R}.
Arguments oom_run {E R}. Arguments load {E R}. Arguments retired {E R}. Arguments settled {E R}.
Arguments window_start {E R}. Arguments busy_nanos {E R}. Arguments answered {E R}.

Section LoopUpdates.
Context {E R : Type}.
Implicit Types s : Loop E R.
Definition with_env s (e : E) : Loop E R :=
  mk_Loop e (live s) (deadlines s) (culprit s) (oom_run s) (load s) (retired s) (settled s) (window_start s) (busy_nanos s) (answered s).
Definition with_live s (l : list (LiveRun R)) : Loop E R :=
  mk_Loop (env s) l (deadlines s) (culprit s) (oom_run s) (load s) (retired s) (settled s) (window_start s) (busy_nanos s) (answered s).
Definition with_deadlines s (d : list (Z * Z)) : Loop E R :=
  mk_Loop (env s) (live s) d (culprit s) (oom_run s) (load s) (retired s) (settled s) (window_start s) (busy_nanos s) (answered s).
Definition with_owner s (c : Z) (o : OomRun) : Loop E R :=
  mk_Loop (env s) (live s) (deadlines s) c o (load s) (retired s) (settled s) (window_start s) (busy_nanos s) (answered s).
Definition with_load s (l : InstanceLoad) : Loop E R :=
  mk_Loop (env s) (live s) (deadlines s) (culprit s) (oom_run s) l (retired s) (settled s) (window_start s) (busy_nanos s) (answered s).
Definition with_flags s (retired settled : bool) : Loop E R :=
  mk_Loop (env s) (live s) (deadlines s) (culprit s) (oom_run s) (load s) retired settled (window_start s) (busy_nanos s) (answered s).
Definition with_window s (start busy : Z) : Loop E R :=
  mk_Loop (env s) (live s) (deadlines s) (culprit s) (oom_run s) (load s) (retired s) (settled s) start busy (answered s).
Definition with_answer s (job : CallJob) (o : CallOutcome) : Loop E R :=
  mk_Loop (env s) (live s) (deadlines s) (culprit s) (oom_run s) (load s) (retired s) (settled s) (window_start s) (busy_nanos s)
    ((job, o) :: answered s).
End LoopUpdates.

(** [Vec::swap_remove]: the last element takes the place. *)
Definition swap_remove {A} (l : list A) (i : nat) : list A :=
  match last l with
  | Some x => if (i =? length l - 1)%nat then removelast l else <[i := x]> (removelast l)
  | None => l
  end.

(** The heap, nearest deadline first. *)
Definition sooner_entry (a b : Z * Z) : bool := (a.1 <? b.1) || ((a.1 =? b.1) && (a.2 <? b.2)).
Fixpoint push_deadline (k : Z * Z) (h : list (Z * Z)) : list (Z * Z) :=
  match h with
  | [] => [k]
  | x :: h' => if sooner_entry k x then k :: h else x :: push_deadline k h'
  end.

Definition L (E R A : Type) : Type := Loop E R -> Loop E R * A.
#[export] Instance L_ret E R : MRet (L E R) := fun A a s => (s, a).
#[export] Instance L_bind E R : MBind (L E R) := fun A B f m s => let '(s, a) := m s in f a s.

(** What a wait on the channel ends with. *)
Inductive InstanceEvent := JobEvent (job : CallJob) | HostEvent (msg : Inbound) | RetireEvent.
Inductive InstanceWait := Got (token : Z) (event : InstanceEvent) (at_ : Z) | WaitTimedOut | AllSendersGone.

(** How the loop ended, or that it waits for its next event, at most [timeout]
    nanoseconds if it has one ([Waiting]), or is in a sweep longer than the rounds
    given ([Sweeping]). *)
Inductive ServeEnd := RetiredIdle | Tainted | Abandoned | Waiting (timeout : option Z) | Sweeping.


Section Instance.
Context {E R : Type} `{RT : RunTurns E R}.

Definition get : L E R (Loop E R) := fun s => (s, s).
Definition modify (f : Loop E R -> Loop E R) : L E R unit := fun s => (f s, tt).
(** An operation on the instance. *)
Definition on_env {A} (f : E -> E * A) : L E R A := fun s => let '(e, a) := f (env s) in (with_env s e, a).
Definition on_env_ (f : E -> E) : L E R unit := modify (fun s => with_env s (f (env s))).

(** ** Concluding *)

(** [finish_job] *)
Definition finish_job (job : CallJob) (has_link : bool) (outcome : CallOutcome) : L E R unit :=
  let msg := if has_link
    then Some (completion_message (co_result outcome) (Some (co_heap_used_bytes outcome)) (co_prefix_failed outcome)) else None in
  modify (fun s => with_answer s job outcome);;
  on_env_ (finish_run_of (job_run_id job) msg).

Definition stamped (r : result FailureOutput Output) (cpu wall : f64) (records : list BridgeCallRecord) : result FailureOutput Output :=
  match r with
  | Ok o => Ok (mk_Output (o_exports o) (o_skipped_exports o) (o_stdout o) (o_stderr o) (o_duration_ms o) wall cpu (o_background o) records)
  | Err f => Err (mk_FailureOutput (fo_error f) (fo_stdout f) (fo_stderr f) (fo_duration_ms f) wall cpu records)
  end.

Definition conclude_run (l : LiveRun R) (result : result FailureOutput Output) (tainted : bool) : L E R unit :=
  '(cpu, wall, records) ← on_env (telemetry (lr_token l) (lr_rs l));
  let has_link := has_link_of (E := E) (lr_rs l) in
  on_env_ (drop_run (lr_token l) (lr_rs l));;
  s ← get;
  finish_job (lr_job l) has_link (mk_CallOutcome (stamped result cpu wall records) tainted (heap_used_of (env s)) false).

(** ** Deadlines *)

Definition find_live (l : list (LiveRun R)) (token : Z) : option (nat * LiveRun R) := list_find (fun l => lr_token l = token) l.

(** The loop of [peek_valid_deadline], on the heap. *)
Fixpoint peek_valid (e : E) (l : list (LiveRun R)) (h : list (Z * Z)) : list (Z * Z) * option (Z * Z) :=
  match h with
  | [] => ([], None)
  | (at_, token) :: h' =>
    let valid := match find_live l token with Some (_, l) => bool_decide (deadline_of e token (lr_rs l) = Some at_) | None => false end in
    if valid then (h, Some (at_, token)) else peek_valid e l h'
  end.
Definition peek_valid_deadline : L E R (option (Z * Z)) :=
  fun s => let '(h, k) := peek_valid (env s) (live s) (deadlines s) in (with_deadlines s h, k).

Definition push_heap (k : Z * Z) : L E R unit := modify (fun s => with_deadlines s (push_deadline k (deadlines s))).
Definition requeue (l : LiveRun R) : L E R unit :=
  s ← get;
  match deadline_of (env s) (lr_token l) (lr_rs l) with Some at_ => push_heap (at_, lr_token l) | None => mret tt end.

(** The loop of [drain_touched_timers] over the touched tokens. *)
Fixpoint drain_tokens (tokens : list Z) : L E R unit :=
  match tokens with
  | [] => mret tt
  | token :: tokens =>
    s ← get;
    (match find_live (live s) token with Some (_, l) => requeue l | None => mret tt end);;
    drain_tokens tokens
  end.
Definition drain_touched_timers : L E R unit :=
  s ← get;
  on_env_ drain_touched;;
  drain_tokens (touched (env s)).

(** ** Turns *)

(** [note_turn_owner] *)
Definition note_turn_owner (job : CallJob) : L E R unit :=
  modify (fun s => with_owner s (job_run_id job) (OomRunId (job_run_id job))).

Definition take_live (idx : nat) : L E R unit := modify (fun s => with_live s (swap_remove (live s) idx)).
Definition push_live (l : LiveRun R) : L E R unit := modify (fun s => with_live s (live s ++ [l])).
Definition enter_turn_of (l : LiveRun R) (at_ : Z) : L E R (LiveRun R) :=
  r ← on_env (enter_run (lr_token l) at_ (lr_rs l)); mret (mk_LiveRun (lr_token l) r (lr_job l)).
Definition leave_turn_of (l : LiveRun R) : L E R (LiveRun R) :=
  r ← on_env (leave_run (lr_token l) (lr_rs l)); mret (mk_LiveRun (lr_token l) r (lr_job l)).
Definition with_rs (l : LiveRun R) (r : R) : LiveRun R := mk_LiveRun (lr_token l) r (lr_job l).

(** What every turn of a live run ends with: the run concluded, or failed if the
    turn was interrupted, or parked with its deadline queued ([queued]: the
    deadline the heap has already); whether the instance is tainted. *)
Definition turn_ended (queued : option (option Z)) (l : LiveRun R) (outcome : option (result FailureOutput Output)) : L E R bool :=
  s ← get;
  let tainted_now := instance_tainted (env s) in
  (match outcome with
   | Some result => conclude_run l result tainted_now
   | None =>
     if tainted_now then
       f ← on_env (fail_of (lr_token l) (reason_error (reason_of (env s))) (lr_rs l));
       conclude_run l (Err f) true
     else
       l ← leave_turn_of l;
       s ← get;
       (match queued with
        | Some q => if bool_decide (deadline_of (env s) (lr_token l) (lr_rs l) = q) then mret tt else requeue l
        | None => requeue l
        end);;
       push_live l
   end);;
  drain_touched_timers;;
  mret tainted_now.

Definition of_scan (x : ScanOutcome) : option (result FailureOutput Output) :=
  match x with Continue => None | Finished r => Some r end.

(** The wall of the post-result phase: no guest code runs, and the phase may stay
    open for its streams. *)
Definition grace_wall_entry (l : LiveRun R) (at_ : Z) : L E R unit :=
  l ← enter_turn_of l at_;
  '(r, out) ← on_env (wall_run (lr_token l) (lr_rs l));
  let l := with_rs l r in
  match out with
  | Some output => conclude_run l (Ok output) false
  | None => l ← leave_turn_of l; requeue l;; push_live l
  end.

(** One round of [sweep_expired_deadlines] for the entry [(at_, token)] of a run:
    whether it tainted the instance. *)
Definition sweep_entry (at_ : Z) (idx : nat) (l : LiveRun R) : L E R bool :=
  s ← get;
  let timer := timer_of (env s) (lr_token l) (lr_rs l) in
  take_live idx;;
  if bool_decide (timer = Some at_) then
    note_turn_owner (lr_job l);;
    l ← enter_turn_of l at_;
    '(r, out) ← on_env (timer_run (lr_token l) (job_call (lr_job l)) (lr_rs l));
    turn_ended None (with_rs l r) (of_scan out)
  else if in_grace_of (E := E) (lr_rs l) then
    now ← on_env read_now;
    s ← get;
    match (match idle_of (env s) (lr_token l) (lr_rs l) with Some d => if d <=? now then Some d else None | None => None end) with
    | Some d =>
      note_turn_owner (lr_job l);;
      l ← enter_turn_of l d;
      '(r, out) ← on_env (idle_run (lr_token l) (job_call (lr_job l)) (lr_rs l));
      turn_ended None (with_rs l r) (of_scan out)
    | None =>
      if wall_due_of (E := E) (lr_rs l) now then
        note_turn_owner (lr_job l);;
        grace_wall_entry l at_;;
        mret false
      else requeue l;; push_live l;; mret false
    end
  else
    note_turn_owner (lr_job l);;
    l ← enter_turn_of l at_;
    '(r, result) ← on_env (boundary_run (lr_token l) (lr_rs l));
    conclude_run (with_rs l r) result false;;
    mret false.

(** [sweep_expired_deadlines]; [fuel] counts its rounds, [None] when they are used
    up. *)
Fixpoint sweep_expired_deadlines (fuel : nat) (cutoff : Z) : L E R (option bool) :=
  match fuel with
  | O => mret None
  | Datatypes.S fuel =>
    k ← peek_valid_deadline;
    match k with
    | None => mret (Some false)
    | Some (at_, token) =>
      if cutoff <? at_ then mret (Some false)
      else
        modify (fun s => with_deadlines s (tail (deadlines s)));;
        s ← get;
        match find_live (live s) token with
        | None => mret (Some false)
        | Some (idx, l) =>
          tainted ← sweep_entry at_ idx l;
          if (tainted : bool) then mret (Some true) else sweep_expired_deadlines fuel cutoff
        end
    end
  end.

(** [dispatch_job] *)
Definition dispatch_job (job : CallJob) : L E R bool :=
  note_turn_owner job;;
  s ← get;
  (match live s with [] => on_env_ reset_reason_of | _ => mret tt end);;
  token ← (if job_token job =? 0 then on_env alloc_run_token else mret (job_token job));
  '(r, failed) ← on_env (prepare_run token job);
  '(r, out) ← match failed with
    | Some f => mret (r, Some (Err f))
    | None => '(r, out) ← on_env (start_run token job r); mret (r, of_scan out)
    end;
  let l := mk_LiveRun token r job in
  s ← get;
  let tainted_now := instance_tainted (env s) in
  (match out with
   | Some result => conclude_run l result tainted_now
   | None =>
     if tainted_now then
       f ← on_env (fail_of token (reason_error (reason_of (env s))) r);
       conclude_run l (Err f) true
     else requeue l;; push_live l
   end);;
  drain_touched_timers;;
  mret tainted_now.

(** ** The end of a tainted instance *)

Definition cause_of (reason : option TerminationReason) : ResetCause :=
  match reason with
  | Some ReasonCpu => ResetCpu
  | Some ReasonMemory => ResetMemory
  | Some ReasonWall => ResetWall
  | Some (ReasonImport _) => ResetUnsupported
  | Some ReasonAbort | None => ResetAbort
  end.

Fixpoint fail_all (error : RunError) (ls : list (LiveRun R)) : L E R unit :=
  match ls with
  | [] => mret tt
  | l :: ls =>
    f ← on_env (fail_of (lr_token l) error (lr_rs l));
    conclude_run l (Err f) true;;
    fail_all error ls
  end.

(** The jobs still queued; what is received until the channel is empty. *)
Fixpoint fail_queued (error : RunError) (waits : list InstanceWait) : L E R (list InstanceWait) :=
  match waits with
  | Got _ event _ :: waits =>
    (match event with
     | JobEvent job =>
       f ← on_env (unstarted_failure error);
       finish_job job (job_link job) (mk_CallOutcome (Err f) true 0 false)
     | HostEvent _ | RetireEvent => mret tt
     end);;
    fail_queued error waits
  | waits => mret waits
  end.

(** [taint_sweep]: the waits left. *)
Definition taint_sweep (waits : list InstanceWait) : L E R (list InstanceWait) :=
  s ← get;
  let error := InstanceReset (cause_of (reason_of (env s))) (culprit s) in
  modify (fun s => with_live s []);;
  fail_all error (live s);;
  fail_queued error waits.

(** ** The loop *)

Definition open_turn_of : L E R Z :=
  started ← on_env read_now;
  ms ← on_env load_now_ms;
  modify (fun s => with_load s (open_turn (load s) ms));;
  mret started.
Definition close_turn_of : L E R unit := modify (fun s => with_load s (close_turn (load s))).

(** The end of a round: busy time, published once a window is over. *)
Definition close_round (turn_started : Z) : L E R unit :=
  close_turn_of;;
  now ← on_env read_now;
  modify (fun s => with_window s (window_start s) (busy_nanos s + sat_sub now turn_started));;
  now ← on_env read_now;
  s ← get;
  let window := sat_sub now (window_start s) in
  if LOAD_WINDOW_MS <=? window / 1000000 then
    let permille := Z.min (Z.min u64_max (busy_nanos s * 1000) / Z.max window 1) 1000 in
    ms ← on_env load_now_ms;
    modify (fun s => with_load s (close_window (load s) permille ms));;
    now ← on_env read_now;
    modify (fun s => with_window s now 0)
  else mret tt.

(** Deliver one host event to a run that may have concluded: [None]: it had. *)
Definition deliver_event (token : Z) (msg : Inbound) (at_ : Z) : L E R (option bool) :=
  s ← get;
  match find_live (live s) token with
  | None => mret None
  | Some (idx, l) =>
    take_live idx;;
    let event := match msg with
      | IConnectionLost detail => SourceClosed (mk_io_error BrokenPipe (default "connection closed"%string detail))
      | msg => Host msg
      end in
    note_turn_owner (lr_job l);;
    s ← get;
    let queued := deadline_of (env s) (lr_token l) (lr_rs l) in
    l ← enter_turn_of l at_;
    '(r, out) ← on_env (event_run (lr_token l) (job_call (lr_job l)) event (lr_rs l));
    tainted ← turn_ended (Some queued) (with_rs l r) out;
    mret (Some tainted)
  end.

(** The runs left when every sender is gone, the last first. *)
Fixpoint close_all (ls : list (LiveRun R)) : L E R unit :=
  match ls with
  | [] => mret tt
  | l :: ls =>
    modify (fun s => with_live s (removelast (live s)));;
    '(r, result) ← on_env (close_run (lr_token l) (mk_io_error BrokenPipe "demux gone") (lr_rs l));
    conclude_run (with_rs l r) result false;;
    close_all ls
  end.

(** What a round of the loop decided. *)
Inductive Round := GoOn | Discarded | EndTainted | EndAbandoned.

(** A round; [None]: a sweep's rounds were used up. *)
Definition serve_round (fuel : nat) (wait : InstanceWait) : L E R (option Round) :=
  let sweep_then (cutoff : Z) (m : L E R (option Round)) : L E R (option Round) :=
    swept ← sweep_expired_deadlines fuel cutoff;
    match swept with None => mret None | Some true => mret (Some EndTainted) | Some false => m end in
  match wait with
  | WaitTimedOut =>
    s ← get;
    match live s with
    | [] =>
      modify (fun s => with_flags s (retired s) true);;
      on_env_ settle_heap;;
      modify (fun s => with_load s (publish_settled_heap (load s) (heap_used_of (env s))));;
      mret (Some GoOn)
    | _ => now ← on_env read_now; sweep_then now (mret (Some GoOn))
    end
  | AllSendersGone => s ← get; close_all (rev (live s));; mret (Some EndAbandoned)
  | Got _ RetireEvent _ => modify (fun s => with_flags s true (settled s));; mret (Some GoOn)
  | Got _ (JobEvent job) at_ =>
    sweep_then at_ (tainted ← dispatch_job job; mret (Some (if (tainted : bool) then EndTainted else GoOn)))
  | Got token (HostEvent msg) at_ =>
    sweep_then at_ (delivered ← deliver_event token msg at_;
      match delivered with
      | None => close_turn_of;; mret (Some Discarded)
      | Some true => mret (Some EndTainted)
      | Some false => mret (Some GoOn)
      end)
  end.

(** How long the next wait may take: to the nearest deadline; with none, once for
    the settling of the heap when the instance is idle; else without a limit. *)
Definition wait_timeout : L E R (option Z) :=
  k ← peek_valid_deadline;
  match k with
  | Some (at_, _) => now ← on_env read_now; mret (Some (sat_sub at_ now))
  | None =>
    s ← get;
    mret (if bool_decide (live s = []) && negb (settled s) then Isolate.idle_settle_after (idle_settle_secs_of (env s)) else None)
  end.

(** Only a wait with a timeout can time out. *)
Definition can_end (timeout : option Z) (wait : InstanceWait) : bool :=
  match wait, timeout with WaitTimedOut, None => false | _, _ => true end.

(** The loop of [serve_instance]; a round per wait (an entry that cannot end the
    wait is passed over). *)
Fixpoint serve_loop (fuel : nat) (waits : list InstanceWait) : L E R ServeEnd :=
  s ← get;
  if bool_decide (live s = []) && retired s then mret RetiredIdle
  else
    modify (fun s => with_owner s (culprit s) OomNone);;
    timeout ← wait_timeout;
    match waits with
    | [] => mret (Waiting timeout)
    | wait :: waits =>
      if negb (can_end timeout wait) then serve_loop fuel waits else
      (match wait with Got _ _ _ => modify (fun s => with_flags s (retired s) false) | _ => mret tt end);;
      started ← open_turn_of;
      round ← serve_round fuel wait;
      match round with
      | None => mret Sweeping
      | Some EndTainted => taint_sweep waits;; mret Tainted
      | Some EndAbandoned => mret Abandoned
      | Some Discarded => serve_loop fuel waits
      | Some GoOn => close_round started;; serve_loop fuel waits
      end
    end.

(** [serve_instance]: the job that started the instance, then the loop. *)
Definition serve_instance (fuel : nat) (first : CallJob) (waits : list InstanceWait) : L E R ServeEnd :=
  now ← on_env read_now;
  modify (fun s => with_window s now 0);;
  ms ← on_env load_now_ms;
  modify (fun s => with_load s (open_turn (load s) ms));;
  tainted ← dispatch_job first;
  close_turn_of;;
  if (tainted : bool) then taint_sweep waits;; mret Tainted
  else serve_loop fuel waits.

Definition loop_new (e : E) : Loop E R := mk_Loop e [] [] 0 OomNone load_new false false 0 0 [].
End Instance.

(** ** Every job is answered once *)

Lemma swap_remove_perm {A} (l : list A) i x : l !! i = Some x -> l ≡ₚ x :: swap_remove l i.
Proof.
  intros Hi. unfold swap_remove. destruct (last l) as [y|] eqn:Hy; [|by apply last_None in Hy as ->].
  apply last_Some in Hy as [k ->]. rewrite length_app, removelast_last. cbn [length].
  destruct (Nat.eqb_spec i (length k + 1 - 1)) as [->|Hn].
  - rewrite lookup_app_r in Hi by lia. replace (length k + 1 - 1 - length k)%nat with 0%nat in Hi by lia. injection Hi as ->.
    by rewrite <- Permutation_cons_append.
  - assert (Hlt : (i < length k)%nat) by (apply lookup_lt_Some in Hi; rewrite length_app in Hi; cbn in Hi; lia).
    rewrite lookup_app_l in Hi by lia. rewrite <- Permutation_cons_append. rewrite (insert_take_drop k i y) by done.
    rewrite <- (take_drop_middle k i x Hi) at 1. rewrite <- !Permutation_middle. apply perm_swap.
Qed.

Section Answers.
Context {E R : Type} `{RT : RunTurns E R}.

(** The jobs of the loop: in flight and answered. *)
Definition held (s : Loop E R) : list CallJob := map lr_job (live s) ++ map fst (answered s).

Definition Adds {A} (jobs : list CallJob) (m : L E R A) : Prop := forall s, held (fst (m s)) ≡ₚ jobs ++ held s.

Lemma run_bind {A B} (m : L E R A) (k : A -> L E R B) s : (m ≫= k) s = k (snd (m s)) (fst (m s)).
Proof. unfold mbind, L_bind. by destruct (m s). Qed.

Lemma Adds_ret {A} (a : A) : Adds [] (mret a).
Proof. by intros s. Qed.
Lemma Adds_bind {A B} jobs (m : L E R A) (k : A -> L E R B) : Adds [] m -> (forall a, Adds jobs (k a)) -> Adds jobs (m ≫= k).
Proof. intros Hm Hk s. rewrite run_bind. etransitivity; [apply Hk|]. by rewrite (Hm s). Qed.
Lemma Adds_then {A B} jobs (m : L E R A) (k : A -> L E R B) : Adds jobs m -> (forall a, Adds [] (k a)) -> Adds jobs (m ≫= k).
Proof. intros Hm Hk s. rewrite run_bind. etransitivity; [apply Hk|]. exact (Hm s). Qed.
Lemma Adds_same {A} (m : L E R A) : (forall s, live (fst (m s)) = live s /\ answered (fst (m s)) = answered s) -> Adds [] m.
Proof. intros Hm s. unfold held. by destruct (Hm s) as [-> ->]. Qed.

Lemma Adds_get : Adds [] get.
Proof. by apply Adds_same. Qed.
Lemma Adds_on_env {A} (f : E -> E * A) : Adds [] (on_env f).
Proof. apply Adds_same. intros s. unfold on_env. by destruct (f (env s)). Qed.
Lemma Adds_on_env_ (f : E -> E) : Adds [] (on_env_ f).
Proof. by apply Adds_same. Qed.
Lemma Adds_modify f : (forall s, live (f s) = live s /\ answered (f s) = answered s) -> Adds [] (modify f).
Proof. intros Hf. by apply Adds_same. Qed.
Lemma Adds_peek : Adds [] peek_valid_deadline.
Proof. apply Adds_same. intros s. unfold peek_valid_deadline. by destruct (peek_valid _ _ _). Qed.
Lemma Adds_wait_timeout : Adds [] wait_timeout.
Proof.
  unfold wait_timeout. apply Adds_bind; [apply Adds_peek|]. intros [[at_ t]|].
  - apply Adds_bind; [apply Adds_on_env|]. intros now. apply Adds_ret.
  - apply Adds_bind; [apply Adds_get|]. intros s. apply Adds_ret.
Qed.

Create HintDb jobs discriminated.
#[local] Hint Constants Opaque : jobs.
#[local] Hint Resolve Adds_ret Adds_get Adds_on_env Adds_on_env_ Adds_peek : jobs.

Ltac jobs_step :=
  match goal with
  | |- forall _, _ => intros ?
  | |- Adds _ (let _ := _ in _) => cbv zeta
  | |- Adds [] (modify _) => apply Adds_modify; intros ?; by split
  | |- _ => solve [eauto 2 with jobs nocore]
  | |- Adds _ (_ ≫= _) => apply Adds_bind
  | |- Adds _ (match ?x with _ => _ end) => destruct x
  | |- _ => progress cbv beta
  end.
Ltac jobs := repeat jobs_step.

Lemma Adds_finish_job job h o : Adds [job] (finish_job job h o).
Proof.
  unfold finish_job. cbv zeta. apply Adds_then; [|jobs]. intros s. unfold held. cbn. by rewrite <- Permutation_middle.
Qed.
#[local] Hint Resolve Adds_finish_job : jobs.
Lemma Adds_conclude_run l r t : Adds [lr_job l] (conclude_run l r t).
Proof. unfold conclude_run. jobs. Qed.
#[local] Hint Resolve Adds_conclude_run : jobs.
Lemma Adds_push_heap k : Adds [] (push_heap k).
Proof. unfold push_heap. jobs. Qed.
#[local] Hint Resolve Adds_push_heap : jobs.
Lemma Adds_requeue l : Adds [] (requeue l).
Proof. unfold requeue. jobs. Qed.
#[local] Hint Resolve Adds_requeue : jobs.
Lemma Adds_drain_tokens ts : Adds [] (drain_tokens ts).
Proof. induction ts as [|t ts IH]; cbn [drain_tokens]; jobs. Qed.
#[local] Hint Resolve Adds_drain_tokens : jobs.
Lemma Adds_drain : Adds [] drain_touched_timers.
Proof. unfold drain_touched_timers. jobs. Qed.
Lemma Adds_note_turn_owner job : Adds [] (note_turn_owner job).
Proof. unfold note_turn_owner. jobs. Qed.
#[local] Hint Resolve Adds_drain Adds_note_turn_owner : jobs.
Lemma Adds_push_live l : Adds [lr_job l] (push_live l).
Proof. intros s. unfold held. cbn. rewrite map_app, <- app_assoc. cbn. by rewrite <- Permutation_middle. Qed.
#[local] Hint Resolve Adds_push_live : jobs.

(** A run that was entered or left is the same job. *)
Lemma Adds_enter {A} jobs l at_ (k : LiveRun R -> L E R A) : (forall r, Adds jobs (k (with_rs l r))) -> Adds jobs (enter_turn_of l at_ ≫= k).
Proof.
  intros Hk s. unfold enter_turn_of. rewrite !run_bind. etransitivity; [apply Hk|].
  apply Permutation_app_head. exact (Adds_on_env (enter_run (lr_token l) at_ (lr_rs l)) s).
Qed.
Lemma Adds_leave {A} jobs l (k : LiveRun R -> L E R A) : (forall r, Adds jobs (k (with_rs l r))) -> Adds jobs (leave_turn_of l ≫= k).
Proof.
  intros Hk s. unfold leave_turn_of. rewrite !run_bind. etransitivity; [apply Hk|].
  apply Permutation_app_head. exact (Adds_on_env (leave_run (lr_token l) (lr_rs l)) s).
Qed.

Ltac jobs' := repeat (first [match goal with
  | |- Adds _ (enter_turn_of _ _ ≫= _) => apply Adds_enter
  | |- Adds _ (leave_turn_of _ ≫= _) => apply Adds_leave
  | l : LiveRun R, r : R |- Adds [lr_job ?l] _ => progress change (lr_job l) with (lr_job (with_rs l r))
  end | jobs_step]).

Lemma Adds_turn_ended q l out : Adds [lr_job l] (turn_ended q l out).
Proof.
  unfold turn_ended. jobs_step; [jobs|]. intros s. cbv zeta. apply Adds_then; [|jobs]. destruct out; [jobs|].
  destruct (instance_tainted (env s)); [jobs|]. apply Adds_leave. intros r. jobs. exact (Adds_push_live (with_rs l r)).
Qed.
#[local] Hint Resolve Adds_turn_ended : jobs.

(** A run taken out of the list is owed until the rest of its turn is over. *)
Lemma find_live_some ls token idx (l : LiveRun R) : find_live ls token = Some (idx, l) -> ls !! idx = Some l /\ lr_token l = token.
Proof. intros (H1 & H2 & _)%list_find_Some. done. Qed.

Lemma held_take idx l (s : Loop E R) : live s !! idx = Some l -> held s ≡ₚ [lr_job l] ++ held (fst (take_live idx s)).
Proof. intros Hl. unfold held. cbn. rewrite (swap_remove_perm _ _ _ Hl) at 1. reflexivity. Qed.

Lemma Adds_taken {A} idx l (m : L E R A) s :
  Adds [lr_job l] m -> live s !! idx = Some l -> held (fst (m (fst (take_live idx s)))) ≡ₚ held s.
Proof. intros Hm Hl. rewrite (Hm _). symmetry. by apply held_take. Qed.

Lemma Adds_grace_wall_entry l at_ : Adds [lr_job l] (grace_wall_entry l at_).
Proof.
  unfold grace_wall_entry. apply Adds_enter. intros r. jobs_step; [jobs|]. intros [r' out]. cbv zeta. destruct out.
  - apply (Adds_conclude_run (with_rs (with_rs l r) r')).
  - apply Adds_leave. intros r2. apply Adds_bind; [jobs|]. intros _. apply (Adds_push_live (with_rs (with_rs l r) r2)).
Qed.

Lemma held_sweep_entry at_ idx l s : live s !! idx = Some l -> held (fst (sweep_entry at_ idx l s)) ≡ₚ held s.
Proof.
  intros Hl. unfold sweep_entry. rewrite run_bind. cbn [get fst snd]. rewrite run_bind. apply (Adds_taken idx l); [|exact Hl].
  generalize (snd (take_live idx s)). intros _. destruct (bool_decide _); [|destruct (in_grace_of _)].
  - jobs_step; [jobs|]. intros _. apply Adds_enter. intros r. jobs. apply (Adds_turn_ended None (with_rs (with_rs l r) r0)).
  - jobs_step; [jobs|]. intros now. jobs_step; [jobs|]. intros s'. destruct (match idle_of _ _ _ with Some d => _ | None => None end).
    + jobs_step; [jobs|]. intros _. apply Adds_enter. intros r. jobs. apply (Adds_turn_ended None (with_rs (with_rs l r) r0)).
    + destruct (wall_due_of _ _); [|apply Adds_bind; [jobs|]; intros _; apply Adds_then; jobs].
      jobs_step; [jobs|]. intros _. apply Adds_then; [apply Adds_grace_wall_entry|jobs].
  - jobs_step; [jobs|]. intros _. apply Adds_enter. intros r. jobs_step; [jobs|]. intros [r' out].
    apply Adds_then; [|jobs]. apply (Adds_conclude_run (with_rs (with_rs l r) r')).
Qed.

Lemma Adds_sweep fuel cutoff : Adds [] (sweep_expired_deadlines fuel cutoff).
Proof.
  induction fuel as [|fuel IH]; cbn [sweep_expired_deadlines]; [jobs|]. apply Adds_bind; [jobs|]. intros [[at_ token]|]; [|jobs].
  destruct (_ <? _); [jobs|]. apply Adds_bind; [jobs|]. intros _. intros s. rewrite run_bind. cbn [get fst snd].
  destruct (find_live (live s) token) as [[idx l]|] eqn:Ef; [|done]. rewrite run_bind.
  etransitivity; [|apply (held_sweep_entry at_ idx l s), (find_live_some _ _ _ _ Ef)].
  destruct (snd (sweep_entry at_ idx l s)); [done|apply IH].
Qed.

Lemma Adds_dispatch job : Adds [job] (dispatch_job job).
Proof.
  unfold dispatch_job. apply Adds_bind; [jobs|]. intros _. apply Adds_bind; [jobs|]. intros s0. apply Adds_bind; [jobs|]. intros _.
  apply Adds_bind; [jobs|]. intros token. apply Adds_bind; [jobs|]. intros [r failed]. apply Adds_bind; [jobs|]. intros [r' out].
  cbv zeta. apply Adds_bind; [jobs|]. intros s. apply Adds_then; [|jobs]. destruct out as [result|].
  - apply (Adds_conclude_run (mk_LiveRun token r' job)).
  - destruct (instance_tainted _).
    + apply Adds_bind; [jobs|]. intros f. apply (Adds_conclude_run (mk_LiveRun token r' job)).
    + apply Adds_bind; [jobs|]. intros _. apply (Adds_push_live (mk_LiveRun token r' job)).
Qed.
#[local] Hint Resolve Adds_sweep Adds_dispatch : jobs.

(** *** Rounds *)

Definition job_of (w : InstanceWait) : list CallJob := match w with Got _ (JobEvent job) _ => [job] | _ => [] end.
Definition jobs_of (ws : list InstanceWait) : list CallJob := flat_map job_of ws.

Lemma held_deliver token msg at_ s : held (fst (deliver_event token msg at_ s)) ≡ₚ held s.
Proof.
  unfold deliver_event. rewrite run_bind. cbn [get fst snd]. destruct (find_live (live s) token) as [[idx l]|] eqn:Ef; [|done].
  rewrite run_bind. apply (Adds_taken idx l); [|apply (find_live_some _ _ _ _ Ef)]. cbv zeta.
  jobs_step; [jobs|]. intros _. jobs_step; [jobs|]. intros s'. apply Adds_enter. intros r. jobs_step; [jobs|]. intros [r' out].
  apply Adds_then; [|jobs]. exact (Adds_turn_ended _ (with_rs (with_rs l r) r') out).
Qed.

Lemma conclude_live l r t s : live (fst (conclude_run l r t s)) = live s.
Proof.
  unfold conclude_run, finish_job. rewrite run_bind. unfold on_env at 1 2. destruct (telemetry _ _ _) as [e [[cpu wall] records]]. reflexivity.
Qed.

Lemma held_close_all ls s : live s = rev ls ->
  held (fst (close_all ls s)) ≡ₚ held s /\ live (fst (close_all ls s)) = [].
Proof.
  revert s. induction ls as [|l ls IH]; intros s Hl; cbn [close_all rev] in *; [done|].
  rewrite run_bind. cbn [modify fst snd]. rewrite run_bind.
  set (s1 := with_live s (removelast (live s))). destruct (on_env (close_run (lr_token l) (mk_io_error BrokenPipe "demux gone") (lr_rs l)) s1) as [s2 [r result]] eqn:E2.
  cbn [fst snd]. rewrite run_bind. set (s3 := fst (conclude_run (with_rs l r) result false s2)).
  assert (H2 : live s2 = rev ls /\ answered s2 = answered s).
  { unfold on_env in E2. destruct (close_run _ _ _ _). injection E2 as <- _. cbn. rewrite Hl, removelast_last. done. }
  assert (H3 : live s3 = live s2) by (unfold s3; apply conclude_live).
  destruct (IH s3) as [I1 I2]; [by rewrite H3; apply H2|]. split; [|exact I2]. rewrite I1.
  unfold s3. rewrite (Adds_conclude_run (with_rs l r) result false s2). unfold held. destruct H2 as [-> ->]. rewrite Hl, map_app. cbn.
  rewrite <- app_assoc. cbn. by rewrite <- Permutation_middle.
Qed.

(** What a round does with the job it received: a sweep that taints the instance, or
    that does not end, leaves it. *)
Lemma held_sweep_then fuel cutoff (m : L E R (option Round)) jobs s :
  (forall s, held (fst (m s)) ≡ₚ jobs ++ held s) ->
  let out := (swept ← sweep_expired_deadlines fuel cutoff;
    match swept with None => mret None | Some true => mret (Some EndTainted) | Some false => m end) s in
  held (fst out) ≡ₚ jobs ++ held s \/ (held (fst out) ≡ₚ held s /\ (snd out = Some EndTainted \/ snd out = None)).
Proof.
  intros Hm out. unfold out. rewrite run_bind. pose proof (Adds_sweep fuel cutoff s) as Hs. cbn [app] in Hs.
  destruct (sweep_expired_deadlines fuel cutoff s) as [s1 [[]|]]; cbn in *; [right; auto| |right; auto].
  left. by rewrite (Hm s1), Hs.
Qed.

Lemma held_round fuel w s :
  held (fst (serve_round fuel w s)) ≡ₚ job_of w ++ held s \/
  (held (fst (serve_round fuel w s)) ≡ₚ held s /\ (snd (serve_round fuel w s) = Some EndTainted \/ snd (serve_round fuel w s) = None)).
Proof.
  destruct w as [token [job|msg|] at_| |]; cbn [serve_round job_of]; cbv zeta.
  - apply held_sweep_then. intros s'. rewrite run_bind. destruct (snd (dispatch_job job s')); apply Adds_dispatch.
  - apply held_sweep_then. intros s'. rewrite run_bind. pose proof (held_deliver token msg at_ s') as Hd.
    destruct (deliver_event token msg at_ s') as [s1 [[]|]]; exact Hd.
  - left. done.
  - left. rewrite run_bind. cbn [get fst snd]. destruct (live s) as [|l ls]; [done|]. rewrite run_bind.
    pose proof (Adds_on_env read_now s) as H1. destruct (on_env read_now s) as [s1 now].
    destruct (held_sweep_then fuel now (mret (Some GoOn)) [] s1) as [H2|[H2 _]]; [done| |];
      (etransitivity; [exact H2|exact H1]).
  - left. rewrite !run_bind. cbn [get fst snd]. destruct (held_close_all (rev (live s)) s) as [Hc _]; [by rewrite rev_involutive|exact Hc].
Qed.

Lemma abandoned_empty fuel w s : snd (serve_round fuel w s) = Some EndAbandoned -> live (fst (serve_round fuel w s)) = [].
Proof.
  assert (Hs : forall cutoff (m : L E R (option Round)) s, (forall s, snd (m s) <> Some EndAbandoned) ->
    snd ((swept ← sweep_expired_deadlines fuel cutoff;
      match swept with None => mret None | Some true => mret (Some EndTainted) | Some false => m end) s) <> Some EndAbandoned).
  { intros cutoff m s1 Hm. rewrite run_bind. destruct (snd (sweep_expired_deadlines fuel cutoff s1)) as [[]|]; [done|apply Hm|done]. }
  destruct w as [token [job|msg|] at_| |]; cbn [serve_round]; cbv zeta.
  - intros He. exfalso. revert He. apply Hs. intros s1. rewrite run_bind. by destruct (snd (dispatch_job job s1)).
  - intros He. exfalso. revert He. apply Hs. intros s1. rewrite run_bind. by destruct (snd (deliver_event token msg at_ s1)) as [[]|].
  - discriminate.
  - rewrite run_bind. cbn [get fst snd]. destruct (live s) as [|l ls]; [discriminate|]. rewrite run_bind. intros He.
    exfalso. revert He. by apply Hs.
  - rewrite !run_bind. cbn [get fst snd]. intros _. apply (held_close_all (rev (live s)) s). by rewrite rev_involutive.
Qed.

Lemma Adds_app {A B} j1 j2 (m : L E R A) (k : A -> L E R B) : Adds j1 m -> (forall a, Adds j2 (k a)) -> Adds (j1 ++ j2) (m ≫= k).
Proof.
  intros Hm Hk s. rewrite run_bind. etransitivity; [apply Hk|]. rewrite (Hm s), !app_assoc. apply Permutation_app_tail, Permutation_app_comm.
Qed.
Lemma Adds_fail_all error ls : Adds (map lr_job ls) (fail_all error ls).
Proof.
  induction ls as [|l ls IH]; cbn [fail_all map]; [jobs|]. apply Adds_bind; [jobs|]. intros f.
  apply (Adds_app [lr_job l]); [jobs|]. intros _. exact IH.
Qed.
Lemma fail_all_live error ls s : live (fst (fail_all error ls s)) = live s.
Proof.
  revert s. induction ls as [|l ls IH]; intros s; cbn [fail_all]; [done|]. rewrite !run_bind, IH, conclude_live.
  unfold on_env. by destruct (fail_of _ _ _ _).
Qed.
Lemma finish_live job h o s : live (fst (finish_job job h o s)) = live s.
Proof. reflexivity. Qed.

(** The jobs received, and what is left of the waits. *)
Lemma held_fail_queued error waits s :
  exists pre, waits = pre ++ snd (fail_queued error waits s) /\
    held (fst (fail_queued error waits s)) ≡ₚ jobs_of pre ++ held s /\ live (fst (fail_queued error waits s)) = live s.
Proof.
  revert s. induction waits as [|w waits IH]; intros s; cbn [fail_queued]; [by exists []|].
  destruct w as [token event at_| |]; [|by exists []..]. rewrite run_bind.
  match goal with |- context [fail_queued error waits (fst (?m s))] => set (m0 := m) end.
  assert (H1 : held (fst (m0 s)) ≡ₚ job_of (Got token event at_) ++ held s /\ live (fst (m0 s)) = live s).
  { unfold m0. destruct event as [job|msg|]; [|by split..]. split.
    - assert (Ha : Adds [job] (f ← on_env (unstarted_failure error); finish_job job (job_link job) (mk_CallOutcome (Err f) true 0 false))) by jobs.
      apply Ha.
    - rewrite run_bind, finish_live. unfold on_env. by destruct (unstarted_failure error (env s)). }
  destruct (IH (fst (m0 s))) as (pre & I1 & I2 & I3). exists (Got token event at_ :: pre).
  cbn [app]. split; [by rewrite <- I1|]. split; [|by rewrite I3; apply H1]. rewrite I2. destruct H1 as [H1 _]. rewrite H1.
  cbn [jobs_of flat_map]. rewrite !app_assoc. apply Permutation_app_tail, Permutation_app_comm.
Qed.

Lemma held_taint_sweep waits s :
  exists pre, waits = pre ++ snd (taint_sweep waits s) /\ live (fst (taint_sweep waits s)) = [] /\
    held (fst (taint_sweep waits s)) ≡ₚ jobs_of pre ++ held s.
Proof.
  unfold taint_sweep. rewrite run_bind. cbn [get fst snd]. cbv zeta. rewrite run_bind. cbn [modify fst snd]. rewrite run_bind.
  set (err := InstanceReset _ _). set (s1 := with_live s []). pose proof (Adds_fail_all err (live s) s1) as Ha.
  pose proof (fail_all_live err (live s) s1) as Hl. destruct (fail_all err (live s) s1) as [s2 []]. cbn [fst snd] in *.
  destruct (held_fail_queued err waits s2) as (pre & H1 & H2 & H3). exists pre. split; [exact H1|]. split; [by rewrite H3, Hl|].
  rewrite H2, Ha. done.
Qed.

Lemma held_same {A} (m : L E R A) s : Adds [] m -> held (fst (m s)) ≡ₚ held s.
Proof. intros Hm. exact (Hm s). Qed.

Lemma Adds_open : Adds [] open_turn_of.
Proof. unfold open_turn_of. jobs. Qed.
Lemma Adds_close : Adds [] close_turn_of.
Proof. unfold close_turn_of. jobs. Qed.
#[local] Hint Resolve Adds_open Adds_close : jobs.
Lemma Adds_close_round t : Adds [] (close_round t).
Proof. unfold close_round. jobs. Qed.
#[local] Hint Resolve Adds_close_round : jobs.

(** Whether the loop is over. *)
Definition ended (e : ServeEnd) : bool := match e with RetiredIdle | Tainted | Abandoned => true | Waiting _ | Sweeping => false end.

(** What the loop did with the jobs of [waits]: those of [pre] it received; [lost]
    it received and did neither answer nor keep. *)
Definition accounted (jobs : list CallJob) (waits : list InstanceWait) (out : Loop E R * ServeEnd) : Prop :=
  exists pre post lost, waits = pre ++ post /\ jobs ++ jobs_of pre ≡ₚ held (fst out) ++ lost /\
    (length lost <= 1)%nat /\ (lost <> [] -> snd out = Tainted \/ snd out = Sweeping) /\
    (ended (snd out) = true -> live (fst out) = []) /\ (forall timeout, snd out = Waiting timeout -> post = []).

(** The beginning of a round: the wait and the opening of the turn. *)
Lemma held_begin w s :
  let s1 := fst (wait_timeout (with_owner s (culprit s) OomNone)) in
  let s2 := fst ((match w with Got _ _ _ => modify (fun s => with_flags s (retired s) false) | _ => mret tt end : L E R unit) s1) in
  held (fst (open_turn_of s2)) ≡ₚ held s.
Proof.
  cbv zeta. rewrite (held_same open_turn_of _ Adds_open).
  assert (Hp : held (fst (wait_timeout (with_owner s (culprit s) OomNone))) ≡ₚ held s)
    by exact (held_same wait_timeout (with_owner s (culprit s) OomNone) Adds_wait_timeout).
  destruct w; exact Hp.
Qed.

Lemma accounted_here s waits e : ended e = true -> live s = [] -> accounted (held s) waits (s, e).
Proof.
  intros He Hl. exists [], waits, []. cbn. split; [done|]. split; [by rewrite !app_nil_r|]. split; [lia|]. split; [done|]. split; [done|].
  intros t ->. discriminate He.
Qed.

Lemma accounted_cons w waits jobs s' out :
  held s' ≡ₚ job_of w ++ jobs -> accounted (held s') waits out -> accounted jobs (w :: waits) out.
Proof.
  intros Hs (pre & post & lost & -> & H2 & H3). exists (w :: pre), post, lost. split; [done|]. split; [|exact H3].
  rewrite <- H2, Hs. cbn. rewrite !app_assoc. apply Permutation_app_tail, Permutation_app_comm.
Qed.

Lemma accounted_skip w timeout waits jobs out : can_end timeout w = false -> accounted jobs waits out -> accounted jobs (w :: waits) out.
Proof.
  intros Hw (pre & post & lost & -> & H2 & H3). exists (w :: pre), post, lost. split; [done|]. split; [|exact H3].
  by destruct w, timeout.
Qed.
Lemma accounted_held s s' waits out : held s' ≡ₚ held s -> accounted (held s') waits out -> accounted (held s) waits out.
Proof. intros Hh (pre & post & lost & H1 & H2 & H3). exists pre, post, lost. split; [done|]. by rewrite <- Hh. Qed.

Lemma job_of_small w : (length (job_of w) <= 1)%nat.
Proof. destruct w as [? [] ?| |]; cbn; lia. Qed.

(** A round that ends the loop, or does not end, and what follows it. *)
Lemma accounted_stop w pre post s s2 s3 e :
  held s2 ≡ₚ job_of w ++ held s \/ held s2 ≡ₚ held s -> held s3 ≡ₚ jobs_of pre ++ held s2 ->
  e = Tainted \/ e = Sweeping -> (e = Tainted -> live s3 = []) -> accounted (held s) (w :: pre ++ post) (s3, e).
Proof.
  intros H2 H3 He Hl. assert (Hrest : (e = Tainted \/ e = Sweeping) /\ (ended e = true -> live s3 = []) /\ (forall timeout, e = Waiting timeout -> post = [])).
  { split; [done|]. destruct He as [-> | ->]; split; try done. intros _. by apply Hl. }
  destruct H2 as [H2|H2]; [exists (w :: pre), post, []|exists (w :: pre), post, (job_of w)]; (split; [done|]); cbn [fst snd];
    (split; [rewrite H3, H2; change (jobs_of (w :: pre)) with (job_of w ++ jobs_of pre); solve_Permutation|]).
  - split; [cbn; lia|]. split; [done|]. apply Hrest.
  - split; [apply job_of_small|]. split; [intros _; apply Hrest|]. apply Hrest.
Qed.

Lemma accounted_serve_loop fuel waits s : accounted (held s) waits (serve_loop fuel waits s).
Proof.
  revert s. induction waits as [|w waits IH]; intros s; cbn [serve_loop]; rewrite run_bind; cbn [get fst snd];
    destruct (bool_decide (live s = []) && retired s) eqn:Er;
    try (apply andb_true_iff in Er as [Er%bool_decide_eq_true _]; by apply accounted_here).
  - rewrite !run_bind. exists [], [], []. cbn [app jobs_of flat_map]. split; [done|]. split; [|split; [cbn; lia|by repeat split]].
    rewrite !app_nil_r. symmetry. exact (held_same wait_timeout (with_owner s (culprit s) OomNone) Adds_wait_timeout).
  - rewrite run_bind. change (fst (modify (fun s0 => with_owner s0 (culprit s0) OomNone) s)) with (with_owner s (culprit s) OomNone).
    rewrite run_bind. destruct (can_end _ w) eqn:Ew; cbn [negb]; [|apply (accounted_skip w _ _ _ _ Ew); eapply (accounted_held s); [|apply IH];
      exact (held_same wait_timeout (with_owner s (culprit s) OomNone) Adds_wait_timeout)].
    rewrite !run_bind. pose proof (held_begin w s) as Hb. cbv zeta in Hb.
    match type of Hb with held (fst ?x) ≡ₚ _ => destruct x as [s1 started] end. cbn [fst snd] in *.
    pose proof (held_round fuel w s1) as Hr. pose proof (abandoned_empty fuel w s1) as Ha.
    destruct (serve_round fuel w s1) as [s2 round]. cbn [fst snd] in *.
    assert (Hor : held s2 ≡ₚ job_of w ++ held s \/ held s2 ≡ₚ held s).
    { destruct Hr as [Hr|[Hr _]]; [left|right]; by rewrite Hr, Hb. }
    assert (Hgo : round <> Some EndTainted -> round <> None -> held s2 ≡ₚ job_of w ++ held s).
    { intros H1 H2. destruct Hr as [Hr|[_ [Hr|Hr]]]; [by rewrite Hr, Hb|done|done]. }
    destruct round as [[| | |]|].
    + rewrite run_bind. pose proof (held_same (close_round started) s2 (Adds_close_round started)) as Hc.
      destruct (close_round started s2) as [s3 []]. cbn [fst snd] in *. apply (accounted_cons w waits _ s3); [|apply IH].
      rewrite Hc. by apply Hgo.
    + apply (accounted_cons w waits _ s2); [by apply Hgo|apply IH].
    + rewrite run_bind. cbn [mret L_ret]. destruct (held_taint_sweep waits s2) as (pre & E1 & E2 & E3). rewrite E1 at 1.
      apply (accounted_stop w pre _ s s2); [done|done|by left|done].
    + exists [w], waits, []. split; [done|]. cbn [fst snd]. split; [|split; [cbn; lia|]].
      * rewrite (Hgo ltac:(done) ltac:(done)). cbn. rewrite !app_nil_r. apply Permutation_app_comm.
      * split; [done|]. split; [|done]. intros _. by apply Ha.
    + apply (accounted_stop w [] waits s s2 s2); [done|done|by right|done].
Qed.

Lemma accounted_serve_instance fuel first waits e :
  accounted [first] waits (serve_instance fuel first waits (loop_new e)).
Proof.
  unfold serve_instance. rewrite !run_bind.
  match goal with |- context [dispatch_job first ?x] => set (s0 := x) end.
  assert (H0 : held s0 = []).
  { unfold s0, on_env, modify. cbn. destruct (read_now e) as [e1 n]. cbn. by destruct (load_now_ms e1). }
  pose proof (Adds_dispatch first s0) as Hd. destruct (dispatch_job first s0) as [s1 tainted]. cbn [fst snd] in *. rewrite H0 in Hd.
  set (s2 := fst (close_turn_of s1)). assert (H2 : held s2 ≡ₚ [first]) by (rewrite <- Hd; exact (held_same close_turn_of s1 Adds_close)).
  destruct tainted.
  - rewrite run_bind. cbn [mret L_ret]. destruct (held_taint_sweep waits s2) as (pre & E1 & E2 & E3). exists pre, (snd (taint_sweep waits s2)), [].
    split; [done|]. cbn [fst snd]. split; [rewrite E3, H2; solve_Permutation|]. split; [cbn; lia|]. done.
  - destruct (accounted_serve_loop fuel waits s2) as (pre & post & lost & E1 & E2 & E3). exists pre, post, lost.
    split; [done|]. split; [by rewrite <- H2|done].
Qed.
End Answers.

(** Every job an instance's loop receives is answered once: when the loop is
    over nothing is in flight, and the jobs it received - the one that started it,
    those it dispatched, those a taint found queued behind - are the jobs concluded
    with an outcome, each as often as it was received.  The one exception is a job
    whose arrival sweep interrupts another run's turn: it was received, the
    instance is tainted, and nobody answers it (at most one, and only then: see
    [job_lost_in_sweep]). *)
Theorem jobs_answered_once {E R : Type} `{RT : RunTurns E R} fuel first waits (e : E) :
  let s := fst (serve_instance (R := R) fuel first waits (loop_new e)) in
  let out := snd (serve_instance (R := R) fuel first waits (loop_new e)) in
  exists pre post lost, waits = pre ++ post /\
    first :: jobs_of pre ≡ₚ map lr_job (live s) ++ map fst (answered s) ++ lost /\ (length lost <= 1)%nat /\
    (lost <> [] -> out = Tainted \/ out = Sweeping) /\
    (ended out = true -> live s = []) /\ (forall timeout, out = Waiting timeout -> post = []).
Proof.
  intros s out. destruct (accounted_serve_instance fuel first waits e) as (pre & post & lost & H1 & H2 & H3).
  exists pre, post, lost. split; [done|]. split; [|exact H3]. unfold held in H2. by rewrite <- app_assoc in H2.
Qed.

(** ** No deadline is lost *)

(** What the loop relies on.  A turn of the run [t] changes the next deadline of
    another run only if it says so ([touched]); what runs no guest code, and
    [finish_run], say nothing. *)
Definition speaks {E R : Type} `{RT : RunTurns E R} (t : Z) (e e' : E) : Prop :=
  (forall x, x ∈ touched e -> x ∈ touched e') /\
  forall t' r, t' <> t -> t' ∉ touched e' -> deadline_of e' t' r = deadline_of e t' r.
Definition silent {E R : Type} `{RT : RunTurns E R} (t : Z) (e e' : E) : Prop :=
  touched e' = touched e /\ forall t' r, t' <> t -> deadline_of e' t' r = deadline_of e t' r.
Definition neutral {E R : Type} `{RT : RunTurns E R} (e e' : E) : Prop :=
  touched e' = touched e /\ forall t r, deadline_of e' t r = deadline_of e t r.

Class RunTurnsOk (E R : Type) `{RT : RunTurns E R} : Prop := {
  drain_law e : touched (drain_touched e) = [] /\ forall t r, deadline_of (drain_touched e) t r = deadline_of e t r;
  read_now_law e : neutral e (fst (read_now e));
  load_now_law e : neutral e (fst (load_now_ms e));
  alloc_law e : neutral e (fst (alloc_run_token e));
  reset_law e : neutral e (reset_reason_of e);
  settle_law e : neutral e (settle_heap e);
  finish_law id msg e : neutral e (finish_run_of id msg e);
  prepare_law t job e : silent t e (fst (prepare_run t job e));
  start_law t job r e : speaks t e (fst (start_run t job r e));
  enter_law t at_ r e : silent t e (fst (enter_run t at_ r e));
  leave_law t r e : silent t e (fst (leave_run t r e));
  timer_law t c r e : speaks t e (fst (timer_run t c r e));
  idle_law t c r e : speaks t e (fst (idle_run t c r e));
  event_law t c ev r e : speaks t e (fst (event_run t c ev r e));
  wall_law t r e : silent t e (fst (wall_run t r e));
  boundary_law t r e : silent t e (fst (boundary_run t r e));
  fail_law t err r e : silent t e (fst (fail_of t err r e));
  telemetry_law t r e : silent t e (fst (telemetry t r e));
  drop_law t r e : silent t e (drop_run t r e);
}.

Section Deadlines.
Context {E R : Type} `{RTO : RunTurnsOk E R}.

Definition tokens (s : Loop E R) : list Z := map lr_token (live s).

Definition entry_le (a b : Z * Z) : Prop := sooner_entry b a = false.
Fixpoint ordered (h : list (Z * Z)) : Prop :=
  match h with [] => True | x :: h' => (forall y, y ∈ h' -> entry_le x y) /\ ordered h' end.

(** Live runs have different tokens, those of their jobs. *)
Definition named (ls : list (LiveRun R)) : Prop :=
  NoDup (map lr_token ls) /\ forall l, l ∈ ls -> lr_token l = job_token (lr_job l).

(** Every live run's next deadline is in the heap, or the run is among those whose
    timers changed. *)
Definition covered (s : Loop E R) : Prop :=
  ordered (deadlines s) /\ named (live s) /\
  forall l d, l ∈ live s -> deadline_of (env s) (lr_token l) (lr_rs l) = Some d ->
    (d, lr_token l) ∈ deadlines s \/ lr_token l ∈ touched (env s).

Lemma entry_le_fst a b : entry_le a b -> a.1 <= b.1.
Proof. unfold entry_le, sooner_entry. intros H. destruct (Z.ltb_spec b.1 a.1); [discriminate|lia]. Qed.
Lemma entry_le_trans a b c : entry_le a b -> entry_le b c -> entry_le a c.
Proof.
  unfold entry_le, sooner_entry. intros H1 H2.
  destruct (Z.ltb_spec b.1 a.1), (Z.ltb_spec c.1 b.1), (Z.ltb_spec c.1 a.1), (Z.eqb_spec b.1 a.1), (Z.eqb_spec c.1 b.1), (Z.eqb_spec c.1 a.1);
    cbn in *; try discriminate; try reflexivity; try lia; apply Z.ltb_ge in H1, H2; apply Z.ltb_ge; lia.
Qed.
Lemma entry_le_total a b : sooner_entry a b = true -> entry_le a b.
Proof.
  unfold entry_le, sooner_entry. intros H.
  destruct (Z.ltb_spec a.1 b.1), (Z.ltb_spec b.1 a.1), (Z.eqb_spec a.1 b.1), (Z.eqb_spec b.1 a.1); cbn in *; try discriminate; try reflexivity; try lia.
Qed.

Lemma push_deadline_elem k h x : x ∈ push_deadline k h <-> x = k \/ x ∈ h.
Proof.
  induction h as [|y h IH]; cbn [push_deadline]; [set_solver|]. destruct (sooner_entry k y); set_solver.
Qed.
Lemma push_deadline_ordered k h : ordered h -> ordered (push_deadline k h).
Proof.
  induction h as [|y h IH]; intros Ho; cbn [push_deadline]; [split; [set_solver|done]|]. destruct Ho as [Hy Ho].
  destruct (sooner_entry k y) eqn:Es; (split; [|]).
  - intros x [->|Hx]%elem_of_cons; [by apply entry_le_total|]. apply (entry_le_trans _ y); [by apply entry_le_total|by apply Hy].
  - by split.
  - intros x [->|Hx]%push_deadline_elem; [exact Es|by apply Hy].
  - by apply IH.
Qed.
Lemma ordered_tail h : ordered h -> ordered (tail h).
Proof. destruct h; [done|]. by intros [_ H]. Qed.

(** Discarding stale tops keeps what is covered. *)
Lemma peek_valid_spec e ls h k h' :
  peek_valid e ls h = (h', k) -> ordered h ->
  ordered h' /\
  (forall l d, NoDup (map lr_token ls) -> l ∈ ls -> deadline_of e (lr_token l) (lr_rs l) = Some d -> (d, lr_token l) ∈ h -> (d, lr_token l) ∈ h') /\
  match k with
  | Some (at_, t) => h' = (at_, t) :: tail h' /\ exists idx l, find_live ls t = Some (idx, l) /\ deadline_of e t (lr_rs l) = Some at_
  | None => h' = []
  end.
Proof.
  revert h' k. induction h as [|[at_ t] h IH]; intros h' k; cbn [peek_valid]; [intros [= <- <-] _; split; [done|]; split; [set_solver|done]|].
  destruct (find_live ls t) as [[idx l]|] eqn:Ef; [destruct (decide (deadline_of e t (lr_rs l) = Some at_)) as [Hd|Hd]|].
  - rewrite bool_decide_eq_true_2 by done. intros [= <- <-] Ho. split; [done|]. split; [done|]. split; [done|]. by exists idx, l.
  - rewrite bool_decide_eq_false_2 by done. intros Hp [_ Ho]. destruct (IH _ _ Hp Ho) as (H1 & H2 & H3). split; [done|]. split; [|done].
    intros l' d Hn Hl Hd' [[= -> <-]|Hin]%elem_of_cons; [|by apply H2].
    destruct (find_live_some _ _ _ _ Ef) as [Hi Ht]. assert (l' = l) as ->; [|by destruct Hd].
    apply list_elem_of_lookup in Hl as [j Hj]. assert (j = idx) as ->; [|congruence].
    apply (NoDup_lookup _ _ _ (lr_token l') Hn); rewrite list_lookup_fmap, ?Hi, ?Hj; cbn; congruence.
  - intros Hp [_ Ho]. destruct (IH _ _ Hp Ho) as (H1 & H2 & H3). split; [done|]. split; [|done].
    intros l' d Hn Hl Hd' [[= -> <-]|Hin]%elem_of_cons; [|by apply H2]. apply list_find_None in Ef. rewrite Forall_forall in Ef.
    by destruct (Ef l' Hl).
Qed.

Lemma covered_peek s : covered s -> covered (fst (peek_valid_deadline s)).
Proof.
  intros (H1 & H2 & H3). unfold peek_valid_deadline. destruct (peek_valid _ _ _) as [h k] eqn:Ep.
  destruct (peek_valid_spec _ _ _ _ _ Ep H1) as (P1 & P2 & _). split; [done|]. split; [done|]. intros l d Hl Hd.
  destruct (H3 l d Hl Hd) as [Hh|Ht]; [left|by right]. apply P2; [apply H2|done..].
Qed.

(** *** What keeps it *)

Lemma covered_silent t s e' : silent t (env s) e' -> t ∉ tokens s -> covered s -> covered (with_env s e').
Proof.
  intros [H1 H2] Ht (C1 & C2 & C3). split; [done|]. split; [done|]. intros l d Hl Hd. cbn in *. rewrite H1. apply C3; [done|].
  rewrite <- H2; [exact Hd|]. intros <-. apply Ht. unfold tokens. by apply list_elem_of_fmap_2.
Qed.
Lemma covered_neutral s e' : neutral (env s) e' -> covered s -> covered (with_env s e').
Proof.
  intros [H1 H2] (C1 & C2 & C3). split; [done|]. split; [done|]. intros l d Hl Hd. cbn in *. rewrite H1. apply C3; [done|]. by rewrite <- H2.
Qed.
Lemma covered_speaks t s e' : speaks t (env s) e' -> t ∉ tokens s -> covered s -> covered (with_env s e').
Proof.
  intros [H1 H2] Ht (C1 & C2 & C3). split; [done|]. split; [done|]. intros l d Hl Hd. cbn in *.
  destruct (decide (lr_token l ∈ touched e')) as [Hin|Hnin]; [by right|].
  rewrite H2 in Hd; [|intros <-; apply Ht; unfold tokens; by apply list_elem_of_fmap_2|done].
  destruct (C3 l d Hl Hd) as [Hh|Htt]; [by left|right; by apply H1].
Qed.

(** While the run [t] is out of the list: actions that keep the rest covered, and
    those that also touch nobody. *)
Definition Off {A} (t : Z) (m : L E R A) : Prop := forall s, covered s -> t ∉ tokens s ->
  covered (fst (m s)) /\ live (fst (m s)) = live s /\ (forall x, x ∈ deadlines s -> x ∈ deadlines (fst (m s))).
Definition OffQ {A} (t : Z) (m : L E R A) : Prop := Off t m /\ forall s, touched (env (fst (m s))) = touched (env s).

Lemma OffQ_Off {A} t (m : L E R A) : OffQ t m -> Off t m.
Proof. by intros []. Qed.
Lemma Off_ret {A} t (a : A) : OffQ t (mret a).
Proof. by split. Qed.
Lemma Off_bind {A B} t (m : L E R A) (k : A -> L E R B) : Off t m -> (forall a, Off t (k a)) -> Off t (m ≫= k).
Proof.
  intros Hm Hk s Hc Ht. rewrite run_bind. destruct (Hm s Hc Ht) as (H1 & H2 & H3).
  destruct (Hk (snd (m s)) (fst (m s)) H1) as (K1 & K2 & K3); [unfold tokens; by rewrite H2|].
  split; [done|]. split; [by rewrite K2|]. intros x Hx. by apply K3, H3.
Qed.
Lemma OffQ_bind {A B} t (m : L E R A) (k : A -> L E R B) : OffQ t m -> (forall a, OffQ t (k a)) -> OffQ t (m ≫= k).
Proof.
  intros [Hm Hq] Hk. split; [apply Off_bind; [done|]; intros a; apply Hk|]. intros s. rewrite run_bind.
  rewrite (proj2 (Hk _)). apply Hq.
Qed.
Lemma Off_get t : OffQ t get.
Proof. by split. Qed.
Lemma Off_same t f : (forall s, env (f s) = env s /\ live (f s) = live s /\ deadlines (f s) = deadlines s) -> OffQ t (modify f).
Proof.
  intros Hf. split; [|intros s; cbn; by rewrite (proj1 (Hf s))]. intros s Hc Ht. destruct (Hf s) as (H1 & H2 & H3). cbn.
  unfold covered, tokens in *. by rewrite H1, H2, H3.
Qed.
Lemma on_env_parts {A} (f : E -> E * A) (s : Loop E R) : fst (on_env f s) = with_env s (fst (f (env s))).
Proof. unfold on_env. by destruct (f (env s)). Qed.
Lemma Off_env {A} t (f : E -> E * A) : (forall e, speaks t e (fst (f e))) -> Off t (on_env f).
Proof. intros Hf s Hc Ht. rewrite on_env_parts. split; [by eapply covered_speaks|done]. Qed.
Lemma OffQ_env {A} t (f : E -> E * A) : (forall e, silent t e (fst (f e))) -> OffQ t (on_env f).
Proof.
  intros Hf. split; [|intros s; rewrite on_env_parts; apply Hf]. intros s Hc Ht. rewrite on_env_parts. split; [by eapply covered_silent|done].
Qed.
Lemma neutral_silent t e e' : neutral e e' -> silent t e e'.
Proof. intros [H1 H2]. by split. Qed.
Lemma OffQ_env_ t (f : E -> E) : (forall e, silent t e (f e)) -> OffQ t (on_env_ f).
Proof. intros Hf. split; [|intros s; apply Hf]. intros s Hc Ht. split; [by eapply covered_silent|done]. Qed.

Lemma Off_push_heap t k : OffQ t (push_heap k).
Proof.
  split; [|done]. intros s (C1 & C2 & C3) Ht. split; [|split; [done|]].
  - split; [by apply push_deadline_ordered|]. split; [done|]. intros l d Hl Hd. cbn. rewrite push_deadline_elem.
    destruct (C3 l d Hl Hd); [left; by right|by right].
  - intros x Hx. cbn. apply push_deadline_elem. by right.
Qed.

Create HintDb deadlines discriminated.
#[local] Hint Constants Opaque : deadlines.
#[local] Hint Resolve Off_ret Off_get Off_push_heap : deadlines.

Ltac off_step :=
  match goal with
  | |- forall _, _ => intros ?
  | |- _ (let _ := _ in _) => cbv zeta
  | |- OffQ _ (modify _) => apply Off_same; intros ?; by repeat split
  | |- OffQ _ (_ ≫= _) => apply OffQ_bind
  | |- Off _ (_ ≫= _) => apply Off_bind
  | |- OffQ _ (match ?x with _ => _ end) => destruct x
  | |- _ => solve [eauto 2 with deadlines nocore]
  | |- OffQ ?t (on_env_ _) => apply OffQ_env_; intros ?; first [apply drop_law | apply neutral_silent, finish_law | apply neutral_silent, settle_law | apply neutral_silent, reset_law]
  | |- OffQ ?t (on_env _) => apply OffQ_env; intros ?; first [apply telemetry_law | apply fail_law | apply enter_law | apply leave_law | apply wall_law
      | apply boundary_law | apply prepare_law | apply neutral_silent, read_now_law | apply neutral_silent, load_now_law | apply neutral_silent, alloc_law]
  | |- _ => progress cbv beta
  | |- Off _ _ => apply OffQ_Off
  end.
Ltac off := repeat off_step.

Lemma Off_conclude l r t : OffQ (lr_token l) (conclude_run l r t).
Proof. unfold conclude_run, finish_job. off. Qed.
Lemma Off_requeue t l : OffQ t (requeue l).
Proof. unfold requeue. off. Qed.
Lemma Off_note t job : OffQ t (note_turn_owner job).
Proof. unfold note_turn_owner. off. Qed.
#[local] Hint Resolve Off_conclude Off_requeue Off_note : deadlines.
Lemma Off_drain_tokens t ts : OffQ t (drain_tokens ts).
Proof. induction ts as [|x ts IH]; cbn [drain_tokens]; off. Qed.

(** *** Rest between turns *)

Definition at_rest (s : Loop E R) : Prop := covered s /\ touched (env s) = [].

Lemma requeue_spec l s :
  env (fst (requeue l s)) = env s /\ live (fst (requeue l s)) = live s /\
  (ordered (deadlines s) -> ordered (deadlines (fst (requeue l s)))) /\
  (forall x, x ∈ deadlines s -> x ∈ deadlines (fst (requeue l s))) /\
  forall d, deadline_of (env s) (lr_token l) (lr_rs l) = Some d -> (d, lr_token l) ∈ deadlines (fst (requeue l s)).
Proof.
  unfold requeue. rewrite run_bind. cbn [get fst snd]. destruct (deadline_of (env s) (lr_token l) (lr_rs l)) as [d|]; [|done].
  cbn. split; [done|]. split; [done|]. split; [apply push_deadline_ordered|]. split.
  - intros x Hx. apply push_deadline_elem. by right.
  - intros d' [= <-]. apply push_deadline_elem. by left.
Qed.

Lemma find_live_unique ls l : NoDup (map lr_token ls) -> l ∈ ls -> exists i, find_live ls (lr_token l) = Some (i, l : LiveRun R).
Proof.
  intros Hn Hl. destruct (find_live ls (lr_token l)) as [[i x]|] eqn:Ef.
  - destruct (find_live_some _ _ _ _ Ef) as [Hi Ht]. exists i. f_equal. f_equal.
    apply list_elem_of_lookup in Hl as [j Hj]. assert (j = i) as ->; [|congruence].
    apply (NoDup_lookup _ _ _ (lr_token l) Hn); rewrite list_lookup_fmap, ?Hi, ?Hj; cbn; congruence.
  - apply list_find_None in Ef. rewrite Forall_forall in Ef. by destruct (Ef l Hl).
Qed.

(** Draining queues the deadlines of the runs a turn touched. *)
Lemma drain_tokens_spec ts s :
  let s' := fst (drain_tokens ts s) in
  env s' = env s /\ live s' = live s /\ (ordered (deadlines s) -> ordered (deadlines s')) /\
  (forall x, x ∈ deadlines s -> x ∈ deadlines s') /\
  forall l d, NoDup (tokens s) -> l ∈ live s -> lr_token l ∈ ts -> deadline_of (env s) (lr_token l) (lr_rs l) = Some d ->
    (d, lr_token l) ∈ deadlines s'.
Proof.
  revert s. induction ts as [|t ts IH]; intros s; cbn [drain_tokens]; [by repeat split; set_solver|]. cbv zeta.
  rewrite run_bind. cbn [get fst snd]. rewrite run_bind.
  set (m := match find_live (live s) t with Some (_, l) => requeue l | None => mret tt end).
  assert (Hm : env (fst (m s)) = env s /\ live (fst (m s)) = live s /\ (ordered (deadlines s) -> ordered (deadlines (fst (m s)))) /\
    (forall x, x ∈ deadlines s -> x ∈ deadlines (fst (m s))) /\
    forall i l d, find_live (live s) t = Some (i, l) -> deadline_of (env s) (lr_token l) (lr_rs l) = Some d -> (d, lr_token l) ∈ deadlines (fst (m s))).
  { unfold m. destruct (find_live (live s) t) as [[i l]|]; [|by repeat split].
    destruct (requeue_spec l s) as (M1 & M2 & M3 & M4 & M5). repeat (split; [done|]). intros ? ? d [= <- <-]. apply M5. }
  destruct Hm as (M1 & M2 & M3 & M4 & M5). destruct (IH (fst (m s))) as (I1 & I2 & I3 & I4 & I5).
  split; [congruence|]. split; [congruence|]. split; [auto|]. split; [auto|].
  intros l d Hn Hl Hin Hd. apply elem_of_cons in Hin as [<-|Hin].
  - apply I4. destruct (find_live_unique _ _ Hn Hl) as [i Hi]. by apply (M5 i l d).
  - apply I5; [unfold tokens; by rewrite M2|by rewrite M2|done|by rewrite M1].
Qed.

Lemma drain_rests s : covered s ->
  at_rest (fst (drain_touched_timers s)) /\ live (fst (drain_touched_timers s)) = live s.
Proof.
  intros (C1 & C2 & C3). unfold drain_touched_timers. rewrite run_bind. cbn [get fst snd]. rewrite run_bind. cbn [on_env_ modify fst snd].
  destruct (drain_law (env s)) as [T1 T2].
  destruct (drain_tokens_spec (touched (env s)) (with_env s (drain_touched (env s)))) as (D1 & D2 & D3 & D4 & D5).
  split; [|exact D2]. split; [|rewrite D1; exact T1]. split; [by apply D3|]. split; [by rewrite D2|].
  intros l d Hl Hd. rewrite D1 in *. rewrite D2 in Hl. left. cbn [env with_env live deadlines] in *.
  assert (Hd' := Hd). rewrite T2 in Hd'. destruct (C3 l d Hl Hd') as [Hh|Ht]; [by apply D4|apply D5; [apply C2|done..]].
Qed.

(** A run whose next deadline is queued can be put back. *)
Lemma push_live_covers s l : covered s -> lr_token l ∉ tokens s -> lr_token l = job_token (lr_job l) ->
  (forall d, deadline_of (env s) (lr_token l) (lr_rs l) = Some d -> (d, lr_token l) ∈ deadlines s) -> covered (fst (push_live l s)).
Proof.
  intros (C1 & [C2 C2'] & C3) Ht Hj Hd. split; [exact C1|]. split; [split|].
  - cbn. rewrite map_app. cbn. apply NoDup_app. split; [exact C2|]. split; [|apply NoDup_singleton].
    intros x Hx ->%list_elem_of_singleton. by apply Ht.
  - intros x [Hx|Hx]%elem_of_app; [by apply C2'|]. by apply list_elem_of_singleton in Hx as ->.
  - intros x d [Hx|Hx]%elem_of_app Hdx; cbn in *; [by apply C3|]. apply list_elem_of_singleton in Hx as ->. left. by apply Hd.
Qed.

Lemma requeued_covers s l : covered s -> lr_token l ∉ tokens s -> lr_token l = job_token (lr_job l) -> covered (fst ((requeue l;; push_live l) s)).
Proof.
  intros Hc Ht Hj. rewrite run_bind. destruct (requeue_spec l s) as (R1 & R2 & R3 & R4 & R5).
  destruct (proj1 (Off_requeue (lr_token l) l) s Hc Ht) as (H1 & H2 & _).
  apply push_live_covers; [done|unfold tokens; by rewrite H2|done|]. rewrite R1. exact R5.
Qed.

(** *** The end of a turn *)

Lemma leave_spec l s : covered s -> lr_token l ∉ tokens s ->
  let s' := fst (leave_turn_of l s) in
  covered s' /\ live s' = live s /\ (forall x, x ∈ deadlines s -> x ∈ deadlines s') /\
  lr_token (snd (leave_turn_of l s)) = lr_token l /\ lr_job (snd (leave_turn_of l s)) = lr_job l.
Proof.
  intros Hc Ht. unfold leave_turn_of. cbv zeta. rewrite run_bind.
  assert (Hm : OffQ (lr_token l) (on_env (leave_run (lr_token l) (lr_rs l)))) by off.
  destruct (proj1 Hm s Hc Ht) as (H1 & H2 & H3). done.
Qed.

Lemma turn_ended_rests q l out s : covered s -> lr_token l ∉ tokens s -> lr_token l = job_token (lr_job l) ->
  (forall d, q = Some (Some d) -> (d, lr_token l) ∈ deadlines s) ->
  at_rest (fst (turn_ended q l out s)).
Proof.
  intros Hc Ht Hj Hq. unfold turn_ended. rewrite run_bind. cbn [get fst snd]. cbv zeta. rewrite run_bind, run_bind. cbn [mret L_ret fst].
  apply drain_rests. destruct out as [result|]; [by apply (Off_conclude l result (instance_tainted (env s)))|].
  destruct (instance_tainted (env s)).
  - match goal with |- covered (fst (?m s)) => assert (Hm : OffQ (lr_token l) m) by off end. by apply Hm.
  - rewrite run_bind. pose proof (leave_spec l s Hc Ht) as Hl. destruct (leave_turn_of l s) as [s1 l1]. cbn [fst snd] in *.
    destruct Hl as (H1 & H2 & H3 & H4 & H5). rewrite run_bind. cbn [get fst snd]. rewrite <- H4, <- H5 in *.
    assert (Ht1 : lr_token l1 ∉ tokens s1) by (unfold tokens; by rewrite H2).
    destruct q as [q|]; [|exact (requeued_covers s1 l1 H1 Ht1 Hj)]. rewrite run_bind.
    case_bool_decide as Hd; [|pose proof (requeued_covers s1 l1 H1 Ht1 Hj) as Hr; by rewrite run_bind in Hr].
    apply push_live_covers; [done|done|done|]. intros d Hd'. apply H3, Hq. f_equal. rewrite <- Hd. exact Hd'.
Qed.

(** A turn with guest code, from its owner's note to its end. *)
Lemma js_turn_rests {O} (l : LiveRun R) at_ (f : LiveRun R -> E -> E * (R * O)) (g : O -> option (result FailureOutput Output)) q s :
  (forall r e, speaks (lr_token l) e (fst (f (with_rs l r) e))) -> covered s -> lr_token l ∉ tokens s -> lr_token l = job_token (lr_job l) ->
  (forall d, q = Some (Some d) -> (d, lr_token l) ∈ deadlines s) ->
  at_rest (fst ((l' ← enter_turn_of l at_; '(r, out) ← on_env (f l'); turn_ended q (with_rs l' r) (g out)) s)).
Proof.
  intros Hf Hc Ht Hj0 Hq. unfold enter_turn_of. rewrite !run_bind. cbn [mret L_ret fst snd lr_rs].
  assert (He : OffQ (lr_token l) (on_env (enter_run (lr_token l) at_ (lr_rs l)))) by off.
  destruct (proj1 He s Hc Ht) as (H1 & H2 & H3). destruct (on_env (enter_run _ _ _) s) as [s1 r1]. cbn [fst snd] in *.
  change (mk_LiveRun (lr_token l) r1 (lr_job l)) with (with_rs l r1).
  assert (Hj : Off (lr_token l) (on_env (f (with_rs l r1)))) by (apply Off_env; intros e; apply Hf).
  destruct (Hj s1 H1) as (K1 & K2 & K3); [unfold tokens; by rewrite H2|].
  destruct (on_env (f (with_rs l r1)) s1) as [s2 [r2 out]]. cbn [fst snd] in *.
  apply turn_ended_rests; [done|unfold tokens; cbn; by rewrite K2, H2|done|]. intros d Hd. by apply K3, H3, Hq.
Qed.

Lemma Off_at_rest {A} t (m : L E R A) s : OffQ t m -> at_rest s -> t ∉ tokens s -> at_rest (fst (m s)) /\ t ∉ tokens (fst (m s)).
Proof.
  intros [Hm Hq] [Hc Hto] Ht. destruct (Hm s Hc Ht) as (H1 & H2 & _). split; [split; [done|]; by rewrite Hq|unfold tokens; by rewrite H2].
Qed.
Lemma requeue_rests s l : at_rest s -> lr_token l ∉ tokens s -> lr_token l = job_token (lr_job l) -> at_rest (fst ((requeue l;; push_live l) s)).
Proof.
  intros [Hc Hto] Ht Hj. split; [by apply requeued_covers|]. rewrite run_bind. cbn. by rewrite (proj2 (Off_requeue (lr_token l) l)).
Qed.

Lemma grace_wall_rests l at_ s : at_rest s -> lr_token l ∉ tokens s -> lr_token l = job_token (lr_job l) -> at_rest (fst (grace_wall_entry l at_ s)).
Proof.
  intros Hr Ht Hj. unfold grace_wall_entry, enter_turn_of. rewrite !run_bind. cbn [mret L_ret fst snd lr_rs lr_token].
  assert (He : OffQ (lr_token l) (on_env (enter_run (lr_token l) at_ (lr_rs l)))) by off.
  destruct (Off_at_rest _ _ s He Hr Ht) as [H1 H2]. destruct (on_env (enter_run _ _ _) s) as [s1 r1]. cbn [fst snd] in *.
  assert (Hw : OffQ (lr_token l) (on_env (wall_run (lr_token l) r1))) by off.
  destruct (Off_at_rest _ _ s1 Hw H1 H2) as [K1 K2]. destruct (on_env (wall_run _ _) s1) as [s2 [r2 out]]. cbn [fst snd] in *.
  destruct out as [o|]; cbv zeta.
  - apply (Off_at_rest _ _ s2 (Off_conclude (with_rs (mk_LiveRun (lr_token l) r1 (lr_job l)) r2) (Ok o) false) K1 K2).
  - unfold leave_turn_of. rewrite !run_bind. cbn [mret L_ret fst snd].
    assert (Hv : OffQ (lr_token l) (on_env (leave_run (lr_token l) r2))) by off.
    destruct (Off_at_rest _ _ s2 Hv K1 K2) as [V1 V2]. cbn [with_rs lr_token lr_rs lr_job].
    destruct (on_env (leave_run _ _) s2) as [s3 r3]. cbn [fst snd] in *.
    pose proof (requeue_rests s3 (mk_LiveRun (lr_token l) r3 (lr_job l)) V1 V2 Hj) as Hq. rewrite run_bind in Hq. exact Hq.
Qed.

Lemma sweep_entry_rests at_ idx l s :
  at_rest (fst (take_live idx s)) -> lr_token l ∉ tokens (fst (take_live idx s)) -> lr_token l = job_token (lr_job l) ->
  at_rest (fst (sweep_entry at_ idx l s)).
Proof.
  intros Hr Ht Hj. unfold sweep_entry. rewrite run_bind. cbn [get fst snd]. cbv zeta. rewrite run_bind.
  destruct (take_live idx s) as [s0 []]. cbn [fst snd] in *.
  assert (Hn : OffQ (lr_token l) (note_turn_owner (lr_job l) : L E R unit)) by off.
  destruct (bool_decide _); [|destruct (in_grace_of _)].
  - rewrite run_bind. destruct (Off_at_rest _ _ s0 Hn Hr Ht) as [[N1 _] N2].
    apply (js_turn_rests l at_ (fun l => timer_run (lr_token l) (job_call (lr_job l)) (lr_rs l)) of_scan None);
      [intros r e; apply timer_law|done..|discriminate].
  - rewrite run_bind. assert (Hnow : OffQ (lr_token l) (on_env (A := Z) (R := R) read_now)) by off.
    destruct (Off_at_rest _ _ s0 Hnow Hr Ht) as [R1 R2]. destruct (on_env read_now s0) as [s1 now]. cbn [fst snd] in *.
    rewrite run_bind. cbn [get fst snd]. destruct (match idle_of _ _ _ with Some d => _ | None => None end) as [d|].
    + rewrite run_bind. destruct (Off_at_rest _ _ s1 Hn R1 R2) as [[N1 _] N2].
      apply (js_turn_rests l d (fun l => idle_run (lr_token l) (job_call (lr_job l)) (lr_rs l)) of_scan None);
        [intros r e; apply idle_law|done..|discriminate].
    + destruct (wall_due_of _ _).
      * rewrite run_bind. destruct (Off_at_rest _ _ s1 Hn R1 R2) as [N1 N2].
        rewrite run_bind. exact (grace_wall_rests l at_ _ N1 N2 Hj).
      * pose proof (requeue_rests s1 l R1 R2 Hj) as Hq. rewrite run_bind in Hq. rewrite !run_bind. exact Hq.
  - rewrite run_bind. destruct (Off_at_rest _ _ s0 Hn Hr Ht) as [N1 N2]. unfold enter_turn_of. rewrite !run_bind. cbn [mret L_ret fst snd lr_rs lr_token].
    assert (He : OffQ (lr_token l) (on_env (enter_run (lr_token l) at_ (lr_rs l)))) by off.
    destruct (Off_at_rest _ _ _ He N1 N2) as [H1 H2]. destruct (on_env (enter_run _ _ _) _) as [s1 r1]. cbn [fst snd] in *.
    assert (Hb : OffQ (lr_token l) (on_env (boundary_run (lr_token l) r1))) by off.
    destruct (Off_at_rest _ _ s1 Hb H1 H2) as [K1 K2]. destruct (on_env (boundary_run _ _) s1) as [s2 [r2 result]]. cbn [fst snd] in *.
    rewrite run_bind. cbn [mret L_ret fst].
    apply (Off_at_rest _ _ s2 (Off_conclude (with_rs (mk_LiveRun (lr_token l) r1 (lr_job l)) r2) result false) K1 K2).
Qed.

(** *** Taking a run out *)

Lemma named_take ls idx l : named ls -> ls !! idx = Some l ->
  named (swap_remove ls idx) /\ lr_token l ∉ map lr_token (swap_remove ls idx) /\ lr_token l = job_token (lr_job l) /\
  forall x, x ∈ swap_remove ls idx -> x ∈ ls.
Proof.
  intros [Hn Hj] Hi. pose proof (swap_remove_perm _ _ _ Hi) as Hp. rewrite Hp in Hn. cbn in Hn. apply NoDup_cons in Hn as [Hn1 Hn2].
  assert (Hsub : forall x, x ∈ swap_remove ls idx -> x ∈ ls) by (intros x Hx; rewrite Hp; by right).
  split; [split; [done|]; intros x Hx; by apply Hj, Hsub|]. split; [done|]. split; [|done].
  apply Hj. by eapply list_elem_of_lookup_2.
Qed.

Lemma take_rests s idx l h : at_rest s -> live s !! idx = Some l ->
  ordered h -> (forall x, x ∈ deadlines s -> x.2 <> lr_token l -> x ∈ h) ->
  let s' := fst (take_live idx (with_deadlines s h)) in
  at_rest s' /\ lr_token l ∉ tokens s' /\ lr_token l = job_token (lr_job l).
Proof.
  intros [(C1 & C2 & C3) Ht] Hi Ho Hh. destruct (named_take _ _ _ C2 Hi) as (N1 & N2 & N3 & N4). cbn.
  split; [|by split]. split; [|exact Ht]. split; [exact Ho|]. split; [exact N1|]. intros x d Hx Hd. cbn in *.
  destruct (C3 x d (N4 x Hx) Hd) as [Hin|Hin]; [left|by right]. apply Hh; [exact Hin|]. cbn. intros E0. apply N2. rewrite <- E0.
  by apply list_elem_of_fmap_2.
Qed.

Lemma sweep_rests fuel cutoff s : at_rest s -> at_rest (fst (sweep_expired_deadlines fuel cutoff s)).
Proof.
  revert s. induction fuel as [|fuel IH]; intros s Hr; cbn [sweep_expired_deadlines]; [done|]. rewrite run_bind.
  pose proof (covered_peek s (proj1 Hr)) as Hc. unfold peek_valid_deadline in *.
  destruct (peek_valid (env s) (live s) (deadlines s)) as [h k] eqn:Ep. cbn [fst snd] in *.
  set (s1 := with_deadlines s h) in *. assert (H1 : at_rest s1) by (split; [exact Hc|apply Hr]).
  destruct (peek_valid_spec _ _ _ _ _ Ep (proj1 (proj1 Hr))) as (_ & _ & Hk). destruct k as [[at_ t]|]; [|done].
  destruct (_ <? _); [done|]. rewrite run_bind. cbn [modify fst snd]. rewrite run_bind. cbn [get fst snd].
  destruct Hk as (Hh & _). destruct (find_live _ t) as [[idx l]|] eqn:Ef; [|].
  - rewrite run_bind. destruct (find_live_some _ _ _ _ Ef) as [Hi Htok].
    destruct (take_rests s1 idx l (tail (deadlines s1)) H1 Hi) as (T1 & T2 & T3).
    { apply ordered_tail. apply H1. }
    { intros x Hx Hne. cbn in Hx |- *. rewrite Hh in Hx. apply elem_of_cons in Hx as [->|Hx]; [by rewrite Htok in Hne|done]. }
    pose proof (sweep_entry_rests at_ idx l _ T1 T2 T3) as He. destruct (sweep_entry at_ idx l _) as [s3 []]; cbn [fst snd] in *; [exact He|].
    by apply IH.
  - destruct H1 as [(C1 & C2 & C3) Ht]. split; [|exact Ht]. split; [by apply ordered_tail|]. split; [exact C2|]. intros x d Hx Hd. left. cbn in *.
    destruct (C3 x d Hx Hd) as [Hin|Hin]; [|rewrite Ht in Hin; set_solver]. cbn in Hin. rewrite Hh in Hin.
    apply elem_of_cons in Hin as [[= -> <-]|Hin]; [|done]. destruct (find_live_unique (live s) x (proj1 C2) Hx) as [i Hi]. unfold s1 in Ef. cbn in Ef. change (find_live (live s) (lr_token x) = None) in Ef. by rewrite Hi in Ef.
Qed.

Lemma deliver_rests token msg at_ s : at_rest s -> at_rest (fst (deliver_event token msg at_ s)).
Proof.
  intros Hr. unfold deliver_event. rewrite run_bind. cbn [get fst snd]. destruct (find_live (live s) token) as [[idx l]|] eqn:Ef; [|done].
  destruct (find_live_some _ _ _ _ Ef) as [Hi Htok].
  destruct (take_rests s idx l (deadlines s) Hr Hi) as (T1 & T2 & T3); [apply Hr|done|].
  rewrite run_bind. cbv zeta. replace (with_deadlines s (deadlines s)) with s in * by (by destruct s).
  assert (Hq : forall d, deadline_of (env s) (lr_token l) (lr_rs l) = Some d -> (d, lr_token l) ∈ deadlines (fst (take_live idx s))).
  { intros d Hd. destruct Hr as [(_ & _ & C3) Ht]. destruct (C3 l d) as [Hin|Hin]; [by eapply list_elem_of_lookup_2|done|done|]. rewrite Ht in Hin. set_solver. }
  change (env s) with (env (fst (take_live idx s))) in Hq. destruct (take_live idx s) as [s1 []]. cbn [fst snd] in *.
  rewrite run_bind. assert (Hn : OffQ (lr_token l) (note_turn_owner (lr_job l) : L E R unit)) by off.
  destruct (proj1 Hn s1 (proj1 T1) T2) as (N1 & N2 & N3).
  assert (Hne : env (fst (note_turn_owner (lr_job l) s1)) = env s1) by reflexivity.
  destruct (note_turn_owner (lr_job l) s1) as [s2 []]. cbn [fst snd] in *. rewrite run_bind. cbn [get fst snd].
  match goal with |- context [event_run _ _ ?ev] => set (event := ev) end. set (queued := deadline_of _ _ _).
  pose proof (js_turn_rests l at_ (fun l => event_run (lr_token l) (job_call (lr_job l)) event (lr_rs l)) (fun out => out) (Some queued) s2) as Hj.
  rewrite run_bind in Hj. rewrite run_bind. destruct (enter_turn_of l at_ s2) as [s3 l3]. cbn [fst snd] in *.
  rewrite run_bind in Hj. rewrite run_bind. destruct (on_env _ s3) as [s4 [r out]]. cbn [fst snd] in *. rewrite run_bind. apply Hj.
  - intros r0 e. apply event_law.
  - exact N1.
  - unfold tokens. by rewrite N2.
  - exact T3.
  - intros d [= Hd]. apply N3, Hq. rewrite <- Hne. exact Hd.
Qed.

Lemma dispatch_rests job s : at_rest s -> job_token job <> 0 -> job_token job ∉ tokens s -> at_rest (fst (dispatch_job job s)).
Proof.
  intros Hr H0 Ht. unfold dispatch_job. rewrite run_bind.
  assert (Hn : OffQ (job_token job) (note_turn_owner job : L E R unit)) by off.
  destruct (Off_at_rest _ _ s Hn Hr Ht) as [R1 T1]. destruct (note_turn_owner job s) as [s1 []]. cbn [fst snd] in *.
  rewrite run_bind. cbn [get fst snd]. rewrite run_bind.
  match goal with |- context [fst (?m s1)] => set (m0 := m) end.
  assert (Hm : OffQ (job_token job) m0) by (unfold m0; off). destruct (Off_at_rest _ _ s1 Hm R1 T1) as [R2 T2].
  destruct (m0 s1) as [s2 []]. cbn [fst snd] in *. rewrite (proj2 (Z.eqb_neq _ _) H0). rewrite run_bind. cbn [mret L_ret fst snd].
  rewrite run_bind. assert (Hp : OffQ (job_token job) (on_env (prepare_run (job_token job) job) : L E R _)) by off.
  destruct (Off_at_rest _ _ s2 Hp R2 T2) as [R3 T3]. destruct (on_env (prepare_run _ _) s2) as [s3 [r failed]]. cbn [fst snd] in *.
  rewrite run_bind. match goal with |- context [fst (?m s3)] => set (m1 := m) end.
  assert (Hs : Off (job_token job) m1).
  { unfold m1. destruct failed; [off|]. apply Off_bind; [apply Off_env; intros e; apply start_law|off]. }
  destruct (Hs s3 (proj1 R3) T3) as (C4 & L4 & _). destruct (m1 s3) as [s4 [r' out]]. cbn [fst snd] in *. cbv zeta.
  assert (T4 : job_token job ∉ tokens s4) by (unfold tokens; by rewrite L4). set (l := mk_LiveRun (job_token job) r' job).
  rewrite run_bind. cbn [get fst snd]. rewrite run_bind, run_bind. cbn [mret L_ret fst]. apply drain_rests. destruct out as [result|].
  - apply (Off_conclude l result (instance_tainted (env s4))); done.
  - destruct (instance_tainted (env s4)); [|by apply (requeued_covers s4 l)].
    match goal with |- covered (fst (?m s4)) => assert (Hx : OffQ (lr_token l) m) end; [|by apply Hx].
    apply OffQ_bind; [apply OffQ_env; intros e; apply fail_law|]. intros f. apply (Off_conclude l).
Qed.

(** *** Rounds *)

(** A job whose token no job of the loop has. *)
Definition unused (job : CallJob) (s : Loop E R) : Prop := job_token job <> 0 /\ job_token job ∉ map job_token (held s).

Lemma unused_tokens job s : named (live s) -> unused job s -> job_token job ∉ tokens s.
Proof.
  intros [_ Hj] [_ Hu] Hin. apply Hu. unfold held. rewrite map_app. apply elem_of_app. left. rewrite map_map.
  unfold tokens in Hin. apply list_elem_of_fmap in Hin as (l & -> & Hl). rewrite (Hj l Hl). by apply (list_elem_of_fmap_2 (fun x => job_token (lr_job x))).
Qed.
Lemma unused_held job s s' : held s' ≡ₚ held s -> unused job s -> unused job s'.
Proof. intros Hh [H1 H2]. split; [done|]. by rewrite Hh. Qed.

Lemma close_round_rests t s : at_rest s -> at_rest (fst (close_round t s)).
Proof.
  intros Hr. assert (Hz : exists z, z ∉ tokens s) by (exists (fresh (tokens s)); apply infinite_is_fresh). destruct Hz as [z Hz].
  assert (Hm : OffQ z (close_round t : L E R unit)) by (unfold close_round, close_turn_of; off). by apply (Off_at_rest _ _ s Hm Hr Hz).
Qed.
(** The timeout of a wait: the nearest deadline from the clock read for it, or the
    idle settle. *)
Definition times_out (s : Loop E R) (timeout : option Z) : Prop :=
  match snd (peek_valid (env s) (live s) (deadlines s)) with
  | Some (at_, _) => exists e0 now, read_now e0 = (env s, now) /\ timeout = Some (sat_sub at_ now)
  | None => timeout = if bool_decide (live s = []) && negb (settled s) then Isolate.idle_settle_after (idle_settle_secs_of (env s)) else None
  end.

Lemma peek_valid_neutral e e' ls h : neutral e e' -> peek_valid e' ls h = peek_valid e ls h.
Proof.
  intros [_ He]. induction h as [|[at_ t] h IH]; [done|]. cbn [peek_valid]. destruct (find_live ls t) as [[? l]|]; [rewrite He|]; by rewrite IH.
Qed.
Lemma peek_valid_again e ls h : ordered h -> peek_valid e ls (fst (peek_valid e ls h)) = peek_valid e ls h.
Proof.
  intros Ho. destruct (peek_valid e ls h) as [h' k] eqn:Ep. destruct (peek_valid_spec _ _ _ _ _ Ep Ho) as (_ & _ & Hk). cbn [fst].
  destruct k as [[at_ t]|]; [|by rewrite Hk]. destruct Hk as (Hh & idx & l & Hf & Hl). rewrite Hh. cbn [peek_valid].
  by rewrite Hf, bool_decide_eq_true_2.
Qed.

Lemma wait_timeout_rests s : at_rest s ->
  let s1 := fst (wait_timeout s) in at_rest s1 /\ live s1 = live s /\ times_out s1 (snd (wait_timeout s)).
Proof.
  intros Hr. pose proof (covered_peek s (proj1 Hr)) as Hc. unfold wait_timeout. rewrite run_bind. unfold peek_valid_deadline in *.
  pose proof (peek_valid_again (env s) (live s) (deadlines s) (proj1 (proj1 Hr))) as Hp.
  destruct (peek_valid (env s) (live s) (deadlines s)) as [h k]. cbn [fst snd] in *. set (s0 := with_deadlines s h) in *.
  destruct k as [[at_ t]|].
  - rewrite run_bind, on_env_parts. cbn [mret L_ret fst snd]. pose proof (read_now_law (env s0)) as Hn.
    split; [|split; [done|]].
    + split; [by apply covered_neutral|]. etransitivity; [apply (proj1 Hn)|apply Hr].
    + unfold times_out. cbn [env live deadlines with_env]. rewrite (peek_valid_neutral _ _ _ _ Hn). cbn [env live deadlines s0 with_deadlines].
      rewrite Hp. cbn [snd]. exists (env s), (snd (read_now (env s))). split; [apply surjective_pairing|].
      unfold on_env. cbn. by destruct (read_now (env s)).
  - rewrite run_bind. cbn [get mret L_ret fst snd]. split; [split; [done|apply Hr]|]. split; [done|]. unfold times_out. cbn. by rewrite Hp.
Qed.

Lemma begin_rests w s : at_rest s ->
  let s1 := fst (wait_timeout (with_owner s (culprit s) OomNone)) in
  let s2 := fst ((match w with Got _ _ _ => modify (fun s => with_flags s (retired s) false) | _ => mret tt end : L E R unit) s1) in
  at_rest (fst (open_turn_of s2)).
Proof.
  intros Hr s1 s2. assert (H1 : at_rest s1).
  { exact (proj1 (wait_timeout_rests (with_owner s (culprit s) OomNone) Hr)). }
  assert (H2 : at_rest s2) by (unfold s2; destruct w; exact H1).
  assert (Hz : exists z, z ∉ tokens s2) by (exists (fresh (tokens s2)); apply infinite_is_fresh). destruct Hz as [z Hz].
  assert (Hm : OffQ z (open_turn_of : L E R Z)) by (unfold open_turn_of; off). by apply (Off_at_rest _ _ s2 Hm H2 Hz).
Qed.

Lemma round_rests fuel w s : at_rest s -> (forall job, job ∈ job_of w -> unused job s) ->
  snd (serve_round fuel w s) <> Some EndAbandoned -> at_rest (fst (serve_round fuel w s)).
Proof.
  intros Hr Hu Hne.
  assert (Hs : forall cutoff (m : L E R (option Round)), (forall s', at_rest s' -> held s' ≡ₚ held s -> at_rest (fst (m s'))) ->
    at_rest (fst ((swept ← sweep_expired_deadlines fuel cutoff;
      match swept with None => mret None | Some true => mret (Some EndTainted) | Some false => m end) s))).
  { intros cutoff m Hm. rewrite run_bind. pose proof (sweep_rests fuel cutoff s Hr) as H1. pose proof (held_same _ s (Adds_sweep fuel cutoff)) as H2.
    destruct (sweep_expired_deadlines fuel cutoff s) as [s1 [[]|]]; [exact H1|by apply Hm|exact H1]. }
  destruct w as [token [job|msg|] at_| |]; cbn [serve_round] in *; cbv zeta in *.
  - apply Hs. intros s' Hr' Hh. rewrite run_bind.
    assert (Hd : unused job s') by (apply (unused_held job s); [done|]; apply Hu; cbn; set_solver).
    assert (Hg : at_rest (fst (dispatch_job job s'))) by (apply dispatch_rests; [done|apply Hd|apply unused_tokens; [apply Hr'|done]]).
    by destruct (snd (dispatch_job job s')).
  - apply Hs. intros s' Hr' Hh. rewrite run_bind. pose proof (deliver_rests token msg at_ s' Hr') as Hd.
    destruct (deliver_event token msg at_ s') as [s1 [[]|]]; exact Hd.
  - exact Hr.
  - rewrite run_bind in *. cbn [get fst snd] in *. destruct (live s) as [|l ls] eqn:El.
    + assert (Hz : exists z, z ∉ tokens s) by (exists (fresh (tokens s)); apply infinite_is_fresh). destruct Hz as [z Hz].
      match goal with |- at_rest (fst (?m s)) => assert (Hm : OffQ z m) by off; by apply (Off_at_rest _ _ s Hm Hr Hz) end.
    + rewrite run_bind in *.
      assert (Hz : exists z, z ∉ tokens s) by (exists (fresh (tokens s)); apply infinite_is_fresh). destruct Hz as [z Hz].
      assert (Hm : OffQ z (on_env read_now : L E R Z)) by off. destruct (Off_at_rest _ _ s Hm Hr Hz) as [H1 _].
      destruct (on_env read_now s) as [s1 now]. cbn [fst snd] in *. rewrite run_bind. pose proof (sweep_rests fuel now s1 H1) as H2.
      destruct (sweep_expired_deadlines fuel now s1) as [s2 [[]|]]; exact H2.
  - rewrite !run_bind in Hne. by destruct Hne.
Qed.

Definition distinct (held waiting : list CallJob) : Prop :=
  NoDup (map job_token (waiting ++ held)) /\ forall job, job ∈ waiting -> job_token job <> 0.

Lemma distinct_held h h' waiting : h' ≡ₚ h -> distinct h waiting -> distinct h' waiting.
Proof.
  intros Hh [D1 D2]. split; [|exact D2]. eapply NoDup_Permutation_proper; [|exact D1]. by apply Permutation_map, Permutation_app_head.
Qed.

Lemma serve_loop_rests fuel waits s timeout : at_rest s -> distinct (held s) (jobs_of waits) ->
  snd (serve_loop fuel waits s) = Waiting timeout ->
  let s' := fst (serve_loop fuel waits s) in at_rest s' /\ times_out s' timeout.
Proof.
  revert s. induction waits as [|w waits IH]; intros s Hr Hd; cbn [serve_loop]; rewrite run_bind; cbn [get fst snd];
    destruct (bool_decide (live s = []) && retired s) eqn:Er; try discriminate.
  - rewrite !run_bind. intros Hw. cbn [mret L_ret fst snd] in Hw |- *. injection Hw as <-.
    change (fst (modify (fun s0 => with_owner s0 (culprit s0) OomNone) s)) with (with_owner s (culprit s) OomNone).
    destruct (wait_timeout_rests (with_owner s (culprit s) OomNone) Hr) as (H1 & _ & H2). by split.
  - rewrite run_bind. change (fst (modify (fun s0 => with_owner s0 (culprit s0) OomNone) s)) with (with_owner s (culprit s) OomNone).
    rewrite run_bind. destruct (can_end _ w) eqn:Ew; cbn [negb].
    2:{ apply IH; [exact (proj1 (wait_timeout_rests (with_owner s (culprit s) OomNone) Hr))|].
      apply (distinct_held (held s)); [exact (held_same wait_timeout (with_owner s (culprit s) OomNone) Adds_wait_timeout)|].
      destruct w, (snd (wait_timeout (with_owner s (culprit s) OomNone))); try discriminate Ew. exact Hd. }
    rewrite !run_bind. pose proof (held_begin w s) as Hb. pose proof (begin_rests w s Hr) as Hrb. cbv zeta in Hb, Hrb.
    match type of Hb with held (fst ?x) ≡ₚ _ => destruct x as [s1 started] end. cbn [fst snd] in *.
    assert (Hu : forall job, job ∈ job_of w -> unused job s1).
    { intros job Hin. destruct Hd as [Hn H0]. change (jobs_of (w :: waits)) with (job_of w ++ jobs_of waits) in *. split; [apply H0; set_solver|].
      rewrite Hb. intros Hin'. rewrite !map_app in Hn. apply NoDup_app in Hn as (_ & Hn & _).
      apply (Hn (job_token job)); [|exact Hin']. apply elem_of_app. left. by apply list_elem_of_fmap_2. }
    pose proof (round_rests fuel w s1 Hrb Hu) as Hr2. pose proof (held_round fuel w s1) as Hh.
    destruct (serve_round fuel w s1) as [s2 round]. cbn [fst snd] in *.
    assert (Hd2 : held s2 ≡ₚ job_of w ++ held s1 -> distinct (held s2) (jobs_of waits)).
    { intros Hh2. destruct Hd as [Hn H0]. change (jobs_of (w :: waits)) with (job_of w ++ jobs_of waits) in *. split; [|intros job Hin; apply H0; set_solver].
      rewrite Hh2, Hb. eapply NoDup_Permutation_proper; [|exact Hn]. apply Permutation_map. solve_Permutation. }
    destruct round as [[| | |]|]; try discriminate.
    + rewrite run_bind. specialize (Hr2 ltac:(done)). pose proof (close_round_rests started s2 Hr2) as H3.
      pose proof (held_same (close_round started) s2 (Adds_close_round started)) as Hc. destruct (close_round started s2) as [s3 []]. cbn [fst snd] in *.
      apply IH; [exact H3|]. destruct Hh as [Hh|[_ [Hh|Hh]]]; [|discriminate..]. exact (distinct_held _ _ _ Hc (Hd2 Hh)).
    + apply IH; [by apply Hr2|]. destruct Hh as [Hh|[_ [Hh|Hh]]]; [|discriminate..]. by apply Hd2.
    + rewrite run_bind. discriminate.
Qed.
End Deadlines.

(** C6. No deadline is lost and none invented: whenever the loop waits for its next
    event - after any jobs, messages, timeouts and turns, which may have changed the
    timers of any run that they say they touched - its wait times out at the
    earliest next deadline of a live run, by the clock read for the wait.  When no
    live run has a deadline it waits without a timeout, except on an idle instance
    whose heap is not settled yet: that wait takes the configured idle time, if one
    is configured. *)
Theorem waits_for_nearest_deadline {E R : Type} `{RTO : RunTurnsOk E R} fuel first waits (e : E) timeout :
  touched e = [] -> NoDup (map job_token (first :: jobs_of waits)) -> Forall (fun job => job_token job <> 0) (first :: jobs_of waits) ->
  let out := serve_instance (R := R) fuel first waits (loop_new e) in
  let s := fst out in
  let due t l at_ := l ∈ live s /\ lr_token l = t /\ deadline_of (env s) t (lr_rs l) = Some at_ in
  snd out = Waiting timeout ->
  (exists at_ t l e0 now, due t l at_ /\ (forall t' l' d, due t' l' d -> at_ <= d) /\
     read_now e0 = (env s, now) /\ timeout = Some (Z.max 0 (at_ - now))) \/
  ((forall t l at_, ~ due t l at_) /\
   ((live s = [] /\ settled s = false /\ idle_settle_secs_of (env s) <> 0 /\ timeout = Some (idle_settle_secs_of (env s) * 1000000000)) \/
    ((live s <> [] \/ settled s = true \/ idle_settle_secs_of (env s) = 0) /\ timeout = None))).
Proof.
  intros Ht Hn H0 out s due Hw.
  assert (Hr : at_rest (fst out) /\ times_out (fst out) timeout).
  { revert Hw. unfold out, serve_instance. rewrite !run_bind.
    match goal with |- context [dispatch_job first ?x] => set (s0 := x) end.
    assert (Hs0 : at_rest s0 /\ held s0 = []).
    { assert (Hnew : at_rest (loop_new (R := R) e) /\ 0 ∉ tokens (loop_new (R := R) e)).
      { split; [|set_solver]. split; [|exact Ht]. split; [done|]. split; [split; [constructor|set_solver]|]. intros l d Hl. set_solver. }
      destruct Hnew as [N1 N2]. assert (Hm : OffQ (RT := RT) 0 (on_env read_now : L E R Z)) by (apply OffQ_env; intros ?; apply neutral_silent, read_now_law).
      destruct (Off_at_rest _ _ _ Hm N1 N2) as [M1 M2]. rewrite on_env_parts in M1, M2.
      assert (Hl : OffQ (RT := RT) 0 (on_env load_now_ms : L E R Z)) by (apply OffQ_env; intros ?; apply neutral_silent, load_now_law).
      unfold s0. rewrite !on_env_parts. cbn [modify fst snd].
      match goal with |- context [on_env load_now_ms ?x] => destruct (Off_at_rest _ _ x Hl M1 M2) as [L1 _]; rewrite on_env_parts in L1 end.
      split; [exact L1|reflexivity]. }
    destruct Hs0 as [Hs0 Hh0]. apply Forall_cons in H0 as [H0 H0']. cbn [map] in Hn. apply NoDup_cons in Hn as [Hn1 Hn2].
    assert (Hd : at_rest (fst (dispatch_job first s0))).
    { apply dispatch_rests; [done|done|]. apply unused_tokens; [apply Hs0|]. split; [done|]. rewrite Hh0. set_solver. }
    pose proof (Adds_dispatch first s0) as Ha. rewrite Hh0, app_nil_r in Ha.
    destruct (dispatch_job first s0) as [s1 tainted]. cbn [fst snd] in *. destruct tainted; [rewrite run_bind; discriminate|].
    intros Hw. apply serve_loop_rests; [exact Hd| |exact Hw]. split.
    - assert (Hp : map job_token (jobs_of waits ++ held (fst (close_turn_of s1))) ≡ₚ job_token first :: map job_token (jobs_of waits)).
      { change (held (fst (close_turn_of s1))) with (held s1). rewrite map_app, Ha. cbn. apply Permutation_app_comm. }
      rewrite Hp. by constructor.
    - intros job Hj. rewrite Forall_forall in H0'. by apply H0'. }
  destruct Hr as [[(C1 & C2 & C3) Hto] Hti]. unfold times_out in Hti. fold s in C1, C2, C3, Hto, Hti.
  destruct (peek_valid _ _ _) as [h k] eqn:Ep. destruct (peek_valid_spec _ _ _ _ _ Ep C1) as (P1 & P2 & P3). cbn [snd] in Hti.
  assert (Hin : forall l d, l ∈ live s -> deadline_of (env s) (lr_token l) (lr_rs l) = Some d -> (d, lr_token l) ∈ h).
  { intros l d Hl Hd. apply P2; [apply C2|done|done|]. destruct (C3 l d Hl Hd) as [Hi|Hi]; [done|]. rewrite Hto in Hi. set_solver. }
  destruct k as [[at_ t]|].
  - left. destruct P3 as (Hh & idx & l & Hf & Hl). destruct (find_live_some _ _ _ _ Hf) as [Hi Htok]. destruct Hti as (e0 & now & He & ->).
    exists at_, t, l, e0, now. split; [split; [by eapply list_elem_of_lookup_2|done]|]. split; [|by split].
    intros t' l' d (Hl' & <- & Hd). specialize (Hin l' d Hl' Hd). rewrite Hh in Hin, P1. apply elem_of_cons in Hin as [Heq|Hin]; [injection Heq as -> _; lia|].
    destruct P1 as [P1 _]. apply (entry_le_fst (at_, t) (d, lr_token l')), P1. exact Hin.
  - right. split; [intros t l d (Hl & <- & Hd); specialize (Hin l d Hl Hd); rewrite P3 in Hin; set_solver|].
    rewrite Hti. unfold Isolate.idle_settle_after, Timers.from_millis. case_bool_decide as Hlive; [|right; split; [by left|done]].
    destruct (settled s) eqn:Es; [right; split; [by right; left|done]|]. cbn. destruct (Z.eqb_spec (idle_settle_secs_of (env s)) 0) as [H0'|H0']; [right; split; [by right; right|done]|left].
    split_and!; [done..|]. f_equal. lia.
Qed.
