(* ===== verification/Taint.v ===== *)
(** * The answers of an instance, and its taint ([crates/core/src/v8/instance.rs])

    What the loop of [Instance] answers: the calls of [finish_run] it makes are
    written down beside the instance ([Traced]) and proved to be the jobs concluded,
    each with its own completion.  A turn that was interrupted ends the loop; the
    runs and the jobs it takes down are told whose turn it was and why. *)

From S2P Require Import Prelude Bytes Text F64 Types StreamPayloads Errors Wire Link Guard RunState Bridge RunLoop Instance.

(** What the loop relies on here: a run has the link of its job as long as it
    lives; failures carry the error they are given; and what ends a run leaves the
    reason cell alone. *)
Class RunAnswersOk (E R : Type) `{RT : RunTurns E R} : Prop := {
  prepare_link t job e : has_link_of (fst (snd (prepare_run t job e))) = job_link job;
  start_link t job r e : has_link_of (fst (snd (start_run t job r e))) = has_link_of (E := E) r;
  enter_link t at_ r e : has_link_of (snd (enter_run t at_ r e)) = has_link_of (E := E) r;
  leave_link t r e : has_link_of (snd (leave_run t r e)) = has_link_of (E := E) r;
  timer_link t c r e : has_link_of (fst (snd (timer_run t c r e))) = has_link_of (E := E) r;
  idle_link t c r e : has_link_of (fst (snd (idle_run t c r e))) = has_link_of (E := E) r;
  event_link t c ev r e : has_link_of (fst (snd (event_run t c ev r e))) = has_link_of (E := E) r;
  wall_link t r e : has_link_of (fst (snd (wall_run t r e))) = has_link_of (E := E) r;
  boundary_link t r e : has_link_of (fst (snd (boundary_run t r e))) = has_link_of (E := E) r;
  close_link t err r e : has_link_of (fst (snd (close_run t err r e))) = has_link_of (E := E) r;
  fail_error_law t err r e : fo_error (snd (fail_of t err r e)) = err;
  unstarted_error_law err e : fo_error (snd (unstarted_failure (R := R) err e)) = err;
  fail_reason t err r e : reason_of (fst (fail_of t err r e)) = reason_of e;
  unstarted_reason err e : reason_of (fst (unstarted_failure (R := R) err e)) = reason_of e;
  telemetry_reason t r e : reason_of (fst (telemetry t r e)) = reason_of e;
  drop_reason t r e : reason_of (drop_run t r e) = reason_of e;
  finish_reason id msg e : reason_of (finish_run_of id msg e) = reason_of e;
}.

(** ** The calls of [finish_run], written down *)

(** [handed]: run id and completion, newest first. *)
Record Traced (E : Type) := mk_Traced { inner : E; handed : list (Z * option Outbound) }.
Arguments mk_Traced {E}. Arguments inner {E}. Arguments handed {E}.

Definition lift {E A} (f : E -> E * A) (e : Traced E) : Traced E * A := (mk_Traced (fst (f (inner e))) (handed e), snd (f (inner e))).
Definition lift_ {E} (f : E -> E) (e : Traced E) : Traced E := mk_Traced (f (inner e)) (handed e).

#[export] Instance traced_turns {E R : Type} `{RT : RunTurns E R} : RunTurns (Traced E) R := {
  deadline_of e := deadline_of (inner e);
  timer_of e := timer_of (inner e);
  idle_of e := idle_of (inner e);
  wall_due_of := wall_due_of (E := E);
  in_grace_of := in_grace_of (E := E);
  has_link_of := has_link_of (E := E);
  touched e := touched (inner e);
  drain_touched := lift_ drain_touched;
  read_now := lift read_now;
  alloc_run_token := lift alloc_run_token;
  reason_of e := reason_of (inner e);
  instance_tainted e := instance_tainted (inner e);
  reset_reason_of := lift_ reset_reason_of;
  prepare_run t job := lift (prepare_run t job);
  start_run t job r := lift (start_run t job r);
  enter_run t at_ r := lift (enter_run t at_ r);
  leave_run t r := lift (leave_run t r);
  timer_run t c r := lift (timer_run t c r);
  idle_run t c r := lift (idle_run t c r);
  event_run t c ev r := lift (event_run t c ev r);
  wall_run t r := lift (wall_run t r);
  boundary_run t r := lift (boundary_run t r);
  close_run t err r := lift (close_run t err r);
  fail_of t err r := lift (fail_of t err r);
  unstarted_failure err := lift (unstarted_failure err);
  telemetry t r := lift (telemetry t r);
  drop_run t r := lift_ (drop_run t r);
  heap_used_of e := heap_used_of (inner e);
  settle_heap := lift_ settle_heap;
  finish_run_of id msg e := mk_Traced (finish_run_of id msg (inner e)) ((id, msg) :: handed e);
  load_now_ms := lift load_now_ms;
  idle_settle_secs_of e := idle_settle_secs_of (inner e);
}.

Section Answers.
Context {E R : Type} `{RT : RunTurns E R} {OK : RunAnswersOk E R}.
Implicit Types s : Loop (Traced E) R.
Implicit Types l : LiveRun R.

(** The completion of a job: under its run id, if it has a link. *)
Definition sent_for (p : CallJob * CallOutcome) : Z * option Outbound :=
  (job_run_id (fst p), if job_link (fst p)
     then Some (completion_message (co_result (snd p)) (Some (co_heap_used_bytes (snd p))) (co_prefix_failed (snd p))) else None).

Definition link_ok l : Prop := has_link_of (E := E) (lr_rs l) = job_link (lr_job l).

Record books s : Prop := { bk_links : Forall link_ok (live s); bk_sent : handed (env s) = map sent_for (answered s) }.

Definition all_untainted (ps : list (CallJob * CallOutcome)) : Prop := Forall (fun p => co_tainted (snd p) = false) ps.

(** After a turn: whether it was interrupted; then it was the last one answered,
    and the culprit on record. *)
Definition judged (tainted : bool) s : Prop :=
  books s /\
  if tainted then exists job o before, answered s = (job, o) :: before /\ co_tainted o = true /\ culprit s = job_run_id job /\ all_untainted before
  else all_untainted (answered s).

(** *** What changes none of it *)

Definition Steady {A} (m : L (Traced E) R A) : Prop := forall s,
  live (fst (m s)) = live s /\ answered (fst (m s)) = answered s /\ culprit (fst (m s)) = culprit s /\ handed (env (fst (m s))) = handed (env s).

Lemma Steady_ret {A} (a : A) : Steady (mret a).
Proof. by intros s. Qed.
Lemma Steady_get : Steady get.
Proof. by intros s. Qed.
Lemma Steady_bind {A B} (m : L (Traced E) R A) (k : A -> L (Traced E) R B) : Steady m -> (forall a, Steady (k a)) -> Steady (m ≫= k).
Proof.
  intros Hm Hk s. rewrite run_bind. destruct (Hm s) as (H1 & H2 & H3 & H4). destruct (Hk (snd (m s)) (fst (m s))) as (K1 & K2 & K3 & K4).
  by rewrite K1, K2, K3, K4.
Qed.
Lemma Steady_modify f : (forall s, live (f s) = live s /\ answered (f s) = answered s /\ culprit (f s) = culprit s /\ env (f s) = env s) -> Steady (modify f).
Proof. intros Hf s. cbn. by destruct (Hf s) as (-> & -> & -> & ->). Qed.
Lemma Steady_lift {A} (f : E -> E * A) : Steady (on_env (lift f)).
Proof. by intros s. Qed.
Lemma Steady_lift_ (f : E -> E) : Steady (on_env_ (lift_ f)).
Proof. by intros s. Qed.
Lemma Steady_peek : Steady peek_valid_deadline.
Proof. intros s. unfold peek_valid_deadline. by destruct (peek_valid _ _ _). Qed.

Lemma judged_steady {A} (m : L (Traced E) R A) t s : Steady m -> judged t s -> judged t (fst (m s)).
Proof.
  intros Hm [[B1 B2] Hj]. destruct (Hm s) as (H1 & H2 & H3 & H4). split; [split; [by rewrite H1|by rewrite H4, H2]|].
  by rewrite H2, H3.
Qed.

Create HintDb steady discriminated.
#[local] Hint Constants Opaque : steady.
#[local] Hint Resolve Steady_ret Steady_get Steady_peek : steady.

Ltac steady_step :=
  match goal with
  | |- forall _, _ => intros ?
  | |- Steady (let _ := _ in _) => cbv zeta
  | |- Steady (modify _) => apply Steady_modify; intros ?; by repeat split
  | |- _ => solve [eauto 2 with steady nocore]
  | |- Steady (_ ≫= _) => apply Steady_bind
  | |- Steady (on_env _) => apply Steady_lift
  | |- Steady (on_env_ _) => apply Steady_lift_
  | |- Steady (match ?x with _ => _ end) => destruct x
  | |- _ => progress cbv beta
  end.
Ltac steady := repeat steady_step.

Lemma Steady_requeue l : Steady (requeue l).
Proof. unfold requeue, push_heap. steady. Qed.
#[local] Hint Resolve Steady_requeue : steady.
Lemma Steady_drain_tokens ts : Steady (drain_tokens ts).
Proof. induction ts as [|t ts IH]; cbn [drain_tokens]; steady; exact IH. Qed.
#[local] Hint Resolve Steady_drain_tokens : steady.
Lemma Steady_drain : Steady drain_touched_timers.
Proof. unfold drain_touched_timers. steady. Qed.
Lemma Steady_wait_timeout : Steady wait_timeout.
Proof. unfold wait_timeout. steady. Qed.
Lemma Steady_open : Steady open_turn_of.
Proof. unfold open_turn_of. steady. Qed.
Lemma Steady_close : Steady close_turn_of.
Proof. unfold close_turn_of. steady. Qed.
#[local] Hint Resolve Steady_drain Steady_wait_timeout Steady_open Steady_close : steady.
Lemma Steady_close_round t : Steady (close_round t).
Proof. unfold close_round. steady. Qed.
#[local] Hint Resolve Steady_close_round : steady.

(** *** Concluding *)

Lemma finish_job_spec job has_link o s :
  let s' := fst (finish_job job has_link o s) in
  live s' = live s /\ culprit s' = culprit s /\ answered s' = (job, o) :: answered s /\
  handed (env s') = (job_run_id job, if has_link then Some (completion_message (co_result o) (Some (co_heap_used_bytes o)) (co_prefix_failed o))
    else None) :: handed (env s).
Proof. by repeat split. Qed.

Lemma conclude_spec l r t s :
  let s' := fst (conclude_run l r t s) in
  exists o, live s' = live s /\ culprit s' = culprit s /\ answered s' = (lr_job l, o) :: answered s /\ co_tainted o = t /\
    (forall f, r = Err f -> exists f', co_result o = Err f' /\ fo_error f' = fo_error f) /\
    (link_ok l -> handed (env s') = sent_for (lr_job l, o) :: handed (env s)).
Proof.
  unfold conclude_run. rewrite run_bind. destruct (Steady_lift (telemetry (lr_token l) (lr_rs l)) s) as (S1 & S2 & S3 & S4).
  change (on_env (lift (telemetry (lr_token l) (lr_rs l)))) with (on_env (E := Traced E) (R := R) (telemetry (lr_token l) (lr_rs l))) in *.
  destruct (on_env (telemetry (lr_token l) (lr_rs l)) s) as [s1 [[cpu wall] records]]. cbn [fst snd] in *. rewrite !run_bind.
  match goal with |- context [finish_job _ ?b ?o ?x] => pose proof (finish_job_spec (lr_job l) b o x) as Hf; exists o end. cbv zeta in Hf.
  destruct Hf as (F1 & F2 & F3 & F4). rewrite F1, F2, F3. cbn [get fst snd] in F4 |- *.
  split; [exact S1|]. split; [exact S3|]. split; [f_equal; exact S2|]. split; [done|]. split.
  - intros f ->. by eexists.
  - intros Hl. etransitivity; [exact F4|]. unfold sent_for. cbn [fst snd].
    unfold link_ok in Hl. change (has_link_of (lr_rs l)) with (has_link_of (E := E) (lr_rs l)). rewrite Hl. f_equal. exact S4.
Qed.

Lemma conclude_judged l r t s : link_ok l -> judged false s -> culprit s = job_run_id (lr_job l) -> judged t (fst (conclude_run l r t s)).
Proof.
  intros Hl [[B1 B2] Hj] Hc. destruct (conclude_spec l r t s) as (o & C1 & C2 & C3 & C4 & _ & C6). cbv zeta in *. split.
  - split; [by rewrite C1|]. rewrite C6, C3 by done. cbn [map]. by rewrite B2.
  - destruct t; [exists (lr_job l), o, (answered s); rewrite C2; by split_and!|]. rewrite C3. by constructor.
Qed.
Lemma conclude_fine l r s : link_ok l -> judged false s -> judged false (fst (conclude_run l r false s)).
Proof.
  intros Hl [[B1 B2] Hj]. destruct (conclude_spec l r false s) as (o & C1 & C2 & C3 & C4 & _ & C6). cbv zeta in *. split.
  - split; [by rewrite C1|]. rewrite C6, C3 by done. cbn [map]. by rewrite B2.
  - rewrite C3. by constructor.
Qed.

Lemma push_judged t l s : link_ok l -> judged t s -> judged t (fst (push_live l s)).
Proof. intros Hl [[B1 B2] Hj]. split; [|exact Hj]. split; [|exact B2]. cbn. apply Forall_app. by split; [|constructor]. Qed.
Lemma requeued_judged t l s : link_ok l -> judged t s -> judged t (fst ((requeue l;; push_live l) s)).
Proof. intros Hl Hs. rewrite run_bind. apply push_judged; [done|]. by apply judged_steady; [steady|]. Qed.

(** *** Turns *)

Lemma enter_spec l at_ s : link_ok l -> judged false s ->
  let s' := fst (enter_turn_of l at_ s) in let l' := snd (enter_turn_of l at_ s) in
  judged false s' /\ culprit s' = culprit s /\ link_ok l' /\ lr_job l' = lr_job l.
Proof.
  intros Hl Hs. cbv zeta. unfold enter_turn_of. rewrite !run_bind. cbn [mret L_ret fst snd].
  split; [by apply (judged_steady (on_env (lift (enter_run (lr_token l) at_ (lr_rs l)))) false s); [apply Steady_lift|]|].
  split; [done|]. split; [|done]. unfold link_ok. cbn. rewrite enter_link. exact Hl.
Qed.
Lemma left_judged l s : link_ok l -> judged false s ->
  let s' := fst (leave_turn_of l s) in let l' := snd (leave_turn_of l s) in
  judged false s' /\ culprit s' = culprit s /\ link_ok l' /\ lr_job l' = lr_job l.
Proof.
  intros Hl Hs. cbv zeta. unfold leave_turn_of. rewrite !run_bind. cbn [mret L_ret fst snd].
  split; [by apply (judged_steady (on_env (lift (leave_run (lr_token l) (lr_rs l)))) false s); [apply Steady_lift|]|].
  split; [done|]. split; [|done]. unfold link_ok. cbn. rewrite leave_link. exact Hl.
Qed.

Lemma fail_then_conclude l s : link_ok l -> judged false s -> culprit s = job_run_id (lr_job l) -> forall error,
  judged true (fst ((f ← on_env (fail_of (lr_token l) error (lr_rs l)); conclude_run l (Err f) true) s)).
Proof.
  intros Hl Hs Hc error. rewrite run_bind. apply conclude_judged; [done| |exact Hc].
  by apply (judged_steady (on_env (lift (fail_of (lr_token l) error (lr_rs l)))) false s); [apply Steady_lift|].
Qed.

Lemma turn_ended_judged q l out s : link_ok l -> judged false s -> culprit s = job_run_id (lr_job l) ->
  judged (snd (turn_ended q l out s)) (fst (turn_ended q l out s)).
Proof.
  intros Hl Hs Hc. unfold turn_ended. rewrite run_bind. cbn [get fst snd]. cbv zeta. rewrite run_bind, run_bind. cbn [mret L_ret fst snd].
  apply judged_steady; [steady|]. destruct out as [result|]; [by apply conclude_judged|].
  destruct (instance_tainted (env s)); [by apply fail_then_conclude|]. rewrite run_bind.
  destruct (left_judged l s Hl Hs) as (H1 & H2 & H3 & H4). destruct (leave_turn_of l s) as [s1 l1]. cbn [fst snd] in *.
  rewrite run_bind. cbn [get fst snd]. destruct q as [q|]; [|by apply requeued_judged]. rewrite run_bind.
  apply push_judged; [done|]. apply judged_steady; [steady|done].
Qed.

Lemma js_turn_judged {O} l at_ (f : LiveRun R -> E -> E * (R * O)) (g : O -> option (result FailureOutput Output)) q s :
  (forall l e, has_link_of (fst (snd (f l e))) = has_link_of (E := E) (lr_rs l)) ->
  link_ok l -> judged false s -> culprit s = job_run_id (lr_job l) ->
  let out := (l' ← enter_turn_of l at_; '(r, out) ← on_env (lift (f l')); turn_ended q (with_rs l' r) (g out)) s in
  judged (snd out) (fst out).
Proof.
  intros Hf Hl Hs Hc. cbv zeta. rewrite run_bind. destruct (enter_spec l at_ s Hl Hs) as (H1 & H2 & H3 & H4).
  destruct (enter_turn_of l at_ s) as [s1 l1]. cbn [fst snd] in *. rewrite run_bind.
  pose proof (judged_steady (on_env (lift (f l1))) false s1 (Steady_lift _) H1) as H5.
  destruct (Steady_lift (f l1) s1) as (_ & _ & H6 & _). pose proof (Hf l1 (inner (env s1))) as Hl1.
  change (snd (f l1 (inner (env s1)))) with (snd (on_env (lift (f l1)) s1)) in Hl1.
  destruct (on_env (lift (f l1)) s1) as [s2 [r out]]. cbn [fst snd] in *. apply turn_ended_judged; [|done|].
  - unfold link_ok. cbn. by rewrite Hl1.
  - cbn. by rewrite H6, H2, H4.
Qed.

Lemma note_judged s job : judged false s -> judged false (fst (note_turn_owner job s)) /\ culprit (fst (note_turn_owner job s)) = job_run_id job.
Proof. intros [B Hj]. split; [|done]. split; [|exact Hj]. by destruct B. Qed.

Lemma take_judged idx l s : judged false s -> live s !! idx = Some l -> judged false (fst (take_live idx s)) /\ link_ok l.
Proof.
  intros [[B1 B2] Hj] Hi. rewrite (swap_remove_perm _ _ _ Hi) in B1. apply Forall_cons in B1 as [Hl B1]. split; [|exact Hl].
  split; [|exact Hj]. by split.
Qed.

Lemma grace_wall_judged l at_ s : link_ok l -> judged false s -> judged false (fst (grace_wall_entry l at_ s)).
Proof.
  intros Hl Hs. unfold grace_wall_entry. rewrite run_bind. destruct (enter_spec l at_ s Hl Hs) as (H1 & _ & H3 & _).
  destruct (enter_turn_of l at_ s) as [s1 l1]. cbn [fst snd] in *. rewrite run_bind.
  pose proof (judged_steady (on_env (lift (wall_run (lr_token l1) (lr_rs l1)))) false s1 (Steady_lift _) H1) as H5.
  pose proof (wall_link (lr_token l1) (lr_rs l1) (inner (env s1))) as Hl1.
  change (snd (wall_run (lr_token l1) (lr_rs l1) (inner (env s1)))) with (snd (on_env (lift (wall_run (lr_token l1) (lr_rs l1))) s1)) in Hl1.
  change (on_env (wall_run (lr_token l1) (lr_rs l1))) with (on_env (R := R) (lift (wall_run (lr_token l1) (lr_rs l1)))).
  destruct (on_env (lift _) s1) as [s2 [r out]]. cbn [fst snd] in *. cbv zeta.
  assert (Hr : link_ok (with_rs l1 r)) by (unfold link_ok; cbn; by rewrite Hl1).
  destruct out as [o|]; [by apply conclude_fine|]. rewrite run_bind. destruct (left_judged (with_rs l1 r) s2 Hr H5) as (L1 & _ & L3 & _).
  destruct (leave_turn_of _ s2) as [s3 l3]. cbn [fst snd] in *. by apply requeued_judged.
Qed.

Lemma sweep_entry_judged at_ idx l s : judged false s -> live s !! idx = Some l ->
  judged (snd (sweep_entry at_ idx l s)) (fst (sweep_entry at_ idx l s)).
Proof.
  intros Hs Hi. unfold sweep_entry. rewrite run_bind. cbn [get fst snd]. cbv zeta. rewrite run_bind.
  destruct (take_judged idx l s Hs Hi) as [H0 Hl]. destruct (take_live idx s) as [s0 []]. cbn [fst snd] in *.
  destruct (bool_decide _); [|destruct (in_grace_of _)].
  - rewrite run_bind. destruct (note_judged s0 (lr_job l) H0) as [N1 N2].
    apply (js_turn_judged l at_ (fun l => timer_run (lr_token l) (job_call (lr_job l)) (lr_rs l)) of_scan None); [|done..].
    intros l' e. apply timer_link.
  - rewrite run_bind. pose proof (judged_steady (on_env (lift read_now)) false s0 (Steady_lift _) H0) as H1.
    change (on_env read_now) with (on_env (R := R) (lift (E := E) read_now)). destruct (on_env (lift read_now) s0) as [s1 now]. cbn [fst snd] in *.
    rewrite run_bind. cbn [get fst snd]. destruct (match idle_of _ _ _ with Some d => _ | None => None end) as [d|].
    + rewrite run_bind. destruct (note_judged s1 (lr_job l) H1) as [N1 N2].
      apply (js_turn_judged l d (fun l => idle_run (lr_token l) (job_call (lr_job l)) (lr_rs l)) of_scan None); [|done..].
      intros l' e. apply idle_link.
    + destruct (wall_due_of _ _); rewrite !run_bind; cbn [mret L_ret fst snd].
      * apply grace_wall_judged; [done|]. apply (note_judged s1 (lr_job l) H1).
      * pose proof (requeued_judged false l s1 Hl H1) as Hq. by rewrite run_bind in Hq.
  - rewrite !run_bind. cbn [mret L_ret fst snd]. destruct (note_judged s0 (lr_job l) H0) as [N1 N2].
    destruct (enter_spec l at_ _ Hl N1) as (H1 & _ & H3 & _). destruct (enter_turn_of l at_ _) as [s1 l1]. cbn [fst snd] in *.
    pose proof (judged_steady (on_env (lift (boundary_run (lr_token l1) (lr_rs l1)))) false s1 (Steady_lift _) H1) as H5.
    pose proof (boundary_link (lr_token l1) (lr_rs l1) (inner (env s1))) as Hl1.
    change (snd (boundary_run (lr_token l1) (lr_rs l1) (inner (env s1)))) with (snd (on_env (lift (boundary_run (lr_token l1) (lr_rs l1))) s1)) in Hl1.
    change (on_env (boundary_run (lr_token l1) (lr_rs l1))) with (on_env (R := R) (lift (boundary_run (lr_token l1) (lr_rs l1)))).
    destruct (on_env (lift _) s1) as [s2 [r x]]. cbn [fst snd] in *. rewrite run_bind. cbn [mret L_ret fst snd]. apply conclude_fine; [|done].
    unfold link_ok. cbn. by rewrite Hl1.
Qed.

Lemma sweep_judged fuel cutoff s : judged false s ->
  judged (default false (snd (sweep_expired_deadlines fuel cutoff s))) (fst (sweep_expired_deadlines fuel cutoff s)).
Proof.
  revert s. induction fuel as [|fuel IH]; intros s Hs; cbn [sweep_expired_deadlines]; [done|]. rewrite run_bind.
  pose proof (judged_steady peek_valid_deadline false s Steady_peek Hs) as H1. destruct (peek_valid_deadline s) as [s1 [[at_ t]|]]; [|done].
  cbn [fst snd] in *. destruct (_ <? _); [done|]. rewrite run_bind. cbn [modify fst snd]. rewrite run_bind. cbn [get fst snd].
  set (s2 := with_deadlines s1 _). assert (H2 : judged false s2) by (destruct H1 as [[? ?] ?]; by split).
  destruct (find_live (live s2) t) as [[idx l]|] eqn:Ef; [|done]. rewrite run_bind.
  pose proof (sweep_entry_judged at_ idx l s2 H2 (proj1 (find_live_some _ _ _ _ Ef))) as H3.
  destruct (sweep_entry at_ idx l s2) as [s3 []]; cbn [fst snd] in *; [done|by apply IH].
Qed.

Lemma dispatch_judged job s : judged false s -> judged (snd (dispatch_job job s)) (fst (dispatch_job job s)).
Proof.
  intros Hs. unfold dispatch_job. rewrite run_bind. destruct (note_judged s job Hs) as [N1 N2].
  destruct (note_turn_owner job s) as [s1 []]. cbn [fst snd] in *. rewrite run_bind. cbn [get fst snd]. rewrite run_bind.
  match goal with |- context [fst (?m s1)] => set (m0 := m) end. assert (Hm : Steady m0) by (unfold m0; steady).
  pose proof (judged_steady m0 false s1 Hm N1) as H2. destruct (Hm s1) as (_ & _ & C2 & _). destruct (m0 s1) as [s2 []]. cbn [fst snd] in *.
  rewrite run_bind. match goal with |- context [fst (?m s2)] => set (m1 := m) end.
  assert (Hm1 : Steady m1) by (unfold m1; destruct (_ =? _); [apply (Steady_lift alloc_run_token)|apply Steady_ret]).
  pose proof (judged_steady m1 false s2 Hm1 H2) as H3. destruct (Hm1 s2) as (_ & _ & C3 & _). destruct (m1 s2) as [s3 token]. cbn [fst snd] in *.
  rewrite run_bind. pose proof (judged_steady (on_env (lift (prepare_run token job))) false s3 (Steady_lift _) H3) as H4.
  destruct (Steady_lift (prepare_run token job) s3) as (_ & _ & C4 & _). pose proof (prepare_link token job (inner (env s3))) as L4.
  change (snd (prepare_run token job (inner (env s3)))) with (snd (on_env (lift (prepare_run token job)) s3)) in L4.
  change (on_env (prepare_run token job)) with (on_env (R := R) (lift (prepare_run token job))).
  destruct (on_env (lift (prepare_run token job)) s3) as [s4 [r failed]]. cbn [fst snd] in *. rewrite run_bind.
  match goal with |- context [fst (?m s4)] => set (m2 := m) end.
  assert (Hm2 : Steady m2) by (unfold m2; destruct failed; [apply Steady_ret|]; apply Steady_bind; [apply (Steady_lift (start_run token job r))|]; intros []; apply Steady_ret).
  assert (L5 : has_link_of (E := E) (fst (snd (m2 s4))) = job_link job).
  { unfold m2. destruct failed; [exact L4|]. rewrite run_bind. rewrite <- L4, <- (start_link token job r (inner (env s4))).
    unfold on_env. cbn [start_run traced_turns]. unfold lift. by destruct (start_run token job r (inner (env s4))) as [? [? ?]]. }
  pose proof (judged_steady m2 false s4 Hm2 H4) as H5. destruct (Hm2 s4) as (_ & _ & C5 & _). destruct (m2 s4) as [s5 [r' out]]. cbn [fst snd] in *.
  cbv zeta. set (l := mk_LiveRun token r' job). assert (Hl : link_ok l) by exact L5.
  assert (Hc : culprit s5 = job_run_id (lr_job l)) by (by rewrite C5, C4, C3, C2, N2).
  rewrite run_bind. cbn [get fst snd]. rewrite run_bind, run_bind. cbn [mret L_ret fst snd]. apply judged_steady; [steady|].
  destruct out as [result|]; [by apply conclude_judged|]. destruct (instance_tainted (env s5)); [by apply (fail_then_conclude l)|].
  by apply requeued_judged.
Qed.

Lemma deliver_judged token msg at_ s : judged false s ->
  judged (default false (snd (deliver_event token msg at_ s))) (fst (deliver_event token msg at_ s)).
Proof.
  intros Hs. unfold deliver_event. rewrite run_bind. cbn [get fst snd]. destruct (find_live (live s) token) as [[idx l]|] eqn:Ef; [|done].
  rewrite run_bind. destruct (take_judged idx l s Hs (proj1 (find_live_some _ _ _ _ Ef))) as [H0 Hl]. cbv zeta.
  destruct (take_live idx s) as [s1 []]. cbn [fst snd] in *. rewrite run_bind. destruct (note_judged s1 (lr_job l) H0) as [N1 N2].
  destruct (note_turn_owner (lr_job l) s1) as [s2 []]. cbn [fst snd] in *. rewrite run_bind. cbn [get fst snd].
  match goal with |- context [event_run _ _ ?ev] => set (event := ev) end. set (queued := deadline_of _ _ _).
  pose proof (js_turn_judged l at_ (fun l => event_run (lr_token l) (job_call (lr_job l)) event (lr_rs l)) (fun out => out) (Some queued) s2) as Hj.
  specialize (Hj (fun l' e => event_link (lr_token l') (job_call (lr_job l')) event (lr_rs l') e) Hl N1 N2). cbv zeta in Hj.
  rewrite run_bind in Hj. rewrite run_bind. destruct (enter_turn_of l at_ s2) as [s3 l3]. cbn [fst snd] in *.
  rewrite run_bind in Hj. rewrite run_bind.
  change (on_env (event_run (lr_token l3) (job_call (lr_job l3)) event (lr_rs l3)))
    with (on_env (R := R) (lift (event_run (lr_token l3) (job_call (lr_job l3)) event (lr_rs l3)))).
  destruct (on_env (lift _) s3) as [s4 [r out]]. cbn [fst snd] in *. rewrite run_bind. exact Hj.
Qed.

Lemma close_all_judged ls s : live s = rev ls -> judged false s -> judged false (fst (close_all ls s)).
Proof.
  revert s. induction ls as [|l ls IH]; intros s Hl Hs; cbn [close_all rev] in *; [done|]. rewrite run_bind. cbn [modify fst snd].
  set (s1 := with_live s (removelast (live s))). destruct Hs as [[B1 B2] Hj]. rewrite Hl in B1. apply Forall_app in B1 as [B0 B1].
  apply Forall_cons in B1 as [Hlk _]. assert (H1 : judged false s1 /\ live s1 = rev ls).
  { unfold s1. rewrite Hl, removelast_last. split; [|done]. split; [|exact Hj]. by split. }
  destruct H1 as [H1 E1]. rewrite run_bind.
  pose proof (judged_steady (on_env (lift (close_run (lr_token l) (mk_io_error BrokenPipe "demux gone") (lr_rs l)))) false s1 (Steady_lift _) H1) as H2.
  destruct (Steady_lift (close_run (lr_token l) (mk_io_error BrokenPipe "demux gone") (lr_rs l)) s1) as (E2 & _).
  pose proof (close_link (lr_token l) (mk_io_error BrokenPipe "demux gone") (lr_rs l) (inner (env s1))) as L2.
  change (snd (close_run (lr_token l) (mk_io_error BrokenPipe "demux gone") (lr_rs l) (inner (env s1)))) with
    (snd (on_env (lift (close_run (lr_token l) (mk_io_error BrokenPipe "demux gone") (lr_rs l))) s1)) in L2.
  change (on_env (close_run (lr_token l) (mk_io_error BrokenPipe "demux gone") (lr_rs l)))
    with (on_env (R := R) (lift (close_run (lr_token l) (mk_io_error BrokenPipe "demux gone") (lr_rs l)))).
  destruct (on_env (lift _) s1) as [s2 [r x]]. cbn [fst snd] in *. rewrite run_bind. apply IH.
  - rewrite conclude_live. by rewrite E2.
  - apply conclude_fine; [|done]. unfold link_ok. cbn. by rewrite L2.
Qed.

(** *** Rounds *)

Definition interrupted (round : option Round) : bool := match round with Some EndTainted => true | _ => false end.

Lemma round_judged fuel w s : judged false s -> judged (interrupted (snd (serve_round fuel w s))) (fst (serve_round fuel w s)).
Proof.
  intros Hs.
  assert (Ht : forall cutoff (m : L (Traced E) R (option Round)), (forall s', judged false s' -> judged (interrupted (snd (m s'))) (fst (m s'))) ->
    forall s, judged false s ->
    let out := (swept ← sweep_expired_deadlines fuel cutoff;
      match swept with None => mret None | Some true => mret (Some EndTainted) | Some false => m end) s in judged (interrupted (snd out)) (fst out)).
  { intros cutoff m Hm s1 Hs1. cbv zeta. rewrite run_bind. pose proof (sweep_judged fuel cutoff s1 Hs1) as H1.
    destruct (sweep_expired_deadlines fuel cutoff s1) as [s2 [[]|]]; [exact H1|by apply Hm|exact H1]. }
  destruct w as [token [job|msg|] at_| |]; cbn [serve_round]; cbv zeta.
  - apply Ht; [|done]. intros s' Hs'. rewrite run_bind. pose proof (dispatch_judged job s' Hs') as Hd. by destruct (dispatch_job job s') as [s1 []].
  - apply Ht; [|done]. intros s' Hs'. rewrite run_bind. pose proof (deliver_judged token msg at_ s' Hs') as Hd.
    destruct (deliver_event token msg at_ s') as [s1 [[]|]]; cbn [fst snd default from_option interrupted mret L_ret] in *; [exact Hd..|].
    rewrite run_bind. apply (judged_steady close_turn_of false s1 Steady_close Hd).
  - destruct Hs as [[? ?] ?]. by split.
  - rewrite run_bind. cbn [get fst snd]. destruct (live s) as [|l ls].
    + rewrite !run_bind. cbn [mret L_ret fst snd interrupted]. destruct Hs as [[? ?] ?]. by split.
    + rewrite run_bind. apply Ht; [by intros|]. by apply (judged_steady (on_env (lift read_now)) false s (Steady_lift _)).
  - rewrite !run_bind. cbn [get fst snd mret L_ret interrupted]. apply close_all_judged; [by rewrite rev_involutive|done].
Qed.

(** *** The sweep of a tainted instance *)

(** An answer of something the taint took down. *)
Definition is_reset (error : RunError) (o : CallOutcome) : Prop :=
  (exists f, co_result o = Err f /\ fo_error f = error) /\ co_tainted o = true.

(** The sweep goes from [s] to [s']. *)
Definition swept (error : RunError) s s' : Prop :=
  exists os, answered s' = os ++ answered s /\ Forall (fun p => is_reset error (snd p)) os /\
    handed (env s') = map sent_for os ++ handed (env s) /\ reason_of (env s') = reason_of (env s).

Lemma swept_refl error s : swept error s s.
Proof. by exists []. Qed.
Lemma swept_trans error s1 s2 s3 : swept error s1 s2 -> swept error s2 s3 -> swept error s1 s3.
Proof.
  intros (o1 & A1 & F1 & H1 & R1) (o2 & A2 & F2 & H2 & R2). exists (o2 ++ o1).
  split; [by rewrite A2, A1, app_assoc|]. split; [by apply Forall_app|]. split; [by rewrite H2, H1, map_app, app_assoc|]. by rewrite R2.
Qed.

Lemma conclude_reason l r t s : reason_of (env (fst (conclude_run l r t s))) = reason_of (env s).
Proof.
  unfold conclude_run. rewrite !run_bind. destruct (snd (on_env (telemetry (lr_token l) (lr_rs l)) s)) as [[cpu wall] records].
  rewrite !run_bind. unfold finish_job. rewrite run_bind. cbn. by rewrite finish_reason, drop_reason, telemetry_reason.
Qed.

Lemma swept_run error l s : link_ok l ->
  swept error s (fst ((f ← on_env (fail_of (lr_token l) error (lr_rs l)); conclude_run l (Err f) true) s)).
Proof.
  intros Hl. rewrite run_bind. destruct (Steady_lift (fail_of (lr_token l) error (lr_rs l)) s) as (_ & S2 & _ & S4).
  pose proof (fail_error_law (lr_token l) error (lr_rs l) (inner (env s))) as Hf. pose proof (fail_reason (lr_token l) error (lr_rs l) (inner (env s))) as Hr.
  change (on_env (fail_of (lr_token l) error (lr_rs l))) with (on_env (R := R) (lift (fail_of (lr_token l) error (lr_rs l)))).
  change (snd (fail_of (lr_token l) error (lr_rs l) (inner (env s)))) with (snd (on_env (lift (fail_of (lr_token l) error (lr_rs l))) s)) in Hf.
  change (fst (fail_of (lr_token l) error (lr_rs l) (inner (env s)))) with (inner (env (fst (on_env (lift (fail_of (lr_token l) error (lr_rs l))) s)))) in Hr.
  destruct (on_env (lift _) s) as [s1 f]. cbn [fst snd] in *. destruct (conclude_spec l (Err f) true s1) as (o & C1 & C2 & C3 & C4 & C5 & C6).
  cbv zeta in *. destruct (C5 f eq_refl) as (f' & Ho & Hf'). exists [(lr_job l, o)]. split; [by rewrite C3, S2|]. split.
  { constructor; [|done]. split; [|done]. exists f'. by rewrite Hf'. }
  split; [by rewrite C6, S4|]. rewrite conclude_reason. exact Hr.
Qed.

Lemma swept_all error ls s : Forall link_ok ls -> swept error s (fst (fail_all error ls s)).
Proof.
  revert s. induction ls as [|l ls IH]; intros s Hl; cbn [fail_all]; [apply swept_refl|]. apply Forall_cons in Hl as [Hl Hls].
  pose proof (swept_run error l s Hl) as H1. rewrite run_bind in *. rewrite run_bind. eapply swept_trans; [exact H1|by apply IH].
Qed.

Lemma swept_queued error waits s : swept error s (fst (fail_queued error waits s)).
Proof.
  revert s. induction waits as [|w waits IH]; intros s; cbn [fail_queued]; [apply swept_refl|].
  destruct w as [t ev at_| |]; [|apply swept_refl..]. rewrite run_bind. eapply swept_trans; [|apply IH].
  destruct ev as [job|msg|]; [|apply swept_refl..]. rewrite run_bind.
  pose proof (unstarted_error_law error (inner (env s))) as Hf. pose proof (unstarted_reason error (inner (env s))) as Hr.
  eexists [(job, _)]. split; [reflexivity|]. split.
  { constructor; [|done]. split; [|done]. eexists. split; [reflexivity|]. exact Hf. }
  split; [reflexivity|]. refine (eq_trans (finish_reason _ _ _) Hr).
Qed.

(** ** What the loop leaves behind *)

Definition told (s : Loop (Traced E) R) (out : ServeEnd) : Prop :=
  handed (env s) = map sent_for (answered s) /\
  match out with
  | Tainted => exists job o others before, answered s = others ++ (job, o) :: before /\ co_tainted o = true /\ all_untainted before /\
      Forall (fun p => is_reset (InstanceReset (cause_of (reason_of (env s))) (job_run_id job)) (snd p)) others
  | _ => all_untainted (answered s)
  end.

Lemma told_sweep waits s : judged true s -> told (fst (taint_sweep waits s)) Tainted.
Proof.
  intros [[B1 B2] (job & o & before & Ha & Hto & Hc & Hb)]. unfold taint_sweep. rewrite run_bind. cbn [get fst snd]. cbv zeta.
  rewrite run_bind. cbn [modify fst snd]. set (error := InstanceReset _ _). set (s0 := with_live s []). rewrite run_bind.
  pose proof (swept_all error (live s) s0 B1) as H1. destruct (fail_all error (live s) s0) as [s1 []]. cbn [fst snd] in *.
  pose proof (swept_trans _ _ _ _ H1 (swept_queued error waits s1)) as (os & A & F & Hh & Hr). split.
  - rewrite Hh, A, map_app. f_equal. exact B2.
  - exists job, o, os, before. split; [by rewrite A; f_equal|]. split; [done|]. split; [done|].
    rewrite Hr. change (reason_of (env s0)) with (reason_of (env s)). rewrite <- Hc. exact F.
Qed.

Lemma told_fine s out : judged false s -> out <> Tainted -> told s out.
Proof. intros [[B1 B2] Hj] Ho. split; [exact B2|]. by destruct out. Qed.

Lemma told_loop fuel waits s : judged false s -> told (fst (serve_loop fuel waits s)) (snd (serve_loop fuel waits s)).
Proof.
  revert s. induction waits as [|w waits IH]; intros s Hs; cbn [serve_loop]; rewrite run_bind; cbn [get fst snd];
    destruct (bool_decide (live s = []) && retired s); try by apply told_fine.
  all: rewrite run_bind; cbn [modify fst snd]; set (s0 := with_owner s (culprit s) OomNone);
    (assert (H0 : judged false s0) by (destruct Hs as [[? ?] ?]; by split)); rewrite run_bind.
  all: pose proof (judged_steady wait_timeout false s0 Steady_wait_timeout H0) as H1; destruct (wait_timeout s0) as [s1 timeout]; cbn [fst snd] in *.
  - by apply told_fine.
  - destruct (negb _); [by apply IH|]. rewrite run_bind.
    match goal with |- context [fst (?m s1)] => set (m0 := m) end. assert (Hm : Steady m0) by (unfold m0; steady).
    pose proof (judged_steady m0 false s1 Hm H1) as H2. destruct (m0 s1) as [s2 []]. cbn [fst snd] in *. rewrite run_bind.
    pose proof (judged_steady open_turn_of false s2 Steady_open H2) as H3. destruct (open_turn_of s2) as [s3 started]. cbn [fst snd] in *.
    rewrite run_bind. pose proof (round_judged fuel w s3 H3) as H4. destruct (serve_round fuel w s3) as [s4 round]. cbn [fst snd] in *.
    destruct round as [[| | |]|]; cbn [interrupted] in H4.
    + rewrite run_bind. by apply IH, judged_steady; [steady|].
    + by apply IH.
    + rewrite run_bind. cbn [mret L_ret fst snd]. by apply told_sweep.
    + by apply told_fine.
    + by apply told_fine.
Qed.

Lemma told_instance fuel first waits (e : E) :
  let out := serve_instance fuel first waits (loop_new (mk_Traced e [])) in told (fst out) (snd out).
Proof.
  cbv zeta. unfold serve_instance.
  assert (H0 : judged false (loop_new (R := R) (mk_Traced e []))) by (split; [by split|constructor]).
  rewrite run_bind. pose proof (judged_steady (on_env (lift read_now)) false _ (Steady_lift _) H0) as H1.
  change (on_env read_now) with (on_env (R := R) (lift (E := E) read_now)). destruct (on_env (lift read_now) _) as [s1 now]. cbn [fst snd] in *.
  rewrite run_bind. cbn [modify fst snd]. rewrite run_bind. set (s2 := with_window s1 now 0).
  assert (H2 : judged false s2) by (destruct H1 as [[? ?] ?]; by split).
  pose proof (judged_steady (on_env (lift load_now_ms)) false s2 (Steady_lift _) H2) as H3.
  change (on_env load_now_ms) with (on_env (R := R) (lift (E := E) load_now_ms)). destruct (on_env (lift load_now_ms) s2) as [s3 ms]. cbn [fst snd] in *.
  rewrite run_bind. cbn [modify fst snd]. rewrite run_bind. set (s4 := with_load s3 _).
  assert (H4 : judged false s4) by (destruct H3 as [[? ?] ?]; by split).
  pose proof (dispatch_judged first s4 H4) as H5. destruct (dispatch_job first s4) as [s5 tainted]. cbn [fst snd] in *. rewrite run_bind.
  pose proof (judged_steady close_turn_of tainted s5 Steady_close H5) as H6. destruct (close_turn_of s5) as [s6 []]. cbn [fst snd] in *.
  destruct tainted; [|by apply told_loop]. rewrite run_bind. cbn [mret L_ret fst snd]. by apply told_sweep.
Qed.
End Answers.

