(* ===== verification/Framed.v ===== *)
(** * What a run keeps ([crates/core/src/v8/runloop.rs])

    The token, limits, start, epilogue, source and link of a run are set when it is
    made; no turn changes them, whatever guest code does. *)

From S2P Require Import Prelude Bytes Text F64 Types StreamPayloads Errors Wire Link Timers Guard RunState Bridge Modules RunLoop Turns.
From S2P Require Streams.
Import Streams.

Definition identity (r : RunState) : Z * Limits * Z * option EpilogueSpec * option RunSource * bool :=
  (token r, limits r, start r, epilogue r, source r, has_link r).

Section Framed.
Context {S : Type} `{HL : HostLink S} `{CO : CallOrder} `{DE : DebugError}.
Context (v : V8 S) (clock thread_clock : nat -> Z) (interrupt : nat -> option TerminationReason).
Context (order : gmap Z Outb.OutStream -> list (Z * Outb.OutStream)).

Definition Framed {A} (m : M S A) : Prop := forall s, identity (rs (fst (m s))) = identity (rs s).

Lemma Framed_ret {A} (a : A) : Framed (mret a).
Proof. by intros s. Qed.
Lemma Framed_bind {A B} (m : M S A) (k : A -> M S B) : Framed m -> (forall a, Framed (k a)) -> Framed (m ≫= k).
Proof. intros Hm Hk s. rewrite bind_run. by rewrite Hk. Qed.
Lemma Framed_same {A} (m : M S A) : (forall s, rs (fst (m s)) = rs s) -> Framed m.
Proof. intros Hm s. by rewrite Hm. Qed.
Lemma Framed_set_rs f : (forall r, identity (f r) = identity r) -> Framed (@set_rs S f).
Proof. intros Hf s. apply Hf. Qed.
Lemma Framed_set_grace f : Framed (@set_grace S f).
Proof. apply Framed_set_rs. intros r. by destruct (phase r). Qed.
Lemma Framed_get_rs : Framed (@get_rs S).
Proof. by apply Framed_same. Qed.
Lemma Framed_get_w : Framed (@get_w S).
Proof. by apply Framed_same. Qed.
Lemma Framed_set_w f : Framed (@set_w S f).
Proof. by apply Framed_same. Qed.
Lemma Framed_read_clock : Framed (@read_clock S clock).
Proof. by apply Framed_same. Qed.
Lemma Framed_read_thread_clock : Framed (@read_thread_clock S thread_clock).
Proof. by apply Framed_same. Qed.
Lemma Framed_reason_get : Framed (@reason_get S interrupt).
Proof. by apply Framed_same. Qed.
Lemma Framed_is_execution_terminating : Framed (@is_execution_terminating S interrupt).
Proof. by apply Framed_same. Qed.
Lemma Framed_send run_id msg : Framed (send (S := S) run_id msg).
Proof. apply Framed_same. intros s. unfold send. by destruct (link_send _ _ _). Qed.
Lemma Framed_guest_in {A} mode (f : World S -> World S * A) : Framed (guest_in mode f).
Proof. apply Framed_same. intros s. unfold guest_in. by destruct (f (w s)). Qed.
Lemma Framed_earliest_timer : Framed (@earliest_timer S).
Proof. apply Framed_same. intros s. unfold earliest_timer. by destruct (peek_deadline _). Qed.
Lemma Framed_enter t : Framed (@enter S clock t).
Proof. unfold enter. apply Framed_bind; [apply Framed_read_clock|]. intros now. apply Framed_set_rs. intros r. unfold enter_turn, count. by destruct (phase r). Qed.
Lemma Framed_leave : Framed (@leave S clock).
Proof.
  unfold leave. apply Framed_bind; [apply Framed_read_clock|]. intros e. apply Framed_bind; [apply Framed_read_clock|]. intros now.
  apply Framed_set_rs. intros r. unfold leave_turn, count. destruct (turn_entered r), (phase r); reflexivity.
Qed.

Create HintDb framed discriminated.
#[local] Hint Constants Opaque : framed.
#[local] Hint Resolve Framed_ret Framed_set_grace Framed_get_rs Framed_get_w Framed_set_w Framed_read_clock Framed_read_thread_clock
  Framed_reason_get Framed_is_execution_terminating Framed_send Framed_guest_in Framed_earliest_timer Framed_enter Framed_leave : framed.

Ltac framed_step :=
  match goal with
  | |- forall _, _ => intros ?
  | |- Framed (let _ := _ in _) => cbv zeta
  | |- Framed (set_rs _) => apply Framed_set_rs; intros ?; repeat case_match; reflexivity
  | |- _ => solve [eauto 4 with framed nocore]
  | |- Framed (_ ≫= _) => apply Framed_bind
  | |- Framed (match ?x with _ => _ end) => destruct x
  | |- _ => progress cbv beta
  end.
Ltac walk := repeat framed_step.
Lemma Framed_guest {A} (f : World S -> World S * A) : Framed (guest f).
Proof. unfold guest. walk. Qed.
#[local] Hint Resolve Framed_guest : framed.
Lemma Framed_on_budget g f : Framed (@on_budget S g f).
Proof. unfold on_budget. walk. Qed.
#[local] Hint Resolve Framed_on_budget : framed.
Lemma Framed_enter_budget g : Framed (@enter_budget S thread_clock g).
Proof. unfold enter_budget. walk. Qed.
#[local] Hint Resolve Framed_enter_budget : framed.
Lemma Framed_leave_budget g : Framed (@leave_budget S thread_clock g).
Proof. unfold leave_budget. walk. Qed.
#[local] Hint Resolve Framed_leave_budget : framed.
Lemma Framed_elapsed_since t : Framed (@elapsed_since S clock t).
Proof. unfold elapsed_since. walk. Qed.
#[local] Hint Resolve Framed_elapsed_since : framed.
Lemma Framed_fail_run e : Framed (@fail_run S clock e).
Proof. unfold fail_run. walk. Qed.
#[local] Hint Resolve Framed_fail_run : framed.
Lemma Framed_finished_err e : Framed (@finished_err S clock e).
Proof. unfold finished_err. walk. Qed.
#[local] Hint Resolve Framed_finished_err : framed.
Lemma Framed_finished_or e : Framed (@finished_or S clock interrupt e).
Proof. unfold finished_or. walk. Qed.
#[local] Hint Resolve Framed_finished_or : framed.
Lemma Framed_guard_begin : Framed (@guard_begin S clock).
Proof. unfold guard_begin. walk. Qed.
#[local] Hint Resolve Framed_guard_begin : framed.
Lemma Framed_guard_end : Framed (@guard_end S).
Proof. unfold guard_end. walk. Qed.
#[local] Hint Resolve Framed_guard_end : framed.
Lemma Framed_turn_prelude : Framed (@turn_prelude S).
Proof. unfold turn_prelude. walk. Qed.
#[local] Hint Resolve Framed_turn_prelude : framed.
Lemma Framed_bridge_error_get : Framed (@bridge_error_get S).
Proof. unfold bridge_error_get. walk. Qed.
#[local] Hint Resolve Framed_bridge_error_get : framed.
Lemma Framed_cancel_terminate_execution : Framed (@cancel_terminate_execution S).
Proof. unfold cancel_terminate_execution. walk. Qed.
#[local] Hint Resolve Framed_cancel_terminate_execution : framed.
Lemma Framed_reset_reason : Framed (@reset_reason S).
Proof. unfold reset_reason. walk. Qed.
#[local] Hint Resolve Framed_reset_reason : framed.
Lemma Framed_streams_open : Framed (@streams_open S).
Proof. unfold streams_open. walk. Qed.
#[local] Hint Resolve Framed_streams_open : framed.
Lemma Framed_grace_state : Framed (@grace_state S).
Proof. unfold grace_state. walk. Qed.
#[local] Hint Resolve Framed_grace_state : framed.
Lemma Framed_record_snapshot t : Framed (record_snapshot (S := S) t).
Proof. unfold record_snapshot. walk. Qed.
#[local] Hint Resolve Framed_record_snapshot : framed.
Lemma Framed_finish_grace st : Framed (finish_grace (S := S) clock thread_clock st).
Proof. unfold finish_grace. walk. Qed.
#[local] Hint Resolve Framed_finish_grace : framed.
Lemma Framed_close_streams m : Framed (close_streams (S := S) order m).
Proof. unfold close_streams. walk. Qed.
#[local] Hint Resolve Framed_close_streams : framed.
Lemma Framed_finish_post_phase : Framed (finish_post_phase (S := S) clock thread_clock order).
Proof. unfold finish_post_phase. walk. Qed.
#[local] Hint Resolve Framed_finish_post_phase : framed.
Lemma Framed_note_grace_error n m : Framed (@note_grace_error S n m).
Proof. unfold note_grace_error. walk. Qed.
#[local] Hint Resolve Framed_note_grace_error : framed.
Lemma Framed_finish_killed_grace : Framed (finish_killed_grace (S := S) clock thread_clock interrupt order).
Proof. unfold finish_killed_grace. walk. Qed.
#[local] Hint Resolve Framed_finish_killed_grace : framed.
Lemma Framed_finished_ok (m : M S Output) : Framed m -> Framed (@finished_ok S m).
Proof. intros Hm. unfold finished_ok. walk. Qed.
#[local] Hint Resolve Framed_finished_ok : framed.
Lemma Framed_perform_microtask_checkpoint : Framed (perform_microtask_checkpoint v).
Proof. unfold perform_microtask_checkpoint. walk. Qed.
#[local] Hint Resolve Framed_perform_microtask_checkpoint : framed.
Lemma Framed_drive : Framed (drive v order).
Proof. unfold drive. walk. Qed.
#[local] Hint Resolve Framed_drive : framed.
Lemma Framed_settle_waiting ps : forall still e, Framed (settle_waiting v ps still e).
Proof. induction ps as [|p ps IH]; intros still e; cbn [settle_waiting]; walk; apply IH. Qed.
#[local] Hint Resolve Framed_settle_waiting : framed.
Lemma Framed_decide_waiting : Framed (decide_waiting v clock interrupt).
Proof. unfold decide_waiting. walk. Qed.
#[local] Hint Resolve Framed_decide_waiting : framed.
Lemma Framed_grace_scan : Framed (grace_scan v clock thread_clock interrupt order).
Proof. unfold grace_scan. walk. Qed.
#[local] Hint Resolve Framed_grace_scan : framed.
Lemma Framed_conclude_grace_wall : Framed (conclude_grace_wall (S := S) clock thread_clock order).
Proof. unfold conclude_grace_wall. walk. Qed.
#[local] Hint Resolve Framed_conclude_grace_wall : framed.
Lemma Framed_with_turn {A} (m : M S A) : Framed m -> Framed (with_turn clock m).
Proof. intros Hm. unfold with_turn. walk. Qed.
#[local] Hint Resolve Framed_with_turn : framed.
Lemma Framed_with_epoch {A} (m : M S A) : Framed m -> Framed (with_epoch thread_clock m).
Proof. intros Hm. unfold with_epoch. walk. Qed.
#[local] Hint Resolve Framed_with_epoch : framed.
Ltac walk' := repeat (first [match goal with
  | |- Framed (with_turn _ _) => apply Framed_with_turn
  | |- Framed (with_epoch _ _) => apply Framed_with_epoch end | framed_step]).
Lemma Framed_send_early_result o c rs g st : Framed (send_early_result (S := S) v o c rs g st).
Proof. unfold send_early_result. walk. Qed.
#[local] Hint Resolve Framed_send_early_result : framed.
Lemma Framed_start_grace o g st : Framed (start_grace v clock thread_clock interrupt order o g st).
Proof. unfold start_grace. walk. Qed.
#[local] Hint Resolve Framed_start_grace : framed.
Lemma Framed_build_output_and_maybe_grace e sk : Framed (build_output_and_maybe_grace v clock thread_clock interrupt order e sk).
Proof. unfold build_output_and_maybe_grace. walk. Qed.
#[local] Hint Resolve Framed_build_output_and_maybe_grace : framed.
Lemma Framed_serialize_call_result facts x : Framed (serialize_call_result v clock interrupt facts x).
Proof. unfold serialize_call_result. walk. Qed.
#[local] Hint Resolve Framed_serialize_call_result : framed.
Lemma Framed_retry_exports staged : forall kept skipped, Framed (retry_exports v staged kept skipped).
Proof. induction staged as [|[[n x] e] staged IH]; intros kept skipped; cbn [retry_exports]; walk; apply IH. Qed.
#[local] Hint Resolve Framed_retry_exports : framed.
Lemma Framed_extract_module_exports m : Framed (extract_module_exports v clock thread_clock interrupt order m).
Proof. unfold extract_module_exports. walk. Qed.
#[local] Hint Resolve Framed_extract_module_exports : framed.
Lemma Framed_thrown_error x : Framed (thrown_error v interrupt x).
Proof. unfold thrown_error. walk. Qed.
#[local] Hint Resolve Framed_thrown_error : framed.
Lemma Framed_invoke_requested_call facts m : Framed (invoke_requested_call v clock thread_clock interrupt order facts m).
Proof. unfold invoke_requested_call. walk. Qed.
#[local] Hint Resolve Framed_invoke_requested_call : framed.
Lemma Framed_scan fuel facts : Framed (scan v clock thread_clock interrupt order fuel facts).
Proof. induction fuel as [|fuel IH]; cbn [scan]; walk; apply IH. Qed.
#[local] Hint Resolve Framed_scan : framed.
Lemma Framed_finish_turn facts g : Framed (finish_turn v clock thread_clock interrupt order facts g).
Proof. unfold finish_turn. walk. Qed.
#[local] Hint Resolve Framed_finish_turn : framed.
Lemma Framed_take_response c a : Framed (take_response v clock interrupt c a).
Proof. unfold take_response. walk. Qed.
#[local] Hint Resolve Framed_take_response : framed.
Lemma Framed_send_all id ms : Framed (send_all (S := S) id ms).
Proof. induction ms as [|m ms IH]; cbn [send_all]; walk; apply IH. Qed.
#[local] Hint Resolve Framed_send_all : framed.
Lemma Framed_take_stream_frame msg : Framed (take_stream_frame v clock msg).
Proof. unfold take_stream_frame. walk'. Qed.
#[local] Hint Resolve Framed_take_stream_frame : framed.
Lemma Framed_take_message g msg : Framed (take_message v clock thread_clock interrupt order g msg).
Proof. unfold take_message. walk. Qed.
#[local] Hint Resolve Framed_take_message : framed.
Lemma Framed_frame_turn facts msg : Framed (frame_turn v clock thread_clock interrupt order facts msg).
Proof. unfold frame_turn. walk'. Qed.
#[local] Hint Resolve Framed_frame_turn : framed.
Lemma Framed_timer_turn facts : Framed (timer_turn v clock thread_clock interrupt order facts).
Proof. unfold timer_turn. walk'. Qed.
#[local] Hint Resolve Framed_timer_turn : framed.
Lemma Framed_cancel_streams m : Framed (cancel_streams v order m).
Proof. unfold cancel_streams. walk. Qed.
#[local] Hint Resolve Framed_cancel_streams : framed.
Lemma Framed_stream_idle_turn facts : Framed (stream_idle_turn v clock thread_clock interrupt order facts).
Proof. unfold stream_idle_turn. walk'. Qed.
#[local] Hint Resolve Framed_stream_idle_turn : framed.
Lemma Framed_conn_lost_stream_turn : Framed (conn_lost_stream_turn v clock thread_clock order).
Proof. unfold conn_lost_stream_turn. walk'. Qed.
#[local] Hint Resolve Framed_conn_lost_stream_turn : framed.
Lemma Framed_boundary_deadline : Framed (boundary_deadline (S := S) clock thread_clock order).
Proof. unfold boundary_deadline. walk. Qed.
#[local] Hint Resolve Framed_boundary_deadline : framed.
Lemma Framed_boundary_close e : Framed (boundary_close (S := S) clock thread_clock order e).
Proof. unfold boundary_close. walk. Qed.
#[local] Hint Resolve Framed_boundary_close : framed.
Lemma Framed_deadline_hit fuel facts : Framed (deadline_hit v clock thread_clock interrupt order fuel facts).
Proof. induction fuel as [|fuel IH]; cbn [deadline_hit]; walk; apply IH. Qed.
#[local] Hint Resolve Framed_deadline_hit : framed.
Lemma Framed_handle_loop_event fuel facts ev : Framed (handle_loop_event v clock thread_clock interrupt order fuel facts ev).
Proof. unfold handle_loop_event. walk. Qed.
#[local] Hint Resolve Framed_handle_loop_event : framed.
Lemma Framed_arm_registries : Framed (arm_registries (S := S) clock).
Proof. unfold arm_registries. walk. Qed.
#[local] Hint Resolve Framed_arm_registries : framed.
Lemma Framed_start_module facts : Framed (start_module v clock thread_clock interrupt order facts).
Proof. unfold start_module. walk. Qed.
#[local] Hint Resolve Framed_start_module : framed.
Lemma Framed_start_turn entry facts globals imports : Framed (start_turn v clock thread_clock interrupt order entry facts globals imports).
Proof. unfold start_turn. walk. Qed.
#[local] Hint Resolve Framed_start_turn : framed.
Lemma Framed_begin_call entry facts globals imports : Framed (begin_call v clock thread_clock interrupt order entry facts globals imports).
Proof. unfold begin_call. walk. Qed.
#[local] Hint Resolve Framed_begin_call : framed.
End Framed.
