(* ===== verification/InstanceRuns.v ===== *)
(** * Runs of [runloop.rs] on the loop of [instance.rs]

    The implementation of the interface [RunTurns] by the turns of [RunLoop]: what
    the runs of an instance share - the reason cell, the isolate's terminate flag,
    the link and its call ids, the clock, the stub slots, the timers of the run
    table - is moved into a run's world for its turn and out of it again.  Guest
    code may set and clear the timers of any run in the table, its own and those of
    runs whose continuations its turn runs; each such call puts the run's token on
    the list of touched runs, which the loop drains. *)

From S2P Require Import Prelude Bytes Text F64 Types StreamPayloads Errors Wire Link Timers Guard RunState Bridge RunLoop Instance Taint Turns Framed.
From S2P Require Streams.
Import Streams.

(** ** What the runs share *)

Record Core (S : Type) := mk_Core {
  core_cell : ReasonCell;
  core_terminating : bool;
  core_call_id : Z;
  core_link : S;
  core_reads : nat;
  core_stubs : gmap string GlobalCallbackData;
  core_heap : Z;
  next_token : Z;
  warmup_logs : option LogBuffers;
  run_timers : gmap Z (@TimerTable Z Z);
  core_touched : list Z;
  core_idle_secs : Z;
}.
Arguments mk_Core {S}. Arguments core_cell {S}. Arguments core_terminating {S}. Arguments core_call_id {S}. Arguments core_link {S}.
Arguments core_reads {S}. Arguments core_stubs {S}. Arguments core_heap {S}. Arguments next_token {S}. Arguments warmup_logs {S}.
Arguments run_timers {S}. Arguments core_touched {S}. Arguments core_idle_secs {S}.

(** ** Timer calls attributed to other runs *)

(** A call's effect on the table of its run and on the touched runs; the run has an
    entry, or the call is not attributed to it. *)
Definition exec_timer_call (token : Z) (call : TimerCall) (tables : gmap Z (@TimerTable Z Z)) (touched : list Z) :
    gmap Z (@TimerTable Z Z) * list Z :=
  let '(table, touched) := match call with
    | SetTimeout f delay extra c => fst (set_timeout_callback token (tables !! token) touched f delay extra c)
    | ClearTimeout arg => clear_timeout_callback token (tables !! token) touched arg
    end in
  (partial_alter (fun _ => table) token tables, touched).

Fixpoint exec_timer_calls (calls : list (Z * TimerCall)) (tables : gmap Z (@TimerTable Z Z)) (touched : list Z) :
    gmap Z (@TimerTable Z Z) * list Z :=
  match calls with
  | [] => (tables, touched)
  | (token, call) :: calls => let '(tables, touched) := exec_timer_call token call tables touched in exec_timer_calls calls tables touched
  end.

Section InstanceRuns.
Context {S : Type} `{HL : HostLink S} `{CO : CallOrder} `{DE : DebugError}.
Context (v : V8 S) (clock thread_clock : nat -> Z) (interrupt : nat -> option TerminationReason).
Context (order : gmap Z Outb.OutStream -> list (Z * Outb.OutStream)) (in_order : gmap Z Inb.StreamState -> list (Z * Inb.StreamState)).
Context (prefix_module : Z) (prefix_globals : list HostGlobalDef) (imports : list ImportBinding).

(** Into a run's world, and out of it: [t] is the run's token. *)
Definition put (c : Core S) (t : Z) (st : St S) : St S :=
  let x := w st in
  let b := bridge x in
  mk_St (rs st) (mk_World
    (mk_BridgeState (bridge_call_count b) (core_call_id c) (bridge_error b) (core_cell c) (core_terminating c) (resolvers b) (log b) (core_link c))
    (core_stubs c) (logs x) (waiting x) (in_streams x) (out_streams x) (default (timers x) (run_timers c !! t)) (armed x) (current_token x)
    (core_reads c) (ran x) [] []).
Definition take_out (c : Core S) (t : Z) (st : St S) : Core S :=
  let b := bridge (w st) in
  mk_Core (why b) (terminating b) (call_id b) (link b) (clock_reads (w st)) (stubs (w st)) (heap_used v (w st)) (next_token c) (warmup_logs c)
    (<[t := timers (w st)]> (run_timers c)) (core_touched c) (core_idle_secs c).

(** A part of a turn without guest code. *)
Definition on_run {A} (m : M S A) (t : Z) (st : St S) (c : Core S) : Core S * (St S * A) :=
  let '(st, a) := m (put c t st) in (take_out c t st, (st, a)).
Definition on_run_ (m : M S unit) (t : Z) (st : St S) (c : Core S) : Core S * St S :=
  let '(c, (st, _)) := on_run m t st c in (c, st).

(** A part with guest code: the runs it touched itself, then its calls on behalf of
    others. *)
Definition with_timer_effects (own : list Z) (calls : list (Z * TimerCall)) (c : Core S) : Core S :=
  let '(tables, touched) := exec_timer_calls calls (run_timers c) (core_touched c ++ own) in
  mk_Core (core_cell c) (core_terminating c) (core_call_id c) (core_link c) (core_reads c) (core_stubs c) (core_heap c) (next_token c)
    (warmup_logs c) tables touched (core_idle_secs c).
Definition guest_run {A} (m : M S A) (t : Z) (st : St S) (c : Core S) : Core S * (St S * A) :=
  let '(c, (st, a)) := on_run m t st c in (with_timer_effects (timers_touched (w st)) (foreign (w st)) c, (st, a)).

Definition tick_core (c : Core S) : Core S :=
  mk_Core (core_cell c) (core_terminating c) (core_call_id c) (core_link c) (1 + core_reads c) (core_stubs c) (core_heap c) (next_token c)
    (warmup_logs c) (run_timers c) (core_touched c) (core_idle_secs c).
Definition core_now (c : Core S) : Core S * Z := (tick_core c, clock (core_reads c)).

(** ** A job's prelude *)

(** The table entry: the first run of an instance adopts what the prefix logged. *)
Definition entry_logs (c : Core S) (l : Limits) : LogBuffers :=
  let setup := default (mk_LogBuffers [] [] 0 0 0 0) (warmup_logs c) in
  mk_LogBuffers (lb_stdout setup) (lb_stderr setup) (stdout_bytes setup) (stderr_bytes setup) (l_max_stdout_bytes l) (l_max_stderr_bytes l).

(** A run's state and its table entry ([RunCallState::new]), with the guard armed
    under the run's token for the whole wall budget. *)
Definition fresh_entry (token : Z) (l : Limits) (epilogue : option EpilogueSpec) (source : option RunSource) (has_link : bool) (start : Z)
    (lines : LogBuffers) (c : Core S) : St S :=
  let target := mk_GuardTarget RUN_BUDGET (l_cpu_time_ms l)
    (if 0 <? l_wall_time_ms l then Some (start + from_millis (l_wall_time_ms l)) else None) in
  mk_St (run_state_new token l epilogue source has_link start) (mk_World
    (mk_BridgeState 0 (core_call_id c) None (core_cell c) (core_terminating c) ∅ BridgeCallLog_default (core_link c))
    (core_stubs c) lines None None None TimerTable_default (Some (token, target)) 0 (core_reads c) [] [] []).

(** The warm-up's lines go to the first run. *)
Definition adopted (c : Core S) : Core S :=
  mk_Core (core_cell c) (core_terminating c) (core_call_id c) (core_link c) (core_reads c) (core_stubs c) (core_heap c) (next_token c) None
    (run_timers c) (core_touched c) (core_idle_secs c).

(** The run table gets the timers of a run, or loses its entry. *)
Definition with_entry (t : Z) (table : option (@TimerTable Z Z)) (c : Core S) : Core S :=
  mk_Core (core_cell c) (core_terminating c) (core_call_id c) (core_link c) (core_reads c) (core_stubs c) (core_heap c) (next_token c) (warmup_logs c)
    (partial_alter (fun _ => table) t (run_timers c)) (core_touched c) (core_idle_secs c).

(** From the allocation of the run's state to the placeholders. *)
Definition prepare (token : Z) (job : CallJob) (c : Core S) : Core S * (St S * option FailureOutput) :=
  let l := job_limits job in
  let '(c, start) := core_now c in
  let st := fresh_entry token l (job_epilogue job) (if job_link job then Some SourceInstance else None) (job_link job) start (entry_logs c l) c in
  let c := with_entry token (Some (timers (w st))) (adopted c) in
  match prefix_placeholders prefix_globals imports with
  | Ok _ => (c, (st, None))
  | Err error =>
    let '(c, (st, f)) := on_run (guard_end;; why ← reason_get interrupt; fail_run clock (termination_or why error)) token st c in
    (c, (st, Some f))
  end.

Definition call_facts (call : CallSpec) : RunFacts := mk_RunFacts (Some call).

(** [failure] of a job that never started. *)
Definition never_started (error : RunError) (c : Core S) : Core S * FailureOutput :=
  let '(c, start) := core_now c in
  let '(c, now) := core_now c in
  (c, failure error [] [] (dur_ms (sat_sub now start))).

(** ** The end of a run *)

(** The call log's records, its open calls closed at the elapsed time. *)
Definition finalize_log : M S (list BridgeCallRecord) :=
  r ← get_rs;
  t ← elapsed_since clock (start r);
  w ← get_w;
  let '(l, records) := default (log (bridge w), []) (finalize (log (bridge w)) t) in
  set_w (fun w => with_bridge w (mk_BridgeState (bridge_call_count (bridge w)) (call_id (bridge w)) (bridge_error (bridge w)) (why (bridge w))
    (terminating (bridge w)) (resolvers (bridge w)) l (link (bridge w))));;
  mret records.

(** [conclude_run]'s telemetry. *)
Definition run_telemetry : M S (f64 * f64 * list BridgeCallRecord) :=
  cpu ← read_thread_clock thread_clock;
  r ← get_rs;
  now ← read_clock clock;
  let wall := counted_wall_ms r now in
  records ← finalize_log;
  mret (elapsed_ms_precise (cpu_budget r) cpu, wall, records).

(** [close_run_streams] and [close_out_streams] of a run that ended. *)
Definition close_bodies : M S unit :=
  w ← get_w;
  let '(ins, msgs) := Inb.close_run_streams in_order (in_streams w) in
  set_w (fun w => with_in_streams w ins);;
  send_all (match in_streams w with Some st => Inb.run_id st | None => 0 end) msgs;;
  close_streams order "run ended".

(** Its bodies closed, its terminate flag with it; the entry goes with the state. *)
Definition end_run : M S unit := close_bodies;; cancel_terminate_execution.

#[export] Instance run_turns : RunTurns (Core S) (St S) := {
  deadline_of c t st := sooner (deadline_instant (rs st) (out_streams (w st))) (snd (peek_deadline (default (timers (w st)) (run_timers c !! t))));
  timer_of c t st := snd (peek_deadline (default (timers (w st)) (run_timers c !! t)));
  idle_of c t st := Outb.out_idle_deadline (out_streams (w st));
  wall_due_of st now := grace_wall_due (rs st) now;
  in_grace_of st := in_grace (rs st);
  has_link_of st := has_link (rs st);
  touched c := core_touched c;
  drain_touched c := mk_Core (core_cell c) (core_terminating c) (core_call_id c) (core_link c) (core_reads c) (core_stubs c) (core_heap c)
    (next_token c) (warmup_logs c) (run_timers c) [] (core_idle_secs c);
  read_now := core_now;
  alloc_run_token c := (mk_Core (core_cell c) (core_terminating c) (core_call_id c) (core_link c) (core_reads c) (core_stubs c) (core_heap c)
    (next_token c + 1) (warmup_logs c) (run_timers c) (core_touched c) (core_idle_secs c), next_token c);
  reason_of c := reason (core_cell c);
  instance_tainted c := bool_decide (is_Some (reason (core_cell c))) || bare_terminate (core_cell c) || core_terminating c;
  reset_reason_of c := mk_Core (reason_reset (core_cell c)) (core_terminating c) (core_call_id c) (core_link c) (core_reads c) (core_stubs c)
    (core_heap c) (next_token c) (warmup_logs c) (run_timers c) (core_touched c) (core_idle_secs c);
  prepare_run := prepare;
  start_run t job :=
    guest_run (begin_call v clock thread_clock interrupt order (EntryPrefix prefix_module) (call_facts (job_call job)) (job_globals job) imports) t;
  enter_run t at_ := on_run_ (enter clock at_) t;
  leave_run t := on_run_ (leave clock) t;
  timer_run t call := guest_run (timer_turn v clock thread_clock interrupt order (call_facts call)) t;
  idle_run t call := guest_run (stream_idle_turn v clock thread_clock interrupt order (call_facts call)) t;
  event_run t call ev := guest_run (out ← handle_loop_event v clock thread_clock interrupt order 0 (call_facts call) ev; mret (default None out)) t;
  wall_run t := on_run (conclude_grace_wall clock thread_clock order) t;
  boundary_run t := on_run (boundary_deadline clock thread_clock order) t;
  close_run t e := on_run (boundary_close clock thread_clock order e) t;
  fail_of t error st c := let '(c, (_, f)) := on_run (fail_run clock error) t st c in (c, f);
  unstarted_failure := never_started;
  telemetry t st c := let '(c, (_, x)) := on_run run_telemetry t st c in (c, x);
  drop_run t st c := with_entry t None (fst (on_run end_run t st c));
  heap_used_of c := core_heap c;
  settle_heap c := c;
  finish_run_of run_id msg c :=
    mk_Core (core_cell c) (core_terminating c) (core_call_id c)
      (Link.finish_run (bool_decide (is_Some msg)) (core_link c) run_id msg (fun s => s)) (core_reads c) (core_stubs c) (core_heap c) (next_token c)
      (warmup_logs c) (run_timers c) (core_touched c) (core_idle_secs c);
  load_now_ms c := let '(c, now) := core_now c in (c, now / 1000000);
  idle_settle_secs_of c := core_idle_secs c;
}.

(** *** The laws the loop relies on *)

(** What keeps the timers of every run but [t], and the list. *)
Definition apart (t : Z) (c c' : Core S) : Prop :=
  core_touched c' = core_touched c /\ forall t', t' <> t -> run_timers c' !! t' = run_timers c !! t'.

Lemma apart_silent t c c' : apart t c c' -> silent (R := St S) t c c'.
Proof. intros [H1 H2]. split; [exact H1|]. intros t' r Ht. cbn. by rewrite H2. Qed.
Lemma apart_on_run {A} (m : M S A) t st c : apart t c (fst (on_run m t st c)).
Proof. unfold on_run. destruct (m _) as [st' a]. split; [done|]. intros t' Ht. cbn. by rewrite lookup_insert_ne. Qed.
Lemma apart_trans t c1 c2 c3 : apart t c1 c2 -> apart t c2 c3 -> apart t c1 c3.
Proof. intros [H1 H2] [H3 H4]. split; [by rewrite H3|]. intros t' Ht. by rewrite H4, H2. Qed.
Lemma apart_entry t table c : apart t c (with_entry t table c).
Proof. split; [done|]. intros t' Ht. cbn. by rewrite lookup_partial_alter_ne. Qed.
Lemma apart_prepare t job c : apart t c (fst (prepare t job c)).
Proof.
  unfold prepare. cbn -[prefix_placeholders on_run with_entry adopted fresh_entry].
  set (c1 := with_entry _ _ _). assert (H1 : apart t c c1) by (eapply apart_trans; [|apply apart_entry]; by split).
  destruct (prefix_placeholders _ _) as [?|?]; [exact H1|].
  match goal with |- context [on_run ?m t ?st c1] => pose proof (apart_on_run m t st c1) as H2; destruct (on_run m t st c1) as [c2 [st2 f]] end.
  by eapply apart_trans.
Qed.

(** A timer call changes the table of its run only, and then touches it. *)
Lemma exec_timer_call_spec token call tables ts :
  let out := exec_timer_call token call tables ts in
  (forall x, x ∈ ts -> x ∈ out.2) /\ forall t, t ∉ out.2 -> out.1 !! t = tables !! t.
Proof.
  assert (Hk : forall (o o' : option (@TimerTable Z Z)) ts', (o' = tables !! token /\ ts' = ts) \/ ts' = ts ++ [token] ->
    (forall x, x ∈ ts -> x ∈ ts') /\ forall t, t ∉ ts' -> partial_alter (fun _ => o') token tables !! t = tables !! t).
  { intros _ o' ts' Ho. split; [destruct Ho as [[_ ->]| ->]; set_solver|]. intros t Ht. destruct (decide (t = token)) as [->|Hn]; [|by rewrite lookup_partial_alter_ne].
    rewrite lookup_partial_alter_eq. destruct Ho as [[-> _]| ->]; [done|]. set_solver. }
  unfold exec_timer_call. destruct call as [f delay extra clocks|arg].
  - destruct (set_timeout_callback token (tables !! token) ts f delay extra clocks) as [[o' ts'] res] eqn:E. cbn [fst snd]. apply (Hk None).
    unfold set_timeout_callback in E. destruct (tables !! token) as [tb|] eqn:Et; [|left; by simplify_eq].
    destruct f as [f|]; [|left; by simplify_eq]. unfold register_timer in E. destruct (_ <=? _); simplify_eq; [by left|by right].
  - destruct (clear_timeout_callback token (tables !! token) ts arg) as [o' ts'] eqn:E. cbn [fst snd]. apply (Hk None).
    unfold clear_timeout_callback in E. destruct (tables !! token) as [tb|] eqn:Et; [|left; by simplify_eq].
    destruct (timer_id_of arg) as [id|]; [|left; by simplify_eq]. unfold remove_timer in E. case_bool_decide as Hid; simplify_eq; [by right|left].
    split; [|done]. f_equal. destruct tb; cbn in *. f_equal. apply delete_id. by apply eq_None_not_Some.
Qed.
Lemma exec_timer_calls_spec calls tables ts :
  let out := exec_timer_calls calls tables ts in
  (forall x, x ∈ ts -> x ∈ out.2) /\ forall t, t ∉ out.2 -> out.1 !! t = tables !! t.
Proof.
  revert tables ts. induction calls as [|[token call] calls IH]; intros tables ts; cbn [exec_timer_calls]; [done|].
  pose proof (exec_timer_call_spec token call tables ts) as [H1 H2]. destruct (exec_timer_call token call tables ts) as [tables' ts']. cbn [fst snd] in *.
  destruct (IH tables' ts') as [I1 I2]. split; [auto|]. intros t Ht. rewrite I2 by done. apply H2. intros Hin. by apply Ht, I1.
Qed.

Lemma guest_run_speaks {A} (m : M S A) t st c : speaks (R := St S) t c (fst (guest_run m t st c)).
Proof.
  unfold guest_run. pose proof (apart_on_run m t st c) as [H1 H2]. destruct (on_run m t st c) as [c1 [st1 a]]. cbn [fst] in *.
  unfold with_timer_effects. pose proof (exec_timer_calls_spec (foreign (w st1)) (run_timers c1) (core_touched c1 ++ timers_touched (w st1))) as [E1 E2].
  destruct (exec_timer_calls _ _ _) as [tables ts]. cbn [fst snd] in *. split; cbn.
  - intros x Hx. apply E1. rewrite H1. set_solver.
  - intros t' r Hn Ht. by rewrite (E2 t' Ht), H2.
Qed.

#[export] Instance run_turns_ok : RunTurnsOk (Core S) (St S).
Proof.
  split; intros; try (first [by split | apply guest_run_speaks]); apply apart_silent.
  all: cbn -[on_run prepare with_entry]; unfold on_run_; first
    [apply apart_prepare
    |match goal with |- context [on_run ?m ?t ?st ?c] => pose proof (apart_on_run m t st c) as Ha; destruct (on_run m t st c) as [c' [st' x]] end].
  all: first [exact Ha | eapply apart_trans; [exact Ha|apply apart_entry]].
Qed.

(** *** What the answers rely on *)

Lemma link_on_run {A} (m : M S A) t st c : Framed m -> has_link (rs (fst (snd (on_run m t st c)))) = has_link (rs st).
Proof.
  intros Hm. unfold on_run. pose proof (Hm (put c t st)) as Hi. destruct (m (put c t st)) as [st' a]. cbn [fst snd] in *.
  exact (f_equal snd Hi).
Qed.
Lemma link_guest_run {A} (m : M S A) t st c : Framed m -> has_link (rs (fst (snd (guest_run m t st c)))) = has_link (rs st).
Proof. intros Hm. rewrite <- (link_on_run m t st c Hm). unfold guest_run. by destruct (on_run m t st c) as [c1 [st1 a]]. Qed.

Definition SameCell {A} (m : M S A) : Prop := forall s, reason (why (bridge (w (fst (m s))))) = reason (why (bridge (w s))).
Lemma SameCell_bind {A B} (m : M S A) (k : A -> M S B) : SameCell m -> (forall a, SameCell (k a)) -> SameCell (m ≫= k).
Proof. intros Hm Hk s. rewrite bind_run. by rewrite Hk. Qed.
Lemma SameCell_set_w f : (forall x, why (bridge (f x)) = why (bridge x)) -> SameCell (@set_w S f).
Proof. intros Hf s. cbn. by rewrite Hf. Qed.
Lemma SameCell_send_all id ms : SameCell (send_all (S := S) id ms).
Proof.
  induction ms as [|m ms IH]; cbn [send_all]; [by intros s|]. apply SameCell_bind; [|by intros _].
  intros s. unfold send. by destruct (link_send _ _ _).
Qed.
Lemma SameCell_end_run : SameCell end_run.
Proof.
  unfold end_run, close_bodies. apply SameCell_bind; [|intros _; by apply SameCell_set_w]. apply SameCell_bind; [by intros s|]. intros x.
  destruct (Inb.close_run_streams _ _) as [ins msgs]. apply SameCell_bind; [by apply SameCell_set_w|]. intros _.
  apply SameCell_bind; [apply SameCell_send_all|]. intros _. unfold close_streams. apply SameCell_set_w. intros y.
  by destruct (Outb.close_out_streams _ _ _ _).
Qed.
Lemma SameCell_telemetry : SameCell run_telemetry.
Proof.
  unfold run_telemetry. apply SameCell_bind; [by intros s|]. intros cpu. apply SameCell_bind; [by intros s|]. intros r.
  apply SameCell_bind; [by intros s|]. intros now. apply SameCell_bind; [|by intros a s]. unfold finalize_log.
  apply SameCell_bind; [by intros s|]. intros r'. apply SameCell_bind; [by intros s|]. intros t. apply SameCell_bind; [by intros s|]. intros x.
  destruct (default _ _) as [l records]. apply SameCell_bind; [|by intros _ s]. by apply SameCell_set_w.
Qed.
Lemma cell_on_run {A} (m : M S A) t st c : SameCell m -> reason (core_cell (fst (on_run m t st c))) = reason (core_cell c).
Proof. intros Hm. unfold on_run. pose proof (Hm (put c t st)) as Hc. by destruct (m (put c t st)) as [st' a]. Qed.

Lemma prepare_keeps_link t job c : has_link (rs (fst (snd (prepare t job c)))) = job_link job.
Proof.
  unfold prepare. cbn -[prefix_placeholders on_run with_entry adopted fresh_entry].
  destruct (prefix_placeholders _ _) as [?|?]; [done|].
  match goal with |- context [on_run ?m ?t ?st ?c] => assert (Hm : Framed m) end.
  { apply Framed_bind; [apply Framed_guard_end|]. intros _. apply Framed_bind; [apply Framed_reason_get|]. intros why. apply Framed_fail_run. }
  match goal with |- context [on_run ?m ?t ?st ?c] => pose proof (link_on_run m t st c Hm) as Hl; by destruct (on_run m t st c) as [c2 [st2 f]] end.
Qed.

Lemma link_on_run_ m t st c : Framed m -> has_link (rs (snd (on_run_ m t st c))) = has_link (rs st).
Proof. intros Hm. rewrite <- (link_on_run m t st c Hm). unfold on_run_. by destruct (on_run m t st c) as [c1 [st1 a]]. Qed.

#[export] Instance run_answers_ok : RunAnswersOk (Core S) (St S).
Proof.
  split; intros.
  - apply prepare_keeps_link.
  - apply link_guest_run, Framed_begin_call.
  - apply link_on_run_, Framed_enter.
  - apply link_on_run_, Framed_leave.
  - apply link_guest_run, Framed_timer_turn.
  - apply link_guest_run, Framed_stream_idle_turn.
  - apply link_guest_run, Framed_bind; [apply Framed_handle_loop_event|]. intros out. apply Framed_ret.
  - apply link_on_run, Framed_conclude_grace_wall.
  - apply link_on_run, Framed_boundary_deadline.
  - apply link_on_run, Framed_boundary_close.
  - done.
  - done.
  - reflexivity.
  - reflexivity.
  - cbn -[on_run]. pose proof (cell_on_run run_telemetry t r e SameCell_telemetry) as Hc. by destruct (on_run _ t r e) as [c [st x]].
  - exact (cell_on_run end_run t r e SameCell_end_run).
  - reflexivity.
Qed.
End InstanceRuns.

(** ** A small instance *)

#[local] Instance small_order : CallOrder := map_to_list.
#[local] Instance small_debug : DebugError := fun _ => "error"%string.

Definition small_core : Core Tape := mk_Core reason_new false 5 (mk_Tape [] []) 0 ∅ 0 100 None ∅ [] 20.
Definition small_job (key : Z) : CallJob :=
  mk_CallJob key (10 + key) small_limits [] (mk_CallSpec "f" []) (Some (mk_EpilogueSpec key true)) true.

(** A call that suspends on a promise after arming a timer due at once; the timer's
    callback does nothing. *)
Definition timer_call (w : World Tape) : World Tape * CallResult :=
  (with_timers w (fst (register_timer (timers w) 0 [] (small_clock (clock_reads w)) f64_zero)), CallPromise (Some 2)).
Definition timer_v8 : V8 Tape := small_v8 (fun _ => StatusPending) timer_call (fun w => w).
Definition plain_v8 : V8 Tape := small_v8 (fun _ => StatusPending) (fun w => (w, CallPromise (Some 2))) (fun w => w).

Definition small_turns (v : V8 Tape) (interrupt : nat -> option TerminationReason) : RunTurns (Core Tape) (St Tape) :=
  run_turns v small_clock small_clock interrupt map_to_list map_to_list 1 [] [].

Definition small_serve (v : V8 Tape) (interrupt : nat -> option TerminationReason) (waits : list InstanceWait) : Loop (Core Tape) (St Tape) * ServeEnd :=
  serve_instance (RT := small_turns v interrupt) 5 (small_job 1) waits (loop_new small_core).

(** A job is lost in its own arrival sweep: the deadlines due before a job
    arrived are served first, and when a timer's turn among them is interrupted the
    loop fails every run in flight and every job still in the channel - but the job
    it had just taken off the channel is neither started nor answered.  (Job 1's
    timer is due and its callback is killed; job 2 arrives, job 3 is queued.) *)
Theorem job_lost_in_sweep :
  let killed n := if (12 <=? n)%nat then Some ReasonCpu else None in
  let jobs := [Got 0 (JobEvent (small_job 2)) 1000000; Got 0 (JobEvent (small_job 3)) 1000000; WaitTimedOut] in
  let out := small_serve timer_v8 killed jobs in
  snd out = Tainted /\ live (fst out) = [] /\
  map (fun a => (job_key (fst a), match co_result (snd a) with Err f => Some (fo_error f) | Ok _ => None end)) (answered (fst out)) =
    [(3, Some (InstanceReset ResetCpu 1)); (1, Some CpuTimeout)].
Proof. cbv zeta. vm_compute. repeat split. Qed.

(** A call that suspends after setting a timer, due at once, on behalf of the run 11. *)
Definition cross_call (w : World Tape) : World Tape * CallResult :=
  (with_foreign w [(11, SetTimeout (Some 0) None [] (mk_Clocks f64_zero None (small_clock (clock_reads w))))], CallPromise (Some 2)).
Definition cross_v8 : V8 Tape := small_v8 (fun _ => StatusPending) cross_call (fun w => w).

#[local] Abbreviation small_ok v guard := (run_turns_ok v small_clock small_clock guard map_to_list map_to_list 1 [] []).
#[local] Abbreviation small_answers v guard := (run_answers_ok v small_clock small_clock guard map_to_list map_to_list 1 [] []).

(** Job 2 sets a timer of the run of job 1: the loop waits for that one, not at all.
    Once its only run was ended the instance is idle: the loop waits for its twenty
    seconds once, then without a limit. *)
Lemma waits_for_nearest_deadline_witness :
  let crossed := small_serve cross_v8 quiet_guard [Got 0 (JobEvent (small_job 2)) 10000] in
  let idle := small_serve plain_v8 quiet_guard [Got 11 (HostEvent (ITerminate Soft)) 2000000] in
  let settled := small_serve plain_v8 quiet_guard [Got 11 (HostEvent (ITerminate Soft)) 2000000; WaitTimedOut] in
  (snd crossed = Waiting (Some 0) /\ map lr_token (live (fst crossed)) = [11; 12] /\
   exists at_ t l, l ∈ live (fst crossed) /\ lr_token l = t /\
     deadline_of (RunTurns := small_turns cross_v8 quiet_guard) (env (fst crossed)) t (lr_rs l) = Some at_) /\
  (snd idle = Waiting (Some 20000000000) /\ live (fst idle) = []) /\
  (snd settled = Waiting None /\ live (fst settled) = []).
Proof.
  cbv zeta. split; [|split; [split; vm_compute; reflexivity|split; vm_compute; reflexivity]].
  split; [vm_compute; reflexivity|]. split; [vm_compute; reflexivity|]. unfold small_serve.
  assert (Hn := @waits_for_nearest_deadline (Core Tape) (St Tape) (small_turns cross_v8 quiet_guard) (small_ok cross_v8 quiet_guard) 5
    (small_job 1) [Got 0 (JobEvent (small_job 2)) 10000] small_core (Some 0) eq_refl
    ltac:(vm_compute; repeat constructor; set_solver) ltac:(repeat constructor; discriminate) ltac:(vm_compute; reflexivity)).
  cbv zeta in Hn. destruct Hn as [(at_ & t & l & e0 & now & (Hl & Ht & Hd) & Hmin & He & Hw)|[_ [(Hl & _)|[_ Hw]]]].
  - exists at_, t, l. split; [exact Hl|]. split; [exact Ht|exact Hd].
  - vm_compute in Hl. discriminate Hl.
  - discriminate Hw.
Defined.

(** Runs 1 and 2 are in flight when a timer of run 1 is killed on its CPU budget, and
    job 3 is queued: what each of the three is told. *)
Definition killed (n : nat) : option TerminationReason := if (25 <=? n)%nat then Some ReasonCpu else None.

Lemma jobs_answered_here :
  let out := small_serve plain_v8 quiet_guard [Got 0 (JobEvent (small_job 2)) 1000000; Got 0 RetireEvent 0; Got 11 (HostEvent (ITerminate Soft)) 2000000;
    Got 12 (HostEvent (ITerminate Soft)) 2000000] in
  snd out = RetiredIdle /\ map (fun a => job_key (fst a)) (answered (fst out)) = [2; 1].
Proof. vm_compute. by split. Qed.
