(* ===== verification/EntryPoints.v ===== *)
(** * The entry points of a run ([crates/core/src/v8/runloop.rs])

    [execute], [execute_with_io] and [execute_with_prefix] with what they call: a
    one-off run on an isolate of its own ([run_module]) and a call on a retained
    instance ([run_call_on_core]).  They set a run up, drive it with the loop of
    [RunLoop.v] and tear it down; what outlives the run - the thread's cells and
    the instance's core - is threaded through them. *)

From S2P Require Import Prelude Bytes Text F64 Types StreamPayloads Errors Wire Link Timers Guard Isolate RunState Bridge Modules RunLoop Warmup Instance Turns InstanceRuns.
From S2P Require Streams.
Import Streams.

(** ** The thread's cells *)

(** [EPILOGUE_SPEC], [CURRENT_RUN_TOKEN], and whether [RUN_TABLE_PTR] is set. *)
Record Thread := mk_Thread { EPILOGUE_SPEC : option EpilogueSpec; CURRENT_RUN_TOKEN : Z; RUN_TABLE_PTR : bool }.

Definition set_run_epilogue_spec (spec : option EpilogueSpec) (t : Thread) : Thread := mk_Thread spec (CURRENT_RUN_TOKEN t) (RUN_TABLE_PTR t).
Definition take_epilogue_spec (t : Thread) : Thread * option EpilogueSpec :=
  (mk_Thread None (CURRENT_RUN_TOKEN t) (RUN_TABLE_PTR t), EPILOGUE_SPEC t).
Definition mark_run (t : Thread) (token : Z) : Thread := mk_Thread (EPILOGUE_SPEC t) token true.
(** [TokenReset] *)
Definition unmark_run (t : Thread) : Thread := mk_Thread (EPILOGUE_SPEC t) 0 false.

(** [RunIo] without its channels: where events come from, whether there is a link. *)
Inductive RunIo := IoChannel | IoInstance | IoNone.
Definition io_source (io : RunIo) : option RunSource :=
  match io with IoChannel => Some SourceChannel | IoInstance => Some SourceInstance | IoNone => None end.
Definition io_link (io : RunIo) : bool := match io with IoNone => false | _ => true end.

(** The telemetry both arms of a result carry. *)
Definition stamp_telemetry (cpu : f64) (records : list BridgeCallRecord) (r : result FailureOutput Output) : result FailureOutput Output :=
  match r with
  | Ok o => Ok (mk_Output (o_exports o) (o_skipped_exports o) (o_stdout o) (o_stderr o) (o_duration_ms o) (o_wall_time_ms o) cpu
      (o_background o) records)
  | Err f => Err (mk_FailureOutput (fo_error f) (fo_stdout f) (fo_stderr f) (fo_duration_ms f) (fo_wall_time_ms f) cpu records)
  end.

(** What a run leaves: the thread, the core, the run's last state and its result -
    [None] while it is still running. *)
Record Left (S : Type) := mk_Left { l_thread : Thread; l_core : Core S; l_state : St S; l_result : option (result FailureOutput Output) }.
Arguments mk_Left {S}. Arguments l_thread {S}. Arguments l_core {S}. Arguments l_state {S}. Arguments l_result {S}.

Section EntryPoints.
Context {S : Type} `{HL : HostLink S} `{CO : CallOrder} `{DE : DebugError}.
Context (v : V8 S) (clock thread_clock : nat -> Z) (interrupt : nat -> option TerminationReason).
Context (order : gmap Z Outb.OutStream -> list (Z * Outb.OutStream)) (in_order : gmap Z Inb.StreamState -> list (Z * Inb.StreamState)).

Definition stamp_run (r : result FailureOutput Output) : M S (result FailureOutput Output) :=
  cpu ← read_thread_clock thread_clock;
  st ← get_rs;
  records ← finalize_log clock;
  mret (stamp_telemetry (elapsed_ms_precise (cpu_budget st) cpu) records r).

Definition with_reason (c : Core S) (cell : ReasonCell) (terminating : bool) : Core S :=
  mk_Core cell terminating (core_call_id c) (core_link c) (core_reads c) (core_stubs c) (core_heap c) (next_token c) (warmup_logs c)
    (run_timers c) (core_touched c) (core_idle_secs c).
Definition alloc_token (c : Core S) : Core S * Z :=
  (mk_Core (core_cell c) (core_terminating c) (core_call_id c) (core_link c) (core_reads c) (core_stubs c) (core_heap c) (next_token c + 1)
     (warmup_logs c) (run_timers c) (core_touched c) (core_idle_secs c), next_token c).

(** *** A one-off run *)

(** From the boot of the context to the end; an error of the boot is the run's. *)
Definition oneoff_body (fuel : nat) (booted : result string unit) (call : option CallSpec) (globals : list HostGlobalDef)
    (imports : list ImportBinding) (waits : list Received) : M S (option (result FailureOutput Output)) :=
  match booted with
  | Err e => why ← reason_get interrupt; f ← fail_run clock (termination_or why (Internal e)); guard_end;; mret (Some (Err f))
  | Ok _ =>
    out ← run_call_phase v clock thread_clock interrupt order fuel EntryModule (mk_RunFacts call) globals imports waits;
    match out with
    | Some r => guard_end;; close_bodies order in_order;; mret (Some r)
    | None => mret None
    end
  end.

(** The isolate of a one-off run, with the statements of [new_capped_isolate]; its
    cell, stubs and flag are new. *)
Definition oneoff_isolate (l : Limits) (default_limit : Z) (boot : list (Z * Z)) : Isolate :=
  new_capped_isolate (l_hard_memory_mb l) default_limit boot.
Definition on_isolate (i : Isolate) (c : Core S) : Core S :=
  mk_Core (cell (shared i)) false (core_call_id c) (core_link c) (core_reads c) ∅ 0 (next_token c) None ∅ (core_touched c) (core_idle_secs c).

(** [run_module_inner] up to the boot. *)
Definition oneoff_setup (token : Z) (l : Limits) (io : RunIo) (i : Isolate) (t : Thread) (c : Core S) : Thread * Core S * St S :=
  let '(c, start) := core_now clock c in
  let '(c, token) := if token =? 0 then alloc_token c else (c, token) in
  let '(t, epilogue) := take_epilogue_spec t in
  let c := on_isolate i c in
  (mark_run t token, c,
   fresh_entry token l epilogue (io_source io) (io_link io) start (logs_with_caps (l_max_stdout_bytes l) (l_max_stderr_bytes l)) c).

(** [run_module]: the run, and the telemetry on its result.  [boot]: the stores V8
    makes with the isolate, [booted]: how the boot of its context ends. *)
Definition run_module (fuel : nat) (l : Limits) (globals : list HostGlobalDef) (imports : list ImportBinding) (io : RunIo) (token : Z)
    (call : option CallSpec) (boot : list (Z * Z)) (booted : result string unit) (waits : list Received) (t : Thread) (c : Core S) : Left S :=
  let '(t, c, st) := oneoff_setup token l io (oneoff_isolate l 0 boot) t c in
  let body := out ← oneoff_body fuel booted call globals imports waits;
    match out with Some r => r ← stamp_run r; mret (Some r) | None => mret None end in
  let '(c, (st, out)) := on_run v body (RunLoop.token (rs st)) st c in
  mk_Left (unmark_run t) c st out.

Definition execute_with_io := run_module.
Definition execute (fuel : nat) (l : Limits) (globals : list HostGlobalDef) (imports : list ImportBinding) (io : RunIo)
    (call : option CallSpec) := execute_with_io fuel l globals imports io 0 call.

(** *** A call on an instance *)

(** The placeholders over every bridge name, then the call. *)
Definition placed_call (fuel : nat) (prefix_module : Z) (prefix_globals globals : list HostGlobalDef) (imports : list ImportBinding) (call : CallSpec)
    (waits : list Received) : M S (option (result FailureOutput Output)) :=
  match prefix_placeholders prefix_globals imports with
  | Err error => why ← reason_get interrupt; f ← fail_run clock (termination_or why error); mret (Some (Err f))
  | Ok _ => run_call_phase v clock thread_clock interrupt order fuel (EntryPrefix prefix_module) (call_facts call) globals imports waits
  end.

Definition call_body (fuel : nat) (prefix_module : Z) (prefix_globals globals : list HostGlobalDef) (imports : list ImportBinding) (call : CallSpec)
    (waits : list Received) : M S (option (result FailureOutput Output)) :=
  out ← placed_call fuel prefix_module prefix_globals globals imports call waits;
  match out with
  | Some r => guard_end;; leave_budget thread_clock false;; close_bodies order in_order;; r ← stamp_run r; mret (Some r)
  | None => mret None
  end.

(** The reason is reset, the entry made, the warm-up's lines adopted. *)
Definition call_setup (l : Limits) (io : RunIo) (t : Thread) (c : Core S) : Thread * Core S * St S :=
  let '(c, start) := core_now clock c in
  let c := with_reason c (reason_reset (core_cell c)) (core_terminating c) in
  let '(c, token) := alloc_token c in
  let '(t, epilogue) := take_epilogue_spec t in
  (mark_run t token, adopted c, fresh_entry token l epilogue (io_source io) (io_link io) start (entry_logs c l) c).

(** [instance_tainted] *)
Definition core_tainted (c : Core S) : bool :=
  bool_decide (is_Some (reason (core_cell c))) || bare_terminate (core_cell c) || core_terminating c.

Definition run_call_on_core (fuel : nat) (prefix_module : Z) (prefix_globals : list HostGlobalDef) (l : Limits) (globals : list HostGlobalDef)
    (imports : list ImportBinding) (io : RunIo) (call : CallSpec) (waits : list Received) (t : Thread) (c : Core S) :
    Left S * option CallOutcome :=
  let '(t, c, st) := call_setup l io t c in
  let '(c, (st, out)) := on_run v (call_body fuel prefix_module prefix_globals globals imports call waits) (RunLoop.token (rs st)) st c in
  let tainted := core_tainted c in
  let c := with_reason c (core_cell c) false in
  (mk_Left (unmark_run t) c st out, (fun r => mk_CallOutcome r tainted (core_heap c) false) <$> out).

(** An instance's core, as its calls see it. *)
Definition core_of (i : InstanceCore) (c : Core S) : Core S :=
  mk_Core (cell (shared (ic_isolate i))) (ic_terminating i) (core_call_id c) (core_link c) (core_reads c) ∅ 0 (next_token c)
    (if warmup_logs_pending i then Some (ic_setup_logs i) else None) ∅ (core_touched c) (core_idle_secs c).

(** [execute_with_prefix]: a cold start and one call. *)
Definition execute_with_prefix {D} (resolve : ResolverContext (D := D) -> string -> Z -> ResolverContext (D := D) * option Z) (default_limit : Z)
    (fuel : nat) (prefix : PrefixSpec) (l : Limits) (globals : list HostGlobalDef) (imports : list ImportBinding) (io : RunIo) (call : CallSpec)
    (u : WarmUp) (waits : list Received) (t : Thread) (c : Core S) : Left S + FailureOutput :=
  match create_instance_core resolve default_limit prefix imports (l_hard_memory_mb l) u with
  | Err f => inr f
  | Ok core => inl (run_call_on_core fuel (ic_module core) (ps_globals prefix) l globals imports io call waits t (core_of core c)).1
  end.
End EntryPoints.

(** ** Every way in is guarded, and leaves nothing behind *)

Section Guarded.
Context {S : Type} `{HL : HostLink S} `{CO : CallOrder} `{DE : DebugError}.
Context (v : V8 S) (clock thread_clock : nat -> Z) (interrupt : nat -> option TerminationReason).
Context (order : gmap Z Outb.OutStream -> list (Z * Outb.OutStream)) (in_order : gmap Z Inb.StreamState -> list (Z * Inb.StreamState)).

(** A run that is over or parked: every stretch of guest code was guarded, nothing
    is armed; over, it has no inbound bodies left. *)
Definition Quiet (tok : Z) (lim : Limits) (over : bool) (s : St S) : Prop :=
  token (rs s) = tok /\ Forall (bounded tok lim) (ran (w s)) /\ armed (w s) = None /\ (over = true -> in_streams (w s) = None).

Definition keeps_bodies {A} (m : M S A) : Prop := forall s, in_streams (w (fst (m s))) = in_streams (w s).

Lemma keeps_bodies_ret {A} (a : A) : keeps_bodies (mret a).
Proof. done. Qed.
Lemma keeps_bodies_bind {A B} (m : M S A) (k : A -> M S B) : keeps_bodies m -> (forall a, keeps_bodies (k a)) -> keeps_bodies (m ≫= k).
Proof. intros Hm Hk s. rewrite bind_run, Hk. apply Hm. Qed.
Lemma keeps_bodies_elapsed t : keeps_bodies (elapsed_since (S := S) clock t).
Proof. done. Qed.

Lemma keeps_bodies_send_all id msgs : keeps_bodies (send_all (S := S) id msgs).
Proof.
  induction msgs as [|m ms IH]; [apply keeps_bodies_ret|]. cbn [send_all]. apply keeps_bodies_bind; [|done].
  intros s0. unfold send. by destruct (link_send _ _ _).
Qed.

Lemma close_bodies_ends s : in_streams (w (fst (close_bodies order in_order s))) = None.
Proof.
  unfold close_bodies. rewrite bind_run. cbn [fst snd get_w]. destruct (Inb.close_run_streams in_order (in_streams (w s))) as [ins msgs] eqn:E.
  assert (ins = None) as -> by (unfold Inb.close_run_streams in E; destruct (in_streams (w s)); by injection E).
  rewrite !bind_run. set (s1 := fst (set_w _ _)). assert (H1 : in_streams (w s1) = None) by done. revert H1. generalize s1.
  intros s0 H0. unfold close_streams, set_w. cbn [fst w]. destruct (Outb.close_out_streams _ _ _ _). cbn. by rewrite keeps_bodies_send_all.
Qed.

Lemma finalize_log_keeps : keeps_bodies (finalize_log (S := S) clock).
Proof.
  intros s. unfold finalize_log. rewrite !bind_run. cbn. destruct (default _ _). reflexivity.
Qed.
Lemma stamp_run_keeps r : keeps_bodies (stamp_run (S := S) clock thread_clock r).
Proof. unfold stamp_run. repeat (apply keeps_bodies_bind; [done || apply finalize_log_keeps|intros ?]). done. Qed.

Lemma Native_finalize_log tok lim : Native v tok lim (finalize_log (S := S) clock).
Proof.
  unfold finalize_log. apply Native_get_rs. intros r _. apply Native_bind; [apply Native_elapsed_since|]. intros t.
  apply Native_bind; [apply Native_get_w|]. intros x. destruct (default _ _). apply Native_bind; [by apply Native_set_w|]. intros []. apply Native_ret.
Qed.
Lemma Native_stamp_run tok lim r : Native v tok lim (stamp_run (S := S) clock thread_clock r).
Proof.
  unfold stamp_run. apply Native_bind; [apply Native_read_thread_clock|]. intros cpu. apply Native_get_rs. intros st _.
  apply Native_bind; [apply Native_finalize_log|]. intros rec. apply Native_ret.
Qed.
Lemma Native_close_bodies tok lim : Native v tok lim (close_bodies (S := S) order in_order).
Proof.
  unfold close_bodies. apply Native_bind; [apply Native_get_w|]. intros x. destruct (Inb.close_run_streams _ _).
  apply Native_bind; [by apply Native_set_w|]. intros []. apply Native_bind; [apply Native_send_all|]. intros []. apply Native_close_streams.
Qed.

(** The end of every path: whatever is armed is cleared. *)
Lemma guard_end_quiet tok lim s : Inv v tok lim s -> Inv v tok lim (fst (guard_end s)) /\ Idle (fst (guard_end s)).
Proof. intros H. by split. Qed.

Lemma native_idle {A} tok lim (m : M S A) s : Native v tok lim m -> Inv v tok lim s -> Idle s -> Inv v tok lim (fst (m s)) /\ Idle (fst (m s)).
Proof. intros Hm Hi Hl. by apply (Native_Between v tok lim m Hm). Qed.

Lemma fail_run_quiet tok lim error s : Inv v tok lim s ->
  let m := why ← reason_get interrupt; f ← fail_run clock (termination_or why error); guard_end;; mret (Some (Err (A := Output) f)) in
  Inv v tok lim (fst (m s)) /\ Idle (fst (m s)).
Proof.
  intros Hi m. unfold m. rewrite bind_run.
  destruct (Native_reason_get v interrupt tok lim s Hi) as [H1 _]. rewrite bind_run.
  destruct (Native_fail_run v clock tok lim (termination_or (snd (reason_get interrupt s)) error) _ H1) as [H2 _].
  rewrite bind_run. by apply guard_end_quiet.
Qed.

Lemma fresh_entry_live token l epilogue source has_link start lines c c' :
  let st := fresh_entry (S := S) token l epilogue source has_link start lines c in Inv v token l (put c' token st) /\ Live token l (put c' token st).
Proof.
  intros st. split; [by repeat constructor|]. eexists. split; [done|]. left. split; [done|]. split; [done|].
  intros Hw. cbn. apply Z.ltb_lt in Hw as ->. by eexists.
Qed.

Lemma keeps_bodies_reason_get : keeps_bodies (reason_get (S := S) interrupt).
Proof. intros s. unfold reason_get, interrupted. cbn. destruct (armed (w s)); [|done]. by destruct (interrupt _). Qed.
Lemma keeps_bodies_fail_run error : keeps_bodies (fail_run (S := S) clock error).
Proof. done. Qed.

(** A run's body with its telemetry: parked, or over with nothing left. *)
Lemma stamped_quiet tok lim (m : M S (option (result FailureOutput Output))) s :
  (Inv v tok lim (fst (m s)) /\ Idle (fst (m s)) /\ (snd (m s) <> None -> in_streams (w (fst (m s))) = None)) ->
  let x := (out ← m; match out with Some r => r ← stamp_run clock thread_clock r; mret (Some r) | None => mret None end) s in
  Inv v tok lim (fst x) /\ Idle (fst x) /\ (snd x <> None -> in_streams (w (fst x)) = None).
Proof.
  intros (H1 & H2 & H3) x. unfold x. rewrite bind_run. destruct (snd (m s)) as [r|] eqn:Eo; [|done]. rewrite bind_run. cbn [mret M_ret fst snd].
  destruct (native_idle tok lim (stamp_run clock thread_clock r) (fst (m s)) (Native_stamp_run tok lim r) H1 H2).
  split_and!; [done|done|]. intros _. rewrite stamp_run_keeps. by apply H3.
Qed.

Lemma oneoff_body_quiet tok lim fuel booted call globals imports waits s :
  call = None \/ never_returns v -> Inv v tok lim s -> Live tok lim s -> in_streams (w s) = None ->
  let x := oneoff_body v clock thread_clock interrupt order in_order fuel booted call globals imports waits s in
  Inv v tok lim (fst x) /\ Idle (fst x) /\ (snd x <> None -> in_streams (w (fst x)) = None).
Proof.
  intros Hc Hi Hl Hs x. unfold x, oneoff_body. destruct booted as [[]|e].
  - rewrite bind_run. set (y := run_call_phase _ _ _ _ _ _ _ _ _ _ _ s).
    assert (Hy : Inv v tok lim (fst y) /\ Idle (fst y)).
    { apply run_call_phase_guarded; [|done|done]. destruct Hc as [->|Hc]; [by left|by right]. }
    destruct (snd y) as [r|]; [|by destruct Hy]. rewrite bind_run. destruct (guard_end_quiet tok lim _ (proj1 Hy)) as [H1 H2].
    rewrite bind_run. cbn [mret M_ret fst snd].
    destruct (native_idle tok lim (close_bodies order in_order) _ (Native_close_bodies tok lim) H1 H2).
    split_and!; [done|done|]. intros _. apply close_bodies_ends.
  - destruct (fail_run_quiet tok lim (Internal e) s Hi) as [H1 H2]. split_and!; [exact H1|exact H2|]. intros _.
    match goal with |- in_streams (w (fst (?m s))) = None => assert (K : keeps_bodies m) end; [|by rewrite (K s)].
    apply keeps_bodies_bind; [apply keeps_bodies_reason_get|]. intros why. apply keeps_bodies_bind; [apply keeps_bodies_fail_run|done].
Qed.

Lemma call_body_quiet tok lim fuel module prefix_globals globals imports call waits s :
  never_returns v -> Inv v tok lim s -> Live tok lim s -> in_streams (w s) = None ->
  let x := call_body v clock thread_clock interrupt order in_order fuel module prefix_globals globals imports call waits s in
  Inv v tok lim (fst x) /\ Idle (fst x) /\ (snd x <> None -> in_streams (w (fst x)) = None).
Proof.
  intros Hc Hi Hl Hs x. unfold x, call_body. rewrite bind_run. set (y := placed_call _ _ _ _ _ _ _ _ _ _ _ _ s).
  assert (Hy : Inv v tok lim (fst y) /\ (snd y = None -> Idle (fst y))).
  { unfold y, placed_call. destruct (prefix_placeholders prefix_globals imports) as [ts|e].
    - destruct (run_call_phase_guarded v clock thread_clock interrupt order tok lim fuel (EntryPrefix module) (call_facts call) globals imports
        waits s (or_intror Hc) Hi Hl). by split.
    - rewrite !bind_run. split; [|done]. cbn [mret M_ret fst].
      by apply (Native_fail_run v clock tok lim), (Native_reason_get v interrupt tok lim). }
  destruct (snd y) as [r|]; [|by destruct Hy as [? Hy]; split; [|split; [apply Hy|]]].
  rewrite bind_run. destruct (guard_end_quiet tok lim _ (proj1 Hy)) as [H1 H2]. rewrite bind_run.
  destruct (native_idle tok lim (leave_budget thread_clock false) _ (Native_leave_budget v thread_clock tok lim false) H1 H2) as [H3 H4].
  rewrite bind_run. destruct (native_idle tok lim (close_bodies order in_order) _ (Native_close_bodies tok lim) H3 H4) as [H5 H6].
  rewrite bind_run. cbn [mret M_ret fst snd].
  destruct (native_idle tok lim (stamp_run clock thread_clock r) _ (Native_stamp_run tok lim r) H5 H6) as [H7 H8].
  split_and!; [done|done|]. intros _. rewrite stamp_run_keeps. apply close_bodies_ends.
Qed.
End Guarded.

(** C4. Every way into a run is guarded and clean, if its requested call - it may
    have none, a call on an instance has one - does not return synchronously: it
    throws or gives a promise.  (After a synchronous return with background work the
    start turn scans once more with the guard cleared: [sync_return_unguarded].)
    Then, whatever the source, V8, the clocks, the guard's firings and the host do:
    in a one-off run, and in a call on an instance - a cold start's first or a later
    one - every stretch of guest code runs with the guard armed for the run's own
    token and limits, and when the entry point is left nothing is armed and the
    thread carries no run: no token, no table, no epilogue for the next.  A run that
    concluded has disarmed its bodies; a call also leaves the core with no
    termination pending and the warm-up's lines handed over, and calls itself
    untainted only if it left no reason and no bare termination. *)
Theorem entry_points_guarded {S : Type} `{HL : HostLink S} `{CO : CallOrder} `{DE : DebugError} (v : V8 S)
    (clock thread_clock : nat -> Z) (interrupt : nat -> option TerminationReason)
    (order : gmap Z Outb.OutStream -> list (Z * Outb.OutStream)) (in_order : gmap Z Inb.StreamState -> list (Z * Inb.StreamState))
    fuel l globals imports io waits t c :
  let clean (tok : Z) (x : Left S) :=
    Quiet tok l (bool_decide (is_Some (l_result x))) (l_state x) /\ l_thread x = mk_Thread None 0 false in
  (forall token call boot booted, call = None \/ never_returns v ->
    clean (if token =? 0 then next_token c else token)
      (run_module v clock thread_clock interrupt order in_order fuel l globals imports io token call boot booted waits t c)) /\
  (forall module prefix_globals call, never_returns v ->
    let '(x, outcome) := run_call_on_core v clock thread_clock interrupt order in_order fuel module prefix_globals l globals imports io call waits t c in
    clean (next_token c) x /\ core_terminating (l_core x) = false /\ warmup_logs (l_core x) = None /\
    (forall o, outcome = Some o -> l_result x = Some (co_result o) /\
      (co_tainted o = false -> reason (core_cell (l_core x)) = None /\ bare_terminate (core_cell (l_core x)) = false))).
Proof.
  intros clean.
  assert (Hq : forall tok (x : St S * option (result FailureOutput Output)),
    Inv v tok l (fst x) /\ Idle (fst x) /\ (snd x <> None -> in_streams (w (fst x)) = None) ->
    Quiet tok l (bool_decide (is_Some (snd x))) (fst x)).
  { intros tok [s [r|]] ([(H1 & _ & _) H2] & H3 & H4); (split_and!; [done..|]); cbn; [|done]. intros _. by apply H4. }
  split.
  - intros token call boot booted Hc. unfold run_module, oneoff_setup, core_now, alloc_token, take_epilogue_spec, on_run.
    destruct (token =? 0); cbv zeta;
      (match goal with |- context [?m (put ?c1 ?tk ?st)] => destruct (m (put c1 tk st)) as [s' out] eqn:Em; set (body := m) in Em; set (s0 := put c1 tk st) in Em end;
       split; [|done]; change (l_state _) with (fst (s', out)); change (l_result _) with (snd (s', out)); rewrite <- Em; apply Hq;
       apply (stamped_quiet v clock thread_clock), oneoff_body_quiet; [done|apply (fresh_entry_live v)..|done]).
  - intros module prefix_globals call Hc. unfold run_call_on_core, call_setup, core_now, alloc_token, take_epilogue_spec, on_run. cbv zeta.
    match goal with |- context [?m (put ?c1 ?tk ?st)] => destruct (m (put c1 tk st)) as [s' out] eqn:Em end.
    split_and!; [split; [|done]|done|done|].
    + change (l_state _) with (fst (s', out)). change (l_result _) with (snd (s', out)). rewrite <- Em. apply Hq.
      apply call_body_quiet; [done|apply (fresh_entry_live v)..|done].
    + intros o Ho. cbn in *. destruct out as [r|]; [|done]. injection Ho as <-. cbn. split; [done|].
      unfold core_tainted. cbn. intros [[Hr Hb]%orb_false_elim _]%orb_false_elim. split; [|done].
      apply bool_decide_eq_false in Hr. by apply eq_None_not_Some.
Qed.

(** ** A one-off run, and a cold start with its call *)

#[local] Instance entry_order : CallOrder := map_to_list.
#[local] Instance entry_debug : DebugError := fun _ => "error"%string.

Definition entry_v8 : V8 Tape :=
  small_v8 (fun p => if p =? 2 then StatusFulfilled 0 else StatusPending) (fun w => (w, CallPromise (Some 2))) (fun w => w).
Definition entry_thread : Thread := mk_Thread (Some (mk_EpilogueSpec 3 false)) 0 false.
Definition entry_module (booted : result string unit) : Left Tape :=
  run_module entry_v8 small_clock small_clock quiet_guard map_to_list map_to_list 5 small_limits [] [] IoChannel 0 None [(5, 16)] booted [] entry_thread small_core.
Definition entry_core : Core Tape :=
  core_of (mk_InstanceCore 1 (new_capped_isolate 1 0 []) false (mk_LogBuffers ["up"%string] [] 2 0 0 0) true) small_core.
Definition entry_call (interrupt : nat -> option TerminationReason) : Left Tape * option CallOutcome :=
  run_call_on_core entry_v8 small_clock small_clock interrupt map_to_list map_to_list 5 1 [] small_limits [] [] IoInstance (mk_CallSpec "f" []) []
    entry_thread entry_core.

Lemma entry_v8_never_returns : never_returns entry_v8.
Proof. intros target receiver x value H. discriminate H. Qed.

(** The run concludes and consumes the epilogue; the call's result carries the
    prefix's line, and a guard that fires in its turn taints it. *)
Lemma entry_points_guarded_witness :
  (is_Some (l_result (entry_module (Ok tt))) /\ ran (w (l_state (entry_module (Ok tt)))) <> [] /\
   Quiet 100 small_limits true (l_state (entry_module (Ok tt))) /\ l_thread (entry_module (Ok tt)) = mk_Thread None 0 false) /\
  (exists o, (entry_call quiet_guard).2 = Some o /\ co_tainted o = false /\
     match co_result o with Ok out => o_stdout out = ["up"%string] | Err _ => False end /\
     reason (core_cell (l_core (entry_call quiet_guard).1)) = None /\ core_terminating (l_core (entry_call quiet_guard).1) = false) /\
  (exists o, (entry_call (fun _ => Some ReasonCpu)).2 = Some o /\ co_tainted o = true).
Proof.
  split; [|split].
  - destruct (entry_points_guarded entry_v8 small_clock small_clock quiet_guard map_to_list map_to_list 5 small_limits [] [] IoChannel []
      entry_thread small_core) as [H _]. destruct (H 0 None [(5, 16)] (Ok tt) (or_introl eq_refl)) as [Hq Ht].
    split; [vm_compute; eexists; reflexivity|]. split; [vm_compute; discriminate|]. split; [|exact Ht].
    replace (bool_decide _) with true in Hq by (vm_compute; reflexivity). exact Hq.
  - destruct (entry_points_guarded entry_v8 small_clock small_clock quiet_guard map_to_list map_to_list 5 small_limits [] [] IoInstance []
      entry_thread entry_core) as [_ H].
    specialize (H 1 [] (mk_CallSpec "f" []) entry_v8_never_returns).
    destruct (run_call_on_core _ _ _ _ _ _ _ _ _ _ _ _ _ _ _ _ _) as [x outcome] eqn:E0 in H.
    assert (Ex : entry_call quiet_guard = (x, outcome)) by exact E0. clear E0. rewrite Ex. destruct H as (_ & Hterm & _ & Ho).
    assert (E : match outcome with Some o => co_tainted o = false /\ match co_result o with Ok out => o_stdout out = ["up"%string] | Err _ => False end
      | None => False end).
    { replace outcome with (entry_call quiet_guard).2 by by rewrite Ex. vm_compute. by split. }
    destruct outcome as [o|]; [|destruct E]. exists o. destruct E as [E1 E2]. destruct (Ho o eq_refl) as [_ Hc]. destruct (Hc E1) as [Hr _].
    exact (conj eq_refl (conj E1 (conj E2 (conj Hr Hterm)))).
  - vm_compute. eexists. split; reflexivity.
Defined.
