(* ===== verification/Owner.v ===== *)
(** * The owner thread of an instance ([crates/core/src/warm.rs])

    The handle of an instance and the thread behind it: the first job creates the
    isolate, the turn loop of [Instance.v] serves it and the rest; an isolate that
    cannot be created answers the first job and every later one with the failure,
    until the registry has dropped the handle and the channel is closed. *)

From S2P Require Import Prelude Bytes Text Utf16 F64 Types StreamPayloads Errors Wire Link Timers Guard Isolate RunState Bridge Modules RunLoop Warmup Instance Taint Turns InstanceRuns EntryPoints.

(** ** The handle *)

Definition dead_instance_outcome : CallOutcome :=
  mk_CallOutcome (Err (mk_FailureOutput (Internal "warm instance thread died before completing the call") [] [] f64_zero f64_zero f64_zero []))
    true 0 false.

(** [InstanceHandle::call]: whether the job could be sent, and what its release
    hook was called with, if it was. *)
Definition instance_call (sent : bool) (released : option CallOutcome) : CallOutcome :=
  if sent then default dead_instance_outcome released else dead_instance_outcome.

(** The drop of a handle. *)
Definition retire_event (at_ : Z) : InstanceWait := Got 0 RetireEvent at_.

(** ** The thread *)

(** The prefix's own, repeatable failures mark it broken. *)
Definition prefix_failed (e : RunError) : bool :=
  match e with
  | RuntimeError _ | ModuleNotFound _ | Import _ | PrefixBridgeCall _ | PrefixDidNotSettle _ => true
  | _ => false
  end.

Definition failed_outcome (f : FailureOutput) : CallOutcome := mk_CallOutcome (Err f) true 0 (prefix_failed (fo_error f)).

(** How the thread ended, or that it waits on its channel. *)
Inductive MainEnd := Unserved | Failed | Served (e : ServeEnd) | Receiving.

(** The wait for the first job: an event that is none is skipped, a retirement and
    a closed channel end the thread. *)
Inductive FirstJob := FirstIs (job : CallJob) (waits : list InstanceWait) | NoJob | NoneYet.

Fixpoint first_job (waits : list InstanceWait) : FirstJob :=
  match waits with
  | [] => NoneYet
  | Got _ (JobEvent job) _ :: waits => FirstIs job waits
  | Got _ RetireEvent _ :: _ | AllSendersGone :: _ => NoJob
  | Got _ (HostEvent _) _ :: waits | WaitTimedOut :: waits => first_job waits
  end.

Section Owner.
Context {E R : Type} `{RT : RunTurns E R}.
Context (create : CallJob -> E -> E * result FailureOutput unit).

(** Every later job of a thread without an isolate; the rest of its events is
    dropped. *)
Fixpoint answer_joined (outcome : CallOutcome) (waits : list InstanceWait) : L E R MainEnd :=
  match waits with
  | [] => mret Receiving
  | AllSendersGone :: _ => mret Failed
  | Got _ (JobEvent job) _ :: waits => finish_job job (job_link job) outcome;; answer_joined outcome waits
  | _ :: waits => answer_joined outcome waits
  end.

Definition instance_main (fuel : nat) (waits : list InstanceWait) (e : E) : Loop E R * MainEnd :=
  match first_job waits with
  | NoneYet => (loop_new e, Receiving)
  | NoJob => (loop_new e, Unserved)
  | FirstIs job waits =>
    match create job e with
    | (e, Err f) =>
      (finish_job job (job_link job) (failed_outcome f);; answer_joined (failed_outcome f) waits) (loop_new e)
    | (e, Ok _) => let '(s, out) := serve_instance fuel job waits (loop_new e) in (s, Served out)
    end
  end.

(** ** Every job is answered *)

(** What the thread takes off the channel: up to the close, where it ends. *)
Fixpoint until_closed (waits : list InstanceWait) : list InstanceWait :=
  match waits with [] => [] | AllSendersGone :: _ => [] | x :: waits => x :: until_closed waits end.

Lemma finish_job_adds job link outcome (s : Loop E R) :
  let s' := fst (finish_job job link outcome s) in answered s' = (job, outcome) :: answered s /\ live s' = live s.
Proof. by split. Qed.

Lemma answer_joined_answers outcome waits (s : Loop E R) :
  let s' := fst (answer_joined outcome waits s) in
  answered s' = rev (map (fun job => (job, outcome)) (jobs_of (until_closed waits))) ++ answered s /\ live s' = live s.
Proof.
  revert s. induction waits as [|x waits IH]; intros s; [done|].
  destruct x as [token [job|msg|] at_| |]; cbn [answer_joined until_closed]; [|by apply IH..|done].
  rewrite run_bind. destruct (finish_job_adds job (job_link job) outcome s) as [H1 H2].
  destruct (IH (fst (finish_job job (job_link job) outcome s))) as [H3 H4]. cbv zeta in *. split; [|by rewrite H4].
  rewrite H3, H1. change (jobs_of (Got token (JobEvent job) at_ :: until_closed waits)) with (job :: jobs_of (until_closed waits)).
  cbn [map rev]. by rewrite <- app_assoc.
Qed.

Lemma answer_joined_end outcome waits (s : Loop E R) : snd (answer_joined outcome waits s) = Receiving \/ snd (answer_joined outcome waits s) = Failed.
Proof.
  revert s. induction waits as [|x waits IH]; intros s; [by left|].
  destruct x as [token [job|msg|] at_| |]; cbn [answer_joined]; [rewrite run_bind| | | |by right]; apply IH.
Qed.
End Owner.

Lemma first_job_spec waits :
  match first_job waits with
  | FirstIs job rest => exists pre token at_, waits = pre ++ Got token (JobEvent job) at_ :: rest /\ jobs_of pre = []
  | NoJob => exists pre post, waits = pre ++ post /\ jobs_of pre = [] /\ pre <> []
  | NoneYet => jobs_of waits = []
  end.
Proof.
  induction waits as [|x waits IH]; [done|]. destruct x as [token [job|msg|] at_| |]; cbn [first_job].
  - by exists [], token, at_.
  - destruct (first_job waits) as [job rest| |]; [|destruct IH as (pre & post & -> & Hp & _); by exists (Got token (HostEvent msg) at_ :: pre), post|done].
    destruct IH as (pre & token' & at' & -> & Hp). by exists (Got token (HostEvent msg) at_ :: pre), token', at'.
  - by exists [Got token RetireEvent at_], waits.
  - destruct (first_job waits) as [job rest| |]; [|destruct IH as (pre & post & -> & Hp & _); by exists (WaitTimedOut :: pre), post|done].
    destruct IH as (pre & token' & at' & -> & Hp). by exists (WaitTimedOut :: pre), token', at'.
  - by exists [AllSendersGone], waits.
Qed.

Lemma until_closed_prefix waits : exists post, waits = until_closed waits ++ post.
Proof. induction waits as [|x waits [post IH]]; [by exists []|]. destruct x; cbn; [exists post; by rewrite <- IH..|by exists (AllSendersGone :: waits)]. Qed.

Lemma jobs_of_app a b : jobs_of (a ++ b) = jobs_of a ++ jobs_of b.
Proof. apply flat_map_app. Qed.

(** The completions of a thread without an isolate. *)
Lemma answer_joined_sent {E R : Type} `{RT : RunTurns E R} {OK : RunAnswersOk E R} outcome waits (s : Loop (Traced E) R) :
  handed (env s) = map (sent_for) (answered s) ->
  let s' := fst (answer_joined outcome waits s) in handed (env s') = map sent_for (answered s').
Proof.
  revert s. induction waits as [|x waits IH]; intros s Hs; [done|].
  destruct x as [token [job|msg|] at_| |]; cbn [answer_joined]; [|by apply IH..|done]. rewrite run_bind. apply IH.
  destruct (finish_job_spec job (job_link job) outcome s) as (_ & _ & -> & ->). cbn [map]. by rewrite Hs.
Qed.

(** The thread is over: nothing of it is in flight. *)
Definition main_over (e : MainEnd) : bool := match e with Unserved | Failed => true | Served e => ended e | Receiving => false end.


(** ** The cold start of a prefix *)

Section Create.
Context {S : Type} {D : Type} (resolve : ResolverContext (D := D) -> string -> Z -> ResolverContext (D := D) * option Z) (default_limit : Z).

(** What [instance_main] does with its first job; [warm_up]: what happens in the
    warm-up it triggers. *)
Definition create_for (prefix : PrefixSpec) (imports : list ImportBinding) (hard_memory_mb : Z) (warm_up : CallJob -> WarmUp) (job : CallJob)
    (c : Core S) : Core S * result FailureOutput unit :=
  match create_instance_core resolve default_limit prefix imports hard_memory_mb (warm_up job) with
  | Ok core => (core_of core c, Ok tt)
  | Err f => (c, Err f)
  end.
End Create.

#[local] Instance owner_order : CallOrder := map_to_list.
#[local] Instance owner_debug : DebugError := fun _ => "error"%string.

Definition small_create (ops : list isolate_op) : CallJob -> Core Tape -> Core Tape * result FailureOutput unit :=
  create_for demo_resolve 0 small_prefix [] 1 (fun _ => small_warmup ops).
Definition small_main (ops : list isolate_op) (waits : list InstanceWait) : Loop (Traced (Core Tape)) (St Tape) * MainEnd :=
  instance_main (RT := traced_turns (RT := small_turns plain_v8 quiet_guard)) (fun job => lift (small_create ops job)) 5 waits (mk_Traced small_core []).

