(* ===== verification/Dispatch.v ===== *)
(** * Dispatch ([run] and [prefix_run] of [crates/core/src/engine.rs], [finish_run] of [instance.rs])

    A run from the frontend's call to its completion.  The engine registers a handle
    for it and puts its job on the channel of an instance; whoever concludes it - the
    owner thread, the worker of a one-off run, or the caller itself when the thread is
    gone - drops its route, runs its release hook and sends the completion.  Every
    critical section and every send is a step of its own, so any number of calls,
    conclusions and frontend messages interleave.  [Engine] is the state under the
    locks; what an instance does with a job is an argument ([DOutcome]). *)

From S2P Require Import Prelude Bytes Text F64 Types Errors Wire Link Session Policy Warm WarmLedger Prefix Engine.
From S2P Require Owner.

(** ** State *)

(** The channel of a pooled instance, and one that only this run sends to: of a cold
    instance, or of a one-off run. *)
Inductive Chan := InstanceChan (prefix_id : string) (id : Z) | OwnChan (token : Z).
#[export] Instance Chan_eq_dec : EqDecision Chan.
Proof. solve_decision. Defined.

Definition sender (token : Z) (taken : Taken) : Chan :=
  match taken with Pooled prefix_id id => InstanceChan prefix_id id | _ => OwnChan token end.

Inductive RoutedEvent := RJob (token : Z) | RHost (token : Z) (msg : Inbound).

(** How far a started run has come. *)
Inductive Stage :=
  | Acquired | Registered | Running
  | Concluding (o : CallOutcome) | RouteDropped (o : CallOutcome) | PrefixMarked (o : CallOutcome)
  | Released (o : CallOutcome) | Answered (o : CallOutcome).

(** What the rest of the process sees of a run: the handle given to [register], the
    end of its route, the registry's books without it, the completion. *)
Inductive Seen := Handle | RouteGone | BackInRegistry | Completion (run_id : Z) (msg : Outbound).

Record Run := mk_Run {
  ro_run_id : Z;
  ro_taken : Taken;
  ro_stage : Stage;
  ro_returned : bool;
  ro_seen : list Seen;
}.

(** [w_sent]: every send that a channel took, oldest first; [w_dead]: the channels
    whose receiver is gone. *)
Record World := mk_World {
  w_sys : Sys;
  w_runs : gmap Z Run;
  w_sent : list (Chan * RoutedEvent);
  w_dead : list Chan;
  w_refused : list (Z * Refusal);
}.

Definition with_sys w s := mk_World s (w_runs w) (w_sent w) (w_dead w) (w_refused w).
Definition with_run w token r := mk_World (w_sys w) (<[token := r]> (w_runs w)) (w_sent w) (w_dead w) (w_refused w).
Definition with_sent w c ev := mk_World (w_sys w) (w_runs w) (w_sent w ++ [(c, ev)]) (w_dead w) (w_refused w).
Definition with_refused w run_id r := mk_World (w_sys w) (w_runs w) (w_sent w) (w_dead w) (w_refused w ++ [(run_id, r)]).

Definition at_stage (r : Run) (stage : Stage) (seen : list Seen) : Run :=
  mk_Run (ro_run_id r) (ro_taken r) stage (ro_returned r) (ro_seen r ++ seen).
Definition returned (r : Run) : Run := mk_Run (ro_run_id r) (ro_taken r) (ro_stage r) true (ro_seen r).

(** The message [finish_job] builds, and the one of a one-off run. *)
Definition answer_of (taken : Taken) (o : CallOutcome) : Outbound :=
  match taken with
  | Oneoff => completion_message (co_result o) None false
  | _ => completion_message (co_result o) (Some (co_heap_used_bytes o)) (co_prefix_failed o)
  end.

(** ** Steps *)

Inductive DispatchEvent :=
  | DPrepare (code : string) (filename : option string) (globals : list HostGlobalDef) (imports : list ImportBinding)
  | DDispose (prefix_id : string)
  | DRun (env : Env) (req : RunRequest)
  | DLookup (req : PrefixRunRequest)
  | DAcquire (env : Env) (index : nat)
  | DRegister (token : Z)
  | DSend (token : Z)
  | DDeliver (token : Z) (msg : Inbound)
  | DThreadDies (c : Chan)
  | DOutcome (token : Z) (o : CallOutcome)
  | DFinished (token : Z)
  | DMark (token : Z)
  | DRelease (env : Env) (token : Z)
  | DComplete (token : Z).

Definition outcome_failed (o : CallOutcome) : bool := match co_result o with Err _ => true | Ok _ => false end.

(** The release hook's critical section that gives back what the run took. *)
Definition release_event (env : Env) (token : Z) (taken : Taken) (o : CallOutcome) : EngineEvent :=
  match taken with
  | Oneoff => EvFinishRun env token (outcome_failed o) (outcome_times o).1 (outcome_times o).2
  | _ => EvGiveBack env token o
  end.

Section Dispatch.
Context `{HO : HashOrder} `{VP : VictimPicker}.
Context (powf : f64 -> f64 -> f64) (cores budget line reserve : Z).
Notation engine_step := (engine_step powf cores budget line reserve).

(** [Engine::run]: reserved, registered, and the worker started. *)
Definition start_oneoff_run (w : World) (env : Env) (req : RunRequest) : option World :=
  s ← engine_step (w_sys w) (EvRun env req);
  match run_oneoff powf cores budget line reserve (eng (w_sys w)) env req with
  | (_, Some token, None) => Some (with_run (with_sys w s) token (mk_Run (rr_run_id req) Oneoff Running true [Handle]))
  | (_, _, Some refusal) => Some (with_refused (with_sys w s) (rr_run_id req) refusal)
  | _ => None
  end.

(** [Engine::prefix_run] up to the acquisition. *)
Definition acquire_for (w : World) (env : Env) (index : nat) : option World :=
  req ← pending (w_sys w) !! index;
  '(_, r) ← prefix_acquire cores budget line reserve (eng (w_sys w)) env req;
  s ← engine_step (w_sys w) (EvAcquire env index);
  match r with
  | Ok (token, taken) => Some (with_run (with_sys w s) token (mk_Run (pr_run_id req) taken Acquired false []))
  | Err refusal => Some (with_refused (with_sys w s) (pr_run_id req) refusal)
  end.

(** The job on its way: a channel without a receiver gives it back, and the caller
    concludes it. *)
Definition send_job (w : World) (token : Z) (r : Run) : World :=
  let c := sender token (ro_taken r) in
  if bool_decide (c ∈ w_dead w) then with_run w token (at_stage r (Concluding Owner.dead_instance_outcome) [])
  else with_sent (with_run w token (returned (at_stage r Running []))) c (RJob token).

(** [RunHandle::deliver] without the mid-turn kill, which is [Guard]'s. *)
Definition deliver_to (w : World) (token : Z) (r : Run) (msg : Inbound) : World :=
  let c := sender token (ro_taken r) in
  if bool_decide (c ∈ w_dead w) then w else with_sent w c (RHost token msg).

(** [finish_run], one step at a time. *)
Definition finish_step (w : World) (ev : DispatchEvent) (token : Z) (r : Run) : option World :=
  match ev, ro_stage r with
  | DFinished _, Concluding o => Some (with_run w token (at_stage r (RouteDropped o) [RouteGone]))
  | DMark _, RouteDropped o =>
    match ro_taken r with
    | Oneoff => None
    | _ => s ← engine_step (w_sys w) (EvMark token o); Some (with_run (with_sys w s) token (at_stage r (PrefixMarked o) []))
    end
  | DRelease env _, RouteDropped o =>
    match ro_taken r with
    | Oneoff =>
      s ← engine_step (w_sys w) (release_event env token Oneoff o);
      Some (with_run (with_sys w s) token (at_stage r (Released o) [BackInRegistry]))
    | _ => None
    end
  | DRelease env _, PrefixMarked o =>
    s ← engine_step (w_sys w) (release_event env token (ro_taken r) o);
    Some (with_run (with_sys w s) token (at_stage r (Released o) [BackInRegistry]))
  | DComplete _, Released o =>
    Some (with_run w token (returned (at_stage r (Answered o) [Completion (ro_run_id r) (answer_of (ro_taken r) o)])))
  | _, _ => None
  end.

(** [None]: the event cannot happen here. *)
Definition dispatch_step (w : World) (ev : DispatchEvent) : option World :=
  match ev with
  | DPrepare code filename globals imports => with_sys w <$> engine_step (w_sys w) (EvPrepare code filename globals imports)
  | DDispose prefix_id => with_sys w <$> engine_step (w_sys w) (EvDispose prefix_id)
  | DRun env req => start_oneoff_run w env req
  | DLookup req =>
    s ← engine_step (w_sys w) (EvLookup req);
    match prefix_lookup (eng (w_sys w)) req with
    | Ok _ => Some (with_sys w s)
    | Err refusal => Some (with_refused w (pr_run_id req) refusal)
    end
  | DAcquire env index => acquire_for w env index
  | DRegister token =>
    r ← w_runs w !! token;
    match ro_stage r with Acquired => Some (with_run w token (at_stage r Registered [Handle])) | _ => None end
  | DSend token =>
    r ← w_runs w !! token;
    match ro_stage r with Registered => Some (send_job w token r) | _ => None end
  | DDeliver token msg =>
    r ← w_runs w !! token;
    if ro_returned r then Some (deliver_to w token r msg) else None
  | DThreadDies c => Some (mk_World (w_sys w) (w_runs w) (w_sent w) (c :: w_dead w) (w_refused w))
  | DOutcome token o =>
    r ← w_runs w !! token;
    match ro_stage r with
    | Running =>
      if bool_decide (sender token (ro_taken r) ∈ w_dead w) then None else Some (with_run w token (at_stage r (Concluding o) []))
    | _ => None
    end
  | DFinished token | DMark token | DRelease _ token | DComplete token => r ← w_runs w !! token; finish_step w ev token r
  end.

Definition dispatch_run (w : World) (evs : list DispatchEvent) : option World :=
  foldl (fun w ev => w ≫= fun w => dispatch_step w ev) (Some w) evs.
End Dispatch.

Definition dispatch_start (slots : Z) : World := mk_World (engine_start slots) ∅ [] [] [].

(** ** The invariant *)

(** What has been seen of a run at its stage. *)
Definition seen_of (r : Run) : list Seen :=
  match ro_stage r with
  | Acquired => []
  | Registered | Running | Concluding _ => [Handle]
  | RouteDropped _ | PrefixMarked _ => [Handle; RouteGone]
  | Released _ => [Handle; RouteGone; BackInRegistry]
  | Answered o => [Handle; RouteGone; BackInRegistry; Completion (ro_run_id r) (answer_of (ro_taken r) o)]
  end.

(** Whether the run still holds what it took. *)
Definition holds (s : Stage) : bool := match s with Released _ | Answered _ => false | _ => true end.
Definition unsent (s : Stage) : bool := match s with Acquired | Registered => true | _ => false end.

Definition jobs_in (l : list (Chan * RoutedEvent)) : list Z :=
  omap (fun e => match e.2 with RJob token => Some token | RHost _ _ => None end) l.

Lemma jobs_in_app a b : jobs_in (a ++ b) = jobs_in a ++ jobs_in b.
Proof. apply omap_app. Qed.

Lemma elem_jobs_in l token : token ∈ jobs_in l <-> exists c, (c, RJob token) ∈ l.
Proof.
  unfold jobs_in. rewrite list_elem_of_omap. split.
  - intros ([c [t|t m]] & Hin & [= <-]). by exists c.
  - intros [c Hin]. by exists (c, RJob token).
Qed.

Record run_ok (m : gmap Z Taken) (sent : list (Chan * RoutedEvent)) (dead : list Chan) (token : Z) (r : Run) : Prop := {
  rk_started : m !! token = if holds (ro_stage r) then Some (ro_taken r) else None;
  rk_seen : ro_seen r = seen_of r;
  rk_returned : ro_returned r = true -> unsent (ro_stage r) = false;
  rk_sent : unsent (ro_stage r) = false ->
    ro_taken r = Oneoff \/ (sender token (ro_taken r), RJob token) ∈ sent \/ sender token (ro_taken r) ∈ dead;
  rk_unsent : unsent (ro_stage r) = true -> token ∉ jobs_in sent;
}.

Record dispatch_ok (w : World) : Prop := {
  dk_sys : sys_ok (w_sys w);
  dk_runs : map_Forall (run_ok (started (w_sys w)) (w_sent w) (w_dead w)) (w_runs w);
  dk_tokens : forall t, is_Some (w_runs w !! t) -> t < next_token (eng (w_sys w));
  dk_started : forall t, is_Some (started (w_sys w) !! t) -> is_Some (w_runs w !! t);
  dk_jobs : forall t, t ∈ jobs_in (w_sent w) -> is_Some (w_runs w !! t);
  dk_once : NoDup (jobs_in (w_sent w));
  dk_senders : forall c ev, (c, ev) ∈ w_sent w -> exists r,
    let t := match ev with RJob t | RHost t _ => t end in w_runs w !! t = Some r /\ c = sender t (ro_taken r);
  dk_fifo : forall l1 c t msg l2, w_sent w = l1 ++ (c, RHost t msg) :: l2 ->
    forall r, w_runs w !! t = Some r -> ro_taken r = Oneoff \/ (c, RJob t) ∈ l1;
}.

Lemma dispatch_start_ok slots : dispatch_ok (dispatch_start slots).
Proof.
  split; cbn; [apply engine_start_ok|apply map_Forall_empty|..|constructor| |]; intros t.
  - intros [? H]. by rewrite lookup_empty in H.
  - intros [? H]. by rewrite lookup_empty in H.
  - intros H. by apply not_elem_of_nil in H.
  - intros ev H. by apply not_elem_of_nil in H.
  - intros c t' msg l2 H. by destruct t.
Qed.

(** The engine goes on without starting or releasing a run. *)
Lemma ok_books w s :
  dispatch_ok w -> sys_ok s -> started s = started (w_sys w) -> next_token (eng (w_sys w)) <= next_token (eng s) ->
  dispatch_ok (with_sys w s).
Proof.
  intros [A B C D E F G I] Hs Hm Hn. split; cbn; rewrite ?Hm; try done. intros t Ht. specialize (C t Ht). lia.
Qed.

(** A run starts or goes on; no other run's books change. *)
Lemma ok_run w s token r :
  dispatch_ok w -> sys_ok s -> next_token (eng (w_sys w)) <= next_token (eng s) -> token < next_token (eng s) ->
  (forall t, t <> token -> started s !! t = started (w_sys w) !! t) ->
  (forall r0, w_runs w !! token = Some r0 -> ro_taken r = ro_taken r0) ->
  run_ok (started s) (w_sent w) (w_dead w) token r ->
  dispatch_ok (with_run (with_sys w s) token r).
Proof.
  intros [A B C D E F G I] Hs Hn Ht Hm Hr Hok.
  assert (Hk : forall t, is_Some (w_runs w !! t) -> is_Some (<[token := r]> (w_runs w) !! t)).
  { intros t Hi. apply lookup_insert_is_Some. destruct (decide (token = t)); auto. }
  assert (Hold : forall t r1, <[token := r]> (w_runs w) !! t = Some r1 -> is_Some (w_runs w !! t) ->
    exists r0, w_runs w !! t = Some r0 /\ ro_taken r1 = ro_taken r0).
  { intros t r1 [[-> <-]|[Hne Hl]]%lookup_insert_Some [r0 H0]; [exists r0; auto|]. by exists r1. }
  split; cbn; try done.
  - intros t r1 [[-> <-]|[Hne Hl]]%lookup_insert_Some; [done|]. destruct (B t r1 Hl) as [B1 B2 B3 B4 B5].
    split; [by rewrite Hm|done..].
  - intros t [->|[_ Hi]]%lookup_insert_is_Some; [done|]. specialize (C t Hi). lia.
  - intros t Hi. destruct (decide (token = t)) as [->|Hne]; [rewrite lookup_insert_eq; by eexists|].
    apply Hk, D. rewrite <- Hm; auto.
  - intros t Hi. by apply Hk, E.
  - intros c ev Hin. destruct (G c ev Hin) as (r0 & H0 & Hc). cbv zeta in *.
    set (t := match ev with RJob t | RHost t _ => t end) in *. destruct (Hk t ltac:(by eexists)) as [r1 H1]. exists r1. split; [done|].
    destruct (Hold t r1 H1 ltac:(by eexists)) as (r0' & H0' & Ht'). rewrite Hc, Ht'. congruence.
  - intros l1 c t msg l2 Hl r1 H1. destruct (G c (RHost t msg)) as (r0 & H0 & _); [rewrite Hl; set_solver|]. cbn in H0.
    destruct (Hold t r1 H1 ltac:(by eexists)) as (r0' & H0' & ->). rewrite H0 in H0'. injection H0' as <-. by apply (I l1 c t msg l2).
Qed.

Lemma ok_stage w token r r' :
  dispatch_ok w -> w_runs w !! token = Some r -> ro_taken r' = ro_taken r ->
  run_ok (started (w_sys w)) (w_sent w) (w_dead w) token r' ->
  dispatch_ok (with_run w token r').
Proof.
  intros Hw Hl Ht Hok. assert (with_run w token r' = with_run (with_sys w (w_sys w)) token r') as -> by (by destruct w).
  apply ok_run; [done|by apply dk_sys|done|apply (dk_tokens _ Hw); by eexists|done| |done]. intros r0 H0. congruence.
Qed.

(** One more send, by the run it names or to it. *)
Lemma ok_sent w c ev t r r' :
  dispatch_ok w -> match ev with RJob t | RHost t _ => t end = t -> w_runs w !! t = Some r -> c = sender t (ro_taken r) ->
  ro_taken r' = ro_taken r -> run_ok (started (w_sys w)) (w_sent w ++ [(c, ev)]) (w_dead w) t r' ->
  match ev with
  | RJob _ => t ∉ jobs_in (w_sent w)
  | RHost _ _ => ro_taken r = Oneoff \/ (c, RJob t) ∈ w_sent w
  end ->
  dispatch_ok (with_sent (with_run w t r') c ev).
Proof.
  intros [A B C D E F G I] Hev Hl Hc Ht Hok Hnew.
  assert (Hk : forall t1, is_Some (<[t := r']> (w_runs w) !! t1) <-> is_Some (w_runs w !! t1)).
  { intros t1. rewrite lookup_insert_is_Some. destruct (decide (t = t1)) as [<-|]; [|naive_solver]. rewrite Hl. naive_solver. }
  assert (Hold : forall t1 r1, <[t := r']> (w_runs w) !! t1 = Some r1 -> exists r0, w_runs w !! t1 = Some r0 /\ ro_taken r1 = ro_taken r0).
  { intros t1 r1 [[<- <-]|[_ H1]]%lookup_insert_Some; [by exists r|by exists r1]. }
  assert (Hj : forall t1, t1 ∈ jobs_in (w_sent w ++ [(c, ev)]) -> t1 = t \/ t1 ∈ jobs_in (w_sent w)).
  { intros t1. rewrite jobs_in_app, elem_of_app. intros [Hj|Hj]; [by right|]. destruct ev as [t2|]; [|by apply not_elem_of_nil in Hj].
    subst t2. apply list_elem_of_singleton in Hj. by left. }
  split; cbn; try done.
  - intros t1 r1 [[<- <-]|[Hne H1]]%lookup_insert_Some; [done|]. destruct (B t1 r1 H1) as [B1 B2 B3 B4 B5]. split; [done|done|done| |].
    + intros Hu. destruct (B4 Hu) as [?|[?|?]]; auto. right. left. set_solver.
    + intros Hu [->|Hj1]%Hj; [done|by apply B5].
  - intros t1 H1. by apply C, Hk.
  - intros t1 H1. by apply Hk, D.
  - intros t1 [->|Hj1]%Hj; apply Hk; [by eexists|by apply E].
  - rewrite jobs_in_app. destruct ev as [t2|]; [|by rewrite app_nil_r]. subst t2. apply NoDup_app. split; [done|]. split; [|apply NoDup_singleton].
    intros x Hx Hx1. by apply list_elem_of_singleton in Hx1 as ->.
  - intros c1 ev1 Hin. assert (Hr0 : exists r0, let t := match ev1 with RJob t | RHost t _ => t end in w_runs w !! t = Some r0 /\ c1 = sender t (ro_taken r0)).
    { apply elem_of_app in Hin as [Hin|Hin]; [by apply G|]. apply list_elem_of_singleton in Hin as [= -> ->]. exists r. by rewrite Hev. }
    destruct Hr0 as (r0 & H0 & Hc1). cbv zeta in *. set (t1 := match ev1 with RJob t | RHost t _ => t end) in *.
    destruct (proj2 (Hk t1) ltac:(by eexists)) as [r1 H1]. exists r1. split; [done|]. destruct (Hold t1 r1 H1) as (? & H0' & ->). congruence.
  - intros l1 c1 t1 msg l2 Heq r1 H1. destruct (Hold t1 r1 H1) as (r0 & H0 & ->). destruct l2 as [|x l2 _] using rev_ind.
    + apply app_inj_tail in Heq as [<- [= -> ->]]. subst t1. rewrite Hl in H0. by injection H0 as <-.
    + rewrite app_comm_cons, app_assoc in Heq. apply app_inj_tail in Heq as [Heq _]. by apply (I l1 c1 t1 msg l2).
Qed.

Section DispatchTraces.
Context `{HO : HashOrder} `{HOk : !HashOrderOk} `{VP : VictimPicker}.
Context (powf : f64 -> f64 -> f64) (cores budget line reserve : Z).
Notation engine_step := (engine_step powf cores budget line reserve).
Notation dispatch_step := (dispatch_step powf cores budget line reserve).
Notation dispatch_run := (dispatch_run powf cores budget line reserve).

(** What an event of the engine does to the started runs and to the tokens. *)
Lemma engine_step_books s ev s' : engine_step s ev = Some s' ->
  next_token (eng s) <= next_token (eng s') /\
  match ev with
  | EvFinishRun _ token _ _ _ | EvGiveBack _ token _ => started s' = delete token (started s)
  | EvRun env req =>
    match run_oneoff powf cores budget line reserve (eng s) env req with
    | (_, Some token, None) => token = next_token (eng s) /\ token < next_token (eng s') /\ started s' = <[token := Oneoff]> (started s)
    | _ => started s' = started s
    end
  | EvAcquire env k =>
    forall req e r, pending s !! k = Some req -> prefix_acquire cores budget line reserve (eng s) env req = Some (e, r) ->
    match r with
    | Ok (token, taken) => token = next_token (eng s) /\ token < next_token (eng s') /\ started s' = <[token := taken]> (started s)
    | Err _ => started s' = started s
    end
  | _ => started s' = started s
  end.
Proof.
  destruct s as [e pend m]. destruct ev as [code filename globals imports|p|env req|env token failed wall cpu|req|env k|token outcome|env token outcome];
    cbn -[prefix_acquire]; intros Hs.
  - injection Hs as <-. by split.
  - injection Hs as <-. by split.
  - unfold run_oneoff in *. destruct (reserve_oneoff _ _ _ _ _ _ _) as [[[]|msg] w]; cbn in *; [destruct (en_thread env)|];
      injection Hs as <-; cbn; (split; [lia|]); try done. split; [done|]. split; [lia|done].
  - destruct (m !! token) as [[]|]; try done. injection Hs as <-. by split.
  - destruct (prefix_lookup e req); injection Hs as <-; by split.
  - destruct (pend !! k) as [req|]; cbn -[prefix_acquire] in Hs; [|done].
    destruct (prefix_acquire _ _ _ _ _ _ _) as [[e1 r]|] eqn:Ha; cbn in Hs; [|done].
    assert (Hn : next_token e1 = next_token e + 1 /\ forall token taken, r = Ok (token, taken) -> token = next_token e).
    { unfold prefix_acquire in Ha. cbn in Ha. destruct (acquire _ _ _ _ _ _ _ _ _ _ _ _) as [[a w]|]; cbn in Ha; [|done].
      injection Ha as <- <-. split; [done|]. destruct a; by intros ? ? [= <- _]. }
    destruct Hn as [Hn Htok]. destruct r as [[token taken]|]; injection Hs as <-; cbn -[prefix_acquire]; (split; [lia|]);
      intros req' e' r' [= <-] Ha'; rewrite Ha in Ha'; injection Ha' as <- <-; [|done]. rewrite (Htok token taken eq_refl). split; [done|]. split; [lia|done].
  - destruct (m !! token) as [t|]; cbn in Hs; [|done]. destruct (taken_prefix t); cbn in Hs; [|done]. injection Hs as <-. split; [|done].
    cbn. unfold mark_broken. by repeat case_match.
  - destruct (m !! token) as [t|]; cbn in Hs; [|done]. destruct (taken_prefix t); cbn in Hs; [|done]. injection Hs as <-. split; [|done].
    cbn. unfold give_back. destruct (outcome_times outcome). by destruct t.
Qed.

Lemma step_finish w ev token r w' :
  dispatch_ok w -> w_runs w !! token = Some r -> finish_step powf cores budget line reserve w ev token r = Some w' -> dispatch_ok w'.
Proof using HOk.
  intros Hw Hl Hs. destruct (dk_runs _ Hw token r Hl) as [Rs Rn Rr Rd Ru]. unfold seen_of in Rn.
  assert (Hgone : forall o s, unsent (ro_stage r) = false -> ro_seen r = [Handle; RouteGone] ->
    forall env, engine_step (w_sys w) (release_event env token (ro_taken r) o) = Some s ->
    dispatch_ok (with_run (with_sys w s) token (at_stage r (Released o) [BackInRegistry]))).
  { intros o s Hu Hsn env He. pose proof (engine_step_ok _ _ _ _ _ _ _ _ (dk_sys _ Hw) He) as Hso.
    assert (Hb : next_token (eng (w_sys w)) <= next_token (eng s) /\ started s = delete token (started (w_sys w))).
    { pose proof (engine_step_books _ _ _ He) as Hb. unfold release_event in Hb. by destruct (ro_taken r). }
    destruct Hb as [Hn Hm]. apply ok_run; [done|done|done| | |intros ? H0; cbn; congruence|].
    - pose proof (dk_tokens _ Hw token ltac:(by eexists)). lia.
    - intros t Ht. by rewrite Hm, lookup_delete_ne.
    - split; cbn; [by rewrite Hm, lookup_delete_eq|by rewrite Hsn|done|auto|done]. }
  unfold finish_step in Hs. destruct ev; try done; destruct (ro_stage r) as [| | |o|o|o|o|o] eqn:Est; try done; cbn in Rs.
  - injection Hs as <-. eapply ok_stage; [done..|]. split; cbn; [done|by rewrite Rn|done|auto|done].
  - destruct (ro_taken r) eqn:Et; [..|done];
      (destruct (engine_step _ _) as [s|] eqn:He; cbn in Hs; [|done]); injection Hs as <-;
      (destruct (engine_step_books _ _ _ He) as [Hn Hm]); pose proof (engine_step_ok _ _ _ _ _ _ _ _ (dk_sys _ Hw) He) as Hso;
      pose proof (ok_books w s Hw Hso Hm Hn) as Hw';
      (eapply (ok_stage (with_sys w s)); [done|done|done|]); (split; cbn; rewrite ?Hm, ?Rn, ?Et; [done|done|done|auto|done]).
  - destruct (ro_taken r) eqn:Et; try done. destruct (engine_step _ _) as [s|] eqn:He; cbn in Hs; [|done]. injection Hs as <-.
    by eapply Hgone.
  - destruct (engine_step _ _) as [s|] eqn:He; cbn in Hs; [|done]. injection Hs as <-. by eapply Hgone.
  - injection Hs as <-. eapply ok_stage; [done..|]. split; cbn; [done|by rewrite Rn|done|auto|done].
Qed.

Lemma ok_refused w run_id r : dispatch_ok w -> dispatch_ok (with_refused w run_id r).
Proof. intros []; by split. Qed.

(** A run starts with the token the engine just allocated. *)
Lemma ok_started w s token r :
  dispatch_ok w -> sys_ok s -> next_token (eng (w_sys w)) <= next_token (eng s) ->
  token = next_token (eng (w_sys w)) /\ token < next_token (eng s) /\ started s = <[token := ro_taken r]> (started (w_sys w)) ->
  holds (ro_stage r) = true -> ro_seen r = seen_of r -> (ro_returned r = true -> unsent (ro_stage r) = false) ->
  (unsent (ro_stage r) = false -> ro_taken r = Oneoff) ->
  dispatch_ok (with_run (with_sys w s) token r).
Proof.
  intros Hw Hs Hn (Ht & Hlt & Hm) Hh Hseen Hret Hsent.
  assert (Hnew : ~ is_Some (w_runs w !! token)) by (intros Hi; pose proof (dk_tokens _ Hw _ Hi); lia).
  apply ok_run; [done|done|done|done| | |].
  - intros t Hne. by rewrite Hm, lookup_insert_ne.
  - intros r0 H0. exfalso. apply Hnew. by eexists.
  - split; [by rewrite Hm, lookup_insert_eq, Hh|done|done|auto|]. intros _ Hj. by apply Hnew, (dk_jobs _ Hw).
Qed.

Lemma start_oneoff_run_ok w env req w' :
  dispatch_ok w -> start_oneoff_run powf cores budget line reserve w env req = Some w' -> dispatch_ok w'.
Proof using HOk.
  intros Hw Hs. unfold start_oneoff_run in Hs. destruct (engine_step _ _) as [s|] eqn:He; cbn in Hs; [|done].
  pose proof (engine_step_ok _ _ _ _ _ _ _ _ (dk_sys _ Hw) He) as Hso. destruct (engine_step_books _ _ _ He) as [Hn Hm].
  destruct (run_oneoff _ _ _ _ _ _ _ _) as [[e [token|]] [refusal|]]; try done; injection Hs as <-.
  - by apply ok_refused, ok_books.
  - by apply ok_started.
  - by apply ok_refused, ok_books.
Qed.

Lemma acquire_for_ok w env k w' :
  dispatch_ok w -> acquire_for powf cores budget line reserve w env k = Some w' -> dispatch_ok w'.
Proof using HOk.
  intros Hw Hs. unfold acquire_for in Hs. destruct (pending _ !! k) as [req|] eqn:Hk; [|done].
  change (Some req ≫= ?f) with (f req) in Hs. cbv beta in Hs.
  destruct (prefix_acquire _ _ _ _ _ _ _) as [[e r]|] eqn:Ha; [|done].
  change (Some (e, r) ≫= ?f) with (f (e, r)) in Hs. cbv beta iota in Hs.
  destruct (engine_step _ _) as [s|] eqn:He; [|done]. change (Some s ≫= ?f) with (f s) in Hs. cbv beta in Hs.
  pose proof (engine_step_ok _ _ _ _ _ _ _ _ (dk_sys _ Hw) He) as Hso.
  destruct (engine_step_books _ _ _ He) as [Hn Hm]. specialize (Hm req e r Hk Ha).
  destruct r as [[token taken]|refusal]; injection Hs as <-; [by apply ok_started|by apply ok_refused, ok_books].
Qed.

Lemma send_job_ok w token r : dispatch_ok w -> w_runs w !! token = Some r -> ro_stage r = Registered -> dispatch_ok (send_job w token r).
Proof.
  intros Hw Hl Hst. destruct (dk_runs _ Hw token r Hl) as [Rs Rn Rr Rd Ru]. unfold seen_of in Rn. rewrite Hst in *. cbn in *.
  unfold send_job. case_bool_decide as Hd.
  - eapply ok_stage; [done..|]. split; cbn; [done|by rewrite Rn|done|auto|done].
  - eapply ok_sent; [done..| |by apply Ru]. split; cbn; [done|by rewrite Rn|done| |done]. intros _. right. left. set_solver.
Qed.

Lemma deliver_to_ok w token r msg : dispatch_ok w -> w_runs w !! token = Some r -> ro_returned r = true -> dispatch_ok (deliver_to w token r msg).
Proof.
  intros Hw Hl Hret. destruct (dk_runs _ Hw token r Hl) as [Rs Rn Rr Rd Ru]. pose proof (Rr Hret) as Hu.
  unfold deliver_to. case_bool_decide as Hd; [done|].
  assert (Hsent : ro_taken r = Oneoff \/ (sender token (ro_taken r), RJob token) ∈ w_sent w) by (destruct (Rd Hu) as [?|[?|?]]; auto; done).
  assert (w = with_run w token r) as Heq by (unfold with_run; rewrite insert_id by done; by destruct w).
  rewrite Heq. apply (ok_sent _ _ (RHost token msg) token r r); try done. split; [done|done|done| |congruence].
  intros _. destruct Hsent as [?|?]; [by left|]. right. left. set_solver.
Qed.

Lemma dispatch_step_ok w ev w' : dispatch_ok w -> dispatch_step w ev = Some w' -> dispatch_ok w'.
Proof using HOk.
  intros Hw Hs.
  assert (Hengine : forall ev s, engine_step (w_sys w) ev = Some s -> started s = started (w_sys w) -> dispatch_ok (with_sys w s)).
  { intros ev0 s He Hm. apply ok_books; [done|by eapply engine_step_ok; [apply Hw|]|done|]. by destruct (engine_step_books _ _ _ He). }
  destruct ev as [code filename globals imports|p|env req|req|env k|token|token|token msg|c|token o|token|token|env token|token];
    cbn -[Engine.engine_step finish_step acquire_for] in Hs.
  1,2: destruct (engine_step _ _) as [s|] eqn:He; cbn in Hs; [|done]; injection Hs as <-; apply (Hengine _ _ He); by destruct (engine_step_books _ _ _ He).
  9-12: destruct (w_runs w !! token) as [r|] eqn:Hl; cbn [mbind option_bind] in Hs; [|done]; by eapply step_finish.
  - by eapply start_oneoff_run_ok.
  - destruct (engine_step _ _) as [s|] eqn:He; cbn in Hs; [|done]. destruct (prefix_lookup _ _); injection Hs as <-; [|by apply ok_refused].
    apply (Hengine _ _ He). by destruct (engine_step_books _ _ _ He).
  - by eapply acquire_for_ok.
  - destruct (w_runs w !! token) as [r|] eqn:Hl; cbn in Hs; [|done]. destruct (ro_stage r) eqn:Hst; try done. injection Hs as <-.
    destruct (dk_runs _ Hw token r Hl) as [Rs Rn Rr Rd Ru]. unfold seen_of in Rn. rewrite Hst in *.
    eapply ok_stage; [done..|]. split; cbn; [done|by rewrite Rn|done|done|done].
  - destruct (w_runs w !! token) as [r|] eqn:Hl; cbn in Hs; [|done]. destruct (ro_stage r) eqn:Hst; try done. injection Hs as <-. by apply send_job_ok.
  - destruct (w_runs w !! token) as [r|] eqn:Hl; cbn in Hs; [|done]. destruct (ro_returned r) eqn:Hr; [|done]. injection Hs as <-. by apply deliver_to_ok.
  - injection Hs as <-. destruct Hw as [A B C D E F G I]. split; try done. intros t r Hl. destruct (B t r Hl) as [B1 B2 B3 B4 B5]. split; cbn; try done.
    intros Hu. destruct (B4 Hu) as [?|[?|?]]; auto. right. right. by right.
  - destruct (w_runs w !! token) as [r|] eqn:Hl; cbn in Hs; [|done]. destruct (ro_stage r) eqn:Hst; try done. case_bool_decide; [done|]. injection Hs as <-.
    destruct (dk_runs _ Hw token r Hl) as [Rs Rn Rr Rd Ru]. unfold seen_of in Rn. rewrite Hst in *.
    eapply ok_stage; [done..|]. split; cbn; [done|by rewrite Rn|done|by auto|done].
Qed.

Lemma dispatch_run_ok evs w w' : dispatch_ok w -> dispatch_run w evs = Some w' -> dispatch_ok w'.
Proof using HOk.
  unfold dispatch_run. revert w. induction evs as [|ev evs IH]; intros w Hw Hr; cbn in Hr; [by injection Hr as <-|].
  destruct (dispatch_step w ev) as [w1|] eqn:Hst; [by apply (IH w1); [eapply dispatch_step_ok|]|].
  exfalso. clear -Hr. induction evs as [|ev1 evs IH]; cbn in Hr; [done|auto].
Qed.

(** ** A run ends, and in this order *)

(** What the thread that has a run in hand does next; a running job is the
    instance's, an answered run is over. *)
Definition next_event (env : Env) (token : Z) (r : Run) : option DispatchEvent :=
  match ro_stage r with
  | Acquired => Some (DRegister token)
  | Registered => Some (DSend token)
  | Concluding _ => Some (DFinished token)
  | RouteDropped _ => Some (match ro_taken r with Oneoff => DRelease env token | _ => DMark token end)
  | PrefixMarked _ => Some (DRelease env token)
  | Released _ => Some (DComplete token)
  | Running | Answered _ => None
  end.

Lemma next_enabled w env token r ev :
  dispatch_ok w -> w_runs w !! token = Some r -> next_event env token r = Some ev -> is_Some (dispatch_step w ev).
Proof.
  intros Hw Hl He. destruct (dk_runs _ Hw token r Hl) as [Rs _ _ _ _]. unfold next_event in He.
  destruct (ro_stage r) as [| | |o|o|o|o|o] eqn:Est; try discriminate; injection He as <-; cbn in Rs.
  1,2,3,6: cbn; rewrite Hl; cbn; rewrite Est; by eexists.
  - destruct (w_sys w) as [e pend m] eqn:Es. cbn in Rs.
    destruct (ro_taken r) as [p id|p|] eqn:Et; cbn; rewrite Hl; cbn; rewrite Est, Et, Es; cbn; rewrite Rs; by eexists.
  - destruct (w_sys w) as [e pend m] eqn:Es. cbn in Rs.
    cbn; rewrite Hl; cbn; rewrite Est, Es; destruct (ro_taken r) as [p id|p|] eqn:Et; cbn; rewrite Rs; by eexists.
Qed.

Lemma acquire_enabled w env k : dispatch_ok w -> is_Some (pending (w_sys w) !! k) -> is_Some (dispatch_step w (DAcquire env k)).
Proof using HOk.
  intros Hw [req Hk]. destruct (w_sys w) as [e pend m] eqn:Es. pose proof (dk_sys _ Hw) as [Hl _ _]. rewrite Es in Hl. cbn in Hl, Hk.
  destruct (acquire_ok cores budget line reserve _ (warm e) (pr_prefix_id req) (caps_of (pr_limits req))
    (en_usage env) (en_now env) (en_now_shed env) (en_util env) (en_instance env) Hl) as (a & w1 & Ha & _).
  cbn. unfold acquire_for. rewrite Es. cbn. rewrite Hk. cbn. unfold prefix_acquire. cbn. rewrite Ha. cbn. destruct a; by eexists.
Qed.

(** C24. Whatever calls, conclusions, disposals, messages and dying threads
    interleave, a started run is seen in one order - its handle, the end of its
    route, its instance or slot back in the registry, one completion that says how it
    ended - so a host that has an answer finds the instance back.  Until then the
    registry holds what the run took, and a pooled instance is still pooled, so its
    thread has not been told to retire under the run.  Each job is sent at most once,
    and what the host sends a run arrives behind its job, on the channel of the
    instance it took.  No run is stuck between two of these steps: an acquisition
    never panics, and each of them is possible when it is next. *)
Theorem released_before_answered slots evs w
    (Hrun : dispatch_run (dispatch_start slots) evs = Some w) :
  (forall token r, w_runs w !! token = Some r ->
    (exists o, ro_seen r `prefix_of` [Handle; RouteGone; BackInRegistry; Completion (ro_run_id r) (answer_of (ro_taken r) o)]) /\
    (BackInRegistry ∈ ro_seen r -> started (w_sys w) !! token = None) /\
    (BackInRegistry ∉ ro_seen r -> started (w_sys w) !! token = Some (ro_taken r) /\
      forall p id, ro_taken r = Pooled p id ->
        exists i, i ∈ ents (prefixes (warm (eng (w_sys w)))) p /\ i_id i = id /\ 0 < i_in_flight i)) /\
  NoDup (jobs_in (w_sent w)) /\
  (forall l1 c token msg l2, w_sent w = l1 ++ (c, RHost token msg) :: l2 ->
    exists r, w_runs w !! token = Some r /\ c = sender token (ro_taken r) /\ (ro_taken r = Oneoff \/ (c, RJob token) ∈ l1)) /\
  (forall env token r ev, w_runs w !! token = Some r -> next_event env token r = Some ev -> is_Some (dispatch_step w ev)) /\
  (forall env k, is_Some (pending (w_sys w) !! k) -> is_Some (dispatch_step w (DAcquire env k))).
Proof using HOk.
  pose proof (dispatch_run_ok _ _ _ (dispatch_start_ok slots) Hrun) as Hw.
  split; [|split; [by apply dk_once|split; [|split]]].
  - intros token r Hl. destruct (dk_runs _ Hw token r Hl) as [Rs Rn _ _ _].
    assert (Hp : started (w_sys w) !! token = Some (ro_taken r) -> forall p id, ro_taken r = Pooled p id ->
      exists i, i ∈ ents (prefixes (warm (eng (w_sys w)))) p /\ i_id i = id /\ 0 < i_in_flight i).
    { intros Hst p id Ht. rewrite Ht in Hst. by apply (sys_attached _ token); [apply Hw|]. }
    rewrite Rn. unfold seen_of. destruct (ro_stage r) as [| | |o|o|o|o|o]; cbn in Rs;
      (split; [first [exists o|exists Owner.dead_instance_outcome]; repeat first [reflexivity|apply prefix_nil|apply prefix_cons]|]);
      (split; intros Hb; [first [exact Rs|by repeat (apply elem_of_cons in Hb as [[=]|Hb]); apply not_elem_of_nil in Hb]|first [by auto|destruct Hb; set_solver]]).
  - intros l1 c token msg l2 Hl. destruct (dk_senders _ Hw c (RHost token msg)) as (r & Hr & Hc); [rewrite Hl; set_solver|].
    exists r. split; [done|]. split; [done|]. by apply (dk_fifo _ Hw l1 c token msg l2).
  - intros env token r ev Hl He. by eapply next_enabled.
  - intros env k Hk. by apply acquire_enabled.
Qed.
End DispatchTraces.

(** ** Witness *)

Module DispatchDemo.
Import EngineDemo.

(** Two runs of a prefix; the thread of the second one's instance is gone before its
    job is sent, so its caller concludes it while the first one runs. *)
Definition events : list DispatchEvent :=
  [DPrepare "code" None [] []; DLookup req; DAcquire env 0; DRegister 1; DSend 1; DDeliver 1 (ITerminate Hard);
   DLookup req; DAcquire env 0; DThreadDies (InstanceChan "0" 2); DRegister 2; DSend 2; DFinished 2; DMark 2;
   DOutcome 1 clean; DFinished 1; DRelease env 2; DComplete 2; DMark 1; DRelease env 1; DComplete 1].
Definition run (evs : list DispatchEvent) : option World :=
  @dispatch_run order (policy_picker pow) pow 2 100000 (2 ^ 40) 0 (dispatch_start 4) evs.
End DispatchDemo.

Lemma answered_released o r c : o = Some r -> ro_seen <$> o = Some [Handle; RouteGone; BackInRegistry; c] -> BackInRegistry ∈ ro_seen r.
Proof. intros -> [= ->]. set_solver. Qed.

Lemma released_before_answered_witness :
  exists w, DispatchDemo.run DispatchDemo.events = Some w /\
    (ro_seen <$> w_runs w !! 1) = Some [Handle; RouteGone; BackInRegistry; Completion 1 (answer_of (Pooled "0" 1) EngineDemo.clean)] /\
    (ro_seen <$> w_runs w !! 2) = Some [Handle; RouteGone; BackInRegistry; Completion 1 (answer_of (Pooled "0" 2) Owner.dead_instance_outcome)] /\
    jobs_in (w_sent w) = [1] /\ started (w_sys w) !! 1 = None /\ started (w_sys w) !! 2 = None.
Proof.
  destruct (DispatchDemo.run DispatchDemo.events) as [w|] eqn:Hrun; [|vm_compute in Hrun; discriminate].
  destruct (@released_before_answered EngineDemo.order EngineDemo.order_ok (policy_picker EngineDemo.pow) EngineDemo.pow
    2 100000 (2 ^ 40) 0 4 DispatchDemo.events w Hrun) as (Hruns & _).
  assert (Hs : (ro_seen <$> w_runs w !! 1) = Some [Handle; RouteGone; BackInRegistry; Completion 1 (answer_of (Pooled "0" 1) EngineDemo.clean)] /\
    (ro_seen <$> w_runs w !! 2) = Some [Handle; RouteGone; BackInRegistry; Completion 1 (answer_of (Pooled "0" 2) Owner.dead_instance_outcome)] /\
    jobs_in (w_sent w) = [1]).
  { vm_compute in Hrun. injection Hrun as <-. vm_compute. auto. }
  destruct Hs as (H1 & H2 & Hj). exists w. split; [reflexivity|]. split; [exact H1|]. split; [exact H2|]. split; [exact Hj|].
  split.
  - destruct (w_runs w !! 1) as [r|] eqn:Hr; [|discriminate H1]. apply (Hruns 1 r Hr). exact (answered_released _ _ _ eq_refl H1).
  - destruct (w_runs w !! 2) as [r|] eqn:Hr; [|discriminate H2]. apply (Hruns 2 r Hr). exact (answered_released _ _ _ eq_refl H2).
Defined.
