(* ===== verification/Startup.v ===== *)
(** * The process ([crates/server/src/main.rs], [crates/core/src/oom.rs], [v8/oom_label.rs])

    What the command line says, whether the process comes up and with which lines,
    the connections it takes, and the line it leaves when V8 runs out of memory and
    aborts it.  The system's answers - readings, the bind, the accepts - are
    arguments. *)

From S2P Require Import Prelude Bytes Text Types StreamPayloads Container Meters Engine.

Local Open Scope string_scope.
Local Open Scope list_scope.
Local Open Scope Z_scope.

(** ** The command line *)

Record Args := mk_Args { socket : option string; warm_budget_bytes : Z; host_reserve_bytes : Z; idle_settle_secs : Z }.
Definition args_default : Args := mk_Args None 0 DEFAULT_HOST_RESERVE_BYTES 0.

(** The flag of each number, and where it goes. *)
Definition set_number (a : Args) (flag : string) (n : Z) : Args :=
  if decide (flag = "--warm-budget-bytes") then mk_Args (socket a) n (host_reserve_bytes a) (idle_settle_secs a)
  else if decide (flag = "--host-reserve-bytes") then mk_Args (socket a) (warm_budget_bytes a) n (idle_settle_secs a)
  else mk_Args (socket a) (warm_budget_bytes a) (host_reserve_bytes a) n.
Definition number_flags : list string := ["--warm-budget-bytes"; "--host-reserve-bytes"; "--idle-settle-secs"].

Section Args.
(** The [Debug] form of a string. *)
Context (debug : string -> string).

Definition unknown_argument (arg : string) : string := "[iso4-v8] unknown argument: " +:+ arg.
Definition not_a_number (flag got : string) : string := "[iso4-v8] " +:+ flag +:+ " must be a non-negative integer, got " +:+ debug got.

(** The loop, from one argument on; [Err]: the line written before the exit. *)
Fixpoint parse_loop (args : list string) (a : Args) : result string Args :=
  match args with
  | [] => Ok a
  | arg :: rest =>
    match rest with
    | [] => Err (unknown_argument arg)
    | v :: rest =>
      if decide (arg = "--socket") then parse_loop rest (mk_Args (Some v) (warm_budget_bytes a) (host_reserve_bytes a) (idle_settle_secs a))
      else if decide (arg ∈ number_flags) then
        match parse_u64 (as_bytes v) with
        | Some n => parse_loop rest (set_number a arg n)
        | None => Err (not_a_number arg v)
        end
      else Err (unknown_argument arg)
    end
  end.

(** [args]: without the program's name. *)
Definition parse_args (args : list string) : result string (string * Z * Z * Z) :=
  match parse_loop args args_default with
  | Err line => Err line
  | Ok a =>
    match socket a with
    | Some socket => Ok (socket, warm_budget_bytes a, host_reserve_bytes a, idle_settle_secs a)
    | None => Err "[iso4-v8] --socket <path> is required"
    end
  end.
End Args.

(** ** Coming up *)

(** What the process finds: [oom_score]: the error of writing its own score;
    [bind]: the error of binding the path; [cores]: [available_parallelism]. *)
Record Host := mk_Host {
  oom_score : option string;
  usage : option Z;
  rss : option Z;
  limit_info : option (Z * string);
  bind : string -> option string;
  cores : option Z;
}.

(** The process's own cells, and what it wrote to [stderr]. *)
Record Process := mk_Process { HOST_RESERVE_BYTES : Z; IDLE_SETTLE_SECS : Z; SLOT_ALLOWANCE : Z; stderr : list string }.
Definition process_new : Process := mk_Process DEFAULT_HOST_RESERVE_BYTES 0 0 [].
Definition eprintln (p : Process) (line : string) : Process :=
  mk_Process (HOST_RESERVE_BYTES p) (IDLE_SETTLE_SECS p) (SLOT_ALLOWANCE p) (stderr p ++ [line]).

Definition OOM_SCORE_ADJ : string := "500".

Definition prefer_this_process_as_victim (h : Host) (p : Process) : Process :=
  match oom_score h with Some e => eprintln p ("[iso4-v8] could not set oom_score_adj: " +:+ e) | None => p end.

Definition set_host_reserve_bytes (n : Z) (p : Process) : Process := mk_Process n (IDLE_SETTLE_SECS p) (SLOT_ALLOWANCE p) (stderr p).
Definition set_idle_settle_secs (n : Z) (p : Process) : Process := mk_Process (HOST_RESERVE_BYTES p) n (SLOT_ALLOWANCE p) (stderr p).
Definition seed_slot_allowance (cores : Z) (p : Process) : Process :=
  mk_Process (HOST_RESERVE_BYTES p) (IDLE_SETTLE_SECS p) (if cores <=? u32_max then cores else u32_max) (stderr p).

Definition MB : Z := 1024 * 1024.

Definition unmetered_line (budget : Z) : string :=
  "[iso4-v8] cannot read container memory or this process's resident memory, so the " +:+ show budget +:+
  "-byte memory budget could never be enforced. This usually means neither the cgroup filesystem nor /proc is readable in this environment. Mount one, or pass memoryBudgetMb: 0 to run without a budget.".

Definition capacity_line (limit : option (Z * string)) (reserve hard_line budget_bytes : Z) : string :=
  let budget := if budget_bytes =? 0 then "disabled" else show (budget_bytes / MB) +:+ " MB" in
  let default_heap_mb := DEFAULT_MEMORY_MB in
  let warm_ceiling_mb := default_heap_mb + heap_band_mb default_heap_mb in
  match limit with
  | Some (limit, source) =>
    "[iso4-v8] capacity: container limit " +:+ show (limit / MB) +:+ " MB (" +:+ source +:+ "), host reserve " +:+ show (reserve / MB) +:+
    " MB, admission line " +:+ show (hard_line / MB) +:+ " MB, warm budget " +:+ budget +:+ ", default run heap " +:+ show default_heap_mb +:+
    " MB (warm-run ceiling " +:+ show warm_ceiling_mb +:+ " MB)"
  | None =>
    "[iso4-v8] capacity: container limit unreadable — admission line disabled; warm budget " +:+ budget +:+ ", default run heap " +:+
    show default_heap_mb +:+ " MB (warm-run ceiling " +:+ show warm_ceiling_mb +:+ " MB)"
  end.

(** [None]: exit with a failure; else the lines the engine is made with, and the
    engine. *)
Definition startup (debug : string -> string) (h : Host) (args : list string) : Process * option (Z * Z * Engine) :=
  let p := prefer_this_process_as_victim h process_new in
  match parse_args debug args with
  | Err line => (eprintln p line, None)
  | Ok (socket_path, warm_budget_bytes, host_reserve_bytes, idle_settle_secs) =>
    let p := set_idle_settle_secs idle_settle_secs (set_host_reserve_bytes host_reserve_bytes p) in
    if (0 <? warm_budget_bytes) && negb (bool_decide (is_Some (usage h))) && negb (bool_decide (is_Some (rss h))) then
      (eprintln p (unmetered_line warm_budget_bytes), None)
    else
      let hard_line_bytes := admission_line_bytes (fst <$> limit_info h) (HOST_RESERVE_BYTES p) in
      match bind h socket_path with
      | Some e => (eprintln p ("[iso4-v8] failed to bind socket at " +:+ socket_path +:+ ": " +:+ e), None)
      | None =>
        let p := eprintln p ("[iso4-v8] listening on " +:+ socket_path) in
        let p := eprintln p (capacity_line (limit_info h) (HOST_RESERVE_BYTES p) hard_line_bytes warm_budget_bytes) in
        let p := seed_slot_allowance (default 1 (cores h)) p in
        (p, Some (warm_budget_bytes, hard_line_bytes, engine_new (SLOT_ALLOWANCE p)))
      end
  end.

(** The accept loop: the connections that get a thread, until an accept fails. *)
Fixpoint accept_loop {C} (incoming : list (result string C)) (p : Process) : Process * list C :=
  match incoming with
  | [] => (p, [])
  | Ok stream :: incoming => let '(p, cs) := accept_loop incoming p in (p, stream :: cs)
  | Err e :: _ => (eprintln p ("[iso4-v8] accept error: " +:+ e), [])
  end.

(** ** The line of an out-of-memory abort *)

Inductive OomRun := OomNone | OomRunning (id : Z) | OomColdStart (id : Z).
Record OomRunLabel := mk_OomRunLabel { l_prefix_id : option Z; l_run : OomRun }.

(** [run]: the tag over the run id. *)
Record OomRecord := mk_OomRecord { o_prefix_id : option Z; run : Z }.

Definition set_run (r : OomRecord) (x : OomRun) : OomRecord :=
  mk_OomRecord (o_prefix_id r)
    (match x with
     | OomNone => 0
     | OomRunning id => Z.lor (Z.shiftl 1 32) id
     | OomColdStart id => Z.lor (Z.shiftl 2 32) id
     end).
Definition record_new (l : OomRunLabel) : OomRecord := set_run (mk_OomRecord (l_prefix_id l) 0) (l_run l).
Definition label (r : OomRecord) : OomRunLabel :=
  mk_OomRunLabel (o_prefix_id r)
    (let tag := Z.shiftr (run r) 32 in
     if tag =? 1 then OomRunning (as_u32 (run r)) else if tag =? 2 then OomColdStart (as_u32 (run r)) else OomNone).

(** A [&mut [u8]] being written: what is in it and the room left. *)
Record Cursor := mk_Cursor { filled : list byte; room : nat }.

(** [Write::write_all] of one piece: as much as fits; whether all did. *)
Definition write_all (c : Cursor) (bs : list byte) : Cursor * bool :=
  (mk_Cursor (filled c ++ take (room c) bs) (room c - length bs), bool_decide (length bs <= room c)%nat).

(** [write!]: the pieces in order, up to the first that does not fit. *)
Fixpoint write_fmt (c : Cursor) (pieces : list string) : Cursor :=
  match pieces with
  | [] => c
  | piece :: pieces => let '(c, ok) := write_all c (as_bytes piece) in if ok then write_fmt c pieces else c
  end.

Definition where_pieces (l : option OomRunLabel) : list string :=
  match l with
  | None => [" outside any isolate"]
  | Some l =>
    match l_run l, l_prefix_id l with
    | OomNone, _ => [" with no run executing in this isolate"]
    | OomRunning run_id, Some p => [" in run "; show run_id; " of prefix "; show p]
    | OomRunning run_id, None => [" in one-off run "; show run_id]
    | OomColdStart run_id, Some p => [" during cold start of prefix "; show p; " (triggered by run "; show run_id; ")"]
    | OomColdStart run_id, None => [" during cold start (triggered by run "; show run_id; ")"]
    end
  end.

(** [newline]: the line's end.  [detail], [location]: C strings, used if they are
    text. *)
Definition newline : string := String (Ascii.ascii_of_N 10) EmptyString.
Definition oom_pieces (l : option OomRunLabel) (is_heap_oom : bool) (detail location : option (list byte)) : list (list string) :=
  [["[iso4-v8] fatal: V8 out of memory ("; if is_heap_oom then "heap" else "non-heap"; ")"]; where_pieces l] ++
  (match location ≫= from_utf8 with Some s => [[": "; s]] | None => [] end) ++
  (match detail ≫= from_utf8 with Some s => [[" ("; s; ")"]] | None => [] end) ++
  [[" — aborting the process" +:+ newline]].

Definition format_oom_line (cap : nat) (l : option OomRunLabel) (is_heap_oom : bool) (detail location : option (list byte)) : list byte :=
  filled (fold_left write_fmt (oom_pieces l is_heap_oom detail location) (mk_Cursor [] cap)).

(** [OOM_LINE_WRITTEN] and the lines that went out. *)
Record OomState := mk_OomState { OOM_LINE_WRITTEN : bool; oom_lines : list (list byte) }.
Definition oom_new : OomState := mk_OomState false [].

Definition write_oom_line (s : OomState) (l : option OomRunLabel) (is_heap_oom : bool) (detail location : option (list byte)) : OomState :=
  mk_OomState (OOM_LINE_WRITTEN s) (oom_lines s ++ [format_oom_line 1024 l is_heap_oom detail location]).

(** [data]: the record registered with the handler. *)
Definition oom_error_cb (s : OomState) (data : option OomRecord) (is_heap_oom : bool) (detail location : option (list byte)) : OomState :=
  write_oom_line (mk_OomState true (oom_lines s)) (label <$> data) is_heap_oom detail location.
Definition fatal_memory_error_cb (s : OomState) (is_heap_oom : bool) (detail location : option (list byte)) : OomState :=
  let s' := mk_OomState true (oom_lines s) in
  if OOM_LINE_WRITTEN s then s' else write_oom_line s' None is_heap_oom detail location.

(** ** What a command line means

    The abstract grammar: flags with their values in any order, a number as any
    text that reads as one; of repeated flags the last counts. *)

Inductive flag := FSocket (path : string) | FNumber (name text : string) (n : Z).

Definition flag_ok (f : flag) : Prop :=
  match f with FSocket _ => True | FNumber name text n => name ∈ number_flags /\ parse_u64 (as_bytes text) = Some n end.
Definition flag_text (f : flag) : list string := match f with FSocket path => ["--socket"; path] | FNumber name text _ => [name; text] end.
Definition command_line (fs : list flag) : list string := concat (map flag_text fs).

Definition socket_of (fs : list flag) : option string := last (omap (fun f => match f with FSocket path => Some path | _ => None end) fs).
Definition number_of (fs : list flag) (name : string) (unset : Z) : Z :=
  default unset (last (omap (fun f => match f with FNumber name' _ n => if decide (name' = name) then Some n else None | _ => None end) fs)).
Definition means (fs : list flag) : Args :=
  mk_Args (socket_of fs) (number_of fs "--warm-budget-bytes" 0) (number_of fs "--host-reserve-bytes" DEFAULT_HOST_RESERVE_BYTES)
    (number_of fs "--idle-settle-secs" 0).

Definition apply_flag (a : Args) (f : flag) : Args :=
  match f with
  | FSocket path => mk_Args (Some path) (warm_budget_bytes a) (host_reserve_bytes a) (idle_settle_secs a)
  | FNumber name _ n => set_number a name n
  end.

Lemma means_snoc fs f : flag_ok f -> means (fs ++ [f]) = apply_flag (means fs) f.
Proof.
  intros Hf. unfold means, socket_of, number_of. rewrite !omap_app. destruct f as [path|name text n]; cbn [omap list_omap apply_flag].
  - by rewrite !app_nil_r, last_snoc.
  - destruct Hf as [Hin _]. unfold number_flags in Hin. rewrite !elem_of_cons, elem_of_nil in Hin.
    unfold set_number. destruct Hin as [->|[->|[->|[]]]]; repeat first [rewrite decide_True by done | rewrite decide_False by done];
      by rewrite !app_nil_r, ?last_snoc.
Qed.

Lemma means_fold fs : Forall flag_ok fs -> fold_left apply_flag fs args_default = means fs.
Proof.
  induction fs as [|f fs IH] using rev_ind; [done|]. intros [Hfs [Hf _]%Forall_cons]%Forall_app. by rewrite fold_left_app, means_snoc, <- IH.
Qed.

(** How a command line fails: at the first argument that is no flag with a value
    it can have. *)
Definition offends (debug : string -> string) (rest : list string) (line : string) : Prop :=
  match rest with
  | [] => False
  | [arg] => line = unknown_argument arg
  | arg :: v :: _ =>
    arg <> "--socket" /\
    (arg ∉ number_flags /\ line = unknown_argument arg \/
     arg ∈ number_flags /\ parse_u64 (as_bytes v) = None /\ line = not_a_number debug arg v)
  end.

Lemma parse_loop_spec debug args a :
  match parse_loop debug args a with
  | Ok b => exists fs, args = command_line fs /\ Forall flag_ok fs /\ b = fold_left apply_flag fs a
  | Err line => exists fs rest, args = command_line fs ++ rest /\ Forall flag_ok fs /\ offends debug rest line
  end.
Proof.
  revert a. induction (well_founded_ltof _ (@length string) args) as [args _ IH]. intros a.
  destruct args as [|arg [|v rest]]; cbn [parse_loop]; [by exists []|by exists [], [arg]|].
  assert (Hlt : ltof _ (@length string) rest (arg :: v :: rest)) by (unfold ltof; cbn; lia).
  assert (Hnext : forall f, flag_text f = [arg; v] -> flag_ok f ->
    match parse_loop debug rest (apply_flag a f) with
    | Ok b => exists fs, arg :: v :: rest = command_line fs /\ Forall flag_ok fs /\ b = fold_left apply_flag fs a
    | Err line => exists fs rest', arg :: v :: rest = command_line fs ++ rest' /\ Forall flag_ok fs /\ offends debug rest' line
    end).
  { intros f Hf Hok. specialize (IH rest Hlt (apply_flag a f)). destruct (parse_loop debug rest _) as [b|line].
    - destruct IH as (fs & -> & Hfs & ->). exists (f :: fs). unfold command_line. cbn [map concat]. rewrite Hf. by split_and!; [|constructor|].
    - destruct IH as (fs & rest' & -> & Hfs & Hoff). exists (f :: fs), rest'. unfold command_line. cbn [map concat]. rewrite Hf.
      by split_and!; [|constructor|]. }
  case_decide as Hs; [subst arg; by apply (Hnext (FSocket v))|].
  case_decide as Hn; [|by exists [], (arg :: v :: rest); split_and!; [|constructor|split; [|left]]].
  destruct (parse_u64 (as_bytes v)) as [n|] eqn:Ev; [by apply (Hnext (FNumber arg v n))|].
  exists [], (arg :: v :: rest). split_and!; [done|constructor|]. split; [done|by right].
Qed.

Lemma number_flag_not_socket name : name ∈ number_flags -> name <> "--socket".
Proof. unfold number_flags. rewrite !elem_of_cons, elem_of_nil. by intros [->|[->|[->|[]]]]. Qed.

Lemma parse_loop_flags debug fs rest a : Forall flag_ok fs -> parse_loop debug (command_line fs ++ rest) a = parse_loop debug rest (fold_left apply_flag fs a).
Proof.
  intros Hfs. revert a. induction Hfs as [|f fs Hf Hfs IH]; intros a; [done|]. unfold command_line. cbn [map concat fold_left].
  destruct f as [path|name text n]; cbn [flag_text app parse_loop].
  - rewrite decide_True by done. apply IH.
  - destruct Hf as [Hin Ht]. rewrite decide_False, decide_True; [rewrite Ht; apply IH|done|]. by apply number_flag_not_socket.
Qed.

Lemma offends_not_flags debug fs rest line : Forall flag_ok fs -> offends debug rest line ->
  parse_loop debug (command_line fs ++ rest) args_default = Err line.
Proof.
  intros Hfs Hoff. rewrite parse_loop_flags by done. destruct rest as [|arg [|v rest]]; cbn in Hoff; [done|by rewrite Hoff|].
  destruct Hoff as [Hs [[Hn ->]|(Hn & Hv & ->)]]; cbn [parse_loop]; rewrite (decide_False _ _ Hs).
  - by rewrite decide_False.
  - by rewrite decide_True, Hv.
Qed.

(** The arguments are taken exactly if they are a command line of flags that names
    a socket, for what that line means; else the process says what it stumbled on
    first. *)
Lemma parse_args_iff debug args :
  (forall s w r i, parse_args debug args = Ok (s, w, r, i) <->
     exists fs, args = command_line fs /\ Forall flag_ok fs /\ means fs = mk_Args (Some s) w r i) /\
  (forall line, parse_args debug args = Err line <->
     (exists fs, args = command_line fs /\ Forall flag_ok fs /\ socket_of fs = None /\ line = "[iso4-v8] --socket <path> is required") \/
     (exists fs rest, args = command_line fs ++ rest /\ Forall flag_ok fs /\ offends debug rest line)).
Proof.
  assert (Hflags : forall fs, Forall flag_ok fs -> parse_loop debug (command_line fs) args_default = Ok (means fs)).
  { intros fs Hfs. rewrite <- (app_nil_r (command_line fs)), parse_loop_flags by done. cbn. by rewrite means_fold. }
  unfold parse_args. pose proof (parse_loop_spec debug args args_default) as Hspec. split.
  - intros s w r i. split.
    + destruct (parse_loop debug args args_default) as [a|line]; [|done]. destruct Hspec as (fs & -> & Hfs & ->). rewrite means_fold by done.
      destruct (socket (means fs)) as [s0|] eqn:Es; [|done]. intros [= <- <- <- <-]. exists fs. split_and!; [done..|]. by rewrite <- Es.
    + intros (fs & -> & Hfs & Hm). by rewrite Hflags, Hm.
  - intros line. split.
    + destruct (parse_loop debug args args_default) as [a|line']; [|intros [= <-]; by right].
      destruct Hspec as (fs & -> & Hfs & ->). rewrite means_fold by done. destruct (socket (means fs)) eqn:Es; [done|]. intros [= <-]. left. by exists fs.
    + intros [(fs & -> & Hfs & Hs & ->)|(fs & rest & -> & Hfs & Hoff)].
      * rewrite Hflags by done. cbn. by rewrite Hs.
      * by rewrite (offends_not_flags _ _ _ line).
Qed.

(** The process comes up exactly if it should: for a command line of flags that
    names a socket, a memory budget that some meter can enforce, and a path that can
    be bound.  It then runs with what the line means, the last of each flag, the
    admission line drawn for that host reserve, and as many runs at a time as there
    are cores; otherwise it exits after one line that says why. *)
Theorem startup_comes_up debug h args :
  let '(p, out) := startup debug h args in
  (is_Some out <-> exists fs s, args = command_line fs /\ Forall flag_ok fs /\ socket_of fs = Some s /\
     (0 < warm_budget_bytes (means fs) -> is_Some (usage h) \/ is_Some (rss h)) /\ bind h s = None) /\
  (forall budget line e, out = Some (budget, line, e) -> exists fs, args = command_line fs /\ Forall flag_ok fs /\
     budget = warm_budget_bytes (means fs) /\ HOST_RESERVE_BYTES p = host_reserve_bytes (means fs) /\ IDLE_SETTLE_SECS p = idle_settle_secs (means fs) /\
     line = match limit_info h with Some (limit, _) => line_from limit (host_reserve_bytes (means fs)) | None => 0 end /\
     Warm.slot_allowance (warm e) = Z.min (default 1 (cores h)) u32_max) /\
  exists lines, stderr p = (match oom_score h with Some e => ["[iso4-v8] could not set oom_score_adj: " +:+ e] | None => [] end) ++ lines /\
    length lines = match out with Some _ => 2%nat | None => 1%nat end.
Proof.
  unfold startup. destruct (parse_args_iff debug args) as [Hok _].
  assert (Hs : stderr (prefer_this_process_as_victim h process_new) =
    match oom_score h with Some e => ["[iso4-v8] could not set oom_score_adj: " +:+ e] | None => [] end)
    by (unfold prefer_this_process_as_victim; by destruct (oom_score h)).
  destruct (parse_args debug args) as [[[[s w] r] i]|line].
  - destruct (proj1 (Hok s w r i) eq_refl) as (fs & Ha & Hfs & Hm).
    assert (Huniq : forall fs' s', args = command_line fs' -> Forall flag_ok fs' -> socket_of fs' = Some s' -> means fs' = mk_Args (Some s) w r i /\ s' = s).
    { intros fs' s' Ha' Hfs' Hs'. assert (Hm' : means fs' = mk_Args (Some s') (warm_budget_bytes (means fs')) (host_reserve_bytes (means fs')) (idle_settle_secs (means fs')))
        by by rewrite <- Hs'.
      assert (E := proj2 (Hok _ _ _ _) (ex_intro _ fs' (conj Ha' (conj Hfs' Hm')))). injection E as -> -> -> ->. by split. }
    assert (Hmeter : (0 <? w) && negb (bool_decide (is_Some (usage h))) && negb (bool_decide (is_Some (rss h))) = false <->
      (0 < w -> is_Some (usage h) \/ is_Some (rss h))).
    { destruct (Z.ltb_spec 0 w); cbn; [|split; [lia|done]]. repeat case_bool_decide; cbn; intuition (done || lia). }
    destruct (_ && _ && _) eqn:Eb; [|destruct (bind h s) as [e|] eqn:Ebind]; cbn [fst snd stderr eprintln seed_slot_allowance set_idle_settle_secs set_host_reserve_bytes].
    + split_and!; [|done|eexists; by rewrite Hs]. split; [by intros []|]. intros (fs' & s' & Ha' & Hfs' & Hs' & Hb & _).
      destruct (Huniq fs' s') as [Hm' ->]; [done..|]. rewrite Hm' in Hb. apply Hmeter in Hb. congruence.
    + split_and!; [|done|eexists; by rewrite Hs]. split; [by intros []|]. intros (fs' & s' & Ha' & Hfs' & Hs' & _ & Hb).
      destruct (Huniq fs' s') as [_ ->]; [done..|]. congruence.
    + split_and!.
      * split; [|by eexists]. intros _. exists fs, s. assert (Hso : socket_of fs = Some s) by apply (f_equal socket Hm).
        split_and!; try done. rewrite Hm. by apply Hmeter.
      * intros budget line e [= <- <- <-]. exists fs. rewrite Hm. split_and!; try done; cbn.
        -- by destruct (limit_info h) as [[limit source]|].
        -- destruct (Z.leb_spec (default 1 (cores h)) u32_max); lia.
      * eexists. rewrite Hs, <- app_assoc. by split.
  - cbn [fst snd stderr eprintln]. split_and!; [|done|eexists; by rewrite Hs]. split; [by intros []|]. intros (fs & s & Ha & Hfs & Hs' & _).
    assert (Hm : means fs = mk_Args (Some s) (warm_budget_bytes (means fs)) (host_reserve_bytes (means fs)) (idle_settle_secs (means fs))) by by rewrite <- Hs'.
    discriminate (proj2 (Hok _ _ _ _) (ex_intro _ fs (conj Ha (conj Hfs Hm)))).
Qed.

(** A process with a budget comes up where the container can be read, and not where
    nothing can. *)
Definition small_host (metered : bool) : Host :=
  mk_Host None (if metered then Some (64 * MB) else None) None (Some (1024 * MB, "cgroup v2")) (fun _ => None) (Some 4).
Definition small_line : list string := ["--socket"; "/a"; "--warm-budget-bytes"; "7"; "--socket"; "/b"; "--warm-budget-bytes"; "+100"].

Lemma startup_comes_up_witness :
  (let '(p, out) := startup (fun s => s) (small_host true) small_line in
   is_Some out /\ (exists line e, out = Some (100, line, e) /\ Warm.slot_allowance (warm e) = 4)) /\
  (let '(p, out) := startup (fun s => s) (small_host false) small_line in out = None /\ length (stderr p) = 1%nat).
Proof.
  split.
  - pose proof (startup_comes_up (fun s => s) (small_host true) small_line) as H. destruct (startup _ _ _) as [p out] eqn:E. destruct H as (H1 & H2 & _).
    assert (Ho : is_Some out).
    { apply H1. exists [FSocket "/a"; FNumber "--warm-budget-bytes" "7" 7; FSocket "/b"; FNumber "--warm-budget-bytes" "+100" 100], "/b".
      split_and!; try done; [|by left]. repeat constructor; set_solver. }
    split; [done|]. destruct Ho as [[[b line] e] ->]. destruct (H2 b line e eq_refl) as (_ & _ & _ & _ & _ & _ & _ & Hslots).
    exists line, e. split; [|by rewrite Hslots]. vm_compute in E. injection E as _ <- <- <-. reflexivity.
  - pose proof (startup_comes_up (fun s => s) (small_host false) small_line) as H. destruct (startup _ _ _) as [p out] eqn:E.
    destruct H as (_ & _ & lines & Hl & Hn). assert (out = None) as -> by (vm_compute in E; by injection E as _ <-). split; [done|]. by rewrite Hl.
Defined.

(** The connections served are those accepted before the first failure. *)
Lemma accept_loop_serves {C} (incoming : list (result string C)) p :
  exists served rest, incoming = map Ok served ++ rest /\ snd (accept_loop incoming p) = served /\
    match rest with
    | [] => fst (accept_loop incoming p) = p
    | Err e :: _ => fst (accept_loop incoming p) = eprintln p ("[iso4-v8] accept error: " +:+ e)
    | Ok _ :: _ => False
    end.
Proof.
  induction incoming as [|[c|e] incoming IH]; cbn; [by exists [], []| |by exists [], (Err e :: incoming)].
  destruct IH as (served & rest & -> & Hs & Hr). exists (c :: served), rest. cbn.
  destruct (accept_loop (map Ok served ++ rest) p) as [p' cs]. cbn in *. by subst cs.
Qed.

(** ** The line of an abort *)

Definition run_ok (x : OomRun) : Prop := match x with OomNone => True | OomRunning id | OomColdStart id => is_u32 id end.

Lemma tagged tag id : is_u32 id -> Z.lor (Z.shiftl tag 32) id = tag * 2 ^ 32 + id.
Proof.
  intros [H0 H1]. rewrite <- (Z.shiftl_mul_pow2 tag 32) by lia. rewrite <- Z.add_lor_land.
  assert (Hid : Z.land id (Z.ones 32) = id) by (rewrite Z.land_ones by lia; apply Z.mod_small; unfold u32_max in H1; lia).
  rewrite <- Hid at 3. rewrite (Z.land_comm id), Z.land_assoc, (Z.land_ones (Z.shiftl tag 32)) by lia.
  rewrite Z.shiftl_mul_pow2, Z_mod_mult by lia. by rewrite Z.land_0_l, Z.add_0_r.
Qed.

Lemma tag_parts tag id : is_u32 id ->
  Z.shiftr (Z.lor (Z.shiftl tag 32) id) 32 = tag /\ as_u32 (Z.lor (Z.shiftl tag 32) id) = id.
Proof.
  intros Hid. rewrite tagged, Z.shiftr_div_pow2 by (done || lia). unfold as_u32. change (u32_max + 1) with (2 ^ 32).
  assert (0 <= id < 2 ^ 32) by (unfold is_u32, u32_max in Hid; lia). split.
  - rewrite Z.div_add_l, Z.div_small by lia. lia.
  - by rewrite Z.add_comm, Z_mod_plus_full, Z.mod_small by lia.
Qed.

Lemma label_set_run r x : run_ok x -> label (set_run r x) = mk_OomRunLabel (o_prefix_id r) x.
Proof.
  intros Hx. unfold label. cbn [set_run o_prefix_id run]. destruct x as [|id|id]; [done|..]; destruct (tag_parts 1 id Hx) as [H1 H2];
    destruct (tag_parts 2 id Hx) as [H3 H4]; by rewrite ?H1, ?H2, ?H3, ?H4.
Qed.

(** What the line says in full. *)
Definition oom_text (l : option OomRunLabel) (is_heap_oom : bool) (detail location : option (list byte)) : list byte :=
  concat (map (fun ps => concat (map as_bytes ps)) (oom_pieces l is_heap_oom detail location)).

(** A buffer of [n] bytes that has taken [out] of the text. *)
Definition holds_prefix (n : nat) (c : Cursor) (out : list byte) : Prop := filled c = take n out /\ (room c = n - length out)%nat.

Lemma write_all_prefix n c out bs : holds_prefix n c out ->
  let '(c', ok) := write_all c bs in holds_prefix n c' (out ++ bs) /\ (ok = false -> room c' = 0%nat /\ (n <= length (out ++ bs))%nat).
Proof.
  intros [Hf Hr]. unfold write_all, holds_prefix. cbn. rewrite Hf, Hr, length_app. split; [split|].
  - by rewrite take_app.
  - lia.
  - case_bool_decide; [done|]. lia.
Qed.

Lemma full_prefix n c out more : holds_prefix n c out -> (n <= length out)%nat -> holds_prefix n c (out ++ more).
Proof. intros [Hf Hr] Hn. split; [rewrite take_app_le by lia; done|]. rewrite length_app. lia. Qed.

Lemma write_fmt_prefix n pieces c out : holds_prefix n c out -> holds_prefix n (write_fmt c pieces) (out ++ concat (map as_bytes pieces)).
Proof.
  revert c out. induction pieces as [|piece pieces IH]; intros c out H; cbn [write_fmt map concat]; [by rewrite app_nil_r|].
  pose proof (write_all_prefix n c out (as_bytes piece) H) as Hw. destruct (write_all c (as_bytes piece)) as [c' ok]. destruct Hw as [Hw Hfull].
  rewrite app_assoc. destruct ok; [by apply IH|]. apply full_prefix; [done|]. by apply Hfull.
Qed.

Lemma format_oom_line_prefix cap l is_heap_oom detail location :
  format_oom_line cap l is_heap_oom detail location = take cap (oom_text l is_heap_oom detail location).
Proof.
  unfold format_oom_line, oom_text. generalize (oom_pieces l is_heap_oom detail location). intros groups.
  assert (H : forall c out, holds_prefix cap c out -> holds_prefix cap (fold_left write_fmt groups c) (out ++ concat (map (fun ps => concat (map as_bytes ps)) groups))).
  { induction groups as [|g groups IH]; intros c out Hc; cbn [fold_left map concat]; [by rewrite app_nil_r|].
    rewrite app_assoc. by apply IH, write_fmt_prefix. }
  apply (H (mk_Cursor [] cap) []). split; cbn; [by destruct cap|lia].
Qed.

(** What happens on the way to an abort: an isolate's handler, or the process-wide
    callback. *)
Inductive oom_event :=
  | IsolateOom (prefix_id : option Z) (first : OomRun) (later : list OomRun) (is_heap_oom : bool) (detail location : option (list byte))
  | ProcessOom (is_heap_oom : bool) (detail location : option (list byte)).

Definition oom_exec (s : OomState) (e : oom_event) : OomState :=
  match e with
  | IsolateOom p first later heap detail location =>
    oom_error_cb s (Some (fold_left set_run later (record_new (mk_OomRunLabel p first)))) heap detail location
  | ProcessOom heap detail location => fatal_memory_error_cb s heap detail location
  end.

Definition event_ok (e : oom_event) : Prop := match e with IsolateOom _ first later _ _ _ => Forall run_ok (first :: later) | ProcessOom _ _ _ => True end.

(** The line that should be there: the run the isolate was marked with last. *)
Definition line_of (e : oom_event) : list (list byte) :=
  match e with
  | IsolateOom p first later heap detail location => [take 1024 (oom_text (Some (mk_OomRunLabel p (default first (last later)))) heap detail location)]
  | ProcessOom _ _ _ => []
  end.

Lemma label_marked first later p : Forall run_ok (first :: later) ->
  label (fold_left set_run later (record_new (mk_OomRunLabel p first))) = mk_OomRunLabel p (default first (last later)).
Proof.
  intros H. assert (K : forall later r x, Forall run_ok (x :: later) -> label (fold_left set_run later (set_run r x)) = mk_OomRunLabel (o_prefix_id r) (default x (last later))).
  { clear. induction later as [|y later IH]; intros r x [Hx Hl]%Forall_cons; [by apply label_set_run|].
    cbn [fold_left]. rewrite IH by done. cbn [set_run o_prefix_id]. f_equal. rewrite last_cons. by destruct (last later). }
  by apply (K later (mk_OomRecord p 0) first).
Qed.

(** The line of an out-of-memory abort names what was executing.  Whatever an
    isolate's record has been marked with - no run, a run, a cold start, with any run
    id - its handler writes the text of its prefix and of the last mark, cut to the
    buffer of 1024 bytes and to nothing else; the process-wide callback writes a line
    without a run only if no line was written before it, so that it never contradicts
    a handler's. *)
Theorem oom_line_names_run es : Forall event_ok es ->
  oom_lines (fold_left oom_exec es oom_new) =
    match es with ProcessOom heap detail location :: _ => [take 1024 (oom_text None heap detail location)] | _ => [] end ++ concat (map line_of es).
Proof.
  intros Hes. assert (K : forall es s, Forall event_ok es -> OOM_LINE_WRITTEN s = true ->
    oom_lines (fold_left oom_exec es s) = oom_lines s ++ concat (map line_of es)).
  { clear. induction es as [|e es IH]; intros s Hes Hs; cbn [fold_left map concat]; [by rewrite app_nil_r|]. apply Forall_cons in Hes as [He Hes].
    rewrite app_assoc. destruct e as [p first later heap detail location|heap detail location]; (rewrite IH; [f_equal|done|]).
    - cbn [oom_exec oom_error_cb write_oom_line oom_lines line_of fmap option_fmap option_map]. by rewrite format_oom_line_prefix, label_marked.
    - done.
    - cbn [oom_exec line_of]. unfold fatal_memory_error_cb. by rewrite Hs, app_nil_r.
    - unfold oom_exec, fatal_memory_error_cb. by rewrite Hs. }
  destruct es as [|e es]; [done|]. apply Forall_cons in Hes as [He Hes]. cbn [fold_left map concat].
  destruct e as [p first later heap detail location|heap detail location]; (rewrite K; [|done|done]).
  - cbn [oom_exec oom_error_cb write_oom_line oom_lines line_of fmap option_fmap option_map]. by rewrite format_oom_line_prefix, label_marked.
  - cbn [oom_exec fatal_memory_error_cb oom_new OOM_LINE_WRITTEN write_oom_line oom_lines line_of app]. by rewrite format_oom_line_prefix.
Qed.

(** A cold start, then its run; V8 calls the process-wide callback too. *)
Lemma oom_line_names_run_witness :
  oom_lines (fold_left oom_exec [IsolateOom (Some 3) (OomColdStart 9) [OomRunning 9; OomNone; OomRunning 4294967295] true None (Some (as_bytes "Reached heap limit"));
      ProcessOom true None None] oom_new) =
    [as_bytes ("[iso4-v8] fatal: V8 out of memory (heap) in run 4294967295 of prefix 3: Reached heap limit — aborting the process" +:+ newline)].
Proof.
  assert (H : Forall event_ok [IsolateOom (Some 3) (OomColdStart 9) [OomRunning 9; OomNone; OomRunning 4294967295] true None (Some (as_bytes "Reached heap limit"));
      ProcessOom true None None]) by (repeat constructor; cbn; unfold u32_max; lia).
  rewrite (oom_line_names_run _ H). vm_compute. reflexivity.
Defined.
