(* ===== verification/Webcodec.v ===== *)
(** * The host-type codec ([crates/core/src/webcodec.rs])

    The payload of a [Headers], [Request] or [Response] that leaves the sandbox,
    next to the host's reader ([web-codec.ts]), and the scan for stamped
    descriptors in what enters it.  V8's serializer is the interface [V8Wire]:
    its integers and values as bytes, and that what was written is read back.
    [Rehydrate] holds the other direction. *)

From S2P Require Import Prelude Bytes Text StreamPayloads Errors.
From S2P Require Streams.
Import Streams.

(** ** Tags *)

Definition TAG_INVALID : Z := 0.
Definition TAG_HEADERS : Z := 1.
Definition TAG_REQUEST : Z := 2.
Definition TAG_RESPONSE : Z := 3.
Definition TAG_READABLE_STREAM : Z := 4.
Definition TAG_WRITABLE_STREAM : Z := 5.
Definition TAG_WEB_SOCKET : Z := 6.
Definition TAG_ABORT_SIGNAL : Z := 7.

Definition tag_name (tag : Z) : string :=
  if tag =? TAG_HEADERS then "Headers" else if tag =? TAG_REQUEST then "Request" else if tag =? TAG_RESPONSE then "Response"
  else if tag =? TAG_READABLE_STREAM then "ReadableStream" else if tag =? TAG_WRITABLE_STREAM then "WritableStream"
  else if tag =? TAG_WEB_SOCKET then "WebSocket" else if tag =? TAG_ABORT_SIGNAL then "AbortSignal" else "unknown type".

Definition MAX_HEADER_ENTRIES : Z := 1024.

Definition bad (what : string) : CodecError := Malformed ("host-type payload is malformed: " +:+ what).
Definition malformed {A} (what : string) : result CodecError A := Err (bad what).
Definition unsupported {A} (what : string) : result CodecError A := Err (Unsupported what).

(** ** Values and V8's serializer *)

(** The values an entry list or a body may be, as far as the codec tells them
    apart; [WBytes]: a [Uint8Array]; [WOther]: anything else. *)
Inductive WVal :=
  | WUndefined
  | WNull
  | WString (s : string)
  | WBytes (bs : list byte)
  | WArray (items : list WVal)
  | WOther (k : Z).

(** [ValueSerializerHelper], [ValueDeserializerHelper] and Node's [Deserializer].
    [write_value] may be refused; [serialize_handle] and [deserialize_handle] are
    the blob of [{ bodyStream: id }], or V8's refusal to build or write that object,
    and the number read from one ([None]: the read throws). *)
Class V8Wire := {
  write_uint32 : Z -> list byte;
  read_uint32 : list byte -> option (Z * list byte);
  write_value : WVal -> option (list byte);
  read_value : list byte -> option (WVal * list byte);
  serialize_handle : Z -> option (list byte);
  deserialize_handle : list byte -> option (option Z);
}.

Class V8WireOk `{V8Wire} : Prop := {
  uint32_law n rest : is_u32 n -> read_uint32 (write_uint32 n ++ rest) = Some (n, rest);
  value_law x bs rest : write_value x = Some bs -> read_value (bs ++ rest) = Some (x, rest);
  handle_law id bs : serialize_handle id = Some bs -> bs <> [] /\ zlen bs <= u32_max /\ deserialize_handle bs = Some (Some id);
}.

(** Reading, with the [?] operator. *)
Definition rd (A : Type) : Type := list byte -> result CodecError (A * list byte).
#[export] Instance rd_ret : MRet rd := fun A a bs => Ok (a, bs).
#[export] Instance rd_bind : MBind rd := fun A B f m bs => match m bs with Ok (a, rest) => f a rest | Err e => Err e end.

Definition read_or {A} (read : list byte -> option (A * list byte)) (e : CodecError) : rd A := fun bs =>
  match read bs with Some x => Ok x | None => Err e end.
Definition lift {A} (r : result CodecError A) : rd A := fun bs => match r with Ok a => Ok (a, bs) | Err e => Err e end.

Definition read_raw_bytes (len : Z) (bs : list byte) : option (list byte * list byte) :=
  if len <=? zlen bs then Some (take (Z.to_nat len) bs, drop (Z.to_nat len) bs) else None.

Section Codec.
Context `{V8Wire}.

(** ** Primitives *)

Definition write_bytes (bytes : list byte) : list byte := write_uint32 (as_u32 (zlen bytes)) ++ bytes.

Definition read_bytes : rd (list byte) :=
  len ← read_or read_uint32 (bad "truncated length");
  read_or (read_raw_bytes len) (bad "truncated bytes").

Definition read_string : rd string :=
  bytes ← read_bytes;
  lift (match from_utf8 bytes with Some s => Ok s | None => malformed "string is not valid UTF-8" end).

Definition read_u32 : rd Z := read_or read_uint32 (bad "truncated integer").

(** [value]: the value's string form, [None] if it has none. *)
Definition write_v8_string (value : option string) : result CodecError (list byte) :=
  match value with Some s => Ok (write_bytes (as_bytes s)) | None => malformed "value is not stringifiable" end.

(** ** Headers *)

Definition even_length (l : list WVal) : bool := zlen l mod 2 =? 0.

(** [view]: the instance's flat entry list. *)
Definition encode_headers (view : option (list WVal)) : result CodecError (list byte) :=
  match view with
  | None => malformed "Headers instance has no entry list"
  | Some list =>
    let flat := zlen list in
    if negb (even_length list) then malformed "Headers entry list has an odd length"
    else if MAX_HEADER_ENTRIES <? flat / 2 then
      unsupported ("Headers has " +:+ show (flat / 2) +:+ " entries, exceeding the " +:+ show MAX_HEADER_ENTRIES +:+ " limit")
    else match write_value (WArray list) with
      | Some bs => Ok bs
      | None => malformed "could not write the Headers entry list"
      end
  end.

(** What V8 may refuse when an instance is built. *)
Record Mint := mk_Mint { can_intern : string -> bool; can_make : Z -> bool }.

Definition decode_headers (mint : Mint) : rd (list WVal) :=
  value ← read_or read_value (bad "truncated Headers entry list");
  lift (match value with
    | WArray list =>
      let flat := zlen list in
      if negb (even_length list) then malformed "Headers entry list has an odd length"
      else if MAX_HEADER_ENTRIES <? flat / 2 then
        unsupported ("Headers payload declares " +:+ show (flat / 2) +:+ " entries, exceeding the " +:+ show MAX_HEADER_ENTRIES +:+ " limit")
      else if can_make mint TAG_HEADERS then Ok list else malformed "could not construct Headers"
    | _ => malformed "Headers entry list is not an array"
    end).

(** ** Bodies *)

Definition body_ok (body : WVal) : bool :=
  match body with WUndefined | WNull | WString _ | WBytes _ => true | WArray _ | WOther _ => false end.

Definition bad_body : string :=
  "body must be null, a string, or a Uint8Array — a stream cannot cross the sandbox boundary; buffer it first (await res.arrayBuffer())".

Definition check_body (body : WVal) : result CodecError WVal := if body_ok body then Ok body else unsupported bad_body.

(** The body slot of an instance: a stamped stream object, or any value. *)
Inductive Body := BodyStream (obj : Z) | BodyInline (x : WVal).

(** The executing run's outbound table, with the leg's mode and the turn's token. *)
Record OutLeg := mk_OutLeg { result_mode : bool; leg_token : Z; out_slot : option Outb.OutTableState }.
Definition with_out (leg : OutLeg) (slot : option Outb.OutTableState) : OutLeg := mk_OutLeg (result_mode leg) (leg_token leg) slot.

Definition encode_body (leg : OutLeg) (body : Body) : OutLeg * result CodecError (list byte * option Z) :=
  match body with
  | BodyStream obj =>
    let '(slot, id) := Outb.register_out_stream (result_mode leg) (leg_token leg) (out_slot leg) obj in
    (with_out leg slot,
     match id with
     | Some stream_id =>
       match write_value WNull with Some bs => Ok (bs, Some stream_id) | None => malformed "could not write the body" end
     | None => unsupported "a stream body can only be returned as a session call's result — on this leg, read it first (await res.arrayBuffer()) and pass the bytes"
     end)
  | BodyInline x =>
    (leg, x ← check_body x;
      match write_value x with Some bs => Ok (bs, None) | None => malformed "could not write the body" end)
  end.

Definition write_no_extras : list byte := write_uint32 0.

Definition write_extras (body_stream : option Z) : result CodecError (list byte) :=
  match body_stream with
  | None => Ok write_no_extras
  | Some stream_id =>
    match serialize_handle stream_id with Some bytes => Ok (write_bytes bytes) | None => malformed "could not serialize extras" end
  end.

Definition decode_body : rd WVal := x ← read_or read_value (bad "truncated body"); lift (check_body x).

Definition skip_extras : rd unit := _ ← read_bytes; mret tt.

(** ** Request and Response *)

(** What the views of [webtypes] read of an instance; [rv_headers]: the view of
    its [Headers]. *)
Record RequestView := mk_RequestView { rv_url : option string; rv_method : option string; rv_headers : option (list WVal); rv_body : Body }.
Record ResponseView := mk_ResponseView
  { sv_status : Z; sv_status_text : option string; sv_headers : option (list WVal); sv_body : Body }.

(** [write_head]: what precedes the headers. *)
Definition encode_message (leg : OutLeg) (write_head : result CodecError (list byte)) (headers : option (list WVal)) (body : Body) :
    OutLeg * result CodecError (list byte) :=
  match (h ← write_head; hs ← encode_headers headers; Ok (h ++ hs)) with
  | Err e => (leg, Err e)
  | Ok start =>
    let '(leg, b) := encode_body leg body in
    (leg, '(bs, body_stream) ← b; ex ← write_extras body_stream; Ok (start ++ bs ++ ex))
  end.

Definition encode_request (leg : OutLeg) (view : option RequestView) : OutLeg * result CodecError (list byte) :=
  match view with
  | None => (leg, malformed "Request instance is missing internal state")
  | Some v => encode_message leg (u ← write_v8_string (rv_url v); m ← write_v8_string (rv_method v); Ok (u ++ m)) (rv_headers v) (rv_body v)
  end.

Definition encode_response (leg : OutLeg) (view : option ResponseView) : OutLeg * result CodecError (list byte) :=
  match view with
  | None => (leg, malformed "Response instance is missing internal state")
  | Some v =>
    encode_message leg (t ← write_v8_string (sv_status_text v); Ok (write_uint32 (sv_status v) ++ t)) (sv_headers v) (sv_body v)
  end.

(** An instance the sandbox has been given. *)
Inductive Instance :=
  | IHeaders (list : list WVal)
  | IRequest (url method : string) (headers : list WVal) (body : WVal)
  | IResponse (status : Z) (status_text : string) (headers : list WVal) (body : WVal).

Definition intern (mint : Mint) (s : string) : result CodecError string :=
  if can_intern mint s then Ok s else malformed "could not intern string".

Definition decode_request (mint : Mint) : rd Instance :=
  url ← read_string;
  method ← read_string;
  headers ← decode_headers mint;
  body ← decode_body;
  _ ← skip_extras;
  lift (url ← intern mint url; method ← intern mint method;
    if can_make mint TAG_REQUEST then Ok (IRequest url method headers body) else malformed "could not construct Request").

Definition decode_response (mint : Mint) : rd Instance :=
  status ← read_u32;
  status_text ← read_string;
  headers ← decode_headers mint;
  body ← decode_body;
  _ ← skip_extras;
  lift (status_text ← intern mint status_text;
    if can_make mint TAG_RESPONSE then Ok (IResponse status status_text headers body) else malformed "could not construct Response").

(** ** The registry *)

(** An object V8 routes to the codec: its view under each type. *)
Record HostObject := mk_HostObject {
  headers_view : option (list WVal);
  request_view : option RequestView;
  response_view : option ResponseView;
}.

Definition encode (leg : OutLeg) (obj : HostObject) (tag : Z) : OutLeg * result CodecError (list byte) :=
  let '(leg, r) :=
    if tag =? TAG_HEADERS then (leg, encode_headers (headers_view obj))
    else if tag =? TAG_REQUEST then encode_request leg (request_view obj)
    else if tag =? TAG_RESPONSE then encode_response leg (response_view obj)
    else if tag =? TAG_INVALID then (leg, malformed "refusing to write the reserved invalid tag")
    else (leg, unsupported (tag_name tag +:+ " cannot be serialized by this build")) in
  (leg, bs ← r; Ok (write_uint32 tag ++ bs)).

Definition decode (mint : Mint) : rd Instance :=
  tag ← read_u32;
  if tag =? TAG_HEADERS then (list ← decode_headers mint; mret (IHeaders list))
  else if tag =? TAG_REQUEST then decode_request mint
  else if tag =? TAG_RESPONSE then decode_response mint
  else lift (if tag =? TAG_INVALID then malformed "payload carries the reserved invalid tag"
    else unsupported ("received a " +:+ tag_name tag +:+ " (tag " +:+ show tag +:+ "); this build cannot materialise one")).
End Codec.

(** ** The host's reader ([web-codec.ts]) *)

Inductive HostBody := HText (s : string) | HBytes (bs : list byte) | HStream (id : Z).

(** What the constructors are called with; [HErrorResponse] is [Response.error()]. *)
Inductive HostValue :=
  | HHeaders (entries : list (string * string))
  | HRequest (url method : string) (headers : list (string * string)) (body : option HostBody)
  | HResponse (status : Z) (statusText : string) (headers : list (string * string)) (body : option HostBody)
  | HErrorResponse.

Module Ts.
Section Reader.
Context `{V8Wire}.
(** [toString]: [Buffer.toString('utf8')]; [js_string]: [String(x)]; [binder]:
    whether a stream can be resolved on this leg. *)
Context (toString : list byte -> string) (js_string : WVal -> string) (binder : bool).

(** A thrown error; V8's own are [RangeError]s. *)
Definition throws {A} (message : string) : rd A := fun _ => Err (Unsupported message).

Definition readUint32 : rd Z := read_or read_uint32 (Malformed "ReadUint32() failed").
Definition readRawBytes (len : Z) : rd (list byte) := read_or (read_raw_bytes len) (Malformed "ReadRawBytes() failed").
Definition readValue : rd WVal := read_or read_value (Malformed "ReadValue() failed").

Definition readStr : rd string := len ← readUint32; b ← readRawBytes len; mret (toString b).

Fixpoint pairs (flat : list WVal) : list (string * string) :=
  match flat with name :: value :: flat => (js_string name, js_string value) :: pairs flat | _ => [] end.

Definition readHeaders : rd (list (string * string)) :=
  x ← readValue;
  match x with
  | WArray flat =>
    if negb (even_length flat) then throws "[iso4] Headers entry list is malformed"
    else if MAX_HEADER_ENTRIES <? zlen flat / 2 then
      throws ("[iso4] Headers payload declares " +:+ show (zlen flat / 2) +:+ " entries, exceeding the " +:+ show MAX_HEADER_ENTRIES +:+ " limit")
    else mret (pairs flat)
  | _ => throws "[iso4] Headers entry list is malformed"
  end.

Definition readBody : rd (option HostBody) :=
  body ← readValue;
  match body with
  | WNull | WUndefined => mret None
  | WString s => mret (Some (HText s))
  | WBytes bs => mret (Some (HBytes bs))
  | _ => throws "[iso4] received a body that is neither bytes, a string, nor absent"
  end.

Definition readExtras : rd (option Z) :=
  len ← readUint32;
  if len =? 0 then mret None
  else
    bytes ← readRawBytes len;
    match deserialize_handle bytes with
    | None => throws "[iso4] descriptor extras blob is malformed"
    | Some None => mret None
    | Some (Some id) => if binder then mret (Some id) else throws "[iso4] a stream body arrived on a leg that cannot carry one"
    end.

Definition ascii_upper (s : string) : string :=
  of_bytes (map (fun b => if in_range 97 122 b then z2b (b2z b - 32) else b) (as_bytes s)).

(** No character outside ASCII has an upper case among the letters of these. *)
Definition bodyless (method : string) : bool := bool_decide (ascii_upper method ∈ ["GET"; "HEAD"]%string).

Definition stream_or (bodyStream : option Z) (body : option HostBody) : option HostBody :=
  match bodyStream with Some id => Some (HStream id) | None => body end.

Definition readHostType : rd HostValue :=
  tag ← readUint32;
  if tag =? TAG_HEADERS then (entries ← readHeaders; mret (HHeaders entries))
  else if tag =? TAG_REQUEST then
    (url ← readStr; method ← readStr; headers ← readHeaders; body ← readBody; bodyStream ← readExtras;
     mret (HRequest url method headers (if bodyless method then None else stream_or bodyStream body)))
  else if tag =? TAG_RESPONSE then
    (status ← readUint32; statusText ← readStr; headers ← readHeaders; body ← readBody; bodyStream ← readExtras;
     mret (if status =? 0 then HErrorResponse else HResponse status statusText headers (stream_or bodyStream body)))
  else if tag =? TAG_INVALID then throws "[iso4] payload carries the reserved invalid type tag"
  else throws ("[iso4] received a " +:+ tag_name tag +:+ "; this build cannot materialise one").
End Reader.
End Ts.

(** ** The brand of the session's descriptors *)

Definition BRAND_PREFIX : string := "__iso4_ht_".

(** [{byte:02x}] *)
Definition hex_byte (b : byte) : string := hex_digit (b2z b / 16) +:+ hex_digit (b2z b mod 16).

Definition brand_key_for_token (token : list byte) : string := BRAND_PREFIX +:+ String.concat EmptyString (map hex_byte token).

(** The loop of [might_contain_web_types] from [from] on; the needle is [first]
    and [rest]. *)
Fixpoint scan_from (fuel : nat) (blob : list byte) (first : byte) (rest : list byte) (last_start from : nat) : bool :=
  match fuel with
  | O => false
  | S fuel =>
    match list_find (fun b => b = first) (drop from blob) with
    | None => false
    | Some (offset, _) =>
      let start := (from + offset)%nat in
      if Nat.ltb last_start start then false
      else if bool_decide (take (length rest) (drop (start + 1) blob) = rest) then true
      else scan_from fuel blob first rest last_start (start + 1)
    end
  end.

Definition might_contain_web_types (blob : list byte) (brand_key : string) : bool :=
  match as_bytes brand_key with
  | [] => false
  | first :: rest =>
    let n := S (length rest) in
    if Nat.ltb (length blob) n then false else scan_from (S (length blob)) blob first rest (length blob - n) 0
  end.

(** ** The scan *)

Lemma list_find_none_drop (first : byte) (l : list byte) i c :
  list_find (fun b => b = first) l = None -> l !! i = Some c -> c <> first.
Proof. intros Hn Hi. rewrite list_find_None, Forall_lookup in Hn. by apply (Hn i). Qed.

Lemma scan_from_spec fuel blob first rest from :
  (S (length rest) <= length blob)%nat -> (length blob < fuel + from)%nat ->
  scan_from fuel blob first rest (length blob - S (length rest)) from = true <->
  exists i, (from <= i)%nat /\ take (S (length rest)) (drop i blob) = first :: rest.
Proof.
  intros Hn. revert from. induction fuel as [|fuel IH]; intros from Hf; cbn [scan_from].
  - split; [done|]. intros (i & Hi & Ht). rewrite drop_ge in Ht by lia. done.
  - assert (Hhead : forall i, take (S (length rest)) (drop i blob) = first :: rest ->
        blob !! i = Some first /\ (i <= length blob - S (length rest))%nat /\ take (length rest) (drop (i + 1) blob) = rest).
    { intros i Ht. assert (Hl := f_equal length Ht). rewrite length_take, length_drop in Hl. change (length (first :: rest)) with (S (length rest)) in Hl.
      destruct (drop i blob) as [|b r] eqn:Ed; [done|]. cbn in Ht. injection Ht as -> Ht.
      split; [|split; [lia|]].
      - replace i with (i + 0)%nat by lia. by rewrite <- lookup_drop, Ed.
      - by rewrite <- drop_drop, Ed. }
    destruct (list_find _ _) as [[offset b]|] eqn:E.
    + apply list_find_Some in E as (Hb & -> & Hmin). rewrite lookup_drop in Hb.
      assert (Hskip : forall i, (from <= i)%nat -> take (S (length rest)) (drop i blob) = first :: rest -> (from + offset <= i)%nat).
      { intros i Hi Ht. apply Hhead in Ht as (Ht & _). destruct (Nat.lt_ge_cases i (from + offset)) as [Hlt|]; [|done].
        exfalso. apply (Hmin (i - from)%nat first); [|lia|done]. rewrite lookup_drop. by replace (from + (i - from))%nat with i by lia. }
      assert (Hlt := lookup_lt_Some _ _ _ Hb).
      destruct (Nat.ltb_spec (length blob - S (length rest)) (from + offset)) as [Hgt|Hle].
      * split; [done|]. intros (i & Hi & Ht). pose proof (Hskip i Hi Ht). apply Hhead in Ht. lia.
      * case_bool_decide as Hr.
        -- split; [|done]. intros _. exists (from + offset)%nat. split; [lia|].
           rewrite (drop_S blob first (from + offset) Hb). cbn. by replace (S (from + offset)) with (from + offset + 1)%nat by lia; rewrite Hr.
        -- rewrite IH by lia. split; intros (i & Hi & Ht); exists i; (split; [|done]).
           ++ lia.
           ++ pose proof (Hskip i Hi Ht) as Hge. apply Hhead in Ht as (_ & _ & Ht).
              destruct (decide (i = (from + offset)%nat)) as [->|]; [done|lia].
    + split; [done|]. intros (i & Hi & Ht). apply Hhead in Ht as (Ht & _). exfalso.
      apply (list_find_none_drop first (drop from blob) (i - from) first E); [|done].
      rewrite lookup_drop. by replace (from + (i - from))%nat with i by lia.
Qed.

Lemma might_contain_spec blob key :
  key <> EmptyString ->
  might_contain_web_types blob key = true <-> exists pre suf, blob = pre ++ as_bytes key ++ suf.
Proof.
  intros Hk. unfold might_contain_web_types. destruct (as_bytes key) as [|first rest] eqn:Ek.
  { exfalso. apply Hk. apply as_bytes_inj. by rewrite Ek. }
  destruct (Nat.ltb_spec (length blob) (S (length rest))) as [Hlt|Hge].
  - split; [done|]. intros (pre & suf & ->). rewrite !length_app in Hlt. cbn in Hlt. lia.
  - rewrite scan_from_spec by lia. split.
    + intros (i & _ & Ht). exists (take i blob), (drop (S (length rest)) (drop i blob)).
      rewrite <- Ht, take_drop, take_drop. done.
    + intros (pre & suf & ->). exists (length pre). split; [lia|].
      rewrite drop_app_len. change (S (length rest)) with (length (first :: rest)). apply take_app_len.
Qed.

(** *** The key of a token *)

Definition unhex (c : Ascii.ascii) : Z := let n := Z.of_nat (Ascii.nat_of_ascii c) in if n <? 58 then n - 48 else n - 87.

Lemma hex_digit_one z : 0 <= z < 16 -> exists c, hex_digit z = String c EmptyString /\ unhex c = z.
Proof.
  intros Hz. eexists. split; [reflexivity|]. unfold unhex.
  assert (Hb : (Z.to_nat (if z <? 10 then 48 + z else 87 + z)%Z < 256)%nat) by (destruct (Z.ltb_spec z 10); lia).
  rewrite Ascii.nat_ascii_embedding by done. destruct (Z.ltb_spec z 10);
    rewrite Z2Nat.id by lia; [destruct (Z.ltb_spec (48 + z) 58)|destruct (Z.ltb_spec (87 + z) 58)]; lia.
Qed.

Lemma concat_cons (s : string) l : String.concat EmptyString (s :: l) = s +:+ String.concat EmptyString l.
Proof. destruct l as [|t l]; [|done]. apply as_bytes_inj. rewrite as_bytes_app. change (as_bytes (String.concat EmptyString [])) with ([] : list byte). by rewrite app_nil_r. Qed.

Lemma hex_bytes_inj t t' : String.concat EmptyString (map hex_byte t) = String.concat EmptyString (map hex_byte t') -> t = t'.
Proof.
  assert (Hb : forall b, exists c d, hex_byte b = String c (String d EmptyString) /\ b2z b = 16 * unhex c + unhex d).
  { intros b. pose proof (b2z_range b). unfold hex_byte.
    destruct (hex_digit_one (b2z b / 16)) as (c & -> & Hc); [split; [apply Z.div_pos|apply Z.div_lt_upper_bound]; lia|].
    destruct (hex_digit_one (b2z b mod 16)) as (d & -> & Hd); [apply Z.mod_pos_bound; lia|].
    exists c, d. split; [done|]. rewrite Hc, Hd. apply Z_div_mod_eq_full. }
  revert t'. induction t as [|b t IH]; intros [|b' t']; [done| | |]; cbn [map]; rewrite ?concat_cons.
  - destruct (Hb b') as (c & d & -> & _). done.
  - destruct (Hb b) as (c & d & -> & _). done.
  - destruct (Hb b) as (c & d & -> & Hz), (Hb b') as (c' & d' & -> & Hz'). cbn. intros [= <- <- Ht].
    f_equal; [apply b2z_inj; lia|by apply IH].
Qed.

(** Only what carries the session's token is looked at: the scan answers yes
    exactly for the blobs that contain the brand key of the token as it is, so a
    stamped descriptor is never missed and a blob without the key never walked; and
    different tokens have different keys. *)
Theorem scan_finds_the_key token blob :
  (might_contain_web_types blob (brand_key_for_token token) = true <->
   exists pre suf, blob = pre ++ as_bytes (brand_key_for_token token) ++ suf) /\
  forall token', brand_key_for_token token' = brand_key_for_token token -> token' = token.
Proof.
  split; [by apply might_contain_spec|]. intros token' Hk. apply hex_bytes_inj. unfold brand_key_for_token in Hk.
  apply (f_equal as_bytes) in Hk. rewrite !as_bytes_app in Hk. apply app_inv_head in Hk. by apply as_bytes_inj.
Qed.

(** ** Round trips *)

Lemma rd_bind_ok {A B} (m : rd A) (f : A -> rd B) bs a rest : m bs = Ok (a, rest) -> (m ≫= f) bs = f a rest.
Proof. unfold mbind, rd_bind. by intros ->. Qed.

Section RoundTrip.
Context `{V8WireOk}.

Lemma read_raw_app bs rest : read_raw_bytes (zlen bs) (bs ++ rest) = Some (bs, rest).
Proof.
  unfold read_raw_bytes. destruct (Z.leb_spec (zlen bs) (zlen (bs ++ rest))) as [_|Hlt]; [|rewrite length_app in Hlt; lia].
  by rewrite Nat2Z.id, take_app_len, drop_app_len.
Qed.

Lemma as_u32_len {A} (l : list A) : zlen l <= u32_max -> as_u32 (zlen l) = zlen l /\ is_u32 (zlen l).
Proof. intros Hl. unfold as_u32, is_u32, u32_max in *. split; [apply Z.mod_small|]; lia. Qed.

Lemma read_written_length bs rest : zlen bs <= u32_max -> read_uint32 (write_bytes bs ++ rest) = Some (zlen bs, bs ++ rest).
Proof. intros Hl. unfold write_bytes. rewrite <- app_assoc.
  destruct (as_u32_len bs Hl) as [-> Hu]. by apply uint32_law. Qed.

Lemma read_bytes_written bs rest : zlen bs <= u32_max -> read_bytes (write_bytes bs ++ rest) = Ok (bs, rest).
Proof.
  intros Hl. unfold read_bytes. erewrite rd_bind_ok by (unfold read_or; rewrite read_written_length by done; reflexivity).
  unfold read_or. by rewrite read_raw_app.
Qed.

(** What [to_rust_string_lossy] returns and the length field can hold. *)
Definition text_ok (s : string) : Prop := str_ok s /\ zlen (as_bytes s) <= u32_max.

Lemma read_string_written s rest : text_ok s -> read_string (write_bytes (as_bytes s) ++ rest) = Ok (s, rest).
Proof.
  intros [Hs Hl]. unfold read_string. erewrite rd_bind_ok by (by apply read_bytes_written). unfold lift. by rewrite from_utf8_as_bytes.
Qed.

Lemma read_u32_written n rest : is_u32 n -> read_u32 (write_uint32 n ++ rest) = Ok (n, rest).
Proof. intros Hn. unfold read_u32, read_or. by rewrite uint32_law. Qed.

Lemma encode_headers_ok view bs :
  encode_headers view = Ok bs -> exists l, view = Some l /\ even_length l = true /\ zlen l / 2 <= MAX_HEADER_ENTRIES /\ write_value (WArray l) = Some bs.
Proof.
  unfold encode_headers. destruct view as [l|]; [|done]. destruct (even_length l) eqn:E; [|done]. cbn [negb].
  destruct (Z.ltb_spec MAX_HEADER_ENTRIES (zlen l / 2)); [done|]. destruct (write_value (WArray l)) eqn:Ew; [|done].
  intros [= <-]. by exists l.
Qed.

Lemma decode_headers_written mint l bs rest :
  can_make mint TAG_HEADERS = true -> even_length l = true -> zlen l / 2 <= MAX_HEADER_ENTRIES -> write_value (WArray l) = Some bs ->
  decode_headers mint (bs ++ rest) = Ok (l, rest).
Proof.
  intros Hm He Hl Hw. unfold decode_headers. erewrite rd_bind_ok by (unfold read_or; rewrite (value_law _ _ _ Hw); reflexivity).
  unfold lift. cbn. rewrite He. cbn [negb]. destruct (Z.ltb_spec MAX_HEADER_ENTRIES (zlen l / 2)); [lia|]. by rewrite Hm.
Qed.

(** The handle a body is given, and what the two readers make of the body. *)
Definition handle_of (leg : OutLeg) (body : Body) : option Z :=
  match body with
  | BodyStream obj => (Outb.register_out_stream (result_mode leg) (leg_token leg) (out_slot leg) obj).2
  | BodyInline _ => None
  end.
Definition inline_of (body : Body) : WVal := match body with BodyStream _ => WNull | BodyInline x => x end.
Definition host_body (x : WVal) : option HostBody :=
  match x with WString s => Some (HText s) | WBytes bs => Some (HBytes bs) | _ => None end.

Lemma encode_body_ok leg leg' body bs id :
  encode_body leg body = (leg', Ok (bs, id)) ->
  id = handle_of leg body /\ body_ok (inline_of body) = true /\ write_value (inline_of body) = Some bs.
Proof.
  unfold encode_body, handle_of. destruct body as [obj|x]; cbn.
  - destruct (Outb.register_out_stream _ _ _ _) as [slot [i|]]; [|intros [=]]. destruct (write_value WNull) eqn:Ew; intros [= <- <- <-].
    by split.
  - unfold check_body. destruct (body_ok x) eqn:Eb; cbn; [|intros [=]]. destruct (write_value x) eqn:Ew; intros [= <- <- <-]. by split.
Qed.

Lemma decode_body_written x bs rest : body_ok x = true -> write_value x = Some bs -> decode_body (bs ++ rest) = Ok (x, rest).
Proof.
  intros Hb Hw. unfold decode_body. erewrite rd_bind_ok by (unfold read_or; rewrite (value_law _ _ _ Hw); reflexivity).
  unfold lift, check_body. by rewrite Hb.
Qed.

Lemma read_extras_written id bs rest :
  write_extras id = Ok bs -> skip_extras (bs ++ rest) = Ok (tt, rest).
Proof.
  unfold write_extras, skip_extras. destruct id as [id|].
  - destruct (serialize_handle id) as [h|] eqn:Eh; [|done]. intros [= <-]. destruct (handle_law _ _ Eh) as (_ & Hl & _).
    by erewrite rd_bind_ok by (by apply read_bytes_written).
  - intros [= <-]. replace write_no_extras with (write_bytes []) by (unfold write_bytes, write_no_extras; by rewrite app_nil_r).
    by erewrite rd_bind_ok by (by apply read_bytes_written).
Qed.

(** *** The host *)

Context (toString : list byte -> string) (js_string : WVal -> string) (binder : bool).
Context (toString_law : forall s, str_ok s -> toString (as_bytes s) = s).

Lemma readUint32_written n rest : is_u32 n -> Ts.readUint32 (write_uint32 n ++ rest) = Ok (n, rest).
Proof. intros Hn. unfold Ts.readUint32, read_or. by rewrite uint32_law. Qed.

Lemma readStr_written s rest : text_ok s -> Ts.readStr toString (write_bytes (as_bytes s) ++ rest) = Ok (s, rest).
Proof.
  intros [Hs Hl]. unfold Ts.readStr. erewrite rd_bind_ok by (unfold Ts.readUint32, read_or; rewrite read_written_length by done; reflexivity).
  erewrite rd_bind_ok by (unfold Ts.readRawBytes, read_or; rewrite read_raw_app; reflexivity). by rewrite toString_law.
Qed.

Lemma readHeaders_written l bs rest :
  even_length l = true -> zlen l / 2 <= MAX_HEADER_ENTRIES -> write_value (WArray l) = Some bs ->
  Ts.readHeaders js_string (bs ++ rest) = Ok (Ts.pairs js_string l, rest).
Proof.
  intros He Hl Hw. unfold Ts.readHeaders. erewrite rd_bind_ok by (unfold Ts.readValue, read_or; rewrite (value_law _ _ _ Hw); reflexivity).
  cbn. rewrite He. cbn [negb]. destruct (Z.ltb_spec MAX_HEADER_ENTRIES (zlen l / 2)); [lia|done].
Qed.

Lemma readBody_written x bs rest : body_ok x = true -> write_value x = Some bs -> Ts.readBody (bs ++ rest) = Ok (host_body x, rest).
Proof.
  intros Hb Hw. unfold Ts.readBody. erewrite rd_bind_ok by (unfold Ts.readValue, read_or; rewrite (value_law _ _ _ Hw); reflexivity).
  by destruct x.
Qed.

Lemma readExtras_written id bs rest :
  id = None \/ binder = true -> write_extras id = Ok bs -> Ts.readExtras binder (bs ++ rest) = Ok (id, rest).
Proof.
  intros Hb. unfold write_extras, Ts.readExtras. destruct id as [id|].
  - destruct Hb as [|Hb]; [done|]. destruct (serialize_handle id) as [h|] eqn:Eh; [|done]. intros [= <-].
    destruct (handle_law _ _ Eh) as (Hne & Hl & Hd).
    erewrite rd_bind_ok by (unfold Ts.readUint32, read_or; rewrite read_written_length by done; reflexivity).
    destruct (Z.eqb_spec (zlen h) 0) as [Hz|_]; [destruct h; [done|cbn in Hz; lia]|].
    erewrite rd_bind_ok by (unfold Ts.readRawBytes, read_or; rewrite read_raw_app; reflexivity). rewrite Hd, Hb. done.
  - intros [= <-]. erewrite rd_bind_ok by (apply readUint32_written; unfold is_u32, u32_max; lia). done.
Qed.

(** *** Whole objects *)

(** What the host should make of an object, and what the sandbox would, had it
    been sent there. *)
Definition host_value (leg : OutLeg) (obj : HostObject) (tag : Z) : option HostValue :=
  if tag =? TAG_HEADERS then (l ← headers_view obj; Some (HHeaders (Ts.pairs js_string l)))
  else if tag =? TAG_REQUEST then
    (v ← request_view obj; url ← rv_url v; method ← rv_method v; l ← rv_headers v;
     Some (HRequest url method (Ts.pairs js_string l)
       (if Ts.bodyless method then None else Ts.stream_or (handle_of leg (rv_body v)) (host_body (inline_of (rv_body v))))))
  else if tag =? TAG_RESPONSE then
    (v ← response_view obj; text ← sv_status_text v; l ← sv_headers v;
     Some (if sv_status v =? 0 then HErrorResponse
       else HResponse (sv_status v) text (Ts.pairs js_string l) (Ts.stream_or (handle_of leg (sv_body v)) (host_body (inline_of (sv_body v))))))
  else None.

Definition sandbox_value (obj : HostObject) (tag : Z) : option Instance :=
  if tag =? TAG_HEADERS then (l ← headers_view obj; Some (IHeaders l))
  else if tag =? TAG_REQUEST then
    (v ← request_view obj; url ← rv_url v; method ← rv_method v; l ← rv_headers v; Some (IRequest url method l (inline_of (rv_body v))))
  else if tag =? TAG_RESPONSE then
    (v ← response_view obj; text ← sv_status_text v; l ← sv_headers v; Some (IResponse (sv_status v) text l (inline_of (sv_body v))))
  else None.

(** The stream handle an object is sent with. *)
Definition object_handle (leg : OutLeg) (obj : HostObject) (tag : Z) : option Z :=
  if tag =? TAG_REQUEST then v ← request_view obj; handle_of leg (rv_body v)
  else if tag =? TAG_RESPONSE then v ← response_view obj; handle_of leg (sv_body v)
  else None.

Definition views_ok (obj : HostObject) : Prop :=
  (forall v, request_view obj = Some v -> forall s, rv_url v = Some s \/ rv_method v = Some s -> text_ok s) /\
  (forall v, response_view obj = Some v -> is_u32 (sv_status v) /\ forall s, sv_status_text v = Some s -> text_ok s).

Lemma encode_message_ok leg leg' head headers body bs :
  encode_message leg head headers body = (leg', Ok bs) ->
  exists h l hs b ex, head = Ok h /\ headers = Some l /\ even_length l = true /\ zlen l / 2 <= MAX_HEADER_ENTRIES /\
    write_value (WArray l) = Some hs /\ body_ok (inline_of body) = true /\ write_value (inline_of body) = Some b /\
    write_extras (handle_of leg body) = Ok ex /\ bs = h ++ hs ++ b ++ ex.
Proof.
  unfold encode_message. destruct head as [h|e]; cbn; [|intros [=]]. destruct (encode_headers headers) as [hs|e] eqn:Eh; cbn; [|intros [=]].
  destruct (encode_body leg body) as [leg1 r] eqn:Eb. destruct r as [[b id]|e]; cbn; [|intros [=]].
  destruct (encode_body_ok _ _ _ _ _ Eb) as (-> & Hb & Hw). destruct (write_extras (handle_of leg body)) as [ex|e] eqn:Ex; cbn; [|intros [=]].
  intros [= <- <-]. destruct (encode_headers_ok _ _ Eh) as (l & -> & He & Hl & Hh).
  exists h, l, hs, b, ex. rewrite <- !app_assoc. by repeat split.
Qed.

Context (mint : Mint) (mint_intern : forall s, can_intern mint s = true) (mint_make : forall t, can_make mint t = true).

Lemma request_written leg leg' v bs rest :
  (forall s, rv_url v = Some s \/ rv_method v = Some s -> text_ok s) -> encode_request leg (Some v) = (leg', Ok bs) ->
  exists url method l, rv_url v = Some url /\ rv_method v = Some method /\ rv_headers v = Some l /\
    decode_request mint (bs ++ rest) = Ok (IRequest url method l (inline_of (rv_body v)), rest) /\
    (handle_of leg (rv_body v) = None \/ binder = true ->
     (url ← Ts.readStr toString; method ← Ts.readStr toString; headers ← Ts.readHeaders js_string; body ← Ts.readBody;
      bodyStream ← Ts.readExtras binder; mret (HRequest url method headers (if Ts.bodyless method then None else Ts.stream_or bodyStream body)))
       (bs ++ rest) =
     Ok (HRequest url method (Ts.pairs js_string l)
       (if Ts.bodyless method then None else Ts.stream_or (handle_of leg (rv_body v)) (host_body (inline_of (rv_body v)))), rest)).
Proof.
  intros Ht He. cbn in He. destruct (encode_message_ok _ _ _ _ _ _ He) as (h & l & hs & b & ex & Hh & Hl & Hev & Hle & Hw & Hb & Hwb & Hx & ->).
  destruct (rv_url v) as [url|]; [|done]. destruct (rv_method v) as [method|]; [|done]. cbn in Hh. injection Hh as <-.
  assert (Hu : text_ok url) by auto. assert (Hm : text_ok method) by auto. exists url, method, l. rewrite <- !app_assoc.
  split; [done|]. split; [done|]. split; [done|]. split.
  - unfold decode_request. do 2 (erewrite rd_bind_ok by (by apply read_string_written)). erewrite rd_bind_ok by (by apply decode_headers_written).
    erewrite rd_bind_ok by (by apply decode_body_written). erewrite rd_bind_ok by (by eapply read_extras_written).
    unfold lift, intern. by rewrite !mint_intern, mint_make.
  - intros Hbi. do 2 (erewrite rd_bind_ok by (by apply readStr_written)). erewrite rd_bind_ok by (by apply readHeaders_written).
    erewrite rd_bind_ok by (by apply readBody_written). by erewrite rd_bind_ok by (by eapply readExtras_written).
Qed.

Lemma response_written leg leg' v bs rest :
  is_u32 (sv_status v) -> (forall s, sv_status_text v = Some s -> text_ok s) -> encode_response leg (Some v) = (leg', Ok bs) ->
  exists text l, sv_status_text v = Some text /\ sv_headers v = Some l /\
    decode_response mint (bs ++ rest) = Ok (IResponse (sv_status v) text l (inline_of (sv_body v)), rest) /\
    (handle_of leg (sv_body v) = None \/ binder = true ->
     (status ← Ts.readUint32; statusText ← Ts.readStr toString; headers ← Ts.readHeaders js_string; body ← Ts.readBody;
      bodyStream ← Ts.readExtras binder;
      mret (if status =? 0 then HErrorResponse else HResponse status statusText headers (Ts.stream_or bodyStream body))) (bs ++ rest) =
     Ok (if sv_status v =? 0 then HErrorResponse
         else HResponse (sv_status v) text (Ts.pairs js_string l) (Ts.stream_or (handle_of leg (sv_body v)) (host_body (inline_of (sv_body v)))), rest)).
Proof.
  intros Hs Ht He. cbn in He. destruct (encode_message_ok _ _ _ _ _ _ He) as (h & l & hs & b & ex & Hh & Hl & Hev & Hle & Hw & Hb & Hwb & Hx & ->).
  destruct (sv_status_text v) as [text|]; [|done]. cbn in Hh. injection Hh as <-.
  assert (Htx : text_ok text) by auto. exists text, l. rewrite <- !app_assoc. split; [done|]. split; [done|]. split.
  - unfold decode_response. erewrite rd_bind_ok by (by apply read_u32_written). erewrite rd_bind_ok by (by apply read_string_written).
    erewrite rd_bind_ok by (by apply decode_headers_written). erewrite rd_bind_ok by (by apply decode_body_written).
    erewrite rd_bind_ok by (by eapply read_extras_written). unfold lift, intern. by rewrite mint_intern, mint_make.
  - intros Hbi. erewrite rd_bind_ok by (by apply readUint32_written). erewrite rd_bind_ok by (by apply readStr_written).
    erewrite rd_bind_ok by (by apply readHeaders_written). erewrite rd_bind_ok by (by apply readBody_written).
    by erewrite rd_bind_ok by (by eapply readExtras_written).
Qed.

(** C10. What leaves the sandbox as a [Headers], [Request] or [Response] is, to the
    host, that object: whatever the codec writes the host's reader reads back as the
    same type with the same fields, a streamed body as its handle, and stops where
    the payload ends; and the codec's own reader reads back what is inline. *)
Theorem host_objects_roundtrip leg leg' obj tag bs rest :
  views_ok obj -> object_handle leg obj tag = None \/ binder = true -> encode leg obj tag = (leg', Ok bs) ->
  exists h i, host_value leg obj tag = Some h /\ sandbox_value obj tag = Some i /\
    Ts.readHostType toString js_string binder (bs ++ rest) = Ok (h, rest) /\ decode mint (bs ++ rest) = Ok (i, rest).
Proof.
  intros [Hq Hp] Hbi He. unfold encode, host_value, sandbox_value, object_handle, Ts.readHostType, decode in *.
  assert (Htag : tag = TAG_HEADERS \/ tag = TAG_REQUEST \/ tag = TAG_RESPONSE).
  { destruct (Z.eqb_spec tag TAG_HEADERS); [auto|]. destruct (Z.eqb_spec tag TAG_REQUEST); [auto|].
    destruct (Z.eqb_spec tag TAG_RESPONSE); [auto|]. destruct (tag =? TAG_INVALID); discriminate He. }
  destruct Htag as [-> | [-> | ->]]; cbn [Z.eqb TAG_HEADERS TAG_REQUEST TAG_RESPONSE Pos.eqb] in *.
  - destruct (encode_headers (headers_view obj)) as [hs|e] eqn:Eh; cbn in He; [|discriminate He]. injection He as _ <-.
    destruct (encode_headers_ok _ _ Eh) as (l & -> & Hev & Hle & Hw). rewrite <- app_assoc. do 2 eexists. do 2 (split; [reflexivity|]). split.
    + erewrite rd_bind_ok by (by apply readUint32_written). cbn. by erewrite rd_bind_ok by (by apply readHeaders_written).
    + erewrite rd_bind_ok by (by apply read_u32_written). cbn. by erewrite rd_bind_ok by (by apply decode_headers_written).
  - destruct (request_view obj) as [v|]; [|discriminate He]. destruct (encode_request leg (Some v)) as [leg1 [b|e]] eqn:Eq; cbn in He; [|discriminate He].
    injection He as _ <-. destruct (request_written leg leg1 v b rest (Hq v eq_refl) Eq) as (url & method & l & Hu & Hm & Hl & Hd & Hh).
    cbn. rewrite Hu, Hm, Hl. do 2 eexists. do 2 (split; [reflexivity|]). rewrite <- app_assoc. split.
    + erewrite rd_bind_ok by (by apply readUint32_written). exact (Hh Hbi).
    + erewrite rd_bind_ok by (by apply read_u32_written). exact Hd.
  - destruct (response_view obj) as [v|]; [|discriminate He]. destruct (encode_response leg (Some v)) as [leg1 [b|e]] eqn:Eq; cbn in He; [|discriminate He].
    injection He as _ <-. destruct (Hp v eq_refl) as [Hst Htx].
    destruct (response_written leg leg1 v b rest Hst Htx Eq) as (text & l & Hu & Hl & Hd & Hh).
    cbn. rewrite Hu, Hl. do 2 eexists. do 2 (split; [reflexivity|]). rewrite <- app_assoc. split.
    + erewrite rd_bind_ok by (by apply readUint32_written). exact (Hh Hbi).
    + erewrite rd_bind_ok by (by apply read_u32_written). exact Hd.
Qed.
End RoundTrip.

(** ** What a payload may build *)

Section Types.
Context `{V8Wire}.

Definition headers_ok (l : list WVal) : Prop := even_length l = true /\ zlen l / 2 <= MAX_HEADER_ENTRIES.

Definition instance_ok (i : Instance) : Prop :=
  match i with
  | IHeaders l => headers_ok l
  | IRequest url method l body => str_ok url /\ str_ok method /\ headers_ok l /\ body_ok body = true
  | IResponse _ text l body => str_ok text /\ headers_ok l /\ body_ok body = true
  end.

Definition instance_tag (i : Instance) : Z :=
  match i with IHeaders _ => TAG_HEADERS | IRequest _ _ _ _ => TAG_REQUEST | IResponse _ _ _ _ => TAG_RESPONSE end.

(** The instance as the codec sees it on its way out again. *)
Definition object_of (i : Instance) : HostObject :=
  match i with
  | IHeaders l => mk_HostObject (Some l) None None
  | IRequest url method l body => mk_HostObject None (Some (mk_RequestView (Some url) (Some method) (Some l) (BodyInline body))) None
  | IResponse status text l body => mk_HostObject None None (Some (mk_ResponseView status (Some text) (Some l) (BodyInline body)))
  end.

Lemma rd_bind_inv {A B} (m : rd A) (f : A -> rd B) bs x : (m ≫= f) bs = Ok x -> exists a rest, m bs = Ok (a, rest) /\ f a rest = Ok x.
Proof. unfold mbind, rd_bind. destruct (m bs) as [[a rest]|]; [|done]. by exists a, rest. Qed.

Lemma lift_inv {A} (r : result CodecError A) bs a rest : lift r bs = Ok (a, rest) -> r = Ok a /\ rest = bs.
Proof. unfold lift. destruct r; [|done]. by intros [= -> ->]. Qed.

Lemma read_string_ok bs s rest : read_string bs = Ok (s, rest) -> str_ok s.
Proof.
  unfold read_string. intros (b & r & _ & [Hs _]%lift_inv)%rd_bind_inv. destruct (from_utf8 b) eqn:Eu; [|done].
  injection Hs as <-. by apply from_utf8_some in Eu as [_ ?].
Qed.

Lemma decode_headers_ok mint bs l rest : decode_headers mint bs = Ok (l, rest) -> headers_ok l.
Proof.
  unfold decode_headers. intros (x & r & _ & [Hx _]%lift_inv)%rd_bind_inv. destruct x as [| | | |l'|]; try done.
  destruct (even_length l') eqn:E; [|done]. cbn [negb] in Hx. destruct (Z.ltb_spec MAX_HEADER_ENTRIES (zlen l' / 2)); [done|].
  destruct (can_make mint TAG_HEADERS); [|done]. injection Hx as <-. by split.
Qed.

Lemma decode_body_ok bs x rest : decode_body bs = Ok (x, rest) -> body_ok x = true.
Proof.
  unfold decode_body. intros (y & r & _ & [Hx _]%lift_inv)%rd_bind_inv. unfold check_body in Hx. destruct (body_ok y) eqn:E; [|done].
  by injection Hx as <-.
Qed.

Lemma intern_ok mint s t : intern mint s = Ok t -> t = s.
Proof. unfold intern. destruct (can_intern mint s); [|done]. by intros [= ->]. Qed.

Lemma decode_request_ok mint bs i rest : decode_request mint bs = Ok (i, rest) -> instance_ok i.
Proof.
  unfold decode_request. intros (url & r1 & H1 & H2)%rd_bind_inv. apply rd_bind_inv in H2 as (method & r2 & H2 & H3).
  apply rd_bind_inv in H3 as (l & r3 & H3 & H4). apply rd_bind_inv in H4 as (b & r4 & H4 & H5).
  apply rd_bind_inv in H5 as ([] & r5 & _ & [H6 _]%lift_inv). destruct (intern mint url) eqn:Eu; [|done]. destruct (intern mint method) eqn:Em; [|done].
  cbn in H6. destruct (can_make mint TAG_REQUEST); [|done]. injection H6 as <-. apply intern_ok in Eu as ->. apply intern_ok in Em as ->.
  split; [by eapply read_string_ok|]. split; [by eapply read_string_ok|]. split; [by eapply decode_headers_ok|by eapply decode_body_ok].
Qed.

Lemma decode_response_ok mint bs i rest : decode_response mint bs = Ok (i, rest) -> instance_ok i.
Proof.
  unfold decode_response. intros (status & r1 & H1 & H2)%rd_bind_inv. apply rd_bind_inv in H2 as (text & r2 & H2 & H3).
  apply rd_bind_inv in H3 as (l & r3 & H3 & H4). apply rd_bind_inv in H4 as (b & r4 & H4 & H5).
  apply rd_bind_inv in H5 as ([] & r5 & _ & [H6 _]%lift_inv). destruct (intern mint text) eqn:Et; [|done].
  cbn in H6. destruct (can_make mint TAG_RESPONSE); [|done]. injection H6 as <-. apply intern_ok in Et as ->.
  split; [by eapply read_string_ok|]. split; [by eapply decode_headers_ok|by eapply decode_body_ok].
Qed.

Lemma encode_headers_iff l : headers_ok l ->
  (exists bs, encode_headers (Some l) = Ok bs) <-> is_Some (write_value (WArray l)).
Proof.
  intros [He Hl]. unfold encode_headers. rewrite He. cbn [negb]. destruct (Z.ltb_spec MAX_HEADER_ENTRIES (zlen l / 2)); [lia|].
  destruct (write_value (WArray l)) as [bs|]; [split; by eexists|]. by split; [intros [? ?]|intros []].
Qed.

Lemma encode_message_iff leg head l x : headers_ok l -> body_ok x = true ->
  (exists bs, encode_message leg (Ok head) (Some l) (BodyInline x) = (leg, Ok bs)) <->
  is_Some (write_value (WArray l)) /\ is_Some (write_value x).
Proof.
  intros Hl Hb. rewrite <- (encode_headers_iff l Hl). unfold encode_message.
  destruct (encode_headers (Some l)) as [hs|e]; cbn; [|by split; [intros [? ?]|intros [[? ?] _]]].
  unfold check_body. rewrite Hb. cbn. destruct (write_value x) as [b|]; cbn.
  - split; [intros _; split; by eexists|intros _; by eexists].
  - by split; [intros [? ?]|intros [_ []]].
Qed.

(** An inline body leaves the leg alone. *)
Lemma encode_message_inline leg head l x : exists r, encode_message leg head l (BodyInline x) = (leg, r).
Proof.
  unfold encode_message. destruct head as [h|e]; cbn; [|by eexists]. destruct (encode_headers l) as [hs|e]; cbn; [|by eexists].
  destruct (check_body x); cbn; [|by eexists]. destruct (write_value _); cbn; by eexists.
Qed.

(** The JavaScript values of an instance that V8 writes. *)
Definition values_of (i : Instance) : list WVal :=
  match i with IHeaders l => [WArray l] | IRequest _ _ l b => [WArray l; b] | IResponse _ _ l b => [WArray l; b] end.

(** C30. The codec builds only well-typed instances: whatever the bytes, an object
    [decode] returns is a [Headers], [Request] or [Response] whose texts are valid
    Unicode, whose entry list pairs names with values, at most 1024 of them, and
    whose body is absent, a string or a [Uint8Array].  So the codec itself never
    refuses to send it out again: [encode] writes it exactly if V8 writes its entry
    list and its body. *)
Theorem decoded_well_typed mint bs i rest :
  decode mint bs = Ok (i, rest) ->
  instance_ok i /\
  forall leg, (exists bs', encode leg (object_of i) (instance_tag i) = (leg, Ok bs')) <->
    Forall (fun x => is_Some (write_value x)) (values_of i).
Proof.
  intros Hd. assert (Hi : instance_ok i).
  { unfold decode in Hd. apply rd_bind_inv in Hd as (tag & r & _ & Hd). destruct (tag =? TAG_HEADERS).
    { apply rd_bind_inv in Hd as (l & r' & Hl & Hd). injection Hd as <- <-. by eapply decode_headers_ok. }
    destruct (tag =? TAG_REQUEST); [by eapply decode_request_ok|]. destruct (tag =? TAG_RESPONSE); [by eapply decode_response_ok|].
    apply lift_inv in Hd as [Hd _]. by destruct (tag =? TAG_INVALID). }
  split; [exact Hi|]. intros leg.
  assert (Hmsg : forall tag head l b, headers_ok l -> body_ok b = true ->
    (exists bs', (let '(leg, r) := encode_message leg (Ok head) (Some l) (BodyInline b) in (leg, bs ← r; Ok (write_uint32 tag ++ bs))) = (leg, Ok bs')) <->
    Forall (fun x => is_Some (write_value x)) [WArray l; b]).
  { intros tag head l b Hl Hb. rewrite Forall_cons, Forall_singleton, <- (encode_message_iff leg head l b Hl Hb).
    destruct (encode_message_inline leg (Ok head) (Some l) b) as [r ->]. destruct r as [x|e]; cbn; split; intros [y Hy]; try done; by eexists. }
  destruct i as [l|url method l b|status text l b]; unfold encode; cbn -[encode_headers encode_message].
  - rewrite Forall_singleton, <- (encode_headers_iff l Hi). destruct (encode_headers (Some l)) as [x|e]; cbn; split; intros [y Hy]; try done; by eexists.
  - destruct Hi as (_ & _ & Hl & Hb). by apply Hmsg.
  - destruct Hi as (_ & Hl & Hb). by apply Hmsg.
Qed.
End Types.

(** ** Witnesses: a serializer for a few values *)

Definition put_text (s : string) : list byte := u32_be (zlen (as_bytes s)) ++ as_bytes s.
Definition get_text (bs : list byte) : option (string * list byte) :=
  if (4 <=? length bs)%nat then
    '(b, rest) ← read_raw_bytes (be_val (take 4 bs)) (drop 4 bs); Some (of_bytes b, rest)
  else None.

Definition small_write (x : WVal) : option (list byte) :=
  match x with
  | WUndefined => Some [x00]
  | WNull => Some [x01]
  | WString s => if zlen (as_bytes s) <=? u32_max then Some (x02 :: put_text s) else None
  | WArray [WString a; WString b] =>
    if (zlen (as_bytes a) <=? u32_max) && (zlen (as_bytes b) <=? u32_max) then Some (x03 :: put_text a ++ put_text b) else None
  | _ => None
  end.

Definition small_read (bs : list byte) : option (WVal * list byte) :=
  match bs with
  | x00 :: rest => Some (WUndefined, rest)
  | x01 :: rest => Some (WNull, rest)
  | x02 :: rest => '(s, rest) ← get_text rest; Some (WString s, rest)
  | x03 :: rest => '(a, rest) ← get_text rest; '(b, rest) ← get_text rest; Some (WArray [WString a; WString b], rest)
  | _ => None
  end.

#[local] Instance small_wire : V8Wire := {
  write_uint32 := u32_be;
  read_uint32 bs := if (4 <=? length bs)%nat then Some (be_val (take 4 bs), drop 4 bs) else None;
  write_value := small_write;
  read_value := small_read;
  serialize_handle id := if (0 <=? id) && (id <=? u32_max) then Some (u32_be id) else None;
  deserialize_handle bs := Some (Some (be_val bs));
}.

Lemma four_more n rest : (4 <=? length (u32_be n ++ rest))%nat = true.
Proof. rewrite length_app, length_u32_be. apply Nat.leb_le. lia. Qed.

Lemma take_four n rest : take 4 (u32_be n ++ rest) = u32_be n /\ drop 4 (u32_be n ++ rest) = rest.
Proof.
  pose proof (take_app_len (u32_be n) rest) as Ht. pose proof (drop_app_len (u32_be n) rest) as Hd. rewrite length_u32_be in Ht, Hd. by split.
Qed.

Lemma get_put_text s rest : zlen (as_bytes s) <= u32_max -> get_text (put_text s ++ rest) = Some (s, rest).
Proof.
  intros Hl. unfold get_text, put_text. rewrite <- app_assoc, four_more. destruct (take_four (zlen (as_bytes s)) (as_bytes s ++ rest)) as [-> ->].
  rewrite be_val_u32 by (unfold is_u32, u32_max in *; lia). unfold read_raw_bytes.
  destruct (Z.leb_spec (zlen (as_bytes s)) (zlen (as_bytes s ++ rest))) as [_|Hlt]; [|rewrite length_app in Hlt; lia].
  rewrite Nat2Z.id, take_app_len, drop_app_len. cbn. by rewrite of_as_bytes.
Qed.

#[local] Instance small_wire_ok : V8WireOk.
Proof.
  split.
  - intros n rest Hn.
    change ((if (4 <=? length (u32_be n ++ rest))%nat then Some (be_val (take 4 (u32_be n ++ rest)), drop 4 (u32_be n ++ rest)) else None) = Some (n, rest)).
    rewrite four_more. destruct (take_four n rest) as [-> ->]. by rewrite be_val_u32.
  - intros x bs rest. cbn [write_value read_value small_wire]. unfold small_write. destruct x as [| |s| |[|[| |a| | |] [|[| |b| | |] []]]|]; try done; [by intros [= <-]..| |].
    + destruct (Z.leb_spec (zlen (as_bytes s)) u32_max); [|done]. intros Hw. assert (bs = x02 :: put_text s) as -> by congruence.
      cbn [app small_read]. by rewrite get_put_text.
    + destruct (Z.leb_spec (zlen (as_bytes a)) u32_max); [|done]. destruct (Z.leb_spec (zlen (as_bytes b)) u32_max); [|done].
      intros Hw. assert (bs = x03 :: put_text a ++ put_text b) as -> by (cbn in Hw; congruence).
      cbn [app small_read]. rewrite <- app_assoc, get_put_text by done. cbn [mbind option_bind]. by rewrite get_put_text.
  - intros id bs. cbn [serialize_handle deserialize_handle small_wire]. destruct (Z.leb_spec 0 id); [|done]. destruct (Z.leb_spec id u32_max); [|done]. intros [= <-].
    split; [|split]; [|rewrite length_u32_be; unfold u32_max; lia|by rewrite be_val_u32].
    intros Hn. by pose proof (length_u32_be id) as Hl; rewrite Hn in Hl.
Qed.

(** A streamed response on the result leg of a run. *)
Definition small_leg : OutLeg := mk_OutLeg true 7 (Some (Outb.mk_OutTableState ∅ 1 3 true 0)).
Definition small_object : HostObject :=
  mk_HostObject None None (Some (mk_ResponseView 201 (Some "Created"%string) (Some [WString "x-a"; WString "1"]) (BodyStream 40))).
Definition small_payload : list byte := match (encode small_leg small_object TAG_RESPONSE).2 with Ok bs => bs | Err _ => [] end.
Definition any_mint : Mint := mk_Mint (fun _ => true) (fun _ => true).
Definition string_of_val (x : WVal) : string := match x with WString s => s | _ => EmptyString end.

Lemma host_objects_roundtrip_witness :
  views_ok small_object /\ object_handle small_leg small_object TAG_RESPONSE = Some 1 /\
  Ts.readHostType of_bytes string_of_val true (small_payload ++ [x2a]) =
    Ok (HResponse 201 "Created" [("x-a", "1")]%string (Some (HStream 1)), [x2a]).
Proof.
  assert (Hv : views_ok small_object).
  { split; [done|]. intros v [= <-]. split; [unfold is_u32, u32_max; cbn; lia|]. intros s [= <-]. split; [reflexivity|]. vm_compute. discriminate. }
  split; [exact Hv|]. split; [reflexivity|].
  assert (He : encode small_leg small_object TAG_RESPONSE = ((encode small_leg small_object TAG_RESPONSE).1, Ok small_payload)) by (vm_compute; reflexivity).
  destruct (host_objects_roundtrip of_bytes string_of_val true (fun s _ => of_as_bytes s) any_mint (fun _ => eq_refl) (fun _ => eq_refl)
    small_leg _ small_object TAG_RESPONSE small_payload [x2a] Hv (or_intror eq_refl) He) as (h & i & Hh & _ & Hr & _).
  rewrite Hr. vm_compute in Hh. injection Hh as <-. reflexivity.
Defined.

Lemma decoded_well_typed_witness :
  let bs := u32_be TAG_HEADERS ++ x03 :: put_text "x-a" ++ put_text "1" ++ [x2a] in
  decode any_mint bs = Ok (IHeaders [WString "x-a"; WString "1"], [x2a]) /\ instance_ok (IHeaders [WString "x-a"; WString "1"]) /\
  exists bs', encode (mk_OutLeg false 0 None) (object_of (IHeaders [WString "x-a"; WString "1"])) TAG_HEADERS = (mk_OutLeg false 0 None, Ok bs').
Proof.
  intros bs. assert (Hd : decode any_mint bs = Ok (IHeaders [WString "x-a"; WString "1"], [x2a])) by (vm_compute; reflexivity).
  destruct (decoded_well_typed any_mint bs _ _ Hd) as [Hi He]. split; [exact Hd|]. split; [exact Hi|].
  apply (He (mk_OutLeg false 0 None)). constructor; [by eexists|constructor].
Defined.
