(* ===== verification/Rehydrate.v ===== *)
(** * Rehydration ([crates/core/src/webcodec.rs])

    What the host sends carries branded plain objects where it had a [Headers], a
    [Request] or a [Response]; [rehydrate] walks the deserialized graph and puts
    instances in their place.  The graph is a heap of nodes with identity, so
    shared and cyclic structure is part of the model.  Deserialized objects have
    data properties only: reading one runs no guest code. *)

From Stdlib Require Import Floats.SpecFloat.
From S2P Require Import Prelude Bytes Text F64 StreamPayloads Errors Webcodec.
From S2P Require Streams.
Import Streams.

(** ** Values and objects *)

(** [OtherPrim]: booleans, big integers; [Ref]: an object, by identity. *)
Inductive Val := Undefined | Null | Str (s : string) | Num (x : f64) | OtherPrim (k : Z) | Ref (id : Z).

(** An instance built by [webtypes] or the streams; headers by identity. *)
Inductive Made :=
  | MadeHeaders (list : Z)
  | MadeRequest (url method : Val) (headers : Z) (body : Val)
  | MadeResponse (status : Z) (status_text : Val) (headers : Z) (body : Val)
  | MadeBodyStream (stream_id : Z).

(** [BufferNode]: an [ArrayBuffer] or a view, [uint8] for a [Uint8Array];
    [PlainNode]: any other object, with its own enumerable string-keyed
    properties. *)
Inductive Node :=
  | BufferNode (uint8 : bool)
  | MapNode (entries : list (Val * Val))
  | SetNode (items : list Val)
  | ArrayNode (items : list Val)
  | PlainNode (props : list (string * Val))
  | MadeNode (m : Made).

(** [seen]: what stands for a visited object; [steps]: the checks made so far for
    an end of the run; [next]: the identity of the next object. *)
Record Walk := mk_Walk {
  heap : gmap Z Node;
  seen : gmap Z Z;
  pending : list Z;
  table : option Inb.StreamTableState;
  next : Z;
  steps : nat;
}.
Definition with_heap (s : Walk) (h : gmap Z Node) : Walk := mk_Walk h (seen s) (pending s) (table s) (next s) (steps s).
Definition with_seen (s : Walk) (m : gmap Z Z) : Walk := mk_Walk (heap s) m (pending s) (table s) (next s) (steps s).
Definition with_pending (s : Walk) (l : list Z) : Walk := mk_Walk (heap s) (seen s) l (table s) (next s) (steps s).
Definition with_table (s : Walk) (t : option Inb.StreamTableState) : Walk := mk_Walk (heap s) (seen s) (pending s) t (next s) (steps s).
Definition with_next (s : Walk) (n : Z) : Walk := mk_Walk (heap s) (seen s) (pending s) (table s) n (steps s).
Definition with_steps (s : Walk) (n : nat) : Walk := mk_Walk (heap s) (seen s) (pending s) (table s) (next s) n.

Definition M (A : Type) : Type := Walk -> Walk * result CodecError A.
#[export] Instance M_ret : MRet M := fun A a s => (s, Ok a).
#[export] Instance M_bind : MBind M := fun A B f m s => match m s with (s, Ok a) => f a s | (s, Err e) => (s, Err e) end.

Definition get : M Walk := fun s => (s, Ok s).
Definition modify (f : Walk -> Walk) : M unit := fun s => (f s, Ok tt).
Definition lift {A} (r : result CodecError A) : M A := fun s => (s, r).

(** ** Reading values *)

Definition own (props : list (string * Val)) (name : string) : option Val :=
  (fun x => x.2.2) <$> list_find (fun p => p.1 = name) props.

(** [Value::is_uint32], with the integer; minus zero is none. *)
Definition is_uint32 (v : Val) : option Z :=
  match v with
  | Num (S754_zero true) => None
  | Num x => let z := f64_to_uint u32_max x in if f64_eq x (f64_of_Z z) then Some z else None
  | _ => None
  end.

(** SameValueZero, the equality of [Map] and [Set]. *)
Definition same_value_zero (a b : Val) : bool :=
  match a, b with
  | Undefined, Undefined | Null, Null => true
  | Str s, Str t => String.eqb s t
  | Num x, Num y => f64_eq x y || match x, y with S754_nan, S754_nan => true | _, _ => false end
  | OtherPrim k, OtherPrim l => k =? l
  | Ref a, Ref b => a =? b
  | _, _ => false
  end.

Fixpoint map_set (k v : Val) (entries : list (Val * Val)) : list (Val * Val) :=
  match entries with
  | [] => [(k, v)]
  | e :: entries => if same_value_zero e.1 k then (e.1, v) :: entries else e :: map_set k v entries
  end.

Fixpoint set_add (v : Val) (items : list Val) : list Val :=
  match items with
  | [] => [v]
  | x :: items => if same_value_zero x v then x :: items else x :: set_add v items
  end.

Definition set_item (i : nat) (v : Val) (n : Node) : Node := match n with ArrayNode items => ArrayNode (<[i := v]> items) | n => n end.
Definition set_prop (name : string) (v : Val) (n : Node) : Node :=
  match n with PlainNode props => PlainNode (map (fun p => if decide (p.1 = name) then (name, v) else p) props) | n => n end.

Section Rehydrate.
(** [brand_key]: of the session; [inherited]: a property read off the prototype
    chain ([None]: the read threw); [to_uint32]: [Value::uint32_value];
    [can_make]: whether V8 makes the object of an identity; [stops]: whether the
    run is being terminated at the n-th check. *)
Context (brand_key : string) (inherited : string -> option Val) (to_uint32 : Val -> option Z) (can_make : Z -> bool) (stops : nat -> bool).

Definition interrupted : CodecError := Unsupported "host-type rehydration interrupted: execution terminating".

Definition still_running : M unit := fun s =>
  (with_steps s (S (steps s)), if stops (steps s) then Err interrupted else Ok tt).

Definition brand_of (n : Node) : option Z := match n with PlainNode props => own props brand_key ≫= is_uint32 | _ => None end.

Definition field (props : list (string * Val)) (name : string) : option Val :=
  match own props name with Some v => Some v | None => inherited name end.

Definition descriptor_field (props : list (string * Val)) (name : string) : M Val :=
  lift (match field props name with Some v => Ok v | None => malformed ("descriptor is missing '" +:+ name +:+ "'") end).

Definition make (m : Made) (what : string) : M Z :=
  s ← get;
  if can_make (next s) then
    modify (fun s => with_next (with_heap s (<[next s := MadeNode m]> (heap s))) (next s + 1));; mret (next s)
  else lift (malformed what).

Definition check_body (v : Val) : M Val :=
  s ← get;
  lift (match v with
    | Undefined | Null | Str _ => Ok v
    | Ref id => match heap s !! id with Some (BufferNode true) => Ok v | _ => unsupported bad_body end
    | _ => unsupported bad_body
    end).

Definition hydrated_stream_body (props : list (string * Val)) : M (option Val) :=
  match own props "bodyStream" ≫= is_uint32 with
  | None => mret None
  | Some stream_id =>
    s ← get;
    let '(slot, ok) := Inb.register_hydrated_stream (table s) stream_id in
    modify (fun s => with_table s slot);;
    if (ok : bool) then (stream ← make (MadeBodyStream stream_id) "could not construct the body stream"; mret (Some (Ref stream)))
    else lift (unsupported "a streamed body can only be delivered to a running sandbox")
  end.

Definition body_of (props : list (string * Val)) : M Val :=
  stream ← hydrated_stream_body props;
  match stream with Some stream => mret stream | None => body ← descriptor_field props "body"; check_body body end.

Definition build_from_descriptor (props : list (string * Val)) (tag : Z) : M Z :=
  headers_value ← descriptor_field props "headers";
  s ← get;
  headers_list ← lift (match headers_value with
    | Ref id =>
      match heap s !! id with
      | Some (ArrayNode items) =>
        let flat := zlen items in
        if negb (flat mod 2 =? 0) then malformed "descriptor headers has an odd length"
        else if MAX_HEADER_ENTRIES <? flat / 2 then
          unsupported ("descriptor declares " +:+ show (flat / 2) +:+ " header entries, exceeding the " +:+ show MAX_HEADER_ENTRIES +:+ " limit")
        else Ok id
      | _ => malformed "descriptor headers is not an array"
      end
    | _ => malformed "descriptor headers is not an array"
    end);
  headers ← make (MadeHeaders headers_list) "could not construct Headers";
  if tag =? TAG_HEADERS then mret headers
  else if tag =? TAG_REQUEST then
    (url ← descriptor_field props "url";
     method ← descriptor_field props "method";
     body ← body_of props;
     make (MadeRequest url method headers body) "could not construct Request")
  else if tag =? TAG_RESPONSE then
    (status ← descriptor_field props "status";
     status_text ← descriptor_field props "statusText";
     body ← body_of props;
     make (MadeResponse (default 200 (to_uint32 status)) status_text headers body) "could not construct Response")
  else lift (unsupported ("received a " +:+ tag_name tag +:+ " descriptor (tag " +:+ show tag +:+ "); this build cannot materialise one")).

(** ** The walk *)

Definition visit (v : Val) : M (option Val) :=
  match v with
  | Ref id =>
    s ← get;
    match heap s !! id with
    | None | Some (BufferNode _) => mret None
    | Some n =>
      match seen s !! id with
      | Some stand_in => mret (if stand_in =? id then None else Some (Ref stand_in))
      | None =>
        match n, brand_of n with
        | PlainNode props, Some tag =>
          built ← build_from_descriptor props tag;
          modify (fun s => with_seen s (<[id := built]> (seen s)));;
          mret (Some (Ref built))
        | _, _ => modify (fun s => with_pending (with_seen s (<[id := id]> (seen s))) (id :: pending s));; mret None
        end
      end
    end
  | _ => mret None
  end.

Definition changed_by (r : option Val) : bool := match r with Some _ => true | None => false end.

Fixpoint visit_entries (entries : list (Val * Val)) : M (list (Val * Val) * bool) :=
  match entries with
  | [] => mret ([], false)
  | e :: entries =>
    still_running;;
    k ← visit e.1;
    v ← visit e.2;
    '(pairs, changed) ← visit_entries entries;
    mret ((default e.1 k, default e.2 v) :: pairs, changed_by k || changed_by v || changed)
  end.

Fixpoint visit_values (items : list Val) : M (list Val * bool) :=
  match items with
  | [] => mret ([], false)
  | item :: items =>
    still_running;;
    r ← visit item;
    '(rest, changed) ← visit_values items;
    mret (default item r :: rest, changed_by r || changed)
  end.

(** The loops over an array's indices and an object's names; each replacement is
    written where it was read. *)
Fixpoint visit_each {K} (write : K -> Val -> Node -> Node) (obj : Z) (items : list (K * Val)) : M unit :=
  match items with
  | [] => mret tt
  | e :: items =>
    still_running;;
    r ← visit e.2;
    (match r with Some v => modify (fun s => with_heap s (alter (write e.1 v) obj (heap s))) | None => mret tt end);;
    visit_each write obj items
  end.

Definition set_node (obj : Z) (n : Node) : M unit := modify (fun s => with_heap s (<[obj := n]> (heap s))).

Definition walk_object (obj : Z) : M unit :=
  still_running;;
  s ← get;
  match heap s !! obj with
  | Some (MapNode entries) =>
    '(pairs, changed) ← visit_entries entries;
    if (changed : bool) then set_node obj (MapNode (fold_left (fun es p => map_set p.1 p.2 es) pairs [])) else mret tt
  | Some (SetNode items) =>
    '(items, changed) ← visit_values items;
    if (changed : bool) then set_node obj (SetNode (fold_left (fun es x => set_add x es) items [])) else mret tt
  | Some (ArrayNode items) => visit_each set_item obj (imap pair items)
  | Some (PlainNode props) => still_running;; visit_each set_prop obj props
  | _ => mret tt
  end.

(** [None]: not finished with the fuel given. *)
Fixpoint drain (fuel : nat) : M (option unit) :=
  match fuel with
  | O => mret None
  | S fuel =>
    s ← get;
    match pending s with
    | [] => mret (Some tt)
    | obj :: rest => modify (fun s => with_pending s rest);; walk_object obj;; drain fuel
    end
  end.

Definition rehydrate (fuel : nat) (v : Val) : M (option Val) :=
  replaced ← visit v;
  match replaced with
  | Some v' => mret (Some v')
  | None => done ← drain fuel; mret (match done with Some _ => Some v | None => None end)
  end.

(** ** What the walk should do

    [node_vals]: the values the walk visits in an object. *)
Definition node_vals (n : Node) : list Val :=
  match n with
  | BufferNode _ | MadeNode _ => []
  | MapNode entries => flat_map (fun e => [e.1; e.2]) entries
  | SetNode items | ArrayNode items => items
  | PlainNode props => map snd props
  end.

Definition map_node (f : Val -> Val) (n : Node) : Node :=
  match n with
  | MapNode entries => MapNode (map (fun e => (f e.1, f e.2)) entries)
  | SetNode items => SetNode (map f items)
  | ArrayNode items => ArrayNode (map f items)
  | PlainNode props => PlainNode (map (fun p => (p.1, f p.2)) props)
  | BufferNode _ | MadeNode _ => n
  end.

(** What stands for a value, given what stands for the descriptors. *)
Definition subst (m : gmap Z Z) (v : Val) : Val := match v with Ref id => Ref (default id (m !! id)) | v => v end.

Definition object (n : Node) : bool := match n with BufferNode _ => false | _ => true end.

(** What is reached from a value without looking inside descriptors. *)
Inductive reach (h : gmap Z Node) (v : Val) : Z -> Prop :=
  | reach_here id : v = Ref id -> reach h v id
  | reach_in id n x : reach h v id -> h !! id = Some n -> brand_of n = None -> Ref x ∈ node_vals n -> reach h v x.

Fixpoint distinct (l : list Val) : Prop :=
  match l with [] => True | a :: l => Forall (fun b => same_value_zero a b = false) l /\ distinct l end.

(** A heap as the deserializer leaves it. *)
Record graph_ok (h : gmap Z Node) (v : Val) : Prop := {
  go_root id : v = Ref id -> is_Some (h !! id);
  go_closed id n x : h !! id = Some n -> Ref x ∈ node_vals n -> is_Some (h !! x);
  go_keys id entries : h !! id = Some (MapNode entries) -> distinct (map fst entries);
  go_items id items : h !! id = Some (SetNode items) -> distinct items;
  go_props id props : h !! id = Some (PlainNode props) -> NoDup (map fst props);
}.

(** The shape the walk never changes. *)
Inductive Shape := ShBuffer (uint8 : bool) | ShMap | ShSet | ShArray (n : nat) | ShPlain | ShMade.
Definition shape (n : Node) : Shape :=
  match n with
  | BufferNode u => ShBuffer u | MapNode _ => ShMap | SetNode _ => ShSet | ArrayNode items => ShArray (length items)
  | PlainNode _ => ShPlain | MadeNode _ => ShMade
  end.

Lemma shape_map f n : shape (map_node f n) = shape n.
Proof. destruct n; cbn; by rewrite ?length_map. Qed.
Lemma object_shape n n' : shape n = shape n' -> object n = object n'.
Proof. by destruct n, n'. Qed.

(** [j] is the instance described by the properties and the tag. *)
Definition body_made (h : gmap Z Node) (fresh : Z -> Prop) (props : list (string * Val)) (body : Val) : Prop :=
  match own props "bodyStream" ≫= is_uint32 with
  | Some stream_id => exists b, body = Ref b /\ fresh b /\ h !! b = Some (MadeNode (MadeBodyStream stream_id))
  | None => field props "body" = Some body
  end.

Definition instance_at (h : gmap Z Node) (fresh : Z -> Prop) (props : list (string * Val)) (tag j : Z) : Prop :=
  exists l hd, field props "headers" = Some (Ref l) /\ fresh hd /\ h !! hd = Some (MadeNode (MadeHeaders l)) /\ fresh j /\
    ((tag = TAG_HEADERS /\ j = hd) \/
     (tag = TAG_REQUEST /\ exists url method body, h !! j = Some (MadeNode (MadeRequest url method hd body)) /\
        field props "url" = Some url /\ field props "method" = Some method /\ body_made h fresh props body) \/
     (tag = TAG_RESPONSE /\ exists status text body,
        h !! j = Some (MadeNode (MadeResponse (default 200 (to_uint32 status)) text hd body)) /\
        field props "status" = Some status /\ field props "statusText" = Some text /\ body_made h fresh props body)).

Lemma body_made_mono h h' (fresh fresh' : Z -> Prop) props body :
  (forall x, fresh x -> fresh' x) -> (forall x n, fresh x -> h !! x = Some n -> h' !! x = Some n) ->
  body_made h fresh props body -> body_made h' fresh' props body.
Proof.
  intros Hf Hh. unfold body_made. destruct (own props "bodyStream" ≫= is_uint32); [|done]. intros (b & ? & ? & ?). exists b. auto.
Qed.

Lemma instance_at_mono h h' (fresh fresh' : Z -> Prop) props tag j :
  (forall x, fresh x -> fresh' x) -> (forall x n, fresh x -> h !! x = Some n -> h' !! x = Some n) ->
  instance_at h fresh props tag j -> instance_at h' fresh' props tag j.
Proof.
  intros Hf Hh (l & hd & H1 & H2 & H3 & H4 & H5). exists l, hd. split; [done|]. split; [auto|]. split; [auto|]. split; [auto|].
  assert (Hb : forall body, body_made h fresh props body -> body_made h' fresh' props body) by (intros body; by apply body_made_mono).
  destruct H5 as [H5 | [(Ht & a & b & c & H5 & H6 & H7 & H8) | (Ht & a & b & c & H5 & H6 & H7 & H8)]]; [by left|right; left|right; right];
    (split; [done|]; exists a, b, c; auto).
Qed.

(** ** Building an instance *)

Lemma bind_ok_inv {A B} (m : M A) (f : A -> M B) s s' b :
  (m ≫= f) s = (s', Ok b) -> exists s1 a, m s = (s1, Ok a) /\ f a s1 = (s', Ok b).
Proof. unfold mbind, M_bind. destruct (m s) as [s1 [a|e]]; [|done]. by exists s1, a. Qed.

(** [s'] is [s] with instances added at the end, and perhaps streams. *)
Record grown (s s' : Walk) : Prop := {
  gr_next : next s <= next s';
  gr_heap id : id < next s -> heap s' !! id = heap s !! id;
  gr_seen : seen s' = seen s;
  gr_pending : pending s' = pending s;
  gr_table : is_Some (table s) -> is_Some (table s');
  gr_bound : (forall id, is_Some (heap s !! id) -> id < next s) -> forall id, is_Some (heap s' !! id) -> id < next s';
}.

#[local] Instance grown_refl : Reflexive grown.
Proof. intros s. by split. Qed.
#[local] Instance grown_trans : Transitive grown.
Proof.
  intros s1 s2 s3 [N1 H1 S1 P1 T1 B1] [N2 H2 S2 P2 T2 B2]. split; [lia| |congruence|congruence|auto|auto].
  intros id Hid. rewrite H2 by lia. by apply H1.
Qed.

Lemma make_spec m what s s' j :
  make m what s = (s', Ok j) -> grown s s' /\ j = next s /\ next s' = next s + 1 /\ heap s' !! j = Some (MadeNode m).
Proof.
  unfold make, get, modify, mbind, M_bind, mret, M_ret, lift. destruct (can_make (next s)); [|done]. intros [= <- <-].
  split; [|split; [done|split; [done|apply lookup_insert_eq]]].
  split; cbn; [lia| |done|done|done|].
  - intros id Hid. apply lookup_insert_ne. lia.
  - intros Hb id. destruct (decide (id = next s)) as [->|Hn]; [lia|]. rewrite lookup_insert_ne by done. intros Hi. specialize (Hb id Hi). lia.
Qed.

Lemma descriptor_field_spec props name s s' v : descriptor_field props name s = (s', Ok v) -> s' = s /\ field props name = Some v.
Proof. unfold descriptor_field, lift. destruct (field props name); [|by intros [=]]. by intros [= <- <-]. Qed.

Lemma body_of_spec props s s' body :
  body_of props s = (s', Ok body) -> grown s s' /\ body_made (heap s') (fun x => next s <= x < next s') props body.
Proof.
  unfold body_of. intros (s1 & stream & H1 & H2)%bind_ok_inv. unfold hydrated_stream_body, body_made in *.
  destruct (own props "bodyStream" ≫= is_uint32) as [stream_id|].
  - apply bind_ok_inv in H1 as (s2 & s2' & [= <- <-] & H1). destruct (Inb.register_hydrated_stream (table s) stream_id) as [slot ok] eqn:Er.
    apply bind_ok_inv in H1 as (s3 & [] & [= <-] & H1). destruct ok; [|by intros].
    apply bind_ok_inv in H1 as (s4 & j & Hm & [= <- <-]). injection H2 as <- <-. apply make_spec in Hm as (Hg & -> & Hn & Hj).
    cbn [next with_table] in *. split; [|exists (next s); split; [done|]; split; [lia|done]].
    etrans; [|exact Hg]. split; cbn; try done.
    intros [t Ht]. rewrite Ht in Er. cbn in Er. injection Er as <-. by eexists.
  - injection H1 as <- <-. apply bind_ok_inv in H2 as (s2 & v & Hd & Hc). apply descriptor_field_spec in Hd as [-> Hv].
    unfold check_body, get, mbind, M_bind, lift in Hc. assert (s' = s /\ body = v) as [-> ->]; [|by split].
    destruct v as [| | | | |id]; try (by injection Hc as <- <-); try done.
    destruct (heap s !! id) as [[[]| | | | |]|]; try done. by injection Hc as <- <-.
Qed.

Lemma build_spec props tag s s' j :
  build_from_descriptor props tag s = (s', Ok j) -> grown s s' /\ instance_at (heap s') (fun x => next s <= x < next s') props tag j.
Proof.
  unfold build_from_descriptor. intros (s1 & hv & H1 & H2)%bind_ok_inv. apply descriptor_field_spec in H1 as [-> Hhv].
  apply bind_ok_inv in H2 as (s1 & s1' & [= <- <-] & H2). apply bind_ok_inv in H2 as (s2 & l & Hl & H2).
  assert (s2 = s /\ hv = Ref l) as [-> ->].
  { unfold lift in Hl. destruct hv as [| | | | |id]; try done. destruct (heap s !! id) as [[| | |items| |]|]; try done.
    destruct (negb _); [done|]. destruct (_ <? _); [done|]. by injection Hl as <- <-. }
  apply bind_ok_inv in H2 as (s3 & hd & Hm & H2). apply make_spec in Hm as (G1 & -> & N1 & Hhd).
  destruct (Z.eqb_spec tag TAG_HEADERS) as [->|_].
  { injection H2 as <- <-. split; [done|]. exists l, (next s). split; [done|]. split; [lia|]. split; [done|]. split; [lia|]. by left. }
  destruct (Z.eqb_spec tag TAG_REQUEST) as [->|_]; [|destruct (Z.eqb_spec tag TAG_RESPONSE) as [->|_]; [|done]].
  all: apply bind_ok_inv in H2 as (s4 & a & Ha & H2); apply descriptor_field_spec in Ha as [-> Ha].
  all: apply bind_ok_inv in H2 as (s5 & b & Hb & H2); apply descriptor_field_spec in Hb as [-> Hb].
  all: apply bind_ok_inv in H2 as (s6 & body & Hbd & H2); apply body_of_spec in Hbd as [G2 Hbody].
  all: apply make_spec in H2 as (G3 & -> & N3 & Hj); pose proof (gr_next _ _ G2) as Hn2.
  all: assert (Hmade : body_made (heap s') (fun x => next s <= x < next s') props body)
    by (eapply body_made_mono; [| |exact Hbody]; [cbn; intros; lia|cbn; intros x n Hx Hn; rewrite (gr_heap _ _ G3) by lia; exact Hn]).
  all: assert (Hhd' : heap s' !! next s = Some (MadeNode (MadeHeaders l)))
    by (rewrite (gr_heap _ _ G3), (gr_heap _ _ G2) by lia; exact Hhd).
  all: split; [etrans; [exact G1|etrans; [exact G2|exact G3]]|].
  all: exists l, (next s); split; [done|]; split; [lia|]; split; [done|]; split; [lia|].
  - right; left. split; [done|]. exists a, b, body. auto.
  - right; right. split; [done|]. exists a, b, body. auto.
Qed.

(** ** The invariant of the walk *)

Section Walk.
Context (h0 : gmap Z Node) (v0 : Val) (n0 : Z).
Context (Hgraph : graph_ok h0 v0) (Hn0 : forall id, is_Some (h0 !! id) -> id < n0).

Definition stands (s : Walk) (n : Node) (id j : Z) : Prop :=
  match n, brand_of n with
  | PlainNode props, Some tag => n0 <= j < next s /\ instance_at (heap s) (fun x => n0 <= x < next s) props tag j
  | _, _ => j = id
  end.

(** The walk has been to the value. *)
Definition covered (m : gmap Z Z) (v : Val) : Prop :=
  forall x n, v = Ref x -> h0 !! x = Some n -> object n = true -> is_Some (m !! x).

(** The value is one of the graph's. *)
Definition here (v : Val) : Prop := forall x, v = Ref x -> is_Some (h0 !! x) /\ reach h0 v0 x.

(** [o]: the object whose properties are being visited. *)
Record inv (o : option Z) (s : Walk) : Prop := {
  iv_next : n0 <= next s;
  iv_bound id : is_Some (heap s !! id) -> id < next s;
  iv_seen id j : seen s !! id = Some j -> reach h0 v0 id /\ exists n, h0 !! id = Some n /\ object n = true /\ stands s n id j;
  iv_inj a b j : seen s !! a = Some j -> seen s !! b = Some j -> a = b;
  iv_nodup : NoDup (pending s);
  iv_pending id : id ∈ pending s -> seen s !! id = Some id /\ o <> Some id;
  iv_open id : o = Some id -> seen s !! id = Some id /\ exists n n', h0 !! id = Some n /\ heap s !! id = Some n' /\ shape n' = shape n;
  iv_todo id n : h0 !! id = Some n -> seen s !! id <> Some id \/ id ∈ pending s -> heap s !! id = Some n;
  iv_done id n : h0 !! id = Some n -> seen s !! id = Some id -> id ∉ pending s -> o <> Some id ->
    heap s !! id = Some (map_node (subst (seen s)) n) /\ Forall (covered (seen s)) (node_vals n);
}.

Record later (s s' : Walk) : Prop := {
  lt_next : next s <= next s';
  lt_seen : seen s ⊆ seen s';
  lt_fresh id : n0 <= id < next s -> heap s' !! id = heap s !! id;
  lt_table : is_Some (table s) -> is_Some (table s');
}.

#[local] Instance later_refl : Reflexive later.
Proof. intros s. by split. Qed.
#[local] Instance later_trans : Transitive later.
Proof.
  intros s1 s2 s3 [N1 S1 F1 T1] [N2 S2 F2 T2]. split; [lia|by etrans| |auto]. intros id Hid. rewrite F2 by lia. by apply F1.
Qed.

Definition measure (s : Walk) : nat := (size (dom h0 ∖ dom (seen s)) + length (pending s))%nat.

Lemma shape_now o s id n : inv o s -> h0 !! id = Some n -> exists n', heap s !! id = Some n' /\ shape n' = shape n.
Proof.
  intros Hi Hn. destruct (decide (seen s !! id = Some id)) as [Hs|Hs]; [|exists n; split; [by apply (iv_todo _ _ Hi); auto|done]].
  destruct (decide (id ∈ pending s)) as [Hp|Hp]; [exists n; split; [by apply (iv_todo _ _ Hi); auto|done]|].
  destruct (decide (o = Some id)) as [Ho|Ho].
  - destruct (iv_open _ _ Hi id Ho) as (_ & n1 & n' & H1 & H2 & H3). rewrite Hn in H1. injection H1 as <-. by exists n'.
  - destruct (iv_done _ _ Hi id n Hn Hs Hp Ho) as [Hh _]. eexists. split; [exact Hh|apply shape_map].
Qed.

Lemma stands_later s s' n id j : later s s' -> n0 <= next s -> stands s n id j -> stands s' n id j.
Proof.
  intros [N _ F _] Hb. unfold stands. destruct n as [| | | |props|]; try done. destruct (brand_of (PlainNode props)) as [tag|]; [|done].
  intros [Hj Hi]. split; [lia|]. eapply instance_at_mono; [| |exact Hi]; cbn; [intros; lia|]. intros x n Hx Hn. by rewrite F.
Qed.

(** Only objects of the graph have stand-ins. *)
Definition seen_objects (s : Walk) : Prop := forall x j, seen s !! x = Some j -> exists m, h0 !! x = Some m /\ object m = true.

Lemma inv_objects o s : inv o s -> seen_objects s.
Proof. intros Hi x j Hj. destruct (iv_seen _ _ Hi x j Hj) as (_ & n & ? & ? & _). by exists n. Qed.

Lemma subst_covered s s' v : seen_objects s' -> later s s' -> here v -> covered (seen s) v -> subst (seen s') v = subst (seen s) v.
Proof.
  intros Hob Hl Hh Hc. destruct v as [| | | | |x]; try done. cbn. destruct (Hh x eq_refl) as [[n Hn] _]. f_equal.
  destruct (object n) eqn:Ho.
  - destruct (Hc x n eq_refl Hn Ho) as [j Hj]. by rewrite Hj, (lookup_weaken _ _ _ _ Hj (lt_seen _ _ Hl)).
  - assert (Hnone : seen s' !! x = None).
    { destruct (seen s' !! x) as [j|] eqn:Hj; [|done]. destruct (Hob x j Hj) as (n' & Hn' & Ho'). congruence. }
    rewrite Hnone. by rewrite (lookup_weaken_None _ _ _ Hnone (lt_seen _ _ Hl)).
Qed.

Lemma covered_later s s' v : later s s' -> covered (seen s) v -> covered (seen s') v.
Proof. intros Hl Hc x n H1 H2 H3. destruct (Hc x n H1 H2 H3) as [j Hj]. exists j. by apply (lookup_weaken _ _ _ _ Hj (lt_seen _ _ Hl)). Qed.

(** Values of an object reached are here. *)
Lemma vals_here id n : h0 !! id = Some n -> reach h0 v0 id -> brand_of n = None -> Forall here (node_vals n).
Proof.
  intros Hn Hr Hb. rewrite Forall_forall. intros v Hv x ->. split; [by apply (go_closed _ _ Hgraph id n)|by apply (reach_in _ _ id n)].
Qed.

Lemma map_node_ext f g n : Forall (fun v => f v = g v) (node_vals n) -> map_node f n = map_node g n.
Proof.
  destruct n as [| | | |props|]; cbn; [done| | | | |done]; intros H; f_equal.
  - induction entries as [|e es IH]; [done|]. cbn in *. apply Forall_cons in H as [H1 [H2 H]%Forall_cons]. rewrite H1, H2. f_equal. by apply IH.
  - induction items as [|e es IH]; [done|]. cbn. apply Forall_cons in H as [H1 H]. rewrite H1. f_equal. by apply IH.
  - induction items as [|e es IH]; [done|]. cbn. apply Forall_cons in H as [H1 H]. rewrite H1. f_equal. by apply IH.
  - induction props as [|e es IH]; [done|]. cbn in *. apply Forall_cons in H as [H1 H]. rewrite H1. f_equal. by apply IH.
Qed.

Lemma stands_brand s n id : stands s n id id -> id < n0 -> brand_of n = None.
Proof. unfold stands. destruct n as [| | | |props|]; try done. destruct (brand_of (PlainNode props)); [|done]. intros [? _] ?. lia. Qed.

Lemma seen_self o s id n : inv o s -> h0 !! id = Some n -> seen s !! id = Some id -> reach h0 v0 id /\ brand_of n = None.
Proof.
  intros Hi Hn Hs. destruct (iv_seen _ _ Hi id id Hs) as (Hr & n' & Hn' & _ & Hst). rewrite Hn in Hn'. injection Hn' as <-.
  split; [done|]. eapply stands_brand; [exact Hst|]. apply Hn0. by eexists.
Qed.

(** What was finished stays finished. *)
Lemma done_later o s s' id n :
  inv o s -> later s s' -> seen_objects s' -> h0 !! id = Some n -> seen s !! id = Some id -> heap s' !! id = heap s !! id ->
  heap s !! id = Some (map_node (subst (seen s)) n) /\ Forall (covered (seen s)) (node_vals n) ->
  heap s' !! id = Some (map_node (subst (seen s')) n) /\ Forall (covered (seen s')) (node_vals n).
Proof.
  intros Hi Hl Hob Hn Hs Hh [Hd Hc]. destruct (seen_self _ _ _ _ Hi Hn Hs) as [Hr Hb]. pose proof (vals_here id n Hn Hr Hb) as Hv.
  split; [|eapply Forall_impl; [exact Hc|]; intros v; by apply covered_later]. rewrite Hh, Hd. f_equal. apply map_node_ext.
  rewrite Forall_forall in *. intros v Hin. symmetry. apply subst_covered; auto.
Qed.
Lemma seen_old o s a j : inv o s -> seen s !! a = Some j -> j < next s /\ (j < n0 -> j = a).
Proof.
  intros Hi Hj. destruct (iv_seen _ _ Hi a j Hj) as (_ & n & Hn & _ & Hst). pose proof (iv_next _ _ Hi) as Hx.
  assert (Ha : a < n0) by (apply Hn0; by eexists). unfold stands in Hst. destruct n as [| | | |props|]; try (subst; split; [lia|done]).
  destruct (brand_of (PlainNode props)); [destruct Hst; split; [lia|intros; lia]|subst; split; [lia|done]].
Qed.

Lemma measure_seen s m id j (l : list Z) :
  is_Some (h0 !! id) -> seen s !! id = None -> seen m = <[id := j]> (seen s) -> (length (pending m) <= length l)%nat ->
  (measure m + 1 <= size (dom h0 ∖ dom (seen s)) + length l)%nat.
Proof.
  intros Hid Hs Heq Hl. unfold measure. rewrite Heq, dom_insert_L.
  assert (Hsub : dom h0 ∖ ({[id]} ∪ dom (seen s)) ⊆ (dom h0 ∖ dom (seen s)) ∖ {[id]}) by set_solver.
  apply subseteq_size in Hsub. rewrite (size_difference (dom h0 ∖ dom (seen s)) {[id]}) in Hsub; [rewrite size_singleton in Hsub|].
  - assert (0 < size (dom h0 ∖ dom (seen s)))%nat; [|lia].
    assert (Hin : id ∈ dom h0 ∖ dom (seen s)).
    { apply elem_of_difference. split; [by apply elem_of_dom|]. by apply not_elem_of_dom. }
    apply Nat.neq_0_lt_0. intros Hz. apply size_empty_inv in Hz. set_solver.
  - apply singleton_subseteq_l, elem_of_difference. split; [by apply elem_of_dom|by apply not_elem_of_dom].
Qed.

(** A container is queued. *)
Lemma queue_spec o s id n :
  inv o s -> h0 !! id = Some n -> reach h0 v0 id -> object n = true -> seen s !! id = None ->
  brand_of n = None ->
  let s' := with_pending (with_seen s (<[id := id]> (seen s))) (id :: pending s) in
  inv o s' /\ later s s' /\ (measure s' <= measure s)%nat.
Proof.
  intros Hi Hn Hr Ho Hs Hb s'. assert (Hlt : id < n0) by (apply Hn0; by eexists).
  assert (Hl : later s s') by (split; cbn; [lia|by apply insert_subseteq|done|done]).
  assert (Hst : stands s' n id id) by (unfold stands; destruct n as [| | | |props|]; try done; by rewrite Hb).
  assert (Hob : seen_objects s').
  { intros x j. cbn. rewrite lookup_insert_Some. intros [[<- _]|[_ Hj]]; [by exists n|by eapply inv_objects]. }
  assert (Hnew : forall b, seen s !! b = Some id -> b = id) by (intros b Hj; symmetry; by apply (seen_old _ _ _ _ Hi Hj)).
  split; [|split; [exact Hl|]].
  - split; cbn.
    + apply (iv_next _ _ Hi).
    + apply (iv_bound _ _ Hi).
    + intros x j. rewrite lookup_insert_Some. intros [[<- <-]|[_ Hj]]; [by split; [|exists n]|].
      destruct (iv_seen _ _ Hi x j Hj) as (Hrx & m & Hm & Hom & Hsm). split; [done|]. exists m. split; [done|]. split; [done|].
      eapply stands_later; [exact Hl|apply (iv_next _ _ Hi)|exact Hsm].
    + intros a b j. rewrite !lookup_insert_Some. intros [[<- <-]|[Ha Hja]] [[<- Hx]|[Hb' Hjb]]; try done.
      * by apply Hnew in Hjb.
      * subst j. by apply Hnew in Hja.
      * by apply (iv_inj _ _ Hi a b j).
    + apply NoDup_cons. split; [|apply (iv_nodup _ _ Hi)]. intros Hp. apply (iv_pending _ _ Hi) in Hp as [Hp _]. congruence.
    + intros x. rewrite elem_of_cons. intros [->|Hp].
      * split; [apply lookup_insert_eq|]. intros Hx. apply (iv_open _ _ Hi) in Hx as [Hx _]. congruence.
      * apply (iv_pending _ _ Hi) in Hp as [Hp1 Hp2]. split; [|done]. rewrite lookup_insert_ne; [done|]. intros ->. congruence.
    + intros x Hx. destruct (iv_open _ _ Hi x Hx) as [Hx1 Hx2]. split; [|done]. rewrite lookup_insert_ne; [done|]. intros ->. congruence.
    + intros x m Hm Hx. apply (iv_todo _ _ Hi _ _ Hm). destruct (decide (x = id)) as [->|Hne]; [left; congruence|].
      rewrite lookup_insert_ne in Hx by done. rewrite elem_of_cons in Hx. naive_solver.
    + intros x m Hm Hx Hp Hox. rewrite elem_of_cons in Hp. assert (Hne : x <> id) by tauto. rewrite lookup_insert_ne in Hx by done.
      eapply (done_later o s s'); eauto. apply (iv_done _ _ Hi); tauto.
  - pose proof (measure_seen s s' id id (id :: pending s) ltac:(by eexists) Hs eq_refl ltac:(done)) as Hm. unfold measure in *. cbn in *. lia.
Qed.

(** A descriptor is replaced. *)
Lemma built_spec o s s1 id props tag j :
  inv o s -> h0 !! id = Some (PlainNode props) -> reach h0 v0 id -> seen s !! id = None -> brand_of (PlainNode props) = Some tag ->
  build_from_descriptor props tag s = (s1, Ok j) ->
  let s' := with_seen s1 (<[id := j]> (seen s1)) in
  inv o s' /\ later s s' /\ (measure s' <= measure s)%nat /\ forall c, c < n0 -> heap s' !! c = heap s !! c.
Proof.
  intros Hi Hn Hr Hs Hb Hbuild s'. destruct (build_spec _ _ _ _ _ Hbuild) as [Hg Hat]. pose proof (iv_next _ _ Hi) as Hnx.
  assert (Hj : next s <= j < next s1) by (destruct Hat as (? & ? & _ & _ & _ & Hj & _); exact Hj).
  pose proof (gr_next _ _ Hg) as Hgn.
  assert (Hheap : forall c, c < n0 -> heap s1 !! c = heap s !! c) by (intros c Hc; apply (gr_heap _ _ Hg); lia).
  assert (Hlow : forall x m, h0 !! x = Some m -> x < n0) by (intros x m Hm; apply Hn0; by eexists).
  assert (Hl : later s s').
  { split; cbn; [done|rewrite (gr_seen _ _ Hg); by apply insert_subseteq|intros x Hx; apply (gr_heap _ _ Hg); lia|apply (gr_table _ _ Hg)]. }
  assert (Hob : seen_objects s').
  { intros x y. cbn. rewrite (gr_seen _ _ Hg), lookup_insert_Some. intros [[<- _]|[_ Hy]]; [by eexists|by eapply inv_objects]. }
  split; [|split; [exact Hl|split; [|exact Hheap]]].
  - split; cbn; rewrite ?(gr_seen _ _ Hg), ?(gr_pending _ _ Hg).
    + lia.
    + apply (gr_bound _ _ Hg), (iv_bound _ _ Hi).
    + intros x y. rewrite lookup_insert_Some. intros [[<- <-]|[_ Hy]].
      * split; [done|]. exists (PlainNode props). split; [done|]. split; [done|]. unfold stands. rewrite Hb. cbn. split; [lia|].
        eapply instance_at_mono; [| |exact Hat]; cbn; [intros; lia|done].
      * destruct (iv_seen _ _ Hi x y Hy) as (Hrx & m & Hm & Hom & Hsm). split; [done|]. exists m. split; [done|]. split; [done|].
        by eapply (stands_later s s').
    + intros a b y. rewrite !lookup_insert_Some. intros [[<- <-]|[Ha Hya]] [[<- Hx]|[Hb' Hyb]]; try done.
      * apply (seen_old _ _ _ _ Hi) in Hyb. lia.
      * apply (seen_old _ _ _ _ Hi) in Hya. lia.
      * by apply (iv_inj _ _ Hi a b y).
    + apply (iv_nodup _ _ Hi).
    + intros x Hp. apply (iv_pending _ _ Hi) in Hp as [Hp1 Hp2]. split; [|done]. rewrite lookup_insert_ne; [done|]. intros ->. congruence.
    + intros x Hx. destruct (iv_open _ _ Hi x Hx) as (Hx1 & n & n' & H1 & H2 & H3). split; [rewrite lookup_insert_ne; [done|]; intros ->; congruence|].
      exists n, n'. split; [done|]. rewrite Hheap by eauto. by split.
    + intros x m Hm Hx. rewrite Hheap by eauto. apply (iv_todo _ _ Hi _ _ Hm). destruct (decide (x = id)) as [->|Hne]; [left; congruence|].
      by rewrite lookup_insert_ne in Hx.
    + intros x m Hm Hx Hp Hox. assert (Hne : x <> id).
      { intros ->. rewrite lookup_insert_eq in Hx. injection Hx as Hx. apply Hlow in Hm. lia. }
      rewrite lookup_insert_ne in Hx by done. rewrite <- (gr_seen _ _ Hg) at 1 2.
      pose proof (done_later o s s' x m Hi Hl Hob Hm Hx (Hheap x ltac:(eauto)) (iv_done _ _ Hi x m Hm Hx Hp Hox)) as Hd. cbn in Hd.
      by rewrite (gr_seen _ _ Hg) in *.
  - pose proof (measure_seen s s' id j (pending s) ltac:(by eexists) Hs) as Hm. cbn in Hm. rewrite (gr_seen _ _ Hg), (gr_pending _ _ Hg) in Hm.
    specialize (Hm eq_refl ltac:(done)). unfold measure in *. cbn in *. rewrite (gr_seen _ _ Hg), (gr_pending _ _ Hg) in *. lia.
Qed.
(** *** One visit *)

Record visited (o : option Z) (s s' : Walk) : Prop := {
  vi_inv : inv o s';
  vi_later : later s s';
  vi_measure : (measure s' <= measure s)%nat;
  vi_open c : o = Some c -> heap s' !! c = heap s !! c;
}.

Lemma visited_refl o s : inv o s -> visited o s s.
Proof. by split. Qed.
Lemma visited_trans o s1 s2 s3 : visited o s1 s2 -> visited o s2 s3 -> visited o s1 s3.
Proof.
  intros [I1 L1 M1 O1] [I2 L2 M2 O2]. split; [done|by etrans|lia|]. intros c Hc. by rewrite O2, O1.
Qed.

Lemma open_low o s c : inv o s -> o = Some c -> c < n0.
Proof. intros Hi Hc. destruct (iv_open _ _ Hi c Hc) as (_ & n & _ & Hn & _). apply Hn0. by eexists. Qed.

Lemma visit_spec o s s' v r :
  inv o s -> here v -> visit v s = (s', Ok r) ->
  visited o s s' /\ covered (seen s') v /\ default v r = subst (seen s') v.
Proof.
  intros Hi Hh. destruct v as [| | | | |id]; cbn [visit]; try (intros [= <- <-]; split; [by apply visited_refl|]; by split).
  destruct (Hh id eq_refl) as [[n Hn] Hr]. destruct (shape_now _ _ _ _ Hi Hn) as (n' & Hn' & Hsh).
  intros (s1 & s1' & [= <- <-] & Hv)%bind_ok_inv. rewrite Hn' in Hv.
  assert (Hcov : forall m j, m !! id = Some j -> covered m (Ref id)) by (intros m j Hj x ? [= <-] _ _; by exists j).
  destruct (object n) eqn:Hob.
  - destruct (seen s !! id) as [j|] eqn:Hs.
    + assert (s' = s /\ default (Ref id) r = Ref j) as [-> ->].
      { destruct n'; [by destruct n| | | | |]; injection Hv as <- <-; (split; [done|]); by destruct (Z.eqb_spec j id) as [->|]. }
      split; [by apply visited_refl|]. split; [by eapply Hcov|]. cbn. by rewrite Hs.
    + assert (n' = n) as -> by (pose proof (iv_todo _ _ Hi id n Hn ltac:(left; congruence)); congruence).
      assert (Hq : (modify (fun s => with_pending (with_seen s (<[id := id]> (seen s))) (id :: pending s));; mret None) s = (s', Ok r) ->
        brand_of n = None ->
        visited o s s' /\ covered (seen s') (Ref id) /\ default (Ref id) r = subst (seen s') (Ref id)).
      { intros Hv' Hb. clear Hv. injection Hv' as <- <-. destruct (queue_spec o s id n Hi Hn Hr Hob Hs Hb) as (H1 & H2 & H3). split; [by split|].
        split; [eapply Hcov; apply lookup_insert_eq|]. cbn. by rewrite lookup_insert_eq. }
      destruct n as [| | | |props|]; try done; try (by apply Hq). destruct (brand_of (PlainNode props)) as [tag|] eqn:Hb; [|by apply Hq].
      apply bind_ok_inv in Hv as (s1 & j & Hbuild & [= <- <-]). destruct (built_spec o s s1 id props tag j Hi Hn Hr Hs Hb Hbuild) as (H1 & H2 & H3 & H4).
      split; [split; [done|done|done|]; intros c Hc; apply H4; by eapply open_low|].
      split; [eapply Hcov; apply lookup_insert_eq|]. cbn. by rewrite lookup_insert_eq.
  - destruct n as [u| | | | |]; try done. destruct n'; try done. injection Hv as <- <-. split; [by apply visited_refl|].
    split; [intros x m [= <-] Hm Ho; rewrite Hn in Hm; injection Hm as <-; done|]. cbn.
    destruct (seen s !! id) as [j|] eqn:Hs; [|done]. destruct (inv_objects _ _ Hi id j Hs) as (m & Hm & Ho). rewrite Hn in Hm. by injection Hm as <-.
Qed.

Lemma still_running_visited o s s' : inv o s -> still_running s = (s', Ok tt) -> visited o s s'.
Proof.
  intros Hi. unfold still_running. destruct (stops (steps s)); [done|]. intros [= <-].
  destruct Hi. split; [by split|by split|done|done].
Qed.

(** *** The loops *)

Lemma bools_or3 a b c : a || b || c = false -> a = false /\ b = false /\ c = false.
Proof. by destruct a, b, c. Qed.
Lemma not_changed v r : changed_by r = false -> default v r = v.
Proof. by destruct r. Qed.

Lemma visit_entries_spec o es s s' pairs changed :
  inv o s -> Forall here (flat_map (fun e => [e.1; e.2]) es) -> visit_entries es s = (s', Ok (pairs, changed)) ->
  visited o s s' /\ Forall (covered (seen s')) (flat_map (fun e => [e.1; e.2]) es) /\
  pairs = map (fun e => (subst (seen s') e.1, subst (seen s') e.2)) es /\ (changed = false -> pairs = es).
Proof.
  revert s pairs changed. induction es as [|[k v] es IH]; intros s pairs changed Hi Hh; cbn [visit_entries].
  { intros [= <- <- <-]. split; [by apply visited_refl|]. by repeat split. }
  cbn in Hh. apply Forall_cons in Hh as [Hk [Hv Hh]%Forall_cons].
  intros (s1 & [] & Hs1 & H1)%bind_ok_inv. pose proof (still_running_visited _ _ _ Hi Hs1) as V1.
  apply bind_ok_inv in H1 as (s2 & rk & Hv2 & H1). destruct (visit_spec _ _ _ _ _ (vi_inv _ _ _ V1) Hk Hv2) as (V2 & C2 & E2).
  apply bind_ok_inv in H1 as (s3 & rv & Hv3 & H1). destruct (visit_spec _ _ _ _ _ (vi_inv _ _ _ V2) Hv Hv3) as (V3 & C3 & E3).
  apply bind_ok_inv in H1 as (s4 & [ps ch] & Hv4 & [= <- <- <-]). destruct (IH _ _ _ (vi_inv _ _ _ V3) Hh Hv4) as (V4 & C4 & -> & E4).
  pose proof (visited_trans _ _ _ _ V3 V4) as V34. pose proof (inv_objects _ _ (vi_inv _ _ _ V4)) as Hob.
  split; [eapply visited_trans; [exact V1|]; by eapply visited_trans|].
  split; [cbn; constructor; [by eapply covered_later, C2; apply V34|constructor; [by eapply covered_later, C3; apply V4|done]]|].
  cbn. rewrite E2, E3. rewrite <- (subst_covered s2 s4 k Hob (vi_later _ _ _ V34) Hk C2), <- (subst_covered s3 s4 v Hob (vi_later _ _ _ V4) Hv C3).
  split; [done|]. intros (Ha & Hb & Hc)%bools_or3. f_equal; [|by apply E4].
  rewrite (subst_covered s2 s4 k Hob (vi_later _ _ _ V34) Hk C2), (subst_covered s3 s4 v Hob (vi_later _ _ _ V4) Hv C3), <- E2, <- E3.
  by rewrite !not_changed.
Qed.

Lemma visit_values_spec o items s s' vs changed :
  inv o s -> Forall here items -> visit_values items s = (s', Ok (vs, changed)) ->
  visited o s s' /\ Forall (covered (seen s')) items /\ vs = map (subst (seen s')) items /\ (changed = false -> vs = items).
Proof.
  revert s vs changed. induction items as [|v items IH]; intros s vs changed Hi Hh; cbn [visit_values].
  { intros [= <- <- <-]. split; [by apply visited_refl|]. by repeat split. }
  apply Forall_cons in Hh as [Hv Hh]. intros (s1 & [] & Hs1 & H1)%bind_ok_inv. pose proof (still_running_visited _ _ _ Hi Hs1) as V1.
  apply bind_ok_inv in H1 as (s3 & rv & Hv3 & H1). destruct (visit_spec _ _ _ _ _ (vi_inv _ _ _ V1) Hv Hv3) as (V3 & C3 & E3).
  apply bind_ok_inv in H1 as (s4 & [ps ch] & Hv4 & [= <- <- <-]). destruct (IH _ _ _ (vi_inv _ _ _ V3) Hh Hv4) as (V4 & C4 & -> & E4).
  pose proof (inv_objects _ _ (vi_inv _ _ _ V4)) as Hob.
  split; [eapply visited_trans; [exact V1|]; by eapply visited_trans|].
  split; [constructor; [by eapply covered_later, C3; apply V4|done]|].
  cbn. rewrite E3, <- (subst_covered s3 s4 v Hob (vi_later _ _ _ V4) Hv C3).
  split; [done|]. intros [Hb Hc]%orb_false_iff. f_equal; [|by apply E4].
  rewrite (subst_covered s3 s4 v Hob (vi_later _ _ _ V4) Hv C3), <- E3. by apply not_changed.
Qed.
(** What a step of the walk leaves. *)
Record walked (o : option Z) (s s' : Walk) : Prop := {
  wa_inv : inv o s';
  wa_later : later s s';
  wa_measure : (measure s' <= measure s)%nat;
}.

Lemma walked_trans o o' s1 s2 s3 : walked o s1 s2 -> walked o' s2 s3 -> walked o' s1 s3.
Proof. intros [I1 L1 M1] [I2 L2 M2]. split; [done|by etrans|lia]. Qed.
Lemma visited_walked o s s' : visited o s s' -> walked o s s'.
Proof. by intros [? ? ? _]. Qed.

(** The open object may be written, its shape kept. *)
Lemma write_spec c n n' s :
  inv (Some c) s -> h0 !! c = Some n -> shape n' = shape n -> walked (Some c) s (with_heap s (<[c := n']> (heap s))).
Proof.
  intros Hi Hn Hsh. pose proof (open_low _ _ c Hi eq_refl) as Hc. pose proof (iv_next _ _ Hi) as Hnx.
  assert (Hl : later s (with_heap s (<[c := n']> (heap s)))).
  { split; cbn; [lia|done| |done]. intros id Hid. apply lookup_insert_ne. lia. }
  split; [|exact Hl|done]. split; cbn.
  - done.
  - intros id. destruct (decide (id = c)) as [->|Hne]; [lia|]. rewrite lookup_insert_ne by done. apply (iv_bound _ _ Hi).
  - intros id j Hj. destruct (iv_seen _ _ Hi id j Hj) as (H1 & m & H2 & H3 & H4). split; [done|]. exists m. split; [done|]. split; [done|].
    by eapply stands_later.
  - apply (iv_inj _ _ Hi).
  - apply (iv_nodup _ _ Hi).
  - apply (iv_pending _ _ Hi).
  - intros id [= <-]. destruct (iv_open _ _ Hi c eq_refl) as [Hs _]. split; [done|]. exists n, n'. split; [done|]. split; [apply lookup_insert_eq|done].
  - intros id m Hm Hx. assert (Hne : id <> c).
    { intros ->. destruct (iv_open _ _ Hi c eq_refl) as [Hs _]. destruct Hx as [Hx|Hp]; [done|]. by apply (iv_pending _ _ Hi) in Hp as [_ Hp]. }
    rewrite lookup_insert_ne by done. by apply (iv_todo _ _ Hi).
  - intros id m Hm Hx Hp Ho. rewrite lookup_insert_ne by congruence. by apply (iv_done _ _ Hi).
Qed.

(** The open object is finished. *)
Lemma close_spec c n s :
  inv (Some c) s -> h0 !! c = Some n -> heap s !! c = Some (map_node (subst (seen s)) n) -> Forall (covered (seen s)) (node_vals n) -> inv None s.
Proof.
  intros Hi Hn Hh Hc. destruct Hi as [I1 I2 I3 I4 I5 I6 I7 I8 I9]. split; try done.
  - intros id Hp. split; [by apply I6|done].
  - intros id m Hm Hs Hp _. destruct (decide (id = c)) as [->|Hne]; [rewrite Hn in Hm; injection Hm as <-; by split|].
    apply I9; try done. congruence.
Qed.

(** The next object is taken off the list. *)
Lemma pop_spec s c rest :
  inv None s -> pending s = c :: rest ->
  let s1 := with_pending s rest in
  inv (Some c) s1 /\ later s s1 /\ (measure s1 + 1 = measure s)%nat /\
  exists n, h0 !! c = Some n /\ heap s1 !! c = Some n /\ reach h0 v0 c /\ brand_of n = None.
Proof.
  intros Hi Hp s1. assert (Hin : c ∈ pending s) by (rewrite Hp; set_solver). destruct (iv_pending _ _ Hi c Hin) as [Hs _].
  destruct (iv_seen _ _ Hi c c Hs) as (Hr & n & Hn & Ho & Hst). pose proof (iv_todo _ _ Hi c n Hn (or_intror Hin)) as Hh.
  pose proof (iv_nodup _ _ Hi) as Hnd. rewrite Hp in Hnd. apply NoDup_cons in Hnd as [Hc Hnd].
  split; [|split; [by split|split; [unfold measure; cbn; rewrite Hp; cbn; lia|]]].
  - destruct Hi as [I1 I2 I3 I4 I5 I6 I7 I8 I9]. split; cbn; try done.
    + intros id Hid. split; [apply I6; rewrite Hp; set_solver|]. intros [= <-]. done.
    + intros id [= <-]. split; [done|]. by exists n, n.
    + intros id m Hm Hx. apply I8; [done|]. destruct Hx as [Hx|Hx]; [by left|right; rewrite Hp; set_solver].
    + intros id m Hm Hx Hq Hne. apply I9; try done. rewrite Hp. intros [->|Hq']%elem_of_cons; [congruence|done].
  - exists n. split; [done|]. split; [done|]. split; [done|]. eapply (seen_self None s c n); eauto.
Qed.

(** *** The loops that write as they go *)

Definition psub {K} (m : gmap Z Z) (e : K * Val) : K * Val := (e.1, subst m e.2).

Section Each.
Context {K : Type} (write : K -> Val -> Node -> Node) (mk : list (K * Val) -> Node) (keys_ok : list K -> Prop).
Context (write_law : forall pre k x v rest, keys_ok (map fst (pre ++ (k, x) :: rest)) -> write k v (mk (pre ++ (k, x) :: rest)) = mk (pre ++ (k, v) :: rest)).
Context (shape_law : forall l l', map fst l = map fst l' -> shape (mk l) = shape (mk l')).

Lemma psub_keys m (l : list (K * Val)) : map fst (map (psub m) l) = map fst l.
Proof. rewrite map_map. by apply map_ext. Qed.

Lemma psub_ext m m' (l : list (K * Val)) : Forall (fun v => subst m v = subst m' v) (map snd l) -> map (psub m) l = map (psub m') l.
Proof. induction l as [|e l IH]; [done|]. cbn. intros [H Hl]%Forall_cons. rewrite IH by done. unfold psub at 1 3. by rewrite H. Qed.

Lemma visit_each_spec c pre items s s' :
  inv (Some c) s -> h0 !! c = Some (mk (pre ++ items)) -> Forall here (map snd (pre ++ items)) -> keys_ok (map fst (pre ++ items)) ->
  Forall (covered (seen s)) (map snd pre) -> heap s !! c = Some (mk (map (psub (seen s)) pre ++ items)) ->
  visit_each write c items s = (s', Ok tt) ->
  walked (Some c) s s' /\ heap s' !! c = Some (mk (map (psub (seen s')) (pre ++ items))) /\ Forall (covered (seen s')) (map snd (pre ++ items)).
Proof.
  revert pre s. induction items as [|[k x] items IH]; intros pre s Hi Hn Hh Hk Hc Hm; cbn [visit_each].
  { intros [= <-]. rewrite app_nil_r in *. split; [by apply visited_walked, visited_refl|]. by split. }
  intros (s1 & [] & Hs1 & H1)%bind_ok_inv. pose proof (still_running_visited _ _ _ Hi Hs1) as V1.
  assert (Hx : here x) by (rewrite map_app in Hh; apply Forall_app in Hh as [_ Hh]; by apply Forall_cons in Hh as [? _]).
  apply bind_ok_inv in H1 as (s2 & r & Hv2 & H1). destruct (visit_spec _ _ _ _ _ (vi_inv _ _ _ V1) Hx Hv2) as (V2 & C2 & E2).
  pose proof (visited_trans _ _ _ _ V1 V2) as V12. pose proof (inv_objects _ _ (vi_inv _ _ _ V12)) as Hob.
  assert (Hpre : map (psub (seen s2)) pre = map (psub (seen s)) pre).
  { apply psub_ext. rewrite Forall_forall in *. intros v Hv. apply subst_covered; [done|apply V12| |by apply Hc].
    apply Hh. rewrite map_app. apply elem_of_app. by left. }
  assert (Hm2 : heap s2 !! c = Some (mk (map (psub (seen s2)) pre ++ (k, x) :: items))) by (rewrite Hpre, (vi_open _ _ _ V12 c eq_refl); exact Hm).
  apply bind_ok_inv in H1 as (s3 & [] & Hw & H1).
  assert (Hkeys : forall m y, map fst (map (psub m) pre ++ (k, y) :: items) = map fst (pre ++ (k, x) :: items)).
  { intros m y. rewrite !map_app, psub_keys. done. }
  assert (W : walked (Some c) s2 s3 /\ seen s3 = seen s2 /\ heap s3 !! c = Some (mk (map (psub (seen s2)) pre ++ (k, subst (seen s2) x) :: items))).
  { rewrite <- E2. destruct r as [v|]; cbn [default from_option id] in *.
    - injection Hw as <-.
      assert (Heq : alter (write k v) c (heap s2) = <[c := mk (map (psub (seen s2)) pre ++ (k, v) :: items)]> (heap s2)).
      { apply map_eq. intros i. destruct (decide (i = c)) as [->|Hne].
        - rewrite lookup_alter_eq, lookup_insert_eq, Hm2. cbn. f_equal. apply write_law. by rewrite Hkeys.
        - by rewrite lookup_alter_ne, lookup_insert_ne. }
      cbn. rewrite Heq. split; [|split; [done|apply lookup_insert_eq]].
      eapply write_spec; [apply V12|exact Hn|]. apply shape_law. by rewrite Hkeys.
    - injection Hw as <-. split; [by apply visited_walked, visited_refl, V12|]. by split. }
  destruct W as (W3 & S3 & M3).
  destruct (IH (pre ++ [(k, x)]) s3) as (W4 & M4 & C4); rewrite <- ?app_assoc; cbn [app]; try done.
  - apply W3.
  - rewrite map_app. apply Forall_app. rewrite S3. split; [|by repeat constructor].
    eapply Forall_impl; [exact Hc|]. intros v. apply covered_later, V12.
  - rewrite map_app, S3, <- app_assoc. exact M3.
  - rewrite <- app_assoc in M4, C4. split; [|by split]. eapply walked_trans; [by apply visited_walked|]. by eapply walked_trans.
Qed.
End Each.
(** *** One object *)

Lemma imap_pair_snd {A} (l : list A) (f : nat -> nat) : map snd (imap (fun i x => (f i, x)) l) = l.
Proof. revert f. induction l as [|x l IH]; intros f; [done|]. cbn. f_equal. apply (IH (f ∘ S)). Qed.

Lemma imap_pair_fst {A} (l : list A) n : map fst (imap (fun i x => ((n + i)%nat, x)) l) = seq n (length l).
Proof.
  revert n. induction l as [|x l IH]; intros n; [done|]. cbn. f_equal; [lia|]. rewrite <- (IH (S n)). f_equal. apply imap_ext.
  intros i y _. cbn. f_equal. lia.
Qed.

Definition array_of (l : list (nat * Val)) : Node := ArrayNode (map snd l).
Definition index_keys (ks : list nat) : Prop := ks = seq 0 (length ks).

Lemma set_item_law pre k x v rest :
  index_keys (map fst (pre ++ (k, x) :: rest)) -> set_item k v (array_of (pre ++ (k, x) :: rest)) = array_of (pre ++ (k, v) :: rest).
Proof.
  unfold index_keys. intros Hk. assert (Hl : k = length pre).
  { assert (H1 : map fst (pre ++ (k, x) :: rest) !! length pre = Some k).
    { rewrite map_app, lookup_app_r by (by rewrite length_map). by rewrite length_map, Nat.sub_diag. }
    rewrite Hk in H1. apply lookup_seq in H1 as [H1 _]. lia. }
  subst k. cbn. unfold array_of. f_equal. rewrite !map_app. cbn. rewrite insert_app_r_alt by (by rewrite length_map).
  by rewrite length_map, Nat.sub_diag.
Qed.

Lemma set_prop_law pre k x v rest :
  NoDup (map fst (pre ++ (k, x) :: rest)) -> set_prop k v (PlainNode (pre ++ (k, x) :: rest)) = PlainNode (pre ++ (k, v) :: rest).
Proof.
  intros Hk. rewrite map_app in Hk. apply NoDup_app in Hk as (_ & H1 & H2). cbn in H2. apply NoDup_cons in H2 as [H2 _].
  cbn. f_equal. rewrite map_app. cbn. rewrite decide_True by done.
  assert (Hid : forall l : list (string * Val), k ∉ map fst l -> map (fun p => if decide (p.1 = k) then (k, v) else p) l = l).
  { induction l as [|[a b] l IH]; [done|]. cbn. intros Hn. rewrite not_elem_of_cons in Hn. rewrite decide_False by naive_solver. f_equal. apply IH. tauto. }
  f_equal; [apply Hid; intros Hin; apply (H1 k Hin); set_solver|]. f_equal. by apply Hid.
Qed.

(** Distinct keys stay distinct. *)
Lemma subst_distinct o s a b :
  inv o s -> here a -> here b -> same_value_zero a b = false -> same_value_zero (subst (seen s) a) (subst (seen s) b) = false.
Proof.
  intros Hi Ha Hb Hab. destruct a as [| | | | |x], b as [| | | | |y]; try done. cbn in *. destruct (Z.eqb_spec x y) as [|Hne]; [done|].
  assert (Hx : x < n0) by (apply Hn0; by destruct (Ha x eq_refl)). assert (Hy : y < n0) by (apply Hn0; by destruct (Hb y eq_refl)).
  apply Z.eqb_neq. destruct (seen s !! x) as [j|] eqn:Ej, (seen s !! y) as [j'|] eqn:Ej'; cbn; [| | |done].
  - intros <-. by apply Hne, (iv_inj _ _ Hi x y j).
  - intros ->. pose proof (seen_old _ _ _ _ Hi Ej) as [_ H]. by rewrite (H Hy) in Hne.
  - intros <-. pose proof (seen_old _ _ _ _ Hi Ej') as [_ H]. by rewrite (H Hx) in Hne.
Qed.

Lemma distinct_subst o s l : inv o s -> Forall here l -> distinct l -> distinct (map (subst (seen s)) l).
Proof.
  intros Hi. induction l as [|a l IH]; [done|]. cbn. intros [Ha Hl]%Forall_cons [H1 H2]. split; [|by apply IH].
  rewrite Forall_map. rewrite Forall_forall in *. intros b Hb. cbn. eapply subst_distinct; eauto.
Qed.

Lemma map_set_new k v es : Forall (fun e => same_value_zero e.1 k = false) es -> map_set k v es = es ++ [(k, v)].
Proof. induction es as [|e es IH]; [done|]. cbn. intros [-> H]%Forall_cons. f_equal. by apply IH. Qed.

Lemma map_set_all acc es :
  distinct (map fst (acc ++ es)) -> fold_left (fun es p => map_set p.1 p.2 es) es acc = acc ++ es.
Proof.
  revert acc. induction es as [|[k v] es IH]; intros acc; [by rewrite app_nil_r|]. cbn. intros Hd.
  assert (Hn : Forall (fun e => same_value_zero e.1 k = false) acc).
  { clear IH. induction acc as [|a acc IH]; [done|]. cbn in Hd. destruct Hd as [H1 H2]. constructor; [|by apply IH].
    rewrite map_app in H1. apply Forall_app in H1 as [_ H1]. by apply Forall_cons in H1 as [? _]. }
  rewrite map_set_new, IH by (rewrite <- ?app_assoc; done). by rewrite <- app_assoc.
Qed.

Lemma set_add_new v items : Forall (fun x => same_value_zero x v = false) items -> set_add v items = items ++ [v].
Proof. induction items as [|e es IH]; [done|]. cbn. intros [-> H]%Forall_cons. f_equal. by apply IH. Qed.

Lemma set_add_all acc items : distinct (acc ++ items) -> fold_left (fun es x => set_add x es) items acc = acc ++ items.
Proof.
  revert acc. induction items as [|v items IH]; intros acc; [by rewrite app_nil_r|]. cbn. intros Hd.
  assert (Hn : Forall (fun e => same_value_zero e v = false) acc).
  { clear IH. induction acc as [|a acc IH]; [done|]. cbn in Hd. destruct Hd as [H1 H2]. constructor; [|by apply IH].
    apply Forall_app in H1 as [_ H1]. by apply Forall_cons in H1 as [? _]. }
  rewrite set_add_new, IH by (rewrite <- ?app_assoc; done). by rewrite <- app_assoc.
Qed.

Lemma Forall_fst_vals {P : Val -> Prop} (es : list (Val * Val)) : Forall P (flat_map (fun e => [e.1; e.2]) es) -> Forall P (map fst es).
Proof. induction es as [|e es IH]; [done|]. cbn. intros [H1 [_ H2]%Forall_cons]%Forall_cons. constructor; [done|by apply IH]. Qed.

(** Closing the open object: it holds what the walk makes of its content. *)
Lemma walked_closed c n s s1 s2 :
  h0 !! c = Some n -> reach h0 v0 c -> brand_of n = None -> visited (Some c) s s1 -> walked (Some c) s1 s2 ->
  heap s2 !! c = Some (map_node (subst (seen s2)) n) -> Forall (covered (seen s2)) (node_vals n) -> walked None s s2.
Proof.
  intros Hn Hr Hb V1 [I L Me] Hh2 Hc. apply visited_walked in V1 as [_ L1 M1]. split; [by eapply close_spec|by etrans|lia].
Qed.

(** A [Map] or a [Set]: filled again if a member changed. *)
Lemma rebuilt_spec c n n' (changed : bool) s1 s2 s' :
  h0 !! c = Some n -> heap s1 !! c = Some n -> visited (Some c) s1 s2 -> shape n' = shape n ->
  n' = map_node (subst (seen s2)) n -> (changed = false -> n' = n) ->
  (if changed then set_node c n' else mret tt) s2 = (s', Ok tt) ->
  walked (Some c) s1 s' /\ heap s' !! c = Some (map_node (subst (seen s')) n) /\ seen s' = seen s2.
Proof.
  intros Hn Hh V Hsh Hn' Hsame. pose proof (visited_walked _ _ _ V) as W. destruct changed; intros [= <-].
  - split; [eapply walked_trans; [exact W|]; apply (write_spec c n); [apply V|done..]|]. split; [cbn; by rewrite lookup_insert_eq, Hn'|done].
  - split; [exact W|]. split; [|done]. rewrite (vi_open _ _ _ V c eq_refl), Hh. by rewrite <- Hn', Hsame.
Qed.

Lemma walk_object_spec c n s s' :
  inv (Some c) s -> h0 !! c = Some n -> heap s !! c = Some n -> reach h0 v0 c -> brand_of n = None ->
  walk_object c s = (s', Ok tt) -> walked None s s'.
Proof.
  intros Hi Hn Hh Hr Hb (s1 & [] & Hs1 & H1)%bind_ok_inv. pose proof (still_running_visited _ _ _ Hi Hs1) as V1.
  apply bind_ok_inv in H1 as (s1' & s1'' & [= <- <-] & H1). pose proof (vi_open _ _ _ V1 c eq_refl) as Hh1. rewrite Hh in Hh1. rewrite Hh1 in H1.
  pose proof (vals_here c n Hn Hr Hb) as Hv. pose proof (walked_closed c n s s1 s' Hn Hr Hb V1) as Hclose.
  destruct n as [u|entries|items|items|props|m].
  - injection H1 as <-. by apply Hclose; [apply visited_walked, visited_refl, V1|..].
  - apply bind_ok_inv in H1 as (s2 & [pairs changed] & Hve & H1). destruct (visit_entries_spec _ _ _ _ _ _ (vi_inv _ _ _ V1) Hv Hve) as (V2 & C2 & Hp & Hun).
    rewrite map_set_all in H1.
    2:{ cbn [app]. rewrite Hp, map_map. cbn. rewrite <- (map_map fst (subst (seen s2))). eapply distinct_subst; [apply V2|by apply Forall_fst_vals|].
        by apply (go_keys _ _ Hgraph c). }
    destruct (rebuilt_spec c (MapNode entries) (MapNode pairs) changed s1 s2 s') as (W & Hm & Hseen);
      [done|done|done|done|by rewrite Hp|intros Hc; by rewrite Hun|done|]. apply Hclose; [exact W|exact Hm|by rewrite Hseen].
  - apply bind_ok_inv in H1 as (s2 & [vs changed] & Hve & H1). destruct (visit_values_spec _ _ _ _ _ _ (vi_inv _ _ _ V1) Hv Hve) as (V2 & C2 & Hp & Hun).
    cbn [node_vals] in Hp, Hun. rewrite set_add_all in H1.
    2:{ cbn [app]. rewrite Hp. eapply distinct_subst; [apply V2|exact Hv|]. by apply (go_items _ _ Hgraph c). }
    destruct (rebuilt_spec c (SetNode items) (SetNode vs) changed s1 s2 s') as (W & Hm & Hseen);
      [done|done|done|done|by rewrite Hp|intros Hc; by rewrite Hun|done|]. apply Hclose; [exact W|exact Hm|by rewrite Hseen].
  - pose proof (imap_pair_snd items id) as Hsnd. pose proof (imap_pair_fst items 0) as Hfst.
    change (imap (fun i x => (id i, x)) items) with (imap pair items) in Hsnd. change (imap (fun i x => ((0 + i)%nat, x)) items) with (imap pair items) in Hfst.
    destruct (visit_each_spec set_item array_of index_keys set_item_law) with (c := c) (pre := @nil (nat * Val)) (items := imap pair items) (s := s1) (s' := s')
      as (W & Hm & Hc); try done; cbn [app map].
    + intros l l' Hl. unfold array_of. cbn. f_equal. apply (f_equal length) in Hl. by rewrite !length_map in *.
    + apply V1.
    + unfold array_of. by rewrite Hsnd.
    + by rewrite Hsnd.
    + unfold index_keys. rewrite Hfst. by rewrite length_seq.
    + unfold array_of. by rewrite Hsnd.
    + cbn [app] in Hm, Hc. apply Hclose; [exact W| |by rewrite Hsnd in Hc]. rewrite Hm. unfold array_of. cbn. do 2 f_equal.
      rewrite map_map. cbn. rewrite <- (map_map snd (subst (seen s'))). by rewrite Hsnd.
  - apply bind_ok_inv in H1 as (s2 & [] & Hs2 & H1). pose proof (still_running_visited _ _ _ (vi_inv _ _ _ V1) Hs2) as V2.
    pose proof (visited_trans _ _ _ _ V1 V2) as V12.
    destruct (visit_each_spec set_prop PlainNode (fun ks => NoDup ks) set_prop_law) with (c := c) (pre := @nil (string * Val)) (items := props) (s := s2) (s' := s')
      as (W & Hm & Hc); try done.
    + apply V2.
    + by apply (go_props _ _ Hgraph c).
    + cbn [app map]. rewrite (vi_open _ _ _ V12 c eq_refl). exact Hh.
    + apply Hclose; [by eapply walked_trans; [apply visited_walked|]|exact Hm|exact Hc].
  - injection H1 as <-. by apply Hclose; [apply visited_walked, visited_refl, V1|..].
Qed.
(** *** To the end *)

Lemma drain_spec fuel s s' r :
  inv None s -> drain fuel s = (s', Ok r) -> walked None s s' /\ (r = Some tt -> pending s' = []) /\ ((measure s < fuel)%nat -> r = Some tt).
Proof.
  revert s. induction fuel as [|fuel IH]; intros s Hi; cbn [drain].
  { intros [= <- <-]. split; [by apply visited_walked, visited_refl|]. split; [done|lia]. }
  intros (s0 & s0' & [= <- <-] & H1)%bind_ok_inv. destruct (pending s) as [|c rest] eqn:Hp.
  { injection H1 as <- <-. split; [by apply visited_walked, visited_refl|]. by split. }
  apply bind_ok_inv in H1 as (s1 & [] & [= <-] & H1). apply bind_ok_inv in H1 as (s2 & [] & Hw & H1).
  destruct (pop_spec s c rest Hi Hp) as (I1 & L1 & M1 & n & Hn & Hh & Hr & Hb).
  destruct (walk_object_spec c n _ _ I1 Hn Hh Hr Hb Hw) as [I2 L2 M2]. destruct (IH s2 I2 H1) as ([I3 L3 M3] & Hdone & Hfuel).
  split; [split; [done|by etrans; [exact L1|etrans]|lia]|]. split; [done|]. intros Hf. apply Hfuel. lia.
Qed.

Definition start (t : option Inb.StreamTableState) : Walk := mk_Walk h0 ∅ [] t n0 0.

Lemma start_inv t : inv None (start t).
Proof.
  split; cbn; try done; try apply NoDup_nil_2; try lia; try set_solver.
Qed.

Lemma root_here : here v0.
Proof. intros x ->. split; [by apply (go_root _ _ Hgraph)|by apply reach_here]. Qed.

Lemma measure_start t : measure (start t) = size h0.
Proof. unfold measure. cbn. rewrite dom_empty_L, difference_empty_L, size_dom. lia. Qed.

(** A value that is replaced queues nothing. *)
Lemma visit_replaces v s s' v' : visit v s = (s', Ok (Some v')) -> pending s' = pending s.
Proof.
  destruct v as [| | | | |id]; cbn [visit]; try (by intros [=]). intros (s1 & s1' & [= <- <-] & Hv)%bind_ok_inv.
  destruct (heap s !! id) as [n|]; [|by revert Hv; intros [=]].
  destruct n as [|es|items|items|props|m]; [by revert Hv; intros [=]|..]; (destruct (seen s !! id) as [j|]; [by revert Hv; intros [= <- _]|]).
  1-3,5: by revert Hv; intros [=].
  destruct (brand_of (PlainNode props)) as [tag|]; [|by revert Hv; intros [=]].
  apply bind_ok_inv in Hv as (s1 & j & Hb & [= <- _]). apply build_spec in Hb as [Hg _]. cbn. by rewrite (gr_pending _ _ Hg).
Qed.

Lemma rehydrate_spec fuel t s' r :
  rehydrate fuel v0 (start t) = (s', Ok r) ->
  walked None (start t) s' /\ covered (seen s') v0 /\
  (forall v', r = Some v' -> v' = subst (seen s') v0 /\ pending s' = []) /\ ((size h0 < fuel)%nat -> r <> None).
Proof.
  intros (s1 & replaced & Hv & H1)%bind_ok_inv.
  destruct (visit_spec _ _ _ _ _ (start_inv t) root_here Hv) as (V1 & C1 & E1).
  destruct replaced as [v|].
  - injection H1 as <- <-. split; [by apply visited_walked|]. split; [done|]. split; [|done]. intros v' [= <-].
    split; [exact E1|]. by rewrite (visit_replaces _ _ _ _ Hv).
  - apply bind_ok_inv in H1 as (s2 & done & Hd & [= <- <-]). destruct (drain_spec _ _ _ _ (vi_inv _ _ _ V1) Hd) as (W2 & D2 & F2).
    split; [eapply walked_trans; [by apply visited_walked|exact W2]|]. split; [eapply covered_later; [apply W2|exact C1]|]. split.
    + intros v' Hv'. destruct done as [[]|]; [|done]. injection Hv' as <-. split; [|by apply D2].
      rewrite (subst_covered s1 s2 v0 (inv_objects _ _ (wa_inv _ _ _ W2)) (wa_later _ _ _ W2) root_here C1). exact E1.
    + intros Hf. rewrite F2; [done|]. pose proof (vi_measure _ _ _ V1) as Hm. rewrite measure_start in Hm. lia.
Qed.

Lemma vals_object n x : Ref x ∈ node_vals n -> object n = true.
Proof. destruct n; cbn; [set_solver|done..]. Qed.

(** Everything reached has been seen. *)
Lemma all_seen s id n : inv None s -> pending s = [] -> covered (seen s) v0 -> reach h0 v0 id -> h0 !! id = Some n -> object n = true -> is_Some (seen s !! id).
Proof.
  intros Hi Hp Hc Hr. revert n. induction Hr as [id Hv|id m x Hr IH Hm Hb Hx]; intros n Hn Ho; [by eapply Hc|].
  destruct (IH m Hm (vals_object m x Hx)) as [j Hj]. assert (j = id) as ->.
  { destruct (iv_seen _ _ Hi id j Hj) as (_ & m' & Hm' & _ & Hst). rewrite Hm in Hm'. injection Hm' as <-.
    unfold stands in Hst. destruct m as [| | | |props|]; try done. by rewrite Hb in Hst. }
  destruct (iv_done _ _ Hi id m Hm Hj) as [_ Hcov]; [rewrite Hp; set_solver|done|]. rewrite Forall_forall in Hcov. by apply (Hcov (Ref x) Hx x n).
Qed.
(** *** What rehydration does *)

Lemma node_vals_map f n : node_vals (map_node f n) = map f (node_vals n).
Proof.
  destruct n as [|es|items|items|props|]; cbn; [done| |done|done| |done].
  - induction es as [|e es IH]; [done|]. cbn. by rewrite IH.
  - by rewrite !map_map.
Qed.

Lemma brand_map m n : brand_of (map_node (subst m) n) = brand_of n.
Proof.
  destruct n as [| | | |props|]; try done. cbn. unfold own.
  change (map (fun p => (p.1, subst m p.2)) props) with ((fun p : string * Val => (p.1, subst m p.2)) <$> props).
  rewrite list_find_fmap. change ((fun p : string * Val => p.1 = brand_key) ∘ (fun p => (p.1, subst m p.2))) with (fun p : string * Val => p.1 = brand_key).
  destruct (list_find (fun p : string * Val => p.1 = brand_key) props) as [[i [k v]]|]; [|done]. by destruct v.
Qed.

Lemma instance_made h fresh props tag j : instance_at h fresh props tag j -> exists m, h !! j = Some (MadeNode m).
Proof.
  intros (l & hd & _ & _ & H1 & _ & [[_ ->] | [(_ & a & b & c & H & _) | (_ & a & b & c & H & _)]]); by eexists.
Qed.

(** The walk is over. *)
Section Final.
Context (s : Walk) (Hi : inv None s) (Hp : pending s = []) (Hc : covered (seen s) v0).

(** An object reached, before and after. *)
Definition walked_node (id : Z) (n : Node) : Prop :=
  match n, brand_of n with
  | PlainNode props, Some tag => exists j, seen s !! id = Some j /\ heap s !! id = Some n /\ instance_at (heap s) (fun x => n0 <= x) props tag j
  | _, _ => seen s !! id = Some id /\ heap s !! id = Some (map_node (subst (seen s)) n)
  end.

Lemma final_node id n : h0 !! id = Some n -> reach h0 v0 id -> object n = true -> walked_node id n.
Proof.
  intros Hn Hr Ho. destruct (all_seen s id n Hi Hp Hc Hr Hn Ho) as [j Hj].
  destruct (iv_seen _ _ Hi id j Hj) as (_ & n' & Hn' & _ & Hst). rewrite Hn in Hn'. injection Hn' as <-.
  assert (Hid : j = id -> seen s !! id = Some id /\ heap s !! id = Some (map_node (subst (seen s)) n)).
  { intros ->. split; [done|]. apply (iv_done _ _ Hi id n Hn Hj); [rewrite Hp; set_solver|done]. }
  unfold walked_node, stands in *. destruct n as [| | | |props|]; try by apply Hid. destruct (brand_of (PlainNode props)) as [tag|]; [|by apply Hid].
  destruct Hst as [Hjn Hat]. exists j. split; [done|]. split.
  - apply (iv_todo _ _ Hi id _ Hn). left. rewrite Hj. intros [= ->]. assert (id < n0) by (apply Hn0; by eexists). lia.
  - eapply instance_at_mono; [| |exact Hat]; cbn; [intros; lia|done].
Qed.

Lemma final_unseen id n : h0 !! id = Some n -> ~ (reach h0 v0 id /\ object n = true) -> seen s !! id = None /\ heap s !! id = Some n.
Proof.
  intros Hn Hno. assert (Hs : seen s !! id = None).
  { destruct (seen s !! id) as [j|] eqn:Hj; [|done]. exfalso. apply Hno. destruct (iv_seen _ _ Hi id j Hj) as (Hr & n' & Hn' & Ho & _).
    split; [done|]. congruence. }
  split; [done|]. apply (iv_todo _ _ Hi id n Hn). left. congruence.
Qed.

(** What is found at the place of an object reached. *)
Lemma final_place id n n' :
  h0 !! id = Some n -> reach h0 v0 id -> heap s !! default id (seen s !! id) = Some n' ->
  (brand_of n = None /\ n' = map_node (subst (seen s)) n) \/ exists m, n' = MadeNode m.
Proof.
  intros Hn Hr Hy. destruct (object n) eqn:Ho.
  - pose proof (final_node id n Hn Hr Ho) as Hd. unfold walked_node in Hd.
    assert (Hplain : brand_of n = None -> seen s !! id = Some id /\ heap s !! id = Some (map_node (subst (seen s)) n) ->
      (brand_of n = None /\ n' = map_node (subst (seen s)) n) \/ exists m, n' = MadeNode m).
    { intros Hb [Hs Hh]. left. split; [done|]. rewrite Hs in Hy. cbn in Hy. congruence. }
    destruct n as [| | | |props|]; try by apply Hplain. destruct (brand_of (PlainNode props)) as [tag|]; [|by apply Hplain].
    destruct Hd as (j & Hj & _ & [m Hm]%instance_made). right. exists m. rewrite Hj in Hy. cbn in Hy. congruence.
  - destruct n as [u| | | | |]; try done. destruct (final_unseen id _ Hn) as [Hs Hh]; [by intros [_ ?]|].
    rewrite Hs in Hy. cbn in Hy. left. split; [done|]. cbn. congruence.
Qed.

Lemma final_reach x :
  reach (heap s) (subst (seen s) v0) x -> exists id n, h0 !! id = Some n /\ reach h0 v0 id /\ x = default id (seen s !! id).
Proof.
  intros Hr. induction Hr as [x Hx|y n' x _ (id & n & Hn & Hr & ->) Hy Hb Hxv].
  - assert (Hv : exists id, v0 = Ref id /\ x = default id (seen s !! id)) by (destruct v0; try done; cbn in Hx; injection Hx as <-; by eexists).
    destruct Hv as (id & Hv & ->). destruct (go_root _ _ Hgraph id Hv) as [n Hn]. exists id, n. split; [done|]. split; [by apply reach_here|done].
  - destruct (final_place id n n' Hn Hr Hy) as [[Hbn ->]|[m ->]]; [|cbn in Hxv; set_solver].
    rewrite node_vals_map in Hxv. apply list_elem_of_fmap in Hxv as (v & Hxe & Hv). destruct v as [| | | | |z]; try done.
    cbn in Hxe. injection Hxe as ->. destruct (go_closed _ _ Hgraph id n z Hn Hv) as [nz Hnz]. exists z, nz.
    split; [done|]. split; [|done]. by apply (reach_in _ _ id n).
Qed.
End Final.

(** C12. Rehydration puts the instances in and changes nothing else: each stamped
    descriptor reached from the value - in an object, an array, a map's keys or
    values, a set, at any depth - is replaced by one new instance of its type with
    its fields, wherever it occurs, so a shared descriptor stays shared and a cycle
    stays a cycle; every object on the way keeps its identity, its keys and their
    order, with only those references replaced; what is not reached, and what lies
    inside a descriptor, is as it was; and no stamped descriptor can be reached in
    the result. *)
Theorem rehydrate_exact fuel t s' v' :
  rehydrate fuel v0 (start t) = (s', Ok (Some v')) ->
  exists m : gmap Z Z, v' = subst m v0 /\
    (forall a b j, m !! a = Some j -> m !! b = Some j -> a = b) /\
    (forall id n, h0 !! id = Some n ->
       (reach h0 v0 id -> object n = true ->
          match n, brand_of n with
          | PlainNode props, Some tag =>
            exists j, m !! id = Some j /\ heap s' !! id = Some n /\ instance_at (heap s') (fun x => n0 <= x) props tag j
          | _, _ => m !! id = Some id /\ heap s' !! id = Some (map_node (subst m) n)
          end) /\
       (~ (reach h0 v0 id /\ object n = true) -> m !! id = None /\ heap s' !! id = Some n)) /\
    (forall x n, reach (heap s') v' x -> heap s' !! x = Some n -> brand_of n = None).
Proof.
  intros Hre. destruct (rehydrate_spec _ _ _ _ Hre) as ([Hi _ _] & Hc & Hv & _). destruct (Hv v' eq_refl) as [-> Hp].
  exists (seen s'). split; [done|]. split; [apply (iv_inj _ _ Hi)|]. split.
  - intros id n Hn. split; [by apply final_node|by apply final_unseen].
  - intros x n' Hr Hh. destruct (final_reach s' Hi Hp Hc x Hr) as (id & n & Hn & Hrid & ->).
    destruct (final_place s' Hi Hp Hc id n n' Hn Hrid Hh) as [[Hb ->]|[m ->]]; [by rewrite brand_map|done].
Qed.
(** *** When it succeeds *)

(** The fields of a descriptor the host writes, in the graph. *)
Definition body_described (props : list (string * Val)) : Prop :=
  is_Some (own props "bodyStream" ≫= is_uint32) \/
  exists v, field props "body" = Some v /\
    match v with Undefined | Null | Str _ => True | Ref id => h0 !! id = Some (BufferNode true) | _ => False end.

Definition described (props : list (string * Val)) (tag : Z) : Prop :=
  (exists l items, field props "headers" = Some (Ref l) /\ h0 !! l = Some (ArrayNode items) /\
     zlen items mod 2 = 0 /\ zlen items / 2 <= MAX_HEADER_ENTRIES) /\
  (tag = TAG_HEADERS \/
   (tag = TAG_REQUEST /\ is_Some (field props "url") /\ is_Some (field props "method") /\ body_described props) \/
   (tag = TAG_RESPONSE /\ is_Some (field props "status") /\ is_Some (field props "statusText") /\ body_described props)).

Section Total.
Context (Hgo : forall n, stops n = false) (Hmake : forall id, can_make id = true).
Context (Hdesc : forall id props tag, reach h0 v0 id -> h0 !! id = Some (PlainNode props) -> brand_of (PlainNode props) = Some tag -> described props tag).

Lemma bind_total {A B} (m : M A) (f : A -> M B) s s1 a : m s = (s1, Ok a) -> (m ≫= f) s = f a s1.
Proof. unfold mbind, M_bind. by intros ->. Qed.

Lemma make_total md what s : exists s' j, make md what s = (s', Ok j).
Proof. unfold make, get, modify, mbind, M_bind. rewrite Hmake. by do 2 eexists. Qed.

Lemma field_total props name s : is_Some (field props name) -> exists v, descriptor_field props name s = (s, Ok v) /\ field props name = Some v.
Proof. intros [v Hv]. exists v. unfold descriptor_field, lift. by rewrite Hv. Qed.

Lemma body_total props s :
  is_Some (table s) -> (forall id, h0 !! id = Some (BufferNode true) -> heap s !! id = Some (BufferNode true)) -> body_described props ->
  exists s' b, body_of props s = (s', Ok b).
Proof.
  intros [t Ht] Hbuf Hb. unfold body_of, hydrated_stream_body.
  destruct (own props "bodyStream" ≫= is_uint32) as [id|] eqn:Eo.
  - set (s1 := with_table s (Some (Inb.set_stream t id Inb.StreamState_new))).
    destruct (make_total (MadeBodyStream id) "could not construct the body stream" s1) as (s2 & j & Hm).
    exists s2, (Ref j). unfold get, modify, mbind, M_bind, mret, M_ret in *. rewrite Ht. cbn. fold s1. by rewrite Hm.
  - destruct Hb as [[x Hx]|(v & Hv & Hok)]; [congruence|].
    destruct (field_total props "body" s) as (v' & Hd & Hv'); [by eexists|]. rewrite Hv in Hv'. injection Hv' as <-.
    exists s, v. unfold mbind, M_bind, mret, M_ret. rewrite Hd. unfold check_body, get, mbind, M_bind, lift.
    destruct v as [| | | | |id]; try done. by rewrite (Hbuf id Hok).
Qed.

Lemma build_total o props tag s :
  inv o s -> is_Some (table s) -> described props tag -> exists s' j, build_from_descriptor props tag s = (s', Ok j).
Proof.
  intros Hi Ht [(l & items & Hh & Hl & Hev & Hmax) Hrest]. unfold build_from_descriptor.
  destruct (field_total props "headers" s) as (hv & Hd & Hhv); [by eexists|]. rewrite Hh in Hhv. injection Hhv as <-.
  rewrite (bind_total _ _ _ _ _ Hd). rewrite (bind_total _ _ _ _ _ (eq_refl : get s = (s, Ok s))).
  destruct (shape_now _ _ _ _ Hi Hl) as (n' & Hn' & Hsh). destruct n' as [| | |items'| |]; try done. cbn in Hsh. injection Hsh as Hlen.
  rewrite (bind_total _ _ s s l) by (unfold lift; rewrite Hn', Hlen, (proj2 (Z.eqb_eq _ _) Hev); cbn [negb];
    destruct (Z.ltb_spec MAX_HEADER_ENTRIES (zlen items / 2)); [lia|done]).
  destruct (make_total (MadeHeaders l) "could not construct Headers" s) as (s1 & hd & Hm). rewrite (bind_total _ _ _ _ _ Hm).
  apply make_spec in Hm as (G1 & _ & _ & _). pose proof (gr_table _ _ G1 Ht) as Ht1.
  assert (Hbuf : forall id, h0 !! id = Some (BufferNode true) -> heap s1 !! id = Some (BufferNode true)).
  { intros id Hid. rewrite (gr_heap _ _ G1); [|assert (id < n0) by (apply Hn0; by eexists); pose proof (iv_next _ _ Hi); lia].
    destruct (shape_now _ _ _ _ Hi Hid) as (n' & Hn'' & Hs'). destruct n'; try done. cbn in Hs'. by injection Hs' as ->. }
  assert (Hmsg : forall f1 f2 (k : Val -> Val -> Val -> Made) what, is_Some (field props f1) -> is_Some (field props f2) -> body_described props ->
    exists s' j, (a ← descriptor_field props f1; b ← descriptor_field props f2; body ← body_of props; make (k a b body) what) s1 = (s', Ok j)).
  { intros f1 f2 k what H1 H2 H3. destruct (field_total props f1 s1 H1) as (a & Ha & _). destruct (field_total props f2 s1 H2) as (b & Hb & _).
    destruct (body_total props s1 Ht1 Hbuf H3) as (s2 & body & Hbd). rewrite (bind_total _ _ _ _ _ Ha), (bind_total _ _ _ _ _ Hb), (bind_total _ _ _ _ _ Hbd).
    apply make_total. }
  destruct Hrest as [-> | [(-> & H1 & H2 & H3) | (-> & H1 & H2 & H3)]]; [by do 2 eexists|..].
  - exact (Hmsg "url" "method" (fun a b body => MadeRequest a b hd body) _ H1 H2 H3)%string.
  - exact (Hmsg "status" "statusText" (fun a b body => MadeResponse (default 200 (to_uint32 a)) b hd body) _ H1 H2 H3)%string.
Qed.

Lemma visit_total o s v : inv o s -> is_Some (table s) -> here v -> exists s' r, visit v s = (s', Ok r).
Proof.
  intros Hi Ht Hh. destruct v as [| | | | |id]; try by do 2 eexists. destruct (Hh id eq_refl) as [[n Hn] Hr].
  cbn [visit]. rewrite (bind_total _ _ _ _ _ (eq_refl : get s = (s, Ok s))).
  destruct (shape_now _ _ _ _ Hi Hn) as (n' & Hn' & Hsh). rewrite Hn'. destruct n' as [| | | |props'|]; try by do 2 eexists.
  all: destruct (seen s !! id) as [j|] eqn:Hs; try by do 2 eexists.
  destruct (brand_of (PlainNode props')) as [tag|] eqn:Hb; [|by do 2 eexists].
  pose proof (iv_todo _ _ Hi id n Hn ltac:(left; congruence)) as Hh'. rewrite Hn' in Hh'. injection Hh' as <-.
  destruct (build_total o props' tag s Hi Ht (Hdesc id props' tag Hr Hn Hb)) as (s1 & j & Hbuild). rewrite (bind_total _ _ _ _ _ Hbuild). by do 2 eexists.
Qed.

Lemma still_total s : still_running s = (with_steps s (Datatypes.S (steps s)), Ok tt).
Proof. unfold still_running. by rewrite Hgo. Qed.

(** A visit, with what it leaves. *)
Lemma visit_step o s v :
  inv o s -> is_Some (table s) -> here v -> exists s' r, visit v s = (s', Ok r) /\ inv o s' /\ is_Some (table s') /\
    default v r = subst (seen s') v /\ covered (seen s') v.
Proof.
  intros Hi Ht Hh. destruct (visit_total o s v Hi Ht Hh) as (s' & r & Hv). destruct (visit_spec _ _ _ _ _ Hi Hh Hv) as ([I L _ _] & C & E).
  exists s', r. split; [done|]. split; [done|]. split; [by apply (lt_table _ _ L)|]. by split.
Qed.

Lemma still_step o s : inv o s -> is_Some (table s) -> exists s', still_running s = (s', Ok tt) /\ inv o s' /\ is_Some (table s').
Proof. intros Hi Ht. eexists. split; [apply still_total|]. split; [eapply still_running_visited; [exact Hi|apply still_total]|done]. Qed.

Lemma entries_total o es s :
  inv o s -> is_Some (table s) -> Forall here (flat_map (fun e => [e.1; e.2]) es) -> exists s' x, visit_entries es s = (s', Ok x).
Proof.
  revert s. induction es as [|[k v] es IH]; intros s Hi Ht Hh; [by do 2 eexists|]. cbn [visit_entries].
  cbn in Hh. apply Forall_cons in Hh as [Hk [Hv Hh]%Forall_cons].
  destruct (still_step o s Hi Ht) as (s1 & H1 & I1 & T1). rewrite (bind_total _ _ _ _ _ H1).
  destruct (visit_step o s1 k I1 T1 Hk) as (s2 & r2 & H2 & I2 & T2 & _). cbn [fst snd]. rewrite (bind_total _ _ _ _ _ H2).
  destruct (visit_step o s2 v I2 T2 Hv) as (s3 & r3 & H3 & I3 & T3 & _). rewrite (bind_total _ _ _ _ _ H3).
  destruct (IH s3 I3 T3 Hh) as (s4 & [ps ch] & H4). rewrite (bind_total _ _ _ _ _ H4). by do 2 eexists.
Qed.

Lemma values_total o items s : inv o s -> is_Some (table s) -> Forall here items -> exists s' x, visit_values items s = (s', Ok x).
Proof.
  revert s. induction items as [|v items IH]; intros s Hi Ht Hh; [by do 2 eexists|]. cbn [visit_values]. apply Forall_cons in Hh as [Hv Hh].
  destruct (still_step o s Hi Ht) as (s1 & H1 & I1 & T1). rewrite (bind_total _ _ _ _ _ H1).
  destruct (visit_step o s1 v I1 T1 Hv) as (s3 & r3 & H3 & I3 & T3 & _). rewrite (bind_total _ _ _ _ _ H3).
  destruct (IH s3 I3 T3 Hh) as (s4 & [ps ch] & H4). rewrite (bind_total _ _ _ _ _ H4). by do 2 eexists.
Qed.

Lemma each_total {K} (write : K -> Val -> Node -> Node) (shape_write : forall k v n, shape (write k v n) = shape n) c items s :
  inv (Some c) s -> is_Some (table s) -> Forall here (map snd items) -> exists s', visit_each write c items s = (s', Ok tt).
Proof.
  revert s. induction items as [|[k v] items IH]; intros s Hi Ht Hh; [by eexists|]. cbn [visit_each]. cbn in Hh. apply Forall_cons in Hh as [Hv Hh].
  destruct (still_step _ s Hi Ht) as (s1 & H1 & I1 & T1). rewrite (bind_total _ _ _ _ _ H1).
  destruct (visit_step _ s1 v I1 T1 Hv) as (s3 & r3 & H3 & I3 & T3 & _). cbn [fst snd]. rewrite (bind_total _ _ _ _ _ H3).
  destruct r3 as [y|]; [|rewrite (bind_total _ _ _ _ _ (eq_refl : (mret tt : M unit) s3 = (s3, Ok tt))); by apply IH].
  erewrite bind_total by reflexivity. destruct (iv_open _ _ I3 c eq_refl) as (_ & n & n' & Hn & Hn' & Hsh).
  assert (Heq : alter (write k y) c (heap s3) = <[c := write k y n']> (heap s3)).
  { apply map_eq. intros i. destruct (decide (i = c)) as [->|Hne]; [by rewrite lookup_alter_eq, lookup_insert_eq, Hn'|].
    by rewrite lookup_alter_ne, lookup_insert_ne. }
  apply IH; [|done|done]. rewrite Heq. eapply write_spec; [exact I3|exact Hn|]. by rewrite shape_write.
Qed.

Lemma walk_object_total c n s :
  inv (Some c) s -> is_Some (table s) -> h0 !! c = Some n -> heap s !! c = Some n -> reach h0 v0 c -> brand_of n = None ->
  exists s', walk_object c s = (s', Ok tt).
Proof.
  intros Hi Ht Hn Hh Hr Hb. unfold walk_object. destruct (still_step _ s Hi Ht) as (s1 & H1 & I1 & T1). rewrite (bind_total _ _ _ _ _ H1).
  rewrite (bind_total _ _ _ _ _ (eq_refl : get s1 = (s1, Ok s1))). pose proof (still_running_visited _ _ _ Hi H1) as V1.
  rewrite (vi_open _ _ _ V1 c eq_refl), Hh. pose proof (vals_here c n Hn Hr Hb) as Hv.
  destruct n as [u|entries|items|items|props|m]; [by eexists| | | | |by eexists].
  - destruct (entries_total _ entries s1 I1 T1 Hv) as (s2 & [ps ch] & H2). rewrite (bind_total _ _ _ _ _ H2). destruct ch; by eexists.
  - destruct (values_total _ items s1 I1 T1 Hv) as (s2 & [ps ch] & H2). rewrite (bind_total _ _ _ _ _ H2). destruct ch; by eexists.
  - apply each_total; try done; [by intros k v []; cbn; rewrite ?length_insert|]. pose proof (imap_pair_snd items id) as Hs.
    change (imap (fun i x => (id i, x)) items) with (imap pair items) in Hs. by rewrite Hs.
  - destruct (still_step _ s1 I1 T1) as (s2 & H2 & I2 & T2). rewrite (bind_total _ _ _ _ _ H2). apply each_total; try done. by intros k v [].
Qed.

Lemma drain_total fuel s : inv None s -> is_Some (table s) -> exists s' r, drain fuel s = (s', Ok r).
Proof.
  revert s. induction fuel as [|fuel IH]; intros s Hi Ht; [by do 2 eexists|]. cbn [drain].
  rewrite (bind_total _ _ _ _ _ (eq_refl : get s = (s, Ok s))). destruct (pending s) as [|c rest] eqn:Hp; [by do 2 eexists|].
  erewrite bind_total by reflexivity. destruct (pop_spec s c rest Hi Hp) as (I1 & L1 & _ & n & Hn & Hh & Hr & Hb).
  destruct (walk_object_total c n _ I1 Ht Hn Hh Hr Hb) as (s2 & H2). rewrite (bind_total _ _ _ _ _ H2).
  destruct (walk_object_spec c n _ _ I1 Hn Hh Hr Hb H2) as [I2 L2 _]. apply IH; [done|]. by apply (lt_table _ _ L2).
Qed.
End Total.

(** C29. Rehydration ends: with one round more than the graph has objects, however
    its objects refer to one another, the walk has a result or an error; and it has
    a result if the run is not being terminated, V8 makes the instances, a run's
    stream table is armed and every stamped descriptor reached has the fields the
    host writes. *)
Theorem rehydrate_ends fuel t :
  (size h0 < fuel)%nat ->
  snd (rehydrate fuel v0 (start t)) <> Ok None /\
  ((forall n, stops n = false) -> (forall id, can_make id = true) -> is_Some t ->
   (forall id props tag, reach h0 v0 id -> h0 !! id = Some (PlainNode props) -> brand_of (PlainNode props) = Some tag -> described props tag) ->
   exists s' v', rehydrate fuel v0 (start t) = (s', Ok (Some v'))).
Proof.
  intros Hf. assert (Hno : forall s' r, rehydrate fuel v0 (start t) = (s', Ok r) -> r <> None).
  { intros s' r Hr. destruct (rehydrate_spec _ _ _ _ Hr) as (_ & _ & _ & H). by apply H. }
  split; [intros Heq; apply (Hno (rehydrate fuel v0 (start t)).1 None); [by rewrite <- Heq, <- surjective_pairing|done]|].
  intros Hgo Hmake Ht Hdesc. assert (Hok : exists s' r, rehydrate fuel v0 (start t) = (s', Ok r)).
  { unfold rehydrate. destruct (visit_step Hmake Hdesc None (start t) v0 (start_inv t) Ht root_here) as (s1 & r1 & H1 & I1 & T1 & _).
    rewrite (bind_total _ _ _ _ _ H1). destruct r1 as [v|]; [by do 2 eexists|].
    destruct (drain_total Hgo Hmake Hdesc fuel s1 I1 T1) as (s2 & r2 & H2). rewrite (bind_total _ _ _ _ _ H2). by do 2 eexists. }
  destruct Hok as (s' & r & Hr). destruct r as [v'|]; [by exists s', v'|]. by destruct (Hno s' None Hr).
Qed.
End Walk.
End Rehydrate.

(** ** Witnesses: a cyclic graph in which a descriptor occurs three times *)

Definition small_key : string := brand_key_for_token [x2a].
Definition small_nodes : list (Z * Node) :=
  [(1, PlainNode [("a", Ref 2); ("self", Ref 1); ("list", Ref 4); ("m", Ref 5)]%string);
   (2, PlainNode [(small_key, Num (f64_of_Z 1)); ("headers", Ref 3); ("body", Null)]%string);
   (3, ArrayNode [Str "x-a"; Str "1"]);
   (4, ArrayNode [Num (f64_of_Z 7); Ref 2]);
   (5, MapNode [(Ref 2, Ref 1); (Str "k", Ref 6)]);
   (6, BufferNode true)].
Definition small_graph : gmap Z Node := list_to_map small_nodes.

Lemma small_nodes_in id n : small_graph !! id = Some n -> (id, n) ∈ small_nodes.
Proof. apply elem_of_list_to_map_2. Qed.

Lemma small_graph_ok : graph_ok small_graph (Ref 1) /\ forall id, is_Some (small_graph !! id) -> id < 7.
Proof.
  assert (Hcases : forall (P : Z -> Node -> Prop), Forall (fun e => P e.1 e.2) small_nodes -> forall id n, small_graph !! id = Some n -> P id n).
  { intros P HP id n Hn. rewrite Forall_forall in HP. exact (HP _ (small_nodes_in id n Hn)). }
  split; [split|].
  - intros id [= <-]. by eexists.
  - intros id n x Hn Hx. revert id n Hn x Hx. apply (Hcases (fun _ n => forall x, Ref x ∈ node_vals n -> is_Some (small_graph !! x))).
    repeat constructor; cbn; intros x Hx;
      repeat (apply elem_of_cons in Hx as [Hx|Hx]; [try discriminate Hx; injection Hx as ->; by eexists|]); by apply not_elem_of_nil in Hx.
  - intros id es Hn. revert id es Hn. assert (H := Hcases (fun _ n => match n with MapNode es => distinct (map fst es) | _ => True end)).
    intros id es Hn. refine (H _ id (MapNode es) Hn). repeat constructor.
  - intros id items Hn. refine (Hcases (fun _ n => match n with SetNode es => distinct es | _ => True end) _ id (SetNode items) Hn). repeat constructor.
  - intros id props Hn. refine (Hcases (fun _ n => match n with PlainNode ps => NoDup (map fst ps) | _ => True end) _ id (PlainNode props) Hn).
    repeat constructor; cbn; set_solver.
  - intros id [n Hn]. exact (Hcases (fun id _ => id < 7) ltac:(repeat constructor) id n Hn).
Qed.

Definition small_walk : Walk * result CodecError (option Val) :=
  rehydrate small_key (fun _ => Some Undefined) (fun _ => None) (fun _ => true) (fun _ => false) 7 (Ref 1) (start small_graph 7 None).

Lemma rehydrate_exact_witness :
  snd small_walk = Ok (Some (Ref 1)) /\
  map (fun id => heap (fst small_walk) !! id) [1; 4; 5; 7] =
    [Some (PlainNode [("a", Ref 7); ("self", Ref 1); ("list", Ref 4); ("m", Ref 5)]%string); Some (ArrayNode [Num (f64_of_Z 7); Ref 7]);
     Some (MapNode [(Ref 7, Ref 1); (Str "k", Ref 6)]); Some (MadeNode (MadeHeaders 3))] /\
  forall x n, reach small_key (heap (fst small_walk)) (Ref 1) x -> heap (fst small_walk) !! x = Some n -> brand_of small_key n = None.
Proof.
  assert (Hs : snd small_walk = Ok (Some (Ref 1))) by (vm_compute; reflexivity). split; [exact Hs|]. split; [vm_compute; reflexivity|].
  destruct small_graph_ok as [Hg Hn].
  destruct (rehydrate_exact small_key (fun _ => Some Undefined) (fun _ => None) (fun _ => true) (fun _ => false) small_graph (Ref 1) 7 Hg Hn
    7 None (fst small_walk) (Ref 1)) as (m & _ & _ & _ & Hx); [|exact Hx].
  unfold small_walk in *. rewrite <- Hs. apply surjective_pairing.
Defined.

Lemma rehydrate_ends_witness : (size small_graph < 7)%nat /\ snd small_walk <> Ok None.
Proof.
  destruct small_graph_ok as [Hg Hn]. assert (Hs : (size small_graph < 7)%nat) by (vm_compute; lia). split; [exact Hs|].
  exact (proj1 (rehydrate_ends small_key (fun _ => Some Undefined) (fun _ => None) (fun _ => true) (fun _ => false) small_graph (Ref 1) 7 Hg Hn 7 None Hs)).
Defined.
