(* ===== verification/Blob.v ===== *)
(** * Values as blobs ([crates/core/src/blob.rs])

    Every value crosses the boundary as a blob of V8's serializer.  V8 is given by
    what it does with a value or with bytes - the tree of the bytes it writes, the
    delegates it calls, the guest code its reads run and the exceptions it raises -
    and this file runs the delegates and the calls around it over the slot in which a
    refusal is kept, [LAST_CODEC_ERROR].  The specification has no slot and no
    pending exception: the first refusal decides. *)

From S2P Require Import Prelude Bytes Text Errors Container Webcodec Rehydrate.
From S2P Require Import Session.
From S2P Require Streams.
Import Streams.

(** ** Exceptions and the thread *)

(** [Foreign]: what guest code throws, and V8's own errors. *)
Inductive Exc := TypeErrorExc (m : string) | ErrorExc (m : string) | Foreign (k : Z) | Terminating.

Definition message (error : CodecError) : string := match error with Unsupported m | Malformed m => m end.

(** [held]: the exception the surrounding [TryCatch] has caught; [leg]: the run's
    outbound streams, as the codec uses them. *)
Record Thread := mk_Thread { LAST_CODEC_ERROR : option CodecError; held : option Exc; leg : OutLeg }.

Definition take_codec_error (t : Thread) : Thread * option CodecError := (mk_Thread None (held t) (leg t), LAST_CODEC_ERROR t).
Definition clear_codec_error (t : Thread) : Thread := mk_Thread None (held t) (leg t).
Definition throw_exception (t : Thread) (x : Exc) : Thread := mk_Thread (LAST_CODEC_ERROR t) (Some x) (leg t).
Definition set_slot (t : Thread) (error : CodecError) : Thread := mk_Thread (Some error) (held t) (leg t).
Definition record (t : Thread) (error : CodecError) : Thread := set_slot (throw_exception t (TypeErrorExc (message error))) error.

(** A [TryCatch] of one's own: nothing held at first; after [reset], and in the
    scope outside, what was held before. *)
Definition fresh_scope (t : Thread) : Thread := mk_Thread (LAST_CODEC_ERROR t) None (leg t).
Definition leave_scope (outer t : Thread) : Thread := mk_Thread (LAST_CODEC_ERROR t) (held outer) (leg t).

(** ** What V8 does *)

(** Writing a value: bytes; an object with internal fields, with its tag if it is
    one of ours; a value V8 cannot clone; an exception from guest code it reads the
    value with; a bridge call made by that code, which serializes its arguments. *)
Inductive v8_write :=
  | WDone
  | WBytes (bs : list byte) (rest : v8_write)
  | WHost (object : HostObject) (tag : option Z) (rest : v8_write)
  | WClone (message : string)
  | WThrow (x : Exc)
  | WCall (args : v8_write) (rest : v8_write).

Record Graph := mk_Graph { g_heap : gmap Z Node; g_root : Val; g_next : Z }.

(** Reading a value: it is done; it fails; or it meets a host object at [at_]. *)
Inductive v8_read :=
  | RValue (g : Graph)
  | RThrow (x : option Exc)
  | RHost (at_ : list byte) (rest : Instance -> list byte -> v8_read).

(** Whether [needle] occurs. *)
Fixpoint contains (needle bs : list byte) : bool :=
  starts_with bs needle || match bs with [] => false | _ :: bs => contains needle bs end.

Definition DEEP : string := "Maximum call stack size exceeded".
Definition too_deep_error : CodecError := Unsupported "value nests too deep for V8 to deserialize".
Definition unrecognised : CodecError := Unsupported "value is a host object this build does not recognise".
Definition no_message : string := "value could not be cloned".

(** ** The codec's own messages are not V8's

    No message of the codec holds the capital letter V8's stack message begins with. *)
Definition quiet (s : string) : Prop := x4d ∉ as_bytes s.

Lemma contains_first b needle bs : contains (b :: needle) bs = true -> b ∈ bs.
Proof.
  induction bs as [|c bs IH]; [done|]. cbn. intros [Hc|Hc]%orb_prop; [|set_solver].
  apply andb_prop in Hc as [Hc _]. apply bool_decide_eq_true in Hc as ->. set_solver.
Qed.

Lemma quiet_app s t : quiet s -> quiet t -> quiet (s +:+ t).
Proof. unfold quiet. rewrite as_bytes_app. set_solver. Qed.

Lemma quiet_literal s : forallb (fun b => negb (bool_decide (b = x4d))) (as_bytes s) = true -> quiet s.
Proof.
  unfold quiet. rewrite forallb_forall. intros Hall Hin%list_elem_of_In. specialize (Hall _ Hin). by rewrite bool_decide_eq_true_2 in Hall.
Qed.

Lemma pretty_go_quiet x s : quiet s -> quiet (pretty_N_go x s).
Proof.
  revert s. induction (N.lt_wf_0 x) as [x _ IH]. intros s Hs.
  destruct (decide (x = 0)%N) as [->|Hx]; [by rewrite pretty_N_go_0|]. rewrite pretty_N_go_step by lia. apply IH; [apply N.div_lt; lia|].
  change (String ?c s) with (String c EmptyString +:+ s). apply quiet_app; [|done]. apply quiet_literal.
  unfold pretty_N_char. destruct (x `mod` 10)%N as [|p]; [done|]. do 4 (destruct p as [p|p|]; try done).
Qed.

Lemma show_quiet z : quiet (show z).
Proof.
  assert (Hp : forall p, quiet (pretty (Npos p))).
  { intros p. unfold pretty, pretty_N. rewrite decide_False by done. apply pretty_go_quiet. by apply quiet_literal. }
  unfold show. destruct z as [|p|p]; [by apply quiet_literal|apply Hp|]. change (quiet ("-" +:+ pretty (Npos p))).
  apply quiet_app; [by apply quiet_literal|apply Hp].
Qed.

Lemma tag_name_quiet tag : quiet (tag_name tag).
Proof. unfold tag_name. repeat case_match; by apply quiet_literal. Qed.

(** A reader whose errors are quiet. *)
Definition quiet_rd {A} (m : rd A) : Prop := forall bs e, m bs = Err e -> quiet (message e).
Definition quiet_result {A} (r : result CodecError A) : Prop := forall e, r = Err e -> quiet (message e).

Lemma quiet_bind {A B} (f : A -> rd B) (m : rd A) : quiet_rd m -> (forall a, quiet_rd (f a)) -> quiet_rd (mbind f m).
Proof. intros Hm Hf bs e. unfold mbind, rd_bind. destruct (m bs) as [[a rest]|e'] eqn:E; [apply Hf|]. intros [= <-]. by eapply Hm. Qed.
Lemma quiet_ret {A} (a : A) : quiet_rd (mret a).
Proof. by intros bs e. Qed.
Lemma quiet_lift {A} (r : result CodecError A) : quiet_result r -> quiet_rd (Webcodec.lift r).
Proof. intros Hr bs e. unfold Webcodec.lift. destruct r; [done|]. intros [= <-]. by apply Hr. Qed.
Lemma quiet_read_or {A} (read : list byte -> option (A * list byte)) e : quiet (message e) -> quiet_rd (read_or read e).
Proof. intros He bs e'. unfold read_or. destruct (read bs); [done|]. by intros [= <-]. Qed.
Lemma quiet_ok {A} (a : A) : quiet_result (Ok a).
Proof. by intros e. Qed.
Lemma quiet_err {A} e : quiet (message e) -> quiet_result (@Err _ A e).
Proof. by intros He e' [= <-]. Qed.
Lemma quiet_result_bind {A B} (f : A -> result CodecError B) r : quiet_result r -> (forall a, quiet_result (f a)) -> quiet_result (mbind f r).
Proof. intros Hr Hf e. destruct r as [a|e']; [apply Hf|]. intros [= <-]. by apply Hr. Qed.

Ltac quiet_codec := repeat first [progress intros | apply quiet_bind | apply quiet_ret | apply quiet_lift | apply quiet_read_or | apply quiet_result_bind
  | apply quiet_ok | apply quiet_err; cbn [message] | by apply quiet_literal | apply quiet_app | apply show_quiet | apply tag_name_quiet | case_match].

Section Blob.
#[local] Set Default Proof Using "Type".
Context `{V8Wire}.
(** [v8_format]: the format V8 writes; [exc_string]: [ToString] of an exception;
    [exc_message]: the text of the message V8 makes of it. *)
Context (v8_format : Z) (exc_string exc_message : Exc -> option string) (mint : Mint).

Definition header : list byte := [z2b V8_BLOB_HEADER_TAG; z2b v8_format].

(** ** Writing *)

Definition throw_data_clone_error (t : Thread) (message : string) : Thread := throw_exception t (ErrorExc message).

Definition write_host_object (t : Thread) (object : HostObject) (tag : option Z) : Thread * option (list byte) :=
  match tag with
  | None => (record t unrecognised, None)
  | Some tag =>
    let '(leg', r) := encode (leg t) object tag in
    let t := mk_Thread (LAST_CODEC_ERROR t) (held t) leg' in
    match r with Ok bs => (t, Some bs) | Err e => (record t e, None) end
  end.

(** [serialize_value] around V8's writer. *)
Definition serialize_with (write : Thread -> Thread * option (list byte)) (t : Thread) : Thread * result string (list byte) :=
  let '(t', r) := write (fresh_scope (clear_codec_error t)) in
  (leave_scope t t',
   match r with
   | Some bytes => Ok (relabel_write_version (header ++ bytes))
   | None =>
     Err (match LAST_CODEC_ERROR t' with
       | Some e => message e
       | None => default no_message (held t' ≫= exc_string)
       end)
   end).

(** V8's writer: it goes on after a delegate unless an exception is held, whatever
    the delegate returned.  A bridge call whose arguments cannot be serialized takes
    the error and ends the run. *)
Fixpoint write_value (w : v8_write) (t : Thread) : Thread * option (list byte) :=
  match w with
  | WDone => (t, Some [])
  | WBytes bs rest => let '(t, r) := write_value rest t in (t, (fun more => bs ++ more) <$> r)
  | WHost object tag rest =>
    let '(t, written) := write_host_object t object tag in
    match held t with
    | Some _ => (t, None)
    | None => let '(t, r) := write_value rest t in (t, (fun more => default [] written ++ more) <$> r)
    end
  | WClone message => (throw_data_clone_error t message, None)
  | WThrow x => (throw_exception t x, None)
  | WCall args rest =>
    let '(t, r) := serialize_with (write_value args) t in
    match r with
    | Ok _ => write_value rest t
    | Err _ => (throw_exception (fst (take_codec_error t)) Terminating, None)
    end
  end.

Definition serialize_value (w : v8_write) : Thread -> Thread * result string (list byte) := serialize_with (write_value w).

(** ** Reading *)

Definition read_host_object (t : Thread) (at_ : list byte) : Thread * option (Instance * list byte) :=
  match decode mint at_ with
  | Ok x => (t, Some x)
  | Err e => (record t e, None)
  end.

Fixpoint read_value (r : v8_read) (t : Thread) : Thread * option Graph :=
  match r with
  | RValue g => (t, Some g)
  | RThrow x => (match x with Some x => throw_exception t x | None => t end, None)
  | RHost at_ rest =>
    let '(t, o) := read_host_object t at_ in
    match o with
    | Some (obj, bytes) => read_value (rest obj bytes) t
    | None => (t, None)
    end
  end.

Definition is_too_deep (x : option Exc) : bool :=
  match x ≫= exc_message with Some m => contains (as_bytes DEEP) (as_bytes m) | None => false end.

(** [v8_header], [v8_reader]: what V8 makes of the bytes. *)
Context (v8_header : list byte -> bool) (v8_reader : list byte -> v8_read).

Definition deserialize_value (bytes : list byte) (t : Thread) : Thread * option Graph :=
  if v8_header bytes then
    let '(t', value) := read_value (v8_reader bytes) (fresh_scope (clear_codec_error t)) in
    let t' := match value with
      | Some _ => t'
      | None => if is_too_deep (held t') then set_slot t' too_deep_error else t'
      end in
    (leave_scope t t', value)
  else (clear_codec_error t, None).

(** [thread_brand_key]; the arguments of the walk; [tbl]: the run's stream table. *)
Context (thread_brand_key : option string) (inherited : string -> option Val) (to_uint32 : Val -> option Z) (can_make : Z -> bool) (stops : nat -> bool).

Definition rehydrated (brand_key : string) (tbl : option Inb.StreamTableState) (g : Graph) : Walk * result CodecError (option Val) :=
  rehydrate brand_key inherited to_uint32 can_make stops (S (size (g_heap g))) (g_root g) (start (g_heap g) (g_next g) tbl).

Definition deserialize_value_with_web_types (bytes : list byte) (tbl : option Inb.StreamTableState) (t : Thread) : Thread * option (gmap Z Node * Val) :=
  let '(t, value) := deserialize_value bytes t in
  match value with
  | None => (t, None)
  | Some g =>
    match thread_brand_key with
    | None => (t, Some (g_heap g, g_root g))
    | Some brand_key =>
      if might_contain_web_types bytes brand_key then
        match rehydrated brand_key tbl g with
        | (s, Ok v) => (t, (fun v => (Rehydrate.heap s, v)) <$> v)
        | (_, Err e) => (set_slot t e, None)
        end
      else (t, Some (g_heap g, g_root g))
    end
  end.

(** ** The probe *)

(** The blob of [null], as V8 writes it. *)
Context (null_bytes : list byte).
Definition raw_probe : list byte := header ++ null_bytes.
Definition probe : list byte := relabel_write_version raw_probe.
Definition write_format_version : option Z := b2z <$> probe !! 1%nat.
Definition read_format_version : option Z := b2z <$> raw_probe !! 1%nat.

(** ** What a call promises

    Nothing but the first refusal on the way counts: a host type's own, or V8's. *)
Inductive refusal := RefusedHost (e : CodecError) | RefusedV8 (x : option Exc).

Fixpoint written (w : v8_write) (leg : OutLeg) : OutLeg * result refusal (list byte) :=
  match w with
  | WDone => (leg, Ok [])
  | WBytes bs rest => let '(leg, r) := written rest leg in (leg, more ← r; Ok (bs ++ more))
  | WHost object None rest => (leg, Err (RefusedHost unrecognised))
  | WHost object (Some tag) rest =>
    let '(leg, r) := encode leg object tag in
    match r with
    | Err e => (leg, Err (RefusedHost e))
    | Ok bs => let '(leg, r) := written rest leg in (leg, more ← r; Ok (bs ++ more))
    end
  | WClone message => (leg, Err (RefusedV8 (Some (ErrorExc message))))
  | WThrow x => (leg, Err (RefusedV8 (Some x)))
  | WCall args rest =>
    let '(leg, r) := written args leg in
    match r with Ok _ => written rest leg | Err _ => (leg, Err (RefusedV8 (Some Terminating))) end
  end.

Fixpoint read (r : v8_read) : result refusal Graph :=
  match r with
  | RValue g => Ok g
  | RThrow x => Err (RefusedV8 x)
  | RHost at_ rest => match decode mint at_ with Ok (obj, bytes) => read (rest obj bytes) | Err e => Err (RefusedHost e) end
  end.

(** The caller's view of a refusal: the error it takes from the slot, and the text. *)
Definition slot_of (f : refusal) : option CodecError := match f with RefusedHost e => Some e | RefusedV8 _ => None end.
Definition text_of (f : refusal) : string :=
  match f with RefusedHost e => message e | RefusedV8 x => default no_message (x ≫= exc_string) end.

(** Running the writer from a clean thread. *)
Definition wrote (t : Thread) (out : Thread * option (list byte)) (spec : OutLeg * result refusal (list byte)) : Prop :=
  let '(t', r) := out in
  leg t' = fst spec /\
  match snd spec with
  | Ok bs => r = Some bs /\ LAST_CODEC_ERROR t' = None /\ held t' = None
  | Err (RefusedHost e) => r = None /\ LAST_CODEC_ERROR t' = Some e
  | Err (RefusedV8 x) => r = None /\ LAST_CODEC_ERROR t' = None /\ held t' = x
  end.

Definition clean (t : Thread) : Prop := LAST_CODEC_ERROR t = None /\ held t = None.

Lemma serialize_with_spec write spec t :
  wrote (fresh_scope (clear_codec_error t)) (write (fresh_scope (clear_codec_error t))) spec ->
  let '(t', r) := serialize_with write t in
  leg t' = fst spec /\ held t' = held t /\
  match snd spec with
  | Ok bs => r = Ok (relabel_write_version (header ++ bs)) /\ LAST_CODEC_ERROR t' = None
  | Err f => r = Err (text_of f) /\ LAST_CODEC_ERROR t' = slot_of f
  end.
Proof.
  unfold serialize_with, wrote. destruct (write _) as [t' r]. destruct (snd spec) as [bs|[e|x]].
  - by intros (Hl & -> & Hs & Hh).
  - intros (Hl & -> & Hs). cbn. by rewrite Hs.
  - intros (Hl & -> & Hs & Hh). cbn. by rewrite Hs, Hh.
Qed.

Lemma wrote_prefix t bs (out : Thread * option (list byte)) (spec : OutLeg * result refusal (list byte)) :
  wrote t out spec -> wrote t (let '(t, r) := out in (t, (fun more => bs ++ more) <$> r)) (let '(leg, r) := spec in (leg, more ← r; Ok (bs ++ more))).
Proof.
  unfold wrote. destruct out as [t' r], spec as [leg' [more|[e|x]]]; cbn.
  - by intros (? & -> & ? & ?).
  - by intros (? & -> & ?).
  - by intros (? & -> & ?).
Qed.

Lemma write_value_wrote w t : clean t -> wrote t (write_value w t) (written w (leg t)).
Proof.
  revert t. induction w as [|bs rest IH|object tag rest IH|m|x|args IHa rest IH]; intros t [Hs Hh]; cbn [write_value written].
  - by split.
  - specialize (IH t (conj Hs Hh)). by apply wrote_prefix with (bs := bs) in IH.
  - destruct tag as [tag|]; cbn [write_host_object]; [|by split].
    destruct (encode (leg t) object tag) as [leg' [bs|e]]; cbn [held record set_slot throw_exception]; [|by split].
    rewrite Hh. specialize (IH (mk_Thread (LAST_CODEC_ERROR t) (held t) leg') (conj Hs Hh)). rewrite Hh in IH.
    by apply wrote_prefix with (bs := bs) in IH.
  - by split.
  - by split.
  - pose proof (serialize_with_spec (write_value args) (written args (leg t)) t (IHa (fresh_scope (clear_codec_error t)) (conj eq_refl eq_refl))) as K.
    clear IHa. revert K. generalize (serialize_with (write_value args) t). intros [t1 r] IHa. destruct (written args (leg t)) as [leg1 [bs|f]]; cbn [fst snd] in IHa.
    + destruct IHa as (<- & Hh1 & -> & Hs1). apply IH. split; [done|congruence].
    + destruct IHa as (<- & Hh1 & -> & Hs1). by split.
Qed.

Lemma serialize_value_spec w t :
  let '(t', r) := serialize_value w t in
  leg t' = fst (written w (leg t)) /\ held t' = held t /\
  match snd (written w (leg t)) with
  | Ok bs => r = Ok (relabel_write_version (header ++ bs)) /\ LAST_CODEC_ERROR t' = None
  | Err f => r = Err (text_of f) /\ LAST_CODEC_ERROR t' = slot_of f
  end.
Proof. exact (serialize_with_spec (write_value w) (written w (leg t)) t (write_value_wrote w (fresh_scope (clear_codec_error t)) (conj eq_refl eq_refl))). Qed.

Lemma decode_quiet at_ e : decode mint at_ = Err e -> quiet (message e).
Proof.
  enough (Hq : quiet_rd (decode mint)) by apply Hq.
  unfold decode, decode_request, decode_response, decode_headers, decode_body, skip_extras, Webcodec.check_body, read_bytes, read_string, read_u32, intern,
    malformed, unsupported, bad, bad_body.
  quiet_codec.
Qed.

(** ** The reading side *)

(** V8's message for a [TypeError]. *)
Definition type_error_message : Prop := forall m, exc_message (TypeErrorExc m) = Some ("Uncaught TypeError: " +:+ m).

Lemma host_refusal_not_deep at_ e : type_error_message -> decode mint at_ = Err e -> is_too_deep (Some (TypeErrorExc (message e))) = false.
Proof.
  intros Hm Hd. unfold is_too_deep. cbn [mbind option_bind]. rewrite Hm. apply not_true_iff_false. intros Hc. apply contains_first in Hc.
  revert Hc. apply quiet_app; [by apply quiet_literal|]. by eapply decode_quiet.
Qed.

Lemma read_value_spec r t : clean t ->
  let '(t', o) := read_value r t in
  leg t' = leg t /\
  match read r with
  | Ok g => o = Some g /\ clean t'
  | Err (RefusedHost e) => o = None /\ LAST_CODEC_ERROR t' = Some e /\ held t' = Some (TypeErrorExc (message e)) /\ exists at_, decode mint at_ = Err e
  | Err (RefusedV8 x) => o = None /\ LAST_CODEC_ERROR t' = None /\ held t' = x
  end.
Proof.
  induction r as [g|x|at_ rest IH]; intros [Hs Hh]; cbn [read_value read]; [by split| |].
  - destruct x; by split_and!.
  - unfold read_host_object. destruct (decode mint at_) as [[obj bytes]|e] eqn:Ed; [by apply IH|]. split_and!; try done. by exists at_.
Qed.

(** What a call that reads a blob gives, and what its caller finds in the slot. *)
Definition read_outcome (bytes : list byte) : result (option CodecError) Graph :=
  if v8_header bytes then
    match read (v8_reader bytes) with
    | Ok g => Ok g
    | Err (RefusedHost e) => Err (Some e)
    | Err (RefusedV8 x) => Err (if is_too_deep x then Some too_deep_error else None)
    end
  else Err None.

Lemma deserialize_value_spec bytes t : type_error_message ->
  let '(t', o) := deserialize_value bytes t in
  leg t' = leg t /\ held t' = held t /\
  match read_outcome bytes with
  | Ok g => o = Some g /\ LAST_CODEC_ERROR t' = None
  | Err e => o = None /\ LAST_CODEC_ERROR t' = e
  end.
Proof.
  intros Hm. unfold deserialize_value, read_outcome. destruct (v8_header bytes); [|by split_and!].
  pose proof (read_value_spec (v8_reader bytes) (fresh_scope (clear_codec_error t)) (conj eq_refl eq_refl)) as Hr.
  destruct (read_value _ _) as [t' o]. destruct (read (v8_reader bytes)) as [g|[e|x]].
  - destruct Hr as (Hl & -> & Hs & Hh). by split_and!.
  - destruct Hr as (Hl & -> & Hs & Hh & at_ & Hd). rewrite Hh, (host_refusal_not_deep at_) by done. by split_and!.
  - destruct Hr as (Hl & -> & Hs & Hh). rewrite Hh. destruct (is_too_deep x); by split_and!.
Qed.

(** A graph as V8 leaves it. *)
Definition graph_fits (g : Graph) : Prop := graph_ok (g_heap g) (g_root g) /\ forall id, is_Some (g_heap g !! id) -> id < g_next g.

(** What the call that looks for web types gives. *)
Definition web_outcome (bytes : list byte) (tbl : option Inb.StreamTableState) : result (option CodecError) (gmap Z Node * Val) :=
  match read_outcome bytes with
  | Err e => Err e
  | Ok g =>
    match thread_brand_key with
    | Some brand_key =>
      if might_contain_web_types bytes brand_key then
        match rehydrated brand_key tbl g with
        | (s, Ok v) => Ok (Rehydrate.heap s, default Undefined v)
        | (_, Err e) => Err (Some e)
        end
      else Ok (g_heap g, g_root g)
    | None => Ok (g_heap g, g_root g)
    end
  end.

Lemma web_types_spec bytes tbl t : type_error_message -> (forall g, read (v8_reader bytes) = Ok g -> graph_fits g) ->
  let '(t', o) := deserialize_value_with_web_types bytes tbl t in
  leg t' = leg t /\ held t' = held t /\
  match web_outcome bytes tbl with
  | Ok x => o = Some x /\ LAST_CODEC_ERROR t' = None
  | Err e => o = None /\ LAST_CODEC_ERROR t' = e
  end.
Proof.
  intros Hm Hg. unfold deserialize_value_with_web_types, web_outcome. pose proof (deserialize_value_spec bytes t Hm) as Hd.
  destruct (deserialize_value bytes t) as [t' o]. destruct Hd as (Hl & Hh & Hd). destruct (read_outcome bytes) as [g|e] eqn:Eo; destruct Hd as [-> Hs]; [|by split_and!].
  destruct thread_brand_key as [brand_key|]; [|by split_and!]. destruct (might_contain_web_types bytes brand_key); [|by split_and!].
  assert (Hfit : graph_fits g).
  { apply Hg. unfold read_outcome in Eo. destruct (v8_header bytes); [|done]. destruct (read (v8_reader bytes)) as [g'|[e|x]]; try done. by injection Eo as ->. }
  destruct (rehydrate_ends brand_key inherited to_uint32 can_make stops (g_heap g) (g_root g) (g_next g) (proj1 Hfit) (proj2 Hfit) (S (size (g_heap g))) tbl) as [Hend _]; [lia|].
  fold (rehydrated brand_key tbl g) in Hend. destruct (rehydrated brand_key tbl g) as [s [[v|]|e]]; by split_and!.
Qed.

(** ** The version on every blob *)

Lemma relabelled bytes : zlen (header ++ bytes) < 4294967296 -> 0 <= v8_format < 256 ->
  b2z <$> relabel_write_version (header ++ bytes) !! 1%nat = Some (if v8_format =? NATIVE_FORMAT_VERSION then RELABELLED_FORMAT_VERSION else v8_format) /\
  probe_format_version (relabel_write_version (header ++ bytes)) = Some (if v8_format =? NATIVE_FORMAT_VERSION then RELABELLED_FORMAT_VERSION else v8_format).
Proof.
  intros Hl Hv. unfold relabel_write_version, header in *. cbn [app] in *. change (z2b V8_BLOB_HEADER_TAG) with xff in *. change (b2z xff =? V8_BLOB_HEADER_TAG) with true.
  destruct (Z.ltb_spec (zlen (xff :: z2b v8_format :: bytes)) 4294967296); [|lia]. cbn [andb]. rewrite b2z_z2b_small by lia.
  destruct (v8_format =? NATIVE_FORMAT_VERSION); cbn; [done|]. by rewrite b2z_z2b_small by lia.
Qed.
End Blob.

(** C37. A codec error belongs to the call that reports it.  Whatever the slot held
    before, whatever guest code runs while V8 reads the value - its bridge calls
    serialize too - and although V8 goes on from a delegate by the pending exception
    and not by what the delegate returned: a value is written if and only if nothing
    on the way is refused, and else the text and the error the caller finds are those
    of the first refusal, a host type's own error or none for V8's.  A blob that
    cannot be read leaves the error of the host object that refused, the one of a
    value nested too deep, or none; the walk that follows leaves its own.  Every blob
    below 4 GiB is labelled with the version the handshake probe advertised. *)
Theorem codec_errors_attributed `{V8Wire} (v8_format : Z) (exc_string exc_message : Exc -> option string) (mint : Mint)
    (v8_header : list byte -> bool) (v8_reader : list byte -> v8_read) (brand_key : option string) (inherited : string -> option Val)
    (to_uint32 : Val -> option Z) (can_make : Z -> bool) (stops : nat -> bool) (null_bytes : list byte) :
  type_error_message exc_message -> 0 <= v8_format < 256 -> zlen null_bytes < 1024 ->
  (forall w t,
     let '(t', r) := serialize_value v8_format exc_string w t in
     leg t' = fst (written w (leg t)) /\ held t' = held t /\
     match snd (written w (leg t)) with
     | Ok bs =>
       r = Ok (relabel_write_version (header v8_format ++ bs)) /\ LAST_CODEC_ERROR t' = None /\
       (zlen (header v8_format ++ bs) < 4294967296 ->
        probe_format_version (relabel_write_version (header v8_format ++ bs)) = write_format_version v8_format null_bytes)
     | Err f => r = Err (text_of exc_string f) /\ LAST_CODEC_ERROR t' = slot_of f
     end) /\
  (forall bytes tbl t, (forall g, read mint (v8_reader bytes) = Ok g -> graph_fits g) ->
     let '(t', o) := deserialize_value exc_message mint v8_header v8_reader bytes t in
     let '(t'', o') := deserialize_value_with_web_types exc_message mint v8_header v8_reader brand_key inherited to_uint32 can_make stops bytes tbl t in
     (leg t' = leg t /\ held t' = held t /\ leg t'' = leg t /\ held t'' = held t) /\
     match read_outcome exc_message mint v8_header v8_reader bytes with
     | Ok g => o = Some g /\ LAST_CODEC_ERROR t' = None
     | Err e => o = None /\ LAST_CODEC_ERROR t' = e
     end /\
     match web_outcome exc_message mint v8_header v8_reader brand_key inherited to_uint32 can_make stops bytes tbl with
     | Ok x => o' = Some x /\ LAST_CODEC_ERROR t'' = None
     | Err e => o' = None /\ LAST_CODEC_ERROR t'' = e
     end).
Proof.
  intros Hm Hv Hn. split.
  - intros w t. pose proof (serialize_value_spec v8_format exc_string w t) as Hw. destruct (serialize_value v8_format exc_string w t) as [t' r].
    destruct Hw as (Hl & Hh & Hw). split_and!; [done..|]. destruct (snd (written w (leg t))) as [bs|f]; [|done]. destruct Hw as [Hr Hs]. split_and!; [done..|].
    intros Hlen. rewrite (proj2 (relabelled _ _ Hlen Hv)). symmetry. apply (relabelled v8_format null_bytes); [|done]. cbn. lia.
  - intros bytes tbl t Hg. pose proof (deserialize_value_spec exc_message mint v8_header v8_reader bytes t Hm) as Hd.
    pose proof (web_types_spec exc_message mint v8_header v8_reader brand_key inherited to_uint32 can_make stops bytes tbl t Hm Hg) as Hw.
    destruct (deserialize_value _ _ _ _ bytes t) as [t' o]. destruct (deserialize_value_with_web_types _ _ _ _ _ _ _ _ _ bytes tbl t) as [t'' o'].
    destruct Hd as (Hl & Hh & Hd). destruct Hw as (Hl' & Hh' & Hw). by split_and!.
Qed.

(** A small V8: a value of two bytes read with a getter that calls the host, then a
    response with a stream body on a leg that carries none; a blob whose one host
    object is broken. *)
#[local] Instance blob_wire : V8Wire := {
  write_uint32 := u32_be;
  read_uint32 bs := if (4 <=? length bs)%nat then Some (be_val (take 4 bs), drop 4 bs) else None;
  write_value x := match x with WArray _ => Some [x41] | _ => Some [x30] end;
  read_value bs := match bs with x41 :: rest => Some (WArray [], rest) | x30 :: rest => Some (WNull, rest) | _ => None end;
  serialize_handle _ := None;
  deserialize_handle _ := None;
}.
Definition stale_thread : Thread := mk_Thread (Some (Malformed "stale"%string)) None (mk_OutLeg false 7 None).
Definition small_value (body : Body) : v8_write :=
  WBytes [x6f; x22] (WCall (WBytes [x41] WDone) (WHost (mk_HostObject None None (Some (mk_ResponseView 200 (Some "OK"%string) (Some []) body))) (Some TAG_RESPONSE) WDone)).
Definition small_reader (bytes : list byte) : v8_read := RHost (drop 2 bytes) (fun _ _ => RValue (mk_Graph ∅ Undefined 0)).
Definition small_message (x : Exc) : option string := match x with TypeErrorExc m => Some ("Uncaught TypeError: " +:+ m) | _ => None end.

Lemma codec_errors_attributed_witness :
  (exists m, snd (serialize_value 16 (fun _ => None) (small_value (BodyStream 4)) stale_thread) = Err m /\
     LAST_CODEC_ERROR (fst (serialize_value 16 (fun _ => None) (small_value (BodyStream 4)) stale_thread)) = Some (Unsupported m)) /\
  (exists bs, snd (serialize_value 16 (fun _ => None) (small_value (BodyInline WNull)) stale_thread) = Ok bs /\ probe_format_version bs = Some 15) /\
  LAST_CODEC_ERROR (fst (deserialize_value small_message (mk_Mint (fun _ => true) (fun _ => true)) (fun _ => true) small_reader [xff; x0f; x00] stale_thread)) =
    Some (bad "truncated integer").
Proof.
  destruct (codec_errors_attributed 16 (fun _ => None) small_message (mk_Mint (fun _ => true) (fun _ => true)) (fun _ => true) small_reader
    None (fun _ => None) (fun _ => None) (fun _ => true) (fun _ => false) [x30]) as [Hw Hr]; [done|lia|cbn; lia|]. split_and!.
  - specialize (Hw (small_value (BodyStream 4)) stale_thread). destruct (serialize_value _ _ (small_value (BodyStream 4)) stale_thread) as [t r].
    destruct Hw as (_ & _ & Hw). vm_compute in Hw. eexists. exact Hw.
  - specialize (Hw (small_value (BodyInline WNull)) stale_thread). destruct (serialize_value _ _ (small_value (BodyInline WNull)) stale_thread) as [t r].
    destruct Hw as (_ & _ & Hw). vm_compute in Hw. destruct Hw as (Hw & _ & Hp). eexists. split; [exact Hw|by apply Hp].
  - specialize (Hr [xff; x0f; x00] None stale_thread). assert (Hg : forall g, read (mk_Mint (fun _ => true) (fun _ => true)) (small_reader [xff; x0f; x00]) = Ok g -> graph_fits g)
      by (intros g Hg; discriminate Hg).
    specialize (Hr Hg). destruct (deserialize_value _ _ _ _ _ _) as [t r]. destruct (deserialize_value_with_web_types _ _ _ _ _ _ _ _ _ _ _ _) as [t' r'].
    destruct Hr as (_ & [_ Hs] & _). exact Hs.
Defined.
