(* ===== verification/WebTypes.v ===== *)
(** * Web types and the clock ([crates/core/src/webtypes.rs])

    [Headers], [Request] and [Response] are JavaScript classes over shells with an
    internal field; the runtime knows an instance by a tag under a private symbol,
    which no guest code can read or write, and builds and reads instances through the
    properties their classes keep.  The second part is the clock guest code sees. *)

From Stdlib Require Import Floats.SpecFloat.
From S2P Require Import Prelude F64 Webcodec Rehydrate.

(** ** Objects *)

Definition INTERNAL_FIELD_COUNT : Z := 1.

(** [type_tag], [stream_mark], [stream_id]: the private properties; [prototype]:
    [None] for the template's own. *)
Record WObj := mk_WObj {
  own_props : gmap string Val;
  type_tag : option Val;
  stream_mark : bool;
  stream_id : option Val;
  prototype : option Val;
  internal_fields : Z;
}.
Definition plain_object (fields : Z) : WObj := mk_WObj ∅ None false None None fields.
Definition with_prop (name : string) (v : Val) (o : WObj) : WObj := mk_WObj (<[name := v]> (own_props o)) (type_tag o) (stream_mark o) (stream_id o) (prototype o) (internal_fields o).
Definition with_tag (v : Val) (o : WObj) : WObj := mk_WObj (own_props o) (Some v) (stream_mark o) (stream_id o) (prototype o) (internal_fields o).
Definition with_mark (o : WObj) : WObj := mk_WObj (own_props o) (type_tag o) true (stream_id o) (prototype o) (internal_fields o).
Definition with_stream_id (v : Val) (o : WObj) : WObj := mk_WObj (own_props o) (type_tag o) (stream_mark o) (Some v) (prototype o) (internal_fields o).
Definition with_prototype (v : Val) (o : WObj) : WObj := mk_WObj (own_props o) (type_tag o) (stream_mark o) (stream_id o) (Some v) (internal_fields o).

Record Realm := mk_Realm { objects : gmap Z WObj; next_obj : Z }.
Definition on_object (r : Realm) (id : Z) (f : WObj -> WObj) : Realm := mk_Realm (alter f id (objects r)) (next_obj r).
Definition new_object (r : Realm) (o : WObj) : Realm * Z := (mk_Realm (<[next_obj r := o]> (objects r)) (next_obj r + 1), next_obj r).

Record HeadersView := mk_HeadersView { hv_list : Val }.
Record RequestView := mk_RequestView { wv_url : Val; wv_method : Val; wv_headers : Z; wv_body : Val }.
Record ResponseView := mk_ResponseView { wv_status : Z; wv_status_text : Val; wv_sheaders : Z; wv_sbody : Val }.

Section WebTypes.
(** [inherited]: a property found off a prototype ([None]: the read throws);
    [is_array]: whether a value is an array; [to_uint32]: [Value::uint32_value];
    [alive]: whether V8 makes an object; [class_prototype]: the prototype of the class
    kept under its private symbol. *)
Context (inherited : option Val -> string -> option Val) (is_array : Val -> bool) (to_uint32 : Val -> option Z)
  (alive : bool) (class_prototype : string -> option Val).

Definition get (r : Realm) (id : Z) (name : string) : option Val :=
  o ← objects r !! id;
  match own_props o !! name with Some v => Some v | None => inherited (prototype o) name end.

Definition define (r : Realm) (id : Z) (name : string) (v : Val) : Realm := on_object r id (with_prop name v).

Definition as_object (v : Val) : option Z := match v with Ref id => Some id | _ => None end.

Definition unsigned (n : Z) : Val := Num (f64_of_Z n).

Definition stamp_tag (r : Realm) (id tag : Z) : Realm := on_object r id (with_tag (unsigned tag)).

Definition tag_of (r : Realm) (id : Z) : option Z := o ← objects r !! id; v ← type_tag o; is_uint32 v.

(** The native shells ([headers_shell_ctor] and its twins), on the receiver of the
    call: the tag is stamped whether or not the shell is called as a constructor. *)
Inductive shell := HeadersShell | RequestShell | ResponseShell.
Definition shell_tag (sh : shell) : Z := match sh with HeadersShell => TAG_HEADERS | RequestShell => TAG_REQUEST | ResponseShell => TAG_RESPONSE end.
Definition shell_ctor (sh : shell) (r : Realm) (this : Z) : Realm := stamp_tag r this (shell_tag sh).

Definition make_instance (class_name : string) (tag : Z) (r : Realm) : option (Realm * Z) :=
  if alive then
    let '(r, id) := new_object r (plain_object INTERNAL_FIELD_COUNT) in
    let r := stamp_tag r id tag in
    proto ← class_prototype class_name;
    Some (on_object r id (with_prototype proto), id)
  else None.

Definition make_headers (list : Val) (r : Realm) : option (Realm * Z) :=
  '(r, id) ← make_instance "Headers" TAG_HEADERS r; Some (define r id "_l" list, id).

Definition make_request (url method : Val) (headers : Z) (body : Val) (r : Realm) : option (Realm * Z) :=
  '(r, id) ← make_instance "Request" TAG_REQUEST r;
  let r := define r id "_u" url in
  let r := define r id "_m" method in
  let r := define r id "_h" (Ref headers) in
  let r := define r id "_b" body in
  Some (define r id "_used" (OtherPrim 0), id).

Definition make_response (status : Z) (status_text : Val) (headers : Z) (body : Val) (r : Realm) : option (Realm * Z) :=
  '(r, id) ← make_instance "Response" TAG_RESPONSE r;
  let r := define r id "_s" (unsigned status) in
  let r := define r id "_t" status_text in
  let r := define r id "_h" (Ref headers) in
  let r := define r id "_b" body in
  Some (define r id "_used" (OtherPrim 0), id).

Definition headers_view (r : Realm) (id : Z) : option HeadersView :=
  list ← get r id "_l"; if is_array list then Some (mk_HeadersView list) else None.

Definition request_view (r : Realm) (id : Z) : option RequestView :=
  url ← get r id "_u"; method ← get r id "_m"; headers ← get r id "_h" ≫= as_object; body ← get r id "_b";
  Some (mk_RequestView url method headers body).

Definition response_view (r : Realm) (id : Z) : option ResponseView :=
  status ← get r id "_s" ≫= to_uint32; status_text ← get r id "_t"; headers ← get r id "_h" ≫= as_object; body ← get r id "_b";
  Some (mk_ResponseView status status_text headers body).

(** ** Stream bodies ([streams.rs]): a mark every [Iso4BodyStream] gets when it is
    constructed, and the id of one made for a handle *)

Definition is_stream_body (r : Realm) (v : Val) : bool :=
  match as_object v ≫= (fun id => objects r !! id) with Some o => stream_mark o | None => false end.

Definition stamp_stream_body_callback (r : Realm) (v : Val) : Realm :=
  match as_object v with Some id => on_object r id with_mark | None => r end.

Definition body_stream_id_of (r : Realm) (v : Val) : option Z := id ← as_object v; o ← objects r !! id; v ← stream_id o; is_uint32 v.

(** [factory]: the web runtime's, called with the id. *)
Definition make_body_stream (factory : Val -> Realm -> option (Realm * Val)) (stream_id : Z) (r : Realm) : option (Realm * Z) :=
  '(r, stream) ← factory (unsigned stream_id) r;
  id ← as_object stream;
  Some (on_object r id (with_stream_id (unsigned stream_id)), id).

(** [new Iso4BodyStream], as far as the marks go. *)
Definition new_stream (r : Realm) : Realm := let '(r, id) := new_object r (plain_object 0) in stamp_stream_body_callback r (Ref id).

(** What a function's [[Prototype]] is: what [super()] in a derived class calls.
    Functions are numbered apart from the objects. *)
Inductive Super := Shell (sh : shell) | Class (f : Z) | OtherSuper.
Record GuestRealm := mk_GuestRealm { realm : Realm; parents : gmap Z Super }.

(** The shell a chain of [super()] calls ends in, if it ends in one; V8 refuses a
    cycle, so a chain is no longer than the map. *)
Fixpoint shell_of (fuel : nat) (ps : gmap Z Super) (f : Z) : option shell :=
  match fuel with
  | O => None
  | S fuel => match ps !! f with Some (Shell sh) => Some sh | Some (Class f) => shell_of fuel ps f | _ => None end
  end.

(** The classes of [webtypes.js] (539, 969, 1059). *)
Definition CLASS_HEADERS : Z := 1.
Definition CLASS_REQUEST : Z := 2.
Definition CLASS_RESPONSE : Z := 3.
Definition installed_classes : gmap Z Super :=
  <[CLASS_HEADERS := Shell HeadersShell]> (<[CLASS_REQUEST := Shell RequestShell]> {[ CLASS_RESPONSE := Shell ResponseShell ]}).

(** What guest code can do to objects: make one, construct a body stream, a class or
    a shell, write or delete a property, change the prototype of an object or of a
    class (a class it declares is given one for the first time), and call a shell,
    which it reaches as a class's prototype, without [new] on an object it holds. *)
Inductive guest_op :=
  | GNew
  | GStream
  | GConstruct (f : Z)
  | GNewShell (sh : shell)
  | GWrite (id : Z) (name : string) (v : Val)
  | GDelete (id : Z) (name : string)
  | GSetPrototype (id : Z) (v : Val)
  | GReparent (f : Z) (super : Super)
  | GCallShell (sh : shell) (this : Z).

(** [new] of a shell, or of a class whose [super()] calls end in one. *)
Definition new_shell (sh : shell) (r : Realm) : Realm :=
  let '(r, id) := new_object r (plain_object INTERNAL_FIELD_COUNT) in shell_ctor sh r id.

Definition guest_on_realm (ps : gmap Z Super) (r : Realm) (o : guest_op) : Realm :=
  match o with
  | GNew => fst (new_object r (plain_object 0))
  | GStream => new_stream r
  | GConstruct f => match shell_of (size ps) ps f with Some sh => new_shell sh r | None => fst (new_object r (plain_object 0)) end
  | GNewShell sh => new_shell sh r
  | GWrite id name v => on_object r id (with_prop name v)
  | GDelete id name => on_object r id (fun o => mk_WObj (delete name (own_props o)) (type_tag o) (stream_mark o) (stream_id o) (prototype o) (internal_fields o))
  | GSetPrototype id v => on_object r id (with_prototype v)
  | GReparent _ _ => r
  | GCallShell sh this => shell_ctor sh r this
  end.

Definition reparent (ps : gmap Z Super) (o : guest_op) : gmap Z Super :=
  match o with GReparent f super => <[f := super]> ps | _ => ps end.

Definition guest_exec (g : GuestRealm) (o : guest_op) : GuestRealm :=
  mk_GuestRealm (guest_on_realm (parents g) (realm g) o) (reparent (parents g) o).
End WebTypes.

(** ** The clock *)

(** [FrozenClock]; [None]: not installed. *)
Definition install_clock (wall_now_ms : f64) : option f64 := Some wall_now_ms.
Definition frozen_now_ms (clock : option f64) : option f64 := clock.

Definition advance_frozen_clock_to (clock : option f64) (target_ms : f64) : option f64 :=
  match clock with
  | None => None
  | Some now => let target := f64_trunc target_ms in Some (if f64_lt now target then target else now)
  end.

(** ** Instances read back *)

Definition class_tags : list Z := [TAG_HEADERS; TAG_REQUEST; TAG_RESPONSE].

Lemma class_tag_reads tag : tag ∈ class_tags -> is_uint32 (unsigned tag) = Some tag.
Proof. unfold class_tags. rewrite !elem_of_cons, elem_of_nil. by intros [->|[->|[->|[]]]]. Qed.

Definition ids_fit (r : Realm) : Prop := forall id, is_Some (objects r !! id) -> id < next_obj r.

Lemma lookup_on_object r id f x : objects (on_object r id f) !! x = if decide (x = id) then f <$> objects r !! x else objects r !! x.
Proof. cbn. case_decide as Hd; [subst; by rewrite lookup_alter_eq|by rewrite lookup_alter_ne]. Qed.

(** Writing properties and prototypes leaves the tags alone. *)
Lemma tag_of_on_object r id f x : (forall o, type_tag (f o) = type_tag o) -> tag_of (on_object r id f) x = tag_of r x.
Proof. intros Hf. unfold tag_of. rewrite lookup_on_object. case_decide; [|done]. destruct (objects r !! x) as [o|]; cbn; [|done]. by rewrite Hf. Qed.

Lemma tag_of_stamp r id tag x : tag ∈ class_tags ->
  tag_of (stamp_tag r id tag) x = if decide (x = id) then (if bool_decide (is_Some (objects r !! id)) then Some tag else None) else tag_of r x.
Proof.
  intros Ht. unfold tag_of, stamp_tag. rewrite lookup_on_object. case_decide as Hd; [|done]. subst x. destruct (objects r !! id) as [o|]; cbn; [|done].
  by apply class_tag_reads.
Qed.

Lemma tag_of_new r o x : ids_fit r ->
  tag_of (fst (new_object r o)) x = if decide (x = next_obj r) then type_tag o ≫= is_uint32 else tag_of r x.
Proof.
  intros Hf. unfold tag_of. cbn. case_decide as Hd; [subst; by rewrite lookup_insert_eq|by rewrite lookup_insert_ne].
Qed.

Lemma tag_of_fresh r x : ids_fit r -> next_obj r <= x -> tag_of r x = None.
Proof. intros Hf Hx. unfold tag_of. destruct (objects r !! x) as [o|] eqn:E; [|done]. specialize (Hf x ltac:(by eexists)). lia. Qed.

Lemma ids_fit_on r id f : ids_fit r -> ids_fit (on_object r id f).
Proof. intros Hf x [o Ho]. apply Hf. cbn in Ho. apply lookup_alter_Some in Ho as [(-> & ? & -> & _)|[_ ->]]; by eexists. Qed.
Lemma ids_fit_new r o : ids_fit r -> ids_fit (fst (new_object r o)).
Proof. intros Hf x [o' Ho]. cbn in *. apply lookup_insert_Some in Ho as [[<- _]|[_ Ho]]; [lia|]. specialize (Hf x ltac:(by eexists)). lia. Qed.

(** How many objects a step makes. *)
Definition makes (o : guest_op) : Z := match o with GNew | GStream | GConstruct _ | GNewShell _ => 1 | _ => 0 end.

(** The ledger of stampings, [n] being the number of the next object: an object made
    through a shell, and an object that exists when a shell is called on it. *)
Definition stamping (ps : gmap Z Super) (n : Z) (o : guest_op) : list (Z * Z) :=
  match o with
  | GConstruct f => match shell_of (size ps) ps f with Some sh => [(n, shell_tag sh)] | None => [] end
  | GNewShell sh => [(n, shell_tag sh)]
  | GCallShell sh this => if this <? n then [(this, shell_tag sh)] else []
  | _ => []
  end.
Fixpoint stampings (ps : gmap Z Super) (n : Z) (os : list guest_op) : list (Z * Z) :=
  match os with
  | [] => []
  | o :: os => stamping ps n o ++ stampings (reparent ps o) (n + makes o) os
  end.

(** The last tag a ledger gives an object, the one it had if there is none. *)
Definition last_stamp (x : Z) (old : option Z) (l : list (Z * Z)) : option Z :=
  fold_left (fun t '(y, tag) => if decide (y = x) then Some tag else t) l old.

Lemma shell_tag_class sh : shell_tag sh ∈ class_tags.
Proof. destruct sh; unfold class_tags; set_solver. Qed.

Lemma new_shell_tag sh r x : ids_fit r ->
  tag_of (new_shell sh r) x = if decide (x = next_obj r) then Some (shell_tag sh) else tag_of r x.
Proof.
  intros Hf. unfold new_shell, shell_ctor. cbn [new_object]. rewrite tag_of_stamp by apply shell_tag_class. case_decide as Hd.
  - rewrite bool_decide_eq_true_2; [done|]. cbn. rewrite lookup_insert_eq. by eexists.
  - pose proof (tag_of_new r (plain_object INTERNAL_FIELD_COUNT) x Hf) as E. by rewrite decide_False in E.
Qed.

Lemma ids_fit_shell sh r : ids_fit r -> ids_fit (new_shell sh r).
Proof. intros Hf. apply ids_fit_on. by apply (ids_fit_new r (plain_object INTERNAL_FIELD_COUNT)). Qed.

Lemma tag_of_plain r x : ids_fit r -> tag_of (fst (new_object r (plain_object 0))) x = tag_of r x.
Proof. intros Hf. rewrite tag_of_new by done. case_decide as Hd; [|done]. subst. by rewrite tag_of_fresh by (done || lia). Qed.

Lemma guest_step_shape ps r o : ids_fit r -> ids_fit (guest_on_realm ps r o) /\ next_obj (guest_on_realm ps r o) = next_obj r + makes o.
Proof.
  intros Hf. destruct o as [| |f|sh|id name v|id name|id v|f super|sh this]; cbn [guest_on_realm makes];
    try (split; [by apply ids_fit_on|cbn; lia]); try (split; [done|lia]).
  - split; [by apply ids_fit_new|done].
  - split; [|done]. change (new_stream r) with (on_object (fst (new_object r (plain_object 0))) (next_obj r) with_mark). by apply ids_fit_on, ids_fit_new.
  - destruct (shell_of _ _ _); (split; [|done]); [by apply ids_fit_shell|by apply ids_fit_new].
  - split; [by apply ids_fit_shell|done].
Qed.

Lemma guest_step_tag ps r o x : ids_fit r -> tag_of (guest_on_realm ps r o) x =
  if decide (is_Some (objects r !! x) \/ x = next_obj r) then last_stamp x (tag_of r x) (stamping ps (next_obj r) o) else tag_of r x.
Proof.
  intros Hf. assert (Hsame : tag_of (guest_on_realm ps r o) x = tag_of r x -> stamping ps (next_obj r) o = [] ->
    tag_of (guest_on_realm ps r o) x = if decide (is_Some (objects r !! x) \/ x = next_obj r) then last_stamp x (tag_of r x) (stamping ps (next_obj r) o) else tag_of r x)
    by (intros E ->; rewrite E; by case_decide).
  assert (Hshell : forall sh, tag_of (new_shell sh r) x =
    if decide (is_Some (objects r !! x) \/ x = next_obj r) then last_stamp x (tag_of r x) [(next_obj r, shell_tag sh)] else tag_of r x).
  { intros sh. rewrite new_shell_tag by done. unfold last_stamp. cbn [fold_left]. repeat case_decide; subst; naive_solver. }
  destruct o as [| |f|sh|id name v|id name|id v|f super|sh this]; cbn [guest_on_realm stamping] in *;
    try (apply Hsame; [|done]; by rewrite ?tag_of_on_object, ?tag_of_plain by done).
  - apply Hsame; [|done]. change (new_stream r) with (on_object (fst (new_object r (plain_object 0))) (next_obj r) with_mark).
    by rewrite tag_of_on_object, tag_of_plain.
  - destruct (shell_of _ _ _); [apply Hshell|]. apply Hsame; [by apply tag_of_plain|done].
  - apply Hshell.
  - unfold shell_ctor. rewrite tag_of_stamp by apply shell_tag_class. destruct (Z.ltb_spec this (next_obj r)) as [Hlt|Hge]; unfold last_stamp; cbn [fold_left].
    + destruct (decide (x = this)) as [->|Hn].
      * rewrite (decide_True (P:=this = this)) by done. case_bool_decide as Hs; [by rewrite decide_True by auto|].
        rewrite decide_False by (intros [?|?]; [done|lia]). unfold tag_of. by rewrite (proj2 (eq_None_not_Some _) Hs).
      * rewrite (decide_False (P:=this = x)) by done. by case_decide.
    + assert (Hn : objects r !! this = None).
      { destruct (objects r !! this) as [ob|] eqn:E; [|done]. specialize (Hf this ltac:(by eexists)). lia. }
      destruct (decide (x = this)) as [->|?]; [|by case_decide]. rewrite bool_decide_eq_false_2 by (rewrite Hn; by intros []).
      assert (Ht : tag_of r this = None) by (unfold tag_of; by rewrite Hn). rewrite Ht. by case_decide.
Qed.

(** Objects stay, and the ones that appear are the ones made. *)
Lemma guest_step_exists ps r o x :
  is_Some (objects (guest_on_realm ps r o) !! x) -> is_Some (objects r !! x) \/ x = next_obj r.
Proof.
  assert (Hon : forall r id f, is_Some (objects (on_object r id f) !! x) -> is_Some (objects r !! x)).
  { intros r0 id f [ob Ho]. cbn in Ho. apply lookup_alter_Some in Ho as [(-> & ? & -> & _)|[_ ->]]; by eexists. }
  assert (Hnew : forall ob, is_Some (objects (fst (new_object r ob)) !! x) -> is_Some (objects r !! x) \/ x = next_obj r).
  { intros ob [ob' Ho]. cbn in Ho. apply lookup_insert_Some in Ho as [[<- _]|[_ ->]]; [by right|left; by eexists]. }
  destruct o as [| |f|sh|id name v|id name|id v|f super|sh this]; cbn [guest_on_realm]; try (intros H%Hon; by left); try (by left).
  - apply Hnew.
  - intros H%Hon. by apply (Hnew (plain_object 0)).
  - destruct (shell_of _ _ _) as [sh|]; [intros H%Hon; by apply (Hnew (plain_object INTERNAL_FIELD_COUNT))|apply Hnew].
  - intros H%Hon. by apply (Hnew (plain_object INTERNAL_FIELD_COUNT)).
Qed.

Lemma guest_run_tags os g x : ids_fit (realm g) -> is_Some (objects (realm (fold_left guest_exec os g)) !! x) ->
  tag_of (realm (fold_left guest_exec os g)) x = last_stamp x (tag_of (realm g) x) (stampings (parents g) (next_obj (realm g)) os).
Proof.
  assert (Hstays : forall os g x, ids_fit (realm g) -> is_Some (objects (realm (fold_left guest_exec os g)) !! x) ->
    is_Some (objects (realm g) !! x) \/ next_obj (realm g) <= x).
  { clear. intros os. induction os as [|o os IH]; intros g x Hf Hx; cbn [fold_left] in Hx; [by left|].
    destruct (guest_step_shape (parents g) (realm g) o Hf) as [Hf' Hn].
    assert (0 <= makes o) by (destruct o; cbn; lia). cbn in IH.
    destruct (IH (guest_exec g o) x Hf' Hx) as [H1|H1]; [|right; cbn in H1; lia].
    apply guest_step_exists in H1 as [?| ->]; [by left|right; lia]. }
  revert g. induction os as [|o os IH]; intros g Hf Hx; cbn [fold_left] in *; [done|].
  destruct (guest_step_shape (parents g) (realm g) o Hf) as [Hf' Hn].
  rewrite (IH (guest_exec g o)) by done. unfold guest_exec. cbn [realm parents stampings]. rewrite Hn, guest_step_tag by done.
  unfold last_stamp. rewrite fold_left_app. fold (last_stamp x (tag_of (realm g) x) (stamping (parents g) (next_obj (realm g)) o)).
  case_decide as Hd; [done|]. f_equal.
  assert (Hno : forall p, p ∈ stamping (parents g) (next_obj (realm g)) o -> p.1 <> x).
  { intros p Hp Hpx. assert (Hlt : x <= next_obj (realm g)).
    { subst x. destruct o as [| |f|sh| | | | |sh this]; cbn in Hp; try (by apply elem_of_nil in Hp).
      - destruct (shell_of _ _ _); [apply list_elem_of_singleton in Hp as ->; cbn; lia|by apply elem_of_nil in Hp].
      - apply list_elem_of_singleton in Hp as ->. cbn. lia.
      - destruct (Z.ltb_spec this (next_obj (realm g))); [apply list_elem_of_singleton in Hp as ->; cbn; lia|by apply elem_of_nil in Hp]. }
    destruct (Hstays (o :: os) g x Hf Hx) as [?|?]; apply Hd; [by left|right; lia]. }
  unfold last_stamp. induction (stamping _ _ o) as [|[y t] l IHl]; [done|]. cbn [fold_left].
  rewrite decide_False by (apply (Hno (y, t)); by left). apply IHl. intros p Hp. apply Hno. by right.
Qed.

(** The streams guest code constructs. *)
Fixpoint streamed (n : Z) (os : list guest_op) : list Z :=
  match os with
  | [] => []
  | o :: os => (match o with GStream => [n] | _ => [] end) ++ streamed (n + makes o) os
  end.

Lemma is_stream_on_object r id f x : (forall o, stream_mark (f o) = stream_mark o) -> is_stream_body (on_object r id f) x = is_stream_body r x.
Proof.
  intros Hf. unfold is_stream_body. destruct (as_object x) as [y|]; [|done]. cbn [mbind option_bind]. rewrite lookup_on_object. case_decide; [|done].
  destruct (objects r !! y) as [o|]; [apply Hf|done].
Qed.

Lemma is_stream_new r o x : ids_fit r -> stream_mark o = false -> is_stream_body (fst (new_object r o)) x = is_stream_body r x.
Proof.
  intros Hf Ho. unfold is_stream_body. destruct (as_object x) as [y|]; [|done]. cbn. destruct (decide (y = next_obj r)) as [->|Hne]; [|by rewrite lookup_insert_ne].
  rewrite lookup_insert_eq. destruct (objects r !! next_obj r) as [o'|] eqn:E; [|done]. specialize (Hf (next_obj r) ltac:(by eexists)). lia.
Qed.

Lemma is_stream_shell sh r x : ids_fit r -> is_stream_body (new_shell sh r) x = is_stream_body r x.
Proof.
  intros Hf. change (new_shell sh r) with (stamp_tag (fst (new_object r (plain_object INTERNAL_FIELD_COUNT))) (next_obj r) (shell_tag sh)).
  unfold stamp_tag. by rewrite is_stream_on_object, is_stream_new.
Qed.

Lemma guest_step_stream ps r o x : ids_fit r ->
  is_stream_body (guest_on_realm ps r o) (Ref x) = true <-> is_stream_body r (Ref x) = true \/ x ∈ streamed (next_obj r) [o].
Proof.
  intros Hf. cbn [streamed]. rewrite app_nil_r.
  destruct o as [| |f|sh|id name v|id name|id v|f super|sh this]; cbn [guest_on_realm]; rewrite ?elem_of_nil;
    try (unfold shell_ctor, stamp_tag; rewrite ?is_stream_on_object, ?is_stream_new, ?is_stream_shell by done; tauto).
  - rewrite list_elem_of_singleton. unfold is_stream_body, new_stream, stamp_stream_body_callback. cbn [new_object as_object mbind option_bind]. rewrite lookup_on_object.
    cbn [objects]. case_decide as Hd; [subst; rewrite lookup_insert_eq; cbn; tauto|]. rewrite lookup_insert_ne by done. tauto.
  - destruct (shell_of _ _ _); rewrite ?is_stream_shell, ?is_stream_new by done; tauto.
Qed.

Lemma guest_run_streams os g x : ids_fit (realm g) ->
  is_stream_body (realm (fold_left guest_exec os g)) (Ref x) = true <->
  is_stream_body (realm g) (Ref x) = true \/ x ∈ streamed (next_obj (realm g)) os.
Proof.
  revert g. induction os as [|o os IH]; intros g Hf; cbn [fold_left]; [cbn; rewrite elem_of_nil; tauto|].
  destruct (guest_step_shape (parents g) (realm g) o Hf) as [Hf' Hn]. rewrite IH by done. unfold guest_exec. cbn [realm streamed].
  rewrite Hn, guest_step_stream by done. cbn [streamed]. rewrite app_nil_r, elem_of_app. tauto.
Qed.

(** A stream made for a handle names it, and the mark its constructor gave it stays. *)
Lemma body_stream_reads factory id r r' s : make_body_stream factory id r = Some (r', s) -> is_u32 id ->
  (forall r0 stream r1, factory stream r0 = Some (r1, Ref s) -> is_Some (objects r1 !! s)) ->
  is_uint32 (unsigned id) = Some id -> body_stream_id_of r' (Ref s) = Some id.
Proof.
  unfold make_body_stream. intros Hm Hid Hfac Hu. destruct (factory (unsigned id) r) as [[r1 stream]|] eqn:E; [|done]. cbn in Hm.
  destruct stream as [| | | | |x]; try done. cbn in Hm. injection Hm as <- <-. unfold body_stream_id_of. cbn [as_object mbind option_bind]. rewrite lookup_on_object, decide_True by done.
  destruct (Hfac _ _ _ E) as [o Ho]. rewrite Ho. exact Hu.
Qed.

(** What an instance made by the runtime is: new, tagged, and with the fields given. *)
Definition made (r r' : Realm) (id tag : Z) (fields : list (string * Val)) : Prop :=
  id = next_obj r /\ next_obj r' = next_obj r + 1 /\ (ids_fit r -> ids_fit r') /\
  (forall x, x <> id -> objects r' !! x = objects r !! x) /\
  exists o, objects r' !! id = Some o /\ type_tag o = Some (unsigned tag) /\ Forall (fun p => own_props o !! p.1 = Some p.2) fields.

Lemma made_define r r' id tag fields name v : made r r' id tag fields -> Forall (fun p => p.1 <> name) fields ->
  made r (define r' id name v) id tag ((name, v) :: fields).
Proof.
  intros (H1 & H2 & H3 & H4 & o & Ho & Ht & Hf) Hne. split_and!; [done|done|by intros ?; apply ids_fit_on, H3| |].
  - intros x Hx. unfold define. rewrite lookup_on_object, decide_False by done. by apply H4.
  - unfold define. rewrite lookup_on_object, decide_True, Ho by done. eexists. split_and!; [done|done|]. constructor; cbn; [by rewrite lookup_insert_eq|].
    rewrite Forall_forall in Hf, Hne. apply Forall_forall. intros p Hp. rewrite lookup_insert_ne by (intros E; by eapply Hne). by apply Hf.
Qed.

Lemma made_instance alive class_prototype class_name tag r r' id : make_instance alive class_prototype class_name tag r = Some (r', id) -> made r r' id tag [].
Proof.
  unfold make_instance. destruct alive; [|done]. cbn [new_object]. destruct (class_prototype class_name) as [proto|]; [|done]. intros [= <- <-]. split_and!; try done.
  - intros Hf. apply ids_fit_on, ids_fit_on. by apply (ids_fit_new r (plain_object INTERNAL_FIELD_COUNT)).
  - intros x Hx. unfold stamp_tag. rewrite !lookup_on_object, !decide_False by done. cbn. by rewrite lookup_insert_ne.
  - unfold stamp_tag. rewrite !lookup_on_object, !decide_True by done. cbn [objects]. rewrite lookup_insert_eq. eexists. split_and!; [done|done|constructor].
Qed.

(** One more field, under a name of its own. *)
Ltac made_field H name v := apply (made_define _ _ _ _ _ name v) in H; [|by repeat constructor].

Lemma made_get inherited r r' id tag fields name v : made r r' id tag fields -> (name, v) ∈ fields -> get inherited r' id name = Some v.
Proof.
  intros (_ & _ & _ & _ & o & Ho & _ & Hf) Hin. rewrite Forall_forall in Hf. unfold get. rewrite Ho. cbn. by rewrite (Hf _ Hin : own_props o !! name = Some v).
Qed.

Lemma made_tag r r' id tag fields : made r r' id tag fields -> tag ∈ class_tags -> tag_of r' id = Some tag.
Proof. intros (_ & _ & _ & _ & o & Ho & Ht & _) Hin. unfold tag_of. rewrite Ho. cbn. rewrite Ht. by apply class_tag_reads. Qed.

Lemma made_tags_kept r r' id tag fields x : made r r' id tag fields -> x <> id -> tag_of r' x = tag_of r x.
Proof. intros (_ & _ & _ & H & _) Hx. unfold tag_of. by rewrite H. Qed.

Lemma response_made alive class_prototype status status_text headers body r r' id :
  make_response alive class_prototype status status_text headers body r = Some (r', id) ->
  made r r' id TAG_RESPONSE [("_used", OtherPrim 0); ("_b", body); ("_h", Ref headers); ("_t", status_text); ("_s", unsigned status)]%string.
Proof.
  unfold make_response. destruct (make_instance _ _ _ _ r) as [[r0 id0]|] eqn:E; [|done]. apply made_instance in E. cbn. intros [= <- <-].
  made_field E "_s"%string (unsigned status). made_field E "_t"%string status_text. made_field E "_h"%string (Ref headers). made_field E "_b"%string body.
  made_field E "_used"%string (OtherPrim 0). exact E.
Qed.

(** A shell called without [new] on an instance makes it one of another class. *)
Lemma shell_call_restamps alive class_prototype status status_text headers body r r' id :
  make_response alive class_prototype status status_text headers body r = Some (r', id) ->
  tag_of r' id = Some TAG_RESPONSE /\
  tag_of (realm (guest_exec (mk_GuestRealm r' installed_classes) (GCallShell RequestShell id))) id = Some TAG_REQUEST.
Proof.
  intros E%response_made. split; [eapply made_tag; [exact E|set_solver]|]. destruct E as (_ & _ & _ & _ & o & Ho & _).
  cbn [guest_exec realm guest_on_realm parents]. unfold shell_ctor. rewrite tag_of_stamp, decide_True by (done || apply shell_tag_class).
  by rewrite bool_decide_eq_true_2 by (rewrite Ho; by eexists).
Qed.

Section ReadBack.
Context (inherited : option Val -> string -> option Val) (is_array : Val -> bool) (to_uint32 : Val -> option Z) (alive : bool)
  (class_prototype : string -> option Val).
(** [ToUint32] of an unsigned integer. *)
Context (uint32_law : forall n, is_u32 n -> to_uint32 (unsigned n) = Some n).

End ReadBack.

(** The guest makes a lookalike with a response's fields and prototype, and one real
    request; it calls the shell of requests on the runtime's response, and makes
    [Response] derive from [Headers] before constructing one. *)
Definition small_realm : Realm := mk_Realm ∅ 1.
Definition lookalike : list guest_op :=
  [GNew; GWrite 2 "_s" (unsigned 200); GSetPrototype 2 (Ref 70); GConstruct CLASS_REQUEST; GDelete 3 "_h"; GCallShell RequestShell 1;
   GReparent CLASS_RESPONSE (Class CLASS_HEADERS); GConstruct CLASS_RESPONSE].

Definition small_uint32 (v : Val) : option Z := match v with Num x => Some (f64_to_uint u32_max x) | _ => None end.


(** ** The clock never goes back

    Doubles in their order: the sign, then the exponent, then the significand. *)
Definition rank (x : f64) : Z * Z * Z :=
  match x with
  | S754_infinity true => (-2, 0, 0)
  | S754_finite true m e => (-1, - e, - Zpos m)
  | S754_zero _ => (0, 0, 0)
  | S754_finite false m e => (1, e, Zpos m)
  | S754_infinity false => (2, 0, 0)
  | S754_nan => (3, 0, 0)
  end.
Definition rank_lt (a b : Z * Z * Z) : Prop :=
  let '(a1, a2, a3) := a in let '(b1, b2, b3) := b in a1 < b1 \/ a1 = b1 /\ (a2 < b2 \/ a2 = b2 /\ a3 < b3).

Lemma f64_lt_rank a b : is_nan a = false -> is_nan b = false -> f64_lt a b = true <-> rank_lt (rank a) (rank b).
Proof.
  unfold f64_lt, SFltb. destruct a as [sa|[]| |[] ma ea], b as [sb|[]| |[] mb eb]; cbn; try done; intros _ _;
    try (destruct (Z.compare_spec ea eb) as [He|He|He]; cbn; [change (Pos.compare_cont Eq ma mb) with (Pos.compare ma mb); destruct (Pos.compare_spec ma mb); cbn|..]);
    (split; [intros; first [done | lia]|intros; first [done | lia]]).
Qed.

Lemma f64_lt_numbers a b : f64_lt a b = true -> is_nan a = false /\ is_nan b = false.
Proof. by destruct a as [| | |[] ma ea], b as [| | |[] mb eb]. Qed.

Lemma rank_lt_trans a b c : rank_lt a b -> rank_lt b c -> rank_lt a c.
Proof. destruct a as [[a1 a2] a3], b as [[b1 b2] b3], c as [[c1 c2] c3]. unfold rank_lt. lia. Qed.

(** Not before: what no later reading may be less than. *)
Definition not_before (a b : f64) : Prop := f64_lt a b = false.

Lemma not_before_step a b c : is_nan b = false -> not_before b a -> f64_lt b c = true -> not_before c a.
Proof.
  unfold not_before. intros Hb Hab Hbc. apply not_true_iff_false. intros Hca. destruct (f64_lt_numbers _ _ Hca) as [Hc Ha].
  apply f64_lt_rank in Hbc, Hca; [|done..]. assert (Hba : f64_lt b a = true) by (apply f64_lt_rank; [done..|by eapply rank_lt_trans]). congruence.
Qed.

Definition clock_at (now : f64) (ts : list f64) : f64 := fold_left (fun now t => if f64_lt now (f64_trunc t) then f64_trunc t else now) ts now.

Lemma clock_runs ts now : fold_left advance_frozen_clock_to ts (install_clock now) = Some (clock_at now ts).
Proof.
  unfold install_clock, clock_at. revert now. induction ts as [|t ts IH]; intros now; [done|]. cbn [fold_left advance_frozen_clock_to]. apply IH.
Qed.

Lemma f64_lt_irrefl a : f64_lt a a = false.
Proof.
  apply not_true_iff_false. intros H. destruct (f64_lt_numbers _ _ H) as [Hn _]. apply f64_lt_rank in H; [|done..]. destruct (rank a) as [[x y] z]. unfold rank_lt in H. lia.
Qed.

Lemma clock_at_spec ts now : is_nan now = false ->
  is_nan (clock_at now ts) = false /\ (forall p, not_before now p -> not_before (clock_at now ts) p) /\
  (forall t, t ∈ ts -> not_before (clock_at now ts) (f64_trunc t)) /\ (clock_at now ts = now \/ exists t, t ∈ ts /\ clock_at now ts = f64_trunc t).
Proof.
  revert now. induction ts as [|t ts IH]; intros now Hn; cbn [clock_at fold_left]; [split_and!; [done|done|intros t Ht; by apply elem_of_nil in Ht|by left]|].
  change (fold_left _ ts ?n) with (clock_at n ts). destruct (f64_lt now (f64_trunc t)) eqn:El.
  - destruct (f64_lt_numbers _ _ El) as [_ Ht]. destruct (IH (f64_trunc t) Ht) as (H1 & H2 & H3 & H4). split_and!; [done| | |].
    + intros p Hp. apply H2. by apply (not_before_step p now).
    + intros t' [->|Hin]%elem_of_cons; [|by apply H3]. apply H2. unfold not_before. apply f64_lt_irrefl.
    + right. destruct H4 as [->|(t' & Hin & ->)]; [exists t; by split; [left|]|exists t'; by split; [right|]].
  - destruct (IH now Hn) as (H1 & H2 & H3 & H4). split_and!; [done|done| |].
    + intros t' [->|Hin]%elem_of_cons; [|by apply H3]. by apply H2.
    + destruct H4 as [->|(t' & Hin & ->)]; [by left|right; exists t'; by split; [right|]].
Qed.

(** The clock of guest code never goes back.  Whatever it is advanced to, in
    whatever order - the wall clock stepping back, timers due in the past, what is no
    number - a reading is never before an earlier one nor before the whole
    milliseconds of any time it was advanced to, and it is always the time it was
    installed with or one of those. *)
Theorem frozen_clock_monotone now0 before after_ : is_nan now0 = false ->
  exists earlier now, fold_left advance_frozen_clock_to before (install_clock now0) = Some earlier /\
    fold_left advance_frozen_clock_to (before ++ after_) (install_clock now0) = Some now /\
    not_before earlier now0 /\ not_before now earlier /\ (forall t, t ∈ before ++ after_ -> not_before now (f64_trunc t)) /\
    (now = now0 \/ exists t, t ∈ before ++ after_ /\ now = f64_trunc t).
Proof.
  intros Hn. exists (clock_at now0 before), (clock_at now0 (before ++ after_)). destruct (clock_at_spec before now0 Hn) as (Hb & Hb0 & _).
  destruct (clock_at_spec (before ++ after_) now0 Hn) as (_ & _ & Hall & Hone). split_and!; [apply clock_runs..| | |done|done].
  - apply Hb0, f64_lt_irrefl.
  - unfold clock_at at 1. rewrite fold_left_app. change (fold_left _ after_ ?n) with (clock_at n after_). destruct (clock_at_spec after_ _ Hb) as (_ & Ha & _).
    apply Ha, f64_lt_irrefl.
Qed.

Lemma frozen_clock_monotone_witness :
  exists earlier now, fold_left advance_frozen_clock_to [f64_of_Z 50; f64_of_Z 20] (install_clock (f64_of_Z 40)) = Some earlier /\
    fold_left advance_frozen_clock_to ([f64_of_Z 50; f64_of_Z 20] ++ [S754_nan; f64_div (f64_of_Z 121) (f64_of_Z 2)]) (install_clock (f64_of_Z 40)) = Some now /\
    earlier = f64_of_Z 50 /\ now = f64_of_Z 60 /\ not_before now earlier.
Proof.
  destruct (frozen_clock_monotone (f64_of_Z 40) [f64_of_Z 50; f64_of_Z 20] [S754_nan; f64_div (f64_of_Z 121) (f64_of_Z 2)] eq_refl)
    as (earlier & now & He & Hn & _ & Hle & _).
  exists earlier, now. split_and!; [done|done| | |done]; [vm_compute in He; injection He as <-|vm_compute in Hn; injection Hn as <-]; vm_compute; reflexivity.
Defined.

(** ** What the runtime takes off the global object *)

(** [removed]: whether a deletion succeeds. *)
Definition delete_removed_globals {P} (removed : string -> option bool) (global : gmap string P) : gmap string P * result string unit :=
  fold_left (fun acc name =>
    match acc with
    | (g, Err e) => (g, Err e)
    | (g, Ok _) =>
      match removed name with
      | Some true => (delete name g, Ok tt)
      | _ => (g, Err ("delete " +:+ name +:+ " failed"))
      end
    end) ["SharedArrayBuffer"; "WebAssembly"]%string (global, Ok tt).

Lemma removed_globals_gone {P} removed (global : gmap string P) g :
  delete_removed_globals removed global = (g, Ok tt) ->
  g !! "SharedArrayBuffer"%string = None /\ g !! "WebAssembly"%string = None /\
  forall name, name ∉ ["SharedArrayBuffer"; "WebAssembly"]%string -> g !! name = global !! name.
Proof.
  unfold delete_removed_globals. cbn [fold_left]. destruct (removed "SharedArrayBuffer"%string) as [[]|]; [|done..].
  destruct (removed "WebAssembly"%string) as [[]|]; [|done..]. intros [= <-]. split_and!.
  - rewrite lookup_delete_ne by done. apply lookup_delete_eq.
  - apply lookup_delete_eq.
  - intros name Hn. rewrite !elem_of_cons in Hn. rewrite !lookup_delete_ne by (intros E; subst name; tauto). done.
Qed.
