(* ===== verification/Snapshot.v ===== *)
(** * The startup snapshot ([crates/core/src/snapshot.rs], with the installers it calls
    in [console.rs], [globals.rs], [webtypes.rs], [async_hooks.rs] and [timers.rs])

    At build time one context is furnished with the runtime's surface and written to a
    blob; every isolate boots from it.  A native function cannot be written: V8 records
    its place in a table of addresses that creation and restore are given.  A value is
    named by a number; scripts act on the global object's properties only, which is
    what the runtime's own scripts do, and no guest code exists yet. *)

From Stdlib Require Import Floats.SpecFloat.
From S2P Require Import Prelude F64 Types Errors Bridge Globals WebTypes.

(** ** Addresses outside the heap *)

(** The native callbacks of the runtime. *)
Inductive Callback :=
  | Cb_console_stdout | Cb_console_stderr
  | Cb_headers_shell | Cb_request_shell | Cb_response_shell
  | Cb_url_parse | Cb_url_set
  | Cb_stream_read | Cb_stream_cancel | Cb_stamp_stream_body
  | Cb_async_context_get | Cb_async_context_set
  | Cb_wait_until | Cb_set_timeout | Cb_clear_timeout
  | Cb_bridge_global.
#[export] Instance callback_eq_dec : EqDecision Callback.
Proof. solve_decision. Defined.

(** The sources scripts are compiled from: the one that lives in the binary, and text. *)
Inductive Source := RUNTIME_JS | SourceText (s : string).

Inductive ExternalReference := RefFunction (cb : Callback) | RefRuntimeJs | RefNull.
#[export] Instance external_reference_eq_dec : EqDecision ExternalReference.
Proof. solve_decision. Defined.

Definition functions : list Callback :=
  [Cb_console_stdout; Cb_console_stderr; Cb_headers_shell; Cb_request_shell; Cb_response_shell; Cb_url_parse; Cb_url_set;
   Cb_stream_read; Cb_stream_cancel; Cb_stamp_stream_body; Cb_async_context_get; Cb_async_context_set; Cb_wait_until;
   Cb_set_timeout; Cb_clear_timeout].

Definition external_references : list ExternalReference := map RefFunction functions ++ [RefRuntimeJs; RefNull].

(** What V8 reads of a table: the entries before the first null. *)
Fixpoint entries (refs : list ExternalReference) : list ExternalReference :=
  match refs with [] | RefNull :: _ => [] | r :: refs => r :: entries refs end.

(** ** A context *)

(** A native function: its callback, the class name and the internal fields of the
    instances it constructs. *)
Record Native := mk_Native { callback : Callback; class_name : string; instance_fields : Z }.
Definition plain_native (cb : Callback) : Native := mk_Native cb "" 0.

(** [symbols], [privates]: the properties of the global object under registry symbols
    and under private ones, by description; [console]: V8's object; [natives]: the
    functions made from callbacks; [externals]: the strings held outside the heap. *)
Record Realm := mk_Realm {
  glob : Glob;
  symbols : gmap string Z;
  privates : gmap string Z;
  console : option (gmap string Z);
  natives : gmap Z Native;
  externals : list ExternalReference;
  next_value : Z;
}.
Definition with_glob (c : Realm) (g : Glob) := mk_Realm g (symbols c) (privates c) (console c) (natives c) (externals c) (next_value c).
Definition with_symbol (c : Realm) (s : string) (v : Z) := mk_Realm (glob c) (<[s := v]> (symbols c)) (privates c) (console c) (natives c) (externals c) (next_value c).
Definition with_private (c : Realm) (s : string) (v : Z) := mk_Realm (glob c) (symbols c) (<[s := v]> (privates c)) (console c) (natives c) (externals c) (next_value c).
Definition with_method (c : Realm) (s : string) (v : Z) := mk_Realm (glob c) (symbols c) (privates c) (insert s v <$> console c) (natives c) (externals c) (next_value c).
Definition with_native (c : Realm) (n : Native) := mk_Realm (glob c) (symbols c) (privates c) (console c) (<[next_value c := n]> (natives c)) (externals c) (next_value c + 1).
Definition with_external (c : Realm) (r : ExternalReference) := mk_Realm (glob c) (symbols c) (privates c) (console c) (natives c) (externals c ++ [r]) (next_value c).

(** An installer: changes the context, and may fail half-way. *)
Definition Install (E A : Type) : Type := Realm -> Realm * result E A.
#[export] Instance install_ret {E} : MRet (Install E) := fun A a c => (c, Ok a).
#[export] Instance install_bind {E} : MBind (Install E) := fun A B f m c =>
  match m c with (c, Ok a) => f a c | (c, Err e) => (c, Err e) end.
Definition install_fail {E A} (e : E) : Install E A := fun c => (c, Err e).
Definition change {E} (f : Realm -> Realm) : Install E unit := fun c => (f c, Ok tt).
Definition on_glob {E A} (f : Glob -> Glob * result E A) : Install E A := fun c => let '(g, r) := f (glob c) in (with_glob c g, r).
(** [filter(|c| c.is_function())] and the like. *)
Definition need {E A} (v : option A) (e : E) : Install E A := match v with Some v => mret v | None => install_fail e end.

Fixpoint for_each {E A} (f : A -> Install E unit) (items : list A) : Install E unit :=
  match items with [] => mret tt | a :: items => f a;; for_each f items end.
Fixpoint collect {E A B} (f : A -> Install E B) (items : list A) : Install E (list B) :=
  match items with [] => mret [] | a :: items => b ← f a; bs ← collect f items; mret (b :: bs) end.

Section Installers.
(** [makes]: whether V8 makes a function of a native; [compile], [run_script], [call]:
    compiling a source, running it, calling a function - or the text of the exception,
    if there is one; [is_function], [elements]: what a value is; [script]: as in
    [Globals]. *)
Context (makes : Native -> bool) (compile : Source -> result (option string) unit)
  (run_script : Source -> Glob -> Glob * result (option string) Z) (call : Z -> list Z -> Glob -> Glob * result (option string) Z)
  (is_function : Z -> bool) (elements : Z -> option (list Z)) (script : string -> string -> Glob -> Glob * result RunError Z).

Definition build {E} (n : Native) (e : E) : Install E Z := fun c =>
  if makes n then (with_native c n, Ok (next_value c)) else (c, Err e).

(** ** [console] *)

Definition install_method (cb : Callback) (name : string) : Install RunError unit :=
  f ← build (plain_native cb) (Internal ("failed to create console." +:+ name)); change (fun c => with_method c name f).

Definition install_console : Install RunError unit := fun c =>
  match console c with
  | None => (c, Err (Internal "V8 console object is missing"))
  | Some _ =>
    (for_each (install_method Cb_console_stdout) ["log"; "debug"; "info"]%string;;
     for_each (install_method Cb_console_stderr) ["warn"; "error"]%string) c
  end.

(** ** The web classes *)

Definition exception_text (what : string) (e : option string) : string := what +:+ ": " +:+ default "no exception"%string e.
Definition caught {A} (what : string) (f : Glob -> Glob * result (option string) A) : Install string A :=
  on_glob (fun g => let '(g, r) := f g in (g, map_err (exception_text what) r)).

Definition class_key (name : string) : string := "iso4::webClass::" +:+ name.
Definition BODY_STREAM_FACTORY_KEY : string := "iso4::bodyStreamFactory".

Definition build_shell (shell : string * Callback) : Install string Z :=
  build (mk_Native shell.2 shell.1 INTERNAL_FIELD_COUNT) ("get_function for " +:+ shell.1 +:+ " failed").
Definition build_url (url : string * Callback) : Install string Z := build (plain_native url.2) ("create " +:+ url.1 +:+ " failed").

(** [filter]: an element that is a function. *)
Definition function_at (classes : list Z) (i : nat) : option Z := v ← classes !! i; if is_function v then Some v else None.
Definition keep_class (classes : list Z) (entry : nat * string) : Install string unit :=
  class ← need (function_at classes entry.1) ("web runtime did not return the " +:+ entry.2 +:+ " class");
  change (fun c => with_private c (class_key entry.2) class).

Definition install_with_streams (stream_read stream_cancel : Z) : Install string unit :=
  shells ← collect build_shell [("HeadersShell", Cb_headers_shell); ("RequestShell", Cb_request_shell); ("ResponseShell", Cb_response_shell)]%string;
  urls ← collect build_url [("urlParse", Cb_url_parse); ("urlSet", Cb_url_set)]%string;
  stamp ← build (plain_native Cb_stamp_stream_body) "create stampStreamBody failed"%string;
  change (fun c => with_external c RefRuntimeJs);;
  caught "compile web runtime" (fun g => (g, compile RUNTIME_JS));;
  factory ← caught "evaluate web runtime" (run_script RUNTIME_JS);
  need (if is_function factory then Some tt else None) "web runtime did not evaluate to a function"%string;;
  returned ← caught "install web runtime" (call factory (shells ++ urls ++ [stream_read; stream_cancel] ++ [stamp]));
  classes ← need (elements returned) "web runtime did not return its classes"%string;
  for_each (keep_class classes) [(0%nat, "Headers"); (1%nat, "Request"); (2%nat, "Response")]%string;;
  factory_fn ← need (function_at classes 3) "web runtime did not return the body-stream factory"%string;
  change (fun c => with_private c BODY_STREAM_FACTORY_KEY factory_fn).

Definition install_web_runtime : Install string unit :=
  read ← build (plain_native Cb_stream_read) "failed to create streamRead"%string;
  cancel ← build (plain_native Cb_stream_cancel) "failed to create streamCancel"%string;
  install_with_streams read cancel.

(** ** [AsyncLocalStorage] *)

Definition ASYNC_CONTEXT_SYMBOL : string := "iso4.async_hooks.AsyncLocalStorage".
Definition ASYNC_CONTEXT_FACTORY_SRC : string := "
(function (getContext, setContext) {
  'use strict';
  class AsyncLocalStorage {
    run(store, callback, ...args) {
      const parent = getContext();
      const frame = { p: parent, k: this, v: store };
      setContext(frame);
      try {
        return callback(...args);
      } finally {
        setContext(parent);
      }
    }
    getStore() {
      let frame = getContext();
      while (frame != null) {
        if (frame.k === this) return frame.v;
        frame = frame.p;
      }
      return undefined;
    }
  }
  return AsyncLocalStorage;
})
".

Definition internal {A} (message : string) (f : Glob -> Glob * result (option string) A) : Install RunError A :=
  on_glob (fun g => let '(g, r) := f g in (g, map_err (fun _ => Internal message) r)).

Definition install_async_context : Install RunError unit :=
  get_fn ← build (plain_native Cb_async_context_get) (Internal "failed to build async-context getter");
  set_fn ← build (plain_native Cb_async_context_set) (Internal "failed to build async-context setter");
  internal "failed to compile async-context factory" (fun g => (g, compile (SourceText ASYNC_CONTEXT_FACTORY_SRC)));;
  factory ← internal "failed to run async-context factory" (run_script (SourceText ASYNC_CONTEXT_FACTORY_SRC));
  need (if is_function factory then Some tt else None) (Internal "async-context factory is not a function");;
  class ← internal "async-context factory call failed" (call factory [get_fn; set_fn]);
  change (fun c => with_symbol c ASYNC_CONTEXT_SYMBOL class).

(** ** [waitUntil] and the timers *)

Definition ISO4_RUNTIME_WAITUNTIL_SYMBOL : string := "iso4.runtime.waitUntil".
Definition ALL_SETTLED_SRC : string := "(Promise.allSettled.bind(Promise))".
Definition GRACE_ALL_SETTLED_KEY : string := "iso4::graceAllSettled".

Definition install_wait_until : Install RunError unit :=
  f ← build (plain_native Cb_wait_until) (Internal "failed to create waitUntil");
  on_glob (fun g => define_global g "waitUntil" f false);;
  change (fun c => with_symbol c ISO4_RUNTIME_WAITUNTIL_SYMBOL f);;
  all_settled ← on_glob (fun g => eval_script script g ALL_SETTLED_SRC "<iso4:runtime-install>");
  change (fun c => with_private c GRACE_ALL_SETTLED_KEY all_settled).

(** [Globals.install_timers] with its natives in the context. *)
Definition install_timer (timer : string * Callback) : Install RunError unit :=
  f ← build (plain_native timer.2) (Internal ("failed to create " +:+ timer.1));
  on_glob (fun g => define_global g timer.1 f false).
Definition install_timers : Install RunError unit := for_each install_timer [("setTimeout", Cb_set_timeout); ("clearTimeout", Cb_clear_timeout)]%string.

(** ** Creation and boot *)

(** V8's snapshots: [reinstalled] is what a restore adds to the global object. *)
Class V8Snapshot (Blob : Type) := {
  create_blob : list ExternalReference -> Realm -> option Blob;
  can_be_rehashed : Blob -> bool;
  restore : list ExternalReference -> Blob -> Realm;
  reinstalled : gmap string GProp;
}.

(** [expect]: a failure is a panic with this text. *)
Definition expect {E A} (what : string) (m : Install E A) : Install string A := fun c =>
  let '(c, r) := m c in (c, map_err (fun _ => what) r).

Definition furnish : Install string unit :=
  expect "install console" install_console;;
  expect "install web runtime" install_web_runtime;;
  expect "install AsyncLocalStorage" install_async_context;;
  expect "install waitUntil" install_wait_until;;
  expect "install timers" install_timers.

Definition create {Blob} `{V8Snapshot Blob} (fresh : Realm) : result string Blob :=
  match furnish fresh with
  | (_, Err panic) => Err panic
  | (c, Ok _) =>
    match create_blob external_references c with
    | None => Err "create snapshot blob"%string
    | Some blob => if can_be_rehashed blob then Ok blob else Err "snapshot is not rehashable"%string
    end
  end.
End Installers.

(** A fresh isolate's context. *)
Definition create_params {Blob} `{V8Snapshot Blob} (SNAPSHOT_BLOB : Blob) : Realm := restore external_references SNAPSHOT_BLOB.

(** An isolate with its slots: the run table its natives find, and the clock. *)
Record Booted := mk_Booted { realm : Realm; run_table_slot : option Z; clock_slot : option f64 }.

Definition boot_context (wall_now_ms : f64) (removed : string -> option bool) (table : Z) (c : Realm) : Booted * result string unit :=
  let '(g, r) := delete_removed_globals removed (props (glob c)) in
  (mk_Booted (with_glob c (with_props (glob c) g)) (Some table) (install_clock wall_now_ms), r).

(** ** What V8 promises of a snapshot *)

(** A reference written under one table and read under another: its place is kept. *)
Definition moved (refs refs' : list ExternalReference) (r : ExternalReference) : option ExternalReference :=
  '(i, _) ← list_find (eq r) (entries refs); entries refs' !! i.
Definition moved_native (refs refs' : list ExternalReference) (n : Native) : option Native :=
  match moved refs refs' (RefFunction (callback n)) with
  | Some (RefFunction cb) => Some (mk_Native cb (class_name n) (instance_fields n))
  | _ => None
  end.
Definition relocated (refs refs' : list ExternalReference) (reinstalled : gmap string GProp) (c : Realm) : Realm :=
  mk_Realm (with_props (glob c) (reinstalled ∪ props (glob c))) (symbols c) (privates c) (console c)
    (omap (moved_native refs refs') (natives c)) (omap (moved refs refs') (externals c)) (next_value c).

Class V8SnapshotOk Blob `{V8Snapshot Blob} := {
  restores refs refs' c blob : create_blob refs c = Some blob -> restore refs' blob = relocated refs refs' reinstalled c;
  reinstalls name : is_Some (reinstalled !! name) <-> name ∈ ["SharedArrayBuffer"; "WebAssembly"]%string;
}.

(** ** What an installer adds *)

Fixpoint number_from (n : Z) (ns : list Native) (m : gmap Z Native) : gmap Z Native :=
  match ns with [] => m | a :: ns => number_from (n + 1) ns (<[n := a]> m) end.

Lemma number_from_lookup ns n m k :
  number_from n ns m !! k = if decide (n <= k < n + zlen ns) then ns !! Z.to_nat (k - n) else m !! k.
Proof.
  revert n m. induction ns as [|a ns IH]; intros n m; cbn [number_from length]; [by rewrite decide_False by (cbn; lia)|].
  rewrite IH. destruct (decide (k = n)) as [->|Hk].
  - rewrite decide_False, decide_True by lia. by rewrite lookup_insert_eq, Z.sub_diag.
  - rewrite lookup_insert_ne by done. destruct (decide (n <= k < n + Z.of_nat (S (length ns)))) as [Hin|Hin].
    + rewrite decide_True by lia. by replace (Z.to_nat (k - n)) with (S (Z.to_nat (k - (n + 1)))) by lia.
    + by rewrite decide_False by lia.
Qed.

Lemma number_from_app ns ms n m : number_from n (ns ++ ms) m = number_from (n + zlen ns) ms (number_from n ns m).
Proof.
  revert n m. induction ns as [|a ns IH]; intros n m; cbn [number_from app length]; [by rewrite Z.add_0_r|].
  rewrite IH. f_equal. lia.
Qed.

Record added (c c' : Realm) (ns : list Native) (ex : list ExternalReference) : Prop := mk_added {
  added_natives : natives c' = number_from (next_value c) ns (natives c);
  added_next : next_value c' = next_value c + zlen ns;
  added_externals : externals c' = externals c ++ ex;
}.

Lemma added_trans c1 c2 c3 ns ms ex ey : added c1 c2 ns ex -> added c2 c3 ms ey -> added c1 c3 (ns ++ ms) (ex ++ ey).
Proof.
  intros [A B C] [D E F]. split; [by rewrite D, number_from_app, A, B|rewrite E, B, length_app; lia|by rewrite F, C, app_assoc].
Qed.

Lemma bind_installed {E A B} (m : Install E A) (f : A -> Install E B) c c' b :
  (m ≫= f) c = (c', Ok b) -> exists a c1, m c = (c1, Ok a) /\ f a c1 = (c', Ok b).
Proof. unfold mbind, install_bind. destruct (m c) as [c1 [a|e]]; [by exists a, c1|done]. Qed.

Lemma change_installed {E} f c c' (a : unit) : change (E := E) f c = (c', Ok a) -> c' = f c /\ a = tt.
Proof. by intros [= <- <-]. Qed.

Lemma ret_installed {E A} (a b : A) c c' : mret (M := Install E) a c = (c', Ok b) -> c' = c /\ b = a.
Proof. by intros [= <- <-]. Qed.

Lemma need_installed {E A} (v : option A) (e : E) c c' a : need v e c = (c', Ok a) -> c' = c /\ v = Some a.
Proof. destruct v; cbn; [by intros [= -> ->]|done]. Qed.

Lemma glob_installed {E A} (f : Glob -> Glob * result E A) c c' a :
  on_glob f c = (c', Ok a) -> c' = with_glob c (f (glob c)).1 /\ (f (glob c)).2 = Ok a.
Proof. unfold on_glob. destruct (f (glob c)) as [g r]. by intros [= <- ->]. Qed.

Lemma build_installed {E} makes n (e : E) c c' f : build makes n e c = (c', Ok f) -> c' = with_native c n /\ f = next_value c.
Proof. unfold build. destruct (makes n); [by intros [= <- <-]|done]. Qed.

(** Takes an installer that succeeded apart, step by step. *)
Ltac installed :=
  repeat match goal with
  | H : (_ ≫= _) _ = (_, Ok _) |- _ => apply bind_installed in H as (? & ? & ? & ?); cbv beta in *
  | H : change _ _ = (_, Ok _) |- _ => apply change_installed in H as [? _]
  | H : mret _ _ = (_, Ok _) |- _ => apply ret_installed in H as [? ?]
  | H : build _ _ _ _ = (_, Ok _) |- _ => apply build_installed in H as [? ?]
  | H : need _ _ _ = (_, Ok _) |- _ => apply need_installed in H as [? ?]
  | H : on_glob _ _ = (_, Ok _) |- _ => apply glob_installed in H as [? ?]
  end; subst.

Section Surface.
Context (makes : Native -> bool) (compile : Source -> result (option string) unit)
  (run_script : Source -> Glob -> Glob * result (option string) Z) (call : Z -> list Z -> Glob -> Glob * result (option string) Z)
  (is_function : Z -> bool) (elements : Z -> option (list Z)) (script : string -> string -> Glob -> Glob * result RunError Z).

Definition console_methods : list (string * Callback) :=
  [("log", Cb_console_stdout); ("debug", Cb_console_stdout); ("info", Cb_console_stdout); ("warn", Cb_console_stderr); ("error", Cb_console_stderr)]%string.

Lemma console_installed c c' : install_console makes c = (c', Ok tt) ->
  added c c' (map (fun m => plain_native m.2) console_methods) [] /\
  glob c' = glob c /\ symbols c' = symbols c /\ privates c' = privates c /\
  exists m, console c' = Some m /\
    forall i name cb, console_methods !! i = Some (name, cb) -> m !! name = Some (next_value c + Z.of_nat i).
Proof.
  unfold install_console. destruct (console c) as [m0|] eqn:Hc; [|done]. intros H. cbn [for_each] in H. unfold install_method in H.
  installed. cbn [glob symbols privates console natives externals next_value with_method with_native]. rewrite Hc. cbn [fmap option_fmap option_map].
  split; [split; cbn; [done|lia|by rewrite app_nil_r]|]. split_and!; [done..|]. eexists. split; [reflexivity|].
  intros i name cb Hi. do 5 (destruct i as [|i]; [injection Hi as <- <-; simplify_map_eq; f_equal; lia|]). done.
Qed.

Definition web_natives : list Native :=
  [plain_native Cb_stream_read; plain_native Cb_stream_cancel;
   mk_Native Cb_headers_shell "HeadersShell" INTERNAL_FIELD_COUNT; mk_Native Cb_request_shell "RequestShell" INTERNAL_FIELD_COUNT;
   mk_Native Cb_response_shell "ResponseShell" INTERNAL_FIELD_COUNT;
   plain_native Cb_url_parse; plain_native Cb_url_set; plain_native Cb_stamp_stream_body].
Definition private_functions : list string := [class_key "Headers"; class_key "Request"; class_key "Response"; BODY_STREAM_FACTORY_KEY].

Lemma function_at_is classes i v : function_at is_function classes i = Some v -> is_function v = true.
Proof. unfold function_at. destruct (classes !! i) as [w|]; cbn; [|done]. destruct (is_function w) eqn:Hw; [by intros [= <-]|done]. Qed.

Lemma web_installed c c' : install_web_runtime makes compile run_script call is_function elements c = (c', Ok tt) ->
  added c c' web_natives [RefRuntimeJs] /\ console c' = console c /\ symbols c' = symbols c /\
  forall key, key ∈ private_functions -> exists f, privates c' !! key = Some f /\ is_function f = true.
Proof.
  unfold install_web_runtime, install_with_streams. cbn [collect for_each]. unfold build_shell, build_url, keep_class, caught. cbn [fst snd]. intros H.
  installed. cbn [with_glob with_external with_native with_private glob console symbols privates natives externals next_value].
  repeat match goal with Hf : function_at _ _ _ = Some _ |- _ => apply function_at_is in Hf end.
  split_and!; [split; cbn; [done|lia|done]|done..|]. unfold private_functions. intros key Hkey.
  repeat (apply elem_of_cons in Hkey as [->|Hkey]; [eexists; split; [simplify_map_eq; reflexivity|done]|]). by apply elem_of_nil in Hkey.
Qed.

Lemma async_installed c c' : install_async_context makes compile run_script call is_function c = (c', Ok tt) ->
  added c c' [plain_native Cb_async_context_get; plain_native Cb_async_context_set] [] /\ console c' = console c /\ privates c' = privates c /\
  exists class, symbols c' = <[ASYNC_CONTEXT_SYMBOL := class]> (symbols c).
Proof.
  unfold install_async_context, internal. intros H. installed.
  cbn [with_glob with_native with_symbol glob console symbols privates natives externals next_value].
  split_and!; [split; cbn; [done|lia|by rewrite app_nil_r]|done..|]. by eexists.
Qed.

Lemma wait_until_installed c c'
    (Hpure : forall filename g, props (script ALL_SETTLED_SRC filename g).1 = props g) :
  install_wait_until makes script c = (c', Ok tt) ->
  added c c' [plain_native Cb_wait_until] [] /\ console c' = console c /\
  (exists v, privates c' = <[GRACE_ALL_SETTLED_KEY := v]> (privates c)) /\
  symbols c' = <[ISO4_RUNTIME_WAITUNTIL_SYMBOL := next_value c]> (symbols c) /\
  props (glob c') = <["waitUntil"%string := DataProp (next_value c) true false true]> (props (glob c)).
Proof.
  unfold install_wait_until. intros H. installed.
  cbn [with_glob with_native with_symbol with_private glob console symbols privates natives externals next_value].
  split_and!; [split; cbn; [done|lia|by rewrite app_nil_r]|done|by eexists|done|].
  unfold eval_script. rewrite Hpure. cbn [ran_guest props].
  pose proof (define_global_spec (glob c) "waitUntil" (next_value c) false) as Hd.
  cbn [with_glob with_native glob next_value] in *. destruct (define_global _ _ _ _) as [g r]. cbn [fst snd] in *.
  match goal with Hr : r = Ok _ |- _ => rewrite Hr in Hd end. apply Hd.
Qed.

Lemma timer_installed name cb c c' : install_timer makes (name, cb) c = (c', Ok tt) ->
  added c c' [plain_native cb] [] /\ console c' = console c /\ privates c' = privates c /\ symbols c' = symbols c /\
  props (glob c') = <[name := DataProp (next_value c) true false true]> (props (glob c)).
Proof.
  unfold install_timer. intros H. installed. cbn [with_glob with_native glob console symbols privates natives externals next_value fst snd] in *.
  split_and!; [split; cbn; [done|lia|by rewrite app_nil_r]|done..|].
  pose proof (define_global_spec (glob c) name (next_value c) false) as Hd. destruct (define_global _ _ _ _) as [g r]. cbn [fst snd] in *. subst r. apply Hd.
Qed.

(** ** What creation leaves *)

Definition timer_globals : list (string * Callback) := [("waitUntil", Cb_wait_until); ("setTimeout", Cb_set_timeout); ("clearTimeout", Cb_clear_timeout)]%string.
Definition surface_natives : list Native :=
  map (fun m => plain_native m.2) console_methods ++ web_natives ++ [plain_native Cb_async_context_get; plain_native Cb_async_context_set] ++
  map (fun g => plain_native g.2) timer_globals.
Definition is_native (c : Realm) (f : Z) (cb : Callback) : Prop := natives c !! f = Some (plain_native cb).

(** The runtime's surface: every function is the native its name stands for, what guest
    code finds as a global is not enumerable, what the runtime needs itself is where no
    guest code reaches. *)
Record surface (c : Realm) : Prop := mk_surface {
  surface_console name cb : (name, cb) ∈ console_methods -> exists m f, console c = Some m /\ m !! name = Some f /\ is_native c f cb;
  surface_global name cb : (name, cb) ∈ timer_globals ->
    exists f, props (glob c) !! name = Some (DataProp f true false true) /\ is_native c f cb /\
      (cb = Cb_wait_until -> symbols c !! ISO4_RUNTIME_WAITUNTIL_SYMBOL = Some f);
  surface_async : is_Some (symbols c !! ASYNC_CONTEXT_SYMBOL);
  surface_private key : key ∈ private_functions -> exists f, privates c !! key = Some f /\ is_function f = true;
  surface_settled : is_Some (privates c !! GRACE_ALL_SETTLED_KEY);
}.

Lemma expect_installed {E A} what (m : Install E A) c c' a : expect what m c = (c', Ok a) -> m c = (c', Ok a).
Proof. unfold expect. destruct (m c) as [c1 [b|e]]; cbn; [by intros [= -> ->]|done]. Qed.

Lemma numbered_native n c ns (Hc : natives c = number_from n ns ∅) i cb : ns !! i = Some (plain_native cb) -> is_native c (n + Z.of_nat i) cb.
Proof.
  intros Hi. unfold is_native. rewrite Hc, number_from_lookup. pose proof (lookup_lt_Some _ _ _ Hi). rewrite decide_True by lia.
  by replace (Z.to_nat (n + Z.of_nat i - n)) with i by lia.
Qed.

Lemma furnish_installed fresh made (Hnatives : natives fresh = ∅) (Hexternals : externals fresh = [])
    (Hpure : forall filename g, props (script ALL_SETTLED_SRC filename g).1 = props g) :
  furnish makes compile run_script call is_function elements script fresh = (made, Ok tt) ->
  natives made = number_from (next_value fresh) surface_natives ∅ /\ externals made = [RefRuntimeJs] /\ surface made.
Proof.
  unfold furnish, install_timers. intros H. cbn [for_each] in H.
  repeat match goal with
  | H : (_ ≫= _) _ = (_, Ok _) |- _ => apply bind_installed in H as ([] & ? & ? & ?); cbv beta in *
  | H : expect _ _ _ = (_, Ok _) |- _ => apply expect_installed in H
  | H : mret _ _ = (_, Ok _) |- _ => apply ret_installed in H as [-> _]
  end.
  rename select (install_console _ _ = _) into Hconsole. apply console_installed in Hconsole as (A1 & _ & S1 & P1 & m & C1 & M1).
  rename select (install_web_runtime _ _ _ _ _ _ _ = _) into Hweb. apply web_installed in Hweb as (A2 & C2 & S2 & P2).
  rename select (install_async_context _ _ _ _ _ _ = _) into Hasync. apply async_installed in Hasync as (A3 & C3 & P3 & class & S3).
  rename select (install_wait_until _ _ _ = _) into Hwait. apply wait_until_installed in Hwait as (A4 & C4 & (settled & P4) & S4 & G4); [|done].
  rename select (install_timer _ ("setTimeout"%string, _) _ = _) into Hset. apply timer_installed in Hset as (A5 & C5 & P5 & S5 & G5).
  rename select (install_timer _ ("clearTimeout"%string, _) _ = _) into Hclear. apply timer_installed in Hclear as (A6 & C6 & P6 & S6 & G6).
  pose proof (added_trans _ _ _ _ _ _ _ A1 (added_trans _ _ _ _ _ _ _ A2 (added_trans _ _ _ _ _ _ _ A3 (added_trans _ _ _ _ _ _ _ A4
    (added_trans _ _ _ _ _ _ _ A5 A6))))) as A.
  assert (N : natives x4 = number_from (next_value fresh) surface_natives ∅) by (rewrite <- Hnatives; apply A).
  split_and!; [done|rewrite (added_externals _ _ _ _ A), Hexternals; done|].
  assert (E1 : next_value x1 = next_value fresh + 15) by (rewrite (added_next _ _ _ _ A3), (added_next _ _ _ _ A2), (added_next _ _ _ _ A1); cbn; lia).
  assert (E2 : next_value x2 = next_value fresh + 16) by (rewrite (added_next _ _ _ _ A4); cbn; lia).
  assert (E3 : next_value x3 = next_value fresh + 17) by (rewrite (added_next _ _ _ _ A5); cbn; lia).
  split.
  - intros name cb Hin. apply list_elem_of_lookup in Hin as [i Hi]. exists m, (next_value fresh + Z.of_nat i). split_and!; [congruence|by eapply M1|].
    eapply numbered_native; [exact N|]. unfold surface_natives. rewrite lookup_app_l by (rewrite length_map; by eapply lookup_lt_Some). by rewrite list_lookup_fmap, Hi.
  - intros name cb Hin. rewrite G6, G5, G4, S6, S5, S4, E1, E2, E3.
    apply elem_of_cons in Hin as [[= -> ->]|Hin]; [|apply elem_of_cons in Hin as [[= -> ->]|Hin]; [|apply elem_of_cons in Hin as [[= -> ->]|Hin]]].
    + eexists. rewrite !lookup_insert_ne, lookup_insert_eq by done. split_and!; [done|by apply (numbered_native _ _ _ N 15)|by rewrite lookup_insert_eq].
    + eexists. rewrite lookup_insert_ne, lookup_insert_eq by done. split_and!; [done|by apply (numbered_native _ _ _ N 16)|done].
    + eexists. rewrite lookup_insert_eq. split_and!; [done|by apply (numbered_native _ _ _ N 17)|done].
    + by apply elem_of_nil in Hin.
  - rewrite S6, S5, S4, S3, lookup_insert_ne, lookup_insert_eq by done. done.
  - intros key Hkey. rewrite P6, P5, P4, P3. rewrite lookup_insert_ne; [by apply P2|]. intros <-.
    repeat (apply elem_of_cons in Hkey as [Hkey|Hkey]; [done|]). by apply elem_of_nil in Hkey.
  - rewrite P6, P5, P4, lookup_insert_eq. done.
Qed.

(** The installation is that of [Globals] with the natives built here. *)
Lemma timers_agree c c' : install_timers makes c = (c', Ok tt) ->
  Globals.install_timers (fun name => Some (if String.eqb name "setTimeout" then next_value c else next_value c + 1)) (glob c) = (glob c', Ok tt).
Proof.
  unfold install_timers, install_timer. cbn [for_each]. intros H. installed. unfold Globals.install_timers.
  cbn [define_each make_timer built mbind result_bind String.eqb with_glob with_native glob next_value fst snd] in *.
  destruct (define_global (glob c) _ _ _) as [g r]. cbn [fst snd] in *. subst r.
  destruct (define_global g _ _ _) as [g' r]. cbn [fst snd] in *. by subst r.
Qed.
End Surface.

(** ** What boots *)

Lemma moved_same refs r : r ∈ entries refs -> moved refs refs r = Some r.
Proof.
  intros Hr. unfold moved. destruct (list_find_elem_of (eq r) _ r Hr eq_refl) as [[i r'] Hf]. rewrite Hf. cbn.
  apply list_find_Some in Hf as (Hi & -> & _). done.
Qed.

Lemma natives_in_table cb : RefFunction cb ∈ entries external_references <-> cb ∈ functions.
Proof.
  change (entries external_references) with (map RefFunction functions ++ [RefRuntimeJs]). rewrite elem_of_app, list_elem_of_singleton, list_elem_of_fmap.
  split; [intros [(cb' & [= ->] & Hin)|[=]]; done|]. intros Hin. left. by exists cb.
Qed.

Lemma surface_callbacks n : n ∈ surface_natives -> callback n ∈ functions.
Proof. revert n. apply Forall_forall. apply (bool_decide_unpack (Forall (fun n => callback n ∈ functions) surface_natives)). vm_compute. exact I. Qed.

Lemma callbacks_installed cb : cb ∈ functions -> exists n, n ∈ surface_natives /\ callback n = cb.
Proof.
  intros Hin. assert (H : cb ∈ map callback surface_natives) 
    by (revert cb Hin; apply Forall_forall, (bool_decide_unpack (Forall (fun cb => cb ∈ map callback surface_natives) functions)); vm_compute; exact I).
  apply list_elem_of_fmap in H as (n & -> & Hn). by exists n.
Qed.

Lemma elem_of_numbered n ns k a : number_from n ns ∅ !! k = Some a -> a ∈ ns.
Proof. rewrite number_from_lookup. case_decide; [apply list_elem_of_lookup_2|by rewrite lookup_empty]. Qed.

(** With the table it was written under, a furnished context comes back as it was. *)
Lemma relocated_same reinstalled c n : natives c = number_from n surface_natives ∅ -> externals c = [RefRuntimeJs] ->
  relocated external_references external_references reinstalled c = with_glob c (with_props (glob c) (reinstalled ∪ props (glob c))).
Proof.
  intros Hn He. unfold relocated, with_glob. f_equal; [|by rewrite He].
  apply map_eq. intros k. rewrite lookup_omap. destruct (natives c !! k) as [a|] eqn:Hk; cbn; [|done].
  unfold moved_native. rewrite moved_same; [by destruct a|]. apply natives_in_table, surface_callbacks. rewrite Hn in Hk. by eapply elem_of_numbered.
Qed.

Definition removed_names : list string := ["SharedArrayBuffer"; "WebAssembly"]%string.

Lemma removal_succeeds {P} removed (global : gmap string P) :
  (delete_removed_globals removed global).2 = Ok tt <-> removed "SharedArrayBuffer"%string = Some true /\ removed "WebAssembly"%string = Some true.
Proof.
  unfold delete_removed_globals. cbn [fold_left]. destruct (removed "SharedArrayBuffer"%string) as [[]|], (removed "WebAssembly"%string) as [[]|]; cbn; naive_solver.
Qed.

(** What a deletion of the two names leaves of the properties a restore gives. *)
Lemma removed_props (made g : gmap string GProp) `{V8SnapshotOk Blob} :
  g !! "SharedArrayBuffer"%string = None /\ g !! "WebAssembly"%string = None /\
    (forall name, name ∉ removed_names -> g !! name = (reinstalled ∪ made) !! name) ->
  forall name, g !! name = if decide (name ∈ removed_names) then None else made !! name.
Proof.
  intros (H1 & H2 & H3) name. case_decide as Hn.
  - unfold removed_names in Hn. by apply elem_of_cons in Hn as [->|[->|Hn%elem_of_nil]%elem_of_cons].
  - rewrite H3 by done. apply lookup_union_r. destruct (reinstalled !! name) eqn:Hr; [|done]. destruct Hn. apply reinstalls. by rewrite Hr.
Qed.

(** The surface lies outside the names that are removed. *)
Lemma surface_moved is_function made c : surface is_function made ->
  natives c = natives made -> symbols c = symbols made -> privates c = privates made -> console c = console made ->
  (forall name, name ∉ removed_names -> props (glob c) !! name = props (glob made) !! name) -> surface is_function c.
Proof.
  intros [A B C D E] Hn Hs Hp Hc Hg. split; unfold is_native; rewrite ?Hn, ?Hs, ?Hp, ?Hc; [done| |done..].
  intros name cb Hin. rewrite Hg; [by apply B|].
  assert (Hall : Forall (fun p => p.1 ∉ removed_names) timer_globals) by (apply (bool_decide_unpack (Forall _ _)); vm_compute; exact I).
  rewrite Forall_forall in Hall. apply (Hall _ Hin).
Qed.

Section Boot.
Context {Blob : Type} `{V8SnapshotOk Blob}.
Context (makes : Native -> bool) (compile : Source -> result (option string) unit)
  (run_script : Source -> Glob -> Glob * result (option string) Z) (call : Z -> list Z -> Glob -> Glob * result (option string) Z)
  (is_function : Z -> bool) (elements : Z -> option (list Z)) (script : string -> string -> Glob -> Glob * result RunError Z).
Local Abbreviation furnish := (furnish makes compile run_script call is_function elements script).
Local Abbreviation create := (create makes compile run_script call is_function elements script).

(** C40. An isolate boots with what was installed at build time.  Of a context that
    held nothing of the runtime, creation leaves a blob only if every installer
    succeeded; every isolate that boots from it has the natives, the symbols, the
    private slots and the console of that context - each native found again in the
    table, which lists exactly the callbacks installed - under the names they stand
    for, with its own run table and its clock at the wall time; and its global
    object's properties are those of that context without [SharedArrayBuffer] and
    [WebAssembly], which V8 has put back.  Boot fails exactly if one of the two cannot
    be deleted. *)
Theorem isolates_boot_furnished fresh blob wall_now_ms removed table
    (Hfresh : natives fresh = ∅ /\ externals fresh = [])
    (Hpure : forall filename g, props (script ALL_SETTLED_SRC filename g).1 = props g)
    (Hcreate : create fresh = Ok blob) :
  let '(b, r) := boot_context wall_now_ms removed table (create_params blob) in
  let c := realm b in let made := (furnish fresh).1 in
  (furnish fresh).2 = Ok tt /\ run_table_slot b = Some table /\ clock_slot b = Some wall_now_ms /\
  natives c = natives made /\ symbols c = symbols made /\ privates c = privates made /\ console c = console made /\ externals c = externals made /\
  (forall cb, cb ∈ functions <-> exists f n, natives c !! f = Some n /\ callback n = cb) /\
  (is_ok r = true <-> removed "SharedArrayBuffer"%string = Some true /\ removed "WebAssembly"%string = Some true) /\
  (is_ok r = true -> surface is_function c /\
     forall name, props (glob c) !! name = if decide (name ∈ removed_names) then None else props (glob made) !! name).
Proof.
  unfold create, Snapshot.create in Hcreate. destruct (furnish fresh) as [made [[]|]] eqn:Hf; [|done].
  destruct (create_blob external_references made) as [blob0|] eqn:Hblob; [|done]. destruct (can_be_rehashed blob0); [|done]. injection Hcreate as ->.
  destruct Hfresh as [Hn He]. destruct (furnish_installed _ _ _ _ _ _ _ _ _ Hn He Hpure Hf) as (N & X & S).
  unfold boot_context, create_params. rewrite (restores _ _ _ _ Hblob), (relocated_same _ _ _ N X).
  pose proof (removal_succeeds removed (reinstalled ∪ props (glob made))) as Hr. pose proof (removed_globals_gone removed (reinstalled ∪ props (glob made))) as Hg.
  cbn [with_glob with_props glob props]. destruct (delete_removed_globals _ _) as [g r]. specialize (Hg g).
  cbn [realm run_table_slot clock_slot fst snd natives symbols privates console externals glob props with_glob with_props] in *.
  split_and!; try done.
  - intros cb. split.
    + intros Hcb. apply callbacks_installed in Hcb as (a & Ha & <-). apply list_elem_of_lookup in Ha as [i Hi]. exists (next_value fresh + Z.of_nat i), a.
      split; [|done]. rewrite N, number_from_lookup. pose proof (lookup_lt_Some _ _ _ Hi). rewrite decide_True by lia.
      by replace (Z.to_nat (next_value fresh + Z.of_nat i - next_value fresh)) with i by lia.
    + intros (f & a & Ha & <-). rewrite N in Ha. apply surface_callbacks. by eapply elem_of_numbered.
  - rewrite <- Hr. destruct r as [[]|]; done.
  - intros Hok. destruct r as [[]|]; [|done]. specialize (Hg eq_refl). pose proof (removed_props _ _ Hg) as Hgone. split; [|exact Hgone].
    apply (surface_moved is_function made); [done..|]. intros name Hname. cbn [glob with_glob with_props props]. rewrite Hgone. by rewrite decide_False.
Qed.
End Boot.

(** ** Witness *)

Module SnapshotDemo.
(** A blob keeps the table it was written under beside the context. *)
#[export] Instance v8 : V8Snapshot (list ExternalReference * Realm) := {
  create_blob refs c := Some (refs, c);
  can_be_rehashed _ := true;
  restore refs' blob := relocated blob.1 refs' {["SharedArrayBuffer"%string := DataProp (-1) true false true; "WebAssembly"%string := DataProp (-2) true false true]} blob.2;
  reinstalled := {["SharedArrayBuffer"%string := DataProp (-1) true false true; "WebAssembly"%string := DataProp (-2) true false true]};
}.

#[export] Instance v8_ok : V8SnapshotOk (list ExternalReference * Realm).
Proof.
  split; [by intros refs refs' c blob [= <-]|]. intros name. cbn [reinstalled v8]. rewrite !elem_of_cons, elem_of_nil.
  rewrite !lookup_insert_is_Some', lookup_singleton_is_Some || rewrite !lookup_insert_is_Some'. naive_solver.
Qed.

(** The web runtime defines its classes; other scripts give a value. *)
Definition call (f : Z) (args : list Z) (g : Glob) : Glob * result (option string) Z :=
  if (length args =? 8)%nat then (with_props g (<["Headers"%string := DataProp (-11) true false true]> (props g)), Ok (-3)) else (g, Ok (-4)).
Definition fresh : Realm := mk_Realm (mk_Glob ∅ true []) ∅ ∅ (Some ∅) ∅ [] 100.
#[local] Abbreviation creates := (create (fun _ => true) (fun _ => Ok tt) (fun _ g => (g, Ok (-5))) call (fun _ => true) (fun _ => Some [-11; -12; -13; -14])
  (fun _ _ g => (g, Ok (-6)))).
Definition blob : list ExternalReference * Realm := match creates fresh with Ok b => b | Err _ => ([], fresh) end.
#[local] Abbreviation boots := (boot_context (f64_of_Z 5) (fun _ => Some true) 77 (create_params blob)).

Lemma created : creates fresh = Ok blob.
Proof. vm_compute. reflexivity. Qed.

Lemma booted : is_ok boots.2 = true /\ props (glob (realm boots.1)) !! "Headers"%string = Some (DataProp (-11) true false true).
Proof. split; vm_compute; reflexivity. Qed.
End SnapshotDemo.

#[local] Existing Instance SnapshotDemo.v8.
#[local] Existing Instance SnapshotDemo.v8_ok.
Lemma isolates_boot_furnished_witness : exists b,
  surface (fun _ => true) (realm b) /\ props (glob (realm b)) !! "Headers"%string = Some (DataProp (-11) true false true) /\
  props (glob (realm b)) !! "WebAssembly"%string = None.
Proof.
  pose proof (isolates_boot_furnished _ _ _ _ _ _ (fun _ _ g => (g, Ok (-6))) SnapshotDemo.fresh SnapshotDemo.blob (f64_of_Z 5) (fun _ => Some true) 77
    (conj eq_refl eq_refl) (fun _ _ => eq_refl) SnapshotDemo.created) as Hw.
  pose proof SnapshotDemo.booted as [Hr Hp]. destruct (boot_context _ _ _ _) as [b r]. cbn [fst snd] in Hr, Hp.
  destruct Hw as (_ & _ & _ & _ & _ & _ & _ & _ & _ & _ & Hw). destruct (Hw Hr) as [Hs Hg].
  exists b. split; [exact Hs|]. split; [exact Hp|]. rewrite Hg. reflexivity.
Defined.
